(* ===== verification/_CoqProject ===== *)
-Q . S2P
Prelude.v
Number.v
NumberFacts.v
Common.v
Lexer.v
Sim.v
LexerFacts.v
Expr.v
ExprFacts.v
Syntax.v
Parser.v
ParserFacts.v
ParserProps.v
Targets.v
Total.v
TargetsFacts.v
Plan.v
Options.v
Apply.v
ApplyFacts.v
Resolve.v
IndexFacts.v
ResolveFacts.v
ResolveProps.v
Elab.v
ElabFacts.v
ElabProps.v
ElabOrder.v
Decode.v
DecodeFacts.v
Ir.v
Folding.v
Eval.v
FoldingFacts.v
PassFacts.v
PassProps.v
PassClaims.v
ControlFlow.v
ControlSem.v
ControlFacts.v
ControlProps.v
ControlClaims.v
Scc.v
SccFacts.v
SccOrder.v
Analysis.v
SiteFacts.v
AnalysisClaims.v
Names.v
NamesFacts.v
RewriteFacts.v
RegistryFacts.v
NamesClaims.v
Text.v
Inactive.v
InactiveFacts.v
Budget.v
BudgetClaims.v
Timescale.v
TimescaleFacts.v
MapWork.v
MapPaths.v
GlobFacts.v
MapBuffers.v
ChoiceFacts.v
Macros.v
MapParse.v
Admission.v
ParseFacts.v
AdmissionFacts.v
MapPrint.v
MapClaims.v
Discover.v
DiscoverFacts.v
Lint.v
LintFacts.v
Config.v
ConfigFacts.v
Udp.v
UdpFacts.v
