(* ===== verification/Prelude.v ===== *)
(** * Lapligence: verification development

    Lapligence ([llg]) compiles SystemVerilog to a C program that simulates
    it.  A front end (slang, over FFI) elaborates the sources into a design
    database; the simulator lowers the design to an intermediate
    representation (IR) of expressions, statements, subprograms and processes;
    an optimiser rewrites the IR; an analysis finds where processes suspend and
    how subprograms are called; a C emitter prints the program; and SDF files
    annotate delays and timing limits on the running model.  This development
    models, from the Rust sources under [src/], the parts of that chain that
    are self-contained algorithms, and proves them correct.

    ** The parts and their files

    Shared.  [Prelude] (this file) holds machine integers with their
    wrap-around, the outcome monad of fallible stateful code (a value, an
    error, a panic, or fuel used up), its notations, and lemmas on lists, text
    and integers.  [Sim] and [Total] are the program logics over that monad:
    simulation of one computation by another, and "returns or fails, never
    panics".

    SDF back-annotation ([src/sim/sdf/*.rs]).
    - [Number]/[NumberFacts]: exact decimals ([number.rs]).
    - [Common], [Lexer]/[LexerFacts]: positions, limits ([mod.rs]) and the
      streaming lexer ([lexer.rs]).  The class [ByteSource] has two instances:
      [Stream] reads buffers with pushback and fast paths as the code does,
      [Flat] is a lexer over the whole text; the parser is written against the
      class [Lexing], so a theorem about [Flat] transfers to [Stream].
    - [Expr]/[ExprFacts], [Syntax], [Parser]/[ParserFacts]/[ParserProps]:
      conditions ([expr.rs]), records ([syntax.rs]), the reader ([parser.rs]).
    - [Targets]/[TargetsFacts], [Plan]: the instance tree
      ([targets.rs]) and the plan of operations ([plan.rs]).
    - [Resolve] with [IndexFacts], [ResolveFacts], [ResolveProps]: records matched against the tree ([resolve.rs]).
    - [Options], [Apply]/[ApplyFacts]: settings and the values
      of a plan in ticks ([apply.rs]).
    A file is parsed cell by cell ([Parser]), each cell is resolved against the
    targets into the plan ([Resolve]), and the plan is valued ([Apply]); the
    invariants [cell_ok] (parser), [targets_ok] (tree) and [plan_ok] (plan) are
    the interfaces between them.

    Four-state values ([src/core/elab.rs], [src/core/value.rs]).  [Elab] models
    bits, vectors and every operator; [Decode] the stored payloads and their
    decoding.  [ElabFacts] and [ElabProps] prove the bit-level loops equal to
    integer arithmetic, [ElabOrder] treats unknown bits through an information
    order with [Proper] instances, [DecodeFacts] the texts.

    Optimiser ([src/sim/opt/passes/*.rs], [src/sim/opt/passes.rs]).  [Ir] has
    the constants and expressions, [Folding] the folding and identity passes,
    [Eval] what an expression denotes and the type rules of the validator;
    [FoldingFacts], [PassFacts], [PassProps] and [PassClaims] prove
    the passes correct against [Eval].  [ControlFlow] has the statements and
    the pruning pass, [ControlSem] what statements do; [ControlFacts],
    [ControlProps] and [ControlClaims] prove that an optimised body has the runs of the original.

    Coroutine analysis ([src/sim/execution/analysis.rs], [recursion.rs]).
    [Scc] has the graph algorithms, [Analysis] the suspension sites, poll
    depths and recursive subprograms, over the statements of [ControlFlow];
    [SccFacts], [SccOrder], [SiteFacts] and
    [AnalysisClaims] prove them.

    Names of the emitted C ([src/sim/emit_c/names.rs]).  [Names] has the
    encodings of source names, the scanner of identifiers in emitted text, the
    copying and the in-place rewrite (a buffer with read, write and copy
    positions) and the registry that bounds the length of identifiers;
    [NamesFacts] decodes the prefix code and cuts a text into identifiers and
    gaps, [RewriteFacts] and [RegistryFacts] treat the rewrites and the registry, [NamesClaims] has the theorems.

    Time literals ([src/sim/codegen/timescale.rs]).  [Timescale] models the
    exact rationals of literals, their rounding, and real delays over the
    53-bit floats of the Standard Library; [TimescaleFacts]
    proves them.

    Language server ([src/bin/llg_ls]).  [Inactive] models the regions hidden
    by conditional directives ([inactive_ranges.rs]) over texts of code points
    ([Text]), with [InactiveFacts]; [Budget] the slots of
    a module explorer response ([module_explorer/budget.rs]) and the catalog
    loop that spends them, with [BudgetClaims].

    Compilation driver ([src/core/compile.rs], [compile/library_mapping.rs],
    [compile/library_configs.rs]).  Library maps say which source files belong
    to which library.  [MapWork] has the work budget that every operation on
    maps charges, and two logics over it: [costs] (the result and exactly what
    is charged) and [safely] (returns or fails).  [MapPaths] has logical paths,
    their keys and the pattern matcher; [MapBuffers] the buffers, the choice of
    a library for each and its publication; [Macros] the include-file macros,
    which maps use too; [MapParse] the preprocessing, tokens, declarations and
    configuration spans of maps; [Admission] the driver for maps in memory.
    [GlobFacts] proves the backtracking matchers exact and keys normal forms,
    [ChoiceFacts] that buffers follow their offers, [ParseFacts] that reading is
    total, [AdmissionFacts] composes them; [MapPrint] and [MapClaims] have the
    theorems.

    Project files ([src/config]).  [Discover] has the paths, globs and filters
    of [paths.rs] and the walk over a directory tree, with its fuel the number
    of directories; [DiscoverFacts] proves the two matching tables exact and
    what a walk finds.  [Config] has the raw file of [schema.rs], its
    resolution ([resolve.rs]), the defaults ([mod.rs]) and loading
    ([load.rs]), in the order of the checks and with their messages;
    [ConfigFacts] the invariant of resolved files, their printing, discovery
    with them, and the outcomes of loading.

    Lint ([src/core/lint/mod.rs]).  [Lint] models the settings of rules, the
    reader of settings, the loop over rules (what a rule checks is a parameter)
    and the JSON report; [LintFacts] has a JSON reader and the theorems.
    ** What the theorems show

    - Totality: parsing, resolving, applying and analysing always return a
      value or a reported error: no panic of the model is reachable and the
      fuel of every loop is enough ([parse_total], [resolve_total],
      [annotate_total], [condition_total], [ident_terminates],
      [analysis_total]).
    - Refinement and equivalence: the streaming lexer and parser against the
      reference ones for every split into buffers ([stream_refines_flat],
      [parse_buffers], [resolve_buffers]); the packed annotation against the
      plan ([apply_refines]); the optimised expression and body against the
      original ([passes_preserve], [body_preserved]); the poll depths against
      their equations ([depths_solve]).
    - Exactness: numbers, comparison, rounding to ticks, matching of paths,
      checks, cells and devices, and every four-state operator, against
      specifications over the rationals, the integers or the completions of
      unknown bits that do not mention the code.
    - Types and invariants: type soundness of evaluation ([evaluation_typed]),
      monotonicity in unknown bits ([operators_monotone]), well-formed files,
      trees and plans.
    - Round trips of paths, numbers, constants and stored values.
    - Names: encodings decode, generated names are apart ([names_decode],
      [names_apart]); the in-place rewrite is the copying one
      ([in_place_exact]); bounding is an injective renaming that the sidecar
      undoes ([bound_contract], [bound_restored]).
    - Time literals: accepted exactly when representable, rounded to the
      nearest tick ([decimal_exact], [delay_nearest]).
    - Editor: dimmed lines are the inactive ones and the evaluator follows the
      structure of nested groups ([inactive_exact], [groups_evaluate]); a
      response stays within its limit, serves every workspace and marks what it
      drops ([explorer_bounded], [workspace_served], [catalog_surfaced]).
    - Library maps: keys identify paths and patterns decide their language
      within a bound on the work ([path_key_exact], [pattern_match_exact]);
      reading maps and expanding macros is total and bounded
      ([map_text_total], [expansion_bounded]), printed maps parse back
      ([map_roundtrip]); admission publishes every buffer in the library its
      offers settle ([library_assignment]).
    - Project files: globs decide their language ([glob_decided]), a walk
      returns the files selected below walked directories, all selected ones
      when the globs end in file names ([discovery_exact],
      [discovery_complete]; [nested_missed] for the others); what resolves is
      well-formed, prints back to itself, and decides the units found
      ([resolve_wellformed], [config_roundtrip], [sources_exact]); loading
      always answers ([load_outcomes]).
    - Lint: settings read back and the report is JSON ([settings_read],
      [report_reads]).
    ** Bounds and fuel

    Integers whose width matters are [Z] with the wrap-around of Rust's
    release profile written out ([wrap_i64], [wrap_u32], ...); lengths and
    indices are [nat].  A lexer loop has the bytes left plus one as fuel, the
    condition parser the bound [expr_fuel] on remaining tokens, path and
    subtree walks the number of scopes plus one, the search for leaf starts the
    period of the record, the identity pass the depth of the expression, the
    graph searches the number of functions and calls, the identifier and
    directive scans the text left, the candidate loop of the registry the
    number of names that can be taken, the matchers of map patterns
    [(v + 1) * (p + 1)] turns for a name of [v] and a pattern of [p] elements,
    macro expansion the depth limit of the code; each bound is proved sufficient.  Texts of the SDF configuration file and of numbers are ASCII,
    as the grammar has them.  Scope indices are below [2^32] where the code
    stores them in a [u32] ([targets_ok]).

    ** Assumptions that are hypotheses

    - The platform's [powf], the rounding of a real to a vector and the value
      of expression kinds that are not modelled are parameters of [Eval]; the
      theorems hold for all of them, type soundness for those that return
      values of the type asked for.
    - [wt] states the rules of the IR validator
      ([src/sim/ir/validate/expressions.rs]) for the modelled kinds, with two
      rules that lowering keeps and the validator does not state: the arms of
      a packed conditional have its width ([checked_operand_with_context]),
      and an unsized fill is never the operand of a conversion
      ([IrExpr::convert_to]).
    - Bodies have unique labels and jumps to enclosing labels, as the code
      generator emits them ([list_labels], [list_resolved]).
    - The effects and direct call targets of a subprogram are parameters of
      the coroutine analysis.
    - The texts of the runtime headers and the lossy UTF-8 conversion are
      arguments of [Names]; the identifiers of a model are fewer than [2^64],
      the lines of an edited file fewer than [2^32 - 1].
    - The TOML parser, the printing of real numbers, the decoding of UTF-8 and
      the file system are parameters of [Config]; the theorems hold for all of
      them.  A directory tree does not change while it is walked.  Paths are
      those of a Unix system, and names are texts.
    - The sizes of the types whose allocations are charged are a class
      ([Layout]), with only that they are not negative assumed.  Names and
      patterns of library maps are valid UTF-8 and, where they start with two
      separators, have one separator after the host ([admissible]; see
      [doubled_separator_share] for the others).

    ** Not modelled

    The front end and its FFI, the capture of the design database, and the
    lowering of the design to IR depend on the object model of slang, which is
    not in the sources.  The C emitter prints text, the build runs a C
    compiler, and the runtime is C code: the semantics of the emitted
    statements and operators that the optimiser relies on are written out in
    [Eval] and [ControlSem] from the emitter.  Library maps on disk and included
    files are found by walking directories and reading files.  The rest of the
    language server and the command line are glue around the library; the TOML
    parser is another library.  What a lint rule checks reads the design
    database.  The unused
    storage pass and the effect walk of [src/sim/execution.rs] visit every
    statement, expression and call kind of the IR, of which only the ones the
    other passes inspect are modelled. *)

From Stdlib Require Import ZArith Lia Ascii String QArith.
From stdpp Require Import base list strings.
Open Scope Z_scope.
Open Scope list_scope.

(** ** Machine integers

    Rust's release profile wraps; the model writes the wrap-around out. *)

Definition wrap_s (w z : Z) : Z := (z + 2 ^ (w - 1)) mod 2 ^ w - 2 ^ (w - 1).
Definition wrap_u (w z : Z) : Z := z mod 2 ^ w.

Definition i64_min : Z := - 2 ^ 63.
Definition i64_max : Z := 2 ^ 63 - 1.
Definition i128_min : Z := - 2 ^ 127.
Definition i128_max : Z := 2 ^ 127 - 1.

Definition wrap_i64 : Z -> Z := wrap_s 64.
Definition wrap_i16 : Z -> Z := wrap_s 16.
Definition wrap_u32 : Z -> Z := wrap_u 32.

(** Saturation to the range of an [i64] ([saturating_add], [saturating_mul]). *)
Definition sat_i64 (z : Z) : Z := Z.max i64_min (Z.min i64_max z).

Definition in_i64 (z : Z) : Prop := i64_min <= z <= i64_max.
Definition in_i128 (z : Z) : Prop := i128_min <= z <= i128_max.

Lemma wrap_s_small w z :
  0 < w -> - 2 ^ (w - 1) <= z < 2 ^ (w - 1) -> wrap_s w z = z.
Proof.
  intros Hw Hz. unfold wrap_s.
  assert (E : 2 ^ w = 2 * 2 ^ (w - 1)).
  { replace w with (Z.succ (w - 1)) at 1 by lia.
    rewrite Z.pow_succ_r by lia. reflexivity. }
  rewrite Z.mod_small by lia. lia.
Qed.

Lemma wrap_i64_small z : in_i64 z -> wrap_i64 z = z.
Proof.
  intros H. apply wrap_s_small; [lia |].
  unfold in_i64, i64_min, i64_max in H. simpl. lia.
Qed.

Lemma wrap_u32_small z : 0 <= z < 2 ^ 32 -> wrap_u32 z = z.
Proof. intros H. unfold wrap_u32, wrap_u. by apply Z.mod_small. Qed.

Lemma sat_i64_small z : in_i64 z -> sat_i64 z = z.
Proof. unfold in_i64, sat_i64. lia. Qed.

Lemma sat_i64_in z : in_i64 (sat_i64 z).
Proof. unfold in_i64, sat_i64, i64_min, i64_max. lia. Qed.

(** ** Outcomes

    A Rust function returns a value ([Done]), its error ([Fail]), or panics;
    [NoFuel] is the model's own outcome for a loop that used its fuel, and
    is proved unreachable. *)

Inductive outcome (E A : Type) : Type :=
| Done (a : A)
| Fail (e : E)
| Panic (why : string)
| NoFuel.
Arguments Done {E A} a.
Arguments Fail {E A} e.
Arguments Panic {E A} why.
Arguments NoFuel {E A}.

(** State, error and panic monad. The state is dropped on an error: every
    caller in the sources propagates errors with [?] up to the entry points. *)
Definition M (E S A : Type) : Type := S -> outcome E (A * S).

Definition ret {E S A} (a : A) : M E S A := fun s => Done (a, s).
Definition bind {E S A B} (m : M E S A) (k : A -> M E S B) : M E S B :=
  fun s =>
    match m s with
    | Done (a, s') => k a s'
    | Fail e => Fail e
    | Panic w => Panic w
    | NoFuel => NoFuel
    end.
Definition fail {E S A} (e : E) : M E S A := fun _ => Fail e.
Definition panic {E S A} (why : string) : M E S A := fun _ => Panic why.
Definition get {E S} : M E S S := fun s => Done (s, s).
Definition gets {E S A} (f : S -> A) : M E S A := fun s => Done (f s, s).
Definition modify {E S} (f : S -> S) : M E S unit := fun s => Done (tt, f s).

Declare Scope sdf_scope.
Delimit Scope sdf_scope with sdf.
Notation "'let*' x ':=' m 'in' k" := (bind m (fun x => k))
  (at level 10, x pattern, m at level 200, k at level 200) : sdf_scope.
Notation "m ;;; k" := (bind m (fun _ => k))
  (at level 199, right associativity) : sdf_scope.
Open Scope sdf_scope.

(** Run a computation on a component of the state ([&mut self.lexer]). *)
Definition zoom {E S T A} (getter : S -> T) (setter : S -> T -> S) (m : M E T A) : M E S A :=
  fun s =>
    match m (getter s) with
    | Done (a, t) => Done (a, setter s t)
    | Fail e => Fail e
    | Panic w => Panic w
    | NoFuel => NoFuel
    end.

(** *** Loops

    [loop body a] runs [body] until it breaks ([inr]); [inl] continues with
    a new loop value. The fuel is one more than the number of bytes the
    state still holds: every loop of the sources consumes at least a byte
    per iteration. *)
Class Measured (S : Type) : Type := fuel_of : S -> nat.

Fixpoint iter {E S A B} (fuel : nat) (body : A -> M E S (A + B)) (a : A) : M E S B :=
  match fuel with
  | O => fun _ => NoFuel
  | Datatypes.S n =>
      let* r := body a in
      match r with
      | inl a' => iter n body a'
      | inr b => ret b
      end
  end.

Definition loop {E S A B} `{Measured S} (body : A -> M E S (A + B)) (a : A) : M E S B :=
  fun s => iter (Datatypes.S (fuel_of s)) body a s.

Definition continue {E S A B} (a : A) : M E S (A + B) := ret (inl a).
Definition break {E S A B} (b : B) : M E S (A + B) := ret (inr b).

(** Run a computation for each number of [0..n] ([for _ in 0..n]). *)
Fixpoint repeat_m {E S A} (n : nat) (m : nat -> M E S A) : M E S (list A) :=
  match n with
  | O => ret []
  | Datatypes.S k =>
      let* xs := repeat_m k m in
      let* x := m k in
      ret (xs ++ [x])
  end.

(** Fold a computation over a list ([for x in xs]). *)
Fixpoint fold_m {E S A B} (body : B -> A -> M E S B) (xs : list A) (b : B) : M E S B :=
  match xs with
  | [] => ret b
  | x :: xs' =>
      let* b' := body b x in
      fold_m body xs' b'
  end.

Definition when {E S} (c : bool) (m : M E S unit) : M E S unit := if c then m else ret tt.

(** ** Bytes and strings *)

Definition bytes : Type := list ascii.

Definition byte_N (b : ascii) : N := N_of_ascii b.
Definition is_ascii_digit (b : ascii) : bool :=
  (48 <=? byte_N b)%N && (byte_N b <=? 57)%N.
Definition is_ascii_upper (b : ascii) : bool :=
  (65 <=? byte_N b)%N && (byte_N b <=? 90)%N.
Definition is_ascii_lower (b : ascii) : bool :=
  (97 <=? byte_N b)%N && (byte_N b <=? 122)%N.
Definition is_ascii_alphabetic (b : ascii) : bool := is_ascii_upper b || is_ascii_lower b.
Definition is_ascii_alphanumeric (b : ascii) : bool := is_ascii_alphabetic b || is_ascii_digit b.
Definition is_ascii (b : ascii) : bool := (byte_N b <? 128)%N.

Definition to_upper (b : ascii) : ascii :=
  if is_ascii_lower b then ascii_of_N (byte_N b - 32) else b.
Definition to_lower (b : ascii) : ascii :=
  if is_ascii_upper b then ascii_of_N (byte_N b + 32) else b.

Definition str (bs : bytes) : string := string_of_list_ascii bs.
Definition unstr (s : string) : bytes := list_ascii_of_string s.

Definition to_ascii_uppercase (s : string) : string := str (map to_upper (unstr s)).
Definition to_ascii_lowercase (s : string) : string := str (map to_lower (unstr s)).
Definition eq_ignore_ascii_case (a b : string) : bool :=
  String.eqb (to_ascii_lowercase a) (to_ascii_lowercase b).

(** [format!] and [concat!]: the pieces one after the other. *)
Definition cat (pieces : list string) : string := foldr String.append EmptyString pieces.

Definition byte_in (b : ascii) (set : string) : bool := existsb (Ascii.eqb b) (unstr set).

Definition newline : ascii := "010"%char.
Definition tab : ascii := "009"%char.
Definition carriage_return : ascii := "013"%char.
Definition quote : ascii := "034"%char.
Definition backslash : ascii := "\"%char.
Definition quoted (s : string) : string := str (quote :: unstr s ++ [quote]).
Definition ticked (s : string) : string := cat ["`"; s; "`"]%string.

(** The longest prefix whose bytes satisfy [p]
    ([iter().position(..).unwrap_or(len)]). *)
Fixpoint run_length (p : ascii -> bool) (bs : bytes) : nat :=
  match bs with
  | [] => O
  | b :: bs' => if p b then Datatypes.S (run_length p bs') else O
  end.

(** [str::split(c)]: the parts between the bytes equal to [c]. *)
Fixpoint split_on (c : ascii) (bs : bytes) : list bytes :=
  match bs with
  | [] => [[]]
  | b :: bs' =>
      if Ascii.eqb b c then [] :: split_on c bs'
      else match split_on c bs' with
           | [] => [[b]]
           | p :: ps => (b :: p) :: ps
           end
  end.

(** [str::split_once(c)]. *)
Fixpoint split_once (c : ascii) (bs : bytes) : option (bytes * bytes) :=
  match bs with
  | [] => None
  | b :: bs' =>
      if Ascii.eqb b c then Some ([], bs')
      else match split_once c bs' with
           | Some (l, r) => Some (b :: l, r)
           | None => None
           end
  end.

(** ** Decimal text ([to_string] of an integer) *)

Definition digit_char (d : Z) : ascii := ascii_of_N (Z.to_N (d + 48)).
Definition digit_value (b : ascii) : Z := Z.of_N (byte_N b) - 48.

Fixpoint dec_digits (fuel : nat) (n : Z) (acc : bytes) : bytes :=
  match fuel with
  | O => acc
  | Datatypes.S f =>
      let acc' := digit_char (n mod 10) :: acc in
      if n / 10 =? 0 then acc' else dec_digits f (n / 10) acc'
  end.

(** Digits of a non-negative integer, most significant first. *)
Definition dec_bytes (n : Z) : bytes :=
  dec_digits (Datatypes.S (Z.to_nat (Z.log2 n))) n [].
Definition dec (n : Z) : string :=
  if n <? 0 then str ("-"%char :: dec_bytes (- n)) else str (dec_bytes n).

(** The number a digit string denotes. *)
Definition digits_value (acc : Z) (bs : bytes) : Z :=
  fold_left (fun a b => a * 10 + digit_value b) bs acc.

(** ** Lemmas *)

Lemma bind_done {E S A B} (m : M E S A) (k : A -> M E S B) s b s2 :
  bind m k s = Done (b, s2) ->
  exists a s1, m s = Done (a, s1) /\ k a s1 = Done (b, s2).
Proof. unfold bind. destruct (m s) as [[a s1] | | |] eqn:E1; try discriminate. eauto. Qed.

Lemma bind_assoc {E S A B C} (m : M E S A) (k : A -> M E S B) (h : B -> M E S C) s :
  bind (bind m k) h s = bind m (fun a => bind (k a) h) s.
Proof. unfold bind. by destruct (m s) as [[] | | |]. Qed.

Lemma bind_ret {E S A B} (a : A) (k : A -> M E S B) s : bind (ret a) k s = k a s.
Proof. done. Qed.

Lemma str_unstr s : str (unstr s) = s.
Proof. apply string_of_list_ascii_of_string. Qed.
Lemma unstr_str bs : unstr (str bs) = bs.
Proof. apply list_ascii_of_string_of_list_ascii. Qed.

Lemma unstr_append a b : unstr (String.append a b) = unstr a ++ unstr b.
Proof.
  induction a as [| c a IH]; [done |].
  change (unstr (String.append (String c a) b)) with (c :: unstr (String.append a b)). by rewrite IH.
Qed.

Lemma str_inj a b : str a = str b -> a = b.
Proof. intros H. rewrite <- (unstr_str a), <- (unstr_str b). by rewrite H. Qed.

Lemma is_ascii_digit_spec b :
  is_ascii_digit b = true <-> 0 <= digit_value b <= 9.
Proof. unfold is_ascii_digit, digit_value. rewrite andb_true_iff, !N.leb_le. lia. Qed.

Lemma digit_value_char d : 0 <= d <= 9 -> digit_value (digit_char d) = d.
Proof.
  intros H. unfold digit_value, digit_char, byte_N.
  rewrite N_ascii_embedding by lia. lia.
Qed.

Lemma digit_char_digit d : 0 <= d <= 9 -> is_ascii_digit (digit_char d) = true.
Proof. intros H. apply is_ascii_digit_spec. rewrite digit_value_char by lia. lia. Qed.

Lemma digits_value_acc bs acc :
  digits_value acc bs = acc * 10 ^ Z.of_nat (length bs) + digits_value 0 bs.
Proof.
  unfold digits_value. revert acc.
  induction bs as [| b bs IH]; intros acc; simpl fold_left; [simpl; lia |].
  rewrite (IH (acc * 10 + digit_value b)), (IH (0 * 10 + digit_value b)).
  cbn [length]. rewrite Nat2Z.inj_succ, Z.pow_succ_r by lia. lia.
Qed.

Lemma digits_value_app acc a b :
  digits_value acc (a ++ b) = digits_value (digits_value acc a) b.
Proof. apply fold_left_app. Qed.

Lemma digits_value_bounds bs :
  Forall (fun b => is_ascii_digit b = true) bs ->
  0 <= digits_value 0 bs < 10 ^ Z.of_nat (length bs).
Proof.
  induction 1 as [| b bs Hb _ IH]; [simpl; lia |].
  apply is_ascii_digit_spec in Hb.
  change (b :: bs) with ([b] ++ bs). rewrite digits_value_app, digits_value_acc.
  cbn [length app]. rewrite Nat2Z.inj_succ, Z.pow_succ_r by lia.
  change (digits_value 0 [b]) with (digit_value b). nia.
Qed.

(** [dec_digits] prepends the digits of [n]. *)
Lemma dec_digits_spec fuel n acc :
  0 <= n < 2 ^ Z.of_nat fuel -> fuel <> O ->
  exists ds, dec_digits fuel n acc = ds ++ acc
    /\ digits_value 0 ds = n
    /\ Forall (fun b => is_ascii_digit b = true) ds
    /\ (0 < length ds)%nat
    /\ (n = 0 /\ length ds = 1%nat \/ 10 ^ (Z.of_nat (length ds) - 1) <= n).
Proof.
  revert n acc. induction fuel as [| f IH]; intros n acc Hn Hf; [done |].
  cbn [dec_digits].
  pose proof (Z.mod_pos_bound n 10 ltac:(lia)) as Hm.
  pose proof (Z.div_mod n 10 ltac:(lia)) as Hdm.
  assert (Hd : is_ascii_digit (digit_char (n mod 10)) = true) by (apply digit_char_digit; lia).
  destruct (Z.eqb_spec (n / 10) 0) as [E | E].
  - exists [digit_char (n mod 10)]. simpl. unfold digits_value. simpl.
    rewrite digit_value_char by lia. repeat split; auto; try lia.
  - assert (Hf' : f <> O).
    { intros ->. simpl in Hn. lia. }
    destruct (IH (n / 10) (digit_char (n mod 10) :: acc)) as (ds & E1 & E2 & E3 & E4 & E5); [| done |].
    { rewrite Nat2Z.inj_succ, Z.pow_succ_r in Hn by lia. lia. }
    exists (ds ++ [digit_char (n mod 10)]).
    rewrite <- app_assoc. simpl. split; [exact E1 |].
    rewrite digits_value_app, E2. unfold digits_value. simpl.
    rewrite digit_value_char, length_app by lia.
    repeat split; [lia | by apply Forall_app_2; auto | simpl; lia |].
    right. simpl length. destruct E5 as [[E5 _] | E5]; [lia |].
    replace (Z.of_nat (length ds + 1) - 1) with (Z.succ (Z.of_nat (length ds) - 1)) by lia.
    rewrite Z.pow_succ_r by lia. lia.
Qed.

Lemma dec_bytes_spec n :
  0 <= n ->
  digits_value 0 (dec_bytes n) = n
  /\ Forall (fun b => is_ascii_digit b = true) (dec_bytes n)
  /\ (0 < length (dec_bytes n))%nat
  /\ (n = 0 /\ length (dec_bytes n) = 1%nat
      \/ 10 ^ (Z.of_nat (length (dec_bytes n)) - 1) <= n).
Proof.
  intros Hn. unfold dec_bytes.
  destruct (dec_digits_spec (Datatypes.S (Z.to_nat (Z.log2 n))) n []) as (ds & E & H); [| done |].
  - split; [done |]. rewrite Nat2Z.inj_succ, Z2Nat.id by apply Z.log2_nonneg.
    destruct (Z.eq_dec n 0) as [-> | ?]; [simpl; lia |]. apply Z.log2_spec. lia.
  - rewrite E, app_nil_r. exact H.
Qed.

Lemma forallb_ext_in {A} (f g : A -> bool) l :
  (forall x, List.In x l -> f x = g x) -> forallb f l = forallb g l.
Proof.
  induction l as [|x l IH]; intros H; [done|]. cbn [forallb]. rewrite H by (by left).
  f_equal. apply IH. intros y Hy. apply H. by right.
Qed.

Lemma forallb_map {A B} (f : B -> bool) (g : A -> B) l : forallb f (map g l) = forallb (fun x => f (g x)) l.
Proof. induction l as [|x l IH]; [done|]. cbn [map forallb]. by rewrite IH. Qed.

Lemma forallb_rev {A} (f : A -> bool) l : forallb f (rev l) = forallb f l.
Proof.
  induction l as [|x l IH]; [done|]. simpl. rewrite forallb_app, IH. simpl. rewrite andb_true_r. apply andb_comm.
Qed.
