(* ===== verification/NumberFacts.v ===== *)
(** * Correctness of SDF numbers

    The rational value of a number, the grammar of number texts, and the
    theorems about [Number.parse], [Number.cmp_exact] and
    [Number.fmt_number]. *)

From Stdlib Require Import ZArith Lia Ascii String QArith Qpower.
From stdpp Require Import base list strings.
From S2P Require Import Prelude Number.
Open Scope Z_scope.
Open Scope list_scope.

(** ** Rational values *)

Definition pow10 (e : Z) : Q := Qpower (inject_Z 10) e.
Definition scaled (m e : Z) : Q := (inject_Z m * pow10 e)%Q.
Definition to_Q (n : SdfNumber) : Q := scaled (mantissa n) (exponent n).

Definition normalized (n : SdfNumber) : Prop :=
  n = ZERO \/ Z.rem (mantissa n) 10 <> 0.

(** What the parser produces: normalized, at most 18 digits, and an exponent
    that fits an [i16]. *)
Definition number_ok (n : SdfNumber) : Prop :=
  normalized n /\ Z.abs (mantissa n) < 10 ^ 18
  /\ Z.abs (exponent n) <= MAX_DECIMAL_EXPONENT.

Lemma pow10_pos e : (0 < pow10 e)%Q.
Proof.
  unfold pow10. destruct (Qlt_le_dec 0 (Qpower (inject_Z 10) e)) as [H | H]; [exact H |].
  exfalso. assert (H2 : (0 <= Qpower (inject_Z 10) e)%Q) by (apply Qpower_pos; discriminate).
  assert (E : (Qpower (inject_Z 10) e == 0)%Q) by (apply Qle_antisym; assumption).
  revert E. apply Qpower_not_0. discriminate.
Qed.

Lemma pow10_add a b : (pow10 (a + b) == pow10 a * pow10 b)%Q.
Proof. apply Qpower_plus. discriminate. Qed.

Lemma pow10_Z k : 0 <= k -> (pow10 k == inject_Z (10 ^ k))%Q.
Proof. intros H. unfold pow10. symmetry. by apply Zpower_Qpower. Qed.

Lemma scaled_0 e : (scaled 0 e == 0)%Q.
Proof. unfold scaled. change (inject_Z 0) with 0%Q. ring. Qed.

Lemma scaled_shift m e k : 0 <= k -> (scaled m (e + k) == scaled (m * 10 ^ k) e)%Q.
Proof.
  intros H. unfold scaled. rewrite pow10_add, inject_Z_mult, (pow10_Z k) by lia. ring.
Qed.

Lemma scaled_compare x y e : (scaled x e ?= scaled y e)%Q = Z.compare x y.
Proof.
  unfold scaled. pose proof (pow10_pos e) as Hp.
  destruct (Z.compare_spec x y) as [-> | H | H].
  - by apply Qeq_alt.
  - apply Qlt_alt. apply Qmult_lt_compat_r; [done |]. by rewrite <- Zlt_Qlt.
  - apply Qgt_alt. apply Qmult_lt_compat_r; [done |]. by rewrite <- Zlt_Qlt.
Qed.

(** Scaling both sides to a common exponent. *)
Lemma scaled_compare_common m1 e1 m2 e2 k :
  k <= e1 -> k <= e2 ->
  (scaled m1 e1 ?= scaled m2 e2)%Q = Z.compare (m1 * 10 ^ (e1 - k)) (m2 * 10 ^ (e2 - k)).
Proof.
  intros H1 H2. rewrite <- (scaled_compare _ _ k).
  rewrite <- !scaled_shift by lia. replace (k + (e1 - k)) with e1 by lia.
  by replace (k + (e2 - k)) with e2 by lia.
Qed.

Lemma scaled_eq_common m1 e1 m2 e2 k :
  k <= e1 -> k <= e2 ->
  (scaled m1 e1 == scaled m2 e2)%Q <-> m1 * 10 ^ (e1 - k) = m2 * 10 ^ (e2 - k).
Proof.
  intros H1 H2. rewrite Qeq_alt, (scaled_compare_common _ _ _ _ k) by done.
  apply Z.compare_eq_iff.
Qed.

Lemma rem10_mul m k : 0 < k -> Z.rem (m * 10 ^ k) 10 = 0.
Proof.
  intros H. replace k with (Z.succ (k - 1)) by lia. rewrite Z.pow_succ_r by lia.
  replace (m * (10 * 10 ^ (k - 1))) with (m * 10 ^ (k - 1) * 10) by lia.
  apply Z.rem_mul. lia.
Qed.

(** Normalized numbers are canonical: equal values are equal numbers. *)
Lemma normalized_unique a b :
  normalized a -> normalized b -> (to_Q a == to_Q b)%Q -> a = b.
Proof.
  intros Ha Hb E. unfold to_Q in E.
  assert (Z0 : forall n, normalized n -> mantissa n = 0 -> n = ZERO).
  { intros n [-> | Hn] H0; [done |]. rewrite H0 in Hn. by destruct Hn. }
  apply (scaled_eq_common _ _ _ _ (Z.min (exponent a) (exponent b))) in E; [| lia | lia].
  destruct (Z.le_gt_cases (exponent a) (exponent b)) as [L | L].
  - rewrite Z.min_l, Z.sub_diag, Z.mul_1_r in E by lia.
    destruct (Z.eq_dec (exponent a) (exponent b)) as [Ee | Ee].
    { rewrite Ee, Z.sub_diag, Z.mul_1_r in E. destruct a, b; simpl in *; congruence. }
    destruct Ha as [-> | Ha].
    + rewrite (Z0 b Hb); [done |]. symmetry in E. apply Z.mul_eq_0 in E as [E | E]; [done |].
      apply Z.pow_eq_0 in E; simpl in *; lia.
    + rewrite E, rem10_mul in Ha by lia. done.
  - rewrite Z.min_r, Z.sub_diag, Z.mul_1_r in E by lia.
    destruct Hb as [-> | Hb].
    + rewrite (Z0 a Ha); [done |]. apply Z.mul_eq_0 in E as [E | E]; [done |].
      apply Z.pow_eq_0 in E; simpl in *; lia.
    + rewrite <- E, rem10_mul in Hb by lia. done.
Qed.

(** ** Stripping zeros *)


Lemma strip_trailing_spec fuel m t :
  m <> 0 -> Z.abs m < 10 ^ Z.of_nat fuel ->
  let (m', t') := strip_trailing fuel m t in
  t <= t' /\ m = m' * 10 ^ (t' - t) /\ Z.rem m' 10 <> 0 /\ Z.abs m' <= Z.abs m
  /\ t' - t <= Z.of_nat fuel /\ (0 < m' <-> 0 < m).
Proof.
  revert m t. induction fuel as [| f IH]; intros m t Hm Hb; [simpl in Hb; lia |].
  cbn [strip_trailing]. rewrite Nat2Z.inj_succ, Z.pow_succ_r in Hb by lia.
  destruct (Z.eqb_spec (Z.rem m 10) 0) as [E | E].
  - pose proof (Z.quot_rem' m 10) as Q. rewrite E in Q.
    specialize (IH (Z.quot m 10) (t + 1) ltac:(lia) ltac:(lia)).
    destruct (strip_trailing f (Z.quot m 10) (t + 1)) as [m' t'].
    destruct IH as (I1 & I2 & I3 & I4 & I5 & I6). repeat split; try lia.
    replace (t' - t) with (Z.succ (t' - (t + 1))) by lia.
    rewrite Z.pow_succ_r by lia. lia.
  - repeat split; try lia. rewrite Z.sub_diag. lia.
Qed.

Lemma normalize_loop_strip fuel n t :
  i64_min <= mantissa n <= i64_max ->
  - 2 ^ 15 <= exponent n -> exponent n + Z.of_nat fuel < 2 ^ 15 ->
  let (m', t') := strip_trailing fuel (mantissa n) t in
  normalize_loop fuel n = mkNumber m' (exponent n + (t' - t)).
Proof.
  revert n t. induction fuel as [| f IH]; intros [m e] t Hm He1 He2; cbn [mantissa exponent] in *;
    cbn [strip_trailing normalize_loop mantissa exponent].
  - f_equal. lia.
  - destruct (Z.eqb_spec (Z.rem m 10) 0) as [E | E]; [| f_equal; lia].
    assert (W : wrap_i16 (e + 1) = e + 1) by (apply wrap_s_small; simpl; lia).
    specialize (IH (mkNumber (Z.quot m 10) (wrap_i16 (e + 1))) (t + 1)).
    cbn [mantissa exponent] in IH.
    rewrite W in IH |- *. unfold i64_min, i64_max in *.
    pose proof (Z.quot_rem' m 10).
    destruct (strip_trailing f (Z.quot m 10) (t + 1)) as [m' t'].
    rewrite IH by lia. f_equal. lia.
Qed.

(** [SdfNumber::new] keeps the value and normalizes it. *)
Lemma new_spec m e :
  in_i64 m -> - 2 ^ 15 <= e -> e < 2 ^ 15 - 19 ->
  (to_Q (new m e) == scaled m e)%Q /\ normalized (new m e).
Proof.
  intros Hm He1 He2. unfold new, normalize. cbn [mantissa].
  destruct (Z.eqb_spec m 0) as [-> | N].
  - split; [| by left]. unfold to_Q. by rewrite !scaled_0.
  - pose proof (normalize_loop_strip 19 (mkNumber m e) 0) as L. cbn [mantissa exponent] in L.
    unfold in_i64, i64_min, i64_max in *.
    pose proof (strip_trailing_spec 19 m 0 N ltac:(change (10 ^ Z.of_nat 19) with 10000000000000000000; lia)) as P.
    destruct (strip_trailing 19 m 0) as [m' t'].
    rewrite L by lia. destruct P as (P1 & P2 & P3 & _).
    split; [| by right]. unfold to_Q. cbn [mantissa exponent].
    rewrite scaled_shift by lia. rewrite Z.sub_0_r in *. by rewrite <- P2.
Qed.

(** ** Digit strings *)

Abbreviation digits := (Forall (fun b => is_ascii_digit b = true)).

Lemma digits_value_cons b bs :
  digits_value 0 (b :: bs) = digit_value b * 10 ^ Z.of_nat (length bs) + digits_value 0 bs.
Proof.
  change (b :: bs) with ([b] ++ bs). rewrite digits_value_app, digits_value_acc.
  reflexivity.
Qed.

Lemma digits_zeros k : digits (repeat "0"%char k).
Proof. induction k; simpl; constructor; done. Qed.

Lemma digits_value_zeros k : digits_value 0 (repeat "0"%char k) = 0.
Proof. induction k as [| k IH]; [done |]. exact IH. Qed.

Lemma digits_value_pad bs k :
  digits_value 0 (bs ++ repeat "0"%char k) = digits_value 0 bs * 10 ^ Z.of_nat k.
Proof.
  rewrite digits_value_app, digits_value_acc, digits_value_zeros, repeat_length. lia.
Qed.

(** On equally long digit strings the byte order is the numeric order. *)
Lemma bytes_compare_digits a b :
  digits a -> digits b -> length a = length b ->
  bytes_compare a b = Z.compare (digits_value 0 a) (digits_value 0 b).
Proof.
  intros Ha. revert b. induction Ha as [| x a Hx Ha IH]; intros [| y b] Hb L; try done.
  apply Forall_cons in Hb as [Hy Hb]. injection L as L. cbn [bytes_compare].
  rewrite !digits_value_cons, L.
  pose proof (digits_value_bounds a Ha) as Ba. pose proof (digits_value_bounds b Hb) as Bb.
  rewrite L in Ba. apply is_ascii_digit_spec in Hx, Hy.
  unfold digit_value in Hx, Hy |- *.
  destruct (N.compare_spec (byte_N x) (byte_N y)) as [E | E | E]; symmetry.
  - rewrite E, IH by done. apply Z.add_compare_mono_l.
  - apply Z.compare_lt_iff. nia.
  - apply Z.compare_gt_iff. nia.
Qed.

(** ** Comparison *)

Lemma scaled_order m e :
  0 < m ->
  let (o, ds) := magnitude m e in
  (pow10 (o - 1) <= scaled m e)%Q /\ (scaled m e < pow10 o)%Q.
Proof.
  intros Hm. unfold magnitude. rewrite Z.abs_eq by lia.
  destruct (dec_bytes_spec m) as (V & D & L & B); [lia |].
  pose proof (digits_value_bounds _ D) as U. rewrite V in U.
  destruct B as [[? _] | B]; [lia |].
  assert (P : forall k, (pow10 k == scaled 1 k)%Q) by (intros; unfold scaled; ring).
  set (l := Z.of_nat (length (dec_bytes m))) in *.
  split.
  - rewrite P, Qle_alt, (scaled_compare_common _ _ _ _ e) by lia.
    rewrite Z.sub_diag. replace (l + e - 1 - e) with (l - 1) by lia.
    change (1 * 10 ^ (l - 1) <= m * 10 ^ 0). lia.
  - rewrite P, Qlt_alt, (scaled_compare_common _ _ _ _ e) by lia.
    rewrite Z.sub_diag. replace (l + e - e) with l by lia.
    apply Z.compare_lt_iff. lia.
Qed.

Lemma pow10_le a b : a <= b -> (pow10 a <= pow10 b)%Q.
Proof.
  intros H. assert (P : forall k, (pow10 k == scaled 1 k)%Q) by (intros; unfold scaled; ring).
  rewrite !P, Qle_alt, (scaled_compare_common _ _ _ _ a) by lia.
  rewrite Z.sub_diag. change (1 * 10 ^ 0 <= 1 * 10 ^ (b - a)).
  assert (0 < 10 ^ (b - a)) by (apply Z.pow_pos_nonneg; lia). lia.
Qed.

Lemma by_magnitude_spec ma ea mb eb :
  0 < ma -> 0 < mb -> by_magnitude ma ea mb eb = (scaled ma ea ?= scaled mb eb)%Q.
Proof.
  intros Ha Hb. pose proof (scaled_order ma ea Ha) as Oa.
  pose proof (scaled_order mb eb Hb) as Ob. unfold by_magnitude, magnitude in *.
  rewrite !Z.abs_eq in * by lia.
  destruct (dec_bytes_spec ma) as (Va & Da & _ & _); [lia |].
  destruct (dec_bytes_spec mb) as (Vb & Db & _ & _); [lia |].
  set (da := dec_bytes ma) in *. set (db := dec_bytes mb) in *.
  destruct (Z.compare_spec (Z.of_nat (length da) + ea) (Z.of_nat (length db) + eb)) as [E | E | E].
  - set (w := Nat.max (length da) (length db)). unfold pad_zeros.
    rewrite bytes_compare_digits.
    + rewrite !digits_value_pad, Va, Vb.
      rewrite (scaled_compare_common _ _ _ _ (ea - Z.of_nat (w - length da))) by lia.
      f_equal; f_equal; f_equal; lia.
    + apply Forall_app_2; [done | apply digits_zeros].
    + apply Forall_app_2; [done | apply digits_zeros].
    + rewrite !length_app, !repeat_length. lia.
  - symmetry. apply Qlt_alt. eapply Qlt_le_trans; [apply Oa |].
    eapply Qle_trans; [| apply Ob]. apply pow10_le. lia.
  - symmetry. apply Qgt_alt. eapply Qlt_le_trans; [apply Ob |].
    eapply Qle_trans; [| apply Oa]. apply pow10_le. lia.
Qed.

Lemma scaled_opp m e : (scaled (- m) e == - scaled m e)%Q.
Proof. unfold scaled. rewrite inject_Z_opp. ring. Qed.

Lemma scaled_sgn m e : (scaled m e ?= 0)%Q = Z.compare m 0.
Proof.
  by rewrite <- (scaled_compare m 0 e), scaled_0.
Qed.

Lemma Qcompare_opp a b : ((- a) ?= (- b))%Q = (b ?= a)%Q.
Proof. unfold Qcompare. simpl. rewrite !Z.mul_opp_l. apply Z.compare_opp. Qed.

Lemma scaled_lt_sgn m1 e1 m2 e2 :
  Z.sgn m1 < Z.sgn m2 -> (scaled m1 e1 < scaled m2 e2)%Q.
Proof.
  intros H. pose proof (scaled_sgn m1 e1) as S1. pose proof (scaled_sgn m2 e2) as S2.
  assert (C : m1 < 0 /\ 0 <= m2 \/ m1 = 0 /\ 0 < m2) by (destruct m1, m2; simpl in *; lia).
  destruct C as [[A B] | [-> B]].
  - apply Qlt_le_trans with 0%Q.
    + apply Qlt_alt. rewrite S1. by apply Z.compare_lt_iff.
    + apply Qge_alt. rewrite S2. by apply Z.compare_ge_iff.
  - apply Qle_lt_trans with 0%Q.
    + apply Qeq_alt in S1. rewrite S1. apply Qle_refl.
    + apply Qgt_alt. rewrite S2. by apply Z.compare_gt_iff.
Qed.

Lemma cmp_exact_spec (a b : SdfNumber) : cmp_exact a b = (to_Q a ?= to_Q b)%Q.
Proof.
  unfold cmp_exact, to_Q.
  set (ma := mantissa a). set (mb := mantissa b). set (ea := exponent a). set (eb := exponent b).
  destruct (Z.eqb_spec (Z.sgn ma) (Z.sgn mb)) as [S | S]; simpl negb; cbv iota.
  2: { symmetry. destruct (Z.compare_spec (Z.sgn ma) (Z.sgn mb)) as [E | E | E]; [done | |].
       - by apply Qlt_alt, scaled_lt_sgn.
       - by apply Qgt_alt, scaled_lt_sgn. }
  destruct (Z.eqb_spec ma 0) as [E | N].
  { assert (mb = 0) as -> by (rewrite E in S; destruct mb; simpl in S; lia).
    rewrite E. symmetry. apply Qeq_alt. unfold scaled. ring. }
  assert (P : by_magnitude ma ea mb eb = by_magnitude (Z.abs ma) ea (Z.abs mb) eb).
  { unfold by_magnitude, magnitude. by rewrite !Z.abs_idemp. }
  rewrite P.
  rewrite by_magnitude_spec by (destruct ma, mb; simpl in *; lia).
  destruct (Z.gtb_spec ma 0) as [G | G].
  - rewrite !Z.abs_eq by (destruct ma, mb; simpl in *; lia). done.
  - rewrite !Z.abs_neq by (destruct ma, mb; simpl in *; lia).
    rewrite !scaled_opp, Qcompare_opp. apply Qcompare_antisym.
Qed.

(** ** The number grammar

    [[+-]? (digits [. digits?] | . digits) ([eE] [+-]? digits)?] *)

Record numeral : Type := mkNumeral {
  nm_sign : option bool;                (* Some true: -, Some false: + *)
  nm_int : bytes;
  nm_frac : option bytes;
  nm_exp : option (ascii * option bool * bytes)
}.

Definition print_sign (s : option bool) : bytes :=
  match s with Some true => ["-"%char] | Some false => ["+"%char] | None => [] end.
Definition print_frac (f : option bytes) : bytes :=
  match f with Some ds => "."%char :: ds | None => [] end.
Definition print_exp (e : option (ascii * option bool * bytes)) : bytes :=
  match e with Some (c, s, ds) => c :: print_sign s ++ ds | None => [] end.
Definition print_numeral (nm : numeral) : bytes :=
  print_sign (nm_sign nm) ++ nm_int nm ++ print_frac (nm_frac nm) ++ print_exp (nm_exp nm).

Definition frac_digits (nm : numeral) : bytes := default [] (nm_frac nm).

Definition wf_numeral (nm : numeral) : Prop :=
  digits (nm_int nm) /\ digits (frac_digits nm)
  /\ nm_int nm ++ frac_digits nm <> []
  /\ match nm_exp nm with
     | Some (c, _, ds) => (c = "e"%char \/ c = "E"%char) /\ digits ds /\ ds <> []
     | None => True
     end.

Definition is_minus (s : option bool) : bool :=
  match s with Some true => true | _ => false end.

(** The value of the digits, and the decimal exponent they are scaled by. *)
Definition numeral_digits (nm : numeral) : Z := digits_value 0 (nm_int nm ++ frac_digits nm).
Definition exp_value (nm : numeral) : Z :=
  match nm_exp nm with
  | Some (_, s, ds) => if is_minus s then - digits_value 0 ds else digits_value 0 ds
  | None => 0
  end.
Definition numeral_exponent (nm : numeral) : Z :=
  exp_value nm - Z.of_nat (length (frac_digits nm)).
Definition numeral_Q (nm : numeral) : Q :=
  scaled (if is_minus (nm_sign nm) then - numeral_digits nm else numeral_digits nm)
    (numeral_exponent nm).

(** The exponent arithmetic stays within an [i64]. *)
Definition exponent_bounded (nm : numeral) : Prop :=
  Z.abs (exp_value nm) + Z.of_nat (length (frac_digits nm)) < 2 ^ 62.

(** ** The digit loop *)

(** The locals are consistent: [s_significant] counts the digits of
    [s_mantissa] from its first nonzero one. *)
Definition scan_inv (st : Scan) : Prop :=
  0 <= s_significant st <= 18
  /\ (s_significant st = 0 -> s_mantissa st = 0)
  /\ (0 < s_significant st -> 10 ^ (s_significant st - 1) <= s_mantissa st)
  /\ s_mantissa st < 10 ^ s_significant st
  /\ Z.abs (s_exponent st) < 2 ^ 62.

Lemma scan_inv_nonneg st : scan_inv st -> 0 <= s_mantissa st.
Proof.
  intros (A & B & C & D & _). destruct (Z.eq_dec (s_significant st) 0) as [E | E].
  - rewrite B by done. lia.
  - specialize (C ltac:(lia)). pose proof (Z.pow_nonneg 10 (s_significant st - 1)). lia.
Qed.

Definition scan_result (st : Scan) (ds : bytes) (st' : Scan) : Prop :=
  s_mantissa st' = digits_value (s_mantissa st) ds
  /\ s_exponent st' = (if s_fraction st then s_exponent st - Z.of_nat (length ds) else s_exponent st)
  /\ s_digits st' = s_digits st + Z.of_nat (length ds)
  /\ s_fraction st' = s_fraction st.

Lemma scan_step b bs st :
  is_ascii_digit b = true -> scan_inv st ->
  (s_fraction st = true -> Z.abs (s_exponent st) + 1 < 2 ^ 62) ->
  (10 ^ 18 <= s_mantissa st * 10 + digit_value b /\ scan_digits (b :: bs) st = Fail TooManyDigits)
  \/ exists st', scan_digits (b :: bs) st = scan_digits bs st' /\ scan_inv st'
       /\ scan_result st [b] st'.
Proof.
  intros Hb I He. pose proof (scan_inv_nonneg st I) as Nn.
  destruct I as (A & B & C & D & E). cbn [scan_digits]. rewrite Hb.
  apply is_ascii_digit_spec in Hb.
  assert (W : (if s_fraction st then wrap_i64 (s_exponent st - 1) else s_exponent st)
              = (if s_fraction st then s_exponent st - 1 else s_exponent st)).
  { destruct (s_fraction st); [| done]. specialize (He eq_refl).
    apply wrap_i64_small. unfold in_i64, i64_min, i64_max. lia. }
  rewrite W. unfold MAX_SIGNIFICANT_DIGITS, scan_result, scan_inv.
  destruct (Z.ltb_spec 0 (s_significant st)) as [S | S]; simpl orb.
  - specialize (C S).
    assert (P : 10 ^ s_significant st = 10 * 10 ^ (s_significant st - 1)).
    { replace (s_significant st) with (Z.succ (s_significant st - 1)) at 1 by lia.
      by rewrite Z.pow_succ_r by lia. }
    destruct (Z.gtb_spec (s_significant st + 1) 18) as [G | G].
    + left. split; [| done]. assert (s_significant st = 18) as Es by lia.
      rewrite Es in C. change (10 ^ (18 - 1)) with (10 ^ 17) in C. lia.
    + right. eexists. split; [reflexivity |]. cbn [s_mantissa s_significant s_exponent s_digits s_fraction].
      assert (L : 10 ^ (s_significant st + 1) <= 10 ^ 18) by (apply Z.pow_le_mono_r; lia).
      rewrite Z.pow_add_r in L |- * by lia.
      rewrite wrap_i64_small by (unfold in_i64, i64_min, i64_max; lia).
      rewrite Z.add_simpl_r. cbn [length].
      repeat split; try lia; destruct (s_fraction st); try specialize (He eq_refl); lia.
  - rewrite B in * by lia.
    assert (s_significant st = 0) as E0 by lia. rewrite E0 in *.
    destruct (Z.eqb_spec (digit_value b) 0) as [V | V]; simpl negb; cbv iota; right;
      (eexists; split; [reflexivity |]);
      cbn [s_mantissa s_significant s_exponent s_digits s_fraction length];
      unfold digits_value; cbn [fold_left].
    + rewrite V. repeat split; try lia; destruct (s_fraction st); try specialize (He eq_refl); lia.
    + change (0 + 1 >? 18) with false. cbv iota.
      cbn [s_mantissa s_significant s_exponent s_digits s_fraction length].
      rewrite wrap_i64_small by (unfold in_i64, i64_min, i64_max; lia).
      repeat split; try lia; destruct (s_fraction st); try specialize (He eq_refl); lia.
Qed.

Lemma digits_value_ge acc ds : digits ds -> 0 <= acc -> acc <= digits_value acc ds.
Proof.
  intros H Ha. rewrite digits_value_acc.
  pose proof (digits_value_bounds ds H).
  assert (0 < 10 ^ Z.of_nat (length ds)) by (apply Z.pow_pos_nonneg; lia). nia.
Qed.

Lemma scan_run ds rest st :
  digits ds -> scan_inv st ->
  (s_fraction st = true -> Z.abs (s_exponent st) + Z.of_nat (length ds) < 2 ^ 62) ->
  (10 ^ 18 <= digits_value (s_mantissa st) ds
   /\ scan_digits (ds ++ rest) st = Fail TooManyDigits)
  \/ exists st', scan_digits (ds ++ rest) st = scan_digits rest st' /\ scan_inv st'
       /\ scan_result st ds st'.
Proof.
  intros Hd. revert st. induction Hd as [| b ds Hb Hd IH]; intros st I He.
  - right. exists st. split; [done |]. split; [done |].
    unfold scan_result. simpl. repeat split; try lia. destruct (s_fraction st); lia.
  - cbn [length] in He. pose proof (scan_inv_nonneg st I) as Nn.
    destruct (scan_step b (ds ++ rest) st Hb I) as [[L E] | (st1 & E & I1 & R1)]; [intros F; specialize (He F); lia | |].
    + left. split; [| done]. cbn. apply is_ascii_digit_spec in Hb.
      etransitivity; [exact L |]. apply (digits_value_ge _ ds Hd). lia.
    + change ((b :: ds) ++ rest) with (b :: ds ++ rest). rewrite E.
      destruct R1 as (R1 & R2 & R3 & R4). cbn in R1.
      assert (X : s_fraction st1 = true -> Z.abs (s_exponent st1) + Z.of_nat (length ds) < 2 ^ 62).
      { rewrite R4, R2. cbn [length]. destruct (s_fraction st); [| done]. specialize (He eq_refl). lia. }
      destruct (IH st1 I1 X) as [[L E2] | (st2 & E2 & I2 & S1 & S2 & S3 & S4)].
      * left. split; [| done]. by rewrite R1 in L.
      * right. exists st2. split; [done |]. split; [done |]. unfold scan_result.
        rewrite R1 in S1. rewrite S2, S3, S4, R2, R3, R4. cbn [length].
        repeat split; try done; try lia. destruct (s_fraction st); lia.
Qed.

Lemma scan_exponent_exact ds v :
  digits ds -> 0 <= v -> digits_value v ds < 2 ^ 62 ->
  scan_exponent ds v = Done (digits_value v ds).
Proof.
  intros H. revert v. induction H as [| b ds Hb Hd IH]; intros v Hv Hs; [done |].
  cbn [scan_exponent]. rewrite Hb. apply is_ascii_digit_spec in Hb.
  change (digits_value v (b :: ds)) with (digits_value (v * 10 + digit_value b) ds) in *.
  pose proof (digits_value_ge (v * 10 + digit_value b) ds Hd ltac:(lia)).
  rewrite (sat_i64_small (v * 10)) by (unfold in_i64, i64_min, i64_max; lia).
  rewrite sat_i64_small by (unfold in_i64, i64_min, i64_max; lia).
  apply IH; [lia | done].
Qed.

Lemma take_sign_print s bs :
  match bs with b :: _ => b <> "-"%char /\ b <> "+"%char | [] => True end ->
  take_sign (print_sign s ++ bs) = (is_minus s, bs).
Proof.
  destruct s as [[] |]; [done | done |]. destruct bs as [| b bs]; [done |]. intros [H1 H2].
  cbn. destruct (Ascii.eqb_spec b "-"); [done |]. by destruct (Ascii.eqb_spec b "+").
Qed.

Lemma digit_not_sign b : is_ascii_digit b = true -> b <> "-"%char /\ b <> "+"%char.
Proof. intros H. split; intros ->; discriminate H. Qed.

Lemma scan_inv_init : scan_inv (mkScan 0 0 0 0 false).
Proof. unfold scan_inv. simpl. lia. Qed.

(** The scan of a whole numeral, up to its exponent part. *)
Lemma scan_numeral nm :
  wf_numeral nm -> Z.of_nat (length (frac_digits nm)) < 2 ^ 62 ->
  (10 ^ 18 <= numeral_digits nm
   /\ scan_digits (nm_int nm ++ print_frac (nm_frac nm) ++ print_exp (nm_exp nm)) (mkScan 0 0 0 0 false)
      = Fail TooManyDigits)
  \/ exists st,
       scan_digits (nm_int nm ++ print_frac (nm_frac nm) ++ print_exp (nm_exp nm)) (mkScan 0 0 0 0 false)
       = Done (st, print_exp (nm_exp nm))
       /\ scan_inv st /\ s_mantissa st = numeral_digits nm
       /\ s_exponent st = - Z.of_nat (length (frac_digits nm)) /\ 0 < s_digits st.
Proof.
  intros (Hi & Hf & Hne & He) Hl. unfold numeral_digits, frac_digits in *.
  assert (Stop : forall st, scan_digits (print_exp (nm_exp nm)) st = Done (st, print_exp (nm_exp nm))).
  { intros st. destruct (nm_exp nm) as [[[c s] ds] |]; [| done].
    destruct He as [[-> | ->] _]; reflexivity. }
  assert (Pos : (0 < length (nm_int nm ++ default [] (nm_frac nm)))%nat).
  { destruct (nm_int nm ++ default [] (nm_frac nm)); [done | simpl; lia]. }
  rewrite length_app in Pos. rewrite digits_value_app.
  destruct (scan_run (nm_int nm) (print_frac (nm_frac nm) ++ print_exp (nm_exp nm))
              _ Hi scan_inv_init) as [[L E] | (st1 & E & I1 & R1 & R2 & R3 & R4)]; [done | |].
  { left. split; [| exact E]. etransitivity; [exact L |]. apply digits_value_ge; [done |].
    by apply digits_value_bounds. }
  rewrite E. simpl in R1, R2, R3, R4.
  destruct (nm_frac nm) as [ds |]; cbn [print_frac default from_option id app length] in *.
  - set (st2 := mkScan (s_mantissa st1) (s_significant st1) (s_exponent st1) (s_digits st1) true).
    assert (E2 : scan_digits ("."%char :: ds ++ print_exp (nm_exp nm)) st1
                 = scan_digits (ds ++ print_exp (nm_exp nm)) st2) by (simpl; rewrite R4; done).
    rewrite E2. destruct (scan_run ds (print_exp (nm_exp nm)) st2 Hf I1)
      as [[L F] | (st3 & F & I3 & S1 & S2 & S3 & S4)];
      cbn [s_fraction s_exponent s_mantissa s_digits st2] in *.
    + rewrite R2. lia.
    + left. by rewrite R1 in L.
    + right. exists st3. rewrite F, Stop, S1, S2, S3, R1, R2, R3.
      repeat split; try done; try apply I3; lia.
  - right. exists st1. rewrite Stop. repeat split; try done; try apply I1; lia.
Qed.

(** [finish_parse] on the scan of a numeral whose digits fit. *)
Lemma finish_numeral nm st :
  wf_numeral nm -> exponent_bounded nm ->
  scan_inv st -> s_mantissa st = numeral_digits nm ->
  s_exponent st = - Z.of_nat (length (frac_digits nm)) -> 0 < s_digits st ->
  finish_parse (is_minus (nm_sign nm)) st (print_exp (nm_exp nm))
  = if numeral_digits nm =? 0 then Done ZERO
    else let m := if is_minus (nm_sign nm) then - numeral_digits nm else numeral_digits nm in
         let (m', t) := strip_trailing 19 m 0 in
         if Z.abs (numeral_exponent nm + t) >? MAX_DECIMAL_EXPONENT then Fail ExponentRange
         else Done (mkNumber m' (numeral_exponent nm + t)).
Proof.
  intros (_ & _ & _ & He) Hb I Em Ee Hd. unfold finish_parse.
  destruct (Z.eqb_spec (s_digits st) 0) as [? | _]; [lia |].
  pose proof (scan_inv_nonneg st I) as Nn.
  assert (Small : numeral_digits nm < 10 ^ 18).
  { rewrite <- Em. destruct I as (A & _ & _ & D & _).
    eapply Z.lt_le_trans; [exact D |]. apply Z.pow_le_mono_r; lia. }
  unfold exponent_bounded in Hb.
  assert (X : forall v, Z.abs v < 2 ^ 63 -> wrap_i64 v = v).
  { intros v Hv. apply wrap_i64_small. unfold in_i64, i64_min, i64_max. lia. }
  match goal with |- match ?w with _ => _ end = _ =>
    assert (W : w = Done (numeral_exponent nm)) end.
  { unfold numeral_exponent, exp_value in *. destruct (nm_exp nm) as [[[c s] ds] |]; cbn [print_exp].
    - destruct He as (_ & Hds & Hne). rewrite take_sign_print.
      + destruct ds as [| b ds]; [done |].
        pose proof (digits_value_bounds _ Hds) as [B0 _].
        rewrite scan_exponent_exact; [| done | lia | destruct (is_minus s); lia].
        destruct (is_minus s); rewrite ?(X (- digits_value 0 (b :: ds))), X by lia; f_equal; lia.
      + destruct ds as [| b ds]; [done |]. apply Forall_cons in Hds as [Hds _].
        by apply digit_not_sign.
    - f_equal. lia. }
  rewrite W, Em. destruct (Z.eqb_spec (numeral_digits nm) 0) as [_ | Nz]; [done |].
  rewrite (X (- numeral_digits nm)) by lia.
  set (m := if is_minus (nm_sign nm) then - numeral_digits nm else numeral_digits nm).
  assert (M0 : m <> 0 /\ Z.abs m < 10 ^ Z.of_nat 19).
  { change (10 ^ Z.of_nat 19) with 10000000000000000000. unfold m.
    destruct (is_minus (nm_sign nm)); lia. }
  pose proof (strip_trailing_spec 19 m 0 (proj1 M0) (proj2 M0)) as P.
  destruct (strip_trailing 19 m 0) as [m' t]. destruct P as (P1 & _ & _ & _ & P5 & _).
  assert (B : Z.abs (numeral_exponent nm + t) < 2 ^ 63).
  { unfold numeral_exponent in *. lia. }
  rewrite (X (numeral_exponent nm + t)), X by lia.
  destruct (Z.gtb_spec (Z.abs (numeral_exponent nm + t)) MAX_DECIMAL_EXPONENT) as [_ | G]; [done |].
  unfold MAX_DECIMAL_EXPONENT in G. do 2 f_equal. apply wrap_s_small; simpl; lia.
Qed.

Lemma zero_ok : number_ok ZERO.
Proof. split; [by left |]. unfold ZERO, MAX_DECIMAL_EXPONENT. cbn [mantissa exponent]. lia. Qed.

Lemma strip_value m' t e : 0 <= t -> (scaled m' (e + t) == scaled (m' * 10 ^ (t - 0)) e)%Q.
Proof. intros H. rewrite Z.sub_0_r. by apply scaled_shift. Qed.

Lemma parse_numeral nm :
  wf_numeral nm -> exponent_bounded nm ->
  (10 ^ 18 <= numeral_digits nm /\ parse (str (print_numeral nm)) = Fail TooManyDigits)
  \/ numeral_digits nm < 10 ^ 18 /\
     parse (str (print_numeral nm))
     = if numeral_digits nm =? 0 then Done ZERO
       else let m := if is_minus (nm_sign nm) then - numeral_digits nm else numeral_digits nm in
            let (m', t) := strip_trailing 19 m 0 in
            if Z.abs (numeral_exponent nm + t) >? MAX_DECIMAL_EXPONENT then Fail ExponentRange
            else Done (mkNumber m' (numeral_exponent nm + t)).
Proof.
  intros W B. assert (B' := B). unfold exponent_bounded in B'.
  unfold parse, print_numeral. rewrite unstr_str, take_sign_print.
  - destruct (scan_numeral nm W) as [[L E] | (st & E & I & Em & Ee & Hd)]; [lia | |].
    + left. by rewrite E.
    + right. rewrite E, (finish_numeral nm st) by done. split; [| done].
      rewrite <- Em. destruct I as (A & _ & _ & D & _).
      eapply Z.lt_le_trans; [exact D |]. apply Z.pow_le_mono_r; lia.
  - destruct W as (Hi & _ & Hne & _). unfold frac_digits in Hne.
    destruct (nm_int nm) as [| b bs]; cbn.
    + destruct (nm_frac nm); done.
    + apply Forall_cons in Hi as [Hi _]. by apply digit_not_sign.
Qed.

Lemma parse_exact_lemma (nm : numeral) :
  wf_numeral nm -> exponent_bounded nm ->
  match parse (str (print_numeral nm)) with
  | Done n => (to_Q n == numeral_Q nm)%Q /\ number_ok n
  | Fail TooManyDigits => 10 ^ 18 <= numeral_digits nm
  | Fail ExponentRange => forall n, number_ok n -> ~ (to_Q n == numeral_Q nm)%Q
  | _ => False
  end.
Proof.
  intros W B. destruct (parse_numeral nm W B) as [[L ->] | [Small ->]]; [done |].
  assert (Nn : 0 <= numeral_digits nm).
  { unfold numeral_digits. apply digits_value_bounds. apply Forall_app_2; apply W. }
  unfold numeral_Q. destruct (Z.eqb_spec (numeral_digits nm) 0) as [-> | Nz].
  { split; [| exact zero_ok].
    unfold to_Q. destruct (is_minus (nm_sign nm)); by rewrite !scaled_0. }
  set (m := if is_minus (nm_sign nm) then - numeral_digits nm else numeral_digits nm).
  assert (M0 : m <> 0 /\ Z.abs m = numeral_digits nm)
    by (unfold m; destruct (is_minus (nm_sign nm)); lia).
  cbv zeta. pose proof (strip_trailing_spec 19 m 0 (proj1 M0)) as P.
  destruct (strip_trailing 19 m 0) as [m' t].
  destruct P as (P1 & P2 & P3 & P4 & _).
  { change (10 ^ Z.of_nat 19) with 10000000000000000000. lia. }
  assert (V : (to_Q (mkNumber m' (numeral_exponent nm + t)) == scaled m (numeral_exponent nm))%Q).
  { unfold to_Q. cbn [mantissa exponent]. rewrite strip_value by lia. by rewrite <- P2. }
  destruct (Z.gtb_spec (Z.abs (numeral_exponent nm + t)) MAX_DECIMAL_EXPONENT) as [G | G].
  - intros n (N1 & _ & N3) E. rewrite <- V in E.
    apply normalized_unique in E; [| done | by right]. subst n. cbn in N3. lia.
  - split; [exact V |]. split; [by right |]. cbn [mantissa exponent]. lia.
Qed.

(** What a successful scan has read. *)
Lemma scan_digits_sound bs st st' rest :
  scan_digits bs st = Done (st', rest) ->
  exists ds f,
    bs = ds ++ print_frac f ++ rest /\ digits ds /\ digits (default [] f)
    /\ (s_fraction st = true -> f = None)
    /\ s_digits st' = s_digits st + Z.of_nat (length (ds ++ default [] f))
    /\ match rest with [] => True | b :: _ => b = "e"%char \/ b = "E"%char end.
Proof.
  revert st. induction bs as [| b bs IH]; intros st H; cbn [scan_digits] in H.
  { injection H as <- <-. exists [], None. simpl. repeat split; try done. lia. }
  destruct (is_ascii_digit b) eqn:Hb.
  - assert (Next : exists st1, scan_digits bs st1 = Done (st', rest)
      /\ s_digits st1 = s_digits st + 1 /\ s_fraction st1 = s_fraction st).
    { destruct (_ || _); [destruct (_ >? _); [done |] |]; by eexists. }
    destruct Next as (st1 & H1 & D1 & F1).
    destruct (IH st1 H1) as (ds & f & -> & Hds & Hf & Hff & Hd & Hr).
    exists (b :: ds), f. rewrite F1 in Hff.
    repeat split; auto. rewrite Hd, D1. cbn [app length]. lia.
  - destruct (Ascii.eqb_spec b "."%char) as [-> | Nd]; cbn [andb] in H.
    + destruct (s_fraction st) eqn:F; [done |]. cbn [negb] in H.
      destruct (IH _ H) as (ds & f & -> & Hds & Hf & Hff & Hd & Hr).
      rewrite Hff in * by done.
      exists [], (Some ds). cbn [app print_frac default from_option id] in *.
      rewrite app_nil_r in Hd. cbn [s_digits] in Hd.
      repeat split; try done.
    + destruct (Ascii.eqb_spec b "e"%char) as [-> | Ne];
        [| destruct (Ascii.eqb_spec b "E"%char) as [-> | NE]; [| done]];
        cbn [orb] in H; injection H as <- <-; exists [], None; simpl;
        repeat split; try done; try lia; auto.
Qed.

Lemma scan_exponent_sound ds v x : scan_exponent ds v = Done x -> digits ds.
Proof.
  revert v. induction ds as [| b ds IH]; intros v H; [constructor |].
  cbn [scan_exponent] in H. destruct (is_ascii_digit b) eqn:Hb; [| done].
  constructor; [done |]. by eapply IH.
Qed.

(** The loops return, with no other error. *)
Lemma scan_digits_outcome bs st :
  (exists r, scan_digits bs st = Done r)
  \/ scan_digits bs st = Fail Malformed \/ scan_digits bs st = Fail TooManyDigits.
Proof.
  revert st. induction bs as [| b bs IH]; intros st; cbn [scan_digits]; [eauto |].
  repeat case_match; eauto.
Qed.

Lemma scan_exponent_outcome ds v :
  (exists x, scan_exponent ds v = Done x) \/ scan_exponent ds v = Fail Malformed.
Proof.
  revert v. induction ds as [| b ds IH]; intros v; cbn [scan_exponent]; [eauto |].
  case_match; eauto.
Qed.

Lemma take_sign_sound bs n bs' :
  take_sign bs = (n, bs') -> exists s, bs = print_sign s ++ bs' /\ is_minus s = n.
Proof.
  destruct bs as [| b bs]; cbn.
  - intros [= <- <-]. by exists None.
  - destruct (Ascii.eqb_spec b "-") as [-> | ?]; [intros [= <- <-]; by exists (Some true) |].
    destruct (Ascii.eqb_spec b "+") as [-> | ?]; [intros [= <- <-]; by exists (Some false) |].
    intros [= <- <-]. by exists None.
Qed.

(** *** Every accepted number is in range *)

Definition mantissa_inv (st : Scan) : Prop :=
  0 <= s_significant st <= 18 /\ 0 <= s_mantissa st < 10 ^ s_significant st.

Lemma scan_digits_mantissa bs st st' rest :
  mantissa_inv st -> scan_digits bs st = Done (st', rest) -> mantissa_inv st'.
Proof.
  revert st. induction bs as [| b bs IH]; intros st I H; cbn [scan_digits] in H.
  { by injection H as <- _. }
  destruct (is_ascii_digit b) eqn:D.
  - apply is_ascii_digit_spec in D. destruct I as (A & B).
    destruct (_ || _); [| apply IH in H; [done | by split]].
    unfold MAX_SIGNIFICANT_DIGITS in H.
    destruct (Z.gtb_spec (s_significant st + 1) 18); [done |].
    apply IH in H; [done |]. split; cbn [s_significant s_mantissa]; [lia |].
    assert (L : 10 ^ (s_significant st + 1) <= 10 ^ 18) by (apply Z.pow_le_mono_r; lia).
    rewrite Z.pow_add_r in L |- * by lia.
    rewrite wrap_i64_small by (unfold in_i64, i64_min, i64_max; lia). lia.
  - destruct (_ && _); [apply IH in H; [done | exact I] |].
    destruct (_ || _); [by injection H as <- _ | done].
Qed.

Lemma wrap_i64_in z : in_i64 (wrap_i64 z).
Proof.
  unfold wrap_i64, wrap_s, in_i64, i64_min, i64_max.
  pose proof (Z.mod_pos_bound (z + 2 ^ (64 - 1)) (2 ^ 64)). simpl in *. lia.
Qed.

Lemma exponent_check e :
  in_i64 e -> (wrap_i64 (Z.abs e) >? MAX_DECIMAL_EXPONENT) = false ->
  Z.abs (wrap_i16 e) <= MAX_DECIMAL_EXPONENT.
Proof.
  intros I H. destruct (Z.eq_dec e i64_min) as [-> | Ne]; [by vm_compute |].
  unfold in_i64, i64_min, i64_max, MAX_DECIMAL_EXPONENT in *.
  rewrite wrap_i64_small in H by (unfold in_i64, i64_min, i64_max; lia).
  rewrite Z.gtb_ltb in H. apply Z.ltb_ge in H.
  unfold wrap_i16. rewrite wrap_s_small; simpl; lia.
Qed.

(** [outcome] is an error or a number in range. *)
Definition in_range (o : outcome NumberError SdfNumber) : Prop :=
  match o with Done n => number_ok n | Fail _ => True | _ => False end.

Lemma finish_parse_range neg st rest : mantissa_inv st -> in_range (finish_parse neg st rest).
Proof.
  intros (A & B).
  assert (Small : s_mantissa st < 10 ^ 18).
  { eapply Z.lt_le_trans; [apply B |]. apply Z.pow_le_mono_r; lia. }
  unfold finish_parse. destruct (s_digits st =? 0); [done |].
  match goal with |- in_range (match ?w with _ => _ end) =>
    assert (W : (exists e, w = Done e) \/ w = Fail Malformed) end.
  { destruct rest as [| c rest]; [eauto |]. destruct (take_sign rest) as [en ds].
    destruct ds as [| d ds]; [eauto |].
    destruct (scan_exponent_outcome (d :: ds) 0) as [[v ->] | ->]; eauto. }
  destruct W as [[e ->] | ->]; [| done].
  destruct (Z.eqb_spec (s_mantissa st) 0) as [_ | Nz]; [exact zero_ok |].
  rewrite (wrap_i64_small (- s_mantissa st)) by (unfold in_i64, i64_min, i64_max; lia).
  set (m := if neg then - s_mantissa st else s_mantissa st).
  assert (M0 : m <> 0 /\ Z.abs m < 10 ^ 18) by (unfold m; destruct neg; lia).
  assert (M1 : Z.abs m < 10 ^ Z.of_nat 19).
  { change (10 ^ Z.of_nat 19) with (10 * 10 ^ 18). lia. }
  pose proof (strip_trailing_spec 19 m 0 (proj1 M0) M1) as P.
  destruct (strip_trailing 19 m 0) as [m' t]. destruct P as (_ & _ & P3 & P4 & _ & _).
  destruct (_ >? _) eqn:G; [done |]. apply exponent_check in G; [| apply wrap_i64_in].
  split; [by right |]. split; cbn [mantissa exponent]; [lia | exact G].
Qed.

(** Whatever the text: a number in range or an error. *)
Lemma parse_range text : in_range (parse text).
Proof.
  unfold parse. destruct (take_sign (unstr text)) as [neg bs].
  destruct (scan_digits_outcome bs (mkScan 0 0 0 0 false)) as [[[st rest] E] | [-> | ->]]; [| done ..].
  rewrite E. apply scan_digits_mantissa in E; [| split; cbn; lia]. by apply finish_parse_range.
Qed.

(** Only texts of the number grammar are accepted: an accepted text, and one
    rejected for its exponent only, is the text of a well-formed numeral. *)
Theorem parse_grammar (text : string) (r : outcome NumberError SdfNumber) :
  parse text = r -> r <> Fail Malformed -> r <> Fail TooManyDigits ->
  exists nm, wf_numeral nm /\ text = str (print_numeral nm).
Proof.
  unfold parse. intros H N1 N2. destruct (take_sign (unstr text)) as [neg bs] eqn:Es.
  apply take_sign_sound in Es as (s & Es & _).
  destruct (scan_digits_outcome bs (mkScan 0 0 0 0 false)) as [[[st rest] E] | [E | E]];
    rewrite E in H; [| by subst r | by subst r].
  apply scan_digits_sound in E as (ds & f & -> & Hds & Hf & _ & Hd & Hr).
  unfold finish_parse in H. destruct (Z.eqb_spec (s_digits st) 0) as [? | Nz]; [by subst r |].
  assert (Ne : ds ++ default [] f <> []).
  { intros E0. rewrite E0 in Hd. simpl in Hd. lia. }
  destruct rest as [| c rest].
  - exists (mkNumeral s ds f None). unfold wf_numeral, frac_digits, print_numeral.
    cbn [nm_sign nm_int nm_frac nm_exp print_exp].
    split; [done |]. by rewrite <- Es, str_unstr.
  - destruct (take_sign rest) as [en eds] eqn:Et. apply take_sign_sound in Et as (s2 & -> & _).
    destruct eds as [| d eds]; [by subst r |].
    destruct (scan_exponent_outcome (d :: eds) 0) as [[v Ee] | Ee]; rewrite Ee in H; [| by subst r].
    apply scan_exponent_sound in Ee.
    exists (mkNumeral s ds f (Some (c, s2, d :: eds))).
    unfold wf_numeral, frac_digits, print_numeral. cbn [nm_sign nm_int nm_frac nm_exp print_exp].
    split; [done |]. by rewrite <- Es, str_unstr.
Qed.

(** The digit-string comparison [cmp_exact] is the comparison of the
    rational values, for all mantissas and exponents. *)
Theorem cmp_exact_correct (a b : SdfNumber) : cmp_exact a b = (to_Q a ?= to_Q b)%Q.
Proof. apply cmp_exact_spec. Qed.

(** ** Printing *)

(** The numeral [fmt_number] writes. *)
Definition fmt_numeral (n : SdfNumber) : numeral :=
  let ds := dec_bytes (Z.abs (mantissa n)) in
  let sign := if mantissa n <? 0 then Some true else None in
  let len := Z.of_nat (length ds) in
  let scientific :=
    mkNumeral sign ds None
      (Some ("e"%char, (if exponent n <? 0 then Some true else None), dec_bytes (Z.abs (exponent n)))) in
  if 0 <=? exponent n then
    if exponent n >? 30 then scientific
    else mkNumeral sign (ds ++ repeat "0"%char (Z.to_nat (exponent n))) None None
  else if - exponent n >? 30 + len then scientific
  else if len >? - exponent n then
    mkNumeral sign (take (Z.to_nat (len + exponent n)) ds)
      (Some (drop (Z.to_nat (len + exponent n)) ds)) None
  else
    mkNumeral sign ["0"%char]
      (Some (repeat "0"%char (Z.to_nat (- exponent n - len)) ++ ds)) None.

Lemma print_dec z : unstr (dec z) = print_sign (if z <? 0 then Some true else None) ++ dec_bytes (Z.abs z).
Proof.
  unfold dec. destruct (Z.ltb_spec z 0) as [H | H]; rewrite unstr_str.
  - by rewrite Z.abs_neq by lia.
  - by rewrite Z.abs_eq by lia.
Qed.

Lemma fmt_number_numeral n : fmt_number n = str (print_numeral (fmt_numeral n)).
Proof.
  assert (Sg : print_sign (if mantissa n <? 0 then Some true else None)
               = if mantissa n <? 0 then ["-"%char] else []) by (by case_match).
  unfold fmt_number, fmt_numeral, print_numeral.
  repeat case_match; cbn [nm_sign nm_int nm_frac nm_exp print_frac print_exp];
    rewrite ?print_dec, ?app_nil_r, ?app_nil_l; cbn [app print_sign];
    rewrite ?app_nil_r, <- ?app_assoc; try done; do 2 f_equal;
    repeat match goal with
           | H : (?e <? 0) = _ |- _ => rewrite H
           end; try done; repeat f_equal; try lia.
Qed.

(** A plain integer printed without exponent keeps its zeros, and the parser
    counts them as significant digits. *)
Definition plain_fits (n : SdfNumber) : Prop :=
  0 <= exponent n <= 30 -> Z.abs (mantissa n) * 10 ^ exponent n < 10 ^ 18.

Lemma digits_take k ds : digits ds -> digits (take k ds).
Proof. apply Forall_take. Qed.
Lemma digits_drop k ds : digits ds -> digits (drop k ds).
Proof. apply Forall_drop. Qed.

Lemma signed_abs m : (if is_minus (if m <? 0 then Some true else None) then - Z.abs m else Z.abs m) = m.
Proof. destruct (Z.ltb_spec m 0); simpl; lia. Qed.

Lemma fmt_numeral_spec n :
  number_ok n ->
  wf_numeral (fmt_numeral n) /\ exponent_bounded (fmt_numeral n)
  /\ (numeral_Q (fmt_numeral n) == to_Q n)%Q
  /\ (plain_fits n -> numeral_digits (fmt_numeral n) < 10 ^ 18).
Proof.
  intros (_ & Hm & He). unfold MAX_DECIMAL_EXPONENT in He.
  destruct (dec_bytes_spec (Z.abs (mantissa n))) as (V & D & L & B); [lia |].
  destruct (dec_bytes_spec (Z.abs (exponent n))) as (Ve & De & Le & _); [lia |].
  set (ds := dec_bytes (Z.abs (mantissa n))) in *.
  set (es := dec_bytes (Z.abs (exponent n))) in *.
  assert (Ll : Z.of_nat (length ds) <= 18).
  { destruct B as [[_ ->] | B]; [lia |].
    assert (10 ^ (Z.of_nat (length ds) - 1) < 10 ^ 18) as P by lia.
    apply Z.pow_lt_mono_r_iff in P; lia. }
  assert (Nds : ds <> []) by (destruct ds; [simpl in L; lia | done]).
  assert (Nes : es <> []) by (destruct es; [simpl in Le; lia | done]).
  unfold fmt_numeral, plain_fits, wf_numeral, exponent_bounded, numeral_Q, numeral_exponent,
    numeral_digits, exp_value, frac_digits, to_Q. fold ds. fold es.
  destruct (Z.leb_spec 0 (exponent n)) as [P | P].
  - destruct (Z.gtb_spec (exponent n) 30) as [G | G];
      cbn [nm_sign nm_int nm_frac nm_exp default from_option id length is_minus].
    + rewrite app_nil_r, V, Ve, (proj2 (Z.ltb_ge (exponent n) 0)) by lia. cbn [is_minus].
      rewrite signed_abs. repeat split; auto; try lia.
      by replace (Z.abs (exponent n) - Z.of_nat 0) with (exponent n) by lia.
    + rewrite app_nil_r, digits_value_pad, V, Z2Nat.id by lia.
      repeat split; auto; try lia.
      * apply Forall_app_2; [done | apply digits_zeros].
      * by destruct ds.
      * transitivity (scaled (mantissa n) (0 + exponent n)); [| done].
        rewrite scaled_shift by lia. change (0 - Z.of_nat 0) with 0.
        destruct (Z.ltb_spec (mantissa n) 0) as [N | N]; cbn [is_minus].
        -- rewrite Z.abs_neq by lia. by replace (- (- mantissa n * 10 ^ exponent n))
             with (mantissa n * 10 ^ exponent n) by lia.
        -- by rewrite Z.abs_eq by lia.
  - destruct (Z.gtb_spec (- exponent n) (30 + Z.of_nat (length ds))) as [G | G].
    + cbn [nm_sign nm_int nm_frac nm_exp default from_option id length].
      rewrite app_nil_r, V, Ve, (proj2 (Z.ltb_lt (exponent n) 0)) by lia. cbn [is_minus].
      rewrite signed_abs. repeat split; auto; try lia.
      by replace (- Z.abs (exponent n) - Z.of_nat 0) with (exponent n) by lia.
    + destruct (Z.gtb_spec (Z.of_nat (length ds)) (- exponent n)) as [G2 | G2];
        cbn [nm_sign nm_int nm_frac nm_exp default from_option id].
      * rewrite take_drop, length_drop, V, signed_abs.
        repeat split; auto using digits_take, digits_drop; try lia.
        by replace (0 - Z.of_nat (length ds - Z.to_nat (Z.of_nat (length ds) + exponent n)))
          with (exponent n) by lia.
      * rewrite length_app, repeat_length. cbn [app].
        assert (X : digits_value 0 ("0"%char :: repeat "0"%char (Z.to_nat (- exponent n - Z.of_nat (length ds))) ++ ds)
                    = Z.abs (mantissa n)).
        { change ("0"%char :: ?l ++ ds) with (repeat "0"%char 1 ++ l ++ ds).
          rewrite !digits_value_app, !digits_value_zeros. exact V. }
        rewrite X, signed_abs. repeat split; auto; try lia.
        -- apply Forall_app_2; [apply digits_zeros | done].
        -- by replace (0 - Z.of_nat (Z.to_nat (- exponent n - Z.of_nat (length ds)) + length ds))
             with (exponent n) by lia.
Qed.

(** Round trip: every number the parser can produce, printed and parsed
    again, is the same number, when its plain form has at most 18 digits. *)
Theorem fmt_parse_roundtrip (n : SdfNumber) :
  number_ok n -> plain_fits n -> parse (fmt_number n) = Done n.
Proof.
  intros Ok Fits. destruct (fmt_numeral_spec n Ok) as (W & B & V & D).
  rewrite fmt_number_numeral. pose proof (parse_exact_lemma _ W B) as P.
  destruct (parse (str (print_numeral (fmt_numeral n)))) as [n' | e | |]; try done.
  - destruct P as [E Ok']. f_equal. apply normalized_unique; [apply Ok' | apply Ok |].
    by rewrite E, V.
  - destruct e; [done | specialize (D Fits); lia |].
    exfalso. apply (P n Ok). by rewrite V.
Qed.

(** C39: parsing is exact on the number grammar. On every numeral whose exponent
    arithmetic stays within an [i64] the parser returns a normalized number
    with exactly the numeral's rational value, rejects it for having 19 or
    more digits from the first nonzero one, or rejects it for its exponent,
    and then no representable number has that value. *)
Theorem parse_exact (nm : numeral) :
  wf_numeral nm -> exponent_bounded nm ->
  match parse (str (print_numeral nm)) with
  | Done n => (to_Q n == numeral_Q nm)%Q /\ number_ok n
  | Fail TooManyDigits => 10 ^ 18 <= numeral_digits nm
  | Fail ExponentRange => forall n, number_ok n -> ~ (to_Q n == numeral_Q nm)%Q
  | _ => False
  end.
Proof. apply parse_exact_lemma. Qed.

(** The exponent loop saturates at the largest [i64]. *)
Lemma scan_exponent_saturates ds v :
  digits ds -> 0 <= v <= i64_max -> scan_exponent ds v = Done (Z.min i64_max (digits_value v ds)).
Proof.
  intros H. revert v. induction H as [| b ds Hb Hd IH]; intros v Hv; cbn [scan_exponent].
  - cbn. f_equal. lia.
  - rewrite Hb. apply is_ascii_digit_spec in Hb.
    change (digits_value v (b :: ds)) with (digits_value (v * 10 + digit_value b) ds).
    pose proof (digits_value_ge (v * 10 + digit_value b) ds Hd ltac:(lia)).
    unfold sat_i64, i64_min in *. rewrite IH by (unfold i64_max in *; lia). f_equal.
    destruct (Z.le_gt_cases (v * 10 + digit_value b) i64_max) as [L | G]; unfold i64_max in *.
    + do 2 f_equal. lia.
    + replace (Z.max _ _) with (2 ^ 63 - 1) by lia.
      pose proof (digits_value_ge (2 ^ 63 - 1) ds Hd ltac:(lia)). lia.
Qed.

(** The exponent range check misses one exponent. A fraction with one
    nonzero digit after the point and a negative exponent so large that the
    [i64] counter saturates has the smallest [i64] as its exponent, whose
    absolute value wraps around to itself: every such text, such as
    0.1e-99999999999999999999, is accepted and read as the digit alone. *)
Theorem parse_saturated_exponent (d : Z) (eds : bytes) :
  1 <= d <= 9 -> digits eds -> i64_max <= digits_value 0 eds ->
  parse (str (unstr "0." ++ digit_char d :: unstr "e-" ++ eds)) = Done (mkNumber d 0).
Proof.
  intros Hd He Hv. unfold parse. rewrite unstr_str.
  assert (D : d ∈ [1; 2; 3; 4; 5; 6; 7; 8; 9]) by (rewrite !elem_of_cons; lia).
  change (take_sign _) with (false, unstr "0." ++ digit_char d :: unstr "e-" ++ eds). cbv iota beta zeta.
  assert (E : scan_digits (unstr "0." ++ digit_char d :: unstr "e-" ++ eds) (mkScan 0 0 0 0 false)
              = Done (mkScan d 1 (-1) 2 true, unstr "e-" ++ eds)).
  { repeat (apply elem_of_cons in D as [-> | D]; [reflexivity |]). by apply elem_of_nil in D. }
  rewrite E. cbn [finish_parse unstr list_ascii_of_string app s_digits s_exponent s_mantissa].
  destruct eds as [| e eds]; [exfalso; apply Hv; reflexivity |].
  change (take_sign _) with (true, e :: eds). unfold finish_parse.
  cbn [s_digits s_exponent s_mantissa unstr list_ascii_of_string app Z.eqb Pos.eqb].
  change (take_sign _) with (true, e :: eds). cbv iota beta zeta.
  rewrite scan_exponent_saturates, Z.min_l by (done || (unfold i64_max; lia)).
  clear - D. repeat (apply elem_of_cons in D as [-> | D]; [vm_compute; reflexivity |]). by apply elem_of_nil in D.
Qed.

(** ** Witnesses *)

Definition numeral_2_4e2 : numeral :=
  mkNumeral None ["2"%char] (Some ["4"%char]) (Some ("e"%char, None, ["2"%char])).

Lemma parse_exact_witness :
  match parse (str (print_numeral numeral_2_4e2)) with
  | Done n => (to_Q n == numeral_Q numeral_2_4e2)%Q /\ number_ok n
  | Fail TooManyDigits => 10 ^ 18 <= numeral_digits numeral_2_4e2
  | Fail ExponentRange => forall n, number_ok n -> ~ (to_Q n == numeral_Q numeral_2_4e2)%Q
  | _ => False
  end.
Proof.
  apply (parse_exact numeral_2_4e2).
  - repeat split; try (repeat constructor); auto; discriminate.
  - vm_compute. reflexivity.
Defined.

Lemma parse_grammar_witness :
  exists nm, wf_numeral nm /\ "2.4e2"%string = str (print_numeral nm).
Proof.
  apply (parse_grammar "2.4e2" (Done (mkNumber 24 1))).
  - vm_compute. reflexivity.
  - discriminate.
  - discriminate.
Defined.

Lemma fmt_parse_roundtrip_witness : parse (fmt_number (mkNumber (-145) (-3))) = Done (mkNumber (-145) (-3)).
Proof.
  apply (fmt_parse_roundtrip (mkNumber (-145) (-3))).
  - split; [right; discriminate |]. vm_compute. split; [reflexivity | discriminate].
  - intros [H _]. exfalso. apply H. reflexivity.
Defined.

Lemma parse_saturated_exponent_witness :
  parse "0.1e-99999999999999999999" = Done (mkNumber 1 0).
Proof.
  apply (parse_saturated_exponent 1 (unstr "99999999999999999999")%string);
    [lia | repeat constructor | vm_compute; discriminate].
Defined.
