(* ===== verification/Common.v ===== *)
(** * Positions, errors and limits (src/sim/sdf/mod.rs) *)

From Stdlib Require Import ZArith Lia Ascii String.
From stdpp Require Import base list strings.
From S2P Require Import Prelude.
Open Scope Z_scope.

Definition MAX_IDENTIFIER_CHARS : Z := 1024.

(** A 1-based line and column, both [u32]. *)
Record SdfPos : Type := mkPos { line : Z; col : Z }.

Record SdfError : Type := mkError { err_pos : SdfPos; message : string }.

Record SdfLimits : Type := mkLimits {
  max_input_bytes : Z;
  max_token_bytes : Z;
  max_string_bytes : Z;
  max_path_components : Z;
  max_condition_depth : Z;
  max_condition_nodes : Z;
  max_plan_ops : Z
}.

Definition default_limits : SdfLimits :=
  mkLimits (Z.shiftl 1 36) (Z.shiftl 1 16) (Z.shiftl 1 12) (Z.shiftl 1 10) 64
    (Z.shiftl 1 12) (Z.shiftl 1 26).

#[export] Instance SdfPos_eq_dec : EqDecision SdfPos.
Proof. solve_decision. Defined.
#[export] Instance SdfError_eq_dec : EqDecision SdfError.
Proof. solve_decision. Defined.

Definition fmt_pos (p : SdfPos) : string := cat [dec (line p); ":"; dec (col p)]%string.
Definition fmt_error (e : SdfError) : string := cat [fmt_pos (err_pos e); ": "; message e]%string.

(** The position after a byte ([Lexer::bump]). *)
Definition advance (p : SdfPos) (b : ascii) : SdfPos :=
  if Ascii.eqb b newline then mkPos (wrap_u32 (line p + 1)) 1
  else mkPos (line p) (wrap_u32 (col p + 1)).
