(* ===== verification/Lexer.v ===== *)
(** * The SDF lexer (src/sim/sdf/lexer.rs)

    [Stream] is the lexer of the sources: it reads buffers from a [BufRead],
    keeps a pushback stack, and has two fast paths. [Flat] is a reference
    lexer over the whole remaining text. The token functions between them
    are written once, over the byte operations of the class [ByteSource],
    as the sources write them once over [R: BufRead]. *)

From Stdlib Require Import ZArith Lia Ascii String.
From stdpp Require Import base list strings.
From S2P Require Import Prelude Common.
Open Scope Z_scope.
Open Scope list_scope.

Inductive Mode : Type := Structure | Expression.

#[export] Instance Mode_eq_dec : EqDecision Mode.
Proof. solve_decision. Defined.

(** Longest first, so that lexing is greedy. *)
Definition OPERATORS : list string :=
  ["=="; "!="; "&&"; "||"; "<="; ">="; "<<"; ">>"; "~&"; "~|"; "~^"; "^~"; "+"; "-"; "!"; "~";
   "&"; "|"; "^"; "*"; "/"; "%"; "<"; ">"]%string.

Inductive Tok : Type :=
| LParen
| RParen
| QString (text : string)
| Word (text : string)
| Ident (text : string)
| Const (text : string)
| Op (op : string)
| LBrace
| RBrace
| Comma
| Question
| Colon
| Eof.

#[export] Instance Tok_eq_dec : EqDecision Tok.
Proof. solve_decision. Defined.

Definition describe (t : Tok) : string :=
  match t with
  | LParen => "`(`"
  | RParen => "`)`"
  | QString text => cat ["string "; quoted text]
  | Word text | Ident text | Const text => ticked text
  | Op op => ticked op
  | LBrace => "`{`"
  | RBrace => "`}`"
  | Comma => "`,`"
  | Question => "`?`"
  | Colon => "`:`"
  | Eof => "the end of the file"
  end%string.

Record Token : Type := mkToken { tok : Tok; tok_pos : SdfPos; tok_mode : Mode }.

(** The source bytes of a token. *)
Definition tok_source (t : Tok) : bytes :=
  match t with
  | LParen => ["("]
  | RParen => [")"]
  | LBrace => ["{"]
  | RBrace => ["}"]
  | Comma => [","]
  | Question => ["?"]
  | Colon => [":"]
  | Eof => []
  | Op op => unstr op
  | Word text | Ident text | Const text => unstr text
  | QString text => quote :: unstr text ++ [quote]
  end%char.

(** The pushback stack is a list whose head is the next byte (the last
    element of the [Vec]). *)
Definition push_source (t : Tok) (stack : bytes) : bytes := tok_source t ++ stack.

Definition is_space (b : ascii) : bool :=
  Ascii.eqb b " "%char || Ascii.eqb b tab || Ascii.eqb b newline || Ascii.eqb b carriage_return.

Definition is_identifier_char (b : ascii) : bool := is_ascii_alphanumeric b || Ascii.eqb b "_"%char.

(** The bytes that end a structure word. *)
Definition is_delimiter (b : ascii) : bool :=
  Ascii.eqb b "("%char || Ascii.eqb b ")"%char || Ascii.eqb b quote.

(** ** Messages *)

Definition too_large_error (p : SdfPos) (limits : SdfLimits) : SdfError :=
  mkError p (cat ["the SDF file is larger than the limit of "; dec (max_input_bytes limits); " bytes"])%string.
Definition read_error (p : SdfPos) (error : string) : SdfError :=
  mkError p (cat ["cannot read the SDF file: "; error])%string.
Definition long_token_error (p : SdfPos) (limits : SdfLimits) : SdfError :=
  mkError p (cat ["a token is longer than the limit of "; dec (max_token_bytes limits); " bytes"])%string.
Definition open_comment_error (p : SdfPos) : SdfError :=
  mkError p "the comment starting here is not closed".
Definition escape_error (p : SdfPos) : SdfError :=
  mkError p "the escape character `\` must be followed by the character it escapes".

Definition hex_digit (n : N) : ascii :=
  if (n <? 10)%N then ascii_of_N (n + 48) else ascii_of_N (n + 87).
Definition hex02 (b : ascii) : string :=
  str [hex_digit (byte_N b / 16); hex_digit (byte_N b mod 16)].

(** ** Byte sources *)

Class ByteSource (S : Type) : Type := {
  pos : S -> SdfPos;
  source_limits : S -> SdfLimits;
  peek_byte : M SdfError S (option ascii);
  peek_second : M SdfError S (option ascii);
  bump : M SdfError S (option ascii)
}.

(** ** Token functions over a byte source *)

Section Tokens.
Context {S : Type} `{BS : ByteSource S} `{MS : Measured S}.

Definition check_ascii (byte : ascii) (p : SdfPos) : M SdfError S unit :=
  if (128 <=? byte_N byte)%N then
    fail (mkError p (cat ["the character 0x"; hex02 byte;
                          " is not an SDF character (SDF files are ASCII)"])%string)
  else if (byte_N byte <? 32)%N && negb (is_space byte) then
    fail (mkError p (cat ["the control character 0x"; hex02 byte; " is not an SDF character"])%string)
  else ret tt.

(** [String::from_utf8(text).expect(..)]: a panic unless the bytes are ASCII
    (other valid UTF-8 would not panic, but never occurs). *)
Definition from_utf8 (text : bytes) : M SdfError S string :=
  if forallb is_ascii text then ret (str text) else panic "ASCII bytes are UTF-8".

Definition lex_qstring (p : SdfPos) (mode : Mode) : M SdfError S Token :=
  bump ;;;
  let* text :=
    loop (fun text =>
      let* here := gets pos in
      let* b := bump in
      match b with
      | None => fail (mkError p "the string starting here is not closed")
      | Some byte =>
          if Ascii.eqb byte quote then break text
          else if Ascii.eqb byte newline then
            fail (mkError here "a QSTRING cannot contain a newline (the string is not closed)")
          else if Ascii.eqb byte tab then
            fail (mkError here "a QSTRING cannot contain a tab")
          else
            check_ascii byte here ;;;
            let* limits := gets source_limits in
            if Z.of_nat (length text) >=? max_string_bytes limits then
              fail (mkError p (cat ["the string is longer than the limit of ";
                                    dec (max_string_bytes limits); " bytes"])%string)
            else continue (text ++ [byte])
      end) [] in
  let* content := from_utf8 text in
  ret (mkToken (QString content) p mode).

Definition push_limited (text : bytes) (byte : ascii) (p : SdfPos) : M SdfError S bytes :=
  let* limits := gets source_limits in
  if Z.of_nat (length text) >=? max_token_bytes limits then fail (long_token_error p limits)
  else ret (text ++ [byte]).

Definition lex_escape (text : bytes) (start : SdfPos) : M SdfError S bytes :=
  let* here := gets pos in
  bump ;;;
  let* text := push_limited text backslash start in
  let* b := peek_byte in
  match b with
  | Some byte =>
      if is_space byte then fail (escape_error here)
      else
        let* p := gets pos in
        check_ascii byte p ;;;
        bump ;;;
        push_limited text byte start
  | None => fail (escape_error here)
  end.

Definition lex_identifier (p : SdfPos) : M SdfError S Token :=
  let* text :=
    loop (fun text =>
      let* b := peek_byte in
      match b with
      | None => break text
      | Some byte =>
          if Ascii.eqb byte backslash then
            let* text := lex_escape text p in continue text
          else if negb (is_identifier_char byte) && negb (Ascii.eqb byte "$"%char) then break text
          else
            bump ;;;
            let* text := push_limited text byte p in continue text
      end) [] in
  let* b := peek_byte in
  let* text :=
    if decide (b = Some "["%char) then
      loop (fun text =>
        let* b := peek_byte in
        match b with
        | None => break text
        | Some byte =>
            let* here := gets pos in
            check_ascii byte here ;;;
            if is_space byte || is_delimiter byte then break text
            else
              bump ;;;
              let* text := push_limited text byte p in
              if Ascii.eqb byte "]"%char then break text else continue text
        end) text
    else ret text in
  let* word := from_utf8 text in
  ret (mkToken (Ident word) p Expression).

Definition lex_constant (p : SdfPos) : M SdfError S Token :=
  let* text :=
    loop (fun text =>
      let* b := peek_byte in
      match b with
      | None => break text
      | Some byte =>
          if is_identifier_char byte || Ascii.eqb byte "'"%char || Ascii.eqb byte "."%char then
            bump ;;;
            let* text := push_limited text byte p in continue text
          else break text
      end) [] in
  let* word := from_utf8 text in
  ret (mkToken (Const word) p Expression).

(** The operator that [first] and [second] start, longest match first. *)
Definition match_operator (first : ascii) (second : option ascii) : option string :=
  List.find (fun op =>
    match unstr op with
    | [a; b] => Ascii.eqb a first && bool_decide (Some b = second)
    | [a] => Ascii.eqb a first
    | _ => false
    end) OPERATORS.

Definition single_token (first : ascii) : option Tok :=
  if Ascii.eqb first "{"%char then Some LBrace
  else if Ascii.eqb first "}"%char then Some RBrace
  else if Ascii.eqb first ","%char then Some Comma
  else if Ascii.eqb first "?"%char then Some Question
  else if Ascii.eqb first ":"%char then Some Colon
  else None.

Definition lex_expression (p : SdfPos) (first : ascii) : M SdfError S Token :=
  match single_token first with
  | Some t => bump ;;; ret (mkToken t p Expression)
  | None =>
      if Ascii.eqb first backslash || is_ascii_alphabetic first || Ascii.eqb first "_"%char
         || Ascii.eqb first "$"%char
      then lex_identifier p
      else if is_ascii_digit first || Ascii.eqb first "'"%char then lex_constant p
      else
        let* second := peek_second in
        match match_operator first second with
        | Some op =>
            repeat_m (length (unstr op)) (fun _ => bump) ;;;
            let* op :=
              if String.eqb op "==" then
                let* b := peek_byte in
                ret (if decide (b = Some "="%char) then "===" else op)%string
              else if String.eqb op "!=" then
                let* b := peek_byte in
                ret (if decide (b = Some "="%char) then "!==" else op)%string
              else ret op in
            (if Nat.eqb (length (unstr op)) 3 then bump ;;; ret tt else ret tt) ;;;
            ret (mkToken (Op op) p Expression)
        | None =>
            fail (mkError p (cat ["unexpected character "; ticked (str [first]); " in a condition"])%string)
        end
  end.

(** The next token, given how trivia is skipped and a structure word read. *)
Definition lex_with (skip_trivia : M SdfError S unit) (lex_word : SdfPos -> M SdfError S Token)
  (mode : Mode) : M SdfError S Token :=
  skip_trivia ;;;
  let* p := gets pos in
  let* b := peek_byte in
  match b with
  | None => ret (mkToken Eof p mode)
  | Some byte =>
      check_ascii byte p ;;;
      if Ascii.eqb byte "("%char then bump ;;; ret (mkToken LParen p mode)
      else if Ascii.eqb byte ")"%char then bump ;;; ret (mkToken RParen p mode)
      else if Ascii.eqb byte quote then lex_qstring p mode
      else match mode with
           | Structure => lex_word p
           | Expression => lex_expression p byte
           end
  end.

End Tokens.

(** ** Lexers: peeking and returning tokens *)

Class Lexing (S : Type) : Type := {
  lex : Mode -> M SdfError S Token;
  unread : Token -> M SdfError S unit;
  peeked : S -> option Token;
  set_peeked : option Token -> S -> S;
  lexer_pos : S -> SdfPos
}.

Section Peeking.
Context {S : Type} `{LX : Lexing S}.

(** Whether a peeked token can be used in [mode]. *)
Definition usable (token : Token) (mode : Mode) : bool :=
  bool_decide (tok_mode token = mode) || bool_decide (tok token = Eof).

Definition next (mode : Mode) : M SdfError S Token :=
  let* o := gets peeked in
  match o with
  | Some token =>
      modify (set_peeked None) ;;;
      if usable token mode then ret token else unread token ;;; lex mode
  | None => lex mode
  end.

Definition peek (mode : Mode) : M SdfError S Token :=
  let* o := gets peeked in
  match o with
  | Some token =>
      modify (set_peeked None) ;;;
      if usable token mode then modify (set_peeked (Some token)) else unread token
  | None => ret tt
  end ;;;
  let* o := gets peeked in
  match o with
  | None =>
      let* token := lex mode in
      modify (set_peeked (Some token))
  | Some _ => ret tt
  end ;;;
  let* o := gets peeked in
  match o with
  | Some token => ret token
  | None => panic "a token was just peeked"
  end.

Definition expect_end : M SdfError S unit :=
  let* token := next Structure in
  match tok token with
  | Eof => ret tt
  | other =>
      fail (mkError (tok_pos token)
        (cat ["unexpected "; describe other; " after the end of the DELAYFILE"])%string)
  end.

End Peeking.

(** ** The streaming lexer *)

(** A [BufRead]: the buffers that successive [fill_buf] calls return, each
    non-empty, and then the end of the input or a read error. *)
Record Input : Type := mkInput { chunks : list bytes; failure : option string }.

Definition fill_buf (i : Input) : string + bytes :=
  match chunks i with
  | c :: _ => inr c
  | [] => match failure i with Some e => inl e | None => inr [] end
  end.

Definition consume (n : nat) (i : Input) : Input :=
  match chunks i with
  | [] => i
  | c :: cs =>
      match drop n c with
      | [] => mkInput cs (failure i)
      | c' => mkInput (c' :: cs) (failure i)
      end
  end.

Module Stream.

Record Lexer : Type := mkLexer {
  input : Input;
  pushback : bytes;
  lx_line : Z;
  lx_col : Z;
  consumed : Z;
  lx_peeked : option Token;
  limits : SdfLimits
}.

(** [Lexer::new]. *)
Definition new (input : Input) (limits : SdfLimits) : Lexer :=
  mkLexer input [] 1 1 0 None limits.

Definition pos (l : Lexer) : SdfPos := mkPos (lx_line l) (lx_col l).

Definition set_input (l : Lexer) (i : Input) : Lexer :=
  mkLexer i (pushback l) (lx_line l) (lx_col l) (consumed l) (lx_peeked l) (limits l).
Definition set_pushback (l : Lexer) (p : bytes) : Lexer :=
  mkLexer (input l) p (lx_line l) (lx_col l) (consumed l) (lx_peeked l) (limits l).
Definition set_pos (l : Lexer) (p : SdfPos) : Lexer :=
  mkLexer (input l) (pushback l) (line p) (col p) (consumed l) (lx_peeked l) (limits l).
Definition set_consumed (l : Lexer) (c : Z) : Lexer :=
  mkLexer (input l) (pushback l) (lx_line l) (lx_col l) c (lx_peeked l) (limits l).
Definition set_peeked (o : option Token) (l : Lexer) : Lexer :=
  mkLexer (input l) (pushback l) (lx_line l) (lx_col l) (consumed l) o (limits l).

(** [self.input.fill_buf().map_err(..)]. *)
Definition read_buffer (p : SdfPos) : M SdfError Lexer bytes :=
  let* l := get in
  match fill_buf (input l) with
  | inl error => fail (read_error p error)
  | inr buffer => ret buffer
  end.

Definition consume_input (n : nat) : M SdfError Lexer unit :=
  modify (fun l => set_input l (consume n (input l))).

Definition peek_byte : M SdfError Lexer (option ascii) :=
  let* l := get in
  match pushback l with
  | byte :: _ => ret (Some byte)
  | [] =>
      let* buffer := read_buffer (pos l) in
      ret (head buffer)
  end.

Definition count_consumed (p : SdfPos) : M SdfError Lexer unit :=
  modify (fun l => set_consumed l (consumed l + 1)) ;;;
  let* l := get in
  if consumed l >? max_input_bytes (limits l) then fail (too_large_error p (limits l))
  else ret tt.

Definition peek_second : M SdfError Lexer (option ascii) :=
  let* l := get in
  match pushback l with
  | _ :: second :: _ => ret (Some second)
  | [_] =>
      let* buffer := read_buffer (pos l) in
      ret (head buffer)
  | [] =>
      let p := pos l in
      let* buffer := read_buffer p in
      match buffer with
      | _ :: second :: _ => ret (Some second)
      | [] => ret None
      | [first] =>
          consume_input 1 ;;;
          count_consumed p ;;;
          modify (fun l => set_pushback l (first :: pushback l)) ;;;
          let* buffer := read_buffer p in
          ret (head buffer)
      end
  end.

Definition bump : M SdfError Lexer (option ascii) :=
  let* l := get in
  let* b :=
    match pushback l with
    | byte :: rest =>
        modify (fun l => set_pushback l rest) ;;;
        ret (Some byte)
    | [] =>
        let* b := peek_byte in
        match b with
        | None => ret None
        | Some byte =>
            consume_input 1 ;;;
            let* l := get in
            count_consumed (pos l) ;;;
            ret (Some byte)
        end
    end in
  match b with
  | None => ret None
  | Some byte =>
      modify (fun l => set_pos l (advance (pos l) byte)) ;;;
      ret (Some byte)
  end.

Definition consume_run (count : nat) (p : SdfPos) : M SdfError Lexer unit :=
  consume_input count ;;;
  modify (fun l => set_consumed l (consumed l + Z.of_nat count)) ;;;
  let* l := get in
  if consumed l >? max_input_bytes (limits l) then fail (too_large_error p (limits l))
  else
    modify (fun l => set_pos l (mkPos (lx_line l) (wrap_u32 (lx_col l + wrap_u32 (Z.of_nat count))))).

(** Printable ASCII with no meaning of its own in a word. *)
Definition is_plain (b : ascii) : bool :=
  (33 <=? byte_N b)%N && (byte_N b <? 127)%N
  && negb (is_delimiter b || Ascii.eqb b backslash || Ascii.eqb b "/"%char).

Definition take_plain_run (text : bytes) (p : SdfPos) : M SdfError Lexer bytes :=
  let* l := get in
  match pushback l with
  | _ :: _ => ret text
  | [] =>
      let* buffer := read_buffer (pos l) in
      let count := run_length is_plain buffer in
      if Nat.eqb count 0 then ret text
      else if Z.of_nat (length text + count) >? max_token_bytes (limits l) then
        fail (long_token_error p (limits l))
      else
        consume_run count p ;;;
        ret (text ++ take count buffer)
  end.

Definition is_blank (b : ascii) : bool := Ascii.eqb b " "%char || Ascii.eqb b tab.

Definition skip_blank_run : M SdfError Lexer unit :=
  let* l := get in
  match pushback l with
  | _ :: _ => ret tt
  | [] =>
      let here := pos l in
      let* buffer := read_buffer here in
      let count := run_length is_blank buffer in
      if Nat.ltb 0 count then consume_run count here else ret tt
  end.

#[global] Instance lexer_bytes : ByteSource Lexer := {
  Lexer.pos := pos;
  source_limits := limits;
  Lexer.peek_byte := peek_byte;
  Lexer.peek_second := peek_second;
  Lexer.bump := bump
}.

(** The bytes still to be read, those of a peeked token included. *)
#[global] Instance lexer_measured : Measured Lexer := fun l =>
  (length (pushback l) + length (concat (chunks (input l)))
   + match lx_peeked l with Some t => length (tok_source (tok t)) | None => 0 end)%nat.

Definition skip_trivia : M SdfError Lexer unit :=
  loop (fun _ =>
    skip_blank_run ;;;
    let* b := peek_byte in
    match b with
    | Some byte =>
        if is_space byte then bump ;;; continue tt
        else if Ascii.eqb byte "/"%char then
          let* second := peek_second in
          if decide (second = Some "/"%char) then
            loop (fun _ =>
              let* b := bump in
              match b with
              | None => break tt
              | Some byte => if Ascii.eqb byte newline then break tt else continue tt
              end) tt ;;;
            continue tt
          else if decide (second = Some "*"%char) then
            let* start := gets pos in
            bump ;;;
            bump ;;;
            loop (fun star : bool =>
              let* b := bump in
              match b with
              | None => fail (open_comment_error start)
              | Some byte =>
                  if Ascii.eqb byte "/"%char && star then break tt
                  else continue (Ascii.eqb byte "*"%char)
              end) false ;;;
            continue tt
          else break tt
        else break tt
    | None => break tt
    end) tt.

Definition lex_word (p : SdfPos) : M SdfError Lexer Token :=
  let* text :=
    loop (fun text =>
      let* text := take_plain_run text p in
      let* b := peek_byte in
      match b with
      | None => break text
      | Some byte =>
          if is_space byte || is_delimiter byte then break text
          else
            let* here := gets pos in
            check_ascii byte here ;;;
            if Ascii.eqb byte backslash then
              let* text := lex_escape text p in continue text
            else
              let* comment :=
                if Ascii.eqb byte "/"%char then
                  let* second := peek_second in
                  ret (bool_decide (second = Some "/"%char) || bool_decide (second = Some "*"%char))
                else ret false in
              if comment : bool then break text
              else
                bump ;;;
                let* text := push_limited text byte p in continue text
      end) [] in
  let* word := from_utf8 text in
  ret (mkToken (Word word) p Structure).

Definition lex : Mode -> M SdfError Lexer Token := lex_with skip_trivia lex_word.

Definition unread (token : Token) : M SdfError Lexer unit :=
  modify (fun l => set_pos (set_pushback l (push_source (tok token) (pushback l))) (tok_pos token)).

#[global] Instance lexer_lexing : Lexing Lexer := {
  Lexer.lex := lex;
  Lexer.unread := unread;
  peeked := lx_peeked;
  Lexer.set_peeked := set_peeked;
  lexer_pos := pos
}.

End Stream.

(** ** The reference lexer

    It holds the remaining bytes themselves, counts no input bytes and takes
    one byte at a time. *)

Module Flat.

Record Lexer : Type := mkLexer {
  rest : bytes;
  fl_failure : option string;
  fl_pos : SdfPos;
  fl_peeked : option Token;
  fl_limits : SdfLimits
}.

Definition new (text : bytes) (failure : option string) (limits : SdfLimits) : Lexer :=
  mkLexer text failure (mkPos 1 1) None limits.

Definition move (l : Lexer) (r : bytes) (p : SdfPos) : Lexer :=
  mkLexer r (fl_failure l) p (fl_peeked l) (fl_limits l).

(** What reading past the last byte gives. *)
Definition at_end {A} (failure : option string) (p : SdfPos) (a : A) : outcome SdfError A :=
  match failure with Some e => Fail (read_error p e) | None => Done a end.

Definition peek_byte : M SdfError Lexer (option ascii) := fun l =>
  match rest l with
  | b :: _ => Done (Some b, l)
  | [] => at_end (fl_failure l) (fl_pos l) (None, l)
  end.

Definition peek_second : M SdfError Lexer (option ascii) := fun l =>
  match rest l with
  | _ :: b :: _ => Done (Some b, l)
  | _ => at_end (fl_failure l) (fl_pos l) (None, l)
  end.

Definition bump : M SdfError Lexer (option ascii) := fun l =>
  match rest l with
  | b :: r => Done (Some b, move l r (advance (fl_pos l) b))
  | [] => at_end (fl_failure l) (fl_pos l) (None, l)
  end.

#[global] Instance lexer_bytes : ByteSource Lexer := {
  Lexer.pos := fl_pos;
  source_limits := fl_limits;
  Lexer.peek_byte := peek_byte;
  Lexer.peek_second := peek_second;
  Lexer.bump := bump
}.

#[global] Instance lexer_measured : Measured Lexer := fun l =>
  (length (rest l) + match fl_peeked l with Some t => length (tok_source (tok t)) | None => 0 end)%nat.

(** Where trivia is being skipped: between tokens, in a line comment, or in
    a block comment that starts at [start]. *)
Inductive tmode : Type := TSkip | TLine | TBlock (start : SdfPos) (star : bool).

Fixpoint trivia (failure : option string) (m : tmode) (r : bytes) (p : SdfPos)
  : outcome SdfError (bytes * SdfPos) :=
  match r with
  | [] =>
      match failure, m with
      | Some e, _ => Fail (read_error p e)
      | None, TBlock start _ => Fail (open_comment_error start)
      | None, _ => Done ([], p)
      end
  | b :: r' =>
      let p' := advance p b in
      match m with
      | TSkip =>
          if is_space b then trivia failure TSkip r' p'
          else if Ascii.eqb b "/"%char then
            match r' with
            | c :: r'' =>
                if Ascii.eqb c "/"%char then trivia failure TLine r'' (advance p' c)
                else if Ascii.eqb c "*"%char then trivia failure (TBlock p false) r'' (advance p' c)
                else Done (r, p)
            | [] => at_end failure p (r, p)
            end
          else Done (r, p)
      | TLine => trivia failure (if Ascii.eqb b newline then TSkip else TLine) r' p'
      | TBlock start star =>
          trivia failure
            (if Ascii.eqb b "/"%char && star then TSkip else TBlock start (Ascii.eqb b "*"%char)) r' p'
      end
  end.

Definition skip_trivia : M SdfError Lexer unit := fun l =>
  match trivia (fl_failure l) TSkip (rest l) (fl_pos l) with
  | Done (r, p) => Done (tt, move l r p)
  | Fail e => Fail e
  | Panic w => Panic w
  | NoFuel => NoFuel
  end.

(** One byte of a word at a time. *)
Definition lex_word (p : SdfPos) : M SdfError Lexer Token :=
  let* text :=
    loop (fun text =>
      let* b := peek_byte in
      match b with
      | None => break text
      | Some byte =>
          if is_space byte || is_delimiter byte then break text
          else
            let* here := gets pos in
            check_ascii byte here ;;;
            if Ascii.eqb byte backslash then
              let* text := lex_escape text p in continue text
            else
              let* comment :=
                if Ascii.eqb byte "/"%char then
                  let* second := peek_second in
                  ret (bool_decide (second = Some "/"%char) || bool_decide (second = Some "*"%char))
                else ret false in
              if comment : bool then break text
              else
                bump ;;;
                let* text := push_limited text byte p in continue text
      end) [] in
  let* word := from_utf8 text in
  ret (mkToken (Word word) p Structure).

Definition lex : Mode -> M SdfError Lexer Token := lex_with skip_trivia lex_word.

Definition set_peeked (o : option Token) (l : Lexer) : Lexer :=
  mkLexer (rest l) (fl_failure l) (fl_pos l) o (fl_limits l).

Definition unread (token : Token) : M SdfError Lexer unit :=
  modify (fun l => move l (push_source (tok token) (rest l)) (tok_pos token)).

#[global] Instance lexer_lexing : Lexing Lexer := {
  Lexer.lex := lex;
  Lexer.unread := unread;
  peeked := fl_peeked;
  Lexer.set_peeked := set_peeked;
  lexer_pos := fl_pos
}.

End Flat.
