(* ===== verification/Sim.v ===== *)
(** * Simulation of monadic computations

    [orel escape Q o1 o2] relates the outcomes of two computations: both
    return the same value in states related by [Q], or both fail with the
    same error, or the first one fails with an error that [escape] allows.
    Neither panics nor runs out of fuel, so a relation of a computation with
    itself is also a totality proof. *)

From Stdlib Require Import ZArith Lia.
From stdpp Require Import base list strings.
From S2P Require Import Prelude.

Section Orel.
Context {E S1 S2 : Type}.
Variable escape : E -> Prop.

Definition orel {A} (Q : A -> S1 -> S2 -> Prop)
  (o1 : outcome E (A * S1)) (o2 : outcome E (A * S2)) : Prop :=
  match o1, o2 with
  | Done (a, s1), Done (b, s2) => a = b /\ Q a s1 s2
  | Fail e1, Fail e2 => e1 = e2 \/ escape e1
  | Fail e1, _ => escape e1
  | _, _ => False
  end.

Lemma orel_done {A} (Q : A -> S1 -> S2 -> Prop) a s1 s2 :
  Q a s1 s2 -> orel Q (Done (a, s1)) (Done (a, s2)).
Proof. simpl. auto. Qed.

Lemma orel_ret {A} (Q : A -> S1 -> S2 -> Prop) a s1 s2 :
  Q a s1 s2 -> orel Q (ret a s1) (ret a s2).
Proof. apply orel_done. Qed.

Lemma orel_fail {A} (Q : A -> S1 -> S2 -> Prop) e s1 s2 :
  orel Q (fail e s1) (fail e s2).
Proof. simpl. auto. Qed.

Lemma orel_escape {A} (Q : A -> S1 -> S2 -> Prop) e o2 :
  escape e -> orel Q (Fail e) o2.
Proof. simpl. destruct o2 as [[] | | |]; auto. Qed.

Lemma orel_gets {A} (Q : A -> S1 -> S2 -> Prop) (f1 : S1 -> A) (f2 : S2 -> A) s1 s2 :
  f1 s1 = f2 s2 -> Q (f2 s2) s1 s2 -> orel Q (gets f1 s1) (gets f2 s2).
Proof. simpl. intros ->. auto. Qed.

Lemma orel_modify (Q : unit -> S1 -> S2 -> Prop) (f1 : S1 -> S1) (f2 : S2 -> S2) s1 s2 :
  Q tt (f1 s1) (f2 s2) -> orel Q (modify f1 s1) (modify f2 s2).
Proof. simpl. auto. Qed.

Lemma orel_weaken {A} (Q Q' : A -> S1 -> S2 -> Prop) o1 o2 :
  (forall a s1 s2, Q a s1 s2 -> Q' a s1 s2) -> orel Q o1 o2 -> orel Q' o1 o2.
Proof.
  intros W. unfold orel.
  destruct o1 as [[a1 t1] | e1 | |], o2 as [[a2 t2] | e2 | |]; auto.
  intros [-> H]. auto.
Qed.

Lemma orel_bind {A B} (Q : A -> S1 -> S2 -> Prop) (Q' : B -> S1 -> S2 -> Prop)
  (m1 : M E S1 A) (m2 : M E S2 A) (k1 : A -> M E S1 B) (k2 : A -> M E S2 B) s1 s2 :
  orel Q (m1 s1) (m2 s2) ->
  (forall a t1 t2, Q a t1 t2 -> orel Q' (k1 a t1) (k2 a t2)) ->
  orel Q' (bind m1 k1 s1) (bind m2 k2 s2).
Proof.
  intros H K. unfold bind.
  destruct (m1 s1) as [[a1 t1] | e1 | |], (m2 s2) as [[a2 t2] | e2 | |];
    simpl in H; try contradiction; try exact H.
  - destruct H as [-> H]. auto.
  - simpl. destruct (k2 a2 t2) as [[] | | |]; simpl; auto.
Qed.

(** One-sided steps: the second outcome is already known. *)
Lemma orel_bind_done {A B} (Q : A -> S1 -> S2 -> Prop) (Q' : B -> S1 -> S2 -> Prop)
  (m : M E S1 A) (k : A -> M E S1 B) s1 a s2 o2 :
  orel Q (m s1) (Done (a, s2)) ->
  (forall t1, Q a t1 s2 -> orel Q' (k a t1) o2) ->
  orel Q' (bind m k s1) o2.
Proof.
  intros H K. unfold bind. destruct (m s1) as [[a1 t1] | e1 | |]; simpl in H; try contradiction.
  - destruct H as [-> H]. auto.
  - by apply orel_escape.
Qed.

Lemma orel_bind_fail {A B} (Q : A -> S1 -> S2 -> Prop) (Q' : B -> S1 -> S2 -> Prop)
  (m : M E S1 A) (k : A -> M E S1 B) s1 e :
  orel Q (m s1) (Fail e) -> orel Q' (bind m k s1) (Fail e).
Proof.
  intros H. unfold bind. destruct (m s1) as [[a1 t1] | e1 | |]; simpl in H; try contradiction.
  exact H.
Qed.

(** Loops in step: an invariant on the loop values and a measure that every
    continuing iteration decreases. The fuels may differ. *)
Lemma orel_iter {A B} (I : A -> S1 -> S2 -> Prop) (mu : S2 -> nat)
  (Q : B -> S1 -> S2 -> Prop)
  (body1 : A -> M E S1 (A + B)) (body2 : A -> M E S2 (A + B)) :
  (forall a s1 s2, I a s1 s2 ->
     orel (fun r t1 t2 =>
             match r with
             | inl a' => I a' t1 t2 /\ (mu t2 < mu s2)%nat
             | inr b => Q b t1 t2
             end) (body1 a s1) (body2 a s2)) ->
  forall n1 n2 a s1 s2, I a s1 s2 -> (mu s2 < n1)%nat -> (mu s2 < n2)%nat ->
  orel Q (iter n1 body1 a s1) (iter n2 body2 a s2).
Proof.
  intros Step n1. induction n1 as [| n1 IH]; intros n2 a s1 s2 HI L1 L2; [lia |].
  destruct n2 as [| n2]; [lia |]. cbn [iter].
  eapply orel_bind; [apply Step, HI |].
  intros [a' | b] t1 t2; cbn beta iota.
  - intros [HI' L]. apply IH; [done | lia | lia].
  - intros H. by apply orel_ret.
Qed.

Lemma orel_loop {A B} `{Measured S1} `{Measured S2} (I : A -> S1 -> S2 -> Prop)
  (Q : B -> S1 -> S2 -> Prop)
  (body1 : A -> M E S1 (A + B)) (body2 : A -> M E S2 (A + B)) a s1 s2 :
  fuel_of s1 = fuel_of s2 ->
  I a s1 s2 ->
  (forall a s1 s2, I a s1 s2 ->
     orel (fun r t1 t2 =>
             match r with
             | inl a' => I a' t1 t2 /\ (fuel_of t2 < fuel_of s2)%nat
             | inr b => Q b t1 t2
             end) (body1 a s1) (body2 a s2)) ->
  orel Q (loop body1 a s1) (loop body2 a s2).
Proof.
  intros F HI Step. unfold loop. apply (orel_iter I fuel_of Q _ _ Step); [done | lia | lia].
Qed.

(** A fixed number of repetitions. *)
Lemma orel_repeat {A} (I : nat -> list A -> S1 -> S2 -> Prop) n
  (m1 : nat -> M E S1 A) (m2 : nat -> M E S2 A) s1 s2 :
  I 0%nat [] s1 s2 ->
  (forall i xs t1 t2, I i xs t1 t2 ->
     orel (fun x u1 u2 => I (S i) (xs ++ [x]) u1 u2) (m1 i t1) (m2 i t2)) ->
  orel (fun xs t1 t2 => I n xs t1 t2) (repeat_m n m1 s1) (repeat_m n m2 s2).
Proof.
  intros H0 Step. induction n as [| n IH]; cbn [repeat_m].
  - by apply orel_ret.
  - eapply orel_bind; [exact IH |]. intros xs t1 t2 HI.
    eapply orel_bind; [apply Step, HI |]. intros x u1 u2 HI2. by apply orel_ret.
Qed.

(** A fold over a list. *)
Lemma orel_fold {A B} (I : B -> S1 -> S2 -> Prop) (body1 : B -> A -> M E S1 B)
  (body2 : B -> A -> M E S2 B) xs b s1 s2 :
  I b s1 s2 ->
  (forall x b t1 t2, x ∈ xs -> I b t1 t2 -> orel I (body1 b x t1) (body2 b x t2)) ->
  orel I (fold_m body1 xs b s1) (fold_m body2 xs b s2).
Proof.
  revert b s1 s2. induction xs as [| x xs IH]; intros b s1 s2 H Step; cbn [fold_m].
  - by apply orel_ret.
  - eapply orel_bind; [apply Step; [by left | exact H] |].
    intros b' t1 t2 H'. apply IH; [done |]. intros; apply Step; [by right | done].
Qed.

Lemma orel_when (Q : unit -> S1 -> S2 -> Prop) c (m1 : M E S1 unit) (m2 : M E S2 unit) s1 s2 :
  (c = true -> orel Q (m1 s1) (m2 s2)) -> (c = false -> Q tt s1 s2) ->
  orel Q (when c m1 s1) (when c m2 s2).
Proof. destruct c; cbn; auto. Qed.

End Orel.

(** Related components of the states. *)
Lemma orel_zoom {E S1 S2 T1 T2 A} (escape : E -> Prop) (Q : A -> T1 -> T2 -> Prop)
  (Q' : A -> S1 -> S2 -> Prop) (g1 : S1 -> T1) (g2 : S2 -> T2) u1 u2 (m1 : M E T1 A) (m2 : M E T2 A) s1 s2 :
  orel escape Q (m1 (g1 s1)) (m2 (g2 s2)) ->
  (forall a t1 t2, Q a t1 t2 -> Q' a (u1 s1 t1) (u2 s2 t2)) ->
  orel escape Q' (zoom g1 u1 m1 s1) (zoom g2 u2 m2 s2).
Proof.
  intros H K. unfold zoom.
  destruct (m1 (g1 s1)) as [[a1 t1] | e1 | |], (m2 (g2 s2)) as [[a2 t2] | e2 | |];
    simpl in *; try contradiction; try exact H.
  destruct H as [-> H]. auto.
Qed.

Arguments orel_bind {E S1 S2} escape {A B} Q Q' m1 m2 k1 k2 s1 s2.
Arguments orel_bind_done {E S1 S2} escape {A B} Q Q' m k s1 a s2 o2.
Arguments orel_bind_fail {E S1 S2} escape {A B} Q Q' m k s1 e.
