(* ===== verification/LexerFacts.v ===== *)
(** * The streaming lexer implements the reference lexer

    [srel] relates a streaming lexer to a reference lexer that holds the same
    remaining bytes, whatever the buffer boundaries and the pushback. Every
    token operation keeps the relation, terminates, never panics, and
    consumes exactly the source bytes of its token after the trivia. *)

From Stdlib Require Import ZArith Lia Ascii String.
From stdpp Require Import base list strings.
From S2P Require Import Prelude Common Lexer Sim.
Open Scope Z_scope.
Open Scope list_scope.

(** ** Positions and byte classes *)

Definition advances (p : SdfPos) (bs : bytes) : SdfPos := fold_left advance bs p.

Lemma wrap_u32_add a b : wrap_u32 (wrap_u32 a + b) = wrap_u32 (a + b).
Proof. unfold wrap_u32, wrap_u. apply Zplus_mod_idemp_l. Qed.

Lemma advances_no_newline bs p :
  Forall (fun b => b <> newline) bs -> bs <> [] ->
  advances p bs = mkPos (line p) (wrap_u32 (col p + Z.of_nat (length bs))).
Proof.
  intros H. revert p. induction H as [| b bs Hb _ IH]; intros p Hn; [done |].
  unfold advances in *. cbn [fold_left]. unfold advance at 2.
  destruct (Ascii.eqb_spec b newline) as [? | _]; [done |].
  destruct bs as [| c bs]; [done |].
  rewrite IH by done. cbn [line col length]. rewrite wrap_u32_add. do 2 f_equal. lia.
Qed.

Lemma run_length_prefix p bs : Forall (fun b => p b = true) (take (run_length p bs) bs).
Proof.
  induction bs as [| b bs IH]; cbn [run_length]; [constructor |].
  destruct (p b) eqn:E; simpl; constructor; auto.
Qed.

Lemma run_length_le p bs : (run_length p bs <= length bs)%nat.
Proof. induction bs as [| b bs IH]; cbn [run_length length]; [lia |]. case_match; lia. Qed.

Lemma plain_facts b :
  Stream.is_plain b = true ->
  is_space b = false /\ is_delimiter b = false /\ b <> backslash /\ b <> "/"%char
  /\ b <> newline /\ is_ascii b = true /\ (32 <= byte_N b)%N.
Proof.
  unfold Stream.is_plain. rewrite !andb_true_iff, negb_true_iff, !orb_false_iff.
  intros [[L U] [[D B] C]]. apply N.leb_le in L. apply N.ltb_lt in U.
  repeat split; try done.
  - unfold is_space. rewrite !orb_false_iff. unfold byte_N in L.
    repeat split; apply Ascii.eqb_neq; intros ->; vm_compute in L; congruence.
  - by intros ->.
  - by intros ->.
  - intros ->. vm_compute in L. congruence.
  - unfold is_ascii. apply N.ltb_lt. lia.
  - lia.
Qed.

Lemma blank_facts b : Stream.is_blank b = true -> is_space b = true /\ b <> newline.
Proof.
  unfold Stream.is_blank, is_space. rewrite orb_true_iff.
  intros [H | H]; apply Ascii.eqb_eq in H; subst; split; try reflexivity; discriminate.
Qed.

Lemma stream_set_pos l p : p = Stream.pos (Stream.set_pos l p).
Proof. by destruct p. Qed.

(** ** What is skipped between tokens *)

(** [bs] contains no end of a block comment. *)
Definition no_close (bs : bytes) : Prop :=
  forall i, bs !! i = Some "*"%char -> bs !! Datatypes.S i <> Some "/"%char.

(** White space and complete comments; a line comment may end the text. *)
Inductive trivia_text : bytes -> Prop :=
| trivia_nil : trivia_text []
| trivia_space b r : is_space b = true -> trivia_text r -> trivia_text (b :: r)
| trivia_line body r :
    Forall (fun b => b <> newline) body -> trivia_text r ->
    trivia_text ("/"%char :: "/"%char :: body ++ newline :: r)
| trivia_line_end body :
    Forall (fun b => b <> newline) body -> trivia_text ("/"%char :: "/"%char :: body)
| trivia_block body r :
    no_close (body ++ ["*"%char]) -> trivia_text r ->
    trivia_text ("/"%char :: "*"%char :: body ++ "*"%char :: "/"%char :: r).

Lemma trivia_line_spec failure r p r' p' :
  Flat.trivia failure Flat.TLine r p = Done (r', p') ->
  (exists body rest q, Forall (fun b => b <> newline) body /\ r = body ++ newline :: rest
     /\ Flat.trivia failure Flat.TSkip rest q = Done (r', p'))
  \/ (Forall (fun b => b <> newline) r /\ r' = []).
Proof.
  revert p. induction r as [| b r IH]; intros p H; cbn [Flat.trivia] in H.
  - right. destruct failure; [done |]. by injection H as <- _.
  - destruct (Ascii.eqb_spec b newline) as [-> | N].
    + left. exists [], r, (advance p newline). split_and!; [constructor | done | done].
    + apply IH in H as [(body & rest & q & Hb & -> & T) | [Hb ->]].
      * left. exists (b :: body), rest, q. split_and!; [by constructor | done | done].
      * right. split; [by constructor | done].
Qed.

Lemma no_close_cons b bs : (b = "*"%char -> head bs <> Some "/"%char) -> no_close bs -> no_close (b :: bs).
Proof.
  intros H N [| i]; cbn; [| apply N].
  intros [= ->]. specialize (H eq_refl). by destruct bs.
Qed.

(** Inside a block comment, after a star or not. *)
Lemma trivia_block_spec failure start r star p r' p' :
  Flat.trivia failure (Flat.TBlock start star) r p = Done (r', p') ->
  exists body rest q, r = body ++ "/"%char :: rest
    /\ no_close ((if star then ["*"%char] else []) ++ body)
    /\ (body = [] /\ star = true \/ exists b', body = b' ++ ["*"%char])
    /\ Flat.trivia failure Flat.TSkip rest q = Done (r', p').
Proof.
  revert star p. induction r as [| b r IH]; intros star p H; cbn [Flat.trivia] in H; [by destruct failure |].
  destruct (Ascii.eqb_spec b "/"%char) as [-> | Ns]; [destruct star |]; cbn [andb] in H.
  - exists [], r, (advance p "/"%char). split_and!; auto. by intros [| i].
  - apply IH in H as (body & rest & q & -> & N & E & T). cbn in N, E.
    exists ("/"%char :: body), rest, q. split_and!; auto.
    + cbn. by apply no_close_cons.
    + right. destruct E as [[_ ?] | [b' ->]]; [done |]. by exists ("/"%char :: b').
  - apply IH in H as (body & rest & q & -> & N & E & T).
    exists (b :: body), rest, q. split_and!; auto.
    + assert (Nb : no_close (b :: body)).
      { destruct (Ascii.eqb_spec b "*"%char) as [-> | Nb]; [exact N |]. by apply no_close_cons. }
      destruct star; [apply no_close_cons; [| exact Nb] | exact Nb]. intros _. cbn. congruence.
    + right. destruct E as [[-> Hs] | [b' ->]].
      * apply Ascii.eqb_eq in Hs as ->. by exists [].
      * by exists (b :: b').
Qed.

Lemma trivia_skip_text failure r p r' p' :
  Flat.trivia failure Flat.TSkip r p = Done (r', p') -> exists skipped, r = skipped ++ r' /\ trivia_text skipped.
Proof.
  revert p. induction r as [r IH] using (induction_ltof1 _ length). unfold ltof in IH. intros p H.
  destruct r as [| b r].
  { cbn in H. destruct failure; [done |]. injection H as <- _. exists []. split; [done | constructor]. }
  cbn in H. destruct (is_space b) eqn:Sp.
  { apply IH in H as (sk & -> & T); [| cbn; lia]. exists (b :: sk). split; [done | by constructor]. }
  assert (Stop : Done (b :: r, p) = Done (r', p') :> outcome SdfError _ ->
            exists skipped, b :: r = skipped ++ r' /\ trivia_text skipped).
  { intros [= <- _]. exists []. split; [done | constructor]. }
  destruct (Ascii.eqb_spec b "/"%char) as [-> | _]; [| by apply Stop].
  destruct r as [| c r]; [unfold Flat.at_end in H; destruct failure; [done | by apply Stop] |].
  destruct (Ascii.eqb_spec c "/"%char) as [-> | _].
  { apply trivia_line_spec in H as [(body & rest & q & Hb & -> & T) | [Hb ->]].
    - apply IH in T as (sk & -> & T); [| cbn; rewrite length_app; cbn; lia].
      exists ("/"%char :: "/"%char :: body ++ newline :: sk). split; [by cbn; rewrite <- app_assoc | by constructor].
    - exists ("/"%char :: "/"%char :: r). split; [by rewrite app_nil_r | by constructor]. }
  destruct (Ascii.eqb_spec c "*"%char) as [-> | _]; [| by apply Stop].
  apply trivia_block_spec in H as (body & rest & q & -> & N & [[_ ?] | [b' ->]] & T); [done |].
  apply IH in T as (sk & -> & T); [| cbn; rewrite !length_app; cbn; lia].
  exists ("/"%char :: "*"%char :: b' ++ "*"%char :: "/"%char :: sk).
  split; [cbn; by rewrite <- !app_assoc | by constructor].
Qed.

(** ** The relation *)

Section Relation.
(** Whether the file may exceed the input limit. *)
Variable over : bool.

(** The one error that depends on the buffer boundaries: the position where
    the input limit is noticed. *)
Definition too_large (e : SdfError) : Prop :=
  over = true /\ exists p limits, e = too_large_error p limits.

Definition within (l : Stream.Lexer) : Prop :=
  over = false ->
  Stream.consumed l + Z.of_nat (length (concat (chunks (Stream.input l))))
  <= max_input_bytes (Stream.limits l).

Record srel (l : Stream.Lexer) (f : Flat.Lexer) : Prop := mkSrel {
  sr_rest : Flat.rest f = Stream.pushback l ++ concat (chunks (Stream.input l));
  sr_failure : Flat.fl_failure f = failure (Stream.input l);
  sr_pos : Flat.fl_pos f = Stream.pos l;
  sr_peeked : Flat.fl_peeked f = Stream.lx_peeked l;
  sr_limits : Flat.fl_limits f = Stream.limits l;
  sr_chunks : Forall (fun c => c <> []) (chunks (Stream.input l));
  sr_within : within l
}.

Lemma srel_fuel l f : srel l f -> fuel_of l = fuel_of f.
Proof.
  intros [R _ _ P _ _ _]. unfold fuel_of, Stream.lexer_measured, Flat.lexer_measured.
  rewrite R, P, length_app. done.
Qed.

(** Reading a buffer. *)
Lemma fill_buf_cases i :
  Forall (fun c => c <> []) (chunks i) ->
  (exists b c cs, chunks i = (b :: c) :: cs /\ fill_buf i = inr (b :: c))
  \/ (chunks i = [] /\ failure i = None /\ fill_buf i = inr [])
  \/ (exists e, chunks i = [] /\ failure i = Some e /\ fill_buf i = inl e).
Proof.
  unfold fill_buf. destruct (chunks i) as [| [| b c] cs].
  - destruct (failure i) as [e |]; intros _; right; [right; by exists e | by left].
  - intros H. apply Forall_cons in H as [H _]. done.
  - eauto 10.
Qed.

Lemma consume_spec n i :
  Forall (fun c => c <> []) (chunks i) ->
  (n <= length (hd [] (chunks i)))%nat ->
  concat (chunks (consume n i)) = drop n (concat (chunks i))
  /\ Forall (fun c => c <> []) (chunks (consume n i)) /\ failure (consume n i) = failure i.
Proof.
  intros H L. unfold consume. destruct (chunks i) as [| c cs] eqn:E; [simpl in *; rewrite E; by destruct n |].
  apply Forall_cons in H as [Hc Hcs]. cbn [hd concat] in *.
  rewrite drop_app_le by done. destruct (drop n c) as [| b c'] eqn:D; cbn [chunks failure concat];
    repeat split; auto.
Qed.

Abbreviation orel' := (orel too_large).

Lemma peek_byte_sim l f :
  srel l f ->
  orel' (fun b l' f' => srel l' f' /\ f' = f /\ b = head (Flat.rest f))
    (Stream.peek_byte l) (Flat.peek_byte f).
Proof.
  intros R. destruct (R) as [Rr Rf Rp _ _ Rc _].
  unfold Stream.peek_byte, Flat.peek_byte, Stream.read_buffer, bind, get. rewrite Rr, Rf, Rp.
  destruct (Stream.pushback l) as [| b pb]; [| simpl; auto].
  destruct (fill_buf_cases _ Rc) as [(b & c & cs & -> & ->) | [(-> & -> & ->) | (e & -> & -> & ->)]];
    simpl; auto.
Qed.

(** Taking [k] bytes of the first buffer that are also counted. *)
Lemma srel_consume l f k p' :
  srel l f -> Stream.pushback l = [] ->
  (k <= length (hd [] (chunks (Stream.input l))))%nat ->
  srel (Stream.set_pos (Stream.set_consumed (Stream.set_input l (consume k (Stream.input l)))
          (Stream.consumed l + Z.of_nat k)) p')
       (Flat.move f (drop k (Flat.rest f)) p').
Proof.
  intros R Pb L. destruct (R) as [Rr Rf Rp Rpk Rl Rc Rw].
  destruct (consume_spec k _ Rc L) as (C1 & C2 & C3).
  rewrite Pb in Rr. simpl in Rr.
  constructor; cbn; rewrite ?Pb, ?C1, ?C3; auto.
  - by rewrite Rr.
  - by destruct p'.
  - unfold within in *. cbn. intros O. specialize (Rw O). rewrite C1, length_drop.
    assert (k <= length (concat (chunks (Stream.input l))))%nat.
    { destruct (chunks (Stream.input l)); cbn in *; rewrite ?length_app; lia. }
    lia.
Qed.

(** The input limit is hit only when the file may exceed it. *)
Lemma limit_over l f k :
  srel l f -> (k <= length (concat (chunks (Stream.input l))))%nat ->
  (Stream.consumed l + Z.of_nat k >? max_input_bytes (Stream.limits l)) = true ->
  forall p lim, too_large (too_large_error p lim).
Proof.
  intros [_ _ _ _ _ _ W] L H p lim. split; [| by eauto].
  destruct over eqn:O; [done |]. specialize (W O). apply Z.gtb_lt in H. lia.
Qed.

Lemma hd_concat_le (cs : list bytes) k :
  (k <= length (hd [] cs))%nat -> (k <= length (concat cs))%nat.
Proof. destruct cs; cbn; rewrite ?length_app; lia. Qed.

Lemma bump_sim l f :
  srel l f ->
  orel' (fun b l' f' => srel l' f' /\
           match b with
           | Some c => Flat.rest f = c :: Flat.rest f'
                       /\ f' = Flat.move f (Flat.rest f') (advance (Flat.fl_pos f) c)
           | None => f' = f /\ Flat.rest f = []
           end)
    (Stream.bump l) (Flat.bump f).
Proof.
  intros R. destruct (R) as [Rr Rf Rp Rpk Rl Rc Rw].
  unfold Stream.bump, Stream.peek_byte, Flat.bump, Stream.read_buffer, Stream.consume_input,
    Stream.count_consumed, bind, get, modify. rewrite Rr, Rf.
  destruct (Stream.pushback l) as [| b pb] eqn:Pb; cbn beta iota zeta; rewrite ?Pb; cbn beta iota zeta.
  - destruct (fill_buf_cases _ Rc) as [(b & c & cs & Ec & ->) | [(-> & -> & ->) | (e & -> & -> & ->)]].
    + assert (L : (1 <= length (hd [] (chunks (Stream.input l))))%nat) by (rewrite Ec; simpl; lia).
      pose proof (srel_consume l f 1 (advance (Flat.fl_pos f) b) R Pb L) as R'.
      cbn [head ret]. rewrite Ec in *. cbn [Stream.set_consumed Stream.set_input Stream.consumed Stream.limits].
      destruct (_ >? _) eqn:G; cbn.
      { apply (limit_over l f 1 R); [| exact G]. apply hd_concat_le. by rewrite Ec. }
      rewrite Rr in R'. rewrite Rp in *. split; [done |]. split; [exact R' | done].
    + simpl. auto.
    + simpl. rewrite Rp. auto.
  - cbn. rewrite Rp. split; [done |].
    split; [constructor; auto using stream_set_pos | done].
Qed.

Lemma peek_second_sim l f :
  srel l f ->
  orel' (fun b l' f' => srel l' f' /\ f' = f /\ b = head (tail (Flat.rest f)))
    (Stream.peek_second l) (Flat.peek_second f).
Proof.
  intros R. destruct (R) as [Rr Rf Rp Rpk Rl Rc Rw].
  unfold Stream.peek_second, Flat.peek_second, Stream.read_buffer, Stream.consume_input,
    Stream.count_consumed, bind, get, modify. rewrite Rr, Rf, Rp.
  destruct (Stream.pushback l) as [| b [| b2 pb]] eqn:Pb; [| | simpl; auto].
  - destruct (fill_buf_cases _ Rc) as [(b & c & cs & Ec & ->) | [(-> & -> & ->) | (e & -> & -> & ->)]];
      [| simpl; auto ..].
    destruct c as [| b2 c]; [| rewrite Ec; simpl; auto].
    assert (L : (1 <= length (hd [] (chunks (Stream.input l))))%nat) by (rewrite Ec; simpl; lia).
    cbn [ret Stream.set_consumed Stream.set_input Stream.consumed Stream.limits].
    destruct (_ >? _) eqn:G.
    { apply orel_escape. apply (limit_over l f 1 R); [| exact G]. by apply hd_concat_le. }
    cbn. destruct (consume_spec 1 _ Rc L) as (C1 & C2 & C3).
    assert (C4 : chunks (consume 1 (Stream.input l)) = cs) by (unfold consume; by rewrite Ec).
    rewrite Ec. cbn [concat app].
    assert (R' : srel (Stream.mkLexer (consume 1 (Stream.input l)) (b :: Stream.pushback l)
                   (Stream.lx_line l) (Stream.lx_col l) (Stream.consumed l + 1)
                   (Stream.lx_peeked l) (Stream.limits l)) f).
    { constructor; cbn; auto.
      - rewrite Rr, Pb, C4, Ec. done.
      - by rewrite C3.
      - unfold within in *. cbn. intros O. specialize (Rw O). rewrite C4. rewrite Ec in Rw.
        cbn in Rw. lia. }
    destruct (fill_buf_cases _ C2) as [(b3 & c3 & cs3 & E3 & ->) | [(E3 & F3 & ->) | (e & E3 & F3 & ->)]];
      rewrite C4 in E3; rewrite E3; rewrite ?C3 in *; cbn.
    + auto.
    + rewrite F3. simpl. auto.
    + rewrite F3. simpl. auto.
  - destruct (fill_buf_cases _ Rc) as [(c & c' & cs & Ec & ->) | [(-> & -> & ->) | (e & -> & -> & ->)]];
      try rewrite Ec; simpl; auto.
Qed.

(** ** Token functions *)

(** [f'] is [f] after some of its bytes, its position moved over them. *)
Definition moved (f f' : Flat.Lexer) : Prop :=
  exists read, Flat.rest f = read ++ Flat.rest f'
    /\ f' = Flat.move f (Flat.rest f') (advances (Flat.fl_pos f) read).

Lemma advances_app p a b : advances p (a ++ b) = advances (advances p a) b.
Proof. apply fold_left_app. Qed.

Lemma moved_refl f : moved f f.
Proof. exists []. split; [done |]. by destruct f. Qed.
Lemma moved_trans f g h : moved f g -> moved g h -> moved f h.
Proof.
  intros (r1 & E1 & G) (r2 & E2 & H). exists (r1 ++ r2). split; [by rewrite E1, E2, app_assoc |].
  rewrite H, G, advances_app. done.
Qed.
Lemma moved_bump f f' c :
  Flat.rest f = c :: Flat.rest f' -> f' = Flat.move f (Flat.rest f') (advance (Flat.fl_pos f) c) -> moved f f'.
Proof. intros E M. by exists [c]. Qed.
Lemma moved_le f f' : moved f f' -> (length (Flat.rest f') <= length (Flat.rest f))%nat.
Proof. intros (r & E & _). rewrite E, length_app. lia. Qed.
Lemma moved_peeked f f' : moved f f' -> Flat.fl_peeked f' = Flat.fl_peeked f.
Proof. by intros (r & _ & ->). Qed.
Lemma moved_limits f f' : moved f f' -> Flat.fl_limits f' = Flat.fl_limits f.
Proof. by intros (r & _ & ->). Qed.
Lemma moved_failure f f' : moved f f' -> Flat.fl_failure f' = Flat.fl_failure f.
Proof. by intros (r & _ & ->). Qed.
Lemma moved_fuel f f' :
  moved f f' -> (length (Flat.rest f') < length (Flat.rest f))%nat -> (fuel_of f' < fuel_of f)%nat.
Proof. unfold fuel_of, Flat.lexer_measured. intros M. rewrite (moved_peeked _ _ M). lia. Qed.

Lemma check_ascii_sim b p l f :
  srel l f ->
  orel' (fun _ l' f' => srel l' f' /\ f' = f /\ is_ascii b = true)
    (check_ascii b p l) (check_ascii b p f).
Proof.
  intros R. unfold check_ascii. destruct (N.leb_spec 128 (byte_N b)) as [H | H]; [apply orel_fail |].
  destruct (_ && _); [apply orel_fail | apply orel_ret].
  split_and!; auto. by apply N.ltb_lt.
Qed.

Lemma push_limited_sim text b p l f :
  srel l f ->
  orel' (fun t l' f' => srel l' f' /\ f' = f /\ t = text ++ [b])
    (push_limited text b p l) (push_limited text b p f).
Proof.
  intros R. unfold push_limited. eapply orel_bind.
  - apply (orel_gets _ (fun lim l' f' => srel l' f' /\ f' = f /\ lim = Flat.fl_limits f));
      [symmetry; apply R | auto].
  - intros lim l' f' (R' & -> & ->). cbn beta. case_match; [apply orel_fail | by apply orel_ret].
Qed.

Lemma from_utf8_sim text l f :
  srel l f -> forallb is_ascii text = true ->
  orel' (fun s l' f' => srel l' f' /\ f' = f /\ s = str text) (from_utf8 text l) (from_utf8 text f).
Proof. intros R H. unfold from_utf8. rewrite H. by apply orel_ret. Qed.

Lemma gets_pos_sim l f :
  srel l f ->
  orel' (fun p l' f' => srel l' f' /\ f' = f /\ p = Flat.fl_pos f) (gets pos l) (gets pos f).
Proof. intros R. apply orel_gets; [symmetry; apply R | auto]. Qed.

(** What reading [text] so far means. *)
Definition reading (f : Flat.Lexer) (text : bytes) (l' : Stream.Lexer) (f' : Flat.Lexer) : Prop :=
  srel l' f' /\ moved f f' /\ Flat.rest f = text ++ Flat.rest f' /\ forallb is_ascii text = true.

Lemma reading_init l f : srel l f -> reading f [] l f.
Proof. intros R. split_and!; auto using moved_refl. Qed.

Lemma reading_step f text l1 f1 l2 f2 b :
  reading f text l1 f1 -> srel l2 f2 -> Flat.rest f1 = b :: Flat.rest f2 -> moved f1 f2 ->
  is_ascii b = true -> reading f (text ++ [b]) l2 f2.
Proof.
  intros (R1 & M1 & E1 & A1) R2 E2 M2 Ab.
  split; [done |]. split; [by eapply moved_trans |]. split.
  - rewrite E1, E2, <- app_assoc. done.
  - rewrite forallb_app. simpl. by rewrite A1, Ab.
Qed.

Lemma head_some (bs : bytes) b : Some b = head bs -> exists r, bs = b :: r.
Proof. destruct bs; simpl; [done |]. intros [= ->]. eauto. Qed.

Lemma lex_escape_sim f0 text start l f r :
  reading f0 text l f -> Flat.rest f = backslash :: r ->
  orel' (fun t l' f' => reading f0 t l' f' /\ (length (Flat.rest f') < length (Flat.rest f))%nat
                        /\ moved f f')
    (lex_escape text start l) (lex_escape text start f).
Proof.
  intros Rd E. destruct (Rd) as (R & _). unfold lex_escape.
  eapply orel_bind; [by apply gets_pos_sim |]. intros here l1 f1 (R1 & -> & ->).
  eapply orel_bind; [by apply bump_sim |]. intros b l2 f2 [R2 B]. rewrite E in B.
  destruct b as [b |]; [| by destruct B]. destruct B as [B Mv]. injection B as <- Er.
  assert (M2 : moved f f2) by (eapply moved_bump; [by rewrite E, Er | exact Mv]).
  assert (Rd2 : reading f0 (text ++ [backslash]) l2 f2).
  { eapply reading_step; eauto. by rewrite E, Er. }
  eapply orel_bind; [by apply push_limited_sim |]. intros t l3 f3 (R3 & -> & ->).
  eapply orel_bind; [by apply peek_byte_sim |]. intros c l4 f4 (R4 & -> & Hc).
  destruct c as [c |]; [| apply orel_fail]. apply head_some in Hc as [r' Hc].
  destruct (is_space c); [apply orel_fail |].
  eapply orel_bind; [by apply gets_pos_sim |]. intros p l5 f5 (R5 & -> & ->).
  eapply orel_bind; [by apply check_ascii_sim |]. intros _ l6 f6 (R6 & -> & Ac).
  eapply orel_bind; [by apply bump_sim |]. intros b l7 f7 [R7 B]. rewrite Hc in B.
  destruct b as [b |]; [| by destruct B]. destruct B as [B Mv7]. injection B as <- Er7.
  assert (M7 : moved f2 f7) by (eapply moved_bump; [by rewrite Hc, Er7 | exact Mv7]).
  eapply orel_weaken; [| by apply push_limited_sim].
  intros t l8 f8 (R8 & -> & ->). split; [| split].
  - destruct Rd2 as (_ & Mm & Ee & Aa). eapply (reading_step f0 _ l6 f2); [split_and!; eauto | ..]; auto.
    rewrite Hc. by f_equal.
  - rewrite E, Er. cbn. rewrite Hc, Er7. cbn. lia.
  - by eapply moved_trans.
Qed.

(** A bump where the next byte is known. *)
Lemma bump_known l f b r :
  srel l f -> Flat.rest f = b :: r ->
  orel' (fun c l' f' => srel l' f' /\ c = Some b /\ Flat.rest f' = r /\ moved f f')
    (Stream.bump l) (Flat.bump f).
Proof.
  intros R E. eapply orel_weaken; [| by apply bump_sim].
  intros c l' f' [R' B]. rewrite E in B. destruct c as [c |]; [| by destruct B].
  destruct B as [B Mv]. injection B as <- Er. split_and!; auto. eapply moved_bump; [by rewrite E, Er | exact Mv].
Qed.

(** The token [t] read from [f] on: its source bytes are exactly what was
    consumed. *)
Definition token_read (f : Flat.Lexer) (p : SdfPos) (t : Token) (l' : Stream.Lexer) (f' : Flat.Lexer) : Prop :=
  srel l' f' /\ moved f f' /\ Flat.rest f = tok_source (tok t) ++ Flat.rest f' /\ tok_pos t = p.

Lemma lex_qstring_sim p mode l f r :
  srel l f -> Flat.rest f = quote :: r ->
  orel' (fun t l' f' => token_read f p t l' f' /\ tok_mode t = mode /\ tok t <> Eof
                        /\ tok_source (tok t) <> [])
    (lex_qstring p mode l) (lex_qstring p mode f).
Proof.
  intros R E. unfold lex_qstring.
  eapply orel_bind; [by eapply bump_known |]. intros c l1 f1 (R1 & _ & E1 & M1).
  eapply orel_bind.
  - apply (orel_loop _ (fun text l' f' => reading f1 text l' f')
      (fun text l' f' => srel l' f' /\ moved f1 f' /\ Flat.rest f1 = text ++ quote :: Flat.rest f'
                         /\ forallb is_ascii text = true)).
    + by apply srel_fuel.
    + by apply reading_init.
    + clear l1 R1. intros text l2 f2 Rd. destruct (Rd) as (R2 & M2 & E2 & A2).
      eapply orel_bind; [by apply gets_pos_sim |]. intros here l3 f3 (R3 & -> & ->).
      eapply orel_bind; [by apply bump_sim |]. intros b l4 f4 [R4 B].
      destruct b as [b |]; [| apply orel_fail]. destruct B as [B Mv].
      assert (M4 : moved f2 f4) by (by eapply moved_bump).
      destruct (Ascii.eqb_spec b quote) as [-> | _].
      { apply orel_ret. split_and!; eauto using moved_trans. by rewrite E2, B. }
      destruct (Ascii.eqb b newline); [apply orel_fail |].
      destruct (Ascii.eqb b tab); [apply orel_fail |].
      eapply orel_bind; [by apply check_ascii_sim |]. intros _ l5 f5 (R5 & -> & Ab).
      eapply orel_bind; [apply (orel_gets _ (fun lim l' f' => srel l' f' /\ f' = f4));
        [symmetry; apply R5 | auto] |]. intros lim l6 f6 (R6 & ->).
      destruct (_ >=? _); [apply orel_fail |]. apply orel_ret.
      split; [by eapply reading_step | apply moved_fuel; [done |]].
      rewrite B. simpl. lia.
  - intros text l2 f2 (R2 & M2 & E2 & A2).
    eapply orel_bind; [by apply from_utf8_sim |]. intros s l3 f3 (R3 & -> & ->).
    apply orel_ret. split_and!; [| done ..]. split_and!; eauto using moved_trans.
    cbn. rewrite unstr_str, E, <- E1, E2. rewrite <- app_assoc. done.
Qed.

Lemma identifier_char_ascii b : is_identifier_char b = true -> is_ascii b = true.
Proof.
  unfold is_identifier_char, is_ascii_alphanumeric, is_ascii_alphabetic, is_ascii_upper,
    is_ascii_lower, is_ascii_digit, is_ascii.
  rewrite !orb_true_iff, !andb_true_iff, !N.leb_le, N.ltb_lt.
  intros [[[H | H] | H] | H]; [lia .. |]. apply Ascii.eqb_eq in H. subst. by vm_compute.
Qed.

(** One more byte of a token text. *)
Lemma push_byte_sim {B} f0 text l f b r p :
  reading f0 text l f -> Flat.rest f = b :: r -> is_ascii b = true ->
  orel' (fun x l' f' => exists t, x = @inl _ B t /\ reading f0 t l' f' /\ t = text ++ [b]
                        /\ (length (Flat.rest f') < length (Flat.rest f))%nat /\ moved f f')
    ((bump ;;; let* text := push_limited text b p in continue text) l)
    ((bump ;;; let* text := push_limited text b p in continue text) f).
Proof.
  intros Rd E Ab. destruct (Rd) as (R & _).
  eapply orel_bind; [by eapply bump_known |]. intros c l1 f1 (R1 & _ & E1 & M1).
  eapply orel_bind; [by apply push_limited_sim |]. intros t l2 f2 (R2 & -> & ->).
  apply orel_ret. exists (text ++ [b]). split_and!; auto.
  - eapply reading_step; eauto. by rewrite E, E1.
  - rewrite E, E1. simpl. lia.
Qed.

Lemma lex_constant_sim p l f b r :
  srel l f -> Flat.rest f = b :: r ->
  is_ascii_digit b = true \/ b = "'"%char ->
  orel' (fun t l' f' => token_read f p t l' f' /\ tok_mode t = Expression
                        /\ tok t <> Eof /\ tok_source (tok t) <> [])
    (lex_constant p l) (lex_constant p f).
Proof.
  intros R E Hb. unfold lex_constant. eapply orel_bind.
  - apply (orel_loop _ (fun text l' f' => reading f text l' f' /\ (text = [] -> f' = f))
      (fun text l' f' => reading f text l' f' /\ text <> [])).
    + by apply srel_fuel.
    + split; [by apply reading_init | done].
    + clear R l. intros text l2 f2 [Rd Ne]. destruct (Rd) as (R2 & M2 & E2 & A2).
      eapply orel_bind; [by apply peek_byte_sim |]. intros c l3 f3 (R3 & -> & Hc).
      destruct c as [c |].
      2: { apply orel_ret. split; [by split_and! |]. intros ->. rewrite (Ne eq_refl), E in Hc. done. }
      apply head_some in Hc as [r' Hc].
      destruct (_ || _) eqn:C.
      2: { apply orel_ret. split; [by split_and! |]. intros ->. rewrite (Ne eq_refl), E in Hc.
           injection Hc as <- _. rewrite !orb_false_iff in C. destruct C as [[C1 C2] C3].
           destruct Hb as [Hb | ->]; [| done]. unfold is_identifier_char, is_ascii_alphanumeric in C1.
           rewrite Hb, orb_true_r in C1. done. }
      assert (Ac : is_ascii c = true).
      { rewrite !orb_true_iff in C. destruct C as [[C | C] | C].
        - by apply identifier_char_ascii.
        - apply Ascii.eqb_eq in C. by subst.
        - apply Ascii.eqb_eq in C. by subst. }
      eapply orel_weaken; [| eapply (push_byte_sim f text l3 f2); eauto; by split_and!].
      intros x l4 f4 (t & -> & Rd4 & -> & L4 & M4). split; [split; [done |] | by apply moved_fuel].
      intros Ht. by destruct text.
  - intros text l2 f2 [(R2 & M2 & E2 & A2) Ne].
    eapply orel_bind; [by apply from_utf8_sim |]. intros s l3 f3 (R3 & -> & ->).
    apply orel_ret. cbn. rewrite unstr_str. split_and!; auto. split_and!; auto.
    cbn. by rewrite unstr_str.
Qed.

(** The first byte of an identifier. *)
Definition identifier_start (b : ascii) : bool :=
  Ascii.eqb b backslash || is_ascii_alphabetic b || Ascii.eqb b "_"%char || Ascii.eqb b "$"%char.

Lemma identifier_start_continues b :
  identifier_start b = true -> b <> backslash ->
  negb (is_identifier_char b) && negb (Ascii.eqb b "$"%char) = false.
Proof.
  unfold identifier_start, is_identifier_char, is_ascii_alphanumeric. intros H Nb.
  apply Ascii.eqb_neq in Nb. rewrite Nb in H.
  destruct (is_ascii_alphabetic b), (Ascii.eqb b "_"%char), (Ascii.eqb b "$"%char),
    (is_ascii_digit b); done.
Qed.

Lemma lex_identifier_sim p l f b r :
  srel l f -> Flat.rest f = b :: r -> identifier_start b = true ->
  orel' (fun t l' f' => token_read f p t l' f' /\ tok_mode t = Expression
                        /\ tok t <> Eof /\ tok_source (tok t) <> [])
    (lex_identifier p l) (lex_identifier p f).
Proof.
  intros R E Hb. unfold lex_identifier. eapply orel_bind.
  - apply (orel_loop _ (fun text l' f' => reading f text l' f' /\ (text = [] -> f' = f))
      (fun text l' f' => reading f text l' f' /\ text <> [])).
    + by apply srel_fuel.
    + split; [by apply reading_init | done].
    + clear R l. intros text l2 f2 [Rd Ne]. destruct (Rd) as (R2 & M2 & E2 & A2).
      eapply orel_bind; [by apply peek_byte_sim |]. intros c l3 f3 (R3 & -> & Hc).
      destruct c as [c |].
      2: { apply orel_ret. split; [by split_and! |]. intros ->. rewrite (Ne eq_refl), E in Hc. done. }
      apply head_some in Hc as [r' Hc].
      destruct (Ascii.eqb_spec c backslash) as [-> | Nb].
      { eapply orel_bind; [eapply (lex_escape_sim f); [by split_and! | exact Hc] |].
        intros t l4 f4 (Rd4 & L4 & M4). apply orel_ret.
        split; [split; [done |] | by apply moved_fuel].
        intros ->. destruct Rd4 as (_ & _ & E4 & _). cbn in E4.
        rewrite <- E4, E2, length_app in L4. lia. }
      destruct (negb _ && negb _) eqn:C.
      { apply orel_ret. split; [by split_and! |]. intros ->. rewrite (Ne eq_refl), E in Hc.
        injection Hc as <- _. by rewrite identifier_start_continues in C. }
      assert (Ac : is_ascii c = true).
      { apply andb_false_iff in C as [C | C]; apply negb_false_iff in C.
        - by apply identifier_char_ascii.
        - apply Ascii.eqb_eq in C. by subst. }
      eapply orel_weaken; [| eapply (push_byte_sim f text l3 f2); eauto; by split_and!].
      intros x l4 f4 (t & -> & Rd4 & -> & L4 & M4). split; [split; [done |] | by apply moved_fuel].
      intros Ht. by destruct text.
  - clear R l. intros text l2 f2 [Rd Ne]. destruct (Rd) as (R2 & _).
    eapply orel_bind; [by apply peek_byte_sim |]. intros c l3 f3 (R3 & -> & _).
    eapply (orel_bind _ (fun text l' f' => reading f text l' f' /\ text <> [])).
    + assert (Rd3 : reading f text l3 f2) by (destruct Rd as (? & ? & ? & ?); by split_and!).
      destruct (decide _); [| by apply orel_ret].
      apply (orel_loop _ (fun text l' f' => reading f text l' f' /\ text <> [])).
      * by apply srel_fuel.
      * done.
      * clear. intros text l f2 [Rd Ne]. destruct (Rd) as (R2 & M2 & E2 & A2).
        eapply orel_bind; [by apply peek_byte_sim |]. intros c l3 f3 (R3 & -> & Hc).
        destruct c as [c |]; [| apply orel_ret; split; [by split_and! | done]].
        apply head_some in Hc as [r' Hc].
        eapply orel_bind; [by apply gets_pos_sim |]. intros here l4 f4 (R4 & -> & ->).
        eapply orel_bind; [by apply check_ascii_sim |]. intros _ l5 f5 (R5 & -> & Ac).
        destruct (_ || _); [apply orel_ret; split; [by split_and! | done] |].
        eapply orel_bind; [by eapply bump_known |]. intros b l6 f6 (R6 & _ & E6 & M6).
        eapply orel_bind; [by apply push_limited_sim |]. intros t l7 f7 (R7 & -> & ->).
        assert (Rd7 : reading f (text ++ [c]) l7 f6)
          by (apply (reading_step f text l5 f2); auto; [by split_and! | by rewrite Hc, E6]).
        assert (text ++ [c] <> []) by (by destruct text).
        destruct (Ascii.eqb c _); apply orel_ret; split_and!; try done.
        apply moved_fuel; [done |]. rewrite Hc, E6. simpl. lia.
    + clear. intros text l2 f2 [(R2 & M2 & E2 & A2) Ne].
      eapply orel_bind; [by apply from_utf8_sim |]. intros s l3 f3 (R3 & -> & ->).
      apply orel_ret. cbn. rewrite unstr_str. split_and!; auto. split_and!; auto.
      cbn. by rewrite unstr_str.
Qed.

(** Operators: the bytes that were compared are the bytes of the operator. *)
Lemma bumps_sim bs r l f :
  srel l f -> Flat.rest f = bs ++ r ->
  orel' (fun _ l' f' => srel l' f' /\ Flat.rest f' = r /\ moved f f')
    (repeat_m (length bs) (fun _ => bump) l) (repeat_m (length bs) (fun _ => bump) f).
Proof.
  intros R. revert r. induction bs as [| b bs IH] using rev_ind; intros r E.
  - apply orel_ret. split_and!; auto using moved_refl.
  - rewrite length_app, Nat.add_1_r. cbn [repeat_m]. rewrite <- app_assoc in E.
    eapply orel_bind; [apply (IH _ E) |]. intros xs l1 f1 (R1 & E1 & M1).
    eapply orel_bind; [by eapply bump_known |]. intros c l2 f2 (R2 & _ & E2 & M2).
    apply orel_ret. split_and!; eauto using moved_trans.
Qed.

Lemma match_operator_bytes b r op :
  match_operator b (head r) = Some op ->
  exists r', b :: r = unstr op ++ r' /\ (length (unstr op) = 1 \/ length (unstr op) = 2)%nat.
Proof.
  intros H. apply List.find_some in H as [_ H].
  destruct (unstr op) as [| x [| y [| z u]]]; try done.
  - apply Ascii.eqb_eq in H as ->. exists r. auto.
  - apply andb_true_iff in H as [H1 H2]. apply Ascii.eqb_eq in H1 as ->.
    apply bool_decide_eq_true in H2. apply head_some in H2 as [r' ->]. exists r'. auto.
Qed.

Definition expression_token (f : Flat.Lexer) (p : SdfPos) (t : Token)
  (l' : Stream.Lexer) (f' : Flat.Lexer) : Prop :=
  token_read f p t l' f' /\ tok_mode t = Expression /\ tok t <> Eof /\ tok_source (tok t) <> [].

Lemma single_token_spec b t : single_token b = Some t -> tok_source t = [b] /\ t <> Eof.
Proof.
  unfold single_token. intros H.
  repeat (case_match; [apply Ascii.eqb_eq in H0 as ->; injection H as <-; done |]; clear H0).
  done.
Qed.

Lemma lex_operator_sim p op r l f :
  srel l f -> Flat.rest f = unstr op ++ r -> (length (unstr op) = 1 \/ length (unstr op) = 2)%nat ->
  let run {S} `{ByteSource S} : M SdfError S Token :=
    repeat_m (length (unstr op)) (fun _ => bump) ;;;
    let* op :=
      if String.eqb op "==" then
        let* b := peek_byte in
        ret (if decide (b = Some "="%char) then "===" else op)%string
      else if String.eqb op "!=" then
        let* b := peek_byte in
        ret (if decide (b = Some "="%char) then "!==" else op)%string
      else ret op in
    (if Nat.eqb (length (unstr op)) 3 then bump ;;; ret tt else ret tt) ;;;
    ret (mkToken (Op op) p Expression) in
  orel' (expression_token f p) (run l) (run f).
Proof.
  intros R E L run. unfold run. eapply orel_bind; [by eapply bumps_sim |].
  intros _ l1 f1 (R1 & E1 & M1).
  eapply (orel_bind _ (fun o l' f' => srel l' f' /\ f' = f1 /\
     ((length (unstr o) <> 3%nat /\ o = op) \/
      (length (unstr o) = 3%nat /\ unstr o = unstr op ++ ["="%char] /\ exists r', r = "="%char :: r')))).
  - assert (K : forall eq3 : string, unstr eq3 = unstr op ++ ["="%char] -> length (unstr eq3) = 3%nat ->
      orel' (fun o l' f' => srel l' f' /\ f' = f1 /\
        ((length (unstr o) <> 3%nat /\ o = op) \/
         (length (unstr o) = 3%nat /\ unstr o = unstr op ++ ["="%char] /\ exists r', r = "="%char :: r')))
        ((let* b := peek_byte in ret (if decide (b = Some "="%char) then eq3 else op)) l1)
        ((let* b := peek_byte in ret (if decide (b = Some "="%char) then eq3 else op)) f1)).
    { intros eq3 U3 L3. eapply orel_bind; [by apply peek_byte_sim |]. intros b l2 f2 (R2 & -> & Hb).
      apply orel_ret. split_and!; auto. destruct (decide _) as [-> | _]; [right | left; split; [lia | done]].
      rewrite E1 in Hb. apply head_some in Hb. eauto. }
    destruct (String.eqb_spec op "==") as [-> | _]; [by apply K |].
    destruct (String.eqb_spec op "!=") as [-> | _]; [by apply K |].
    apply orel_ret. split_and!; auto. left. split; [lia | done].
  - intros o l2 f2 (R2 & -> & Ho).
    eapply (orel_bind _ (fun _ l' f' => srel l' f' /\ moved f f'
       /\ Flat.rest f = unstr o ++ Flat.rest f')).
    + destruct Ho as [[N ->] | (N & U & r' & ->)].
      * apply Nat.eqb_neq in N. rewrite N. apply orel_ret. by rewrite E1.
      * rewrite N. cbn [Nat.eqb]. eapply orel_bind; [by eapply bump_known |].
        intros c l3 f3 (R3 & _ & E3 & M3). apply orel_ret. rewrite E3.
        split_and!; eauto using moved_trans. by rewrite U, <- app_assoc.
    + intros _ l3 f3 (R3 & M3 & E3). apply orel_ret. split_and!; try done. cbn.
      destruct Ho as [[_ ->] | (N & _)]; intros Z; [rewrite Z in L | rewrite Z in N]; simpl in *; lia.
Qed.

Lemma lex_expression_sim p l f b r :
  srel l f -> Flat.rest f = b :: r ->
  orel' (expression_token f p) (lex_expression p b l) (lex_expression p b f).
Proof.
  intros R E. unfold lex_expression. destruct (single_token b) as [t |] eqn:T.
  { apply single_token_spec in T as [T Ne].
    eapply orel_bind; [by eapply bump_known |]. intros c l1 f1 (R1 & _ & E1 & M1).
    apply orel_ret. unfold expression_token, token_read. cbn. rewrite T, E, E1. by split_and!. }
  fold (identifier_start b). destruct (identifier_start b) eqn:I; [by eapply lex_identifier_sim |].
  destruct (_ || _) eqn:C.
  { eapply lex_constant_sim; [done .. |]. apply orb_true_iff in C as [C | C]; [by left | right].
    by apply Ascii.eqb_eq in C. }
  eapply orel_bind; [by apply peek_second_sim |]. intros s l1 f1 (R1 & -> & ->).
  rewrite E. cbn [tail]. destruct (match_operator b (head r)) as [op |] eqn:O; [| apply orel_fail].
  apply match_operator_bytes in O as (r' & O & L). eapply lex_operator_sim; [done | | done].
  by rewrite E, O.
Qed.

(** ** Trivia *)

(** Skipping trivia of the reference lexer from a given mode. *)
Definition triv (m : Flat.tmode) (f : Flat.Lexer) : outcome SdfError (unit * Flat.Lexer) :=
  match Flat.trivia (Flat.fl_failure f) m (Flat.rest f) (Flat.fl_pos f) with
  | Done (r, p) => Done (tt, Flat.move f r p)
  | Fail e => Fail e
  | Panic w => Panic w
  | NoFuel => NoFuel
  end.

(** Where no more trivia starts. *)
Definition settled (r : bytes) : Prop :=
  match r with
  | [] => True
  | b :: r' => is_space b = false
      /\ (b = "/"%char -> head r' <> Some "/"%char /\ head r' <> Some "*"%char)
  end.

Lemma trivia_done failure r m p r' p' :
  Flat.trivia failure m r p = Done (r', p') ->
  settled r' /\ exists skipped, r = skipped ++ r' /\ p' = advances p skipped.
Proof.
  revert m p. induction r as [r IH] using (induction_ltof1 _ length). unfold ltof in IH.
  intros m p H. destruct r as [| b r].
  { cbn in H. destruct failure, m; try done; injection H as <- <-; (split; [done | by exists []]). }
  assert (K : forall v u m, v <> [] -> b :: r = v ++ u ->
            Flat.trivia failure m u (advances p v) = Done (r', p') ->
            settled r' /\ exists skipped, b :: r = skipped ++ r' /\ p' = advances p skipped).
  { intros v u m' Nv Ev T. apply IH in T as [T1 (w & Ew & ->)].
    - split; [done |]. exists (v ++ w). by rewrite Ev, Ew, app_assoc, advances_app.
    - rewrite Ev, length_app. destruct v; [done |]. simpl. lia. }
  cbn in H. destruct m.
  - destruct (is_space b) eqn:Sp; [by eapply (K [b]) in H |].
    destruct (Ascii.eqb_spec b "/"%char) as [-> | Ns].
    + destruct r as [| c r].
      { unfold Flat.at_end in H. destruct failure; [done |]. injection H as <- <-.
        split; [done | by exists []]. }
      destruct (Ascii.eqb_spec c "/"%char) as [-> | N1]; [by eapply (K ["/"; "/"]%char) in H |].
      destruct (Ascii.eqb_spec c "*"%char) as [-> | N2]; [by eapply (K ["/"; "*"]%char) in H |].
      injection H as <- <-. split; [| by exists []]. split; [done |]. intros _. cbn.
      split; congruence.
    + injection H as <- <-. split; [| by exists []]. split; [done |]. by intros ->.
  - by eapply (K [b]) in H.
  - by eapply (K [b]) in H.
Qed.

(** How one byte moves the reference lexer. *)
Definition step1 (f : Flat.Lexer) : Flat.Lexer :=
  Flat.move f (tail (Flat.rest f)) (advance (Flat.fl_pos f) (hd newline (Flat.rest f))).

Lemma triv_step m f b r m' :
  Flat.rest f = b :: r ->
  Flat.trivia (Flat.fl_failure f) m (b :: r) (Flat.fl_pos f)
    = Flat.trivia (Flat.fl_failure f) m' r (advance (Flat.fl_pos f) b) ->
  triv m f = triv m' (step1 f).
Proof. intros E T. unfold triv, step1. rewrite E. cbn [tail hd Flat.move Flat.rest Flat.fl_failure Flat.fl_pos]. by rewrite T. Qed.

Lemma bump_known1 l f b r :
  srel l f -> Flat.rest f = b :: r ->
  orel' (fun _ l' f' => srel l' f' /\ moved f f' /\ Flat.rest f' = r)
    (Stream.bump l) (Done (Some b, step1 f)).
Proof.
  intros R E. replace (Done (Some b, step1 f)) with (Flat.bump f : outcome SdfError _)
    by (unfold Flat.bump, step1; by rewrite E).
  eapply orel_weaken; [| by eapply bump_known]. intros c l' f' (R' & _ & ? & ?). auto.
Qed.

(** The loops inside [Stream.skip_trivia]. *)
Definition line_body (_ : unit) : M SdfError Stream.Lexer (unit + unit) :=
  let* b := Stream.bump in
  match b with
  | None => break tt
  | Some byte => if Ascii.eqb byte newline then break tt else continue tt
  end.

Definition block_body (start : SdfPos) (star : bool) : M SdfError Stream.Lexer (bool + unit) :=
  let* b := Stream.bump in
  match b with
  | None => fail (open_comment_error start)
  | Some byte =>
      if Ascii.eqb byte "/"%char && star then break tt
      else continue (Ascii.eqb byte "*"%char)
  end.

(** What a continuation sees after some trivia of [f]. *)
Definition resumes {B} (Q : B -> Stream.Lexer -> Flat.Lexer -> Prop) (k : unit -> M SdfError Stream.Lexer B)
  (o : Flat.Lexer -> outcome SdfError (B * Flat.Lexer)) (f : Flat.Lexer) : Prop :=
  forall l1 f1, srel l1 f1 -> moved f f1 -> (length (Flat.rest f1) <= length (Flat.rest f))%nat ->
  orel' Q (k tt l1) (o f1).

Lemma step1_moved f b r : Flat.rest f = b :: r -> moved f (step1 f).
Proof. intros E. unfold step1. rewrite E. by exists [b]. Qed.

Lemma resumes_step1 {B} (Q : B -> Stream.Lexer -> Flat.Lexer -> Prop) k o f f1 :
  moved f f1 -> (length (Flat.rest f1) <= length (Flat.rest f))%nat -> resumes Q k o f -> resumes Q k o f1.
Proof.
  intros M L H l2 f2 R2 M2 L2. apply H; [done | by eapply moved_trans | lia].
Qed.

Lemma bump_end_sim l f :
  srel l f -> Flat.rest f = [] -> Flat.fl_failure f = None ->
  orel' (fun _ l' f' => srel l' f') (Stream.bump l) (Done (None, f)).
Proof.
  intros R E F. replace (Done (None, f)) with (Flat.bump f : outcome SdfError _)
    by (unfold Flat.bump, Flat.at_end; by rewrite E, F).
  eapply orel_weaken; [| by apply bump_sim]. intros c l' f' (R' & _). done.
Qed.

Lemma bump_fail_sim {B} (Q : B -> Stream.Lexer -> Flat.Lexer -> Prop) l f e k :
  srel l f -> Flat.rest f = [] -> Flat.fl_failure f = Some e ->
  orel' Q (bind Stream.bump k l) (Fail (read_error (Flat.fl_pos f) e)).
Proof.
  intros R E F.
  eapply orel_bind_fail with (Q := fun _ l' f' => srel l' f').
  replace (Fail (read_error (Flat.fl_pos f) e)) with (Flat.bump f : outcome SdfError _)
    by (unfold Flat.bump, Flat.at_end; by rewrite E, F).
  eapply orel_weaken; [| by apply bump_sim]. intros c l' f' (R' & _). done.
Qed.

Lemma line_sim n (Q : unit -> Stream.Lexer -> Flat.Lexer -> Prop) k l f :
  srel l f -> (length (Flat.rest f) < n)%nat -> resumes Q k (triv Flat.TSkip) f ->
  orel' Q (bind (iter n line_body tt) k l) (triv Flat.TLine f).
Proof.
  revert l f. induction n as [| n IH]; intros l f R L K; [lia |].
  cbn [iter]. rewrite bind_assoc. unfold line_body at 1. rewrite bind_assoc.
  destruct (Flat.rest f) as [| b r] eqn:E.
  - unfold triv. rewrite E. cbn [Flat.trivia]. destruct (Flat.fl_failure f) as [e |] eqn:F.
    + by apply bump_fail_sim.
    + eapply orel_bind_done; [by apply bump_end_sim |]. intros l1 R1.
      cbn beta iota. unfold break. rewrite !bind_ret.
      replace (Done (tt, Flat.move f [] (Flat.fl_pos f))) with (triv Flat.TSkip f)
        by (unfold triv; rewrite E; cbn [Flat.trivia]; by rewrite F).
      by apply K; auto using moved_refl.
  - eapply orel_bind_done; [by eapply bump_known1 |]. intros l1 (R1 & M1 & E1). cbn beta iota.
    rewrite (triv_step Flat.TLine f b r (if Ascii.eqb b newline then Flat.TSkip else Flat.TLine)) by done.
    assert (L1 : (length (Flat.rest (step1 f)) <= length (Flat.rest f))%nat) by (rewrite E, E1; simpl; lia).
    destruct (Ascii.eqb b newline); unfold break, continue; rewrite ?bind_ret.
    + by apply K.
    + apply IH; [done | rewrite E1; simpl in L; lia | by eapply resumes_step1].
Qed.

Lemma block_sim n (Q : unit -> Stream.Lexer -> Flat.Lexer -> Prop) k start star l f :
  srel l f -> (length (Flat.rest f) < n)%nat -> resumes Q k (triv Flat.TSkip) f ->
  orel' Q (bind (iter n (block_body start) star) k l) (triv (Flat.TBlock start star) f).
Proof.
  revert star l f. induction n as [| n IH]; intros star l f R L K; [lia |].
  cbn [iter]. rewrite bind_assoc. unfold block_body at 1. rewrite bind_assoc.
  destruct (Flat.rest f) as [| b r] eqn:E.
  - unfold triv. rewrite E. cbn [Flat.trivia]. destruct (Flat.fl_failure f) as [e |] eqn:F.
    + by apply bump_fail_sim.
    + eapply orel_bind_done; [by apply bump_end_sim |]. intros l1 R1. simpl. auto.
  - eapply orel_bind_done; [by eapply bump_known1 |]. intros l1 (R1 & M1 & E1). cbn beta iota.
    rewrite (triv_step (Flat.TBlock start star) f b r
      (if Ascii.eqb b "/"%char && star then Flat.TSkip else Flat.TBlock start (Ascii.eqb b "*"%char))) by done.
    assert (L1 : (length (Flat.rest (step1 f)) <= length (Flat.rest f))%nat) by (rewrite E, E1; simpl; lia).
    destruct (_ && _); unfold break, continue; rewrite ?bind_ret.
    + by apply K.
    + apply IH; [done | rewrite E1; simpl in L; lia | by eapply resumes_step1].
Qed.

(** *** The fast paths *)

Definition jump (k : nat) (f : Flat.Lexer) : Flat.Lexer :=
  Flat.move f (drop k (Flat.rest f)) (advances (Flat.fl_pos f) (take k (Flat.rest f))).

Lemma jump_moved k f : moved f (jump k f).
Proof. exists (take k (Flat.rest f)). split; [symmetry; apply take_drop | done]. Qed.

Lemma consume_run_sim k p l f :
  srel l f -> Stream.pushback l = [] -> (0 < k <= length (hd [] (chunks (Stream.input l))))%nat ->
  Forall (fun b => b <> newline) (take k (Flat.rest f)) ->
  orel' (fun _ l' f' => srel l' f') (Stream.consume_run k p l) (Done (tt, jump k f)).
Proof.
  intros R Pb L Nl. unfold Stream.consume_run, Stream.consume_input, bind, modify, get.
  cbn [Stream.set_consumed Stream.set_input Stream.consumed Stream.limits].
  destruct (_ >? _) eqn:G.
  { apply orel_escape. apply (limit_over l f k R); [| exact G]. apply hd_concat_le. lia. }
  cbn. split; [done |].
  pose proof (sr_rest _ _ R) as Er. rewrite Pb in Er. cbn in Er.
  assert (Lk : length (take k (Flat.rest f)) = k).
  { rewrite length_take, Er. apply Nat.min_l, hd_concat_le. lia. }
  unfold jump. rewrite advances_no_newline; [| done | intros Z; rewrite Z in Lk; simpl in Lk; lia].
  rewrite Lk, (sr_pos _ _ R). cbn [Stream.pos line col].
  unfold wrap_u32 at 1, wrap_u32 at 1, wrap_u. rewrite Zplus_mod_idemp_r. fold (wrap_u 32) wrap_u32.
  change ((?a + ?b) mod 2 ^ 32) with (wrap_u32 (a + b)).
  apply (srel_consume l f k (mkPos (Stream.lx_line l) (wrap_u32 (Stream.lx_col l + Z.of_nat k))) R Pb). lia.
Qed.

(** The first buffer is a prefix of the remaining bytes. *)
Lemma run_prefix p l f :
  srel l f -> Stream.pushback l = [] ->
  let buffer := hd [] (chunks (Stream.input l)) in
  take (run_length p buffer) (Flat.rest f) = take (run_length p buffer) buffer.
Proof.
  intros R Pb buffer. pose proof (sr_rest _ _ R) as Er. rewrite Pb in Er. cbn in Er. rewrite Er.
  unfold buffer. destruct (chunks (Stream.input l)) as [| c cs]; [done |]. cbn [hd concat].
  apply take_app_le, run_length_le.
Qed.

Lemma trivia_blanks failure bs r p :
  Forall (fun b => is_space b = true) bs ->
  Flat.trivia failure Flat.TSkip (bs ++ r) p = Flat.trivia failure Flat.TSkip r (advances p bs).
Proof.
  intros H. revert p. induction H as [| b bs Hb _ IH]; intros p; [done |].
  cbn [app Flat.trivia]. rewrite Hb, IH. done.
Qed.

Lemma triv_jump k f :
  Forall (fun b => is_space b = true) (take k (Flat.rest f)) ->
  triv Flat.TSkip (jump k f) = triv Flat.TSkip f.
Proof.
  intros H. unfold triv, jump. cbn [Flat.move Flat.rest Flat.fl_failure Flat.fl_pos].
  rewrite <- (trivia_blanks _ _ (drop k (Flat.rest f))), take_drop by done. done.
Qed.

Lemma jump_le k f : (length (Flat.rest (jump k f)) <= length (Flat.rest f))%nat.
Proof. cbn. rewrite length_drop. lia. Qed.

Lemma read_buffer_sim p l f :
  srel l f -> Stream.pushback l = [] ->
  match Flat.rest f, Flat.fl_failure f with
  | [], Some e => Stream.read_buffer p l = Fail (read_error p e)
  | _, _ => Stream.read_buffer p l = Done (hd [] (chunks (Stream.input l)), l)
  end.
Proof.
  intros R Pb. destruct (R) as [Rr Rf _ _ _ Rc _]. rewrite Rr, Rf, Pb.
  unfold Stream.read_buffer, bind, get.
  destruct (fill_buf_cases _ Rc) as [(b & c & cs & -> & ->) | [(-> & -> & ->) | (e & -> & -> & ->)]]; done.
Qed.

Lemma skip_blank_sim (Q : unit -> Stream.Lexer -> Flat.Lexer -> Prop) k l f :
  srel l f -> resumes Q k (triv Flat.TSkip) f ->
  orel' Q (bind Stream.skip_blank_run k l) (triv Flat.TSkip f).
Proof.
  intros R K. unfold Stream.skip_blank_run. rewrite bind_assoc. unfold get at 1, bind at 1.
  assert (Same : orel' Q (k tt l) (triv Flat.TSkip f)) by (by apply K; auto using moved_refl).
  destruct (Stream.pushback l) as [| b pb] eqn:Pb; [| exact Same].
  rewrite bind_assoc. unfold bind at 1. pose proof (read_buffer_sim (Stream.pos l) l f R Pb) as Rb.
  assert (Go : forall buffer, buffer = hd [] (chunks (Stream.input l)) ->
    orel' Q (bind (if (0 <? run_length Stream.is_blank buffer)%nat
                   then Stream.consume_run (run_length Stream.is_blank buffer) (Stream.pos l)
                   else ret tt) k l) (triv Flat.TSkip f)).
  { intros buffer Hb. destruct (Nat.ltb_spec 0 (run_length Stream.is_blank buffer)) as [L | _]; [| exact Same].
    pose proof (run_prefix Stream.is_blank l f R Pb) as Pf. cbn zeta in Pf. rewrite <- Hb in Pf.
    pose proof (run_length_prefix Stream.is_blank buffer) as Bl.
    eapply orel_bind_done; [apply (consume_run_sim _ _ l f); [done | done | |] |].
    - split; [exact L |]. rewrite <- Hb. apply run_length_le.
    - rewrite Pf. eapply Forall_impl; [exact Bl |]. intros x Hx. by apply blank_facts.
    - intros l1 R1. rewrite <- (triv_jump (run_length Stream.is_blank buffer)).
      + apply K; [done | apply jump_moved | apply jump_le].
      + rewrite Pf. eapply Forall_impl; [exact Bl |]. intros x Hx. by apply blank_facts. }
  destruct (Flat.rest f) as [| b r] eqn:E; [destruct (Flat.fl_failure f) as [e |] eqn:F |];
    rewrite Rb; [| by apply Go ..].
  unfold triv. rewrite E, F. cbn. rewrite (sr_pos _ _ R). auto.
Qed.

Definition trivia_body (_ : unit) : M SdfError Stream.Lexer (unit + unit) :=
  Stream.skip_blank_run ;;;
  let* b := Stream.peek_byte in
  match b with
  | Some byte =>
      if is_space byte then Stream.bump ;;; continue tt
      else if Ascii.eqb byte "/"%char then
        let* second := Stream.peek_second in
        if decide (second = Some "/"%char) then loop line_body tt ;;; continue tt
        else if decide (second = Some "*"%char) then
          let* start := gets Stream.pos in
          Stream.bump ;;;
          Stream.bump ;;;
          loop (block_body start) false ;;;
          continue tt
        else break tt
      else break tt
  | None => break tt
  end.

Lemma peek_second_known l f a r (o : option ascii) :
  srel l f -> Flat.rest f = a :: r -> Flat.peek_second f = Done (o, f) ->
  orel' (fun _ l' f' => srel l' f') (Stream.peek_second l) (Done (o, f)).
Proof.
  intros R E <-. eapply orel_weaken; [| by apply peek_second_sim]. intros c l' f' (R' & _). done.
Qed.

Lemma loop_bind {A B C} `{Measured Stream.Lexer} (body : A -> M SdfError Stream.Lexer (A + B)) a
  (k : B -> M SdfError Stream.Lexer C) l :
  bind (loop body a) k l = bind (iter (Datatypes.S (fuel_of l)) body a) k l.
Proof. done. Qed.

Lemma rest_fuel l f : srel l f -> (length (Flat.rest f) <= fuel_of l)%nat.
Proof. intros R. rewrite (srel_fuel _ _ R). unfold fuel_of, Flat.lexer_measured. lia. Qed.

Lemma triv_done f : triv Flat.TSkip f = Done (tt, Flat.move f (Flat.rest f) (Flat.fl_pos f)) ->
  triv Flat.TSkip f = Done (tt, f).
Proof. by destruct f. Qed.

(** A comment, or a slash that starts none. *)
Lemma comment_sim n l f c r :
  srel l f -> Flat.rest f = "/"%char :: c :: r ->
  resumes (fun _ l' f' => srel l' f') (fun _ => iter n trivia_body tt) (triv Flat.TSkip) (step1 f) ->
  orel' (fun _ l' f' => srel l' f')
    (bind (let* second := Stream.peek_second in
           if decide (second = Some "/"%char) then loop line_body tt ;;; continue tt
           else if decide (second = Some "*"%char) then
             let* start := gets Stream.pos in
             Stream.bump ;;; Stream.bump ;;; loop (block_body start) false ;;; continue tt
           else break tt)
       (fun r => match r with inl a => iter n trivia_body a | inr b => ret b end) l)
    (triv Flat.TSkip f).
Proof.
  intros R E K. rewrite bind_assoc.
  assert (P2 : Flat.peek_second f = Done (Some c, f)) by (unfold Flat.peek_second; by rewrite E).
  eapply orel_bind_done; [by eapply (peek_second_known l f) |].
  clear l R P2. intros l R.
  destruct (decide _) as [[= ->] | N1]; [| destruct (decide _) as [[= ->] | N2]].
  - rewrite bind_assoc, loop_bind.
    replace (triv Flat.TSkip f) with (triv Flat.TLine f) by (unfold triv; by rewrite E).
    assert (F : (length (Flat.rest f) < Datatypes.S (fuel_of l))%nat) by (pose proof (rest_fuel l f R); lia).
    destruct (fuel_of l) as [| m]; [rewrite E in F; simpl in F; lia |].
    cbn [iter]. rewrite bind_assoc. unfold line_body at 1. rewrite bind_assoc.
    eapply orel_bind_done; [by eapply bump_known1 |]. intros l1 (R1 & M1 & E1).
    cbn. rewrite (triv_step Flat.TLine f "/"%char ("/"%char :: r) Flat.TLine) by done.
    apply (line_sim (Datatypes.S m)); [done | rewrite E1; rewrite E in F; simpl in *; lia | done].
  - rewrite bind_assoc. cbn [gets]. unfold gets at 1, bind at 1.
    rewrite bind_assoc. eapply orel_bind_done; [by eapply bump_known1 |]. intros l1 (R1 & M1 & E1).
    rewrite bind_assoc. eapply orel_bind_done; [by eapply bump_known1 |]. intros l2 (R2 & M2 & E2).
    rewrite bind_assoc, loop_bind. rewrite <- (sr_pos _ _ R).
    replace (triv Flat.TSkip f) with (triv (Flat.TBlock (Flat.fl_pos f) false) (step1 (step1 f)))
      by (unfold triv, step1; by rewrite E).
    pose proof (rest_fuel _ _ R2).
    apply block_sim; [done | lia |]. eapply resumes_step1; [| | exact K]; [done |].
    rewrite E1, E2. simpl. lia.
  - replace (triv Flat.TSkip f) with (Done (tt, f) : outcome SdfError _); [by apply orel_done |].
    symmetry. apply triv_done. unfold triv. rewrite E. cbn.
    destruct (Ascii.eqb_spec c "/"%char) as [-> | _]; [done |].
    by destruct (Ascii.eqb_spec c "*"%char) as [-> | _].
Qed.

Lemma skip_trivia_iter n l f :
  srel l f -> (length (Flat.rest f) < n)%nat ->
  orel' (fun _ l' f' => srel l' f') (iter n trivia_body tt l) (triv Flat.TSkip f).
Proof.
  revert l f. induction n as [| n IH]; intros l f R L; [lia |].
  cbn [iter]. unfold trivia_body at 1. rewrite bind_assoc. apply skip_blank_sim; [done |].
  intros l1 f1 R1 M1 L1. rewrite bind_assoc.
  assert (Ln : (length (Flat.rest f1) <= n)%nat) by lia. clear dependent f l.
  pose proof (peek_byte_sim l1 f1 R1) as Pk. unfold Flat.peek_byte in Pk.
  destruct (Flat.rest f1) as [| b r] eqn:E.
  { unfold triv. rewrite E. cbn [Flat.trivia]. unfold Flat.at_end in Pk.
    destruct (Flat.fl_failure f1) as [e |] eqn:F; [by eapply orel_bind_fail |].
    eapply orel_bind_done; [exact Pk |]. intros l2 (R2 & _). cbn. split; [done |].
    destruct f1. cbn in *. by subst. }
  eapply orel_bind_done; [exact Pk |]. intros l2 (R2 & _). clear Pk R1 l1.
  destruct (is_space b) eqn:Sp.
  { rewrite bind_assoc. eapply orel_bind_done; [by eapply bump_known1 |]. intros l3 (R3 & M3 & E3).
    unfold continue. rewrite bind_ret. rewrite (triv_step _ f1 b r Flat.TSkip) by (cbn; by rewrite ?Sp).
    apply IH; [done | rewrite E3; simpl in Ln; lia]. }
  destruct (Ascii.eqb_spec b "/"%char) as [-> | Ns].
  2: { rewrite triv_done; [by apply orel_done |]. unfold triv. rewrite E. cbn [Flat.trivia]. rewrite Sp.
       apply Ascii.eqb_neq in Ns. by rewrite Ns, <- E. }
  destruct r as [| c r].
  { pose proof (peek_second_sim l2 f1 R2) as P2. unfold Flat.peek_second in P2. rewrite E in P2.
    unfold Flat.at_end in P2. unfold triv. rewrite E, bind_assoc. cbn.
    destruct (Flat.fl_failure f1) as [e |] eqn:F; [by eapply orel_bind_fail |].
    eapply orel_bind_done; [exact P2 |]. intros l3 (R3 & _). cbn. split; [done |]. destruct f1. cbn in *. by subst. }
  eapply comment_sim; [done | exact E |].
  intros l3 f3 R3 M3 L3. apply IH; [done |]. unfold step1 in L3. rewrite E in L3. simpl in *. lia.
Qed.

(** Skipping trivia, and where it stops. *)
Lemma skip_trivia_sim l f :
  srel l f ->
  orel' (fun _ l' f' => srel l' f' /\ moved f f' /\ settled (Flat.rest f')
           /\ exists skipped, Flat.rest f = skipped ++ Flat.rest f' /\ trivia_text skipped)
    (Stream.skip_trivia l) (Flat.skip_trivia f).
Proof.
  intros R.
  pose proof (skip_trivia_iter (Datatypes.S (fuel_of l)) l f R) as H.
  pose proof (rest_fuel _ _ R). specialize (H ltac:(lia)).
  change (Stream.skip_trivia l) with (iter (Datatypes.S (fuel_of l)) trivia_body tt l).
  change (Flat.skip_trivia f) with (triv Flat.TSkip f). unfold triv in *.
  destruct (Flat.trivia _ _ _ _) as [[r p] | e | |] eqn:T; try exact H.
  pose proof (trivia_skip_text _ _ _ _ _ T) as Tx. apply trivia_done in T as [T1 (skipped & T2 & ->)].
  destruct (iter _ _ _ _) as [[[] l'] | e | |]; try exact H.
  destruct H as [_ H]. cbn. split_and!; [done | done | by exists skipped | done | exact Tx].
Qed.

(** ** Words *)

(** One byte or escape of a word: the loop of [Flat.lex_word], and what
    [Stream.lex_word] does after its fast path. *)
Definition word_body {S} `{ByteSource S} (p : SdfPos) (text : bytes) : M SdfError S (bytes + bytes) :=
  let* b := peek_byte in
  match b with
  | None => break text
  | Some byte =>
      if is_space byte || is_delimiter byte then break text
      else
        let* here := gets pos in
        check_ascii byte here ;;;
        if Ascii.eqb byte backslash then
          let* text := lex_escape text p in continue text
        else
          let* comment :=
            if Ascii.eqb byte "/"%char then
              let* second := peek_second in
              ret (bool_decide (second = Some "/"%char) || bool_decide (second = Some "*"%char))
            else ret false in
          if comment : bool then break text
          else
            bump ;;;
            let* text := push_limited text byte p in continue text
  end.

Lemma plain_step p text f b r :
  Flat.rest f = b :: r -> Stream.is_plain b = true ->
  word_body p text f
  = if Z.of_nat (length text) >=? max_token_bytes (Flat.fl_limits f)
    then Fail (long_token_error p (Flat.fl_limits f)) else Done (inl (text ++ [b]), step1 f).
Proof.
  intros E Pl. destruct (plain_facts b Pl) as (Sp & D & Nb & Ns & _ & A & G).
  unfold word_body, bind, peek_byte, Flat.lexer_bytes, Flat.peek_byte. rewrite E, Sp, D. cbn [orb].
  unfold gets, check_ascii. apply N.ltb_lt in A. apply N.leb_gt in A. rewrite A.
  apply N.ltb_ge in G. rewrite G. cbn [andb ret].
  apply Ascii.eqb_neq in Nb, Ns. rewrite Nb, Ns. unfold ret, bump, Flat.bump. rewrite E.
  unfold push_limited, bind, gets. cbn [source_limits Flat.move Flat.fl_limits].
  destruct (_ >=? _); [done |]. unfold step1. by rewrite E.
Qed.

Lemma jump_cons f b bs r :
  Flat.rest f = (b :: bs) ++ r -> jump (length bs) (step1 f) = jump (length (b :: bs)) f.
Proof. intros E. unfold jump, step1. rewrite E. cbn. done. Qed.

Lemma plain_run p bs r n text f :
  Flat.rest f = bs ++ r -> Forall (fun b => Stream.is_plain b = true) bs ->
  Z.of_nat (length text + length bs) <= max_token_bytes (Flat.fl_limits f) ->
  iter (length bs + n) (word_body p) text f = iter n (word_body p) (text ++ bs) (jump (length bs) f).
Proof.
  intros E H. revert text f E. induction H as [| b bs Hb _ IH]; intros text f E L.
  - rewrite app_nil_r. unfold jump. rewrite drop_0. by destruct f.
  - cbn [length Nat.add iter]. unfold bind. rewrite (plain_step p text f b (bs ++ r)) by done.
    cbn [length] in L. destruct (Z.geb_spec (Z.of_nat (length text)) (max_token_bytes (Flat.fl_limits f))); [lia |].
    rewrite (IH (text ++ [b]) (step1 f)).
    + rewrite (jump_cons f b bs r) by done. by rewrite <- app_assoc.
    + unfold step1. by rewrite E.
    + cbn. rewrite length_app. cbn. lia.
Qed.

Lemma plain_over p bs r n text f :
  Flat.rest f = bs ++ r -> Forall (fun b => Stream.is_plain b = true) bs -> bs <> [] ->
  max_token_bytes (Flat.fl_limits f) < Z.of_nat (length text + length bs) ->
  iter (length bs + n) (word_body p) text f = Fail (long_token_error p (Flat.fl_limits f)).
Proof.
  intros E H. revert text f E. induction H as [| b bs Hb Hbs IH]; intros text f E Ne L; [done |].
  cbn [length Nat.add iter] in *. unfold bind. rewrite (plain_step p text f b (bs ++ r)) by done.
  destruct (Z.geb_spec (Z.of_nat (length text)) (max_token_bytes (Flat.fl_limits f))); [done |].
  destruct bs as [| c bs]; [simpl in *; lia |].
  rewrite (IH (text ++ [b]) (step1 f)); [done | | done |].
  - unfold step1. by rewrite E.
  - cbn in *. rewrite length_app. cbn. lia.
Qed.

(** A step of a word in lockstep. *)
Lemma word_body_sim p text f0 l f :
  reading f0 text l f -> (text = [] -> f = f0) -> settled (Flat.rest f0) ->
  (forall b, head (Flat.rest f0) = Some b -> is_delimiter b = false) -> Flat.rest f0 <> [] ->
  orel' (fun x l' f' =>
      match x with
      | inl t => reading f0 t l' f' /\ t <> [] /\ moved f f'
                 /\ (length (Flat.rest f') < length (Flat.rest f))%nat
      | inr t => reading f0 t l' f' /\ t <> []
      end)
    (word_body p text l) (word_body p text f).
Proof.
  intros Rd Ne St Dl N0. destruct (Rd) as (R & M & E & A).
  unfold word_body. eapply orel_bind; [by apply peek_byte_sim |]. intros c l1 f1 (R1 & -> & Hc).
  destruct c as [c |].
  2: { apply orel_ret. split; [by split_and! |]. intros ->. rewrite (Ne eq_refl) in Hc. by destruct (Flat.rest f0). }
  apply head_some in Hc as [r' Hc].
  assert (Hd : text = [] -> settled (c :: r') /\ is_delimiter c = false).
  { intros ->. rewrite <- (Ne eq_refl), Hc in St, Dl. split; [done |]. by apply Dl. }
  destruct (_ || _) eqn:Sd.
  { apply orel_ret. split; [by split_and! |]. intros Z. apply Hd in Z as [[Z1 _] Z2].
    by rewrite Z1, Z2 in Sd. }
  eapply orel_bind; [by apply gets_pos_sim |]. intros here l2 f2 (R2 & -> & ->).
  eapply orel_bind; [by apply check_ascii_sim |]. intros _ l3 f3 (R3 & -> & Ac).
  destruct (Ascii.eqb_spec c backslash) as [-> | _].
  { eapply orel_bind; [eapply (lex_escape_sim f0); [by split_and! | exact Hc] |].
    intros t l4 f4 (Rd4 & L4 & M4). apply orel_ret. split_and!; try done.
    intros ->. destruct Rd4 as (_ & _ & E4 & _). cbn in E4. rewrite <- E4, E, length_app in L4. lia. }
  eapply (orel_bind _ (fun cm l' f' => srel l' f' /\ f' = f /\ (cm = true -> text <> []))).
  { destruct (Ascii.eqb_spec c "/"%char) as [-> | _]; [| by apply orel_ret].
    eapply orel_bind; [by apply peek_second_sim |]. intros s l4 f4 (R4 & -> & ->). apply orel_ret.
    split_and!; auto. rewrite Hc. cbn [tail]. intros B Z. apply Hd in Z as [[_ Z] _].
    destruct (Z eq_refl). apply orb_true_iff in B as [B | B]; by apply bool_decide_eq_true in B. }
  intros cm l4 f4 (R4 & -> & Hcm). destruct cm.
  { apply orel_ret. split; [by split_and! | auto]. }
  eapply orel_weaken; [| eapply (push_byte_sim f0 text l4 f); eauto; by split_and!].
  intros x l5 f5 (t & -> & Rd5 & -> & L5 & M5). split_and!; try done; by destruct text.
Qed.

(** The fast path takes plain bytes one by one. *)
Lemma plain_sim (Q : bytes -> Stream.Lexer -> Flat.Lexer -> Prop) p text k f0 l f n :
  reading f0 text l f -> (text = [] -> f = f0) -> (length (Flat.rest f) < n)%nat ->
  (forall t l' f' n', reading f0 t l' f' -> (t = [] -> f' = f0) ->
     (length (Flat.rest f') <= length (Flat.rest f))%nat -> (length (Flat.rest f') < n')%nat ->
     orel' Q (k t l') (iter n' (word_body p) t f')) ->
  orel' Q (bind (Stream.take_plain_run text p) k l) (iter n (word_body p) text f).
Proof.
  intros Rd Ne L K. destruct (Rd) as (R & M & E & A).
  assert (Same : orel' Q (k text l) (iter n (word_body p) text f)) by (apply K; auto).
  unfold Stream.take_plain_run. rewrite bind_assoc. unfold get at 1, bind at 1.
  destruct (Stream.pushback l) as [| b pb] eqn:Pb; [| exact Same].
  rewrite bind_assoc. unfold bind at 1. pose proof (read_buffer_sim (Stream.pos l) l f R Pb) as Rb.
  set (buffer := hd [] (chunks (Stream.input l))) in *.
  pose proof (run_prefix Stream.is_plain l f R Pb) as Pf. cbn zeta in Pf. fold buffer in Pf.
  pose proof (run_length_prefix Stream.is_plain buffer) as Pl.
  pose proof (run_length_le Stream.is_plain buffer) as Lb.
  set (count := run_length Stream.is_plain buffer) in *.
  assert (Lt : length (take count buffer) = count) by (rewrite length_take; lia).
  assert (Er : Flat.rest f = take count buffer ++ drop count (Flat.rest f)) by (rewrite <- Pf; by rewrite take_drop).
  assert (Ln : (count <= length (Flat.rest f))%nat) by (rewrite Er, length_app; lia).
  assert (Go : orel' Q (bind
      (if Nat.eqb count 0 then ret text
       else if Z.of_nat (length text + count) >? max_token_bytes (Stream.limits l) then
         fail (long_token_error p (Stream.limits l))
       else Stream.consume_run count p ;;; ret (text ++ take count buffer)) k l) (iter n (word_body p) text f)).
  { destruct (Nat.eqb_spec count 0) as [_ | Nz]; [exact Same |].
    replace n with (length (take count buffer) + (n - count))%nat by lia. rewrite <- (sr_limits _ _ R).
    destruct (Z.gtb_spec (Z.of_nat (length text + count)) (max_token_bytes (Flat.fl_limits f))) as [G | G].
    - rewrite (plain_over p _ (drop count (Flat.rest f))); [by left | done | done | | by rewrite Lt].
      intros Z. rewrite Z in Lt. simpl in Lt. lia.
    - rewrite (plain_run p _ (drop count (Flat.rest f))), Lt by (rewrite ?Lt; done).
      rewrite bind_assoc. eapply orel_bind_done; [apply (consume_run_sim _ _ l f); [done | done | |] |].
      + fold buffer. lia.
      + rewrite Pf. eapply Forall_impl; [exact Pl |]. intros x Hx. by apply plain_facts.
      + intros l1 R1. rewrite bind_ret. apply K; [| | apply jump_le |].
        * split_and!; [done | eapply moved_trans; [exact M | apply jump_moved] | |].
          -- rewrite E, Er at 1. by rewrite <- app_assoc.
          -- rewrite forallb_app, A. cbn [andb]. apply List.forallb_forall. intros x Hx.
             rewrite List.Forall_forall in Pl. by apply plain_facts, Pl.
        * intros Z. apply app_eq_nil in Z as [_ Z]. rewrite Z in Lt. simpl in Lt. lia.
        * cbn. rewrite length_drop. lia. }
  destruct (Flat.rest f) as [| b r] eqn:E0; [destruct (Flat.fl_failure f) as [e |] eqn:F |];
    rewrite Rb; [| exact Go ..].
  destruct n as [| n]; [lia |]. cbn [iter]. unfold word_body at 1. rewrite bind_assoc. cbn [peek_byte Flat.lexer_bytes].
  unfold Flat.peek_byte, bind at 1. rewrite E0, F. cbn. rewrite (sr_pos _ _ R). auto.
Qed.

Lemma word_iter_sim p f0 n1 :
  settled (Flat.rest f0) ->
  (forall b, head (Flat.rest f0) = Some b -> is_delimiter b = false) -> Flat.rest f0 <> [] ->
  forall n2 text l f,
  reading f0 text l f -> (text = [] -> f = f0) ->
  (length (Flat.rest f) < n1)%nat -> (length (Flat.rest f) < n2)%nat ->
  orel' (fun t l' f' => reading f0 t l' f' /\ t <> [])
    (iter n1 (fun t => let* t := Stream.take_plain_run t p in word_body p t) text l)
    (iter n2 (word_body p) text f).
Proof.
  intros St Dl N0. induction n1 as [| n1 IH]; intros n2 text l f Rd Ne L1 L2; [lia |].
  cbn [iter]. rewrite bind_assoc. apply (plain_sim _ p text _ f0); auto.
  intros t l1 f1 [| n'] Rd1 Ne1 Lf Ln; [lia |]. cbn [iter].
  eapply orel_bind; [by apply (word_body_sim p t f0) |].
  intros [t' | t'] l2 f2; cbn beta iota; [| intros H; by apply orel_ret].
  intros (Rd2 & Nt & M2 & L). apply IH; [done | done | lia | lia].
Qed.

Lemma lex_word_sim p l f :
  srel l f -> settled (Flat.rest f) ->
  (forall b, head (Flat.rest f) = Some b -> is_delimiter b = false) -> Flat.rest f <> [] ->
  orel' (fun t l' f' => token_read f p t l' f' /\ tok_mode t = Structure
                        /\ tok t <> Eof /\ tok_source (tok t) <> [])
    (Stream.lex_word p l) (Flat.lex_word p f).
Proof.
  intros R St Dl N0. unfold Stream.lex_word, Flat.lex_word.
  eapply (orel_bind _ (fun t l' f' => reading f t l' f' /\ t <> [])).
  - pose proof (rest_fuel _ _ R) as F1. pose proof (srel_fuel _ _ R) as F2.
    apply (word_iter_sim p f (Datatypes.S (fuel_of l)) St Dl N0 (Datatypes.S (fuel_of f)));
      [by apply reading_init | done | lia | lia].
  - clear. intros text l2 f2 [(R2 & M2 & E2 & A2) Ne].
    eapply orel_bind; [by apply from_utf8_sim |]. intros s l3 f3 (R3 & -> & ->).
    apply orel_ret. cbn. rewrite unstr_str. split_and!; auto. split_and!; auto.
    cbn. by rewrite unstr_str.
Qed.

(** ** Tokens *)

(** A token read after trivia: the bytes consumed are the trivia and the
    token's own source, and its position is the one after the trivia. *)
Definition lexed (mode : Mode) (f : Flat.Lexer) (t : Token) (l' : Stream.Lexer) (f' : Flat.Lexer) : Prop :=
  srel l' f' /\ moved f f' /\ tok_mode t = mode
  /\ (exists skipped, Flat.rest f = skipped ++ tok_source (tok t) ++ Flat.rest f'
                      /\ trivia_text skipped /\ tok_pos t = advances (Flat.fl_pos f) skipped)
  /\ (tok t <> Eof -> tok_source (tok t) <> []).

Lemma lexed_intro mode f f1 t l' f' :
  moved f f1 -> (exists skipped, Flat.rest f = skipped ++ Flat.rest f1 /\ trivia_text skipped) ->
  token_read f1 (Flat.fl_pos f1) t l' f' -> tok_mode t = mode -> (tok t <> Eof -> tok_source (tok t) <> []) -> lexed mode f t l' f'.
Proof.
  intros M (sk & Esk & Tx) (R & M1 & E & P) Md Ns. split_and!; auto.
  - by eapply moved_trans.
  - destruct M as (skipped & Es & F). rewrite Es in Esk. apply app_inv_tail in Esk as <-.
    exists skipped. rewrite Es, E, P, F. done.
Qed.

Lemma lex_sim mode l f :
  srel l f -> orel' (lexed mode f) (Stream.lex mode l) (Flat.lex mode f).
Proof.
  intros R. unfold Stream.lex, Flat.lex, lex_with.
  eapply orel_bind; [by apply skip_trivia_sim |]. intros _ l1 f1 (R1 & M1 & St & Es).
  eapply orel_bind; [by apply gets_pos_sim |]. intros p l2 f2 (R2 & -> & ->).
  eapply orel_bind; [by apply peek_byte_sim |]. intros b l3 f3 (R3 & -> & Hb).
  destruct b as [b |].
  2: { apply orel_ret. eapply (lexed_intro mode f f1); eauto.
       split_and!; auto using moved_refl. }
  apply head_some in Hb as [r E].
  eapply orel_bind; [by apply check_ascii_sim |]. intros _ l4 f4 (R4 & -> & Ab).
  destruct (Ascii.eqb_spec b "("%char) as [-> | N1].
  { eapply orel_bind; [by eapply bump_known |]. intros c l5 f5 (R5 & _ & E5 & M5). apply orel_ret.
    eapply (lexed_intro mode f f1); eauto.
    split_and!; auto; cbn; by rewrite E, E5. }
  destruct (Ascii.eqb_spec b ")"%char) as [-> | N2].
  { eapply orel_bind; [by eapply bump_known |]. intros c l5 f5 (R5 & _ & E5 & M5). apply orel_ret.
    eapply (lexed_intro mode f f1); eauto.
    split_and!; auto; cbn; by rewrite E, E5. }
  destruct (Ascii.eqb_spec b quote) as [-> | N3].
  { eapply orel_weaken; [| by eapply lex_qstring_sim]. intros t l5 f5 (T & Md & _ & Ns).
    eapply lexed_intro; eauto. }
  destruct mode.
  - eapply orel_weaken; [| apply (lex_word_sim (Flat.fl_pos f1)); [done | done | |]].
    + intros t l5 f5 (T & Md & _ & Ns). eapply lexed_intro; eauto.
    + rewrite E. intros c [= <-]. unfold is_delimiter. apply Ascii.eqb_neq in N1, N2, N3. by rewrite N1, N2, N3.
    + by rewrite E.
  - eapply orel_weaken; [| by eapply lex_expression_sim].
    intros t l5 f5 (T & Md & _ & Ns). eapply lexed_intro; eauto.
Qed.

End Relation.

(** ** What a parser needs of its lexer

    Two lexers that return the same tokens: reading a token other than the
    end of the file makes progress, and a peeked token is the next one. *)

Class LexSim {S1 S2 : Type} `{Lexing S1} `{Lexing S2} `{Measured S1} `{Measured S2}
  (escape : SdfError -> Prop) (R : S1 -> S2 -> Prop) : Prop := {
  sim_fuel : forall s1 s2, R s1 s2 -> fuel_of s1 = fuel_of s2;
  sim_pos : forall s1 s2, R s1 s2 -> lexer_pos s1 = lexer_pos s2;
  sim_next : forall mode s1 s2, R s1 s2 ->
    orel escape (fun t t1 t2 => R t1 t2 /\ (fuel_of t2 <= fuel_of s2)%nat
                   /\ (tok t <> Eof -> (fuel_of t2 < fuel_of s2)%nat)
                   /\ (forall t0, peeked s2 = Some t0 -> usable t0 mode = true -> t = t0))
      (next mode s1) (next mode s2);
  sim_peek : forall mode s1 s2, R s1 s2 ->
    orel escape (fun t t1 t2 => R t1 t2 /\ (fuel_of t2 <= fuel_of s2)%nat
                   /\ peeked t2 = Some t /\ usable t mode = true)
      (peek mode s1) (peek mode s2)
}.

Section Instance_of_LexSim.
Variable over : bool.
Abbreviation esc := (too_large over).

(** A peeked token other than the end of the file has bytes to return. *)
Record lrel (l : Stream.Lexer) (f : Flat.Lexer) : Prop := mkLrel {
  lr_srel : srel over l f;
  lr_peeked : forall t, Flat.fl_peeked f = Some t -> tok t <> Eof -> tok_source (tok t) <> []
}.
Abbreviation R := lrel.

Lemma lrel_fresh l f : srel over l f -> Flat.fl_peeked f = None -> R l f.
Proof. intros S N. split; [done |]. by rewrite N. Qed.

Lemma set_peeked_sim l f o :
  R l f -> (forall t, o = Some t -> tok t <> Eof -> tok_source (tok t) <> []) ->
  R (set_peeked o l) (set_peeked o f).
Proof. intros [[? ? ? ? ? ? ?] _] H. split; [constructor; auto | exact H]. Qed.

Lemma unread_sim t l f :
  R l f -> Flat.fl_peeked f = None ->
  orel esc (fun _ l' f' => R l' f' /\ Flat.fl_peeked f' = None
                        /\ fuel_of f' = (fuel_of f + length (tok_source (tok t)))%nat)
    (unread t l) (unread t f).
Proof.
  intros [[Rr Rf Rp Rk Rl Rc Rw] _] Pk. apply orel_modify. split_and!.
  - apply lrel_fresh; [| done]. constructor; cbn; auto; [| by destruct (tok_pos t)].
    unfold push_source. by rewrite Rr, app_assoc.
  - done.
  - unfold fuel_of, Flat.lexer_measured. cbn. unfold push_source. rewrite Pk, length_app. lia.
Qed.

(** Lexing with no token peeked. *)
Lemma fresh_lex_sim mode l f :
  R l f -> Flat.fl_peeked f = None ->
  orel esc (fun t l' f' => R l' f' /\ Flat.fl_peeked f' = None /\ tok_mode t = mode
                        /\ (fuel_of f' + length (tok_source (tok t)) <= fuel_of f)%nat
                        /\ (tok t <> Eof -> tok_source (tok t) <> []))
    (lex mode l) (lex mode f).
Proof.
  intros [Rel _] Pk. eapply orel_weaken; [| by apply lex_sim].
  intros t l' f' (R' & M & Md & (skipped & E & _) & Lt).
  assert (Pk' : Flat.fl_peeked f' = None) by (by rewrite (moved_peeked _ _ M)).
  split_and!; auto using lrel_fresh.
  unfold fuel_of, Flat.lexer_measured. rewrite Pk, Pk', E, !length_app. lia.
Qed.

Lemma source_pos t : tok_source (tok t) <> [] -> (0 < length (tok_source (tok t)))%nat.
Proof. destruct (tok_source (tok t)); [done |]. simpl. lia. Qed.

Lemma peeked_fuel f t :
  Flat.fl_peeked f = Some t ->
  fuel_of f = (fuel_of (set_peeked None f) + length (tok_source (tok t)))%nat.
Proof. intros E. unfold fuel_of, Flat.lexer_measured. rewrite E. cbn. lia. Qed.

Lemma gets_peeked_sim l f :
  R l f ->
  orel esc (fun o l' f' => R l' f' /\ f' = f /\ o = Flat.fl_peeked f) (gets peeked l) (gets peeked f).
Proof. intros Rel. apply orel_gets; [symmetry; apply Rel | auto]. Qed.

Lemma next_sim mode l f :
  R l f ->
  orel esc (fun t l' f' => R l' f' /\ (fuel_of f' <= fuel_of f)%nat
                 /\ (tok t <> Eof -> (fuel_of f' < fuel_of f)%nat)
                 /\ (forall t0, peeked f = Some t0 -> usable t0 mode = true -> t = t0))
    (next mode l) (next mode f).
Proof.
  intros Rel. unfold next.
  eapply orel_bind; [by apply gets_peeked_sim |]. clear l Rel. intros o l f' (Rel & -> & ->). cbn [peeked Flat.lexer_lexing].
  destruct (Flat.fl_peeked f) as [t |] eqn:E.
  - eapply (orel_bind _ (fun _ l' f' => R l' f' /\ f' = set_peeked None f)).
    { apply orel_modify. split; [by apply set_peeked_sim | done]. }
    intros _ l1 f1 (R1 & ->). pose proof (peeked_fuel f t E) as Fu.
    destruct (usable t mode) eqn:U.
    + apply orel_ret. split_and!; [done | lia | | by intros ? [= ->]].
      intros Ne. apply (lr_peeked _ _ Rel t E), source_pos in Ne. lia.
    + eapply orel_bind; [by apply unread_sim |]. intros _ l2 f2 (R2 & P2 & F2).
      eapply orel_weaken; [| by apply fresh_lex_sim].
      intros t' l3 f3 (R3 & P3 & Md & F3 & Ns). split_and!; [done | lia | |].
      * intros Ne. apply Ns, source_pos in Ne. lia.
      * intros t0 [= ->]. congruence.
  - eapply orel_weaken; [| by apply fresh_lex_sim].
    intros t' l3 f3 (R3 & P3 & Md & F3 & Ns). split_and!; [done | lia | | done].
    intros Ne. apply Ns, source_pos in Ne. lia.
Qed.

Lemma usable_mode t mode : tok_mode t = mode -> usable t mode = true.
Proof. intros <-. unfold usable. by rewrite bool_decide_eq_true_2. Qed.

Lemma peek_sim mode l f :
  R l f ->
  orel esc (fun t l' f' => R l' f' /\ (fuel_of f' <= fuel_of f)%nat
                 /\ peeked f' = Some t /\ usable t mode = true)
    (peek mode l) (peek mode f).
Proof.
  intros Rel. unfold peek.
  eapply orel_bind; [by apply gets_peeked_sim |]. clear l Rel. intros o l f' (Rel & -> & ->).
  eapply (orel_bind _ (fun _ l' f' => R l' f' /\ (fuel_of f' <= fuel_of f)%nat
     /\ forall t, Flat.fl_peeked f' = Some t -> usable t mode = true)).
  { destruct (Flat.fl_peeked f) as [t |] eqn:E; [| apply orel_ret; split_and!; [done | done | by rewrite E]].
    eapply (orel_bind _ (fun _ l' f' => R l' f' /\ f' = set_peeked None f)).
    { apply orel_modify. split; [by apply set_peeked_sim | done]. }
    intros _ l1 f1 (R1 & ->). pose proof (peeked_fuel f t E) as Fu.
    destruct (usable t mode) eqn:U.
    - apply orel_modify. split_and!; [| | by intros ? [= <-]].
      + apply set_peeked_sim; [done |]. intros ? [= <-]. by apply (lr_peeked _ _ Rel).
      + unfold fuel_of, Flat.lexer_measured. rewrite E. done.
    - eapply orel_weaken; [| by apply unread_sim]. intros _ l2 f2 (R2 & P2 & F2).
      split_and!; [done | lia |]. by rewrite P2. }
  clear l Rel. intros _ l f1 (Rel & Fu & Us).
  eapply orel_bind; [by apply gets_peeked_sim |]. clear l Rel. intros o l f' (Rel & -> & ->).
  eapply (orel_bind _ (fun _ l' f' => R l' f' /\ (fuel_of f' <= fuel_of f)%nat
     /\ exists t, Flat.fl_peeked f' = Some t /\ usable t mode = true)).
  { destruct (Flat.fl_peeked f1) as [t |] eqn:E; [apply orel_ret; eauto 10 |].
    eapply orel_bind; [by apply fresh_lex_sim |]. intros t l2 f2 (R2 & P2 & Md & F2 & Ns).
    apply orel_modify. split_and!.
    - apply set_peeked_sim; [done |]. by intros ? [= <-].
    - unfold fuel_of, Flat.lexer_measured in *. rewrite P2 in F2. cbn in *. lia.
    - exists t. by auto using usable_mode. }
  clear l f1 Rel Fu Us. intros _ l f1 (Rel & Fu & t & E & Us).
  eapply orel_bind; [by apply gets_peeked_sim |].
  intros o l1 f' (R1 & -> & ->). rewrite E. apply orel_ret. auto.
Qed.

#[export] Instance lrel_lexsim : LexSim esc R.
Proof.
  constructor; [| | intros; by apply next_sim | intros; by apply peek_sim].
  - intros l f [Rel _]. by eapply srel_fuel.
  - intros l f [Rel _]. symmetry. apply Rel.
Qed.
End Instance_of_LexSim.

(** ** Theorems *)

(** Requests of a parser: tokens are peeked and taken, in either mode. *)
Inductive request : Type := RNext (mode : Mode) | RPeek (mode : Mode).

Definition serve {S} `{Lexing S} (r : request) : M SdfError S Token :=
  match r with RNext mode => next mode | RPeek mode => peek mode end.

Fixpoint run_requests {S} `{Lexing S} (rs : list request) : M SdfError S (list Token) :=
  match rs with
  | [] => ret []
  | r :: rs =>
      let* t := serve r in
      let* ts := run_requests rs in
      ret (t :: ts)
  end.

(** The value of an outcome without the state. *)
Definition value_of {E A S} (o : outcome E (A * S)) : outcome E A :=
  match o with
  | Done (a, _) => Done a
  | Fail e => Fail e
  | Panic w => Panic w
  | NoFuel => NoFuel
  end.

Lemma run_requests_sim over rs l f :
  lrel over l f -> orel (too_large over) (fun _ l' f' => lrel over l' f') (run_requests rs l) (run_requests rs f).
Proof.
  revert l f. induction rs as [| r rs IH]; intros l f Rl; cbn [run_requests]; [by apply orel_ret |].
  eapply (orel_bind _ (fun _ l' f' => lrel over l' f')).
  { destruct r; cbn [serve]; (eapply orel_weaken; [| first [by apply next_sim | by apply peek_sim]]);
      by intros t l' f' (? & _). }
  intros t l1 f1 R1. eapply orel_bind; [by apply IH |]. intros ts l2 f2 R2. by apply orel_ret.
Qed.

(** Buffers of a [BufRead] are not empty; an empty one is the end. *)
Definition buffers_ok (i : Input) : Prop := Forall (fun c => c <> []) (chunks i).
Definition input_bytes (i : Input) : bytes := concat (chunks i).

Lemma lrel_new over i limits :
  buffers_ok i -> (over = false -> Z.of_nat (length (input_bytes i)) <= max_input_bytes limits) ->
  lrel over (Stream.new i limits) (Flat.new (input_bytes i) (failure i) limits).
Proof. intros B W. apply lrel_fresh; [| done]. constructor; cbn; auto. Qed.

Lemma orel_value {E S1 S2 A} (escape : E -> Prop) (Q : A -> S1 -> S2 -> Prop) o1 o2 :
  (forall e, ~ escape e) -> orel escape Q o1 o2 -> value_of o1 = value_of o2.
Proof.
  intros N H. destruct o1 as [[a1 s1] | e1 | |], o2 as [[a2 s2] | e2 | |]; cbn in H |- *; try done.
  - by destruct H as [-> _].
  - exfalso. by eapply N.
  - destruct H as [-> | H]; [done |]. exfalso. by eapply N.
  - exfalso. by eapply N.
  - exfalso. by eapply N.
Qed.

Lemma not_too_large e : ~ too_large false e.
Proof. by intros [? _]. Qed.

(** The streaming lexer does not depend on its buffers: for any sequence
    of peeks and reads in any modes, and any division of the file into
    buffers, it returns the tokens, or the first error, that the reference
    lexer returns for the whole text, when the file is within the input
    limit. *)
Theorem stream_refines_flat (rs : list request) (i : Input) (limits : SdfLimits) :
  buffers_ok i -> Z.of_nat (length (input_bytes i)) <= max_input_bytes limits ->
  value_of (run_requests rs (Stream.new i limits))
  = value_of (run_requests rs (Flat.new (input_bytes i) (failure i) limits)).
Proof.
  intros B W. eapply orel_value; [exact not_too_large |].
  apply run_requests_sim, lrel_new; auto.
Qed.

(** The bytes a streaming lexer has still to read, pushback first. *)
Definition unread_bytes (l : Stream.Lexer) : bytes := Stream.pushback l ++ input_bytes (Stream.input l).

(** The reference lexer in the state of a streaming one. *)
Definition flat_of (l : Stream.Lexer) : Flat.Lexer :=
  Flat.mkLexer (unread_bytes l) (failure (Stream.input l)) (Stream.pos l) (Stream.lx_peeked l) (Stream.limits l).

Lemma flat_of_srel l : buffers_ok (Stream.input l) -> srel true l (flat_of l).
Proof. intros B. constructor; done. Qed.

(** A token is exactly its text: what the streaming lexer consumes, from
    its pushback and from any buffers, is white space and complete comments,
    then the bytes of the token; the position of the token is the line and
    column after the skipped bytes, and the lexer stops right after the
    token. A token other than the end of the file has bytes. *)
Theorem lex_exact (mode : Mode) (l : Stream.Lexer) (t : Token) (l' : Stream.Lexer) :
  buffers_ok (Stream.input l) -> Stream.lex mode l = Done (t, l') ->
  exists skipped,
    unread_bytes l = skipped ++ tok_source (tok t) ++ unread_bytes l'
    /\ trivia_text skipped
    /\ tok_pos t = advances (Stream.pos l) skipped
    /\ Stream.pos l' = advances (tok_pos t) (tok_source (tok t))
    /\ (tok t <> Eof -> tok_source (tok t) <> [])
    /\ tok_mode t = mode.
Proof.
  intros B H. pose proof (lex_sim true mode _ _ (flat_of_srel l B)) as S. rewrite H in S.
  destruct (Flat.lex mode (flat_of l)) as [[t1 f'] | | |]; cbn in S; try done.
  destruct S as (_ & R & (read & Er & M) & Md & (sk & E & Tx & P) & Ns).
  assert (Ef : Flat.rest f' = unread_bytes l') by apply R.
  assert (Ep : Flat.fl_pos f' = Stream.pos l') by apply R.
  exists sk. rewrite <- Ef, <- Ep. split_and!; auto. rewrite M, P. cbn.
  rewrite <- advances_app. f_equal. rewrite E, app_assoc in Er. by apply app_inv_tail in Er as <-.
Qed.

(** A file of two buffers that cut a word and a comment. *)
Definition cut_input : Input :=
  mkInput [unstr "(DELAY"; unstr "FILE /* a"; unstr " */ 3.0"]%string None.

Lemma stream_refines_flat_witness :
  let rs := [RNext Structure; RPeek Expression; RNext Structure; RNext Structure] in
  buffers_ok cut_input /\ value_of (run_requests rs (Stream.new cut_input default_limits))
  = value_of (run_requests rs (Flat.new (input_bytes cut_input) None default_limits)).
Proof.
  assert (B : buffers_ok cut_input) by (repeat constructor; done).
  split; [exact B |]. apply (stream_refines_flat _ cut_input default_limits B). vm_compute. discriminate.
Defined.

Lemma lex_exact_witness :
  let l := Stream.new (mkInput [unstr " /"; unstr "/ c"]%string None) default_limits in
  exists l', Stream.lex Structure l = Done (mkToken Eof (mkPos 1 6) Structure, l')
  /\ exists skipped, unread_bytes l = skipped ++ unread_bytes l' /\ trivia_text skipped.
Proof.
  intros l. eexists. split; [vm_compute; reflexivity |].
  edestruct (lex_exact Structure l) as (sk & E & Tx & _);
    [repeat constructor; done | vm_compute; reflexivity |]. exists sk. split; [exact E | exact Tx].
Defined.
