(* ===== verification/Expr.v ===== *)
(** * SDF conditions (src/sim/sdf/expr.rs)

    Condition trees, their text, and the recursive-descent parser over the
    expression tokens of a lexer. The parser is written over the [Lexing]
    interface; [Stream.Lexer] is the lexer of the sources. *)

From Stdlib Require Import ZArith Lia Ascii String.
From stdpp Require Import base list strings.
From S2P Require Import Prelude Common Lexer.
Open Scope Z_scope.
Open Scope list_scope.
#[local] Set Warnings "-register-all".

(** ** Data *)

Inductive SdfBits : Type :=
| Bit (bit : Z)
| Range (msb lsb : Z).

#[export] Instance SdfBits_eq_dec : EqDecision SdfBits.
Proof. solve_decision. Defined.

Definition bounds (b : SdfBits) : Z * Z :=
  match b with Bit bit => (bit, bit) | Range msb lsb => (msb, lsb) end.

Definition fmt_bits (b : SdfBits) : string :=
  match b with
  | Bit bit => cat ["["; dec bit; "]"]
  | Range msb lsb => cat ["["; dec msb; ":"; dec lsb; "]"]
  end%string.

Inductive UnaryOp : Type := Plus | Minus | Not | BitNot | And | Nand | Or | Nor | Xor | Xnor.

Inductive BinaryOp : Type :=
| Mul | Div | Mod | Add | Sub | Shl | Shr | Lt | Le | Gt | Ge | Eq | Ne | CaseEq | CaseNe
| BitAnd | BitXor | BitXnor | BitOr | LogAnd | LogOr.

#[export] Instance UnaryOp_eq_dec : EqDecision UnaryOp.
Proof. solve_decision. Defined.
#[export] Instance BinaryOp_eq_dec : EqDecision BinaryOp.
Proof. solve_decision. Defined.

(** The first entry of a table with the given key ([match op { .. }]). *)
Fixpoint table_lookup {A} (table : list (string * A)) (key : string) : option A :=
  match table with
  | [] => None
  | (k, a) :: table' => if String.eqb key k then Some a else table_lookup table' key
  end.

Definition unary_from_token (op : string) : option UnaryOp :=
  table_lookup
    [("+", Plus); ("-", Minus); ("!", Not); ("~", BitNot); ("&", And); ("~&", Nand); ("|", Or);
     ("~|", Nor); ("^", Xor); ("^~", Xnor); ("~^", Xnor)]%string op.

Definition unary_text (op : UnaryOp) : string :=
  match op with
  | Plus => "+" | Minus => "-" | Not => "!" | BitNot => "~" | And => "&" | Nand => "~&"
  | Or => "|" | Nor => "~|" | Xor => "^" | Xnor => "~^"
  end%string.

Definition binary_from_token (op : string) : option BinaryOp :=
  table_lookup
    [("*", Mul); ("/", Div); ("%", Mod); ("+", Add); ("-", Sub); ("<<", Shl); (">>", Shr);
     ("<", Lt); ("<=", Le); (">", Gt); (">=", Ge); ("==", Eq); ("!=", Ne); ("===", CaseEq);
     ("!==", CaseNe); ("&", BitAnd); ("^", BitXor); ("^~", BitXnor); ("~^", BitXnor);
     ("|", BitOr); ("&&", LogAnd); ("||", LogOr)]%string op.

Definition precedence (op : BinaryOp) : Z :=
  match op with
  | Mul | Div | Mod => 10
  | Add | Sub => 9
  | Shl | Shr => 8
  | Lt | Le | Gt | Ge => 7
  | Eq | Ne | CaseEq | CaseNe => 6
  | BitAnd => 5
  | BitXor | BitXnor => 4
  | BitOr => 3
  | LogAnd => 2
  | LogOr => 1
  end.

Definition is_equality (op : BinaryOp) : bool :=
  match op with Eq | Ne | CaseEq | CaseNe => true | _ => false end.

Definition binary_text (op : BinaryOp) : string :=
  match op with
  | Mul => "*" | Div => "/" | Mod => "%" | Add => "+" | Sub => "-" | Shl => "<<" | Shr => ">>"
  | Lt => "<" | Le => "<=" | Gt => ">" | Ge => ">=" | Eq => "==" | Ne => "!=" | CaseEq => "==="
  | CaseNe => "!==" | BitAnd => "&" | BitXor => "^" | BitXnor => "~^" | BitOr => "|"
  | LogAnd => "&&" | LogOr => "||"
  end%string.

Inductive CondExpr : Type :=
| EIdent (name : string) (bits : option SdfBits)
| EConst (value : Z)
| Unary (op : UnaryOp) (operand : CondExpr)
| Binary (op : BinaryOp) (lhs rhs : CondExpr)
| Ternary (condition yes no : CondExpr)
| Concat (items : list CondExpr)
| Replicate (count : CondExpr) (items : list CondExpr).

(** [==] of trees, as derived. *)
Fixpoint cond_eqb (a b : CondExpr) {struct a} : bool :=
  let fix items_eqb (xs ys : list CondExpr) : bool :=
    match xs, ys with
    | [], [] => true
    | x :: xs, y :: ys => cond_eqb x y && items_eqb xs ys
    | _, _ => false
    end in
  match a, b with
  | EIdent n1 b1, EIdent n2 b2 => String.eqb n1 n2 && bool_decide (b1 = b2)
  | EConst v1, EConst v2 => v1 =? v2
  | Unary o1 x1, Unary o2 x2 => bool_decide (o1 = o2) && cond_eqb x1 x2
  | Binary o1 l1 r1, Binary o2 l2 r2 => bool_decide (o1 = o2) && cond_eqb l1 l2 && cond_eqb r1 r2
  | Ternary c1 y1 n1, Ternary c2 y2 n2 => cond_eqb c1 c2 && cond_eqb y1 y2 && cond_eqb n1 n2
  | Concat i1, Concat i2 => items_eqb i1 i2
  | Replicate c1 i1, Replicate c2 i2 => cond_eqb c1 c2 && items_eqb i1 i2
  | _, _ => false
  end.

Definition is_scalar_constant (e : CondExpr) : bool :=
  match e with EConst v => (v =? 0) || (v =? 1) | _ => false end.

(** ** Text *)

(** Write an identifier with SDF escapes for its special characters. *)
Definition write_identifier_bytes (name : bytes) : bytes :=
  concat (map (fun c => if is_ascii_alphanumeric c || Ascii.eqb c "_"%char then [c] else [backslash; c]) name).
Definition write_identifier (name : string) : string := str (write_identifier_bytes (unstr name)).

(** The items with a separator between them. *)
Definition join (separator : string) (items : list string) : string :=
  match items with
  | [] => EmptyString
  | item :: rest => cat (item :: map (fun i => cat [separator; i]) rest)
  end.

Fixpoint fmt_cond (e : CondExpr) : string :=
  match e with
  | EIdent name bits =>
      cat [write_identifier name; match bits with Some b => fmt_bits b | None => "" end]
  | EConst value => dec value
  | Unary op operand => cat [unary_text op; "("; fmt_cond operand; ")"]
  | Binary op lhs rhs => cat ["("; fmt_cond lhs; " "; binary_text op; " "; fmt_cond rhs; ")"]
  | Ternary condition yes no =>
      cat ["("; fmt_cond condition; " ? "; fmt_cond yes; " : "; fmt_cond no; ")"]
  | Concat items => cat ["{"; join ", " (map fmt_cond items); "}"]
  | Replicate count items => cat ["{"; fmt_cond count; "{"; join ", " (map fmt_cond items); "}}"]
  end%string.

(** ** Identifiers *)

(** [text.parse::<uN>()] of a non-empty digit string, by the largest value. *)
Definition parse_decimal (max : Z) (digits : bytes) : option Z :=
  let v := digits_value 0 digits in if v <=? max then Some v else None.

Definition u64_max : Z := 2 ^ 64 - 1.
Definition u128_max : Z := 2 ^ 128 - 1.

(** The unescaped name and the rest of the word from its [ [ ] on. *)
Fixpoint split_name (what word : string) (bs : bytes) (name : bytes) : string + (bytes * bytes) :=
  match bs with
  | [] => inr (name, [])
  | b :: bs' =>
      if Ascii.eqb b backslash then
        match bs' with
        | [] => inl (cat [what; " "; ticked word; " ends with an escape character"]%string)
        | escaped :: bs'' => split_name what word bs'' (name ++ [escaped])
        end
      else if Ascii.eqb b "["%char then inr (name, bs)
      else if is_identifier_char b then split_name what word bs' (name ++ [b])
      else inl (cat ["the character "; ticked (str [b]); " in "; what; " "; ticked word;
                     " must be escaped with `\`"]%string)
  end.

(** [strip_prefix('[')] and then [strip_suffix(']')]. *)
Definition bit_spec_inner (spec : bytes) : option bytes :=
  match spec with
  | open :: rest =>
      if Ascii.eqb open "["%char then
        match last rest with
        | Some close => if Ascii.eqb close "]"%char then Some (removelast rest) else None
        | None => None
        end
      else None
  | [] => None
  end.

Definition bit_number (text : bytes) : option Z :=
  let digits := match text with
                | b :: rest => if Ascii.eqb b "+"%char then rest else text
                | [] => text
                end in
  match digits with
  | [] => None
  | _ => if forallb is_ascii_digit digits then parse_decimal u64_max digits else None
  end.

Definition bit_spec (inner : bytes) : option SdfBits :=
  match split_once ":"%char inner with
  | None => match bit_number inner with Some n => Some (Bit n) | None => None end
  | Some (msb, lsb) =>
      match bit_number msb, bit_number lsb with
      | Some m, Some l => Some (Range m l)
      | _, _ => None
      end
  end.

Definition split_identifier (word what : string) : string + (string * option SdfBits) :=
  match split_name what word (unstr word) [] with
  | inl message => inl message
  | inr (name, spec) =>
      match name with
      | [] => inl (cat [what; " "; ticked word; " has no name"]%string)
      | _ =>
          if Z.of_nat (length name) >? MAX_IDENTIFIER_CHARS then
            inl (cat [what; " is longer than "; dec MAX_IDENTIFIER_CHARS; " characters"]%string)
          else
            match spec with
            | [] => inr (str name, None)
            | _ =>
                let malformed := inl (cat ["the bit spec "; ticked (str spec); " of "; what; " "; ticked word;
                                      " is not `[n]` or `[m:n]` with non-negative integers"]%string) in
                match bit_spec_inner spec with
                | None => malformed
                | Some inner =>
                    match bit_spec inner with
                    | Some bits => inr (str name, Some bits)
                    | None => malformed
                    end
                end
            end
      end
  end.

(** ** Constants *)

(** The value of a digit in a radix up to 16 ([char::to_digit]). *)
Definition radix_digit (radix : Z) (b : ascii) : option Z :=
  let v := if is_ascii_digit b then digit_value b
           else if is_ascii_alphabetic b then Z.of_N (byte_N (to_lower b)) - 87
           else radix in
  if v <? radix then Some v else None.

Fixpoint radix_value (radix acc : Z) (bs : bytes) : option Z :=
  match bs with
  | [] => Some acc
  | b :: bs' =>
      match radix_digit radix b with
      | Some d => if acc * radix + d <=? u128_max then radix_value radix (acc * radix + d) bs' else None
      | None => None
      end
  end.

(** [u128::from_str_radix]: an optional plus sign, then at least a digit. *)
Definition from_str_radix (radix : Z) (bs : bytes) : option Z :=
  match bs with
  | [] => None
  | b :: rest =>
      if Ascii.eqb b "+"%char then
        match rest with [] => None | _ => radix_value radix 0 rest end
      else radix_value radix 0 bs
  end.

Definition radix_of (c : ascii) : option Z :=
  let c := to_lower c in
  if Ascii.eqb c "b"%char then Some 2
  else if Ascii.eqb c "o"%char then Some 8
  else if Ascii.eqb c "d"%char then Some 10
  else if Ascii.eqb c "h"%char then Some 16
  else None.

Definition without_underscores (bs : bytes) : bytes :=
  List.filter (fun b => negb (Ascii.eqb b "_"%char)) bs.

Definition parse_constant (text : string) : option Z :=
  match split_once "'"%char (unstr text) with
  | Some (size, rest) =>
      if negb (forallb is_ascii_digit size) then None
      else
        let rest := match rest with
                    | b :: r => if Ascii.eqb b "s"%char || Ascii.eqb b "S"%char then r else rest
                    | [] => rest
                    end in
        match rest with
        | [] => None
        | c :: chars =>
            match radix_of c with
            | None => None
            | Some radix =>
                match without_underscores chars with
                | [] => None
                | digits => from_str_radix radix digits
                end
            end
        end
  | None =>
      match without_underscores (unstr text) with
      | [] => None
      | digits => if forallb is_ascii_digit digits then parse_decimal u128_max digits else None
      end
  end.

Definition parse_scalar_constant (text : string) : option Z :=
  if existsb (String.eqb text) ["0"; "1'b0"; "1'B0"; "'b0"; "'B0"]%string then Some 0
  else if existsb (String.eqb text) ["1"; "1'b1"; "1'B1"; "'b1"; "'B1"]%string then Some 1
  else None.

(** ** The condition parser *)

Record ExprParser (L : Type) : Type := mkExprParser {
  ep_lexer : L;
  depth : Z;
  nodes : Z;
  ep_limits : SdfLimits
}.
Arguments mkExprParser {L} _ _ _ _.
Arguments ep_lexer {L} _.
Arguments depth {L} _.
Arguments nodes {L} _.
Arguments ep_limits {L} _.

Section Parsing.
Context {L : Type} `{LX : Lexing L} `{ML : Measured L}.
Abbreviation P := (M SdfError (ExprParser L)).

#[export] Instance expr_parser_measured : Measured (ExprParser L) := fun s => fuel_of (ep_lexer s).

Definition new (lexer : L) (limits : SdfLimits) : ExprParser L := mkExprParser lexer 0 0 limits.

Definition set_ep_lexer (s : ExprParser L) (l : L) : ExprParser L :=
  mkExprParser l (depth s) (nodes s) (ep_limits s).
Definition set_depth (s : ExprParser L) (d : Z) : ExprParser L :=
  mkExprParser (ep_lexer s) d (nodes s) (ep_limits s).
Definition set_nodes (s : ExprParser L) (n : Z) : ExprParser L :=
  mkExprParser (ep_lexer s) (depth s) n (ep_limits s).

(** [self.lexer.next(Mode::Expression)] and [peek]. *)
Definition next_token : P Token := zoom ep_lexer set_ep_lexer (next Expression).
Definition peek_token : P Token := zoom ep_lexer set_ep_lexer (peek Expression).

Definition count_node : P unit :=
  modify (fun s => set_nodes s (nodes s + 1)) ;;;
  let* s := get in
  if nodes s >? max_condition_nodes (ep_limits s) then
    fail (mkError (lexer_pos (ep_lexer s))
      (cat ["the condition has more than "; dec (max_condition_nodes (ep_limits s));
            " operands and operators"])%string)
  else ret tt.

Definition enter : P unit :=
  modify (fun s => set_depth s (depth s + 1)) ;;;
  let* s := get in
  if depth s >? max_condition_depth (ep_limits s) then
    fail (mkError (lexer_pos (ep_lexer s))
      (cat ["the condition nests deeper than "; dec (max_condition_depth (ep_limits s)); " levels"])%string)
  else ret tt.

Definition leave : P unit := modify (fun s => set_depth s (depth s - 1)).

Definition binary_operator (minimum : Z) : P (option BinaryOp) :=
  let* token := peek_token in
  ret match tok token with
      | Op op =>
          match binary_from_token op with
          | Some op => if precedence op >=? minimum then Some op else None
          | None => None
          end
      | _ => None
      end.

Definition close (closing : Tok) : P unit :=
  let* token := next_token in
  if decide (tok token = closing) then ret tt
  else fail (mkError (tok_pos token)
         (cat ["expected "; describe closing; " in a concatenation, found "; describe (tok token)])%string).

(** The mutually recursive functions of the parser; the first argument
    bounds the depth of the recursion. *)
Fixpoint expression (n : nat) : P CondExpr :=
  match n with
  | O => fun _ => NoFuel
  | Datatypes.S n =>
      enter ;;;
      let* condition := binary n 1 in
      let* token := peek_token in
      let* result :=
        if decide (tok token = Question) then
          next_token ;;;
          count_node ;;;
          let* yes := expression n in
          let* colon := next_token in
          if decide (tok colon = Colon) then
            let* no := expression n in
            ret (Ternary condition yes no)
          else
            fail (mkError (tok_pos colon)
              (cat ["expected `:` of a conditional operator, found "; describe (tok colon)])%string)
        else ret condition in
      leave ;;;
      ret result
  end

with binary (n : nat) (minimum : Z) : P CondExpr :=
  match n with
  | O => fun _ => NoFuel
  | Datatypes.S n =>
      let* lhs := unary n in
      loop (fun lhs =>
        let* o := binary_operator minimum in
        match o with
        | None => break lhs
        | Some op =>
            next_token ;;;
            count_node ;;;
            enter ;;;
            let* rhs := binary n (precedence op + 1) in
            leave ;;;
            continue (Binary op lhs rhs)
        end) lhs
  end

with unary (n : nat) : P CondExpr :=
  match n with
  | O => fun _ => NoFuel
  | Datatypes.S n =>
      let* token := next_token in
      count_node ;;;
      match tok token with
      | Op op =>
          match unary_from_token op with
          | None => fail (mkError (tok_pos token) (cat [ticked op; " is not a unary operator"])%string)
          | Some op =>
              enter ;;;
              let* operand := unary n in
              leave ;;;
              ret (Unary op operand)
          end
      | LParen =>
          let* inner := expression n in
          let* closing := next_token in
          if decide (tok closing = RParen) then ret inner
          else
            fail (mkError (tok_pos closing)
              (cat ["expected `)` closing the parenthesized condition, found ";
                    describe (tok closing)])%string)
      | LBrace => concatenation n
      | Ident word =>
          match split_identifier word "the identifier" with
          | inl message => fail (mkError (tok_pos token) message)
          | inr (name, bits) => ret (EIdent name bits)
          end
      | Const text =>
          match parse_constant text with
          | Some v => ret (EConst v)
          | None => fail (mkError (tok_pos token) (cat [ticked text; " is not a constant"])%string)
          end
      | other =>
          fail (mkError (tok_pos token) (cat ["expected a condition operand, found "; describe other])%string)
      end
  end

with concatenation (n : nat) : P CondExpr :=
  match n with
  | O => fun _ => NoFuel
  | Datatypes.S n =>
      enter ;;;
      let* first := expression n in
      let* token := peek_token in
      let* result :=
        if decide (tok token = LBrace) then
          next_token ;;;
          let* items := items_to n RBrace in
          ret (Replicate first items)
        else
          let* token := peek_token in
          if decide (tok token = Comma) then
            next_token ;;;
            let* items := items_to n RBrace in
            ret (Concat (first :: items))
          else
            close RBrace ;;;
            ret (Concat [first]) in
      match result with
      | Replicate _ _ => close RBrace
      | _ => ret tt
      end ;;;
      leave ;;;
      ret result
  end

with items_to (n : nat) (closing : Tok) : P (list CondExpr) :=
  match n with
  | O => fun _ => NoFuel
  | Datatypes.S n =>
      let* first := expression n in
      let* items :=
        loop (fun items =>
          let* token := peek_token in
          if decide (tok token = Comma) then
            next_token ;;;
            let* item := expression n in
            continue (items ++ [item])
          else break items) [first] in
      close closing ;;;
      ret items
  end.

(** Enough for any input: at most four calls between two tokens. *)
Definition expr_fuel (s : ExprParser L) : nat := (4 * fuel_of s + 4)%nat.
Definition run_expression : P CondExpr := fun s => expression (expr_fuel s) s.

(** The rest of a timing check condition after its node. *)
Definition node_condition (inversion : option UnaryOp) (node : CondExpr) : P CondExpr :=
  match inversion with
  | Some op => ret (Unary op node)
  | None =>
      let* token := peek_token in
      let op := match tok token with
                | Op op =>
                    match binary_from_token op with
                    | Some op => if is_equality op then Some op else None
                    | None => None
                    end
                | _ => None
                end in
      match op with
      | None => ret node
      | Some op =>
          next_token ;;;
          let* constant := next_token in
          let value := match tok constant with
                       | Const text => parse_scalar_constant text
                       | _ => None
                       end in
          match value with
          | None =>
              fail (mkError (tok_pos constant)
                (cat ["expected a scalar constant (0, 1, 1'b0, 1'b1, 'b0 or 'b1), found ";
                      describe (tok constant)])%string)
          | Some value => ret (Binary op node (EConst value))
          end
      end
  end.

Definition timing_check_condition : P CondExpr :=
  let* first := next_token in
  let inversion :=
    match tok first with
    | Op op => if String.eqb op "!" then Some Not else if String.eqb op "~" then Some BitNot else None
    | _ => None
    end in
  let* node_token := match inversion with Some _ => next_token | None => ret first end in
  match tok node_token with
  | Ident word =>
      match split_identifier word "the timing check condition node" with
      | inl message => fail (mkError (tok_pos node_token) message)
      | inr (_, Some (Range _ _)) =>
          fail (mkError (tok_pos node_token)
            (cat ["the timing check condition node "; ticked word; " must be scalar, not a bus"])%string)
      | inr (name, bits) =>
          node_condition inversion (EIdent name bits)
      end
  | other =>
      fail (mkError (tok_pos node_token)
        (cat ["expected the scalar port or net of a timing check condition, found "; describe other])%string)
  end.

End Parsing.

(** ** HDL conditions *)

(** [char::is_whitespace] of an ASCII character. *)
Definition is_whitespace (b : ascii) : bool :=
  ((9 <=? byte_N b)%N && (byte_N b <=? 13)%N) || Ascii.eqb b " "%char.

(** Verilog escaped identifiers become SDF escapes, and a dollar sign inside an identifier is
    escaped. [escaped] is the inner loop's state: inside an escaped
    identifier. The text is ASCII. *)
Fixpoint convert_hdl (previous : ascii) (escaped : bool) (text : bytes) : bytes :=
  match text with
  | [] => []
  | c :: text' =>
      if escaped && negb (is_whitespace c) then
        (if negb (is_ascii_alphanumeric c || Ascii.eqb c "_"%char) then [backslash; c] else [c])
        ++ convert_hdl previous true text'
      else if Ascii.eqb c "$"%char && (is_ascii_alphanumeric previous || Ascii.eqb previous "_"%char) then
        [backslash; "$"%char] ++ convert_hdl previous false text'
      else if Ascii.eqb c backslash then convert_hdl c true text'
      else c :: convert_hdl c false text'
  end.

Definition parse_hdl_condition (text : string) : option CondExpr :=
  let converted := convert_hdl " "%char false (unstr text) in
  let limits := default_limits in
  let lexer := Stream.new (mkInput (match converted with [] => [] | _ => [converted] end) None) limits in
  match run_expression (new lexer limits) with
  | Done (expression, s) =>
      match next Expression (ep_lexer s) with
      | Done (token, _) => if decide (tok token = Eof) then Some expression else None
      | _ => None
      end
  | _ => None
  end.
