(* ===== verification/ExprFacts.v ===== *)
(** * Condition parsing is total and bounded

    For any two lexers that return the same tokens ([LexSim]) the condition
    parser returns the same tree or the same error, terminates with the fuel
    [expr_fuel], leaves its depth counter as it found it, and counts at least
    the nodes of the tree it returns. *)

From Stdlib Require Import ZArith Lia Ascii String.
From stdpp Require Import base list strings.
From S2P Require Import Prelude Common Lexer Sim LexerFacts Expr.
Open Scope Z_scope.
Open Scope list_scope.

(** ** Well-formed trees *)

Definition wf_bits (b : SdfBits) : bool :=
  let '(msb, lsb) := bounds b in
  (0 <=? msb) && (msb <=? u64_max) && (0 <=? lsb) && (lsb <=? u64_max).

Definition wf_name (name : string) : bool :=
  negb (String.eqb name "") && (Z.of_nat (length (unstr name)) <=? MAX_IDENTIFIER_CHARS).

Definition wf_opt_bits (bits : option SdfBits) : bool :=
  match bits with Some b => wf_bits b | None => true end.

Fixpoint wf_cond (e : CondExpr) : bool :=
  match e with
  | EIdent name bits => wf_name name && wf_opt_bits bits
  | EConst v => (0 <=? v) && (v <=? u128_max)
  | Unary _ x => wf_cond x
  | Binary _ x y => wf_cond x && wf_cond y
  | Ternary c y n => wf_cond c && wf_cond y && wf_cond n
  | Concat items => negb (Nat.eqb (length items) 0) && forallb wf_cond items
  | Replicate c items => wf_cond c && negb (Nat.eqb (length items) 0) && forallb wf_cond items
  end.

(** Operands and operators of a tree. *)
Fixpoint size (e : CondExpr) : Z :=
  match e with
  | EIdent _ _ | EConst _ => 1
  | Unary _ x => 1 + size x
  | Binary _ x y => 1 + size x + size y
  | Ternary c y n => 1 + size c + size y + size n
  | Concat items => 1 + foldr (fun i acc => size i + acc) 0 items
  | Replicate c items => 1 + size c + foldr (fun i acc => size i + acc) 0 items
  end.

Definition sizes (items : list CondExpr) : Z := foldr (fun i acc => size i + acc) 0 items.

Lemma sizes_app xs ys : sizes (xs ++ ys) = sizes xs + sizes ys.
Proof. unfold sizes. induction xs; cbn; [done | lia]. Qed.

(** ** Identifiers and constants *)

Lemma parse_decimal_range max ds v :
  forallb is_ascii_digit ds = true -> parse_decimal max ds = Some v -> 0 <= v <= max.
Proof.
  unfold parse_decimal. intros D. case_match eqn:E; [| done]. intros [= <-].
  apply Z.leb_le in E. split; [| done]. apply digits_value_bounds.
  by apply List.Forall_forall, List.forallb_forall.
Qed.

Lemma bit_number_range text v : bit_number text = Some v -> 0 <= v <= u64_max.
Proof.
  unfold bit_number. intros H. set (ds := match text with [] => text | _ => _ end) in H.
  destruct ds as [| d ds]; [done |]. destruct (forallb _ _) eqn:F; [| done].
  by eapply parse_decimal_range.
Qed.

Lemma bit_spec_wf inner b : bit_spec inner = Some b -> wf_bits b = true.
Proof.
  unfold bit_spec, wf_bits. intros H.
  destruct (split_once _ _) as [[m l] |]; repeat case_match; simplify_eq;
    repeat match goal with H : bit_number _ = Some _ |- _ => apply bit_number_range in H end;
    cbn in *; simplify_eq; rewrite !andb_true_iff, !Z.leb_le; lia.
Qed.

Lemma split_identifier_wf word what name bits :
  split_identifier word what = inr (name, bits) -> wf_name name = true /\ wf_opt_bits bits = true.
Proof.
  unfold split_identifier. intros H.
  destruct (split_name _ _ _ _) as [| [nm spec]]; [done |].
  destruct nm as [| c nm]; [done |]. destruct (_ >? _) eqn:L; [done |].
  assert (W : wf_name (str (c :: nm)) = true).
  { unfold wf_name. rewrite unstr_str. cbn [str string_of_list_ascii String.eqb negb andb].
    apply Z.leb_le. rewrite Z.gtb_ltb in L. by apply Z.ltb_ge in L. }
  destruct spec as [| s spec]; [by injection H as <- <- |].
  destruct (bit_spec_inner _) as [inner |]; [| done].
  destruct (bit_spec inner) as [b |] eqn:B; [| done]. injection H as <- <-.
  split; [done |]. by eapply bit_spec_wf.
Qed.

Lemma radix_digit_nonneg radix b d : 0 <= radix -> radix_digit radix b = Some d -> 0 <= d.
Proof.
  unfold radix_digit. intros R. case_match eqn:E; [| done]. intros [= <-].
  destruct (is_ascii_digit b) eqn:D; [by apply is_ascii_digit_spec in D; lia |].
  destruct (is_ascii_alphabetic b) eqn:A; [| done].
  unfold is_ascii_alphabetic in A. apply orb_true_iff in A.
  assert (B : (97 <= byte_N (to_lower b))%N); [| lia].
  unfold to_lower. destruct (is_ascii_upper b) eqn:U.
  - unfold is_ascii_upper in U. apply andb_true_iff in U as [U1 U2].
    apply N.leb_le in U1, U2. unfold byte_N at 1. rewrite N_ascii_embedding by lia. lia.
  - destruct A as [A | A]; [congruence |]. unfold is_ascii_lower in A.
    apply andb_true_iff in A as [A1 A2]. apply N.leb_le in A1. done.
Qed.

Lemma radix_value_range radix bs acc v :
  0 <= radix -> 0 <= acc <= u128_max -> radix_value radix acc bs = Some v -> 0 <= v <= u128_max.
Proof.
  intros R. revert acc. induction bs as [| b bs IH]; intros acc A; cbn [radix_value]; [by intros [= <-] |].
  destruct (radix_digit radix b) as [d |] eqn:D; [| done]. apply radix_digit_nonneg in D; [| done].
  destruct (Z.leb_spec (acc * radix + d) u128_max) as [L | L]; [| done].
  apply IH. nia.
Qed.

Lemma parse_constant_range text v : parse_constant text = Some v -> 0 <= v <= u128_max.
Proof.
  unfold parse_constant. intros H.
  destruct (split_once _ _) as [[size rest] |].
  - destruct (negb _); [done |]. set (r := match rest with [] => rest | _ => _ end) in H.
    destruct r as [| c chars]; [done |]. destruct (radix_of c) as [radix |] eqn:Rx; [| done].
    assert (0 <= radix) by (unfold radix_of in Rx; repeat case_match; simplify_eq; lia).
    destruct (without_underscores chars) as [| d ds]; [done |]. unfold from_str_radix in H.
    assert (0 <= 0 <= u128_max) by (unfold u128_max; lia).
    destruct (Ascii.eqb d "+"%char); [destruct ds; [done |] |]; by eapply radix_value_range in H.
  - destruct (without_underscores _) as [| d ds]; [done |]. destruct (forallb _ _) eqn:F; [| done].
    by eapply parse_decimal_range.
Qed.

Lemma parse_scalar_constant_range text v : parse_scalar_constant text = Some v -> v = 0 \/ v = 1.
Proof. unfold parse_scalar_constant. intros H. repeat case_match; simplify_eq; auto. Qed.

(** ** The parser over two lexers *)

Section Relation.
Context {L1 L2 : Type} `{X1 : Lexing L1} `{X2 : Lexing L2} `{M1 : Measured L1} `{M2 : Measured L2}.
Context (escape : SdfError -> Prop) (R : L1 -> L2 -> Prop) `{LS : !LexSim escape R}.
Abbreviation orel' := (orel escape).

Record erel (s1 : ExprParser L1) (s2 : ExprParser L2) : Prop := mkErel {
  er_lexer : R (ep_lexer s1) (ep_lexer s2);
  er_depth : depth s1 = depth s2;
  er_nodes : nodes s1 = nodes s2;
  er_limits : ep_limits s1 = ep_limits s2
}.

Lemma erel_fuel s1 s2 : erel s1 s2 -> fuel_of s1 = fuel_of s2.
Proof. intros [H _ _ _]. by apply (sim_fuel (LexSim := LS)). Qed.

(** The counters of [s] and [t] agree. *)
Definition same (s t : ExprParser L2) : Prop :=
  depth t = depth s /\ nodes t = nodes s /\ ep_limits t = ep_limits s.

Lemma next_token_sim s1 s2 :
  erel s1 s2 ->
  orel' (fun t t1 t2 => erel t1 t2 /\ same s2 t2 /\ (fuel_of t2 <= fuel_of s2)%nat
           /\ (tok t <> Eof -> (fuel_of t2 < fuel_of s2)%nat)
           /\ forall t0, peeked (ep_lexer s2) = Some t0 -> usable t0 Expression = true -> t = t0)
    (next_token s1) (next_token s2).
Proof.
  intros [Rl Rd Rn Ri]. eapply orel_zoom; [by apply (sim_next (LexSim := LS)) |].
  intros t l1 l2 (R' & F & Fs & Pk). split; [by constructor |]. by split_and!.
Qed.

Lemma peek_token_sim s1 s2 :
  erel s1 s2 ->
  orel' (fun t t1 t2 => erel t1 t2 /\ same s2 t2 /\ (fuel_of t2 <= fuel_of s2)%nat
           /\ peeked (ep_lexer t2) = Some t /\ usable t Expression = true)
    (peek_token s1) (peek_token s2).
Proof.
  intros [Rl Rd Rn Ri]. eapply orel_zoom; [by apply (sim_peek (LexSim := LS)) |].
  intros t l1 l2 (R' & F & Pk & U). split; [by constructor |]. by split_and!.
Qed.

Lemma count_node_sim s1 s2 :
  erel s1 s2 ->
  orel' (fun _ t1 t2 => erel t1 t2 /\ fuel_of t2 = fuel_of s2 /\ ep_lexer t2 = ep_lexer s2
           /\ depth t2 = depth s2 /\ ep_limits t2 = ep_limits s2
           /\ nodes t2 = nodes s2 + 1 /\ nodes t2 <= max_condition_nodes (ep_limits s2))
    (count_node s1) (count_node s2).
Proof.
  intros [Rl Rd Rn Ri]. unfold count_node, bind, modify, get. cbn. rewrite Rn, Ri.
  destruct (Z.gtb_spec (nodes s2 + 1) (max_condition_nodes (ep_limits s2))).
  - cbn. rewrite (sim_pos (LexSim := LS) _ _ Rl). auto.
  - cbn. split; [done |]. split; [constructor; cbn; auto; by rewrite Rn |]. by split_and!.
Qed.

Lemma enter_sim s1 s2 :
  erel s1 s2 ->
  orel' (fun _ t1 t2 => erel t1 t2 /\ fuel_of t2 = fuel_of s2 /\ nodes t2 = nodes s2
           /\ ep_limits t2 = ep_limits s2 /\ depth t2 = depth s2 + 1
           /\ depth t2 <= max_condition_depth (ep_limits s2))
    (enter s1) (enter s2).
Proof.
  intros [Rl Rd Rn Ri]. unfold enter, bind, modify, get. cbn. rewrite Rd, Ri.
  destruct (Z.gtb_spec (depth s2 + 1) (max_condition_depth (ep_limits s2))).
  - cbn. rewrite (sim_pos (LexSim := LS) _ _ Rl). auto.
  - cbn. split; [done |]. split; [constructor; cbn; auto; by rewrite Rd |]. by split_and!.
Qed.

Lemma leave_sim s1 s2 :
  erel s1 s2 ->
  orel' (fun _ t1 t2 => erel t1 t2 /\ fuel_of t2 = fuel_of s2 /\ nodes t2 = nodes s2
           /\ ep_limits t2 = ep_limits s2 /\ depth t2 = depth s2 - 1)
    (leave s1) (leave s2).
Proof.
  intros [Rl Rd Rn Ri]. apply orel_modify. split; [constructor; cbn; auto; by rewrite Rd |]. by split_and!.
Qed.

Lemma close_sim closing s1 s2 :
  erel s1 s2 -> closing <> Eof ->
  orel' (fun _ t1 t2 => erel t1 t2 /\ same s2 t2 /\ (fuel_of t2 < fuel_of s2)%nat)
    (close closing s1) (close closing s2).
Proof.
  intros E Nc. unfold close. eapply orel_bind; [by apply next_token_sim |].
  intros t t1 t2 (E' & Sm & F & Fs & _). destruct (decide _) as [<- | _]; [| apply orel_fail].
  apply orel_ret. auto.
Qed.

Lemma binary_operator_sim minimum s1 s2 :
  erel s1 s2 ->
  orel' (fun _ t1 t2 => erel t1 t2 /\ same s2 t2 /\ (fuel_of t2 <= fuel_of s2)%nat)
    (binary_operator minimum s1) (binary_operator minimum s2).
Proof.
  intros E. unfold binary_operator. eapply orel_bind; [by apply peek_token_sim |].
  intros t t1 t2 (E' & Sm & F & _). by apply orel_ret.
Qed.

(** What parsing a value [a] from [s] promises. *)
Definition parsed {A} (weight : A -> Z) (ok : A -> bool) (s : ExprParser L2) (a : A)
  (t1 : ExprParser L1) (t2 : ExprParser L2) : Prop :=
  erel t1 t2 /\ (fuel_of t2 < fuel_of s)%nat /\ depth t2 = depth s /\ ep_limits t2 = ep_limits s
  /\ nodes s + weight a <= nodes t2 <= max_condition_nodes (ep_limits s) /\ ok a = true.

Definition wf_items (items : list CondExpr) : bool :=
  negb (Nat.eqb (length items) 0) && forallb wf_cond items.

Definition expression_ok (n : nat) : Prop := forall s1 s2,
  erel s1 s2 -> (4 * fuel_of s2 + 3 <= n)%nat ->
  orel' (parsed size wf_cond s2) (expression n s1) (expression n s2).
Definition binary_ok (n : nat) : Prop := forall minimum s1 s2,
  erel s1 s2 -> (4 * fuel_of s2 + 2 <= n)%nat ->
  orel' (parsed size wf_cond s2) (binary n minimum s1) (binary n minimum s2).
Definition unary_ok (n : nat) : Prop := forall s1 s2,
  erel s1 s2 -> (4 * fuel_of s2 + 1 <= n)%nat ->
  orel' (parsed size wf_cond s2) (unary n s1) (unary n s2).
Definition concatenation_ok (n : nat) : Prop := forall s1 s2,
  erel s1 s2 -> (4 * fuel_of s2 + 4 <= n)%nat ->
  orel' (parsed (fun e => size e - 1) wf_cond s2) (concatenation n s1) (concatenation n s2).
Definition items_ok (n : nat) : Prop := forall s1 s2,
  erel s1 s2 -> (4 * fuel_of s2 + 4 <= n)%nat ->
  orel' (parsed sizes wf_items s2) (items_to n RBrace s1) (items_to n RBrace s2).

(** Close a [parsed] goal from the facts about the intermediate states. *)
Ltac parsed_tac :=
  try unfold parsed;
  repeat match goal with
    | H : same _ _ |- _ => destruct H as (? & ? & ?)
    | H : parsed _ _ _ _ _ _ |- _ => destruct H as (? & ? & ? & ? & [? ?] & ?)
    end;
  repeat match goal with
    | H : ep_limits _ = _ |- _ => rewrite H in *; clear H
    end;
  first [ lia | split; [done |]; cbn [size sizes foldr] in *; split_and!; try done; try lia ].

Lemma unary_step n : expression_ok n -> unary_ok n -> concatenation_ok n -> unary_ok (Datatypes.S n).
Proof.
  intros He Hu Hc s1 s2 E F. cbn [unary].
  eapply orel_bind; [by apply next_token_sim |]. intros t t1 t2 (E' & Sm & F2 & Fs & _).
  eapply orel_bind; [by apply count_node_sim |].
  intros _ u1 u2 (Eu & Fu & _ & Du & Lu & Nu & Mu).
  destruct (tok t) eqn:T; try apply orel_fail; try specialize (Fs ltac:(done)).
  - eapply orel_bind; [apply He; [done | lia] |]. intros inner v1 v2 Pv.
    destruct (Pv) as (Ev & _).
    eapply orel_bind; [by apply next_token_sim |]. intros c w1 w2 (Ew & Sw & Fw & _).
    destruct (decide _); [| apply orel_fail]. apply orel_ret. parsed_tac.
  - destruct (split_identifier _ _) as [| [name bits]] eqn:Si; [apply orel_fail |].
    apply split_identifier_wf in Si as [W1 W2]. apply orel_ret. parsed_tac. cbn. by rewrite W1, W2.
  - destruct (parse_constant _) as [v |] eqn:Pc; [| apply orel_fail].
    apply parse_constant_range in Pc. apply orel_ret. parsed_tac. cbn.
    by rewrite andb_true_iff, !Z.leb_le.
  - destruct (unary_from_token _) as [o |]; [| apply orel_fail].
    eapply orel_bind; [by apply enter_sim |]. intros _ v1 v2 (Ev & Fv & Nv & Lv & Dv & _).
    eapply orel_bind; [apply Hu; [done | lia] |]. intros x w1 w2 Pw. destruct (Pw) as (Ew & _).
    eapply orel_bind; [by apply leave_sim |]. intros _ x1 x2 (Ex & Fx & Nx & Lx & Dx).
    apply orel_ret. parsed_tac.
  - eapply orel_weaken; [| apply Hc; [done | lia]]. intros e v1 v2 Pv. parsed_tac.
Qed.

Lemma binary_step n : unary_ok n -> binary_ok n -> binary_ok (Datatypes.S n).
Proof.
  intros Hu Hb minimum s1 s2 E F. cbn [binary].
  eapply orel_bind; [apply Hu; [done | lia] |]. intros x t1 t2 Pt.
  apply (orel_loop _ (fun e v1 v2 => parsed size wf_cond s2 e v1 v2)).
  - by apply erel_fuel, Pt.
  - exact Pt.
  - clear x t1 t2 Pt. intros e t1 t2 Pt. destruct (Pt) as (Et & Ft & _).
    eapply orel_bind; [by apply binary_operator_sim |]. intros [op |] u1 u2 (Eu & Su & Fu).
    2: { apply orel_ret. parsed_tac. }
    eapply orel_bind; [by apply next_token_sim |]. intros _ v1 v2 (Ev & Sv & Fv & _).
    eapply orel_bind; [by apply count_node_sim |]. intros _ w1 w2 (Ew & Fw & _ & Dw & Lw & Nw & _).
    eapply orel_bind; [by apply enter_sim |]. intros _ x1 x2 (Ex & Fx & Nx & Lx & Dx & _).
    eapply orel_bind; [apply Hb; [done | lia] |]. intros r y1 y2 Py. destruct (Py) as (Ey & _).
    eapply orel_bind; [by apply leave_sim |]. intros _ z1 z2 (Ez & Fz & Nz & Lz & Dz).
    apply orel_ret. split; parsed_tac. cbn. by rewrite andb_true_iff.
Qed.

Lemma expression_step n : expression_ok n -> binary_ok n -> expression_ok (Datatypes.S n).
Proof.
  intros He Hb s1 s2 E F. cbn [expression].
  eapply orel_bind; [by apply enter_sim |]. intros _ t1 t2 (Et & Ft & Nt & Lt & Dt & _).
  eapply orel_bind; [apply Hb; [done | lia] |]. intros c u1 u2 Pu. destruct (Pu) as (Eu & Fu & _).
  eapply orel_bind; [by apply peek_token_sim |]. intros t v1 v2 (Ev & Sv & Fv & _).
  eapply (orel_bind _ (fun e w1 w2 => parsed size wf_cond t2 e w1 w2)).
  - destruct (decide _) as [T | _]; [| apply orel_ret; parsed_tac].
    eapply orel_bind; [by apply next_token_sim |]. intros _ w1 w2 (Ew & Sw & Fw & _).
    eapply orel_bind; [by apply count_node_sim |]. intros _ x1 x2 (Ex & Fx & _ & Dx & Lx & Nx & _).
    eapply orel_bind; [apply He; [done | lia] |]. intros y y1 y2 Py. destruct (Py) as (Ey & Fy & _).
    eapply orel_bind; [by apply next_token_sim |]. intros colon z1 z2 (Ez & Sz & Fz & _).
    destruct (decide _); [| apply orel_fail].
    eapply orel_bind; [apply He; [done | lia] |]. intros no a1 a2 Pa.
    apply orel_ret. parsed_tac. cbn. by rewrite !andb_true_iff.
  - intros e w1 w2 Pw. destruct (Pw) as (Ew & _).
    eapply orel_bind; [by apply leave_sim |]. intros _ z1 z2 (Ez & Fz & Nz & Lz & Dz).
    apply orel_ret. parsed_tac.
Qed.

Lemma items_step n : expression_ok n -> items_ok (Datatypes.S n).
Proof.
  intros He s1 s2 E F. cbn [items_to].
  eapply orel_bind; [apply He; [done | lia] |]. intros x t1 t2 Pt.
  eapply (orel_bind _ (fun e v1 v2 => parsed sizes wf_items s2 e v1 v2)).
  - apply (orel_loop _ (fun e v1 v2 => parsed sizes wf_items s2 e v1 v2)).
    + by apply erel_fuel, Pt.
    + parsed_tac. unfold wf_items. cbn. by rewrite andb_true_r.
    + clear x t1 t2 Pt. intros e t1 t2 Pt. destruct (Pt) as (Et & Ft & _).
      eapply orel_bind; [by apply peek_token_sim |]. intros t v1 v2 (Ev & Sv & Fv & _).
      destruct (decide _); [| apply orel_ret; parsed_tac].
      eapply orel_bind; [by apply next_token_sim |]. intros _ w1 w2 (Ew & Sw & Fw & _).
      eapply orel_bind; [apply He; [done | lia] |]. intros y y1 y2 Py.
      apply orel_ret. split; parsed_tac.
      * rewrite sizes_app. cbn. lia.
      * unfold wf_items in *. rewrite andb_true_iff, negb_true_iff, Nat.eqb_neq in *.
        rewrite length_app, forallb_app. cbn. split; [lia |]. rewrite !andb_true_iff. tauto.
  - intros e v1 v2 Pv. destruct (Pv) as (Ev & _).
    eapply orel_bind; [by apply close_sim |]. intros _ w1 w2 (Ew & Sw & Fw).
    apply orel_ret. parsed_tac.
Qed.

Lemma concatenation_step n : expression_ok n -> items_ok n -> concatenation_ok (Datatypes.S n).
Proof.
  intros He Hi s1 s2 E F. cbn [concatenation].
  eapply orel_bind; [by apply enter_sim |]. intros _ t1 t2 (Et & Ft & Nt & Lt & Dt & _).
  eapply orel_bind; [apply He; [done | lia] |]. intros c u1 u2 Pu. destruct (Pu) as (Eu & Fu & _).
  eapply orel_bind; [by apply peek_token_sim |]. intros t v1 v2 (Ev & Sv & Fv & _).
  eapply (orel_bind _ (fun e w1 w2 => parsed (fun e => size e - 1) wf_cond t2 e w1 w2)).
  - destruct (decide _) as [T | _].
    { eapply orel_bind; [by apply next_token_sim |]. intros _ w1 w2 (Ew & Sw & Fw & _).
      eapply orel_bind; [apply Hi; [done | lia] |]. intros its y1 y2 Py.
      apply orel_ret. unfold sizes, wf_items in *. parsed_tac. cbn. rewrite <- andb_assoc. by rewrite andb_true_iff. }
    eapply orel_bind; [by apply peek_token_sim |]. intros t' w1 w2 (Ew & Sw & Fw & _).
    destruct (decide _) as [T | _].
    { eapply orel_bind; [by apply next_token_sim |]. intros _ x1 x2 (Ex & Sx & Fx & _).
      eapply orel_bind; [apply Hi; [done | lia] |]. intros its y1 y2 Py.
      apply orel_ret. unfold sizes, wf_items in *. parsed_tac. cbn.
      rewrite andb_true_iff in *. tauto. }
    eapply orel_bind; [by apply close_sim |]. intros _ x1 x2 (Ex & Sx & Fx).
    apply orel_ret. parsed_tac. cbn. by rewrite andb_true_r.
  - intros e w1 w2 Pw. destruct (Pw) as (Ew & _).
    eapply (orel_bind _ (fun _ x1 x2 => erel x1 x2 /\ same w2 x2 /\ (fuel_of x2 <= fuel_of w2)%nat)).
    { destruct e; try (apply orel_ret; done).
      eapply orel_weaken; [| by apply close_sim]. intros _ x1 x2 (Ex & Sx & Fx). split_and!; try done. lia. }
    intros _ x1 x2 (Ex & Sx & Fx).
    eapply orel_bind; [by apply leave_sim |]. intros _ z1 z2 (Ez & Fz & Nz & Lz & Dz).
    apply orel_ret. parsed_tac.
Qed.

Lemma parser_ok n :
  expression_ok n /\ binary_ok n /\ unary_ok n /\ concatenation_ok n /\ items_ok n.
Proof.
  induction n as [| n (He & Hb & Hu & Hc & Hi)].
  - split_and!; intros ???; lia.
  - split_and!; auto using expression_step, binary_step, unary_step, concatenation_step, items_step.
Qed.

Lemma run_expression_sim s1 s2 :
  erel s1 s2 -> orel' (parsed size wf_cond s2) (run_expression s1) (run_expression s2).
Proof.
  intros E. unfold run_expression, expr_fuel. rewrite (erel_fuel _ _ E).
  apply parser_ok; [done | lia].
Qed.

(** A timing check condition: a scalar node, its inversion, or its
    comparison with a scalar constant. *)
Definition is_node (e : CondExpr) : bool :=
  match e with EIdent _ (Some (Range _ _)) => false | EIdent _ _ => true | _ => false end.
Definition is_timing_check_condition (e : CondExpr) : bool :=
  match e with
  | Unary Not x | Unary BitNot x => is_node x
  | Binary op x c => is_equality op && is_node x && is_scalar_constant c
  | x => is_node x
  end.

Lemma node_condition_sim inv node s1 s2 :
  erel s1 s2 -> wf_cond node = true -> is_node node = true ->
  (forall o, inv = Some o -> o = Not \/ o = BitNot) ->
  orel' (fun e t1 t2 => erel t1 t2 /\ (fuel_of t2 <= fuel_of s2)%nat /\ ep_limits t2 = ep_limits s2
                        /\ wf_cond e = true /\ is_timing_check_condition e = true)
    (node_condition inv node s1) (node_condition inv node s2).
Proof.
  intros E W N Hinv. unfold node_condition.
  assert (T0 : is_timing_check_condition node = true) by (by destruct node as [? [[] |] | | | | | |]).
  destruct inv as [o |].
  { apply orel_ret. split_and!; auto. by destruct (Hinv o eq_refl) as [-> | ->]. }
  eapply orel_bind; [by apply peek_token_sim |]. intros t t1 t2 (Et & (_ & _ & Lt) & Ft & _).
  set (op := match tok t with Op _ => _ | _ => _ end).
  assert (Hop : forall o, op = Some o -> is_equality o = true).
  { unfold op. intros o. destruct (tok t); try done. by repeat case_match; intros [= <-]. }
  destruct op as [o |]; [| by apply orel_ret].
  eapply orel_bind; [by apply next_token_sim |]. intros _ u1 u2 (Eu & (_ & _ & Lu) & Fu & _).
  eapply orel_bind; [by apply next_token_sim |]. intros c v1 v2 (Ev & (_ & _ & Lv) & Fv & _).
  set (value := match tok c with Const _ => _ | _ => _ end).
  assert (Hv : forall v, value = Some v -> v = 0 \/ v = 1).
  { unfold value. intros v. destruct (tok c); try done. apply parse_scalar_constant_range. }
  destruct value as [v |]; [| apply orel_fail]. apply orel_ret.
  split_and!; [done | lia | congruence | |].
  - cbn. rewrite W. by destruct (Hv v eq_refl) as [-> | ->].
  - cbn. rewrite (Hop o eq_refl). fold (is_node node). rewrite N.
    by destruct (Hv v eq_refl) as [-> | ->].
Qed.

Lemma timing_check_condition_sim s1 s2 :
  erel s1 s2 ->
  orel' (fun e t1 t2 => erel t1 t2 /\ (fuel_of t2 < fuel_of s2)%nat /\ ep_limits t2 = ep_limits s2
                        /\ wf_cond e = true /\ is_timing_check_condition e = true)
    (timing_check_condition s1) (timing_check_condition s2).
Proof.
  intros E. unfold timing_check_condition.
  eapply orel_bind; [by apply next_token_sim |]. intros t t1 t2 (Et & St & Ft & Fs & _).
  set (inv := match tok t with Op _ => _ | _ => _ end).
  assert (Hinv : forall o, inv = Some o -> (o = Not \/ o = BitNot) /\ tok t <> Eof).
  { unfold inv. intros o. destruct (tok t); try done. repeat case_match; intros [= <-]; auto. }
  eapply (orel_bind _ (fun nt u1 u2 => erel u1 u2 /\ (fuel_of u2 <= fuel_of s2)%nat
     /\ ep_limits u2 = ep_limits s2 /\ (tok nt <> Eof -> (fuel_of u2 < fuel_of s2)%nat))).
  { destruct St as (_ & _ & Lt). destruct inv as [o |].
    - eapply orel_weaken; [| by apply next_token_sim]. intros nt u1 u2 (Eu & (_ & _ & Lu) & Fu & _).
      destruct (Hinv o eq_refl) as [_ Ne]. apply Fs in Ne. split_and!; try done; [lia | congruence | lia].
    - by apply orel_ret. }
  intros nt u1 u2 (Eu & Fu & Lu & Fsu).
  destruct (tok nt) eqn:T; try apply orel_fail. specialize (Fsu ltac:(done)).
  destruct (split_identifier _ _) as [| [name bits]] eqn:Si; [apply orel_fail |].
  apply split_identifier_wf in Si as [W1 W2].
  assert (W : wf_cond (EIdent name bits) = true) by (cbn; by rewrite W1, W2).
  assert (Hinv' : forall o, inv = Some o -> o = Not \/ o = BitNot) by (intros o Ho; by apply Hinv).
  destruct bits as [[bit | m l] |]; [| apply orel_fail |];
    (eapply orel_weaken; [| by apply node_condition_sim]; cbn beta;
     intros e v1 v2 (Ev & Fv & Lv & We & Te); split_and!; [done | lia | congruence | done | done]).
Qed.

End Relation.

(** ** Identifiers are read back *)

Lemma identifier_plain c :
  is_ascii_alphanumeric c || Ascii.eqb c "_"%char = true ->
  is_identifier_char c = true /\ Ascii.eqb c backslash = false /\ Ascii.eqb c "["%char = false.
Proof.
  intros H. split; [exact H |].
  split; apply Ascii.eqb_neq; intros ->; discriminate H.
Qed.

Lemma split_name_write what w nm rest acc :
  split_name what w (write_identifier_bytes nm ++ rest) acc = split_name what w rest (acc ++ nm).
Proof.
  unfold write_identifier_bytes. revert acc.
  induction nm as [| c nm IH]; intros acc; cbn [map concat]; [by rewrite app_nil_r |].
  rewrite <- app_assoc. destruct (_ || _) eqn:C.
  - apply identifier_plain in C as (C1 & C2 & C3). cbn [app split_name]. rewrite C2, C3, C1, IH.
    by rewrite <- app_assoc.
  - cbn [app split_name]. cbn. rewrite IH. by rewrite <- app_assoc.
Qed.

Lemma dec_nonneg n : 0 <= n -> unstr (dec n) = dec_bytes n.
Proof. intros H. unfold dec. destruct (Z.ltb_spec n 0); [lia | apply unstr_str]. Qed.

Lemma bit_number_dec n : 0 <= n <= u64_max -> bit_number (dec_bytes n) = Some n.
Proof.
  intros H. destruct (dec_bytes_spec n) as (V & D & L & _); [lia |].
  unfold bit_number. destruct (dec_bytes n) as [| b ds] eqn:E; [cbn in L; lia |].
  assert (Hb : is_ascii_digit b = true) by (by apply Forall_cons in D as [D _]).
  destruct (Ascii.eqb_spec b "+"%char) as [-> | _]; [discriminate Hb |].
  rewrite (proj2 (List.forallb_forall _ _)) by (by apply List.Forall_forall).
  unfold parse_decimal. rewrite V. destruct (Z.leb_spec n u64_max); [done | lia].
Qed.

Lemma split_once_digits c ds rest :
  Forall (fun b => is_ascii_digit b = true) ds -> is_ascii_digit c = false ->
  split_once c (ds ++ rest) =
  match split_once c rest with Some (l, r) => Some (ds ++ l, r) | None => None end.
Proof.
  intros D N. induction D as [| b ds Hb _ IH]; cbn [app split_once]; [by destruct (split_once c rest) as [[] |] |].
  destruct (Ascii.eqb_spec b c) as [-> | _]; [congruence |]. rewrite IH.
  by destruct (split_once c rest) as [[] |].
Qed.

Lemma bit_spec_inner_close inner : bit_spec_inner ("["%char :: inner ++ ["]"%char]) = Some inner.
Proof. cbn. by rewrite last_snoc, removelast_last. Qed.

Lemma fmt_bits_bytes b :
  wf_bits b = true -> exists inner, unstr (fmt_bits b) = "["%char :: inner ++ ["]"%char] /\ bit_spec inner = Some b.
Proof.
  unfold wf_bits, fmt_bits, cat. intros W.
  destruct b as [n | m l]; cbn [bounds] in W; rewrite !andb_true_iff, !Z.leb_le in W; cbn [foldr].
  - exists (dec_bytes n). rewrite !unstr_append, dec_nonneg by lia.
    split; [done |]. unfold bit_spec.
    destruct (dec_bytes_spec n) as (_ & D & _); [lia |].
    rewrite <- (app_nil_r (dec_bytes n)), split_once_digits by done. cbn [split_once].
    rewrite app_nil_r, bit_number_dec by lia. done.
  - exists (dec_bytes m ++ ":"%char :: dec_bytes l). rewrite !unstr_append, !dec_nonneg by lia. split; [cbn; by rewrite <- !app_assoc |]. unfold bit_spec.
    destruct (dec_bytes_spec m) as (_ & D & _); [lia |].
    rewrite split_once_digits by done. cbn [split_once].
    change (Ascii.eqb ":"%char ":"%char) with true. cbn iota. rewrite app_nil_r.
    rewrite !bit_number_dec by lia. done.
Qed.

(** The text of a name and a bit spec. *)
Definition ident_text (name : string) (bits : option SdfBits) : string :=
  cat [write_identifier name; match bits with Some b => fmt_bits b | None => EmptyString end].

Lemma split_ident_text what name bits :
  wf_name name = true -> wf_opt_bits bits = true ->
  split_identifier (ident_text name bits) what = inr (name, bits).
Proof.
  unfold wf_name. intros W1 W2. apply andb_true_iff in W1 as [N L].
  apply negb_true_iff, String.eqb_neq in N. apply Z.leb_le in L.
  unfold split_identifier, ident_text, cat. cbn [foldr]. set (w := (write_identifier name +:+ _)%string).
  assert (E : unstr w = write_identifier_bytes (unstr name)
              ++ unstr (match bits with Some b => fmt_bits b | None => EmptyString end)).
  { unfold w. rewrite !unstr_append. unfold write_identifier. rewrite unstr_str. cbn. by rewrite app_nil_r. }
  rewrite E, split_name_write. cbn [app].
  assert (Nn : unstr name <> []) by (intros Z; apply N; rewrite <- (str_unstr name), Z; done).
  destruct bits as [b |].
  - cbn in W2. destruct (fmt_bits_bytes b W2) as (inner & -> & B). cbn [split_name].
    change (Ascii.eqb "["%char backslash) with false. cbn iota.
    change (Ascii.eqb "["%char "["%char) with true. cbn iota.
    destruct (unstr name) as [| c nm] eqn:En; [done |]. cbn [Z.of_nat] in *.
    destruct (Z.gtb_spec (Z.of_nat (length (c :: nm))) MAX_IDENTIFIER_CHARS); [lia |].
    rewrite bit_spec_inner_close, B, <- En, str_unstr. done.
  - cbn [unstr list_ascii_of_string split_name].
    destruct (unstr name) as [| c nm] eqn:En; [done |].
    destruct (Z.gtb_spec (Z.of_nat (length (c :: nm))) MAX_IDENTIFIER_CHARS); [lia |].
    by rewrite <- En, str_unstr.
Qed.

(** ** Theorems *)

Lemma new_erel over i limits :
  buffers_ok i -> (over = false -> Z.of_nat (length (input_bytes i)) <= max_input_bytes limits) ->
  erel (lrel over) (new (Stream.new i limits) limits) (new (Flat.new (input_bytes i) (failure i) limits) limits).
Proof. intros B W. constructor; [by apply lrel_new | done ..]. Qed.

(** What a condition parser promises for a value [e] and a final state [s]. *)
Definition condition_ok (limits : SdfLimits) (o : outcome SdfError (CondExpr * ExprParser Stream.Lexer)) : Prop :=
  match o with
  | Done (e, s) => wf_cond e = true /\ size e <= max_condition_nodes limits /\ depth s = 0
  | Fail _ => True
  | Panic _ | NoFuel => False
  end.

Lemma run_expression_ok i limits :
  buffers_ok i -> condition_ok limits (run_expression (new (Stream.new i limits) limits)).
Proof.
  intros B. assert (E := new_erel true i limits B ltac:(done)).
  apply (run_expression_sim (too_large true) (lrel true)) in E.
  destruct (run_expression (new (Stream.new i limits) limits)) as [[e s] | e | |],
    (run_expression (new (Flat.new _ _ _) _)) as [[e2 s2] | e2 | |]; try done.
  destruct E as (-> & [Er Dr _ _] & _ & D & _ & [Nn Mn] & W).
  cbn in *. rewrite Dr. split_and!; [done | lia | done].
Qed.

(** Reading a condition always ends with a tree or an error, for any
    input and limits; a tree is well-formed (names of 1 to 1024 characters,
    64-bit bit specs, 128-bit constants, no empty concatenation), has at most
    [max_condition_nodes] operands and operators, and the nesting counter is
    back at zero. *)
Theorem condition_total (i : Input) (limits : SdfLimits) :
  buffers_ok i -> condition_ok limits (run_expression (new (Stream.new i limits) limits)).
Proof. apply run_expression_ok. Qed.

Lemma condition_total_witness :
  buffers_ok (mkInput [unstr "a && "; unstr "{2{b[3:0]}} == 1'b1"]%string None)
  /\ condition_ok default_limits
       (run_expression (new (Stream.new (mkInput [unstr "a && "; unstr "{2{b[3:0]}} == 1'b1"]%string None)
                          default_limits) default_limits)).
Proof. split; [repeat constructor; done |]. apply condition_total. repeat constructor; done. Defined.

(** An identifier is read back from its text: writing a name with its
    escapes and bit spec and splitting it again gives the same name, whatever
    characters it has, and the same bit spec. *)
Theorem split_identifier_roundtrip (what name : string) (bits : option SdfBits) :
  wf_name name = true -> wf_opt_bits bits = true ->
  split_identifier (fmt_cond (EIdent name bits)) what = inr (name, bits).
Proof. apply split_ident_text. Qed.

Lemma split_identifier_roundtrip_witness :
  split_identifier (fmt_cond (EIdent "a+[b]\." (Some (Range 7 0)))) "the port"
  = inr ("a+[b]\."%string, Some (Range 7 0)).
Proof. apply split_identifier_roundtrip; vm_compute; reflexivity. Defined.

(** A timing check condition is a scalar node, an inverted node, or a
    node compared with a scalar constant; reading it always ends. *)
Theorem timing_check_condition_shape (i : Input) (limits : SdfLimits) :
  buffers_ok i ->
  match timing_check_condition (new (Stream.new i limits) limits) with
  | Done (e, _) => wf_cond e = true /\ is_timing_check_condition e = true
  | Fail _ => True
  | Panic _ | NoFuel => False
  end.
Proof.
  intros B. assert (E := new_erel true i limits B ltac:(done)).
  apply (timing_check_condition_sim (too_large true) (lrel true)) in E.
  destruct (timing_check_condition (new (Stream.new i limits) limits)) as [[e s] | e | |],
    (timing_check_condition (new (Flat.new _ _ _) _)) as [[e2 s2] | e2 | |]; try done.
  destruct E as (-> & _ & _ & _ & W & T). done.
Qed.

Lemma timing_check_condition_shape_witness :
  buffers_ok (mkInput [unstr "clk"; unstr "en == 1'B0"]%string None)
  /\ match timing_check_condition
             (new (Stream.new (mkInput [unstr "clk"; unstr "en == 1'B0"]%string None) default_limits)
                default_limits) with
     | Done (e, _) => wf_cond e = true /\ is_timing_check_condition e = true
     | Fail _ => True
     | Panic _ | NoFuel => False
     end.
Proof. split; [repeat constructor; done |]. apply timing_check_condition_shape. repeat constructor; done. Defined.
