(* ===== verification/Syntax.v ===== *)
(** * Typed SDF records (src/sim/sdf/syntax.rs, and [SdfWarning] of plan.rs) *)

From Stdlib Require Import ZArith Ascii String.
From stdpp Require Import base list strings.
From S2P Require Import Prelude Common Number Expr.
Open Scope Z_scope.
Open Scope list_scope.

Record SdfWarning : Type := mkWarning { warn_pos : SdfPos; warn_message : string }.

Definition fmt_warning (w : SdfWarning) : string :=
  cat [fmt_pos (warn_pos w); ": "; warn_message w]%string.

Inductive SdfVersion : Type := V2_1 | V3_0.

#[export] Instance SdfVersion_eq_dec : EqDecision SdfVersion.
Proof. solve_decision. Defined.

Definition fmt_version (v : SdfVersion) : string :=
  match v with V2_1 => "2.1" | V3_0 => "3.0" end%string.

Inductive SdfTimeUnit : Type := Us | Ns | Ps.

Record SdfTimescale : Type := mkTimescale { multiplier : Z; unit_of : SdfTimeUnit }.

Definition default_timescale : SdfTimescale := mkTimescale 1 Ns.

(** [u64] product. *)
Definition femtoseconds (t : SdfTimescale) : Z :=
  let unit := match unit_of t with Us => 1000000000 | Ns => 1000000 | Ps => 1000 end in
  wrap_u 64 (multiplier t * unit).

Definition fmt_timescale (t : SdfTimescale) : string :=
  cat [dec (multiplier t); match unit_of t with Us => "us" | Ns => "ns" | Ps => "ps" end]%string.

Record SdfHeader : Type := mkHeader {
  version : SdfVersion;
  version_text : string;
  design : option string;
  date : option string;
  vendor : option string;
  program : option string;
  program_version : option string;
  divider : ascii;
  voltage : option SdfValue;
  process : option string;
  temperature : option SdfValue;
  timescale_of : SdfTimescale
}.

Record SdfIdent : Type := mkIdent { name : string; bits : option SdfBits }.

Definition fmt_ident (i : SdfIdent) : string :=
  cat [write_identifier (name i); match bits i with Some b => fmt_bits b | None => "" end]%string.

Record SdfPortRef : Type := mkPortRef { ref_pos : SdfPos; path : list SdfIdent; port : SdfIdent }.

Definition fmt_port_ref (p : SdfPortRef) : string :=
  cat (map (fun component => cat [fmt_ident component; "."%string]) (path p) ++ [fmt_ident (port p)]).

Inductive SdfEdge : Type := Posedge | Negedge | E01 | E10 | E0z | Ez1 | E1z | Ez0.

#[export] Instance SdfEdge_eq_dec : EqDecision SdfEdge.
Proof. solve_decision. Defined.

Definition edge_from_word (word : string) : option SdfEdge :=
  table_lookup
    [("posedge", Posedge); ("negedge", Negedge); ("01", E01); ("10", E10); ("0z", E0z);
     ("z1", Ez1); ("1z", E1z); ("z0", Ez0)]%string (to_ascii_lowercase word).

Definition edge_text (e : SdfEdge) : string :=
  match e with
  | Posedge => "posedge" | Negedge => "negedge" | E01 => "01" | E10 => "10" | E0z => "0z"
  | Ez1 => "z1" | E1z => "1z" | Ez0 => "z0"
  end%string.

Record SdfPortSpec : Type := mkPortSpec { edge : option SdfEdge; spec_port : SdfPortRef }.

Definition fmt_port_spec (s : SdfPortSpec) : string :=
  match edge s with
  | Some e => cat ["("; edge_text e; " "; fmt_port_ref (spec_port s); ")"]
  | None => fmt_port_ref (spec_port s)
  end%string.

Inductive SdfCellInstance : Type :=
| Path (components : list SdfIdent)
| Wildcard.

Record SdfPulseLimits : Type := mkPulseLimits { reject : option SdfValue; error : option SdfValue }.

Inductive SdfPulse : Type :=
| Unspecified
| Limits (limits : SdfPulseLimits).

Record SdfDelval : Type := mkDelval { delay : option SdfValue; pulse : SdfPulse }.

Definition fmt_delval (d : SdfDelval) : string :=
  match pulse d with
  | Unspecified => fmt_optional (delay d)
  | Limits limits =>
      cat ["("; fmt_optional (delay d); " "; fmt_optional (reject limits); " ";
           fmt_optional (error limits); ")"]
  end%string.

(** [SdfDelvalList { values }]. *)
Definition SdfDelvalList : Type := list SdfDelval.

Definition fmt_delval_list (values : SdfDelvalList) : string := join " " (map fmt_delval values).

Record SdfCondition : Type := mkCondition { label : option string; expr : CondExpr }.

Inductive SdfPathCondition : Type :=
| NoCondition
| Cond (condition : SdfCondition)
| CondElse.

Inductive SdfDelDef : Type :=
| IoPath (pos : SdfPos) (condition : SdfPathCondition) (input : SdfPortSpec) (output : SdfPortRef)
    (retain : list SdfDelvalList) (delays : SdfDelvalList)
| Port (pos : SdfPos) (port : SdfPortRef) (delays : SdfDelvalList)
| Interconnect (pos : SdfPos) (source load : SdfPortRef) (delays : SdfDelvalList)
| NetDelay (pos : SdfPos) (net : SdfPortRef) (delays : SdfDelvalList)
| Device (pos : SdfPos) (port : option SdfPortRef) (delays : SdfDelvalList).

Inductive SdfDelType : Type :=
| PathPulse (pos : SdfPos) (percent : bool) (path : option (SdfPortRef * SdfPortRef))
    (reject error : option SdfValue)
| Absolute (defs : list SdfDelDef)
| Increment (defs : list SdfDelDef).

Inductive SdfCheckKind : Type :=
| Setup | Hold | SetupHold | Recovery | Removal | RecRem | Skew | Width | Period | NoChange.

#[export] Instance SdfCheckKind_eq_dec : EqDecision SdfCheckKind.
Proof. solve_decision. Defined.

Definition check_keyword (k : SdfCheckKind) : string :=
  match k with
  | Setup => "SETUP" | Hold => "HOLD" | SetupHold => "SETUPHOLD" | Recovery => "RECOVERY"
  | Removal => "REMOVAL" | RecRem => "RECREM" | Skew => "SKEW" | Width => "WIDTH"
  | Period => "PERIOD" | NoChange => "NOCHANGE"
  end%string.

Definition port_count (k : SdfCheckKind) : nat :=
  match k with Width | Period => 1 | _ => 2 end.

Definition value_count (k : SdfCheckKind) : nat :=
  match k with SetupHold | RecRem | NoChange => 2 | _ => 1 end.

Record SdfPortTchk : Type := mkPortTchk { tchk_condition : option SdfCondition; tchk_spec : SdfPortSpec }.

Record SdfTimingCheck : Type := mkTimingCheck {
  check_pos : SdfPos;
  kind : SdfCheckKind;
  ports : list SdfPortTchk;
  values : list (option SdfValue);
  scond : option SdfCondition;
  ccond : option SdfCondition
}.

Inductive SdfTimingSpec : Type :=
| Delay (deltypes : list SdfDelType)
| TimingCheck (checks : list SdfTimingCheck)
| TimingEnv.

Record SdfCell : Type := mkCell {
  cell_pos : SdfPos;
  cell_type : string;
  instance : SdfCellInstance;
  specs : list SdfTimingSpec
}.
