(* ===== verification/Parser.v ===== *)
(** * The streaming SDF parser (src/sim/sdf/parser.rs)

    [SdfReader::new] reads the header and [next_cell] one CELL entry at a
    time. Every function of the reader is a definition here, with its
    messages; a Rust index or [expect] that could panic is a [panic] of the
    model. The parser is written over the [Lexing] interface, as the sources
    write it over [R: BufRead]. *)

From Stdlib Require Import ZArith Lia Ascii String.
From stdpp Require Import base list strings.
From S2P Require Import Prelude Common Number Lexer Expr Syntax.
Open Scope Z_scope.
Open Scope list_scope.

(** The header entries after SDFVERSION, in the order the grammar requires. *)
Definition HEADER_ORDER : list string :=
  ["DESIGN"; "DATE"; "VENDOR"; "PROGRAM"; "VERSION"; "DIVIDER"; "VOLTAGE"; "PROCESS"; "TEMPERATURE";
   "TIMESCALE"]%string.

Inductive Sign : Type := Any | NonNegative.

#[export] Instance Sign_eq_dec : EqDecision Sign.
Proof. solve_decision. Defined.

Record Forms : Type := mkForms { single : bool; triple : bool; warned : bool }.

Record SdfReader (L : Type) : Type := mkReader {
  lexer : L;
  rd_limits : SdfLimits;
  header : SdfHeader;
  cell_open : option SdfPos;
  finished : bool;
  forms : Forms;
  warnings : list SdfWarning
}.
Arguments mkReader {L} _ _ _ _ _ _ _.
Arguments lexer {L} _.
Arguments rd_limits {L} _.
Arguments header {L} _.
Arguments cell_open {L} _.
Arguments finished {L} _.
Arguments forms {L} _.
Arguments warnings {L} _.

Definition keyword_is (word keyword : string) : bool := eq_ignore_ascii_case word keyword.

Definition default_header : SdfHeader :=
  mkHeader V3_0 "" None None None None None "."%char None None None default_timescale.

(** Put a condition on a parsed IOPATH and give it the position of its COND
    or CONDELSE. *)
Definition with_condition (def : SdfDelDef) (condition : SdfPathCondition) (pos : SdfPos) : SdfDelDef :=
  match def with
  | IoPath _ _ input output retain delays => IoPath pos condition input output retain delays
  | other => other
  end.

(** [part] with every unescaped [character] escaped. *)
Fixpoint escape_unescaped (part : bytes) (character : ascii) : bytes :=
  match part with
  | [] => []
  | b :: part' =>
      if Ascii.eqb b backslash then
        match part' with
        | [] => [backslash]
        | next :: part'' => backslash :: next :: escape_unescaped part'' character
        end
      else (if Ascii.eqb b character then [backslash; b] else [b]) ++ escape_unescaped part' character
  end.

(** [text.find(pattern)]. *)
Fixpoint prefix_of (pattern text : bytes) : bool :=
  match pattern, text with
  | [], _ => true
  | p :: ps, t :: ts => Ascii.eqb p t && prefix_of ps ts
  | _, [] => false
  end.
Fixpoint find_bytes (pattern text : bytes) (at_ : nat) : option nat :=
  if prefix_of pattern text then Some at_
  else match text with
       | [] => None
       | _ :: ts => find_bytes pattern ts (Datatypes.S at_)
       end.

Definition KNOWN : list string := ["1.0"; "2.0"; "2.1"; "3.0"; "4.0"]%string.

(** The known version found first ([min] of the positions, which differ). *)
Definition first_version (text : string) : option (nat * string) :=
  fold_left (fun best version =>
    match find_bytes (unstr version) (unstr text) 0 with
    | None => best
    | Some p =>
        match best with
        | Some (q, _) => if Nat.ltb p q then Some (p, version) else best
        | None => Some (p, version)
        end
    end) KNOWN None.

Definition detect_version (text : string) : SdfVersion * option string :=
  let fallback (v : SdfVersion) (reason : string) :=
    (v, Some (cat [reason; "; the file is read with the OVI SDF "; fmt_version v; " grammar"]%string)) in
  match first_version text with
  | Some (_, version) =>
      if String.eqb version "2.1" then (V2_1, None)
      else if String.eqb version "3.0" then (V3_0, None)
      else
        fallback (if String.eqb version "1.0" || String.eqb version "2.0" then V2_1 else V3_0)
          (cat ["SDF version "; version; " has no grammar in llg"]%string)
  | None =>
      fallback V3_0
        (cat ["the SDFVERSION string "; quoted text;
              " names no SDF version (1.0, 2.0, 2.1, 3.0 or 4.0)"]%string)
  end.

(** The parts of a word between unescaped dividers, and whether another
    unescaped divider character occurs. *)
Fixpoint split_path (divider other : ascii) (bs current : bytes) : list bytes * bool :=
  match bs with
  | [] => ([current], false)
  | b :: bs' =>
      if Ascii.eqb b backslash then
        match bs' with
        | [] => ([current ++ [b]], false)
        | escaped :: bs'' => split_path divider other bs'' (current ++ [b; escaped])
        end
      else if Ascii.eqb b divider then
        let '(parts, found) := split_path divider other bs' [] in
        (current :: parts, found)
      else
        let '(parts, found) := split_path divider other bs' (current ++ [b]) in
        (parts, found || Ascii.eqb b other)
  end.

Definition is_Some_b {A} (o : option A) : bool := match o with Some _ => true | None => false end.

(** ** The reader *)

Section Reader.
Context {L : Type} `{LX : Lexing L} `{ML : Measured L}.
Abbreviation R := (SdfReader L).
Abbreviation P := (M SdfError R).

#[export] Instance reader_measured : Measured R := fun r => fuel_of (lexer r).

Definition set_lexer (r : R) (l : L) : R :=
  mkReader l (rd_limits r) (header r) (cell_open r) (finished r) (forms r) (warnings r).
Definition set_header (r : R) (h : SdfHeader) : R :=
  mkReader (lexer r) (rd_limits r) h (cell_open r) (finished r) (forms r) (warnings r).
Definition set_cell_open (r : R) (o : option SdfPos) : R :=
  mkReader (lexer r) (rd_limits r) (header r) o (finished r) (forms r) (warnings r).
Definition set_finished (r : R) (b : bool) : R :=
  mkReader (lexer r) (rd_limits r) (header r) (cell_open r) b (forms r) (warnings r).
Definition set_forms (r : R) (f : Forms) : R :=
  mkReader (lexer r) (rd_limits r) (header r) (cell_open r) (finished r) f (warnings r).
Definition set_warnings (r : R) (w : list SdfWarning) : R :=
  mkReader (lexer r) (rd_limits r) (header r) (cell_open r) (finished r) (forms r) w.

Definition v21 : P bool := gets (fun r => bool_decide (version (header r) = V2_1)).

Definition warn (pos : SdfPos) (message : string) : P unit :=
  modify (fun r => set_warnings r (warnings r ++ [mkWarning pos message])).

Definition other_version (what : string) (pos : SdfPos) : P unit :=
  let* old := v21 in
  let declared := if old : bool then "2.1"%string else "3.0"%string in
  let owner := if old then "3.0"%string else "2.1"%string in
  warn pos (cat [what; " belongs to SDF "; owner; ", not SDF "; declared;
                 "; it is read as SDF "; owner; " defines it"]%string).

(** [if self.v21() == old { self.other_version(what, pos) }]. *)
Definition note_version (old : bool) (what : string) (pos : SdfPos) : P unit :=
  let* v := v21 in
  when (Bool.eqb v old) (other_version what pos).

(** *** Token helpers *)

Definition next_tok : P Token := zoom lexer set_lexer (next Structure).
Definition peek_tok : P Tok :=
  let* token := zoom lexer set_lexer (peek Structure) in
  ret (tok token).

Definition unexpected (token : Token) (expected : string) : SdfError :=
  mkError (tok_pos token) (cat ["expected "; expected; ", found "; describe (tok token)]%string).

Definition open (context : string) : P SdfPos :=
  let* token := next_tok in
  match tok token with
  | LParen => ret (tok_pos token)
  | _ => fail (unexpected token (cat ["`(` "; context]%string))
  end.

Definition close (context : string) : P unit :=
  let* token := next_tok in
  match tok token with
  | RParen => ret tt
  | _ => fail (unexpected token (cat ["`)` "; context]%string))
  end.

Definition keyword (context : string) : P (string * SdfPos) :=
  let* token := next_tok in
  match tok token with
  | Word word => ret (to_ascii_uppercase word, tok_pos token)
  | _ => fail (unexpected token (cat ["a keyword "; context]%string))
  end.

Definition qstring (what : string) : P string :=
  let* token := next_tok in
  match tok token with
  | QString text => ret text
  | _ => fail (unexpected token (cat ["the quoted string of "; what]%string))
  end.

Definition word (what : string) : P (string * SdfPos) :=
  let* token := next_tok in
  match tok token with
  | Word word => ret (word, tok_pos token)
  | _ => fail (unexpected token what)
  end.

(** *** Numbers and values *)

Definition number_error (text : string) (error : NumberError) : string :=
  match error with
  | Malformed => cat [ticked text; " is not a number"]
  | TooManyDigits =>
      cat ["the number "; ticked text; " has more than "; dec MAX_SIGNIFICANT_DIGITS; " significant digits"]
  | ExponentRange =>
      cat ["the number "; ticked text; " is out of range (exponent beyond "; dec MAX_DECIMAL_EXPONENT; ")"]
  end%string.

Definition number (text : string) (pos : SdfPos) (sign : Sign) : P SdfNumber :=
  match Number.parse text with
  | Fail e => fail (mkError pos (number_error text e))
  | Panic w => panic w
  | NoFuel => fun _ => NoFuel
  | Done n =>
      if bool_decide (sign = NonNegative) && is_negative n then
        warn pos (cat ["the value "; ticked text; " must not be negative; 0 is used"]%string) ;;;
        ret ZERO
      else ret n
  end.

(** A member of a triple. *)
Definition triple_member (part : bytes) (pos : SdfPos) (sign : Sign) : P (option SdfNumber) :=
  match part with
  | [] => ret None
  | _ =>
      let* n := number (str part) pos sign in
      ret (Some n)
  end.

Definition track_form (value : SdfValue) (pos : SdfPos) : P unit :=
  modify (fun r =>
    let f := forms r in
    set_forms r (match value with
                 | Single _ => mkForms true (triple f) (warned f)
                 | Triple _ _ _ => mkForms (single f) true (warned f)
                 end)) ;;;
  let* r := get in
  let f := forms r in
  when (single f && triple f && negb (warned f))
    (modify (fun r => set_forms r (mkForms (single f) (triple f) true)) ;;;
     warn pos
       "single values and min:typ:max triples are mixed in one file; a single value applies to every data set").

Definition colons (text : bytes) : nat := length (List.filter (Ascii.eqb ":"%char) text).

Definition value_word (text : string) (pos : SdfPos) (sign : Sign) (track : bool) : P (option SdfValue) :=
  let* value :=
    if Nat.ltb 0 (colons (unstr text)) then
      if negb (Nat.eqb (colons (unstr text)) 2) then
        fail (mkError pos (cat ["the triple "; ticked text; " must have exactly two colons"]%string))
      else
        match split_on ":"%char (unstr text) with
        | [a; b; c] =>
            let* min := triple_member a pos sign in
            let* typ := triple_member b pos sign in
            let* max := triple_member c pos sign in
            match min, typ, max with
            | None, None, None =>
                warn pos (cat ["the triple "; ticked text;
                               " has no number; it is read as an empty value"]%string) ;;;
                ret None
            | _, _, _ => ret (Some (Triple min typ max))
            end
        | _ => panic "two colons split a text into three parts"
        end
    else
      let* n := number text pos sign in
      ret (Some (Single n)) in
  match value with
  | None => ret None
  | Some value =>
      when track (track_form value pos) ;;;
      ret (Some value)
  end.

Definition value_after_open (open : SdfPos) (sign : Sign) (what : string) : P (option SdfValue) :=
  let* token := next_tok in
  match tok token with
  | RParen =>
      note_version true (cat ["an empty value for "; what]%string) open ;;;
      ret None
  | Word word =>
      let* value := value_word word (tok_pos token) sign true in
      close (cat ["after "; what]%string) ;;;
      ret value
  | _ => fail (unexpected token (cat ["a number or triple of "; what]%string))
  end.

Definition value (sign : Sign) (what : string) : P (option SdfValue) :=
  let* at_ := open (cat ["of "; what]%string) in
  value_after_open at_ sign what.

Definition delay_rvalue_after_open : P (option SdfValue) :=
  let* token := next_tok in
  match tok token with
  | RParen => ret None
  | Word word =>
      let* value := value_word word (tok_pos token) Any true in
      close "after a delay value" ;;;
      ret value
  | _ => fail (unexpected token "a delay value")
  end.

Definition delval_after_open : P SdfDelval :=
  let* t := peek_tok in
  if decide (t <> LParen) then
    let* delay := delay_rvalue_after_open in
    ret (mkDelval delay Unspecified)
  else
    let* token := next_tok in
    note_version true "a delay value with pulse limits `((d) (r) (e))`" (tok_pos token) ;;;
    let* delay := delay_rvalue_after_open in
    let* limits :=
      loop (fun limits : list (option SdfValue) =>
        let* token := next_tok in
        match tok token with
        | RParen => break limits
        | LParen =>
            if Nat.ltb (length limits) 2 then
              let* limit := delay_rvalue_after_open in
              continue (limits ++ [limit])
            else
              fail (mkError (tok_pos token)
                "a delay value has at most a delay, a reject limit and an error limit")
        | _ => fail (unexpected token "`(` or `)` in a delay value")
        end) [] in
    match limits with
    | [] =>
        fail (mkError (tok_pos token)
          "a parenthesized delay value needs a pulse limit after the delay")
    | [limit] => ret (mkDelval delay (Limits (mkPulseLimits limit limit)))
    | [reject; error] => ret (mkDelval delay (Limits (mkPulseLimits reject error)))
    | _ => panic "at most two limits are read"
    end.

Definition get_or_insert {A} (slot : option A) (a : A) : option A :=
  match slot with Some _ => slot | None => Some a end.

Definition too_many_values (thirteenth : option SdfPos) (what : string) : P unit :=
  match thirteenth with
  | Some pos => warn pos (cat [what; " has more than 12 delay values; it is not annotated"]%string)
  | None => ret tt
  end.

Definition finish_delval_list (values : list SdfDelval) (what : string) : P SdfDelvalList :=
  match values with
  | [] =>
      let* token := next_tok in
      fail (unexpected token (cat ["the delay values of "; what]%string))
  | _ => ret values
  end.

Definition delval_list (what : string) : P SdfDelvalList :=
  let* (values, thirteenth) :=
    loop (fun '(values, thirteenth) =>
      let* t := peek_tok in
      if decide (t = LParen) then
        let* token := next_tok in
        let thirteenth :=
          if Nat.eqb (length values) 12 then get_or_insert thirteenth (tok_pos token) else thirteenth in
        let* v := delval_after_open in
        continue (values ++ [v], thirteenth)
      else break (values, thirteenth)) ([], None) in
  too_many_values thirteenth what ;;;
  finish_delval_list values what.

(** *** Names *)

(** One part of a path. *)
Definition path_component (word : string) (pos : SdfPos) (what : string) (other : ascii) (other_found : bool)
  (acc : list SdfIdent * bool) (part : bytes) : P (list SdfIdent * bool) :=
  let '(idents, empty_warned) := acc in
  match part with
  | [] =>
      let* r := get in
      when (negb empty_warned)
        (warn pos (cat [what; " "; ticked word; " has an empty hierarchy level (divider ";
                        ticked (str [divider (header r)]); ")"]%string)) ;;;
      ret (idents ++ [mkIdent "" None], true)
  | _ =>
      if String.eqb (str part) "*" then
        fail (mkError pos (cat [what; " "; ticked word;
                                ": the wildcard `*` cannot be part of a hierarchical path"]%string))
      else
        let part := if other_found then escape_unescaped part other else part in
        match split_identifier (str part) what with
        | inl message => fail (mkError pos message)
        | inr (name, bits) => ret (idents ++ [mkIdent name bits], empty_warned)
        end
  end.

Definition path_components (word : string) (pos : SdfPos) (what : string) : P (list SdfIdent) :=
  let* r := get in
  let div := divider (header r) in
  let other := if Ascii.eqb div "."%char then "/"%char else "."%char in
  let '(parts, other_found) := split_path div other (unstr word) [] in
  if Z.of_nat (length parts) >? max_path_components (rd_limits r) then
    fail (mkError pos (cat [what; " has more than "; dec (max_path_components (rd_limits r));
                            " hierarchy levels"]%string))
  else
    when other_found
      (warn pos (cat [what; " "; ticked word; " has an unescaped "; ticked (str [other]);
                      ", which is read as part of a name (the hierarchy divider is ";
                      ticked (str [div]); ")"]%string)) ;;;
    let* (idents, _) := fold_m (path_component word pos what other other_found) parts ([], false) in
    ret idents.

Definition is_range (component : SdfIdent) : bool :=
  match bits component with Some (Range _ _) => true | _ => false end.

Definition check_instance_components (components : list SdfIdent) (pos : SdfPos) (word : string) : P unit :=
  when (existsb is_range components)
    (warn pos (cat ["the instance path "; ticked word;
                    " selects a range of instances, not one instance"]%string)).

Definition port_from_word (word : string) (pos : SdfPos) : P SdfPortRef :=
  let* components := path_components word pos "the port" in
  match last components with
  | None => panic "a split yields one part"
  | Some port =>
      let components := removelast components in
      check_instance_components components pos word ;;;
      ret (mkPortRef pos components port)
  end.

Definition optional_instance_path : P (list SdfIdent) :=
  let* t := peek_tok in
  match t with
  | Word _ =>
      let* (w, pos) := word "an instance path" in
      if String.eqb w "*" then
        fail (mkError pos "the wildcard `*` cannot be part of a hierarchical path")
      else
        let* components := path_components w pos "the instance path" in
        check_instance_components components pos w ;;;
        ret components
  | _ => ret []
  end.

Definition port_instance (what : string) : P SdfPortRef :=
  let* t := peek_tok in
  if decide (t = LParen) then
    let* open := next_tok in
    note_version false "a port path `(INSTANCE path) port`" (tok_pos open) ;;;
    let* (kw, pos) := keyword "of a port path" in
    if negb (String.eqb kw "INSTANCE") then
      fail (mkError pos (cat ["expected `INSTANCE` before a port, found "; ticked kw]%string))
    else
      let* path := optional_instance_path in
      close "after an INSTANCE path" ;;;
      let* (w, word_pos) := word (cat ["the port of "; what]%string) in
      let* p := port_from_word w word_pos in
      ret (mkPortRef (tok_pos open) (path ++ Syntax.path p) (port p))
  else
    let* (w, pos) := word (cat ["the port of "; what]%string) in
    port_from_word w pos.

Definition edge_spec_after_open (what : string) : P SdfPortSpec :=
  let* (w, pos) := word (cat ["an edge identifier of "; what]%string) in
  match edge_from_word w with
  | None =>
      fail (mkError pos (cat [ticked w;
        " is not an edge identifier (posedge, negedge, 01, 10, 0z, z1, 1z, z0)"]%string))
  | Some edge =>
      let* (w, word_pos) := word (cat ["the port of "; what]%string) in
      let* p := port_from_word w word_pos in
      close "after an edge specification" ;;;
      ret (mkPortSpec (Some edge) p)
  end.

Definition port_spec (what : string) : P SdfPortSpec :=
  let* t := peek_tok in
  if decide (t <> LParen) then
    let* p := port_instance what in
    ret (mkPortSpec None p)
  else
    next_tok ;;;
    edge_spec_after_open what.

(** *** Header *)

Definition multiplier_of (number : string) : option Z :=
  table_lookup [("1", 1); ("1.0", 1); ("10", 10); ("10.0", 10); ("100", 100); ("100.0", 100)]%string number.

Definition time_unit_of (unit : string) : option SdfTimeUnit :=
  table_lookup [("us", Us); ("ns", Ns); ("ps", Ps)]%string (to_ascii_lowercase unit).

Definition timescale : P SdfTimescale :=
  let* (w, word_pos) := word "the timescale value" in
  let split := run_length (fun c => negb (is_ascii_alphabetic c)) (unstr w) in
  let number := str (take split (unstr w)) in
  let unit := drop split (unstr w) in
  let* (unit, unit_pos) :=
    match unit with
    | [] => word "the timescale unit us, ns or ps"
    | _ =>
        let offset := if Z.of_nat split <=? 2 ^ 32 - 1 then Z.of_nat split else 0 in
        ret (str unit, mkPos (line word_pos) (wrap_u32 (col word_pos + offset)))
    end in
  match multiplier_of number with
  | None =>
      fail (mkError word_pos (cat ["the timescale number must be 1, 10 or 100 (or 1.0, 10.0, 100.0), not ";
                                   ticked number]%string))
  | Some multiplier =>
      match time_unit_of unit with
      | None =>
          fail (mkError unit_pos (cat ["the timescale unit must be us, ns or ps, not "; ticked unit]%string))
      | Some unit => ret (mkTimescale multiplier unit)
      end
  end.

Definition update_header (f : SdfHeader -> SdfHeader) : P unit :=
  modify (fun r => set_header r (f (header r))).

Definition header_entry (kw : string) : P unit :=
  let what := cat ["the "; kw; " entry"]%string in
  if String.eqb kw "DESIGN" then
    let* s := qstring what in
    update_header (fun '(mkHeader v vt _ da ve pr pv di vo po te ts) => mkHeader v vt (Some s) da ve pr pv di vo po te ts)
  else if String.eqb kw "DATE" then
    let* s := qstring what in
    update_header (fun '(mkHeader v vt de _ ve pr pv di vo po te ts) => mkHeader v vt de (Some s) ve pr pv di vo po te ts)
  else if String.eqb kw "VENDOR" then
    let* s := qstring what in
    update_header (fun '(mkHeader v vt de da _ pr pv di vo po te ts) => mkHeader v vt de da (Some s) pr pv di vo po te ts)
  else if String.eqb kw "PROGRAM" then
    let* s := qstring what in
    update_header (fun '(mkHeader v vt de da ve _ pv di vo po te ts) => mkHeader v vt de da ve (Some s) pv di vo po te ts)
  else if String.eqb kw "VERSION" then
    let* s := qstring what in
    update_header (fun '(mkHeader v vt de da ve pr _ di vo po te ts) => mkHeader v vt de da ve pr (Some s) di vo po te ts)
  else if String.eqb kw "PROCESS" then
    let* s := qstring what in
    update_header (fun '(mkHeader v vt de da ve pr pv di vo _ te ts) => mkHeader v vt de da ve pr pv di vo (Some s) te ts)
  else if String.eqb kw "DIVIDER" then
    let* (w, word_pos) := word "the hierarchy divider `.` or `/`" in
    let set d := update_header (fun '(mkHeader v vt de da ve pr pv _ vo po te ts) => mkHeader v vt de da ve pr pv d vo po te ts) in
    if String.eqb w "." then set "."%char
    else if String.eqb w "/" then set "/"%char
    else fail (mkError word_pos (cat ["the hierarchy divider must be `.` or `/`, not "; ticked w]%string))
  else if String.eqb kw "VOLTAGE" || String.eqb kw "TEMPERATURE" then
    let* (w, word_pos) := word (cat ["the value of "; what]%string) in
    let* v := value_word w word_pos Any false in
    if String.eqb kw "VOLTAGE" then
      update_header (fun '(mkHeader ve vt de da vn pr pv di _ po te ts) => mkHeader ve vt de da vn pr pv di v po te ts)
    else
      update_header (fun '(mkHeader ve vt de da vn pr pv di vo po _ ts) => mkHeader ve vt de da vn pr pv di vo po v ts)
  else if String.eqb kw "TIMESCALE" then
    let* t := timescale in
    update_header (fun '(mkHeader v vt de da ve pr pv di vo po te _) => mkHeader v vt de da ve pr pv di vo po te t)
  else panic "listed in HEADER_ORDER".

(** [HEADER_ORDER.iter().position(..)]. *)
Fixpoint position (keyword : string) (entries : list string) : option nat :=
  match entries with
  | [] => None
  | e :: es =>
      if String.eqb e keyword then Some 0%nat
      else match position keyword es with Some n => Some (Datatypes.S n) | None => None end
  end.

(** One header entry after SDFVERSION, or the start of the first CELL. *)
Definition header_step (last : option nat) : P (option nat + unit) :=
  let* t := peek_tok in
  if decide (t = RParen) then
    let* token := next_tok in
    fail (mkError (tok_pos token) "the DELAYFILE has no CELL entry (it needs at least one)")
  else
    let* at_ := open "of a header entry or CELL" in
    let* (kw, pos) := keyword "of a header entry or CELL" in
    if String.eqb kw "CELL" then
      modify (fun r => set_cell_open r (Some at_)) ;;;
      break tt
    else
      match position kw HEADER_ORDER with
      | None => fail (mkError pos (cat [ticked kw; " is not a header entry"]%string))
      | Some order =>
          match last with
          | Some last =>
              if Nat.leb order last then
                match HEADER_ORDER !! last with
                | None => panic "index out of bounds"
                | Some entry =>
                    fail (mkError pos (cat ["the header entry "; kw; " ";
                      if Nat.eqb order last then "repeats" else "comes after"; " "; entry;
                      " (the header order is fixed)"]%string))
                end
              else ret tt
          | None => ret tt
          end ;;;
          header_entry kw ;;;
          close (cat ["after the "; kw; " entry"]%string) ;;;
          continue (Some order)
      end.

Definition read_header : P unit :=
  open "starting the DELAYFILE" ;;;
  let* (kw, pos) := keyword "starting the file" in
  if negb (String.eqb kw "DELAYFILE") then
    fail (mkError pos (cat ["expected `DELAYFILE`, found "; ticked kw]%string))
  else
    let* at_ := open "of the SDFVERSION entry" in
    let* (kw, pos) := keyword "of the header" in
    if negb (String.eqb kw "SDFVERSION") then
      fail (mkError pos (cat ["the header must start with SDFVERSION, found "; ticked kw]%string))
    else
      let* text := qstring "the SDFVERSION entry" in
      let '(ver, warning) := detect_version text in
      match warning with
      | Some message => warn at_ message
      | None => ret tt
      end ;;;
      update_header (fun '(mkHeader _ _ de da ve pr pv di vo po te ts) => mkHeader ver text de da ve pr pv di vo po te ts) ;;;
      close "after the SDF version" ;;;
      loop header_step None.

(** *** Delays *)

Definition unknown_keyword_error (kw : string) (pos : SdfPos) (expected : string) : SdfError :=
  mkError pos (cat ["expected "; expected; ", found "; ticked kw]%string).

(** Run the condition parser on the lexer ([ExprParser::new(&mut self.lexer, ..)]). *)
Definition with_expr {A} (m : M SdfError (ExprParser L) A) : P A := fun r =>
  match m (Expr.new (lexer r) (rd_limits r)) with
  | Done (a, s) => Done (a, set_lexer r (ep_lexer s))
  | Fail e => Fail e
  | Panic w => Panic w
  | NoFuel => NoFuel
  end.

Definition optional_label : P (option string) :=
  let* t := peek_tok in
  match t with
  | QString _ =>
      let* token := next_tok in
      note_version true "a condition label" (tok_pos token) ;;;
      match tok token with
      | QString text => ret (Some text)
      | _ => panic "internal error: entered unreachable code"
      end
  | _ => ret None
  end.

(** The first pair of consecutive RETAIN delays that does not increase
    strictly: the index of the earlier list and the two numbers. *)
Definition set_violation (earlier later : SdfValue) : option (SdfNumber * SdfNumber) :=
  foldr (fun set found =>
    match member earlier set, member later set with
    | Some a, Some b => match cmp_exact b a with Datatypes.Gt => found | _ => Some (a, b) end
    | _, _ => found
    end) None [0; 1; 2]%nat.

Fixpoint pair_violation (earlier later : SdfDelvalList) : option (SdfNumber * SdfNumber) :=
  match earlier, later with
  | e :: es, l :: ls =>
      match (match delay e, delay l with
             | Some a, Some b => set_violation a b
             | _, _ => None
             end) with
      | Some v => Some v
      | None => pair_violation es ls
      end
  | _, _ => None
  end.

Fixpoint retain_violation (index : nat) (retain : list SdfDelvalList) : option (nat * SdfNumber * SdfNumber) :=
  match retain with
  | earlier :: (later :: _) as rest =>
      match pair_violation earlier later with
      | Some (a, b) => Some (index, a, b)
      | None => retain_violation (Datatypes.S index) rest
      end
  | _ => None
  end.

Definition check_retain_order (retain : list SdfDelvalList) (positions : list SdfPos) : P unit :=
  match retain_violation 0 retain with
  | None => ret tt
  | Some (index, a, b) =>
      match positions !! Datatypes.S index with
      | None => panic "index out of bounds"
      | Some pos =>
          warn pos (cat ["consecutive RETAIN delays must increase strictly ("; fmt_number a; " then ";
                         fmt_number b; ")"]%string)
      end
  end.

(** The state of the IOPATH loop: RETAIN lists, their positions, the delays
    and the position of a thirteenth delay. *)
Definition io_path_state : Type :=
  list SdfDelvalList * list SdfPos * list SdfDelval * option SdfPos.

Definition io_path_step (st : io_path_state) : P (io_path_state + io_path_state) :=
  let '(retain, positions, first, thirteenth) := st in
  let* t := peek_tok in
  if decide (t = LParen) then
    let* open := next_tok in
    let* t := peek_tok in
    let is_retain := match t with Word w => keyword_is w "RETAIN" | _ => false end in
    if is_retain then
      let* (_, retain_pos) := word "RETAIN" in
      note_version true "RETAIN" retain_pos ;;;
      match first with
      | _ :: _ => fail (mkError retain_pos "RETAIN entries must come before the IOPATH delays")
      | [] =>
          let* values := delval_list "RETAIN" in
          close "after the RETAIN delays" ;;;
          continue (retain ++ [values], positions ++ [tok_pos open], first, thirteenth)
      end
    else
      let thirteenth :=
        if Nat.eqb (length first) 12 then get_or_insert thirteenth (tok_pos open) else thirteenth in
      let* v := delval_after_open in
      continue (retain, positions, first ++ [v], thirteenth)
  else break st.

Definition io_path (pos : SdfPos) (condition : SdfPathCondition) : P SdfDelDef :=
  let* input := port_spec "the IOPATH input" in
  let* output := port_instance "the IOPATH output" in
  let* (retain, positions, first, thirteenth) := loop io_path_step ([], [], [], None) in
  too_many_values thirteenth "IOPATH" ;;;
  let* delays := finish_delval_list first "IOPATH" in
  close "after the IOPATH delays" ;;;
  check_retain_order retain positions ;;;
  ret (IoPath pos condition input output retain delays).

Definition nested_io_path (owner : string) : P SdfDelDef :=
  open (cat ["of the IOPATH in "; owner]%string) ;;;
  let* (kw, pos) := keyword (cat ["of the IOPATH in "; owner]%string) in
  if negb (String.eqb kw "IOPATH") then
    fail (mkError pos (cat [owner; " must contain an IOPATH, found "; ticked kw]%string))
  else io_path pos NoCondition.

(** One delay definition after its keyword. *)
Definition del_def (kw : string) (pos : SdfPos) : P SdfDelDef :=
  if String.eqb kw "IOPATH" then io_path pos NoCondition
  else if String.eqb kw "COND" then
    let* label := optional_label in
    let* expr := with_expr run_expression in
    let* def := nested_io_path "COND" in
    close "after the conditional IOPATH" ;;;
    ret (with_condition def (Cond (mkCondition label expr)) pos)
  else if String.eqb kw "CONDELSE" then
    note_version true "CONDELSE" pos ;;;
    let* def := nested_io_path "CONDELSE" in
    close "after the CONDELSE IOPATH" ;;;
    ret (with_condition def CondElse pos)
  else if String.eqb kw "PORT" then
    let* port := port_instance "PORT" in
    let* delays := delval_list "PORT" in
    close "after the PORT delays" ;;;
    ret (Port pos port delays)
  else if String.eqb kw "INTERCONNECT" then
    let* source := port_instance "the INTERCONNECT source" in
    let* load := port_instance "the INTERCONNECT load" in
    let* delays := delval_list "INTERCONNECT" in
    close "after the INTERCONNECT delays" ;;;
    ret (Interconnect pos source load delays)
  else if String.eqb kw "NETDELAY" then
    note_version false "NETDELAY" pos ;;;
    let* net := port_instance "NETDELAY" in
    let* delays := delval_list "NETDELAY" in
    close "after the NETDELAY delays" ;;;
    ret (NetDelay pos net delays)
  else if String.eqb kw "DEVICE" then
    let* t := peek_tok in
    let* port :=
      match t with
      | Word _ => let* p := port_instance "DEVICE" in ret (Some p)
      | _ => ret None
      end in
    let* delays := delval_list "DEVICE" in
    close "after the DEVICE delays" ;;;
    ret (Device pos port delays)
  else fail (unknown_keyword_error kw pos "IOPATH, COND, CONDELSE, PORT, INTERCONNECT or DEVICE").

(** A list of entries in parentheses, at least one, up to the closing
    parenthesis. *)
Definition del_defs (mode : string) : P (list SdfDelDef) :=
  loop (fun defs : list SdfDelDef =>
    let empty := match defs with [] => true | _ => false end in
    let* token := next_tok in
    if decide (tok token = RParen /\ empty = false) then break defs
    else if decide (tok token = LParen) then
      let* (kw, pos) := keyword "of a delay definition" in
      let* def := del_def kw pos in
      continue (defs ++ [def])
    else
      fail (unexpected token
        (if empty then cat ["`(` of a delay definition in "; mode]
         else cat ["a delay definition or `)` closing "; mode])%string)) [].

Definition path_pulse (pos : SdfPos) (percent : bool) : P SdfDelType :=
  let what := if percent then "a PATHPULSEPERCENT limit"%string else "a PATHPULSE limit"%string in
  let* t := peek_tok in
  let* path :=
    match t with
    | Word _ =>
        let* input := port_instance "the pulse path input" in
        let* output := port_instance "the pulse path output" in
        ret (Some (input, output))
    | _ => ret None
    end in
  let* reject := value NonNegative what in
  let* t := peek_tok in
  let* error := if decide (t = LParen) then value NonNegative what else ret reject in
  close "after the pulse limits" ;;;
  ret (PathPulse pos percent path reject error).

(** One delay type after its keyword. *)
Definition del_type (kw : string) (pos : SdfPos) : P SdfDelType :=
  if String.eqb kw "ABSOLUTE" then let* d := del_defs "ABSOLUTE" in ret (Absolute d)
  else if String.eqb kw "INCREMENT" then let* d := del_defs "INCREMENT" in ret (Increment d)
  else if String.eqb kw "PATHPULSE" then path_pulse pos false
  else if String.eqb kw "PATHPULSEPERCENT" || String.eqb kw "GLOBALPATHPULSE" then
    note_version (String.eqb kw "PATHPULSEPERCENT") kw pos ;;;
    path_pulse pos true
  else fail (unknown_keyword_error kw pos "ABSOLUTE, INCREMENT, PATHPULSE or PATHPULSEPERCENT").

Definition delay_spec : P SdfTimingSpec :=
  loop (fun deltypes : list SdfDelType =>
    let empty := match deltypes with [] => true | _ => false end in
    let* token := next_tok in
    if decide (tok token = RParen /\ empty = false) then break (Delay deltypes)
    else if decide (tok token = LParen) then
      let* (kw, pos) := keyword "of a delay type" in
      let* t := del_type kw pos in
      continue (deltypes ++ [t])
    else
      fail (unexpected token
        (if empty then "`(` of a delay type in DELAY" else "a delay type or `)` closing DELAY")%string)) [].

(** *** Timing checks *)

Definition port_tchk (what : string) : P SdfPortTchk :=
  let* t := peek_tok in
  if decide (t <> LParen) then
    let* spec := port_spec what in
    ret (mkPortTchk None spec)
  else
    next_tok ;;;
    let* t := peek_tok in
    let conditional := match t with Word w => keyword_is w "COND" | _ => false end in
    if conditional then
      next_tok ;;;
      let* label := optional_label in
      let* expr := with_expr timing_check_condition in
      let* spec := port_spec what in
      close "after the conditional timing check port" ;;;
      ret (mkPortTchk (Some (mkCondition label expr)) spec)
    else
      let* spec := edge_spec_after_open what in
      ret (mkPortTchk None spec).

(** The first data set whose two limits have a sum that is not positive. *)
Definition sum_violation (first second : SdfValue) : option (SdfNumber * SdfNumber) :=
  foldr (fun set found =>
    match member first set, member second set with
    | Some a, Some b =>
        if negb (is_negative a) && negb (is_negative b) then found
        else match cmp_exact a (negated b) with Datatypes.Gt => found | _ => Some (a, b) end
    | _, _ => found
    end) None [0; 1; 2]%nat.

Definition has_two_limits (kind : SdfCheckKind) : bool :=
  match kind with SetupHold | RecRem => true | _ => false end.

Definition check_limit_sum (kind : SdfCheckKind) (values : list (option SdfValue)) (pos : SdfPos) : P unit :=
  if negb (has_two_limits kind) then ret tt
  else
    match values with
    | Some first :: Some second :: _ =>
        match sum_violation first second with
        | Some (a, b) =>
            warn pos (cat ["the "; check_keyword kind; " limits "; fmt_number a; " and "; fmt_number b;
                           " have a sum that is not greater than zero"]%string)
        | None => ret tt
        end
    | _ :: _ :: _ => ret tt
    | _ => panic "index out of bounds"
    end.

Definition check_sign (kind : SdfCheckKind) (old : bool) : Sign :=
  match kind with
  | Setup | Hold | Recovery => if old then Any else NonNegative
  | Removal | Width | Period => NonNegative
  | _ => Any
  end.

(** The SCOND and CCOND entries of SETUPHOLD and RECREM. *)
Definition stamp_conditions : P (option SdfCondition * option SdfCondition) :=
  loop (fun '(scond, ccond) =>
    let* t := peek_tok in
    if decide (t = LParen) then
      next_tok ;;;
      let* (kw, keyword_pos) := keyword "of SCOND or CCOND" in
      let named := String.eqb kw "SCOND" || String.eqb kw "CCOND" in
      when named (note_version true kw keyword_pos) ;;;
      let slot : option bool :=
        if String.eqb kw "SCOND" && negb (is_Some_b scond) && negb (is_Some_b ccond) then Some true
        else if String.eqb kw "CCOND" && negb (is_Some_b ccond) then Some false
        else None in
      match slot with
      | None =>
          if named then
            fail (mkError keyword_pos
              (cat [kw; " is out of order or repeated (SCOND comes before CCOND, once each)"]%string))
          else fail (unknown_keyword_error kw keyword_pos "SCOND, CCOND or `)`")
      | Some stamp =>
          let* label := optional_label in
          let* expr := with_expr timing_check_condition in
          let condition := Some (mkCondition label expr) in
          close (cat ["after the "; kw; " condition"]%string) ;;;
          continue (if stamp : bool then (condition, ccond) else (scond, condition))
      end
    else break (scond, ccond)) (None, None).

Definition timing_check (kind : SdfCheckKind) (pos : SdfPos) : P (option SdfTimingCheck) :=
  let name := check_keyword kind in
  let* ports :=
    repeat_m (port_count kind)
      (fun index => port_tchk (cat [name; " port "; dec (Z.of_nat index + 1)]%string)) in
  let* old := v21 in
  let sign := check_sign kind old in
  let* values :=
    repeat_m (value_count kind) (fun _ => value sign (cat ["the "; name; " limit"]%string)) in
  let* (scond, ccond) := if has_two_limits kind then stamp_conditions else ret (None, None) in
  close (cat ["after the "; name; " limits"]%string) ;;;
  match ports with
  | [] => panic "index out of bounds"
  | control :: _ =>
      if bool_decide (kind = NoChange) && negb (is_Some_b (edge (tchk_spec control))) then
        warn (ref_pos (spec_port (tchk_spec control)))
          "the NOCHANGE control port needs an edge specification; the entry is not annotated" ;;;
        ret None
      else
        check_limit_sum kind values pos ;;;
        ret (Some (mkTimingCheck pos kind ports values scond ccond))
  end.

(** *** Constraints and TIMINGENV *)

(** [while let Tok::Word(_) = self.peek()? { body; count += 1 }]. *)
Definition count_words (body : P unit) : P nat :=
  loop (fun count : nat =>
    let* t := peek_tok in
    match t with
    | Word _ => body ;;; continue (Datatypes.S count)
    | _ => break count
    end) 0%nat.

Definition drop_port (what : string) : P unit := let* _ := port_instance what in ret tt.
Definition drop_value (sign : Sign) (what : string) : P unit := let* _ := value sign what in ret tt.
Definition drop_number (what : string) (sign : Sign) : P unit :=
  let* (w, word_pos) := word what in
  let* _ := number w word_pos sign in
  ret tt.

(** [(NAME qstring?)] of a PATHCONSTRAINT. *)
Definition constraint_name : P unit :=
  next_tok ;;;
  let* (name, name_pos) := keyword "of the PATHCONSTRAINT name" in
  if negb (String.eqb name "NAME") then
    fail (mkError name_pos (cat ["expected `NAME`, found "; ticked name]%string))
  else
    let* t := peek_tok in
    match t with
    | QString _ => let* _ := next_tok in ret tt
    | _ => ret tt
    end ;;;
    close "after the NAME entry".

Definition path_constraint (pos : SdfPos) : P unit :=
  let* old := v21 in
  (if old : bool then ret tt
   else
     let* t := peek_tok in
     if decide (t = LParen) then constraint_name else ret tt) ;;;
  let* ports := count_words (drop_port "PATHCONSTRAINT") in
  if Nat.ltb ports 2 then fail (mkError pos "PATHCONSTRAINT needs at least two ports")
  else
    drop_value Any "a PATHCONSTRAINT value" ;;;
    drop_value Any "a PATHCONSTRAINT value".

(** One instance of an EXCEPTION, after its peeked parenthesis. *)
Definition exception_instance : P unit :=
  next_tok ;;;
  let* (w, word_pos) := keyword "of an EXCEPTION instance" in
  if negb (String.eqb w "INSTANCE") then
    fail (mkError word_pos (cat ["expected `INSTANCE`, found "; ticked w]%string))
  else
    let* t := peek_tok in
    match t with
    | Word w =>
        if String.eqb w "*" then let* _ := next_tok in ret tt
        else let* _ := optional_instance_path in ret tt
    | _ => ret tt
    end ;;;
    close "after the EXCEPTION instance".

Definition period_exception : P unit :=
  next_tok ;;;
  let* (name, name_pos) := keyword "of the EXCEPTION entry" in
  if negb (String.eqb name "EXCEPTION") then
    fail (mkError name_pos (cat ["expected `EXCEPTION`, found "; ticked name]%string))
  else
    let* instances :=
      loop (fun instances : nat =>
        let* t := peek_tok in
        if decide (t = LParen) then exception_instance ;;; continue (Datatypes.S instances)
        else break instances) 0%nat in
    if Nat.eqb instances 0 then fail (mkError name_pos "EXCEPTION needs an instance")
    else close "after the EXCEPTION entry".

Definition period_constraint : P unit :=
  drop_port "PERIODCONSTRAINT" ;;;
  drop_value NonNegative "a PERIODCONSTRAINT value" ;;;
  let* t := peek_tok in
  if decide (t = LParen) then period_exception else ret tt.

(** Whether the word after a parenthesis starts a constraint path. *)
Definition starts_path (t : Tok) : bool :=
  match t with
  | Word w =>
      match unstr w with
      | c :: _ => negb (is_ascii_digit c || byte_in c "-+.:")
      | [] => true
      end
  | _ => false
  end.

(** SUM and DIFF: constraint paths and then one or two values. *)
Definition sum_constraint (kw : string) (pos : SdfPos) : P unit :=
  let what := cat ["a "; kw; " value"]%string in
  let* (paths, valued) :=
    loop (fun paths : nat =>
      let* t := peek_tok in
      if decide (t = LParen) then
        let* open := next_tok in
        let* t := peek_tok in
        if starts_path t then
          drop_port kw ;;;
          drop_port kw ;;;
          close "after a constraint path" ;;;
          continue (Datatypes.S paths)
        else
          let sign := if String.eqb kw "DIFF" then NonNegative else Any in
          (let* _ := value_after_open (tok_pos open) sign what in ret tt) ;;;
          let* t := peek_tok in
          (if decide (t = LParen) then drop_value sign what else ret tt) ;;;
          break (paths, true)
      else break (paths, false)) 0%nat in
  let paths_ok := if String.eqb kw "SUM" then Nat.leb 2 paths else Nat.eqb paths 2 in
  if negb paths_ok || negb valued then
    fail (mkError pos (cat [kw; " needs "; if String.eqb kw "SUM" then "two or more" else "two";
                            " constraint paths `(port port)` and a value"]%string))
  else ret tt.

Definition constraint (kw : string) (pos : SdfPos) : P unit :=
  (if String.eqb kw "PATHCONSTRAINT" then path_constraint pos
   else if String.eqb kw "PERIODCONSTRAINT" then period_constraint
   else if String.eqb kw "SUM" || String.eqb kw "DIFF" then sum_constraint kw pos
   else if String.eqb kw "SKEWCONSTRAINT" then
     (let* _ := port_spec "SKEWCONSTRAINT" in ret tt) ;;;
     drop_value NonNegative "a SKEWCONSTRAINT value"
   else panic "callers pass constraint keywords") ;;;
  close (cat ["after the "; kw; " entry"]%string).

(** One edge of a WAVEFORM, after its peeked parenthesis. *)
Definition waveform_edge (edges : list SdfEdge) : P (list SdfEdge) :=
  next_tok ;;;
  let* (kw, pos) := word "posedge or negedge" in
  let edge := match edge_from_word kw with
              | Some Posedge => Some Posedge
              | Some Negedge => Some Negedge
              | _ => None
              end in
  match edge with
  | None => fail (mkError pos (cat ["a WAVEFORM edge is posedge or negedge, not "; ticked kw]%string))
  | Some edge =>
      if bool_decide (last edges = Some edge) then
        fail (mkError pos "WAVEFORM edges must alternate between posedge and negedge")
      else
        drop_number "a WAVEFORM edge time" Any ;;;
        let* t := peek_tok in
        match t with
        | Word _ => drop_number "a WAVEFORM edge time" Any
        | _ => ret tt
        end ;;;
        close "after a WAVEFORM edge" ;;;
        ret (edges ++ [edge])
  end.

Definition waveform : P unit :=
  drop_port "WAVEFORM" ;;;
  let* (w, word_pos) := word "the WAVEFORM period" in
  (let* _ := number w word_pos NonNegative in ret tt) ;;;
  let* edges :=
    loop (fun edges =>
      let* t := peek_tok in
      if decide (t = LParen) then let* edges := waveform_edge edges in continue edges
      else break edges) [] in
  if Nat.eqb (length edges) 0 || negb (Nat.even (length edges)) then
    fail (mkError word_pos "a WAVEFORM needs pairs of posedge and negedge entries")
  else close "after the WAVEFORM entry".

Definition is_constraint (kw : string) : bool :=
  existsb (String.eqb kw) ["PATHCONSTRAINT"; "PERIODCONSTRAINT"; "SUM"; "DIFF"; "SKEWCONSTRAINT"]%string.

(** One TIMINGENV entry after its keyword. *)
Definition timing_env_entry (kw : string) (pos : SdfPos) : P unit :=
  if is_constraint kw then constraint kw pos
  else if String.eqb kw "ARRIVAL" || String.eqb kw "DEPARTURE" then
    let* t := peek_tok in
    (if decide (t = LParen) then
       next_tok ;;;
       let* _ := edge_spec_after_open kw in ret tt
     else ret tt) ;;;
    drop_port kw ;;;
    repeat_m 4 (fun _ => drop_value Any (cat ["a "; kw; " value"]%string)) ;;;
    close (cat ["after the "; kw; " entry"]%string)
  else if String.eqb kw "SLACK" then
    drop_port "SLACK" ;;;
    repeat_m 4 (fun _ => drop_value Any "a SLACK value") ;;;
    let* t := peek_tok in
    match t with
    | Word _ => drop_number "the SLACK clock period" NonNegative
    | _ => ret tt
    end ;;;
    close "after the SLACK entry"
  else if String.eqb kw "WAVEFORM" then waveform
  else
    fail (mkError pos (cat ["expected a TIMINGENV entry (PATHCONSTRAINT, PERIODCONSTRAINT, SUM, DIFF, SKEWCONSTRAINT, ARRIVAL, DEPARTURE, SLACK or WAVEFORM), found "; ticked kw]%string)).

Definition timing_env_spec : P unit :=
  loop (fun entries : nat =>
    let* token := next_tok in
    if decide (tok token = RParen /\ entries <> 0%nat) then break tt
    else if decide (tok token = LParen) then
      let* (kw, pos) := keyword "of a TIMINGENV entry" in
      timing_env_entry kw pos ;;;
      continue (Datatypes.S entries)
    else
      fail (unexpected token
        (if Nat.eqb entries 0 then "`(` of an entry in TIMINGENV"
         else "a TIMINGENV entry or `)` closing TIMINGENV")%string)) 0%nat.

Definition check_kind_of (kw : string) : option SdfCheckKind :=
  table_lookup
    [("SETUP", Setup); ("HOLD", Hold); ("SETUPHOLD", SetupHold); ("RECOVERY", Recovery);
     ("REMOVAL", Removal); ("RECREM", RecRem); ("SKEW", Skew); ("WIDTH", Width); ("PERIOD", Period);
     ("NOCHANGE", NoChange)]%string kw.

(** One timing check entry after its keyword: the check, if it is kept. *)
Definition check_entry (kw : string) (pos : SdfPos) : P (option SdfTimingCheck) :=
  match check_kind_of kw with
  | Some kind =>
      when (bool_decide (kind = Removal) || bool_decide (kind = RecRem)) (note_version true kw pos) ;;;
      timing_check kind pos
  | None =>
      if existsb (String.eqb kw) ["PATHCONSTRAINT"; "SUM"; "DIFF"; "SKEWCONSTRAINT"]%string then
        note_version false (cat [kw; " in TIMINGCHECK"]%string) pos ;;;
        constraint kw pos ;;;
        ret None
      else
        fail (unknown_keyword_error kw pos
          "a timing check (SETUP, HOLD, SETUPHOLD, RECOVERY, REMOVAL, RECREM, SKEW, WIDTH, PERIOD or NOCHANGE)")
  end.

Definition timing_check_spec : P SdfTimingSpec :=
  loop (fun '(checks, entries) =>
    let* token := next_tok in
    if decide (tok token = RParen /\ entries <> 0%nat) then break (TimingCheck checks)
    else if decide (tok token = LParen) then
      let* (kw, pos) := keyword "of a timing check" in
      let* check := check_entry kw pos in
      continue (match check with Some c => checks ++ [c] | None => checks end, Datatypes.S entries)
    else
      fail (unexpected token
        (if Nat.eqb entries 0 then "`(` of a timing check in TIMINGCHECK"
         else "a timing check or `)` closing TIMINGCHECK")%string)) ([], 0%nat).

(** *** Cells *)

Record cell_state : Type := mkCellState {
  cs_instance : SdfCellInstance;
  cs_specs : list SdfTimingSpec;
  correlation : bool;
  specs_started : bool
}.

Definition push_spec (st : cell_state) (spec : SdfTimingSpec) : cell_state :=
  mkCellState (cs_instance st) (cs_specs st ++ [spec]) (correlation st) true.

(** A repeated INSTANCE entry: the path continues. *)
Definition more_instance (st : cell_state) (keyword_pos : SdfPos) : P cell_state :=
  note_version false "a repeated INSTANCE entry" keyword_pos ;;;
  match cs_instance st with
  | Wildcard =>
      fail (mkError keyword_pos "a wildcard INSTANCE cannot be followed by another INSTANCE")
  | Path components =>
      let* t := peek_tok in
      if decide (t = Word "*") then
        fail (mkError keyword_pos "the wildcard `*` cannot follow another INSTANCE")
      else
        let* more := optional_instance_path in
        close "after the instance path" ;;;
        ret (mkCellState (Path (components ++ more)) (cs_specs st) (correlation st) (specs_started st))
  end.

Definition correlation_entry (st : cell_state) (keyword_pos : SdfPos) : P cell_state :=
  note_version false "CORRELATION" keyword_pos ;;;
  (let* _ := qstring "the CORRELATION entry" in ret tt) ;;;
  let* numbers := count_words (drop_number "a correlation factor" NonNegative) in
  if negb (Nat.eqb numbers 0) && negb (Nat.eqb numbers 1) && negb (Nat.eqb numbers 3) then
    fail (mkError keyword_pos "a correlation factor is one number or three numbers")
  else
    close "after the CORRELATION entry" ;;;
    ret (mkCellState (cs_instance st) (cs_specs st) true (specs_started st)).

(** One entry of a cell after its keyword. *)
Definition cell_entry (st : cell_state) (kw : string) (keyword_pos : SdfPos) : P cell_state :=
  if String.eqb kw "DELAY" then
    let* spec := delay_spec in ret (push_spec st spec)
  else if String.eqb kw "TIMINGCHECK" then
    let* spec := timing_check_spec in ret (push_spec st spec)
  else if String.eqb kw "TIMINGENV" then
    note_version true "TIMINGENV" keyword_pos ;;;
    timing_env_spec ;;;
    ret (push_spec st TimingEnv)
  else if String.eqb kw "INSTANCE" && negb (specs_started st) && negb (correlation st) then
    more_instance st keyword_pos
  else if String.eqb kw "CORRELATION" && negb (specs_started st) && negb (correlation st) then
    correlation_entry st keyword_pos
  else
    fail (unknown_keyword_error kw keyword_pos "a timing specification (DELAY, TIMINGCHECK or TIMINGENV)").

Definition cell (pos : SdfPos) : P SdfCell :=
  open "of the CELLTYPE entry" ;;;
  let* (kw, keyword_pos) := keyword "of the CELLTYPE entry" in
  if negb (String.eqb kw "CELLTYPE") then
    fail (mkError keyword_pos (cat ["a CELL must start with CELLTYPE, found "; ticked kw]%string))
  else
    let* cell_type := qstring "the CELLTYPE entry" in
    close "after the cell type" ;;;
    open "of the INSTANCE entry" ;;;
    let* (kw, keyword_pos) := keyword "of the INSTANCE entry" in
    if negb (String.eqb kw "INSTANCE") then
      fail (mkError keyword_pos (cat ["CELLTYPE must be followed by INSTANCE, found "; ticked kw]%string))
    else
      let* t := peek_tok in
      let* instance :=
        match t with
        | Word w =>
            if String.eqb w "*" then let* _ := next_tok in ret Wildcard
            else let* p := optional_instance_path in ret (Path p)
        | _ => ret (Path [])
        end in
      close "after the instance path" ;;;
      loop (fun st =>
        let* token := next_tok in
        match tok token with
        | RParen => break (mkCell pos cell_type (cs_instance st) (cs_specs st))
        | LParen =>
            let* (kw, keyword_pos) := keyword "of a timing specification" in
            let* st := cell_entry st kw keyword_pos in
            continue st
        | _ => fail (unexpected token "a timing specification or `)` closing the CELL")
        end) (mkCellState instance [] false false).

(** [self.lexer.expect_end()]. *)
Definition reader_expect_end : P unit := zoom lexer set_lexer expect_end.

Definition next_cell : P (option SdfCell) :=
  let* r := get in
  if finished r then ret None
  else
    modify (fun r => set_cell_open r None) ;;;
    match cell_open r with
    | Some at_ => let* c := cell at_ in ret (Some c)
    | None =>
        let* token := next_tok in
        match tok token with
        | RParen =>
            reader_expect_end ;;;
            modify (fun r => set_finished r true) ;;;
            ret None
        | LParen =>
            let* (kw, pos) := keyword "of a CELL entry" in
            if negb (String.eqb kw "CELL") then
              fail (mkError pos (cat ["expected `CELL`, found "; ticked kw]%string))
            else let* c := cell (tok_pos token) in ret (Some c)
        | Eof => fail (mkError (tok_pos token) "the file ends before the DELAYFILE is closed")
        | _ => fail (unexpected token "`(CELL` or the `)` closing the DELAYFILE")
        end
    end.

(** A reader before its header is read. *)
Definition initial (l : L) (limits : SdfLimits) : R :=
  mkReader l limits default_header None false (mkForms false false false) [].

(** [SdfReader::new]. *)
Definition new (l : L) (limits : SdfLimits) : outcome SdfError R :=
  match read_header (initial l limits) with
  | Done (_, r) => Done r
  | Fail e => Fail e
  | Panic w => Panic w
  | NoFuel => NoFuel
  end.

End Reader.

Record SdfFile : Type := mkFile {
  file_header : SdfHeader;
  cells : list SdfCell;
  file_warnings : list SdfWarning
}.

(** Parse a complete file from a lexer at its start. *)
Definition parse_with {L} `{Lexing L} `{Measured L} (l : L) (limits : SdfLimits) : outcome SdfError SdfFile :=
  match (read_header ;;;
         loop (fun cells : list SdfCell =>
           let* c := next_cell in
           match c with
           | Some cell => continue (cells ++ [cell])
           | None => break cells
           end) []) (initial l limits) with
  | Done (cells, r) => Done (mkFile (header r) cells (warnings r))
  | Fail e => Fail e
  | Panic w => Panic w
  | NoFuel => NoFuel
  end.

(** [parse] of the sources: the streaming lexer over a reader. *)
Definition parse (input : Input) (limits : SdfLimits) : outcome SdfError SdfFile :=
  parse_with (Stream.new input limits) limits.

(** The reference: the whole text at once. *)
Definition parse_text (text : bytes) (failure : option string) (limits : SdfLimits) : outcome SdfError SdfFile :=
  parse_with (Flat.new text failure limits) limits.
