(* ===== verification/ParserFacts.v ===== *)
(** * The parser is total, and its records are well-formed

    For any two lexers that return the same tokens ([LexSim]) the parser
    returns the same file or the same error; every loop makes progress, so
    the fuel is enough, and no [panic] of the model is reached. The records
    it returns are well-formed ([cell_ok]). *)

From Stdlib Require Import ZArith Lia Ascii String.
From stdpp Require Import base list strings.
From S2P Require Import Prelude Common Number NumberFacts Lexer Sim LexerFacts Expr ExprFacts Syntax Parser.
Open Scope Z_scope.
Open Scope list_scope.

(** ** Well-formed records *)

Definition num_ok (sign : Sign) (n : SdfNumber) : Prop :=
  number_ok n /\ (sign = NonNegative -> is_negative n = false).

Definition opt_num_ok (sign : Sign) (o : option SdfNumber) : Prop :=
  match o with Some n => num_ok sign n | None => True end.

Definition value_ok (sign : Sign) (v : SdfValue) : Prop :=
  match v with
  | Single n => num_ok sign n
  | Triple a b c =>
      opt_num_ok sign a /\ opt_num_ok sign b /\ opt_num_ok sign c /\ (a, b, c) <> (None, None, None)
  end.

Definition opt_value_ok (sign : Sign) (o : option SdfValue) : Prop :=
  match o with Some v => value_ok sign v | None => True end.

Definition delval_ok (d : SdfDelval) : Prop :=
  opt_value_ok Any (delay d) /\
  match pulse d with
  | Unspecified => True
  | Limits l => opt_value_ok Any (reject l) /\ opt_value_ok Any (error l)
  end.

Definition delvals_ok (ds : SdfDelvalList) : Prop := ds <> [] /\ Forall delval_ok ds.

Definition ident_ok (i : SdfIdent) : Prop :=
  (name i = EmptyString /\ bits i = None) \/ (wf_name (name i) = true /\ wf_opt_bits (bits i) = true).

Definition port_ok (p : SdfPortRef) : Prop := Forall ident_ok (path p) /\ ident_ok (port p).
Definition spec_ok (s : SdfPortSpec) : Prop := port_ok (spec_port s).

Definition cond_ok (c : SdfCondition) : Prop := wf_cond (expr c) = true.
Definition check_cond_ok (c : SdfCondition) : Prop :=
  wf_cond (expr c) = true /\ is_timing_check_condition (expr c) = true.
Definition opt_ok {A} (ok : A -> Prop) (o : option A) : Prop :=
  match o with Some a => ok a | None => True end.

Definition path_condition_ok (c : SdfPathCondition) : Prop :=
  match c with Cond c => cond_ok c | _ => True end.

Definition del_def_ok (d : SdfDelDef) : Prop :=
  match d with
  | IoPath _ condition input output retain delays =>
      path_condition_ok condition /\ spec_ok input /\ port_ok output /\ Forall delvals_ok retain /\ delvals_ok delays
  | Port _ port delays => port_ok port /\ delvals_ok delays
  | Interconnect _ source load delays => port_ok source /\ port_ok load /\ delvals_ok delays
  | NetDelay _ net delays => port_ok net /\ delvals_ok delays
  | Device _ port delays => opt_ok port_ok port /\ delvals_ok delays
  end.

Definition del_type_ok (t : SdfDelType) : Prop :=
  match t with
  | PathPulse _ _ path reject error =>
      opt_ok (fun p => port_ok p.1 /\ port_ok p.2) path
      /\ opt_value_ok NonNegative reject /\ opt_value_ok NonNegative error
  | Absolute defs | Increment defs => defs <> [] /\ Forall del_def_ok defs
  end.

Definition tchk_ok (p : SdfPortTchk) : Prop :=
  opt_ok check_cond_ok (tchk_condition p) /\ spec_ok (tchk_spec p).

(** A timing check has the ports and values of its kind; SCOND and CCOND
    only where the grammar has them; a NOCHANGE control port has an edge. *)
Definition check_ok (c : SdfTimingCheck) : Prop :=
  length (ports c) = port_count (kind c) /\ Forall tchk_ok (ports c)
  /\ length (values c) = value_count (kind c) /\ Forall (opt_value_ok Any) (values c)
  /\ opt_ok check_cond_ok (scond c) /\ opt_ok check_cond_ok (ccond c)
  /\ (has_two_limits (kind c) = false -> scond c = None /\ ccond c = None)
  /\ (kind c = NoChange -> exists p ps e, ports c = p :: ps /\ edge (tchk_spec p) = Some e).

Definition timing_spec_ok (s : SdfTimingSpec) : Prop :=
  match s with
  | Delay deltypes => deltypes <> [] /\ Forall del_type_ok deltypes
  | TimingCheck checks => Forall check_ok checks
  | TimingEnv => True
  end.

Definition instance_ok (i : SdfCellInstance) : Prop :=
  match i with Path components => Forall ident_ok components | Wildcard => True end.

Definition cell_ok (c : SdfCell) : Prop := instance_ok (instance c) /\ Forall timing_spec_ok (specs c).

Lemma value_ok_any sign v : value_ok sign v -> value_ok Any v.
Proof.
  destruct v as [n | a b c]; cbn.
  - intros [H _]. by split.
  - intros (A & B & C & N). destruct a, b, c; cbn in *; unfold num_ok in *; intuition done.
Qed.

Lemma opt_value_ok_any sign o : opt_value_ok sign o -> opt_value_ok Any o.
Proof. destruct o; cbn; [apply value_ok_any | done]. Qed.

(** ** Two readers *)

Section Relation.
Context {L1 L2 : Type} `{X1 : Lexing L1} `{X2 : Lexing L2} `{M1 : Measured L1} `{M2 : Measured L2}.
Context (escape : SdfError -> Prop) (R : L1 -> L2 -> Prop) `{LS : !LexSim escape R}.
Abbreviation orel' := (orel escape).

Record rrel (r1 : SdfReader L1) (r2 : SdfReader L2) : Prop := mkRrel {
  rr_lexer : R (lexer r1) (lexer r2);
  rr_limits : rd_limits r1 = rd_limits r2;
  rr_header : header r1 = header r2;
  rr_cell_open : cell_open r1 = cell_open r2;
  rr_finished : finished r1 = finished r2;
  rr_forms : forms r1 = forms r2;
  rr_warnings : warnings r1 = warnings r2
}.

Lemma rrel_fuel r1 r2 : rrel r1 r2 -> fuel_of r1 = fuel_of r2.
Proof. intros []. by apply (sim_fuel (LexSim := LS)). Qed.

(** What every operation leaves alone: the limits, and the warnings so far;
    outside the header ([hd]), also the header and the cell position. *)
Definition kept (hd : bool) (s t : SdfReader L2) : Prop :=
  rd_limits t = rd_limits s /\ (exists w, warnings t = warnings s ++ w)
  /\ (hd = true -> header t = header s /\ cell_open t = cell_open s /\ finished t = finished s).

Lemma kept_refl hd s : kept hd s s.
Proof. split; [done |]. split; [exists []; by rewrite app_nil_r | done]. Qed.

Lemma kept_trans hd s t u : kept hd s t -> kept hd t u -> kept hd s u.
Proof.
  intros (A1 & (w1 & B1) & C1) (A2 & (w2 & B2) & C2). split; [congruence |]. split.
  - exists (w1 ++ w2). by rewrite B2, B1, app_assoc.
  - intros H. destruct (C1 H) as (? & ? & ?), (C2 H) as (? & ? & ?). split_and!; congruence.
Qed.

(** [st hd s n k t1 t2]: the two readers are related, [s] is kept, and of
    the [n] bytes that were left at least [k] are consumed. *)
Definition st (hd : bool) (s : SdfReader L2) (n k : nat) (t1 : SdfReader L1) (t2 : SdfReader L2) : Prop :=
  rrel t1 t2 /\ kept hd s t2 /\ (fuel_of t2 + k <= n)%nat.

Lemma st_start hd r1 r2 : rrel r1 r2 -> st hd r2 (fuel_of r2) 0 r1 r2.
Proof. intros H. split; [done |]. split; [apply kept_refl | lia]. Qed.

Lemma st_weaken hd s n k k' t1 t2 : st hd s n k t1 t2 -> (k' <= k)%nat -> st hd s n k' t1 t2.
Proof. intros (A & B & C) L. split; [done |]. split; [done | lia]. Qed.

Lemma st_trans hd s n k t1 t2 j u1 u2 :
  st hd s n k t1 t2 -> st hd t2 (fuel_of t2) j u1 u2 -> st hd s n (k + j) u1 u2.
Proof.
  intros (A & B & C) (A' & B' & C'). split; [done |].
  split; [by eapply kept_trans | lia].
Qed.

Lemma st_rrel hd s n k t1 t2 : st hd s n k t1 t2 -> rrel t1 t2.
Proof. by intros []. Qed.

(** A loop whose continuing iterations each consume a byte. *)
Lemma loop_st {A B} hd (I : A -> Prop) (Q : B -> Prop) kb
  (body1 : A -> M SdfError (SdfReader L1) (A + B)) (body2 : A -> M SdfError (SdfReader L2) (A + B))
  s n k a s1 s2 :
  st hd s n k s1 s2 -> I a ->
  (forall a u1 u2, st hd u2 (fuel_of u2) 0 u1 u2 -> I a ->
     orel' (fun r v1 v2 => match r with
                           | inl a' => I a' /\ st hd u2 (fuel_of u2) 1 v1 v2
                           | inr b => Q b /\ st hd u2 (fuel_of u2) kb v1 v2
                           end) (body1 a u1) (body2 a u2)) ->
  orel' (fun b v1 v2 => Q b /\ st hd s n (k + kb) v1 v2) (loop body1 a s1) (loop body2 a s2).
Proof.
  intros S0 I0 Step.
  apply (orel_loop _ (fun a v1 v2 => I a /\ st hd s n k v1 v2)).
  - eapply rrel_fuel, st_rrel, S0.
  - done.
  - intros a' u1 u2 [Ia Su].
    eapply orel_weaken; [| apply Step; [eapply st_start, st_rrel, Su | exact Ia]].
    intros [a'' | b] v1 v2; cbn beta iota; intros [H Sv].
    + pose proof (st_trans _ _ _ _ _ _ _ _ _ Su Sv) as Sv'. destruct Sv as (_ & _ & F).
      split; [split; [done | eapply st_weaken; [exact Sv' | lia]] | lia].
    + split; [done |]. by eapply st_trans.
Qed.

(** *** Steps

    [ran ok k] is the postcondition of an operation that returns a value
    satisfying [ok] after [k] bytes in all. *)
Definition ran {A} (hd : bool) (s : SdfReader L2) (n k : nat) (ok : A -> Prop)
  (a : A) (t1 : SdfReader L1) (t2 : SdfReader L2) : Prop := ok a /\ st hd s n k t1 t2.

Definition anything {A} (_ : A) : Prop := True.

Lemma modify_st hd s n k s1 s2 (f1 : SdfReader L1 -> SdfReader L1) (f2 : SdfReader L2 -> SdfReader L2) :
  st hd s n k s1 s2 -> rrel (f1 s1) (f2 s2) -> kept hd s2 (f2 s2) -> lexer (f2 s2) = lexer s2 ->
  orel' (ran hd s n k anything) (modify f1 s1) (modify f2 s2).
Proof.
  intros (A & B & C) Rl K F. apply orel_modify. split; [done |]. split; [done |].
  split; [by eapply kept_trans |]. unfold fuel_of, reader_measured in *. by rewrite F.
Qed.

Lemma v21_st hd s n k s1 s2 :
  st hd s n k s1 s2 -> orel' (ran hd s n k anything) (v21 s1) (v21 s2).
Proof. intros S0. apply orel_gets; [| by split]. by rewrite (rr_header _ _ (st_rrel _ _ _ _ _ _ S0)). Qed.

Lemma warn_st hd s n k s1 s2 pos message :
  st hd s n k s1 s2 -> orel' (ran hd s n k anything) (warn pos message s1) (warn pos message s2).
Proof.
  intros S0. destruct (st_rrel _ _ _ _ _ _ S0) as [? ? ? ? ? ? W].
  eapply modify_st; [exact S0 | | | done].
  - constructor; auto. cbn. by rewrite W.
  - split; [done |]. split; [cbn; eauto | done].
Qed.

Lemma ret_st {A} hd s n k k' s1 s2 (ok : A -> Prop) a :
  st hd s n k s1 s2 -> (k' <= k)%nat -> ok a -> orel' (ran hd s n k' ok) (ret a s1) (ret a s2).
Proof. intros S0 L H. apply orel_ret. split; [done | by eapply st_weaken]. Qed.

Lemma when_st hd s n k s1 s2 c (m1 : M SdfError (SdfReader L1) unit) (m2 : M SdfError (SdfReader L2) unit) :
  st hd s n k s1 s2 -> orel' (ran hd s n k anything) (m1 s1) (m2 s2) ->
  orel' (ran hd s n k anything) (when c m1 s1) (when c m2 s2).
Proof. intros S0 H. apply orel_when; [done |]. by intros _. Qed.

Create HintDb sim.
Lemma ran_weaken {A} hd s n k k' (ok ok' : A -> Prop) o1 o2 :
  orel' (ran hd s n k ok) o1 o2 -> (k' <= k)%nat -> (forall a, ok a -> ok' a) ->
  orel' (ran hd s n k' ok') o1 o2.
Proof.
  intros H L W. eapply orel_weaken; [| exact H]. intros a u1 u2 [Ok St].
  split; [auto | by eapply st_weaken].
Qed.

#[local] Hint Resolve v21_st warn_st : sim.
#[local] Hint Extern 3 (anything _) => exact Logic.I : sim.

(** One step of a computation: apply the lemma of its head. *)
Ltac bstep :=
  eapply orel_bind; [solve [eauto with sim] |];
  let a := fresh "a" in let H := fresh "Ok" in let S := fresh "St" in
  intros a ? ? [H S]; cbn beta in H;
  try match type of a with
      | prod _ _ => let x := fresh "x" in let y := fresh "y" in destruct a as [x y]
      end.

Ltac fin :=
  match goal with
  | H : st _ _ _ _ ?t1 ?t2 |- orel _ (ran _ _ _ _ _) (ret _ ?t1) (ret _ ?t2) =>
      eapply ret_st; [exact H | lia | try done]
  end.

Lemma other_version_st hd s n k s1 s2 what pos :
  st hd s n k s1 s2 -> orel' (ran hd s n k anything) (other_version what pos s1) (other_version what pos s2).
Proof. intros S0. unfold other_version. bstep. eauto with sim. Qed.

#[local] Hint Resolve other_version_st : sim.

Lemma note_version_st hd s n k s1 s2 old what pos :
  st hd s n k s1 s2 ->
  orel' (ran hd s n k anything) (note_version old what pos s1) (note_version old what pos s2).
Proof. intros S0. unfold note_version. bstep. apply when_st; eauto with sim. Qed.

(** A token operation of the lexer. *)
Lemma lexer_st {A} hd s n k k' s1 s2 (m1 : M SdfError L1 A) (m2 : M SdfError L2 A)
  (Q : A -> L1 -> L2 -> Prop) (Q' : A -> SdfReader L1 -> SdfReader L2 -> Prop) :
  st hd s n k s1 s2 ->
  orel' Q (m1 (lexer s1)) (m2 (lexer s2)) ->
  (forall a l1 l2, Q a l1 l2 -> R l1 l2 /\ (fuel_of l2 + k' <= fuel_of (lexer s2))%nat) ->
  (forall a l1 l2, Q a l1 l2 ->
     st hd s n (k + k') (set_lexer s1 l1) (set_lexer s2 l2) -> Q' a (set_lexer s1 l1) (set_lexer s2 l2)) ->
  orel' Q' (zoom lexer set_lexer m1 s1) (zoom lexer set_lexer m2 s2).
Proof.
  intros (Rl & K & F) H W W'. eapply orel_zoom; [exact H |]. intros a l1 l2 Hq.
  destruct (W _ _ _ Hq) as [R' Fl]. apply W'; [done |]. destruct Rl.
  split; [by constructor |]. split; [exact K |].
  change (fuel_of (set_lexer s2 l2)) with (fuel_of l2).
  change (fuel_of s2) with (fuel_of (lexer s2)) in F. lia.
Qed.

Lemma next_tok_st hd s n k s1 s2 :
  st hd s n k s1 s2 ->
  orel' (fun t t1 t2 => (tok t <> Eof -> st hd s n (Datatypes.S k) t1 t2) /\ st hd s n k t1 t2)
    (next_tok s1) (next_tok s2).
Proof.
  intros S0. destruct (S0) as (Rl & K & F). destruct (Rl) as [Rx ? ? ? ? ? ?].
  eapply (lexer_st hd s n k 0); [exact S0 | apply (sim_next (LexSim := LS)), Rx | |]; cbn beta.
  - intros t l1 l2 (R' & Fl & _). split; [done | lia].
  - intros t l1 l2 (R' & Fl & Fs & _) Sk. rewrite Nat.add_0_r in Sk. split; [| done].
    intros Ne. apply Fs in Ne. destruct Sk as (Rk & Kk & _). split; [done |]. split; [done |].
    change (fuel_of (set_lexer s2 l2)) with (fuel_of l2).
    change (fuel_of s2) with (fuel_of (lexer s2)) in F. lia.
Qed.

Lemma peek_tok_st hd s n k s1 s2 :
  st hd s n k s1 s2 ->
  orel' (fun t t1 t2 => (exists token, tok token = t /\ peeked (lexer t2) = Some token
                                       /\ usable token Structure = true) /\ st hd s n k t1 t2)
    (peek_tok s1) (peek_tok s2).
Proof.
  intros S0. pose proof (rr_lexer _ _ (st_rrel _ _ _ _ _ _ S0)) as Rx. unfold peek_tok.
  eapply (orel_bind _ (fun t t1 t2 => (peeked (lexer t2) = Some t /\ usable t Structure = true)
                                      /\ st hd s n k t1 t2)).
  - eapply (lexer_st hd s n k 0); [exact S0 | apply (sim_peek (LexSim := LS)), Rx | |]; cbn beta.
    + intros t l1 l2 (R' & Fl & _). split; [done | lia].
    + intros t l1 l2 (R' & Fl & Pk & U) Sk. rewrite Nat.add_0_r in Sk. done.
  - intros t t1 t2 [[Pk U] Sk]. apply orel_ret. eauto.
Qed.

#[local] Hint Resolve note_version_st next_tok_st peek_tok_st : sim.

(** A token other than the end of the file was read. *)
Ltac read_token :=
  match goal with
  | H : _ <> Eof -> st _ _ _ _ ?t1 ?t2, W : st _ _ _ _ ?t1 ?t2 |- _ =>
      specialize (H ltac:(congruence)); clear W
  end.

Lemma open_st hd s n k s1 s2 context :
  st hd s n k s1 s2 -> orel' (ran hd s n (Datatypes.S k) anything) (open context s1) (open context s2).
Proof.
  intros S0. unfold open. bstep. destruct (tok a) eqn:T; try apply orel_fail. read_token. fin.
Qed.

Lemma close_st hd s n k s1 s2 context :
  st hd s n k s1 s2 -> orel' (ran hd s n (Datatypes.S k) anything) (close context s1) (close context s2).
Proof.
  intros S0. unfold close. bstep. destruct (tok a) eqn:T; try apply orel_fail. read_token. fin.
Qed.

Lemma keyword_st hd s n k s1 s2 context :
  st hd s n k s1 s2 -> orel' (ran hd s n (Datatypes.S k) anything) (keyword context s1) (keyword context s2).
Proof.
  intros S0. unfold keyword. bstep. destruct (tok a) eqn:T; try apply orel_fail. read_token. fin.
Qed.

Lemma qstring_st hd s n k s1 s2 what :
  st hd s n k s1 s2 -> orel' (ran hd s n (Datatypes.S k) anything) (qstring what s1) (qstring what s2).
Proof.
  intros S0. unfold qstring. bstep. destruct (tok a) eqn:T; try apply orel_fail. read_token. fin.
Qed.

Lemma word_st hd s n k s1 s2 what :
  st hd s n k s1 s2 -> orel' (ran hd s n (Datatypes.S k) anything) (word what s1) (word what s2).
Proof.
  intros S0. unfold word. bstep. destruct (tok a) eqn:T; try apply orel_fail. read_token. fin.
Qed.

#[local] Hint Resolve open_st close_st keyword_st qstring_st word_st : sim.

(** *** Numbers and values *)

Lemma number_st hd s n k s1 s2 text pos sign :
  st hd s n k s1 s2 -> orel' (ran hd s n k (num_ok sign)) (number text pos sign s1) (number text pos sign s2).
Proof.
  intros S0. unfold number. pose proof (parse_range text) as P.
  destruct (Number.parse text) as [m | e | |]; try done; [| apply orel_fail]. cbn in P.
  destruct (_ && _) eqn:C.
  - bstep. fin. split; [exact zero_ok | done].
  - fin. split; [done |]. intros ->. apply andb_false_iff in C as [C | C]; [by apply bool_decide_eq_false in C | done].
Qed.

#[local] Hint Resolve number_st : sim.

Lemma triple_member_st hd s n k s1 s2 part pos sign :
  st hd s n k s1 s2 ->
  orel' (ran hd s n k (opt_num_ok sign)) (triple_member part pos sign s1) (triple_member part pos sign s2).
Proof. intros S0. unfold triple_member. destruct part; [fin |]. bstep. fin. Qed.

#[local] Hint Resolve triple_member_st : sim.

Lemma get_st hd s n k s1 s2 {A} (Q : A -> SdfReader L1 -> SdfReader L2 -> Prop)
  (k1 : SdfReader L1 -> M SdfError (SdfReader L1) A) (k2 : SdfReader L2 -> M SdfError (SdfReader L2) A) :
  st hd s n k s1 s2 -> orel' Q (k1 s1 s1) (k2 s2 s2) -> orel' Q (bind get k1 s1) (bind get k2 s2).
Proof. done. Qed.

Lemma kept_forms hd s f : kept hd s (set_forms s f).
Proof. split; [done |]. split; [exists []; by rewrite app_nil_r | done]. Qed.

Lemma track_form_st hd s n k s1 s2 v pos :
  st hd s n k s1 s2 -> orel' (ran hd s n k anything) (track_form v pos s1) (track_form v pos s2).
Proof.
  intros S0. unfold track_form.
  pose proof (rr_forms _ _ (st_rrel _ _ _ _ _ _ S0)) as Ff.
  eapply orel_bind.
  { apply (modify_st hd s n k); [exact S0 | | | done].
    - destruct (st_rrel _ _ _ _ _ _ S0). constructor; cbn; auto. by rewrite Ff.
    - apply kept_forms. }
  intros _ t1 t2 [_ St]. cbn beta. eapply get_st; [exact St |].
  rewrite (rr_forms _ _ (st_rrel _ _ _ _ _ _ St)). apply when_st; [exact St |].
  eapply orel_bind.
  { apply (modify_st hd s n k); [exact St | | | done].
    - destruct (st_rrel _ _ _ _ _ _ St). by constructor.
    - apply kept_forms. }
  intros _ u1 u2 [_ Su]. eauto with sim.
Qed.

#[local] Hint Resolve track_form_st : sim.

Lemma split_on_colons bs :
  length (split_on ":"%char bs) = Datatypes.S (colons bs).
Proof.
  unfold colons. induction bs as [| b bs IH]; [done |]. cbn [split_on List.filter].
  rewrite (Ascii.eqb_sym ":"%char b). destruct (Ascii.eqb b ":"%char); cbn [length]; [by rewrite IH |].
  destruct (split_on ":"%char bs); [done |]. exact IH.
Qed.

Lemma value_word_st hd s n k s1 s2 text pos sign track :
  st hd s n k s1 s2 ->
  orel' (ran hd s n k (opt_value_ok sign)) (value_word text pos sign track s1) (value_word text pos sign track s2).
Proof.
  intros S0. unfold value_word.
  eapply (orel_bind _ (ran hd s n k (opt_value_ok sign))).
  - destruct (Nat.ltb _ _); [| bstep; fin].
    destruct (Nat.eqb_spec (colons (unstr text)) 2) as [E | _]; [cbn [negb] | apply orel_fail].
    pose proof (split_on_colons (unstr text)) as Ln. rewrite E in Ln.
    destruct (split_on _ _) as [| x [| y [| z [| ? ?]]]]; try done.
    bstep. bstep. bstep.
    destruct a as [a |], a0 as [b |], a1 as [c |]; try (fin; cbn; split_and!; done).
    bstep. fin.
  - intros [v |] t1 t2 [Ok St]; [| fin]. eapply orel_bind; [apply when_st; eauto with sim |].
    intros _ u1 u2 [_ Su]. fin.
Qed.

#[local] Hint Resolve value_word_st : sim.

Lemma value_after_open_st hd s n k s1 s2 at_ sign what :
  st hd s n k s1 s2 ->
  orel' (ran hd s n (Datatypes.S k) (opt_value_ok sign))
    (value_after_open at_ sign what s1) (value_after_open at_ sign what s2).
Proof.
  intros S0. unfold value_after_open. bstep. destruct (tok a) eqn:T; try apply orel_fail; read_token.
  - bstep. fin.
  - bstep. bstep. fin.
Qed.

Lemma value_st hd s n k s1 s2 sign what :
  st hd s n k s1 s2 ->
  orel' (ran hd s n (Datatypes.S k) (opt_value_ok sign)) (value sign what s1) (value sign what s2).
Proof.
  intros S0. unfold value. bstep. eapply ran_weaken; [by eapply value_after_open_st | lia | done].
Qed.

Lemma delay_rvalue_st hd s n k s1 s2 :
  st hd s n k s1 s2 ->
  orel' (ran hd s n (Datatypes.S k) (opt_value_ok Any)) (delay_rvalue_after_open s1) (delay_rvalue_after_open s2).
Proof.
  intros S0. unfold delay_rvalue_after_open. bstep.
  destruct (tok a) eqn:T; try apply orel_fail; read_token; [fin |]. bstep. bstep. fin.
Qed.

#[local] Hint Resolve value_after_open_st value_st delay_rvalue_st : sim.

(** The reject and error limits of a delay value. *)
Lemma limits_loop_st hd s n k s1 s2 :
  st hd s n k s1 s2 ->
  let body {L} `{Lexing L} `{Measured L} : list (option SdfValue) ->
      M SdfError (SdfReader L) (list (option SdfValue) + list (option SdfValue)) := fun limits =>
    let* token := next_tok in
    match tok token with
    | RParen => break limits
    | LParen =>
        if Nat.ltb (length limits) 2 then
          let* limit := delay_rvalue_after_open in
          continue (limits ++ [limit])
        else
          fail (mkError (tok_pos token)
            "a delay value has at most a delay, a reject limit and an error limit")
    | _ => fail (unexpected token "`(` or `)` in a delay value")
    end in
  orel' (ran hd s n (k + 1) (fun ls => Forall (opt_value_ok Any) ls /\ (length ls <= 2)%nat))
    (loop body [] s1) (loop body [] s2).
Proof.
  intros S0 body. eapply (loop_st hd (fun ls => Forall (opt_value_ok Any) ls /\ (length ls <= 2)%nat) _ 1);
    [exact S0 | split; [constructor | simpl; lia] |].
  intros ls u1 u2 Su [Hls Hl]. unfold body. bstep.
  destruct (tok a) eqn:T; try apply orel_fail; read_token.
  - destruct (Nat.ltb_spec (length ls) 2); [| apply orel_fail]. bstep.
    apply orel_ret. split; [| eapply st_weaken; [eassumption | lia]].
    split; [apply Forall_app; auto | rewrite length_app; simpl; lia].
  - apply orel_ret. split; [done | eapply st_weaken; [eassumption | lia]].
Qed.

Lemma delval_after_open_st hd s n k s1 s2 :
  st hd s n k s1 s2 ->
  orel' (ran hd s n (Datatypes.S k) delval_ok) (delval_after_open s1) (delval_after_open s2).
Proof.
  intros S0. unfold delval_after_open. bstep. destruct (decide _); [bstep; fin |].
  bstep. bstep. bstep.
  eapply orel_bind; [by eapply limits_loop_st |]. intros ls u1 u2 [[Hl Ln] Su].
  destruct ls as [| x [| y [| z ls]]]; [apply orel_fail | | | cbn in Ln; lia].
  - apply Forall_cons in Hl as [Hx _]. fin.
  - apply Forall_cons in Hl as [Hx Hl]. apply Forall_cons in Hl as [Hy _]. fin.
Qed.

#[local] Hint Resolve delval_after_open_st : sim.

Lemma too_many_values_st hd s n k s1 s2 thirteenth what :
  st hd s n k s1 s2 ->
  orel' (ran hd s n k anything) (too_many_values thirteenth what s1) (too_many_values thirteenth what s2).
Proof. intros S0. unfold too_many_values. destruct thirteenth; [eauto with sim | fin]. Qed.

Lemma finish_delval_list_st hd s n k s1 s2 ds what :
  st hd s n k s1 s2 -> Forall delval_ok ds ->
  orel' (ran hd s n k delvals_ok) (finish_delval_list ds what s1) (finish_delval_list ds what s2).
Proof.
  intros S0 H. unfold finish_delval_list. destruct ds; [bstep; apply orel_fail |]. fin.
Qed.

#[local] Hint Resolve too_many_values_st finish_delval_list_st : sim.

Lemma delval_list_st hd s n k s1 s2 what :
  st hd s n k s1 s2 -> orel' (ran hd s n k delvals_ok) (delval_list what s1) (delval_list what s2).
Proof.
  intros S0. unfold delval_list. eapply orel_bind.
  - eapply (loop_st hd (fun x => Forall delval_ok x.1) (fun x => Forall delval_ok x.1) 0); [exact S0 | constructor |].
    intros [ds th] u1 u2 Su Hd. cbn [fst] in Hd. bstep.
    destruct (decide _); [| apply orel_ret; done]. bstep. bstep.
    apply orel_ret. split; [cbn; apply Forall_app; auto | eapply st_weaken; [eassumption | lia]].
  - intros [ds th] t1 t2 [Hd St]. rewrite Nat.add_0_r in St. cbn in Hd. bstep. eauto with sim.
Qed.

#[local] Hint Resolve delval_list_st : sim.

(** *** Names *)

Lemma split_path_nonempty d o bs cur : exists p ps, (split_path d o bs cur).1 = p :: ps.
Proof.
  revert cur. induction bs as [bs IH] using (induction_ltof1 _ length). unfold ltof in IH. intros cur.
  destruct bs as [| b bs]; [cbn; eauto |]. cbn [split_path].
  destruct (Ascii.eqb b backslash).
  - destruct bs as [| e bs]; [cbn; eauto |]. apply IH. cbn. lia.
  - destruct (Ascii.eqb b d).
    + destruct (split_path d o bs []). cbn. eauto.
    + destruct (IH bs ltac:(cbn; lia) (cur ++ [b])) as (p & ps & E).
      destruct (split_path d o bs (cur ++ [b])). cbn in *. eauto.
Qed.

Lemma path_component_st hd s n k s1 s2 w pos what other found acc part :
  st hd s n k s1 s2 -> Forall ident_ok acc.1 ->
  orel' (ran hd s n k (fun acc' => Forall ident_ok acc'.1 /\ length acc'.1 = Datatypes.S (length acc.1)))
    (path_component w pos what other found acc part s1) (path_component w pos what other found acc part s2).
Proof.
  intros S0 H. unfold path_component. destruct acc as [idents warned]. cbn [fst] in *.
  destruct part as [| b part].
  - eapply get_st; [exact S0 |]. rewrite (rr_header _ _ (st_rrel _ _ _ _ _ _ S0)).
    eapply orel_bind; [apply when_st; eauto with sim |]. intros _ t1 t2 [_ St]. fin.
    cbn. rewrite length_app. cbn. split; [| lia]. apply Forall_app. split; [done |]. constructor; [| done]. by left.
  - destruct (String.eqb _ _); [apply orel_fail |].
    destruct (split_identifier _ _) as [| [nm bs]] eqn:Si; [apply orel_fail |].
    apply split_identifier_wf in Si. fin.
    cbn. rewrite length_app. cbn. split; [| lia]. apply Forall_app. split; [done |]. constructor; [| done]. by right.
Qed.

Lemma path_components_st hd s n k s1 s2 w pos what :
  st hd s n k s1 s2 ->
  orel' (ran hd s n k (fun ids => Forall ident_ok ids /\ ids <> []))
    (path_components w pos what s1) (path_components w pos what s2).
Proof.
  intros S0. unfold path_components. eapply get_st; [exact S0 |].
  rewrite (rr_header _ _ (st_rrel _ _ _ _ _ _ S0)), (rr_limits _ _ (st_rrel _ _ _ _ _ _ S0)).
  set (d := divider (header s2)). set (o := if Ascii.eqb d "."%char then "/"%char else "."%char).
  destruct (split_path_nonempty d o (unstr w) []) as (p & ps & E).
  destruct (split_path d o (unstr w) []) as [parts found]. cbn [fst] in E. subst parts.
  destruct (_ >? _); [apply orel_fail |].
  eapply orel_bind; [apply when_st; eauto with sim |]. intros _ t1 t2 [_ St].
  eapply (orel_bind _ (ran hd s n k (fun acc => Forall ident_ok acc.1 /\ acc.1 <> []))).
  - cbn [fold_m]. eapply orel_bind; [apply path_component_st; [exact St | constructor] |].
    intros acc u1 u2 [[H1 H2] Su]. cbn in H2.
    apply (orel_fold _ (ran hd s n k (fun acc => Forall ident_ok acc.1 /\ acc.1 <> []))).
    + split; [| done]. split; [done |]. intros Z. by rewrite Z in H2.
    + clear. intros x acc t1 t2 _ [[H1 H2] St].
      eapply orel_weaken; [| by apply path_component_st].
      intros acc' u1 u2 [[H3 H4] Su]. split; [| done]. split; [done |]. intros Z. by rewrite Z in H4.
  - intros [ids e] u1 u2 [H Su]. fin.
Qed.

#[local] Hint Resolve path_components_st : sim.

Lemma check_instance_st hd s n k s1 s2 cs pos w :
  st hd s n k s1 s2 ->
  orel' (ran hd s n k anything) (check_instance_components cs pos w s1) (check_instance_components cs pos w s2).
Proof. intros S0. apply when_st; eauto with sim. Qed.

#[local] Hint Resolve check_instance_st : sim.

Lemma port_from_word_st hd s n k s1 s2 w pos :
  st hd s n k s1 s2 -> orel' (ran hd s n k port_ok) (port_from_word w pos s1) (port_from_word w pos s2).
Proof.
  intros S0. unfold port_from_word. bstep. destruct Ok as [H Ne].
  destruct a as [| i ids _] using rev_ind; [done |]. rewrite last_snoc.
  apply Forall_app in H as [H1 H2]. apply Forall_cons in H2 as [H2 _].
  rewrite removelast_last. bstep. fin.
Qed.

#[local] Hint Resolve port_from_word_st : sim.

Lemma optional_instance_path_st hd s n k s1 s2 :
  st hd s n k s1 s2 ->
  orel' (ran hd s n k (Forall ident_ok)) (optional_instance_path s1) (optional_instance_path s2).
Proof.
  intros S0. unfold optional_instance_path. bstep. destruct a; try fin; try constructor.
  bstep. destruct (String.eqb _ "*"); [apply orel_fail |].
  bstep. bstep. fin. by destruct Ok1.
Qed.

#[local] Hint Resolve optional_instance_path_st : sim.

Lemma port_instance_st hd s n k s1 s2 what :
  st hd s n k s1 s2 ->
  orel' (ran hd s n (Datatypes.S k) port_ok) (port_instance what s1) (port_instance what s2).
Proof.
  intros S0. unfold port_instance. bstep. destruct (decide _).
  - do 3 bstep. destruct (negb _); [apply orel_fail |].
    do 4 bstep. fin. split; [| by apply Ok6]. apply Forall_app. split; [done | by apply Ok6].
  - bstep. eauto with sim.
Qed.

Lemma edge_spec_st hd s n k s1 s2 what :
  st hd s n k s1 s2 ->
  orel' (ran hd s n (Datatypes.S k) spec_ok) (edge_spec_after_open what s1) (edge_spec_after_open what s2).
Proof.
  intros S0. unfold edge_spec_after_open. bstep.
  destruct (edge_from_word _) as [e |]; [| apply orel_fail].
  do 3 bstep. fin.
Qed.

#[local] Hint Resolve port_instance_st edge_spec_st : sim.

Lemma port_spec_st hd s n k s1 s2 what :
  st hd s n k s1 s2 -> orel' (ran hd s n (Datatypes.S k) spec_ok) (port_spec what s1) (port_spec what s2).
Proof.
  intros S0. unfold port_spec. bstep. destruct (decide _); [bstep; fin |]. bstep. eauto with sim.
Qed.

#[local] Hint Resolve port_spec_st : sim.

(** *** Header *)

Lemma timescale_st hd s n k s1 s2 :
  st hd s n k s1 s2 -> orel' (ran hd s n (Datatypes.S k) anything) (timescale s1) (timescale s2).
Proof.
  intros S0. unfold timescale. bstep.
  eapply (orel_bind _ (ran hd s n (Datatypes.S k) anything)).
  - destruct (drop _ _); [| by fin]. eapply ran_weaken; [by apply word_st | lia | done].
  - intros [u up] t3 t4 [_ Su]. destruct (multiplier_of _); [| apply orel_fail].
    destruct (time_unit_of _); [fin | apply orel_fail].
Qed.

Lemma update_header_st s n k s1 s2 f :
  st false s n k s1 s2 -> orel' (ran false s n k anything) (update_header f s1) (update_header f s2).
Proof.
  intros S0. destruct (st_rrel _ _ _ _ _ _ S0) as [? ? Hh ? ? ? ?].
  apply (modify_st false s n k); [exact S0 | | | done].
  - constructor; cbn; auto. by rewrite Hh.
  - split; [done |]. split; [exists []; by rewrite app_nil_r | done].
Qed.

#[local] Hint Resolve timescale_st update_header_st : sim.

Lemma position_lookup kw l i : position kw l = Some i -> l !! i = Some kw.
Proof.
  revert i. induction l as [| e l IH]; intros i; cbn [position]; [done |].
  destruct (String.eqb_spec e kw) as [-> | _]; [by intros [= <-] |].
  destruct (position kw l) as [j |]; [| done]. intros [= <-]. by apply IH.
Qed.

Lemma header_entry_st s n k s1 s2 kw :
  st false s n k s1 s2 -> kw ∈ HEADER_ORDER ->
  orel' (ran false s n k anything) (header_entry kw s1) (header_entry kw s2).
Proof.
  intros S0 H. unfold header_entry.
  let entry e := (destruct (String.eqb_spec kw e) as [_ | ?];
        [bstep; eapply ran_weaken; [by eapply update_header_st | lia | done] |]) in
  entry "DESIGN"%string; entry "DATE"%string; entry "VENDOR"%string; entry "PROGRAM"%string;
  entry "VERSION"%string; entry "PROCESS"%string.
  destruct (String.eqb_spec kw "DIVIDER") as [_ | ?].
  { bstep. repeat destruct (String.eqb _ _); try apply orel_fail;
      (eapply ran_weaken; [by eapply update_header_st | lia | done]). }
  destruct (_ || _) eqn:V.
  { bstep. bstep. destruct (String.eqb _ _); (eapply ran_weaken; [by eapply update_header_st | lia | done]). }
  destruct (String.eqb_spec kw "TIMESCALE") as [_ | ?].
  { bstep. eapply ran_weaken; [by eapply update_header_st | lia | done]. }
  exfalso. apply orb_false_iff in V as [V1 V2]. apply String.eqb_neq in V1, V2.
  unfold HEADER_ORDER in H. rewrite !elem_of_cons, elem_of_nil in H. tauto.
Qed.

#[local] Hint Resolve header_entry_st : sim.

Lemma fuel_cell_open (r : SdfReader L2) o : fuel_of (set_cell_open r o) = fuel_of r.
Proof. done. Qed.

Lemma header_step_st s1 s2 last :
  (forall i, last = Some i -> is_Some (HEADER_ORDER !! i)) ->
  st false s2 (fuel_of s2) 0 s1 s2 ->
  orel' (fun r v1 v2 => match r with
           | inl last' => (forall i, last' = Some i -> is_Some (HEADER_ORDER !! i))
                          /\ st false s2 (fuel_of s2) 1 v1 v2
           | inr b => is_Some (cell_open v2) /\ st false s2 (fuel_of s2) 0 v1 v2
           end) (header_step last s1) (header_step last s2).
Proof.
  intros Hl S0. unfold header_step. bstep. destruct (decide _); [bstep; apply orel_fail |].
  bstep. bstep. destruct (String.eqb _ "CELL").
  { eapply orel_bind.
    - eapply orel_modify. instantiate (1 := fun _ v1 v2 => is_Some (cell_open v2) /\ st false s2 (fuel_of s2) 0 v1 v2).
      split; [by eexists |].
      match goal with H : st _ _ _ 2 _ _ |- _ => destruct H as ([] & (K1 & K2 & _) & F) end.
      split; [by constructor |]. split; [by split; [| split] |].
      rewrite fuel_cell_open. lia.
    - intros [] v1 v2 H. by apply orel_ret. }
  destruct (position _ HEADER_ORDER) as [order |] eqn:Po; [| apply orel_fail].
  apply position_lookup in Po.
  eapply (orel_bind _ (ran false s2 (fuel_of s2) 2 anything)).
  { destruct last as [i |]; [| fin]. destruct (Nat.leb _ _); [| fin].
    destruct (Hl i eq_refl) as [e ->]. apply orel_fail. }
  intros _ ? ? [_ Sx].
  eapply orel_bind; [eapply header_entry_st; [exact Sx | by eapply list_elem_of_lookup_2] |].
  intros _ ? ? [_ Sy]. bstep. apply orel_ret.
  split; [intros i [= <-]; by eexists | eapply st_weaken; [eassumption | lia]].
Qed.

Lemma read_header_st s n k s1 s2 :
  st false s n k s1 s2 -> orel' (ran false s n k anything) (read_header s1) (read_header s2).
Proof.
  intros S0. unfold read_header. bstep. bstep. destruct (negb _); [apply orel_fail |].
  bstep. bstep. destruct (negb _); [apply orel_fail |]. bstep.
  destruct (detect_version _) as [ver warning].
  eapply (orel_bind _ (ran false s n k anything)).
  { destruct warning; [eapply ran_weaken; [by eapply warn_st | lia | done] | fin]. }
  intros _ ? ? [_ Sx]. bstep. bstep.
  eapply ran_weaken; [eapply (loop_st false (fun last => forall i, last = Some i -> is_Some (HEADER_ORDER !! i)) anything 0) | |].
  - eassumption.
  - done.
  - intros last u1 u2 Su Hlast. eapply orel_weaken; [| by apply header_step_st].
    intros [l | b] v1 v2 [H Sv]; [done |]. by split.
  - lia.
  - done.
Qed.

(** *** Conditions *)

(** The next token after a peek is the peeked one. *)
Lemma next_peeked_st hd s n k s1 s2 token :
  st hd s n k s1 s2 -> peeked (lexer s2) = Some token -> usable token Structure = true ->
  orel' (fun t t1 t2 => t = token /\ st hd s n k t1 t2) (next_tok s1) (next_tok s2).
Proof.
  intros S0 Pk U. destruct (st_rrel _ _ _ _ _ _ S0) as [Rx ? ? ? ? ? ?].
  eapply (lexer_st hd s n k 0); [exact S0 | apply (sim_next (LexSim := LS)), Rx | |]; cbn beta.
  - intros t l1 l2 (R' & Fl & _). split; [done | lia].
  - intros t l1 l2 (_ & _ & _ & P) Sk. rewrite Nat.add_0_r in Sk. split; [| done]. by apply P.
Qed.

Lemma optional_label_st hd s n k s1 s2 :
  st hd s n k s1 s2 -> orel' (ran hd s n k anything) (optional_label s1) (optional_label s2).
Proof.
  intros S0. unfold optional_label. bstep. destruct Ok as (token & T & Pk & U).
  destruct a; try fin.
  eapply orel_bind; [by eapply next_peeked_st |]. intros t u1 u2 [-> Su]. rewrite T. bstep. fin.
Qed.

Lemma with_expr_st {A} hd s n k s1 s2 (m1 : M SdfError (ExprParser L1) A) (m2 : M SdfError (ExprParser L2) A)
  (ok : A -> Prop) :
  st hd s n k s1 s2 ->
  (forall e1 e2, erel R e1 e2 ->
     orel' (fun a t1 t2 => ok a /\ erel R t1 t2 /\ (fuel_of t2 < fuel_of e2)%nat) (m1 e1) (m2 e2)) ->
  orel' (ran hd s n (Datatypes.S k) ok) (with_expr m1 s1) (with_expr m2 s2).
Proof.
  intros (Rl & K & F) H. destruct (Rl) as [Rx Ri ? ? ? ? ?]. unfold with_expr.
  assert (E : erel R (Expr.new (lexer s1) (rd_limits s1)) (Expr.new (lexer s2) (rd_limits s2))) by (by constructor).
  apply H in E. destruct (m1 _) as [[a1 e1] | e1 | |], (m2 _) as [[a2 e2] | e2 | |]; cbn in E |- *; try done.
  destruct E as (-> & Ok & Er & Fe). split; [done |]. split; [done |]. destruct Er as [Rl' _ _ _].
  split; [by constructor |]. split; [exact K |].
  change (fuel_of (set_lexer s2 (ep_lexer e2))) with (fuel_of e2).
  change (fuel_of s2) with (fuel_of (Expr.new (lexer s2) (rd_limits s2))) in F. lia.
Qed.

Lemma run_expression_st hd s n k s1 s2 :
  st hd s n k s1 s2 ->
  orel' (ran hd s n (Datatypes.S k) (fun e => wf_cond e = true)) (with_expr run_expression s1) (with_expr run_expression s2).
Proof.
  intros S0. eapply with_expr_st; [exact S0 |]. intros e1 e2 E.
  eapply orel_weaken; [| by apply (run_expression_sim escape R)].
  intros e t1 t2 (E' & F & _ & _ & _ & W). auto.
Qed.

Lemma timing_condition_st hd s n k s1 s2 :
  st hd s n k s1 s2 ->
  orel' (ran hd s n (Datatypes.S k) (fun e => wf_cond e = true /\ is_timing_check_condition e = true))
    (with_expr timing_check_condition s1) (with_expr timing_check_condition s2).
Proof.
  intros S0. eapply with_expr_st; [exact S0 |]. intros e1 e2 E.
  eapply orel_weaken; [| by apply (timing_check_condition_sim escape R)].
  intros e t1 t2 (E' & F & _ & W & T). auto.
Qed.

#[local] Hint Resolve optional_label_st run_expression_st timing_condition_st : sim.

(** *** Delays *)

Lemma retain_violation_index retain index i a b :
  retain_violation index retain = Some (i, a, b) -> (index <= i)%nat /\ (i + 1 < index + length retain)%nat.
Proof.
  revert index. induction retain as [| e rest IH]; intros index; cbn [retain_violation]; [done |].
  destruct rest as [| l rest']; [done |].
  destruct (pair_violation e l) as [[x y] |].
  - intros [= <- _ _]. cbn [length]. lia.
  - intros H. apply IH in H. cbn [length] in *. lia.
Qed.

Lemma check_retain_order_st hd s n k s1 s2 retain positions :
  st hd s n k s1 s2 -> length positions = length retain ->
  orel' (ran hd s n k anything) (check_retain_order retain positions s1) (check_retain_order retain positions s2).
Proof.
  intros S0 E. unfold check_retain_order.
  destruct (retain_violation 0 retain) as [[[i a] b] |] eqn:V; [| fin].
  apply retain_violation_index in V.
  destruct (lookup_lt_is_Some_2 positions (Datatypes.S i)) as [pos ->]; [lia |]. eauto with sim.
Qed.

#[local] Hint Resolve check_retain_order_st : sim.

Definition io_state_ok (x : io_path_state) : Prop :=
  let '(retain, positions, first, _) := x in
  Forall delvals_ok retain /\ length positions = length retain /\ Forall delval_ok first.

Lemma io_path_step_st hd s1 s2 x :
  st hd s2 (fuel_of s2) 0 s1 s2 -> io_state_ok x ->
  orel' (fun r v1 v2 => match r with
           | inl x' => io_state_ok x' /\ st hd s2 (fuel_of s2) 1 v1 v2
           | inr x' => io_state_ok x' /\ st hd s2 (fuel_of s2) 0 v1 v2
           end) (io_path_step x s1) (io_path_step x s2).
Proof.
  destruct x as [[[retain positions] first] th]. intros S0 (H1 & H2 & H3). unfold io_path_step.
  bstep. destruct (decide _); [| apply orel_ret; by split]. bstep. bstep.
  destruct (match a1 with Word _ => _ | _ => _ end).
  - do 2 bstep. destruct first; [| apply orel_fail]. do 2 bstep. apply orel_ret.
    split; [| eapply st_weaken; [eassumption | lia]].
    split_and!; [apply Forall_app; auto | rewrite !length_app; simpl; lia | done].
  - bstep. apply orel_ret. split; [| eapply st_weaken; [eassumption | lia]].
    split_and!; [done | done | apply Forall_app; auto].
Qed.

Lemma io_path_st hd s n k s1 s2 pos :
  st hd s n k s1 s2 ->
  orel' (ran hd s n (Datatypes.S k) del_def_ok) (io_path pos NoCondition s1) (io_path pos NoCondition s2).
Proof.
  intros S0. unfold io_path. bstep. bstep.
  eapply orel_bind.
  { eapply (loop_st hd io_state_ok io_state_ok 0); [eassumption | by split_and! |].
    intros x u1 u2 Su Hx. by apply io_path_step_st. }
  intros [[[retain positions] first] th] u1 u2 [(H1 & H2 & H3) Su].
  bstep. bstep. bstep.
  eapply orel_bind; [eapply check_retain_order_st; eassumption |]. intros _ ? ? [_ Sv]. fin.
Qed.

#[local] Hint Resolve io_path_st : sim.

Lemma nested_io_path_st hd s n k s1 s2 owner :
  st hd s n k s1 s2 ->
  orel' (ran hd s n (Datatypes.S k) del_def_ok) (nested_io_path owner s1) (nested_io_path owner s2).
Proof.
  intros S0. unfold nested_io_path. do 2 bstep. destruct (negb _); [apply orel_fail |].
  eapply ran_weaken; [by eapply io_path_st | lia | done].
Qed.

#[local] Hint Resolve nested_io_path_st : sim.

Lemma with_condition_ok def c pos : del_def_ok def -> path_condition_ok c -> del_def_ok (with_condition def c pos).
Proof. destruct def; cbn; tauto. Qed.

Lemma del_def_st hd s n k s1 s2 kw pos :
  st hd s n k s1 s2 -> orel' (ran hd s n (Datatypes.S k) del_def_ok) (del_def kw pos s1) (del_def kw pos s2).
Proof.
  intros S0. unfold del_def.
  destruct (String.eqb kw "IOPATH"); [eauto with sim |].
  destruct (String.eqb kw "COND"); [do 4 bstep; fin; by apply with_condition_ok |].
  destruct (String.eqb kw "CONDELSE"); [do 3 bstep; fin; by apply with_condition_ok |].
  destruct (String.eqb kw "PORT"); [do 3 bstep; fin |].
  destruct (String.eqb kw "INTERCONNECT"); [do 4 bstep; fin |].
  destruct (String.eqb kw "NETDELAY"); [do 4 bstep; fin |].
  destruct (String.eqb kw "DEVICE"); [| apply orel_fail].
  bstep. eapply (orel_bind _ (ran hd s n k (opt_ok port_ok))).
  { destruct a; try fin. bstep. fin. }
  intros p ? ? [Hp Sp]. do 2 bstep. fin.
Qed.

#[local] Hint Resolve del_def_st : sim.

Lemma del_defs_st hd s n k s1 s2 mode :
  st hd s n k s1 s2 ->
  orel' (ran hd s n (Datatypes.S k) (fun ds => ds <> [] /\ Forall del_def_ok ds)) (del_defs mode s1) (del_defs mode s2).
Proof.
  intros S0. unfold del_defs. rewrite <- Nat.add_1_r.
  eapply (loop_st hd (Forall del_def_ok)); [exact S0 | constructor |].
  intros ds u1 u2 Su Hd. bstep. destruct (decide _) as [[T Ne] | _].
  { read_token. apply orel_ret. split; [| done]. split; [by destruct ds | done]. }
  destruct (decide _) as [T | _]; [| apply orel_fail]. read_token. do 2 bstep. apply orel_ret.
  split; [apply Forall_app; auto | eapply st_weaken; [eassumption | lia]].
Qed.

#[local] Hint Resolve del_defs_st : sim.

Lemma path_pulse_st hd s n k s1 s2 pos percent :
  st hd s n k s1 s2 ->
  orel' (ran hd s n (Datatypes.S k) del_type_ok) (path_pulse pos percent s1) (path_pulse pos percent s2).
Proof.
  intros S0. unfold path_pulse. bstep.
  eapply (orel_bind _ (ran hd s n k (opt_ok (fun p => port_ok p.1 /\ port_ok p.2)))).
  { destruct a; try fin. do 2 bstep. fin. }
  intros p ? ? [Hp Sp]. bstep. bstep.
  eapply (orel_bind _ (ran hd s n (Datatypes.S k) (opt_value_ok NonNegative))).
  { destruct (decide _); [eapply ran_weaken; [by eapply value_st | lia | done] | fin]. }
  intros e ? ? [He Se]. bstep. fin.
Qed.

#[local] Hint Resolve path_pulse_st : sim.

Lemma del_type_st hd s n k s1 s2 kw pos :
  st hd s n k s1 s2 -> orel' (ran hd s n (Datatypes.S k) del_type_ok) (del_type kw pos s1) (del_type kw pos s2).
Proof.
  intros S0. unfold del_type.
  destruct (String.eqb kw "ABSOLUTE"); [bstep; fin |].
  destruct (String.eqb kw "INCREMENT"); [bstep; fin |].
  destruct (String.eqb kw "PATHPULSE"); [eauto with sim |].
  destruct (_ || _); [| apply orel_fail]. bstep. eauto with sim.
Qed.

#[local] Hint Resolve del_type_st : sim.

Lemma delay_spec_st hd s n k s1 s2 :
  st hd s n k s1 s2 -> orel' (ran hd s n (Datatypes.S k) timing_spec_ok) (delay_spec s1) (delay_spec s2).
Proof.
  intros S0. unfold delay_spec. rewrite <- Nat.add_1_r.
  eapply (loop_st hd (Forall del_type_ok)); [exact S0 | constructor |].
  intros ds u1 u2 Su Hd. bstep. destruct (decide _) as [[T Ne] | _].
  { read_token. apply orel_ret. split; [| done]. split; [by destruct ds | done]. }
  destruct (decide _) as [T | _]; [| apply orel_fail]. read_token. do 2 bstep. apply orel_ret.
  split; [apply Forall_app; auto | eapply st_weaken; [eassumption | lia]].
Qed.

#[local] Hint Resolve delay_spec_st : sim.

(** *** Timing checks *)

Lemma port_tchk_st hd s n k s1 s2 what :
  st hd s n k s1 s2 -> orel' (ran hd s n (Datatypes.S k) tchk_ok) (port_tchk what s1) (port_tchk what s2).
Proof.
  intros S0. unfold port_tchk. bstep. destruct (decide _); [bstep; fin |].
  do 2 bstep. destruct (match a1 with Word _ => _ | _ => _ end).
  - do 5 bstep. fin.
  - bstep. fin.
Qed.

Lemma check_limit_sum_st hd s n k s1 s2 kd vs pos :
  st hd s n k s1 s2 -> length vs = value_count kd ->
  orel' (ran hd s n k anything) (check_limit_sum kd vs pos s1) (check_limit_sum kd vs pos s2).
Proof.
  intros S0 Lv. unfold check_limit_sum. destruct (negb (has_two_limits kd)) eqn:T; [fin |].
  assert (E : value_count kd = 2%nat) by (by destruct kd). rewrite E in Lv.
  destruct vs as [| [v |] [| [w |] vs]]; try done; try fin.
  destruct (sum_violation v w) as [[x y] |]; [eauto with sim | fin].
Qed.

#[local] Hint Resolve port_tchk_st check_limit_sum_st : sim.

Lemma stamp_conditions_st hd s n k s1 s2 :
  st hd s n k s1 s2 ->
  orel' (ran hd s n k (fun x => opt_ok check_cond_ok x.1 /\ opt_ok check_cond_ok x.2))
    (stamp_conditions s1) (stamp_conditions s2).
Proof.
  intros S0. unfold stamp_conditions. rewrite <- (Nat.add_0_r k).
  eapply (loop_st hd (fun x => opt_ok check_cond_ok x.1 /\ opt_ok check_cond_ok x.2)); [exact S0 | done |].
  intros [sc cc] u1 u2 Su [H1 H2]. cbn [fst snd] in *. bstep.
  destruct (decide _); [| apply orel_ret; by split]. bstep. bstep.
  eapply orel_bind; [apply when_st; eauto with sim |]. intros _ ? ? [_ Sw].
  match goal with |- context [if ?c1 then Some true else if ?c2 then Some false else None] =>
    destruct c1; [| destruct c2] end.
  - do 3 bstep. apply orel_ret. split; [by split | eapply st_weaken; [eassumption | lia]].
  - do 3 bstep. apply orel_ret. split; [by split | eapply st_weaken; [eassumption | lia]].
  - destruct (_ || _); apply orel_fail.
Qed.

#[local] Hint Resolve stamp_conditions_st : sim.

Lemma repeat_st {A} hd s n k s1 s2 (ok : A -> Prop) count
  (m1 : nat -> M SdfError (SdfReader L1) A) (m2 : nat -> M SdfError (SdfReader L2) A) :
  st hd s n k s1 s2 ->
  (forall i t1 t2, st hd s n k t1 t2 -> orel' (ran hd s n (Datatypes.S k) ok) (m1 i t1) (m2 i t2)) ->
  orel' (ran hd s n k (fun xs => length xs = count /\ Forall ok xs)) (repeat_m count m1 s1) (repeat_m count m2 s2).
Proof.
  intros S0 Step.
  apply (orel_repeat _ (fun i xs t1 t2 => (length xs = i /\ Forall ok xs) /\ st hd s n k t1 t2)).
  - by split.
  - intros i xs t1 t2 [[<- H] St]. eapply orel_weaken; [| by apply Step].
    intros x u1 u2 [Hx Su]. rewrite length_app. cbn. split; [| by eapply st_weaken; [eassumption | lia]].
    split; [lia | apply Forall_app; auto].
Qed.

Lemma timing_check_st hd s n k s1 s2 kd pos :
  st hd s n k s1 s2 ->
  orel' (ran hd s n (Datatypes.S k) (opt_ok check_ok)) (timing_check kd pos s1) (timing_check kd pos s2).
Proof.
  intros S0. unfold timing_check.
  eapply orel_bind; [eapply (repeat_st hd s n k _ _ tchk_ok); [exact S0 | eauto with sim] |].
  intros ps ? ? [[Lp Hp] Sp]. bstep.
  eapply orel_bind; [eapply (repeat_st hd s n k _ _ (opt_value_ok Any)); [eassumption |] |].
  { intros i u1 u2 Su. eapply ran_weaken; [by eapply value_st | lia |]. apply opt_value_ok_any. }
  intros vs ? ? [[Lv Hv] Sv].
  eapply (orel_bind _ (ran hd s n k (fun x => (opt_ok check_cond_ok x.1 /\ opt_ok check_cond_ok x.2)
    /\ (has_two_limits kd = false -> x.1 = None /\ x.2 = None)))).
  { destruct (has_two_limits kd); [| fin].
    eapply ran_weaken; [by eapply stamp_conditions_st | lia |]. by intros. }
  intros [sc cc] ? ? [[[Hs Hc] Hn] Sx]. bstep.
  destruct ps as [| p ps]; [by destruct kd |].
  destruct (_ && _) eqn:C; [bstep; fin |].
  eapply orel_bind; [eapply check_limit_sum_st; eassumption |]. intros _ ? ? [_ Sy]. fin.
  cbn. split_and!; try done.
  cbn. intros ->. rewrite bool_decide_eq_true_2 in C by done. cbn in C. apply negb_false_iff in C.
  destruct (edge (tchk_spec p)) as [e |] eqn:E; [| done]. by exists p, ps, e.
Qed.

#[local] Hint Resolve timing_check_st : sim.

(** *** Constraints *)

Lemma drop_port_st hd s n k s1 s2 what :
  st hd s n k s1 s2 -> orel' (ran hd s n (Datatypes.S k) anything) (drop_port what s1) (drop_port what s2).
Proof. intros S0. unfold drop_port. bstep. fin. Qed.

Lemma drop_value_st hd s n k s1 s2 sign what :
  st hd s n k s1 s2 -> orel' (ran hd s n (Datatypes.S k) anything) (drop_value sign what s1) (drop_value sign what s2).
Proof. intros S0. unfold drop_value. bstep. fin. Qed.

Lemma drop_number_st hd s n k s1 s2 what sign :
  st hd s n k s1 s2 -> orel' (ran hd s n (Datatypes.S k) anything) (drop_number what sign s1) (drop_number what sign s2).
Proof. intros S0. unfold drop_number. bstep. bstep. fin. Qed.

#[local] Hint Resolve drop_port_st drop_value_st drop_number_st : sim.

Lemma count_words_st hd s n k s1 s2 (b1 : M SdfError (SdfReader L1) unit) (b2 : M SdfError (SdfReader L2) unit) :
  st hd s n k s1 s2 ->
  (forall s n k t1 t2, st hd s n k t1 t2 -> orel' (ran hd s n (Datatypes.S k) anything) (b1 t1) (b2 t2)) ->
  orel' (ran hd s n k anything) (count_words b1 s1) (count_words b2 s2).
Proof.
  intros S0 Hb. unfold count_words. rewrite <- (Nat.add_0_r k).
  eapply (loop_st hd anything anything); [exact S0 | done |].
  intros c u1 u2 Su _. bstep. destruct a; try (apply orel_ret; by split).
  eapply orel_bind; [eapply Hb; eassumption |]. intros _ ? ? [_ Sv]. apply orel_ret. by split.
Qed.

Lemma constraint_name_st hd s n k s1 s2 :
  st hd s n k s1 s2 -> orel' (ran hd s n k anything) (constraint_name s1) (constraint_name s2).
Proof.
  intros S0. unfold constraint_name. do 2 bstep. destruct (negb _); [apply orel_fail |].
  bstep. eapply (orel_bind _ (ran hd s n k anything)).
  { destruct a0; try fin. bstep. fin. }
  intros _ ? ? [_ Sx]. eapply ran_weaken; [by eapply close_st | lia | done].
Qed.

#[local] Hint Resolve constraint_name_st : sim.

Lemma path_constraint_st hd s n k s1 s2 pos :
  st hd s n k s1 s2 -> orel' (ran hd s n k anything) (path_constraint pos s1) (path_constraint pos s2).
Proof.
  intros S0. unfold path_constraint. bstep. eapply (orel_bind _ (ran hd s n k anything)).
  { destruct a; [fin |]. bstep. destruct (decide _); [eauto with sim | fin]. }
  intros _ ? ? [_ Sx]. eapply orel_bind; [eapply count_words_st; [exact Sx | eauto with sim] |].
  intros c ? ? [_ Sy]. destruct (Nat.ltb _ _); [apply orel_fail |].
  bstep. eapply ran_weaken; [by eapply drop_value_st | lia | done].
Qed.

Lemma exception_instance_st hd s n k s1 s2 :
  st hd s n k s1 s2 -> orel' (ran hd s n (Datatypes.S k) anything) (exception_instance s1) (exception_instance s2).
Proof.
  intros S0. unfold exception_instance. do 2 bstep. destruct (negb _); [apply orel_fail |].
  bstep. eapply (orel_bind _ (ran hd s n k anything)).
  { destruct a0; try fin. destruct (String.eqb _ _); bstep; fin. }
  intros _ ? ? [_ Sx]. eauto with sim.
Qed.

#[local] Hint Resolve exception_instance_st : sim.

Lemma period_exception_st hd s n k s1 s2 :
  st hd s n k s1 s2 -> orel' (ran hd s n k anything) (period_exception s1) (period_exception s2).
Proof.
  intros S0. unfold period_exception. do 2 bstep. destruct (negb _); [apply orel_fail |].
  eapply orel_bind.
  { eapply (loop_st hd anything anything 0); [eassumption | done |].
    intros c u1 u2 Su _. bstep. destruct (decide _); [| apply orel_ret; by split].
    bstep. apply orel_ret. by split. }
  intros c ? ? [_ Sy]. destruct (Nat.eqb _ _); [apply orel_fail |].
  eapply ran_weaken; [by eapply close_st | lia | done].
Qed.

#[local] Hint Resolve path_constraint_st period_exception_st : sim.

Lemma period_constraint_st hd s n k s1 s2 :
  st hd s n k s1 s2 -> orel' (ran hd s n k anything) (period_constraint s1) (period_constraint s2).
Proof.
  intros S0. unfold period_constraint. do 3 bstep. destruct (decide _); [| fin].
  eapply ran_weaken; [by eapply period_exception_st | lia | done].
Qed.

Lemma sum_constraint_st hd s n k s1 s2 kw pos :
  st hd s n k s1 s2 -> orel' (ran hd s n k anything) (sum_constraint kw pos s1) (sum_constraint kw pos s2).
Proof.
  intros S0. unfold sum_constraint. eapply orel_bind.
  { eapply (loop_st hd anything anything 0); [eassumption | done |].
    intros c u1 u2 Su _. bstep. destruct (decide _); [| apply orel_ret; by split].
    do 2 bstep. destruct (starts_path _).
    - do 3 bstep. apply orel_ret. split; [done | eapply st_weaken; [eassumption | lia]].
    - eapply (orel_bind _ (ran hd u2 (fuel_of u2) 0 anything)); [bstep; fin |].
      intros _ ? ? [_ Sx]. bstep.
      eapply (orel_bind _ (ran hd u2 (fuel_of u2) 0 anything)).
      { destruct (decide _); [| fin]. eapply ran_weaken; [by eapply drop_value_st | lia | done]. }
      intros _ ? ? [_ Sy]. apply orel_ret. by split. }
  intros [paths valued] ? ? [_ Sy]. rewrite Nat.add_0_r in Sy.
  destruct (_ || _); [apply orel_fail |]. fin.
Qed.

#[local] Hint Resolve period_constraint_st sum_constraint_st : sim.

Lemma constraint_st hd s n k s1 s2 kw pos :
  st hd s n k s1 s2 -> is_constraint kw = true ->
  orel' (ran hd s n (Datatypes.S k) anything) (constraint kw pos s1) (constraint kw pos s2).
Proof.
  intros S0 H. unfold constraint. eapply (orel_bind _ (ran hd s n k anything)).
  - unfold is_constraint in H. cbn [existsb] in H.
    destruct (String.eqb kw "PATHCONSTRAINT"); [eauto with sim |].
    destruct (String.eqb kw "PERIODCONSTRAINT"); [eauto with sim |]. cbn [orb] in H.
    destruct (String.eqb kw "SUM"), (String.eqb kw "DIFF"); cbn [orb] in H |- *; [eauto with sim ..|].
    destruct (String.eqb kw "SKEWCONSTRAINT"); [| done].
    eapply (orel_bind _ (ran hd s n k anything)); [bstep; fin |]. intros _ ? ? [_ Sx].
    eapply ran_weaken; [by eapply drop_value_st | lia | done].
  - intros _ ? ? [_ Sx]. eauto with sim.
Qed.

#[local] Hint Resolve constraint_st : sim.

Lemma waveform_edge_st hd s n k s1 s2 edges :
  st hd s n k s1 s2 -> orel' (ran hd s n (Datatypes.S k) anything) (waveform_edge edges s1) (waveform_edge edges s2).
Proof.
  intros S0. unfold waveform_edge. do 2 bstep.
  destruct (match edge_from_word x with Some _ => _ | None => _ end) as [e |]; [| apply orel_fail].
  destruct (bool_decide _); [apply orel_fail |]. do 2 bstep.
  eapply (orel_bind _ (ran hd s n k anything)).
  { destruct a1; try fin. eapply ran_weaken; [by eapply drop_number_st | lia | done]. }
  intros _ ? ? [_ Sx]. bstep. fin.
Qed.

#[local] Hint Resolve waveform_edge_st : sim.

Lemma waveform_st hd s n k s1 s2 :
  st hd s n k s1 s2 -> orel' (ran hd s n k anything) (waveform s1) (waveform s2).
Proof.
  intros S0. unfold waveform. do 2 bstep.
  eapply (orel_bind _ (ran hd s n k anything)); [bstep; fin |]. intros _ ? ? [_ Sx].
  eapply orel_bind.
  { eapply (loop_st hd anything anything 0); [eassumption | done |].
    intros c u1 u2 Su _. bstep. destruct (decide _); [| apply orel_ret; by split].
    bstep. apply orel_ret. by split. }
  intros c ? ? [_ Sy]. destruct (_ || _); [apply orel_fail |].
  eapply ran_weaken; [by eapply close_st | lia | done].
Qed.

#[local] Hint Resolve waveform_st : sim.

Lemma four_values_st hd s n k s1 s2 what :
  st hd s n k s1 s2 ->
  orel' (ran hd s n k anything) (repeat_m 4 (fun _ => drop_value Any what) s1)
    (repeat_m 4 (fun _ => drop_value Any what) s2).
Proof.
  intros S0. eapply ran_weaken; [eapply (repeat_st hd s n k _ _ anything); [exact S0 |] | lia | done].
  intros i u1 u2 Su. by apply drop_value_st.
Qed.

#[local] Hint Resolve four_values_st : sim.

Lemma timing_env_entry_st hd s n k s1 s2 kw pos :
  st hd s n k s1 s2 -> orel' (ran hd s n k anything) (timing_env_entry kw pos s1) (timing_env_entry kw pos s2).
Proof.
  intros S0. unfold timing_env_entry. destruct (is_constraint kw) eqn:C.
  { eapply ran_weaken; [by eapply constraint_st | lia | done]. }
  destruct (_ || _).
  { bstep. eapply (orel_bind _ (ran hd s n k anything)).
    { destruct (decide _); [| fin]. do 2 bstep. fin. }
    intros _ ? ? [_ Sx]. do 2 bstep. eapply ran_weaken; [by eapply close_st | lia | done]. }
  destruct (String.eqb kw "SLACK").
  { do 3 bstep. eapply (orel_bind _ (ran hd s n k anything)).
    { destruct a1; try fin. eapply ran_weaken; [by eapply drop_number_st | lia | done]. }
    intros _ ? ? [_ Sx]. eapply ran_weaken; [by eapply close_st | lia | done]. }
  destruct (String.eqb kw "WAVEFORM"); [eauto with sim | apply orel_fail].
Qed.

#[local] Hint Resolve timing_env_entry_st : sim.

Lemma timing_env_spec_st hd s n k s1 s2 :
  st hd s n k s1 s2 -> orel' (ran hd s n (Datatypes.S k) anything) (timing_env_spec s1) (timing_env_spec s2).
Proof.
  intros S0. unfold timing_env_spec. rewrite <- Nat.add_1_r.
  eapply (loop_st hd anything); [exact S0 | done |].
  intros ds u1 u2 Su _. bstep. destruct (decide _) as [[T Ne] | _]; [read_token; apply orel_ret; by split |].
  destruct (decide _) as [T | _]; [| apply orel_fail]. read_token. do 2 bstep. apply orel_ret.
  split; [done | eapply st_weaken; [eassumption | lia]].
Qed.

Lemma check_entry_st hd s n k s1 s2 kw pos :
  st hd s n k s1 s2 -> orel' (ran hd s n (Datatypes.S k) (opt_ok check_ok)) (check_entry kw pos s1) (check_entry kw pos s2).
Proof.
  intros S0. unfold check_entry. destruct (check_kind_of kw) as [kd |].
  - eapply orel_bind; [apply when_st; eauto with sim |]. intros _ ? ? [_ Sx]. eauto with sim.
  - destruct (existsb _ _) eqn:C; [| apply orel_fail]. bstep.
    eapply orel_bind; [eapply constraint_st; [eassumption |] |].
    { unfold is_constraint. cbn [existsb] in *. rewrite !orb_true_iff in *. tauto. }
    intros _ ? ? [_ Sx]. fin.
Qed.

#[local] Hint Resolve timing_env_spec_st check_entry_st : sim.

Lemma timing_check_spec_st hd s n k s1 s2 :
  st hd s n k s1 s2 -> orel' (ran hd s n (Datatypes.S k) timing_spec_ok) (timing_check_spec s1) (timing_check_spec s2).
Proof.
  intros S0. unfold timing_check_spec. rewrite <- Nat.add_1_r.
  eapply (loop_st hd (fun x => Forall check_ok x.1)); [exact S0 | constructor |].
  intros [cs entries] u1 u2 Su Hc. cbn [fst] in Hc. bstep.
  destruct (decide _) as [[T Ne] | _]; [read_token; apply orel_ret; by split |].
  destruct (decide _) as [T | _]; [| apply orel_fail]. read_token. do 2 bstep. apply orel_ret.
  split; [| eapply st_weaken; [eassumption | lia]]. destruct a0; cbn; [| done]. apply Forall_app. auto.
Qed.

#[local] Hint Resolve timing_check_spec_st : sim.

(** *** Cells *)

Definition cell_state_ok (c : cell_state) : Prop :=
  instance_ok (cs_instance c) /\ Forall timing_spec_ok (cs_specs c).

Lemma push_spec_ok c spec : cell_state_ok c -> timing_spec_ok spec -> cell_state_ok (push_spec c spec).
Proof. intros [H1 H2] H3. split; [done |]. cbn. apply Forall_app. auto. Qed.

Lemma more_instance_st hd s n k s1 s2 c pos :
  st hd s n k s1 s2 -> cell_state_ok c ->
  orel' (ran hd s n k cell_state_ok) (more_instance c pos s1) (more_instance c pos s2).
Proof.
  intros S0 [H1 H2]. unfold more_instance. bstep. destruct (cs_instance c) as [components |]; [| apply orel_fail].
  bstep. destruct (decide _); [apply orel_fail |]. do 2 bstep. fin.
  split; [| done]. cbn in *. apply Forall_app. auto.
Qed.

Lemma correlation_entry_st hd s n k s1 s2 c pos :
  st hd s n k s1 s2 -> cell_state_ok c ->
  orel' (ran hd s n k cell_state_ok) (correlation_entry c pos s1) (correlation_entry c pos s2).
Proof.
  intros S0 Hc. unfold correlation_entry. bstep.
  eapply (orel_bind _ (ran hd s n k anything)); [bstep; fin |]. intros _ ? ? [_ Sx].
  eapply orel_bind; [eapply count_words_st; [exact Sx | eauto with sim] |]. intros m ? ? [_ Sy].
  destruct (_ && _); [apply orel_fail |]. bstep. fin.
Qed.

#[local] Hint Resolve more_instance_st correlation_entry_st : sim.

Lemma cell_entry_st hd s n k s1 s2 c kw pos :
  st hd s n k s1 s2 -> cell_state_ok c ->
  orel' (ran hd s n k cell_state_ok) (cell_entry c kw pos s1) (cell_entry c kw pos s2).
Proof.
  intros S0 Hc. unfold cell_entry.
  destruct (String.eqb kw "DELAY"); [bstep; fin; by apply push_spec_ok |].
  destruct (String.eqb kw "TIMINGCHECK"); [bstep; fin; by apply push_spec_ok |].
  destruct (String.eqb kw "TIMINGENV"); [do 2 bstep; fin; by apply push_spec_ok |].
  do 2 (destruct (_ && _); [eauto with sim |]). apply orel_fail.
Qed.

#[local] Hint Resolve cell_entry_st : sim.

Lemma cell_st hd s n k s1 s2 pos :
  st hd s n k s1 s2 -> orel' (ran hd s n (Datatypes.S k) cell_ok) (cell pos s1) (cell pos s2).
Proof.
  intros S0. unfold cell. do 2 bstep. destruct (negb _); [apply orel_fail |].
  do 4 bstep. destruct (negb _); [apply orel_fail |]. bstep.
  eapply (orel_bind _ (ran hd s n k instance_ok)).
  { destruct a3; try (fin; constructor). destruct (String.eqb _ _); bstep; fin. }
  intros inst ? ? [Hi Si]. bstep.
  eapply ran_weaken; [eapply (loop_st hd cell_state_ok cell_ok 1); [eassumption | by split; [| constructor] |] | lia | done].
  intros c u1 u2 Su Hc. clear a3 Ok5. bstep. destruct (tok a3) eqn:T; try apply orel_fail; read_token.
  - do 2 bstep. apply orel_ret. split; [done | eapply st_weaken; [eassumption | lia]].
  - by apply orel_ret.
Qed.

#[local] Hint Resolve cell_st : sim.

Lemma expect_end_st hd s n k s1 s2 :
  st hd s n k s1 s2 -> orel' (ran hd s n k anything) (reader_expect_end s1) (reader_expect_end s2).
Proof.
  intros S0. destruct (st_rrel _ _ _ _ _ _ S0) as [Rx ? ? ? ? ? ?].
  eapply (lexer_st hd s n k 0); [exact S0 | | |]; cbn beta.
  - unfold expect_end. eapply orel_bind; [apply (sim_next (LexSim := LS)), Rx |].
    intros t l1 l2 (R' & Fl & _). destruct (tok t); try apply orel_fail.
    apply orel_ret. instantiate (1 := fun _ l1 l2 => R l1 l2 /\ (fuel_of l2 <= fuel_of (lexer s2))%nat). done.
  - intros [] l1 l2 [R' Fl]. split; [done | lia].
  - intros [] l1 l2 _ Sk. rewrite Nat.add_0_r in Sk. by split.
Qed.

(** Reading a cell from [s]: a cell, or the end of the file; the header does
    not change and warnings are only added. *)
Definition cell_read (s : SdfReader L2) (c : option SdfCell) (t1 : SdfReader L1) (t2 : SdfReader L2) : Prop :=
  rrel t1 t2 /\ opt_ok cell_ok c /\ header t2 = header s
  /\ (exists w, warnings t2 = warnings s ++ w)
  /\ match c with
     | Some _ => (fuel_of t2 < fuel_of s)%nat /\ finished t2 = false /\ cell_open t2 = None
     | None => finished t2 = true
     end.

Lemma next_cell_st s1 s2 :
  rrel s1 s2 -> orel' (cell_read s2) (next_cell s1) (next_cell s2).
Proof.
  intros Rl. destruct (Rl) as [? ? Hh Ho Hf ? ?]. unfold next_cell.
  eapply (get_st true s2 (fuel_of s2) 0); [by apply st_start |]. rewrite Hf, Ho.
  destruct (finished s2) eqn:Fin.
  { apply orel_ret. split; [done |]. split_and!; try done. exists []. by rewrite app_nil_r. }
  set (u2 := set_cell_open s2 None).
  eapply (orel_bind _ (fun _ t1 t2 => st true u2 (fuel_of s2) 0 t1 t2)).
  { apply orel_modify. change (fuel_of s2) with (fuel_of u2). apply st_start.
    constructor; cbn; first [done | congruence]. }
  intros _ t1 t2 S0.
  assert (Finish : forall c v1 v2 k, cell_ok c -> st true u2 (fuel_of s2) (Datatypes.S k) v1 v2 ->
            orel' (cell_read s2) (ret (Some c) v1) (ret (Some c) v2)).
  { intros c v1 v2 k Hc (Rv & (_ & W & K) & F). destruct (K eq_refl) as (K1 & K2 & K3).
    apply orel_ret. split; [done |]. split_and!; try done; [lia | by rewrite K3]. }
  destruct (cell_open s2) as [at_ |].
  { bstep. by eapply Finish. }
  bstep. destruct (tok a) eqn:T; try apply orel_fail; read_token.
  - bstep. destruct (negb _); [apply orel_fail |]. bstep. by eapply Finish.
  - eapply orel_bind; [by eapply expect_end_st |]. intros _ v1 v2 [_ (Rv & (_ & W & K) & F)].
    destruct (K eq_refl) as (K1 & K2 & K3).
    eapply (orel_bind _ (fun _ w1 w2 => cell_read s2 None w1 w2)).
    + apply orel_modify. split; [destruct Rv; by constructor |]. by split_and!.
    + intros _ w1 w2 H. by apply orel_ret.
Qed.

(** The whole file. *)
Lemma parse_loop_st s1 s2 cs :
  rrel s1 s2 -> Forall cell_ok cs ->
  let body {L} `{Lexing L} `{Measured L} (cells : list SdfCell) : M SdfError (SdfReader L) (list SdfCell + list SdfCell) :=
    let* c := next_cell in
    match c with
    | Some cell => continue (cells ++ [cell])
    | None => break cells
    end in
  orel' (fun cs' t1 t2 => rrel t1 t2 /\ Forall cell_ok cs' /\ header t2 = header s2 /\ finished t2 = true
           /\ exists w, warnings t2 = warnings s2 ++ w)
    (loop body cs s1) (loop body cs s2).
Proof.
  intros Rl Hc body.
  apply (orel_loop _ (fun cs t1 t2 => rrel t1 t2 /\ Forall cell_ok cs /\ header t2 = header s2
           /\ exists w, warnings t2 = warnings s2 ++ w)).
  - by apply rrel_fuel.
  - split_and!; try done. exists []. by rewrite app_nil_r.
  - intros xs t1 t2 (Rt & Hx & Hh & w & Hw). unfold body.
    eapply orel_bind; [by apply next_cell_st |].
    intros [c |] u1 u2 (Ru & Hok & Hh' & (w' & Hw') & Hm); apply orel_ret.
    + split; [| apply Hm]. split_and!; [done | apply Forall_app; auto | congruence |].
      exists (w ++ w'). by rewrite Hw', Hw, app_assoc.
    + split_and!; [done | done | congruence | done |]. exists (w ++ w'). by rewrite Hw', Hw, app_assoc.
Qed.

Definition files_rel (o1 o2 : outcome SdfError SdfFile) : Prop :=
  match o1, o2 with
  | Done f1, Done f2 => f1 = f2 /\ Forall cell_ok (cells f1)
  | Fail e1, Fail e2 => e1 = e2 \/ escape e1
  | Fail e1, _ => escape e1
  | _, _ => False
  end.

Lemma parse_with_sim l1 l2 limits :
  R l1 l2 -> files_rel (parse_with l1 limits) (parse_with l2 limits).
Proof.
  intros Rl. unfold parse_with.
  assert (S0 : st false (initial l2 limits) (fuel_of (initial l2 limits)) 0 (initial l1 limits) (initial l2 limits)).
  { apply st_start. by constructor. }
  match goal with |- files_rel (match ?m1 ?s1 with _ => _ end) (match ?m2 ?s2 with _ => _ end) =>
    assert (H : orel' (fun cs t1 t2 => rrel t1 t2 /\ Forall cell_ok cs) (m1 s1) (m2 s2)) end.
  { eapply orel_bind; [by apply read_header_st |]. intros _ t1 t2 [_ St].
    eapply orel_weaken; [| eapply parse_loop_st; [by eapply st_rrel | constructor]].
    intros cs u1 u2 (Ru & Hc & _). done. }
  match type of H with orel _ _ ?o1 ?o2 => destruct o1 as [[cs1 r1] | e1 | |], o2 as [[cs2 r2] | e2 | |] end;
    cbn in H |- *; try done.
  destruct H as (-> & Rr & Hc). destruct Rr as [_ _ -> _ _ _ ->]. done.
Qed.

End Relation.

(** ** Theorems *)

Lemma parse_sim over i limits :
  buffers_ok i -> (over = false -> Z.of_nat (length (input_bytes i)) <= max_input_bytes limits) ->
  files_rel (too_large over) (parse i limits) (parse_text (input_bytes i) (failure i) limits).
Proof. intros B W. apply (parse_with_sim (too_large over) (lrel over)). by apply lrel_new. Qed.

(** C6: parsing always ends, with a file or an error, for every input, read
    failure and limits: no panic, no unbounded loop. The cells of a file are
    well-formed: every number is normalized and in range, a delay list is not
    empty, a pulse limit is not negative, a timing check has the ports and
    values of its kind. *)
Theorem parse_total (i : Input) (limits : SdfLimits) :
  buffers_ok i ->
  (exists f, parse i limits = Done f /\ Forall cell_ok (cells f)) \/ (exists e, parse i limits = Fail e).
Proof.
  intros B. pose proof (parse_sim true i limits B ltac:(done)) as H.
  destruct (parse i limits) as [f | e | |]; cbn in H; eauto; try done.
  destruct (parse_text _ _ _); try done. destruct H as [-> H]. eauto.
Qed.

(** C34: the result does not depend on how the file is read: for any division
    into buffers, within the input limit, the streaming parser returns the
    file or the error, with its position and message, that the reference
    parser returns for the whole text. *)
Theorem parse_buffers (i : Input) (limits : SdfLimits) :
  buffers_ok i -> Z.of_nat (length (input_bytes i)) <= max_input_bytes limits ->
  parse i limits = parse_text (input_bytes i) (failure i) limits.
Proof.
  intros B W. pose proof (parse_sim false i limits B ltac:(done)) as H.
  assert (N : forall e, ~ too_large false e) by exact not_too_large.
  destruct (parse i limits) as [f | e | |], (parse_text _ _ _) as [f' | e' | |]; cbn in H; try done.
  - by destruct H as [-> _].
  - by apply N in H.
  - destruct H as [-> | H]; [done | by apply N in H].
  - by apply N in H.
  - by apply N in H.
Qed.

(** Beyond the input limit nothing is read differently: the streaming
    parser returns what the reference parser returns, or the error that the
    file is too large. *)
Theorem parse_over_limit (i : Input) (limits : SdfLimits) :
  buffers_ok i ->
  parse i limits = parse_text (input_bytes i) (failure i) limits
  \/ exists p lim, parse i limits = Fail (too_large_error p lim).
Proof.
  intros B. pose proof (parse_sim true i limits B ltac:(done)) as H.
  destruct (parse i limits) as [f | e | |], (parse_text _ _ _) as [f' | e' | |]; cbn in H; try done.
  - left. by destruct H as [-> _].
  - right. destruct H as [_ (p & lim & ->)]. eauto.
  - destruct H as [-> | [_ (p & lim & ->)]]; eauto.
  - right. destruct H as [_ (p & lim & ->)]. eauto.
  - right. destruct H as [_ (p & lim & ->)]. eauto.
Qed.

(** Reading the cells leaves the header as [SdfReader::new] read it, and
    only adds warnings. *)
Theorem parse_header_fixed (i : Input) (limits : SdfLimits) (f : SdfFile) :
  buffers_ok i -> parse i limits = Done f ->
  exists r w, Parser.new (Stream.new i limits) limits = Done r
    /\ file_header f = header r /\ file_warnings f = warnings r ++ w.
Proof.
  intros B. unfold parse, parse_with, Parser.new.
  set (l1 := Stream.new i limits). set (l2 := Flat.new (input_bytes i) (failure i) limits).
  assert (Rl : lrel true l1 l2) by (by apply lrel_new).
  assert (S0 : st (lrel true) false (initial l2 limits) (fuel_of (initial l2 limits)) 0
                 (initial l1 limits) (initial l2 limits)).
  { apply st_start. by constructor. }
  apply (read_header_st (too_large true) (lrel true)) in S0. unfold bind.
  destruct (read_header (initial l1 limits)) as [[[] r1] | e | |], (read_header (initial l2 limits)) as [[[] r2] | e2 | |];
    try done. destruct S0 as (_ & _ & S0). apply st_rrel in S0.
  pose proof (parse_loop_st (too_large true) (lrel true) r1 r2 [] S0 ltac:(constructor)) as H. cbn zeta in H.
  destruct (loop _ [] r1) as [[cs u1] | e | |], (loop _ [] r2) as [[cs2 u2] | e2 | |]; try done.
  destruct H as (-> & Ru & _ & Hh & _ & w & Hw). intros [= <-]. exists r1, w. cbn.
  destruct Ru as [_ _ -> _ _ _ ->], S0 as [_ _ -> _ _ _ ->]. done.
Qed.

(** A small file in two buffers. *)
Definition small_text : string :=
  cat ["(DELAYFILE (SDFVERSION "; quoted "3.0"; ")(DIVIDER /)(CELL (CELLTYPE "; quoted "dff";
       ") (INSTANCE a/b\.c) (DELAY (ABSOLUTE (IOPATH (posedge clk) q (1:2:3) ((4) (5)))))";
       "(TIMINGCHECK (SETUPHOLD d (COND ~en (posedge clk)) (-1) (3)))))"]%string.
Definition small_input : Input :=
  mkInput [take 70 (unstr small_text); drop 70 (unstr small_text)] None.

Lemma small_input_ok : buffers_ok small_input.
Proof. repeat constructor; vm_compute; discriminate. Qed.

Lemma parse_total_witness :
  buffers_ok small_input
  /\ ((exists f, parse small_input default_limits = Done f /\ Forall cell_ok (cells f))
      \/ (exists e, parse small_input default_limits = Fail e)).
Proof. split; [exact small_input_ok |]. apply parse_total, small_input_ok. Defined.

Lemma parse_buffers_witness :
  parse small_input default_limits = parse_text (unstr small_text) None default_limits.
Proof. apply (parse_buffers small_input default_limits small_input_ok). vm_compute. discriminate. Defined.

Lemma parse_over_limit_witness :
  let limits := mkLimits 10 100 100 100 10 100 10 in
  parse small_input limits = parse_text (unstr small_text) None limits
  \/ exists p lim, parse small_input limits = Fail (too_large_error p lim).
Proof. apply (parse_over_limit small_input), small_input_ok. Defined.

Lemma parse_header_fixed_witness :
  exists f r w, parse small_input default_limits = Done f
    /\ Parser.new (Stream.new small_input default_limits) default_limits = Done r
    /\ file_header f = header r /\ file_warnings f = warnings r ++ w.
Proof.
  eexists. edestruct (parse_header_fixed small_input default_limits) as (r & w & H).
  - exact small_input_ok.
  - vm_compute. reflexivity.
  - exists r, w. split; [vm_compute; reflexivity | exact H].
Defined.
