(* ===== verification/ParserProps.v ===== *)
(** * What the parser's checks mean

    The version of a file, hierarchical paths and their text, and the checks
    of RETAIN delays and of the limits of two-limit timing checks, each
    against a specification that does not mention the code. *)

From Stdlib Require Import ZArith Lia Ascii String QArith.
From stdpp Require Import base list strings.
From S2P Require Import Prelude Common Number NumberFacts Lexer Expr ExprFacts Syntax Parser.
Open Scope Z_scope.
Open Scope list_scope.

(** ** Versions *)

(** [pattern] occurs in [text] at [p]. *)
Definition occurs_at (pattern text : bytes) (p : nat) : Prop :=
  exists rest, drop p text = pattern ++ rest.

Lemma prefix_of_spec pattern text : prefix_of pattern text = true <-> exists rest, text = pattern ++ rest.
Proof.
  revert text. induction pattern as [| c pattern IH]; intros text; cbn [prefix_of].
  - split; [by exists text | done].
  - destruct text as [| d text]; [split; [done | intros [rest E]; done] |].
    rewrite andb_true_iff, IH. split.
    + intros [E [rest ->]]. apply Ascii.eqb_eq in E as ->. by exists rest.
    + intros [rest [= -> ->]]. split; [apply Ascii.eqb_refl | by exists rest].
Qed.

Lemma find_bytes_spec pattern text k :
  match find_bytes pattern text k with
  | Some p => (k <= p)%nat /\ occurs_at pattern text (p - k)
              /\ forall q, (k <= q < p)%nat -> ~ occurs_at pattern text (q - k)
  | None => pattern <> [] -> forall q, ~ occurs_at pattern text q
  end.
Proof.
  revert k. induction text as [| c text IH]; intros k; cbn [find_bytes].
  - destruct (prefix_of pattern []) eqn:P.
    + apply prefix_of_spec in P as [rest P]. split; [lia |]. rewrite Nat.sub_diag.
      split; [by exists rest | intros q; lia].
    + intros Ne q [rest E]. rewrite drop_nil in E. by destruct pattern.
  - destruct (prefix_of pattern (c :: text)) eqn:P.
    + apply prefix_of_spec in P as [rest P]. split; [lia |]. rewrite Nat.sub_diag.
      split; [by exists rest | intros q; lia].
    + assert (N0 : ~ occurs_at pattern (c :: text) 0).
      { intros [rest E]. cbn in E. by rewrite (proj2 (prefix_of_spec _ _) (ex_intro _ rest E)) in P. }
      specialize (IH (Datatypes.S k)). destruct (find_bytes pattern text (Datatypes.S k)) as [p |].
      * destruct IH as (L & [rest O] & N). split; [lia |].
        replace (p - k)%nat with (Datatypes.S (p - Datatypes.S k)) by lia. split; [by exists rest |].
        intros q Hq. destruct (Nat.eq_dec q k) as [-> | Nq]; [by rewrite Nat.sub_diag |].
        replace (q - k)%nat with (Datatypes.S (q - Datatypes.S k)) by lia. apply N. lia.
      * intros Ne [| q]; [done |]. intros O. by apply (IH Ne q).
Qed.

(** The leftmost of some versions. *)
Definition leftmost (versions : list string) (text : bytes) (o : option (nat * string)) : Prop :=
  match o with
  | Some (p, v) => v ∈ versions /\ occurs_at (unstr v) text p
                   /\ forall w q, w ∈ versions -> (q < p)%nat -> ~ occurs_at (unstr w) text q
  | None => forall w q, w ∈ versions -> ~ occurs_at (unstr w) text q
  end.

Definition pick (text : bytes) (best : option (nat * string)) (v : string) : option (nat * string) :=
  match find_bytes (unstr v) text 0 with
  | None => best
  | Some p =>
      match best with
      | Some (q, _) => if Nat.ltb p q then Some (p, v) else best
      | None => Some (p, v)
      end
  end.

Lemma pick_leftmost text vs best v :
  unstr v <> [] -> leftmost vs text best -> leftmost (vs ++ [v]) text (pick text best v).
Proof.
  intros Ne H. unfold pick. pose proof (find_bytes_spec (unstr v) text 0) as F.
  assert (In1 : forall w, w ∈ vs ++ [v] <-> w ∈ vs \/ w = v).
  { intros w. rewrite elem_of_app, list_elem_of_singleton. done. }
  destruct (find_bytes (unstr v) text 0) as [p |].
  - destruct F as (_ & O & N). rewrite Nat.sub_0_r in O.
    assert (Nv : forall q, (q < p)%nat -> ~ occurs_at (unstr v) text q).
    { intros q Hq. specialize (N q ltac:(lia)). by rewrite Nat.sub_0_r in N. }
    destruct best as [[q w] |]; cbn in H.
    + destruct H as (Hw & Ow & Nw). destruct (Nat.ltb_spec p q); cbn.
      * split_and!; [apply In1; by right | done |]. intros x y Hx Hy. apply In1 in Hx as [Hx | ->]; [| by apply Nv].
        apply Nw; [done | lia].
      * split_and!; [apply In1; by left | done |]. intros x y Hx Hy. apply In1 in Hx as [Hx | ->]; [by apply Nw |].
        apply Nv. lia.
    + split_and!; [apply In1; by right | done |]. intros x y Hx Hy. apply In1 in Hx as [Hx | ->]; [by apply H | by apply Nv].
  - specialize (F Ne). destruct best as [[q w] |]; cbn in H |- *.
    + destruct H as (Hw & Ow & Nw). split_and!; [apply In1; by left | done |].
      intros x y Hx Hy. apply In1 in Hx as [Hx | ->]; [by apply Nw | apply F].
    + intros x y Hx. apply In1 in Hx as [Hx | ->]; [by apply H | apply F].
Qed.

Lemma pick_all text vs seen best :
  Forall (fun v => unstr v <> []) vs -> leftmost seen text best ->
  leftmost (seen ++ vs) text (fold_left (pick text) vs best).
Proof.
  intros H. revert seen best. induction H as [| v vs Nv _ IH]; intros seen best L; cbn [fold_left].
  - by rewrite app_nil_r.
  - change (v :: vs) with ([v] ++ vs). rewrite app_assoc. by apply IH, pick_leftmost.
Qed.

Lemma first_version_leftmost text : leftmost KNOWN (unstr text) (first_version text).
Proof.
  change (first_version text) with (fold_left (pick (unstr text)) KNOWN None).
  apply (pick_all (unstr text) KNOWN []).
  - repeat constructor; discriminate.
  - intros w q Hw. by apply not_elem_of_nil in Hw.
Qed.

(** The version of a file is the leftmost known version number of its
    SDFVERSION string: 1.0, 2.0 and 2.1 are read with the 2.1 grammar, 3.0
    and 4.0 and a string without a version with the 3.0 grammar, and there is
    a warning exactly when it is neither 2.1 nor 3.0. *)
Theorem detect_version_leftmost (text : string) :
  exists o, leftmost KNOWN (unstr text) o /\
  match o with
  | Some (_, v) =>
      (detect_version text).1
        = (if decide (v ∈ ["1.0"; "2.0"; "2.1"]%string) then V2_1 else V3_0)
      /\ ((detect_version text).2 = None <-> v = "2.1"%string \/ v = "3.0"%string)
  | None => (detect_version text).1 = V3_0 /\ (detect_version text).2 <> None
  end.
Proof.
  exists (first_version text). split; [apply first_version_leftmost |].
  pose proof (first_version_leftmost text) as L. unfold detect_version.
  destruct (first_version text) as [[p v] |]; [| by split].
  destruct L as [Hv _]. unfold KNOWN in Hv. rewrite !elem_of_cons, elem_of_nil in Hv.
  destruct Hv as [-> | [-> | [-> | [-> | [-> | []]]]]]; cbn; (split; [done |]);
    (split; [try discriminate; auto | intros [H | H]; try discriminate; done]).
Qed.

(** ** The data-set checks *)

(** The members of two values in a data set. *)
Definition both (v w : SdfValue) (set : nat) (a b : SdfNumber) : Prop :=
  (set < 3)%nat /\ member v set = Some a /\ member w set = Some b.

(** A search of the three data sets for the first pair that [bad] accepts. *)
Lemma search_sets (v w : SdfValue) (bad : SdfNumber -> SdfNumber -> bool) :
  let found := foldr (fun set found =>
    match member v set, member w set with
    | Some a, Some b => if bad a b then Some (a, b) else found
    | _, _ => found
    end) None [0; 1; 2]%nat in
  match found with
  | Some (a, b) => bad a b = true /\ exists set, both v w set a b
  | None => forall set a b, both v w set a b -> bad a b = false
  end.
Proof.
  cbn zeta. unfold both. cbn [foldr].
  destruct (member v 0) as [a0 |] eqn:A0, (member w 0) as [b0 |] eqn:B0; try destruct (bad a0 b0) eqn:F0;
    try (split; [done | exists 0%nat; split_and!; [lia | done | done]]);
  (destruct (member v 1) as [a1 |] eqn:A1, (member w 1) as [b1 |] eqn:B1; try destruct (bad a1 b1) eqn:F1;
    try (split; [done | exists 1%nat; split_and!; [lia | done | done]]));
  (destruct (member v 2) as [a2 |] eqn:A2, (member w 2) as [b2 |] eqn:B2; try destruct (bad a2 b2) eqn:F2;
    try (split; [done | exists 2%nat; split_and!; [lia | done | done]]));
  intros [| [| [| set]]] a b (L & Ha & Hb); simplify_eq; try done; lia.
Qed.

(** Every member of a value is a normalized number in range, as parsing
    guarantees. *)
Definition members_ok (v : SdfValue) : Prop := forall set n, member v set = Some n -> number_ok n.

Lemma negated_Q n : number_ok n -> (to_Q (negated n) == - to_Q n)%Q.
Proof.
  intros (_ & M & _). unfold negated, to_Q. cbn [mantissa exponent].
  rewrite wrap_i64_small by (unfold in_i64, i64_min, i64_max; lia). apply scaled_opp.
Qed.

(** [cmp_exact a (negated b)] decides the sign of the sum. *)
Lemma cmp_negated a b :
  number_ok b -> cmp_exact a (negated b) = Datatypes.Gt <-> (0 < to_Q a + to_Q b)%Q.
Proof.
  intros B. rewrite cmp_exact_spec, <- Qgt_alt, negated_Q by done. split; intros H.
  - rewrite <- (Qplus_opp_r (to_Q b)), Qplus_comm. apply Qplus_lt_l with (z := (- to_Q b)%Q).
    ring_simplify. exact H.
  - apply Qplus_lt_l with (z := to_Q b). ring_simplify. by rewrite Qplus_comm.
Qed.

Definition bad_sum (a b : SdfNumber) : bool :=
  (is_negative a || is_negative b)
  && match cmp_exact a (negated b) with Datatypes.Gt => false | _ => true end.

Lemma sum_violation_search v w :
  match sum_violation v w with
  | Some (a, b) => bad_sum a b = true /\ exists set, both v w set a b
  | None => forall set a b, both v w set a b -> bad_sum a b = false
  end.
Proof.
  pose proof (search_sets v w bad_sum) as S. cbn zeta in S.
  assert (E : sum_violation v w = foldr (fun set found =>
    match member v set, member w set with
    | Some a, Some b => if bad_sum a b then Some (a, b) else found
    | _, _ => found
    end) None [0; 1; 2]%nat); [| by rewrite E].
  unfold sum_violation. apply foldr_ext; [| done | done]. intros set found.
  destruct (member v set) as [a |], (member w set) as [b |]; try done. unfold bad_sum.
  destruct (is_negative a), (is_negative b), (cmp_exact a (negated b)); done.
Qed.

(** The sum check of SETUPHOLD and RECREM warns exactly when, in some
    data set that has both limits and a negative one, the sum of the two
    limits, as rational numbers, is not greater than zero. *)
Theorem sum_violation_spec (v w : SdfValue) :
  members_ok v -> members_ok w ->
  match sum_violation v w with
  | Some (a, b) => (to_Q a + to_Q b <= 0)%Q /\ exists set, both v w set a b
  | None => forall set a b, both v w set a b ->
      is_negative a = true \/ is_negative b = true -> (0 < to_Q a + to_Q b)%Q
  end.
Proof.
  intros _ Hw. pose proof (sum_violation_search v w) as S.
  destruct (sum_violation v w) as [[a b] |].
  - destruct S as [S (set & L & Ha & Hb)]. split; [| by exists set].
    apply andb_true_iff in S as [_ S]. apply Qnot_lt_le. intros Lt.
    apply cmp_negated in Lt; [| by eapply Hw]. by rewrite Lt in S.
  - intros set a b Hab Neg. specialize (S set a b Hab). destruct Hab as (_ & _ & Hb).
    apply cmp_negated; [by eapply Hw |]. unfold bad_sum in S.
    apply andb_false_iff in S as [S | S].
    + apply orb_false_iff in S as [S1 S2]. rewrite S1, S2 in Neg. by destruct Neg.
    + by destruct (cmp_exact a (negated b)).
Qed.

Lemma sum_violation_spec_witness :
  let v := Single (mkNumber (-3) 0) in let w := Triple (Some (mkNumber 2 0)) None None in
  members_ok v /\ members_ok w /\ sum_violation v w = Some (mkNumber (-3) 0, mkNumber 2 0)
  /\ (to_Q (mkNumber (-3) 0) + to_Q (mkNumber 2 0) <= 0)%Q.
Proof.
  set (v := Single (mkNumber (-3) 0)). set (w := Triple (Some (mkNumber 2 0)) None None). cbn zeta.
  assert (Hv : members_ok v).
  { intros [| [| [| s]]] n [= <-]; (split; [right; discriminate |]); split; vm_compute; congruence. }
  assert (Hw : members_ok w).
  { intros [| [| [| s]]] n [= <-]; (split; [right; discriminate |]); split; vm_compute; congruence. }
  assert (E : sum_violation v w = Some (mkNumber (-3) 0, mkNumber 2 0)) by (vm_compute; reflexivity).
  pose proof (sum_violation_spec v w Hv Hw) as S. rewrite E in S.
  split_and!; [exact Hv | exact Hw | exact E | exact (proj1 S)].
Defined.

(** ** RETAIN delays *)

Definition retain_bad (a b : SdfNumber) : bool :=
  match cmp_exact b a with Datatypes.Gt => false | _ => true end.

Lemma set_violation_search v w :
  match set_violation v w with
  | Some (a, b) => retain_bad a b = true /\ exists set, both v w set a b
  | None => forall set a b, both v w set a b -> retain_bad a b = false
  end.
Proof.
  pose proof (search_sets v w retain_bad) as S. cbn zeta in S.
  assert (E : set_violation v w = foldr (fun set found =>
    match member v set, member w set with
    | Some a, Some b => if retain_bad a b then Some (a, b) else found
    | _, _ => found
    end) None [0; 1; 2]%nat); [| by rewrite E].
  unfold set_violation. apply foldr_ext; [| done | done]. intros set found.
  destruct (member v set) as [a |], (member w set) as [b |]; try done. unfold retain_bad.
  by destruct (cmp_exact b a).
Qed.

(** The numbers of a transition and a data set of two delay lists. *)
Definition both_delays (l1 l2 : SdfDelvalList) (a b : SdfNumber) : Prop :=
  exists i d1 d2 v w set, l1 !! i = Some d1 /\ l2 !! i = Some d2
    /\ delay d1 = Some v /\ delay d2 = Some w /\ both v w set a b.

Lemma pair_violation_search l1 l2 :
  match pair_violation l1 l2 with
  | Some (a, b) => retain_bad a b = true /\ both_delays l1 l2 a b
  | None => forall a b, both_delays l1 l2 a b -> retain_bad a b = false
  end.
Proof.
  revert l2. induction l1 as [| d1 l1 IH]; intros l2; cbn [pair_violation].
  { intros a b (i & x & y & v & w & set & E & _). by destruct i. }
  destruct l2 as [| d2 l2].
  { intros a b (i & x & y & v & w & set & _ & E & _). by destruct i. }
  assert (Here : match (match delay d1, delay d2 with Some a, Some b => set_violation a b | _, _ => None end) with
                 | Some (a, b) => retain_bad a b = true /\ both_delays (d1 :: l1) (d2 :: l2) a b
                 | None => forall v w set a b, delay d1 = Some v -> delay d2 = Some w -> both v w set a b ->
                     retain_bad a b = false
                 end).
  { destruct (delay d1) as [v |] eqn:E1, (delay d2) as [w |] eqn:E2; try (intros; simplify_eq; done).
    pose proof (set_violation_search v w) as S. destruct (set_violation v w) as [[a b] |].
    - destruct S as [S (set & B)]. split; [done |]. by exists 0%nat, d1, d2, v, w, set.
    - intros v' w' set a b [= <-] [= <-]. apply S. }
  destruct (match delay d1, delay d2 with Some a, Some b => set_violation a b | _, _ => None end) as [[a b] |];
    [exact Here |].
  specialize (IH l2). destruct (pair_violation l1 l2) as [[a b] |].
  - destruct IH as [B (i & x & y & v & w & set & H)]. split; [done |]. by exists (Datatypes.S i), x, y, v, w, set.
  - intros a b ([| i] & x & y & v & w & set & H1 & H2 & H3 & H4 & H5); [by simplify_eq/=; eapply Here |].
    apply IH. by exists i, x, y, v, w, set.
Qed.

(** The RETAIN check warns exactly when two consecutive RETAIN lists do
    not increase strictly: it reports an index and two delays of the lists
    there with [b <= a], and reports nothing only if every transition and
    data set that both of two consecutive lists give increases strictly. *)
Theorem retain_violation_spec (retain : list SdfDelvalList) :
  match retain_violation 0 retain with
  | Some (i, a, b) => exists l1 l2, retain !! i = Some l1 /\ retain !! Datatypes.S i = Some l2
      /\ both_delays l1 l2 a b /\ (to_Q b <= to_Q a)%Q
  | None => forall i l1 l2 a b, retain !! i = Some l1 -> retain !! Datatypes.S i = Some l2 ->
      both_delays l1 l2 a b -> (to_Q a < to_Q b)%Q
  end.
Proof.
  assert (Bad : forall a b, retain_bad a b = true -> (to_Q b <= to_Q a)%Q).
  { intros a b. unfold retain_bad. rewrite cmp_exact_spec. intros H. apply Qnot_lt_le. intros L.
    apply Qgt_alt in L. by rewrite L in H. }
  assert (Good : forall a b, retain_bad a b = false -> (to_Q a < to_Q b)%Q).
  { intros a b. unfold retain_bad. rewrite cmp_exact_spec. intros H. apply Qgt_alt.
    by destruct (to_Q b ?= to_Q a)%Q. }
  assert (G : forall k, match retain_violation k retain with
    | Some (i, a, b) => exists j l1 l2, i = (k + j)%nat /\ retain !! j = Some l1 /\ retain !! Datatypes.S j = Some l2
        /\ both_delays l1 l2 a b /\ (to_Q b <= to_Q a)%Q
    | None => forall i l1 l2 a b, retain !! i = Some l1 -> retain !! Datatypes.S i = Some l2 ->
        both_delays l1 l2 a b -> (to_Q a < to_Q b)%Q
    end).
  { induction retain as [| l1 rest IH]; intros k; cbn [retain_violation]; [done |].
    destruct rest as [| l2 rest]; [by intros [| i] |].
    pose proof (pair_violation_search l1 l2) as P. destruct (pair_violation l1 l2) as [[a b] |].
    - destruct P as [B D]. exists 0%nat, l1, l2. split_and!; auto.
    - specialize (IH (Datatypes.S k)). destruct (retain_violation (Datatypes.S k) (l2 :: rest)) as [[[i a] b] |].
      + destruct IH as (j & x & y & -> & H). exists (Datatypes.S j), x, y. split; [lia | exact H].
      + intros [| i] x y a b; [intros [= <-] [= <-] D; by apply Good, P | apply IH]. }
  specialize (G 0%nat). destruct (retain_violation 0 retain) as [[[i a] b] |]; [| exact G].
  destruct G as (j & l1 & l2 & -> & H). by exists l1, l2.
Qed.

(** ** Paths are read back *)

(** The text of a path: its identifiers, escaped, between dividers. *)
Definition path_text (d : ascii) (ids : list SdfIdent) : string := join (str [d]) (map fmt_ident ids).

Definition ident_wf (i : SdfIdent) : Prop := wf_name (name i) = true /\ wf_opt_bits (bits i) = true.

Section Paths.
Variables d o : ascii.
Hypothesis dividers : (d = "."%char /\ o = "/"%char) \/ (d = "/"%char /\ o = "."%char).

(** A text that [split_path] takes into the current part. *)
Definition passes (t : bytes) : Prop :=
  forall rest cur, split_path d o (t ++ rest) cur = split_path d o rest (cur ++ t).

Lemma passes_app t u : passes t -> passes u -> passes (t ++ u).
Proof. intros T U rest cur. by rewrite <- app_assoc, T, U, <- app_assoc. Qed.

Lemma passes_byte c : c <> backslash -> c <> d -> c <> o -> passes [c].
Proof.
  intros N1 N2 N3 rest cur. cbn [app split_path].
  apply Ascii.eqb_neq in N1, N2, N3. rewrite N1, N2, N3.
  destruct (split_path d o rest (cur ++ [c])). by rewrite orb_false_r.
Qed.

Lemma passes_bytes t : Forall (fun c => passes [c]) t -> passes t.
Proof.
  intros H. induction H as [| c t Hc _ IH]; [intros rest cur; by rewrite app_nil_r |].
  by apply (passes_app [c] t).
Qed.

Lemma passes_escape c : passes [backslash; c].
Proof. intros rest cur. done. Qed.

Lemma passes_word c : is_ascii_alphanumeric c || Ascii.eqb c "_"%char = true -> passes [c].
Proof.
  intros H. apply passes_byte; intros ->; [discriminate H | |];
    destruct dividers as [[-> ->] | [-> ->]]; discriminate H.
Qed.

Lemma passes_digits ds : Forall (fun b => is_ascii_digit b = true) ds -> passes ds.
Proof.
  intros H. apply passes_bytes. eapply Forall_impl; [exact H |]. intros c Hc. apply passes_word.
  unfold is_ascii_alphanumeric. by rewrite Hc, orb_true_r.
Qed.

Lemma passes_mark c : c = "["%char \/ c = "]"%char \/ c = ":"%char -> passes [c].
Proof.
  intros [-> | [-> | ->]]; apply passes_byte; try discriminate;
    destruct dividers as [[-> ->] | [-> ->]]; discriminate.
Qed.

Lemma passes_bits b : wf_bits b = true -> passes (unstr (fmt_bits b)).
Proof.
  unfold wf_bits, fmt_bits, cat. intros W.
  destruct b as [n | m l]; cbn [bounds] in W; rewrite !andb_true_iff, !Z.leb_le in W; cbn [foldr];
    rewrite !unstr_append, !dec_nonneg by lia;
    repeat apply passes_app; try (apply passes_digits, dec_bytes_spec; lia);
    try (intros rest cur; by rewrite app_nil_r); apply passes_mark; auto.
Qed.

Lemma passes_name nm : passes (write_identifier_bytes nm).
Proof.
  unfold write_identifier_bytes. induction nm as [| c nm IH]; cbn [map concat].
  - intros rest cur. by rewrite app_nil_r.
  - apply passes_app; [| exact IH]. destruct (_ || _) eqn:C; [by apply passes_word | apply passes_escape].
Qed.

Lemma unstr_fmt_ident i :
  unstr (fmt_ident i)
  = write_identifier_bytes (unstr (name i)) ++ match bits i with Some b => unstr (fmt_bits b) | None => [] end.
Proof.
  unfold fmt_ident, cat. cbn [foldr]. rewrite !unstr_append. unfold write_identifier. rewrite unstr_str.
  destruct (bits i); cbn; by rewrite app_nil_r.
Qed.

Lemma passes_ident i : ident_wf i -> passes (unstr (fmt_ident i)).
Proof.
  intros [_ W]. rewrite unstr_fmt_ident. apply passes_app; [apply passes_name |].
  destruct (bits i); [by apply passes_bits | intros rest cur; by rewrite app_nil_r].
Qed.

Lemma split_path_parts t ts cur :
  passes t -> Forall passes ts ->
  split_path d o (t ++ concat (map (cons d) ts)) cur = ((cur ++ t) :: ts, false).
Proof.
  intros T H. revert t cur T. induction H as [| u ts Hu _ IH]; intros t cur T; rewrite T; [done |].
  cbn [map concat app split_path].
  replace (Ascii.eqb d backslash) with false by (destruct dividers as [[-> _] | [-> _]]; done).
  rewrite Ascii.eqb_refl, (IH u [] Hu). done.
Qed.

Lemma unstr_path_text ids i :
  unstr (path_text d (i :: ids))
  = unstr (fmt_ident i) ++ concat (map (cons d) (map (fun j => unstr (fmt_ident j)) ids)).
Proof.
  unfold path_text, join. cbn [map]. unfold cat. cbn [foldr]. rewrite unstr_append. f_equal.
  induction ids as [| j ids IH]; [done |]. cbn [map foldr concat]. rewrite !unstr_append, IH, unstr_str.
  cbn [app unstr list_ascii_of_string]. by rewrite app_nil_r.
Qed.

End Paths.

Lemma fmt_ident_part i :
  ident_wf i -> unstr (fmt_ident i) <> [] /\ fmt_ident i <> "*"%string.
Proof.
  intros [W _]. unfold wf_name in W. apply andb_true_iff in W as [W _].
  apply negb_true_iff, String.eqb_neq in W.
  assert (E : exists c nm, unstr (name i) = c :: nm).
  { destruct (unstr (name i)) as [| c nm] eqn:E; [| by eauto]. exfalso. apply W.
    by rewrite <- (str_unstr (name i)), E. }
  destruct E as (c & nm & E). pose proof (unstr_fmt_ident i) as U. rewrite E in U.
  unfold write_identifier_bytes in U. cbn [map concat] in U.
  split.
  - rewrite U. destruct (_ || _); done.
  - intros Z. rewrite Z in U. destruct (_ || _) eqn:C in U; cbn in U; injection U; intros; subst; try done.
Qed.

Section Path_reading.
Context {L : Type}.

Lemma components_read w pos what o ids acc warned (r : SdfReader L) :
  Forall ident_wf ids ->
  fold_m (path_component w pos what o false) (map (fun i => unstr (fmt_ident i)) ids) (acc, warned) r
  = Done (acc ++ ids, warned, r).
Proof.
  intros H. revert acc. induction H as [| i ids Hi _ IH]; intros acc; cbn [map fold_m]; [by rewrite app_nil_r |].
  destruct (fmt_ident_part i Hi) as [Ne Ns]. unfold bind, path_component at 1.
  destruct (unstr (fmt_ident i)) as [| c cs] eqn:E; [done |]. rewrite <- E, str_unstr.
  apply String.eqb_neq in Ns. rewrite Ns. destruct Hi as [W1 W2].
  change (fmt_ident i) with (ident_text (name i) (bits i)). rewrite split_ident_text by done.
  destruct i as [nm bs]. cbn [ret name bits]. rewrite IH, <- app_assoc. done.
Qed.

Lemma path_read (pos : SdfPos) (what : string) (ids : list SdfIdent) (r : SdfReader L) :
  ids <> [] -> Forall ident_wf ids ->
  divider (header r) = "."%char \/ divider (header r) = "/"%char ->
  Z.of_nat (length ids) <= max_path_components (rd_limits r) ->
  path_components (path_text (divider (header r)) ids) pos what r = Done (ids, r).
Proof.
  intros Ne W Hd Ln. unfold path_components, bind at 1, get.
  set (d := divider (header r)) in *. set (o := if Ascii.eqb d "."%char then "/"%char else "."%char).
  assert (Dv : (d = "."%char /\ o = "/"%char) \/ (d = "/"%char /\ o = "."%char)).
  { unfold o. destruct Hd as [-> | ->]; [left | right]; done. }
  destruct ids as [| i ids]; [done |]. apply Forall_cons in W as [Wi W].
  rewrite unstr_path_text, split_path_parts; [| done | by apply passes_ident |].
  2: { apply Forall_map. eapply Forall_impl; [exact W |]. intros j Hj. by apply passes_ident. }
  cbn [length app]. rewrite length_map. cbn [length] in Ln.
  destruct (Z.gtb_spec (Z.of_nat (Datatypes.S (length ids))) (max_path_components (rd_limits r))); [lia |].
  cbn [when]. unfold bind at 1, ret at 1. unfold bind at 1.
  change (unstr (fmt_ident i) :: map (fun j => unstr (fmt_ident j)) ids)
    with (map (fun j => unstr (fmt_ident j)) (i :: ids)).
  rewrite components_read by (by constructor). done.
Qed.

End Path_reading.


