(* ===== verification/Targets.v ===== *)
(** * Annotation targets (src/sim/sdf/targets.rs)

    The instance tree of a model with the ports, nets, specify paths and
    timing checks an SDF record can name, and the operations on the tree.
    Scopes are numbered in the order they are added; an index of the sources
    that is out of bounds is a [panic]. *)

From Stdlib Require Import ZArith Lia Ascii String.
From stdpp Require Import base list strings.
From S2P Require Import Prelude Common Lexer Expr.
Open Scope Z_scope.
Open Scope list_scope.

Inductive SdfPortDirection : Type := DInput | DOutput | DInout | DOther.

#[export] Instance SdfPortDirection_eq_dec : EqDecision SdfPortDirection.
Proof. solve_decision. Defined.

Record SdfTargetPort : Type := mkTargetPort {
  port_name : string;
  direction : SdfPortDirection;
  port_range : option (Z * Z)
}.

Record SdfNetLoad : Type := mkNetLoad {
  load_scope : Z;
  load_port : Z;
  net_bits : option (Z * Z)
}.

Record SdfTargetNet : Type := mkTargetNet {
  net_name : string;
  net_range : option (Z * Z);
  loads : list SdfNetLoad
}.

Record SdfTerminal : Type := mkTerminal { term_name : string; term_range : option (Z * Z) }.

Definition fmt_terminal (t : SdfTerminal) : string :=
  cat [write_identifier (term_name t);
       match term_range t with
       | Some (msb, lsb) =>
           if Z.eqb msb lsb then cat ["["; dec msb; "]"] else cat ["["; dec msb; ":"; dec lsb; "]"]
       | None => ""
       end]%string.

Inductive SdfTargetEdge : Type := TENone | TEPosedge | TENegedge | TEAny.

#[export] Instance SdfTargetEdge_eq_dec : EqDecision SdfTargetEdge.
Proof. solve_decision. Defined.

Inductive SdfTargetCondition : Type :=
| TCNone
| TCIf (e : option CondExpr)
| TCIfNone.

Record SdfPathRow : Type := mkPathRow {
  row_input : Z;
  row_output : Z;
  row_set : Z;
  row_destination : Z;
  row_path : Z
}.

Record SdfTargetPath : Type := mkTargetPath {
  path_origin : string;
  inputs : list SdfTerminal;
  outputs : list SdfTerminal;
  path_edge : SdfTargetEdge;
  path_condition : SdfTargetCondition;
  path_rows : list SdfPathRow
}.

Inductive SdfTimingCheckKind : Type :=
| KSetup | KHold | KSetupHold | KRecovery | KRemoval | KRecRem
| KSkew | KTimeSkew | KFullSkew | KPeriod | KWidth | KNoChange.

#[export] Instance SdfTimingCheckKind_eq_dec : EqDecision SdfTimingCheckKind.
Proof. solve_decision. Defined.

Definition check_name (k : SdfTimingCheckKind) : string :=
  match k with
  | KSetup => "$setup"
  | KHold => "$hold"
  | KSetupHold => "$setuphold"
  | KRecovery => "$recovery"
  | KRemoval => "$removal"
  | KRecRem => "$recrem"
  | KSkew => "$skew"
  | KTimeSkew => "$timeskew"
  | KFullSkew => "$fullskew"
  | KPeriod => "$period"
  | KWidth => "$width"
  | KNoChange => "$nochange"
  end.

(** An event's edges are a mask of [TimingEdges], 0 for any transition. *)
Record SdfCheckEvent : Type := mkCheckEvent {
  terminal : SdfTerminal;
  edges : Z;
  event_condition : SdfTargetCondition
}.

(** [SdfLimitSlot] of plan.rs. *)
Inductive SdfLimitSlot : Type := First | Second | Both.

#[export] Instance SdfLimitSlot_eq_dec : EqDecision SdfLimitSlot.
Proof. solve_decision. Defined.

Record SdfCheckRow : Type := mkCheckRow {
  crow_set : Z;
  crow_check : Z;
  crow_slot : SdfLimitSlot;
  crow_pair : option Z
}.

Record SdfTargetCheck : Type := mkTargetCheck {
  check_origin : string;
  check_kind : SdfTimingCheckKind;
  reference : SdfCheckEvent;
  data : option SdfCheckEvent;
  stamp_condition : SdfTargetCondition;
  check_condition : SdfTargetCondition;
  check_rows : list SdfCheckRow;
  delayed : bool
}.

Inductive SdfScopeKind : Type := ScopeModule | ScopePrimitive | ScopeGenerate.

#[export] Instance SdfScopeKind_eq_dec : EqDecision SdfScopeKind.
Proof. solve_decision. Defined.

Record SdfScope : Type := mkScope {
  sc_name : string;
  sc_index : option Z;
  sc_parent : option Z;
  children : list Z;
  sc_kind : SdfScopeKind;
  sc_cell_type : string;
  ports : list SdfTargetPort;
  paths : list SdfTargetPath;
  checks : list SdfTargetCheck;
  precision_fs : Z;
  drives : list Z;
  nets : list SdfTargetNet
}.

(** [SdfScope::new]. *)
Definition new_scope (name : string) (index : option Z) (kind : SdfScopeKind) (cell_type : string) : SdfScope :=
  mkScope name index None [] kind cell_type [] [] [] 0 [] [].

Definition set_parent (s : SdfScope) (parent : option Z) : SdfScope :=
  mkScope (sc_name s) (sc_index s) parent (children s) (sc_kind s) (sc_cell_type s)
    (ports s) (paths s) (checks s) (precision_fs s) (drives s) (nets s).
Definition push_child (s : SdfScope) (child : Z) : SdfScope :=
  mkScope (sc_name s) (sc_index s) (sc_parent s) (children s ++ [child]) (sc_kind s) (sc_cell_type s)
    (ports s) (paths s) (checks s) (precision_fs s) (drives s) (nets s).

Definition escaped (name : string) : string := write_identifier name.

(** The level as an SDF hierarchy component: [u], [u[3]], [esc\.inst]. *)
Definition component (s : SdfScope) : string :=
  cat [escaped (sc_name s);
       match sc_index s with Some index => cat ["["; dec index; "]"] | None => "" end]%string.

Record SdfTargets : Type := mkTargets { scopes : list SdfScope; roots : list Z }.

(** [SdfTargets::new]. *)
Definition new_targets : SdfTargets := mkTargets [] [].

(** An element of a vector; an index out of bounds panics. *)
Definition index {E S A} (xs : list A) (i : Z) : M E S A :=
  match xs !! Z.to_nat i with
  | Some x => ret x
  | None => panic "index out of bounds"
  end.

(** ** Building the tree *)

Definition add_scope {E} (parent : option Z) (scope : SdfScope) : M E SdfTargets Z :=
  let* t := get in
  let i := wrap_u32 (Z.of_nat (length (scopes t))) in
  modify (fun t => mkTargets (scopes t ++ [set_parent scope parent]) (roots t)) ;;;
  match parent with
  | Some p =>
      let* t := get in
      let* s := index (scopes t) p in
      modify (fun t => mkTargets (<[Z.to_nat p := push_child s i]> (scopes t)) (roots t))
  | None => modify (fun t => mkTargets (scopes t) (roots t ++ [i]))
  end ;;;
  ret i.

(** ** Reading the tree *)

Section Reading.
Context {E S : Type}.
Variable t : SdfTargets.

Definition scope (i : Z) : M E S SdfScope := index (scopes t) i.

(** The components from a scope up to its top instance. A chain of parents
    visits a scope at most once, so the number of scopes bounds it. *)
Fixpoint path_parts (fuel : nat) (current : option Z) (parts : list string) : M E S (list string) :=
  match fuel with
  | O => fun _ => NoFuel
  | Datatypes.S f =>
      match current with
      | None => ret parts
      | Some i =>
          let* s := scope i in
          path_parts f (sc_parent s) (parts ++ [component s])
      end
  end.

Definition path_of (i : Z) : M E S string :=
  let* parts := path_parts (Datatypes.S (length (scopes t))) (Some i) [] in
  ret (join "." (rev parts)).

(** The first candidate of a name and element index. *)
Fixpoint find_candidate (name : string) (index : option Z) (candidates : list Z) : M E S (option Z) :=
  match candidates with
  | [] => ret None
  | candidate :: rest =>
      let* s := scope candidate in
      if String.eqb (sc_name s) name && bool_decide (sc_index s = index) then ret (Some candidate)
      else find_candidate name index rest
  end.

Fixpoint find_components (components : list (string * option Z)) (candidates : list Z) (found : option Z)
  : M E S (option Z) :=
  match components with
  | [] => ret found
  | (name, index) :: rest =>
      let* c := find_candidate name index candidates in
      match c with
      | None => ret None
      | Some i =>
          let* s := scope i in
          find_components rest (children s) (Some i)
      end
  end.

(** Depth first in tree order; the head of [stack] is its top. In a tree no
    scope is visited twice, so the number of scopes bounds the loop. *)
Fixpoint subtree_loop (fuel : nat) (stack out : list Z) : M E S (list Z) :=
  match fuel with
  | O => fun _ => NoFuel
  | Datatypes.S f =>
      match stack with
      | [] => ret out
      | i :: rest =>
          let* s := scope i in
          subtree_loop f (children s ++ rest) (out ++ [i])
      end
  end.

Definition subtree (root : Z) : M E S (list Z) :=
  subtree_loop (Datatypes.S (length (scopes t))) [root] [].

End Reading.

(** [text.parse::<i64>()]: an optional sign and digits, in range. *)
Definition parse_i64 (text : bytes) : option Z :=
  let '(negative, digits) :=
    match text with
    | c :: rest =>
        if Ascii.eqb c "-"%char then (true, rest)
        else if Ascii.eqb c "+"%char then (false, rest)
        else (false, text)
    | [] => (false, [])
    end in
  match digits with
  | [] => None
  | _ =>
      if forallb is_ascii_digit digits then
        let v := if negative then - digits_value 0 digits else digits_value 0 digits in
        if (i64_min <=? v) && (v <=? i64_max) then Some v else None
      else None
  end.

(** The loop of [split_path]: the name and element index of the component
    so far, [digits] inside an index, and the finished components. *)
Fixpoint split_components (path name : bytes) (index : option Z) (digits : option bytes)
  (components : list (string * option Z)) : option (list (string * option Z)) :=
  match path with
  | [] =>
      match digits, name with
      | Some _, _ | None, [] => None
      | None, _ => Some (components ++ [(str name, index)])
      end
  | c :: rest =>
      match digits with
      | Some acc =>
          if Ascii.eqb c "]"%char then
            match parse_i64 acc with
            | None => None
            | Some i =>
                match rest with
                | next :: _ =>
                    if Ascii.eqb next "."%char then split_components rest name (Some i) None components
                    else None
                | [] => split_components rest name (Some i) None components
                end
            end
          else split_components rest name index (Some (acc ++ [c])) components
      | None =>
          if Ascii.eqb c backslash && bool_decide (index = None) then
            match rest with
            | [] => None
            | e :: rest' => split_components rest' (name ++ [e]) index None components
            end
          else if Ascii.eqb c "."%char then
            match name with
            | [] => None
            | _ => split_components rest [] None None (components ++ [(str name, index)])
            end
          else if Ascii.eqb c "["%char && bool_decide (index = None) then
            split_components rest name index (Some []) components
          else if bool_decide (index = None) then
            split_components rest (name ++ [c]) index None components
          else None
      end
  end.

Definition split_path (path : string) : option (list (string * option Z)) :=
  split_components (unstr path) [] None None [].

Definition find {E S} (t : SdfTargets) (path : string) : M E S (option Z) :=
  match split_path path with
  | None => ret None
  | Some components => find_components t components (roots t) None
  end.
