(* ===== verification/Total.v ===== *)
(** * Computations that return or fail

    [runs Q o]: the outcome is an error, or a value and a state that satisfy
    [Q]; it is neither a panic nor a loop out of fuel. *)

From Stdlib Require Import ZArith Lia Ascii String.
From stdpp Require Import base list strings.
From S2P Require Import Prelude Targets.
Open Scope Z_scope.
Open Scope list_scope.

Section Runs.
Context {E S : Type}.
Implicit Types s : S.

Definition runs {A} (Q : A -> S -> Prop) (o : outcome E (A * S)) : Prop :=
  match o with
  | Done (a, s) => Q a s
  | Fail _ => True
  | Panic _ | NoFuel => False
  end.

Lemma runs_ret {A} (Q : A -> S -> Prop) a s : Q a s -> runs Q (ret a s).
Proof. done. Qed.

Lemma runs_fail {A} (Q : A -> S -> Prop) e s : runs Q (fail e s).
Proof. done. Qed.

Lemma runs_weaken {A} (Q Q' : A -> S -> Prop) o :
  runs Q o -> (forall a s, Q a s -> Q' a s) -> runs Q' o.
Proof. intros H W. destruct o as [[a s] | e | |]; cbn in *; auto. Qed.

Lemma runs_bind {A B} (Q : A -> S -> Prop) (Q' : B -> S -> Prop) (m : M E S A) (k : A -> M E S B) s :
  runs Q (m s) -> (forall a t, Q a t -> runs Q' (k a t)) -> runs Q' (bind m k s).
Proof. intros H K. unfold bind. destruct (m s) as [[a t] | e | |]; cbn in *; auto. Qed.

Lemma runs_get (Q : S -> S -> Prop) s : Q s s -> runs Q (get s).
Proof. done. Qed.

Lemma runs_modify (Q : unit -> S -> Prop) f s : Q tt (f s) -> runs Q (modify f s).
Proof. done. Qed.

Lemma runs_when (Q : unit -> S -> Prop) c (m : M E S unit) s :
  (c = true -> runs Q (m s)) -> (c = false -> Q tt s) -> runs Q (when c m s).
Proof. destruct c; cbn; auto. Qed.

Lemma runs_fold {A B} (I : B -> S -> Prop) (body : B -> A -> M E S B) xs b s :
  I b s -> (forall x b t, x ∈ xs -> I b t -> runs I (body b x t)) -> runs I (fold_m body xs b s).
Proof.
  revert b s. induction xs as [| x xs IH]; intros b s H Step; cbn [fold_m]; [done |].
  eapply runs_bind; [apply Step; [by left | exact H] |]. intros b' t H'.
  apply IH; [done |]. intros; apply Step; [by right | done].
Qed.

(** [index] reads an element that is there. *)
Definition valid {A} (xs : list A) (i : Z) : Prop := (Z.to_nat i < length xs)%nat.

Lemma valid_lookup {A} (xs : list A) i : valid xs i -> exists x, xs !! Z.to_nat i = Some x.
Proof. apply lookup_lt_is_Some_2. Qed.

Lemma lookup_valid {A} (xs : list A) i x : xs !! Z.to_nat i = Some x -> valid xs i.
Proof. intros H. by apply lookup_lt_is_Some_1. Qed.

Lemma runs_index {A} (xs : list A) i s (Q : A -> S -> Prop) :
  valid xs i -> (forall x, xs !! Z.to_nat i = Some x -> Q x s) -> runs Q (index xs i s).
Proof. intros V H. unfold index. destruct (valid_lookup xs i V) as [x Ex]. rewrite Ex. cbn. auto. Qed.

Lemma index_lookup {A} (xs : list A) i x (s : S) : xs !! Z.to_nat i = Some x -> index (E := E) xs i s = Done (x, s).
Proof. intros H. unfold index. by rewrite H. Qed.

End Runs.

Create HintDb runs.
#[export] Hint Resolve runs_ret runs_fail runs_get : runs.
