(* ===== verification/TargetsFacts.v ===== *)
(** * The target tree

    Targets built by [add_scope] are a forest ([forest]); in a forest the
    walks up and down end, [subtree] visits exactly the descendants, once
    each, and [find] is the inverse of [path_of]. *)

From Stdlib Require Import ZArith Lia Ascii String.
From stdpp Require Import base list strings.
From S2P Require Import Prelude Common Number NumberFacts Lexer Expr ExprFacts Targets Total.
Open Scope Z_scope.
Open Scope list_scope.

Record forest (t : SdfTargets) : Prop := mkForest {
  fo_parent : forall i s p, scopes t !! i = Some s -> sc_parent s = Some p -> 0 <= p < Z.of_nat i;
  fo_children : forall p s c, scopes t !! p = Some s ->
    c ∈ children s <-> 0 <= c /\ exists cs, scopes t !! Z.to_nat c = Some cs /\ sc_parent cs = Some (Z.of_nat p);
  fo_nodup : forall p s, scopes t !! p = Some s -> NoDup (children s);
  fo_roots : forall r,
    r ∈ roots t <-> 0 <= r /\ exists s, scopes t !! Z.to_nat r = Some s /\ sc_parent s = None;
  fo_roots_nodup : NoDup (roots t)
}.

(** What lowering does: scopes without children are added under scopes that
    exist, and [scope_mut] fills in everything but the tree. *)
Inductive built : SdfTargets -> Prop :=
| built_new : built new_targets
| built_add t parent s i t' :
    built t -> children s = [] ->
    (forall p, parent = Some p -> 0 <= p < Z.of_nat (length (scopes t))) ->
    Z.of_nat (length (scopes t)) < 2 ^ 32 ->
    add_scope (E := Empty_set) parent s t = Done (i, t') -> built t'
| built_edit t i s s' :
    built t -> scopes t !! i = Some s -> sc_parent s' = sc_parent s -> children s' = children s ->
    built (mkTargets (<[i := s']> (scopes t)) (roots t)).

(** ** [add_scope] *)

Lemma add_root_eq s t :
  Z.of_nat (length (scopes t)) < 2 ^ 32 ->
  add_scope (E := Empty_set) None s t
  = Done (Z.of_nat (length (scopes t)),
          mkTargets (scopes t ++ [set_parent s None]) (roots t ++ [Z.of_nat (length (scopes t))])).
Proof.
  intros B. unfold add_scope, bind, get, modify, ret. cbn -[wrap_u32].
  unfold wrap_u32, wrap_u. by rewrite Z.mod_small by lia.
Qed.

Lemma add_child_eq p ps s t :
  0 <= p -> scopes t !! Z.to_nat p = Some ps -> Z.of_nat (length (scopes t)) < 2 ^ 32 ->
  add_scope (E := Empty_set) (Some p) s t
  = Done (Z.of_nat (length (scopes t)),
          mkTargets (<[Z.to_nat p := push_child ps (Z.of_nat (length (scopes t)))]> (scopes t)
                     ++ [set_parent s (Some p)]) (roots t)).
Proof.
  intros Hp E B. assert (L := lookup_lt_Some _ _ _ E). unfold add_scope, bind, get, modify, ret. cbn -[wrap_u32].
  unfold wrap_u32, wrap_u, index. rewrite Z.mod_small, lookup_app_l, E by lia. cbn.
  by rewrite insert_app_l by lia.
Qed.

(** The scope at an index after a root is added, or a child. *)
Lemma lookup_snoc_cases {A} (xs : list A) x i y :
  (xs ++ [x]) !! i = Some y -> xs !! i = Some y \/ i = length xs /\ y = x.
Proof.
  intros H. apply lookup_app_Some in H as [H | [L H]]; [by left | right].
  apply list_lookup_singleton_Some in H as [Hi ->]. split; [lia | done].
Qed.

Lemma forest_new : forest new_targets.
Proof.
  constructor; cbn.
  - intros i s p E. by rewrite lookup_nil in E.
  - intros p s c E. by rewrite lookup_nil in E.
  - intros p s E. by rewrite lookup_nil in E.
  - intros r. split; [by intros ?%elem_of_nil |]. intros (_ & s & E & _). by rewrite lookup_nil in E.
  - constructor.
Qed.

Lemma forest_add_root t s :
  forest t -> children s = [] ->
  forest (mkTargets (scopes t ++ [set_parent s None]) (roots t ++ [Z.of_nat (length (scopes t))])).
Proof.
  intros F N. set (n := length (scopes t)).
  assert (Lk : forall i x, (scopes t ++ [set_parent s None]) !! i = Some x ->
    scopes t !! i = Some x \/ i = n /\ x = set_parent s None) by (intros i x; apply lookup_snoc_cases).
  assert (Old : forall i x, scopes t !! i = Some x -> (scopes t ++ [set_parent s None]) !! i = Some x)
    by (intros i x E; by apply lookup_app_l_Some).
  assert (Child : forall p, (exists cs, (scopes t ++ [set_parent s None]) !! p = Some cs /\ sc_parent cs <> None)
    <-> (exists cs, scopes t !! p = Some cs /\ sc_parent cs <> None)).
  { intros p. split; intros (cs & E & Hp); exists cs; split; auto. by apply Lk in E as [E | [-> ->]]. }
  constructor; cbn.
  - intros i x p E Hp. apply Lk in E as [E | [-> ->]]; [by eapply fo_parent | done].
  - intros p x c E. apply Lk in E as [E | [-> ->]].
    + rewrite (fo_children _ F _ _ c E). split; intros (Hc & cs & Ec & Hp); (split; [done |]); exists cs; split; auto.
      apply Lk in Ec as [Ec | [_ ->]]; done.
    + cbn. rewrite N. split; [by intros ?%elem_of_nil |]. intros (Hc & cs & Ec & Hp). exfalso.
      apply Lk in Ec as [Ec | [_ ->]]; [| done]. pose proof (fo_parent _ F _ _ _ Ec Hp).
      apply lookup_lt_Some in Ec. subst n. lia.
  - intros p x E. apply Lk in E as [E | [_ ->]]; [by eapply fo_nodup | cbn; rewrite N; constructor].
  - intros r. rewrite elem_of_app, list_elem_of_singleton, (fo_roots _ F). split.
    + intros [(Hr & x & E & Hp) | ->]; (split; [lia |]); [by eauto |].
      exists (set_parent s None). rewrite Nat2Z.id. split; [by apply list_lookup_middle | done].
    + intros (Hr & x & E & Hp). apply Lk in E as [E | [E _]]; [left; eauto | right; lia].
  - apply NoDup_app. split_and!; [apply F | | by repeat constructor; apply not_elem_of_nil].
    intros r Hr ->%list_elem_of_singleton. apply (fo_roots _ F) in Hr as (_ & x & E & _).
    apply lookup_lt_Some in E. subst n. lia.
Qed.

Lemma forest_add_child t s p ps :
  forest t -> children s = [] -> 0 <= p -> scopes t !! Z.to_nat p = Some ps ->
  forest (mkTargets (<[Z.to_nat p := push_child ps (Z.of_nat (length (scopes t)))]> (scopes t)
                     ++ [set_parent s (Some p)]) (roots t)).
Proof.
  intros F N Hp Eps. set (n := length (scopes t)).
  assert (Ln := lookup_lt_Some _ _ _ Eps). fold n in Ln.
  set (xs := <[Z.to_nat p := push_child ps (Z.of_nat n)]> (scopes t) ++ [set_parent s (Some p)]).
  assert (Lk : forall i x, xs !! i = Some x ->
    (exists y, scopes t !! i = Some y /\ sc_parent x = sc_parent y
       /\ children x = (if decide (i = Z.to_nat p) then children y ++ [Z.of_nat n] else children y))
    \/ i = n /\ x = set_parent s (Some p)).
  { intros i x E. apply lookup_snoc_cases in E as [E | [-> ->]].
    - left. apply list_lookup_insert_Some in E as [(<- & <- & _) | [Ne E]].
      + exists ps. by rewrite decide_True.
      + exists x. by rewrite decide_False.
    - right. by rewrite length_insert. }
  assert (Old : forall i y, scopes t !! i = Some y -> exists x, xs !! i = Some x /\ sc_parent x = sc_parent y).
  { intros i y E. assert (Li := lookup_lt_Some _ _ _ E). unfold xs.
    rewrite lookup_app_l by (rewrite length_insert; lia).
    destruct (decide (i = Z.to_nat p)) as [-> | Ne].
    - rewrite list_lookup_insert_eq by done. simplify_eq. eauto.
    - rewrite list_lookup_insert_ne by done. eauto. }
  assert (New : xs !! n = Some (set_parent s (Some p))).
  { unfold xs. apply list_lookup_middle. by rewrite length_insert. }
  assert (Kids : forall q c, 0 <= c ->
    (exists cs, xs !! Z.to_nat c = Some cs /\ sc_parent cs = Some (Z.of_nat q))
    <-> (exists cs, scopes t !! Z.to_nat c = Some cs /\ sc_parent cs = Some (Z.of_nat q))
        \/ (q = Z.to_nat p /\ c = Z.of_nat n)).
  { intros q c Hc. split.
    - intros (cs & E & H). apply Lk in E as [(y & Ey & Hy & _) | [Ec ->]].
      + left. exists y. by rewrite <- Hy.
      + right. cbn in H. injection H as H. lia.
    - intros [(cs & E & H) | [-> ->]].
      + destruct (Old _ _ E) as (x & Ex & Hx). exists x. by rewrite Hx.
      + exists (set_parent s (Some p)). rewrite Nat2Z.id, Z2Nat.id by done. done. }
  constructor; cbn; fold n; fold xs.
  - intros i x q E H. apply Lk in E as [(y & Ey & Hy & _) | [-> ->]].
    + rewrite Hy in H. by eapply fo_parent.
    + cbn in H. injection H as <-. lia.
  - intros q x c E. destruct (Z.le_gt_cases 0 c) as [Hc | Hc].
    2: { split; [| lia]. intros I. exfalso. apply Lk in E as [(y & Ey & _ & Hy) | [-> ->]].
         - assert (I' : c ∈ children y \/ c = Z.of_nat n).
           { rewrite Hy in I. case_decide; [| by left]. apply elem_of_app in I as [I | ->%list_elem_of_singleton]; auto. }
           destruct I' as [I' | ->]; [| lia]. apply (fo_children _ F _ _ _ Ey) in I'. lia.
         - cbn in I. rewrite N in I. by apply elem_of_nil in I. }
    rewrite (Kids q c Hc).
    apply Lk in E as [(y & Ey & _ & Hy) | [-> ->]].
    + rewrite Hy. pose proof (fo_children _ F _ _ c Ey) as Hk.
      case_decide as D; [rewrite elem_of_app, list_elem_of_singleton |]; rewrite Hk; intuition lia.
    + cbn. rewrite N. split; [by intros ?%elem_of_nil |]. intros [_ [(cs & E & H) | [H _]]]; [| lia].
      pose proof (fo_parent _ F _ _ _ E H). apply lookup_lt_Some in E. subst n. lia.
  - intros q x E. apply Lk in E as [(y & Ey & _ & ->) | [_ ->]]; [| cbn; rewrite N; constructor].
    pose proof (fo_nodup _ F _ _ Ey). case_decide; [| done]. apply NoDup_app. split_and!; [done | | by repeat constructor; apply not_elem_of_nil].
    intros c Hc ->%list_elem_of_singleton. apply (fo_children _ F _ _ _ Ey) in Hc as (_ & cs & E & _).
    apply lookup_lt_Some in E. subst n. lia.
  - intros r. rewrite (fo_roots _ F). split; intros (Hr & x & E & H); (split; [done |]).
    + destruct (Old _ _ E) as (x' & Ex & Hx). exists x'. by rewrite Hx.
    + apply Lk in E as [(y & Ey & Hy & _) | [_ ->]]; [| done]. exists y. by rewrite <- Hy.
  - apply F.
Qed.

Lemma forest_edit t i s s' :
  forest t -> scopes t !! i = Some s -> sc_parent s' = sc_parent s -> children s' = children s ->
  forest (mkTargets (<[i := s']> (scopes t)) (roots t)).
Proof.
  intros F E Hp Hc. set (xs := <[i := s']> (scopes t)).
  assert (Lk : forall j x, xs !! j = Some x ->
    exists y, scopes t !! j = Some y /\ sc_parent x = sc_parent y /\ children x = children y).
  { intros j x H. apply list_lookup_insert_Some in H as [(<- & <- & _) | [Ne H]]; eauto. }
  assert (Old : forall j y, scopes t !! j = Some y ->
    exists x, xs !! j = Some x /\ sc_parent x = sc_parent y /\ children x = children y).
  { intros j y H. assert (L := lookup_lt_Some _ _ _ H). unfold xs. destruct (decide (i = j)) as [-> | Ne].
    - rewrite list_lookup_insert_eq by done. simplify_eq. eauto.
    - rewrite list_lookup_insert_ne by done. eauto. }
  assert (Ex : forall c q, (exists cs, xs !! c = Some cs /\ sc_parent cs = q)
                           <-> (exists cs, scopes t !! c = Some cs /\ sc_parent cs = q)).
  { intros c q. split; intros (cs & H & <-).
    - apply Lk in H as (y & Hy & Ey & _). eauto.
    - apply Old in H as (y & Hy & Ey & _). eauto. }
  constructor; cbn; fold xs.
  - intros j x p H Q. apply Lk in H as (y & Hy & Ey & _). rewrite Ey in Q. by eapply fo_parent.
  - intros p x c H. apply Lk in H as (y & Hy & _ & Ey). rewrite Ey, (fo_children _ F _ _ _ Hy). by rewrite Ex.
  - intros p x H. apply Lk in H as (y & Hy & _ & Ey). rewrite Ey. by eapply fo_nodup.
  - intros r. rewrite (fo_roots _ F). by rewrite Ex.
  - apply F.
Qed.

Lemma built_is_forest t : built t -> forest t.
Proof.
  induction 1 as [| t parent s i t' Hb IH Hc Hp B E | t i s s' Hb IH E Hp Hc].
  - apply forest_new.
  - destruct parent as [p |].
    + destruct (Hp p eq_refl) as [P0 P1].
      destruct (lookup_lt_is_Some_2 (scopes t) (Z.to_nat p)) as [ps Eps]; [lia |].
      rewrite (add_child_eq _ ps) in E by done. injection E as <- <-. by apply forest_add_child.
    + rewrite add_root_eq in E by done. injection E as <- <-. by apply forest_add_root.
  - by eapply forest_edit.
Qed.

(** ** Names *)

Lemma parse_i64_dec z : in_i64 z -> parse_i64 (unstr (dec z)) = Some z.
Proof.
  intros B. rewrite print_dec. destruct (dec_bytes_spec (Z.abs z)) as (V & D & L & _); [lia |].
  assert (Hf : forallb is_ascii_digit (dec_bytes (Z.abs z)) = true)
    by (apply List.forallb_forall; by apply List.Forall_forall).
  unfold in_i64 in B. unfold parse_i64.
  destruct (dec_bytes (Z.abs z)) as [| b ds] eqn:E; [cbn in L; lia |].
  assert (Hb : is_ascii_digit b = true) by (by apply Forall_cons in D as [D _]).
  apply digit_not_sign in Hb as [N1%Ascii.eqb_neq N2%Ascii.eqb_neq].
  destruct (Z.ltb_spec z 0) as [Neg | Pos]; cbn [print_sign app].
  - cbn [Ascii.eqb Bool.eqb]. cbn iota beta. rewrite Hf, V.
    destruct (Z.leb_spec i64_min (- Z.abs z)), (Z.leb_spec (- Z.abs z) i64_max); try lia. cbn. f_equal. lia.
  - rewrite N1, N2. rewrite Hf, V.
    destruct (Z.leb_spec i64_min (Z.abs z)), (Z.leb_spec (Z.abs z) i64_max); try lia. cbn. f_equal. lia.
Qed.

(** The escaped name is read into the name of the component. *)
Lemma split_components_name nm rest acc cs :
  split_components (write_identifier_bytes nm ++ rest) acc None None cs
  = split_components rest (acc ++ nm) None None cs.
Proof.
  unfold write_identifier_bytes. revert acc.
  induction nm as [| c nm IH]; intros acc; cbn [map concat]; [by rewrite app_nil_r |].
  rewrite <- app_assoc. destruct (_ || _) eqn:C.
  - assert (Nd : Ascii.eqb c "."%char = false) by (apply Ascii.eqb_neq; intros ->; discriminate C).
    apply identifier_plain in C as (C1 & C2 & C3). cbn [app split_components].
    rewrite C2, C3, Nd. cbn. rewrite IH, <- app_assoc. done.
  - cbn. rewrite IH, <- app_assoc. done.
Qed.

(** The bytes of an element index are read up to its bracket. *)
Lemma split_components_digits ds rest nm acc cs :
  Forall (fun c => c <> "]"%char) ds ->
  split_components (ds ++ rest) nm None (Some acc) cs = split_components rest nm None (Some (acc ++ ds)) cs.
Proof.
  intros F. revert acc. induction F as [| c ds Hc _ IH]; intros acc; cbn [app]; [by rewrite app_nil_r |].
  apply Ascii.eqb_neq in Hc. cbn [split_components]. rewrite Hc, IH, <- app_assoc. done.
Qed.

Lemma dec_no_bracket z : Forall (fun c => c <> "]"%char) (unstr (dec z)).
Proof.
  rewrite print_dec. apply Forall_app_2; [by destruct (z <? 0); repeat constructor |].
  destruct (dec_bytes_spec (Z.abs z)) as (_ & D & _); [lia |].
  eapply Forall_impl; [exact D |]. intros c Hc ->. discriminate Hc.
Qed.

(** What [find] needs of a scope's name. *)
Definition name_ok (s : SdfScope) : Prop :=
  sc_name s <> EmptyString /\ (forall i, sc_index s = Some i -> in_i64 i).

(** What comes after a component: the end, or a divider. *)
Definition follows (rest : bytes) : Prop := rest = [] \/ exists r, rest = "."%char :: r.

Lemma split_components_component s rest cs :
  name_ok s -> follows rest ->
  split_components (unstr (component s) ++ rest) [] None None cs
  = split_components rest (unstr (sc_name s)) (sc_index s) None cs.
Proof.
  intros [_ I] Fl. unfold component, cat, escaped, write_identifier. cbn [foldr].
  rewrite !unstr_append, unstr_str. cbn [unstr list_ascii_of_string]. rewrite app_nil_r, <- app_assoc, split_components_name. cbn [app].
  destruct (sc_index s) as [i |]; [| done]. cbn [foldr].
  rewrite !unstr_append. change (unstr "["%string) with ["["%char]. change (unstr "]"%string) with ["]"%char].
  cbn [unstr list_ascii_of_string]. rewrite app_nil_r, <- !app_assoc. cbn [app].
  change (split_components ("["%char :: ?r) ?n None None cs) with (split_components r n None (Some []) cs).
  rewrite split_components_digits by apply dec_no_bracket. cbn [app split_components].
  rewrite Ascii.eqb_refl, parse_i64_dec by auto.
  destruct Fl as [-> | [r ->]]; [done |]. by rewrite Ascii.eqb_refl.
Qed.

Definition key (s : SdfScope) : string * option Z := (sc_name s, sc_index s).

Lemma unstr_cat pieces : unstr (cat pieces) = concat (map unstr pieces).
Proof. induction pieces as [| p ps IH]; [done |]. unfold cat in *. cbn [foldr map concat]. by rewrite unstr_append, IH. Qed.

Lemma unstr_dotted s ss :
  unstr (join "." (map component (s :: ss)))
  = unstr (component s) ++ concat (map (fun x => "."%char :: unstr (component x)) ss).
Proof.
  unfold join. cbn [map]. rewrite unstr_cat. cbn [map concat]. f_equal.
  rewrite !map_map. f_equal. apply map_ext. intros x. rewrite unstr_cat. cbn. by rewrite app_nil_r.
Qed.

(** The text of components splits back into their names and indices. *)
Lemma split_path_dotted ss :
  ss <> [] -> Forall name_ok ss -> split_path (join "." (map component ss)) = Some (map key ss).
Proof.
  intros N F. unfold split_path. destruct ss as [| s ss]; [done |]. clear N.
  rewrite unstr_dotted. change (map key (s :: ss)) with ([] ++ map key (s :: ss)). generalize (@nil (string * option Z)).
  apply Forall_cons in F as [Hs F]. revert s Hs. induction F as [| x ss Hx _ IH]; intros s Hs cs; cbn [map concat].
  - rewrite split_components_component by (done || by left). destruct Hs as [Hn _].
    cbn [split_components]. destruct (unstr (sc_name s)) as [| b n] eqn:E.
    { exfalso. apply Hn. rewrite <- (str_unstr (sc_name s)), E. done. }
    rewrite <- E, str_unstr. done.
  - rewrite split_components_component by (done || (right; eauto)). destruct Hs as [Hn _].
    cbn [app split_components]. rewrite andb_false_l, Ascii.eqb_refl. 
    destruct (unstr (sc_name s)) as [| b n] eqn:E.
    { exfalso. apply Hn. rewrite <- (str_unstr (sc_name s)), E. done. }
    rewrite <- E, str_unstr, IH by done. by rewrite <- app_assoc.
Qed.

(** ** Walks in the tree *)

Section Walks.
Variable t : SdfTargets.
Hypothesis Ft : forest t.

(** The scopes from a top instance down to a scope, with their indices. *)
Inductive lineage : nat -> list (nat * SdfScope) -> Prop :=
| lineage_root i s : scopes t !! i = Some s -> sc_parent s = None -> lineage i [(i, s)]
| lineage_child i s p l :
    scopes t !! i = Some s -> sc_parent s = Some p -> lineage (Z.to_nat p) l -> lineage i (l ++ [(i, s)]).

Lemma lineage_exists i s : scopes t !! i = Some s -> exists l, lineage i l /\ (length l <= i + 1)%nat.
Proof.
  revert s. induction (lt_wf i) as [i _ IH]. intros s E. destruct (sc_parent s) as [p |] eqn:Hp.
  - destruct (fo_parent _ Ft _ _ _ E Hp) as [P0 P1]. assert (Li := lookup_lt_Some _ _ _ E).
    destruct (lookup_lt_is_Some_2 (scopes t) (Z.to_nat p)) as [ps Ep]; [lia |].
    destruct (IH (Z.to_nat p) ltac:(lia) ps Ep) as (l & Hl & Ll).
    exists (l ++ [(i, s)]). split; [by eapply lineage_child |]. rewrite length_app. cbn. lia.
  - exists [(i, s)]. split; [by constructor | cbn; lia].
Qed.

Lemma lineage_last i l : lineage i l -> exists s l', l = l' ++ [(i, s)] /\ scopes t !! i = Some s.
Proof. intros [j s E H | j s p l' E H Hl]; [by exists s, [] | by exists s, l']. Qed.

Lemma lineage_scopes i l : lineage i l -> Forall (fun x => scopes t !! x.1 = Some x.2) l.
Proof. induction 1; [by repeat constructor | apply Forall_app_2; [done | by repeat constructor]]. Qed.

Lemma path_parts_lineage {E S} i l fuel parts (st : S) :
  lineage i l -> (length l < fuel)%nat ->
  path_parts (E := E) t fuel (Some (Z.of_nat i)) parts st
  = Done (parts ++ rev (map (fun x => component x.2) l), st).
Proof.
  intros H. revert fuel parts. induction H as [i s Ei Hp | i s p l Ei Hp Hl IH]; intros fuel parts Lf.
  - destruct fuel as [| [| fuel]]; [cbn in Lf; lia .. |]. cbn [path_parts]. unfold scope, bind.
    rewrite (index_lookup _ _ s) by (by rewrite Nat2Z.id). by rewrite Hp.
  - rewrite length_app in Lf. cbn in Lf. destruct fuel as [| fuel]; [lia |]. cbn [path_parts]. unfold scope, bind.
    rewrite (index_lookup _ _ s) by (by rewrite Nat2Z.id).
    destruct (fo_parent _ Ft _ _ _ Ei Hp) as [P0 _]. rewrite Hp. rewrite <- (Z2Nat.id p) by done.
    rewrite IH by lia. rewrite map_app, rev_app_distr. cbn. by rewrite <- app_assoc.
Qed.

Lemma path_of_lineage {E S} i l (st : S) :
  lineage i l -> (length l <= i + 1)%nat ->
  path_of (E := E) t (Z.of_nat i) st = Done (join "." (map (fun x => component x.2) l), st).
Proof.
  intros H L. destruct (lineage_last i l H) as (s & _ & _ & Es). apply lookup_lt_Some in Es.
  unfold path_of, bind. rewrite (path_parts_lineage i l) by (done || lia). cbn [app]. by rewrite rev_involutive.
Qed.

(** [path_of] returns for every scope. *)
Lemma path_of_done {E S} i : valid (scopes t) i -> exists text, forall st : S, path_of (E := E) t i st = Done (text, st).
Proof.
  intros V. destruct (valid_lookup _ _ V) as [s Es].
  destruct (lineage_exists _ _ Es) as (l & Hl & Ll). eexists. intros st.
  assert (X : path_of (E := E) t i st = path_of t (Z.of_nat (Z.to_nat i)) st).
  { unfold path_of, bind. cbn [path_parts]. unfold bind, scope. by rewrite !(index_lookup _ _ s) by (by rewrite ?Nat2Z.id). }
  by rewrite X, (path_of_lineage _ l) by done.
Qed.
End Walks.

(** Scopes have names, and siblings differ in their name or index. *)
Definition names_ok (t : SdfTargets) : Prop :=
  Forall name_ok (scopes t)
  /\ forall i j si sj, scopes t !! i = Some si -> scopes t !! j = Some sj ->
       sc_parent si = sc_parent sj -> key si = key sj -> i = j.

Section Find.
Variable t : SdfTargets.
Hypothesis Ft : forest t.
Hypothesis Nt : names_ok t.
Context {E S : Type}.

Lemma find_candidate_found candidates i s (st : S) :
  scopes t !! Z.to_nat i = Some s -> i ∈ candidates ->
  (forall c, c ∈ candidates -> 0 <= c /\ exists cs, scopes t !! Z.to_nat c = Some cs /\ sc_parent cs = sc_parent s) ->
  find_candidate (E := E) t (sc_name s) (sc_index s) candidates st = Done (Some i, st).
Proof.
  intros Es. induction candidates as [| c cs IH]; intros I V; [by apply elem_of_nil in I |].
  destruct (V c) as (C0 & x & Ex & Px); [by left |].
  cbn [find_candidate]. unfold scope, bind. rewrite (index_lookup _ _ x) by done.
  destruct (V i I) as (I0 & _).
  destruct (String.eqb_spec (sc_name x) (sc_name s)) as [E1 | N1]; cbn [andb].
  - case_bool_decide as E2.
    + assert (Eq : Z.to_nat c = Z.to_nat i).
      { eapply (proj2 Nt); [exact Ex | exact Es | done |]. unfold key. by rewrite E1, E2. }
      by replace c with i by lia.
    + apply elem_of_cons in I as [-> | I]; [congruence |]. apply IH; [done |]. intros; apply V; by right.
  - apply elem_of_cons in I as [-> | I]; [congruence |]. apply IH; [done |]. intros; apply V; by right.
Qed.

Lemma index_state {A} (xs : list A) i x (st st' : S) : index (E := E) xs i st = Done (x, st') -> st' = st.
Proof. unfold index. destruct (xs !! Z.to_nat i); [by intros [= _ <-] | done]. Qed.

Lemma find_candidate_state nm ix candidates r (st st' : S) :
  find_candidate (E := E) t nm ix candidates st = Done (r, st') -> st' = st.
Proof.
  revert st. induction candidates as [| c cs IH]; intros st; cbn [find_candidate]; [by intros [= _ <-] |].
  unfold bind, scope. destruct (index (scopes t) c st) as [[x st1] | | |] eqn:Ex; try done.
  apply index_state in Ex as ->. case_match; [by intros [= _ <-] | apply IH].
Qed.

Lemma find_components_app ks k ks2 candidates found j sj (st : S) :
  find_components (E := E) t (k :: ks) candidates found st = Done (Some j, st) ->
  scopes t !! Z.to_nat j = Some sj ->
  find_components (E := E) t ((k :: ks) ++ ks2) candidates found st
  = find_components t ks2 (children sj) (Some j) st.
Proof.
  intros H Ej. revert k candidates found H. induction ks as [| k2 ks IH]; intros [nm ix] candidates found H.
  - cbn [app find_components] in *. unfold bind in *.
    destruct (find_candidate t nm ix candidates st) as [[[c |] st1] | | |] eqn:Ec; try done.
    unfold scope, index in H |- *.
    destruct (scopes t !! Z.to_nat c) as [sc |] eqn:Es; cbn in H; [| done]. injection H as -> ->. cbn.
    by simplify_eq.
  - cbn [app find_components] in H |- *. unfold bind in *.
    destruct (find_candidate t nm ix candidates st) as [[[c |] st1] | | |] eqn:Ec; try done.
    destruct (scope t c st1) as [[sc st2] | | |] eqn:Es; try done.
    apply find_candidate_state in Ec as ->. apply index_state in Es as ->. by apply (IH k2 (children sc) (Some c)).
Qed.

Lemma find_lineage i l (st : S) :
  lineage t i l -> find_components (E := E) t (map (fun x => key x.2) l) (roots t) None st
                   = Done (Some (Z.of_nat i), st).
Proof.
  induction 1 as [i s Es Hp | i s p l Es Hp Hl IH].
  - cbn. unfold bind. rewrite (find_candidate_found _ (Z.of_nat i) s).
    + unfold scope. by rewrite (index_lookup _ _ s) by (by rewrite Nat2Z.id).
    + by rewrite Nat2Z.id.
    + apply (fo_roots _ Ft). rewrite Nat2Z.id. split; [lia | eauto].
    + intros c Hc. apply (fo_roots _ Ft) in Hc as (C0 & x & Ex & Px). split; [done |]. exists x. by rewrite Hp.
  - destruct (lineage_last _ _ _ Hl) as (ps & l' & -> & Eps). destruct (fo_parent _ Ft _ _ _ Es Hp) as [P0 P1].
    rewrite map_app. destruct (map (fun x => key x.2) (l' ++ [(Z.to_nat p, ps)])) as [| k ks] eqn:Ek.
    { apply (f_equal length) in Ek. rewrite length_map, length_app in Ek. cbn in Ek. lia. }
    erewrite find_components_app; [| exact IH | by rewrite Nat2Z.id].
    cbn; unfold bind; rewrite (find_candidate_found _ (Z.of_nat i) s).
    + unfold scope. by rewrite (index_lookup _ _ s) by (by rewrite Nat2Z.id).
    + by rewrite Nat2Z.id.
    + apply (fo_children _ Ft _ _ _ Eps). rewrite Nat2Z.id, Z2Nat.id by done. split; [lia | by exists s].
    + intros c Hc. apply (fo_children _ Ft _ _ _ Eps) in Hc as (C0 & y & Ey & Py).
      split; [done |]. exists y. rewrite Hp, Py, Z2Nat.id by done. done.
Qed.
End Find.

(** ** The scopes below a scope *)

Inductive below (t : SdfTargets) (r : Z) : Z -> Prop :=
| below_self : below t r r
| below_child i s c : below t r i -> scopes t !! Z.to_nat i = Some s -> c ∈ children s -> below t r c.

Lemma NoDup_bounded (l : list Z) n :
  NoDup l -> (forall x, x ∈ l -> 0 <= x /\ (Z.to_nat x < n)%nat) -> (length l <= n)%nat.
Proof.
  intros N B.
  assert (H : map Z.to_nat l ⊆+ seq 0 n).
  { apply NoDup_submseteq.
    - clear -N B. revert B. induction N as [| x l Hx Hl IH]; intros B; cbn; [constructor |]. constructor.
      + intros I. apply list_elem_of_fmap in I as (y & Ey & Iy). pose proof (B x ltac:(by left)). pose proof (B y ltac:(by right)).
        replace y with x in Iy by lia. done.
      + apply IH. intros y Iy. apply B. by right.
    - intros x I. apply list_elem_of_fmap in I as (y & -> & Iy). apply B in Iy. apply elem_of_seq. lia. }
  apply submseteq_length in H. by rewrite length_map, length_seq in H.
Qed.

Section Subtree.
Variable t : SdfTargets.
Hypothesis Ft : forest t.
Variable r : Z.
Hypothesis R0 : 0 <= r.
Hypothesis Rv : valid (scopes t) r.

Lemma below_bounds i : below t r i -> r <= i /\ valid (scopes t) i.
Proof.
  induction 1 as [| i s c Hi [L V] Es Hc]; [done |].
  apply (fo_children _ Ft _ _ _ Es) in Hc as (C0 & cs & Ec & Pc).
  pose proof (fo_parent _ Ft _ _ _ Ec Pc). split; [lia |]. by eapply lookup_valid.
Qed.

(** What the loop keeps: the visited scopes and the stack hold descendants,
    once each; a visited scope's children are among them, and every one but
    the root came from its parent. *)
Record visiting (out stack : list Z) : Prop := mkVisiting {
  vi_nodup : NoDup (out ++ stack);
  vi_below : forall x, x ∈ out ++ stack -> below t r x;
  vi_closed : forall x s c, x ∈ out -> scopes t !! Z.to_nat x = Some s -> c ∈ children s -> c ∈ out ++ stack;
  vi_root : r ∈ out ++ stack;
  vi_parent : forall c cs, c ∈ out ++ stack -> c <> r -> scopes t !! Z.to_nat c = Some cs ->
    exists p, sc_parent cs = Some p /\ p ∈ out
}.

Lemma visiting_step out i stack s :
  visiting out (i :: stack) -> scopes t !! Z.to_nat i = Some s ->
  visiting (out ++ [i]) (children s ++ stack).
Proof.
  intros [Nd Be Cl Ro Pa] Es.
  assert (Bi : below t r i) by (apply Be; rewrite elem_of_app, elem_of_cons; auto).
  destruct (below_bounds i Bi) as [Li Vi].
  assert (Ni : i ∉ out).
  { apply NoDup_app in Nd as (_ & D & _). intros I. apply (D i I). by left. }
  assert (Fresh : forall c, c ∈ children s -> c ∉ out ++ i :: stack).
  { intros c Hc I. pose proof (proj1 (fo_children _ Ft _ _ _ Es) Hc) as (C0 & cs & Ec & Pc).
    pose proof (fo_parent _ Ft _ _ _ Ec Pc). destruct (decide (c = r)) as [-> | Ne]; [lia |].
    destruct (Pa c cs I Ne Ec) as (p & Hp & Ip). rewrite Pc in Hp. injection Hp as <-.
    apply Ni. by rewrite Z2Nat.id in Ip by lia. }
  assert (Perm : forall x, x ∈ (out ++ [i]) ++ children s ++ stack <-> x ∈ out ++ i :: stack \/ x ∈ children s).
  { intros x. rewrite !elem_of_app, !elem_of_cons, elem_of_nil. tauto. }
  constructor.
  - rewrite <- app_assoc. cbn [app].
    assert (P : out ++ i :: children s ++ stack ≡ₚ children s ++ (out ++ i :: stack)).
    { rewrite <- (Permutation_app_comm (out ++ i :: stack)), <- app_assoc. cbn [app].
      by rewrite (Permutation_app_comm (children s) stack). }
    rewrite P. apply NoDup_app. split_and!; [by eapply fo_nodup | done | done].
  - intros x Ix. apply Perm in Ix as [Ix | Ix]; [by apply Be | by eapply below_child].
  - intros x sx c Ix Ex Hc. apply Perm. apply elem_of_app in Ix as [Ix | ->%list_elem_of_singleton].
    + left. by eapply Cl.
    + right. by simplify_eq.
  - apply Perm. by left.
  - intros c cs Ic Ne Ec. apply Perm in Ic as [Ic | Ic].
    + destruct (Pa c cs Ic Ne Ec) as (p & Hp & Ip). exists p. split; [done |]. apply elem_of_app. by left.
    + apply (fo_children _ Ft _ _ _ Es) in Ic as (C0 & cs' & Ec' & Pc). simplify_eq.
      exists (Z.of_nat (Z.to_nat i)). split; [done |]. apply elem_of_app. right.
      apply list_elem_of_singleton. lia.
Qed.

Lemma visiting_length out stack : visiting out stack -> (length (out ++ stack) <= length (scopes t))%nat.
Proof.
  intros V. apply NoDup_bounded; [apply V |]. intros x Ix. apply V, below_bounds in Ix as [L Vx].
  split; [lia | exact Vx].
Qed.

Lemma subtree_loop_spec {E S} fuel stack out (st : S) :
  visiting out stack -> (length (scopes t) < fuel + length out)%nat ->
  exists out', subtree_loop (E := E) t fuel stack out st = Done (out', st) /\ visiting out' [].
Proof.
  revert stack out. induction fuel as [| f IH]; intros stack out V L.
  { apply visiting_length in V. rewrite length_app in V. lia. }
  cbn [subtree_loop]. destruct stack as [| i stack]; [by exists out |].
  assert (Bi : below t r i) by (apply V; rewrite elem_of_app, elem_of_cons; auto).
  apply below_bounds in Bi as [_ Vi]. destruct (valid_lookup _ _ Vi) as [s Es].
  unfold bind, scope. rewrite (index_lookup _ _ s) by done. apply IH; [by apply visiting_step |].
  rewrite length_app. cbn. lia.
Qed.

(** [subtree] visits the scopes at or below its root, once each. *)
Lemma subtree_visits {E S} (st : S) :
  exists out, subtree (E := E) t r st = Done (out, st) /\ NoDup out /\ forall i, i ∈ out <-> below t r i.
Proof.
  destruct (subtree_loop_spec (E := E) (Datatypes.S (length (scopes t))) [r] [] st) as (out & Eo & V).
  - constructor; cbn.
    + repeat constructor. apply not_elem_of_nil.
    + intros x ->%list_elem_of_singleton. constructor.
    + intros x s c I. by apply elem_of_nil in I.
    + by left.
    + intros c cs ->%list_elem_of_singleton Ne. done.
  - cbn. lia.
  - exists out. split; [exact Eo |]. destruct V as [Nd Be Cl Ro _]. rewrite app_nil_r in *.
    split; [done |]. intros i. split; [apply Be |]. induction 1 as [| i s c _ IH Es Hc]; [done |].
    by eapply Cl.
Qed.
End Subtree.

(** ** Theorems *)

(** Targets are a forest however they are built: whatever scopes are
    added under existing scopes, and whatever [scope_mut] changes besides the
    tree, a parent comes before its children, every scope is listed exactly
    once, under its parent or among the top instances. *)
Theorem built_forest (t : SdfTargets) : built t -> forest t.
Proof. apply built_is_forest. Qed.

(** [find] is the inverse of [path_of]: the hierarchical name of a scope,
    with escaped names and element indices, finds that scope, when siblings
    differ in name or index. Both walks end. *)
Theorem find_path_of (t : SdfTargets) (i : nat) (s : SdfScope) :
  forest t -> names_ok t -> scopes t !! i = Some s ->
  exists path, path_of (E := Empty_set) t (Z.of_nat i) tt = Done (path, tt)
    /\ find (E := Empty_set) t path tt = Done (Some (Z.of_nat i), tt).
Proof.
  intros F N Es. destruct (lineage_exists t F i s Es) as (l & Hl & Ll).
  exists (join "." (map (fun x => component x.2) l)). split; [by apply path_of_lineage |].
  unfold find. rewrite <- (map_map snd component). rewrite split_path_dotted.
  - rewrite map_map. by apply find_lineage.
  - destruct (lineage_last _ _ _ Hl) as (x & l' & -> & _). rewrite map_app. by destruct (map snd l').
  - apply Forall_map. eapply Forall_impl; [by eapply lineage_scopes |].
    intros [j x] Ej. cbn in *. by eapply Forall_lookup_1; [apply N |].
Qed.

(** [subtree] ends and lists exactly the scopes at or below its root,
    each of them once. *)
Theorem subtree_spec (t : SdfTargets) (r : Z) :
  forest t -> 0 <= r -> valid (scopes t) r ->
  exists out, subtree (E := Empty_set) t r tt = Done (out, tt) /\ NoDup out /\ forall i, i ∈ out <-> below t r i.
Proof. intros. by apply subtree_visits. Qed.

(** ** Witnesses *)

(** A top instance with an element of an instance array whose name needs an
    escape, and a gate in it. *)
Definition tree : SdfTargets :=
  mkTargets
    [set_parent (push_child (new_scope "top" None ScopeModule "top") 1) None;
     set_parent (push_child (new_scope "u.x" (Some 3) ScopeModule "cell") 2) (Some 0);
     set_parent (new_scope "g" None ScopePrimitive "and") (Some 1)] [0].

Lemma tree_built : built tree.
Proof.
  set (top := new_scope "top" None ScopeModule "top").
  set (u := new_scope "u.x" (Some 3) ScopeModule "cell").
  assert (B1 : built (mkTargets [set_parent top None] [0])).
  { apply (built_add new_targets None top 0); [apply built_new | done | done | | ]; by vm_compute. }
  assert (B2 : built (mkTargets [push_child (set_parent top None) 1; set_parent u (Some 0)] [0])).
  { apply (built_add _ (Some 0) u 1 _ B1); [done | | by vm_compute | by vm_compute]. intros p [= <-]. cbn. lia. }
  apply (built_add _ (Some 1) (new_scope "g" None ScopePrimitive "and") 2 _ B2);
    [done | | by vm_compute | by vm_compute]. intros p [= <-]. cbn. lia.
Qed.

Lemma tree_names : names_ok tree.
Proof.
  split.
  - repeat (apply Forall_cons_2; [split; [discriminate |] |]); [done | | done | by apply Forall_nil].
    intros i [= <-]. unfold in_i64, i64_min, i64_max. lia.
  - intros [| [| [| i]]] [| [| [| j]]] si sj [= <-] [= <-] [=] [=]; done.
Qed.

Lemma built_forest_witness : forest tree.
Proof. apply built_forest, tree_built. Defined.

Lemma find_path_of_witness :
  exists path, path_of (E := Empty_set) tree 2 tt = Done (path, tt)
    /\ find (E := Empty_set) tree path tt = Done (Some 2, tt).
Proof.
  apply (find_path_of tree 2 (set_parent (new_scope "g" None ScopePrimitive "and") (Some 1)));
    [apply built_is_forest, tree_built | apply tree_names | reflexivity].
Defined.

Lemma subtree_spec_witness :
  exists out, subtree (E := Empty_set) tree 1 tt = Done (out, tt) /\ NoDup out /\ forall i, i ∈ out <-> below tree 1 i.
Proof.
  apply (subtree_spec tree 1); [apply built_is_forest, tree_built | lia | unfold valid; cbn; lia].
Defined.
