(* ===== verification/Plan.v ===== *)
(** * The annotation plan (src/sim/sdf/plan.rs)

    Every SDF record matched to its targets, in file order. Delay lists are
    stored once; an op names one by its index. *)

From Stdlib Require Import ZArith Lia Ascii String.
From stdpp Require Import base list strings.
From S2P Require Import Prelude Number NumberFacts Common Syntax Targets Total.
Open Scope Z_scope.
Open Scope list_scope.

Inductive SdfMode : Type := Absolute | Increment.

#[export] Instance SdfMode_eq_dec : EqDecision SdfMode.
Proof. solve_decision. Defined.

Record SdfDelayOp : Type := mkDelayOp { mode : SdfMode; list_of : Z }.

Record SdfPulseOp : Type := mkPulseOp {
  percent_of : bool;
  pulse_reject : option SdfValue;
  pulse_error : option SdfValue
}.

Record SdfPortTarget : Type := mkPortTarget {
  pt_scope : Z;
  pt_port : Z;
  pt_bits : option (Z * Z)
}.

#[export] Instance SdfPortTarget_eq_dec : EqDecision SdfPortTarget.
Proof. solve_decision. Defined.

Inductive SdfOpKind : Type :=
| PathDelay (scope path input output : Z) (delay : SdfDelayOp)
| PathPulse (scope path input output : Z) (pulse : SdfPulseOp)
| PortDelay (load : SdfPortTarget) (delay : SdfDelayOp)
| Interconnect (source : option SdfPortTarget) (load : SdfPortTarget) (delay : SdfDelayOp)
| NetDelay (load : SdfPortTarget) (delay : SdfDelayOp)
| PrimitiveDelay (scope : Z) (delay : SdfDelayOp)
| CheckLimit (scope check : Z) (slot : SdfLimitSlot) (value : SdfValue).

Record SdfOp : Type := mkOp { op_pos : SdfPos; op_kind : SdfOpKind }.

Record SdfPlan : Type := mkPlan {
  plan_version : SdfVersion;
  plan_timescale : SdfTimescale;
  plan_root : Z;
  ops : list SdfOp;
  delay_lists : list SdfDelvalList;
  plan_warnings : list SdfWarning
}.

Section Reading.
Context {E S : Type}.

Definition delay_list (plan : SdfPlan) (op : SdfDelayOp) : M E S SdfDelvalList :=
  index (delay_lists plan) (list_of op).

(** ** The dump of a plan *)

Definition render_mode (m : SdfMode) : string :=
  match m with Absolute => "absolute" | Increment => "increment" end.

Definition render_port (t : SdfTargets) (target : SdfPortTarget) : M E S string :=
  let* s := scope t (pt_scope target) in
  let* owner := path_of t (pt_scope target) in
  let* p := index (ports s) (pt_port target) in
  let bits :=
    match pt_bits target with
    | Some (msb, lsb) =>
        if Z.eqb msb lsb then cat ["["; dec msb; "]"] else cat ["["; dec msb; ":"; dec lsb; "]"]
    | None => ""
    end%string in
  ret (cat [owner; "."; escaped (port_name p); bits]%string).

Definition render_path (t : SdfTargets) (sc path input output : Z) : M E S string :=
  let* s := scope t sc in
  let* declaration := index (paths s) path in
  let* owner := path_of t sc in
  let* i := index (inputs declaration) input in
  let* o := index (outputs declaration) output in
  ret (cat [owner; " path "; dec path; " ("; fmt_terminal i; " => "; fmt_terminal o; ")"]%string).

Definition render_op (plan : SdfPlan) (t : SdfTargets) (op : SdfOpKind) : M E S string :=
  match op with
  | PathDelay sc path input output delay =>
      let* p := render_path t sc path input output in
      let* l := delay_list plan delay in
      ret (cat ["path delay "; render_mode (mode delay); " "; p; " = "; fmt_delval_list l]%string)
  | PathPulse sc path input output pulse =>
      let* p := render_path t sc path input output in
      ret (cat ["path pulse"; if percent_of pulse then " percent" else ""; " "; p; " = ";
                fmt_optional (pulse_reject pulse); " "; fmt_optional (pulse_error pulse)]%string)
  | PortDelay load delay =>
      let* p := render_port t load in
      let* l := delay_list plan delay in
      ret (cat ["port delay "; render_mode (mode delay); " "; p; " = "; fmt_delval_list l]%string)
  | Interconnect source load delay =>
      let* s := match source with Some s => render_port t s | None => ret "*"%string end in
      let* p := render_port t load in
      let* l := delay_list plan delay in
      ret (cat ["interconnect "; render_mode (mode delay); " "; s; " -> "; p; " = ";
                fmt_delval_list l]%string)
  | NetDelay load delay =>
      let* p := render_port t load in
      let* l := delay_list plan delay in
      ret (cat ["net delay "; render_mode (mode delay); " "; p; " = "; fmt_delval_list l]%string)
  | PrimitiveDelay sc delay =>
      let* owner := path_of t sc in
      let* l := delay_list plan delay in
      ret (cat ["primitive delay "; render_mode (mode delay); " "; owner; " = "; fmt_delval_list l]%string)
  | CheckLimit sc check slot value =>
      let* s := scope t sc in
      let* declaration := index (checks s) check in
      let* owner := path_of t sc in
      ret (cat ["check limit "; owner; " check "; dec check; " "; check_name (check_kind declaration); " ";
                match slot with First => "first" | Second => "second" | Both => "both" end;
                " = ("; fmt_value value; ")"]%string)
  end.

Definition render (plan : SdfPlan) (t : SdfTargets) : M E S string :=
  let* root := path_of t (plan_root plan) in
  let header := cat ["SDF "; fmt_version (plan_version plan); " timescale ";
                     fmt_timescale (plan_timescale plan); " from "; root; str [newline]]%string in
  let* out :=
    fold_m (fun out op =>
      let* line := render_op plan t (op_kind op) in
      ret (cat [out; fmt_pos (op_pos op); ": "; line; str [newline]]%string)) (ops plan) header in
  ret (cat (out :: map (fun w => cat ["warning "; fmt_warning w; str [newline]]%string) (plan_warnings plan))).

End Reading.

(** * Well-formed plans

    [plan_ok]: every op of a plan names scopes, paths, terminals, ports,
    checks and delay lists that exist. It is what the resolver promises and
    what applying and rendering a plan need. *)

Definition port_ok (t : SdfTargets) (p : SdfPortTarget) : Prop :=
  exists s, scopes t !! Z.to_nat (pt_scope p) = Some s /\ valid (ports s) (pt_port p).

Definition path_ok (t : SdfTargets) (sc path input output : Z) : Prop :=
  exists s p, scopes t !! Z.to_nat sc = Some s /\ paths s !! Z.to_nat path = Some p
    /\ valid (inputs p) input /\ valid (outputs p) output.

(** The numbers a value holds. *)
Definition value_numbers_ok (v : SdfValue) : Prop := forall i n, member v i = Some n -> number_ok n.
Definition opt_numbers_ok (v : option SdfValue) : Prop := forall x, v = Some x -> value_numbers_ok x.
Definition delval_numbers_ok (d : SdfDelval) : Prop :=
  opt_numbers_ok (delay d)
  /\ match pulse d with
     | Unspecified => True
     | Syntax.Limits l => opt_numbers_ok (reject l) /\ opt_numbers_ok (error l)
     end.

Section Plan.
Variable t : SdfTargets.
Variable lists : list SdfDelvalList.

Definition op_ok (kind : SdfOpKind) : Prop :=
  match kind with
  | PathDelay sc path input output d => path_ok t sc path input output /\ valid lists (list_of d)
  | PathPulse sc path input output p =>
      path_ok t sc path input output /\ opt_numbers_ok (pulse_reject p) /\ opt_numbers_ok (pulse_error p)
  | PortDelay load d | NetDelay load d => port_ok t load /\ valid lists (list_of d)
  | Interconnect source load d =>
      port_ok t load /\ valid lists (list_of d) /\ (forall s, source = Some s -> port_ok t s)
  | PrimitiveDelay sc d => valid (scopes t) sc /\ valid lists (list_of d)
  | CheckLimit sc check _ v =>
      (exists s, scopes t !! Z.to_nat sc = Some s /\ valid (checks s) check) /\ value_numbers_ok v
  end.
End Plan.

Definition plan_ok (t : SdfTargets) (p : SdfPlan) : Prop :=
  Forall (fun op => op_ok t (delay_lists p) (op_kind op)) (ops p)
  /\ Forall (Forall delval_numbers_ok) (delay_lists p).
