(* ===== verification/Options.v ===== *)
(** * The settings of an annotation (src/sim/sdf/apply.rs, first half)

    The arguments of [$sdf_annotate], the selection of a member and its scale
    factor, and the SDF configuration file. Texts are ASCII. *)

From Stdlib Require Import ZArith Lia Ascii String.
From stdpp Require Import base list strings.
From S2P Require Import Prelude Number Expr Targets.
Open Scope Z_scope.
Open Scope list_scope.

Inductive SdfMtm : Type := Minimum | Typical | Maximum | ToolControl.
Inductive SdfScaleType : Type := FromMinimum | FromTypical | FromMaximum | FromMtm.
Inductive SdfMipdPolicy : Type := MipdMaximum | MipdMinimum | MipdAverage | MipdLast.
Inductive SdfTurnoff : Type := TurnoffFromFile | TurnoffMinimum | TurnoffMaximum | TurnoffAverage.

#[export] Instance SdfMtm_eq_dec : EqDecision SdfMtm.
Proof. solve_decision. Defined.
#[export] Instance SdfScaleType_eq_dec : EqDecision SdfScaleType.
Proof. solve_decision. Defined.
#[export] Instance SdfMipdPolicy_eq_dec : EqDecision SdfMipdPolicy.
Proof. solve_decision. Defined.
#[export] Instance SdfTurnoff_eq_dec : EqDecision SdfTurnoff.
Proof. solve_decision. Defined.

(** [str::trim] of an ASCII text. *)
Fixpoint trim_start (bs : bytes) : bytes :=
  match bs with
  | b :: bs' => if is_whitespace b then trim_start bs' else bs
  | [] => []
  end.
Definition trim (bs : bytes) : bytes := rev (trim_start (rev (trim_start bs))).

(** A keyword of a table, in any case, with white space around it. *)
Definition parse_keyword {A} (table : list (string * A)) (text : bytes) : option A :=
  table_lookup table (to_ascii_uppercase (str (trim text))).

(** [SdfMtm::parse] and [SdfMtm::keyword]. *)
Definition parse_mtm : bytes -> option SdfMtm :=
  parse_keyword [("MINIMUM", Minimum); ("TYPICAL", Typical); ("MAXIMUM", Maximum);
                 ("TOOL_CONTROL", ToolControl)]%string.
Definition mtm_keyword (m : SdfMtm) : string :=
  match m with
  | Minimum => "MINIMUM"
  | Typical => "TYPICAL"
  | Maximum => "MAXIMUM"
  | ToolControl => "TOOL_CONTROL"
  end.

(** [SdfScaleType::parse] and [SdfScaleType::keyword]. *)
Definition parse_scale_type : bytes -> option SdfScaleType :=
  parse_keyword [("FROM_MINIMUM", FromMinimum); ("FROM_TYPICAL", FromTypical);
                 ("FROM_MAXIMUM", FromMaximum); ("FROM_MTM", FromMtm)]%string.
Definition scale_type_keyword (s : SdfScaleType) : string :=
  match s with
  | FromMinimum => "FROM_MINIMUM"
  | FromTypical => "FROM_TYPICAL"
  | FromMaximum => "FROM_MAXIMUM"
  | FromMtm => "FROM_MTM"
  end.

(** [SdfMipdPolicy::parse], [SdfMipdPolicy::keyword] and [SdfMipdPolicy::code]. *)
Definition parse_mipd : bytes -> option SdfMipdPolicy :=
  parse_keyword [("MAXIMUM", MipdMaximum); ("MINIMUM", MipdMinimum); ("AVERAGE", MipdAverage);
                 ("LAST", MipdLast)]%string.
Definition mipd_keyword (m : SdfMipdPolicy) : string :=
  match m with
  | MipdMaximum => "MAXIMUM"
  | MipdMinimum => "MINIMUM"
  | MipdAverage => "AVERAGE"
  | MipdLast => "LAST"
  end.
Definition mipd_code (m : SdfMipdPolicy) : Z :=
  match m with MipdMaximum => 0 | MipdMinimum => 1 | MipdAverage => 2 | MipdLast => 3 end.

(** [SdfTurnoff::parse] and [SdfTurnoff::keyword]. *)
Definition parse_turnoff : bytes -> option SdfTurnoff :=
  parse_keyword [("FROM_FILE", TurnoffFromFile); ("MINIMUM", TurnoffMinimum);
                 ("MAXIMUM", TurnoffMaximum); ("AVERAGE", TurnoffAverage)]%string.
Definition turnoff_keyword (t : SdfTurnoff) : string :=
  match t with
  | TurnoffFromFile => "FROM_FILE"
  | TurnoffMinimum => "MINIMUM"
  | TurnoffMaximum => "MAXIMUM"
  | TurnoffAverage => "AVERAGE"
  end.

(** [scale] holds three factors. *)
Record SdfCallOptions : Type := mkOptions {
  mtm : SdfMtm;
  tool_member : nat;
  scale : list SdfNumber;
  scale_type : SdfScaleType;
  turnoff : SdfTurnoff;
  mipd : SdfMipdPolicy
}.

Definition default_options : SdfCallOptions :=
  mkOptions ToolControl 1 (repeat (Number.new 1 0) 3) FromMtm TurnoffFromFile MipdMaximum.

(** [SdfCallOptions::member]. *)
Definition selected_member (o : SdfCallOptions) : nat :=
  match mtm o with
  | Minimum => 0
  | Typical => 1
  | Maximum => 2
  | ToolControl => tool_member o
  end%nat.

(** The member the scale factor applies to. *)
Definition source_member (o : SdfCallOptions) : nat :=
  match scale_type o with
  | FromMtm => selected_member o
  | FromMinimum => 0
  | FromTypical => 1
  | FromMaximum => 2
  end%nat.

(** The selected member of a value and its scale factor. *)
Definition select {E S} (o : SdfCallOptions) (value : SdfValue) : M E S (option (SdfNumber * SdfNumber)) :=
  match member value (source_member o) with
  | None => ret None
  | Some number =>
      let* factor := index (scale o) (Z.of_nat (selected_member o)) in
      ret (Some (number, factor))
  end.

(** A scale factor: a number that is not negative. *)
Definition scale_factor (text : bytes) : option SdfNumber :=
  match Number.parse (str (trim text)) with
  | Done n => if is_negative n then None else Some n
  | _ => None
  end.

Definition parse_scale_factors (text : bytes) : option (list SdfNumber) :=
  match split_on ":"%char (trim text) with
  | [min; typ; max] =>
      match scale_factor min, scale_factor typ, scale_factor max with
      | Some a, Some b, Some c => Some [a; b; c]
      | _, _, _ => None
      end
  | _ => None
  end.

(** ** The configuration file *)

Record SdfConfig : Type := mkConfig {
  cfg_mtm : option SdfMtm;
  cfg_scale : option (list SdfNumber);
  cfg_scale_type : option SdfScaleType;
  cfg_mipd : option SdfMipdPolicy;
  cfg_turnoff : option SdfTurnoff
}.

Definition default_config : SdfConfig := mkConfig None None None None None.

Record SdfConfigError : Type := mkConfigError { cfg_line : Z; cfg_message : string }.

Definition fmt_config_error (e : SdfConfigError) : string :=
  cat [dec (cfg_line e); ": "; cfg_message e]%string.

(** The value of a statement, or the error that names the setting. *)
Definition setting {A} (value : option A) (what : string) (text : bytes) (at_ : Z) (k : A -> SdfConfig)
  : outcome SdfConfigError SdfConfig :=
  match value with
  | Some a => Done (k a)
  | None => Fail (mkConfigError at_ (cat ["invalid "; what; " value "; ticked (str text)]%string))
  end.

(** The [finish] closure: one statement [KEYWORD = value]. *)
Definition finish_statement (c : SdfConfig) (statement : bytes) (at_ : Z) : outcome SdfConfigError SdfConfig :=
  let text := trim statement in
  match text with
  | [] => Done c
  | _ =>
      match split_once "="%char text with
      | None => Fail (mkConfigError at_ (cat [ticked (str text); " is not `KEYWORD = value`"]%string))
      | Some (kw, v) =>
          let keyword := to_ascii_uppercase (str (trim kw)) in
          let value := trim v in
          if String.eqb keyword "MTM" || String.eqb keyword "MTM_SPEC" then
            setting (parse_mtm value) "MTM" value at_
              (fun m => mkConfig (Some m) (cfg_scale c) (cfg_scale_type c) (cfg_mipd c) (cfg_turnoff c))
          else if String.eqb keyword "SCALE_FACTORS" then
            setting (parse_scale_factors value) "SCALE_FACTORS" value at_
              (fun s => mkConfig (cfg_mtm c) (Some s) (cfg_scale_type c) (cfg_mipd c) (cfg_turnoff c))
          else if String.eqb keyword "SCALE_TYPE" then
            setting (parse_scale_type value) "SCALE_TYPE" value at_
              (fun s => mkConfig (cfg_mtm c) (cfg_scale c) (Some s) (cfg_mipd c) (cfg_turnoff c))
          else if String.eqb keyword "INTERCONNECT_MIPD" then
            setting (parse_mipd value) "INTERCONNECT_MIPD" value at_
              (fun m => mkConfig (cfg_mtm c) (cfg_scale c) (cfg_scale_type c) (Some m) (cfg_turnoff c))
          else if String.eqb keyword "TURNOFF_DELAY" then
            setting (parse_turnoff value) "TURNOFF_DELAY" value at_
              (fun t => mkConfig (cfg_mtm c) (cfg_scale c) (cfg_scale_type c) (cfg_mipd c) (Some t))
          else
            Fail (mkConfigError at_
              (cat ["unknown statement "; ticked keyword;
                    "; llg reads MTM, SCALE_FACTORS, SCALE_TYPE, INTERCONNECT_MIPD and TURNOFF_DELAY"]%string))
      end
  end.

(** Where the loop of [parse_config] is: in a statement, or in one of its
    inner comment loops. *)
Inductive config_mode : Type := InStatement | InLineComment | InBlockComment (previous : ascii).

Record config_state : Type := mkConfigState {
  config : SdfConfig;
  statement : bytes;
  statement_line : Z;
  cur_line : Z
}.

Definition is_blank_statement (bs : bytes) : bool := match trim bs with [] => true | _ => false end.

Definition push_char (st : config_state) (c : ascii) : config_state :=
  mkConfigState (config st) (statement st ++ [c]) (statement_line st) (cur_line st).
Definition next_line (st : config_state) : config_state :=
  mkConfigState (config st) (statement st) (statement_line st) (wrap_u32 (cur_line st + 1)).
Definition start_statement (st : config_state) : config_state :=
  mkConfigState (config st) (statement st) (cur_line st) (cur_line st).

Fixpoint config_loop (text : bytes) (m : config_mode) (st : config_state)
  : outcome SdfConfigError SdfConfig :=
  match text with
  | [] =>
      match m with
      | InBlockComment _ => Fail (mkConfigError (cur_line st) "unterminated comment")
      | _ =>
          if is_blank_statement (statement st) then Done (config st)
          else Fail (mkConfigError (statement_line st)
                       (cat [ticked (str (trim (statement st))); " has no closing `;`"]%string))
      end
  | c :: rest =>
      match m with
      | InLineComment =>
          if Ascii.eqb c newline then config_loop rest InStatement (push_char (next_line st) " "%char)
          else config_loop rest InLineComment st
      | InBlockComment previous =>
          let st := if Ascii.eqb c newline then next_line st else st in
          if Ascii.eqb previous "*"%char && Ascii.eqb c "/"%char
          then config_loop rest InStatement (push_char st " "%char)
          else config_loop rest (InBlockComment c) st
      | InStatement =>
          let plain :=
            if Ascii.eqb c ";"%char then
              match finish_statement (config st) (statement st) (statement_line st) with
              | Done c' => config_loop rest InStatement (mkConfigState c' [] (cur_line st) (cur_line st))
              | Fail e => Fail e
              | Panic w => Panic w
              | NoFuel => NoFuel
              end
            else if Ascii.eqb c newline then
              let st := next_line st in
              let st := if is_blank_statement (statement st) then start_statement st else st in
              config_loop rest InStatement (push_char st " "%char)
            else
              let st := if is_blank_statement (statement st) && negb (is_whitespace c)
                        then start_statement st else st in
              config_loop rest InStatement (push_char st c) in
          match rest with
          | next :: rest' =>
              if Ascii.eqb c "/"%char && Ascii.eqb next "/"%char then config_loop rest InLineComment st
              else if Ascii.eqb c "/"%char && Ascii.eqb next "*"%char
              then config_loop rest' (InBlockComment " "%char) st
              else plain
          | [] => plain
          end
      end
  end.

Definition parse_config (text : bytes) : outcome SdfConfigError SdfConfig :=
  config_loop text InStatement (mkConfigState default_config [] 1 1).

(** * The configuration file

    The single pass of [parse_config] reads what its documentation describes:
    statements that end with [;], in which comments and line ends count as
    white space. *)

(** ** Texts as pieces *)

Inductive piece : Type :=
| Text (bs : bytes)
| Newline
| LineComment (bs : bytes)
| BlockComment (bs : bytes).

Definition plain (c : ascii) : bool :=
  negb (Ascii.eqb c "/"%char) && negb (Ascii.eqb c ";"%char) && negb (Ascii.eqb c newline).

(** Whether a block comment ends inside [bs]. *)
Fixpoint closes (previous : ascii) (bs : bytes) : bool :=
  match bs with
  | [] => false
  | b :: bs' => (Ascii.eqb previous "*"%char && Ascii.eqb b "/"%char) || closes b bs'
  end.

Definition piece_ok (p : piece) : Prop :=
  match p with
  | Text bs => Forall (fun c => plain c = true) bs
  | Newline => True
  | LineComment bs => newline ∉ bs
  | BlockComment bs => closes " "%char bs = false
  end.

Definition print_piece (p : piece) : bytes :=
  match p with
  | Text bs => bs
  | Newline => [newline]
  | LineComment bs => ["/"; "/"]%char ++ bs ++ [newline]
  | BlockComment bs => ["/"; "*"]%char ++ bs ++ ["*"; "/"]%char
  end.

(** What a piece is in a statement: white space, unless it is text. *)
Definition piece_text (p : piece) : bytes := match p with Text bs => bs | _ => [" "%char] end.

Definition print_statement (ps : list piece) : bytes := concat (map print_piece ps).
Definition statement_text (ps : list piece) : bytes := concat (map piece_text ps).

(** A file: statements that end with [;], and what follows the last. *)
Definition print_config (statements : list (list piece)) (rest : list piece) : bytes :=
  concat (map (fun ps => print_statement ps ++ [";"%char]) statements) ++ print_statement rest.

(** The reference: the statements one after the other, each replacing what an
    earlier one set, up to the first error. *)
Fixpoint read_statements (c : SdfConfig) (statements : list bytes) : outcome SdfConfigError SdfConfig :=
  match statements with
  | [] => Done c
  | s :: rest =>
      match finish_statement c s 0 with
      | Done c' => read_statements c' rest
      | e => e
      end
  end.

(** An outcome without the line of its error. *)
Definition without_line (o : outcome SdfConfigError SdfConfig) : outcome SdfConfigError SdfConfig :=
  match o with Fail e => Fail (mkConfigError 0 (cfg_message e)) | _ => o end.

(** ** The loop *)

(** After a piece the loop is in a statement that has grown by its text. *)
Definition grown (st st' : config_state) (bs : bytes) : Prop :=
  config st' = config st /\ statement st' = statement st ++ bs.

Lemma config_char_step c rest st :
  plain c = true -> exists st', config_loop (c :: rest) InStatement st = config_loop rest InStatement st' /\ grown st st' [c].
Proof.
  unfold plain. intros P. destruct (Ascii.eqb c "/"%char) eqn:E1; [done |]. destruct (Ascii.eqb c ";"%char) eqn:E2; [done |].
  destruct (Ascii.eqb c newline) eqn:E3; [done |]. cbn [config_loop]. rewrite E1, E2, E3. cbn [andb].
  assert (G : forall b : bool, grown st (push_char (if b then start_statement st else st) c) [c]) by (by intros []).
  eexists. split; [by destruct rest |]. apply G.
Qed.

Lemma text_step bs rest st :
  Forall (fun c => plain c = true) bs ->
  exists st', config_loop (bs ++ rest) InStatement st = config_loop rest InStatement st' /\ grown st st' bs.
Proof.
  intros F. revert st. induction F as [| c bs Pc _ IH]; intros st.
  { exists st. split; [done |]. split; [done | by rewrite app_nil_r]. }
  cbn [app]. destruct (config_char_step c (bs ++ rest) st Pc) as (s1 & -> & C1 & T1).
  destruct (IH s1) as (s2 & -> & C2 & T2). exists s2. split; [done |]. split; [congruence |].
  by rewrite T2, T1, <- app_assoc.
Qed.

Lemma line_comment_step bs rest st :
  newline ∉ bs ->
  exists st', config_loop (bs ++ newline :: rest) InLineComment st = config_loop rest InStatement st' /\ grown st st' [" "%char].
Proof.
  intros N. induction bs as [| b bs IH]; cbn [app config_loop].
  { rewrite Ascii.eqb_refl. eexists. split; [done |]. done. }
  apply not_elem_of_cons in N as [Nb N]. destruct (Ascii.eqb_spec b newline) as [-> | _]; [done |]. by apply IH.
Qed.

Lemma block_comment_step bs previous rest st :
  closes previous bs = false ->
  exists st', config_loop (bs ++ "*"%char :: "/"%char :: rest) (InBlockComment previous) st
              = config_loop rest InStatement st' /\ grown st st' [" "%char].
Proof.
  revert previous st. induction bs as [| b bs IH]; intros previous st C.
  { cbn [app config_loop]. cbn. rewrite andb_false_r. cbn. eexists. split; [done |]. done. }
  cbn in C. apply orb_false_iff in C as [C1 C2]. cbn [app config_loop]. rewrite C1.
  destruct (IH b (if Ascii.eqb b newline then next_line st else st) C2) as (s & -> & H).
  exists s. split; [done |]. by destruct (Ascii.eqb b newline).
Qed.

Lemma piece_step p rest st :
  piece_ok p ->
  exists st', config_loop (print_piece p ++ rest) InStatement st = config_loop rest InStatement st' /\ grown st st' (piece_text p).
Proof.
  destruct p as [bs | | bs | bs]; cbn [piece_ok print_piece piece_text]; intros Ok.
  - by apply text_step.
  - eexists. split.
    + cbn [app]. destruct rest; reflexivity.
    + by destruct (is_blank_statement _).
  - destruct (line_comment_step ("/"%char :: bs) rest st) as (s & E & G).
    { rewrite not_elem_of_cons. by split. }
    exists s. split; [| done]. rewrite <- E. by rewrite <- !app_assoc.
  - destruct (block_comment_step bs " "%char rest st Ok) as (s & E & G). exists s. split; [| done].
    rewrite <- E. by rewrite <- !app_assoc.
Qed.

Lemma pieces_step ps rest st :
  Forall piece_ok ps ->
  exists st', config_loop (print_statement ps ++ rest) InStatement st = config_loop rest InStatement st'
    /\ grown st st' (statement_text ps).
Proof.
  intros F. revert st. induction F as [| p ps Ok _ IH]; intros st.
  { exists st. split; [done |]. split; [done | by rewrite app_nil_r]. }
  unfold print_statement, statement_text. cbn [map concat]. rewrite <- app_assoc.
  destruct (piece_step p (concat (map print_piece ps) ++ rest) st Ok) as (s1 & -> & C1 & T1).
  destruct (IH s1) as (s2 & E2 & C2 & T2). unfold print_statement in E2. rewrite E2. exists s2.
  split; [done |]. split; [congruence |]. by rewrite T2, T1, <- app_assoc.
Qed.

(** The line of a statement is only in its error. *)
Lemma finish_statement_line c s a b :
  match finish_statement c s a, finish_statement c s b with
  | Done x, Done y => x = y
  | Fail x, Fail y => cfg_message x = cfg_message y
  | _, _ => False
  end.
Proof.
  unfold finish_statement, setting. destruct (trim s); [done |]. destruct (split_once _ _) as [[kw v] |]; [| done].
  repeat case_match; simplify_eq; done.
Qed.

Lemma statements_step stmts rest st :
  Forall (Forall piece_ok) stmts -> Forall piece_ok rest -> trim (statement_text rest) = [] -> statement st = [] ->
  without_line (config_loop (print_config stmts rest) InStatement st)
  = without_line (read_statements (config st) (map statement_text stmts)).
Proof.
  intros F Fr Tr. revert st. induction F as [| ps stmts Ok _ IH]; intros st S0; cbn [map read_statements].
  - unfold print_config. cbn [map concat app]. rewrite <- (app_nil_r (print_statement rest)).
    destruct (pieces_step rest [] st Fr) as (s & -> & C & Ts). cbn [config_loop]. unfold is_blank_statement.
    by rewrite Ts, S0, app_nil_l, Tr, C.
  - unfold print_config in *. cbn [map concat]. rewrite <- !app_assoc.
    destruct (pieces_step ps (";"%char :: concat (map (fun ps => print_statement ps ++ [";"%char]) stmts) ++ print_statement rest)
                st Ok) as (s & E & C & Ts).
    cbn [app]. rewrite E. clear E. rewrite S0, app_nil_l in Ts.
    assert (E : forall tail, config_loop (";"%char :: tail) InStatement s
      = match finish_statement (config s) (statement s) (statement_line s) with
        | Done c' => config_loop tail InStatement (mkConfigState c' [] (cur_line s) (cur_line s))
        | Fail e => Fail e
        | Panic w => Panic w
        | NoFuel => NoFuel
        end) by (by intros []).
    rewrite E, Ts, C. pose proof (finish_statement_line (config st) (statement_text ps) (statement_line s) 0) as L.
    destruct (finish_statement (config st) (statement_text ps) (statement_line s)) as [x | x | |],
      (finish_statement (config st) (statement_text ps) 0) as [y | y | |]; try done.
    + subst y. by rewrite IH.
    + cbn. by rewrite L.
Qed.

(** ** Theorems *)

(** A configuration file is its statements, one after the other: for any
    text made of statements that end with [;], with [//] and [/* */] comments
    and line ends anywhere between and inside them, [parse_config] returns
    what reading each statement in turn returns, with comments and line ends
    as white space: the settings, a later one replacing an earlier one, or
    the message of the first statement that is wrong. *)
Theorem config_statements (stmts : list (list piece)) (rest : list piece) :
  Forall (Forall piece_ok) stmts -> Forall piece_ok rest -> trim (statement_text rest) = [] ->
  without_line (parse_config (print_config stmts rest))
  = without_line (read_statements default_config (map statement_text stmts)).
Proof. intros F Fr Tr. by apply statements_step. Qed.

(** ** Witnesses *)

(** [MTM =/* a;b */minimum;] and, after a comment, [turnoff_delay], a line
    end and [= Average;]. *)
Definition config_sample : list (list piece) :=
  [[Text (unstr "MTM ="); BlockComment (unstr " a;b "); Text (unstr "minimum")];
   [LineComment (unstr " MTM = 3;"); Text (unstr "turnoff_delay"); Newline; Text (unstr "= Average")]]%string.

Lemma config_sample_ok : Forall (Forall piece_ok) config_sample.
Proof.
  assert (N : newline ∉ unstr " MTM = 3;"%string) by (by apply (bool_decide_unpack _)).
  repeat (apply Forall_cons_2 || apply Forall_nil_2 || split); cbn; first [exact N | by repeat constructor | done].
Qed.

Lemma config_statements_witness :
  without_line (parse_config (print_config config_sample [Newline]))
  = Done (mkConfig (Some Minimum) None None None (Some TurnoffAverage)).
Proof.
  transitivity (without_line (read_statements default_config (map statement_text config_sample))); [| vm_compute; reflexivity].
  apply (config_statements config_sample [Newline]); [apply config_sample_ok | repeat constructor | reflexivity].
Defined.
