(* ===== verification/Apply.v ===== *)
(** * Valuing a plan (src/sim/sdf/apply.rs, second half)

    Every value of a plan is selected, scaled, rounded to the precision of the
    module it lands in and stored in ticks of the design. Delay lists expand
    to twelve transitions or three gate delays; the annotation packs the
    values of an op behind bit masks. *)

From Stdlib Require Import ZArith Lia Ascii String.
From stdpp Require Import base list strings.
From S2P Require Import Prelude Common Number Syntax Targets Plan Options.
Open Scope Z_scope.
Open Scope list_scope.

(** The masks are [u16]s. *)
Record SdfMasks : Type := mkMasks {
  delay_mask : Z;
  reject_mask : Z;
  error_mask : Z;
  derive_mask : Z
}.

Definition no_masks : SdfMasks := mkMasks 0 0 0 0.

Definition masks_is_empty (m : SdfMasks) : bool :=
  Z.lor (Z.lor (Z.lor (delay_mask m) (reject_mask m)) (error_mask m)) (derive_mask m) =? 0.

(** [u16::count_ones]. *)
Definition count_ones (z : Z) : nat :=
  length (List.filter (fun i => Z.testbit z (Z.of_nat i)) (seq 0 16)).

Definition value_count (m : SdfMasks) : nat :=
  (count_ones (delay_mask m) + count_ones (reject_mask m) + count_ones (error_mask m))%nat.

Inductive SdfAppliedTarget : Type :=
| APath (scope path input output : Z)
| APort (load : SdfPortTarget) (source : option SdfPortTarget)
| APrimitive (scope : Z)
| ACheck (scope check : Z) (slot : SdfLimitSlot).

#[export] Instance SdfAppliedTarget_eq_dec : EqDecision SdfAppliedTarget.
Proof. solve_decision. Defined.

Record SdfAppliedOp : Type := mkAppliedOp {
  ap_pos : SdfPos;
  ap_target : SdfAppliedTarget;
  ap_increment : bool;
  ap_percent : bool;
  masks : SdfMasks;
  first : Z
}.

Record SdfAnnotation : Type := mkAnnotation {
  ann_ops : list SdfAppliedOp;
  values : list Z;
  ann_warnings : list SdfWarning
}.

Definition empty_annotation : SdfAnnotation := mkAnnotation [] [] [].

(** The slice [values[first..first + count]]; out of bounds it panics. *)
Definition values_of {E S} (a : SdfAnnotation) (op : SdfAppliedOp) : M E S (list Z) :=
  let from := Z.to_nat (first op) in
  let count := value_count (masks op) in
  if (from + count <=? length (values a))%nat then ret (take count (drop from (values a)))
  else panic "slice index out of range".

(** ** Transitions *)

Definition TRANSITIONS : nat := 12.

Inductive Source : Type := Value (i : nat) | Min (a b : nat) | Max (a b : nat).

(** Table 32-4. *)
Definition transition_sources (count : nat) : list Source :=
  match count with
  | 1 => repeat (Value 0) TRANSITIONS
  | 2 => [Value 0; Value 1; Value 0; Value 0; Value 1; Value 1; Value 0; Value 0; Value 1; Value 1;
          Max 0 1; Min 0 1]
  | 3 => [Value 0; Value 1; Value 2; Value 0; Value 2; Value 1; Min 0 2; Value 0; Min 1 2; Value 1;
          Value 2; Min 0 1]
  | 6 => [Value 0; Value 1; Value 2; Value 3; Value 4; Value 5; Min 0 2; Max 0 3; Min 1 4; Max 1 5;
          Max 2 4; Min 3 5]
  | _ => map Value (seq 0 TRANSITIONS)
  end%nat.

Inductive Limits : Type :=
| Derive
| Given (reject error : option Z).

Record Valued : Type := mkValued { v_delay : option Z; v_limits : Limits }.

Definition default_valued : Valued := mkValued None Derive.

(** What an op gives one transition. *)
Definition Transition : Type := (option Z * Limits)%type.

Definition source_transition (at_ : nat -> Valued) (source : Source) : Transition :=
  let pick (a b : nat) (take_first : Z -> Z -> bool) :=
    match v_delay (at_ a), v_delay (at_ b) with
    | Some x, Some y =>
        let chosen := if take_first x y then at_ a else at_ b in
        (v_delay chosen, v_limits chosen)
    | _, _ => (None, Derive)
    end in
  match source with
  | Value i => (v_delay (at_ i), v_limits (at_ i))
  | Min a b => pick a b Z.leb
  | Max a b => pick a b Z.geb
  end.

Definition value_at (vs : list Valued) (i : nat) : Valued := default default_valued (vs !! i).

(** Lists of 4 or 5 values are six with trailing nulls, 7 to 11 twelve. *)
Definition expanded_count (n : nat) : nat :=
  if ((n =? 4) || (n =? 5))%nat then 6
  else if ((7 <=? n) && (n <=? 11))%nat then TRANSITIONS
  else n.

Definition expand_transitions (vs : list Valued) : list Transition :=
  match vs with
  | [] => repeat (None, Derive) TRANSITIONS
  | _ => map (source_transition (value_at vs)) (transition_sources (expanded_count (length vs)))
  end.

(** Table 28-9; the average is an [i64] sum. *)
Definition gate_delays (vs : list Valued) (off : SdfTurnoff) : list (option Z) :=
  let at_ i := match vs !! i with Some v => v_delay v | None => None end in
  match vs with
  | [] => [None; None; None]
  | [_] => repeat (at_ 0%nat) 3
  | [_; _] =>
      [at_ 0%nat; at_ 1%nat;
       match at_ 0%nat, at_ 1%nat with
       | Some rise, Some fall =>
           Some (match off with
                 | TurnoffFromFile | TurnoffMinimum => Z.min rise fall
                 | TurnoffMaximum => Z.max rise fall
                 | TurnoffAverage => Z.quot (wrap_i64 (rise + fall)) 2
                 end)
       | _, _ => None
       end]
  | _ => [at_ 0%nat; at_ 1%nat; at_ 2%nat]
  end.

(** ** Ticks *)

Definition wrap_i128 : Z -> Z := wrap_s 128.

Definition checked_i128 (z : Z) : option Z :=
  if (i128_min <=? z) && (z <=? i128_max) then Some z else None.

(** [10i128.checked_pow(exponent)]. *)
Definition power_of_ten (exponent : Z) : option Z := checked_i128 (10 ^ exponent).

(** The loop that divides by ten; a [u64] has at most 20 digits. *)
Fixpoint decimal_loop (fuel : nat) (rest exponent : Z) : Z * Z :=
  match fuel with
  | O => (rest, exponent)
  | Datatypes.S f =>
      if (10 <=? rest) && (rest mod 10 =? 0) then decimal_loop f (rest / 10) (exponent + 1)
      else (rest, exponent)
  end.

Definition decimal_exponent (value : Z) : option Z :=
  let (rest, exponent) := decimal_loop 20 value 0 in
  if rest =? 1 then Some exponent else None.

(** The quotient rounded half away from zero, in [i128] arithmetic. *)
Definition round_quotient (mantissa divisor : Z) : Z :=
  let quotient := Z.quot mantissa divisor in
  let remainder := Z.abs (Z.rem mantissa divisor) in
  if wrap_i128 (remainder * 2) >=? divisor then quotient + Z.sgn mantissa else quotient.

(** [i64::try_from]. *)
Definition try_i64 (z : Z) : option Z :=
  if (i64_min <=? z) && (z <=? i64_max) then Some z else None.

(** The units of [exact_ticks]: [mantissa * 10^exponent] rounded. *)
Definition rounded_units (mantissa exponent : Z) : option Z :=
  if mantissa =? 0 then Some 0
  else if 0 <=? exponent then
    match power_of_ten exponent with
    | Some p => checked_i128 (mantissa * p)
    | None => None
    end
  else
    match power_of_ten (- exponent) with
    | None => Some 0
    | Some divisor => Some (round_quotient mantissa divisor)
    end.

Section Valuer.
Variable options : SdfCallOptions.
Variables timescale_fs design_precision_fs : Z.

Definition exact_ticks (number factor : SdfNumber) (precision_fs : Z) : option Z :=
  match decimal_exponent timescale_fs, decimal_exponent precision_fs with
  | Some timescale_exponent, Some precision_exponent =>
      let m := mantissa number * mantissa factor in
      let e := exponent number + exponent factor + timescale_exponent - precision_exponent in
      match rounded_units m e with
      | None => None
      | Some units =>
          match checked_i128 (units * (precision_fs / Z.max design_precision_fs 1)) with
          | None => None
          | Some ticks => try_i64 ticks
          end
      end
  | _, _ => None
  end.

(** The warnings are the state of the valuer; nothing fails. *)
Abbreviation V := (M Empty_set (list SdfWarning)).

Definition ticks (pos : SdfPos) (number factor : SdfNumber) (precision_fs : Z) : V Z :=
  let precision_fs := Z.max precision_fs design_precision_fs in
  let unit_ticks := wrap_i64 (precision_fs / Z.max design_precision_fs 1) in
  match exact_ticks number factor precision_fs with
  | Some ticks => ret ticks
  | None =>
      modify (fun ws => ws ++ [mkWarning pos
        (cat ["the value "; fmt_number number;
              " is out of the simulation time range; it is annotated as one precision unit"]%string)]) ;;;
      ret unit_ticks
  end.

(** [Valuer::value]. *)
Definition tick_value (pos : SdfPos) (value : option SdfValue) (precision_fs : Z) : V (option Z) :=
  match value with
  | None => ret None
  | Some value =>
      let* selected := select options value in
      match selected with
      | None => ret None
      | Some (number, factor) =>
          let* t := ticks pos number factor precision_fs in
          ret (Some t)
      end
  end.

(** Millionths of a percent of a number. *)
Definition percent_units (number : SdfNumber) : option Z :=
  let e := exponent number + 6 in
  let units :=
    if 0 <=? e then
      match power_of_ten e with
      | Some p => checked_i128 (mantissa number * p)
      | None => None
      end
    else Some (Z.quot (mantissa number) (default i128_max (power_of_ten (- e)))) in
  match units with
  | None => None
  | Some units => try_i64 (Z.max 0 (Z.min units 100000000))
  end.

(** [Valuer::percent]. *)
Definition percent (value : option SdfValue) : V (option Z) :=
  match value with
  | None => ret None
  | Some value =>
      let* selected := select options value in
      match selected with
      | None => ret None
      | Some (number, _) => ret (percent_units number)
      end
  end.

Definition delval (pos : SdfPos) (precision_fs : Z) (d : SdfDelval) : V Valued :=
  let* delay := tick_value pos (delay d) precision_fs in
  let* limits :=
    match pulse d with
    | Unspecified => ret Derive
    | Syntax.Limits l =>
        let* reject := tick_value pos (reject l) precision_fs in
        let* error := tick_value pos (error l) precision_fs in
        ret (Given reject error)
    end in
  ret (mkValued delay limits).

Definition delvals (pos : SdfPos) (l : SdfDelvalList) (precision_fs : Z) : V (list Valued) :=
  fold_m (fun vs d => let* v := delval pos precision_fs d in ret (vs ++ [v])) l [].

End Valuer.

(** ** Packing the values of an op *)

(** The bit of transition [i]. *)
Definition bit (i : nat) : Z := Z.shiftl 1 (Z.of_nat i).

(** The first loop of [Builder::push]: the delays, from transition [i] on. *)
Fixpoint push_delays (i : nat) (transitions : list Transition) (m : SdfMasks) (vs : list Z) : SdfMasks * list Z :=
  match transitions with
  | [] => (m, vs)
  | (Some d, _) :: rest =>
      push_delays (Datatypes.S i) rest
        (mkMasks (Z.lor (delay_mask m) (bit i)) (reject_mask m) (error_mask m) (derive_mask m)) (vs ++ [d])
  | (None, _) :: rest => push_delays (Datatypes.S i) rest m vs
  end.

(** The second loop: the pulse limits. *)
Fixpoint push_limits (i : nat) (transitions : list Transition) (m : SdfMasks) (rejects errors : list Z)
  : SdfMasks * list Z * list Z :=
  match transitions with
  | [] => (m, rejects, errors)
  | (d, Derive) :: rest =>
      let m :=
        match d with
        | Some _ => mkMasks (delay_mask m) (reject_mask m) (error_mask m) (Z.lor (derive_mask m) (bit i))
        | None => m
        end in
      push_limits (Datatypes.S i) rest m rejects errors
  | (_, Given reject error) :: rest =>
      let '(m, rejects) :=
        match reject with
        | Some r => (mkMasks (delay_mask m) (Z.lor (reject_mask m) (bit i)) (error_mask m) (derive_mask m),
                     rejects ++ [r])
        | None => (m, rejects)
        end in
      let '(m, errors) :=
        match error with
        | Some e => (mkMasks (delay_mask m) (reject_mask m) (Z.lor (error_mask m) (bit i)) (derive_mask m),
                     errors ++ [e])
        | None => (m, errors)
        end in
      push_limits (Datatypes.S i) rest m rejects errors
  end.

(** [Builder::push]. *)
Definition push (a : SdfAnnotation) (pos : SdfPos) (target : SdfAppliedTarget) (increment percent : bool)
  (transitions : list Transition) : SdfAnnotation :=
  let first := wrap_u32 (Z.of_nat (length (values a))) in
  let '(m, vs) := push_delays 0 transitions no_masks (values a) in
  let '(m, rejects, errors) := push_limits 0 transitions m [] [] in
  if masks_is_empty m then mkAnnotation (ann_ops a) (take (Z.to_nat first) vs) (ann_warnings a)
  else mkAnnotation (ann_ops a ++ [mkAppliedOp pos target increment percent m first])
         (vs ++ rejects ++ errors) (ann_warnings a).

(** ** Applying a plan *)

Section Applying.
Variable plan : SdfPlan.
Variable targets : SdfTargets.
Variable options : SdfCallOptions.
Variable design_precision_fs : Z.

Abbreviation V := (M Empty_set (list SdfWarning)).
Abbreviation timescale_fs := (femtoseconds (plan_timescale plan)).

Definition precision (sc : Z) : V Z := let* s := scope targets sc in ret (precision_fs s).

Definition op_delvals (pos : SdfPos) (d : SdfDelayOp) (precision_fs : Z) : V (list Valued) :=
  let* l := delay_list plan d in
  delvals options timescale_fs design_precision_fs pos l precision_fs.

Definition path_transitions (pos : SdfPos) (d : SdfDelayOp) (precision_fs : Z) : V (list Transition) :=
  let* vs := op_delvals pos d precision_fs in
  ret (expand_transitions vs).

Definition is_increment (d : SdfDelayOp) : bool := bool_decide (mode d = Increment).

Definition value_of (pos : SdfPos) (v : option SdfValue) (precision_fs : Z) : V (option Z) :=
  tick_value options timescale_fs design_precision_fs pos v precision_fs.

(** The limits of a PATHPULSE op: one value sets both. *)
Definition pulse_limits (pos : SdfPos) (sc : Z) (p : SdfPulseOp) : V (option Z * option Z) :=
  let error := match pulse_error p with Some e => Some e | None => pulse_reject p end in
  if percent_of p then
    let* r := percent options (pulse_reject p) in
    let* e := percent options error in
    ret (r, e)
  else
    let* precision_fs := precision sc in
    let* r := value_of pos (pulse_reject p) precision_fs in
    let* e := value_of pos error precision_fs in
    ret (r, e).

(** What one op of the plan changes: the target, whether the values are
    added, whether limits are percentages, and the transitions. *)
Definition op_transitions (pos : SdfPos) (kind : SdfOpKind)
  : V (SdfAppliedTarget * bool * bool * list Transition) :=
  match kind with
  | PathDelay sc path input output d =>
      let* p := precision sc in
      let* ts := path_transitions pos d p in
      ret (APath sc path input output, is_increment d, false, ts)
  | PathPulse sc path input output pulse =>
      let* (r, e) := pulse_limits pos sc pulse in
      ret (APath sc path input output, false, percent_of pulse, repeat (None, Given r e) TRANSITIONS)
  | PortDelay load d | NetDelay load d =>
      let* p := precision (pt_scope load) in
      let* ts := path_transitions pos d p in
      ret (APort load None, is_increment d, false, ts)
  | Interconnect source load d =>
      let* p := precision (pt_scope load) in
      let* ts := path_transitions pos d p in
      ret (APort load source, is_increment d, false, ts)
  | PrimitiveDelay sc d =>
      let* p := precision sc in
      let* vs := op_delvals pos d p in
      ret (APrimitive sc, is_increment d, false,
           map (fun o => (o, Given None None)) (gate_delays vs (turnoff options)))
  | CheckLimit sc check slot v =>
      let* p := precision sc in
      let* t := value_of pos (Some v) p in
      ret (ACheck sc check slot, false, false, [(t, Given None None)])
  end.

Definition apply_op (a : SdfAnnotation) (op : SdfOp) : V SdfAnnotation :=
  let* (target, increment, pct, ts) := op_transitions (op_pos op) (op_kind op) in
  ret (push a (op_pos op) target increment pct ts).

Definition apply : outcome Empty_set SdfAnnotation :=
  match fold_m apply_op (ops plan) empty_annotation [] with
  | Done (a, warnings) => Done (mkAnnotation (ann_ops a) (values a) warnings)
  | Fail e => Fail e
  | Panic w => Panic w
  | NoFuel => NoFuel
  end.

End Applying.
