(* ===== verification/ApplyFacts.v ===== *)
(** * Applying a plan is correct

    Ticks are the nearest multiples of the precision, half away from zero,
    whenever they fit; percentages are truncated and clamped; the packed
    values of an annotation are the transitions of the plan; and applying a
    well-formed plan never panics. *)

From Stdlib Require Import ZArith Lia Ascii String QArith Qpower Qround.
From stdpp Require Import base list strings.
From S2P Require Import Prelude Common Number NumberFacts Syntax Targets Total Plan Options Apply.
Open Scope Z_scope.
Open Scope list_scope.

(** ** Rounding *)

(** [z] is the integer nearest to [q]; halfway between two integers it is
    the one farther from zero. *)
Definition nearest_away (q : Q) (z : Z) : Prop :=
  (inject_Z z - (1 # 2) <= q <= inject_Z z + (1 # 2))%Q
  /\ ((q == inject_Z z - (1 # 2))%Q -> (0 < q)%Q)
  /\ ((q == inject_Z z + (1 # 2))%Q -> (q < 0)%Q).

#[export] Instance nearest_away_proper : Proper (Qeq ==> eq ==> iff) nearest_away.
Proof. intros a b E z _ <-. unfold nearest_away. by rewrite E. Qed.

Lemma nearest_away_frac m (D : positive) z :
  (2 * z - 1) * Zpos D <= 2 * m <= (2 * z + 1) * Zpos D ->
  (2 * m = (2 * z - 1) * Zpos D -> 0 < m) ->
  (2 * m = (2 * z + 1) * Zpos D -> m < 0) ->
  nearest_away (m # D) z.
Proof.
  intros B Lo Hi. unfold nearest_away, Qle, Qlt, Qeq. cbn -[Z.mul Z.add]. split_and!; nia.
Qed.

Lemma nearest_away_unique q z1 z2 : nearest_away q z1 -> nearest_away q z2 -> z1 = z2.
Proof.
  destruct q as [m D]. unfold nearest_away, Qle, Qlt, Qeq. cbn -[Z.mul Z.add].
  intros ([A1 A2] & A3 & A4) ([B1 B2] & B3 & B4).
  destruct (Z.lt_trichotomy z1 z2) as [L | [-> | L]]; [exfalso | done | exfalso]; nia.
Qed.

Lemma nearest_away_int z : nearest_away (inject_Z z) z.
Proof. apply nearest_away_frac; lia. Qed.

Lemma scaled_frac m k : 0 <= k -> (scaled m (- k) == m # Z.to_pos (10 ^ k))%Q.
Proof.
  intros Hk. assert (P : 0 < 10 ^ k) by (apply Z.pow_pos_nonneg; lia).
  apply (Qmult_inj_r _ _ (pow10 k)); [apply Qnot_eq_sym, Qlt_not_eq, pow10_pos |].
  unfold scaled. rewrite <- Qmult_assoc, <- pow10_add, (pow10_Z k) by done.
  replace (- k + k) with 0 by lia. change (pow10 0) with 1%Q. rewrite Qmult_1_r.
  unfold Qeq, inject_Z, Qmult. cbn [Qnum Qden]. rewrite Pos.mul_1_r, Z2Pos.id by done. lia.
Qed.

(** The mantissa of a product of two numbers is far below an [i128]. *)
Definition product_ok (m : Z) : Prop := Z.abs m < 10 ^ 36.

Lemma round_quotient_spec m D :
  0 < D -> product_ok m -> nearest_away (m # Z.to_pos D) (round_quotient m D).
Proof.
  intros HD Hm. unfold product_ok in Hm. unfold round_quotient.
  pose proof (Z.quot_rem m D ltac:(lia)) as E.
  assert (R : Z.abs (Z.rem m D) < D /\ (0 <= m -> 0 <= Z.rem m D) /\ (m <= 0 -> Z.rem m D <= 0)).
  { split_and!; [| intros; apply Z.rem_nonneg; lia | intros; apply Z.rem_nonpos; lia].
    pose proof (Z.rem_bound_abs m D ltac:(lia)). lia. }
  assert (L : Z.abs (Z.rem m D) <= Z.abs m) by (rewrite <- Z.rem_abs by lia; apply Z.rem_le; lia).
  unfold wrap_i128. rewrite wrap_s_small by lia.
  set (q := Z.quot m D) in *. set (r := Z.rem m D) in *.
  destruct (Z.geb_spec (Z.abs r * 2) D) as [G | G]; apply nearest_away_frac; rewrite Z2Pos.id by done;
    destruct (Z.lt_trichotomy m 0) as [Hs | [-> | Hs]]; rewrite ?(Z.sgn_neg m), ?(Z.sgn_pos m) by done;
    cbn [Z.sgn]; nia.
Qed.

(** ** Ticks *)

Lemma decimal_exponent_pow k : 0 <= k <= 19 -> decimal_exponent (10 ^ k) = Some k.
Proof.
  intros H. rewrite <- (Z2Nat.id k) by lia. assert (L : (Z.to_nat k < 20)%nat) by lia. clear H.
  generalize dependent (Z.to_nat k). clear k. intros k L.
  do 20 (destruct k as [| k]; [vm_compute; reflexivity |]). lia.
Qed.

Lemma checked_i128_spec z :
  (checked_i128 z = Some z /\ i128_min <= z <= i128_max)
  \/ (checked_i128 z = None /\ (z < i128_min \/ i128_max < z)).
Proof.
  unfold checked_i128.
  destruct (Z.leb_spec i128_min z), (Z.leb_spec z i128_max); cbn; intuition lia.
Qed.

Lemma try_i64_big z : 2 ^ 63 < Z.abs z -> try_i64 z = None.
Proof.
  intros H. unfold try_i64. destruct (Z.leb_spec i64_min z), (Z.leb_spec z i64_max); try done.
  unfold i64_min, i64_max in *. lia.
Qed.

(** [mantissa * 10^exponent] to the nearest unit; without a result the units
    are beyond an [i128]. *)
Lemma rounded_units_spec m e :
  product_ok m ->
  match rounded_units m e with
  | Some z => nearest_away (scaled m e) z
  | None => exists z, nearest_away (scaled m e) z /\ i128_max <= Z.abs z
  end.
Proof.
  intros Hm. unfold rounded_units. destruct (Z.eqb_spec m 0) as [-> | N].
  { rewrite scaled_0. apply (nearest_away_int 0). }
  destruct (Z.leb_spec 0 e) as [G | L].
  - assert (X : (scaled m e == inject_Z (m * 10 ^ e))%Q).
    { unfold scaled. by rewrite pow10_Z, inject_Z_mult. }
    assert (P : 0 < 10 ^ e) by (apply Z.pow_pos_nonneg; lia).
    unfold power_of_ten. destruct (checked_i128_spec (10 ^ e)) as [[-> B] | [-> B]].
    + destruct (checked_i128_spec (m * 10 ^ e)) as [[-> B2] | [-> B2]].
      * rewrite X. apply nearest_away_int.
      * exists (m * 10 ^ e). rewrite X. split; [apply nearest_away_int |].
        unfold i128_min, i128_max in *. lia.
    + exists (m * 10 ^ e). rewrite X. split; [apply nearest_away_int |].
      unfold i128_min, i128_max in *. nia.
  - assert (X : (scaled m e == m # Z.to_pos (10 ^ (- e)))%Q).
    { rewrite <- scaled_frac by lia. by rewrite Z.opp_involutive. }
    assert (P : 0 < 10 ^ (- e)) by (apply Z.pow_pos_nonneg; lia).
    unfold power_of_ten. destruct (checked_i128_spec (10 ^ (- e))) as [[-> B] | [-> B]].
    + rewrite X. by apply round_quotient_spec.
    + rewrite X. unfold product_ok in Hm. apply nearest_away_frac; rewrite Z2Pos.id by done;
        unfold i128_min, i128_max in *; lia.
Qed.

Lemma number_product n s : number_ok n -> number_ok s -> product_ok (mantissa n * mantissa s).
Proof. intros (_ & A & _) (_ & B & _). unfold product_ok. rewrite Z.abs_mul. nia. Qed.

(** The value of a number in SDF time units, in units of the precision. *)
Definition precision_units (timescale_fs : Z) (number factor : SdfNumber) (precision_fs : Z) : Q :=
  (to_Q number * to_Q factor * inject_Z timescale_fs / inject_Z precision_fs)%Q.

Lemma precision_units_scaled k p n s :
  0 <= k -> 0 <= p ->
  (precision_units (10 ^ k) n s (10 ^ p)
   == scaled (mantissa n * mantissa s) (exponent n + exponent s + k - p))%Q.
Proof.
  intros Hk Hp. unfold precision_units, to_Q, scaled.
  rewrite <- (pow10_Z k), <- (pow10_Z p), inject_Z_mult by done.
  replace (exponent n + exponent s + k - p) with (exponent n + exponent s + k + - p) by lia.
  rewrite !pow10_add. unfold Qdiv.
  assert (E : (pow10 (- p) == / pow10 p)%Q) by apply Qpower_opp.
  rewrite E. ring.
Qed.

Lemma exact_ticks_lemma k p dp n s :
  0 <= k <= 19 -> 0 <= p <= 19 -> 0 <= dp <= 10 ^ p -> number_ok n -> number_ok s ->
  exists z, nearest_away (precision_units (10 ^ k) n s (10 ^ p)) z
    /\ exact_ticks (10 ^ k) dp n s (10 ^ p) = try_i64 (z * (10 ^ p / Z.max dp 1)).
Proof.
  intros Hk Hp Hd On Os. unfold exact_ticks. rewrite !decimal_exponent_pow by done.
  pose proof (rounded_units_spec _ (exponent n + exponent s + k - p) (number_product _ _ On Os)) as R.
  assert (P : 0 < 10 ^ p) by (apply Z.pow_pos_nonneg; lia).
  assert (U : 1 <= 10 ^ p / Z.max dp 1) by (apply Z.div_le_lower_bound; lia).
  set (u := 10 ^ p / Z.max dp 1) in *.
  destruct (rounded_units _ _) as [z |].
  - exists z. split; [by rewrite precision_units_scaled by lia |].
    destruct (checked_i128_spec (z * u)) as [[-> B] | [-> B]]; [done |].
    symmetry. apply try_i64_big. unfold i128_min, i128_max in *. lia.
  - destruct R as (z & R & B). exists z. split; [by rewrite precision_units_scaled by lia |].
    symmetry. apply try_i64_big. rewrite Z.abs_mul. unfold i128_max in *. nia.
Qed.

(** ** Packing *)

Definition has {A} (o : option A) : bool := match o with Some _ => true | None => false end.

(** What the op gives a transition, per kind of value. *)
Definition t_delay (t : Transition) : option Z := t.1.
Definition t_reject (t : Transition) : option Z := match t.2 with Given r _ => r | Derive => None end.
Definition t_error (t : Transition) : option Z := match t.2 with Given _ e => e | Derive => None end.
Definition t_derive (t : Transition) : bool := match t with (Some _, Derive) => true | _ => false end.

(** The mask of a list of flags from bit [i] on. *)
Fixpoint mask_from (i : nat) (flags : list bool) : Z :=
  match flags with
  | [] => 0
  | true :: rest => Z.lor (bit i) (mask_from (Datatypes.S i) rest)
  | false :: rest => mask_from (Datatypes.S i) rest
  end.

Definition masks_of (ts : list Transition) : SdfMasks :=
  mkMasks (mask_from 0 (map (has ∘ t_delay) ts)) (mask_from 0 (map (has ∘ t_reject) ts))
    (mask_from 0 (map (has ∘ t_error) ts)) (mask_from 0 (map t_derive ts)).

(** The values of an op, in the order of [SdfMasks::value_count]. *)
Definition packed_values (ts : list Transition) : list Z :=
  omap t_delay ts ++ omap t_reject ts ++ omap t_error ts.

Lemma push_delays_spec i ts m vs :
  push_delays i ts m vs
  = (mkMasks (Z.lor (delay_mask m) (mask_from i (map (has ∘ t_delay) ts)))
       (reject_mask m) (error_mask m) (derive_mask m), vs ++ omap t_delay ts).
Proof.
  revert i m vs. induction ts as [| [[d |] l] ts IH]; intros i m vs; cbn.
  - rewrite Z.lor_0_r, app_nil_r. by destruct m.
  - rewrite IH. cbn. by rewrite Z.lor_assoc, <- app_assoc.
  - apply IH.
Qed.

Lemma push_limits_spec i ts m rs es :
  push_limits i ts m rs es
  = (mkMasks (delay_mask m) (Z.lor (reject_mask m) (mask_from i (map (has ∘ t_reject) ts)))
       (Z.lor (error_mask m) (mask_from i (map (has ∘ t_error) ts)))
       (Z.lor (derive_mask m) (mask_from i (map t_derive ts))),
     rs ++ omap t_reject ts, es ++ omap t_error ts).
Proof.
  revert i m rs es. induction ts as [| [[d |] [| [r |] [e |]]] ts IH]; intros i m rs es; cbn;
    rewrite ?IH; cbn; rewrite ?Z.lor_0_r, ?app_nil_r, ?Z.lor_assoc, <- ?app_assoc; try done.
  by destruct m.
Qed.

Lemma push_spec a pos target increment pct ts :
  push a pos target increment pct ts
  = let first := wrap_u32 (Z.of_nat (length (values a))) in
    if masks_is_empty (masks_of ts)
    then mkAnnotation (ann_ops a) (take (Z.to_nat first) (values a ++ omap t_delay ts)) (ann_warnings a)
    else mkAnnotation (ann_ops a ++ [mkAppliedOp pos target increment pct (masks_of ts) first])
           (values a ++ packed_values ts) (ann_warnings a).
Proof.
  unfold push. rewrite push_delays_spec, push_limits_spec. cbn -[wrap_u32].
  unfold masks_of, packed_values. by rewrite <- app_assoc.
Qed.

Lemma bit_testbit i j : Z.testbit (bit i) (Z.of_nat j) = bool_decide (i = j).
Proof.
  unfold bit. rewrite Z.shiftl_1_l, Z.pow2_bits_eqb by lia.
  destruct (Z.eqb_spec (Z.of_nat i) (Z.of_nat j)); symmetry; [apply bool_decide_eq_true | apply bool_decide_eq_false]; lia.
Qed.

Lemma mask_from_bit i flags j :
  Z.testbit (mask_from i flags) (Z.of_nat j) = (i <=? j)%nat && default false (flags !! (j - i)%nat).
Proof.
  revert i. induction flags as [| f flags IH]; intros i; cbn [mask_from].
  { by rewrite Z.bits_0, lookup_nil, andb_false_r. }
  assert (T : (Datatypes.S i <=? j)%nat && default false (flags !! (j - Datatypes.S i)%nat)
              = (i <=? j)%nat && negb (bool_decide (i = j)) && default false ((f :: flags) !! (j - i)%nat)).
  { destruct (decide (i = j)) as [-> | N].
    - rewrite bool_decide_eq_true_2 by done. cbn [negb]. rewrite andb_false_r.
      by replace (Datatypes.S j <=? j)%nat with false by (symmetry; apply Nat.leb_gt; lia).
    - rewrite bool_decide_eq_false_2 by done. rewrite andb_true_r.
      destruct (Nat.leb_spec i j), (Nat.leb_spec (Datatypes.S i) j); try lia; try done.
      by replace (j - i)%nat with (Datatypes.S (j - Datatypes.S i)) by lia. }
  destruct f; rewrite ?Z.lor_spec, ?bit_testbit, IH, T;
    destruct (decide (i = j)) as [-> | N]; rewrite ?bool_decide_eq_true_2, ?bool_decide_eq_false_2 by done;
    cbn; rewrite ?Nat.leb_refl, ?Nat.sub_diag, ?andb_true_r; try done.
Qed.

(** The set bits of a mask below bit [n]. *)
Definition rank (mask : Z) (n : nat) : nat :=
  length (List.filter (fun i => Z.testbit mask (Z.of_nat i)) (seq 0 n)).

(** The value a mask and its values hold for bit [i]. *)
Definition column (mask : Z) (vs : list Z) (i : nat) : option Z :=
  if Z.testbit mask (Z.of_nat i) then vs !! rank mask i else None.

Section Columns.
Variable f : Transition -> option Z.
Abbreviation mask ts := (mask_from 0 (map (has ∘ f) ts)).

Lemma column_bit ts i : Z.testbit (mask ts) (Z.of_nat i) = has (ts !! i ≫= f).
Proof.
  rewrite mask_from_bit, Nat.sub_0_r. cbn. rewrite list_lookup_fmap. by destruct (ts !! i).
Qed.

Lemma rank_mask ts n : rank (mask ts) n = length (omap f (take n ts)).
Proof.
  induction n as [| n IH]; [done |]. unfold rank in *.
  rewrite seq_S, List.filter_app, length_app, IH. cbn [Nat.add List.filter]. rewrite column_bit.
  destruct (ts !! n) as [t |] eqn:E; cbn.
  - rewrite (take_S_r _ _ _ E), omap_app, length_app. cbn. by destruct (f t).
  - apply lookup_ge_None in E. rewrite !take_ge by lia. cbn. lia.
Qed.

Lemma count_ones_mask ts : (length ts <= 16)%nat -> count_ones (mask ts) = length (omap f ts).
Proof. intros L. change (count_ones (mask ts)) with (rank (mask ts) 16). by rewrite rank_mask, take_ge. Qed.

(** Unpacking a column gives back what was packed. *)
Lemma column_packed ts post i : column (mask ts) (omap f ts ++ post) i = ts !! i ≫= f.
Proof.
  unfold column. rewrite column_bit. destruct (ts !! i) as [t |] eqn:E; [| done]. cbn.
  destruct (f t) as [x |] eqn:F; [| done]. cbn. rewrite rank_mask.
  assert (X : omap f ts = omap f (take i ts) ++ x :: omap f (drop (Datatypes.S i) ts)).
  { rewrite <- (take_drop_middle _ _ _ E) at 1. rewrite omap_app. cbn. by rewrite F. }
  rewrite X, <- app_assoc. cbn [app]. by apply list_lookup_middle.
Qed.

Lemma mask_zero ts : mask ts = 0 <-> Forall (fun t => f t = None) ts.
Proof.
  rewrite Forall_lookup. split.
  - intros Z0 i t E. pose proof (column_bit ts i) as B. rewrite Z0, Z.bits_0, E in B. cbn in B.
    by destruct (f t).
  - intros H. apply Z.bits_inj'. intros n Hn. rewrite <- (Z2Nat.id n), column_bit, Z.bits_0 by done.
    destruct (ts !! Z.to_nat n) eqn:E; [| done]. cbn. by rewrite (H _ _ E).
Qed.
End Columns.

(** Whether an op gives any transition a value. *)
Definition gives (ts : list Transition) : bool :=
  existsb (fun t => has (t_delay t) || has (t_reject t) || has (t_error t)) ts.

Lemma derive_mask_zero ts :
  Forall (fun t => t_delay t = None) ts -> mask_from 0 (map t_derive ts) = 0.
Proof.
  intros F. generalize 0%nat. induction F as [| [d l] ts H _ IH]; intros n; [done |].
  unfold t_delay in H. cbn in H. subst d. apply IH.
Qed.

Lemma masks_of_empty ts : masks_is_empty (masks_of ts) = negb (gives ts).
Proof.
  unfold masks_is_empty, gives. cbn [delay_mask reject_mask error_mask derive_mask masks_of].
  apply eq_true_iff_eq. rewrite Z.eqb_eq, !Z.lor_eq_0_iff, negb_true_iff, !mask_zero.
  rewrite <- not_true_iff_false, existsb_exists. split.
  - intros [[[D R] E] _] (t & I & H). apply list_elem_of_In in I. rewrite Forall_forall in D, R, E.
    by rewrite (D _ I), (R _ I), (E _ I) in H.
  - intros N.
    assert (F : Forall (fun t => t_delay t = None /\ t_reject t = None /\ t_error t = None) ts).
    { apply Forall_forall. intros t I. apply list_elem_of_In in I.
      destruct (t_delay t) eqn:E1, (t_reject t) eqn:E2, (t_error t) eqn:E3; try done;
        exfalso; apply N; exists t; (split; [done |]); by rewrite E1, E2, E3. }
    split_and!; [by eapply Forall_impl; [exact F |]; intros ? (? & ? & ?) .. |].
    apply derive_mask_zero. by eapply Forall_impl; [exact F |]; intros ? (? & ? & ?).
Qed.

Lemma omap_length {A B} (f : A -> option B) xs : (length (omap f xs) <= length xs)%nat.
Proof. induction xs as [| x xs IH]; cbn; [lia |]. destruct (f x); cbn; lia. Qed.

Lemma packed_values_length ts : (length (packed_values ts) <= 3 * length ts)%nat.
Proof.
  unfold packed_values. rewrite !length_app.
  pose proof (omap_length t_delay ts). pose proof (omap_length t_reject ts).
  pose proof (omap_length t_error ts). lia.
Qed.

(** One op of the plan valued: where it was, what it changes, whether the
    values are added, whether limits are percentages, and the transitions. *)
Definition Out : Type := (SdfPos * (SdfAppliedTarget * bool * bool * list Transition))%type.

Definition out_transitions (o : Out) : list Transition := o.2.2.

(** [op] stands for [o] in the annotation [a]: its values are in bounds, and
    the masks give every transition exactly the delay, the limits and the
    derivation of [o]. *)
Definition unpacks (a : SdfAnnotation) (op : SdfAppliedOp) (o : Out) : Prop :=
  let ts := out_transitions o in
  let m := masks op in
  (ap_pos op, (ap_target op, ap_increment op, ap_percent op)) = (o.1, o.2.1)
  /\ exists vs, (forall E S (s : S), values_of (E := E) a op s = Done (vs, s))
  /\ forall i,
       column (delay_mask m) vs i = ts !! i ≫= t_delay
       /\ column (reject_mask m) (drop (count_ones (delay_mask m)) vs) i = ts !! i ≫= t_reject
       /\ column (error_mask m) (drop (count_ones (delay_mask m) + count_ones (reject_mask m)) vs) i
          = ts !! i ≫= t_error
       /\ Z.testbit (derive_mask m) (Z.of_nat i) = default false (t_derive <$> ts !! i).

(** The form of an op right after it is pushed, kept by later pushes. *)
Definition packed (a : SdfAnnotation) (op : SdfAppliedOp) (o : Out) : Prop :=
  (length (out_transitions o) <= 12)%nat
  /\ exists pre post, values a = pre ++ packed_values (out_transitions o) ++ post
  /\ op = mkAppliedOp o.1 o.2.1.1.1 o.2.1.1.2 o.2.1.2 (masks_of (out_transitions o)) (Z.of_nat (length pre)).

Lemma packed_unpacks a op o : packed a op o -> unpacks a op o.
Proof.
  destruct o as [pos [[[tg inc] pct] ts]]. intros (L & pre & post & V & ->).
  unfold out_transitions in *. cbn [fst snd] in *.
  unfold unpacks, out_transitions. cbn [fst snd ap_pos ap_target ap_increment ap_percent masks]. split; [done |].
  assert (C : value_count (masks_of ts) = length (packed_values ts)).
  { unfold value_count, packed_values, masks_of. cbn [delay_mask reject_mask error_mask]. rewrite !count_ones_mask, !length_app by lia. lia. }
  exists (packed_values ts). split.
  - intros E S s. unfold values_of. cbn [first masks]. rewrite Nat2Z.id, C, V, !length_app.
    destruct (Nat.leb_spec (length pre + length (packed_values ts))
                (length pre + (length (packed_values ts) + length post))); [| lia].
    by rewrite drop_app_length, take_app_length.
  - intros i. unfold masks_of. cbn [delay_mask reject_mask error_mask derive_mask].
    rewrite !count_ones_mask by lia. unfold packed_values. split_and!.
    + apply column_packed.
    + rewrite drop_app_length. apply column_packed.
    + rewrite <- (app_nil_r (omap t_error ts)), app_assoc.
      rewrite drop_app_length' by (rewrite length_app; lia). apply column_packed.
    + rewrite mask_from_bit, Nat.sub_0_r. cbn. by rewrite list_lookup_fmap.
Qed.

(** ** Transitions *)

Lemma transition_sources_length n : length (transition_sources n) = 12%nat.
Proof. do 7 (destruct n as [| n]; [done |]). done. Qed.

Lemma expand_length vs : length (expand_transitions vs) = 12%nat.
Proof. destruct vs; [done |]. cbn [expand_transitions]. by rewrite length_map, transition_sources_length. Qed.

Lemma gate_delays_length vs off : length (gate_delays vs off) = 3%nat.
Proof. by destruct vs as [| ? [| ? [| ? ?]]]. Qed.

Section Reference.
Variable plan : SdfPlan.
Variable targets : SdfTargets.
Variable options : SdfCallOptions.
Variable dp : Z.

Abbreviation op_transitions := (op_transitions plan targets options dp).

Lemma op_transitions_length pos kind ws tg inc pct ts ws' :
  op_transitions pos kind ws = Done ((tg, inc, pct, ts), ws') -> (length ts <= 12)%nat.
Proof.
  assert (P : forall p d ws ts ws', path_transitions plan options dp p d.1 d.2 ws = Done (ts, ws') -> length ts = 12%nat).
  { intros p d ws0 ts0 ws1 H. apply bind_done in H as (vs & ws2 & _ & [= <- _]). apply expand_length. }
  destruct kind; cbn [Apply.op_transitions]; intros H; apply bind_done in H as (x & ws1 & _ & H).
  - apply bind_done in H as (y & ws2 & Hp & [= _ _ _ <- _]). by rewrite (P _ (_, _) _ _ _ Hp).
  - destruct x as [r e]. by injection H as <- <- <- <- <-.
  - apply bind_done in H as (y & ws2 & Hp & [= _ _ _ <- _]). by rewrite (P _ (_, _) _ _ _ Hp).
  - apply bind_done in H as (y & ws2 & Hp & [= _ _ _ <- _]). by rewrite (P _ (_, _) _ _ _ Hp).
  - apply bind_done in H as (y & ws2 & Hp & [= _ _ _ <- _]). by rewrite (P _ (_, _) _ _ _ Hp).
  - apply bind_done in H as (y & ws2 & Hp & [= _ _ _ <- _]). rewrite length_map, gate_delays_length. lia.
  - apply bind_done in H as (y & ws2 & Hp & [= _ _ _ <- _]). cbn. lia.
Qed.

(** The plan valued op by op, without packing. *)
Definition reference_op (outs : list Out) (op : SdfOp) : M Empty_set (list SdfWarning) (list Out) :=
  let* o := op_transitions (op_pos op) (op_kind op) in
  ret (outs ++ [(op_pos op, o)]).
Definition reference_outs : outcome Empty_set (list Out * list SdfWarning) :=
  fold_m reference_op (ops plan) [] [].

(** The ops of an annotation stand for the valued ops that give something. *)
Definition stands_for (a : SdfAnnotation) (outs : list Out) : Prop :=
  Forall2 (packed a) (ann_ops a) (List.filter (fun o => gives (out_transitions o)) outs).

Lemma packed_extends a a' op o vs :
  values a' = values a ++ vs -> packed a op o -> packed a' op o.
Proof.
  intros V (L & pre & post & V0 & E). split; [done |]. exists pre, (post ++ vs). split; [| done].
  by rewrite V, V0, <- !app_assoc.
Qed.

Lemma push_stands_for a outs pos tg inc pct ts :
  stands_for a outs -> Z.of_nat (length (values a)) < 2 ^ 32 -> (length ts <= 12)%nat ->
  stands_for (push a pos tg inc pct ts) (outs ++ [(pos, (tg, inc, pct, ts))])
  /\ (length (values (push a pos tg inc pct ts)) <= length (values a) + 36)%nat.
Proof.
  intros St B L. rewrite push_spec. cbv zeta. rewrite wrap_u32_small, Nat2Z.id by lia.
  rewrite masks_of_empty. unfold stands_for in *. rewrite List.filter_app. cbn [List.filter].
  change (out_transitions (pos, (tg, inc, pct, ts))) with ts. destruct (gives ts) eqn:G; cbn [negb].
  - cbn [ann_ops values]. split.
    + apply Forall2_app.
      * eapply Forall2_impl; [exact St |]. intros op o. by apply packed_extends with (packed_values ts).
      * constructor; [| constructor]. split; [done |]. exists (values a), []. by rewrite app_nil_r.
    + rewrite length_app. pose proof (packed_values_length ts). lia.
  - cbn [ann_ops values]. rewrite app_nil_r, take_app_length. split; [| lia].
    eapply Forall2_impl; [exact St |]. intros op o. apply packed_extends with []. cbn. by rewrite app_nil_r.
Qed.

Lemma apply_fold ops0 a outs ws :
  stands_for a outs -> Z.of_nat (length (values a)) + 36 * Z.of_nat (length ops0) < 2 ^ 32 ->
  match fold_m (apply_op plan targets options dp) ops0 a ws, fold_m reference_op ops0 outs ws with
  | Done (a', ws1), Done (outs', ws2) => ws1 = ws2 /\ stands_for a' outs'
  | Panic w1, Panic w2 => w1 = w2
  | NoFuel, NoFuel => True
  | _, _ => False
  end.
Proof.
  revert a outs ws. induction ops0 as [| op ops0 IH]; intros a outs ws St B; cbn [fold_m]; [done |].
  assert (Ea := eq_refl (apply_op plan targets options dp a op ws)).
  assert (Er := eq_refl (reference_op outs op ws)).
  unfold apply_op at 2, bind, ret in Ea. unfold reference_op at 2, bind, ret in Er.
  unfold bind. rewrite Ea, Er. clear Ea Er.
  destruct (op_transitions (op_pos op) (op_kind op) ws) as [[[[[tg inc] pct] ts] ws1] | [] | w |] eqn:E; [| done ..].
  apply op_transitions_length in E. cbn [length] in B. rewrite Nat2Z.inj_succ in B.
  edestruct (push_stands_for a outs (op_pos op) tg inc pct ts) as [St' L]; [done | lia | done |].
  apply IH; [done | lia].
Qed.

Lemma apply_reference :
  Z.of_nat (length (ops plan)) <= 2 ^ 26 ->
  match apply plan targets options dp, reference_outs with
  | Done a, Done (outs, ws) => ann_warnings a = ws
      /\ Forall2 (unpacks a) (ann_ops a) (List.filter (fun o => gives (out_transitions o)) outs)
  | Panic w1, Panic w2 => w1 = w2
  | NoFuel, NoFuel => True
  | _, _ => False
  end.
Proof.
  intros B. unfold apply, reference_outs.
  pose proof (apply_fold (ops plan) empty_annotation [] [] ltac:(constructor) ltac:(cbn; lia)) as H.
  destruct (fold_m (apply_op plan targets options dp) _ _ _) as [[a ws1] | [] | w |],
    (fold_m reference_op _ _ _) as [[outs ws2] | [] | w2 |]; try done.
  destruct H as [-> St]. split; [done |]. eapply Forall2_impl; [exact St |].
  intros op o P. apply packed_unpacks in P. exact P.
Qed.
End Reference.

(** ** Applying a well-formed plan returns *)

(** The member the tool selects is one of the three. *)
Definition options_ok (o : SdfCallOptions) : Prop := length (scale o) = 3%nat /\ (tool_member o <= 2)%nat.

Definition opt_i64 (o : option Z) : Prop := forall z, o = Some z -> in_i64 z.
Definition limits_i64 (l : Limits) : Prop :=
  match l with Derive => True | Given r e => opt_i64 r /\ opt_i64 e end.
Definition valued_i64 (v : Valued) : Prop := opt_i64 (v_delay v) /\ limits_i64 (v_limits v).
Definition transition_i64 (t : Transition) : Prop := opt_i64 t.1 /\ limits_i64 t.2.

Lemma opt_i64_none : opt_i64 None.
Proof. done. Qed.
Lemma opt_i64_some z : in_i64 z -> opt_i64 (Some z).
Proof. by intros H ? [= <-]. Qed.
#[local] Hint Resolve opt_i64_none opt_i64_some : runs.

Lemma try_i64_in z : opt_i64 (try_i64 z).
Proof.
  unfold try_i64. destruct (Z.leb_spec i64_min z), (Z.leb_spec z i64_max); cbn; auto with runs.
  apply opt_i64_some. by split.
Qed.

Lemma exact_ticks_in ts dp n s p : opt_i64 (exact_ticks ts dp n s p).
Proof. unfold exact_ticks. repeat case_match; auto using try_i64_in with runs. Qed.

Lemma percent_units_in n : opt_i64 (percent_units n).
Proof. unfold percent_units. repeat case_match; auto using try_i64_in with runs. Qed.

Section Total.
Context (options : SdfCallOptions) (Ok : options_ok options) (ts dp : Z).

Lemma select_runs {E S} v (s : S) : runs (E := E) (fun _ s' => s' = s) (select options v s).
Proof.
  destruct Ok as [L T]. unfold select. destruct (member v (source_member options)); [| done].
  eapply runs_bind; [apply (runs_index _ _ _ (fun _ s' => s' = s)) |].
  - unfold valid. rewrite Nat2Z.id, L. unfold selected_member. destruct (mtm options); lia.
  - done.
  - intros factor s' ->. by apply runs_ret.
Qed.

Lemma ticks_runs pos n f p ws : runs (fun z _ => in_i64 z) (ticks ts dp pos n f p ws).
Proof.
  unfold ticks. destruct (exact_ticks _ _ _ _ _) as [z |] eqn:E; cbn.
  - by eapply exact_ticks_in.
  - apply wrap_i64_in.
Qed.

Lemma tick_value_runs pos v p ws : runs (fun o _ => opt_i64 o) (tick_value options ts dp pos v p ws).
Proof.
  unfold tick_value. destruct v as [v |]; [| by apply opt_i64_none].
  eapply runs_bind; [apply select_runs |]. intros [[n f] |] ws' _; [| by apply opt_i64_none].
  eapply runs_bind; [apply ticks_runs |]. intros z ws'' Hz. by apply opt_i64_some.
Qed.

Lemma percent_runs v ws : runs (fun o _ => opt_i64 o) (percent options v ws).
Proof.
  unfold percent. destruct v as [v |]; [| by apply opt_i64_none].
  eapply runs_bind; [apply select_runs |]. intros [[n f] |] ws' _; [| by apply opt_i64_none].
  apply percent_units_in.
Qed.

Lemma delval_runs pos p d ws : runs (fun v _ => valued_i64 v) (delval options ts dp pos p d ws).
Proof.
  unfold delval. eapply runs_bind; [apply tick_value_runs |]. intros delay ws1 Hd.
  eapply (runs_bind (fun l _ => limits_i64 l)).
  - destruct (pulse d) as [| l]; [done |].
    eapply runs_bind; [apply tick_value_runs |]. intros r ws2 Hr.
    eapply runs_bind; [apply tick_value_runs |]. intros e ws3 He. by split.
  - intros l ws2 Hl. by split.
Qed.

Lemma delvals_runs pos l p ws : runs (fun vs _ => Forall valued_i64 vs) (delvals options ts dp pos l p ws).
Proof.
  apply runs_fold; [constructor |]. intros d vs ws' _ Hv.
  eapply runs_bind; [apply delval_runs |]. intros v ws2 H. apply Forall_app_2; [done | by constructor].
Qed.
End Total.

Lemma value_at_i64 vs i : Forall valued_i64 vs -> valued_i64 (value_at vs i).
Proof.
  intros F. unfold value_at. destruct (vs !! i) eqn:E; cbn; [| by split].
  by eapply Forall_lookup_1.
Qed.

Lemma source_transition_i64 vs src :
  Forall valued_i64 vs -> transition_i64 (source_transition (value_at vs) src).
Proof.
  intros F. destruct src; cbn -[value_at]; repeat case_match; try (by split);
    match goal with |- transition_i64 (v_delay ?v, v_limits ?v) => change (valued_i64 v) end;
    repeat case_match; by apply value_at_i64.
Qed.

Lemma expand_i64 vs : Forall valued_i64 vs -> Forall transition_i64 (expand_transitions vs).
Proof.
  intros F. destruct vs as [| v vs]; [repeat (apply Forall_cons_2; [by split |]); by apply Forall_nil |].
  cbn [expand_transitions]. apply Forall_map, Forall_true. intros src. by apply source_transition_i64.
Qed.

Lemma quot2_i64 z : in_i64 z -> in_i64 (Z.quot z 2).
Proof. unfold in_i64, i64_min, i64_max. intros H. pose proof (Z.quot_rem z 2 ltac:(lia)). pose proof (Z.rem_bound_abs z 2 ltac:(lia)). lia. Qed.

Lemma gate_i64 vs off : Forall valued_i64 vs -> Forall opt_i64 (gate_delays vs off).
Proof.
  intros F. unfold gate_delays.
  assert (A : forall i, opt_i64 (match vs !! i with Some v => v_delay v | None => None end)).
  { intros i. destruct (vs !! i) eqn:E; [| done]. by apply (Forall_lookup_1 _ _ _ _ F E). }
  destruct vs as [| a [| b [| c vs]]]; repeat apply Forall_cons_2; try apply Forall_nil; try apply A; try done.
  pose proof (A 0%nat) as A0. pose proof (A 1%nat) as A1. cbn in *.
  destruct (v_delay a) as [x |], (v_delay b) as [y |]; try done. apply opt_i64_some.
  specialize (A0 x eq_refl). specialize (A1 y eq_refl). unfold in_i64 in *.
  destruct off; try lia. apply quot2_i64, wrap_i64_in.
Qed.

Section Apply_total.
Context (plan : SdfPlan) (t : SdfTargets) (options : SdfCallOptions) (dp : Z).
Context (Op : options_ok options) (Pl : plan_ok t plan).

Lemma precision_runs sc ws : valid (scopes t) sc -> runs (fun _ _ => True) (precision t sc ws).
Proof. intros V. eapply runs_bind; [by apply (runs_index _ _ _ (fun _ _ => True)) |]. done. Qed.

Lemma op_delvals_runs pos d p ws :
  valid (delay_lists plan) (list_of d) -> runs (fun vs _ => Forall valued_i64 vs) (op_delvals plan options dp pos d p ws).
Proof.
  intros V. eapply runs_bind; [by apply (runs_index _ _ _ (fun _ _ => True)) |].
  intros l ws' _. by apply delvals_runs.
Qed.

Lemma path_transitions_runs pos d p ws :
  valid (delay_lists plan) (list_of d) -> runs (fun ts _ => Forall transition_i64 ts) (path_transitions plan options dp pos d p ws).
Proof.
  intros V. eapply runs_bind; [by apply op_delvals_runs |]. intros vs ws' F. by apply expand_i64.
Qed.

Lemma pulse_limits_runs pos sc p ws :
  valid (scopes t) sc -> runs (fun re _ => opt_i64 re.1 /\ opt_i64 re.2) (pulse_limits plan t options dp pos sc p ws).
Proof.
  intros V. unfold pulse_limits. destruct (percent_of p).
  - eapply runs_bind; [by apply percent_runs |]. intros r ws1 Hr.
    eapply runs_bind; [by apply percent_runs |]. intros e ws2 He. by split.
  - eapply runs_bind; [by apply precision_runs |]. intros pr ws0 _.
    eapply runs_bind; [by apply tick_value_runs |]. intros r ws1 Hr.
    eapply runs_bind; [by apply tick_value_runs |]. intros e ws2 He. by split.
Qed.

Lemma path_scope_valid sc path input output : path_ok t sc path input output -> valid (scopes t) sc.
Proof. intros (s & _ & E & _). by eapply lookup_valid. Qed.
Lemma port_scope_valid p : port_ok t p -> valid (scopes t) (pt_scope p).
Proof. intros (s & E & _). by eapply lookup_valid. Qed.

Lemma op_transitions_runs pos kind ws :
  op_ok t (delay_lists plan) kind ->
  runs (fun o _ => Forall transition_i64 o.2) (op_transitions plan t options dp pos kind ws).
Proof.
  assert (Path : forall sc (d : SdfDelayOp) f ws, valid (scopes t) sc -> valid (delay_lists plan) (list_of d) ->
    runs (fun o _ => Forall transition_i64 o.2)
      ((let* p := precision t sc in
        let* ts := path_transitions plan options dp pos d p in
        ret ((f : SdfAppliedTarget), is_increment d, false, ts)) ws)).
  { intros sc d f ws0 Vs Vd. eapply runs_bind; [by apply precision_runs |]. intros p ws1 _.
    eapply runs_bind; [by apply path_transitions_runs |]. intros ts ws2 F. exact F. }
  destruct kind; cbn [op_ok op_transitions]; intros H.
  - apply Path; [eapply path_scope_valid; apply H | tauto].
  - eapply runs_bind; [apply pulse_limits_runs; eapply path_scope_valid; apply H |].
    intros [r e] ws1 [Hr He]. assert (T : transition_i64 (None, Given r e)) by (split; [done | by split]).
    cbn. repeat (apply Forall_cons_2; [exact T |]). by apply Forall_nil.
  - apply Path; [apply port_scope_valid; tauto | tauto].
  - apply Path; [apply port_scope_valid; tauto | tauto].
  - apply Path; [apply port_scope_valid; tauto | tauto].
  - destruct H as [Vs Vd]. eapply runs_bind; [by apply precision_runs |]. intros p ws1 _.
    eapply runs_bind; [by apply op_delvals_runs |]. intros vs ws2 F. cbn.
    apply Forall_map. eapply Forall_impl; [by apply gate_i64 |]. intros o Ho. split; [done | by split].
  - destruct H as [(s & Es & _) _].
    eapply runs_bind; [apply precision_runs; by eapply lookup_valid |]. intros p ws1 _.
    eapply runs_bind; [by apply tick_value_runs |]. intros z ws2 Hz. apply Forall_singleton. split; [done | by split].
Qed.

Lemma reference_outs_runs :
  runs (fun outs _ => Forall (fun o : Out => Forall transition_i64 (out_transitions o)) outs)
    (reference_outs plan t options dp).
Proof.
  destruct Pl as [Po _]. apply runs_fold; [constructor |]. intros op outs ws I F.
  eapply runs_bind; [apply op_transitions_runs; by eapply Forall_forall in Po |].
  intros o ws' Fo. cbn. apply Forall_app_2; [done | by constructor].
Qed.
End Apply_total.

(** ** Theorems *)

(** C9: applying a well-formed plan returns an annotation, for any options
    that select one of three members: no index is out of bounds. The ops of
    the annotation stand, in file order, for the ops of the plan that give
    some transition a value: unpacking the masks and the shared value array
    gives back exactly the delays, the limits and the derived limits of each
    transition, all of them [i64]s, and the 32-bit offsets do not wrap for
    the largest plan the reader accepts. *)
Theorem apply_refines (plan : SdfPlan) (t : SdfTargets) (options : SdfCallOptions) (dp : Z) :
  options_ok options -> plan_ok t plan ->
  Z.of_nat (length (ops plan)) <= max_plan_ops default_limits ->
  exists a outs,
    apply plan t options dp = Done a
    /\ reference_outs plan t options dp = Done (outs, ann_warnings a)
    /\ Forall2 (unpacks a) (ann_ops a) (List.filter (fun o => gives (out_transitions o)) outs)
    /\ Forall (fun o => Forall transition_i64 (out_transitions o)) outs.
Proof.
  intros Oo Po B. pose proof (apply_reference plan t options dp B) as R.
  pose proof (reference_outs_runs plan t options dp Oo Po) as T.
  destruct (reference_outs plan t options dp) as [[outs ws] | [] | |]; [| done ..].
  destruct (apply plan t options dp) as [a | [] | |]; try done. destruct R as [<- F].
  exists a, outs. done.
Qed.

(** The femtoseconds of an SDF time unit are a power of ten. *)
Definition timescale_ok (ts : SdfTimescale) : Prop := multiplier ts ∈ [1; 10; 100].

Lemma femtoseconds_pow ts : timescale_ok ts -> exists k, 0 <= k <= 19 /\ femtoseconds ts = 10 ^ k.
Proof.
  unfold timescale_ok. destruct ts as [m u]. cbn. intros H.
  rewrite !elem_of_cons, elem_of_nil in H. unfold femtoseconds. cbn.
  destruct H as [-> | [-> | [-> | []]]], u; cbn.
  all: match goal with |- exists k, _ /\ ?z = _ =>
         let k := eval vm_compute in (Z.of_nat (length (dec_bytes z)) - 1) in exists k; by split end.
Qed.

(** A value becomes the ticks nearest to it. For any TIMESCALE of a file,
    a design precision and a module precision that are powers of ten (or a
    module precision of 0, which stands for the design's), the value of a
    number and its scale factor is rounded once, to the nearest multiple of
    the module's precision and half away from zero, and stored in design
    ticks without a warning if it fits an [i64]; otherwise it is one
    precision unit, with a warning. *)
Theorem ticks_nearest (ts : SdfTimescale) (d p : Z) (coarse : bool) (pos : SdfPos) (n f : SdfNumber)
  (ws : list SdfWarning) :
  timescale_ok ts -> 0 <= d <= 17 -> 0 <= p <= 17 -> number_ok n -> number_ok f ->
  let precision := if coarse then 10 ^ p else 0 in
  let used := Z.max precision (10 ^ d) in
  exists z, nearest_away (precision_units (femtoseconds ts) n f used) z
    /\ ticks (femtoseconds ts) (10 ^ d) pos n f precision ws
       = match try_i64 (z * (used / 10 ^ d)) with
         | Some t => Done (t, ws)
         | None => Done (used / 10 ^ d, ws ++ [mkWarning pos
             (cat ["the value "; fmt_number n;
                   " is out of the simulation time range; it is annotated as one precision unit"]%string)])
         end.
Proof.
  intros Ht Hd Hp On Of precision used. destruct (femtoseconds_pow ts Ht) as (k & Hk & ->).
  assert (U : exists q, 0 <= q <= 17 /\ d <= q /\ used = 10 ^ q).
  { assert (0 < 10 ^ d) by (apply Z.pow_pos_nonneg; lia). subst used precision. destruct coarse.
    - destruct (Z.le_ge_cases d p).
      + exists p. split_and!; try lia. apply Z.max_l. by apply Z.pow_le_mono_r.
      + exists d. split_and!; try lia. apply Z.max_r. by apply Z.pow_le_mono_r.
    - exists d. split_and!; try lia. }
  destruct U as (q & Hq & Hdq & Eu).
  assert (P : 0 < 10 ^ d) by (apply Z.pow_pos_nonneg; lia).
  assert (Le : 10 ^ d <= 10 ^ q) by (apply Z.pow_le_mono_r; lia).
  destruct (exact_ticks_lemma k q (10 ^ d) n f Hk ltac:(lia) ltac:(lia) On Of) as (z & Nz & Ez).
  exists z. rewrite Eu. split; [done |]. unfold ticks. fold used. rewrite Eu, Ez.
  rewrite (Z.max_l (10 ^ d) 1) by lia. destruct (try_i64 (z * (10 ^ q / 10 ^ d))); [reflexivity |].
  unfold bind, modify, ret. rewrite wrap_i64_small; [reflexivity |].
  assert (10 ^ q / 10 ^ d <= 10 ^ 17).
  { transitivity (10 ^ q); [| apply Z.pow_le_mono_r; lia]. apply Z.div_le_upper_bound; nia. }
  assert (0 <= 10 ^ q / 10 ^ d) by (apply Z.div_pos; lia).
  unfold in_i64, i64_min, i64_max. lia.
Qed.

Lemma Qfloor_scaled_up m e : 0 <= e -> Qfloor (scaled m e) = m * 10 ^ e.
Proof. intros H. unfold scaled. rewrite pow10_Z, <- inject_Z_mult by done. apply Qfloor_Z. Qed.

Lemma Qfloor_scaled_down m k : 0 <= k -> Qfloor (scaled m (- k)) = m / 10 ^ k.
Proof.
  intros H. rewrite scaled_frac by done. cbn [Qfloor].
  rewrite Z2Pos.id by (apply Z.pow_pos_nonneg; lia). done.
Qed.

(** Truncation and flooring agree once negative values are clamped to 0. *)
Lemma clamp_quot m D : 0 < D -> Z.max 0 (Z.min (Z.quot m D) 100000000) = Z.max 0 (Z.min (m / D) 100000000).
Proof.
  intros HD. destruct (Z.le_gt_cases 0 m) as [P | N]; [by rewrite Z.quot_div_nonneg by lia |].
  assert (Z.quot m D <= 0) by (pose proof (Z.quot_le_upper_bound m D 0 ltac:(lia)); lia).
  assert (m / D <= 0) by (apply Z.div_le_upper_bound; lia). lia.
Qed.

(** A PATHPULSEPERCENT value is stored in millionths of a percent,
    rounded down and clamped to the range from 0 to 100 percent. Only a value
    whose millionths are beyond an [i128] is left out. *)
Theorem percent_units_spec (n : SdfNumber) :
  number_ok n ->
  match percent_units n with
  | Some p => p = Z.max 0 (Z.min (Qfloor (to_Q n * inject_Z (10 ^ 6))) (100 * 10 ^ 6))
  | None => i128_max < Z.abs (Qfloor (to_Q n * inject_Z (10 ^ 6)))
  end.
Proof.
  intros (Nm & M & _).
  assert (E : Qfloor (to_Q n * inject_Z (10 ^ 6)) = Qfloor (scaled (mantissa n) (exponent n + 6))).
  { apply Qfloor_comp. unfold to_Q, scaled. rewrite pow10_add, (pow10_Z 6) by done. ring. }
  rewrite E. clear E. unfold percent_units.
  assert (T : forall z, try_i64 (Z.max 0 (Z.min z 100000000)) = Some (Z.max 0 (Z.min z (100 * 10 ^ 6)))).
  { intros z. unfold try_i64. change (100 * 10 ^ 6) with 100000000. set (c := Z.max 0 (Z.min z 100000000)).
    assert (0 <= c <= 100000000) by (subst c; lia).
    destruct (Z.leb_spec i64_min c), (Z.leb_spec c i64_max); try done; unfold i64_min, i64_max in *; lia. }
  destruct (Z.leb_spec 0 (exponent n + 6)) as [G | L].
  - rewrite Qfloor_scaled_up by done. unfold power_of_ten.
    assert (P : 0 < 10 ^ (exponent n + 6)) by (apply Z.pow_pos_nonneg; lia).
    destruct (checked_i128_spec (10 ^ (exponent n + 6))) as [[-> B] | [-> B]].
    + destruct (checked_i128_spec (mantissa n * 10 ^ (exponent n + 6))) as [[-> B2] | [-> B2]]; [by rewrite T |].
      unfold i128_min, i128_max in *. lia.
    + assert (N0 : mantissa n <> 0).
      { intros Z0. destruct Nm as [-> | Nm]; [| by rewrite Z0 in Nm]. cbn in B. unfold i128_min, i128_max in B. lia. }
      unfold i128_min, i128_max in *. nia.
  - assert (P : 0 < 10 ^ (- (exponent n + 6))) by (apply Z.pow_pos_nonneg; lia).
    assert (F : Qfloor (scaled (mantissa n) (exponent n + 6)) = mantissa n / 10 ^ (- (exponent n + 6))).
    { rewrite <- Qfloor_scaled_down by lia. by rewrite Z.opp_involutive. }
    rewrite F, T. change (100 * 10 ^ 6) with 100000000. unfold power_of_ten.
    destruct (checked_i128_spec (10 ^ (- (exponent n + 6)))) as [[-> B] | [-> B]]; cbn [default].
    + by apply clamp_quot.
    + rewrite clamp_quot by done. unfold i128_min, i128_max in *.
      destruct (Z.le_gt_cases 0 (mantissa n)); [rewrite !Z.div_small by lia; done |].
      assert (mantissa n / 10 ^ (- (exponent n + 6)) <= 0) by (apply Z.div_le_upper_bound; lia).
      assert (mantissa n / (2 ^ 127 - 1) <= 0) by (apply Z.div_le_upper_bound; lia). lia.
Qed.

(** The pair of values a min or max source takes. *)
Lemma pick_min x y a b :
  v_delay a = Some x -> v_delay b = Some y ->
  v_delay (if x <=? y then a else b) = Some (Z.min x y).
Proof. intros Ha Hb. destruct (Z.leb_spec x y); rewrite ?Ha, ?Hb; f_equal; lia. Qed.

Lemma pick_max x y a b :
  v_delay a = Some x -> v_delay b = Some y ->
  v_delay (if x >=? y then a else b) = Some (Z.max x y).
Proof. intros Ha Hb. destruct (Z.geb_spec x y); rewrite ?Ha, ?Hb; f_equal; lia. Qed.

(** The delay of a source when both of its values have one. *)
Lemma source_delay at_ src (d : nat -> Z) :
  (forall i, match src with Value j => i = j | Min a b | Max a b => i = a \/ i = b end ->
     v_delay (at_ i) = Some (d i)) ->
  (source_transition at_ src).1
  = Some (match src with Value i => d i | Min a b => Z.min (d a) (d b) | Max a b => Z.max (d a) (d b) end).
Proof.
  intros H. destruct src as [i | a b | a b]; cbn.
  - by rewrite H.
  - rewrite (H a), (H b) by auto. apply pick_min; apply H; auto.
  - rewrite (H a), (H b) by auto. apply pick_max; apply H; auto.
Qed.

(** The transitions to and from x of Table 32-4 are the pessimistic ones
    of 30.5.2, for delay lists of 1, 2, 3 and 6 values: with every value
    given, all twelve transitions have a delay, a transition to x takes the
    smaller delay of the transitions that leave the same value, and a
    transition from x the larger delay of those that reach the same value. *)
Theorem expand_pessimistic (vs : list Valued) :
  length vs ∈ [1; 2; 3; 6]%nat -> Forall (fun v => v_delay v <> None) vs ->
  exists d : nat -> Z,
    (forall i, (i < TRANSITIONS)%nat -> fst <$> (expand_transitions vs !! i) = Some (Some (d i)))
    /\ d 6%nat = Z.min (d 0%nat) (d 2%nat) /\ d 7%nat = Z.max (d 0%nat) (d 3%nat)
    /\ d 8%nat = Z.min (d 1%nat) (d 4%nat) /\ d 9%nat = Z.max (d 1%nat) (d 5%nat)
    /\ d 10%nat = Z.max (d 2%nat) (d 4%nat) /\ d 11%nat = Z.min (d 3%nat) (d 5%nat).
Proof.
  intros L F.
  set (x := fun i => default 0 (v_delay (value_at vs i))).
  assert (X : forall i, (i < length vs)%nat -> v_delay (value_at vs i) = Some (x i)).
  { intros i Hi. subst x. cbn. unfold value_at. destruct (lookup_lt_is_Some_2 vs i Hi) as [v Ev].
    rewrite Ev. cbn. apply (Forall_lookup_1 _ _ _ _ F) in Ev. by destruct (v_delay v). }
  set (value src := match src with Value i => x i | Min a b => Z.min (x a) (x b) | Max a b => Z.max (x a) (x b) end).
  exists (fun i => value (default (Value 0) (transition_sources (expanded_count (length vs)) !! i))).
  assert (N : vs <> []) by (intros ->; cbn in L; rewrite !elem_of_cons, elem_of_nil in L; lia).
  assert (Ex : expand_transitions vs
               = map (source_transition (value_at vs)) (transition_sources (expanded_count (length vs)))) by by destruct vs.
  rewrite Ex. clear Ex N F.
  assert (In : forall src, src ∈ transition_sources (expanded_count (length vs)) ->
    (source_transition (value_at vs) src).1 = Some (value src)).
  { intros src I. apply source_delay. intros i Hi. apply X. clearbody x. clear - L I Hi.
    rewrite !elem_of_cons, elem_of_nil in L.
    destruct L as [E | [E | [E | [E | []]]]]; rewrite E in *; cbn in I;
      rewrite !elem_of_cons, elem_of_nil in I;
      repeat (destruct I as [-> | I]; [lia |]); done. }
  split.
  - intros i Hi. rewrite list_lookup_fmap.
    destruct (lookup_lt_is_Some_2 (transition_sources (expanded_count (length vs))) i) as [src Es].
    { by rewrite transition_sources_length. }
    rewrite Es. cbn. by rewrite In by (by eapply list_elem_of_lookup_2).
  - clear - L. clearbody x. rewrite !elem_of_cons, elem_of_nil in L.
    destruct L as [E | [E | [E | [E | []]]]]; rewrite E; cbn; lia.
Qed.

(** The average turn-off delay of a gate is the average of rise and fall
    as long as their sum fits an [i64]; for two delays whose sum does not fit,
    the sum wraps and the turn-off delay is negative. *)
Theorem gate_average (rise fall : Valued) (x y : Z) :
  v_delay rise = Some x -> v_delay fall = Some y -> 0 <= x <= i64_max -> 0 <= y <= i64_max ->
  exists off, gate_delays [rise; fall] TurnoffAverage = [Some x; Some y; Some off]
    /\ (x + y <= i64_max -> off = (x + y) / 2)
    /\ (i64_max < x + y -> off < 0).
Proof.
  intros Hr Hf Bx By. cbn. rewrite Hr, Hf. eexists. split; [done |]. split.
  - intros S. rewrite wrap_i64_small by (unfold in_i64, i64_min, i64_max in *; lia).
    rewrite Z.quot_div_nonneg by lia. done.
  - intros S. unfold wrap_i64, wrap_s, i64_max in *. change (64 - 1) with 63.
    replace ((x + y + 2 ^ 63) mod 2 ^ 64) with (x + y + 2 ^ 63 - 2 ^ 64) by (apply (Z.mod_unique _ _ 1); lia).
    assert (N : x + y + 2 ^ 63 - 2 ^ 64 - 2 ^ 63 <= -2) by lia. revert N. generalize (x + y + 2 ^ 63 - 2 ^ 64 - 2 ^ 63).
    intros z N. pose proof (Z.quot_rem z 2 ltac:(lia)). pose proof (Z.rem_bound_abs z 2 ltac:(lia)). lia.
Qed.

Lemma value_at_in vs i d : v_delay (value_at vs i) = Some d -> value_at vs i ∈ vs.
Proof.
  unfold value_at. destruct (vs !! i) as [v |] eqn:E; cbn; [| done]. intros _. by eapply list_elem_of_lookup_2.
Qed.

(** A delay list invents nothing: a transition that gets a delay gets it,
    together with its pulse limits, from one value of the list, for lists of
    any length and with missing values. *)
Theorem expand_provenance (vs : list Valued) (i : nat) (d : Z) (l : Limits) :
  expand_transitions vs !! i = Some (Some d, l) ->
  exists v, v ∈ vs /\ v_delay v = Some d /\ v_limits v = l.
Proof.
  assert (H : forall src, source_transition (value_at vs) src = (Some d, l) ->
    exists v, v ∈ vs /\ v_delay v = Some d /\ v_limits v = l).
  { assert (K : forall j, (v_delay (value_at vs j), v_limits (value_at vs j)) = (Some d, l) ->
      exists v, v ∈ vs /\ v_delay v = Some d /\ v_limits v = l).
    { intros j [= E1 E2]. exists (value_at vs j). split; [by eapply value_at_in | done]. }
    intros [j | a b | a b]; cbn -[value_at]; intros E; repeat case_match; try done; by eapply K. }
  destruct vs as [| v vs]; [intros E; do 12 (destruct i as [| i]; [done |]); done |].
  cbn [expand_transitions]. rewrite list_lookup_fmap.
  destruct (transition_sources _ !! i) as [src |]; [| done]. intros [= E]. by eapply H.
Qed.

(** ** Witnesses *)

(** A module with one specify path and one check, and a plan with an IOPATH
    of three values and a check limit. *)
Definition small_targets : SdfTargets :=
  mkTargets
    [mkScope "top" None None [] ScopeModule "cell" []
       [mkTargetPath "a.v:1:1" [mkTerminal "a" None] [mkTerminal "y" None] TENone TCNone []]
       [mkTargetCheck "a.v:2:1" KWidth (mkCheckEvent (mkTerminal "a" None) 0 TCNone) None TCNone TCNone [] false]
       (10 ^ 3) [] []] [0].

Definition small_plan : SdfPlan :=
  mkPlan V3_0 default_timescale 0
    [mkOp (mkPos 1 1) (PathDelay 0 0 0 0 (mkDelayOp Absolute 0));
     mkOp (mkPos 2 1) (CheckLimit 0 0 First (Single (mkNumber 25 (-4))))]
    [[mkDelval (Some (Single (mkNumber 15 (-1)))) Unspecified; mkDelval None Unspecified;
      mkDelval (Some (Triple None (Some (mkNumber 2 0)) None))
        (Syntax.Limits (mkPulseLimits (Some (Single (mkNumber 1 0))) None))]] [].

Lemma small_number m e : Z.rem m 10 <> 0 -> Z.abs m < 10 ^ 18 -> Z.abs e <= MAX_DECIMAL_EXPONENT -> number_ok (mkNumber m e).
Proof. intros A B C. split; [by right | done]. Qed.

Lemma single_ok n : number_ok n -> value_numbers_ok (Single n).
Proof. by intros H i x [= <-]. Qed.

Lemma small_plan_ok : plan_ok small_targets small_plan.
Proof.
  assert (N1 : number_ok (mkNumber 15 (-1))) by (apply small_number; vm_compute; congruence).
  assert (N2 : number_ok (mkNumber 2 0)) by (apply small_number; vm_compute; congruence).
  assert (N3 : number_ok (mkNumber 1 0)) by (apply small_number; vm_compute; congruence).
  assert (N4 : number_ok (mkNumber 25 (-4))) by (apply small_number; vm_compute; congruence).
  split.
  - constructor; [| constructor; [| constructor]]; cbn.
    + split; [| unfold valid; cbn; lia]. eexists _, _. split_and!; [done | done | unfold valid; cbn; lia ..].
    + split; [| by apply single_ok]. eexists. split; [done | unfold valid; cbn; lia].
  - constructor; [| constructor].
    constructor; [| constructor; [| constructor; [| constructor]]]; split; cbn; try done.
    + intros x [= <-]. by apply single_ok.
    + intros x [= <-] [| [| [| i]]] n; cbn; try done. by intros [= <-].
    + split; [| done]. intros x [= <-]. by apply single_ok.
Qed.

Lemma apply_refines_witness :
  exists a outs,
    apply small_plan small_targets default_options 1000 = Done a
    /\ reference_outs small_plan small_targets default_options 1000 = Done (outs, ann_warnings a)
    /\ values a = [1500; 2000; 1500; 2000; 1500; 1500; 2000; 1000; 1000; 1000; 3].
Proof.
  destruct (apply_refines small_plan small_targets default_options 1000) as (a & outs & E & R & _).
  - split; [done | cbn; lia].
  - apply small_plan_ok.
  - vm_compute. congruence.
  - exists a, outs. split; [exact E |]. split; [exact R |]. vm_compute in E. injection E as <-. reflexivity.
Defined.

(** 2.5 precision units round to 3. *)
Lemma ticks_nearest_witness :
  exists z, nearest_away (precision_units (femtoseconds default_timescale) (mkNumber 25 (-4)) (mkNumber 1 0) 1000) z
    /\ ticks (femtoseconds default_timescale) (10 ^ 3) (mkPos 1 1) (mkNumber 25 (-4)) (mkNumber 1 0) 0 [] = Done (3, []).
Proof.
  destruct (ticks_nearest default_timescale 3 3 false (mkPos 1 1) (mkNumber 25 (-4)) (mkNumber 1 0) []) as (z & N & _).
  - by left.
  - lia.
  - lia.
  - apply small_number; vm_compute; congruence.
  - apply small_number; vm_compute; congruence.
  - exists z. split; [exact N | vm_compute; reflexivity].
Defined.

Lemma percent_units_spec_witness :
  percent_units (mkNumber 125 (-1)) = Some 12500000
  /\ 12500000 = Z.max 0 (Z.min (Qfloor (to_Q (mkNumber 125 (-1)) * inject_Z (10 ^ 6))) (100 * 10 ^ 6)).
Proof.
  split; [vm_compute; reflexivity |].
  apply (percent_units_spec (mkNumber 125 (-1))). apply small_number; vm_compute; congruence.
Defined.

Lemma expand_pessimistic_witness :
  let vs := [mkValued (Some 5) Derive; mkValued (Some 7) Derive; mkValued (Some 3) Derive] in
  exists d : nat -> Z,
    (forall i, (i < TRANSITIONS)%nat -> fst <$> (expand_transitions vs !! i) = Some (Some (d i)))
    /\ d 6%nat = Z.min (d 0%nat) (d 2%nat).
Proof.
  intros vs. destruct (expand_pessimistic vs) as (d & H & H6 & _).
  - cbn. rewrite !elem_of_cons. auto.
  - repeat constructor; discriminate.
  - exists d. split; [exact H | exact H6].
Defined.

Lemma gate_average_witness :
  exists off, gate_delays [mkValued (Some (2 ^ 62)) Derive; mkValued (Some (2 ^ 62)) Derive] TurnoffAverage
              = [Some (2 ^ 62); Some (2 ^ 62); Some off] /\ off < 0.
Proof.
  destruct (gate_average (mkValued (Some (2 ^ 62)) Derive) (mkValued (Some (2 ^ 62)) Derive) (2 ^ 62) (2 ^ 62))
    as (off & E & _ & N); [reflexivity | reflexivity | unfold i64_max; lia | unfold i64_max; lia |].
  exists off. split; [exact E | apply N; unfold i64_max; lia].
Defined.

Lemma expand_provenance_witness :
  let vs := [mkValued (Some 5) (Given (Some 1) None); mkValued (Some 7) Derive] in
  exists v, v ∈ vs /\ v_delay v = Some 7 /\ v_limits v = Derive.
Proof.
  intros vs. apply (expand_provenance vs 10 7 Derive). vm_compute. reflexivity.
Defined.
