(* ===== verification/Resolve.v ===== *)
(** * Resolution of SDF records against the targets (src/sim/sdf/resolve.rs)

    The file is read cell by cell; every record is matched against the target
    tree and appended to the plan. The hash maps of the sources are [gmap]s
    that keep the first entry of a key. *)

From Stdlib Require Import ZArith Lia Ascii String.
From stdpp Require Import base list strings gmap.
From S2P Require Import Prelude Common Number Lexer Expr Syntax Parser Targets Plan.
Open Scope Z_scope.
Open Scope list_scope.

(** The TimingEdges mask of an SDF edge (z counts as x). *)
Definition edge_mask (e : SdfEdge) : Z :=
  let T01 := 1 in let T0X := 2 in let T10 := 4 in let T1X := 8 in let TX0 := 16 in let TX1 := 32 in
  match e with
  | Posedge => Z.lor (Z.lor T01 T0X) TX1
  | Negedge => Z.lor (Z.lor T10 T1X) TX0
  | E01 => T01
  | E10 => T10
  | E0z => T0X
  | Ez1 => TX1
  | E1z => T1X
  | Ez0 => TX0
  end.

Definition path_text (components : list SdfIdent) : string := join "." (map fmt_ident components).

(** Whether an SDF port name and bit spec select a declared terminal; [whole]
    is the range of the whole port. *)
Definition terminal_matches (terminal : SdfTerminal) (port : SdfIdent) (whole : option (Z * Z)) : bool :=
  String.eqb (term_name terminal) (name port)
  && match bits port with
     | None => true
     | Some b =>
         let (msb, lsb) := bounds b in
         match (match term_range terminal with Some r => Some r | None => whole end) with
         | Some range => bool_decide (range = (wrap_i64 msb, wrap_i64 lsb))
         | None => false
         end
     end.

(** [.iter().enumerate()], with the index as a [u32]. *)
Fixpoint enumerate_from {A} (i : nat) (xs : list A) : list (Z * A) :=
  match xs with
  | [] => []
  | x :: xs' => (wrap_u32 (Z.of_nat i), x) :: enumerate_from (Datatypes.S i) xs'
  end.
Definition enumerate {A} (xs : list A) : list (Z * A) := enumerate_from 0 xs.

(** [HashMap::entry(key).or_insert(value)]. *)
Definition or_insert {K V} `{Countable K} (k : K) (v : V) (m : gmap K V) : gmap K V :=
  match m !! k with Some _ => m | None => <[k := v]> m end.

(** The lookup tables of the resolver. *)
Record Index : Type := mkIndex {
  ix_children : gmap (Z * string * option Z) Z;
  ix_ports : gmap (Z * string) Z;
  ix_nets : gmap (Z * string) Z
}.

Definition index_scope (ix : Index) (i : Z) (s : SdfScope) : Index :=
  mkIndex
    (match sc_parent s with
     | Some parent => or_insert (parent, sc_name s, sc_index s) i (ix_children ix)
     | None => ix_children ix
     end)
    (fold_left (fun m '(p, declared) => or_insert (i, port_name declared) p m) (enumerate (ports s)) (ix_ports ix))
    (fold_left (fun m '(n, declared) => or_insert (i, net_name declared) n m) (enumerate (nets s)) (ix_nets ix)).

Definition build_index (t : SdfTargets) : Index :=
  fold_left (fun ix '(i, s) => index_scope ix i s) (enumerate (scopes t)) (mkIndex ∅ ∅ ∅).

(** What resolving changes: the wildcard table, built at the first wildcard
    cell, and the plan. *)
Record Resolver : Type := mkResolver {
  by_cell_type : option (gmap string (list Z));
  rs_plan : SdfPlan
}.

(** Table 32-2: the declared kinds an entry annotates and, per value, the
    declared limit it replaces. *)
Definition check_table (k : SdfCheckKind) : list (SdfTimingCheckKind * list (Z * SdfLimitSlot)) :=
  match k with
  | Setup => [(KSetup, [(0, First)]); (KSetupHold, [(0, First)])]
  | Hold => [(KHold, [(0, First)]); (KSetupHold, [(0, Second)])]
  | SetupHold => [(KSetup, [(0, First)]); (KHold, [(1, First)]); (KSetupHold, [(0, First); (1, Second)])]
  | Recovery => [(KRecovery, [(0, First)]); (KRecRem, [(0, First)])]
  | Removal => [(KRemoval, [(0, First)]); (KRecRem, [(0, Second)])]
  | RecRem => [(KRecovery, [(0, First)]); (KRemoval, [(1, First)]); (KRecRem, [(0, First); (1, Second)])]
  | Skew => [(KSkew, [(0, First)]); (KTimeSkew, [(0, First)])]
  | Width => [(KWidth, [(0, First)])]
  | Period => [(KPeriod, [(0, First)])]
  | NoChange => [(KNoChange, [(0, First); (1, Second)])]
  end.

Definition table_find (k : SdfTimingCheckKind) (table : list (SdfTimingCheckKind * list (Z * SdfLimitSlot)))
  : option (list (Z * SdfLimitSlot)) :=
  snd <$> List.find (fun e => bool_decide (e.1 = k)) table.

(** An SDF condition against a declared one. *)
Definition condition_matches (sdf : option SdfCondition) (declared : SdfTargetCondition) : bool :=
  match sdf with
  | None => true
  | Some c =>
      match declared with
      | TCIf (Some e) => cond_eqb e (expr c)
      | _ => false
      end
  end.

Definition edge_ok (sdf : option SdfEdge) (declared : SdfTargetEdge) : bool :=
  match sdf with
  | None => true
  | Some Posedge => bool_decide (declared = TEPosedge)
  | Some Negedge => bool_decide (declared = TENegedge)
  | Some _ => false
  end.

Definition path_condition_ok (sdf : option SdfPathCondition) (declared : SdfTargetCondition) : bool :=
  match sdf with
  | None | Some NoCondition => true
  | Some (Cond c) => condition_matches (Some c) declared
  | Some CondElse => match declared with TCIfNone => true | _ => false end
  end.

(** A selected bit lies in a declared range. *)
Definition inside (range : option (Z * Z)) (b : Z) : bool :=
  match range with
  | Some (x, y) => (Z.min x y <=? b) && (b <=? Z.max x y)
  | None => false
  end.

#[export] Instance SdfIdent_eq_dec : EqDecision SdfIdent.
Proof. solve_decision. Defined.

Definition LOADS : list SdfPortDirection := [DInput; DInout].
Definition SOURCES : list SdfPortDirection := [DOutput; DInout].

Section Resolving.
Variable t : SdfTargets.
Variable root : Z.
Variable limits : SdfLimits.
Variable ix : Index.

Abbreviation P := (M SdfError Resolver).

Definition update_plan (f : SdfPlan -> SdfPlan) : P unit :=
  modify (fun r => mkResolver (by_cell_type r) (f (rs_plan r))).

Definition warn (pos : SdfPos) (message : string) : P unit :=
  update_plan (fun p => mkPlan (plan_version p) (plan_timescale p) (plan_root p) (ops p) (delay_lists p)
                          (plan_warnings p ++ [mkWarning pos message])).

Definition push (pos : SdfPos) (kind : SdfOpKind) : P unit :=
  let* r := get in
  if max_plan_ops limits <=? Z.of_nat (length (ops (rs_plan r))) then
    fail (mkError pos (cat ["the annotation has more than "; dec (max_plan_ops limits); " operations"]%string))
  else
    update_plan (fun p => mkPlan (plan_version p) (plan_timescale p) (plan_root p)
                            (ops p ++ [mkOp pos kind]) (delay_lists p) (plan_warnings p)).

Definition delay_op (m : SdfMode) (l : SdfDelvalList) : P SdfDelayOp :=
  let* r := get in
  let i := wrap_u32 (Z.of_nat (length (delay_lists (rs_plan r)))) in
  update_plan (fun p => mkPlan (plan_version p) (plan_timescale p) (plan_root p) (ops p)
                          (delay_lists p ++ [l]) (plan_warnings p)) ;;;
  ret (mkDelayOp m i).

(** ** Names *)

Definition child (sc : Z) (c : SdfIdent) : option Z :=
  match bits c with
  | None => ix_children ix !! (sc, name c, None)
  | Some (Bit b) => if b <=? i64_max then ix_children ix !! (sc, name c, Some b) else None
  | Some (Range _ _) => None
  end.

Definition port_index (sc : Z) (n : string) : option Z := ix_ports ix !! (sc, n).

Definition port_named (sc : Z) (n : string) : P (option SdfTargetPort) :=
  match port_index sc n with
  | None => ret None
  | Some p =>
      let* s := scope t sc in
      let* declared := index (ports s) p in
      ret (Some declared)
  end.

(** The declared range of a port, for terminals that are the whole port. *)
Definition whole (sc : Z) (n : string) : P (option (Z * Z)) :=
  let* p := port_named sc n in
  ret (match p with Some declared => port_range declared | None => None end).

Fixpoint walk (from : Z) (components : list SdfIdent) : option Z :=
  match components with
  | [] => Some from
  | c :: rest =>
      match child from c with
      | Some sc => walk sc rest
      | None => None
      end
  end.

Definition scope_name (sc : Z) : P string := path_of t sc.

(** ** Paths *)

(** The scope of an input and output port pair, which must be the same. *)
Definition port_scope (region : Z) (input output : SdfPortRef) (pos : SdfPos) (what : string) : P (option Z) :=
  match walk region (path input) with
  | None =>
      let* owner := scope_name region in
      warn pos (cat ["instance "; ticked (path_text (path input)); " not found in "; ticked owner; "; the ";
                     what; " is not annotated"]%string) ;;;
      ret None
  | Some sc =>
      if bool_decide (path input = path output) then ret (Some sc)
      else
        warn pos (cat ["the "; what; " ports "; ticked (fmt_port_ref input); " and ";
                       ticked (fmt_port_ref output); " are in different instances; it is not annotated"]%string) ;;;
        ret None
  end.

(** The terminals of a list that an SDF port selects. *)
Definition matching_terminals (sc : Z) (p : SdfIdent) (terminals : list SdfTerminal) : P (list Z) :=
  fold_m (fun found '(i, terminal) =>
    let* w := whole sc (term_name terminal) in
    ret (if terminal_matches terminal p w then found ++ [i] else found)) (enumerate terminals) [].

(** Declared paths from [input] to [output]: the path, its input terminal
    and its output terminal. *)
Definition path_matches (sc : Z) (edge : option SdfEdge) (input output : SdfIdent)
  (condition : option SdfPathCondition) : P (list (Z * Z * Z)) :=
  let* s := scope t sc in
  fold_m (fun found '(i, p) =>
    if negb (edge_ok edge (path_edge p)) || negb (path_condition_ok condition (path_condition p)) then ret found
    else
      fold_m (fun found '(a, terminal) =>
        let* w := whole sc (term_name terminal) in
        if negb (terminal_matches terminal input w) then ret found
        else
          let* os := matching_terminals sc output (outputs p) in
          ret (found ++ map (fun o => (i, a, o)) os)) (enumerate (inputs p)) found) (enumerate (paths s)) [].

(** Every declared path of a scope, optionally only those into one output. *)
Definition all_paths (sc : Z) (output : option string) : P (list (Z * (Z * Z * Z))) :=
  let* s := scope t sc in
  ret (concat (map (fun '(i, p) =>
    concat (map (fun '(a, _) =>
      concat (map (fun '(o, terminal) =>
        if match output with None => true | Some n => String.eqb (term_name terminal) n end
        then [(sc, (i, a, o))] else []) (enumerate (outputs p)))) (enumerate (inputs p))))
    (enumerate (paths s)))).

(** ** Ports and nets *)

(** The index of a port bit at the net bit [b], counted from the left. *)
Definition port_bit (range : option (Z * Z)) (net_left b : Z) : Z :=
  match range with
  | Some (port_left, port_right) =>
      let distance := wrap_i64 (Z.abs (wrap_i64 (b - net_left))) in
      if port_left >=? port_right then wrap_i64 (port_left - distance) else wrap_i64 (port_left + distance)
  | None => 0
  end.

(** The part of a load port that a selection of net bits reaches: [None] when
    it reaches no bit. *)
Definition load_bits (selected net_bits range : option (Z * Z)) : option (option (Z * Z)) :=
  match selected, net_bits with
  | None, _ | Some _, None => Some None
  | Some (low, high), Some (net_left, net_right) =>
      let first := Z.max low (Z.min net_left net_right) in
      let last := Z.min high (Z.max net_left net_right) in
      if first >? last then None
      else Some (match range with
                 | Some _ => Some (port_bit range net_left last, port_bit range net_left first)
                 | None => None
                 end)
  end.

Definition selected_loads (selected : option (Z * Z)) (declared : SdfTargetNet) : P (list SdfPortTarget) :=
  fold_m (fun found load =>
    let* s := scope t (load_scope load) in
    let* p := index (ports s) (load_port load) in
    ret (match load_bits selected (net_bits load) (port_range p) with
         | Some b => found ++ [mkPortTarget (load_scope load) (load_port load) b]
         | None => found
         end)) (loads declared) [].

(** The load ports a NETDELAY that names a net annotates; [None] when the
    name is a port or no net. *)
Definition net_loads (region : Z) (net : SdfPortRef) (pos : SdfPos) : P (option (list SdfPortTarget)) :=
  match walk region (path net) with
  | None => ret None
  | Some sc =>
      match port_index sc (name (port net)) with
      | Some _ => ret None
      | None =>
          match ix_nets ix !! (sc, name (port net)) with
          | None => ret None
          | Some n =>
              let* s := scope t sc in
              let* declared := index (nets s) n in
              let load_all (selected : option (Z * Z)) : P (option (list SdfPortTarget)) :=
                let* found := selected_loads selected declared in
                when (match found with [] => true | _ => false end)
                  (warn pos (cat ["net "; ticked (fmt_port_ref net);
                                  " has no load ports; the NETDELAY is not annotated"]%string)) ;;;
                ret (Some found) in
              match bits (port net) with
              | None => load_all None
              | Some b =>
                  let msb := wrap_i64 (bounds b).1 in
                  let lsb := wrap_i64 (bounds b).2 in
                  if negb (inside (net_range declared) msb) || negb (inside (net_range declared) lsb) then
                    warn pos (cat ["NETDELAY "; ticked (fmt_port_ref net);
                                   " selects bits outside the net's declared range; the NETDELAY is not annotated"]%string) ;;;
                    ret (Some [])
                  else load_all (Some (Z.min msb lsb, Z.max msb lsb))
              end
          end
      end
  end.

(** A warning that is only given when asked for. *)
Definition warn_if (c : bool) (pos : SdfPos) (message : string) : P unit := when c (warn pos message).

Definition port_target (region : Z) (p : SdfPortRef) (allowed : list SdfPortDirection) (role : string)
  (warned : bool) : P (option SdfPortTarget) :=
  let text := ticked (fmt_port_ref p) in
  match walk region (path p) with
  | None =>
      when warned (let* owner := scope_name region in
        warn (ref_pos p) (cat ["instance "; ticked (path_text (path p)); " of "; role; " "; text;
                               " not found in "; ticked owner]%string)) ;;;
      ret None
  | Some sc =>
      let* entry := scope t sc in
      match port_index sc (name (port p)) with
      | None =>
          when warned (let* owner := scope_name sc in
            warn (ref_pos p) (cat [role; " "; text; ": "; ticked owner; " has no port ";
                                   ticked (name (port p))]%string)) ;;;
          ret None
      | Some i =>
          let* declared := index (ports entry) i in
          if negb (bool_decide (direction declared ∈ allowed)) then
            warn_if warned (ref_pos p)
              (cat [role; " "; text; " must be ";
                    if bool_decide (DInput ∈ allowed) then "an input or inout" else "an output or inout";
                    " port"]%string) ;;;
            ret None
          else
            match bits (port p) with
            | None => ret (Some (mkPortTarget sc i None))
            | Some b =>
                let msb := wrap_i64 (bounds b).1 in
                let lsb := wrap_i64 (bounds b).2 in
                if negb (inside (port_range declared) msb) || negb (inside (port_range declared) lsb) then
                  warn_if warned (ref_pos p)
                    (cat [role; " "; text; " selects bits outside the port's declared range"]%string) ;;;
                  ret None
                else ret (Some (mkPortTarget sc i (Some (msb, lsb))))
            end
      end
  end.

(** ** Delays *)

Definition push_paths (pos : SdfPos) (make : Z -> Z -> Z -> Z -> SdfOpKind) (found : list (Z * (Z * Z * Z))) : P unit :=
  fold_m (fun _ '(sc, (p, i, o)) => push pos (make sc p i o)) found tt.

(** The warnings of a PATHPULSEPERCENT limit above 100. *)
Definition warn_percent (pos : SdfPos) (v : option SdfValue) : P unit :=
  match v with
  | None => ret tt
  | Some v =>
      fold_m (fun _ set =>
        match member v set with
        | Some n =>
            match cmp_exact n (Number.new 100 0) with
            | Datatypes.Gt =>
                warn pos (cat ["the PATHPULSEPERCENT limit "; fmt_number n; " is above 100"]%string)
            | _ => ret tt
            end
        | None => ret tt
        end) [0; 1; 2]%nat tt
  end.

Definition path_pulse (region : Z) (pos : SdfPos) (percent : bool) (between : option (SdfPortRef * SdfPortRef))
  (reject error : option SdfValue) : P unit :=
  when percent (warn_percent pos reject ;;; warn_percent pos error) ;;;
  let pulse := mkPulseOp percent reject error in
  let make sc p i o := Plan.PathPulse sc p i o pulse in
  match between with
  | Some (input, output) =>
      let* sc := port_scope region input output pos "PATHPULSE" in
      match sc with
      | None => ret tt
      | Some sc =>
          let* found := path_matches sc None (port input) (port output) None in
          when (match found with [] => true | _ => false end)
            (let* owner := scope_name sc in
             warn pos (cat ["no specify path from "; ticked (fmt_port_ref input); " to ";
                            ticked (fmt_port_ref output); " in "; ticked owner;
                            "; the PATHPULSE is not annotated"]%string)) ;;;
          push_paths pos make (map (fun row => (sc, row)) found)
      end
  | None =>
      let* found := all_paths region None in
      when (match found with [] => true | _ => false end)
        (let* owner := scope_name region in
         warn pos (cat [ticked owner; " has no specify paths; the PATHPULSE is not annotated"]%string)) ;;;
      push_paths pos make found
  end.

Definition io_path (region : Z) (m : SdfMode) (pos : SdfPos) (condition : SdfPathCondition) (input : SdfPortSpec)
  (output : SdfPortRef) (retain : list SdfDelvalList) (delays : SdfDelvalList) : P unit :=
  let* sc := port_scope region (spec_port input) output pos "IOPATH" in
  match sc with
  | None => ret tt
  | Some sc =>
      let* found := path_matches sc (edge input) (port (spec_port input)) (port output) (Some condition) in
      match found with
      | [] =>
          let restriction :=
            match condition with
            | NoCondition => ""
            | Cond c => cat [" with condition "; ticked (fmt_cond (expr c))]
            | CondElse => " that is `ifnone`"
            end%string in
          let* owner := scope_name sc in
          warn pos (cat ["no specify path from "; ticked (fmt_port_spec input); " to ";
                         ticked (fmt_port_ref output); restriction; " in "; ticked owner;
                         "; the IOPATH is not annotated"]%string)
      | _ =>
          when (match retain with [] => false | _ => true end)
            (warn pos "RETAIN delays are not simulated and are ignored (IEEE 1800-2009 Table 32-1)") ;;;
          let* d := delay_op m delays in
          push_paths pos (fun sc p i o => PathDelay sc p i o d) (map (fun row => (sc, row)) found)
      end
  end.

(** The primitives of a scope that drive its outputs, or one of them. *)
Definition driving_primitives (sc : Z) (output : option string) : P (list Z) :=
  let* entry := scope t sc in
  let wanted := match output with Some n => port_index sc n | None => None end in
  fold_m (fun found c =>
    let* s := scope t c in
    ret (if bool_decide (sc_kind s = ScopePrimitive)
            && match drives s with [] => false | _ => true end
            && match wanted with None => true | Some p => existsb (Z.eqb p) (drives s) end
         then found ++ [c] else found)) (children entry) [].

(** DEVICE on a scope: its paths, else the primitives that drive it. *)
Definition device_scope (m : SdfMode) (pos : SdfPos) (delays : SdfDelvalList) (sc : Z) (output : option string) : P unit :=
  let* found := all_paths sc output in
  match found with
  | [] =>
      let* primitives := driving_primitives sc output in
      match primitives with
      | [] =>
          let* owner := scope_name sc in
          warn pos (cat [ticked owner; " has no specify paths";
                         match output with Some n => cat [" to "; ticked n] | None => "" end;
                         " and no primitive driving ";
                         match output with Some n => ticked n | None => "its outputs" end;
                         "; the DEVICE is not annotated"]%string)
      | _ =>
          let* d := delay_op m delays in
          fold_m (fun _ c => push pos (PrimitiveDelay c d)) primitives tt
      end
  | _ =>
      let* d := delay_op m delays in
      push_paths pos (fun sc p i o => PathDelay sc p i o d) found
  end.

Definition device (region : Z) (m : SdfMode) (pos : SdfPos) (p : option SdfPortRef) (delays : SdfDelvalList) : P unit :=
  let* entry := scope t region in
  if bool_decide (sc_kind entry = ScopePrimitive) then
    match p with
    | Some p =>
        let* owner := scope_name region in
        warn pos (cat ["DEVICE on primitive "; ticked owner; " cannot name a port (";
                       ticked (fmt_port_ref p); ")"]%string)
    | None =>
        let* d := delay_op m delays in
        push pos (PrimitiveDelay region d)
    end
  else
    match p with
    | None => device_scope m pos delays region None
    | Some p =>
        match walk region (path p) with
        | None =>
            let* owner := scope_name region in
            warn pos (cat ["instance "; ticked (path_text (path p)); " not found in "; ticked owner;
                           "; the DEVICE is not annotated"]%string)
        | Some sc =>
            let* declared := port_named sc (name (port p)) in
            match declared with
            | Some declared =>
                if negb (bool_decide (direction declared ∈ SOURCES)) then
                  warn pos (cat ["the DEVICE port "; ticked (fmt_port_ref p); " is not an output"]%string)
                else device_scope m pos delays sc (Some (name (port p)))
            | None =>
                match child sc (port p) with
                | Some c =>
                    let* s := scope t c in
                    if bool_decide (sc_kind s = ScopePrimitive) then
                      let* d := delay_op m delays in
                      push pos (PrimitiveDelay c d)
                    else device_scope m pos delays c None
                | None =>
                    let* owner := scope_name sc in
                    warn pos (cat [ticked owner; " has no output port or instance ";
                                   ticked (fmt_ident (port p)); "; the DEVICE is not annotated"]%string)
                end
            end
        end
    end.

Definition del_delays (d : SdfDelDef) : SdfDelvalList :=
  match d with
  | IoPath _ _ _ _ _ delays | Port _ _ delays | Syntax.Interconnect _ _ _ delays
  | Syntax.NetDelay _ _ delays | Device _ _ delays => delays
  end.

Definition del_def (region : Z) (m : SdfMode) (def : SdfDelDef) : P unit :=
  if (12 <? length (del_delays def))%nat then ret tt
  else
    match def with
    | IoPath pos condition input output retain delays =>
        io_path region m pos condition input output retain delays
    | Port pos p delays =>
        let* load := port_target region p LOADS "PORT" true in
        match load with
        | None => ret tt
        | Some load =>
            let* d := delay_op m delays in
            push pos (PortDelay load d)
        end
    | Syntax.Interconnect pos source load delays =>
        let* load := port_target region load LOADS "the INTERCONNECT load" true in
        match load with
        | None => ret tt
        | Some load =>
            let* source := port_target region source SOURCES "the INTERCONNECT source" true in
            when (match source with None => true | Some _ => false end)
              (warn pos (cat ["the INTERCONNECT source was not found; the delay applies from every ";
                              "source of the load (IEEE 1800-2009 32.4.4)"]%string)) ;;;
            let* d := delay_op m delays in
            push pos (Interconnect source load d)
        end
    | Syntax.NetDelay pos net delays =>
        let* found := net_loads region net pos in
        let* loads :=
          match found with
          | Some loads => ret (Some loads)
          | None =>
              let* load := port_target region net LOADS "NETDELAY" true in
              ret (match load with Some load => Some [load] | None => None end)
          end in
        match loads with
        | None => ret tt
        | Some loads =>
            let* d := delay_op m delays in
            fold_m (fun _ load => push pos (NetDelay load d)) loads tt
        end
    | Device pos p delays => device region m pos p delays
    end.

Definition deltype (region : Z) (d : SdfDelType) : P unit :=
  match d with
  | Syntax.Absolute defs => fold_m (fun _ def => del_def region Absolute def) defs tt
  | Syntax.Increment defs => fold_m (fun _ def => del_def region Increment def) defs tt
  | Syntax.PathPulse pos percent between reject error => path_pulse region pos percent between reject error
  end.

(** ** Timing checks *)

Definition event_matches (sc : Z) (sdf : SdfPortTchk) (declared : SdfCheckEvent) (stamp : option SdfCondition)
  : P bool :=
  let* w := whole sc (term_name (terminal declared)) in
  ret (terminal_matches (terminal declared) (port (spec_port (tchk_spec sdf))) w
       && match edge (tchk_spec sdf) with Some e => edges declared =? edge_mask e | None => true end
       && condition_matches (match stamp with Some c => Some c | None => tchk_condition sdf end)
            (event_condition declared)).

(** The reference and data ports of an entry: data then clock for SETUP, HOLD
    and SETUPHOLD, otherwise the reference first. *)
Definition check_ports (c : SdfTimingCheck) : P (SdfPortTchk * option SdfPortTchk) :=
  match kind c with
  | Setup | Hold | SetupHold =>
      let* r := index (Syntax.ports c) 1 in
      let* d := index (Syntax.ports c) 0 in
      ret (r, Some d)
  | Width | Period =>
      let* r := index (Syntax.ports c) 0 in
      ret (r, None)
  | _ =>
      let* r := index (Syntax.ports c) 0 in
      ret (r, Syntax.ports c !! 1%nat)
  end.

Definition is_combined (k : SdfTimingCheckKind) : bool :=
  match k with KSetupHold | KRecRem => true | _ => false end.

(** The SCOND and CCOND that apply to the reference and data events. *)
Definition extra_conditions (c : SdfTimingCheck) (k : SdfTimingCheckKind) : option SdfCondition * option SdfCondition :=
  if is_combined k then (None, None)
  else if bool_decide (k = KSetup) then (ccond c, scond c)
  else (scond c, ccond c).

(** Whether an entry matches a declared check of an annotated kind. *)
Definition check_matches (sc : Z) (c : SdfTimingCheck) (reference_port : SdfPortTchk)
  (data_port : option SdfPortTchk) (declared : SdfTargetCheck) : P bool :=
  let (reference_extra, data_extra) := extra_conditions c (check_kind declared) in
  if is_combined (check_kind declared)
     && (negb (condition_matches (scond c) (stamp_condition declared))
         || negb (condition_matches (ccond c) (check_condition declared)))
  then ret false
  else
    let* ok := event_matches sc reference_port (reference declared) reference_extra in
    if negb ok then ret false
    else
      match data_port, data declared with
      | Some d, Some declared_data => event_matches sc d declared_data data_extra
      | None, None => ret true
      | _, _ => ret false
      end.

(** The limits of an entry for a declared check; [()] leaves one unchanged. *)
Definition check_limits (c : SdfTimingCheck) (i : Z) (slots : list (Z * SdfLimitSlot))
  (found : list (Z * SdfLimitSlot * SdfValue)) : P (list (Z * SdfLimitSlot * SdfValue)) :=
  fold_m (fun found '(v, slot) =>
    let* value := index (values c) v in
    ret (match value with Some value => found ++ [(i, slot, value)] | None => found end)) slots found.

(** The limits of every declared check an entry matches, and whether there
    is one. *)
Definition matching_limits (sc : Z) (c : SdfTimingCheck) (reference_port : SdfPortTchk)
  (data_port : option SdfPortTchk) (declared : list SdfTargetCheck)
  : P (list (Z * SdfLimitSlot * SdfValue) * bool) :=
  fold_m (fun '(found, matched) '(i, d) =>
    match table_find (check_kind d) (check_table (kind c)) with
    | None => ret (found, matched)
    | Some slots =>
        let* ok := check_matches sc c reference_port data_port d in
        if ok then
          let* found := check_limits c i slots found in
          ret (found, true)
        else ret (found, matched)
    end) (enumerate declared) ([], false).

(** The entry as the warning of an unmatched check writes it. *)
Definition check_text (c : SdfTimingCheck) : string :=
  let port_text p :=
    match tchk_condition p with
    | Some condition => cat ["(COND "; fmt_cond (expr condition); " "; fmt_port_spec (tchk_spec p); ")"]
    | None => fmt_port_spec (tchk_spec p)
    end%string in
  let stamp keyword o :=
    match o with
    | Some condition => cat [" ("; keyword; " "; fmt_cond (expr condition); ")"]
    | None => ""
    end%string in
  cat [join " " (map port_text (Syntax.ports c)); stamp "SCOND" (scond c); stamp "CCOND" (ccond c)]%string.

Definition timing_check (region : Z) (c : SdfTimingCheck) : P unit :=
  let keyword := check_keyword (kind c) in
  let* first := index (Syntax.ports c) 0 in
  let first_path := path (spec_port (tchk_spec first)) in
  match walk region first_path with
  | None =>
      let* owner := scope_name region in
      warn (check_pos c) (cat ["instance "; ticked (path_text first_path); " not found in "; ticked owner;
                               "; the "; keyword; " is not annotated"]%string)
  | Some sc =>
      if existsb (fun p => negb (bool_decide (path (spec_port (tchk_spec p)) = first_path))) (Syntax.ports c) then
        warn (check_pos c) (cat ["the "; keyword; " ports are in different instances; it is not annotated"]%string)
      else
        let* (reference_port, data_port) := check_ports c in
        let* entry := scope t sc in
        let* (found, matched) := matching_limits sc c reference_port data_port (checks entry) in
        if negb matched then
          let* owner := scope_name sc in
          warn (check_pos c) (cat ["no timing check in "; ticked owner; " matches ("; keyword; " ";
                                   check_text c; "); it is not annotated"]%string)
        else
          fold_m (fun _ '(i, slot, value) => push (check_pos c) (CheckLimit sc i slot value)) found tt
  end.

(** ** Cells *)

(** The instances of each cell type at or below the root. *)
Definition cell_type_map : P (gmap string (list Z)) :=
  let* all := subtree t root in
  fold_m (fun m i =>
    let* s := scope t i in
    ret (if bool_decide (sc_kind s = ScopeGenerate) then m
         else <[sc_cell_type s := default [] (m !! sc_cell_type s) ++ [i]]> m)) all ∅.

Definition wildcard_regions (ty : string) : P (list Z) :=
  let* r := get in
  let* m :=
    match by_cell_type r with
    | Some m => ret m
    | None =>
        let* m := cell_type_map in
        modify (fun r => mkResolver (Some m) (rs_plan r)) ;;;
        ret m
    end in
  ret (default [] (m !! ty)).

(** The scopes a cell annotates. *)
Definition cell_regions (c : SdfCell) : P (list Z) :=
  match instance c with
  | Wildcard =>
      let* regions := wildcard_regions (cell_type c) in
      when (match regions with [] => true | _ => false end)
        (let* owner := scope_name root in
         warn (cell_pos c) (cat ["no instance of cell type "; quoted (cell_type c); " in "; ticked owner;
                                 "; the CELL is not annotated"]%string)) ;;;
      ret regions
  | Path components =>
      match walk root components with
      | None =>
          let* owner := scope_name root in
          warn (cell_pos c) (cat ["instance "; ticked (path_text components); " not found in "; ticked owner;
                                  "; the CELL is not annotated"]%string) ;;;
          ret []
      | Some region =>
          let* s := scope t region in
          let generate := bool_decide (sc_kind s = ScopeGenerate) in
          if generate || negb (String.eqb (sc_cell_type s) (cell_type c)) then
            let* owner := scope_name region in
            warn (cell_pos c)
              (cat [ticked owner; " is ";
                    if generate then "a generate block" else cat ["an instance of "; ticked (sc_cell_type s)];
                    ", not cell type "; quoted (cell_type c); "; the CELL is not annotated"]%string) ;;;
            ret []
          else ret [region]
      end
  end.

Definition timing_spec (region : Z) (s : SdfTimingSpec) : P unit :=
  match s with
  | Delay deltypes => fold_m (fun _ d => deltype region d) deltypes tt
  | TimingCheck checks => fold_m (fun _ c => timing_check region c) checks tt
  | TimingEnv => ret tt
  end.

Definition cell (c : SdfCell) : P unit :=
  let* regions := cell_regions c in
  fold_m (fun _ region => fold_m (fun _ s => timing_spec region s) (specs c) tt) regions tt.

End Resolving.

(** ** Resolving a file *)

Definition pos_leb (a b : SdfPos) : bool := (line a <? line b) || ((line a =? line b) && (col a <=? col b)).

(** [sort_by_key], which is stable: an element goes after those not greater. *)
Fixpoint insert_warning (w : SdfWarning) (ws : list SdfWarning) : list SdfWarning :=
  match ws with
  | [] => [w]
  | v :: ws' => if pos_leb (warn_pos v) (warn_pos w) then v :: insert_warning w ws' else w :: v :: ws'
  end.
Definition sort_warnings (ws : list SdfWarning) : list SdfWarning :=
  fold_left (fun sorted w => insert_warning w sorted) ws [].

Section File.
Context {L : Type} `{Lexing L} `{Measured L}.

Abbreviation RS := (SdfReader L * Resolver)%type.
#[export] Instance resolving_measured : Measured RS := fun s => fuel_of s.1.

Definition reading {A} (m : M SdfError (SdfReader L) A) : M SdfError RS A :=
  zoom fst (fun s r => (r, s.2)) m.
Definition resolving {A} (m : M SdfError Resolver A) : M SdfError RS A :=
  zoom snd (fun s r => (s.1, r)) m.

(** [resolve] from a lexer at the start of the file. *)
Definition resolve_with (l : L) (t : SdfTargets) (root : Z) (limits : SdfLimits) : outcome SdfError SdfPlan :=
  match Parser.new l limits with
  | Done reader =>
      let h := header reader in
      let resolver := mkResolver None (mkPlan (version h) (timescale_of h) root [] [] []) in
      match loop (fun _ : unit =>
              let* c := reading next_cell in
              match c with
              | Some c => resolving (cell t root limits (build_index t) c) ;;; continue tt
              | None => break tt
              end) tt (reader, resolver) with
      | Done (_, (reader, resolver)) =>
          let p := rs_plan resolver in
          Done (mkPlan (plan_version p) (plan_timescale p) (plan_root p) (ops p) (delay_lists p)
                  (sort_warnings (warnings reader ++ plan_warnings p)))
      | Fail e => Fail e
      | Panic w => Panic w
      | NoFuel => NoFuel
      end
  | Fail e => Fail e
  | Panic w => Panic w
  | NoFuel => NoFuel
  end.
End File.

(** [resolve] of the sources: the streaming lexer over a reader. *)
Definition resolve (input : Input) (t : SdfTargets) (root : Z) (limits : SdfLimits) : outcome SdfError SdfPlan :=
  resolve_with (Stream.new input limits) t root limits.
