(* ===== verification/IndexFacts.v ===== *)
(** * The lookup tables of the resolver

    The hash maps built from the targets answer as a search of the targets
    would: with the first child, port or net of a name. *)

From Stdlib Require Import ZArith Lia Ascii String.
From stdpp Require Import base list strings gmap.
From S2P Require Import Prelude Number NumberFacts Common Lexer Expr ExprFacts Syntax Parser Targets Total TargetsFacts Plan Resolve.
Open Scope Z_scope.
Open Scope list_scope.

(** ** Targets that the 32-bit indices can address *)

Definition fits {A} (xs : list A) : Prop := Z.of_nat (length xs) <= 2 ^ 32.

(** A path whose terminals can be addressed. *)
Definition path_fits (p : SdfTargetPath) : Prop := fits (inputs p) /\ fits (outputs p).

Record scope_ok (t : SdfTargets) (s : SdfScope) : Prop := mkScopeOk {
  so_ports : fits (ports s);
  so_nets : fits (nets s);
  so_paths : fits (paths s);
  so_checks : fits (checks s);
  so_terminals : Forall path_fits (paths s);
  so_loads : forall n load, n ∈ nets s -> load ∈ loads n ->
    port_ok t (mkPortTarget (load_scope load) (load_port load) None)
}.

(** What the resolver needs of its targets: a tree, sizes within 32 bits, and
    nets whose loads are ports of the design. *)
Record targets_ok (t : SdfTargets) : Prop := mkTargetsOk {
  to_forest : forest t;
  to_scopes : fits (scopes t);
  to_scope : forall i s, scopes t !! i = Some s -> scope_ok t s
}.

(** ** Numbered lists *)

Lemma enumerate_from_eq {A} k (xs : list A) :
  Z.of_nat (k + length xs) <= 2 ^ 32 -> enumerate_from k xs = imap (fun i x => (Z.of_nat (k + i), x)) xs.
Proof.
  revert k. induction xs as [| x xs IH]; intros k B; [done |]. cbn [enumerate_from imap length] in *.
  rewrite wrap_u32_small by lia. rewrite IH by lia. f_equal; [by rewrite Nat.add_0_r |].
  apply imap_ext. intros i y _. cbn. do 2 f_equal. lia.
Qed.

Lemma enumerate_eq {A} (xs : list A) : fits xs -> enumerate xs = imap (fun i x => (Z.of_nat i, x)) xs.
Proof. intros F. unfold enumerate. by rewrite (enumerate_from_eq 0). Qed.

Lemma enumerate_elem {A} (xs : list A) i x :
  fits xs -> (i, x) ∈ enumerate xs <-> 0 <= i /\ xs !! Z.to_nat i = Some x.
Proof.
  intros F. rewrite enumerate_eq by done. rewrite elem_of_lookup_imap. split.
  - intros (j & y & [= -> ->] & E). rewrite Nat2Z.id. split; [lia | done].
  - intros [P E]. exists (Z.to_nat i), x. by rewrite Z2Nat.id.
Qed.

Lemma enumerate_app {A} (xs : list A) x :
  fits (xs ++ [x]) -> enumerate (xs ++ [x]) = enumerate xs ++ [(Z.of_nat (length xs), x)].
Proof.
  intros F. rewrite !enumerate_eq; [| unfold fits in *; rewrite length_app in F; cbn in F; lia | done].
  rewrite imap_app. cbn. by rewrite Nat.add_0_r.
Qed.

(** The index of the first element of a list with a property. *)
Definition first_index {A} (P : A -> Prop) `{!forall x, Decision (P x)} (xs : list A) : option Z :=
  Z.of_nat ∘ fst <$> list_find P xs.

Lemma first_index_valid {A} (P : A -> Prop) `{!forall x, Decision (P x)} (xs : list A) i :
  first_index P xs = Some i -> exists x, 0 <= i /\ xs !! Z.to_nat i = Some x /\ P x.
Proof.
  unfold first_index. intros Ef. apply fmap_Some in Ef as ([j x] & E & ->). apply list_find_Some in E as (E & Px & _).
  exists x. cbn. rewrite Nat2Z.id. split; [lia | done].
Qed.

Lemma first_index_snoc {A} (P : A -> Prop) `{!forall x, Decision (P x)} (xs : list A) x :
  first_index P (xs ++ [x])
  = match first_index P xs with
    | Some i => Some i
    | None => if decide (P x) then Some (Z.of_nat (length xs)) else None
    end.
Proof.
  unfold first_index. destruct (list_find P xs) as [[j y] |] eqn:E; cbn.
  - by rewrite (list_find_app_l P xs [x] j y E).
  - rewrite list_find_app_r by done. cbn. destruct (decide (P x)); cbn; [f_equal; lia | done].
Qed.

Lemma first_index_ext {A} (P Q : A -> Prop) `{!forall x, Decision (P x)} `{!forall x, Decision (Q x)} (xs : list A) :
  (forall x, P x <-> Q x) -> first_index P xs = first_index Q xs.
Proof.
  intros PQ. unfold first_index. f_equal. apply option_eq. intros [i x].
  rewrite !list_find_Some. setoid_rewrite PQ. done.
Qed.

(** When at most one element has the property, the first is that one. *)
Lemma first_index_unique {A} (P : A -> Prop) `{!forall x, Decision (P x)} (xs : list A) i x :
  xs !! i = Some x -> P x -> (forall j y, xs !! j = Some y -> P y -> j = i) ->
  first_index P xs = Some (Z.of_nat i).
Proof.
  intros E Px U. unfold first_index. destruct (list_find P xs) as [[j y] |] eqn:F.
  - apply list_find_Some in F as (Ej & Py & _). cbn. by rewrite (U j y Ej Py).
  - rewrite list_find_None in F. exfalso. eapply Forall_lookup_1 in F; [| exact E]. done.
Qed.

(** ** Tables of first entries *)

Lemma or_insert_lookup `{Countable K} {V} (k j : K) (v : V) (m : gmap K V) :
  or_insert k v m !! j = match m !! j with Some w => Some w | None => if decide (k = j) then Some v else None end.
Proof.
  unfold or_insert. destruct (decide (k = j)) as [-> | Ne].
  - destruct (m !! j) as [w |] eqn:E; rewrite ?E; [done |]. by rewrite lookup_insert_eq.
  - destruct (m !! k) eqn:E; [by destruct (m !! j) |]. rewrite lookup_insert_ne by done. by destruct (m !! j).
Qed.

(** The names of one scope, added to a table. *)
Lemma fold_names {A} (i : Z) (nm : A -> string) (xs : list A) (m : gmap (Z * string) Z) (j : Z) (n : string) :
  fits xs ->
  fold_left (fun m '(p, x) => or_insert (i, nm x) p m) (enumerate xs) m !! (j, n)
  = match m !! (j, n) with
    | Some w => Some w
    | None => if decide (i = j) then first_index (fun x => nm x = n) xs else None
    end.
Proof.
  intros F. induction xs as [| x xs IH] using rev_ind.
  { cbn. destruct (m !! (j, n)); [done |]. by destruct (decide (i = j)). }
  rewrite enumerate_app, fold_left_app by done. cbn. rewrite or_insert_lookup, IH;
    [| unfold fits in *; rewrite length_app in F; cbn in F; lia].
  destruct (m !! (j, n)); [done |]. rewrite first_index_snoc. destruct (decide (i = j)) as [-> | Ne].
  - destruct (first_index _ xs); [done |]. destruct (decide (nm x = n)) as [-> | Ne'].
    + by rewrite decide_True.
    + rewrite decide_False; congruence.
  - rewrite decide_False; congruence.
Qed.

(** A scope is the child of [p] that a name and an element index select. *)
Definition is_child (p : Z) (n : string) (k : option Z) (s : SdfScope) : Prop :=
  sc_parent s = Some p /\ sc_name s = n /\ sc_index s = k.

#[export] Instance is_child_dec p n k s : Decision (is_child p n k s).
Proof. unfold is_child. apply _. Defined.

(** The tables after the first scopes. *)
Definition index_of (xs : list SdfScope) : Index :=
  fold_left (fun ix '(i, s) => index_scope ix i s) (enumerate xs) (mkIndex ∅ ∅ ∅).

Lemma index_of_snoc xs s :
  fits (xs ++ [s]) -> index_of (xs ++ [s]) = index_scope (index_of xs) (Z.of_nat (length xs)) s.
Proof. intros F. unfold index_of. by rewrite enumerate_app, fold_left_app by done. Qed.

Lemma fits_app {A} (xs ys : list A) : fits (xs ++ ys) -> fits xs.
Proof. unfold fits. rewrite length_app. lia. Qed.

Lemma index_of_children xs p n k :
  fits xs -> ix_children (index_of xs) !! (p, n, k) = first_index (is_child p n k) xs.
Proof.
  induction xs as [| s xs IH] using rev_ind; intros F; [by cbn; rewrite lookup_empty |].
  rewrite index_of_snoc, first_index_snoc by done. cbn. rewrite <- IH by (by eapply fits_app).
  destruct (sc_parent s) as [q |] eqn:Hq.
  - rewrite or_insert_lookup. destruct (_ !! (p, n, k)); [done |].
    destruct (decide ((q, sc_name s, sc_index s) = (p, n, k))) as [[= -> <- <-] | Ne].
    + by rewrite decide_True.
    + rewrite decide_False; [done |]. intros (Hp & <- & <-). apply Ne. congruence.
  - destruct (_ !! (p, n, k)); [done |]. rewrite decide_False; [done |]. intros [Hp _]. congruence.
Qed.

(** The table of the names [nm] of the lists [get] of the scopes. *)
Lemma index_of_names {A : Type} (table : Index -> gmap (Z * string) Z) (get : SdfScope -> list A) (nm : A -> string)
  (xs : list SdfScope) (i : Z) (n : string) :
  table (mkIndex ∅ ∅ ∅) = ∅ ->
  (forall ix i s, table (index_scope ix i s)
     = fold_left (fun m '(p, x) => or_insert (i, nm x) p m) (enumerate (get s)) (table ix)) ->
  fits xs -> Forall (fun s => fits (get s)) xs -> 0 <= i ->
  table (index_of xs) !! (i, n)
  = match xs !! Z.to_nat i with Some s => first_index (fun x => nm x = n) (get s) | None => None end.
Proof.
  intros T0 T F G Hi. induction xs as [| s xs IH] using rev_ind; [by cbn; rewrite T0, lookup_empty |].
  rewrite index_of_snoc, T by done. apply Forall_app in G as [G Gs]. rewrite Forall_singleton in Gs.
  rewrite fold_names, IH by first [done | exact (fits_app _ _ F)].
  destruct (decide (Z.of_nat (length xs) = i)) as [<- | Ne].
  - rewrite Nat2Z.id, list_lookup_middle by done. by rewrite lookup_ge_None_2 by lia.
  - destruct (decide (Z.to_nat i < length xs)%nat) as [L | L].
    + rewrite lookup_app_l by done. destruct (xs !! Z.to_nat i) as [y |]; [| done]. by destruct (first_index _ _).
    + rewrite (lookup_ge_None_2 (xs ++ [s])) by (rewrite length_app; cbn; lia).
      by rewrite lookup_ge_None_2 by lia.
Qed.

Section Tables.
Variable t : SdfTargets.
Hypothesis T : targets_ok t.

Lemma scopes_Forall (P : SdfScope -> Prop) : (forall s, scope_ok t s -> P s) -> Forall P (scopes t).
Proof. intros H. apply Forall_lookup_2. intros i s E. by eapply H, to_scope. Qed.

Lemma children_table p n k : ix_children (build_index t) !! (p, n, k) = first_index (is_child p n k) (scopes t).
Proof. apply index_of_children, T. Qed.

Lemma ports_table i n :
  0 <= i -> ix_ports (build_index t) !! (i, n)
  = match scopes t !! Z.to_nat i with Some s => first_index (fun p => port_name p = n) (ports s) | None => None end.
Proof.
  intros Hi. apply (index_of_names ix_ports ports); try done; [apply T |].
  apply scopes_Forall. by intros s [].
Qed.

Lemma nets_table i n :
  0 <= i -> ix_nets (build_index t) !! (i, n)
  = match scopes t !! Z.to_nat i with Some s => first_index (fun x => net_name x = n) (nets s) | None => None end.
Proof.
  intros Hi. apply (index_of_names ix_nets nets); try done; [apply T |].
  apply scopes_Forall. by intros s [].
Qed.
End Tables.

(** ** Instance paths *)

(** The element index a component selects, if it can select one. *)
Definition selects (b : option SdfBits) (k : option Z) : Prop :=
  match b with
  | None => k = None
  | Some (Bit n) => k = Some n
  | Some (Range _ _) => False
  end.

(** [leads t from components to]: each component names a child of the scope
    before it. *)
Inductive leads (t : SdfTargets) : Z -> list SdfIdent -> Z -> Prop :=
| leads_here i : leads t i [] i
| leads_down i c rest j s k :
    0 <= j -> scopes t !! Z.to_nat j = Some s -> sc_parent s = Some i -> sc_name s = name c ->
    selects (bits c) (sc_index s) -> leads t j rest k -> leads t i (c :: rest) k.

Section Walk.
Variable t : SdfTargets.
Hypothesis T : targets_ok t.
Abbreviation ix := (build_index t).

(** A child that is found is a child of that name. *)
Lemma child_sound i c j :
  child ix i c = Some j ->
  exists s, 0 <= j /\ scopes t !! Z.to_nat j = Some s /\ sc_parent s = Some i /\ sc_name s = name c
    /\ selects (bits c) (sc_index s).
Proof.
  unfold child. intros H.
  assert (K : forall k, ix_children ix !! (i, name c, k) = Some j ->
    exists s, 0 <= j /\ scopes t !! Z.to_nat j = Some s /\ sc_parent s = Some i /\ sc_name s = name c /\ sc_index s = k).
  { intros k E. rewrite (children_table t T) in E. apply first_index_valid in E as (s & P & E & A & B & C). eauto 10. }
  destruct (bits c) as [[n | a b] |]; [| done |].
  - destruct (n <=? i64_max); [| done]. by apply K.
  - by apply K.
Qed.

(** Names that are unique among siblings find their child. *)
Lemma child_complete i c j s :
  names_ok t -> 0 <= j -> scopes t !! Z.to_nat j = Some s -> sc_parent s = Some i -> sc_name s = name c ->
  selects (bits c) (sc_index s) -> child ix i c = Some j.
Proof.
  intros [No U] Hj Es Hp Hn Hb.
  assert (K : ix_children ix !! (i, name c, sc_index s) = Some j).
  { rewrite (children_table t T). rewrite <- (Z2Nat.id j) by done. apply (first_index_unique _ _ _ s); [done | done |].
    intros k y Ek (Yp & Yn & Yi). eapply U; [done | done | congruence |]. unfold key. by rewrite Yn, Yi, Hn. }
  unfold child. destruct (bits c) as [[n | a b] |]; cbn in Hb; [| done |].
  - rewrite Hb in K. pose proof (Forall_lookup_1 _ _ _ _ No Es) as [_ N]. specialize (N n Hb).
    destruct (Z.leb_spec n i64_max); [done |]. unfold in_i64 in N. lia.
  - by rewrite Hb in K.
Qed.

Lemma walk_sound i components j : walk ix i components = Some j -> leads t i components j.
Proof.
  revert i. induction components as [| c rest IH]; intros i; cbn; [intros [= ->]; constructor |].
  destruct (child ix i c) as [k |] eqn:E; [| done]. intros W.
  apply child_sound in E as (s & Hk & Es & Hp & Hn & Hb). by econstructor; eauto.
Qed.

Lemma walk_complete i components j : names_ok t -> leads t i components j -> walk ix i components = Some j.
Proof.
  intros N. induction 1 as [| i c rest k s j Hk Es Hp Hn Hb _ IH]; [done |]. cbn. by rewrite (child_complete i c k s).
Qed.

Lemma leads_valid i components j :
  leads t i components j -> 0 <= i -> valid (scopes t) i -> 0 <= j /\ valid (scopes t) j.
Proof.
  induction 1 as [| i c rest j s k Hj Es Hp Hn Hb _ IH]; intros Hi V; [done |].
  apply IH; [done | by eapply lookup_valid].
Qed.

(** A walk from a scope leads down to a scope below it. *)
Lemma leads_below r i components j : leads t i components j -> 0 <= i -> below t r i -> below t r j.
Proof.
  induction 1 as [| i c rest j s k Hj Es Hp Hn Hb _ IH]; intros Hi B; [done |]. apply IH; [done |].
  destruct (fo_parent _ (to_forest t T) _ _ _ Es Hp) as [_ Lt].
  assert (V : (Z.to_nat i < length (scopes t))%nat) by (apply lookup_lt_Some in Es; lia).
  destruct (lookup_lt_is_Some_2 _ _ V) as [p Ep]. eapply below_child; [exact B | exact Ep |].
  apply (fo_children _ (to_forest t T) _ _ _ Ep). split; [done |]. exists s. by rewrite Z2Nat.id.
Qed.
End Walk.

(** ** Theorems *)

(** The hash tables of the resolver answer as a search through the
    targets would: with the first child of a scope with a name and element
    index, the first port and the first net of a scope with a name. *)
Theorem index_is_search (t : SdfTargets) (sc : nat) (s : SdfScope) (n : string) (k : option Z) :
  targets_ok t -> scopes t !! sc = Some s ->
  ix_children (build_index t) !! (Z.of_nat sc, n, k) = first_index (is_child (Z.of_nat sc) n k) (scopes t)
  /\ ix_ports (build_index t) !! (Z.of_nat sc, n) = first_index (fun p => port_name p = n) (ports s)
  /\ ix_nets (build_index t) !! (Z.of_nat sc, n) = first_index (fun x => net_name x = n) (nets s).
Proof.
  intros T Es. rewrite children_table, ports_table, nets_table by (done || lia). by rewrite Nat2Z.id, Es.
Qed.

(** An INSTANCE or port path finds a scope exactly when each component
    names a child of the scope before it, [[n]] selecting the element [n] of
    an array and a range nothing. *)
Theorem walk_exact (t : SdfTargets) (from : Z) (components : list SdfIdent) (to : Z) :
  targets_ok t -> names_ok t ->
  walk (build_index t) from components = Some to <-> leads t from components to.
Proof. intros T N. split; [by apply walk_sound | by apply walk_complete]. Qed.

(** ** Witnesses *)

Lemma fits_short {A} (xs : list A) : (length xs <=? 1000)%nat = true -> fits xs.
Proof. intros H%Nat.leb_le. unfold fits. lia. Qed.

Lemma tree_ok : targets_ok tree.
Proof.
  constructor; [apply built_is_forest, tree_built | by apply fits_short |].
  intros [| [| [| i]]] s [= <-]; constructor; try (by apply fits_short); try (by constructor);
    intros n load []%elem_of_nil.
Qed.

Lemma index_is_search_witness :
  ix_children (build_index tree) !! (0, "u.x"%string, Some 3) = first_index (is_child 0 "u.x" (Some 3)) (scopes tree)
  /\ first_index (is_child 0 "u.x" (Some 3)) (scopes tree) = Some 1.
Proof.
  split; [| reflexivity].
  apply (index_is_search tree 0 (push_child (new_scope "top" None ScopeModule "top") 1) "u.x" (Some 3));
    [apply tree_ok | reflexivity].
Defined.

Lemma walk_exact_witness :
  walk (build_index tree) 0 [mkIdent "u.x" (Some (Bit 3)); mkIdent "g" None] = Some 2
  /\ leads tree 0 [mkIdent "u.x" (Some (Bit 3)); mkIdent "g" None] 2.
Proof.
  split; [vm_compute; reflexivity |].
  apply (walk_exact tree); [apply tree_ok | apply tree_names | vm_compute; reflexivity].
Defined.

(** * Matching records against declared objects

    The queries of the resolver do not change its state and answer with
    exactly the declared objects that a record selects: paths, load ports,
    driving primitives, timing checks. *)

(** ** Computations that only read *)

Definition pure {E S A} (m : M E S A) (a : A) : Prop := forall s, m s = Done (a, s).

Lemma pure_ret {E S A} (a : A) : pure (E := E) (S := S) (ret a) a.
Proof. done. Qed.

Lemma pure_bind {E S A B} (m : M E S A) (k : A -> M E S B) a b : pure m a -> pure (k a) b -> pure (bind m k) b.
Proof. intros Hm Hk s. unfold bind. by rewrite Hm. Qed.

(** A fold that appends what it finds for each element. *)
Lemma pure_collect {E S A B} (body : list B -> A -> M E S (list B)) (f : A -> list B) xs found :
  (forall x found, x ∈ xs -> pure (body found x) (found ++ f x)) ->
  pure (fold_m body xs found) (found ++ concat (map f xs)).
Proof.
  revert found. induction xs as [| x xs IH]; intros found H; cbn [fold_m map concat].
  { rewrite app_nil_r. apply pure_ret. }
  eapply pure_bind; [apply H; by left |]. rewrite app_assoc. apply IH. intros y l Hy. apply H. by right.
Qed.

Lemma pure_index {E S A} (xs : list A) i x : xs !! Z.to_nat i = Some x -> pure (E := E) (S := S) (index xs i) x.
Proof. intros H s. by apply index_lookup. Qed.

Lemma pure_runs {E S A} (m : M E S A) a (Q : A -> S -> Prop) s : pure m a -> Q a s -> runs Q (m s).
Proof. intros H HQ. by rewrite H. Qed.

(** Membership in what a loop collects. *)
Lemma elem_collect {A B} (f : A -> list B) xs y : y ∈ concat (map f xs) <-> exists x, x ∈ xs /\ y ∈ f x.
Proof.
  rewrite list_elem_of_In, in_concat. setoid_rewrite in_map_iff. setoid_rewrite list_elem_of_In. split.
  - intros (l & (x & <- & Hx) & Hy). eauto.
  - intros (x & Hx & Hy). eauto.
Qed.

Lemma elem_if {A} (b : bool) (x y : A) : y ∈ (if b then [x] else []) <-> b = true /\ y = x.
Proof.
  destruct b; [rewrite list_elem_of_singleton | rewrite elem_of_nil]; intuition discriminate.
Qed.

(** Lists collected from numbered elements have no duplicates when what is
    found for an element carries its number. *)
Lemma NoDup_collect {A B} (f : Z * A -> list B) (num : B -> Z) (xs : list A) :
  fits xs -> (forall i x, NoDup (f (i, x))) -> (forall i x y, y ∈ f (i, x) -> num y = i) ->
  NoDup (concat (map f (enumerate xs))).
Proof.
  intros F Nd Nm. induction xs as [| x xs IH] using rev_ind; [constructor |].
  rewrite enumerate_app, map_app, concat_app by done. cbn. rewrite app_nil_r. apply NoDup_app. split_and!.
  - apply IH. by eapply fits_app.
  - intros y ([i z] & Hz & Hy)%elem_collect Hy'. apply Nm in Hy, Hy'.
    apply enumerate_elem in Hz as [P Hz]; [| by eapply fits_app]. apply lookup_lt_Some in Hz. lia.
  - apply Nd.
Qed.

Section Matching.
Variable t : SdfTargets.
Hypothesis T : targets_ok t.
Abbreviation ix := (build_index t).
Abbreviation pureR := (pure (E := SdfError) (S := Resolver)).

Section Scope.
Variable sc : Z.
Variable s : SdfScope.
Hypothesis H0 : 0 <= sc.
Hypothesis Es : scopes t !! Z.to_nat sc = Some s.

Let So : scope_ok t s := to_scope t T _ _ Es.

Lemma pure_scope : pureR (scope t sc) s.
Proof. by apply pure_index. Qed.

(** The first port of a name. *)
Definition declared_port (s : SdfScope) (n : string) : option SdfTargetPort :=
  snd <$> list_find (fun p => port_name p = n) (ports s).

Lemma port_index_declared n :
  port_index ix sc n = Z.of_nat ∘ fst <$> list_find (fun p => port_name p = n) (ports s).
Proof. unfold port_index. rewrite ports_table by done. by rewrite Es. Qed.

Lemma pure_port_named n : pureR (port_named t ix sc n) (declared_port s n).
Proof.
  unfold port_named, declared_port. rewrite port_index_declared.
  destruct (list_find _ (ports s)) as [[i p] |] eqn:E; cbn; [| apply pure_ret].
  apply list_find_Some in E as (Ei & _). eapply pure_bind; [apply pure_scope |].
  eapply pure_bind; [apply pure_index; by rewrite Nat2Z.id | apply pure_ret].
Qed.

(** The range of the whole port that a terminal is part of. *)
Definition whole_range (s : SdfScope) (n : string) : option (Z * Z) := declared_port s n ≫= port_range.

Lemma pure_whole n : pureR (whole t ix sc n) (whole_range s n).
Proof.
  unfold whole, whole_range. eapply pure_bind; [apply pure_port_named |].
  destruct (declared_port s n); apply pure_ret.
Qed.

(** An SDF port selects a declared terminal of a scope. *)
Definition picks (s : SdfScope) (p : SdfIdent) (x : SdfTerminal) : bool :=
  terminal_matches x p (whole_range s (term_name x)).

Lemma pure_matching_terminals p terminals :
  pureR (matching_terminals t ix sc p terminals)
    (concat (map (fun '(i, x) => if picks s p x then [i] else []) (enumerate terminals))).
Proof.
  unfold matching_terminals. apply (pure_collect _ (fun '(i, x) => if picks s p x then [i] else []) _ []).
  intros [i x] found _. eapply pure_bind; [apply pure_whole |]. unfold picks.
  destruct (terminal_matches _ _ _); rewrite ?app_nil_r; apply pure_ret.
Qed.

(** The rows of a declared path that a record selects. *)
Definition path_rows (s : SdfScope) (edge : option SdfEdge) (input output : SdfIdent)
  (condition : option SdfPathCondition) (ip : Z * SdfTargetPath) : list (Z * Z * Z) :=
  let '(i, p) := ip in
  if edge_ok edge (path_edge p) && path_condition_ok condition (path_condition p) then
    concat (map (fun '(a, x) =>
      if picks s input x then
        map (fun o => (i, a, o)) (concat (map (fun '(o, y) => if picks s output y then [o] else []) (enumerate (outputs p))))
      else []) (enumerate (inputs p)))
  else [].

Lemma pure_path_matches edge input output condition :
  pureR (path_matches t ix sc edge input output condition)
    (concat (map (path_rows s edge input output condition) (enumerate (paths s)))).
Proof.
  unfold path_matches. eapply pure_bind; [apply pure_scope |].
  apply (pure_collect _ (path_rows s edge input output condition) _ []). intros [i p] found _. cbn.
  destruct (edge_ok _ _); cbn; [| rewrite app_nil_r; apply pure_ret].
  destruct (path_condition_ok _ _); cbn; [| rewrite app_nil_r; apply pure_ret].
  eapply pure_collect. intros [a x] found' _. eapply pure_bind; [apply pure_whole |].
  unfold picks at 1. destruct (terminal_matches _ _ _); cbn; [| rewrite app_nil_r; apply pure_ret].
  eapply pure_bind; [apply pure_matching_terminals | apply pure_ret].
Qed.

(** A row of the paths from [input] to [output]. *)
Definition path_row (s : SdfScope) (edge : option SdfEdge) (input output : SdfIdent)
  (condition : option SdfPathCondition) (row : Z * Z * Z) : Prop :=
  let '(i, a, o) := row in
  0 <= i /\ 0 <= a /\ 0 <= o /\
  exists p x y, paths s !! Z.to_nat i = Some p /\ inputs p !! Z.to_nat a = Some x /\ outputs p !! Z.to_nat o = Some y
    /\ edge_ok edge (path_edge p) = true /\ path_condition_ok condition (path_condition p) = true
    /\ picks s input x = true /\ picks s output y = true.

Lemma path_rows_elem edge input output condition row :
  row ∈ concat (map (path_rows s edge input output condition) (enumerate (paths s)))
  <-> path_row s edge input output condition row.
Proof.
  destruct row as [[i a] o]. rewrite elem_collect. unfold path_row, path_rows. split.
  - intros ([i' p] & Hp & H). apply (enumerate_elem (paths s)) in Hp as [Hi Ep]; [| apply So].
    destruct (edge_ok _ _) eqn:He; cbn in H; [| by apply elem_of_nil in H].
    destruct (path_condition_ok _ _) eqn:Hc; [| by apply elem_of_nil in H].
    destruct (Forall_lookup_1 _ _ _ _ (so_terminals _ _ So) Ep) as [Fi Fo].
    apply elem_collect in H as ([a' x] & Hx & H). apply (enumerate_elem (inputs p)) in Hx as [Ha Ex]; [| done].
    destruct (picks s input x) eqn:Hpx; [| by apply elem_of_nil in H].
    apply list_elem_of_In, in_map_iff in H as (o' & [= -> -> ->] & H).
    apply list_elem_of_In, elem_collect in H as ([o'' y] & Hy & H). apply (enumerate_elem (outputs p)) in Hy as [Ho Ey]; [| done].
    apply elem_if in H as [Hpy ->]. split_and!; try done. exists p, x, y. done.
  - intros (Hi & Ha & Ho & p & x & y & Ep & Ex & Ey & He & Hc & Hpx & Hpy).
    destruct (Forall_lookup_1 _ _ _ _ (so_terminals _ _ So) Ep) as [Fi Fo].
    exists (i, p). split; [apply enumerate_elem; [apply So | done] |]. rewrite He, Hc. cbn.
    apply elem_collect. exists (a, x). split; [by apply enumerate_elem |]. rewrite Hpx.
    apply list_elem_of_In, in_map_iff. exists o. split; [done |]. apply list_elem_of_In, elem_collect.
    exists (o, y). split; [by apply enumerate_elem |]. apply elem_if. done.
Qed.

Lemma path_rows_nodup edge input output condition :
  NoDup (concat (map (path_rows s edge input output condition) (enumerate (paths s)))).
Proof.
  assert (Rows : forall i p, p ∈ paths s -> NoDup (path_rows s edge input output condition (i, p))).
  { intros i p Hp. apply list_elem_of_lookup in Hp as [k Ep].
    destruct (Forall_lookup_1 _ _ _ _ (so_terminals _ _ So) Ep) as [Fi Fo].
    cbn. destruct (_ && _); [| constructor]. apply (NoDup_collect _ (fun row => row.1.2)); [done | |].
    - intros a x. destruct (picks _ _ _); [| constructor]. apply NoDup_fmap_2; [intros o o' [= ->]; done |].
      apply (NoDup_collect _ id); [done | |].
      + intros o y. destruct (picks _ _ _); repeat constructor. apply not_elem_of_nil.
      + intros o y o' [_ ->]%elem_if. done.
    - intros a x row H. destruct (picks _ _ _); [| by apply elem_of_nil in H].
      apply list_elem_of_In, in_map_iff in H as (o & <- & _). done. }
  assert (All : forall xs, fits xs -> xs ⊆ paths s ->
    NoDup (concat (map (path_rows s edge input output condition) (enumerate xs)))); [| by apply All; [apply So |]].
  induction xs as [| p xs IH] using rev_ind; intros F Sub; [constructor |].
  rewrite enumerate_app, map_app, concat_app by done. cbn [map concat]. rewrite app_nil_r. apply NoDup_app. split_and!.
  - apply IH; [by eapply fits_app |]. intros y Hy. apply Sub, elem_of_app. by left.
  - assert (Num : forall ip row, row ∈ path_rows s edge input output condition ip -> row.1.1 = ip.1).
    { intros [i q] row H. cbn in H. destruct (_ && _); [| by apply elem_of_nil in H].
      apply elem_collect in H as ([a x] & _ & H). destruct (picks _ _ _); [| by apply elem_of_nil in H].
      apply list_elem_of_In, in_map_iff in H as (o & <- & _). done. }
    intros row ([i q] & Hq & Hy)%elem_collect Hy'. apply Num in Hy, Hy'. cbn in Hy, Hy'.
    apply enumerate_elem in Hq as [P Hq]; [| by eapply fits_app]. apply lookup_lt_Some in Hq. lia.
  - apply Rows, Sub, elem_of_app. right. by left.
Qed.

(** Every path of the scope, with an optional output. *)
Definition every_path (s : SdfScope) (output : option string) (row : Z * (Z * Z * Z)) : Prop :=
  let '(sc', (i, a, o)) := row in
  sc' = sc /\ 0 <= i /\ 0 <= a /\ 0 <= o /\
  exists p x y, paths s !! Z.to_nat i = Some p /\ inputs p !! Z.to_nat a = Some x /\ outputs p !! Z.to_nat o = Some y
    /\ match output with None => True | Some n => term_name y = n end.

Lemma pure_all_paths output :
  exists found, pureR (all_paths t sc output) found /\ forall row, row ∈ found <-> every_path s output row.
Proof.
  eexists. split; [eapply pure_bind; [apply pure_scope | apply pure_ret] |].
  intros [sc' [[i a] o]]. rewrite elem_collect. unfold every_path. split.
  - intros ([i' p] & Hp & H). apply (enumerate_elem (paths s)) in Hp as [Hi Ep]; [| apply So].
    destruct (Forall_lookup_1 _ _ _ _ (so_terminals _ _ So) Ep) as [Fi Fo].
    apply elem_collect in H as ([a' x] & Hx & H). apply (enumerate_elem (inputs p)) in Hx as [Ha Ex]; [| done].
    apply elem_collect in H as ([o' y] & Hy & H). apply (enumerate_elem (outputs p)) in Hy as [Ho Ey]; [| done].
    apply elem_if in H as [Hn [= -> -> -> ->]]. split_and!; try done. exists p, x, y. split_and!; try done.
    destruct output; [by apply String.eqb_eq | done].
  - intros (-> & Hi & Ha & Ho & p & x & y & Ep & Ex & Ey & Hn).
    destruct (Forall_lookup_1 _ _ _ _ (so_terminals _ _ So) Ep) as [Fi Fo].
    exists (i, p). split; [apply enumerate_elem; [apply So | done] |].
    apply elem_collect. exists (a, x). split; [by apply enumerate_elem |].
    apply elem_collect. exists (o, y). split; [by apply enumerate_elem |]. apply elem_if. split; [| done].
    destruct output; [by apply String.eqb_eq | done].
Qed.

(** The primitives of the scope that drive an output. *)
Lemma pure_driving_primitives output :
  exists found, pureR (driving_primitives t ix sc output) found /\ forall c, c ∈ found -> 0 <= c /\ valid (scopes t) c.
Proof.
  set (wanted := match output with Some n => port_index ix sc n | None => None end).
  set (f := fun c => match scopes t !! Z.to_nat c with
    | Some x => if bool_decide (sc_kind x = ScopePrimitive)
            && match drives x with [] => false | _ => true end
            && match wanted with None => true | Some p => existsb (Z.eqb p) (drives x) end then [c] else []
    | None => [] end).
  exists (concat (map f (children s))).
  assert (Kid : forall c, c ∈ children s -> 0 <= c /\ exists x, scopes t !! Z.to_nat c = Some x).
  { intros c Hc. apply (fo_children _ (to_forest t T) _ _ _ Es) in Hc as (C0 & x & Ex & _). eauto. }
  split.
  - eapply pure_bind; [apply pure_scope |]. apply (pure_collect _ f _ []). intros c found Hc.
    destruct (Kid c Hc) as (_ & x & Ex). eapply pure_bind; [by apply pure_index |]. unfold f. rewrite Ex.
    fold wanted. destruct (_ && _); rewrite ?app_nil_r; apply pure_ret.
  - intros c (c' & Hc & H)%elem_collect. destruct (Kid c' Hc) as (C0 & x & Ex). unfold f in H. rewrite Ex in H.
    apply elem_if in H as [_ ->]. split; [done | by eapply lookup_valid].
Qed.
End Scope.

(** ** Net loads *)

(** The load ports of a net that a selection of its bits reaches. *)
Definition reached (selected : option (Z * Z)) (load : SdfNetLoad) : list SdfPortTarget :=
  match scopes t !! Z.to_nat (load_scope load) with
  | Some s =>
      match ports s !! Z.to_nat (load_port load) with
      | Some p =>
          match load_bits selected (net_bits load) (port_range p) with
          | Some b => [mkPortTarget (load_scope load) (load_port load) b]
          | None => []
          end
      | None => []
      end
  | None => []
  end.

Lemma pure_selected_loads selected n :
  (forall load, load ∈ loads n -> port_ok t (mkPortTarget (load_scope load) (load_port load) None)) ->
  pureR (selected_loads t selected n) (concat (map (reached selected) (loads n))).
Proof.
  intros L. apply (pure_collect _ (reached selected) _ []). intros load found Hl.
  destruct (L load Hl) as (s & Es & V). cbn in Es, V. destruct (valid_lookup _ _ V) as [p Ep].
  eapply pure_bind; [by apply pure_index |]. eapply pure_bind; [by apply pure_index |].
  unfold reached. rewrite Es, Ep. destruct (load_bits _ _ _); rewrite ?app_nil_r; apply pure_ret.
Qed.

Lemma reached_ok selected n p :
  (forall load, load ∈ loads n -> port_ok t (mkPortTarget (load_scope load) (load_port load) None)) ->
  p ∈ concat (map (reached selected) (loads n)) -> port_ok t p.
Proof.
  intros L (load & Hl & H)%elem_collect. destruct (L load Hl) as (s & Es & V). cbn in Es, V.
  unfold reached in H. rewrite Es in H. destruct (ports s !! _); [| by apply elem_of_nil in H].
  destruct (load_bits _ _ _); [| by apply elem_of_nil in H]. apply list_elem_of_singleton in H as ->. by exists s.
Qed.

(** ** Timing checks *)

(** An SDF port event selects a declared event. *)
Definition event_fits (s : SdfScope) (sdf : SdfPortTchk) (declared : SdfCheckEvent) (stamp : option SdfCondition) : bool :=
  picks s (port (spec_port (tchk_spec sdf))) (terminal declared)
  && match edge (tchk_spec sdf) with Some e => edges declared =? edge_mask e | None => true end
  && condition_matches (match stamp with Some c => Some c | None => tchk_condition sdf end) (event_condition declared).

(** An entry selects a declared check of a kind it annotates. *)
Definition check_fits (s : SdfScope) (c : SdfTimingCheck) (reference_port : SdfPortTchk)
  (data_port : option SdfPortTchk) (declared : SdfTargetCheck) : bool :=
  let extra := extra_conditions c (check_kind declared) in
  (negb (is_combined (check_kind declared))
   || condition_matches (scond c) (stamp_condition declared) && condition_matches (ccond c) (check_condition declared))
  && event_fits s reference_port (reference declared) extra.1
  && match data_port, data declared with
     | Some d, Some declared_data => event_fits s d declared_data extra.2
     | None, None => true
     | _, _ => false
     end.

(** The limits an entry gives for the slots of a declared check. *)
Definition entry_limits (c : SdfTimingCheck) (i : Z) (slots : list (Z * SdfLimitSlot)) : list (Z * SdfLimitSlot * SdfValue) :=
  concat (map (fun '(v, slot) =>
    match values c !! Z.to_nat v with Some (Some value) => [(i, slot, value)] | _ => [] end) slots).

(** The limits an entry gives for a declared check, if it selects it. *)
Definition declared_limits (s : SdfScope) (c : SdfTimingCheck) (reference_port : SdfPortTchk)
  (data_port : option SdfPortTchk) (i : Z) (d : SdfTargetCheck) : option (list (Z * SdfLimitSlot * SdfValue)) :=
  match table_find (check_kind d) (check_table (kind c)) with
  | Some slots => if check_fits s c reference_port data_port d then Some (entry_limits c i slots) else None
  | None => None
  end.

(** The ports and values of an entry are those of its kind. *)
Definition entry_ok (c : SdfTimingCheck) : Prop :=
  length (Syntax.ports c) = port_count (kind c) /\ length (values c) = Syntax.value_count (kind c).

Lemma table_values k kd slots v slot :
  table_find k (check_table kd) = Some slots -> (v, slot) ∈ slots -> (Z.to_nat v < Syntax.value_count kd)%nat.
Proof.
  unfold table_find. intros H Hv. apply fmap_Some in H as ([k' slots'] & Hf & ->). apply find_some in Hf as [Hf _].
  cbn [snd] in Hv. destruct kd; cbn in Hf |- *; repeat destruct Hf as [Hf | Hf]; try done; injection Hf as <- <-;
    rewrite !elem_of_cons, elem_of_nil in Hv; repeat destruct Hv as [Hv | Hv]; try done; injection Hv as -> ->; cbn; lia.
Qed.

(** The reference and data ports of an entry. *)
Definition reference_port_of (c : SdfTimingCheck) : option SdfPortTchk :=
  match kind c with Setup | Hold | SetupHold => Syntax.ports c !! 1%nat | _ => Syntax.ports c !! 0%nat end.
Definition data_port_of (c : SdfTimingCheck) : option SdfPortTchk :=
  match kind c with
  | Setup | Hold | SetupHold => Syntax.ports c !! 0%nat
  | Width | Period => None
  | _ => Syntax.ports c !! 1%nat
  end.

Lemma pure_check_ports c :
  entry_ok c -> exists r, reference_port_of c = Some r /\ pureR (check_ports c) (r, data_port_of c).
Proof.
  intros [P _]. unfold reference_port_of, data_port_of, check_ports.
  assert (I : forall i, (i < length (Syntax.ports c))%nat -> exists p, Syntax.ports c !! i = Some p).
  { intros i. apply lookup_lt_is_Some_2. }
  destruct (kind c) eqn:K; cbn in P;
    destruct (I 0%nat ltac:(lia)) as [p Ep]; try (destruct (I 1%nat ltac:(lia)) as [q Eq]);
    eexists; (split; [done |]); rewrite ?Ep, ?Eq;
    repeat (eapply pure_bind; [by apply pure_index |]); apply pure_ret.
Qed.

Lemma pure_event_matches sc s sdf declared stamp :
  0 <= sc -> scopes t !! Z.to_nat sc = Some s ->
  pureR (event_matches t ix sc sdf declared stamp) (event_fits s sdf declared stamp).
Proof. intros H0 Es. eapply pure_bind; [by apply pure_whole | apply pure_ret]. Qed.

Lemma pure_check_matches sc s c r d declared :
  0 <= sc -> scopes t !! Z.to_nat sc = Some s ->
  pureR (check_matches t ix sc c r d declared) (check_fits s c r d declared).
Proof.
  intros H0 Es. unfold check_matches, check_fits. destruct (extra_conditions c (check_kind declared)) as [re de]. cbn.
  destruct (is_combined _) eqn:C; cbn.
  - destruct (condition_matches (scond c) _); cbn; [| apply pure_ret].
    destruct (condition_matches (ccond c) _); cbn; [| apply pure_ret].
    eapply pure_bind; [by apply pure_event_matches |]. destruct (event_fits _ _ _ re); cbn; [| apply pure_ret].
    destruct d, (data declared); [by apply pure_event_matches | apply pure_ret ..].
  - eapply pure_bind; [by apply pure_event_matches |]. destruct (event_fits _ _ _ re); cbn; [| apply pure_ret].
    destruct d, (data declared); [by apply pure_event_matches | apply pure_ret ..].
Qed.

Lemma pure_check_limits c i slots found :
  (forall v slot, (v, slot) ∈ slots -> (Z.to_nat v < length (values c))%nat) ->
  pureR (check_limits c i slots found) (found ++ entry_limits c i slots).
Proof.
  intros V. apply pure_collect. intros [v slot] found' Hv. destruct (valid_lookup (values c) v (V v slot Hv)) as [x Ex].
  eapply pure_bind; [by apply pure_index |]. rewrite Ex. destruct x; rewrite ?app_nil_r; apply pure_ret.
Qed.

Lemma pure_matching_limits sc s c r d declared :
  0 <= sc -> scopes t !! Z.to_nat sc = Some s -> entry_ok c ->
  pureR (matching_limits t ix sc c r d declared)
    (concat (map (fun '(i, x) => default [] (declared_limits s c r d i x)) (enumerate declared)),
     existsb (fun '(i, x) => bool_decide (is_Some (declared_limits s c r d i x))) (enumerate declared)).
Proof.
  intros H0 Es [_ Ev]. unfold matching_limits.
  assert (G : forall xs found m, pureR (fold_m (fun '(found, matched) '(i, x) =>
      match table_find (check_kind x) (check_table (kind c)) with
      | None => ret (found, matched)
      | Some slots =>
          let* ok := check_matches t ix sc c r d x in
          if ok then
            let* found := check_limits c i slots found in
            ret (found, true)
          else ret (found, matched)
      end) xs (found, m))
      (found ++ concat (map (fun '(i, x) => default [] (declared_limits s c r d i x)) xs),
       m || existsb (fun '(i, x) => bool_decide (is_Some (declared_limits s c r d i x))) xs)).
  { induction xs as [| [i x] xs IH]; intros found m; cbn [fold_m map concat existsb].
    { rewrite app_nil_r, orb_false_r. apply pure_ret. }
    eapply (pure_bind _ _ (found ++ default [] (declared_limits s c r d i x),
                           m || bool_decide (is_Some (declared_limits s c r d i x)))).
    - unfold declared_limits. destruct (table_find _ _) as [slots |] eqn:Tf.
      + eapply pure_bind; [by apply pure_check_matches |]. destruct (check_fits _ _ _ _ _).
        * eapply pure_bind; [apply pure_check_limits |].
          { intros v slot Hv. rewrite Ev. by eapply table_values. }
          rewrite bool_decide_eq_true_2 by eauto. rewrite orb_true_r. apply pure_ret.
        * rewrite bool_decide_eq_false_2 by (by intros []). cbn [default from_option]. rewrite app_nil_r, orb_false_r. apply pure_ret.
      + rewrite bool_decide_eq_false_2 by (by intros []). cbn [default from_option]. rewrite app_nil_r, orb_false_r. apply pure_ret.
    - rewrite app_assoc, orb_assoc. apply IH. }
  apply (G (enumerate declared) [] false).
Qed.
End Matching.

(** The limits found for the declared checks of a scope. *)
Lemma limits_elem s c rp dp declared i slot value :
  fits declared ->
  (i, slot, value) ∈ concat (map (fun '(i, x) => default [] (declared_limits s c rp dp i x)) (enumerate declared))
  <-> 0 <= i /\ exists d slots v, declared !! Z.to_nat i = Some d
        /\ table_find (check_kind d) (check_table (kind c)) = Some slots
        /\ check_fits s c rp dp d = true
        /\ (v, slot) ∈ slots /\ values c !! Z.to_nat v = Some (Some value).
Proof.
  intros Fc. rewrite elem_collect. unfold declared_limits, entry_limits. split.
  + intros ([j d] & Hd & H). apply enumerate_elem in Hd as [Hj Ed]; [| done].
    destruct (table_find _ _) as [slots |] eqn:Tf; [| by apply elem_of_nil in H].
    destruct (check_fits _ _ _ _ _) eqn:Cf; [| by apply elem_of_nil in H].
    apply elem_collect in H as ([v sl] & Hv & H). destruct (values c !! _) as [[x |] |] eqn:Ex;
      try (by apply elem_of_nil in H). apply list_elem_of_singleton in H as [= -> -> ->].
    split; [done |]. by exists d, slots, v.
  + intros (Hi & d & slots & v & Ed & Tf & Cf & Hv & Ex). exists (i, d). split; [by apply enumerate_elem |].
    rewrite Tf, Cf. cbn. apply elem_collect. exists (v, slot). split; [done |]. rewrite Ex. by left.
Qed.


(** ** Theorems *)



(** The bit at a position of a range, counted from its left end. *)
Definition bit_at (range : Z * Z) (k : Z) : Z := if range.1 >=? range.2 then range.1 - k else range.1 + k.

(** A NETDELAY on selected bits of a net reaches exactly the port bits
    connected to them. For a load port as wide as the part of the net it is
    connected to, bit by bit from the left, in any mix of ascending and
    descending ranges: no port bit is selected when [load_bits] skips the
    load, and otherwise the selected port bits are those whose net bit is. *)
Theorem load_bits_exact (low high : Z) (net_bits port_bits : Z * Z) :
  in_i64 port_bits.1 -> in_i64 port_bits.2 ->
  Z.abs (net_bits.1 - net_bits.2) = Z.abs (port_bits.1 - port_bits.2) -> Z.abs (net_bits.1 - net_bits.2) <= i64_max ->
  let connected k := 0 <= k <= Z.abs (net_bits.1 - net_bits.2) in
  let selected k := low <= bit_at net_bits k <= high in
  match load_bits (Some (low, high)) (Some net_bits) (Some port_bits) with
  | None => forall k, connected k -> ~ selected k
  | Some None => False
  | Some (Some (x, y)) => forall k, connected k -> selected k <-> Z.min x y <= bit_at port_bits k <= Z.max x y
  end.
Proof.
  destruct net_bits as [nl nr], port_bits as [pl pr]. unfold bit_at. cbn [fst snd load_bits]. intros Ip Iq W B.
  set (first := Z.max low (Z.min nl nr)). set (last := Z.min high (Z.max nl nr)).
  destruct (Z.gtb_spec first last) as [G | L].
  - intros k K. subst first last. destruct (Z.geb_spec nl nr); lia.
  - assert (D : forall b, first <= b <= last ->
      port_bit (Some (pl, pr)) nl b = if pl >=? pr then pl - Z.abs (b - nl) else pl + Z.abs (b - nl)).
    { intros b Hb. subst first last. unfold port_bit. unfold in_i64, i64_min, i64_max in *.
      rewrite (wrap_i64_small (b - nl)) by (unfold in_i64, i64_min, i64_max; lia).
      rewrite (wrap_i64_small (Z.abs (b - nl))) by (unfold in_i64, i64_min, i64_max; lia).
      destruct (Z.geb_spec pl pr); apply wrap_i64_small; unfold in_i64, i64_min, i64_max; lia. }
    rewrite !D by lia. clear D. intros k K. subst first last.
    destruct (Z.geb_spec nl nr), (Z.geb_spec pl pr); lia.
Qed.

(** ** Witnesses *)

(** A top module with a net of three bits, and a flip-flop whose two-bit
    data input is connected to two bits of the net. *)
Definition dff : SdfScope :=
  mkScope "u1" None None [] ScopeModule "dff"
    [mkTargetPort "d" DInput (Some (0, 1)); mkTargetPort "clk" DInput None; mkTargetPort "q" DOutput None]
    [mkTargetPath "dff.v:4:5" [mkTerminal "clk" None] [mkTerminal "q" None] TEPosedge TCNone []]
    [mkTargetCheck "dff.v:5:5" KSetupHold (mkCheckEvent (mkTerminal "clk" None) 35 TCNone)
       (Some (mkCheckEvent (mkTerminal "d" None) 0 TCNone)) TCNone TCNone [] false]
    1000 [] [].
Definition top : SdfScope :=
  mkScope "top" None None [] ScopeModule "top" [] [] [] 1000 [] [mkTargetNet "n" (Some (2, 0)) [mkNetLoad 1 0 (Some (2, 1))]].
Definition design : SdfTargets :=
  mkTargets [push_child (set_parent top None) 1; set_parent dff (Some 0)] [0].

Lemma design_built : built design.
Proof.
  assert (B1 : built (mkTargets [set_parent top None] [0])).
  { apply (built_add new_targets None top 0); [apply built_new | done | done | | ]; by vm_compute. }
  apply (built_add _ (Some 0) dff 1 _ B1); [done | | by vm_compute | by vm_compute]. intros p [= <-]. cbn. lia.
Qed.

Lemma design_ok : targets_ok design.
Proof.
  constructor; [apply built_is_forest, design_built | by apply fits_short |].
  intros [| [| i]] s [= <-]; constructor; try (by apply fits_short);
    try (by repeat constructor; apply fits_short); intros n load H.
  - apply list_elem_of_singleton in H as ->. cbn. intros ->%list_elem_of_singleton.
    exists (set_parent dff (Some 0)). split; [done |]. unfold valid. cbn. lia.
  - by apply elem_of_nil in H.
Qed.

(** [(SETUPHOLD d (posedge clk) (1) ())]. *)
Definition setuphold : SdfTimingCheck :=
  mkTimingCheck (mkPos 3 1) SetupHold
    [mkPortTchk None (mkPortSpec None (mkPortRef (mkPos 3 2) [] (mkIdent "d" None)));
     mkPortTchk None (mkPortSpec (Some Posedge) (mkPortRef (mkPos 3 4) [] (mkIdent "clk" None)))]
    [Some (Single (mkNumber 1 0)); None] None None.

Definition empty_resolver : Resolver := mkResolver None (mkPlan V3_0 default_timescale 0 [] [] []).



Lemma load_bits_exact_witness :
  load_bits (Some (0, 1)) (Some (2, 1)) (Some (0, 1)) = Some (Some (1, 1))
  /\ forall k, 0 <= k <= 1 -> 0 <= bit_at (2, 1) k <= 1 <-> Z.min 1 1 <= bit_at (0, 1) k <= Z.max 1 1.
Proof.
  split; [reflexivity |].
  apply (load_bits_exact 0 1 (2, 1) (0, 1)); unfold in_i64, i64_min, i64_max; cbn; lia.
Defined.
