(* ===== verification/ResolveFacts.v ===== *)
(** * Resolving is total and gives a well-formed plan

    For targets that are a tree ([targets_ok]) and records as the parser
    returns them ([cell_ok]) every operation of the resolver returns, without
    a panic: it only appends to the plan, every op it appends names objects
    that exist ([plan_ok]), and the plan keeps within its limit. *)

From Stdlib Require Import ZArith Lia Ascii String.
From stdpp Require Import base list strings gmap.
From S2P Require Import Prelude Common Number NumberFacts Lexer Sim LexerFacts Expr ExprFacts Syntax Parser ParserFacts.
From S2P Require Import Targets Total TargetsFacts Plan Options Apply ApplyFacts Resolve IndexFacts.
Open Scope Z_scope.
Open Scope list_scope.

(** ** Numbers of parsed records *)

Lemma value_numbers sign v : value_ok sign v -> value_numbers_ok v.
Proof.
  intros H i n E. destruct v as [x | a b c]; cbn in *.
  - injection E as <-. apply H.
  - destruct H as (A & B & C & _). destruct i as [| [| [| i]]]; subst; first [done | apply A | apply B | apply C].
Qed.

Lemma opt_value_numbers sign v : opt_value_ok sign v -> opt_numbers_ok v.
Proof. intros H x ->. by eapply value_numbers. Qed.

Lemma delval_numbers d : delval_ok d -> delval_numbers_ok d.
Proof.
  intros [A B]. split; [by eapply opt_value_numbers |]. destruct (pulse d); [done |].
  destruct B. split; by eapply opt_value_numbers.
Qed.

Lemma delvals_numbers ds : delvals_ok ds -> Forall delval_numbers_ok ds.
Proof. intros [_ H]. eapply Forall_impl; [exact H | apply delval_numbers]. Qed.

(** The only error of the resolver: the plan is full. *)
Definition plan_full (limits : SdfLimits) (e : SdfError) : Prop :=
  exists pos, e = mkError pos (cat ["the annotation has more than "; dec (max_plan_ops limits); " operations"]%string).

(** [bad] are the errors an operation may end with. *)
Section Resolver.
Variable t : SdfTargets.
Variable root : Z.
Variable limits : SdfLimits.
Hypothesis T : targets_ok t.
Hypothesis R0 : 0 <= root.
Hypothesis Rv : valid (scopes t) root.
Variable bad : SdfError -> Prop.
Hypothesis Hbad : forall e, plan_full limits e -> bad e.
Abbreviation ix := (build_index t).

(** A scope of the targets. *)
Definition a_scope (i : Z) : Prop := 0 <= i /\ valid (scopes t) i.

(** The instances of a cell type in a list of scopes. *)
Definition of_type (ty : string) (i : Z) : bool :=
  match scopes t !! Z.to_nat i with
  | Some s => negb (bool_decide (sc_kind s = ScopeGenerate)) && String.eqb (sc_cell_type s) ty
  | None => false
  end.

(** The wildcard table lists the instances below the root. *)
Definition types_ok (m : gmap string (list Z)) : Prop :=
  forall ty, let regions := default [] (m !! ty) in
    NoDup regions /\ forall i, i ∈ regions <-> below t root i /\ of_type ty i = true.

Record resolver_ok (r : Resolver) : Prop := mkResolverOk {
  ro_plan : plan_ok t (rs_plan r);
  ro_size : Z.of_nat (length (ops (rs_plan r))) <= Z.max 0 (max_plan_ops limits);
  ro_types : forall m, by_cell_type r = Some m -> types_ok m
}.

(** What resolving a record does to the plan: it is only appended to. *)
Record grows (r r' : Resolver) : Prop := mkGrows {
  gr_version : plan_version (rs_plan r') = plan_version (rs_plan r);
  gr_timescale : plan_timescale (rs_plan r') = plan_timescale (rs_plan r);
  gr_root : plan_root (rs_plan r') = plan_root (rs_plan r);
  gr_ops : ops (rs_plan r) `prefix_of` ops (rs_plan r');
  gr_lists : delay_lists (rs_plan r) `prefix_of` delay_lists (rs_plan r');
  gr_warnings : plan_warnings (rs_plan r) `prefix_of` plan_warnings (rs_plan r')
}.

#[local] Instance grows_preorder : PreOrder grows.
Proof.
  split.
  - intros r. by constructor.
  - intros a b c [] []. constructor; try congruence; by etrans.
Qed.

Definition does {A} (r : Resolver) (ok : A -> Resolver -> Prop) (o : outcome SdfError (A * Resolver)) : Prop :=
  match o with
  | Done (a, r') => resolver_ok r' /\ grows r r' /\ ok a r'
  | Fail e => bad e
  | Panic _ | NoFuel => False
  end.

Definition anyway {A} (_ : A) (_ : Resolver) : Prop := True.

Lemma does_ret {A} r (ok : A -> Resolver -> Prop) a : resolver_ok r -> ok a r -> does r ok (ret a r).
Proof. intros O H. split; [done |]. split; [done | exact H]. Qed.

Lemma does_bind {A B} r (ok : A -> Resolver -> Prop) (ok' : B -> Resolver -> Prop)
  (m : M SdfError Resolver A) (k : A -> M SdfError Resolver B) :
  does r ok (m r) -> (forall a r', resolver_ok r' -> grows r r' -> ok a r' -> does r' ok' (k a r')) ->
  does r ok' (bind m k r).
Proof.
  intros H K. unfold bind. destruct (m r) as [[a r'] | e | |]; cbn in H; [| done ..].
  destruct H as (O & G & Ha). specialize (K a r' O G Ha). destruct (k a r') as [[b r''] | e | |]; cbn in *; [| done ..].
  destruct K as (O' & G' & Hb). split; [done |]. split; [by etrans | done].
Qed.

Lemma does_pure {A B} r (ok : B -> Resolver -> Prop) (m : M SdfError Resolver A) a (k : A -> M SdfError Resolver B) :
  pure m a -> does r ok (k a r) -> does r ok (bind m k r).
Proof. intros P K. unfold bind. by rewrite P. Qed.

Lemma does_weaken {A} r (ok ok' : A -> Resolver -> Prop) o :
  does r ok o -> (forall a r', ok a r' -> ok' a r') -> does r ok' o.
Proof. intros H W. destruct o as [[a r'] | e | |]; cbn in *; [| done ..]. destruct H as (O & G & Ha). auto. Qed.

Lemma does_when r c (m : M SdfError Resolver unit) :
  resolver_ok r -> does r anyway (m r) -> does r anyway (when c m r).
Proof. intros O H. destruct c; [done | by apply does_ret]. Qed.

Lemma does_fold {A} r (body : unit -> A -> M SdfError Resolver unit) xs :
  resolver_ok r -> (forall x r', x ∈ xs -> resolver_ok r' -> grows r r' -> does r' anyway (body tt x r')) ->
  does r anyway (fold_m body xs tt r).
Proof.
  revert r. induction xs as [| x xs IH]; intros r O Step; cbn [fold_m]; [by apply does_ret |].
  eapply does_bind; [apply Step; [by left | done | done] |]. intros [] r' O' G _.
  apply IH; [done |]. intros y r'' Hy O'' G'. apply Step; [by right | done | by etrans].
Qed.

(** *** Appending to the plan *)

Lemma prefix_valid {A} (xs ys : list A) i : xs `prefix_of` ys -> valid xs i -> valid ys i.
Proof. intros P%prefix_length V. unfold valid in *. lia. Qed.

Lemma op_ok_mono ls ls' kind : ls `prefix_of` ls' -> op_ok t ls kind -> op_ok t ls' kind.
Proof. intros P. destruct kind; cbn; intuition eauto using prefix_valid. Qed.

Lemma grows_op r r' kind :
  grows r r' -> op_ok t (delay_lists (rs_plan r)) kind -> op_ok t (delay_lists (rs_plan r')) kind.
Proof. intros [] H. by eapply op_ok_mono. Qed.

Lemma warn_does r pos message : resolver_ok r -> does r anyway (warn pos message r).
Proof.
  intros [P S Ty]. split; [by constructor |]. split; [| done]. constructor; cbn; try done. by eexists.
Qed.

Lemma push_does r pos kind :
  resolver_ok r -> op_ok t (delay_lists (rs_plan r)) kind -> does r anyway (push limits pos kind r).
Proof.
  intros [[Po Pl] S Ty] Ok. unfold push, bind, get.
  destruct (Z.leb_spec (max_plan_ops limits) (Z.of_nat (length (ops (rs_plan r))))) as [Le | Lt];
    [by apply Hbad; exists pos |].
  split; [| split; [constructor; cbn; try done; by eexists | done]]. constructor; cbn; [| | done].
  - split; cbn; [| done]. apply Forall_app. split; [done | by apply Forall_singleton].
  - rewrite length_app. cbn. lia.
Qed.

Lemma delay_op_does r m l :
  resolver_ok r -> Forall delval_numbers_ok l ->
  does r (fun d r' => valid (delay_lists (rs_plan r')) (list_of d)) (delay_op m l r).
Proof.
  intros [[Po Pl] S Ty] Ok. unfold delay_op, bind, get, update_plan, modify, ret. cbn.
  set (n := length (delay_lists (rs_plan r))).
  assert (P : delay_lists (rs_plan r) `prefix_of` delay_lists (rs_plan r) ++ [l]) by by eexists.
  split; [| split; [by constructor |]].
  - constructor; cbn; [| done | done]. split; cbn.
    + eapply Forall_impl; [exact Po |]. intros op H. by eapply op_ok_mono.
    + apply Forall_app. split; [done | by apply Forall_singleton].
  - unfold valid. cbn. rewrite length_app. cbn. fold n. unfold wrap_u32, wrap_u.
    pose proof (Z.mod_le (Z.of_nat n) (2 ^ 32) ltac:(lia) ltac:(lia)).
    pose proof (Z.mod_pos_bound (Z.of_nat n) (2 ^ 32) ltac:(lia)). lia.
Qed.

Lemma scope_name_does r sc : resolver_ok r -> a_scope sc -> does r anyway (scope_name t sc r).
Proof.
  intros O [_ V]. unfold scope_name. destruct (path_of_done (E := SdfError) (S := Resolver) t (to_forest t T) sc V) as [text ->].
  by apply (does_ret (A := string)).
Qed.

(** A warning that names a scope. *)
Lemma warn_scope_does r sc pos message :
  resolver_ok r -> a_scope sc -> does r anyway (bind (scope_name t sc) (fun owner => warn pos (message owner)) r).
Proof. intros O V. eapply does_bind; [by apply scope_name_does |]. intros. by apply warn_does. Qed.

Lemma push_all_does {A} r pos (make : A -> SdfOpKind) xs :
  resolver_ok r -> (forall x, x ∈ xs -> op_ok t (delay_lists (rs_plan r)) (make x)) ->
  does r anyway (fold_m (fun _ x => push limits pos (make x)) xs tt r).
Proof.
  intros O H. apply does_fold; [done |]. intros x r' Hx O' G. apply push_does; [done |]. by eapply grows_op; auto.
Qed.

(** *** Names and paths *)

Lemma a_scope_lookup i : a_scope i -> exists s, scopes t !! Z.to_nat i = Some s.
Proof. intros [_ V]. by apply valid_lookup. Qed.

Lemma walk_scope i components j : a_scope i -> walk ix i components = Some j -> a_scope j.
Proof. intros [I V] W. apply (walk_sound t T) in W. by eapply leads_valid in W. Qed.

Lemma child_scope i c j : child ix i c = Some j -> a_scope j.
Proof. intros W. apply (child_sound t T) in W as (s & Hj & Es & _). split; [done | by eapply lookup_valid]. Qed.

Lemma port_scope_does r region input output pos what :
  resolver_ok r -> a_scope region ->
  does r (fun sc _ => opt_ok a_scope sc) (port_scope t ix region input output pos what r).
Proof.
  intros O V. unfold port_scope. destruct (walk ix region (path input)) as [sc |] eqn:W.
  - destruct (bool_decide _); [apply does_ret; [done | by eapply walk_scope] |].
    eapply does_bind; [by apply warn_does |]. intros. by apply does_ret.
  - rewrite <- bind_assoc. eapply does_bind; [by apply warn_scope_does |]. intros. by apply does_ret.
Qed.

Lemma path_row_ok sc s edge input output condition i a o :
  scopes t !! Z.to_nat sc = Some s -> path_row s edge input output condition (i, a, o) -> path_ok t sc i a o.
Proof.
  intros Es (_ & _ & _ & p & x & y & Ep & Ex & Ey & _). exists s, p.
  split_and!; [done | done | by eapply lookup_valid ..].
Qed.

Lemma push_paths_does r pos make found :
  resolver_ok r -> (forall sc i a o, (sc, (i, a, o)) ∈ found -> op_ok t (delay_lists (rs_plan r)) (make sc i a o)) ->
  does r anyway (push_paths limits pos make found r).
Proof.
  intros O H. unfold push_paths. apply does_fold; [done |]. intros [sc [[i a] o]] r' Hx O' G.
  apply push_does; [done |]. eapply grows_op; eauto.
Qed.

Lemma in_rows {A B} (a : A) (b : B) c found : (a, b) ∈ map (fun row => (c, row)) found -> a = c /\ b ∈ found.
Proof. intros H. apply list_elem_of_In, in_map_iff in H as (x & [= -> ->] & H). by rewrite list_elem_of_In. Qed.

Lemma warn_percent_does r pos v : resolver_ok r -> does r anyway (warn_percent pos v r).
Proof.
  intros O. unfold warn_percent. destruct v as [v |]; [| by apply does_ret].
  apply does_fold; [done |]. intros set r' _ O' _. destruct (member v set); [| by apply does_ret].
  destruct (cmp_exact _ _); first [by apply does_ret | by apply warn_does].
Qed.

Lemma path_pulse_does r region pos percent between reject error :
  resolver_ok r -> a_scope region -> opt_numbers_ok reject -> opt_numbers_ok error ->
  does r anyway (path_pulse t limits ix region pos percent between reject error r).
Proof.
  intros O V Nr Ne. unfold path_pulse. eapply does_bind.
  { apply does_when; [done |]. eapply does_bind; [by apply warn_percent_does |]. intros. by apply warn_percent_does. }
  intros [] r1 O1 _ _. destruct between as [[input output] |].
  - eapply does_bind; [by apply port_scope_does |]. intros [sc |] r2 O2 _ Hsc; [| by apply does_ret].
    destruct (a_scope_lookup sc Hsc) as [s Es].
    eapply does_pure; [by apply (pure_path_matches t T sc s (proj1 Hsc) Es) |].
    eapply does_bind; [apply does_when; [done | by apply warn_scope_does] |]. intros [] r3 O3 _ _.
    apply push_paths_does; [done |]. intros sc' i a o [-> H]%in_rows.
    apply (path_rows_elem t T sc s Es) in H. split; [by eapply path_row_ok | done].
  - destruct (a_scope_lookup region V) as [s Es].
    destruct (pure_all_paths t T region s Es None) as (found & Pf & Hf). eapply does_pure; [exact Pf |].
    eapply does_bind; [apply does_when; [done | by apply warn_scope_does] |]. intros [] r3 O3 _ _.
    apply push_paths_does; [done |]. intros sc' i a o H. apply Hf in H as (-> & _ & _ & _ & p & x & y & Ep & Ex & Ey & _).
    split; [| done]. exists s, p. split_and!; [done | done | by eapply lookup_valid ..].
Qed.

Lemma io_path_does r region m pos condition input output retain delays :
  resolver_ok r -> a_scope region -> Forall delval_numbers_ok delays ->
  does r anyway (io_path t limits ix region m pos condition input output retain delays r).
Proof.
  intros O V N. unfold io_path. eapply does_bind; [by apply port_scope_does |].
  intros [sc |] r2 O2 _ Hsc; [| by apply does_ret]. destruct (a_scope_lookup sc Hsc) as [s Es].
  eapply does_pure; [by apply (pure_path_matches t T sc s (proj1 Hsc) Es) |].
  destruct (concat _) as [| row rows] eqn:Ef; [by apply warn_scope_does |]. rewrite <- Ef.
  eapply does_bind; [apply does_when; [done | by apply warn_does] |]. intros [] r3 O3 _ _.
  eapply does_bind; [by apply delay_op_does |]. intros d r4 O4 _ Hd.
  apply push_paths_does; [done |]. intros sc' i a o [-> H]%in_rows.
  apply (path_rows_elem t T sc s Es) in H. split; [by eapply path_row_ok | done].
Qed.

(** *** Ports and nets *)

Lemma port_index_ok sc s n i :
  0 <= sc -> scopes t !! Z.to_nat sc = Some s -> port_index ix sc n = Some i -> valid (ports s) i.
Proof.
  intros H0 Es. rewrite (port_index_declared t T sc s H0 Es). intros H. apply fmap_Some in H as ([j p] & E & ->).
  apply list_find_Some in E as (E & _). cbn. apply lookup_lt_Some in E. unfold valid. lia.
Qed.

Lemma port_target_does r region p allowed role warned :
  resolver_ok r -> a_scope region ->
  does r (fun x _ => opt_ok (Plan.port_ok t) x) (port_target t ix region p allowed role warned r).
Proof.
  intros O V. unfold port_target. destruct (walk ix region (path p)) as [sc |] eqn:W.
  2: { eapply does_bind; [apply does_when; [done | by apply warn_scope_does] |]. intros. by apply does_ret. }
  pose proof (walk_scope _ _ _ V W) as Vs. destruct (a_scope_lookup sc Vs) as [s Es].
  eapply does_pure; [by apply pure_index |].
  destruct (port_index ix sc (name (port p))) as [i |] eqn:Ei.
  2: { eapply does_bind; [apply does_when; [done | by apply warn_scope_does] |]. intros. by apply does_ret. }
  pose proof (port_index_ok sc s _ i (proj1 Vs) Es Ei) as Vi. destruct (valid_lookup _ _ Vi) as [d Ed].
  assert (Ok : forall b, Plan.port_ok t (mkPortTarget sc i b)) by (intros b; by exists s).
  eapply does_pure; [by apply pure_index |]. destruct (negb _).
  { eapply does_bind; [apply does_when; [done | by apply warn_does] |]. intros. by apply does_ret. }
  destruct (bits (port p)) as [b |]; [| apply does_ret; [done | apply Ok]].
  destruct (_ || _).
  - eapply does_bind; [apply does_when; [done | by apply warn_does] |]. intros. by apply does_ret.
  - apply does_ret; [done | apply Ok].
Qed.

Lemma net_loads_does r region net pos :
  resolver_ok r -> a_scope region ->
  does r (fun x _ => opt_ok (Forall (Plan.port_ok t)) x) (net_loads t ix region net pos r).
Proof.
  intros O V. unfold net_loads. destruct (walk ix region (path net)) as [sc |] eqn:W; [| by apply does_ret].
  pose proof (walk_scope _ _ _ V W) as Vs. destruct (a_scope_lookup sc Vs) as [s Es].
  destruct (port_index ix sc _); [by apply does_ret |].
  rewrite (nets_table t T sc) by apply Vs. rewrite Es.
  destruct (first_index _ (nets s)) as [n |] eqn:En; [| by apply does_ret].
  apply first_index_valid in En as (declared & Hn & En & _).
  eapply does_pure; [by apply pure_index |]. eapply does_pure; [by apply pure_index |].
  assert (L : forall load, load ∈ loads declared -> Plan.port_ok t (mkPortTarget (load_scope load) (load_port load) None)).
  { intros load Hl. eapply so_loads; [by eapply (to_scope t T) | by eapply list_elem_of_lookup_2 | done]. }
  assert (All : forall r selected, resolver_ok r -> does r (fun x _ => opt_ok (Forall (Plan.port_ok t)) x)
    ((let* found := selected_loads t selected declared in
      when (match found with [] => true | _ => false end)
        (warn pos (cat ["net "; ticked (fmt_port_ref net); " has no load ports; the NETDELAY is not annotated"]%string)) ;;;
      ret (Some found)) r)).
  { intros r1 selected O1. eapply does_pure; [by apply pure_selected_loads |].
    eapply does_bind; [apply does_when; [done | by apply warn_does] |]. intros. apply does_ret; [done |]. cbn.
    apply Forall_forall. intros p Hp. by eapply reached_ok. }
  destruct (bits (port net)) as [b |]; [| by apply All]. destruct (_ || _); [| by apply All].
  eapply does_bind; [by apply warn_does |]. intros. apply does_ret; [done | constructor].
Qed.

(** *** Devices *)

Lemma primitive_does r pos m delays sc :
  resolver_ok r -> a_scope sc -> Forall delval_numbers_ok delays ->
  does r anyway (bind (delay_op m delays) (fun d => push limits pos (PrimitiveDelay sc d)) r).
Proof.
  intros O [_ V] N. eapply does_bind; [by apply delay_op_does |]. intros d r' O' _ Hd. by apply push_does.
Qed.

Lemma device_scope_does r m pos delays sc output :
  resolver_ok r -> a_scope sc -> Forall delval_numbers_ok delays ->
  does r anyway (device_scope t limits ix m pos delays sc output r).
Proof.
  intros O V N. destruct (a_scope_lookup sc V) as [s Es]. unfold device_scope.
  destruct (pure_all_paths t T sc s Es output) as (found & Pf & Hf). eapply does_pure; [exact Pf |].
  destruct found as [| row rows] eqn:Ef.
  - destruct (pure_driving_primitives t T sc s Es output) as (prims & Pp & Hp). eapply does_pure; [exact Pp |].
    destruct prims as [| c cs] eqn:Ec; [by apply warn_scope_does |]. rewrite <- Ec in *.
    eapply does_bind; [by apply delay_op_does |]. intros d r' O' _ Hd. apply push_all_does; [done |].
    intros x Hx. split; [by apply Hp | done].
  - rewrite <- Ef in *. eapply does_bind; [by apply delay_op_does |]. intros d r' O' _ Hd. apply push_paths_does; [done |].
    intros sc' i a o H. apply Hf in H as (-> & _ & _ & _ & p & x & y & Ep & Ex & Ey & _).
    split; [| done]. exists s, p. split_and!; [done | done | by eapply lookup_valid ..].
Qed.

Lemma device_does r region m pos p delays :
  resolver_ok r -> a_scope region -> Forall delval_numbers_ok delays ->
  does r anyway (device t limits ix region m pos p delays r).
Proof.
  intros O V N. destruct (a_scope_lookup region V) as [s Es]. unfold device. eapply does_pure; [by apply pure_index |].
  destruct (bool_decide _).
  { destruct p; [by apply warn_scope_does | by apply primitive_does]. }
  destruct p as [p |]; [| by apply device_scope_does].
  destruct (walk ix region (path p)) as [sc |] eqn:W; [| by apply warn_scope_does].
  pose proof (walk_scope _ _ _ V W) as Vs. destruct (a_scope_lookup sc Vs) as [ss Ess].
  eapply does_pure; [by apply (pure_port_named t T sc ss (proj1 Vs) Ess) |].
  destruct (declared_port ss _) as [d |].
  { destruct (negb _); [by apply warn_does | by apply device_scope_does]. }
  destruct (child ix sc (port p)) as [c |] eqn:Ec; [| by apply warn_scope_does].
  pose proof (child_scope _ _ _ Ec) as Vc. destruct (a_scope_lookup c Vc) as [cs Ecs].
  eapply does_pure; [by apply pure_index |].
  destruct (bool_decide _); [by apply primitive_does | by apply device_scope_does].
Qed.

(** *** Records *)

Lemma del_def_does r region m def :
  resolver_ok r -> a_scope region -> del_def_ok def -> does r anyway (del_def t limits ix region m def r).
Proof.
  intros O V Ok. unfold del_def. destruct (_ <? _)%nat; [by apply does_ret |].
  assert (N : Forall delval_numbers_ok (del_delays def)).
  { apply delvals_numbers. by destruct def; apply Ok. }
  destruct def as [pos condition input output retain delays | pos p delays | pos source load delays | pos net delays
                  | pos p delays]; cbn [del_delays] in N.
  - by apply io_path_does.
  - eapply does_bind; [by apply port_target_does |]. intros [load |] r1 O1 _ Hl; [| by apply does_ret].
    eapply does_bind; [by apply delay_op_does |]. intros d r2 O2 _ Hd. by apply push_does.
  - eapply does_bind; [by apply port_target_does |]. intros [ld |] r1 O1 _ Hl; [| by apply does_ret].
    eapply does_bind; [by apply port_target_does |]. intros src r2 O2 _ Hs.
    eapply does_bind; [apply does_when; [done | by apply warn_does] |]. intros [] r3 O3 _ _.
    eapply does_bind; [by apply delay_op_does |]. intros d r4 O4 _ Hd. apply push_does; [done |].
    split_and!; [done | done |]. by intros x ->.
  - eapply does_bind; [by apply net_loads_does |]. intros found r1 O1 _ Hf.
    eapply (does_bind _ (fun x _ => opt_ok (Forall (Plan.port_ok t)) x)).
    { destruct found as [loads |]; [by apply does_ret |].
      eapply does_bind; [by apply port_target_does |]. intros [load |] r2 O2 _ Hl; apply does_ret; try done.
      by apply Forall_singleton. }
    intros [loads |] r2 O2 _ Hl; [| by apply does_ret].
    eapply does_bind; [by apply delay_op_does |]. intros d r3 O3 _ Hd. apply push_all_does; [done |].
    intros x Hx. split; [| done]. cbn in Hl. rewrite Forall_forall in Hl. by apply Hl.
  - by apply device_does.
Qed.

Lemma deltype_does r region d :
  resolver_ok r -> a_scope region -> del_type_ok d -> does r anyway (deltype t limits ix region d r).
Proof.
  intros O V Ok. destruct d as [pos percent between reject error | defs | defs]; cbn in Ok |- *.
  - destruct Ok as (_ & A & B). apply path_pulse_does; [done | done | by eapply opt_value_numbers ..].
  - apply does_fold; [done |]. intros def r' Hd O' _. apply del_def_does; [done | done |].
    destruct Ok as [_ F]. rewrite Forall_forall in F. by apply F.
  - apply does_fold; [done |]. intros def r' Hd O' _. apply del_def_does; [done | done |].
    destruct Ok as [_ F]. rewrite Forall_forall in F. by apply F.
Qed.

Lemma timing_check_does r region c :
  resolver_ok r -> a_scope region -> check_ok c -> does r anyway (timing_check t limits ix region c r).
Proof.
  intros O V (Lp & _ & Lv & Fv & _). assert (Eo : entry_ok c) by done. unfold timing_check.
  assert (P0 : valid (Syntax.ports c) 0) by (unfold valid; rewrite Lp; destruct (kind c); cbn; lia).
  destruct (valid_lookup _ _ P0) as [first Ef]. eapply does_pure; [by apply pure_index |].
  destruct (walk ix region _) as [sc |] eqn:W; [| by apply warn_scope_does].
  pose proof (walk_scope _ _ _ V W) as Vs. destruct (a_scope_lookup sc Vs) as [s Es].
  destruct (existsb _ _); [by apply warn_does |].
  destruct (pure_check_ports c Eo) as (rp & _ & Pp). eapply does_pure; [exact Pp |].
  eapply does_pure; [by apply pure_index |].
  eapply does_pure; [by apply (pure_matching_limits t T sc s c _ _ _ (proj1 Vs) Es) |]. cbn beta iota.
  destruct (negb _); [by apply warn_scope_does |].
  apply does_fold; [done |]. intros [[i slot] value] r' Hx O' G. apply push_does; [done |].
  apply limits_elem in Hx as (_ & d & slots & v & Ed & _ & _ & _ & Ex); [| eapply so_checks; by eapply (to_scope t T)].
  split; [exists s; split; [done | by eapply lookup_valid] |].
  pose proof (Forall_lookup_1 _ _ _ _ Fv Ex) as H. by eapply value_numbers.
Qed.

(** *** Cells *)

Lemma map_collect (m : gmap string (list Z)) s i ty :
  default [] ((if bool_decide (sc_kind s = ScopeGenerate) then m
               else <[sc_cell_type s := default [] (m !! sc_cell_type s) ++ [i]]> m) !! ty)
  = default [] (m !! ty)
    ++ (if negb (bool_decide (sc_kind s = ScopeGenerate)) && String.eqb (sc_cell_type s) ty then [i] else []).
Proof.
  destruct (bool_decide _); cbn; [by rewrite app_nil_r |].
  destruct (String.eqb_spec (sc_cell_type s) ty) as [<- | Ne]; [by rewrite lookup_insert_eq |].
  rewrite lookup_insert_ne by done. by rewrite app_nil_r.
Qed.

Lemma cell_type_map_pure r : exists m, cell_type_map t root r = Done (m, r) /\ types_ok m.
Proof.
  destruct (subtree_visits t (to_forest t T) root R0 Rv (E := SdfError) r) as (all & Ea & Nd & Ab).
  assert (G : forall xs (m : gmap string (list Z)), (forall i, i ∈ xs -> valid (scopes t) i) ->
    exists m' : gmap string (list Z), fold_m (E := SdfError) (fun m i =>
      let* s := scope t i in
      ret (if bool_decide (sc_kind s = ScopeGenerate) then m
           else <[sc_cell_type s := default [] (m !! sc_cell_type s) ++ [i]]> m)) xs m r = Done (m', r)
    /\ forall ty, default [] (m' !! ty) = default [] (m !! ty) ++ List.filter (of_type ty) xs).
  { induction xs as [| i xs IH]; intros m Vx; cbn [fold_m List.filter].
    { exists m. split; [done |]. intros ty. by rewrite app_nil_r. }
    destruct (valid_lookup (scopes t) i) as [s Es]; [by apply Vx; left |].
    unfold bind at 1 2, scope. rewrite (index_lookup _ _ s) by done.
    edestruct IH as (m' & Em & Hm); [intros j Hj; apply Vx; by right |].
    exists m'. split; [exact Em |]. intros ty. rewrite Hm, map_collect, <- app_assoc. unfold of_type at 2. rewrite Es.
    by destruct (_ && _). }
  destruct (G all ∅) as (m & Em & Hm).
  { intros i Hi. apply Ab in Hi. by eapply below_bounds; [apply T | |]. }
  exists m. split.
  - unfold cell_type_map, bind at 1. by rewrite Ea.
  - intros ty. cbn zeta. rewrite Hm, lookup_empty. cbn. split.
    + clear - Nd. induction Nd as [| x l Nx _ IH]; [constructor |]. cbn. destruct (of_type ty x); [| done].
      constructor; [| done]. rewrite list_elem_of_In, filter_In, <- list_elem_of_In. by intros [].
    + intros i. rewrite list_elem_of_In, filter_In, <- list_elem_of_In. by rewrite Ab.
Qed.

Lemma wildcard_regions_does r ty :
  resolver_ok r ->
  does r (fun regions _ => NoDup regions /\ forall i, i ∈ regions <-> below t root i /\ of_type ty i = true)
    (wildcard_regions t root ty r).
Proof.
  intros O. unfold wildcard_regions. unfold bind at 1, get.
  eapply (does_bind _ (fun m _ => types_ok m)).
  - destruct (by_cell_type r) as [m |] eqn:Em; [apply does_ret; [done | by eapply ro_types] |].
    destruct (cell_type_map_pure r) as (m & E & Hm). unfold bind, modify, ret. rewrite E.
    split; [| split; [by constructor | done]]. destruct O as [P S _]. constructor; [done | done |]. by intros m' [= <-].
  - intros m r' O' _ Hm. apply does_ret; [done |]. apply Hm.
Qed.

(** The regions a cell annotates: with a wildcard the instances of its type
    at or below the root, otherwise the instance its path names if it is of
    its type. *)
Definition regions_of (c : SdfCell) (regions : list Z) : Prop :=
  match instance c with
  | Wildcard => NoDup regions /\ forall i, i ∈ regions <-> below t root i /\ of_type (cell_type c) i = true
  | Path components =>
      regions = match walk ix root components with
                | Some i => if of_type (cell_type c) i then [i] else []
                | None => []
                end
  end.

Lemma cell_regions_does r c :
  resolver_ok r -> does r (fun regions _ => regions_of c regions) (cell_regions t root ix c r).
Proof.
  intros O. assert (Vr : a_scope root) by done. unfold cell_regions, regions_of.
  destruct (instance c) as [components |].
  - destruct (walk ix root components) as [region |] eqn:W.
    + pose proof (walk_scope _ _ _ Vr W) as V. destruct (a_scope_lookup region V) as [s Es].
      eapply does_pure; [by apply pure_index |]. unfold of_type. rewrite Es.
      destruct (bool_decide _), (String.eqb _ _); cbn [orb negb andb];
        try (rewrite <- bind_assoc; eapply does_bind; [by apply warn_scope_does | intros; by apply does_ret]).
      by apply does_ret.
    + rewrite <- bind_assoc. eapply does_bind; [by apply warn_scope_does |]. intros. by apply does_ret.
  - eapply does_bind; [by apply wildcard_regions_does |]. intros regions r' O' _ H.
    eapply does_bind; [apply does_when; [done | by apply warn_scope_does] |]. intros. by apply does_ret.
Qed.

Lemma regions_scopes c regions i : regions_of c regions -> i ∈ regions -> a_scope i.
Proof.
  unfold regions_of. destruct (instance c) as [components |].
  - intros ->. destruct (walk ix root components) as [j |] eqn:W; [| by intros ?%elem_of_nil].
    destruct (of_type _ j); [| by intros ?%elem_of_nil]. intros ->%list_elem_of_singleton.
    by eapply (walk_scope root).
  - intros [_ H] Hi. apply H in Hi as [B _]. apply (below_bounds t (to_forest t T) root Rv) in B. split; [lia | apply B].
Qed.

Lemma cell_does r c : resolver_ok r -> cell_ok c -> does r anyway (cell t root limits ix c r).
Proof.
  intros O [_ Ok]. unfold cell. eapply does_bind; [by apply cell_regions_does |]. intros regions r1 O1 _ Hr.
  apply does_fold; [done |]. intros region r2 Hi O2 _. pose proof (regions_scopes c regions region Hr Hi) as V.
  apply does_fold; [done |]. intros s r3 Hs O3 _. rewrite Forall_forall in Ok. specialize (Ok s Hs).
  destruct s as [deltypes | checks |]; cbn in Ok |- *; [| | by apply does_ret].
  - destruct Ok as [_ F]. rewrite Forall_forall in F. apply does_fold; [done |]. intros d r4 Hd O4 _.
    apply deltype_does; auto.
  - rewrite Forall_forall in Ok. apply does_fold; [done |]. intros k r4 Hk O4 _. apply timing_check_does; auto.
Qed.
End Resolver.
