(* ===== verification/ResolveProps.v ===== *)
(** * Resolving a file

    [resolve] reads and resolves cell by cell; it gives what resolving the
    cells of the parsed file one after the other gives. The plan of a file is
    well-formed and does not depend on how the file is read, and applying it
    never fails. *)

From Stdlib Require Import ZArith Lia Ascii String Sorting.Sorted Sorting.Permutation.
From stdpp Require Import base list strings gmap.
From S2P Require Import Prelude Common Number NumberFacts Lexer Sim LexerFacts Expr ExprFacts Syntax Parser ParserFacts.
From S2P Require Import Targets Total TargetsFacts Plan Options Apply ApplyFacts Resolve IndexFacts.
From S2P Require Import IndexFacts ResolveFacts.
Open Scope Z_scope.
Open Scope list_scope.

(** ** One cell after the other *)

Definition fresh_resolver (h : SdfHeader) (root : Z) : Resolver :=
  mkResolver None (mkPlan (version h) (timescale_of h) root [] [] []).

(** The plan of a resolver, with the warnings of the reader. *)
Definition finish_plan (ws : list SdfWarning) (p : SdfPlan) : SdfPlan :=
  mkPlan (plan_version p) (plan_timescale p) (plan_root p) (ops p) (delay_lists p)
    (sort_warnings (ws ++ plan_warnings p)).

Definition resolve_cells (t : SdfTargets) (root : Z) (limits : SdfLimits) (cs : list SdfCell) : M SdfError Resolver unit :=
  fold_m (fun _ c => Resolve.cell t root limits (build_index t) c) cs tt.

(** The reference: resolve the cells of a parsed file. *)
Definition resolve_file (f : SdfFile) (t : SdfTargets) (root : Z) (limits : SdfLimits) : outcome SdfError SdfPlan :=
  match resolve_cells t root limits (cells f) (fresh_resolver (file_header f) root) with
  | Done (_, r) => Done (finish_plan (file_warnings f) (rs_plan r))
  | Fail e => Fail e
  | Panic w => Panic w
  | NoFuel => NoFuel
  end.

(** Continue with the next computation, whatever its result type. *)
Definition and_then {A B} (o : outcome SdfError A) (k : A -> outcome SdfError B) : outcome SdfError B :=
  match o with
  | Done a => k a
  | Fail e => Fail e
  | Panic w => Panic w
  | NoFuel => NoFuel
  end.

Section Batch.
Context {L : Type} `{Lexing L} `{Measured L}.
Variable t : SdfTargets.
Variable root : Z.
Variable limits : SdfLimits.

Definition parse_body (cs : list SdfCell) : M SdfError (SdfReader L) (list SdfCell + list SdfCell) :=
  let* c := next_cell in
  match c with
  | Some cell => continue (cs ++ [cell])
  | None => break cs
  end.

Definition resolve_body (_ : unit) : M SdfError (SdfReader L * Resolver) (unit + unit) :=
  let* c := reading next_cell in
  match c with
  | Some c => resolving (Resolve.cell t root limits (build_index t) c) ;;; continue tt
  | None => break tt
  end.

Lemma parse_with_eq l :
  parse_with l limits
  = and_then (Parser.new l limits) (fun reader =>
      and_then (loop parse_body [] reader) (fun '(cs, reader') => Done (mkFile (header reader') cs (warnings reader')))).
Proof.
  unfold parse_with, Parser.new, bind at 1. by destruct (read_header (initial l limits)) as [[[] reader] | | |].
Qed.

Lemma resolve_with_eq l :
  resolve_with l t root limits
  = and_then (Parser.new l limits) (fun reader =>
      and_then (loop resolve_body tt (reader, fresh_resolver (header reader) root))
        (fun '(_, (reader', rs)) => Done (finish_plan (warnings reader') (rs_plan rs)))).
Proof.
  unfold resolve_with. by destruct (Parser.new l limits) as [reader | | |].
Qed.

(** What is known of a reader, and of each cell it returns. *)
Variable Pre : SdfReader L -> Prop.
Hypothesis Step : forall reader, Pre reader ->
  match next_cell reader with
  | Done (Some c, reader') => cell_ok c /\ Pre reader'
  | _ => True
  end.

Lemma resolve_cells_cons c cs rs :
  resolve_cells t root limits (c :: cs) rs
  = and_then (Resolve.cell t root limits (build_index t) c rs) (fun '(_, rs') => resolve_cells t root limits cs rs').
Proof.
  unfold resolve_cells. cbn [fold_m]. unfold bind. by destruct (Resolve.cell _ _ _ _ c rs) as [[[] rs'] | | |].
Qed.

Lemma resolve_body_iter n reader rs :
  iter (Datatypes.S n) resolve_body tt (reader, rs)
  = and_then (next_cell reader) (fun '(c, reader') =>
      match c with
      | Some c => and_then (Resolve.cell t root limits (build_index t) c rs)
                    (fun '(_, rs') => iter n resolve_body tt (reader', rs'))
      | None => Done (tt, (reader', rs))
      end).
Proof.
  cbn [iter]. unfold bind at 1. unfold resolve_body at 1. unfold reading, resolving, zoom, bind, continue, break, ret.
  cbn [fst snd].
  destruct (next_cell reader) as [[[c |] reader'] | e | w |]; try done.
  cbn [and_then fst snd]. by destruct (Resolve.cell _ _ _ _ c rs) as [[[] rs'] | | |].
Qed.

Lemma parse_body_iter n cs reader :
  iter (Datatypes.S n) parse_body cs reader
  = and_then (next_cell reader) (fun '(c, reader') =>
      match c with
      | Some c => iter n parse_body (cs ++ [c]) reader'
      | None => Done (cs, reader')
      end).
Proof.
  cbn [iter]. unfold bind at 1. unfold parse_body at 1. unfold bind, continue, break, ret.
  by destruct (next_cell reader) as [[[c |] reader'] | e | w |].
Qed.

Lemma iter_batch n cs reader :
  Pre reader ->
  match iter n parse_body cs reader with
  | Done (cs', reader') =>
      exists new, cs' = cs ++ new /\ Forall cell_ok new
        /\ forall rs, iter n resolve_body tt (reader, rs)
           = and_then (resolve_cells t root limits new rs) (fun '(_, rs') => Done (tt, (reader', rs')))
  | Fail e =>
      exists new, Forall cell_ok new
        /\ forall rs, iter n resolve_body tt (reader, rs) = and_then (resolve_cells t root limits new rs) (fun _ => Fail e)
  | _ => True
  end.
Proof.
  revert cs reader. induction n as [| n IH]; intros cs reader P; [done |]. specialize (Step reader P).
  assert (E := resolve_body_iter n reader). rewrite parse_body_iter.
  destruct (next_cell reader) as [[[c |] reader'] | e | w |]; cbn [and_then] in *; try done.
  - destruct Step as [Ok P']. specialize (IH (cs ++ [c]) reader' P').
    destruct (iter n parse_body (cs ++ [c]) reader') as [[cs' reader''] | e | w |]; try done.
    + destruct IH as (new & -> & F & Ei). exists (c :: new). split; [by rewrite <- app_assoc |].
      split; [by constructor |]. intros rs. rewrite E, resolve_cells_cons.
      destruct (Resolve.cell _ _ _ _ c rs) as [[[] rs'] | | |]; try done. apply Ei.
    + destruct IH as (new & F & Ei). exists (c :: new). split; [by constructor |]. intros rs.
      rewrite E, resolve_cells_cons. destruct (Resolve.cell _ _ _ _ c rs) as [[[] rs'] | | |]; try done. apply Ei.
  - exists []. split; [by rewrite app_nil_r |]. split; [constructor | exact E].
  - exists []. split; [constructor | exact E].
Qed.
End Batch.

(** ** Two readers *)

Section Relation.
Context {L1 L2 : Type} `{X1 : Lexing L1} `{X2 : Lexing L2} `{M1 : Measured L1} `{M2 : Measured L2}.
Context (escape : SdfError -> Prop) (R : L1 -> L2 -> Prop) `{LS : !LexSim escape R}.
Variable t : SdfTargets.
Variable root : Z.
Variable limits : SdfLimits.
Hypothesis T : targets_ok t.
Hypothesis R0 : 0 <= root.
Hypothesis Rv : valid (scopes t) root.

(** The two readers have read the same, and the resolvers are the same. *)
Definition resolving_rel (s1 : SdfReader L1 * Resolver) (s2 : SdfReader L2 * Resolver) : Prop :=
  rrel R s1.1 s2.1 /\ s1.2 = s2.2 /\ resolver_ok t root limits s1.2.

Lemma resolve_body_sim s1 s2 :
  resolving_rel s1 s2 ->
  orel escape (fun x u1 u2 => match x with
                              | inl _ => resolving_rel u1 u2 /\ (fuel_of u2 < fuel_of s2)%nat
                              | inr _ => resolving_rel u1 u2
                              end) (resolve_body t root limits tt s1) (resolve_body t root limits tt s2).
Proof.
  destruct s1 as [r1 rs], s2 as [r2 rs2]. intros (Rr & E & Ok). cbn [fst snd] in *. subst rs2. unfold resolve_body.
  eapply (orel_bind _ (fun c u1 u2 => cell_read R r2 c u1.1 u2.1 /\ u1.2 = rs /\ u2.2 = rs)).
  { eapply orel_zoom; [by apply (next_cell_st escape R) |]. by intros c t1 t2 H. }
  intros [c |] [u1 v1] [u2 v2]; cbn [fst snd]; intros ((Ru & Hc & _ & _ & Hf) & -> & ->).
  - eapply (orel_bind _ (fun _ w1 w2 => resolving_rel w1 w2 /\ (fuel_of w2 < fuel_of r2)%nat)).
    + pose proof (cell_does t root limits T R0 Rv (plan_full limits) (fun _ H => H) rs c Ok Hc) as D. unfold resolving, zoom. cbn [snd fst].
      destruct (Resolve.cell t root limits (build_index t) c rs) as [[[] rs'] | e | w |]; cbn in D; try done; [| by left].
      destruct D as (O' & _ & _). split; [done |]. split; [by split_and! |]. apply Hf.
    + intros [] w1 w2 H. by apply orel_ret.
  - apply orel_ret. by split_and!.
Qed.

Lemma fresh_ok h : resolver_ok t root limits (fresh_resolver h root).
Proof. constructor; cbn; [split; constructor | lia | done]. Qed.

(** The same plan or the same error, up to the input limit. *)
Definition plans_rel (o1 o2 : outcome SdfError SdfPlan) : Prop :=
  match o1, o2 with
  | Done p1, Done p2 => p1 = p2
  | Fail e1, Fail e2 => e1 = e2 \/ escape e1
  | Fail e1, _ => escape e1
  | _, _ => False
  end.

Lemma resolve_with_sim l1 l2 :
  R l1 l2 -> plans_rel (resolve_with l1 t root limits) (resolve_with l2 t root limits).
Proof.
  intros Rl. rewrite !resolve_with_eq. unfold Parser.new.
  assert (S0 : st R false (initial l2 limits) (fuel_of (initial l2 limits)) 0 (initial l1 limits) (initial l2 limits)).
  { apply st_start. by constructor. }
  apply (read_header_st escape R) in S0.
  destruct (read_header (initial l1 limits)) as [[[] r1] | e1 | |], (read_header (initial l2 limits)) as [[[] r2] | e2 | |];
    cbn [and_then]; try done.
  - destruct S0 as (_ & _ & S0). apply st_rrel in S0. rewrite (rr_header _ _ _ S0).
    assert (H : orel escape (fun _ u1 u2 => resolving_rel u1 u2)
      (loop (resolve_body t root limits) tt (r1, fresh_resolver (header r2) root))
      (loop (resolve_body t root limits) tt (r2, fresh_resolver (header r2) root))).
    { apply (orel_loop _ (fun _ u1 u2 => resolving_rel u1 u2)).
      - apply (rrel_fuel escape R _ _ S0).
      - split; [done |]. split; [done | apply fresh_ok].
      - intros [] s1 s2 Hs. by apply resolve_body_sim. }
    destruct (loop (resolve_body t root limits) tt (r1, _)) as [[[] [u1 v1]] | e1 | |],
      (loop (resolve_body t root limits) tt (r2, _)) as [[[] [u2 v2]] | e2 | |]; cbn in H |- *; try done.
    destruct H as (_ & Ru & E & _). cbn in Ru, E. by rewrite E, (rr_warnings _ _ _ Ru).
  - cbn in S0. destruct (loop _ _ _) as [[[] [u2 v2]] | | |]; cbn; auto.
Qed.
End Relation.

(** ** The order of the warnings *)

Definition in_order (v w : SdfWarning) : Prop := pos_leb (warn_pos v) (warn_pos w) = true.
Definition at_pos (p : SdfPos) (w : SdfWarning) : bool := bool_decide (warn_pos w = p).

Lemma pos_leb_spec a b : pos_leb a b = true <-> line a < line b \/ (line a = line b /\ col a <= col b).
Proof.
  unfold pos_leb. destruct (Z.ltb_spec (line a) (line b)), (Z.eqb_spec (line a) (line b)), (Z.leb_spec (col a) (col b));
    cbn; split; intros; try done; lia.
Qed.

Lemma pos_leb_false a b : pos_leb a b = false -> pos_leb b a = true /\ a <> b.
Proof.
  intros H. assert (N : ~ (line a < line b \/ (line a = line b /\ col a <= col b))).
  { rewrite <- pos_leb_spec. congruence. }
  split; [apply pos_leb_spec; lia |]. intros ->. lia.
Qed.

Lemma pos_leb_trans a b c : pos_leb a b = true -> pos_leb b c = true -> pos_leb a c = true.
Proof. rewrite !pos_leb_spec. lia. Qed.

Lemma insert_warning_elem w ws x : x ∈ insert_warning w ws <-> x = w \/ x ∈ ws.
Proof.
  induction ws as [| v ws IH]; cbn; [by rewrite list_elem_of_singleton, elem_of_nil; intuition |].
  destruct (pos_leb _ _); rewrite !elem_of_cons, ?IH; intuition.
Qed.

Lemma insert_warning_sorted w ws : StronglySorted in_order ws -> StronglySorted in_order (insert_warning w ws).
Proof.
  induction 1 as [| v ws S IH F]; cbn; [repeat constructor |]. destruct (pos_leb (warn_pos v) (warn_pos w)) eqn:E.
  - constructor; [done |]. apply Forall_forall. intros x [-> | Hx]%insert_warning_elem; [done |].
    rewrite Forall_forall in F. by apply F.
  - apply pos_leb_false in E as [E _]. constructor; [by constructor |]. constructor; [done |].
    eapply Forall_impl; [exact F |]. intros x Hx. by eapply pos_leb_trans.
Qed.

(** Among equal positions a warning comes last. *)
Lemma insert_warning_stable w ws p :
  StronglySorted in_order ws ->
  List.filter (at_pos p) (insert_warning w ws) = List.filter (at_pos p) ws ++ List.filter (at_pos p) [w].
Proof.
  induction 1 as [| v ws S IH F]; [done |]. cbn [insert_warning].
  destruct (pos_leb (warn_pos v) (warn_pos w)) eqn:E.
  - cbn [List.filter]. rewrite IH. by destruct (at_pos p v).
  - cbn [List.filter]. destruct (at_pos p w) eqn:A; [| by rewrite app_nil_r].
    apply bool_decide_eq_true in A. subst p.
    assert (N : forall x, x ∈ v :: ws -> at_pos (warn_pos w) x = false).
    { intros x Hx. apply bool_decide_eq_false_2. intros Ex. apply pos_leb_false in E as [E Ne].
      apply elem_of_cons in Hx as [-> | Hx]; [done |]. rewrite Forall_forall in F. specialize (F x Hx).
      unfold in_order in F. apply pos_leb_spec in E, F. apply Ne. rewrite Ex in F.
      destruct (warn_pos v), (warn_pos w). cbn in *. f_equal; lia. }
    rewrite (N v) by (by left). assert (Z : List.filter (at_pos (warn_pos w)) ws = []); [| by rewrite Z].
    assert (N' : forall x, x ∈ ws -> at_pos (warn_pos w) x = false) by (intros x Hx; apply N; by right).
    clear - N'. induction ws as [| x ws IH]; [done |]. cbn. rewrite N' by (by left). apply IH. intros y Hy. apply N'. by right.
Qed.

Lemma sort_warnings_sorted ws : StronglySorted in_order (sort_warnings ws).
Proof.
  unfold sort_warnings. induction ws as [| w ws IH] using rev_ind; [constructor |].
  rewrite fold_left_app. cbn. by apply insert_warning_sorted.
Qed.

Lemma sort_warnings_filter ws p : List.filter (at_pos p) (sort_warnings ws) = List.filter (at_pos p) ws.
Proof.
  induction ws as [| w ws IH] using rev_ind; [done |]. rewrite List.filter_app, <- IH.
  unfold sort_warnings. rewrite fold_left_app. cbn [fold_left].
  apply insert_warning_stable, sort_warnings_sorted.
Qed.

(** ** The plan of a file *)

Section File.
Variable t : SdfTargets.
Variable root : Z.
Variable limits : SdfLimits.
Hypothesis T : targets_ok t.
Hypothesis R0 : 0 <= root.
Hypothesis Rv : valid (scopes t) root.

Lemma resolve_cells_does cs r :
  resolver_ok t root limits r -> Forall cell_ok cs -> does t root limits (plan_full limits) r anyway (resolve_cells t root limits cs r).
Proof.
  intros O F. apply does_fold; [done |]. intros c r' Hc O' _. apply cell_does; try done.
  rewrite Forall_forall in F. by apply F.
Qed.

(** What a plan of a file is. *)
Record resolved (f : SdfFile) (p : SdfPlan) : Prop := mkResolved {
  rp_ok : plan_ok t p;
  rp_size : Z.of_nat (length (ops p)) <= Z.max 0 (max_plan_ops limits);
  rp_version : plan_version p = version (file_header f);
  rp_timescale : plan_timescale p = timescale_of (file_header f);
  rp_root : plan_root p = root;
  rp_sorted : StronglySorted in_order (plan_warnings p);
  rp_warnings : forall w, w ∈ file_warnings f -> w ∈ plan_warnings p
}.

Lemma sort_warnings_elem ws w : w ∈ ws -> w ∈ sort_warnings ws.
Proof.
  intros H. assert (E : w ∈ List.filter (at_pos (warn_pos w)) (sort_warnings ws)).
  { rewrite sort_warnings_filter, list_elem_of_In, filter_In, <- list_elem_of_In. split; [done |].
    by apply bool_decide_eq_true. }
  rewrite list_elem_of_In, filter_In, <- list_elem_of_In in E. apply E.
Qed.

Lemma resolve_file_does f :
  Forall cell_ok (cells f) ->
  match resolve_file f t root limits with
  | Done p => resolved f p
  | Fail e => plan_full limits e
  | Panic _ | NoFuel => False
  end.
Proof.
  intros F. unfold resolve_file.
  pose proof (resolve_cells_does (cells f) (fresh_resolver (file_header f) root)
    (fresh_ok t root limits (file_header f)) F) as D.
  destruct (resolve_cells _ _ _ _ _) as [[[] r] | e | |]; cbn in D; try done.
  destruct D as ([P S _] & [] & _). constructor; cbn; try done.
  - apply sort_warnings_sorted.
  - intros w Hw. apply sort_warnings_elem, elem_of_app. by left.
Qed.

(** Reading cell by cell, or the whole file first. *)
Lemma resolve_outcome i :
  buffers_ok i ->
  match parse i limits with
  | Done f => Forall cell_ok (cells f) /\ resolve i t root limits = resolve_file f t root limits
  | Fail e => resolve i t root limits = Fail e \/ exists e', resolve i t root limits = Fail e' /\ plan_full limits e'
  | Panic _ | NoFuel => False
  end.
Proof.
  intros B. unfold resolve, parse. rewrite resolve_with_eq, parse_with_eq. unfold Parser.new.
  set (l1 := Stream.new i limits). set (l2 := Flat.new (input_bytes i) (failure i) limits).
  assert (Rl : lrel true l1 l2) by (by apply lrel_new).
  assert (S0 : st (lrel true) false (initial l2 limits) (fuel_of (initial l2 limits)) 0
                 (initial l1 limits) (initial l2 limits)).
  { apply st_start. by constructor. }
  apply (read_header_st (too_large true) (lrel true)) in S0.
  destruct (read_header (initial l1 limits)) as [[[] r1] | e | |], (read_header (initial l2 limits)) as [[[] r2] | e2 | |];
    try done; cbn [and_then]; try (by left).
  destruct S0 as (_ & _ & S0). apply st_rrel in S0.
  assert (H : orel (too_large true) (fun _ u1 u2 => rrel (lrel true) u1 u2 /\ header u2 = header r2)
    (loop parse_body [] r1) (loop parse_body [] r2)).
  { eapply orel_weaken; [| exact (parse_loop_st (too_large true) (lrel true) r1 r2 [] S0 ltac:(constructor))].
    intros cs u1 u2 (Ru & _ & Hh & _). done. }
  pose proof (iter_batch t root limits (fun r => exists r', rrel (lrel true) r r')) as It.
  specialize (It ltac:(intros r (r' & Rr); pose proof (next_cell_st (too_large true) (lrel true) r r' Rr) as N;
    destruct (next_cell r) as [[[c |] u] | | |], (next_cell r') as [[c' u'] | | |]; cbn in N; try done;
    destruct N as (<- & Ru & Hc & _); split; [done | by exists u'])).
  specialize (It (Datatypes.S (fuel_of r1)) [] r1 (ex_intro _ r2 S0)).
  unfold loop in *.
  change (fuel_of (r1, fresh_resolver (header r1) root)) with (fuel_of r1).
  destruct (iter (Datatypes.S (fuel_of r1)) parse_body [] r1) as [[cs u1] | e | |].
  - destruct (iter _ parse_body [] r2) as [[cs2 u2] | | |]; try done. destruct H as (-> & Ru & Hh).
    destruct It as (new & E & F & It). cbn in E. subst cs2. cbn [file_header cells file_warnings]. split; [done |].
    rewrite It. unfold resolve_file. cbn [cells file_header file_warnings].
    assert (Eh : header u1 = header r1) by (by rewrite (rr_header _ _ _ Ru), Hh, (rr_header _ _ _ S0)). rewrite Eh.
    by destruct (resolve_cells _ _ _ _ _) as [[[] rs'] | | |].
  - destruct It as (new & F & It). rewrite It.
    pose proof (resolve_cells_does new (fresh_resolver (header r1) root) (fresh_ok t root limits (header r1)) F) as D.
    destruct (resolve_cells _ _ _ _ _) as [[[] rs'] | e' | |]; cbn in D |- *; try done; [by left | right; eauto].
  - by destruct (iter _ parse_body [] r2) as [[cs2 u2] | | |].
  - by destruct (iter _ parse_body [] r2) as [[cs2 u2] | | |].
Qed.
End File.

(** ** What a record adds to the plan *)

(** A plan with more ops, delay lists and warnings. *)
Definition plan_add (p : SdfPlan) (os : list SdfOp) (ls : list SdfDelvalList) (ws : list SdfWarning) : SdfPlan :=
  mkPlan (plan_version p) (plan_timescale p) (plan_root p) (ops p ++ os) (delay_lists p ++ ls) (plan_warnings p ++ ws).
Definition add (r : Resolver) (os : list SdfOp) (ls : list SdfDelvalList) (ws : list SdfWarning) : Resolver :=
  mkResolver (by_cell_type r) (plan_add (rs_plan r) os ls ws).

Lemma add_add r os ls ws os' ls' ws' : add (add r os ls ws) os' ls' ws' = add r (os ++ os') (ls ++ ls') (ws ++ ws').
Proof. unfold add, plan_add. cbn. by rewrite !app_assoc. Qed.

Lemma add_nil r : add r [] [] [] = r.
Proof. destruct r as [b [v ts rt o l w]]. unfold add, plan_add. cbn. by rewrite !app_nil_r. Qed.

Lemma warn_add r pos message : warn pos message r = Done (tt, add r [] [] [mkWarning pos message]).
Proof. unfold add, plan_add. by rewrite !app_nil_r. Qed.

Lemma push_paths_add limits pos make found r :
  Z.of_nat (length (ops (rs_plan r)) + length found) <= max_plan_ops limits ->
  push_paths limits pos make found r
  = Done (tt, add r (map (fun '(sc, (i, a, o)) => mkOp pos (make sc i a o)) found) [] []).
Proof.
  unfold push_paths. revert r. induction found as [| [sc [[i a] o]] found IH]; intros r B; cbn [fold_m map].
  { by rewrite add_nil. }
  cbn [length] in B. unfold bind at 1. unfold push, bind at 1, get.
  destruct (Z.leb_spec (max_plan_ops limits) (Z.of_nat (length (ops (rs_plan r))))); [lia |].
  unfold update_plan, modify.
  match goal with |- fold_m _ _ _ ?x = _ => assert (E : x = add r [mkOp pos (make sc i a o)] [] []) end.
  { unfold add, plan_add. by rewrite !app_nil_r. }
  rewrite E, IH; [by rewrite add_add |]. cbn. rewrite length_app. cbn. lia.
Qed.

Lemma delay_op_add m l r :
  Z.of_nat (length (delay_lists (rs_plan r))) < 2 ^ 32 ->
  delay_op m l r = Done (mkDelayOp m (Z.of_nat (length (delay_lists (rs_plan r)))), add r [] [l] []).
Proof.
  intros B. unfold delay_op, bind, get, update_plan, modify, ret. rewrite wrap_u32_small by lia.
  unfold add, plan_add. by rewrite !app_nil_r.
Qed.

(** ** The text of a plan *)

Section Render.
Context {E S : Type}.
Variable t : SdfTargets.
Hypothesis F : forest t.
Abbreviation readsE m := (exists a, pure (E := E) (S := S) m a).

Lemma reads_bind {A B} (m : M E S A) (k : A -> M E S B) a : pure m a -> readsE (k a) -> readsE (bind m k).
Proof. intros P [b Hb]. exists b. by eapply pure_bind. Qed.

Lemma reads_path_of i : valid (scopes t) i -> readsE (path_of t i).
Proof. intros V. destruct (path_of_done (E := E) (S := S) t F i V) as [text H]. by exists text. Qed.

Lemma reads_index {A} (xs : list A) i : valid xs i -> readsE (index xs i).
Proof. intros V. destruct (valid_lookup _ _ V) as [x Ex]. exists x. by apply pure_index. Qed.

Lemma reads_ret {A} (a : A) : readsE (ret a).
Proof. exists a. apply pure_ret. Qed.

(** One step of a computation that reads. *)
Ltac reads :=
  repeat first
    [ apply reads_ret
    | match goal with
      | |- exists _, pure (bind ?m _) _ =>
          let H := fresh in assert (H : readsE m); [solve [eauto using reads_path_of, reads_index, lookup_valid] |];
          destruct H as [? H]; eapply reads_bind; [exact H |]
      end ].

Lemma render_port_reads p : Plan.port_ok t p -> readsE (render_port t p).
Proof.
  intros (s & Es & V). unfold render_port. eapply reads_bind; [by apply pure_index |]. reads.
Qed.

Lemma render_path_reads sc path input output : path_ok t sc path input output -> readsE (render_path t sc path input output).
Proof.
  intros (s & p & Es & Ep & Vi & Vo). unfold render_path. eapply reads_bind; [by apply pure_index |].
  eapply reads_bind; [by apply pure_index |]. reads.
Qed.

Lemma render_op_reads plan kind : op_ok t (delay_lists plan) kind -> readsE (render_op plan t kind).
Proof.
  intros Ok. destruct kind as [sc p i o d | sc p i o x | load d | source load d | load d | sc d | sc c slot v];
    cbn [op_ok render_op] in *; unfold delay_list.
  - destruct Ok as [P V]. destruct (render_path_reads _ _ _ _ P) as [x Hx]. eapply reads_bind; [exact Hx |]. reads.
  - destruct Ok as [P _]. destruct (render_path_reads _ _ _ _ P) as [y Hy]. eapply reads_bind; [exact Hy |]. reads.
  - destruct Ok as [P V]. destruct (render_port_reads _ P) as [x Hx]. eapply reads_bind; [exact Hx |]. reads.
  - destruct Ok as (P & V & Sr).
    assert (Hs : readsE (match source with Some s => render_port t s | None => ret "*"%string end)).
    { destruct source as [s |]; [by apply render_port_reads, Sr | apply reads_ret]. }
    destruct Hs as [y Hy]. eapply reads_bind; [exact Hy |].
    destruct (render_port_reads _ P) as [x Hx]. eapply reads_bind; [exact Hx |]. reads.
  - destruct Ok as [P V]. destruct (render_port_reads _ P) as [x Hx]. eapply reads_bind; [exact Hx |]. reads.
  - destruct Ok as [P V]. reads.
  - destruct Ok as [(s & Es & V) _]. eapply reads_bind; [by apply pure_index |]. reads.
Qed.

Lemma render_reads plan : plan_ok t plan -> valid (scopes t) (plan_root plan) -> readsE (render plan t).
Proof.
  intros [Po _] V. unfold render. destruct (reads_path_of _ V) as [x Hx]. eapply reads_bind; [exact Hx |].
  assert (H : forall os out, Forall (fun op => op_ok t (delay_lists plan) (op_kind op)) os ->
    readsE (fold_m (fun out op =>
      let* line := render_op plan t (op_kind op) in
      ret (cat [out; fmt_pos (op_pos op); ": "; line; str [newline]]%string)) os out)).
  { induction os as [| op os IH]; intros out Fo; cbn [fold_m]; [apply reads_ret |]. apply Forall_cons in Fo as [Ok Fo].
    destruct (render_op_reads plan _ Ok) as [y Hy].
    eapply reads_bind; [eapply pure_bind; [exact Hy | apply pure_ret] |]. by apply IH. }
  destruct (H _ (cat ["SDF "; fmt_version (plan_version plan); " timescale ";
                     fmt_timescale (plan_timescale plan); " from "; x; str [newline]]%string) Po) as [y Hy].
  eapply reads_bind; [exact Hy | apply reads_ret].
Qed.
End Render.

(** ** Theorems *)

(** C5: resolving always ends, for every input, limits and targets that are a
    tree: with an error or with the plan of the file. The plan is
    well-formed: every op names a scope, path, terminal, port, check and
    delay list that exist, and numbers in range; it has at most the allowed
    number of ops, the version and timescale of the header, and the warnings
    in the order of their positions. *)
Theorem resolve_total (i : Input) (t : SdfTargets) (root : Z) (limits : SdfLimits) :
  buffers_ok i -> targets_ok t -> 0 <= root -> valid (scopes t) root ->
  (exists f p, parse i limits = Done f /\ resolve i t root limits = Done p /\ resolved t root limits f p)
  \/ exists e, resolve i t root limits = Fail e.
Proof.
  intros B T R0 Rv. pose proof (resolve_outcome t root limits T R0 Rv i B) as H.
  destruct (parse i limits) as [f | e | |]; try done.
  - destruct H as [F ->]. pose proof (resolve_file_does t root limits T R0 Rv f F) as D.
    destruct (resolve_file f t root limits) as [p | e | |]; try done; [left | right]; eauto.
  - destruct H as [-> | (e' & -> & _)]; eauto.
Qed.

(** C8: reading and resolving cell by cell is resolving the parsed file: when
    the file parses, the plan or error is that of its cells resolved one
    after the other; when it does not, the result is the parse error, or the
    error that the plan is full. *)
Theorem resolve_batch (i : Input) (t : SdfTargets) (root : Z) (limits : SdfLimits) :
  buffers_ok i -> targets_ok t -> 0 <= root -> valid (scopes t) root ->
  match parse i limits with
  | Done f => resolve i t root limits = resolve_file f t root limits
  | Fail e => resolve i t root limits = Fail e \/ exists e', resolve i t root limits = Fail e' /\ plan_full limits e'
  | Panic _ | NoFuel => False
  end.
Proof.
  intros B T R0 Rv. pose proof (resolve_outcome t root limits T R0 Rv i B) as H.
  destruct (parse i limits); try done. apply H.
Qed.

(** The plan does not depend on how the file is read: for any division
    into buffers, within the input limit, [resolve] returns the plan or the
    error that resolving the whole text with the reference lexer returns. *)
Theorem resolve_buffers (i : Input) (t : SdfTargets) (root : Z) (limits : SdfLimits) :
  buffers_ok i -> Z.of_nat (length (input_bytes i)) <= max_input_bytes limits ->
  targets_ok t -> 0 <= root -> valid (scopes t) root ->
  resolve i t root limits = resolve_with (Flat.new (input_bytes i) (failure i) limits) t root limits.
Proof.
  intros B W T R0 Rv.
  pose proof (resolve_with_sim (too_large false) (lrel false) t root limits T R0 Rv _ _ (lrel_new false i limits B (fun _ => W))) as H.
  assert (N : forall e, ~ too_large false e) by exact not_too_large. fold (resolve i t root limits) in H.
  destruct (resolve i t root limits) as [p | e | |], (resolve_with (Flat.new _ _ _) t root limits) as [p' | e' | |];
    cbn in H; try done; try (by apply N in H).
  - by subst.
  - destruct H as [-> | H]; [done | by apply N in H].
Qed.

(** The warnings of a plan are sorted by position, and the sort is
    stable: the warnings of one position are those given for it, in the order
    they were given. *)
Theorem sort_warnings_stable (ws : list SdfWarning) :
  StronglySorted in_order (sort_warnings ws)
  /\ forall p, List.filter (at_pos p) (sort_warnings ws) = List.filter (at_pos p) ws.
Proof. split; [apply sort_warnings_sorted | apply sort_warnings_filter]. Qed.

(** A CELL annotates the instances it names: with [*] exactly the
    instances of its cell type at or below the annotation scope, each once;
    with a path the instance it leads to, if that is an instance of the cell
    type, and else none. Finding them adds no op. *)
Theorem cell_regions_spec (t : SdfTargets) (root : Z) (limits : SdfLimits) (c : SdfCell) (r : Resolver) :
  targets_ok t -> 0 <= root -> valid (scopes t) root -> resolver_ok t root limits r ->
  exists regions r', cell_regions t root (build_index t) c r = Done (regions, r')
    /\ regions_of t root c regions /\ resolver_ok t root limits r' /\ grows r r'.
Proof.
  intros T R0 Rv O. pose proof (cell_regions_does t root limits T R0 Rv (fun _ => False) r c O) as D.
  destruct (cell_regions t root (build_index t) c r) as [[regions r'] | e | |]; cbn in D; try done.
  destruct D as (O' & G & H). exists regions, r'. done.
Qed.

(** An IOPATH adds its delay list and one op for each declared path it
    selects, in the order of the declarations, and each op refers to that
    delay list; a RETAIN adds a warning. When it selects no path it adds a
    warning and nothing else. *)
Theorem io_path_spec (t : SdfTargets) (limits : SdfLimits) (region sc : Z) (s : SdfScope) (m : SdfMode) (pos : SdfPos)
  (condition : SdfPathCondition) (input : SdfPortSpec) (output : SdfPortRef) (retain : list SdfDelvalList)
  (delays : SdfDelvalList) (r : Resolver) :
  targets_ok t -> 0 <= sc -> scopes t !! Z.to_nat sc = Some s ->
  walk (build_index t) region (path (spec_port input)) = Some sc -> path (spec_port input) = path output ->
  let rows := concat (map (path_rows s (edge input) (port (spec_port input)) (port output) (Some condition))
                        (enumerate (paths s))) in
  let n := length (delay_lists (rs_plan r)) in
  Z.of_nat n < 2 ^ 32 -> Z.of_nat (length (ops (rs_plan r)) + length rows) <= max_plan_ops limits ->
  exists ws,
    io_path t limits (build_index t) region m pos condition input output retain delays r
    = Done (tt, match rows with
                | [] => add r [] [] ws
                | _ => add r (map (fun '(p, i, o) => mkOp pos (PathDelay sc p i o (mkDelayOp m (Z.of_nat n)))) rows)
                         [delays] ws
                end)
    /\ (ws = [] <-> rows <> [] /\ retain = []).
Proof.
  intros T H0 Es W Ep rows n Bn Bo. unfold io_path, port_scope. rewrite W, bool_decide_eq_true_2 by done.
  unfold bind at 1, ret at 1. unfold bind at 1. rewrite (pure_path_matches t T sc s H0 Es). fold rows.
  destruct rows as [| row rows'] eqn:Er.
  - unfold bind at 1. destruct (path_of_done (E := SdfError) (S := Resolver) t (to_forest t T) sc (lookup_valid _ _ _ Es)) as [owner Eo].
    unfold scope_name. rewrite Eo, warn_add. eexists. split; [done |]. split; [done | by intros []].
  - set (ws := match retain with [] => [] | _ => [mkWarning pos
      "RETAIN delays are not simulated and are ignored (IEEE 1800-2009 Table 32-1)"%string] end).
    exists ws. split; [| subst ws; destruct retain; split; try done; by intros []].
    assert (Ew : when (match retain with [] => false | _ => true end)
      (warn pos "RETAIN delays are not simulated and are ignored (IEEE 1800-2009 Table 32-1)") r = Done (tt, add r [] [] ws)).
    { subst ws. destruct retain; cbn [when]; [by rewrite add_nil | apply warn_add]. }
    unfold bind at 1. rewrite Ew. unfold bind at 1.
    rewrite delay_op_add by (cbn; by rewrite app_nil_r). rewrite push_paths_add.
    + rewrite !add_add, !app_nil_r. cbn [app]. unfold n. cbn [add rs_plan plan_add delay_lists].
      rewrite app_nil_r, map_map. do 3 f_equal.
    + cbn [add rs_plan plan_add ops]. rewrite !app_nil_r, length_map. exact Bo.
Qed.


(** ** Witnesses *)

(** A file for [design] in two buffers: the delays and a check of every
    flip-flop, and a net delay on two bits of the net. *)
Definition design_text : string :=
  cat ["(DELAYFILE (SDFVERSION "; quoted "3.0"; ")(TIMESCALE 1ns)";
       "(CELL (CELLTYPE "; quoted "dff"; ")(INSTANCE *)";
       "(DELAY (ABSOLUTE (IOPATH (posedge clk) q (1.5) (2:3:4))))";
       "(TIMINGCHECK (SETUPHOLD d (posedge clk) (-1) (3))))";
       "(CELL (CELLTYPE "; quoted "top"; ")(INSTANCE)(DELAY (INCREMENT (NETDELAY n[1:0] (0.5)) (PORT u9.d (1))))))"]%string.
Definition design_input : Input := mkInput [take 90 (unstr design_text); drop 90 (unstr design_text)] None.

Lemma design_input_ok : buffers_ok design_input.
Proof. repeat constructor; vm_compute; discriminate. Qed.

Lemma design_root : valid (scopes design) 0.
Proof. unfold valid. cbn. lia. Qed.

Lemma resolve_total_witness :
  exists f p, parse design_input default_limits = Done f
    /\ resolve design_input design 0 default_limits = Done p /\ resolved design 0 default_limits f p.
Proof.
  destruct (resolve_total design_input design 0 default_limits design_input_ok design_ok ltac:(lia) design_root)
    as [H | [e H]]; [exact H |]. exfalso. vm_compute in H. discriminate.
Defined.

Lemma resolve_batch_witness :
  exists f, parse design_input default_limits = Done f
    /\ resolve design_input design 0 default_limits = resolve_file f design 0 default_limits.
Proof.
  pose proof (resolve_batch design_input design 0 default_limits design_input_ok design_ok ltac:(lia) design_root) as H.
  destruct (parse design_input default_limits) as [f | e | |] eqn:E.
  - exists f. split; [reflexivity | exact H].
  - exfalso. vm_compute in E. discriminate.
  - destruct H.
  - destruct H.
Defined.

Lemma resolve_buffers_witness :
  resolve design_input design 0 default_limits
  = resolve_with (Flat.new (unstr design_text) None default_limits) design 0 default_limits.
Proof.
  apply (resolve_buffers design_input design 0 default_limits design_input_ok); [| apply design_ok | lia | apply design_root].
  vm_compute. discriminate.
Defined.

Lemma cell_regions_spec_witness :
  exists regions r',
    cell_regions design 0 (build_index design) (mkCell (mkPos 1 1) "dff" Wildcard []) empty_resolver = Done (regions, r')
    /\ forall i, i ∈ regions <-> below design 0 i /\ of_type design "dff" i = true.
Proof.
  destruct (cell_regions_spec design 0 default_limits (mkCell (mkPos 1 1) "dff" Wildcard []) empty_resolver design_ok
    ltac:(lia) design_root (fresh_ok design 0 default_limits default_header)) as (regions & r' & E & [_ H] & _).
  exists regions, r'. split; [exact E | exact H].
Defined.

Lemma io_path_spec_witness :
  exists ws,
    io_path design default_limits (build_index design) 1 Absolute (mkPos 2 1) NoCondition
      (mkPortSpec (Some Posedge) (mkPortRef (mkPos 2 2) [] (mkIdent "clk" None)))
      (mkPortRef (mkPos 2 3) [] (mkIdent "q" None)) [] [mkDelval None Unspecified] empty_resolver
    = Done (tt, add empty_resolver [mkOp (mkPos 2 1) (PathDelay 1 0 0 0 (mkDelayOp Absolute 0))]
                  [[mkDelval None Unspecified]] ws).
Proof.
  destruct (io_path_spec design default_limits 1 1 (set_parent dff (Some 0)) Absolute (mkPos 2 1) NoCondition
      (mkPortSpec (Some Posedge) (mkPortRef (mkPos 2 2) [] (mkIdent "clk" None)))
      (mkPortRef (mkPos 2 3) [] (mkIdent "q" None)) [] [mkDelval None Unspecified] empty_resolver design_ok)
    as (ws & E & _); try (vm_compute; congruence); try reflexivity.
  exists ws. exact E.
Defined.

