(* ===== verification/Elab.v ===== *)
(** * Four-state values and their operators

    [src/core/elab.rs], lines 31 to 1216: the four-state bit, the resolved
    vector [Value] (most significant bit first) with its conversions, and the
    operator functions that elaboration and the constant folder share.  The
    functions live in the module [elab] so that they are called the way the
    Rust code calls them ([elab::add] is [elab.add]).

    A [usize] that is a vector length is a [nat]; an amount that is read from
    a value saturates at the largest [usize] as the source does.  The loops
    keep the source's indices: a [Vec] written in place is a list updated with
    [<[i := b]>], in range because every caller sizes both operands to one
    width (the [debug_assert]s of the source; [ElabFacts] shows it).  The
    functions on [f64] are not modelled. *)

From Stdlib Require Import ZArith Lia Ascii String.
From stdpp Require Import base list strings.
From S2P Require Import Prelude.

(** ** A single four-state bit *)

Module Bit.

Inductive t : Type := Zero | One | X | Z.

Definition eqb (a b : t) : bool :=
  match a, b with
  | Zero, Zero | One, One | X, X | Z, Z => true
  | _, _ => false
  end.

End Bit.

#[export] Instance bit_eq_dec : EqDecision Bit.t.
Proof. solve_decision. Defined.

#[export] Instance bit_inhabited : Inhabited Bit.t := populate Bit.Zero.

(** [*bit == Bit::One] *)
Definition is_one (b : Bit.t) : bool := Bit.eqb b Bit.One.

(** [matches!(b, Bit::X | Bit::Z)] *)
Definition bit_unknown (b : Bit.t) : bool :=
  match b with Bit.X | Bit.Z => true | _ => false end.

(** [if flag { Bit::One } else { Bit::Zero }] *)
Definition bit_of (flag : bool) : Bit.t := if flag then Bit.One else Bit.Zero.

(** ** Vectors *)

Record Value := mkValue {
  bits : list Bit.t;
  signed : bool;
  fill : option Bit.t;
}.

#[export] Instance value_eq_dec : EqDecision Value.
Proof. solve_decision. Defined.

Definition with_signed (v : Value) (s : bool) : Value := mkValue (bits v) s (fill v).

Definition width (v : Value) : nat := length (bits v).

(** An index into a [Vec] that the caller knows to be in range. *)
Definition bit_at (l : list Bit.t) (i : nat) : Bit.t := nth i l Bit.Zero.

Definition bit_lsb (v : Value) (i : nat) : Bit.t :=
  if (i <? length (bits v))%nat then bit_at (bits v) (length (bits v) - 1 - i) else Bit.X.

Definition is_unknown (v : Value) : bool := existsb bit_unknown (bits v).

Definition u128_BITS : nat := 128%nat.

Fixpoint u128_fold (acc : Z) (l : list Bit.t) : option Z :=
  match l with
  | [] => Some acc
  | Bit.Zero :: l' => u128_fold (wrap_u 128 (Z.shiftl acc 1)) l'
  | Bit.One :: l' => u128_fold (Z.lor (wrap_u 128 (Z.shiftl acc 1)) 1) l'
  | _ :: _ => None
  end.

Definition to_u128 (v : Value) : option Z :=
  let excess := (length (bits v) - u128_BITS)%nat in
  if existsb (fun b => negb (Bit.eqb b Bit.Zero)) (take excess (bits v)) then None
  else u128_fold 0 (drop excess (bits v)).

Definition to_i128 (v : Value) : option Z :=
  match bits v with
  | [] => Some 0
  | first :: _ =>
      if is_unknown v then None
      else
        let negative := is_one first in
        let excess := (length (bits v) - u128_BITS)%nat in
        let expected := if negative then Bit.One else Bit.Zero in
        if existsb (fun b => negb (Bit.eqb b expected)) (take excess (bits v)) then None
        else if (u128_BITS <=? length (bits v))%nat
                && negb (Bit.eqb (bit_at (bits v) excess) expected)
        then None
        else
          let raw := fold_left
            (fun value b => Z.lor (wrap_u 128 (Z.shiftl value 1)) (Z.b2z (is_one b)))
            (drop excess (bits v)) 0 in
          let retained_width := Nat.min (length (bits v)) u128_BITS in
          if (retained_width <? u128_BITS)%nat && negative then
            let sign_extension := wrap_u 128 (Z.shiftl (2 ^ 128 - 1) (Z.of_nat retained_width)) in
            Some (wrap_s 128 (Z.lor raw sign_extension))
          else Some (wrap_s 128 raw)
  end.

(** [u64::try_from], [i64::try_from] *)
Definition try_u64 (z : Z) : option Z := if (0 <=? z) && (z <? 2 ^ 64) then Some z else None.
Definition try_i64 (z : Z) : option Z := if (i64_min <=? z) && (z <=? i64_max) then Some z else None.

Definition to_u64 (v : Value) : option Z := z ← to_u128 v; try_u64 z.
Definition to_i64 (v : Value) : option Z := z ← to_i128 v; try_i64 z.

(** [v & (1u64 << i) != 0] *)
Definition u64_bit (v : Z) (i : nat) : bool :=
  negb (Z.land v (wrap_u 64 (Z.shiftl 1 (Z.of_nat i))) =? 0).

Definition from_u64 (v : Z) (w : nat) (s : bool) : Value :=
  mkValue (rev (map (fun i => bit_of ((i <? 64)%nat && u64_bit v i)) (seq 0 w))) s None.

Definition from_bits (l : list Bit.t) (s : bool) : Value := mkValue l s None.

Definition resize (v : Value) (w : nat) (s : bool) : Value :=
  match fill v with
  | Some f => mkValue (replicate w f) s (fill v)
  | None =>
      let n := length (bits v) in
      let out :=
        if (w <? n)%nat then drop (n - w) (bits v)
        else if (n <? w)%nat then
          let ext :=
            if s then
              match head (bits v) with
              | Some Bit.One => Bit.One
              | Some Bit.X => Bit.X
              | Some Bit.Z => Bit.Z
              | Some Bit.Zero | None => Bit.Zero
              end
            else Bit.Zero in
          replicate (w - n) ext ++ bits v
        else bits v in
      mkValue out s (fill v)
  end.

Definition cast (v : Value) (w : nat) (s : bool) : Value :=
  match fill v with
  | Some _ => resize v w s
  | None => with_signed (resize v w (signed v)) s
  end.

(** ** Printing *)

Definition bit_char (b : Bit.t) : ascii :=
  match b with
  | Bit.Zero => "0"%char | Bit.One => "1"%char
  | Bit.X => "x"%char | Bit.Z => "z"%char
  end.

(** [std::char::from_digit(val, 16)] for [val < 16]. *)
Definition hex_char (d : Z) : ascii :=
  ascii_of_N (Z.to_N (if d <? 10 then 48 + d else 87 + d)).

(** One pass of the loop: the text of a group of at most four bits. *)
Definition hex_group (group : list Bit.t) : bytes :=
  if existsb bit_unknown group then map bit_char group
  else
    let val := fold_left
      (fun val b => Z.lor (wrap_u 8 (Z.shiftl val 1)) (Z.b2z (is_one b))) group 0 in
    [hex_char val].

Fixpoint hex_loop (fuel : nat) (l : list Bit.t) (i : nat) (out : bytes) : bytes :=
  match fuel with
  | O => out
  | S f =>
      if (0 <? i)%nat then
        let start := (i - 4)%nat in
        hex_loop f l start (hex_group (drop start (take i l)) ++ out)
      else out
  end.

Definition hex_str (v : Value) : string :=
  str (hex_loop (length (bits v)) (bits v) (length (bits v)) []).

(** [format!("{width}{tag}{text}")] *)
Definition tagged (v : Value) (tag text : string) : string :=
  cat [dec (Z.of_nat (width v)); tag; text].

Definition format_verilog (v : Value) : string :=
  if is_unknown v then tagged v "'h" (hex_str v)
  else if signed v then
    match to_i128 v with
    | Some value => tagged v "'sd" (dec value)
    | None => tagged v "'sh" (hex_str v)
    end
  else
    match to_u128 v with
    | Some value => tagged v "'d" (dec value)
    | None => tagged v "'h" (hex_str v)
    end.

(** ** The operators *)

Module elab.

Definition all_x (w : nat) (s : bool) : Value := mkValue (replicate w Bit.X) s None.

Definition zero (w : nat) (s : bool) : Value := from_bits (replicate w Bit.Zero) s.

Definition is_zero (v : Value) : bool := forallb (fun b => Bit.eqb b Bit.Zero) (bits v).

(** The body of the loop for [index] from [i - 1] down to [0]. *)
Fixpoint add_loop (a b : list Bit.t) (i : nat) (carry : bool) (out : list Bit.t) : list Bit.t :=
  match i with
  | O => out
  | S index =>
      let lhs := Nat.b2n (is_one (bit_at a index)) in
      let rhs := Nat.b2n (is_one (bit_at b index)) in
      let sum := (lhs + rhs + Nat.b2n carry)%nat in
      add_loop a b index (2 <=? sum)%nat (<[index := bit_of (Nat.odd sum)]> out)
  end.

Definition add_known (a b : Value) (s : bool) : Value :=
  from_bits (add_loop (bits a) (bits b) (width a) false (replicate (width a) Bit.Zero)) s.

(** [if let Some(last) = bits.last_mut() { *last = Bit::One }] *)
Definition set_last (l : list Bit.t) : list Bit.t := <[(length l - 1)%nat := Bit.One]> l.

Definition negate_known (v : Value) : Value :=
  let inverted := from_bits
    (map (fun b => if is_one b then Bit.Zero else Bit.One) (bits v)) (signed v) in
  let one := zero (width v) (signed v) in
  let one := mkValue (set_last (bits one)) (signed one) (fill one) in
  add_known inverted one (signed v).

Definition sub_known (a b : Value) (s : bool) : Value :=
  let negated := with_signed (negate_known b) s in
  add_known a negated s.

(** The inner loop: [n] more values of [lhs_index], starting at [lhs_index]. *)
Fixpoint mul_row (a : Value) (rhs_index lhs_index n : nat) (carry : bool)
    (result_lsb : list bool) : list bool :=
  match n with
  | O => result_lsb
  | S n' =>
      let out_index := (rhs_index + lhs_index)%nat in
      let sum := (Nat.b2n (nth out_index result_lsb false)
                  + Nat.b2n (is_one (bit_lsb a lhs_index)) + Nat.b2n carry)%nat in
      mul_row a rhs_index (S lhs_index) n' (2 <=? sum)%nat
        (<[out_index := Nat.odd sum]> result_lsb)
  end.

(** The outer loop: [n] more values of [rhs_index], starting at [rhs_index]. *)
Fixpoint mul_rows (a b : Value) (w rhs_index n : nat) (result_lsb : list bool) : list bool :=
  match n with
  | O => result_lsb
  | S n' =>
      let result_lsb :=
        if is_one (bit_lsb b rhs_index)
        then mul_row a rhs_index 0 (w - rhs_index) false result_lsb
        else result_lsb in
      mul_rows a b w (S rhs_index) n' result_lsb
  end.

Definition mul_known (a b : Value) (s : bool) : Value :=
  let w := width a in
  let result_lsb := mul_rows a b w 0 w (replicate w false) in
  from_bits (map bit_of (rev result_lsb)) s.

(** [bool::cmp] *)
Definition bool_cmp (a b : bool) : comparison :=
  match a, b with
  | false, true => Lt
  | true, false => Gt
  | _, _ => Eq
  end.

Fixpoint first_difference (a b : list Bit.t) : comparison :=
  match a, b with
  | lhs :: a', rhs :: b' =>
      match bool_cmp (is_one lhs) (is_one rhs) with
      | Eq => first_difference a' b'
      | ordering => ordering
      end
  | _, _ => Eq
  end.

Definition unsigned_cmp (a b : Value) : comparison := first_difference (bits a) (bits b).

(** [bits.rotate_left(1)] on a non-empty [Vec]. *)
Definition rotate_left (l : list Bit.t) : list Bit.t := drop 1 l ++ take 1 l.

(** The loop over the bits of the dividend that are left, from [index] on. *)
Fixpoint div_loop (w : nat) (divisor : Value) (index : nat) (dividend : list Bit.t)
    (quotient remainder : Value) : Value * Value :=
  match dividend with
  | [] => (quotient, remainder)
  | bit :: rest =>
      let remainder :=
        if (0 <? w)%nat
        then mkValue (<[(w - 1)%nat := bit]> (rotate_left (bits remainder)))
                     (signed remainder) (fill remainder)
        else remainder in
      match unsigned_cmp remainder divisor with
      | Lt => div_loop w divisor (S index) rest quotient remainder
      | _ =>
          let remainder := sub_known remainder divisor false in
          let quotient := mkValue (<[index := Bit.One]> (bits quotient))
                                  (signed quotient) (fill quotient) in
          div_loop w divisor (S index) rest quotient remainder
      end
  end.

Definition unsigned_div_rem (dividend divisor : Value) : Value * Value :=
  let w := width dividend in
  div_loop w divisor 0 (bits dividend) (zero w false) (zero w false).

Definition known_low_bits (v : Value) : Z :=
  fold_left (fun acc index =>
    if is_one (bit_lsb v index) then Z.lor acc (wrap_u 64 (Z.shiftl 1 (Z.of_nat index))) else acc)
    (seq 0 (Nat.min (width v) 64)) 0.

Definition bit_x : Value := from_bits [Bit.X] false.

Definition invert_known_one_bit (v : Value) : Value :=
  from_bits [if bool_decide (head (bits v) = Some Bit.One) then Bit.Zero else Bit.One] false.

Definition max_width (a b : Value) : nat := Nat.max (width a) (width b).

Definition binary_arith_operands (a b : Value) : Value * Value * nat * bool :=
  let w := max_width a b in
  let s := signed a && signed b in
  (resize a w s, resize b w s, w, s).

Definition add (a b : Value) : Value :=
  let '(a, b, w, s) := binary_arith_operands a b in
  if is_unknown a || is_unknown b then all_x w s else add_known a b s.

Definition sub (a b : Value) : Value :=
  let '(a, b, w, s) := binary_arith_operands a b in
  if is_unknown a || is_unknown b then all_x w s else sub_known a b s.

Definition mul (a b : Value) : Value :=
  let '(a, b, w, s) := binary_arith_operands a b in
  if is_unknown a || is_unknown b then all_x w s else mul_known a b s.

(** [bits.first() == Some(&Bit::One)] *)
Definition first_is_one (v : Value) : bool := bool_decide (head (bits v) = Some Bit.One).

Definition div (a b : Value) : Value :=
  let '(a, b, w, s) := binary_arith_operands a b in
  if is_unknown a || is_unknown b then all_x w s
  else if is_zero b then all_x w s
  else
    let a_negative := s && first_is_one a in
    let b_negative := s && first_is_one b in
    let dividend := with_signed (if a_negative then negate_known a else a) false in
    let divisor := with_signed (if b_negative then negate_known b else b) false in
    let '(quotient, _) := unsigned_div_rem dividend divisor in
    let quotient := if xorb a_negative b_negative then negate_known quotient else quotient in
    with_signed quotient s.

Definition rem (a b : Value) : Value :=
  let '(a, b, w, s) := binary_arith_operands a b in
  if is_unknown a || is_unknown b then all_x w s
  else if is_zero b then all_x w s
  else
    let a_negative := s && first_is_one a in
    let b_negative := s && first_is_one b in
    let dividend := with_signed (if a_negative then negate_known a else a) false in
    let divisor := with_signed (if b_negative then negate_known b else b) false in
    let '(_, remainder) := unsigned_div_rem dividend divisor in
    let remainder := if a_negative then negate_known remainder else remainder in
    with_signed remainder s.

(** The square-and-multiply loop; the bits come least significant first. *)
Fixpoint power_loop (s : bool) (exponent : list Bit.t) (result base : Value) : Value :=
  match exponent with
  | [] => result
  | bit :: rest =>
      let result := if is_one bit then mul_known result base s else result in
      power_loop s rest result (mul_known base base s)
  end.

Definition power (a b : Value) : Value :=
  let w := width a in
  let s := signed a in
  if is_unknown a || is_unknown b then all_x w s
  else if signed b && first_is_one b then
    if is_zero a then all_x w s
    else
      let base_is_negative_one := s && negb (width a =? 0)%nat && forallb is_one (bits a) in
      if base_is_negative_one then
        if is_one (bit_lsb b 0) then a else from_u64 1 w s
      else
        let base_is_one :=
          bool_decide (last (bits a) = Some Bit.One)
          && forallb (fun b => Bit.eqb b Bit.Zero) (take (length (bits a) - 1) (bits a)) in
        if base_is_one then from_u64 1 w s else zero w s
  else
    let result := zero w s in
    let result := mkValue (set_last (bits result)) (signed result) (fill result) in
    power_loop s (rev (bits b)) result a.

(** *** Bitwise operators *)

Definition bit_and_one (x y : Bit.t) : Bit.t :=
  match x, y with
  | Bit.Zero, _ | _, Bit.Zero => Bit.Zero
  | Bit.One, Bit.One => Bit.One
  | _, _ => Bit.X
  end.

Definition bit_or_one (x y : Bit.t) : Bit.t :=
  match x, y with
  | Bit.One, _ | _, Bit.One => Bit.One
  | Bit.Zero, Bit.Zero => Bit.Zero
  | _, _ => Bit.X
  end.

Definition bit_xor_one (x y : Bit.t) : Bit.t :=
  match x, y with
  | Bit.X, _ | Bit.Z, _ | _, Bit.X | _, Bit.Z => Bit.X
  | Bit.One, Bit.One | Bit.Zero, Bit.Zero => Bit.Zero
  | _, _ => Bit.One
  end.

(** The part the three functions share: resize both operands and combine the
    bits pairwise. *)
Definition bitwise (f : Bit.t -> Bit.t -> Bit.t) (a b : Value) : Value :=
  let w := max_width a b in
  let s := signed a && signed b in
  mkValue (zip_with f (bits (resize a w s)) (bits (resize b w s))) s None.

Definition bit_and (a b : Value) : Value := bitwise bit_and_one a b.
Definition bit_or (a b : Value) : Value := bitwise bit_or_one a b.
Definition bit_xor (a b : Value) : Value := bitwise bit_xor_one a b.

Definition bit_neg_one (b : Bit.t) : Bit.t :=
  match b with
  | Bit.Zero => Bit.One
  | Bit.One => Bit.Zero
  | Bit.X | Bit.Z => Bit.X
  end.

Definition bit_xnor (a b : Value) : Value :=
  let x := bit_xor a b in
  mkValue (map bit_neg_one (bits x)) (signed x) None.

Definition bit_neg (a : Value) : Value := mkValue (map bit_neg_one (bits a)) (signed a) None.

Definition minus (a : Value) : Value :=
  if is_unknown a then all_x (width a) (signed a) else negate_known a.

(** *** Logical operators *)

Definition contains (b : Bit.t) (v : Value) : bool := existsb (Bit.eqb b) (bits v).

Definition logical_bit (a : Value) : Bit.t :=
  if contains Bit.One a then Bit.One
  else if is_unknown a then Bit.X
  else Bit.Zero.

Definition log_not (a : Value) : Value :=
  match logical_bit a with
  | Bit.Zero => from_u64 1 1 false
  | Bit.One => from_u64 0 1 false
  | Bit.X | Bit.Z => bit_x
  end.

Definition log_and (a b : Value) : Value :=
  match logical_bit a, logical_bit b with
  | Bit.Zero, _ | _, Bit.Zero => from_u64 0 1 false
  | Bit.One, Bit.One => from_u64 1 1 false
  | _, _ => bit_x
  end.

Definition log_or (a b : Value) : Value :=
  match logical_bit a, logical_bit b with
  | Bit.One, _ | _, Bit.One => from_u64 1 1 false
  | Bit.Zero, Bit.Zero => from_u64 0 1 false
  | _, _ => bit_x
  end.

Definition log_imply (a b : Value) : Value :=
  match logical_bit a, logical_bit b with
  | Bit.Zero, _ | _, Bit.One => from_u64 1 1 false
  | Bit.One, Bit.Zero => from_u64 0 1 false
  | _, _ => bit_x
  end.

Definition log_equiv (a b : Value) : Value :=
  match logical_bit a, logical_bit b with
  | Bit.Zero, Bit.Zero | Bit.One, Bit.One => from_u64 1 1 false
  | Bit.Zero, Bit.One | Bit.One, Bit.Zero => from_u64 0 1 false
  | _, _ => bit_x
  end.

(** *** Reductions *)

Definition unary_and (a : Value) : Value :=
  if contains Bit.Zero a then from_u64 0 1 false
  else if is_unknown a then bit_x
  else from_u64 1 1 false.

Definition unary_nand (a : Value) : Value :=
  let r := unary_and a in if is_unknown r then r else invert_known_one_bit r.

Definition unary_or (a : Value) : Value :=
  if contains Bit.One a then from_u64 1 1 false
  else if is_unknown a then bit_x
  else from_u64 0 1 false.

Definition unary_nor (a : Value) : Value :=
  let r := unary_or a in if is_unknown r then r else invert_known_one_bit r.

(** [bits.iter().filter(|b| **b == Bit::One).count()] *)
Definition ones_count (v : Value) : nat := length (List.filter is_one (bits v)).

Definition unary_xor (a : Value) : Value :=
  if is_unknown a then bit_x
  else from_u64 (Z.b2z (Nat.odd (ones_count a))) 1 false.

Definition unary_xnor (a : Value) : Value :=
  let r := unary_xor a in if is_unknown r then r else invert_known_one_bit r.

(** *** Shifts *)

Definition usize_max : Z := 2 ^ 64 - 1.

Definition shift_amount (b : Value) : Z :=
  fold_left (fun value bit =>
    Z.min usize_max (Z.min usize_max (value * 2) + Z.b2z (is_one bit))) (bits b) 0.

Definition shift (a b : Value) (right arith : bool) : Value :=
  let w := width a in
  let s := signed a in
  if is_unknown b then all_x w s
  else
    let sh := shift_amount b in
    if Z.of_nat w <=? sh then
      let filler := if right && arith && s && (0 <? w)%nat then bit_at (bits a) 0 else Bit.Zero in
      from_bits (replicate w filler) s
    else
      let sh := Z.to_nat sh in
      let out :=
        if right then
          let filler := if arith && s then bit_at (bits a) 0 else Bit.Zero in
          replicate sh filler ++ take (w - sh) (bits a)
        else drop sh (bits a) ++ replicate sh Bit.Zero in
      mkValue out s None.

Definition shl (a b : Value) : Value := shift a b false false.
Definition shr (a b : Value) : Value := shift a b true false.
Definition arith_shl (a b : Value) : Value := shift a b false true.
Definition arith_shr (a b : Value) : Value := shift a b true true.

(** *** Equalities *)

(** The loop of [eq] over the zipped bits. *)
Fixpoint eq_loop (a b : list Bit.t) (unknown : bool) : Value :=
  match a, b with
  | lb :: a', rb :: b' =>
      if bit_unknown lb || bit_unknown rb then eq_loop a' b' true
      else if negb (Bit.eqb lb rb) then from_u64 0 1 false
      else eq_loop a' b' unknown
  | _, _ => if unknown then bit_x else from_u64 1 1 false
  end.

Definition eq (a b : Value) : Value :=
  let w := max_width a b in
  let s := signed a && signed b in
  eq_loop (bits (resize a w s)) (bits (resize b w s)) false.

Definition neq (a b : Value) : Value :=
  let result := eq a b in if is_unknown result then result else invert_known_one_bit result.

Definition case_eq (a b : Value) : Value :=
  let w := max_width a b in
  let s := signed a && signed b in
  from_u64 (Z.b2z (bool_decide (bits (resize a w s) = bits (resize b w s)))) 1 false.

Definition case_neq (a b : Value) : Value := invert_known_one_bit (case_eq a b).

(** The loop of [wildcard_eq]: [n] more values of the index, from [i] on. *)
Fixpoint wildcard_loop (ra rb : Value) (i n : nat) (unknown : bool) : Value :=
  match n with
  | O => if unknown then bit_x else from_u64 1 1 false
  | S n' =>
      let right := bit_lsb rb i in
      if bit_unknown right then wildcard_loop ra rb (S i) n' unknown
      else
        let left := bit_lsb ra i in
        if bit_unknown left then wildcard_loop ra rb (S i) n' true
        else if negb (Bit.eqb left right) then from_u64 0 1 false
        else wildcard_loop ra rb (S i) n' unknown
  end.

Definition wildcard_eq (a b : Value) : Value :=
  let w := max_width a b in
  let s := signed a && signed b in
  wildcard_loop (resize a w s) (resize b w s) 0 w false.

Definition wildcard_neq (a b : Value) : Value :=
  let result := wildcard_eq a b in if is_unknown result then result else invert_known_one_bit result.

(** *** Counting *)

Definition countones (v : Value) : Value := from_u64 (wrap_u 64 (Z.of_nat (ones_count v))) 32 true.
Definition onehot (v : Value) : Value := from_u64 (Z.b2z (ones_count v =? 1)%nat) 1 false.
Definition onehot0 (v : Value) : Value := from_u64 (Z.b2z (ones_count v <=? 1)%nat) 1 false.
Definition isunknown (v : Value) : Value := from_u64 (Z.b2z (is_unknown v)) 1 false.

(** *** Case item matches *)

Fixpoint casez_loop (rs ri : Value) (i n : nat) : Value :=
  match n with
  | O => from_u64 1 1 false
  | S n' =>
      let sb := bit_lsb rs i in
      let ib := bit_lsb ri i in
      if negb (Bit.eqb sb Bit.Z) && negb (Bit.eqb ib Bit.Z) && negb (Bit.eqb sb ib)
      then from_u64 0 1 false
      else casez_loop rs ri (S i) n'
  end.

Definition casez_eq (sel item : Value) : Value :=
  let w := max_width sel item in casez_loop (resize sel w false) (resize item w false) 0 w.

Fixpoint casex_loop (rs ri : Value) (i n : nat) : Value :=
  match n with
  | O => from_u64 1 1 false
  | S n' =>
      let ib := bit_lsb ri i in
      if bit_unknown ib then casex_loop rs ri (S i) n'
      else
        let sb := bit_lsb rs i in
        if Bit.eqb sb ib then casex_loop rs ri (S i) n'
        else if bit_unknown sb then casex_loop rs ri (S i) n'
        else from_u64 0 1 false
  end.

Definition casex_eq (sel item : Value) : Value :=
  let w := max_width sel item in casex_loop (resize sel w false) (resize item w false) 0 w.

(** *** Relational operators *)

Definition known_cmp (a b : Value) : comparison :=
  let both_signed := signed a && signed b in
  let w := max_width a b in
  let ra := resize a w both_signed in
  let rb := resize b w both_signed in
  if both_signed && (0 <? w)%nat && negb (Bit.eqb (bit_at (bits ra) 0) (bit_at (bits rb) 0))
  then if is_one (bit_at (bits ra) 0) then Lt else Gt
  else unsigned_cmp ra rb.

Definition cmp_result (a b : Value) (predicate : comparison -> bool) : Value :=
  if is_unknown a || is_unknown b then bit_x
  else from_u64 (Z.b2z (predicate (known_cmp a b))) 1 false.

Definition lt (a b : Value) : Value :=
  cmp_result a b (fun o => match o with Lt => true | _ => false end).
Definition le (a b : Value) : Value :=
  cmp_result a b (fun o => match o with Gt => false | _ => true end).
Definition gt (a b : Value) : Value :=
  cmp_result a b (fun o => match o with Gt => true | _ => false end).
Definition ge (a b : Value) : Value :=
  cmp_result a b (fun o => match o with Lt => false | _ => true end).

(** *** Concatenation, conditional, [$clog2] *)

Definition concat (parts : list Value) : Value :=
  from_bits (fold_left (fun acc p => acc ++ bits p) parts []) false.

Definition merge_one (left right : Bit.t) : Bit.t :=
  if Bit.eqb left right && negb (Bit.eqb left Bit.Z) then left else Bit.X.

Definition cond (sel a b : Value) : Value :=
  let w := max_width a b in
  let s := signed a && signed b in
  let ra := resize a w s in
  let rb := resize b w s in
  match logical_bit sel with
  | Bit.One => ra
  | Bit.Zero => rb
  | Bit.X | Bit.Z => from_bits (zip_with merge_one (bits ra) (bits rb)) s
  end.

(** [bits.iter().position(|bit| *bit == Bit::One)] *)
Fixpoint first_one (l : list Bit.t) : option nat :=
  match l with
  | [] => None
  | b :: l' => if is_one b then Some O else option_map S (first_one l')
  end.

Definition clog2 (a : Value) : Value :=
  if is_unknown a then all_x 32 false
  else
    match first_one (bits a) with
    | None => from_u64 0 32 false
    | Some first =>
        let bit_length := (width a - first)%nat in
        let lower_bits_set := existsb is_one (drop (S first) (bits a)) in
        let r :=
          if (bit_length <=? 1)%nat then 0%nat
          else if lower_bits_set then bit_length
          else (bit_length - 1)%nat in
        from_u64 (wrap_u 64 (Z.of_nat r)) 32 false
    end.

End elab.
