(* ===== verification/ElabFacts.v ===== *)
(** * Arithmetic of known four-state vectors

    The integer a known vector denotes ([uint], [sint]), the vector of an
    integer modulo a power of two ([bits_of]), and the theorems that the
    bit-level loops of [Elab] compute integer arithmetic: ripple-carry
    addition, negation, shift-and-add multiplication, restoring division,
    square-and-multiply exponentiation, comparison, shifts, extension and the
    conversions to machine integers. *)

From Stdlib Require Import ZArith Lia Ascii String.
From stdpp Require Import base list strings.
From S2P Require Import Prelude Elab.

(** ** Denotation *)

(** The unsigned integer of a vector; an unknown bit counts as zero. *)
Fixpoint uint (l : list Bit.t) : Z :=
  match l with
  | [] => 0
  | b :: l' => Z.b2z (is_one b) * 2 ^ Z.of_nat (length l') + uint l'
  end.

(** Its two's-complement reading. *)
Definition sint (l : list Bit.t) : Z :=
  match l with
  | [] => 0
  | b :: _ => uint l - Z.b2z (is_one b) * 2 ^ Z.of_nat (length l)
  end.

Definition interp (s : bool) (l : list Bit.t) : Z := if s then sint l else uint l.

(** The [w]-bit vector of an integer, modulo [2 ^ w]. *)
Fixpoint bits_of (w : nat) (z : Z) : list Bit.t :=
  match w with
  | O => []
  | S n => bit_of (Z.testbit z (Z.of_nat n)) :: bits_of n z
  end.

Definition known (l : list Bit.t) : Prop := Forall (fun b => bit_unknown b = false) l.

Lemma known_iff l : existsb bit_unknown l = false <-> known l.
Proof.
  unfold known. induction l as [|b l IH]; [by split|].
  simpl. rewrite orb_false_iff, IH, Forall_cons. done.
Qed.

Lemma is_one_bit_of f : is_one (bit_of f) = f.
Proof. by destruct f. Qed.

Lemma bit_of_is_one b : bit_unknown b = false -> bit_of (is_one b) = b.
Proof. by destruct b. Qed.

Lemma bit_of_known f : bit_unknown (bit_of f) = false.
Proof. by destruct f. Qed.

Lemma pow2_pos n : 0 < 2 ^ Z.of_nat n.
Proof. apply Z.pow_pos_nonneg; lia. Qed.
#[export] Hint Resolve pow2_pos is_one_bit_of bit_of_known : core.

Lemma pow2_S n : 2 ^ Z.of_nat (S n) = 2 * 2 ^ Z.of_nat n.
Proof. rewrite Nat2Z.inj_succ, Z.pow_succ_r by lia. lia. Qed.

Lemma pow2_add m n : 2 ^ Z.of_nat (m + n) = 2 ^ Z.of_nat m * 2 ^ Z.of_nat n.
Proof. rewrite Nat2Z.inj_add, Z.pow_add_r by lia. lia. Qed.

Lemma uint_bounds l : 0 <= uint l < 2 ^ Z.of_nat (length l).
Proof.
  induction l as [|b l IH]; [simpl; lia|].
  cbn [uint length]. rewrite pow2_S. destruct (is_one b); simpl Z.b2z; lia.
Qed.

Lemma uint_app l1 l2 : uint (l1 ++ l2) = uint l1 * 2 ^ Z.of_nat (length l2) + uint l2.
Proof.
  induction l1 as [|b l1 IH]; [simpl; lia|].
  cbn [app uint]. rewrite IH, length_app, pow2_add. lia.
Qed.

Lemma uint_snoc l b : uint (l ++ [b]) = 2 * uint l + Z.b2z (is_one b).
Proof. rewrite uint_app. cbn [uint length]. change (2 ^ Z.of_nat 1) with 2. change (2 ^ Z.of_nat 0) with 1. lia. Qed.

Lemma uint_replicate_zero n : uint (replicate n Bit.Zero) = 0.
Proof. induction n as [|n IH]; [done|]. simpl. lia. Qed.

Lemma uint_replicate_one n : uint (replicate n Bit.One) = 2 ^ Z.of_nat n - 1.
Proof.
  induction n as [|n IH]; [done|].
  cbn [replicate uint]. rewrite length_replicate, pow2_S. simpl Z.b2z. lia.
Qed.

(** Bit [i] of the integer is the bit at index [i] from the end. *)
Lemma uint_testbit l i :
  (i < length l)%nat -> Z.testbit (uint l) (Z.of_nat i) = is_one (bit_at l (length l - 1 - i)).
Proof.
  revert i. induction l as [|b l IH]; intros i Hi; [simpl in Hi; lia|].
  cbn [uint length] in *. pose proof (uint_bounds l) as Hl.
  destruct (decide (i = length l)) as [->|Hne].
  - replace (S (length l) - 1 - length l)%nat with 0%nat by lia.
    apply Z.b2z_inj. rewrite Z.testbit_spec', Z.add_comm, Z.div_add, Z.div_small by lia.
    unfold bit_at. simpl nth. by destruct b.
  - replace (S (length l) - 1 - i)%nat with (S (length l - 1 - i)) by lia.
    unfold bit_at. cbn [nth]. fold (bit_at l (length l - 1 - i)). rewrite <- IH by lia.
    replace (2 ^ Z.of_nat (length l)) with (2 ^ Z.of_nat (S i) * 2 ^ Z.of_nat (length l - S i)).
    2: { rewrite <- pow2_add. do 2 f_equal. lia. }
    rewrite <- (Z.mod_pow2_bits_low _ (Z.of_nat (S i))) by lia.
    rewrite <- (Z.mod_pow2_bits_low (uint l) (Z.of_nat (S i))) by lia.
    f_equal. rewrite Z.add_comm.
    replace (Z.b2z (is_one b) * (2 ^ Z.of_nat (S i) * 2 ^ Z.of_nat (length l - S i)))
      with (Z.b2z (is_one b) * 2 ^ Z.of_nat (length l - S i) * 2 ^ Z.of_nat (S i)) by lia.
    apply Z_mod_plus_full.
Qed.

(** ** The vector of an integer *)

Lemma bits_of_length w z : length (bits_of w z) = w.
Proof. induction w; simpl; auto. Qed.

Lemma bits_of_known w z : known (bits_of w z).
Proof. induction w; constructor; auto. Qed.

Lemma mod_pow2_S z n :
  z mod 2 ^ Z.of_nat (S n) = Z.b2z (Z.testbit z (Z.of_nat n)) * 2 ^ Z.of_nat n + z mod 2 ^ Z.of_nat n.
Proof.
  rewrite Z.testbit_spec', pow2_S by lia. pose proof (pow2_pos n).
  rewrite (Z.mul_comm 2), Z.rem_mul_r by lia. lia.
Qed.

Lemma uint_bits_of w z : uint (bits_of w z) = z mod 2 ^ Z.of_nat w.
Proof.
  induction w as [|n IH]; [by rewrite Z.mod_1_r|].
  cbn [bits_of uint]. rewrite bits_of_length, IH, is_one_bit_of, mod_pow2_S. done.
Qed.

Lemma uint_inj l1 l2 :
  known l1 -> known l2 -> length l1 = length l2 -> uint l1 = uint l2 -> l1 = l2.
Proof.
  revert l2. induction l1 as [|b1 l1 IH]; intros [|b2 l2] H1 H2 Hl Hu; simpl in Hl; try lia; [done|].
  inversion_clear H1 as [|?? K1 R1]. inversion_clear H2 as [|?? K2 R2].
  cbn [uint] in Hu. assert (Hlen : length l1 = length l2) by lia. rewrite Hlen in Hu.
  pose proof (uint_bounds l1). pose proof (uint_bounds l2). rewrite Hlen in *.
  destruct b1, b2; try discriminate; simpl Z.b2z in Hu; f_equal; try (apply IH; auto; lia); lia.
Qed.

(** A known vector is determined by its width and its integer. *)
Lemma known_bits_of l w z :
  known l -> length l = w -> uint l mod 2 ^ Z.of_nat w = z mod 2 ^ Z.of_nat w -> l = bits_of w z.
Proof.
  intros Hk <- Hz. apply uint_inj; [done|apply bits_of_known|by rewrite bits_of_length|].
  rewrite uint_bits_of, <- Hz. symmetry. apply Z.mod_small, uint_bounds.
Qed.

Lemma bits_of_uint l : known l -> bits_of (length l) (uint l) = l.
Proof. intros. symmetry. by apply known_bits_of. Qed.

Lemma bits_of_mod w z z' :
  z mod 2 ^ Z.of_nat w = z' mod 2 ^ Z.of_nat w -> bits_of w z = bits_of w z'.
Proof.
  intros H. apply known_bits_of; [apply bits_of_known|apply bits_of_length|].
  rewrite uint_bits_of, Z.mod_mod; auto. pose proof (pow2_pos w); lia.
Qed.

Lemma interp_mod s l : interp s l mod 2 ^ Z.of_nat (length l) = uint l.
Proof.
  pose proof (uint_bounds l) as Hb.
  assert (E : uint l = uint l mod 2 ^ Z.of_nat (length l)) by (symmetry; by apply Z.mod_small).
  destruct s; [|by symmetry]. destruct l as [|b l]; [done|].
  unfold interp, sint. rewrite E at 2. 
  replace (uint (b :: l) - Z.b2z (is_one b) * 2 ^ Z.of_nat (length (b :: l)))
    with (uint (b :: l) + - Z.b2z (is_one b) * 2 ^ Z.of_nat (length (b :: l))) by lia.
  by rewrite Z_mod_plus_full, <- E.
Qed.

Lemma bits_of_interp s l : known l -> bits_of (length l) (interp s l) = l.
Proof.
  intros. rewrite (bits_of_mod _ _ (uint l)); [by apply bits_of_uint|].
  rewrite interp_mod. symmetry. apply Z.mod_small, uint_bounds.
Qed.

Lemma sint_bounds l :
  l <> [] -> - 2 ^ (Z.of_nat (length l) - 1) <= sint l < 2 ^ (Z.of_nat (length l) - 1).
Proof.
  destruct l as [|b l]; [done|]. intros _. cbn [sint uint length].
  replace (Z.of_nat (S (length l)) - 1) with (Z.of_nat (length l)) by lia.
  rewrite pow2_S. pose proof (uint_bounds l).
  destruct (is_one b); simpl Z.b2z; lia.
Qed.

(** ** Addition and negation *)

Lemma take_S_bit_at l i : (i < length l)%nat -> take (S i) l = take i l ++ [bit_at l i].
Proof.
  intros H. apply take_S_r. unfold bit_at.
  destruct (lookup_lt_is_Some_2 l i H) as [x Hx]. rewrite Hx. f_equal.
  symmetry. by apply nth_lookup_Some.
Qed.

Lemma drop_insert_here {A} (l : list A) i x :
  (i < length l)%nat -> drop i (<[i := x]> l) = x :: drop (S i) l.
Proof.
  intros H. rewrite insert_take_drop by done.
  rewrite drop_app_ge by (rewrite length_take; lia).
  rewrite length_take, Nat.min_l by lia. by rewrite Nat.sub_diag.
Qed.

Lemma sum_split (n : nat) : Z.of_nat n < 4 ->
  Z.of_nat n = 2 * Z.b2z (2 <=? n)%nat + Z.b2z (Nat.odd n).
Proof. intros. destruct n as [|[|[|[|n]]]]; [done..|lia]. Qed.

Lemma b2n_b2z (b : bool) : Z.of_nat (Nat.b2n b) = Z.b2z b.
Proof. by destruct b. Qed.

(** The loop writes the low [i] bits of the sum of the two prefixes. *)
Lemma add_loop_spec a b i carry out :
  (i <= length a)%nat -> length b = length a -> length out = length a ->
  exists l c, elab.add_loop a b i carry out = l ++ drop i out /\ length l = i /\ known l
    /\ uint l + 2 ^ Z.of_nat i * Z.b2z c = uint (take i a) + uint (take i b) + Z.b2z carry.
Proof.
  revert carry out. induction i as [|i IH]; intros carry out Hi Hb Ho.
  - exists [], carry. cbn [elab.add_loop app]. rewrite drop_0, !take_0.
    repeat split; [constructor|]. cbn [uint]. change (2 ^ Z.of_nat 0) with 1. lia.
  - cbn [elab.add_loop].
    set (sum := (_ + _ + _)%nat).
    destruct (IH (2 <=? sum)%nat (<[i := bit_of (Nat.odd sum)]> out)) as (l & c & E & Hl & Hk & Hu);
      [lia|done|by rewrite length_insert|].
    exists (l ++ [bit_of (Nat.odd sum)]), c.
    rewrite E, drop_insert_here, <- app_assoc by lia.
    repeat split; [rewrite length_app; simpl; lia|apply Forall_app; auto|].
    rewrite uint_snoc, !take_S_bit_at, !uint_snoc, is_one_bit_of, pow2_S by lia.
    assert (Hs : Z.of_nat sum = 2 * Z.b2z (2 <=? sum)%nat + Z.b2z (Nat.odd sum)).
    { apply sum_split. subst sum. destruct (is_one (bit_at a i)), (is_one (bit_at b i)), carry; simpl; lia. }
    unfold sum in Hs at 1. rewrite !Nat2Z.inj_add, !b2n_b2z in Hs. lia.
Qed.

(** [add_known] is addition modulo [2 ^ w]; it needs nothing of the bits. *)
Lemma add_known_spec a b s :
  width b = width a ->
  elab.add_known a b s = from_bits (bits_of (width a) (uint (bits a) + uint (bits b))) s.
Proof.
  intros Hw. unfold elab.add_known. f_equal. unfold width in *.
  destruct (add_loop_spec (bits a) (bits b) (length (bits a)) false
    (replicate (length (bits a)) Bit.Zero)) as (l & c & E & Hl & Hk & Hu);
    [lia|done|by rewrite length_replicate|].
  rewrite E, drop_ge, app_nil_r by (rewrite length_replicate; lia).
  rewrite !take_ge in Hu by lia. apply known_bits_of; [done|done|].
  simpl Z.b2z in Hu. rewrite Z.add_0_r in Hu. rewrite <- Hu.
  rewrite Z.mul_comm, Z_mod_plus_full. done.
Qed.

Lemma uint_invert l : uint (map (fun b => if is_one b then Bit.Zero else Bit.One) l)
  = 2 ^ Z.of_nat (length l) - 1 - uint l.
Proof.
  induction l as [|b l IH]; [done|]. cbn [map uint length]. rewrite IH, length_map, pow2_S.
  destruct (is_one b); simpl Z.b2z; lia.
Qed.

Lemma set_last_length l : length (elab.set_last l) = length l.
Proof. apply length_insert. Qed.

Lemma uint_set_last w : uint (elab.set_last (replicate w Bit.Zero)) = if (w =? 0)%nat then 0 else 1.
Proof.
  unfold elab.set_last. rewrite length_replicate. destruct w as [|w]; [done|].
  replace (S w - 1)%nat with (length (replicate w Bit.Zero)) by (rewrite length_replicate; lia).
  rewrite replicate_S_end. replace (length (replicate w Bit.Zero)) with (length (replicate w Bit.Zero) + 0)%nat by lia.
  rewrite insert_app_r. simpl. rewrite uint_snoc, uint_replicate_zero. done.
Qed.

Lemma set_last_known w : known (elab.set_last (replicate w Bit.Zero)).
Proof. apply Forall_insert; [|done]. by apply Forall_replicate. Qed.

Lemma negate_known_spec v :
  elab.negate_known v = from_bits (bits_of (width v) (- uint (bits v))) (signed v).
Proof.
  unfold elab.negate_known. rewrite add_known_spec; unfold width; simpl;
    rewrite ?set_last_length, ?length_map, ?length_replicate; [|done].
  f_equal. apply bits_of_mod. rewrite uint_invert, uint_set_last.
  destruct (bits v) as [|b l] eqn:E; [simpl; done|]. simpl Nat.eqb. cbv iota.
  rewrite <- (Z_mod_plus_full (- uint (b :: l)) 1). f_equal. lia.
Qed.

Lemma sub_known_spec a b s :
  width b = width a ->
  elab.sub_known a b s = from_bits (bits_of (width a) (uint (bits a) - uint (bits b))) s.
Proof.
  intros Hw. unfold elab.sub_known. rewrite negate_known_spec, add_known_spec; unfold width in *; simpl;
    [|by rewrite bits_of_length].
  f_equal. apply bits_of_mod. rewrite uint_bits_of, Hw.
  rewrite Zplus_mod_idemp_r. f_equal.
Qed.

(** ** Multiplication *)

(** The integer of a vector kept least significant bit first. *)
Fixpoint lsum (r : list bool) : Z :=
  match r with
  | [] => 0
  | b :: r' => Z.b2z b + 2 * lsum r'
  end.

Lemma uint_rev_lsum r : uint (map bit_of (rev r)) = lsum r.
Proof.
  induction r as [|b r IH]; [done|]. cbn [rev lsum]. rewrite map_app. cbn [map].
  rewrite uint_snoc, is_one_bit_of, IH. lia.
Qed.

Lemma lsum_insert r i b :
  (i < length r)%nat ->
  lsum (<[i := b]> r) = lsum r + 2 ^ Z.of_nat i * (Z.b2z b - Z.b2z (nth i r false)).
Proof.
  revert i. induction r as [|c r IH]; intros i Hi; [simpl in Hi; lia|].
  destruct i as [|i].
  - change (<[0%nat := b]> (c :: r)) with (b :: r). cbn [lsum nth]. change (2 ^ Z.of_nat 0) with 1. lia.
  - change (<[S i := b]> (c :: r)) with (c :: <[i := b]> r). cbn [lsum nth].
    rewrite IH, pow2_S by (simpl in Hi; lia). lia.
Qed.

(** The low [n] bits of a vector. *)
Definition low (v : Value) (n : nat) : Z := uint (bits v) mod 2 ^ Z.of_nat n.

Lemma low_S v n :
  (n < width v)%nat -> low v (S n) = low v n + 2 ^ Z.of_nat n * Z.b2z (is_one (bit_lsb v n)).
Proof.
  intros H. unfold low, width in *. rewrite mod_pow2_S.
  rewrite uint_testbit by done. unfold bit_lsb. rewrite (proj2 (Nat.ltb_lt _ _)) by done. lia.
Qed.

Lemma low_0 v : low v 0 = 0.
Proof. unfold low. apply Z.mod_1_r. Qed.

Lemma low_all v n : (width v <= n)%nat -> low v n = uint (bits v).
Proof.
  intros H. apply Z.mod_small. pose proof (uint_bounds (bits v)). unfold width in H.
  assert (2 ^ Z.of_nat (length (bits v)) <= 2 ^ Z.of_nat n) by (apply Z.pow_le_mono_r; lia). lia.
Qed.

Lemma mul_row_length a k l n c r : length (elab.mul_row a k l n c r) = length r.
Proof.
  revert l c r. induction n as [|n IH]; intros; [done|]. cbn [elab.mul_row].
  rewrite IH. apply length_insert.
Qed.

(** One row adds the bits [l .. l + n) of [a], shifted by [k]. *)
Lemma mul_row_spec a k l n c r :
  (k + l + n <= length r)%nat -> (l + n <= width a)%nat ->
  exists c', lsum (elab.mul_row a k l n c r) + 2 ^ Z.of_nat (k + l + n) * Z.b2z c'
    = lsum r + 2 ^ Z.of_nat k * (low a (l + n) - low a l) + 2 ^ Z.of_nat (k + l) * Z.b2z c.
Proof.
  revert l c r. induction n as [|n IH]; intros l c r Hr Hw.
  - exists c. cbn [elab.mul_row]. rewrite !Nat.add_0_r. lia.
  - cbn [elab.mul_row]. set (sum := (_ + _ + _)%nat).
    destruct (IH (S l) (2 <=? sum)%nat (<[(k + l)%nat := Nat.odd sum]> r)) as [c' E];
      [rewrite length_insert; lia|lia|].
    exists c'. replace (k + l + S n)%nat with (k + S l + n)%nat by lia. rewrite E.
    rewrite lsum_insert by lia. replace (S l + n)%nat with (l + S n)%nat by lia.
    rewrite (low_S a l) by lia.
    replace (k + S l)%nat with (S (k + l)) by lia. rewrite pow2_S, !pow2_add.
    assert (Hs : Z.of_nat sum = 2 * Z.b2z (2 <=? sum)%nat + Z.b2z (Nat.odd sum)).
    { apply sum_split. subst sum. destruct (nth _ _ _), (is_one _), c; simpl; lia. }
    unfold sum in Hs at 1. rewrite !Nat2Z.inj_add, !b2n_b2z in Hs. nia.
Qed.

Lemma mul_rows_length a b w k n r : length (elab.mul_rows a b w k n r) = length r.
Proof.
  revert k r. induction n as [|n IH]; intros; [done|]. cbn [elab.mul_rows]. rewrite IH.
  destruct (is_one _); [apply mul_row_length|done].
Qed.

(** A whole row adds [2 ^ k * a], modulo the width. *)
Lemma mul_row_whole a k r :
  width a = length r -> (k <= length r)%nat ->
  lsum (elab.mul_row a k 0 (length r - k) false r) mod 2 ^ Z.of_nat (length r)
  = (lsum r + 2 ^ Z.of_nat k * uint (bits a)) mod 2 ^ Z.of_nat (length r).
Proof.
  intros Hw Hk.
  destruct (mul_row_spec a k 0 (length r - k) false r) as [c E]; [lia|lia|].
  rewrite Nat.add_0_r, !Nat.add_0_l, low_0, Z.sub_0_r in E. simpl Z.b2z in E.
  replace (k + (length r - k))%nat with (length r) in E by lia.
  rewrite Z.mul_0_r, Z.add_0_r in E.
  rewrite <- (Z_mod_plus_full _ (Z.b2z c)), (Z.mul_comm (Z.b2z c)), E.
  set (n := (length r - k)%nat).
  pose proof (Z.div_mod (uint (bits a)) (2 ^ Z.of_nat n) ltac:(pose proof (pow2_pos n); lia)) as D.
  unfold low. rewrite <- (Z_mod_plus_full _ (uint (bits a) / 2 ^ Z.of_nat n)). f_equal.
  replace (length r) with (k + n)%nat by lia. rewrite pow2_add. rewrite D at 3. lia.
Qed.

Lemma mul_rows_spec a b k n r :
  width a = length r -> width b = length r -> (k + n = length r)%nat ->
  lsum (elab.mul_rows a b (length r) k n r) mod 2 ^ Z.of_nat (length r)
  = (lsum r + uint (bits a) * (uint (bits b) - low b k)) mod 2 ^ Z.of_nat (length r).
Proof.
  revert k r. induction n as [|n IH]; intros k r Ha Hb Hk.
  - cbn [elab.mul_rows]. rewrite low_all by lia. f_equal. lia.
  - cbn [elab.mul_rows].
    set (r' := if is_one _ then _ else _).
    assert (Hl : length r' = length r) by (subst r'; destruct (is_one _); [apply mul_row_length|done]).
    rewrite <- Hl. rewrite IH by lia. rewrite (low_S b k) by lia.
    transitivity ((lsum r + 2 ^ Z.of_nat k * uint (bits a) * Z.b2z (is_one (bit_lsb b k))
      + uint (bits a) * (uint (bits b) - (low b k + 2 ^ Z.of_nat k * Z.b2z (is_one (bit_lsb b k)))))
      mod 2 ^ Z.of_nat (length r')); [|f_equal; lia].
    rewrite (Z.add_mod (lsum r')), (Z.add_mod (lsum r + _)) by (pose proof (pow2_pos (length r')); lia).
    do 2 f_equal. rewrite Hl. subst r'. destruct (is_one _); simpl Z.b2z.
    + rewrite mul_row_whole by lia. f_equal. lia.
    + f_equal. lia.
Qed.

(** [mul_known] is multiplication modulo [2 ^ w]. *)
Lemma mul_known_spec a b s :
  width b = width a ->
  elab.mul_known a b s = from_bits (bits_of (width a) (uint (bits a) * uint (bits b))) s.
Proof.
  intros Hw. unfold elab.mul_known. f_equal.
  assert (Hr : length (replicate (width a) false) = width a) by apply length_replicate.
  apply known_bits_of.
  - apply Forall_map, Forall_forall. auto.
  - rewrite length_map, length_rev, mul_rows_length. done.
  - rewrite uint_rev_lsum.
    pose proof (mul_rows_spec a b 0 (width a) (replicate (width a) false)) as E.
    rewrite Hr in E. rewrite E, low_0, Z.sub_0_r by lia. f_equal.
    assert (lsum (replicate (width a) false) = 0) as ->; [|lia].
    generalize (width a). induction n as [|n IH]; [done|]. simpl. lia.
Qed.

(** ** Comparison and division *)

Lemma first_difference_spec a b :
  length a = length b -> elab.first_difference a b = (uint a ?= uint b).
Proof.
  revert b. induction a as [|x a IH]; intros [|y b] H; simpl in H; try lia; [done|].
  cbn [elab.first_difference uint]. injection H as H. rewrite (IH b H), H.
  pose proof (uint_bounds a). pose proof (uint_bounds b). rewrite H in *.
  destruct (is_one x), (is_one y); simpl; symmetry.
  - rewrite !Z.mul_1_l. apply Z.add_compare_mono_l.
  - apply Z.compare_gt_iff. lia.
  - apply Z.compare_lt_iff. lia.
  - done.
Qed.

(** Shifting a bit into a remainder whose top bit is clear doubles it. *)
Lemma shift_in_spec l bit :
  l <> [] -> 2 * uint l < 2 ^ Z.of_nat (length l) ->
  exists l', <[(length l - 1)%nat := bit]> (elab.rotate_left l) = l' /\ length l' = length l
    /\ uint l' = 2 * uint l + Z.b2z (is_one bit).
Proof.
  destruct l as [|b l]; [done|]. intros _ Hu. cbn [uint length] in *. rewrite pow2_S in Hu.
  pose proof (uint_bounds l). eexists; split; [done|]. unfold elab.rotate_left. simpl take. simpl drop.
  rewrite drop_0, take_0. replace (S (length l) - 1)%nat with (length l + 0)%nat by lia.
  rewrite insert_app_r. simpl. rewrite length_app, uint_snoc. simpl. split; [lia|].
  destruct (is_one b); simpl in *; lia.
Qed.

Lemma div_step P D bit :
  0 < D -> 0 <= P -> 0 <= bit <= 1 ->
  let R := 2 * (P mod D) + bit in
  (R < D -> (2 * P + bit) / D = 2 * (P / D) /\ (2 * P + bit) mod D = R)
  /\ (D <= R -> (2 * P + bit) / D = 2 * (P / D) + 1 /\ (2 * P + bit) mod D = R - D).
Proof.
  intros HD HP Hb R. pose proof (Z.div_mod P D ltac:(lia)). pose proof (Z.mod_pos_bound P D HD).
  split; intros; split.
  - symmetry. apply (Z.div_unique_pos _ _ _ R); subst R; lia.
  - symmetry. apply (Z.mod_unique_pos _ _ (2 * (P / D))); subst R; lia.
  - symmetry. apply (Z.div_unique_pos _ _ _ (R - D)); subst R; lia.
  - symmetry. apply (Z.mod_unique_pos _ _ (2 * (P / D) + 1)); subst R; lia.
Qed.

Section Division.
Context (w : nat) (divisor : Value).
Hypothesis divisor_width : width divisor = w.
Hypothesis divisor_pos : 0 < uint (bits divisor).

(** The state of the division after the bits [p] of the dividend. *)
Definition div_inv (p : list Bit.t) (quotient remainder : Value) : Prop :=
  (exists q, bits quotient = q ++ replicate (w - length p) Bit.Zero
     /\ length q = length p /\ known q /\ uint q = uint p / uint (bits divisor))
  /\ signed quotient = false /\ fill quotient = None
  /\ width remainder = w /\ uint (bits remainder) = uint p mod uint (bits divisor)
  /\ signed remainder = false /\ fill remainder = None.

Lemma div_inv_done p quotient remainder :
  length p = w -> known (bits remainder) -> div_inv p quotient remainder ->
  (quotient, remainder)
  = (from_bits (bits_of w (uint p / uint (bits divisor))) false,
     from_bits (bits_of w (uint p mod uint (bits divisor))) false).
Proof.
  intros Hp Hk ((q & Eq & Hq & Kq & Uq) & Sq & Fq & Wr & Ur & Sr & Fr).
  rewrite Hp, Nat.sub_diag in Eq. simpl in Eq. rewrite app_nil_r in Eq.
  destruct quotient, remainder; unfold from_bits, width in *; simpl in *; subst.
  f_equal; f_equal; apply known_bits_of; auto; congruence.
Qed.

Lemma div_quotient_step (p q : list Bit.t) (b : Bit.t) (c : bool) :
  (length p < w)%nat -> length q = length p ->
  (if c then <[length p := Bit.One]> (q ++ replicate (w - length p) Bit.Zero)
   else q ++ replicate (w - length p) Bit.Zero)
  = (q ++ [bit_of c]) ++ replicate (w - length (p ++ [b])) Bit.Zero.
Proof.
  intros Hp Hq. rewrite length_app. simpl.
  replace (w - length p)%nat with (S (w - (length p + 1))) by lia.
  rewrite <- app_assoc. destruct c; [|done].
  rewrite <- Hq. replace (length q) with (length q + 0)%nat at 1 by lia.
  by rewrite insert_app_r.
Qed.

Lemma div_loop_spec rest p quotient remainder :
  (length p + length rest = w)%nat -> known rest -> known (bits remainder) ->
  div_inv p quotient remainder ->
  elab.div_loop w divisor (length p) rest quotient remainder
  = (from_bits (bits_of w (uint (p ++ rest) / uint (bits divisor))) false,
     from_bits (bits_of w (uint (p ++ rest) mod uint (bits divisor))) false).
Proof.
  revert p quotient remainder. induction rest as [|b rest IH]; intros p quotient remainder Hlen Hk Kr Hinv.
  - rewrite app_nil_r. apply div_inv_done; [simpl in Hlen; lia|done|done].
  - destruct Hinv as ((q & Eq & Hq & Kq & Uq) & Sq & Fq & Wr & Ur & Sr & Fr).
    inversion_clear Hk as [|?? Kb Krest]. simpl in Hlen. cbn [elab.div_loop].
    rewrite (proj2 (Nat.ltb_lt 0 w)) by lia.
    pose proof (uint_bounds p) as Bp.
    assert (Hbit : 0 <= Z.b2z (is_one b) <= 1) by (destruct (is_one b); simpl; lia).
    assert (Hle : uint p mod uint (bits divisor) <= uint p) by (apply Z.mod_le; lia).
    assert (Htop : 2 ^ Z.of_nat (S (length p)) <= 2 ^ Z.of_nat w) by (apply Z.pow_le_mono_r; lia).
    rewrite pow2_S in Htop.
    destruct (shift_in_spec (bits remainder) b) as (r & Er & Lr & Hr);
      [intros E; unfold width in Wr; rewrite E in Wr; simpl in Wr; lia
      |unfold width in Wr; rewrite Wr; lia|].
    assert (Kr' : known r).
    { rewrite <- Er. apply Forall_insert; [|done]. unfold elab.rotate_left.
      apply Forall_app; split; [by apply Forall_drop|by apply Forall_take]. }
    unfold width in Wr. rewrite Wr in Er. rewrite Er. unfold elab.unsigned_cmp.
    rewrite first_difference_spec by (simpl; unfold width in *; lia). cbn [bits].
    destruct (div_step (uint p) (uint (bits divisor)) (Z.b2z (is_one b))) as [Hlt Hge]; [lia..|].
    rewrite <- Ur, <- Hr, <- uint_snoc in Hlt, Hge.
    replace (p ++ b :: rest) with ((p ++ [b]) ++ rest) by (by rewrite <- app_assoc).
    pose proof (div_quotient_step p q b) as Hquot.
    replace (S (length p)) with (length (p ++ [b])) by (rewrite length_app; simpl; lia).
    assert (Hlen' : (length (p ++ [b]) + length rest = w)%nat) by (rewrite length_app; simpl; lia).
    pose proof (uint_bounds r) as Br. pose proof (uint_bounds (bits divisor)) as Bd.
    unfold width in *.
    destruct (Z.compare_spec (uint r) (uint (bits divisor))) as [E|L|G].
    2: { destruct (Hlt L) as [Hd Hm]. apply IH; [done|done|done|]. split.
         - exists (q ++ [Bit.Zero]). rewrite (Hquot false) in Eq by lia. split; [exact Eq|].
           rewrite !length_app. split; [simpl; lia|]. split; [apply Forall_app; auto|].
           rewrite uint_snoc, Uq, Hd. simpl. lia.
         - unfold width. simpl. repeat split; auto; lia. }
    all: destruct (Hge ltac:(lia)) as [Hd Hm]; rewrite sub_known_spec by (unfold width; simpl; lia);
      unfold width; simpl bits; apply IH; [done|done|apply bits_of_known|]; split;
      [ exists (q ++ [Bit.One]); simpl bits; rewrite Eq, (Hquot true) by lia;
        split; [done|]; rewrite !length_app; split; [simpl; lia|]; split; [apply Forall_app; auto|];
        rewrite uint_snoc, Uq, Hd; simpl; lia
      | unfold width; simpl; rewrite bits_of_length, uint_bits_of, Z.mod_small by lia;
        repeat split; auto; lia ].
Qed.

End Division.

Lemma unsigned_div_rem_spec a d :
  width d = width a -> known (bits a) -> 0 < uint (bits d) ->
  elab.unsigned_div_rem a d
  = (from_bits (bits_of (width a) (uint (bits a) / uint (bits d))) false,
     from_bits (bits_of (width a) (uint (bits a) mod uint (bits d))) false).
Proof.
  intros Hw Hk Hd. unfold elab.unsigned_div_rem.
  apply (div_loop_spec (width a) d Hw Hd (bits a) []); [done|done|by apply Forall_replicate|].
  split.
  - exists []. cbn [length uint]. rewrite Nat.sub_0_r, Z.div_0_l by lia. by repeat split; try constructor.
  - unfold width. simpl. rewrite length_replicate, uint_replicate_zero. repeat split. 
Qed.
