(* ===== verification/ElabProps.v ===== *)
(** * What the operators compute

    The operators of [Elab] on plain values (no unsized-fill marker, which is
    what the constant folder passes): arithmetic, comparison and shifts are
    integer arithmetic on the operands' common interpretation, reduced to the
    result width, and an unknown operand gives an unknown result; extension
    and the conversions to machine integers are exact. *)

From Stdlib Require Import ZArith Lia Ascii String.
From stdpp Require Import base list strings.
From S2P Require Import Prelude Elab ElabFacts.

(** ** Reading and building whole values *)

(** A value without the unsized-fill marker. *)
Definition plain (v : Value) : Prop := fill v = None.

(** The integer of a value read with signedness [s], if every bit is known. *)
Definition val_of (s : bool) (v : Value) : option Z :=
  if is_unknown v then None else Some (interp s (bits v)).

(** The value of an integer at a width. *)
Definition of_Z (w : nat) (s : bool) (z : Z) : Value := from_bits (bits_of w z) s.

(** The one-bit value of a truth value. *)
Definition truth (b : bool) : Value := from_bits [bit_of b] false.

Lemma is_unknown_iff v : is_unknown v = false <-> known (bits v).
Proof. apply known_iff. Qed.

Lemma first_is_one_spec v : elab.first_is_one v = match bits v with [] => false | b :: _ => is_one b end.
Proof. unfold elab.first_is_one. destruct (bits v) as [|[] l]; done. Qed.

Lemma of_Z_mod w s z z' :
  z mod 2 ^ Z.of_nat w = z' mod 2 ^ Z.of_nat w -> of_Z w s z = of_Z w s z'.
Proof. intros. unfold of_Z. f_equal. by apply bits_of_mod. Qed.

Lemma plain_value_eq v : plain v -> v = from_bits (bits v) (signed v).
Proof. destruct v; unfold plain; simpl. by intros ->. Qed.

Lemma known_of_Z v s : plain v -> known (bits v) -> v = of_Z (width v) (signed v) (interp s (bits v)).
Proof. intros Hp Hk. unfold of_Z, width. rewrite bits_of_interp by done. by apply plain_value_eq. Qed.

(** Bit [i] of a machine word. *)
Lemma u64_bit_spec v i : (i < 64)%nat -> u64_bit v i = Z.testbit v (Z.of_nat i).
Proof.
  intros Hi. unfold u64_bit, wrap_u. rewrite Z.shiftl_1_l.
  rewrite (Z.mod_small (2 ^ Z.of_nat i)) by (split; [lia|apply Z.pow_lt_mono_r; lia]).
  destruct (Z.testbit v (Z.of_nat i)) eqn:E.
  - apply negb_true_iff, Z.eqb_neq. intros H.
    apply (f_equal (fun z => Z.testbit z (Z.of_nat i))) in H.
    rewrite Z.land_spec, E, Z.pow2_bits_true, Z.bits_0 in H by lia. done.
  - apply negb_false_iff, Z.eqb_eq. apply Z.bits_inj'. intros n Hn.
    rewrite Z.land_spec, Z.pow2_bits_eqb, Z.bits_0 by lia.
    destruct (Z.eqb_spec (Z.of_nat i) n) as [<-|]; [by rewrite E|by rewrite andb_false_r].
Qed.

Lemma bits_of_rev_seq w z : bits_of w z = rev (map (fun i => bit_of (Z.testbit z (Z.of_nat i))) (seq 0 w)).
Proof.
  induction w as [|w IH]; [done|]. rewrite seq_S, map_app, rev_app_distr. simpl. by rewrite <- IH.
Qed.

Lemma from_u64_spec v w s : 0 <= v < 2 ^ 64 -> from_u64 v w s = of_Z w s v.
Proof.
  intros Hv. unfold from_u64, of_Z, from_bits. f_equal. rewrite bits_of_rev_seq. f_equal.
  apply map_ext. intros i. f_equal. destruct (Nat.ltb_spec i 64) as [Hi|Hi]; simpl.
  - apply u64_bit_spec; lia.
  - symmetry. apply (Z.bits_above_log2 v); [lia|].
    destruct (decide (v = 0)) as [->|]; [simpl; lia|].
    apply Z.log2_lt_pow2; [lia|].
    assert (2 ^ 64 <= 2 ^ Z.of_nat i) by (apply Z.pow_le_mono_r; lia). lia.
Qed.

Lemma from_u64_truth b : from_u64 (Z.b2z b) 1 false = truth b.
Proof. by destruct b. Qed.

(** ** Extension *)

Lemma width_resize v w s : width (resize v w s) = w.
Proof.
  unfold resize, width. destruct (fill v); simpl; [apply length_replicate|].
  destruct (Nat.ltb_spec w (length (bits v))); [rewrite length_drop; lia|].
  destruct (Nat.ltb_spec (length (bits v)) w); [rewrite length_app, length_replicate; lia|lia].
Qed.

Lemma signed_resize v w s : signed (resize v w s) = s.
Proof. unfold resize. by destruct (fill v). Qed.

Lemma fill_resize v w s : fill (resize v w s) = fill v.
Proof. unfold resize. by destruct (fill v) eqn:E; simpl; rewrite ?E. Qed.

(** The bit a plain value is extended with. *)
Definition ext_bit (s : bool) (l : list Bit.t) : Bit.t :=
  if s then match l with [] => Bit.Zero | b :: _ => b end else Bit.Zero.

Lemma bits_resize v w s :
  plain v -> (width v <= w)%nat ->
  bits (resize v w s) = replicate (w - width v) (ext_bit s (bits v)) ++ bits v.
Proof.
  unfold resize, width. intros -> Hw. simpl.
  destruct (Nat.ltb_spec w (length (bits v))); [lia|].
  destruct (Nat.ltb_spec (length (bits v)) w) as [Hlt|Hge].
  - f_equal. f_equal. unfold ext_bit. destruct s; [|done]. by destruct (bits v) as [|[] l].
  - replace (w - length (bits v))%nat with 0%nat by lia. done.
Qed.

Lemma bits_resize_narrow v w s :
  plain v -> (w <= width v)%nat -> bits (resize v w s) = drop (width v - w) (bits v).
Proof.
  unfold resize, width. intros -> Hw. simpl.
  destruct (Nat.ltb_spec w (length (bits v))); [done|].
  replace (length (bits v) - w)%nat with 0%nat by lia. rewrite drop_0.
  destruct (Nat.ltb_spec (length (bits v)) w); [lia|done].
Qed.

Lemma is_unknown_resize v w s :
  plain v -> (width v <= w)%nat -> is_unknown (resize v w s) = is_unknown v.
Proof.
  intros Hp Hw. unfold is_unknown. rewrite bits_resize by done. rewrite existsb_app.
  destruct (existsb bit_unknown (bits v)) eqn:E; [apply orb_true_r|]. rewrite orb_false_r.
  apply known_iff, Forall_replicate. apply known_iff in E. unfold ext_bit.
  destruct s; [|done]. destruct (bits v); [done|]. by inversion E.
Qed.

Lemma interp_ext s l n :
  known l -> interp s (replicate n (ext_bit s l) ++ l) = interp s l.
Proof.
  intros Hk. unfold ext_bit. destruct s; simpl interp.
  - destruct l as [|b l]; [rewrite app_nil_r; destruct n; [done|]; unfold sint; simpl;
      rewrite uint_replicate_zero; lia|].
    destruct n as [|n]; [done|]. cbn [replicate app].
    assert (E : uint (b :: replicate n b ++ b :: l) = Z.b2z (is_one b) * (2 ^ Z.of_nat (S n) - 1)
      * 2 ^ Z.of_nat (length (b :: l)) + uint (b :: l)).
    { change (b :: replicate n b ++ b :: l) with (replicate (S n) b ++ b :: l). rewrite uint_app.
      inversion Hk as [|?? Kb]. destruct b; try discriminate;
        rewrite ?uint_replicate_zero, ?uint_replicate_one; simpl Z.b2z; lia. }
    unfold sint. rewrite E.
    replace (length (b :: replicate n b ++ b :: l)) with (S n + length (b :: l))%nat
      by (simpl; rewrite length_app, length_replicate; simpl; lia).
    rewrite pow2_add. lia.
  - by rewrite uint_app, uint_replicate_zero.
Qed.

(** Widening with signedness [s] keeps the integer that [s] reads. *)
Lemma val_of_resize v w s :
  plain v -> (width v <= w)%nat -> val_of s (resize v w s) = val_of s v.
Proof.
  intros Hp Hw. unfold val_of. rewrite is_unknown_resize by done.
  destruct (is_unknown v) eqn:E; [done|]. f_equal. rewrite bits_resize by done.
  apply interp_ext. by apply is_unknown_iff.
Qed.

Lemma uint_drop l n : uint (drop n l) = uint l mod 2 ^ Z.of_nat (length l - n).
Proof.
  destruct (le_lt_dec n (length l)) as [H|H].
  2: { rewrite drop_ge by lia. replace (length l - n)%nat with 0%nat by lia. by rewrite Z.mod_1_r. }
  rewrite <- (take_drop n l) at 2. rewrite uint_app, length_drop, Z.add_comm, Z_mod_plus_full.
  symmetry. apply Z.mod_small. rewrite <- length_drop. apply uint_bounds.
Qed.

(** ** Arithmetic *)

(** The common shape of a binary arithmetic operator: both operands are read
    with the common signedness, and an unknown one makes the result unknown. *)
Definition arith_result (f : Z -> Z -> option Z) (a b : Value) : Value :=
  let w := elab.max_width a b in
  let s := signed a && signed b in
  match val_of s a, val_of s b with
  | Some x, Some y => match f x y with Some z => of_Z w s z | None => elab.all_x w s end
  | _, _ => elab.all_x w s
  end.

(** The operands an operator works on after [binary_arith_operands]. *)
Record operand (w : nat) (s : bool) (v : Value) (x : Z) : Prop := {
  operand_plain : plain v;
  operand_width : width v = w;
  operand_known : known (bits v);
  operand_value : interp s (bits v) = x;
}.

(** A binary operator that gives X on unknown operands computes [f] as soon as
    it does so on known operands of one width. *)
Lemma arith_lift (op : Value -> Value -> nat -> bool -> Value) f a b :
  plain a -> plain b ->
  (forall w s a b x y, operand w s a x -> operand w s b y -> signed a = s -> signed b = s ->
     op a b w s = match f x y with Some z => of_Z w s z | None => elab.all_x w s end) ->
  (let '(a, b, w, s) := elab.binary_arith_operands a b in
   if is_unknown a || is_unknown b then elab.all_x w s else op a b w s) = arith_result f a b.
Proof.
  intros Ha Hb Hop. unfold elab.binary_arith_operands, arith_result.
  set (w := elab.max_width a b). set (s := signed a && signed b).
  assert (Wa : (width a <= w)%nat) by (unfold w, elab.max_width; lia).
  assert (Wb : (width b <= w)%nat) by (unfold w, elab.max_width; lia).
  rewrite <- (val_of_resize a w s), <- (val_of_resize b w s) by done. unfold val_of.
  destruct (is_unknown (resize a w s)) eqn:Ka; [done|].
  destruct (is_unknown (resize b w s)) eqn:Kb; [done|]. simpl.
  apply Hop; try apply signed_resize; split;
    first [by unfold plain; rewrite fill_resize | apply width_resize | by apply is_unknown_iff | done].
Qed.

Lemma operand_cong w s v x : operand w s v x -> uint (bits v) = x mod 2 ^ Z.of_nat w.
Proof. intros [_ Hw _ <-]. rewrite <- Hw. symmetry. apply interp_mod. Qed.

Lemma add_spec a b :
  plain a -> plain b -> elab.add a b = arith_result (fun x y => Some (x + y)) a b.
Proof.
  intros Ha Hb. apply (arith_lift (fun a b w s => elab.add_known a b s)); [done..|].
  intros w s a' b' x y Oa Ob _ _. rewrite add_known_spec by (by rewrite (operand_width _ _ _ _ Oa), (operand_width _ _ _ _ Ob)).
  rewrite (operand_width _ _ _ _ Oa). apply of_Z_mod.
  rewrite (operand_cong _ _ _ _ Oa), (operand_cong _ _ _ _ Ob). by rewrite <- Z.add_mod by (pose proof (pow2_pos w); lia).
Qed.

Lemma sub_spec a b :
  plain a -> plain b -> elab.sub a b = arith_result (fun x y => Some (x - y)) a b.
Proof.
  intros Ha Hb. apply (arith_lift (fun a b w s => elab.sub_known a b s)); [done..|].
  intros w s a' b' x y Oa Ob _ _. rewrite sub_known_spec by (by rewrite (operand_width _ _ _ _ Oa), (operand_width _ _ _ _ Ob)).
  rewrite (operand_width _ _ _ _ Oa). apply of_Z_mod.
  rewrite (operand_cong _ _ _ _ Oa), (operand_cong _ _ _ _ Ob).
  by rewrite Zminus_mod_idemp_l, Zminus_mod_idemp_r.
Qed.

Lemma mul_spec a b :
  plain a -> plain b -> elab.mul a b = arith_result (fun x y => Some (x * y)) a b.
Proof.
  intros Ha Hb. apply (arith_lift (fun a b w s => elab.mul_known a b s)); [done..|].
  intros w s a' b' x y Oa Ob _ _. rewrite mul_known_spec by (by rewrite (operand_width _ _ _ _ Oa), (operand_width _ _ _ _ Ob)).
  rewrite (operand_width _ _ _ _ Oa). apply of_Z_mod.
  rewrite (operand_cong _ _ _ _ Oa), (operand_cong _ _ _ _ Ob). by rewrite <- Z.mul_mod by (pose proof (pow2_pos w); lia).
Qed.

Lemma uint_zero_iff l : known l -> (forallb (fun b => Bit.eqb b Bit.Zero) l = true <-> uint l = 0).
Proof.
  induction l as [|b l IH]; intros Hk; [done|]. inversion_clear Hk as [|?? Kb Kl].
  cbn [forallb uint]. rewrite andb_true_iff, (IH Kl). pose proof (uint_bounds l). pose proof (pow2_pos (length l)).
  destruct b; try discriminate; simpl; intuition (try discriminate; try lia).
Qed.

Lemma interp_zero_iff s l : uint l = 0 <-> interp s l = 0.
Proof.
  pose proof (interp_mod s l) as Hm. split; intros H.
  - destruct s; [|done]. destruct l as [|b l]; [done|]. unfold interp, sint. rewrite H.
    cbn [uint] in H. pose proof (uint_bounds l). pose proof (pow2_pos (length l)).
    destruct (is_one b); simpl in *; lia.
  - rewrite H, Z.mod_0_l in Hm; [done|]. pose proof (pow2_pos (length l)); lia.
Qed.

(** The sign the operators read off the first bit. *)
Lemma first_is_one_neg v s :
  (s && elab.first_is_one v) = (interp s (bits v) <? 0).
Proof.
  rewrite first_is_one_spec. destruct s; simpl.
  - destruct (bits v) as [|b l]; [done|].
    pose proof (uint_bounds l). cbn [sint uint length]. rewrite pow2_S. symmetry.
    destruct (is_one b); simpl Z.b2z; [apply Z.ltb_lt|apply Z.ltb_ge]; lia.
  - symmetry. apply Z.ltb_ge. pose proof (uint_bounds (bits v)). lia.
Qed.

(** The magnitude [div] and [rem] divide. *)
Lemma magnitude_spec w s v x :
  operand w s v x ->
  let m := with_signed (if s && elab.first_is_one v then elab.negate_known v else v) false in
  uint (bits m) = Z.abs x /\ width m = w /\ known (bits m).
Proof.
  intros [_ Hw Hk Hx] m. subst m. rewrite first_is_one_neg, Hx.
  destruct (Z.ltb_spec x 0) as [Hneg|Hpos].
  - rewrite negate_known_spec. unfold width. simpl. rewrite bits_of_length, uint_bits_of.
    split; [|split; [done|apply bits_of_known]].
    destruct s; simpl in Hx; [|pose proof (uint_bounds (bits v)); lia].
    destruct (bits v) as [|b l]; [simpl in Hx; lia|]. pose proof (uint_bounds (b :: l)) as Hb.
    unfold sint in Hx. rewrite Z.abs_neq by lia. symmetry.
    destruct (is_one b) eqn:Eb; simpl Z.b2z in Hx; [|lia].
    assert (0 < uint (b :: l)).
    { cbn [uint]. rewrite Eb. pose proof (uint_bounds l). pose proof (pow2_pos (length l)). simpl Z.b2z. lia. }
    apply (Z.mod_unique_pos _ _ (-1)); lia.
  - simpl. split; [|by split]. rewrite Z.abs_eq by lia. subst x. destruct s; [|done].
    simpl in *. destruct (bits v) as [|b l]; [done|]. cbn [sint] in *. pose proof (uint_bounds (b :: l)).
    cbn [uint length] in *. destruct (is_one b); simpl Z.b2z in *; lia.
Qed.

Lemma quot_signs x y : y <> 0 ->
  x ÷ y = (if xorb (x <? 0) (y <? 0) then - (Z.abs x / Z.abs y) else Z.abs x / Z.abs y).
Proof.
  intros Hy. rewrite Z.quot_div by done.
  destruct (Z.ltb_spec x 0), (Z.ltb_spec y 0); simpl xorb; cbv iota.
  - rewrite !Z.sgn_neg by lia. lia.
  - rewrite Z.sgn_neg, Z.sgn_pos by lia. lia.
  - rewrite (Z.sgn_neg y) by lia. destruct (decide (x = 0)) as [->|]; [done|].
    rewrite Z.sgn_pos by lia. lia.
  - rewrite (Z.sgn_pos y) by lia. destruct (decide (x = 0)) as [->|]; [done|].
    rewrite Z.sgn_pos by lia. lia.
Qed.

Lemma rem_signs x y : y <> 0 ->
  Z.rem x y = (if x <? 0 then - (Z.abs x mod Z.abs y) else Z.abs x mod Z.abs y).
Proof.
  intros Hy. rewrite Z.rem_mod by done. destruct (Z.ltb_spec x 0).
  - rewrite Z.sgn_neg by lia. lia.
  - destruct (decide (x = 0)) as [->|]; [by rewrite Z.mod_0_l by lia|].
    rewrite Z.sgn_pos by lia. lia.
Qed.

(** Negating a result when the signs ask for it. *)
Lemma negate_result w s c z :
  let r := from_bits (bits_of w z) false in
  with_signed (if c : bool then elab.negate_known r else r) s = of_Z w s (if c then - z else z).
Proof.
  destruct c; simpl; [|done]. rewrite negate_known_spec. unfold width, with_signed, of_Z, from_bits. simpl.
  rewrite bits_of_length. f_equal. apply bits_of_mod. rewrite uint_bits_of.
  rewrite <- (Z.sub_0_l (_ mod _)), Zminus_mod_idemp_r. by rewrite Z.sub_0_l.
Qed.

Section Divide.
Context (w : nat) (s : bool) (a b : Value) (x y : Z).
Hypothesis Oa : operand w s a x.
Hypothesis Ob : operand w s b y.

Let dividend := with_signed (if s && elab.first_is_one a then elab.negate_known a else a) false.
Let divisor := with_signed (if s && elab.first_is_one b then elab.negate_known b else b) false.

Lemma divide_magnitudes :
  y <> 0 ->
  elab.unsigned_div_rem dividend divisor
  = (from_bits (bits_of w (Z.abs x / Z.abs y)) false, from_bits (bits_of w (Z.abs x mod Z.abs y)) false).
Proof.
  intros Hy. destruct (magnitude_spec _ _ _ _ Oa) as (Ua & Wa & Ka).
  destruct (magnitude_spec _ _ _ _ Ob) as (Ub & Wb & Kb).
  subst dividend divisor.
  rewrite unsigned_div_rem_spec; rewrite ?Ua, ?Ub, ?Wa, ?Wb; [done|done|done|lia].
Qed.

Lemma is_zero_operand : elab.is_zero b = (y =? 0).
Proof.
  destruct Ob as [_ _ Hk Hy]. apply eq_true_iff_eq.
  rewrite Z.eqb_eq, <- Hy, <- interp_zero_iff. by apply uint_zero_iff.
Qed.

Lemma first_is_one_operand v z : operand w s v z -> (s && elab.first_is_one v) = (z <? 0).
Proof. intros [_ _ _ <-]. apply first_is_one_neg. Qed.

End Divide.

Lemma div_spec a b :
  plain a -> plain b ->
  elab.div a b = arith_result (fun x y => if y =? 0 then None else Some (x ÷ y)) a b.
Proof.
  intros Ha Hb. unfold elab.div.
  apply (arith_lift (fun a b w s => if elab.is_zero b then elab.all_x w s else _)); [done..|].
  intros w s a' b' x y Oa Ob _ _. rewrite (is_zero_operand w s b' y Ob).
  destruct (Z.eqb_spec y 0) as [|Hy]; [done|].
  rewrite (divide_magnitudes w s a' b' x y Oa Ob Hy).
  rewrite (first_is_one_operand w s a' x Oa), (first_is_one_operand w s b' y Ob).
  rewrite negate_result. by rewrite quot_signs.
Qed.

Lemma rem_spec a b :
  plain a -> plain b ->
  elab.rem a b = arith_result (fun x y => if y =? 0 then None else Some (Z.rem x y)) a b.
Proof.
  intros Ha Hb. unfold elab.rem.
  apply (arith_lift (fun a b w s => if elab.is_zero b then elab.all_x w s else _)); [done..|].
  intros w s a' b' x y Oa Ob _ _. rewrite (is_zero_operand w s b' y Ob).
  destruct (Z.eqb_spec y 0) as [|Hy]; [done|].
  rewrite (divide_magnitudes w s a' b' x y Oa Ob Hy).
  rewrite (first_is_one_operand w s a' x Oa).
  rewrite negate_result. by rewrite rem_signs.
Qed.

(** ** Exponentiation *)

Lemma lsum_rev_uint l : lsum (map is_one (rev l)) = uint l.
Proof.
  rewrite <- uint_rev_lsum, <- map_rev, rev_involutive.
  induction l as [|b l IH]; [done|]. cbn [map uint]. by rewrite IH, !length_map, is_one_bit_of.
Qed.

Lemma lsum_nonneg r : 0 <= lsum r.
Proof. induction r as [|b r IH]; simpl; [lia|]. destruct b; simpl; lia. Qed.

Lemma pow_mod_base x y e m : 0 < m -> x mod m = y mod m -> x ^ Z.of_nat e mod m = y ^ Z.of_nat e mod m.
Proof.
  intros Hm H. induction e as [|e IH]; [done|].
  rewrite !Nat2Z.inj_succ, !Z.pow_succ_r by lia.
  rewrite (Z.mul_mod x), (Z.mul_mod y) by lia. by rewrite IH, H.
Qed.

Lemma power_loop_spec w s e result base :
  plain result -> plain base -> known (bits result) -> known (bits base) ->
  width result = w -> width base = w -> signed result = s ->
  elab.power_loop s e result base
  = of_Z w s (uint (bits result) * uint (bits base) ^ lsum (map is_one e)).
Proof.
  revert result base. induction e as [|b e IH]; intros r x Pr Px Kr Kx Wr Wx Sr.
  - cbn [elab.power_loop map lsum]. rewrite Z.pow_0_r, Z.mul_1_r, <- Wr, <- Sr.
    apply (known_of_Z r false); done.
  - cbn [elab.power_loop map lsum]. pose proof (lsum_nonneg (map is_one e)) as Hn.
    rewrite !mul_known_spec by lia. rewrite IH; unfold plain, width in *; simpl.
    2-8: destruct (is_one b); simpl; rewrite ?bits_of_length; auto; apply bits_of_known.
    apply of_Z_mod. rewrite Wx. pose proof (pow2_pos w) as Hw.
    rewrite uint_bits_of, Z.mul_mod by lia.
    rewrite <- (Z2Nat.id (lsum (map is_one e))) by done.
    rewrite (pow_mod_base _ (uint (bits x) * uint (bits x))) by (lia || (rewrite Z.mod_mod; lia)).
    rewrite <- Z.mul_mod by lia.
    rewrite Z.pow_add_r, Z.pow_mul_r, Z.pow_2_r by (try destruct (is_one b); simpl; lia).
    destruct (is_one b); simpl Z.b2z; simpl bits.
    + rewrite Wr, uint_bits_of, Z.mul_mod_idemp_l by lia. f_equal. lia.
    + f_equal. lia.
Qed.

(** What [**] means on integers: a negative exponent is only meaningful for
    the bases one and minus one; zero to a negative power is unknown. *)
Definition pow_result (x e : Z) : option Z :=
  if e <? 0 then
    if x =? 0 then None
    else if x =? -1 then Some (if Z.odd e then -1 else 1)
    else if x =? 1 then Some 1
    else Some 0
  else Some (x ^ e).

Lemma all_ones_iff v :
  known (bits v) -> (signed v && negb (width v =? 0)%nat && forallb is_one (bits v)) = true
  <-> interp (signed v) (bits v) = -1.
Proof.
  intros Hk. unfold width. destruct (signed v); simpl.
  2: { split; [done|]. pose proof (uint_bounds (bits v)). lia. }
  destruct (bits v) as [|b l]; [simpl; split; [done|lia]|]. cbn [length Nat.eqb negb andb].
  assert (E : forall l, known l -> (forallb is_one l = true <-> uint l = 2 ^ Z.of_nat (length l) - 1)).
  { clear. induction l as [|b l IH]; intros Hk; [done|]. inversion_clear Hk as [|?? Kb Kl].
    cbn [forallb uint length]. rewrite andb_true_iff, IH, pow2_S by done. pose proof (uint_bounds l).
    pose proof (pow2_pos (length l)). destruct (is_one b); simpl; intuition lia. }
  rewrite E by done. cbn [sint]. pose proof (uint_bounds (b :: l)) as B. cbn [uint length] in *.
  rewrite pow2_S in *. pose proof (uint_bounds l). destruct (is_one b); simpl Z.b2z; lia.
Qed.


Lemma is_one_value_iff v :
  known (bits v) -> interp (signed v) (bits v) <> -1 ->
  (bool_decide (last (bits v) = Some Bit.One)
   && forallb (fun b => Bit.eqb b Bit.Zero) (take (length (bits v) - 1) (bits v))) = true
  <-> interp (signed v) (bits v) = 1.
Proof.
  intros Hk Hm. assert (E : interp (signed v) (bits v) = 1 <-> uint (bits v) = 1).
  { destruct (signed v); [|done]. simpl in *. destruct (bits v) as [|b l]; [done|].
    cbn [sint] in *. pose proof (uint_bounds l). cbn [uint length] in *. rewrite pow2_S in *.
    destruct (is_one b); simpl Z.b2z in *; [|lia].
    destruct l as [|c l]; [simpl in *; lia|]. cbn [length] in *. rewrite pow2_S in *.
    pose proof (pow2_pos (length l)). lia. }
  rewrite E. clear E Hm. destruct (bits v) as [|c l _] eqn:El using rev_ind; [by split|].
  apply Forall_app in Hk as [Hl Hc].
  rewrite last_snoc, length_app, Nat.add_sub, take_app_length, uint_snoc.
  rewrite andb_true_iff, bool_decide_eq_true, (uint_zero_iff l Hl). pose proof (uint_bounds l).
  inversion_clear Hc. destruct c; try discriminate; simpl; intuition (try congruence; lia).
Qed.
Lemma width_of_Z w s z : width (of_Z w s z) = w.
Proof. unfold width, of_Z. simpl. apply bits_of_length. Qed.

Lemma zero_of_Z w s : elab.zero w s = of_Z w s 0.
Proof.
  unfold elab.zero, of_Z, from_bits. f_equal. apply known_bits_of;
    [by apply Forall_replicate|apply length_replicate|by rewrite uint_replicate_zero].
Qed.

Lemma bit_lsb_0 v : (0 < width v)%nat -> known (bits v) -> is_one (bit_lsb v 0) = Z.odd (uint (bits v)).
Proof.
  unfold width, bit_lsb. intros Hw Hk. rewrite (proj2 (Nat.ltb_lt _ _)) by done.
  rewrite <- (uint_testbit (bits v) 0) by done. apply Z.bit0_odd.
Qed.

Lemma odd_interp v s : (0 < width v)%nat -> Z.odd (uint (bits v)) = Z.odd (interp s (bits v)).
Proof.
  unfold width. intros Hw. destruct s; [|done]. destruct (bits v) as [|b l]; [simpl in Hw; lia|].
  unfold interp, sint. rewrite Z.odd_sub. cbn [length]. rewrite pow2_S, Z.mul_assoc, (Z.mul_comm _ 2).
  rewrite <- Z.mul_assoc, Z.odd_mul. simpl. by rewrite xorb_false_r.
Qed.

Lemma power_spec a b :
  plain a -> plain b ->
  elab.power a b =
    match val_of (signed a) a, val_of (signed b) b with
    | Some x, Some e =>
        match pow_result x e with
        | Some z => of_Z (width a) (signed a) z
        | None => elab.all_x (width a) (signed a)
        end
    | _, _ => elab.all_x (width a) (signed a)
    end.
Proof.
  intros Ha Hb. unfold elab.power, val_of.
  destruct (is_unknown a) eqn:Ka; [done|]. destruct (is_unknown b) eqn:Kb; [done|]. cbn [orb].
  apply is_unknown_iff in Ka, Kb. rewrite first_is_one_neg. unfold pow_result.
  destruct (Z.ltb_spec (interp (signed b) (bits b)) 0) as [Hneg|Hpos].
  - assert (Z0 : elab.is_zero a = (interp (signed a) (bits a) =? 0)).
    { apply eq_true_iff_eq. rewrite Z.eqb_eq, <- interp_zero_iff. by apply uint_zero_iff. }
    rewrite Z0. destruct (Z.eqb_spec (interp (signed a) (bits a)) 0) as [|Hnz]; [done|].
    pose proof (all_ones_iff a Ka) as Hones.
    destruct (signed a && negb (width a =? 0)%nat && forallb is_one (bits a)) eqn:E1.
    + rewrite (proj2 (Z.eqb_eq _ _)) by (by apply Hones).
      assert (Wb : (0 < width b)%nat).
      { unfold width. destruct (bits b); [destruct (signed b); simpl in Hneg; lia|simpl; lia]. }
      rewrite bit_lsb_0, (odd_interp b (signed b)) by done.
      destruct (Z.odd (interp (signed b) (bits b))).
      * rewrite (known_of_Z a (signed a)) at 1 by done. f_equal. by apply Hones.
      * by rewrite from_u64_spec by lia.
    + assert (Hm1 : interp (signed a) (bits a) <> -1) by (intros H; apply Hones in H; congruence).
      rewrite (proj2 (Z.eqb_neq _ (-1))) by done.
      pose proof (is_one_value_iff a Ka Hm1) as Hone.
      destruct (bool_decide _ && _); [rewrite (proj2 (Z.eqb_eq _ 1)) by (by apply Hone);
        by rewrite from_u64_spec by lia|].
      rewrite (proj2 (Z.eqb_neq _ 1)) by (intros H; apply Hone in H; discriminate).
      apply zero_of_Z.
  - rewrite (power_loop_spec (width a)); unfold plain, width; simpl;
      rewrite ?set_last_length, ?length_replicate; auto using set_last_known.
    rewrite lsum_rev_uint, uint_set_last. apply of_Z_mod.
    assert (E : interp (signed b) (bits b) = uint (bits b)).
    { destruct (signed b); [|done]. simpl in *. destruct (bits b) as [|c l]; [done|]. cbn [sint] in *.
      pose proof (uint_bounds (c :: l)). destruct (is_one c); simpl Z.b2z in *; lia. }
    rewrite E. destruct (bits a) as [|c l] eqn:El; [by rewrite !Z.mod_1_r|].
    cbn [length Nat.eqb]. rewrite Z.mul_1_l, <- El.
    rewrite <- (Z2Nat.id (uint (bits b))) by apply uint_bounds.
    apply pow_mod_base; [apply pow2_pos|]. replace (S (length l)) with (length (bits a)) by (by rewrite El).
    rewrite interp_mod. apply Z.mod_small, uint_bounds.
Qed.

Lemma minus_spec a :
  plain a ->
  elab.minus a = match val_of (signed a) a with
                 | Some x => of_Z (width a) (signed a) (- x)
                 | None => elab.all_x (width a) (signed a)
                 end.
Proof.
  intros Ha. unfold elab.minus, val_of. destruct (is_unknown a); [done|].
  rewrite negate_known_spec. apply of_Z_mod. unfold width.
  rewrite <- (interp_mod (signed a) (bits a)).
  rewrite <- (Z.sub_0_l (_ mod _)), Zminus_mod_idemp_r. by rewrite Z.sub_0_l.
Qed.

(** ** Comparison *)

Lemma bit_neq_is_one x y :
  bit_unknown x = false -> bit_unknown y = false -> negb (Bit.eqb x y) = xorb (is_one x) (is_one y).
Proof. by destruct x, y. Qed.

Lemma compare_diff a b c d : a - b = c - d -> (a ?= b) = (c ?= d).
Proof. intros H. by rewrite (Z.compare_sub a), (Z.compare_sub c), H. Qed.

(** Two vectors of one width compare as the integers they denote. *)
Lemma cmp_operands w s a b x y :
  operand w s a x -> operand w s b y ->
  (if s && (0 <? w)%nat && negb (Bit.eqb (bit_at (bits a) 0) (bit_at (bits b) 0))
   then if is_one (bit_at (bits a) 0) then Lt else Gt
   else elab.unsigned_cmp a b) = (x ?= y).
Proof.
  intros [_ Wa Ka <-] [_ Wb Kb <-]. unfold elab.unsigned_cmp.
  rewrite first_difference_spec by (unfold width in *; lia).
  destruct s; [|done]. simpl interp. unfold width in *.
  destruct (bits a) as [|p l], (bits b) as [|q m]; simpl in Wa, Wb; try lia;
    [subst; done|]. rewrite (proj2 (Nat.ltb_lt 0 w)) by lia.
  inversion_clear Ka as [|?? Kp Kl]. inversion_clear Kb as [|?? Kq Km].
  unfold bit_at. cbn [nth andb sint]. rewrite bit_neq_is_one by done. cbn [uint length].
  assert (Hl : length l = length m) by lia. rewrite Hl, pow2_S.
  pose proof (uint_bounds l). pose proof (uint_bounds m). rewrite Hl in *.
  destruct (is_one p), (is_one q); simpl; symmetry.
  - apply compare_diff. lia.
  - apply Z.compare_lt_iff. lia.
  - apply Z.compare_gt_iff. lia.
  - apply compare_diff. lia.
Qed.

Lemma known_cmp_spec a b :
  plain a -> plain b -> is_unknown a = false -> is_unknown b = false ->
  elab.known_cmp a b
  = (interp (signed a && signed b) (bits a) ?= interp (signed a && signed b) (bits b)).
Proof.
  intros Ha Hb Ka Kb. unfold elab.known_cmp.
  set (w := elab.max_width a b). set (s := signed a && signed b).
  apply (cmp_operands w s).
  all: split; [by unfold plain; rewrite fill_resize|apply width_resize| |].
  all: rewrite ?bits_resize by (try done; unfold w, elab.max_width; lia).
  1,3: rewrite <- bits_resize by (try done; unfold w, elab.max_width; lia);
    apply is_unknown_iff; rewrite is_unknown_resize; try done; unfold w, elab.max_width; lia.
  all: apply interp_ext; by apply is_unknown_iff.
Qed.

Definition cmp_value (p : Z -> Z -> bool) (a b : Value) : Value :=
  match val_of (signed a && signed b) a, val_of (signed a && signed b) b with
  | Some x, Some y => truth (p x y)
  | _, _ => elab.bit_x
  end.

Lemma cmp_result_spec a b (o : comparison -> bool) (p : Z -> Z -> bool) :
  plain a -> plain b -> (forall x y, o (x ?= y) = p x y) ->
  elab.cmp_result a b o = cmp_value p a b.
Proof.
  intros Ha Hb Ho. unfold elab.cmp_result, cmp_value, val_of.
  destruct (is_unknown a) eqn:Ka; [done|]. destruct (is_unknown b) eqn:Kb; [done|]. cbn [orb].
  by rewrite from_u64_truth, known_cmp_spec, Ho.
Qed.

(** ** Shifts *)

Lemma shift_amount_spec b : elab.shift_amount b = Z.min elab.usize_max (uint (bits b)).
Proof.
  unfold elab.shift_amount. induction (bits b) as [|x l IH] using rev_ind.
  { simpl. unfold elab.usize_max. lia. }
  rewrite fold_left_app, IH, uint_snoc. simpl. pose proof (uint_bounds l).
  assert (0 < elab.usize_max) by (unfold elab.usize_max; lia).
  destruct (is_one x); simpl Z.b2z; lia.
Qed.

Lemma uint_take l n : (n <= length l)%nat -> uint (take n l) = uint l / 2 ^ Z.of_nat (length l - n).
Proof.
  intros H. rewrite <- (take_drop n l) at 2. rewrite uint_app, length_drop.
  pose proof (uint_bounds (drop n l)) as B. rewrite length_drop in B.
  rewrite Z.add_comm, Z.div_add, Z.div_small; lia.
Qed.

Lemma interp_shiftr s l n :
  known l -> (n < length l)%nat ->
  uint (replicate n (ext_bit s l) ++ take (length l - n) l)
  = Z.shiftr (interp s l) (Z.of_nat n) mod 2 ^ Z.of_nat (length l).
Proof.
  intros Hk Hn. rewrite Z.shiftr_div_pow2 by lia.
  rewrite uint_app, uint_take, length_take by lia.
  replace (length l - (length l - n))%nat with n by lia. rewrite Nat.min_l by lia.
  pose proof (pow2_pos n). pose proof (uint_bounds l) as B.
  assert (Hsplit : 2 ^ Z.of_nat (length l) = 2 ^ Z.of_nat n * 2 ^ Z.of_nat (length l - n))
    by (rewrite <- pow2_add; do 2 f_equal; lia).
  assert (Hdiv : 0 <= uint l / 2 ^ Z.of_nat n < 2 ^ Z.of_nat (length l - n))
    by (split; [apply Z.div_pos|apply Z.div_lt_upper_bound]; lia).
  assert (Hle : 2 ^ Z.of_nat (length l - n) <= 2 ^ Z.of_nat (length l)) by (apply Z.pow_le_mono_r; lia).
  destruct s; [|unfold ext_bit; rewrite uint_replicate_zero; simpl; symmetry; apply Z.mod_small; lia].
  destruct l as [|b l]; [simpl in Hn; lia|]. unfold ext_bit, interp, sint.
  inversion_clear Hk as [|?? Kb Kl]. set (L := b :: l) in *.
  destruct b; try discriminate; rewrite ?uint_replicate_zero, ?uint_replicate_one; simpl Z.b2z.
  - rewrite !Z.mul_0_l, Z.sub_0_r, Z.add_0_l. symmetry. apply Z.mod_small; lia.
  - rewrite Z.mul_1_l, Hsplit at 1. rewrite <- (Z.add_opp_r (uint L)), <- Z.mul_opp_r.
    rewrite (Z.mul_comm (2 ^ Z.of_nat n) (- _)), Z.div_add by lia.
    apply (Z.mod_unique_pos _ _ (-1)); [|lia]. rewrite Hsplit. nia.
Qed.

Lemma interp_shiftr_all s l n :
  known l -> Z.of_nat (length l) <= n ->
  uint (replicate (length l) (ext_bit s l)) = Z.shiftr (interp s l) n mod 2 ^ Z.of_nat (length l).
Proof.
  intros Hk Hn. rewrite Z.shiftr_div_pow2 by lia. pose proof (uint_bounds l) as B.
  assert (Hle : 2 ^ Z.of_nat (length l) <= 2 ^ n) by (apply Z.pow_le_mono_r; lia).
  destruct s; [|unfold ext_bit; rewrite uint_replicate_zero; simpl; rewrite Z.div_small by lia; done].
  destruct l as [|b l]; [done|]. set (L := b :: l) in *. pose proof (sint_bounds L ltac:(done)) as Bs.
  assert (E : Z.b2z (is_one b) = if sint L <? 0 then 1 else 0).
  { destruct (Z.ltb_spec (sint L) 0); unfold sint, L in *; pose proof (uint_bounds l);
      cbn [uint length] in *; rewrite pow2_S in *; destruct (is_one b); simpl Z.b2z in *; lia. }
  assert (Hlt : 2 ^ (Z.of_nat (length L) - 1) <= 2 ^ Z.of_nat (length L)) by (apply Z.pow_le_mono_r; lia).
  unfold ext_bit, interp, L at 1. inversion_clear Hk as [|?? Kb Kl].
  destruct (Z.ltb_spec (sint L) 0) as [Hneg|Hpos].
  - destruct b; try discriminate. rewrite uint_replicate_one.
    replace (sint L / 2 ^ n) with (-1) by (apply (Z.div_unique_pos _ _ _ (sint L + 2 ^ n)); lia).
    fold L. apply (Z.mod_unique_pos _ _ (-1)); lia.
  - destruct b; try discriminate. rewrite uint_replicate_zero.
    by rewrite Z.div_small, Z.mod_0_l by lia.
Qed.

Lemma uint_shiftl l n :
  (n < length l)%nat ->
  uint (drop n l ++ replicate n Bit.Zero) = Z.shiftl (uint l) (Z.of_nat n) mod 2 ^ Z.of_nat (length l).
Proof.
  intros Hn. rewrite Z.shiftl_mul_pow2, uint_app, uint_replicate_zero, length_replicate, uint_drop by lia.
  replace (Z.of_nat (length l)) with (Z.of_nat (n + (length l - n))) by (f_equal; lia).
  rewrite pow2_add, (Z.mul_comm (uint l)), Z.mul_mod_distr_l; [lia|..]; pose proof (pow2_pos n);
    pose proof (pow2_pos (length l - n)); lia.
Qed.

Lemma shiftl_cong z z' n m :
  0 <= n -> 0 < m -> z mod m = z' mod m -> Z.shiftl z n mod m = Z.shiftl z' n mod m.
Proof.
  intros Hn Hm H. rewrite !Z.shiftl_mul_pow2 by done. rewrite Z.mul_mod, H, <- Z.mul_mod by lia. done.
Qed.

Lemma shift_ext_bit a (arith : bool) :
  (0 < width a)%nat -> (if arith && signed a then bit_at (bits a) 0 else Bit.Zero)
  = ext_bit (arith && signed a) (bits a).
Proof. unfold width, ext_bit, bit_at. destruct (arith && signed a); [|done]. by destruct (bits a). Qed.

Lemma shift_known a b right arith :
  known (bits a) -> known (bits b) -> Z.of_nat (width a) <= elab.usize_max ->
  elab.shift a b right arith = of_Z (width a) (signed a)
    (if right : bool then Z.shiftr (interp (arith && signed a) (bits a)) (uint (bits b))
     else Z.shiftl (interp (signed a) (bits a)) (uint (bits b))).
Proof.
  intros Ka Kb Hw. unfold elab.shift. rewrite (proj2 (is_unknown_iff b)), shift_amount_spec by done.
  pose proof (uint_bounds (bits b)) as [Hn _]. set (n := uint (bits b)) in *.
  pose proof (pow2_pos (width a)) as Hpos.
  assert (Hl : Z.shiftl (interp (signed a) (bits a)) n mod 2 ^ Z.of_nat (width a)
             = Z.shiftl (uint (bits a)) n mod 2 ^ Z.of_nat (width a)).
  { apply shiftl_cong; [done|done|]. unfold width. rewrite interp_mod. symmetry. apply Z.mod_small, uint_bounds. }
  destruct (Z.leb_spec (Z.of_nat (width a)) (Z.min elab.usize_max n)) as [Hge|Hlt].
  - unfold of_Z, from_bits. f_equal. destruct right; cbn [andb].
    + replace (if arith && signed a && (0 <? width a)%nat then bit_at (bits a) 0 else Bit.Zero)
        with (ext_bit (arith && signed a) (bits a)).
      2: { unfold width, ext_bit, bit_at. destruct (arith && signed a); [|done]. by destruct (bits a). }
      apply known_bits_of; [|by rewrite length_replicate|].
      2: { unfold width in *. rewrite (interp_shiftr_all _ _ n), Z.mod_mod by (done || lia). done. }
      apply Forall_replicate. unfold ext_bit. destruct (arith && signed a); [|done].
      destruct (bits a); [done|]. by inversion Ka.
    + apply known_bits_of; [by apply Forall_replicate|by rewrite length_replicate|].
      rewrite uint_replicate_zero, Hl, Z.shiftl_mul_pow2 by done.
      replace n with (Z.of_nat (width a) + (n - Z.of_nat (width a))) by lia.
      rewrite Z.pow_add_r, Z.mul_assoc, (Z.mul_comm (uint _)), <- Z.mul_assoc, Z.mul_comm by lia.
      by rewrite Z_mod_mult.
  - rewrite Z.min_r in * by lia. unfold of_Z, from_bits, width in *. f_equal.
    assert (Hwn : (Z.to_nat n < length (bits a))%nat) by lia.
    destruct right.
    + rewrite shift_ext_bit by (unfold width; lia).
      apply known_bits_of.
      * apply Forall_app. split; [|by apply Forall_take]. apply Forall_replicate. unfold ext_bit.
        destruct (arith && signed a); [|done]. destruct (bits a); [done|]. by inversion Ka.
      * rewrite length_app, length_replicate, length_take. lia.
      * rewrite interp_shiftr, Z.mod_mod, Z2Nat.id by (done || lia). done.
    + apply known_bits_of.
      * apply Forall_app. split; [by apply Forall_drop|by apply Forall_replicate].
      * rewrite length_app, length_replicate, length_drop. lia.
      * rewrite uint_shiftl, Z.mod_mod, Z2Nat.id by lia. by rewrite Hl.
Qed.

(** ** Conversions to machine integers *)

(** Bits below and at or above position [n] do not interfere. *)
Lemma lor_high a b n : 0 <= n -> 0 <= a < 2 ^ n -> Z.lor a (b * 2 ^ n) = a + b * 2 ^ n.
Proof.
  intros Hn Ha. assert (H : Z.land a (b * 2 ^ n) = 0).
  { apply Z.bits_inj'. intros i Hi. rewrite Z.land_spec, Z.bits_0.
    destruct (Z.lt_ge_cases i n) as [Hlt|Hge].
    - rewrite Z.mul_pow2_bits_low by done. apply andb_false_r.
    - rewrite <- (Z.mod_small a (2 ^ n)) by done. by rewrite Z.mod_pow2_bits_high. }
  by rewrite <- Z.lxor_lor, <- Z.add_nocarry_lxor.
Qed.

Lemma push_bit w acc b :
  0 <= acc -> 2 * acc < 2 ^ w -> Z.lor (wrap_u w (Z.shiftl acc 1)) (Z.b2z b) = 2 * acc + Z.b2z b.
Proof.
  intros H0 H1. unfold wrap_u. rewrite Z.shiftl_mul_pow2, Z.mod_small by (change (2 ^ 1) with 2; lia).
  rewrite Z.lor_comm, lor_high by (destruct b; simpl; lia). change (2 ^ 1) with 2. lia.
Qed.

Lemma fits_double acc n k : 0 <= acc < 2 ^ (k - Z.of_nat (S n)) -> Z.of_nat (S n) <= k ->
  2 * acc < 2 ^ k /\ forall b, 0 <= 2 * acc + Z.b2z b < 2 ^ (k - Z.of_nat n).
Proof.
  intros Ha Hk. assert (E : 2 ^ (k - Z.of_nat n) = 2 * 2 ^ (k - Z.of_nat (S n))).
  { rewrite <- Z.pow_succ_r by lia. f_equal. lia. }
  assert (2 ^ (k - Z.of_nat n) <= 2 ^ k) by (apply Z.pow_le_mono_r; lia).
  split; [lia|]. intros []; simpl; lia.
Qed.

Lemma u128_fold_spec l acc :
  Z.of_nat (length l) <= 128 -> 0 <= acc < 2 ^ (128 - Z.of_nat (length l)) ->
  u128_fold acc l = if existsb bit_unknown l then None
                    else Some (acc * 2 ^ Z.of_nat (length l) + uint l).
Proof.
  revert acc. induction l as [|b l IH]; intros acc Hl Ha; [simpl; f_equal; lia|].
  cbn [length] in *. destruct (fits_double acc (length l) 128 Ha Hl) as [H2 Hb].
  pose proof (push_bit 128 acc false ltac:(lia) H2) as P0. simpl Z.b2z in P0. rewrite Z.lor_0_r in P0.
  pose proof (push_bit 128 acc true ltac:(lia) H2) as P1. simpl Z.b2z in P1.
  pose proof (Hb false) as B0. pose proof (Hb true) as B1. simpl Z.b2z in B0, B1.
  destruct b; cbn [u128_fold existsb bit_unknown orb]; rewrite ?P1, ?P0; try done;
    rewrite IH by lia; cbn [uint is_one Bit.eqb]; rewrite pow2_S; simpl Z.b2z;
    destruct (existsb _ l); f_equal; lia.
Qed.

Lemma existsb_take_drop {A} (f : A -> bool) n l :
  existsb f l = existsb f (take n l) || existsb f (drop n l).
Proof. rewrite <- (take_drop n l) at 1. apply existsb_app. Qed.

Lemma uint_split l n : (n <= length l)%nat ->
  uint l = uint (take n l) * 2 ^ Z.of_nat (length l - n) + uint (drop n l).
Proof. intros. rewrite <- (take_drop n l) at 1. by rewrite uint_app, length_drop. Qed.

Lemma to_u128_spec v :
  to_u128 v = match val_of false v with
              | Some x => if x <? 2 ^ 128 then Some x else None
              | None => None
              end.
Proof.
  unfold to_u128, val_of, is_unknown, u128_BITS. set (e := (length (bits v) - 128)%nat).
  rewrite (existsb_take_drop _ e (bits v)). simpl interp.
  pose proof (uint_bounds (drop e (bits v))) as B. pose proof (uint_bounds (take e (bits v))) as Bt.
  assert (Hd : Z.of_nat (length (drop e (bits v))) <= 128) by (rewrite length_drop; lia).
  assert (2 ^ Z.of_nat (length (drop e (bits v))) <= 2 ^ 128) by (apply Z.pow_le_mono_r; lia).
  rewrite u128_fold_spec by (done || (split; [lia|apply Z.pow_pos_nonneg; lia])).
  destruct (existsb bit_unknown (take e (bits v))) eqn:Kt.
  { replace (existsb (fun b => negb (Bit.eqb b Bit.Zero)) (take e (bits v))) with true; [done|].
    symmetry. apply existsb_exists in Kt as (b & Hin & Hb). apply existsb_exists. exists b.
    split; [done|]. by destruct b. }
  apply known_iff in Kt. pose proof (uint_zero_iff _ Kt) as Hz. cbn [orb].
  rewrite (uint_split (bits v) e) by lia. rewrite <- length_drop.
  destruct (forallb (fun b => Bit.eqb b Bit.Zero) (take e (bits v))) eqn:Ez.
  - rewrite (proj1 Hz eq_refl), !Z.mul_0_l, !Z.add_0_l.
    replace (existsb _ (take e (bits v))) with false.
    { destruct (existsb _ (drop e (bits v))); [done|]. by rewrite (proj2 (Z.ltb_lt _ _)) by lia. }
    symmetry.
    clear -Ez. induction (take e (bits v)) as [|b l IH]; [done|].
    simpl in *. apply andb_prop in Ez as [-> ?]. by apply IH.
  - replace (existsb _ (take e (bits v))) with true.
    2: { clear -Ez. induction (take e (bits v)) as [|b l IH]; [done|]. simpl in *.
         destruct (Bit.eqb b Bit.Zero); [by apply IH|done]. }
    destruct (existsb _ (drop e (bits v))); [done|].
    rewrite (proj2 (Z.ltb_ge _ _)); [done|].
    assert (uint (take e (bits v)) <> 0) by (intros Hc; apply Hz in Hc; congruence).
    assert (Z.of_nat (length (drop e (bits v))) = 128) as ->; [|lia].
    rewrite length_drop. destruct (decide (e = 0%nat)) as [E0|]; [|lia].
    rewrite E0, take_0 in Ez. done.
Qed.

Lemma raw_fold_spec l acc :
  Z.of_nat (length l) <= 128 -> 0 <= acc < 2 ^ (128 - Z.of_nat (length l)) ->
  fold_left (fun value b => Z.lor (wrap_u 128 (Z.shiftl value 1)) (Z.b2z (is_one b))) l acc
  = acc * 2 ^ Z.of_nat (length l) + uint l.
Proof.
  revert acc. induction l as [|b l IH]; intros acc Hl Ha; [simpl; lia|].
  cbn [length fold_left uint] in *. destruct (fits_double acc (length l) 128 Ha Hl) as [H2 Hb].
  rewrite push_bit, IH by (done || lia). rewrite pow2_S. lia.
Qed.

Lemma existsb_neq_const l (c : Bit.t) :
  existsb (fun b => negb (Bit.eqb b c)) l = false <-> l = replicate (length l) c.
Proof.
  induction l as [|b l IH]; [done|]. cbn [existsb length replicate]. rewrite orb_false_iff, IH.
  split.
  - intros [Hb Hl]. rewrite <- Hl. f_equal. by destruct b, c.
  - intros H. injection H as -> Hl. split; [by destruct c|done].
Qed.


Lemma bit_at_bits_of w z j :
  (j < w)%nat -> bit_at (bits_of w z) j = bit_of (Z.testbit z (Z.of_nat (w - 1 - j))).
Proof.
  revert j. induction w as [|w IH]; intros j Hj; [lia|]. unfold bit_at. cbn [bits_of].
  destruct j as [|j]; cbn [nth].
  - do 3 f_equal. lia.
  - fold (bit_at (bits_of w z) j). rewrite IH by lia. do 3 f_equal. lia.
Qed.

Lemma testbit_sign x n i : 0 <= n <= i -> - 2 ^ n <= x < 2 ^ n -> Z.testbit x i = (x <? 0).
Proof.
  intros Hn Hx. assert (2 ^ n <= 2 ^ i) by (apply Z.pow_le_mono_r; lia).
  apply Z.b2z_inj. rewrite Z.testbit_spec' by lia. destruct (Z.ltb_spec x 0).
  - replace (x / 2 ^ i) with (-1) by (apply (Z.div_unique_pos _ _ _ (x + 2 ^ i)); lia). done.
  - by rewrite Z.div_small by lia.
Qed.

Lemma sint_neg b l : (sint (b :: l) <? 0) = is_one b.
Proof.
  pose proof (first_is_one_neg (mkValue (b :: l) true None) true) as H.
  rewrite first_is_one_spec in H. symmetry. exact H.
Qed.

(** A number that fits in an [i128] repeats its sign from bit 127 up. *)
Lemma sint_in_range_prefix b l j :
  known (b :: l) -> in_i128 (sint (b :: l)) -> (j + 128 <= length (b :: l))%nat ->
  bit_at (b :: l) j = b.
Proof.
  intros Hk Hr Hj. rewrite <- (bits_of_interp true (b :: l) Hk). cbn [interp].
  rewrite bit_at_bits_of by lia. rewrite (testbit_sign _ 127) by (unfold in_i128, i128_min, i128_max in Hr; lia).
  rewrite sint_neg. inversion_clear Hk. by destruct b.
Qed.

Lemma wrap_s_sint l : length l = 128%nat -> wrap_s 128 (uint l) = sint l.
Proof.
  intros Hl. pose proof (sint_bounds l) as B. rewrite Hl in B.
  rewrite <- (interp_mod true l), Hl. simpl interp. unfold wrap_s.
  change (Z.of_nat 128) with 128 in *. rewrite Zplus_mod_idemp_l.
  rewrite Z.mod_small; [lia|]. specialize (B ltac:(by destruct l)).
  change (128 - 1) with 127 in *. lia.
Qed.

(** The short case of [to_i128]: the sign is extended by hand. *)
Lemma to_i128_short b l :
  (length (b :: l) < 128)%nat ->
  (if is_one b then
     wrap_s 128 (Z.lor (uint (b :: l)) (wrap_u 128 (Z.shiftl (2 ^ 128 - 1) (Z.of_nat (length (b :: l))))))
   else wrap_s 128 (uint (b :: l))) = sint (b :: l).
Proof.
  intros Hl. pose proof (uint_bounds (b :: l)) as B. pose proof (sint_bounds (b :: l) ltac:(done)) as Bs.
  set (n := Z.of_nat (length (b :: l))) in *.
  assert (H : 2 ^ (n - 1) <= 2 ^ 126) by (apply Z.pow_le_mono_r; lia).
  assert (Hn : 2 ^ 128 = 2 ^ (128 - n) * 2 ^ n) by (rewrite <- Z.pow_add_r by lia; f_equal; lia).
  assert (Hp : 0 < 2 ^ n) by (apply Z.pow_pos_nonneg; lia).
  unfold sint in *. fold n in Bs |- *. destruct (is_one b); simpl Z.b2z in *.
  - assert (E : wrap_u 128 (Z.shiftl (2 ^ 128 - 1) n) = (2 ^ (128 - n) - 1) * 2 ^ n).
    { unfold wrap_u. rewrite Z.shiftl_mul_pow2 by lia. symmetry.
      assert (1 <= 2 ^ (128 - n)) by (apply (Z.pow_le_mono_r 2 0); lia).
      apply (Z.mod_unique_pos _ _ (2 ^ n - 1)); [rewrite Hn at 1; nia|rewrite Hn; nia]. }
    rewrite E, lor_high by lia.
    transitivity (wrap_s 128 (uint (b :: l) - 2 ^ n + 1 * 2 ^ 128)); [f_equal; lia|].
    unfold wrap_s. rewrite <- Z.add_assoc, (Z.add_comm (1 * _)), Z.add_assoc, Z_mod_plus_full.
    change (128 - 1) with 127. rewrite Z.mod_small; lia.
  - rewrite Z.mul_0_l, Z.sub_0_r in *. unfold wrap_s. change (128 - 1) with 127. rewrite Z.mod_small; lia.
Qed.

Lemma sint_ext b n l : known (b :: l) -> sint (replicate n b ++ b :: l) = sint (b :: l).
Proof. apply (interp_ext true (b :: l) n). Qed.

Lemma to_i128_spec v :
  to_i128 v = match val_of true v with
              | Some x => if (i128_min <=? x) && (x <=? i128_max) then Some x else None
              | None => None
              end.
Proof.
  unfold to_i128, val_of, is_unknown, u128_BITS. destruct (bits v) as [|b l] eqn:E; [done|].
  destruct (existsb bit_unknown (b :: l)) eqn:K; [done|]. apply known_iff in K. cbn [interp].
  assert (Hexp : (if is_one b then Bit.One else Bit.Zero) = b) by (inversion_clear K; by destruct b).
  rewrite Hexp. set (L := b :: l) in *. set (e := (length L - 128)%nat).
  assert (Hin : in_i128 (sint L) -> (i128_min <=? sint L) && (sint L <=? i128_max) = true)
    by (unfold in_i128; intros; apply andb_true_intro; split; apply Z.leb_le; lia).
  destruct (Nat.lt_ge_cases (length L) 128) as [Hs|Hge].
  - assert (He : e = 0%nat) by lia. rewrite He, take_0, drop_0. cbn [existsb].
    rewrite (proj2 (Nat.leb_gt _ _)) by done. cbn [andb]. rewrite Nat.min_l by lia.
    rewrite (proj2 (Nat.ltb_lt _ _)) by done. cbn [andb].
    rewrite raw_fold_spec by (lia || (split; [lia|apply Z.pow_pos_nonneg; lia])). rewrite Z.mul_0_l, Z.add_0_l.
    pose proof (to_i128_short b l Hs) as Hsh. fold L in Hsh.
    pose proof (sint_bounds L ltac:(done)) as B.
    assert (2 ^ (Z.of_nat (length L) - 1) <= 2 ^ 126) by (apply Z.pow_le_mono_r; lia).
    rewrite Hin by (unfold in_i128, i128_min, i128_max; lia).
    destruct (is_one b); by rewrite Hsh.
  - rewrite (proj2 (Nat.leb_le _ _)) by lia. rewrite Nat.min_r by lia. cbn [andb].
    rewrite (proj2 (Nat.ltb_ge 128 128)) by lia. cbn [andb].
    assert (Hd : length (drop e L) = 128%nat) by (rewrite length_drop; lia).
    destruct (existsb (fun b0 => negb (Bit.eqb b0 b)) (take e L)) eqn:Ex;
      [|destruct (negb (Bit.eqb (bit_at L e) b)) eqn:Ee].
    3: { apply existsb_neq_const in Ex. rewrite length_take, Nat.min_l in Ex by lia.
         apply negb_false_iff in Ee. assert (Hb : bit_at L e = b) by (by destruct (bit_at L e), b).
         rewrite raw_fold_spec by (lia || (split; [lia|apply Z.pow_pos_nonneg; lia])).
         rewrite Z.mul_0_l, Z.add_0_l, wrap_s_sint by done.
         assert (Hdrop : exists m, drop e L = b :: m).
         { destruct (drop e L) as [|c m] eqn:Ed; [done|]. exists m. f_equal. rewrite <- Hb. unfold bit_at.
           rewrite <- (take_drop e L), Ed. rewrite app_nth2 by (rewrite length_take; lia).
           by rewrite length_take, Nat.min_l, Nat.sub_diag by lia. }
         destruct Hdrop as [m Hm]. assert (Hint : sint L = sint (drop e L)).
         { rewrite <- (take_drop e L) at 1. rewrite Ex, Hm. apply sint_ext. rewrite <- Hm. by apply Forall_drop. }
         pose proof (sint_bounds (drop e L) ltac:(rewrite Hm; done)) as B. rewrite Hd in B.
         rewrite Hint in Hin |- *. rewrite Hin; [done|]. unfold in_i128, i128_min, i128_max.
         change (Z.of_nat 128 - 1) with 127 in B. lia. }
    all: destruct ((i128_min <=? sint L) && (sint L <=? i128_max)) eqn:R; [exfalso|done];
      apply andb_prop in R as [R1 R2]; apply Z.leb_le in R1, R2.
    + apply existsb_exists in Ex as (c & Hc & Hne). apply list_elem_of_In, list_elem_of_lookup_1 in Hc as [j Hj].
      apply lookup_take_Some in Hj as [Hj Hlt].
      rewrite <- (nth_lookup_Some _ _ Bit.Zero _ Hj) in Hne. fold (bit_at L j) in Hne.
      unfold L in Hne. rewrite (sint_in_range_prefix b l j) in Hne by (done || (fold L; lia)). by destruct b.
    + unfold L in Ee. rewrite (sint_in_range_prefix b l e) in Ee by (done || (fold L; lia)). by destruct b.
Qed.

(** ** [$clog2] *)

Lemma first_one_none l : elab.first_one l = None -> uint l = 0.
Proof.
  induction l as [|b l IH]; [done|]. cbn [elab.first_one uint]. destruct (is_one b); [done|].
  destruct (elab.first_one l); [done|]. intros _. rewrite IH by done. simpl. lia.
Qed.

Lemma first_one_some l k :
  elab.first_one l = Some k -> (k < length l)%nat
  /\ uint l = 2 ^ Z.of_nat (length l - S k) + uint (drop (S k) l).
Proof.
  revert k. induction l as [|b l IH]; intros k; [done|]. cbn [elab.first_one uint].
  destruct (is_one b) eqn:Eb.
  - injection 1 as <-. simpl. rewrite drop_0, Nat.sub_0_r. split; lia.
  - destruct (elab.first_one l) as [j|]; [|done]. injection 1 as <-.
    destruct (IH j eq_refl) as [Hj Hu]. cbn [length drop]. split; [lia|].
    rewrite Hu. simpl. lia.
Qed.

Lemma existsb_is_one l : existsb is_one l = negb (uint l =? 0).
Proof.
  induction l as [|b l IH]; [done|]. cbn [existsb uint]. rewrite IH.
  pose proof (uint_bounds l). pose proof (pow2_pos (length l)).
  destruct (is_one b); simpl.
  - symmetry. apply negb_true_iff, Z.eqb_neq. lia.
  - done.
Qed.

Lemma log2_up_between u k : 2 ^ k < u < 2 * 2 ^ k -> 0 <= k -> Z.log2_up u = k + 1.
Proof.
  intros Hu Hk. apply Z.log2_up_unique; [lia|]. rewrite Z.add_1_r, Z.pred_succ, Z.pow_succ_r; lia.
Qed.

Lemma clog2_spec a :
  elab.clog2 a = match val_of false a with
                 | Some x => of_Z 32 false (Z.log2_up x)
                 | None => elab.all_x 32 false
                 end.
Proof.
  unfold elab.clog2, val_of. destruct (is_unknown a); [done|]. simpl interp.
  destruct (elab.first_one (bits a)) as [k|] eqn:E.
  2: { rewrite (first_one_none _ E). by rewrite from_u64_spec by lia. }
  destruct (first_one_some _ _ E) as [Hk Hu]. rewrite from_u64_spec by (apply Z.mod_pos_bound; lia).
  apply of_Z_mod. unfold wrap_u. change (2 ^ 64) with (2 ^ Z.of_nat 32 * 2 ^ 32).
  rewrite Z.mod_mod_divide by (exists (2 ^ 32); lia).
  f_equal. rewrite existsb_is_one, Hu. unfold width.
  pose proof (uint_bounds (drop (S k) (bits a))) as B. rewrite length_drop in B.
  set (n := (length (bits a) - S k)%nat) in *. replace (length (bits a) - k)%nat with (S n) by lia.
  destruct (Nat.leb_spec (S n) 1).
  { assert (n = 0%nat) as -> by lia. change (2 ^ Z.of_nat 0) with 1 in *.
    replace (uint _) with 0 by lia. done. }
  destruct (Z.eqb_spec (uint (drop (S k) (bits a))) 0) as [->|Hnz]; cbn [negb].
  - rewrite Z.add_0_r, Z.log2_up_pow2 by lia. lia.
  - rewrite (log2_up_between _ (Z.of_nat n)); lia.
Qed.

(** ** Conversion between widths *)

Lemma resize_known v w s :
  plain v -> is_unknown v = false -> resize v w s = of_Z w s (interp s (bits v)).
Proof.
  intros Hp Hk. apply is_unknown_iff in Hk.
  assert (E : resize v w s = from_bits (bits (resize v w s)) s).
  { rewrite (plain_value_eq (resize v w s)) at 1 by (unfold plain; by rewrite fill_resize).
    by rewrite signed_resize. }
  rewrite E. unfold of_Z. f_equal. destruct (Nat.le_ge_cases (width v) w) as [Hle|Hge].
  - apply known_bits_of; [|apply width_resize|].
    + apply is_unknown_iff. rewrite is_unknown_resize by done. by apply is_unknown_iff.
    + rewrite <- (interp_ext s (bits v) (w - width v)) by done. rewrite <- bits_resize by done.
      pose proof (interp_mod s (bits (resize v w s))) as Hm. fold (width (resize v w s)) in Hm.
      rewrite width_resize in Hm. rewrite <- Hm at 1. apply Z.mod_mod. pose proof (pow2_pos w); lia.
  - rewrite bits_resize_narrow by done. unfold width in *.
    apply known_bits_of; [by apply Forall_drop|rewrite length_drop; lia|].
    rewrite uint_drop. replace (length (bits v) - (length (bits v) - w))%nat with w by lia.
    rewrite Z.mod_mod by (pose proof (pow2_pos w); lia). rewrite <- (interp_mod s (bits v)).
    apply Z.mod_mod_divide. exists (2 ^ Z.of_nat (length (bits v) - w)).
    rewrite <- pow2_add. do 2 f_equal. lia.
Qed.

(** ** The theorems *)

(** C15: on plain values [+], [-], [*] and unary minus are integer arithmetic
    on the operands read with their common signedness, reduced to the wider
    operand's width; an unknown bit in an operand makes every result bit X. *)
Theorem arithmetic_exact (a b : Value) :
  plain a -> plain b ->
  elab.add a b = arith_result (fun x y => Some (x + y)) a b
  /\ elab.sub a b = arith_result (fun x y => Some (x - y)) a b
  /\ elab.mul a b = arith_result (fun x y => Some (x * y)) a b
  /\ elab.minus a = match val_of (signed a) a with
                    | Some x => of_Z (width a) (signed a) (- x)
                    | None => elab.all_x (width a) (signed a)
                    end.
Proof. intros Ha Hb. split_and!; [by apply add_spec|by apply sub_spec|by apply mul_spec|by apply minus_spec]. Qed.

(** C16: [/] and [%] are integer division truncated towards zero and its
    remainder (the sign of the dividend), with division by zero unknown; the
    quotient of the least value by minus one wraps. *)
Theorem division_exact (a b : Value) :
  plain a -> plain b ->
  elab.div a b = arith_result (fun x y => if y =? 0 then None else Some (x ÷ y)) a b
  /\ elab.rem a b = arith_result (fun x y => if y =? 0 then None else Some (Z.rem x y)) a b.
Proof. intros Ha Hb. split; [by apply div_spec|by apply rem_spec]. Qed.

(** [**] is exponentiation modulo the base's width; the exponent keeps its
    own width and signedness, and a negative one gives X for the base zero,
    plus or minus one for the bases one and minus one, and zero otherwise. *)
Theorem power_exact (a b : Value) :
  plain a -> plain b ->
  elab.power a b =
    match val_of (signed a) a, val_of (signed b) b with
    | Some x, Some e =>
        match pow_result x e with
        | Some z => of_Z (width a) (signed a) z
        | None => elab.all_x (width a) (signed a)
        end
    | _, _ => elab.all_x (width a) (signed a)
    end.
Proof. apply power_spec. Qed.

(** Shifting known vectors multiplies by a power of two modulo the width,
    or divides by one rounding down; [>>>] does so with the sign of a signed
    operand, [>>] without.  The amount is read unsigned and may exceed any
    machine word. *)
Theorem shift_exact (a b : Value) :
  is_unknown a = false -> is_unknown b = false -> Z.of_nat (width a) <= elab.usize_max ->
  elab.shl a b = of_Z (width a) (signed a) (Z.shiftl (interp (signed a) (bits a)) (uint (bits b)))
  /\ elab.shr a b = of_Z (width a) (signed a) (Z.shiftr (uint (bits a)) (uint (bits b)))
  /\ elab.arith_shl a b = elab.shl a b
  /\ elab.arith_shr a b
     = of_Z (width a) (signed a) (Z.shiftr (interp (signed a) (bits a)) (uint (bits b))).
Proof.
  intros Ka Kb Hw. apply is_unknown_iff in Ka, Kb.
  unfold elab.shl, elab.shr, elab.arith_shl, elab.arith_shr. by rewrite !shift_known.
Qed.

(** The conversions to machine integers return the exact integer, and
    return nothing when a bit is unknown or the integer does not fit. *)
Theorem conversion_exact (v : Value) :
  to_u128 v = (x ← val_of false v; if x <? 2 ^ 128 then Some x else None)
  /\ to_i128 v = (x ← val_of true v; if (i128_min <=? x) && (x <=? i128_max) then Some x else None)
  /\ to_u64 v = (x ← val_of false v; if x <? 2 ^ 64 then Some x else None)
  /\ to_i64 v = (x ← val_of true v; if (i64_min <=? x) && (x <=? i64_max) then Some x else None).
Proof.
  assert (Hu := to_u128_spec v). assert (Hi := to_i128_spec v).
  unfold to_u64, to_i64. rewrite Hu, Hi. split_and!; [done|done| |].
  - unfold val_of. destruct (is_unknown v); [done|]. simpl. pose proof (uint_bounds (bits v)).
    destruct (Z.ltb_spec (uint (bits v)) (2 ^ 128)); simpl.
    + unfold try_u64. rewrite (proj2 (Z.leb_le 0 _)) by lia. done.
    + by rewrite (proj2 (Z.ltb_ge _ (2 ^ 64))) by lia.
  - unfold val_of. destruct (is_unknown v); [done|]. simpl.
    destruct ((i128_min <=? sint (bits v)) && (sint (bits v) <=? i128_max)) eqn:E; [done|]. simpl.
    destruct ((i64_min <=? sint (bits v)) && _) eqn:F; [exfalso|done]. apply andb_prop in F as [F1 F2].
    apply Z.leb_le in F1, F2. apply andb_false_iff in E.
    unfold i64_min, i64_max, i128_min, i128_max in *. rewrite !Z.leb_gt in E. lia.
Qed.

(** [resize] and [cast] of a known value are reduction of its integer to
    the target width; [resize] reads it with the target's signedness and
    [cast] with the source's, so a cast to a wide enough type keeps the value. *)
Theorem conversion_of_width (v : Value) (w : nat) (s : bool) :
  plain v -> is_unknown v = false ->
  resize v w s = of_Z w s (interp s (bits v))
  /\ cast v w s = of_Z w s (interp (signed v) (bits v)).
Proof.
  intros Hp Hk. split; [by apply resize_known|]. unfold cast. rewrite Hp.
  by rewrite resize_known.
Qed.

(** [$clog2] is the ceiling of the base-two logarithm of the unsigned
    value, zero for zero and one, and unknown for an unknown argument. *)
Theorem clog2_exact (a : Value) :
  elab.clog2 a = match val_of false a with
                 | Some x => of_Z 32 false (Z.log2_up x)
                 | None => elab.all_x 32 false
                 end.
Proof. apply clog2_spec. Qed.

(** ** Witnesses *)

(** [-5] as a signed nibble and [2] as a signed three-bit value. *)
Definition minus_five : Value := from_bits [Bit.One; Bit.Zero; Bit.One; Bit.One] true.
Definition plus_two : Value := from_bits [Bit.Zero; Bit.One; Bit.Zero] true.

Lemma arithmetic_exact_witness :
  plain minus_five /\ plain plus_two
  /\ elab.add minus_five plus_two = of_Z 4 true (-3)
  /\ elab.sub minus_five plus_two = of_Z 4 true 9
  /\ elab.mul minus_five plus_two = of_Z 4 true (-10)
  /\ elab.minus minus_five = of_Z 4 true 5.
Proof.
  destruct (arithmetic_exact minus_five plus_two eq_refl eq_refl) as (-> & -> & -> & ->).
  repeat split; reflexivity.
Defined.

Lemma division_exact_witness :
  plain minus_five /\ plain plus_two
  /\ elab.div minus_five plus_two = of_Z 4 true (-2) /\ elab.rem minus_five plus_two = of_Z 4 true (-1).
Proof.
  destruct (division_exact minus_five plus_two eq_refl eq_refl) as (-> & ->). repeat split; reflexivity.
Defined.

Lemma power_exact_witness :
  plain minus_five /\ plain plus_two /\ elab.power minus_five plus_two = of_Z 4 true 25.
Proof.
  rewrite (power_exact minus_five plus_two eq_refl eq_refl). repeat split; reflexivity.
Defined.

Lemma shift_exact_witness :
  elab.shl minus_five plus_two = of_Z 4 true (-20) /\ elab.shr minus_five plus_two = of_Z 4 true 2
  /\ elab.arith_shr minus_five plus_two = of_Z 4 true (-2).
Proof.
  destruct (shift_exact minus_five plus_two eq_refl eq_refl ltac:(vm_compute; discriminate))
    as (-> & -> & _ & ->).
  repeat split; reflexivity.
Defined.

Lemma conversion_of_width_witness :
  plain minus_five /\ resize minus_five 8 false = of_Z 8 false 11
  /\ cast minus_five 8 false = of_Z 8 false (-5).
Proof.
  destruct (conversion_of_width minus_five 8 false eq_refl eq_refl) as (-> & ->).
  repeat split; reflexivity.
Defined.
