(* ===== verification/ElabOrder.v ===== *)
(** * Unknown bits

    An X or Z bit stands for a bit whose value is not known.  [v ⊑ v'] says
    that [v'] is [v] with some unknown bits replaced; the operators of [Elab]
    are monotone for this order, so a bit they report as known has the same
    value whatever the unknown bits turn out to be.  Equality, the logical
    operators, the reductions and the bitwise operators are also exact: they
    report X only when two ways of filling the unknown bits disagree. *)

From Stdlib Require Import ZArith Lia Ascii String.
From stdpp Require Import base list strings.
From S2P Require Import Prelude Elab ElabFacts ElabProps.

(** ** The information order *)

#[export] Instance bit_order : SqSubsetEq Bit.t := fun b c => bit_unknown b = true \/ b = c.

#[export] Instance bits_order : SqSubsetEq (list Bit.t) := Forall2 (⊑).

(** Width, signedness and fill marker are part of the type of a value. *)
#[export] Instance value_order : SqSubsetEq Value := fun v v' =>
  bits v ⊑ bits v' /\ signed v = signed v' /\ fill v = fill v'.

#[export] Instance bit_preorder : PreOrder (⊑@{Bit.t}).
Proof.
  split; [by right|]. intros a b c [Ha | ->] Hb; [by left|]. done.
Qed.

#[export] Instance bits_preorder : PreOrder (⊑@{list Bit.t}).
Proof. unfold sqsubseteq, bits_order. apply _. Qed.

#[export] Instance value_preorder : PreOrder (⊑@{Value}).
Proof.
  split; [intros v; repeat split; reflexivity|].
  intros a b c (H1 & H2 & H3) (H4 & H5 & H6). repeat split; [by etrans|congruence..].
Qed.

#[export] Instance bit_order_dec : RelDecision (⊑@{Bit.t}).
Proof. intros b c. unfold sqsubseteq, bit_order. solve_decision. Defined.

Lemma bits_le_length (l m : list Bit.t) : l ⊑ m -> length l = length m.
Proof. apply Forall2_length. Qed.

Lemma width_le (v v' : Value) : v ⊑ v' -> width v = width v'.
Proof. intros (H & _). by apply bits_le_length. Qed.

Lemma bit_le_known (b c : Bit.t) : b ⊑ c -> bit_unknown b = false -> b = c.
Proof. intros [H|H] ?; congruence. Qed.

Lemma bit_le_unknown (b c : Bit.t) : b ⊑ c -> bit_unknown c = true -> bit_unknown b = true.
Proof. by intros [H|<-]. Qed.

Lemma known_le (l m : list Bit.t) : l ⊑ m -> known l -> l = m.
Proof.
  intros H. induction H as [|b c l m Hb _ IH]; [done|].
  inversion_clear 1. rewrite IH by done. f_equal. by apply bit_le_known.
Qed.

Lemma value_le_known (v v' : Value) : v ⊑ v' -> is_unknown v = false -> v = v'.
Proof.
  intros (H & Hs & Hf) Hk. apply known_le in H; [|by apply is_unknown_iff].
  destruct v, v'. simpl in *. by subst.
Qed.

Lemma is_unknown_le (v v' : Value) : v ⊑ v' -> is_unknown v' = true -> is_unknown v = true.
Proof.
  intros H Hu. destruct (is_unknown v) eqn:E; [done|]. apply value_le_known in H; [|done]. congruence.
Qed.

Lemma unknown_le (l m : list Bit.t) :
  Forall (fun b => bit_unknown b = true) l -> length l = length m -> l ⊑ m.
Proof.
  revert m. induction l as [|b l IH]; intros [|c m] Hk Hl; simpl in Hl; try lia; constructor.
  - left. by inversion Hk.
  - apply IH; [by inversion Hk|lia].
Qed.

Lemma all_x_le w s v : width v = w -> signed v = s -> fill v = None -> elab.all_x w s ⊑ v.
Proof.
  intros Hw Hs Hf. unfold elab.all_x. repeat split; simpl; auto.
  apply unknown_le; [by apply Forall_replicate|]. by rewrite length_replicate.
Qed.

Lemma bit_x_le v : width v = 1%nat -> signed v = false -> fill v = None -> elab.bit_x ⊑ v.
Proof. apply (all_x_le 1 false). Qed.

(** ** The type of a result *)

Definition shaped (w : nat) (s : bool) (v : Value) : Prop :=
  width v = w /\ signed v = s /\ fill v = None.

Lemma shaped_of_Z w s z : shaped w s (of_Z w s z).
Proof. split; [apply width_of_Z|done]. Qed.

Lemma shaped_all_x w s : shaped w s (elab.all_x w s).
Proof. split; [apply length_replicate|done]. Qed.

Lemma shaped_truth b : shaped 1 false (truth b).
Proof. done. Qed.

Lemma shaped_from_bits l s : shaped (length l) s (from_bits l s).
Proof. done. Qed.

Lemma add_loop_length a b i c out : length (elab.add_loop a b i c out) = length out.
Proof.
  revert c out. induction i as [|i IH]; intros; [done|]. cbn [elab.add_loop].
  rewrite IH. apply length_insert.
Qed.

Lemma shaped_add_known a b s : shaped (width a) s (elab.add_known a b s).
Proof.
  split; [|done]. unfold width at 1. simpl. rewrite add_loop_length. apply length_replicate.
Qed.

Lemma shaped_negate_known v : shaped (width v) (signed v) (elab.negate_known v).
Proof.
  unfold elab.negate_known. set (i := from_bits _ _).
  replace (width v) with (width i) by (unfold width, i; simpl; apply length_map).
  apply shaped_add_known.
Qed.

Lemma shaped_sub_known a b s : shaped (width a) s (elab.sub_known a b s).
Proof. apply shaped_add_known. Qed.

Lemma shaped_mul_known a b s : shaped (width a) s (elab.mul_known a b s).
Proof.
  split; [|done]. unfold width at 1. simpl.
  rewrite length_map, length_rev, mul_rows_length. apply length_replicate.
Qed.

Lemma shaped_with_signed w s v : width v = w -> fill v = None -> shaped w s (with_signed v s).
Proof. done. Qed.

Lemma shift_in_length l i b : length (<[i := b]> (elab.rotate_left l)) = length l.
Proof.
  rewrite length_insert. unfold elab.rotate_left. rewrite length_app, length_drop, length_take. lia.
Qed.

Lemma div_loop_shape w d index l q r :
  shaped w false q -> shaped w false r ->
  shaped w false (elab.div_loop w d index l q r).1 /\ shaped w false (elab.div_loop w d index l q r).2.
Proof.
  revert index q r. induction l as [|b l IH]; intros index q r Hq Hr; [done|]. cbn [elab.div_loop].
  set (r' := if (0 <? w)%nat then _ else _).
  assert (Hr' : shaped w false r').
  { unfold r'. destruct (0 <? w)%nat; [|done]. destruct Hr as (? & ? & ?). split; [|done].
    unfold width in *. simpl. by rewrite shift_in_length. }
  assert (Hq' : shaped w false (mkValue (<[index := Bit.One]> (bits q)) (signed q) (fill q))).
  { destruct Hq as (? & ? & ?). split; [|done]. unfold width in *. simpl. by rewrite length_insert. }
  assert (Hsub : shaped w false (elab.sub_known r' d false)).
  { replace w with (width r') by apply Hr'. apply shaped_sub_known. }
  destruct (elab.unsigned_cmp r' d); apply IH; done.
Qed.

Lemma shaped_div_rem a d :
  shaped (width a) false (elab.unsigned_div_rem a d).1 /\ shaped (width a) false (elab.unsigned_div_rem a d).2.
Proof. apply div_loop_shape; (split; [apply length_replicate|done]). Qed.

(** An operator that resizes its operands and gives X on an unknown one. *)
Definition strict (op : Value -> Value -> nat -> bool -> Value) (a b : Value) : Value :=
  let '(a, b, w, s) := elab.binary_arith_operands a b in
  if is_unknown a || is_unknown b then elab.all_x w s else op a b w s.

Lemma add_strict a b : elab.add a b = strict (fun a b w s => elab.add_known a b s) a b.
Proof. done. Qed.
Lemma sub_strict a b : elab.sub a b = strict (fun a b w s => elab.sub_known a b s) a b.
Proof. done. Qed.
Lemma mul_strict a b : elab.mul a b = strict (fun a b w s => elab.mul_known a b s) a b.
Proof. done. Qed.

(** What [strict] asks of the operator: the type of its result. *)
Definition shapes (op : Value -> Value -> nat -> bool -> Value) : Prop :=
  forall a b w s, width a = w -> width b = w -> shaped w s (op a b w s).

Lemma shaped_strict op a b :
  shapes op -> shaped (elab.max_width a b) (signed a && signed b) (strict op a b).
Proof.
  intros Hop. unfold strict, elab.binary_arith_operands.
  destruct (is_unknown _ || is_unknown _); [apply shaped_all_x|].
  apply Hop; apply width_resize.
Qed.

Section Magnitude.
Context (s : bool) (a b : Value).

Lemma shaped_magnitude w c v : width v = w -> width (with_signed (if c : bool then elab.negate_known v else v) s) = w.
Proof. intros <-. destruct c; [apply shaped_negate_known|done]. Qed.

Lemma shaped_signed_result w c v :
  shaped w false v -> shaped w s (with_signed (if c : bool then elab.negate_known v else v) s).
Proof.
  intros (Hw & Hs & Hf). destruct c; [|by split]. destruct (shaped_negate_known v) as (H1 & _ & H3).
  split; [|done]. rewrite <- Hw, <- H1. done.
Qed.

End Magnitude.

Definition div_op (a b : Value) (w : nat) (s : bool) : Value :=
  if elab.is_zero b then elab.all_x w s
  else
    let a_negative := s && elab.first_is_one a in
    let b_negative := s && elab.first_is_one b in
    let '(quotient, _) := elab.unsigned_div_rem
      (with_signed (if a_negative then elab.negate_known a else a) false)
      (with_signed (if b_negative then elab.negate_known b else b) false) in
    with_signed (if xorb a_negative b_negative then elab.negate_known quotient else quotient) s.

Definition rem_op (a b : Value) (w : nat) (s : bool) : Value :=
  if elab.is_zero b then elab.all_x w s
  else
    let a_negative := s && elab.first_is_one a in
    let b_negative := s && elab.first_is_one b in
    let '(_, remainder) := elab.unsigned_div_rem
      (with_signed (if a_negative then elab.negate_known a else a) false)
      (with_signed (if b_negative then elab.negate_known b else b) false) in
    with_signed (if a_negative then elab.negate_known remainder else remainder) s.

Lemma div_strict a b : elab.div a b = strict div_op a b.
Proof. done. Qed.
Lemma rem_strict a b : elab.rem a b = strict rem_op a b.
Proof. done. Qed.

Lemma div_shapes : shapes div_op.
Proof.
  intros a b w s Ha Hb. unfold div_op. destruct (elab.is_zero b); [apply shaped_all_x|].
  set (d := with_signed _ false) at 1. set (e := with_signed _ false).
  pose proof (shaped_div_rem d e) as [H _]. destruct (elab.unsigned_div_rem d e) as [q r].
  apply shaped_signed_result. replace w with (width d); [done|]. by apply shaped_magnitude.
Qed.

Lemma rem_shapes : shapes rem_op.
Proof.
  intros a b w s Ha Hb. unfold rem_op. destruct (elab.is_zero b); [apply shaped_all_x|].
  set (d := with_signed _ false) at 1. set (e := with_signed _ false).
  pose proof (shaped_div_rem d e) as [_ H]. destruct (elab.unsigned_div_rem d e) as [q r].
  apply shaped_signed_result. replace w with (width d); [done|]. by apply shaped_magnitude.
Qed.

Lemma add_shapes : shapes (fun a b w s => elab.add_known a b s).
Proof. intros a b w s <- _. apply shaped_add_known. Qed.
Lemma sub_shapes : shapes (fun a b w s => elab.sub_known a b s).
Proof. intros a b w s <- _. apply shaped_sub_known. Qed.
Lemma mul_shapes : shapes (fun a b w s => elab.mul_known a b s).
Proof. intros a b w s <- _. apply shaped_mul_known. Qed.
#[export] Hint Resolve add_shapes sub_shapes mul_shapes div_shapes rem_shapes : core.

(** ** Monotonicity *)

(** Case analysis on bits related by the order. *)
Ltac bit_cases :=
  repeat match goal with
  | H : ?b ⊑ ?c |- _ =>
      is_var b; is_var c; destruct b, c; (destruct H as [H | H]; discriminate H) || clear H
  end; (by left) || (by right).

#[export] Instance resize_mono : Proper ((⊑) ==> (=) ==> (=) ==> (⊑)) resize.
Proof.
  intros v v' (Hb & Hs & Hf) w ? <- s ? <-. unfold resize. rewrite <- Hf.
  destruct (fill v); [reflexivity|]. repeat split; simpl; auto.
  pose proof (bits_le_length _ _ Hb) as <-.
  destruct (w <? length (bits v))%nat; [by apply Forall2_drop|].
  destruct (length (bits v) <? w)%nat; [|done]. apply Forall2_app; [|done].
  apply Forall2_replicate. destruct s; [|reflexivity].
  destruct Hb as [|b c l m Hbc _]; [reflexivity|]. simpl. by destruct b, c.
Qed.

Lemma max_width_le a b a' b' : a ⊑ a' -> b ⊑ b' -> elab.max_width a b = elab.max_width a' b'.
Proof. intros Ha Hb. unfold elab.max_width. by rewrite (width_le _ _ Ha), (width_le _ _ Hb). Qed.

Lemma strict_mono op : shapes op -> Proper ((⊑) ==> (⊑) ==> (⊑)) (strict op).
Proof.
  intros Hop a a' Ha b b' Hb. unfold strict, elab.binary_arith_operands.
  rewrite <- (max_width_le _ _ _ _ Ha Hb). pose proof Ha as (_ & <- & _). pose proof Hb as (_ & <- & _).
  set (w := elab.max_width a b). set (s := signed a && signed b).
  pose proof (resize_mono _ _ Ha w w eq_refl s s eq_refl) as Ra.
  pose proof (resize_mono _ _ Hb w w eq_refl s s eq_refl) as Rb.
  destruct (is_unknown (resize a w s) || is_unknown (resize b w s)) eqn:K.
  - assert (shaped w s (if is_unknown (resize a' w s) || is_unknown (resize b' w s)
      then elab.all_x w s else op (resize a' w s) (resize b' w s) w s)) as (? & ? & ?).
    { destruct (is_unknown (resize a' w s) || _); [apply shaped_all_x|apply Hop; apply width_resize]. }
    by apply all_x_le.
  - apply orb_false_iff in K as [Ka Kb].
    rewrite <- (value_le_known _ _ Ra Ka), <- (value_le_known _ _ Rb Kb), Ka, Kb. reflexivity.
Qed.

#[export] Instance add_mono : Proper ((⊑) ==> (⊑) ==> (⊑)) elab.add.
Proof. exact (strict_mono _ add_shapes). Qed.
#[export] Instance sub_mono : Proper ((⊑) ==> (⊑) ==> (⊑)) elab.sub.
Proof. exact (strict_mono _ sub_shapes). Qed.
#[export] Instance mul_mono : Proper ((⊑) ==> (⊑) ==> (⊑)) elab.mul.
Proof. exact (strict_mono _ mul_shapes). Qed.
#[export] Instance div_mono : Proper ((⊑) ==> (⊑) ==> (⊑)) elab.div.
Proof. exact (strict_mono _ div_shapes). Qed.
#[export] Instance rem_mono : Proper ((⊑) ==> (⊑) ==> (⊑)) elab.rem.
Proof. exact (strict_mono _ rem_shapes). Qed.

Lemma shaped_from_u64 z w s : shaped w s (from_u64 z w s).
Proof. split; [|done]. unfold width. simpl. by rewrite length_rev, length_map, length_seq. Qed.

Lemma shaped_power_loop w s e r b : shaped w s r -> shaped w s (elab.power_loop s e r b).
Proof.
  revert r b. induction e as [|x e IH]; intros r b Hr; [done|]. cbn [elab.power_loop]. apply IH.
  destruct (is_one x); [|done]. destruct Hr as (<- & _). apply shaped_mul_known.
Qed.

Lemma shaped_power a b : plain a -> shaped (width a) (signed a) (elab.power a b).
Proof.
  intros Ha. unfold elab.power.
  destruct (is_unknown a || is_unknown b); [apply shaped_all_x|].
  destruct (signed b && elab.first_is_one b).
  - destruct (elab.is_zero a); [apply shaped_all_x|].
    destruct (_ && _ && _).
    + destruct (is_one (bit_lsb b 0)); [by split|apply shaped_from_u64].
    + destruct (_ && _); [apply shaped_from_u64|]. split; [apply length_replicate|done].
  - apply shaped_power_loop. split; [|done]. unfold width at 1. simpl.
    rewrite set_last_length. apply length_replicate.
Qed.

Lemma power_mono a a' b b' : plain a -> a ⊑ a' -> b ⊑ b' -> elab.power a b ⊑ elab.power a' b'.
Proof.
  intros Pa Ha Hb. destruct (is_unknown a || is_unknown b) eqn:K.
  - unfold elab.power at 1. rewrite K. destruct (shaped_power a' b') as (Hw & Hs & Hf).
    { destruct Ha as (_ & _ & E). unfold plain in *. by rewrite <- E. }
    destruct Ha as (H1 & H2 & _). rewrite <- H2 in Hs. apply all_x_le; [|done..].
    rewrite Hw. symmetry. by apply bits_le_length.
  - apply orb_false_iff in K as [Ka Kb].
    by rewrite <- (value_le_known _ _ Ha Ka), <- (value_le_known _ _ Hb Kb).
Qed.

#[export] Instance minus_mono : Proper ((⊑) ==> (⊑)) elab.minus.
Proof.
  intros a a' Ha. unfold elab.minus. destruct (is_unknown a) eqn:K.
  - pose proof Ha as (_ & Hs & _). pose proof (width_le _ _ Ha) as Hw.
    destruct (is_unknown a'); [rewrite Hw, Hs; reflexivity|].
    destruct (shaped_negate_known a') as (? & ? & ?). apply all_x_le; congruence.
  - rewrite <- (value_le_known _ _ Ha K), K. reflexivity.
Qed.

#[export] Instance bitwise_mono f :
  Proper ((⊑) ==> (⊑) ==> (⊑)) f -> Proper ((⊑) ==> (⊑) ==> (⊑)) (elab.bitwise f).
Proof.
  intros Hf a a' Ha b b' Hb. unfold elab.bitwise.
  rewrite <- (max_width_le _ _ _ _ Ha Hb). pose proof Ha as (_ & <- & _). pose proof Hb as (_ & <- & _).
  repeat split; simpl; auto.
  pose proof (resize_mono _ _ Ha (elab.max_width a b) _ eq_refl (signed a && signed b) _ eq_refl) as (Ra & _).
  pose proof (resize_mono _ _ Hb (elab.max_width a b) _ eq_refl (signed a && signed b) _ eq_refl) as (Rb & _).
  revert Rb. generalize (bits (resize b (elab.max_width a b) (signed a && signed b))).
  generalize (bits (resize b' (elab.max_width a b) (signed a && signed b))).
  induction Ra as [|x x' l l' Hx _ IH]; intros m' m Hm; [constructor|].
  destruct Hm as [|y y' m m' Hy Hm]; [constructor|]. simpl. constructor; [by apply Hf|by apply IH].
Qed.

#[export] Instance and_one_mono : Proper ((⊑) ==> (⊑) ==> (⊑)) elab.bit_and_one.
Proof. intros x x' Hx y y' Hy. bit_cases. Qed.
#[export] Instance or_one_mono : Proper ((⊑) ==> (⊑) ==> (⊑)) elab.bit_or_one.
Proof. intros x x' Hx y y' Hy. bit_cases. Qed.
#[export] Instance xor_one_mono : Proper ((⊑) ==> (⊑) ==> (⊑)) elab.bit_xor_one.
Proof. intros x x' Hx y y' Hy. bit_cases. Qed.
#[export] Instance neg_one_mono : Proper ((⊑) ==> (⊑)) elab.bit_neg_one.
Proof. intros x x' Hx. bit_cases. Qed.

#[export] Instance bit_and_mono : Proper ((⊑) ==> (⊑) ==> (⊑)) elab.bit_and := bitwise_mono _ _.
#[export] Instance bit_or_mono : Proper ((⊑) ==> (⊑) ==> (⊑)) elab.bit_or := bitwise_mono _ _.
#[export] Instance bit_xor_mono : Proper ((⊑) ==> (⊑) ==> (⊑)) elab.bit_xor := bitwise_mono _ _.

#[export] Instance bit_neg_mono : Proper ((⊑) ==> (⊑)) elab.bit_neg.
Proof.
  intros a a' (Hb & Hs & _). repeat split; simpl; auto.
  apply Forall2_fmap. eapply Forall2_impl; [exact Hb|]. apply neg_one_mono.
Qed.

#[export] Instance bit_xnor_mono : Proper ((⊑) ==> (⊑) ==> (⊑)) elab.bit_xnor.
Proof.
  intros a a' Ha b b' Hb. change (elab.bit_neg (elab.bit_xor a b) ⊑ elab.bit_neg (elab.bit_xor a' b')).
  by apply bit_neg_mono, bit_xor_mono.
Qed.

(** *** One-bit results *)

Definition one_bit (b : Bit.t) : Value := from_bits [b] false.

#[export] Instance one_bit_mono : Proper ((⊑) ==> (⊑)) one_bit.
Proof. intros b c H. split; [constructor; [done|constructor]|done]. Qed.

Lemma shaped_one_bit b : shaped 1 false (one_bit b).
Proof. done. Qed.

Lemma contains_le b (v v' : Value) :
  bit_unknown b = false -> v ⊑ v' -> elab.contains b v = true -> elab.contains b v' = true.
Proof.
  intros Hk (H & _) Hc. unfold elab.contains in *.
  induction H as [|x y l m Hxy _ IH]; [done|]. simpl in *. apply orb_true_iff in Hc as [Hc|Hc].
  - apply orb_true_iff. left. destruct b; try discriminate; destruct x; try discriminate;
      apply bit_le_known in Hxy; by try subst.
  - apply orb_true_iff. right. by apply IH.
Qed.

#[export] Instance logical_bit_mono : Proper ((⊑) ==> (⊑)) elab.logical_bit.
Proof.
  intros a a' Ha. unfold elab.logical_bit. destruct (elab.contains Bit.One a) eqn:C.
  - by rewrite (contains_le Bit.One a a').
  - destruct (is_unknown a) eqn:K; [by left|]. rewrite <- (value_le_known _ _ Ha K), C, K. reflexivity.
Qed.

Lemma logical_bit_cases a : elab.logical_bit a <> Bit.Z.
Proof. unfold elab.logical_bit. destruct (elab.contains _ _), (is_unknown a); done. Qed.

Ltac logical := repeat match goal with |- context [elab.logical_bit ?a] =>
  let H := fresh in pose proof (logical_bit_cases a) as H; destruct (elab.logical_bit a);
  try (by destruct H); clear H end; reflexivity.

Lemma log_not_bit a : elab.log_not a = one_bit (elab.bit_neg_one (elab.logical_bit a)).
Proof. unfold elab.log_not. logical. Qed.
Lemma log_and_bit a b : elab.log_and a b = one_bit (elab.bit_and_one (elab.logical_bit a) (elab.logical_bit b)).
Proof. unfold elab.log_and. logical. Qed.
Lemma log_or_bit a b : elab.log_or a b = one_bit (elab.bit_or_one (elab.logical_bit a) (elab.logical_bit b)).
Proof. unfold elab.log_or. logical. Qed.
Lemma log_imply_bit a b : elab.log_imply a b
  = one_bit (elab.bit_or_one (elab.bit_neg_one (elab.logical_bit a)) (elab.logical_bit b)).
Proof. unfold elab.log_imply. logical. Qed.
Lemma log_equiv_bit a b : elab.log_equiv a b
  = one_bit (elab.bit_neg_one (elab.bit_xor_one (elab.logical_bit a) (elab.logical_bit b))).
Proof. unfold elab.log_equiv. logical. Qed.

#[export] Instance log_not_mono : Proper ((⊑) ==> (⊑)) elab.log_not.
Proof. intros a a' Ha. rewrite !log_not_bit. by rewrite Ha. Qed.
#[export] Instance log_and_mono : Proper ((⊑) ==> (⊑) ==> (⊑)) elab.log_and.
Proof. intros a a' Ha b b' Hb. rewrite !log_and_bit. by rewrite Ha, Hb. Qed.
#[export] Instance log_or_mono : Proper ((⊑) ==> (⊑) ==> (⊑)) elab.log_or.
Proof. intros a a' Ha b b' Hb. rewrite !log_or_bit. by rewrite Ha, Hb. Qed.
#[export] Instance log_imply_mono : Proper ((⊑) ==> (⊑) ==> (⊑)) elab.log_imply.
Proof. intros a a' Ha b b' Hb. rewrite !log_imply_bit. by rewrite Ha, Hb. Qed.
#[export] Instance log_equiv_mono : Proper ((⊑) ==> (⊑) ==> (⊑)) elab.log_equiv.
Proof. intros a a' Ha b b' Hb. rewrite !log_equiv_bit. by rewrite Ha, Hb. Qed.

(** The negated form of a one-bit result. *)
Lemma negate_one_bit b :
  b <> Bit.Z ->
  (if is_unknown (one_bit b) then one_bit b else elab.invert_known_one_bit (one_bit b))
  = one_bit (elab.bit_neg_one b).
Proof. by destruct b. Qed.

Definition and_bit (a : Value) : Bit.t :=
  if elab.contains Bit.Zero a then Bit.Zero else if is_unknown a then Bit.X else Bit.One.

Definition xor_bit (a : Value) : Bit.t :=
  if is_unknown a then Bit.X else bit_of (Nat.odd (elab.ones_count a)).

#[export] Instance and_bit_mono : Proper ((⊑) ==> (⊑)) and_bit.
Proof.
  intros a a' Ha. unfold and_bit. destruct (elab.contains Bit.Zero a) eqn:C.
  - by rewrite (contains_le Bit.Zero a a').
  - destruct (is_unknown a) eqn:K; [by left|]. rewrite <- (value_le_known _ _ Ha K), C, K. reflexivity.
Qed.

#[export] Instance xor_bit_mono : Proper ((⊑) ==> (⊑)) xor_bit.
Proof.
  intros a a' Ha. unfold xor_bit. destruct (is_unknown a) eqn:K; [by left|].
  rewrite <- (value_le_known _ _ Ha K), K. reflexivity.
Qed.

Lemma unary_and_bit a : elab.unary_and a = one_bit (and_bit a).
Proof. unfold elab.unary_and, and_bit. by destruct (elab.contains _ _), (is_unknown a). Qed.
Lemma unary_or_bit a : elab.unary_or a = one_bit (elab.logical_bit a).
Proof. unfold elab.unary_or, elab.logical_bit. by destruct (elab.contains _ _), (is_unknown a). Qed.
Lemma unary_xor_bit a : elab.unary_xor a = one_bit (xor_bit a).
Proof. unfold elab.unary_xor, xor_bit. destruct (is_unknown a); [done|]. apply from_u64_truth. Qed.

Lemma unary_nand_bit a : elab.unary_nand a = one_bit (elab.bit_neg_one (and_bit a)).
Proof.
  unfold elab.unary_nand. rewrite unary_and_bit. apply negate_one_bit.
  unfold and_bit. by destruct (elab.contains _ _), (is_unknown a).
Qed.
Lemma unary_nor_bit a : elab.unary_nor a = one_bit (elab.bit_neg_one (elab.logical_bit a)).
Proof. unfold elab.unary_nor. rewrite unary_or_bit. apply negate_one_bit, logical_bit_cases. Qed.
Lemma unary_xnor_bit a : elab.unary_xnor a = one_bit (elab.bit_neg_one (xor_bit a)).
Proof.
  unfold elab.unary_xnor. rewrite unary_xor_bit. apply negate_one_bit.
  unfold xor_bit. by destruct (is_unknown a), (Nat.odd (elab.ones_count a)).
Qed.

#[export] Instance unary_and_mono : Proper ((⊑) ==> (⊑)) elab.unary_and.
Proof. intros a a' Ha. rewrite !unary_and_bit. by rewrite Ha. Qed.
#[export] Instance unary_or_mono : Proper ((⊑) ==> (⊑)) elab.unary_or.
Proof. intros a a' Ha. rewrite !unary_or_bit. by rewrite Ha. Qed.
#[export] Instance unary_xor_mono : Proper ((⊑) ==> (⊑)) elab.unary_xor.
Proof. intros a a' Ha. rewrite !unary_xor_bit. by rewrite Ha. Qed.
#[export] Instance unary_nand_mono : Proper ((⊑) ==> (⊑)) elab.unary_nand.
Proof. intros a a' Ha. rewrite !unary_nand_bit. by rewrite Ha. Qed.
#[export] Instance unary_nor_mono : Proper ((⊑) ==> (⊑)) elab.unary_nor.
Proof. intros a a' Ha. rewrite !unary_nor_bit. by rewrite Ha. Qed.
#[export] Instance unary_xnor_mono : Proper ((⊑) ==> (⊑)) elab.unary_xnor.
Proof. intros a a' Ha. rewrite !unary_xnor_bit. by rewrite Ha. Qed.

(** *** Shifts, equality, comparison *)

Lemma shaped_shift a b r t : shaped (width a) (signed a) (elab.shift a b r t).
Proof.
  unfold elab.shift. destruct (is_unknown b); [apply shaped_all_x|].
  destruct (Z.leb_spec (Z.of_nat (width a)) (elab.shift_amount b)).
  { split; [apply length_replicate|done]. }
  split; [|done]. unfold width in *. cbn [bits].
  destruct r; rewrite length_app, length_replicate, ?length_take, ?length_drop; lia.
Qed.

Lemma bit_at_le (l m : list Bit.t) i : l ⊑ m -> bit_at l i ⊑ bit_at m i.
Proof.
  intros H. revert i. induction H as [|b c l m Hb _ IH]; intros [|i]; try reflexivity; [done|].
  apply IH.
Qed.

#[export] Instance shift_mono : Proper ((⊑) ==> (⊑) ==> (=) ==> (=) ==> (⊑)) elab.shift.
Proof.
  intros a a' Ha b b' Hb r ? <- t ? <-. pose proof (width_le _ _ Ha) as Hw. pose proof Ha as (Hbits & Hs & _).
  destruct (is_unknown b) eqn:K.
  - unfold elab.shift at 1. rewrite K. destruct (shaped_shift a' b' r t) as (? & ? & ?).
    apply all_x_le; congruence.
  - rewrite <- (value_le_known _ _ Hb K). unfold elab.shift. rewrite K, <- Hw, <- Hs.
    pose proof (bit_at_le _ _ 0 Hbits) as H0.
    destruct (Z.of_nat (width a) <=? elab.shift_amount b); split; try done; simpl.
    + apply Forall2_replicate. by destruct (_ && _).
    + destruct r; apply Forall2_app.
      * apply Forall2_replicate. by destruct (t && signed a).
      * by apply Forall2_take.
      * by apply Forall2_drop.
      * by apply Forall2_replicate.
Qed.

#[export] Instance shl_mono : Proper ((⊑) ==> (⊑) ==> (⊑)) elab.shl.
Proof. intros a a' Ha b b' Hb. by apply shift_mono. Qed.
#[export] Instance shr_mono : Proper ((⊑) ==> (⊑) ==> (⊑)) elab.shr.
Proof. intros a a' Ha b b' Hb. by apply shift_mono. Qed.
#[export] Instance arith_shl_mono : Proper ((⊑) ==> (⊑) ==> (⊑)) elab.arith_shl.
Proof. intros a a' Ha b b' Hb. by apply shift_mono. Qed.
#[export] Instance arith_shr_mono : Proper ((⊑) ==> (⊑) ==> (⊑)) elab.arith_shr.
Proof. intros a a' Ha b b' Hb. by apply shift_mono. Qed.

(** What a position says about equality. *)
Definition eq_bit (x y : Bit.t) : Bit.t := elab.bit_neg_one (elab.bit_xor_one x y).

(** The conjunction over all positions; [u] is the verdict so far. *)
Definition eq_all (u : Bit.t) (l m : list Bit.t) : Bit.t :=
  fold_right elab.bit_and_one u (zip_with eq_bit l m).

Lemma and_one_x_l b : elab.bit_and_one Bit.X b = if Bit.eqb b Bit.Zero then Bit.Zero else Bit.X.
Proof. by destruct b. Qed.

Lemma eq_all_x l m : eq_all Bit.X l m = if Bit.eqb (eq_all Bit.One l m) Bit.Zero then Bit.Zero else Bit.X.
Proof.
  unfold eq_all. induction (zip_with eq_bit l m) as [|b z IH]; [done|]. simpl. rewrite IH.
  by destruct b, (fold_right elab.bit_and_one Bit.One z).
Qed.

Lemma and_one_not_z x y : elab.bit_and_one x y <> Bit.Z.
Proof. by destruct x, y. Qed.

Lemma eq_all_not_z l m : eq_all Bit.One l m <> Bit.Z.
Proof. unfold eq_all. destruct (zip_with eq_bit l m); [done|]. apply and_one_not_z. Qed.

Lemma eq_loop_spec l m u :
  elab.eq_loop l m u = one_bit (eq_all (if u then Bit.X else Bit.One) l m).
Proof.
  revert m u. induction l as [|x l IH]; intros [|y m] u; try (by destruct u).
  cbn [elab.eq_loop]. unfold eq_all. cbn [zip_with fold_right]. fold (eq_all (if u then Bit.X else Bit.One) l m).
  destruct x, y; cbn -[eq_all one_bit]; rewrite ?IH; f_equal; rewrite ?and_one_x_l;
    destruct u; rewrite ?eq_all_x; pose proof (eq_all_not_z l m);
    by destruct (eq_all Bit.One l m).
Qed.

Lemma eq_all_mono l m l' m' : l ⊑ l' -> m ⊑ m' -> eq_all Bit.One l m ⊑ eq_all Bit.One l' m'.
Proof.
  intros Hl. revert m m'. induction Hl as [|x x' l l' Hx _ IH]; intros m m' Hm; [reflexivity|].
  destruct Hm as [|y y' m m' Hy Hm]; [reflexivity|]. unfold eq_all. cbn [zip_with fold_right].
  apply and_one_mono; [|by apply IH]. unfold eq_bit. by rewrite Hx, Hy.
Qed.

(** The verdict of [==] as a four-state bit. *)
Definition eq_verdict (a b : Value) : Bit.t :=
  let w := elab.max_width a b in
  let s := signed a && signed b in
  eq_all Bit.One (bits (resize a w s)) (bits (resize b w s)).

Lemma eq_verdict_spec a b : elab.eq a b = one_bit (eq_verdict a b).
Proof. apply eq_loop_spec. Qed.

Lemma neq_verdict_spec a b : elab.neq a b = one_bit (elab.bit_neg_one (eq_verdict a b)).
Proof.
  unfold elab.neq. rewrite eq_verdict_spec. apply negate_one_bit. apply eq_all_not_z.
Qed.

#[export] Instance eq_verdict_mono : Proper ((⊑) ==> (⊑) ==> (⊑)) eq_verdict.
Proof.
  intros a a' Ha b b' Hb. unfold eq_verdict. rewrite <- (max_width_le _ _ _ _ Ha Hb).
  pose proof Ha as (_ & <- & _). pose proof Hb as (_ & <- & _).
  apply eq_all_mono; by apply resize_mono.
Qed.

#[export] Instance eq_mono : Proper ((⊑) ==> (⊑) ==> (⊑)) elab.eq.
Proof. intros a a' Ha b b' Hb. rewrite !eq_verdict_spec. by rewrite Ha, Hb. Qed.
#[export] Instance neq_mono : Proper ((⊑) ==> (⊑) ==> (⊑)) elab.neq.
Proof. intros a a' Ha b b' Hb. rewrite !neq_verdict_spec. by rewrite Ha, Hb. Qed.

Lemma shaped_cmp_result a b p : shaped 1 false (elab.cmp_result a b p).
Proof. unfold elab.cmp_result. destruct (_ || _); [done|]. by destruct (p _). Qed.

Lemma cmp_result_mono p : Proper ((⊑) ==> (⊑) ==> (⊑)) (fun a b => elab.cmp_result a b p).
Proof.
  intros a a' Ha b b' Hb. destruct (is_unknown a || is_unknown b) eqn:K.
  - unfold elab.cmp_result at 1. rewrite K. destruct (shaped_cmp_result a' b' p) as (? & ? & ?). by apply bit_x_le.
  - apply orb_false_iff in K as [Ka Kb].
    rewrite <- (value_le_known _ _ Ha Ka), <- (value_le_known _ _ Hb Kb). reflexivity.
Qed.

#[export] Instance lt_mono : Proper ((⊑) ==> (⊑) ==> (⊑)) elab.lt := cmp_result_mono _.
#[export] Instance le_mono : Proper ((⊑) ==> (⊑) ==> (⊑)) elab.le := cmp_result_mono _.
#[export] Instance gt_mono : Proper ((⊑) ==> (⊑) ==> (⊑)) elab.gt := cmp_result_mono _.
#[export] Instance ge_mono : Proper ((⊑) ==> (⊑) ==> (⊑)) elab.ge := cmp_result_mono _.

(** *** Wildcard equality, conditional, concatenation, [$clog2] *)

Definition wild_bit (x y : Bit.t) : Bit.t := if bit_unknown y then Bit.One else eq_bit x y.

Fixpoint wild_all (ra rb : Value) (i n : nat) : Bit.t :=
  match n with
  | O => Bit.One
  | S n' => elab.bit_and_one (wild_bit (bit_lsb ra i) (bit_lsb rb i)) (wild_all ra rb (S i) n')
  end.

Lemma wild_all_not_z ra rb i n : wild_all ra rb i n <> Bit.Z.
Proof. destruct n; [done|]. apply and_one_not_z. Qed.

Lemma wildcard_loop_spec ra rb i n u :
  elab.wildcard_loop ra rb i n u
  = one_bit (if u then elab.bit_and_one Bit.X (wild_all ra rb i n) else wild_all ra rb i n).
Proof.
  revert i u. induction n as [|n IH]; intros i u; [by destruct u|].
  cbn [elab.wildcard_loop wild_all]. unfold wild_bit.
  destruct (bit_lsb rb i), (bit_lsb ra i); cbn -[wild_all one_bit elab.bit_and_one]; rewrite ?IH; f_equal;
    pose proof (wild_all_not_z ra rb (S i) n); destruct u; by destruct (wild_all ra rb (S i) n).
Qed.

Definition wild_verdict (a b : Value) : Bit.t :=
  let w := elab.max_width a b in
  let s := signed a && signed b in
  wild_all (resize a w s) (resize b w s) 0 w.

Lemma wildcard_eq_bit a b : elab.wildcard_eq a b = one_bit (wild_verdict a b).
Proof. apply (wildcard_loop_spec _ _ _ _ false). Qed.

Lemma wildcard_neq_bit a b : elab.wildcard_neq a b = one_bit (elab.bit_neg_one (wild_verdict a b)).
Proof. unfold elab.wildcard_neq. rewrite wildcard_eq_bit. apply negate_one_bit, wild_all_not_z. Qed.

Lemma bit_lsb_le (v v' : Value) i : v ⊑ v' -> bit_lsb v i ⊑ bit_lsb v' i.
Proof.
  intros (H & _). unfold bit_lsb. rewrite (bits_le_length _ _ H).
  destruct (i <? length (bits v'))%nat; [by apply bit_at_le|reflexivity].
Qed.

(** The pattern on the right is taken literally; the order is on the left. *)
Lemma wild_verdict_mono a a' b : a ⊑ a' -> wild_verdict a b ⊑ wild_verdict a' b.
Proof.
  intros Ha. unfold wild_verdict. rewrite <- (max_width_le a b a' b Ha) by reflexivity.
  pose proof Ha as (_ & <- & _). generalize (elab.max_width a b) at 3 6. generalize 0%nat.
  intros i n. revert i. induction n as [|n IH]; intros i; [reflexivity|]. cbn [wild_all].
  apply and_one_mono; [|apply IH]. unfold wild_bit. destruct (bit_unknown _); [reflexivity|].
  unfold eq_bit. by rewrite (bit_lsb_le _ _ i (resize_mono _ _ Ha _ _ eq_refl _ _ eq_refl)).
Qed.

Lemma wildcard_eq_mono a a' b : a ⊑ a' -> elab.wildcard_eq a b ⊑ elab.wildcard_eq a' b.
Proof. intros H. rewrite !wildcard_eq_bit. by rewrite (wild_verdict_mono a a' b H). Qed.
Lemma wildcard_neq_mono a a' b : a ⊑ a' -> elab.wildcard_neq a b ⊑ elab.wildcard_neq a' b.
Proof. intros H. rewrite !wildcard_neq_bit. by rewrite (wild_verdict_mono a a' b H). Qed.

Lemma merge_le_l x y x' : x ⊑ x' -> elab.merge_one x y ⊑ x'.
Proof. intros H. unfold elab.merge_one. destruct x, y; simpl; try (by left); done. Qed.
Lemma merge_le_r x y y' : y ⊑ y' -> elab.merge_one x y ⊑ y'.
Proof. intros H. unfold elab.merge_one. destruct x, y; simpl; try (by left); done. Qed.

#[export] Instance merge_one_mono : Proper ((⊑) ==> (⊑) ==> (⊑)) elab.merge_one.
Proof. intros x x' Hx y y' Hy. bit_cases. Qed.

Lemma zip_mono (f : Bit.t -> Bit.t -> Bit.t) l m l' m' :
  Proper ((⊑) ==> (⊑) ==> (⊑)) f -> l ⊑ l' -> m ⊑ m' -> zip_with f l m ⊑ zip_with f l' m'.
Proof.
  intros Hf Hl. revert m m'. induction Hl as [|x x' l l' Hx _ IH]; intros m m' Hm; [constructor|].
  destruct Hm; [constructor|]. constructor; [by apply Hf|by apply IH].
Qed.

Lemma zip_le_l (f : Bit.t -> Bit.t -> Bit.t) l m l' :
  (forall x y x', x ⊑ x' -> f x y ⊑ x') -> length l = length m -> l ⊑ l' -> zip_with f l m ⊑ l'.
Proof.
  intros Hf Hlen Hl. revert m Hlen. induction Hl as [|x x' l l' Hx _ IH]; intros [|y m] Hlen;
    simpl in Hlen; try lia; [constructor|]. constructor; [by apply Hf|apply IH; lia].
Qed.

Lemma zip_le_r (f : Bit.t -> Bit.t -> Bit.t) l m m' :
  (forall x y y', y ⊑ y' -> f x y ⊑ y') -> length l = length m -> m ⊑ m' -> zip_with f l m ⊑ m'.
Proof.
  intros Hf Hlen Hm. revert l Hlen. induction Hm as [|y y' m m' Hy _ IH]; intros [|x l] Hlen;
    simpl in Hlen; try lia; [constructor|]. constructor; [by apply Hf|apply IH; lia].
Qed.

Lemma cond_mono sel sel' a a' b b' :
  plain a -> plain b -> sel ⊑ sel' -> a ⊑ a' -> b ⊑ b' -> elab.cond sel a b ⊑ elab.cond sel' a' b'.
Proof.
  intros Pa Pb Hsel Ha Hb. unfold elab.cond. rewrite <- (max_width_le _ _ _ _ Ha Hb).
  pose proof Ha as (_ & <- & Fa). pose proof Hb as (_ & <- & Fb).
  set (w := elab.max_width a b). set (s := signed a && signed b).
  pose proof (resize_mono _ _ Ha w w eq_refl s s eq_refl) as Ra.
  pose proof (resize_mono _ _ Hb w w eq_refl s s eq_refl) as Rb.
  assert (Hlen : length (bits (resize a w s)) = length (bits (resize b w s)))
    by (fold (width (resize a w s)) (width (resize b w s)); by rewrite !width_resize).
  pose proof (logical_bit_mono _ _ Hsel) as Hl. pose proof (logical_bit_cases sel) as Hz.
  destruct (elab.logical_bit sel) eqn:El.
  - apply bit_le_known in Hl; [|done]. by rewrite <- Hl.
  - apply bit_le_known in Hl; [|done]. by rewrite <- Hl.
  - pose proof (logical_bit_cases sel'). destruct Ra as (Ra & _), Rb as (Rb & _).
    destruct (elab.logical_bit sel'); [| | |done];
      (split; [|by rewrite ?signed_resize, ?fill_resize, <- ?Fa, <- ?Fb]); simpl.
    + by apply (zip_le_r _ _ _ _ merge_le_r).
    + by apply (zip_le_l _ _ _ _ merge_le_l).
    + by apply zip_mono; [apply merge_one_mono|..].
  - done.
Qed.

#[export] Instance clog2_mono : Proper ((⊑) ==> (⊑)) elab.clog2.
Proof.
  intros a a' Ha. destruct (is_unknown a) eqn:K.
  - unfold elab.clog2 at 1. rewrite K. rewrite clog2_spec.
    destruct (val_of false a') as [z|]; [|reflexivity]. by apply all_x_le; try apply width_of_Z.
  - rewrite <- (value_le_known _ _ Ha K). reflexivity.
Qed.

Lemma concat_bits parts : bits (elab.concat parts) = mjoin (map bits parts).
Proof.
  unfold elab.concat. simpl. rewrite <- (app_nil_l (mjoin _)). generalize ([] : list Bit.t).
  induction parts as [|p parts IH]; intros acc; simpl; [by rewrite app_nil_r|].
  by rewrite IH, <- app_assoc.
Qed.

#[export] Instance concat_mono : Proper (Forall2 (⊑) ==> (⊑)) elab.concat.
Proof.
  intros l l' H. split; [|done]. rewrite !concat_bits.
  induction H as [|v v' l l' (Hv & _) _ IH]; [constructor|]. simpl. by apply Forall2_app.
Qed.

(** ** Exactness *)

(** [v'] fills in every unknown bit of [v]. *)
Definition completes (v v' : Value) : Prop := v ⊑ v' /\ is_unknown v' = false.

(** The verdicts two vectors can get. *)
Definition agree_bit (x y : Bit.t) : Bit.t :=
  if bit_unknown x then (if bit_unknown y then Bit.Zero else y) else x.

(** Unless a position proves a difference, some completion makes them equal. *)
Lemma agree_completion l m :
  length l = length m -> eq_all Bit.One l m <> Bit.Zero ->
  exists k, l ⊑ k /\ m ⊑ k /\ known k.
Proof.
  intros Hlen H. exists (zip_with agree_bit l m). revert m Hlen H.
  induction l as [|x l IH]; intros [|y m] Hlen H; simpl in Hlen; try lia; [by repeat constructor|].
  injection Hlen as Hlen. destruct (IH m Hlen) as (H1 & H2 & H3).
  { intros E. apply H. unfold eq_all in *. cbn [zip_with fold_right]. rewrite E. by destruct (eq_bit x y). }
  unfold eq_all in H. cbn [zip_with fold_right] in H. cbn [zip_with].
  assert (Hxy : x ⊑ agree_bit x y /\ y ⊑ agree_bit x y /\ bit_unknown (agree_bit x y) = false).
  { destruct x, y; cbn in H; try (by destruct H); repeat split; (by left) || (by right). }
  destruct Hxy as (? & ? & ?). split; [by constructor|]. split; by constructor.
Qed.

Definition fill_zero (b : Bit.t) : Bit.t := if bit_unknown b then Bit.Zero else b.

Lemma fill_zero_le b : b ⊑ fill_zero b.
Proof. destruct b; (by left) || (by right). Qed.

Lemma complete_le l : l ⊑ map fill_zero l /\ known (map fill_zero l).
Proof.
  induction l as [|b l [IH1 IH2]]; [by repeat constructor|].
  split; constructor; auto using fill_zero_le. by destruct b.
Qed.

(** An unknown position lets two completions differ. *)
Lemma differ_completion l m :
  length l = length m -> eq_all Bit.One l m <> Bit.One ->
  exists k n, l ⊑ k /\ m ⊑ n /\ known k /\ known n /\ k <> n.
Proof.
  revert m. induction l as [|x l IH]; intros [|y m] Hlen H; simpl in Hlen; try lia; [done|].
  injection Hlen as Hlen. destruct (complete_le l) as [L1 L2], (complete_le m) as [M1 M2].
  destruct (decide (eq_bit x y = Bit.One)) as [E|E].
  - destruct (IH m Hlen) as (k & n & ? & ? & ? & ? & Hne).
    { intros C. apply H. unfold eq_all in *. cbn [zip_with fold_right]. by rewrite C, E. }
    exists (fill_zero x :: k), (fill_zero y :: n).
    split_and!; [by constructor; [apply fill_zero_le|]..| | |congruence];
      (constructor; [by destruct x, y|done]).
  - destruct (bit_unknown x) eqn:Kx.
    + exists ((if is_one (fill_zero y) then Bit.Zero else Bit.One) :: map fill_zero l),
        (fill_zero y :: map fill_zero m).
      split_and!; [by constructor; [left|]|by constructor; [apply fill_zero_le|]| | |by destruct y];
        (constructor; [by destruct y|done]).
    + exists (x :: map fill_zero l), ((if is_one x then Bit.Zero else Bit.One) :: map fill_zero m).
      split_and!; [by constructor| | | |by destruct x]; constructor; try done; try (by destruct x).
      destruct x, y; try discriminate; (by left) || (by right) || (by destruct E).
Qed.

Lemma eq_all_refl_iff l m :
  known l -> known m -> length l = length m -> eq_all Bit.One l m = bit_of (bool_decide (l = m)).
Proof.
  revert m. induction l as [|x l IH]; intros [|y m] Hl Hm Hlen; simpl in Hlen; try lia; [done|].
  inversion_clear Hl. inversion_clear Hm. unfold eq_all. cbn [zip_with fold_right].
  fold (eq_all Bit.One l m). rewrite IH by (done || lia).
  destruct (decide (l = m)) as [->|Hne].
  - rewrite (bool_decide_eq_true_2 (m = m)) by done. destruct x, y; try discriminate; cbn;
      (rewrite bool_decide_eq_true_2 by done) || (rewrite bool_decide_eq_false_2 by congruence); done.
  - rewrite (bool_decide_eq_false_2 (l = m)), bool_decide_eq_false_2 by congruence.
    by destruct x, y.
Qed.

Lemma resize_bits_same v w s : plain v -> width v = w -> bits (resize v w s) = bits v.
Proof. intros Hp <-. rewrite bits_resize by (done || lia). by rewrite Nat.sub_diag. Qed.

Lemma eq_verdict_same a b :
  plain a -> plain b -> width a = width b -> eq_verdict a b = eq_all Bit.One (bits a) (bits b).
Proof.
  intros Ha Hb Hw. unfold eq_verdict, elab.max_width.
  by rewrite !resize_bits_same by (done || lia).
Qed.

Lemma eq_known_spec a b :
  plain a -> plain b -> is_unknown a = false -> is_unknown b = false ->
  elab.eq a b = truth (interp (signed a && signed b) (bits a) =? interp (signed a && signed b) (bits b)).
Proof.
  intros Ha Hb Ka Kb. rewrite eq_verdict_spec. unfold eq_verdict, truth, one_bit. do 3 f_equal.
  set (w := elab.max_width a b). set (s := signed a && signed b).
  assert (Wa : (width a <= w)%nat) by (unfold w, elab.max_width; lia).
  assert (Wb : (width b <= w)%nat) by (unfold w, elab.max_width; lia).
  rewrite eq_all_refl_iff.
  2,3: apply is_unknown_iff; by rewrite is_unknown_resize.
  2: { fold (width (resize a w s)) (width (resize b w s)). by rewrite !width_resize. }
  f_equal. apply eq_true_iff_eq. rewrite bool_decide_eq_true, Z.eqb_eq.
  apply is_unknown_iff in Ka, Kb.
  rewrite <- (interp_ext s (bits a) (w - width a)), <- (interp_ext s (bits b) (w - width b)) by done.
  rewrite <- !bits_resize by done. split; [by intros ->|]. intros E.
  rewrite <- (bits_of_interp s (bits (resize a w s))), E.
  2: { apply is_unknown_iff. rewrite is_unknown_resize by done. by apply is_unknown_iff. }
  fold (width (resize a w s)). rewrite width_resize.
  pose proof (bits_of_interp s (bits (resize b w s))) as R. fold (width (resize b w s)) in R.
  rewrite width_resize in R. apply R.
  apply is_unknown_iff. rewrite is_unknown_resize by done. by apply is_unknown_iff.
Qed.

Lemma completes_bits v k :
  plain v -> bits v ⊑ k -> known k -> completes v (from_bits k (signed v)).
Proof. intros Hp Hk Kk. split; [by split_and!|by apply is_unknown_iff]. Qed.

Lemma eq_cases a b : elab.eq a b = truth true \/ elab.eq a b = truth false \/ elab.eq a b = elab.bit_x.
Proof.
  rewrite eq_verdict_spec. assert (H : eq_verdict a b <> Bit.Z) by apply eq_all_not_z.
  by destruct (eq_verdict a b); auto.
Qed.

(** A known verdict is the verdict of every completion. *)
Lemma eq_known_completion a b t a' b' :
  elab.eq a b = truth t -> completes a a' -> completes b b' -> elab.eq a' b' = truth t.
Proof.
  intros E [Ha _] [Hb _]. symmetry. rewrite <- E. apply value_le_known; [by apply eq_mono|].
  rewrite E. by destruct t.
Qed.

Lemma eq_of_completions a b k n :
  plain a -> plain b -> width a = width b -> bits a ⊑ k -> bits b ⊑ n -> known k -> known n ->
  elab.eq (from_bits k (signed a)) (from_bits n (signed b)) = truth (bool_decide (k = n)).
Proof.
  intros Pa Pb Hw Hk Hn Kk Kn.
  assert (length k = length n) by (rewrite <- (bits_le_length _ _ Hk), <- (bits_le_length _ _ Hn); done).
  rewrite eq_verdict_spec, eq_verdict_same by done. simpl. by rewrite eq_all_refl_iff.
Qed.

(** An unknown verdict has a completion either way. *)
Lemma eq_x_completions a b :
  plain a -> plain b -> width a = width b -> elab.eq a b = elab.bit_x ->
  (exists a' b', completes a a' /\ completes b b' /\ elab.eq a' b' = truth true)
  /\ (exists a' b', completes a a' /\ completes b b' /\ elab.eq a' b' = truth false).
Proof.
  intros Pa Pb Hw E. rewrite eq_verdict_spec, eq_verdict_same in E by done. injection E as E.
  destruct (agree_completion (bits a) (bits b) Hw) as (k & Hk1 & Hk2 & Kk); [by rewrite E|].
  destruct (differ_completion (bits a) (bits b) Hw) as (m & n & Hm & Hn & Km & Kn & Hne); [by rewrite E|].
  split.
  - exists (from_bits k (signed a)), (from_bits k (signed b)).
    split_and!; try (by apply completes_bits). rewrite (eq_of_completions a b) by done.
    by rewrite bool_decide_eq_true_2.
  - exists (from_bits m (signed a)), (from_bits n (signed b)).
    split_and!; try (by apply completes_bits). rewrite (eq_of_completions a b) by done.
    by rewrite bool_decide_eq_false_2.
Qed.

(** ** The theorems *)

(** The relational operators compare the integers the operands denote
    under their common signedness, whatever their widths, and are X when a bit
    is unknown; [==] and [!=] do so on known operands. *)
Theorem comparison_exact (a b : Value) :
  plain a -> plain b ->
  elab.lt a b = cmp_value Z.ltb a b
  /\ elab.le a b = cmp_value Z.leb a b
  /\ elab.gt a b = cmp_value Z.gtb a b
  /\ elab.ge a b = cmp_value Z.geb a b
  /\ (is_unknown a = false -> is_unknown b = false ->
      elab.eq a b = cmp_value Z.eqb a b /\ elab.neq a b = cmp_value (fun x y => negb (x =? y)) a b).
Proof.
  intros Ha Hb. split_and!; try (apply cmp_result_spec; [done|done|done]).
  intros Ka Kb. unfold elab.neq. rewrite (eq_known_spec a b) by done.
  unfold cmp_value, val_of. rewrite Ka, Kb. split; [done|]. by destruct (_ =? _).
Qed.

(** [==] is exact on operands of one width: it reports a known bit exactly
    when every way of filling in the unknown bits gives that verdict, and X
    exactly when one way makes the operands equal and another different. *)
Theorem equality_exact (a b : Value) :
  plain a -> plain b -> width a = width b ->
  (forall t, elab.eq a b = truth t <->
     forall a' b', completes a a' -> completes b b' -> elab.eq a' b' = truth t)
  /\ (elab.eq a b = elab.bit_x <->
      (exists a' b', completes a a' /\ completes b b' /\ elab.eq a' b' = truth true)
      /\ (exists a' b', completes a a' /\ completes b b' /\ elab.eq a' b' = truth false)).
Proof.
  intros Pa Pb Hw. split.
  - intros t. split; [eauto using eq_known_completion|]. intros Hall.
    destruct (complete_le (bits a)) as [A1 A2], (complete_le (bits b)) as [B1 B2].
    pose proof (completes_bits a _ Pa A1 A2) as Ca. pose proof (completes_bits b _ Pb B1 B2) as Cb.
    destruct (eq_cases a b) as [E|[E|E]].
    3: { destruct (eq_x_completions a b Pa Pb Hw E) as [(p & q & Hp & Hq & E1) (r & u & Hr & Hu & E2)].
         rewrite (Hall _ _ Hp Hq) in E1. rewrite (Hall _ _ Hr Hu) in E2. destruct t; discriminate. }
    all: rewrite <- (Hall _ _ Ca Cb), E; symmetry; by apply (eq_known_completion a b).
  - split; [by apply eq_x_completions|]. intros [(p & q & Hp & Hq & E1) (r & u & Hr & Hu & E2)].
    destruct (eq_cases a b) as [E|[E|E]]; [| |done].
    + rewrite (eq_known_completion _ _ _ _ _ E Hr Hu) in E2. discriminate.
    + rewrite (eq_known_completion _ _ _ _ _ E Hp Hq) in E1. discriminate.
Qed.

Lemma comparison_exact_witness :
  elab.lt minus_five plus_two = truth true /\ elab.eq minus_five plus_two = truth false.
Proof.
  destruct (comparison_exact minus_five plus_two eq_refl eq_refl) as (-> & _ & _ & _ & H).
  destruct (H eq_refl eq_refl) as (-> & _). split; reflexivity.
Defined.

(** [1x] against [10] can be equal or different; against [0x] it cannot be equal. *)
Lemma equality_exact_witness :
  (exists a' b', completes (from_bits [Bit.One; Bit.X] false) a'
     /\ completes (from_bits [Bit.One; Bit.Zero] false) b' /\ elab.eq a' b' = truth true)
  /\ elab.eq (from_bits [Bit.One; Bit.X] false) (from_bits [Bit.Zero; Bit.X] false) = truth false.
Proof.
  destruct (equality_exact (from_bits [Bit.One; Bit.X] false) (from_bits [Bit.One; Bit.Zero] false)
    eq_refl eq_refl eq_refl) as [_ H].
  split; [apply H; reflexivity|reflexivity].
Defined.
