(* ===== verification/Decode.v ===== *)
(** * Stored values and their decoding

    [src/core/value.rs] (the frontend-neutral value payload and its exact
    integer conversion, module [value]) and the decoder of
    [src/core/elab.rs], lines 1217 to 1446, that turns a payload into a
    resolved four-state value, string or real number.

    Strings are byte strings holding UTF-8 text; [trim] strips the ASCII white
    space of it, and the radix and decimal spellings are ASCII.  The type of
    real numbers is a parameter that the decoder only carries through. *)

From Stdlib Require Import ZArith Lia Ascii String.
From stdpp Require Import base list strings.
From S2P Require Import Prelude Elab.

(** ** The payload *)

Module ScalarValue.

Inductive t : Type := Zero | One | X | Z | DontCare.

End ScalarValue.

Module ValueData.

Inductive t (f64 : Type) : Type :=
  | None
  | Scalar (sc : ScalarValue.t)
  | Int (value : Z)
  | UInt (value : Z)
  | Real (value : f64)
  | Str (text : string)
  | Bytes (text : bytes)
  | Bin (text : string)
  | Oct (text : string)
  | Dec (text : string)
  | Hex (text : string)
  | Vector (bit_width : Z) (is_signed : bool) (value_words unknown_words : list Z)
  | TooWide (bits : Z).

Arguments None {f64}.
Arguments Scalar {f64} sc.
Arguments Int {f64} value.
Arguments UInt {f64} value.
Arguments Real {f64} value.
Arguments Str {f64} text.
Arguments Bytes {f64} text.
Arguments Bin {f64} text.
Arguments Oct {f64} text.
Arguments Dec {f64} text.
Arguments Hex {f64} text.
Arguments Vector {f64} bit_width is_signed value_words unknown_words.
Arguments TooWide {f64} bits.

End ValueData.

Module Val.

Inductive t (f64 : Type) : Type :=
  | Bits (v : Value)
  | Str (text : string)
  | Real (value : f64).

Arguments Bits {f64} v.
Arguments Str {f64} text.
Arguments Real {f64} value.

End Val.

Module ElabError.

Inductive t : Type :=
  | Unsupported (message : string)
  | Unresolved (name : string)
  | CycleDetected (name : string)
  | NoValue (name : string).

End ElabError.

Definition ElabError_fmt (e : ElabError.t) : string :=
  match e with
  | ElabError.Unsupported m => cat ["unsupported: "; m]
  | ElabError.Unresolved n => cat ["unresolved symbol: "; n]
  | ElabError.CycleDetected n => cat ["parameter cycle: "; n]
  | ElabError.NoValue n => cat ["no value for: "; n]
  end%string.

(** ** Text *)

Definition is_space (b : ascii) : bool :=
  (((9 <=? byte_N b) && (byte_N b <=? 13)) || (byte_N b =? 32))%N.

Fixpoint trim_start (l : bytes) : bytes :=
  match l with
  | [] => []
  | b :: l' => if is_space b then trim_start l' else l
  end.

Definition trim (s : string) : bytes := rev (trim_start (rev (trim_start (unstr s)))).

(** [char::to_digit] *)
Definition to_digit (b : ascii) (radix : Z) : option Z :=
  let d :=
    if is_ascii_digit b then Some (digit_value b)
    else if is_ascii_lower b then Some (Z.of_N (byte_N b) - 87)
    else if is_ascii_upper b then Some (Z.of_N (byte_N b) - 55)
    else None in
  match d with
  | Some d => if d <? radix then Some d else None
  | None => None
  end.

(** [str::replace('_', "")] *)
Definition strip_underscores (s : string) : bytes :=
  List.filter (fun b => negb (Ascii.eqb b "_")) (unstr s).

(** [std::str::from_utf8] succeeds on these bytes. *)
Definition cont (b : ascii) : bool := ((128 <=? byte_N b) && (byte_N b <=? 191))%N.
Definition byte_between (lo hi : N) (b : ascii) : bool := ((lo <=? byte_N b) && (byte_N b <=? hi))%N.

Fixpoint utf8_valid (l : bytes) : bool :=
  match l with
  | [] => true
  | b :: l1 =>
      if byte_between 0 127 b then utf8_valid l1
      else
        match l1 with
        | [] => false
        | c :: l2 =>
            if byte_between 194 223 b then cont c && utf8_valid l2
            else
              match l2 with
              | [] => false
              | d :: l3 =>
                  if byte_between 224 239 b then
                    (if (byte_N b =? 224)%N then byte_between 160 191 c
                     else if (byte_N b =? 237)%N then byte_between 128 159 c
                     else cont c) && cont d && utf8_valid l3
                  else
                    match l3 with
                    | [] => false
                    | e :: l4 =>
                        byte_between 240 244 b
                        && (if (byte_N b =? 240)%N then byte_between 144 191 c
                            else if (byte_N b =? 244)%N then byte_between 128 143 c
                            else cont c) && cont d && cont e && utf8_valid l4
                    end
              end
        end
  end.

(** [text.replace('\\', "\\\\")] *)
Definition escape_backslashes (l : bytes) : bytes :=
  flat_map (fun b => if Ascii.eqb b backslash then [backslash; backslash] else [b]) l.

Definition from_string_bytes {f64 : Type} (l : bytes) : option (Val.t f64) :=
  if utf8_valid l then Some (Val.Str (str (escape_backslashes l))) else None.

(** ** [src/core/value.rs] *)

Module value.

Definition bit (words : list Z) (index : Z) : bool :=
  match words !! Z.to_nat (index / 64) with
  | Some w => negb (Z.land w (wrap_u 64 (Z.shiftl 1 (index mod 64))) =? 0)
  | None => false
  end.

Definition div_ceil_64 (n : Z) : Z := (n + 63) / 64.

Definition vector_to_i128 (bit_width : Z) (is_signed : bool) (value_words unknown_words : list Z)
    : option Z :=
  let expected_words := div_ceil_64 bit_width in
  if negb (Z.of_nat (length value_words) =? expected_words)
     || negb (Z.of_nat (length unknown_words) =? expected_words)
     || existsb (fun word => negb (word =? 0)) unknown_words
     || (bit_width =? 0)
  then None
  else
    let sign := is_signed && (0 <? bit_width) && bit value_words (bit_width - 1) in
    if (128 <=? bit_width)
       && existsb (fun index => negb (Bool.eqb (bit value_words index) sign))
            (map (fun i => 127 + Z.of_nat i) (seq 0 (Z.to_nat (bit_width - 127))))
    then None
    else
      let retained := Z.min bit_width 128 in
      let raw := fold_left
        (fun raw index => if bit value_words index then Z.lor raw (Z.shiftl 1 index) else raw)
        (map Z.of_nat (seq 0 (Z.to_nat retained))) 0 in
      let raw :=
        if sign && (retained <? 128) then Z.lor raw (wrap_u 128 (Z.shiftl (2 ^ 128 - 1) retained))
        else raw in
      if negb is_signed && (bit_width =? 128) && (i128_max <? raw) then None
      else Some (wrap_s 128 raw).

(** The digits of [u128::from_str_radix] and [i128::from_str], with their
    checked arithmetic; a sign of minus one accumulates downwards. *)
Fixpoint checked_digits (radix lo hi sign : Z) (acc : Z) (l : bytes) : option Z :=
  match l with
  | [] => Some acc
  | b :: l' =>
      match to_digit b radix with
      | Some d =>
          let acc := acc * radix + sign * d in
          if (lo <=? acc) && (acc <=? hi) then checked_digits radix lo hi sign acc l' else None
      | None => None
      end
  end.

Definition u128_from_str_radix (l : bytes) (radix : Z) : option Z :=
  match l with
  | [] => None
  | b :: l' =>
      if Ascii.eqb b "+"%char
      then (if (length l' =? 0)%nat then None else checked_digits radix 0 (2 ^ 128 - 1) 1 0 l')
      else checked_digits radix 0 (2 ^ 128 - 1) 1 0 l
  end.

Definition i128_from_str (l : bytes) : option Z :=
  match l with
  | [] => None
  | b :: l' =>
      if Ascii.eqb b "+"%char || Ascii.eqb b "-"%char
      then (if (length l' =? 0)%nat then None
            else checked_digits 10 i128_min i128_max (if Ascii.eqb b "-"%char then -1 else 1) 0 l')
      else checked_digits 10 i128_min i128_max 1 0 l
  end.

(** [i128::try_from(u128)] *)
Definition i128_try_from (z : Z) : option Z := if z <=? i128_max then Some z else None.

Definition parse_radix (value : string) (radix : Z) : option Z :=
  let digits := strip_underscores value in
  if (length digits =? 0)%nat || existsb (fun b => byte_in b "xXzZ?") digits then None
  else
    let '(negative, digits) :=
      match digits with
      | b :: rest => if Ascii.eqb b "-"%char then (true, rest) else (false, digits)
      | [] => (false, digits)
      end in
    magnitude ← u128_from_str_radix digits radix;
    if negative : bool then
      if magnitude =? 2 ^ 127 then Some i128_min
      else m ← i128_try_from magnitude; Some (- m)
    else i128_try_from magnitude.

Definition to_i128 {f64 : Type} (v : ValueData.t f64) : option Z :=
  match v with
  | ValueData.Int z => Some z
  | ValueData.UInt z => Some z
  | ValueData.Scalar ScalarValue.Zero => Some 0
  | ValueData.Scalar ScalarValue.One => Some 1
  | ValueData.Bin s => parse_radix s 2
  | ValueData.Oct s => parse_radix s 8
  | ValueData.Dec s => i128_from_str (strip_underscores s)
  | ValueData.Hex s => parse_radix s 16
  | ValueData.Vector bit_width is_signed value_words unknown_words =>
      vector_to_i128 bit_width is_signed value_words unknown_words
  | _ => None
  end.

End value.

(** ** The decoder *)

(** [Result<A, ElabError>], with the [?] operator as [and_then]. *)
Inductive result (A : Type) : Type :=
  | Ok (a : A)
  | Err (e : ElabError.t).
Arguments Ok {A} a.
Arguments Err {A} e.

Definition and_then {A B : Type} (m : result A) (k : A -> result B) : result B :=
  match m with
  | Ok a => k a
  | Err e => Err e
  end.

Section Decoder.
Context {f64 : Type}.


Definition MAX_RESOLVED_BITS : Z := 2 ^ 24.

Definition too_wide (what : string) (bits : Z) : ElabError.t :=
  ElabError.Unsupported (cat [what; " is too wide ("; dec bits; " bits)"]%string).

Definition stored_width (size default : Z) : result Z :=
  let width := if 0 <? size then size else default in
  if MAX_RESOLVED_BITS <? width then Err (too_wide "stored value" width) else Ok width.

(** The four ways a character spells the bits of one digit. *)
Definition digit_bits (base_bits : nat) (radix : Z) (ch : ascii) : result (list Bit.t) :=
  let c := to_lower ch in
  if Ascii.eqb c "x" then Ok (replicate base_bits Bit.X)
  else if Ascii.eqb c "z" || Ascii.eqb c "?" then Ok (replicate base_bits Bit.Z)
  else
    match to_digit c radix with
    | Some d => Ok (map (fun i => bit_of (negb (Z.land d (Z.shiftl 1 (Z.of_nat i)) =? 0)))
                          (rev (seq 0 base_bits)))
    | None => Err (ElabError.Unsupported
        (cat ["invalid base-"; dec radix; " digit `"; str [ch]; "` in stored value"]%string))
    end.

Fixpoint radix_loop (base_bits : nat) (radix : Z) (text : bytes) (acc : list Bit.t) : result (list Bit.t) :=
  match text with
  | [] => Ok acc
  | ch :: rest => and_then (digit_bits base_bits radix ch) (fun b => radix_loop base_bits radix rest (acc ++ b))
  end.

Definition parse_radix (s : string) (base_bits : nat) (size : Z) : result Value :=
  and_then
    (match base_bits with
     | 1%nat => Ok 2
     | 3%nat => Ok 8
     | 4%nat => Ok 16
     | _ => Err (ElabError.Unsupported (cat ["invalid stored radix width "; dec (Z.of_nat base_bits)]%string))
     end) (fun radix =>
  let text := trim s in
  if (length text =? 0)%nat then Err (ElabError.NoValue "empty stored radix value")
  else
    let encoded_width := Z.of_nat (length text) * Z.of_nat base_bits in
    if elab.usize_max <? encoded_width
    then Err (ElabError.Unsupported "stored radix value width overflow")
    else
      and_then (if 0 <? size then stored_width size encoded_width else Ok encoded_width) (fun target_width =>
      if (MAX_RESOLVED_BITS <? encoded_width) || (MAX_RESOLVED_BITS <? target_width)
      then Err (too_wide "stored radix value" (Z.max encoded_width target_width))
      else
        and_then (radix_loop base_bits radix text []) (fun bits =>
        let fill :=
          if (size =? -1) && (length bits =? base_bits)%nat && (base_bits =? 1)%nat
          then head bits else None in
        let bits :=
          if 0 <? size then
            let w := Z.to_nat target_width in
            if (length bits <? w)%nat then replicate (w - length bits) Bit.Zero ++ bits
            else if (w <? length bits)%nat then drop (length bits - w) bits
            else bits
          else bits in
        Ok (mkValue bits false fill)))).

Fixpoint decimal_loop (w : nat) (ten value : Value) (digits : bytes) : Value :=
  match digits with
  | [] => value
  | digit :: rest =>
      let value := elab.mul_known value ten false in
      let value := elab.add_known value (from_u64 (digit_value digit) w false) false in
      decimal_loop w ten value rest
  end.

Definition parse_decimal (s : string) (size : Z) : result Value :=
  and_then (stored_width size 64) (fun width =>
  let w := Z.to_nat width in
  let text := trim s in
  let '(negative, digits) :=
    match text with
    | b :: rest =>
        if Ascii.eqb b "-" then (true, rest)
        else if Ascii.eqb b "+" then (false, rest)
        else (false, text)
    | [] => (false, text)
    end in
  if (length digits =? 0)%nat || negb (forallb is_ascii_digit digits)
  then Err (ElabError.Unsupported (cat ["invalid stored decimal value `"; str text; "`"]%string))
  else
    let value := decimal_loop w (from_u64 10 w false) (elab.zero w false) digits in
    Ok (if negative : bool then elab.negate_known value else value)).

Definition bits_result (r : result Value) : result (Val.t f64) :=
  and_then r (fun v => Ok (Val.Bits v)).

Definition plane_bit (value_words unknown_words : list Z) (index : nat) : Bit.t :=
  let word := (index / 64)%nat in
  let mask := wrap_u 64 (Z.shiftl 1 (Z.of_nat (index mod 64))) in
  match negb (Z.land (nth word unknown_words 0) mask =? 0),
        negb (Z.land (nth word value_words 0) mask =? 0) with
  | false, false => Bit.Zero
  | false, true => Bit.One
  | true, false => Bit.X
  | true, true => Bit.Z
  end.

Definition decode_value_data (value : ValueData.t f64) (size : Z) : result (Val.t f64) :=
  match value with
  | ValueData.Bin s => bits_result (parse_radix s 1 size)
  | ValueData.Oct s => bits_result (parse_radix s 3 size)
  | ValueData.Hex s => bits_result (parse_radix s 4 size)
  | ValueData.Dec s => bits_result (parse_decimal s size)
  | ValueData.Scalar sc =>
      let b := match sc with
               | ScalarValue.Zero => Bit.Zero
               | ScalarValue.One => Bit.One
               | ScalarValue.Z => Bit.Z
               | ScalarValue.X | ScalarValue.DontCare => Bit.X
               end in
      let fill := if size =? -1 then Some b else None in
      Ok (Val.Bits (mkValue [b] false fill))
  | ValueData.Int val =>
      and_then (stored_width size 32) (fun width =>
      let stored := from_u64 (wrap_u 64 val) (Nat.min (Z.to_nat width) 64) true in
      Ok (Val.Bits (resize stored (Z.to_nat width) true)))
  | ValueData.UInt val =>
      and_then (stored_width size 64) (fun width =>
      Ok (Val.Bits (from_u64 val (Z.to_nat width) false)))
  | ValueData.Str s => Ok (Val.Str s)
  | ValueData.Bytes l =>
      match from_string_bytes l with
      | Some v => Ok v
      | None => Err (ElabError.Unsupported "non-UTF-8 string value")
      end
  | ValueData.Real v => Ok (Val.Real v)
  | ValueData.None => Err (ElabError.NoValue "object has no stored value")
  | ValueData.Vector bit_width is_signed value_words unknown_words =>
      if MAX_RESOLVED_BITS <? bit_width then Err (too_wide "stored vector value" bit_width)
      else
        let expected_words := value.div_ceil_64 bit_width in
        if negb (Z.of_nat (length value_words) =? expected_words)
           || negb (Z.of_nat (length unknown_words) =? expected_words)
        then Err (ElabError.Unsupported "stored vector planes do not match the declared width")
        else
          Ok (Val.Bits (from_bits
            (map (plane_bit value_words unknown_words) (rev (seq 0 (Z.to_nat bit_width)))) is_signed))
  | ValueData.TooWide bits => Err (too_wide "stored vector value" bits)
  end.

End Decoder.
