(* ===== verification/DecodeFacts.v ===== *)
(** * Decoding stored values

    Decimal and hexadecimal text decodes to the value it spells, the decoder
    of the bit planes agrees with the exact integer conversion of the payload,
    and the printer's hexadecimal form is ambiguous for unknown bits. *)

From Stdlib Require Import ZArith Lia Ascii String.
From stdpp Require Import base list strings.
From S2P Require Import Prelude Elab ElabFacts ElabProps Decode.

(** ** Trimming *)

Lemma trim_start_spaces p l :
  forallb is_space p = true -> trim_start (p ++ l) = trim_start l.
Proof.
  induction p as [|b p IH]; [done|]. simpl. intros H. apply andb_prop in H as [-> H]. by apply IH.
Qed.

Lemma trim_start_id l b : head l = Some b -> is_space b = false -> trim_start l = l.
Proof. destruct l; [done|]. simpl. intros E H. injection E as ->. by rewrite H. Qed.

Lemma head_rev {A} (l : list A) : head (rev l) = last l.
Proof. rewrite <- head_reverse. by rewrite rev_alt. Qed.

Lemma trim_padded p l q b c :
  forallb is_space p = true -> forallb is_space q = true ->
  head l = Some b -> last l = Some c -> is_space b = false -> is_space c = false ->
  trim (str (p ++ l ++ q)) = l.
Proof.
  intros Hp Hq Hb Hc Nb Nc. unfold trim. rewrite unstr_str, trim_start_spaces by done.
  rewrite (trim_start_id (l ++ q) b) by (destruct l; done).
  rewrite rev_app_distr, trim_start_spaces by (by rewrite forallb_rev).
  rewrite (trim_start_id (rev l) c) by (done || by rewrite head_rev). apply rev_involutive.
Qed.

Lemma digit_not_space b : is_ascii_digit b = true -> is_space b = false.
Proof.
  unfold is_ascii_digit, is_space. rewrite andb_true_iff, !N.leb_le. intros [? ?].
  apply orb_false_iff. split; [apply andb_false_iff; right; apply N.leb_gt; lia|apply N.eqb_neq; lia].
Qed.

(** ** Decimal text *)

Lemma mul_of_Z w s x y : elab.mul_known (of_Z w s x) (of_Z w s y) s = of_Z w s (x * y).
Proof.
  rewrite mul_known_spec by (by rewrite !width_of_Z). rewrite width_of_Z. simpl.
  apply of_Z_mod. rewrite !uint_bits_of. by rewrite <- Z.mul_mod by (pose proof (pow2_pos w); lia).
Qed.

Lemma add_of_Z w s x y : elab.add_known (of_Z w s x) (of_Z w s y) s = of_Z w s (x + y).
Proof.
  rewrite add_known_spec by (by rewrite !width_of_Z). rewrite width_of_Z. simpl.
  apply of_Z_mod. rewrite !uint_bits_of. by rewrite <- Z.add_mod by (pose proof (pow2_pos w); lia).
Qed.

Lemma negate_of_Z w s x : elab.negate_known (of_Z w s x) = of_Z w s (- x).
Proof.
  rewrite negate_known_spec, width_of_Z. simpl. apply of_Z_mod. rewrite uint_bits_of.
  rewrite <- (Z.sub_0_l (_ mod _)), Zminus_mod_idemp_r. by rewrite Z.sub_0_l.
Qed.

Lemma decimal_loop_spec w z ds :
  Forall (fun b => is_ascii_digit b = true) ds ->
  decimal_loop w (from_u64 10 w false) (of_Z w false z) ds = of_Z w false (digits_value z ds).
Proof.
  intros H. revert z. induction H as [|b ds Hb _ IH]; intros z; [done|].
  cbn [decimal_loop]. apply is_ascii_digit_spec in Hb.
  rewrite !from_u64_spec, mul_of_Z, add_of_Z by lia. rewrite <- (from_u64_spec 10) by lia. apply IH.
Qed.

Lemma dec_shape z :
  exists neg ds, dec z = str ((if neg : bool then ["-"%char] else []) ++ ds)
    /\ Forall (fun b => is_ascii_digit b = true) ds /\ ds <> []
    /\ digits_value 0 ds = Z.abs z /\ neg = (z <? 0).
Proof.
  unfold dec. destruct (Z.ltb_spec z 0) as [H|H].
  - destruct (dec_bytes_spec (- z)) as (V & D & L & _); [lia|].
    exists true, (dec_bytes (- z)). split_and!; auto; [|lia]. intros E. rewrite E in L. simpl in L. lia.
  - destruct (dec_bytes_spec z) as (V & D & L & _); [lia|].
    exists false, (dec_bytes z). split_and!; auto; [|lia]. intros E. rewrite E in L. simpl in L. lia.
Qed.

Lemma parse_decimal_spec p q neg ds size :
  forallb is_space p = true -> forallb is_space q = true ->
  Forall (fun b => is_ascii_digit b = true) ds -> ds <> [] -> size <= MAX_RESOLVED_BITS ->
  parse_decimal (str (p ++ ((if neg : bool then ["-"%char] else []) ++ ds) ++ q)) size
  = Ok (of_Z (Z.to_nat (if 0 <? size then size else 64)) false
       (if neg then - digits_value 0 ds else digits_value 0 ds)).
Proof.
  intros Hp Hq Hds Hne Hsize. unfold parse_decimal, stored_width.
  rewrite (proj2 (Z.ltb_ge MAX_RESOLVED_BITS _)) by (unfold MAX_RESOLVED_BITS in *; destruct (0 <? size); lia).
  cbn [and_then]. set (w := Z.to_nat _).
  destruct ds as [|d ds]; [done|]. inversion Hds as [|?? Hd Hds']; subst.
  destruct (last (d :: ds)) as [c|] eqn:Hlast; [|by apply last_None in Hlast].
  assert (Hc : is_ascii_digit c = true).
  { apply last_Some_elem_of in Hlast. rewrite Forall_forall in Hds. by apply Hds. }
  assert (Hall : forallb is_ascii_digit (d :: ds) = true)
    by (apply forallb_forall; intros x Hx; rewrite Forall_forall in Hds; apply Hds; by apply list_elem_of_In).
  rewrite (trim_padded p _ q (if neg then "-"%char else d) c) by
    (done || (by destruct neg) || (destruct neg; [by rewrite last_app_cons || by simpl app; rewrite last_cons_cons|done])
     || (destruct neg; [done|by apply digit_not_space]) || by apply digit_not_space).
  pose proof (decimal_loop_spec w 0 (d :: ds) Hds) as L. rewrite <- zero_of_Z in L.
  destruct neg; cbn [app].
  - simpl Ascii.eqb. cbv iota beta. rewrite Hall. cbn [length Nat.eqb negb orb]. rewrite L, negate_of_Z. done.
  - assert (Ascii.eqb d "-" = false /\ Ascii.eqb d "+" = false) as [-> ->].
    { apply is_ascii_digit_spec in Hd. split; apply Ascii.eqb_neq; intros ->; vm_compute in Hd; by destruct Hd. }
    rewrite Hall. cbn [length Nat.eqb negb orb]. by rewrite L.
Qed.

(** ** Hexadecimal text *)

Lemma forall_16 (P : Z -> Prop) :
  Forall P (map Z.of_nat (seq 0 16)) -> forall d, 0 <= d < 16 -> P d.
Proof.
  intros H d Hd. rewrite Forall_forall in H. apply H. apply list_elem_of_In, in_map_iff.
  exists (Z.to_nat d). split; [lia|]. apply in_seq. lia.
Qed.

Lemma digit_bits_hex d : 0 <= d < 16 ->
  digit_bits 4 16 (hex_char d) = Ok (bits_of 4 d) /\ is_space (hex_char d) = false.
Proof. revert d. apply forall_16. repeat constructor. Qed.

Lemma val_fold_spec g acc :
  Z.of_nat (length g) <= 4 -> 0 <= acc < 2 ^ (8 - Z.of_nat (length g)) ->
  fold_left (fun val b => Z.lor (wrap_u 8 (Z.shiftl val 1)) (Z.b2z (is_one b))) g acc
  = acc * 2 ^ Z.of_nat (length g) + uint g.
Proof.
  revert acc. induction g as [|b g IH]; intros acc Hg Ha; [simpl; lia|].
  cbn [length fold_left uint] in *. destruct (fits_double acc (length g) 8 Ha ltac:(lia)) as [H2 Hb].
  rewrite push_bit, IH by (done || lia). rewrite pow2_S. lia.
Qed.

Lemma hex_group_known g :
  known g -> (length g <= 4)%nat -> hex_group g = [hex_char (uint g)] /\ 0 <= uint g < 16.
Proof.
  intros Hk Hg. unfold hex_group. rewrite (proj2 (known_iff g) Hk).
  pose proof (uint_bounds g) as B. assert (2 ^ Z.of_nat (length g) <= 2 ^ 4) by (apply Z.pow_le_mono_r; lia).
  split; [|lia]. rewrite val_fold_spec; [do 2 f_equal; lia|lia|].
  split; [lia|apply Z.pow_pos_nonneg; lia].
Qed.

Lemma bits_of_pad g w :
  known g -> (length g <= w)%nat -> bits_of w (uint g) = replicate (w - length g) Bit.Zero ++ g.
Proof.
  intros Hk Hg. symmetry. apply known_bits_of.
  - apply Forall_app. split; [by apply Forall_replicate|done].
  - rewrite length_app, length_replicate. lia.
  - by rewrite uint_app, uint_replicate_zero.
Qed.

Lemma radix_loop_group g out acc :
  known g -> (length g <= 4)%nat ->
  radix_loop 4 16 (hex_group g ++ out) acc = radix_loop 4 16 out (acc ++ replicate (4 - length g) Bit.Zero ++ g).
Proof.
  intros Hk Hg. destruct (hex_group_known g Hk Hg) as [-> Hb]. cbn [app radix_loop].
  destruct (digit_bits_hex _ Hb) as [-> _]. cbn [and_then]. by rewrite bits_of_pad.
Qed.

(** The zeros the reader adds to complete the leading digit of [i] bits. *)
Definition pad (i : nat) : nat := ((4 - i mod 4) mod 4)%nat.

Lemma pad_small i : (0 < i <= 4)%nat -> pad i = (4 - i)%nat.
Proof. intros [? ?]. destruct i as [|[|[|[|[|i]]]]]; try lia; reflexivity. Qed.

Lemma pad_step i : (4 < i)%nat -> pad (i - 4) = pad i.
Proof.
  intros H. unfold pad. replace i with (i - 4 + 1 * 4)%nat at 2 by lia.
  by rewrite Nat.Div0.mod_add.
Qed.

Lemma radix_loop_hex fuel l i out acc :
  known l -> (i <= length l)%nat -> (i <= fuel)%nat ->
  radix_loop 4 16 (hex_loop fuel l i out) acc
  = radix_loop 4 16 out (acc ++ replicate (pad i) Bit.Zero ++ take i l).
Proof.
  intros Hk. revert i out. induction fuel as [|f IH]; intros i out Hi Hf.
  - replace i with 0%nat by lia. simpl. by rewrite take_0, app_nil_r.
  - cbn [hex_loop]. destruct (Nat.ltb_spec 0 i) as [Hpos|Hz].
    2: { replace i with 0%nat by lia. simpl. by rewrite take_0, app_nil_r. }
    rewrite IH by lia. set (g := drop (i - 4) (take i l)).
    assert (Hg : length g = Nat.min i 4) by (unfold g; rewrite length_drop, length_take; lia).
    assert (Kg : known g) by (apply Forall_drop, Forall_take; done).
    rewrite radix_loop_group by (done || lia). f_equal.
    assert (Hsplit : take (i - 4) l ++ g = take i l).
    { unfold g. rewrite <- (take_drop (i - 4) (take i l)) at 2. f_equal. rewrite take_take.
      f_equal. lia. }
    destruct (Nat.le_gt_cases i 4) as [H4|H4].
    + replace (i - 4)%nat with 0%nat in * by lia. rewrite take_0 in Hsplit. rewrite take_0.
      change (pad 0) with 0%nat. rewrite (pad_small i), Hg, Nat.min_l by lia. simpl. rewrite app_nil_r.
      by rewrite <- Hsplit.
    + rewrite pad_step, Hg, Nat.min_r, Nat.sub_diag by lia. simpl.
      by rewrite <- Hsplit, <- !app_assoc.
Qed.

Lemma hex_loop_shape fuel l i out :
  known l -> (i <= fuel)%nat ->
  exists t, hex_loop fuel l i out = t ++ out /\ Forall (fun b => is_space b = false) t
    /\ length t = ((i + 3) / 4)%nat.
Proof.
  intros Hk. revert i out. induction fuel as [|f IH]; intros i out Hf.
  - replace i with 0%nat by lia. by exists [].
  - cbn [hex_loop]. destruct (Nat.ltb_spec 0 i) as [Hpos|Hz].
    2: { replace i with 0%nat by lia. by exists []. }
    set (g := drop (i - 4) (take i l)).
    assert (Hg : (length g <= 4)%nat) by (unfold g; rewrite length_drop, length_take; lia).
    assert (Kg : known g) by (apply Forall_drop, Forall_take; done).
    destruct (hex_group_known g Kg Hg) as [-> Hb]. destruct (digit_bits_hex _ Hb) as [_ Hs].
    destruct (IH (i - 4)%nat ([hex_char (uint g)] ++ out)) as (t & E & Ht & Hl); [lia|].
    exists (t ++ [hex_char (uint g)]). rewrite E, <- app_assoc. split_and!; [done|apply Forall_app; auto|].
    rewrite length_app, Hl. cbn [length]. destruct (Nat.le_gt_cases i 4) as [H4|H4].
    + replace (i - 4)%nat with 0%nat by lia. destruct i as [|[|[|[|[|i]]]]]; try lia; reflexivity.
    + replace (i + 3)%nat with (i - 4 + 3 + 1 * 4)%nat by lia. rewrite (Nat.div_add (i - 4 + 3) 1 4) by done. lia.
Qed.

Lemma hex_str_spec v :
  known (bits v) -> Forall (fun b => is_space b = false) (unstr (hex_str v))
  /\ length (unstr (hex_str v)) = ((width v + 3) / 4)%nat.
Proof.
  intros Hk. unfold hex_str. rewrite unstr_str. unfold width.
  destruct (hex_loop_shape (length (bits v)) (bits v) (length (bits v)) [] Hk) as (t & E & Ht & Hl); [lia|].
  by rewrite E, app_nil_r.
Qed.

Lemma trim_plain l : Forall (fun b => is_space b = false) l -> trim (str l) = l.
Proof.
  intros H. destruct l as [|b l]; [done|].
  destruct (last (b :: l)) as [c|] eqn:Hc; [|by apply last_None in Hc].
  assert (Hs : is_space c = false).
  { rewrite Forall_forall in H. apply H. by apply last_Some_elem_of. }
  pose proof (trim_padded [] (b :: l) [] b c) as T. rewrite app_nil_r in T.
  apply T; try done. by inversion H.
Qed.

Lemma round_up_4 w : Z.of_nat ((w + 3) / 4) * 4 = Z.of_nat (w + pad w).
Proof.
  unfold pad. pose proof (Nat.div_mod_eq w 4) as D. pose proof (Nat.mod_upper_bound w 4 ltac:(done)) as B.
  set (q := (w / 4)%nat) in *. set (r := (w mod 4)%nat) in *.
  assert (E : ((w + 3) / 4 = q + (r + 3) / 4)%nat).
  { rewrite D at 1. replace (4 * q + r + 3)%nat with (r + 3 + q * 4)%nat by lia.
    rewrite Nat.div_add by done. lia. }
  rewrite E. destruct r as [|[|[|[|r]]]]; simpl; lia.
Qed.

(** ** Bit planes *)

(** The words of a plane, least significant first, as one integer. *)
Fixpoint words_value (ws : list Z) : Z :=
  match ws with
  | [] => 0
  | w :: ws' => w + 2 ^ 64 * words_value ws'
  end.

Definition word (w : Z) : Prop := 0 <= w < 2 ^ 64.

Lemma words_value_nonneg ws : Forall word ws -> 0 <= words_value ws.
Proof. induction 1 as [|w ws Hw _ IH]; simpl; unfold word in *; lia. Qed.

Lemma word_bit w i : word w -> (i < 64)%nat ->
  negb (Z.land w (wrap_u 64 (Z.shiftl 1 (Z.of_nat i))) =? 0) = Z.testbit w (Z.of_nat i).
Proof. intros [H _] Hi. by apply u64_bit_spec. Qed.

Lemma words_testbit ws i :
  Forall word ws ->
  Z.testbit (words_value ws) (Z.of_nat i)
  = Z.testbit (nth (i / 64) ws 0) (Z.of_nat (i mod 64)).
Proof.
  intros H. revert i. induction H as [|w ws Hw Hws IH]; intros i.
  - rewrite nth_overflow by (simpl; lia). by rewrite !Z.bits_0.
  - cbn [words_value]. destruct (Nat.lt_ge_cases i 64) as [Hi|Hi].
    + rewrite Nat.div_small, Nat.mod_small by done. cbn [nth].
      rewrite <- (Z.mod_pow2_bits_low _ 64) by lia.
      by rewrite (Z.mul_comm (2 ^ 64)), Z_mod_plus_full, Z.mod_pow2_bits_low by lia.
    + replace i with (i - 64 + 1 * 64)%nat at 2 3 by lia.
      rewrite Nat.div_add, Nat.Div0.mod_add by done. rewrite Nat.add_1_r. cbn [nth]. rewrite <- IH.
      replace (Z.of_nat i) with (Z.of_nat (i - 64) + 64) by lia.
      rewrite <- Z.div_pow2_bits by lia. f_equal.
      rewrite (Z.mul_comm (2 ^ 64)), Z.div_add by lia.
      rewrite Z.div_small by (unfold word in Hw; lia). lia.
Qed.

Lemma value_bit_spec ws i : Forall word ws -> value.bit ws (Z.of_nat i) = Z.testbit (words_value ws) (Z.of_nat i).
Proof.
  intros H. rewrite words_testbit by done. unfold value.bit.
  replace (Z.of_nat i / 64) with (Z.of_nat (i / 64)) by (by rewrite Nat2Z.inj_div).
  replace (Z.of_nat i mod 64) with (Z.of_nat (i mod 64)) by (by rewrite Nat2Z.inj_mod).
  rewrite Nat2Z.id. destruct (ws !! (i / 64)%nat) as [w|] eqn:E.
  - rewrite word_bit; [|by rewrite Forall_lookup in H; eapply H|by apply Nat.mod_upper_bound].
    by rewrite (nth_lookup_Some _ _ 0 _ E).
  - apply lookup_ge_None in E. by rewrite nth_overflow, Z.bits_0.
Qed.

Lemma plane_bit_known vw uw i :
  Forall word vw -> Forall (fun u => u = 0) uw ->
  plane_bit vw uw i = bit_of (Z.testbit (words_value vw) (Z.of_nat i)).
Proof.
  intros Hv Hu. unfold plane_bit.
  assert (nth (i / 64) uw 0 = 0) as ->.
  { destruct (nth_in_or_default (i / 64) uw 0) as [Hin|]; [|done].
    rewrite Forall_forall in Hu. apply Hu. by apply list_elem_of_In. }
  rewrite Z.land_0_l. change (negb (0 =? 0)) with false. rewrite words_testbit by done.
  assert (Hw : word (nth (i / 64) vw 0)).
  { destruct (nth_in_or_default (i / 64) vw 0) as [Hin|E]; [|unfold word; lia].
    rewrite Forall_forall in Hv. apply Hv. by apply list_elem_of_In. }
  rewrite word_bit by (done || by apply Nat.mod_upper_bound). by destruct (Z.testbit _ _).
Qed.

(** The decoder reads the planes as the bits of one integer. *)
Lemma decode_planes vw uw w :
  Forall word vw -> Forall (fun u => u = 0) uw ->
  map (plane_bit vw uw) (rev (seq 0 w)) = bits_of w (words_value vw).
Proof.
  intros Hv Hu. rewrite bits_of_rev_seq, map_rev. f_equal. apply map_ext. intros i. by apply plane_bit_known.
Qed.

Lemma raw_plane ws n :
  Forall word ws ->
  fold_left (fun raw index => if value.bit ws index then Z.lor raw (Z.shiftl 1 index) else raw)
    (map Z.of_nat (seq 0 n)) 0 = words_value ws mod 2 ^ Z.of_nat n.
Proof.
  intros H. induction n as [|n IH]; [by rewrite Z.mod_1_r|].
  rewrite seq_S, map_app, fold_left_app, IH. cbn [map fold_left Nat.add].
  rewrite value_bit_spec, mod_pow2_S, Z.shiftl_mul_pow2 by (done || lia). destruct (Z.testbit _ _); simpl Z.b2z.
  - rewrite lor_high; [lia|lia|]. apply Z.mod_pos_bound. auto.
  - lia.
Qed.

(** A number whose bits agree from position [n] up lies within [n] bits. *)
Lemma range_of_testbits x n b :
  0 <= n -> (forall i, n <= i -> Z.testbit x i = b) -> - 2 ^ n <= x < 2 ^ n.
Proof.
  intros Hn H. assert (E : x / 2 ^ n = if b then -1 else 0).
  { apply Z.bits_inj'. intros i Hi. rewrite Z.div_pow2_bits, H by lia.
    destruct b; [by rewrite Z.bits_m1|by rewrite Z.bits_0]. }
  pose proof (Z.div_mod x (2 ^ n) ltac:(lia)). pose proof (Z.mod_pos_bound x (2 ^ n) ltac:(lia)).
  rewrite E in *. destruct b; lia.
Qed.

Lemma wrap_s_mod w x y : 0 < w -> x mod 2 ^ w = y mod 2 ^ w -> wrap_s w x = wrap_s w y.
Proof.
  intros Hw H. unfold wrap_s. f_equal. rewrite Z.add_mod, H, <- Z.add_mod by lia. done.
Qed.

Section Planes.
Context (vw : list Z) (n : nat) (s : bool).
Hypothesis words : Forall word vw.
Hypothesis positive : (0 < n)%nat.

Let x : Z := interp s (bits_of n (words_value vw)).
Let sign : bool := s && value.bit vw (Z.of_nat n - 1).

Lemma plane_cong : x mod 2 ^ Z.of_nat n = words_value vw mod 2 ^ Z.of_nat n.
Proof.
  unfold x. pose proof (interp_mod s (bits_of n (words_value vw))) as H.
  by rewrite bits_of_length, uint_bits_of in H.
Qed.

Lemma plane_sign : sign = (x <? 0).
Proof.
  pose proof (first_is_one_neg (from_bits (bits_of n (words_value vw)) s) s) as H.
  rewrite first_is_one_spec in H. cbn [from_bits bits] in H. fold x in H. rewrite <- H. unfold sign.
  destruct n as [|m]; [lia|]. cbn [bits_of].
  replace (Z.of_nat (S m) - 1) with (Z.of_nat m) by lia. rewrite value_bit_spec by done.
  by rewrite is_one_bit_of.
Qed.

Lemma plane_low_bits i : (i < n)%nat -> Z.testbit x (Z.of_nat i) = value.bit vw (Z.of_nat i).
Proof.
  intros Hi. rewrite value_bit_spec by done.
  rewrite <- (Z.mod_pow2_bits_low x (Z.of_nat n)), plane_cong, Z.mod_pow2_bits_low by lia. done.
Qed.

Lemma plane_bounds : - 2 ^ Z.of_nat n <= x < 2 ^ Z.of_nat n.
Proof.
  unfold x. destruct s; simpl interp.
  - pose proof (sint_bounds (bits_of n (words_value vw))) as B. rewrite bits_of_length in B.
    assert (2 ^ (Z.of_nat n - 1) <= 2 ^ Z.of_nat n) by (apply Z.pow_le_mono_r; lia).
    specialize (B ltac:(destruct n; [lia|done])). lia.
  - pose proof (uint_bounds (bits_of n (words_value vw))) as B. rewrite bits_of_length in B. lia.
Qed.

(** The scan for a bit that breaks the sign decides whether [x] fits. *)
Lemma plane_scan :
  (128 <= n)%nat ->
  existsb (fun index => negb (Bool.eqb (value.bit vw index) sign))
    (map (fun i => 127 + Z.of_nat i) (seq 0 (n - 127)))
  = negb ((i128_min <=? x) && (x <=? i128_max)).
Proof.
  intros Hn. rewrite plane_sign. destruct ((i128_min <=? x) && (x <=? i128_max)) eqn:R.
  - apply andb_prop in R as [R1 R2]. apply Z.leb_le in R1, R2. simpl.
    apply not_true_iff_false. intros E. apply existsb_exists in E as (i & Hin & Hb).
    apply in_map_iff in Hin as (k & <- & Hk). apply in_seq in Hk.
    replace (127 + Z.of_nat k) with (Z.of_nat (127 + k)) in Hb by lia.
    rewrite <- plane_low_bits, (testbit_sign x 127) in Hb
      by (unfold i128_min, i128_max in *; lia). by rewrite Bool.eqb_reflx in Hb.
  - simpl. apply not_false_iff_true. intros E.
    assert (Hall : forall i, 127 <= i -> Z.testbit x i = (x <? 0)).
    { intros i Hi. destruct (Z.lt_ge_cases i (Z.of_nat n)) as [Hlt|Hge].
      - replace i with (Z.of_nat (Z.to_nat i)) by lia. rewrite plane_low_bits by lia.
        destruct (Bool.eqb (value.bit vw (Z.of_nat (Z.to_nat i))) (x <? 0)) eqn:Eb; [by apply Bool.eqb_prop|].
        apply not_true_iff_false in E. destruct E. apply existsb_exists.
        exists i. split; [|by rewrite <- (Z2Nat.id i), Eb by lia].
        apply in_map_iff. exists (Z.to_nat (i - 127)). split; [lia|]. apply in_seq. lia.
      - apply (testbit_sign x (Z.of_nat n)); [lia|]. apply plane_bounds. }
    pose proof (range_of_testbits x 127 _ ltac:(lia) Hall) as B.
    apply andb_false_iff in R. rewrite !Z.leb_gt in R. unfold i128_min, i128_max in R. lia.
Qed.

(** The value the loop assembles, sign-extended to 128 bits. *)
Lemma plane_raw :
  let retained := Z.min (Z.of_nat n) 128 in
  let raw := words_value vw mod 2 ^ retained in
  (n < 128)%nat \/ in_i128 x ->
  wrap_s 128 (if sign && (retained <? 128)
              then Z.lor raw (wrap_u 128 (Z.shiftl (2 ^ 128 - 1) retained)) else raw) = x.
Proof.
  intros retained raw Hfit. rewrite plane_sign.
  destruct (Nat.lt_ge_cases n 128) as [Hn|Hn].
  - assert (Hr : retained = Z.of_nat n) by (unfold retained; lia). unfold raw. rewrite Hr.
    rewrite (proj2 (Z.ltb_lt (Z.of_nat n) 128)), andb_true_r by lia.
    rewrite <- uint_bits_of. rewrite <- plane_sign. unfold sign.
    assert (Hl : length (bits_of n (words_value vw)) = n) by apply bits_of_length.
    assert (Hb : exists b l, bits_of n (words_value vw) = b :: l /\ is_one b = value.bit vw (Z.of_nat n - 1)).
    { clear -words positive. destruct n as [|m]; [lia|]. cbn [bits_of]. eexists _, _. split; [done|]. rewrite is_one_bit_of.
      replace (Z.of_nat (S m) - 1) with (Z.of_nat m) by lia. by rewrite value_bit_spec. }
    destruct Hb as (b & l & E & Hone). unfold x. rewrite E in *. rewrite <- Hone.
    pose proof (to_i128_short b l ltac:(lia)) as T. rewrite Hl in T.
    pose proof (uint_bounds (b :: l)) as B. rewrite Hl in B.
    assert (2 ^ Z.of_nat n <= 2 ^ 127) by (apply Z.pow_le_mono_r; lia).
    destruct s; cbn [andb interp]; [rewrite <- T; by destruct (is_one b)|].
    unfold wrap_s. change (128 - 1) with 127. rewrite Z.mod_small by lia. lia.
  - assert (Hr : retained = 128) by (unfold retained; lia). unfold raw. rewrite Hr. rewrite andb_false_r.
    destruct Hfit as [?|Hfit]; [lia|]. transitivity (wrap_s 128 x).
    + apply wrap_s_mod; [lia|]. rewrite Z.mod_mod by lia.
      assert (D : (2 ^ 128 | 2 ^ Z.of_nat n)).
      { exists (2 ^ (Z.of_nat n - 128)). rewrite <- Z.pow_add_r by lia. f_equal. lia. }
      rewrite <- (Z.mod_mod_divide (words_value vw) _ _ D), <- plane_cong.
      by apply Z.mod_mod_divide.
    + unfold in_i128, i128_min, i128_max, wrap_s in *. change (128 - 1) with 127. rewrite Z.mod_small; lia.
Qed.

End Planes.

Lemma vector_to_i128_spec vw uw n s :
  Forall word vw -> Forall (fun u => u = 0) uw -> (0 < n)%nat ->
  Z.of_nat (length vw) = value.div_ceil_64 (Z.of_nat n) ->
  Z.of_nat (length uw) = value.div_ceil_64 (Z.of_nat n) ->
  value.vector_to_i128 (Z.of_nat n) s vw uw =
    let x := interp s (bits_of n (words_value vw)) in
    if (i128_min <=? x) && (x <=? i128_max) then Some x else None.
Proof.
  intros Hv Hu Hn Lv Lu. cbv zeta. set (x := interp s (bits_of n (words_value vw))).
  unfold value.vector_to_i128. rewrite Lv, Lu, Z.eqb_refl. cbn [negb orb].
  replace (existsb (fun word => negb (word =? 0)) uw) with false.
  2: { symmetry. apply not_true_iff_false. intros E. apply existsb_exists in E as (u & Hin & Hb).
       rewrite Forall_forall in Hu. rewrite (Hu u) in Hb by (by apply list_elem_of_In). done. }
  rewrite (proj2 (Z.eqb_neq _ 0)) by lia. cbn [orb].
  rewrite (proj2 (Z.ltb_lt 0 _)), andb_true_r by lia.
  replace (Z.to_nat (Z.of_nat n - 127)) with (n - 127)%nat by lia.
  pose proof (plane_raw vw n s Hv Hn) as Hraw. cbv zeta in Hraw. fold x in Hraw.
  pose proof (raw_plane vw (Z.to_nat (Z.min (Z.of_nat n) 128)) Hv) as Eraw.
  rewrite Z2Nat.id in Eraw by lia. rewrite Eraw.
  assert (Hlast : forall raw, negb s && (Z.of_nat n =? 128) && (i128_max <? raw) = true ->
    raw = words_value vw mod 2 ^ 128 -> i128_max < x).
  { intros raw H ->. apply andb_prop in H as [H H3]. apply andb_prop in H as [H1 H2].
    apply Z.eqb_eq in H2. apply Z.ltb_lt in H3. apply negb_true_iff in H1. unfold x. rewrite H1. cbn [interp].
    rewrite uint_bits_of, H2. done. }
  destruct (Nat.lt_ge_cases n 128) as [Hlt|Hge].
  - rewrite (proj2 (Z.leb_gt 128 _)), (proj2 (Z.eqb_neq _ 128)), andb_false_r by lia. cbn [andb].
    rewrite Hraw by (by left).
    pose proof (plane_bounds vw n s Hn) as B. fold x in B.
    assert (2 ^ Z.of_nat n <= 2 ^ 127) by (apply Z.pow_le_mono_r; lia).
    unfold i128_min, i128_max. by rewrite (proj2 (Z.leb_le _ x)), (proj2 (Z.leb_le x _)) by lia.
  - rewrite (proj2 (Z.leb_le 128 _)) by lia. cbn [andb]. rewrite plane_scan by done. fold x.
    destruct ((i128_min <=? x) && (x <=? i128_max)) eqn:R; cbn [negb]; [|done].
    apply andb_prop in R as [R1 R2]. apply Z.leb_le in R1, R2.
    rewrite Hraw by (right; unfold in_i128; lia).
    destruct (negb s && (Z.of_nat n =? 128) && _) eqn:F; [|done]. exfalso.
    apply Hlast in F; [lia|]. by rewrite Z.min_r, Z.ltb_irrefl, andb_false_r by lia.
Qed.

(** ** The theorems *)

(** Decimal text decodes to the integer it spells, reduced to the stored
    width (64 bits when none is given), whatever white space surrounds it. *)
Theorem decimal_roundtrip (z size : Z) (p q : bytes) :
  forallb is_space p = true -> forallb is_space q = true -> size <= MAX_RESOLVED_BITS ->
  parse_decimal (str (p ++ unstr (dec z) ++ q)) size
  = Ok (of_Z (Z.to_nat (if 0 <? size then size else 64)) false z).
Proof.
  intros Hp Hq Hsize. destruct (dec_shape z) as (neg & ds & E & Hd & Hne & Hv & Hneg).
  rewrite E, unstr_str, parse_decimal_spec by done. rewrite Hv, Hneg. do 2 f_equal.
  destruct (Z.ltb_spec z 0); lia.
Qed.

(** The hexadecimal text the printer writes for a known value decodes, at
    the value's width, to the same bits. *)
Theorem hex_roundtrip (v : Value) :
  is_unknown v = false -> (0 < width v)%nat -> Z.of_nat (width v) <= MAX_RESOLVED_BITS ->
  parse_radix (hex_str v) 4 (Z.of_nat (width v)) = Ok (from_bits (bits v) false).
Proof.
  intros Hk Hpos Hmax. apply is_unknown_iff in Hk. destruct (hex_str_spec v Hk) as [Hs Hl].
  unfold parse_radix. cbn [and_then]. rewrite <- (str_unstr (hex_str v)), trim_plain by done.
  pose proof (round_up_4 (width v)) as R.
  assert (Hpad : (pad (width v) <= 3)%nat).
  { unfold pad. pose proof (Nat.mod_upper_bound (4 - width v mod 4) 4 ltac:(done)). lia. }
  assert (Hdiv : Z.of_nat (width v + pad (width v)) <= MAX_RESOLVED_BITS).
  { unfold MAX_RESOLVED_BITS in *. change (2 ^ 24) with (4194304 * 4) in *. lia. }
  rewrite Hl. change (Z.of_nat 4) with 4. rewrite R.
  destruct (Nat.eqb_spec ((width v + 3) / 4) 0) as [H0|_]; [rewrite H0 in R; lia|].
  rewrite (proj2 (Z.ltb_ge elab.usize_max _)) by (unfold elab.usize_max, MAX_RESOLVED_BITS in *; lia).
  rewrite (proj2 (Z.ltb_lt 0 (Z.of_nat (width v)))) by lia. unfold stored_width.
  rewrite (proj2 (Z.ltb_lt 0 (Z.of_nat (width v)))) by lia.
  rewrite !(proj2 (Z.ltb_ge MAX_RESOLVED_BITS _)) by lia. cbn [and_then orb].
  rewrite !(proj2 (Z.ltb_ge MAX_RESOLVED_BITS _)) by lia. cbn [orb].
  unfold hex_str. rewrite unstr_str.
  rewrite radix_loop_hex by (done || lia). rewrite take_ge by lia. cbn [app radix_loop and_then].
  rewrite (proj2 (Z.eqb_neq _ (-1))) by lia. cbn [andb]. rewrite Nat2Z.id.
  fold (width v). rewrite length_app, length_replicate. fold (width v).
  rewrite (proj2 (Nat.ltb_ge _ _)) by lia. unfold from_bits. do 2 f_equal.
  destruct (Nat.ltb_spec (width v) (pad (width v) + width v)) as [H|H].
  - rewrite Nat.add_sub. apply drop_app_length'. symmetry. apply length_replicate.
  - by replace (pad (width v)) with 0%nat by lia.
Qed.

(** For a stored vector without unknown bits, the exact integer conversion
    of the payload agrees with decoding the payload to four-state bits and
    converting those: two independent readings of the planes give one number,
    and both refuse a number beyond 128 bits. *)
Theorem vector_conversions_agree {f64 : Type} (n : nat) (s : bool) (vw uw : list Z) (size : Z) (v : Value) :
  Forall word vw -> Forall (fun u => u = 0) uw -> (0 < n)%nat ->
  decode_value_data (@ValueData.Vector f64 (Z.of_nat n) s vw uw) size = Ok (Val.Bits v) ->
  value.to_i128 (@ValueData.Vector f64 (Z.of_nat n) s vw uw)
  = if s then to_i128 v else (u ← to_u128 v; value.i128_try_from u).
Proof.
  intros Hv Hu Hn. cbn [decode_value_data value.to_i128].
  destruct (MAX_RESOLVED_BITS <? Z.of_nat n); [discriminate|].
  destruct (Z.eqb_spec (Z.of_nat (length vw)) (value.div_ceil_64 (Z.of_nat n))) as [Lv|]; [|discriminate].
  destruct (Z.eqb_spec (Z.of_nat (length uw)) (value.div_ceil_64 (Z.of_nat n))) as [Lu|]; [|discriminate].
  cbn [negb orb]. rewrite Nat2Z.id, decode_planes by done. injection 1 as <-.
  rewrite vector_to_i128_spec, to_i128_spec, to_u128_spec by done. cbv zeta. unfold val_of.
  rewrite (proj2 (is_unknown_iff _)) by apply bits_of_known. cbn [from_bits bits interp].
  destruct s; [done|]. pose proof (uint_bounds (bits_of n (words_value vw))) as B.
  cbn [interp]. unfold value.i128_try_from.
  rewrite (proj2 (Z.leb_le i128_min _)) by (unfold i128_min; lia). cbn [andb].
  destruct (Z.ltb_spec (uint (bits_of n (words_value vw))) (2 ^ 128)) as [Hlt|Hge]; [done|].
  rewrite (proj2 (Z.leb_gt _ i128_max)) by (unfold i128_max; lia). done.
Qed.

(** The hexadecimal form of a value with unknown bits writes one character
    per bit for the groups that have one and one per group for the others, so
    two different values of one width print alike: [8'b10xz0001] and
    [8'b00010xz1] are both [8'h10xz1]. *)
Theorem format_ambiguous :
  exists v v', v <> v' /\ width v = width v' /\ signed v = signed v' /\ fill v = fill v'
    /\ format_verilog v = format_verilog v'.
Proof.
  exists (from_bits [Bit.One; Bit.Zero; Bit.X; Bit.Z; Bit.Zero; Bit.Zero; Bit.Zero; Bit.One] false).
  exists (from_bits [Bit.Zero; Bit.Zero; Bit.Zero; Bit.One; Bit.Zero; Bit.X; Bit.Z; Bit.One] false).
  split_and!; [discriminate|done..].
Qed.

(** ** Witnesses *)

Lemma decimal_roundtrip_witness :
  parse_decimal "  -42 " 8 = Ok (of_Z 8 false (-42)).
Proof.
  exact (decimal_roundtrip (-42) 8 [" "%char; " "%char] [" "%char] eq_refl eq_refl ltac:(vm_compute; discriminate)).
Defined.

Lemma hex_roundtrip_witness :
  parse_radix "b" 4 4 = Ok (from_bits (bits minus_five) false).
Proof.
  exact (hex_roundtrip minus_five eq_refl ltac:(vm_compute; lia) ltac:(vm_compute; discriminate)).
Defined.

Lemma vector_conversions_agree_witness :
  value.to_i128 (@ValueData.Vector unit 8 true [255] [0]) = Some (-1).
Proof.
  apply (@vector_conversions_agree unit 8 true [255] [0] 0 (from_bits (replicate 8 Bit.One) true)).
  - repeat constructor; lia.
  - by repeat constructor.
  - lia.
  - reflexivity.
Defined.
