(* ===== verification/Ir.v ===== *)
(** * The expression IR of the simulator

    Constants ([src/sim/ir/constants.rs]) and the packed-value expressions of
    [src/sim/ir/expressions.rs] that the optimisation passes inspect.  The
    remaining expression kinds are [Other]: a tag with the subexpressions the
    passes walk, which the rewrites at a node leave alone.

    A [u32] width and a [usize] are natural numbers, a limb is the [Z] of a
    [u64].  A real payload is an IEEE 754 double in the Standard Library's
    specification format. *)

From Stdlib Require Import ZArith Lia Ascii String SpecFloat.
From stdpp Require Import base list strings.
From S2P Require Import Prelude Elab.

(** ** Real numbers *)

Definition f64 : Type := spec_float.

Definition f64_add : f64 -> f64 -> f64 := SFadd 53 1024.
Definition f64_sub : f64 -> f64 -> f64 := SFsub 53 1024.
Definition f64_mul : f64 -> f64 -> f64 := SFmul 53 1024.
Definition f64_div : f64 -> f64 -> f64 := SFdiv 53 1024.
Definition f64_neg : f64 -> f64 := SFopp.

(** [v != 0.0]: a NaN is different from zero. *)
Definition f64_nonzero (x : f64) : bool :=
  match x with S754_zero _ => false | _ => true end.

Definition f64_of_Z (z : Z) : f64 := binary_normalize 53 1024 z 0 false.

(** [x % y]: the exact remainder with the sign of [x]. *)
Definition f64_rem (x y : f64) : f64 :=
  match x, y with
  | S754_nan, _ | _, S754_nan | S754_infinity _, _ | _, S754_zero _ => S754_nan
  | S754_zero s, _ => S754_zero s
  | S754_finite s m e, S754_infinity _ => S754_finite s m e
  | S754_finite s m e, S754_finite _ n d =>
      let k := Z.min e d in
      let r := (Zpos m * 2 ^ (e - k)) mod (Zpos n * 2 ^ (d - k)) in
      binary_normalize 53 1024 (if s then - r else r) k s
  end.

(** [(r as f32) as f64] *)
Definition f64_through_f32 (x : f64) : f64 :=
  match x with
  | S754_finite s m e => binary_normalize 24 128 (if s then Zneg m else Zpos m) e s
  | _ => x
  end.

(** [Value::to_real] of [src/core/elab.rs]. *)
Definition to_real (v : Value) : f64 :=
  let zero := S754_zero false in
  let one := f64_of_Z 1 in
  let two := f64_of_Z 2 in
  let negative := signed v && bool_decide (head (bits v) = Some Bit.One) in
  if negb negative then
    fold_left (fun value bit => f64_add (f64_mul value two) (if is_one bit then one else zero))
      (bits v) zero
  else
    let '(magnitude, _, _) := fold_left (fun '(magnitude, weight, carry) bit =>
      let inverted := negb (is_one bit) in
      let sum := xorb inverted carry in
      (if sum then f64_add magnitude weight else magnitude,
       f64_mul weight two,
       inverted && carry)) (rev (bits v)) (zero, one, true) in
    f64_neg magnitude.

(** ** Constants *)

Record IrConst := mkConst {
  c_bits : list Z;
  c_x : list Z;
  c_z : list Z;
  c_width : nat;
  c_signed : bool;
  c_real : option f64;
  c_fill : option Z;
}.

Definition div_ceil (n d : nat) : nat := ((n + (d - 1)) / d)%nat.

Definition u64_max : Z := 2 ^ 64 - 1.

(** [(1u64 << (width % 64)) - 1] *)
Definition tail_mask (width : nat) : Z := wrap_u 64 (Z.shiftl 1 (Z.of_nat (width mod 64))) - 1.

(** [if let Some(last) = limbs.last_mut() { *last &= mask }] *)
Definition mask_last (limbs : list Z) (mask : Z) : list Z :=
  match last limbs with
  | Some l => <[(length limbs - 1)%nat := Z.land l mask]> limbs
  | None => limbs
  end.

Definition integral_default (width : nat) (two_state : bool) : IrConst :=
  let limbs := div_ceil width 64 in
  let x := replicate limbs (if two_state then 0 else u64_max) in
  let x := if (width mod 64 =? 0)%nat then x else mask_last x (tail_mask width) in
  mkConst (replicate limbs 0) x (replicate limbs 0) width false None None.

Record IrValidationError := mkError { err_path : string; err_detail : string }.

Inductive validated (A : Type) : Type :=
  | Valid (a : A)
  | Invalid (e : IrValidationError).
Arguments Valid {A} a.
Arguments Invalid {A} e.

Definition limb (l : list Z) (i : nat) : Z := nth i l 0.

(** The first plane with too many limbs. *)
Fixpoint too_many_limbs (limbs : nat) (planes : list (string * list Z)) : option IrValidationError :=
  match planes with
  | [] => None
  | (name, values) :: rest =>
      if (limbs <? length values)%nat
      then Some (mkError (cat ["const."%string; name])
             (cat [dec (Z.of_nat (length values)); " limbs exceed the "; dec (Z.of_nat limbs); "-limb width"]%string))
      else too_many_limbs limbs rest
  end.

(** The first plane with a bit outside the declared width. *)
Fixpoint outside_width (limbs : nat) (outside : Z) (planes : list (string * list Z)) : option IrValidationError :=
  match planes with
  | [] => None
  | (name, values) :: rest =>
      if negb (Z.land (limb values (limbs - 1)) outside =? 0)
      then Some (mkError (cat ["const."%string; name]) "high limb contains bits outside the declared width")
      else outside_width limbs outside rest
  end.

Definition packed (bits x z : list Z) (width : nat) (signed : bool) (fill : option Z) : validated IrConst :=
  if (width =? 0)%nat then Invalid (mkError "const.width" "packed width must be nonzero")
  else if match fill with Some f => 3 <? f | None => false end
  then Invalid (mkError "const.fill" "fill marker must be in 0..=3")
  else
    let limbs := div_ceil width 64 in
    let planes := [("bits", bits); ("x", x); ("z", z)]%string in
    match too_many_limbs limbs planes with
    | Some e => Invalid e
    | None =>
        if existsb (fun i => negb (Z.land (limb x i) (limb z i) =? 0)) (seq 0 limbs)
        then Invalid (mkError "const.x" "X and Z masks overlap")
        else
          match (if (width mod 64 =? 0)%nat then None
                 else outside_width limbs (u64_max - tail_mask width) planes) with
          | Some e => Invalid e
          | None => Valid (mkConst bits x z width signed None fill)
          end
    end.

Definition real_const (value : f64) : IrConst := mkConst [] [] [] 0 false (Some value) None.

(** ** Expressions *)

Inductive IrBinOp : Type :=
  | Add | Sub | Mul | Div | Mod | Pow
  | BitAnd | BitOr | BitXor | BitXNor
  | LogAnd | LogOr
  | OpEq | Neq | CaseEq | CaseNeq | WildEq | WildNeq
  | OpLt | Le | OpGt | Ge
  | Shl | Shr | Ashl | Ashr
  | LogImpl | LogEquiv
  | IndexEq | IndexLt.

Inductive IrUnOp : Type :=
  | Neg | LogNot | BitNeg | RedAnd | RedNand | RedOr | RedNor | RedXor | RedXNor.

Inductive IrRealBinOp : Type := RAdd | RSub | RMul | RDiv | RMod | RPow.
Inductive IrRealUnOp : Type := RNeg.

Record IrLeafMerge := mkLeafMerge { lm_default : IrConst; lm_starts : IrConst }.

Inductive IrExpr : Type :=
  | mkExpr (kind : IrExprKind) (width : nat) (signed : bool) (fill : option Z)
with IrExprKind : Type :=
  | Const (c : IrConst)
  | Fill (f : Z)
  | Bin (op : IrBinOp) (a b : IrExpr)
  | Un (op : IrUnOp) (a : IrExpr)
  | Predicate (clauses : list IrExpr)
  | Mux (sel a b : IrExpr)
  | ArrayMux (sel a b : IrExpr) (element_default : IrConst)
  | StructMux (sel a b : IrExpr) (leaves : IrLeafMerge)
  | Concat (parts : list IrExpr)
  | Replicate (count : Z) (parts : list IrExpr)
  | PartSel (base : IrExpr) (left right : Z)
  | IdxPartSel (base base_idx width_expr : IrExpr) (neg : bool)
  | CastToReal (a : IrExpr) (shortreal : bool)
  | CastToPacked (a : IrExpr)
  | Resize (a : IrExpr)
  | Convert (a : IrExpr)
  | ToTwoState (a : IrExpr)
  | RealBin (op : IrRealBinOp) (a b : IrExpr)
  | RealUn (op : IrRealUnOp) (a : IrExpr)
  | Clog2 (a : IrExpr)
  | Other (tag : nat) (children : list IrExpr).

Definition e_kind (e : IrExpr) : IrExprKind := let '(mkExpr k _ _ _) := e in k.
Definition e_width (e : IrExpr) : nat := let '(mkExpr _ w _ _) := e in w.
Definition e_signed (e : IrExpr) : bool := let '(mkExpr _ _ s _) := e in s.
Definition e_fill (e : IrExpr) : option Z := let '(mkExpr _ _ _ f) := e in f.

(** The subexpressions of a node, in the order the walkers visit them, and the
    node with its subexpressions replaced. *)
Definition kind_map (f : IrExpr -> IrExpr) (k : IrExprKind) : IrExprKind :=
  match k with
  | Const c => Const c
  | Fill v => Fill v
  | Bin op a b => Bin op (f a) (f b)
  | Un op a => Un op (f a)
  | Predicate clauses => Predicate (map f clauses)
  | Mux sel a b => Mux (f sel) (f a) (f b)
  | ArrayMux sel a b d => ArrayMux (f sel) (f a) (f b) d
  | StructMux sel a b l => StructMux (f sel) (f a) (f b) l
  | Concat parts => Concat (map f parts)
  | Replicate n parts => Replicate n (map f parts)
  | PartSel base l r => PartSel (f base) l r
  | IdxPartSel base idx w neg => IdxPartSel (f base) (f idx) (f w) neg
  | CastToReal a s => CastToReal (f a) s
  | CastToPacked a => CastToPacked (f a)
  | Resize a => Resize (f a)
  | Convert a => Convert (f a)
  | ToTwoState a => ToTwoState (f a)
  | RealBin op a b => RealBin op (f a) (f b)
  | RealUn op a => RealUn op (f a)
  | Clog2 a => Clog2 (f a)
  | Other t children => Other t (map f children)
  end.

Definition map_children (f : IrExpr -> IrExpr) (e : IrExpr) : IrExpr :=
  let '(mkExpr k w s fl) := e in mkExpr (kind_map f k) w s fl.

Definition kind_children (k : IrExprKind) : list IrExpr :=
  match k with
  | Const _ | Fill _ => []
  | Bin _ a b | RealBin _ a b => [a; b]
  | Un _ a | PartSel a _ _ | CastToReal a _ | CastToPacked a | Resize a | Convert a | ToTwoState a
  | RealUn _ a | Clog2 a => [a]
  | Mux sel a b | ArrayMux sel a b _ | StructMux sel a b _ => [sel; a; b]
  | IdxPartSel base idx w _ => [base; idx; w]
  | Predicate l | Concat l | Replicate _ l | Other _ l => l
  end.

Definition children (e : IrExpr) : list IrExpr := kind_children (e_kind e).

(** Structural induction through the lists of subexpressions. *)
Section Induction.
Context (P : IrExpr -> Prop).
Hypothesis step : forall e, Forall P (children e) -> P e.

Fixpoint IrExpr_children_ind (e : IrExpr) : P e :=
  let all := fix all (l : list IrExpr) : Forall P l :=
    match l with
    | [] => @List.Forall_nil IrExpr P
    | x :: l' => @List.Forall_cons IrExpr P x l' (IrExpr_children_ind x) (all l')
    end in
  let none := @List.Forall_nil IrExpr P in
  let one a (ha : P a) := @List.Forall_cons IrExpr P a [] ha none in
  let two a b (ha : P a) hb := @List.Forall_cons IrExpr P a [b] ha (one b hb) in
  let three a b c (ha : P a) hb hc := @List.Forall_cons IrExpr P a [b; c] ha (two b c hb hc) in
  step e (match e as e' return Forall P (children e') with
          | mkExpr k w s fl =>
              match k as k' return Forall P (kind_children k') with
              | Const _ | Fill _ => none
              | Bin _ a b | RealBin _ a b => two a b (IrExpr_children_ind a) (IrExpr_children_ind b)
              | Un _ a | PartSel a _ _ | CastToReal a _ | CastToPacked a | Resize a | Convert a
              | ToTwoState a | RealUn _ a | Clog2 a => one a (IrExpr_children_ind a)
              | Mux x a b | ArrayMux x a b _ | StructMux x a b _ | IdxPartSel x a b _ =>
                  three x a b (IrExpr_children_ind x) (IrExpr_children_ind a) (IrExpr_children_ind b)
              | Predicate l | Concat l | Replicate _ l | Other _ l => all l
              end
          end).

End Induction.
