(* ===== verification/Folding.v ===== *)
(** * Constant folding and algebraic identities

    [src/sim/opt/passes/constants.rs], [folding.rs] and the node rewrite of
    [identities.rs], with the bottom-up walk of [traversal.rs] and the rounds
    of [src/sim/opt/passes.rs] on one expression. *)

From Stdlib Require Import ZArith Lia Ascii String SpecFloat.
From stdpp Require Import base list strings.
From S2P Require Import Prelude Elab Ir.

(** ** Constants and values *)

Definition const_limb_bit (limbs : list Z) (i : nat) : bool :=
  negb (Z.land (nth (i / 64) limbs 0) (wrap_u 64 (Z.shiftl 1 (Z.of_nat (i mod 64)))) =? 0).

Definition const_bit_at (c : IrConst) (i : nat) : Bit.t :=
  if const_limb_bit (c_x c) i then Bit.X
  else if const_limb_bit (c_z c) i then Bit.Z
  else if const_limb_bit (c_bits c) i then Bit.One
  else Bit.Zero.

Definition const_to_value (c : IrConst) : option Value :=
  match c_real c with
  | Some _ => None
  | None => Some (mkValue (map (const_bit_at c) (rev (seq 0 (c_width c)))) (c_signed c) None)
  end.

(** [limbs[i / 64] |= 1u64 << (i % 64)] *)
Definition set_limb_bit (limbs : list Z) (i : nat) : list Z :=
  <[(i / 64)%nat := Z.lor (nth (i / 64) limbs 0) (wrap_u 64 (Z.shiftl 1 (Z.of_nat (i mod 64))))]> limbs.

Definition value_to_const_step (v : Value) (planes : list Z * list Z * list Z) (i : nat)
    : list Z * list Z * list Z :=
  let '(bits, x, z) := planes in
  match bit_lsb v i with
  | Bit.One => (set_limb_bit bits i, x, z)
  | Bit.X => (bits, set_limb_bit x i, z)
  | Bit.Z => (bits, x, set_limb_bit z i)
  | Bit.Zero => (bits, x, z)
  end.

Definition value_to_const (v : Value) : IrConst :=
  let nlimbs := Nat.max (div_ceil (width v) 64) 1 in
  let zeros := replicate nlimbs 0 in
  let '(bits, x, z) := fold_left (value_to_const_step v) (seq 0 (width v)) (zeros, zeros, zeros) in
  mkConst bits x z (Z.to_nat (wrap_u32 (Z.of_nat (width v)))) (signed v) None None.

Definition as_packed_const (e : IrExpr) : option Value :=
  match e_kind e with
  | Const c => const_to_value c
  | _ => None
  end.

Definition real_of (e : IrExpr) : option f64 :=
  match e_kind e with
  | Const c => c_real c
  | _ => None
  end.

(** ** Folding one node *)

Definition resize_like_runtime (v : Value) (w : nat) (s : bool) : Value :=
  resize (mkValue (bits v) (signed v) None) w s.

Definition bin_apply (op : IrBinOp) (a b : Value) : Value :=
  match op with
  | Add => elab.add a b
  | Sub => elab.sub a b
  | Mul => elab.mul a b
  | Div => elab.div a b
  | Mod => elab.rem a b
  | Pow => elab.power a b
  | BitAnd => elab.bit_and a b
  | BitOr => elab.bit_or a b
  | BitXor => elab.bit_xor a b
  | BitXNor => elab.bit_xnor a b
  | LogAnd => elab.log_and a b
  | LogOr => elab.log_or a b
  | LogImpl => elab.log_imply a b
  | LogEquiv => elab.log_equiv a b
  | OpEq => elab.eq a b
  | Neq => elab.neq a b
  | CaseEq => elab.case_eq a b
  | CaseNeq => elab.case_neq a b
  | WildEq => elab.wildcard_eq a b
  | WildNeq => elab.wildcard_neq a b
  | OpLt => elab.lt a b
  | Le => elab.le a b
  | OpGt => elab.gt a b
  | Ge => elab.ge a b
  | Shl => elab.shl a b
  | Shr => elab.shr a b
  | Ashl => elab.arith_shl a b
  | Ashr => elab.arith_shr a b
  | IndexEq => elab.case_eq a b
  | IndexLt => if is_unknown a then elab.case_eq a b else elab.lt a b
  end.

Definition bin_value (op : IrBinOp) (a b : Value) (node_width : nat) (node_signed : bool) : option Value :=
  let guarded := match op with Div | Mod | Pow => true | _ => false end in
  if guarded && (is_unknown a || is_unknown b || (64 <? width a)%nat || (64 <? width b)%nat)
  then None
  else Some (resize_like_runtime (bin_apply op a b) node_width node_signed).

Definition un_apply (op : IrUnOp) (a : Value) : Value :=
  match op with
  | Neg => elab.minus a
  | LogNot => elab.log_not a
  | BitNeg => elab.bit_neg a
  | RedAnd => elab.unary_and a
  | RedNand => elab.unary_nand a
  | RedOr => elab.unary_or a
  | RedNor => elab.unary_nor a
  | RedXor => elab.unary_xor a
  | RedXNor => elab.unary_xnor a
  end.

Definition un_value (op : IrUnOp) (a : Value) (node_width : nat) : option Value :=
  let v := un_apply op a in Some (resize_like_runtime v node_width (signed v)).

(** [bits.chunks_exact(stride)] *)
Fixpoint chunks_exact (fuel stride : nat) (l : list Bit.t) : list (list Bit.t) :=
  match fuel with
  | O => []
  | S f => if (stride <=? length l)%nat then take stride l :: chunks_exact f stride (drop stride l) else []
  end.

(** [a == b && matches!(a, Bit::Zero | Bit::One)] *)
Definition known_equal (a b : Bit.t) : bool := Bit.eqb a b && negb (bit_unknown a).

Definition is_multiple_of (n d : nat) : bool := (n mod d =? 0)%nat.

Definition merge_elements (stride : nat) (default a b : list Bit.t) : list Bit.t :=
  fold_left (fun acc '(l, r) =>
    acc ++ (if forallb (fun '(x, y) => known_equal x y) (zip l r) then l else default))
    (zip (chunks_exact (length a) stride a) (chunks_exact (length b) stride b)) [].

Definition fold_array_mux (sel a b : IrExpr) (default : IrConst) : option Value :=
  selector ← as_packed_const sel;
  if elab.contains Bit.One selector then as_packed_const a
  else if negb (is_unknown selector) then as_packed_const b
  else
    a ← as_packed_const a;
    b ← as_packed_const b;
    default ← const_to_value default;
    let stride := width default in
    if (stride =? 0)%nat || negb (width a =? width b)%nat || negb (is_multiple_of (width a) stride)
    then None
    else Some (from_bits (merge_elements stride (bits default) (bits a) (bits b)) false).

(** The first index from [i] on, of [n], at which a leaf starts. *)
Fixpoint find_start (starts : Value) (i n : nat) : option nat :=
  match n with
  | O => None
  | S n' => if is_one (bit_lsb starts i) then Some i else find_start starts (S i) n'
  end.

(** The [while] loop over the leaves of one period. *)
Fixpoint leaf_loop (fuel : nat) (a b default starts : Value) (period base start : nat)
    (lsb_bits : list Bit.t) : list Bit.t :=
  match fuel with
  | O => lsb_bits
  | S f =>
      if (start <? period)%nat then
        let stop := match find_start starts (S start) (period - S start) with
                    | Some index => index
                    | None => period
                    end in
        let leaf := seq start (stop - start) in
        let equal := forallb (fun index => known_equal (bit_lsb a (base + index)) (bit_lsb b (base + index))) leaf in
        let out := map (fun index => if equal then bit_lsb a (base + index) else bit_lsb default index) leaf in
        leaf_loop f a b default starts period base stop (lsb_bits ++ out)
      else lsb_bits
  end.

Definition fold_struct_mux (sel a b : IrExpr) (leaves : IrLeafMerge) : option Value :=
  selector ← as_packed_const sel;
  if elab.contains Bit.One selector then as_packed_const a
  else if negb (is_unknown selector) then as_packed_const b
  else
    a ← as_packed_const a;
    b ← as_packed_const b;
    default ← const_to_value (lm_default leaves);
    starts ← const_to_value (lm_starts leaves);
    let period := width default in
    if (period =? 0)%nat || negb (width starts =? period)%nat || negb (width a =? width b)%nat
       || negb (is_multiple_of (width a) period)
    then None
    else
      let lsb_bits := fold_left
        (fun acc k => leaf_loop period a b default starts period (k * period) 0 acc)
        (seq 0 (width a / period)) [] in
      Some (from_bits (rev lsb_bits) false).

(** The truth of one evaluated clause of a sequential predicate. *)
Definition clause_truth (clause : IrExpr) : option Value :=
  let packed_or_real :=
    match as_packed_const clause with
    | Some v => Some (elab.unary_or v)
    | None => r ← real_of clause; Some (from_u64 (Z.b2z (f64_nonzero r)) 1 false)
    end in
  match e_kind clause with
  | Fill f =>
      if (0 <=? f) && (f <=? 3)
      then Some (from_bits [if f =? 0 then Bit.Zero else if f =? 1 then Bit.One else Bit.X] false)
      else packed_or_real
  | _ => packed_or_real
  end.

Fixpoint predicate_loop (clauses : list IrExpr) : option Value :=
  match clauses with
  | [] => Some (from_u64 1 1 false)
  | clause :: rest =>
      t ← clause_truth clause;
      if bool_decide (head (bits t) <> Some Bit.One) then Some t else predicate_loop rest
  end.

Definition fold_predicate (clauses : list IrExpr) : option Value :=
  match clauses with
  | [] => None
  | _ => predicate_loop clauses
  end.

Inductive Folded : Type :=
  | FoldedBits (v : Value)
  | FoldedReal (r : f64).

Definition two_state_bit (b : Bit.t) : Bit.t := if bit_unknown b then Bit.Zero else b.

Fixpoint repeat_bits (n : nat) (l : list Bit.t) : list Bit.t :=
  match n with
  | O => []
  | S n' => l ++ repeat_bits n' l
  end.

Section Passes.

(** [f64::powf] is the platform's. *)
Context (powf : f64 -> f64 -> f64).

(** The expression kinds kept as [Other] whose subexpressions the identity
    pass visits itself. *)
Context (ident_visits : nat -> bool).

Definition real_bin (op : IrRealBinOp) (x y : f64) : f64 :=
  match op with
  | RAdd => f64_add x y
  | RSub => f64_sub x y
  | RMul => f64_mul x y
  | RDiv => f64_div x y
  | RMod => f64_rem x y
  | RPow => powf x y
  end.

Definition real_un (op : IrRealUnOp) (x : f64) : f64 :=
  match op with RNeg => f64_neg x end.

Definition folded (e : IrExpr) : option Folded :=
  match e_kind e with
  | Bin op a b =>
      va ← as_packed_const a; vb ← as_packed_const b;
      v ← bin_value op va vb (e_width e) (e_signed e); Some (FoldedBits v)
  | Un op a =>
      va ← as_packed_const a; v ← un_value op va (e_width e); Some (FoldedBits v)
  | Mux sel a b =>
      vs ← as_packed_const sel; va ← as_packed_const a; vb ← as_packed_const b;
      Some (FoldedBits (resize (elab.cond vs va vb) (e_width e) (e_signed e)))
  | ArrayMux sel a b default => v ← fold_array_mux sel a b default; Some (FoldedBits v)
  | StructMux sel a b leaves => v ← fold_struct_mux sel a b leaves; Some (FoldedBits v)
  | Predicate clauses => v ← fold_predicate clauses; Some (FoldedBits v)
  | Concat parts => vals ← mapM as_packed_const parts; Some (FoldedBits (elab.concat vals))
  | Replicate count parts =>
      vals ← mapM as_packed_const parts;
      let pat := elab.concat vals in
      if (count =? 0) || is_unknown pat then None
      else
        let total := Z.of_nat (width pat) * count in
        if (elab.usize_max <? total) || negb (total =? Z.of_nat (e_width e)) then None
        else Some (FoldedBits (from_bits (repeat_bits (Z.to_nat count) (bits pat)) false))
  | Resize a => va ← as_packed_const a; Some (FoldedBits (resize va (e_width e) (e_signed e)))
  | Convert a => va ← as_packed_const a; Some (FoldedBits (cast va (e_width e) (e_signed e)))
  | ToTwoState a =>
      va ← as_packed_const a;
      Some (FoldedBits (mkValue (map two_state_bit (bits va)) (signed va) (fill va)))
  | CastToReal a shortreal =>
      va ← as_packed_const a;
      let r := to_real va in Some (FoldedReal (if shortreal : bool then f64_through_f32 r else r))
  | RealBin op a b => x ← real_of a; y ← real_of b; Some (FoldedReal (real_bin op x y))
  | RealUn op a => x ← real_of a; Some (FoldedReal (real_un op x))
  | Clog2 a => va ← as_packed_const a; Some (FoldedBits (elab.clog2 va))
  | Const _ | Fill _ | PartSel _ _ _ | IdxPartSel _ _ _ _ | CastToPacked _ | Other _ _ => None
  end.

Definition with_kind (e : IrExpr) (k : IrExprKind) : IrExpr := mkExpr k (e_width e) (e_signed e) (e_fill e).

Definition fold_expr (e : IrExpr) : IrExpr :=
  match folded e with
  | Some (FoldedBits v) => with_kind e (Const (value_to_const v))
  | Some (FoldedReal r) => with_kind e (Const (mkConst [0] [0] [0] 0 true (Some r) None))
  | None => e
  end.

(** ** Identities *)

Definition is_zero_const (e : IrExpr) : bool :=
  match (v ← as_packed_const e; to_u64 v) with Some z => z =? 0 | None => false end.

Definition known_select_index (e : IrExpr) : option Z :=
  v ← as_packed_const e;
  if is_unknown v then None
  else if signed v then i ← to_i128 v; try_i64 i
  else i ← to_u128 v; try_i64 i.

Definition same_shape (a e : IrExpr) : bool :=
  (e_width a =? e_width e)%nat && Bool.eqb (e_signed a) (e_signed e).

Definition is_some {A : Type} (o : option A) : bool := match o with Some _ => true | None => false end.

Definition pick_branch (e sel a b : IrExpr) : option IrExpr :=
  v ← as_packed_const sel;
  u ← to_u64 v;
  let chosen := if negb (u =? 0) then a else b in
  if same_shape chosen e && negb (is_some (e_fill chosen)) then Some chosen else None.

Definition try_identity (e : IrExpr) : option IrExpr :=
  match e_kind e with
  | Un BitNeg a =>
      match e_kind a with
      | Un BitNeg inner =>
          v ← as_packed_const inner; if is_unknown v then None else Some inner
      | _ => None
      end
  | Bin (Shl | Shr | Ashl | Ashr) a b =>
      if is_zero_const b && same_shape a e then Some a else None
  | Concat [part] =>
      let marked := match e_kind part with
                    | Fill _ => true
                    | Const c => is_some (c_fill c)
                    | _ => false
                    end in
      if same_shape part e && negb (is_some (e_fill e)) && negb (is_some (e_fill part)) && negb marked
      then Some part else None
  | Mux sel a b | ArrayMux sel a b _ | StructMux sel a b _ => pick_branch e sel a b
  | IdxPartSel base base_idx _ neg =>
      if (0 <? e_width e)%nat then
        let span := Z.of_nat (e_width e) - 1 in
        low ← (index ← known_select_index base_idx;
               if neg : bool then (if 0 <=? index then Some (index - span) else None) else Some index);
        if 0 <=? low then
          left ← try_i64 (low + span);
          Some (with_kind e (PartSel base left low))
        else None
      else None
  | Resize a => if same_shape a e then Some a else None
  | Convert a => if same_shape a e then Some a else None
  | _ => None
  end.

(** The children the identity pass rewrites itself. *)
Definition ident_children (f : IrExpr -> IrExpr) (e : IrExpr) : IrExpr :=
  match e_kind e with
  | Other tag _ => if ident_visits tag then map_children f e else e
  | _ => map_children f e
  end.

(** [for _ in 0..8 { if !try_identity(e) { break; } ident_children(e); }] *)
Fixpoint ident_loop (f : IrExpr -> IrExpr) (n : nat) (e : IrExpr) : IrExpr :=
  match n with
  | O => e
  | S n' =>
      match try_identity e with
      | Some e' => ident_loop f n' (ident_children f e')
      | None => e
      end
  end.

(** [fuel] bounds the depth of the recursion. *)
Fixpoint ident_fuel (fuel : nat) (e : IrExpr) : IrExpr :=
  match fuel with
  | O => e
  | S n => ident_loop (ident_fuel n) 8 (ident_children (ident_fuel n) e)
  end.

Fixpoint depth (e : IrExpr) : nat :=
  let '(mkExpr k _ _ _) := e in
  match k with
  | Const _ | Fill _ => 1
  | Bin _ a b | RealBin _ a b => S (Nat.max (depth a) (depth b))
  | Un _ a | PartSel a _ _ | CastToReal a _ | CastToPacked a | Resize a | Convert a | ToTwoState a
  | RealUn _ a | Clog2 a => S (depth a)
  | Mux x a b | ArrayMux x a b _ | StructMux x a b _ | IdxPartSel x a b _ =>
      S (Nat.max (depth x) (Nat.max (depth a) (depth b)))
  | Predicate l | Concat l | Replicate _ l | Other _ l => S (list_max (map depth l))
  end%nat.

Definition ident_expr (e : IrExpr) : IrExpr := ident_fuel (depth e) e.

(** ** The passes over one expression *)

(** [walk_expr_mut]: the subexpressions first, then the node. *)
Fixpoint walk_expr (f : IrExpr -> IrExpr) (e : IrExpr) : IrExpr :=
  let '(mkExpr k w s fl) := e in f (mkExpr (kind_map (walk_expr f) k) w s fl).

Record OptConfig := mkOptConfig {
  fold_constants : bool;
  identities : bool;
  prune_branches : bool;
  unused_storage : bool;
}.

Definition one_round (cfg : OptConfig) (e : IrExpr) : IrExpr :=
  let e := if fold_constants cfg then walk_expr fold_expr e else e in
  if identities cfg then walk_expr ident_expr (walk_expr ident_expr e) else e.

Definition run_expr (cfg : OptConfig) (e : IrExpr) : IrExpr :=
  if fold_constants cfg || identities cfg then
    let rounds := if identities cfg then 2%nat else 1%nat in
    Nat.iter rounds (one_round cfg) e
  else e.

End Passes.
