(* ===== verification/Eval.v ===== *)
(** * What an expression denotes

    The reference semantics the optimisation passes are proved against: the
    value the emitted program computes for an expression of [Ir].  Operators
    are the runtime's [sv4_*] functions, which the folder mirrors with
    [src/core/elab.rs]; the selections follow [sv4_part_select] and
    [sv4_idx_part_select_value] of [src/sim/rt/value/operations.c], and the
    aggregate conditionals the leaf rule documented on [ArrayMux] and
    [StructMux].  Conditionals and conversions treat unsized fill literals as
    [Frame::mux] and [Frame::convert] of the C emitter do.

    [wt] collects the type rules of the IR validator
    ([src/sim/ir/validate/expressions.rs]) for the modelled kinds, with two
    rules the lowering follows and the validator does not state: the arms of a
    packed conditional have its width ([checked_operand_with_context]), and an
    unsized fill is never the operand of a conversion ([IrExpr::convert_to]). *)

From Stdlib Require Import ZArith Lia Ascii String SpecFloat.
From stdpp Require Import base list strings.
From S2P Require Import Prelude Elab Ir Folding.

(** ** Runtime values *)

Inductive RtVal : Type :=
  | RBits (v : Value)
  | RReal (r : f64).

Definition rt_bits (r : RtVal) : Value := match r with RBits v => v | RReal _ => from_bits [] false end.
Definition rt_real (r : RtVal) : f64 := match r with RReal x => x | RBits _ => S754_zero false end.

(** A value given by its bits counted from the least significant one. *)
Definition of_lsb (w : nat) (s : bool) (f : nat -> Bit.t) : Value := from_bits (map f (rev (seq 0 w))) s.

(** ** Selections *)

(** The bit at a storage position; X outside the vector. *)
Definition bit_or_x (v : Value) (p : Z) : Bit.t := if p <? 0 then Bit.X else bit_lsb v (Z.to_nat p).

(** [sv4_copy_window] into an all-X result: [w] bits from position [low] up. *)
Definition window (v : Value) (low : Z) (w : nat) : Value :=
  of_lsb w false (fun i => bit_or_x v (low + Z.of_nat i)).

(** [sv4_part_select] *)
Definition part_select (v : Value) (left right : Z) : Value :=
  let w := Z.to_nat (Z.abs (left - right) + 1) in
  if right <=? left then window v right w
  else from_bits (map (fun i => bit_or_x v (left + Z.of_nat i)) (seq 0 w)) false.

(** [sv4_to_index_i64] *)
Definition to_index_i64 (v : Value) : option Z :=
  if is_unknown v then None
  else if signed v then i ← to_i128 v; try_i64 i
  else i ← to_u128 v; try_i64 i.

(** [sv4_idx_part_select_value], with [sv4_indexed_low]. *)
Definition idx_part_select (v base : Value) (w : nat) (neg : bool) : Value :=
  match to_index_i64 base with
  | Some index =>
      if (w =? 0)%nat || (neg && (index <? 0)) then elab.all_x w false
      else window v (if neg then index - (Z.of_nat w - 1) else index) w
  | None => elab.all_x w false
  end.

(** ** Aggregate conditionals *)

(** Every position of the leaf is known to be equal in both payloads. *)
Definition leaf_equal (a b : Value) (leaf : list nat) : bool :=
  forallb (fun j => known_equal (bit_lsb a j) (bit_lsb b j)) leaf.

(** The merge of two payloads under an ambiguous selector: a leaf survives
    when it is known equal, and takes its bits of the default otherwise. *)
Definition leaf_merge (leaf_of : nat -> list nat) (period : nat) (a b default : Value) : Value :=
  of_lsb (width a) false (fun i =>
    if leaf_equal a b (leaf_of i) then bit_lsb a i else bit_lsb default (i mod period)).

(** The leaf of position [i] in an array of [stride]-bit elements. *)
Definition element_of (stride i : nat) : list nat := seq (stride * (i / stride)) stride.

(** The last leaf start at or below offset [o], and the first one above. *)
Fixpoint start_below (starts : Value) (o : nat) : nat :=
  match o with
  | O => O
  | S o' => if is_one (bit_lsb starts o) then o else start_below starts o'
  end.

Definition stop_above (starts : Value) (period o : nat) : nat :=
  match find_start starts (S o) (period - S o) with Some i => i | None => period end.

(** The leaf of position [i] in a repetition of a record of [period] bits. *)
Definition member_of (starts : Value) (period i : nat) : list nat :=
  let base := (period * (i / period))%nat in
  let o := (i mod period)%nat in
  let start := start_below starts o in
  seq (base + start) (stop_above starts period o - start).

Definition aggregate_mux (sel a b : Value) (merged : Value) : Value :=
  match elab.logical_bit sel with
  | Bit.One => a
  | Bit.Zero => b
  | Bit.X | Bit.Z => merged
  end.

(** ** The conditional operator *)

(** The verdict of a condition, packed or real. *)
Definition rt_condition (r : RtVal) : Bit.t :=
  match r with
  | RBits v => elab.logical_bit v
  | RReal x => bit_of (f64_nonzero x)
  end.

Definition rt_to_real (r : RtVal) : f64 := match r with RBits v => to_real v | RReal x => x end.

(** An ambiguous condition with a real result gives 0.0. *)
Definition mux_real (truth : Bit.t) (a b : RtVal) : f64 :=
  match truth with
  | Bit.One => rt_to_real a
  | Bit.Zero => rt_to_real b
  | Bit.X | Bit.Z => S754_zero false
  end.

(** [sv4_mux] on two arms of one type. *)
Definition mux_bits (truth : Bit.t) (a b : Value) (s : bool) : Value :=
  match truth with
  | Bit.One => a
  | Bit.Zero => b
  | Bit.X | Bit.Z => mkValue (zip_with elab.merge_one (bits a) (bits b)) s None
  end.

(** ** Evaluation *)

Definition fill_bit (f : Z) : Bit.t :=
  if f =? 1 then Bit.One else if f =? 2 then Bit.X else if f =? 3 then Bit.Z else Bit.Zero.

(** [sv4_fill] *)
Definition filled (f : Z) (w : nat) (s : bool) : Value := from_bits (replicate w (fill_bit f)) s.

(** The marker of an unsized fill literal, which steers a conversion of the
    value ([Frame::operand] sets it on the emitted value). *)
Definition marker (e : IrExpr) : option Z :=
  match e_kind e with
  | Fill f => Some f
  | Const c => c_fill c
  | _ => None
  end.

Definition const_value (c : IrConst) : Value :=
  match const_to_value c with Some v => v | None => from_bits [] false end.

(** The truth of a clause, packed or real. *)
Definition rt_truth (r : RtVal) : Value :=
  match r with
  | RBits v => elab.unary_or v
  | RReal x => from_u64 (Z.b2z (f64_nonzero x)) 1 false
  end.

(** Sequential evaluation of a predicate: the first clause that is not
    definitely true decides. *)
Fixpoint rt_predicate (l : list RtVal) : Value :=
  match l with
  | [] => from_u64 1 1 false
  | r :: rest =>
      let t := rt_truth r in
      if bool_decide (head (bits t) = Some Bit.One) then rt_predicate rest else t
  end.

Section Semantics.

(** The platform's [powf], the rounding of a real to a packed value
    ([sv4_from_real]), and the value of the other expression kinds from their
    shape and the values of their subexpressions. *)
Context (powf : f64 -> f64 -> f64).
Context (from_real : f64 -> nat -> bool -> Value).
Context (other : nat -> nat -> bool -> list RtVal -> RtVal).

(** [Frame::mux_arm]: an arm in the type of the conditional. *)
Definition mux_arm (mark : option Z) (r : RtVal) (w : nat) (s : bool) : Value :=
  match mark, r with
  | Some f, _ => filled f w s
  | None, RBits v => resize v w s
  | None, RReal x => from_real x w s
  end.

Fixpoint eval (e : IrExpr) : RtVal :=
  let '(mkExpr k w s _) := e in
  match k with
  | Const c => match c_real c with Some r => RReal r | None => RBits (const_value c) end
  | Fill f => RBits (filled f w s)
  | Bin op a b => RBits (resize_like_runtime (bin_apply op (rt_bits (eval a)) (rt_bits (eval b))) w s)
  | Un op a => let v := un_apply op (rt_bits (eval a)) in RBits (resize_like_runtime v w (signed v))
  | Predicate clauses => RBits (rt_predicate (map eval clauses))
  | Mux sel a b =>
      let truth := rt_condition (eval sel) in
      if (w =? 0)%nat then RReal (mux_real truth (eval a) (eval b))
      else RBits (mux_bits truth (mux_arm (marker a) (eval a) w s) (mux_arm (marker b) (eval b) w s) s)
  | ArrayMux sel a b d =>
      let va := rt_bits (eval a) in
      let vb := rt_bits (eval b) in
      let vd := const_value d in
      RBits (aggregate_mux (rt_bits (eval sel)) va vb (leaf_merge (element_of (width vd)) (width vd) va vb vd))
  | StructMux sel a b l =>
      let va := rt_bits (eval a) in
      let vb := rt_bits (eval b) in
      let vd := const_value (lm_default l) in
      let vs := const_value (lm_starts l) in
      RBits (aggregate_mux (rt_bits (eval sel)) va vb (leaf_merge (member_of vs (width vd)) (width vd) va vb vd))
  | Concat parts => RBits (elab.concat (map (fun p => rt_bits (eval p)) parts))
  | Replicate n parts =>
      RBits (from_bits (repeat_bits (Z.to_nat n) (bits (elab.concat (map (fun p => rt_bits (eval p)) parts)))) false)
  | PartSel base l r => RBits (part_select (rt_bits (eval base)) l r)
  | IdxPartSel base idx _ neg => RBits (idx_part_select (rt_bits (eval base)) (rt_bits (eval idx)) w neg)
  | CastToReal a shortreal =>
      let x := rt_to_real (eval a) in
      RReal (if shortreal then f64_through_f32 x else x)
  | CastToPacked a =>
      RBits (match eval a with RBits v => resize v w s | RReal x => from_real x w s end)
  | Resize a => RBits (resize (rt_bits (eval a)) w s)
  | Convert a => RBits (match marker a with Some f => filled f w s | None => cast (rt_bits (eval a)) w s end)
  | ToTwoState a =>
      let v := rt_bits (eval a) in RBits (mkValue (map two_state_bit (bits v)) (signed v) (fill v))
  | RealBin op a b => RReal (real_bin powf op (rt_real (eval a)) (rt_real (eval b)))
  | RealUn op a => RReal (real_un op (rt_real (eval a)))
  | Clog2 a => RBits (elab.clog2 (rt_bits (eval a)))
  | Other tag l => other tag w s (map eval l)
  end.

End Semantics.

(** ** Types *)

Definition is_packed (e : IrExpr) : bool := (0 <? e_width e)%nat.
Definition is_real (e : IrExpr) : bool := (e_width e =? 0)%nat.
Definition total_width (parts : list IrExpr) : nat := foldr Nat.add 0%nat (map e_width parts).
Definition u32 (w : nat) : bool := (Z.of_nat w <? 2 ^ 32).

(** The width and signedness of a unary operator. *)
Definition un_shape (op : IrUnOp) (e a : IrExpr) : bool :=
  match op with
  | Neg | BitNeg => same_shape a e
  | _ => (e_width e =? 1)%nat && negb (e_signed e)
  end.

Definition aggregate_shape (e a b : IrExpr) (d : IrConst) : bool :=
  negb (e_signed e) && same_shape a e && same_shape b e
  && negb (is_some (c_real d)) && negb (c_width d =? 0)%nat && is_multiple_of (e_width e) (c_width d).

Definition leaf_shape (l : IrLeafMerge) : bool :=
  negb (is_some (c_real (lm_starts l))) && (c_width (lm_starts l) =? c_width (lm_default l))%nat.

(** An expression the identities can reduce to one with a fill marker. *)
Fixpoint marks (e : IrExpr) : bool :=
  let '(mkExpr k _ _ _) := e in
  match k with
  | Fill _ => true
  | Const c => is_some (c_fill c)
  | Resize a | Convert a | Un _ a | Bin _ a _ => marks a
  | Mux _ a b | ArrayMux _ a b _ | StructMux _ a b _ => marks a || marks b
  | Concat parts => existsb marks parts
  | _ => false
  end.

(** A marked constant is its fill digit in every bit. *)
Definition fill_ok (c : IrConst) : bool :=
  match c_fill c with
  | Some f => bool_decide (bits (const_value c) = replicate (c_width c) (fill_bit f))
  | None => true
  end.

(** The rules at one node, for the kinds that carry a packed or real value. *)
Definition node_ok (e : IrExpr) : bool :=
  match e_kind e with
  | Const c =>
      match c_real c with
      | Some _ => is_real e && negb (is_some (c_fill c))
      | None => (c_width c =? e_width e)%nat && Bool.eqb (c_signed c) (e_signed e) && is_packed e && fill_ok c
      end
  | Fill f => is_packed e && (0 <=? f) && (f <=? 3)
  | Bin _ a b => is_packed e && is_packed a && is_packed b
  | Un op a => is_packed e && is_packed a && un_shape op e a
  | Predicate clauses => (e_width e =? 1)%nat && negb (e_signed e) && negb (length clauses =? 0)%nat
  | Mux sel a b =>
      if is_packed e then (e_width a =? e_width e)%nat && (e_width b =? e_width e)%nat
      else is_real a || is_real b
  | ArrayMux sel a b d => is_packed e && is_packed sel && aggregate_shape e a b d
  | StructMux sel a b l => is_packed e && is_packed sel && aggregate_shape e a b (lm_default l) && leaf_shape l
  | Concat parts =>
      is_packed e && negb (e_signed e) && forallb is_packed parts
      && (total_width parts =? e_width e)%nat
  | Replicate n parts =>
      is_packed e && negb (e_signed e) && forallb is_packed parts && (0 <=? n)
      && (Z.of_nat (total_width parts) * n =? Z.of_nat (e_width e))
  | PartSel base l r =>
      is_packed e && is_packed base && negb (e_signed e) && (Z.abs (l - r) + 1 =? Z.of_nat (e_width e))
  | IdxPartSel base idx _ _ => is_packed e && is_packed base && is_packed idx && negb (e_signed e)
  | CastToReal a _ => is_real e
  | CastToPacked a => is_packed e
  | Resize a => is_packed e && is_packed a
  | Convert a => is_packed e && is_packed a && negb (marks a)
  | ToTwoState a => is_packed e && same_shape a e
  | RealBin _ a b => is_real e && is_real a && is_real b
  | RealUn _ a => is_real e && is_real a
  | Clog2 a => is_packed a && (e_width e =? 32)%nat && negb (e_signed e)
  | Other _ _ => true
  end.

Fixpoint wt (e : IrExpr) : bool :=
  node_ok e && u32 (e_width e) &&
  (let '(mkExpr k _ _ _) := e in
   match k with
   | Const _ | Fill _ => true
   | Bin _ a b | RealBin _ a b => wt a && wt b
   | Un _ a | PartSel a _ _ | CastToReal a _ | CastToPacked a | Resize a | Convert a | ToTwoState a
   | RealUn _ a | Clog2 a => wt a
   | Mux x a b | ArrayMux x a b _ | StructMux x a b _ | IdxPartSel x a b _ => wt x && wt a && wt b
   | Predicate l | Concat l | Replicate _ l | Other _ l => forallb wt l
   end).
