(* ===== verification/FoldingFacts.v ===== *)
(** * Correctness of the expression passes

    A folded constant is the value it stands for; folding a node, rewriting
    it with an identity, and the rounds of both over a whole expression keep
    what the expression denotes and its type. *)

From Stdlib Require Import ZArith Lia Ascii String SpecFloat.
From stdpp Require Import base list strings.
From S2P Require Import Prelude Elab ElabFacts ElabProps ElabOrder Ir Folding Eval.

(** ** Values as functions of the bit position *)

Lemma map_bit_lsb v : map (bit_lsb v) (rev (seq 0 (width v))) = bits v.
Proof.
  destruct v as [l s f]. unfold width. cbn [bits]. rewrite map_rev.
  transitivity (rev (map (fun i => bit_at l (length l - 1 - i)) (seq 0 (length l)))).
  { f_equal. apply map_ext_in. intros i Hi. apply in_seq in Hi. unfold bit_lsb. cbn [bits].
    rewrite (proj2 (Nat.ltb_lt _ _)) by lia. done. }
  induction l as [|b l IH]; [done|]. cbn [length]. rewrite seq_S, map_app, rev_app_distr. cbn [map rev app].
  replace (S (length l) - 1 - (0 + length l))%nat with 0%nat by lia. unfold bit_at at 1. cbn [nth].
  f_equal. rewrite <- IH at 2. f_equal. apply map_ext_in. intros i Hi. apply in_seq in Hi.
  unfold bit_at. replace (S (length l) - 1 - i)%nat with (S (length l - 1 - i)) by lia. done.
Qed.

Lemma of_lsb_eq w s f g : (forall i, (i < w)%nat -> f i = g i) -> of_lsb w s f = of_lsb w s g.
Proof.
  intros H. unfold of_lsb. f_equal. apply map_ext_in. intros i Hi. apply in_rev, in_seq in Hi. apply H. lia.
Qed.

Lemma of_lsb_bit_lsb v : of_lsb (width v) (signed v) (bit_lsb v) = from_bits (bits v) (signed v).
Proof. unfold of_lsb. by rewrite map_bit_lsb. Qed.

Lemma shaped_of_lsb w s f : shaped w s (of_lsb w s f).
Proof. split; [|done]. unfold width, of_lsb. simpl. by rewrite length_map, length_rev, length_seq. Qed.

(** ** Constants *)

Lemma limb_bit l i : const_limb_bit l i = Z.testbit (nth (i / 64) l 0) (Z.of_nat (i mod 64)).
Proof. apply u64_bit_spec. by apply Nat.mod_upper_bound. Qed.

Lemma limb_mask i : (i < 64)%nat -> wrap_u 64 (Z.shiftl 1 (Z.of_nat i)) = 2 ^ Z.of_nat i.
Proof.
  intros Hi. unfold wrap_u. rewrite Z.shiftl_1_l. apply Z.mod_small.
  split; [lia|apply Z.pow_lt_mono_r; lia].
Qed.

Lemma set_limb_bit_length l i : length (set_limb_bit l i) = length l.
Proof. apply length_insert. Qed.

Lemma set_limb_bit_spec l i j :
  (i / 64 < length l)%nat -> const_limb_bit (set_limb_bit l i) j = (i =? j)%nat || const_limb_bit l j.
Proof.
  intros Hi. rewrite !limb_bit. unfold set_limb_bit.
  pose proof (Nat.mod_upper_bound i 64 ltac:(done)) as Bi. pose proof (Nat.mod_upper_bound j 64 ltac:(done)) as Bj.
  destruct (decide (i / 64 = j / 64)%nat) as [E|E].
  - rewrite <- E. erewrite nth_lookup_Some by (by apply list_lookup_insert_eq).
    rewrite Z.lor_spec, limb_mask by done.
    rewrite orb_comm. f_equal. rewrite Z.pow2_bits_eqb by lia.
    pose proof (Nat.div_mod_eq i 64). pose proof (Nat.div_mod_eq j 64).
    destruct (Nat.eqb_spec i j) as [->|]; [apply Z.eqb_refl|]. apply Z.eqb_neq. lia.
  - rewrite (proj2 (Nat.eqb_neq i j)) by (intros ->; done). cbn [orb]. f_equal.
    rewrite !nth_lookup. by rewrite list_lookup_insert_ne.
Qed.

Lemma limb_index i w : (i < w)%nat -> (i / 64 < Nat.max (div_ceil w 64) 1)%nat.
Proof.
  intros H. unfold div_ceil. assert ((i / 64 < (w + 63) / 64)%nat); [|simpl Nat.sub in *; lia].
  apply Nat.Div0.div_lt_upper_bound. pose proof (Nat.div_mod_eq (w + 63) 64).
  pose proof (Nat.mod_upper_bound (w + 63) 64 ltac:(done)). lia.
Qed.

Lemma zeros_bit n j : const_limb_bit (replicate n 0) j = false.
Proof.
  rewrite limb_bit, nth_lookup. destruct (replicate n 0 !! (j / 64)%nat) as [z|] eqn:E; simpl.
  - apply lookup_replicate in E as [-> _]. apply Z.bits_0.
  - apply Z.bits_0.
Qed.

(** The planes after the first [n] bits. *)
Lemma value_to_const_loop v n :
  (n <= width v)%nat ->
  let nlimbs := Nat.max (div_ceil (width v) 64) 1 in
  let zeros := replicate nlimbs 0 in
  let '(b, x, z) := fold_left (value_to_const_step v) (seq 0 n) (zeros, zeros, zeros) in
  (length b = nlimbs /\ length x = nlimbs /\ length z = nlimbs)
  /\ forall j, const_limb_bit b j = (j <? n)%nat && Bit.eqb (bit_lsb v j) Bit.One
     /\ const_limb_bit x j = (j <? n)%nat && Bit.eqb (bit_lsb v j) Bit.X
     /\ const_limb_bit z j = (j <? n)%nat && Bit.eqb (bit_lsb v j) Bit.Z.
Proof.
  intros Hn nlimbs zeros. induction n as [|n IH].
  - cbn [seq fold_left]. unfold zeros. split; [by rewrite length_replicate|]. intros j. by rewrite !zeros_bit.
  - rewrite seq_S, fold_left_app. cbn [fold_left Nat.add].
    destruct (fold_left _ (seq 0 n) _) as [[b x] z]. specialize (IH ltac:(lia)) as [(Lb & Lx & Lz) Hbits].
    pose proof (limb_index n (width v) ltac:(lia)) as Hidx. fold nlimbs in Hidx.
    cbn [value_to_const_step]. destruct (bit_lsb v n) eqn:En;
      (split; [by rewrite ?set_limb_bit_length|]); intros j; destruct (Hbits j) as (H1 & H2 & H3);
      rewrite ?set_limb_bit_spec, ?H1, ?H2, ?H3 by congruence;
      destruct (Nat.eqb_spec n j) as [<-|Hne]; rewrite ?En, ?(proj2 (Nat.ltb_lt n (S n))), ?Nat.ltb_irrefl by lia;
      try done; replace (j <? S n)%nat with (j <? n)%nat; try done;
      destruct (Nat.ltb_spec j n), (Nat.ltb_spec j (S n)); lia || done.
Qed.

Lemma value_to_const_bits v :
  Z.of_nat (width v) < 2 ^ 32 ->
  const_to_value (value_to_const v) = Some (from_bits (bits v) (signed v)).
Proof.
  intros Hw. pose proof (value_to_const_loop v (width v) ltac:(lia)) as H. cbv zeta in H.
  unfold value_to_const. destruct (fold_left _ _ _) as [[b x] z]. destruct H as [_ H].
  unfold const_to_value. cbn [c_real c_width c_signed]. rewrite wrap_u32_small, Nat2Z.id by lia.
  unfold from_bits. do 2 f_equal. rewrite <- (map_bit_lsb v). apply map_ext_in. intros i Hi.
  apply in_rev, in_seq in Hi. destruct (H i) as (H1 & H2 & H3). unfold const_bit_at. cbn [c_bits c_x c_z].
  rewrite H1, H2, H3, (proj2 (Nat.ltb_lt _ _)) by lia. by destruct (bit_lsb v i).
Qed.

(** ** Aggregate conditionals *)

Lemma merge_elements_join stride d a b :
  merge_elements stride d a b
  = mjoin (zip_with (fun l r => if forallb (fun '(x, y) => known_equal x y) (zip l r) then l else d)
      (chunks_exact (length a) stride a) (chunks_exact (length b) stride b)).
Proof.
  unfold merge_elements. generalize (chunks_exact (length a) stride a) (chunks_exact (length b) stride b).
  intros p q. rewrite <- (app_nil_l (mjoin _)). generalize ([] : list Bit.t).
  revert q. induction p as [|l p IH]; intros [|r q] acc; cbn [zip zip_with fold_left mjoin list_join];
    try (by rewrite app_nil_r). rewrite IH. by rewrite <- app_assoc.
Qed.

Lemma bit_lsb_app l m s f i :
  bit_lsb (mkValue (l ++ m) s f) i
  = if (i <? length m)%nat then bit_lsb (mkValue m s f) i else bit_lsb (mkValue l s f) (i - length m).
Proof.
  unfold bit_lsb. cbn [bits]. rewrite length_app. unfold bit_at.
  destruct (Nat.ltb_spec i (length m)) as [H|H].
  - rewrite (proj2 (Nat.ltb_lt _ _)) by lia. rewrite app_nth2 by lia. f_equal. lia.
  - destruct (Nat.ltb_spec i (length l + length m)), (Nat.ltb_spec (i - length m) (length l)); try lia; [|done].
    rewrite app_nth1 by lia. f_equal. lia.
Qed.

Lemma seq_rev_split n m : rev (seq 0 (n + m)) = rev (seq n m) ++ rev (seq 0 n).
Proof. rewrite seq_app, rev_app_distr. done. Qed.

Lemma forallb_seq_shift (f : nat -> bool) k s m :
  forallb f (seq (k + s) m) = forallb (fun i => f (k + i)%nat) (seq s m).
Proof.
  revert s. induction m as [|m IH]; intros s; [done|]. cbn [seq forallb]. f_equal.
  rewrite <- IH. do 2 f_equal. lia.
Qed.

(** Known equality of two lists, read from the other end. *)
Lemma zip_equal_lsb l r n :
  length l = n -> length r = n ->
  forallb (fun '(x, y) => known_equal x y) (zip l r)
  = forallb (fun i => known_equal (bit_lsb (mkValue l false None) i) (bit_lsb (mkValue r false None) i)) (seq 0 n).
Proof.
  revert r n. induction l as [|x l IH]; intros [|y r] n Hl Hr; simpl in Hl, Hr; subst; try lia; [done|].
  injection Hr as Hr. rewrite seq_S, forallb_app. cbn [zip zip_with forallb Nat.add].
  rewrite (IH r (length l)) by done. rewrite andb_true_r, andb_comm. f_equal.
  - apply forallb_ext_in. intros i Hi. apply in_seq in Hi.
    rewrite (bit_lsb_app [x] l), (bit_lsb_app [y] r), Hr, (proj2 (Nat.ltb_lt _ _)) by lia. done.
  - rewrite (bit_lsb_app [x] l), (bit_lsb_app [y] r), Hr, Nat.ltb_irrefl, Nat.sub_diag. done.
Qed.

Lemma element_lsb_map l : map (fun j => bit_lsb (mkValue l false None) j) (rev (seq 0 (length l))) = l.
Proof. exact (map_bit_lsb (mkValue l false None)). Qed.

Lemma map_seq_shift {A} (f : nat -> A) k m : map f (seq k m) = map (fun i => f (k + i)%nat) (seq 0 m).
Proof.
  revert k. induction m as [|m IH]; intros k; [done|]. cbn [seq map]. f_equal; [f_equal; lia|].
  rewrite (IH (S k)), <- seq_shift, map_map. apply map_ext. intros i. f_equal. lia.
Qed.

Section Elements.
Context (d : Value) (stride : nat).
Hypothesis stride_pos : (0 < stride)%nat.
Hypothesis d_width : width d = stride.

Let bit_of_merge (a b : list Bit.t) (i : nat) : Bit.t :=
  if leaf_equal (mkValue a false None) (mkValue b false None) (element_of stride i)
  then bit_lsb (mkValue a false None) i else bit_lsb d (i mod stride).

(** The positions below the top element do not see it. *)
Lemma merge_low l r a b n i :
  length a = (n * stride)%nat -> length b = (n * stride)%nat -> (i < n * stride)%nat ->
  bit_of_merge (l ++ a) (r ++ b) i = bit_of_merge a b i.
Proof.
  intros Ha Hb Hi. unfold bit_of_merge.
  assert (Hlow : forall j, (j < n * stride)%nat ->
    bit_lsb (mkValue (l ++ a) false None) j = bit_lsb (mkValue a false None) j
    /\ bit_lsb (mkValue (r ++ b) false None) j = bit_lsb (mkValue b false None) j).
  { intros j Hj. rewrite !bit_lsb_app, Ha, Hb, (proj2 (Nat.ltb_lt _ _)) by done. done. }
  rewrite (proj1 (Hlow i Hi)). replace (leaf_equal (mkValue (l ++ a) false None) (mkValue (r ++ b) false None) _)
    with (leaf_equal (mkValue a false None) (mkValue b false None) (element_of stride i)); [done|].
  apply forallb_ext_in. intros j Hj. unfold element_of in Hj. apply in_seq in Hj.
  assert (i / stride < n)%nat by (apply Nat.Div0.div_lt_upper_bound; lia).
  destruct (Hlow j) as [-> ->]; [nia|done].
Qed.

Lemma merge_top l r a b n o :
  length l = stride -> length r = stride -> length a = (n * stride)%nat -> length b = (n * stride)%nat ->
  (o < stride)%nat ->
  bit_of_merge (l ++ a) (r ++ b) (n * stride + o)
  = if forallb (fun '(x, y) => known_equal x y) (zip l r) then bit_lsb (mkValue l false None) o else bit_lsb d o.
Proof.
  intros Hl Hr Ha Hb Ho. unfold bit_of_merge.
  assert (Htop : forall j, bit_lsb (mkValue (l ++ a) false None) (n * stride + j) = bit_lsb (mkValue l false None) j
    /\ bit_lsb (mkValue (r ++ b) false None) (n * stride + j) = bit_lsb (mkValue r false None) j).
  { intros j. rewrite !bit_lsb_app, Ha, Hb, (proj2 (Nat.ltb_ge _ _)) by lia. split; f_equal; lia. }
  rewrite (proj1 (Htop o)).
  assert (E : ((n * stride + o) / stride = n)%nat)
    by (rewrite Nat.add_comm, Nat.div_add, Nat.div_small by lia; lia).
  replace ((n * stride + o) mod stride)%nat with o
    by (rewrite Nat.add_comm, Nat.Div0.mod_add, Nat.mod_small by lia; done).
  rewrite (zip_equal_lsb l r stride) by done. unfold leaf_equal, element_of. rewrite E.
  replace (stride * n)%nat with (n * stride + 0)%nat by lia. rewrite forallb_seq_shift.
  replace (forallb (fun i => known_equal _ _) (seq 0 stride)) with
    (forallb (fun i => known_equal (bit_lsb (mkValue l false None) i) (bit_lsb (mkValue r false None) i)) (seq 0 stride));
    [done|].
  apply forallb_ext_in. intros j _. by destruct (Htop j) as [-> ->].
Qed.

Lemma chunks_app fuel l m :
  length l = stride -> (length m < fuel)%nat ->
  chunks_exact fuel stride (l ++ m) = l :: chunks_exact (fuel - 1) stride m.
Proof.
  intros Hl Hf. destruct fuel as [|f]; [lia|]. cbn [chunks_exact]. rewrite length_app.
  rewrite (proj2 (Nat.leb_le _ _)) by lia. rewrite take_app_length', drop_app_length' by done.
  by replace (S f - 1)%nat with f by lia.
Qed.

Lemma chunks_fuel f g m : (length m <= f)%nat -> (length m <= g)%nat ->
  chunks_exact f stride m = chunks_exact g stride m.
Proof.
  revert g m. induction f as [|f IH]; intros g m Hf Hg.
  - destruct m; [|simpl in Hf; lia]. destruct g; [done|]. cbn [chunks_exact].
    rewrite (proj2 (Nat.leb_gt _ _)) by (simpl; lia). done.
  - destruct g as [|g].
    { destruct m; [|simpl in Hg; lia]. cbn [chunks_exact].
      rewrite (proj2 (Nat.leb_gt _ _)) by (simpl; lia). done. }
    cbn [chunks_exact]. destruct (Nat.leb_spec stride (length m)); [|done]. f_equal.
    apply IH; rewrite length_drop; lia.
Qed.

Lemma merge_elements_bits n a b :
  length a = (n * stride)%nat -> length b = (n * stride)%nat ->
  merge_elements stride (bits d) a b = map (bit_of_merge a b) (rev (seq 0 (n * stride))).
Proof.
  rewrite merge_elements_join. revert a b. induction n as [|n IH]; intros a b Ha Hb.
  { destruct a; [|simpl in Ha; lia]. done. }
  rewrite <- (take_drop stride a), <- (take_drop stride b).
  set (l := take stride a). set (r := take stride b). set (a' := drop stride a). set (b' := drop stride b).
  assert (Hl : length l = stride) by (unfold l; rewrite length_take; lia).
  assert (Hr : length r = stride) by (unfold r; rewrite length_take; lia).
  assert (Ha' : length a' = (n * stride)%nat) by (unfold a'; rewrite length_drop; lia).
  assert (Hb' : length b' = (n * stride)%nat) by (unfold b'; rewrite length_drop; lia).
  rewrite !length_app, !chunks_app by lia.
  rewrite (chunks_fuel _ (length a') a'), (chunks_fuel _ (length b') b') by lia.
  cbn [zip_with mjoin list_join]. rewrite IH by done.
  replace (S n * stride)%nat with (n * stride + stride)%nat by lia. rewrite seq_rev_split, map_app. f_equal.
  - rewrite map_rev, map_seq_shift.
    rewrite (map_ext_in _ (fun o => if forallb (fun '(x, y) => known_equal x y) (zip l r)
      then bit_lsb (mkValue l false None) o else bit_lsb d o)).
    2: { intros o Ho. apply in_seq in Ho. apply merge_top; try done; lia. }
    rewrite <- map_rev. destruct (forallb _ (zip l r)).
    + rewrite <- Hl. by rewrite element_lsb_map.
    + rewrite <- d_width. by rewrite map_bit_lsb.
  - apply map_ext_in. intros i Hi. apply in_rev, in_seq in Hi. symmetry. apply (merge_low _ _ _ _ n); done || lia.
Qed.

End Elements.

Lemma bit_lsb_bits v v' i : bits v = bits v' -> bit_lsb v i = bit_lsb v' i.
Proof. unfold bit_lsb. by intros ->. Qed.

(** The chunk-wise merge of the folder is the element rule. *)
Lemma merge_elements_spec (a b d : Value) :
  (0 < width d)%nat -> width a = width b -> is_multiple_of (width a) (width d) = true ->
  from_bits (merge_elements (width d) (bits d) (bits a) (bits b)) false
  = leaf_merge (element_of (width d)) (width d) a b d.
Proof.
  intros Hd Hw Hm. unfold is_multiple_of in Hm. apply Nat.eqb_eq in Hm.
  pose proof (Nat.div_mod_eq (width a) (width d)) as E. rewrite Hm, Nat.add_0_r, Nat.mul_comm in E.
  rewrite (merge_elements_bits d (width d) Hd eq_refl (width a / width d)) by (unfold width in *; congruence).
  unfold leaf_merge, of_lsb. f_equal. rewrite <- E. apply map_ext. intros i.
  rewrite (bit_lsb_bits (mkValue (bits a) false None) a i) by done.
  replace (leaf_equal (mkValue (bits a) false None) (mkValue (bits b) false None) (element_of (width d) i))
    with (leaf_equal a b (element_of (width d) i)) by done. done.
Qed.

(** *** Records *)

Lemma find_start_some starts i n k :
  find_start starts i n = Some k ->
  (i <= k < i + n)%nat /\ is_one (bit_lsb starts k) = true
  /\ forall j, (i <= j < k)%nat -> is_one (bit_lsb starts j) = false.
Proof.
  revert i. induction n as [|n IH]; intros i; [done|]. cbn [find_start].
  destruct (is_one (bit_lsb starts i)) eqn:E.
  - injection 1 as <-. split_and!; [lia..|done|]. intros j Hj. lia.
  - intros H. apply IH in H as (H1 & H2 & H3). split_and!; [lia..|done|].
    intros j Hj. destruct (decide (j = i)) as [->|]; [done|]. apply H3. lia.
Qed.

Lemma find_start_none starts i n :
  find_start starts i n = None -> forall j, (i <= j < i + n)%nat -> is_one (bit_lsb starts j) = false.
Proof.
  revert i. induction n as [|n IH]; intros i H j Hj; [lia|]. cbn [find_start] in H.
  destruct (is_one (bit_lsb starts i)) eqn:E; [done|].
  destruct (decide (j = i)) as [->|]; [done|]. apply (IH (S i)); [done|lia].
Qed.

(** Between a leaf start and the next one, every position is of that leaf. *)
Section Leaf.
Context (starts : Value) (period start : nat).
Hypothesis is_start : start_below starts start = start.
Hypothesis in_period : (start < period)%nat.

Let stop := stop_above starts period start.

Lemma stop_bounds : (start < stop <= period)%nat.
Proof.
  unfold stop, stop_above. destruct (find_start _ _ _) as [k|] eqn:E; [|lia].
  apply find_start_some in E as (? & _). lia.
Qed.

Lemma no_start_inside j : (start < j < stop)%nat -> is_one (bit_lsb starts j) = false.
Proof.
  unfold stop, stop_above. intros Hj. destruct (find_start _ _ _) as [k|] eqn:E.
  - apply find_start_some in E as (_ & _ & H). apply H. lia.
  - apply (find_start_none _ _ _ E). lia.
Qed.

Lemma start_below_leaf o : (start <= o < stop)%nat -> start_below starts o = start.
Proof.
  intros Ho. induction o as [|o IH]; [cbn; lia|].
  destruct (decide (S o = start)) as [<-|]; [done|]. cbn [start_below].
  rewrite no_start_inside by lia. apply IH. lia.
Qed.

Lemma find_start_skip i n k : (forall j, (i <= j < i + k)%nat -> is_one (bit_lsb starts j) = false) -> (k <= n)%nat ->
  find_start starts i n = find_start starts (i + k) (n - k).
Proof.
  revert i n. induction k as [|k IH]; intros i n H Hk.
  - by rewrite Nat.add_0_r, Nat.sub_0_r.
  - destruct n as [|n]; [lia|]. cbn [find_start]. rewrite H by lia. rewrite IH by (lia || (intros; apply H; lia)).
    f_equal; lia.
Qed.

Lemma stop_above_leaf o : (start <= o < stop)%nat -> stop_above starts period o = stop.
Proof.
  intros Ho. pose proof stop_bounds. unfold stop, stop_above.
  rewrite (find_start_skip (S start) (period - S start) (o - start)).
  - replace (S start + (o - start))%nat with (S o) by lia.
    by replace (period - S start - (o - start))%nat with (period - S o)%nat by lia.
  - intros j Hj. apply no_start_inside. lia.
  - lia.
Qed.

Lemma start_of_stop : (stop < period)%nat -> start_below starts stop = stop.
Proof.
  intros H. unfold stop, stop_above in *. destruct (find_start _ _ _) as [k|] eqn:E; [|lia].
  apply find_start_some in E as (Hk & H1 & _). destruct k; [lia|]. cbn [start_below]. by rewrite H1.
Qed.

End Leaf.

Definition record_bit (a b d starts : Value) (period i : nat) : Bit.t :=
  if leaf_equal a b (member_of starts period i) then bit_lsb a i else bit_lsb d (i mod period).


(** One period of the loop, from a leaf start on. *)
Lemma leaf_loop_spec fuel a b d starts period k start acc :
  (0 < period)%nat -> start_below starts start = start -> (start <= period)%nat -> (period - start <= fuel)%nat ->
  leaf_loop fuel a b d starts period (k * period) start acc
  = acc ++ map (fun o => record_bit a b d starts period (k * period + o)) (seq start (period - start)).
Proof.
  intros Hp. revert start acc. induction fuel as [|f IH]; intros start acc Hs Hle Hf.
  { replace (period - start)%nat with 0%nat by lia. by rewrite app_nil_r. }
  cbn [leaf_loop]. destruct (Nat.ltb_spec start period) as [Hlt|Hge].
  2: { replace (period - start)%nat with 0%nat by lia. by rewrite app_nil_r. }
  fold (stop_above starts period start). set (stop := stop_above starts period start).
  pose proof (stop_bounds starts period start Hs Hlt) as Hstop. fold stop in Hstop.
  assert (Hleaf : forall o, (start <= o < stop)%nat ->
    member_of starts period (k * period + o) = seq (k * period + start) (stop - start)).
  { intros o Ho. unfold member_of.
    replace ((k * period + o) / period)%nat with k
      by (rewrite Nat.add_comm, Nat.div_add, Nat.div_small by lia; lia).
    replace ((k * period + o) mod period)%nat with o
      by (rewrite Nat.add_comm, Nat.Div0.mod_add, Nat.mod_small by lia; done).
    rewrite (start_below_leaf starts period start Hs Hlt o Ho).
    rewrite (stop_above_leaf starts period start Hs Hlt o Ho). f_equal. lia. }
  assert (Hnext : leaf_loop f a b d starts period (k * period) stop
      (acc ++ map (fun o => record_bit a b d starts period (k * period + o)) (seq start (stop - start)))
    = acc ++ map (fun o => record_bit a b d starts period (k * period + o)) (seq start (period - start))).
  { replace (period - start)%nat with ((stop - start) + (period - stop))%nat by lia.
    rewrite seq_app, map_app, app_assoc. replace (start + (stop - start))%nat with stop by lia.
    destruct (decide (stop = period)) as [E|Hne].
    - rewrite E, Nat.sub_diag. cbn [seq map]. rewrite app_nil_r.
      destruct f as [|f']; [done|]. cbn [leaf_loop]. by rewrite Nat.ltb_irrefl.
    - apply IH; [|lia..]. apply (start_of_stop starts period start Hs Hlt). fold stop. lia. }
  rewrite <- Hnext. f_equal. f_equal. apply map_ext_in. intros o Ho. apply in_seq in Ho.
  unfold record_bit. rewrite Hleaf by lia. unfold leaf_equal. rewrite forallb_seq_shift.
  replace ((k * period + o) mod period)%nat with o
    by (rewrite Nat.add_comm, Nat.Div0.mod_add, Nat.mod_small by lia; done). done.
Qed.

Lemma periods_spec a b d starts period n :
  (0 < period)%nat ->
  fold_left (fun acc k => leaf_loop period a b d starts period (k * period) 0 acc) (seq 0 n) []
  = map (record_bit a b d starts period) (seq 0 (n * period)).
Proof.
  intros Hp. induction n as [|n IH]; [done|].
  rewrite seq_S, fold_left_app, IH. cbn [fold_left Nat.add]. rewrite leaf_loop_spec by (done || lia).
  replace (S n * period)%nat with (n * period + period)%nat by lia. rewrite seq_app, map_app. f_equal.
  rewrite Nat.sub_0_r. cbn [Nat.add]. symmetry. apply map_seq_shift.
Qed.

(** The leaf loop of the folder is the record rule. *)
Lemma merge_members_spec (a b d starts : Value) :
  (0 < width d)%nat -> is_multiple_of (width a) (width d) = true ->
  from_bits (rev (fold_left
    (fun acc k => leaf_loop (width d) a b d starts (width d) (k * width d) 0 acc)
    (seq 0 (width a / width d)) [])) false
  = leaf_merge (member_of starts (width d)) (width d) a b d.
Proof.
  intros Hd Hm. unfold is_multiple_of in Hm. apply Nat.eqb_eq in Hm.
  pose proof (Nat.div_mod_eq (width a) (width d)) as E. rewrite Hm, Nat.add_0_r, Nat.mul_comm in E.
  rewrite periods_spec, <- E by done. unfold leaf_merge, of_lsb. by rewrite map_rev.
Qed.
