(* ===== verification/PassFacts.v ===== *)
(** * The expression passes preserve meaning and types

    Evaluation of a well-typed expression gives a value of the expression's
    type; folding a node, rewriting it with an identity, and the rounds of
    both over a whole expression keep the value and the type. *)

From Stdlib Require Import ZArith Lia Ascii String SpecFloat.
From stdpp Require Import base list strings.
From S2P Require Import Prelude Elab ElabFacts ElabProps ElabOrder Ir Folding Eval FoldingFacts.

(** ** Shapes of operator results *)

Lemma plain_shaped w s v : shaped w s v -> plain v.
Proof. by intros (_ & _ & ?). Qed.

Lemma shaped_resize_like v w s : shaped w s (resize_like_runtime v w s).
Proof.
  unfold resize_like_runtime. split_and!; [apply width_resize|apply signed_resize|by rewrite fill_resize].
Qed.

Lemma shaped_resize v w s : plain v -> shaped w s (resize v w s).
Proof. intros H. split_and!; [apply width_resize|apply signed_resize|by rewrite fill_resize]. Qed.

Lemma resize_same_width v w s : plain v -> width v = w -> resize v w s = mkValue (bits v) s None.
Proof. intros Hp Hw. unfold resize, width in *. by rewrite Hp, Hw, Nat.ltb_irrefl. Qed.

Lemma shaped_cast v w s : plain v -> shaped w s (cast v w s).
Proof.
  intros H. unfold cast. rewrite H. destruct (shaped_resize v w (signed v) H) as (? & _ & ?). by split.
Qed.

Lemma signed_un_apply op a :
  signed (un_apply op a) = match op with Neg | BitNeg => signed a | _ => false end.
Proof.
  destruct op; cbn [un_apply].
  - unfold elab.minus. destruct (is_unknown a); [done|]. apply shaped_negate_known.
  - by rewrite log_not_bit.
  - done.
  - by rewrite unary_and_bit.
  - by rewrite unary_nand_bit.
  - by rewrite unary_or_bit.
  - by rewrite unary_nor_bit.
  - by rewrite unary_xor_bit.
  - by rewrite unary_xnor_bit.
Qed.

Lemma shaped_rt_truth r : shaped 1 false (rt_truth r).
Proof. destruct r; cbn [rt_truth]; [by rewrite unary_or_bit|apply shaped_from_u64]. Qed.

Lemma shaped_rt_predicate l : shaped 1 false (rt_predicate l).
Proof.
  induction l as [|r l IH]; [apply shaped_from_u64|]. cbn [rt_predicate].
  destruct (bool_decide _); [done|apply shaped_rt_truth].
Qed.

Lemma shaped_cond sel a b :
  plain a -> plain b -> shaped (elab.max_width a b) (signed a && signed b) (elab.cond sel a b).
Proof.
  intros Ha Hb. unfold elab.cond. pose proof (logical_bit_cases sel).
  destruct (elab.logical_bit sel); try (by apply shaped_resize); [|done].
  split; [|done]. unfold width. simpl. rewrite length_zip_with.
  pose proof (width_resize a (elab.max_width a b) (signed a && signed b)) as Wa.
  pose proof (width_resize b (elab.max_width a b) (signed a && signed b)) as Wb.
  unfold width in Wa, Wb. lia.
Qed.

Lemma shaped_filled f w s : shaped w s (filled f w s).
Proof. split; [apply length_replicate|done]. Qed.

Lemma shaped_mux_bits k w s a b : shaped w s a -> shaped w s b -> shaped w s (mux_bits k a b s).
Proof.
  intros Ha Hb. destruct k; try done; (split; [|done]); destruct Ha as (Ha & _), Hb as (Hb & _);
    unfold width in *; simpl; rewrite length_zip_with; lia.
Qed.

Lemma length_concat vs : width (elab.concat vs) = foldr Nat.add 0%nat (map width vs).
Proof.
  unfold width at 1. rewrite concat_bits. induction vs as [|v vs IH]; [done|].
  cbn [map foldr]. change (mjoin (bits v :: map bits vs)) with (bits v ++ mjoin (map bits vs)).
  rewrite length_app, IH. done.
Qed.

Lemma length_repeat_bits n l : length (repeat_bits n l) = (n * length l)%nat.
Proof. induction n as [|n IH]; [done|]. simpl. rewrite length_app, IH. done. Qed.

Lemma shaped_leaf_merge f p a b d : shaped (width a) false (leaf_merge f p a b d).
Proof. apply shaped_of_lsb. Qed.

Lemma shaped_part_select v l r : shaped (Z.to_nat (Z.abs (l - r) + 1)) false (part_select v l r).
Proof.
  unfold part_select. destruct (r <=? l); [apply shaped_of_lsb|].
  split; [|done]. unfold width. simpl. by rewrite length_map, length_seq.
Qed.

Lemma shaped_idx_part_select v b w neg : shaped w false (idx_part_select v b w neg).
Proof.
  unfold idx_part_select. destruct (to_index_i64 b); [|apply shaped_all_x].
  destruct (_ || _); [apply shaped_all_x|apply shaped_of_lsb].
Qed.

Lemma shaped_clog2 a : shaped 32 false (elab.clog2 a).
Proof. rewrite clog2_spec. destruct (val_of false a); [apply shaped_of_Z|apply shaped_all_x]. Qed.

Lemma const_value_shape c : c_real c = None -> shaped (c_width c) (c_signed c) (const_value c).
Proof.
  intros H. unfold const_value, const_to_value. rewrite H. split; [|done].
  unfold width. simpl. by rewrite length_map, length_rev, length_seq.
Qed.

(** ** Children *)

Lemma wt_node e : wt e = true -> node_ok e = true /\ Z.of_nat (e_width e) < 2 ^ 32 /\ Forall (fun c => wt c = true) (children e).
Proof.
  destruct e as [k w s fl]. intros H. cbn [wt] in H. apply andb_prop in H as [H Hc].
  apply andb_prop in H as [Hn Hu]. split_and!; [done|by apply Z.ltb_lt in Hu|].
  unfold children. cbn [e_kind].
  assert (Hl : forall l, forallb wt l = true -> Forall (fun c => wt c = true) l).
  { intros l Hl. apply Forall_forall. intros x Hx. rewrite forallb_forall in Hl. apply Hl. by apply list_elem_of_In. }
  destruct k; cbn [kind_children]; try (by apply Hl);
    repeat match goal with H : _ && _ = true |- _ => apply andb_prop in H as [? ?] end;
    repeat constructor; done.
Qed.

(** The value an expression of a type has. *)
Definition has_type (w : nat) (s : bool) (r : RtVal) : Prop :=
  if (0 <? w)%nat then exists v, r = RBits v /\ shaped w s v else exists x, r = RReal x.

Lemma has_type_bits w s v : (0 <? w)%nat = true -> shaped w s v -> has_type w s (RBits v).
Proof. unfold has_type. intros -> H. by exists v. Qed.

Lemma has_type_packed w s r : (0 <? w)%nat = true -> has_type w s r -> exists v, r = RBits v /\ shaped w s v.
Proof. unfold has_type. by intros ->. Qed.

Lemma has_type_real w s x : (w =? 0)%nat = true -> has_type w s (RReal x).
Proof. intros H. apply Nat.eqb_eq in H. subst. by exists x. Qed.

Lemma same_shape_eq a e : same_shape a e = true -> e_width a = e_width e /\ e_signed a = e_signed e.
Proof.
  unfold same_shape. intros H. apply andb_prop in H as [H1 H2]. apply Nat.eqb_eq in H1.
  by apply Bool.eqb_prop in H2.
Qed.

(** Decompose a conjunction of boolean tests. *)
Ltac tests := repeat match goal with
  | H : _ && _ = true |- _ => apply andb_prop in H as [? ?]
  | H : negb _ = true |- _ => apply negb_true_iff in H
  | H : (_ =? _)%nat = true |- _ => apply Nat.eqb_eq in H
  end.

Section Passes.

Context (powf : f64 -> f64 -> f64).
Context (from_real : f64 -> nat -> bool -> Value).
Context (other : nat -> nat -> bool -> list RtVal -> RtVal).
Context (ident_visits : nat -> bool).

(** What the rest of the runtime promises: a conversion from a real and the
    expression kinds that are not modelled give values of the node's type. *)
Hypothesis from_real_shape : forall x w s, shaped w s (from_real x w s).
Hypothesis other_shape : forall tag w s l, has_type w s (other tag w s l).

Local Abbreviation eval := (eval powf from_real other).
Local Abbreviation folded := (folded powf).
Local Abbreviation fold_expr := (fold_expr powf).
Local Abbreviation ident_fuel := (ident_fuel ident_visits).
Local Abbreviation ident_expr := (ident_expr ident_visits).

Definition typed (e : IrExpr) : Prop := has_type (e_width e) (e_signed e) (eval e).

Lemma packed_value e : typed e -> is_packed e = true ->
  exists v, eval e = RBits v /\ shaped (e_width e) (e_signed e) v.
Proof. intros H Hp. by apply has_type_packed in H. Qed.

Lemma shaped_aggregate w sel a b m :
  shaped w false a -> shaped w false b -> shaped w false m -> shaped w false (aggregate_mux sel a b m).
Proof. intros. unfold aggregate_mux. by destruct (elab.logical_bit sel). Qed.

Lemma typed_parts parts :
  Forall (fun p => wt p = true -> typed p) parts -> Forall (fun c => wt c = true) parts ->
  forallb is_packed parts = true ->
  map width (map (fun p => rt_bits (eval p)) parts) = map e_width parts
  /\ Forall plain (map (fun p => rt_bits (eval p)) parts).
Proof.
  intros H. induction H as [|p parts Hp _ IH]; intros Hw Hk; [done|].
  inversion_clear Hw as [|?? Wp Wps]. cbn [forallb] in Hk. apply andb_prop in Hk as [Kp Kps].
  destruct (IH Wps Kps) as [E F]. destruct (packed_value p (Hp Wp) Kp) as (v & Ev & Sv).
  cbn [map]. rewrite Ev. cbn [rt_bits]. rewrite E. destruct Sv as (-> & _ & ?). split; [done|by constructor].
Qed.

Lemma typed_un op w s a :
  typed a -> is_packed a = true -> (0 <? w)%nat = true -> un_shape op (mkExpr (Un op a) w s None) a = true ->
  let v := un_apply op (rt_bits (eval a)) in
  has_type w s (RBits (resize_like_runtime v w (signed v))).
Proof.
  intros Ta Pa Hw Hs v. apply has_type_bits; [done|].
  destruct (packed_value a Ta Pa) as (va & Ea & Sa). subst v. rewrite Ea. cbn [rt_bits].
  rewrite signed_un_apply. replace s with (match op with Neg | BitNeg => signed va | _ => false end);
    [apply shaped_resize_like|].
  destruct Sa as (_ & -> & _).
  destruct op; cbn [un_shape] in Hs; tests; try (by apply same_shape_eq in Hs as [_ ->]); done.
Qed.

Lemma typed_aggregate w sel a b m d :
  typed a -> typed b -> (0 <? w)%nat = true -> aggregate_shape (mkExpr (Fill 0) w false None) a b d = true ->
  (width (rt_bits (eval a)) = w -> shaped w false m) ->
  has_type w false (RBits (aggregate_mux sel (rt_bits (eval a)) (rt_bits (eval b)) m)).
Proof.
  intros Ta Tb Hw Hs Hm. apply has_type_bits; [done|]. unfold aggregate_shape in Hs. tests.
  match goal with H : same_shape a _ = true |- _ => apply same_shape_eq in H as [Wa Ua] end.
  match goal with H : same_shape b _ = true |- _ => apply same_shape_eq in H as [Wb Ub] end.
  cbn [e_width e_signed] in *. unfold typed in *. rewrite Wa, Ua in Ta. rewrite Wb, Ub in Tb.
  apply has_type_packed in Ta as (va & Ea & Sa); [|done]. apply has_type_packed in Tb as (vb & Eb & Sb); [|done].
  rewrite Ea, Eb in *. cbn [rt_bits] in *. apply shaped_aggregate; [done|done|]. apply Hm. apply Sa.
Qed.

Lemma aggregate_unsigned k w s fl a b d :
  aggregate_shape (mkExpr k w s fl) a b d = true -> s = false /\ aggregate_shape (mkExpr (Fill 0) w false None) a b d = true.
Proof. unfold aggregate_shape. cbn [e_signed]. destruct s; [done|]. done. Qed.

(** A well-typed expression evaluates to a value of its type. *)
Lemma typed_mux w s k a b :
  typed a -> typed b -> (0 <? w)%nat = true -> e_width a = w -> e_width b = w ->
  shaped w s (mux_bits k (mux_arm from_real (marker a) (eval a) w s) (mux_arm from_real (marker b) (eval b) w s) s).
Proof.
  intros Ta Tb Hw Wa Wb.
  assert (Harm : forall c, typed c -> e_width c = w -> shaped w s (mux_arm from_real (marker c) (eval c) w s)).
  { intros c Tc Wc. unfold typed in Tc. rewrite Wc in Tc. apply has_type_packed in Tc as (v & -> & Sv); [|done].
    unfold mux_arm. destruct (marker c); [apply shaped_filled|]. apply shaped_resize. by eapply plain_shaped. }
  apply shaped_mux_bits; by apply Harm.
Qed.

Lemma eval_typed e : wt e = true -> typed e.
Proof.
  induction e as [e IH] using IrExpr_children_ind. intros Hwt.
  destruct (wt_node e Hwt) as (Hok & Hw & Hc). destruct e as [k w s fl].
  assert (IH' : Forall typed (children (mkExpr k w s fl))).
  { rewrite Forall_forall in *. intros c Hin. apply IH; [done|]. by apply Hc. }
  clear Hwt. change (has_type w s (eval (mkExpr k w s fl))). unfold children in *.
  cbn [e_width e_signed e_kind] in *.
  unfold node_ok in Hok. cbn [e_kind] in Hok.
  destruct k; cbn [kind_children Eval.eval] in *; rewrite ?Forall_cons in *; tests.
  - destruct (c_real c) eqn:Er; tests; [by apply has_type_real|]. cbn [e_width e_signed] in *.
    match goal with H : Bool.eqb _ _ = true |- _ => apply Bool.eqb_prop in H end.
    apply has_type_bits; [done|]. destruct (const_value_shape c Er) as (? & ? & ?). split_and!; congruence.
  - apply has_type_bits; [done|]. apply shaped_filled.
  - apply has_type_bits; [done|]. apply shaped_resize_like.
  - apply typed_un; [by apply IH'|done|done|]. by destruct op.
  - cbn [e_width e_signed] in *. subst. apply has_type_bits; [done|]. apply shaped_rt_predicate.
  - destruct IH' as (_ & Ta & Tb & _). unfold is_packed in Hok. cbn [e_width] in Hok.
    destruct (0 <? w)%nat eqn:Hp.
    + tests. rewrite (proj2 (Nat.eqb_neq w 0)) by (apply Nat.ltb_lt in Hp; lia).
      apply has_type_bits; [done|]. by apply typed_mux.
    + apply Nat.ltb_ge in Hp. replace w with 0%nat by lia. by apply has_type_real.
  - destruct IH' as (_ & Ta & Tb & _).
    match goal with H : aggregate_shape _ _ _ _ = true |- _ => apply aggregate_unsigned in H as [-> Hs] end.
    apply (typed_aggregate _ _ _ _ _ element_default); try done. intros <-. apply shaped_leaf_merge.
  - destruct IH' as (_ & Ta & Tb & _).
    match goal with H : aggregate_shape _ _ _ _ = true |- _ => apply aggregate_unsigned in H as [-> Hs] end.
    apply (typed_aggregate _ _ _ _ _ (lm_default leaves)); try done. intros <-. apply shaped_leaf_merge.
  - cbn [e_width e_signed] in *. subst s. apply has_type_bits; [done|].
    destruct (typed_parts parts) as [E _]; [|done|done|].
    { rewrite Forall_forall in *. intros x Hx _. by apply IH'. }
    split; [|done]. rewrite length_concat, E. done.
  - cbn [e_width e_signed] in *. subst s. apply has_type_bits; [done|].
    destruct (typed_parts parts) as [E _]; [|done|done|].
    { rewrite Forall_forall in *. intros x Hx _. by apply IH'. }
    split; [|done]. pose proof (length_concat (map (fun p => rt_bits (eval p)) parts)) as L.
    rewrite E in L. fold (total_width parts) in L. unfold width in L |- *. cbn [from_bits bits].
    rewrite length_repeat_bits, L.
    match goal with H : (_ =? _) = true |- _ => apply Z.eqb_eq in H end.
    match goal with H : (0 <=? _) = true |- _ => apply Z.leb_le in H end. nia.
  - cbn [e_width e_signed] in *. subst s. apply has_type_bits; [done|].
    match goal with H : (_ =? _) = true |- _ => apply Z.eqb_eq in H end.
    replace w with (Z.to_nat (Z.abs (left - right) + 1)) by lia. apply shaped_part_select.
  - cbn [e_width e_signed] in *. subst s. apply has_type_bits; [done|]. apply shaped_idx_part_select.
  - by apply has_type_real.
  - apply has_type_bits; [done|]. destruct IH' as (Ta & _). unfold typed, has_type in Ta.
    destruct (0 <? e_width a)%nat; [destruct Ta as (v & -> & Sv)|destruct Ta as (x & ->); apply from_real_shape].
    apply shaped_resize. by eapply plain_shaped.
  - apply has_type_bits; [done|]. destruct IH' as (Ta & _). destruct (packed_value a Ta) as (va & -> & Sa); [done|].
    apply shaped_resize. by eapply plain_shaped.
  - apply has_type_bits; [done|]. destruct IH' as (Ta & _). destruct (packed_value a Ta) as (va & -> & Sa); [done|].
    destruct (marker a); [apply shaped_filled|]. apply shaped_cast. by eapply plain_shaped.
  - apply has_type_bits; [done|]. destruct IH' as (Ta & _).
    match goal with H : same_shape _ _ = true |- _ => apply same_shape_eq in H as [Wa Ua] end.
    cbn [e_width e_signed] in *. unfold typed in Ta. rewrite Wa, Ua in Ta.
    apply has_type_packed in Ta as (va & -> & Hwa & Hsa & Hfa); [|done].
    split; [|done]. unfold width in *. simpl. by rewrite length_map.
  - by apply has_type_real.
  - by apply has_type_real.
  - cbn [e_width e_signed] in *. subst. apply has_type_bits; [done|]. apply shaped_clog2.
  - apply other_shape.
Qed.

(** ** Folding *)

Lemma as_packed_eval a v : as_packed_const a = Some v -> eval a = RBits v.
Proof.
  destruct a as [k w s fl]. unfold as_packed_const. cbn [e_kind]. destruct k; try done.
  intros H. cbn [Eval.eval]. unfold const_value. rewrite H.
  unfold const_to_value in H. by destruct (c_real c).
Qed.

Lemma real_of_eval a x : real_of a = Some x -> eval a = RReal x.
Proof.
  destruct a as [k w s fl]. unfold real_of. cbn [e_kind]. destruct k; try done.
  intros H. cbn [Eval.eval]. by rewrite H.
Qed.

Lemma mapM_eval parts vals :
  mapM as_packed_const parts = Some vals -> map (fun p => rt_bits (eval p)) parts = vals.
Proof.
  revert vals. induction parts as [|p parts IH]; intros vals H; [by injection H as <-|].
  cbn [mapM] in H. destruct (as_packed_const p) as [v|] eqn:E; [|done]. cbn in H.
  destruct (mapM as_packed_const parts) as [vs|]; [|done]. injection H as <-.
  cbn [map]. by rewrite (as_packed_eval p v E), (IH vs eq_refl).
Qed.

Lemma contains_replicate b n c : elab.contains b (from_bits (replicate n c) false) = (0 <? n)%nat && Bit.eqb b c.
Proof.
  induction n as [|n IH]; [done|]. unfold elab.contains, from_bits in *. cbn [bits replicate existsb] in *.
  rewrite IH. by destruct n, b, c.
Qed.

Lemma unknown_replicate n c s f : is_unknown (mkValue (replicate n c) s f) = (0 <? n)%nat && bit_unknown c.
Proof.
  induction n as [|n IH]; [done|]. unfold is_unknown in *. cbn [bits replicate existsb] in *.
  rewrite IH. by destruct n, c.
Qed.

Lemma fill_truth w s f :
  (0 <? w)%nat = true -> 0 <= f <= 3 ->
  rt_truth (RBits (filled f w s))
  = from_bits [if f =? 0 then Bit.Zero else if f =? 1 then Bit.One else Bit.X] false.
Proof.
  intros Hw Hf. unfold filled. cbn [rt_truth]. rewrite unary_or_bit. unfold one_bit. do 2 f_equal.
  unfold elab.logical_bit. change (elab.contains Bit.One _) with (elab.contains Bit.One (from_bits (replicate w (fill_bit f)) false)).
  unfold from_bits at 2. rewrite contains_replicate, unknown_replicate, Hw.
  assert (f = 0 \/ f = 1 \/ f = 2 \/ f = 3) as [-> | [-> | [-> | ->]]] by lia; done.
Qed.

Lemma clause_truth_eval c t : wt c = true -> clause_truth c = Some t -> rt_truth (eval c) = t.
Proof.
  intros Hwt. unfold clause_truth.
  assert (Hgen : match as_packed_const c with
    | Some v => Some (elab.unary_or v)
    | None => r ← real_of c; Some (from_u64 (Z.b2z (f64_nonzero r)) 1 false)
    end = Some t -> rt_truth (eval c) = t).
  { destruct (as_packed_const c) as [v|] eqn:E.
    - injection 1 as <-. by rewrite (as_packed_eval c v E).
    - destruct (real_of c) as [r|] eqn:Er; [|done]. cbn. injection 1 as <-. by rewrite (real_of_eval c r Er). }
  destruct c as [k w s fl]. cbn [e_kind] in *. destruct k; try exact Hgen.
  destruct (wt_node _ Hwt) as (Hok & _). unfold node_ok in Hok. cbn [e_kind] in Hok. tests.
  destruct ((0 <=? f) && (f <=? 3)) eqn:Ef; [|exact Hgen]. injection 1 as <-.
  apply andb_prop in Ef as [E0 E3]. apply Z.leb_le in E0, E3. apply fill_truth; [done|lia].
Qed.

Lemma predicate_eval l v :
  Forall (fun c => wt c = true) l -> predicate_loop l = Some v -> rt_predicate (map eval l) = v.
Proof.
  intros Hl. induction Hl as [|c l Hc _ IH]; cbn [predicate_loop map rt_predicate]; [by injection 1|].
  destruct (clause_truth c) as [t|] eqn:E; [|done]. cbn. rewrite (clause_truth_eval c t Hc E).
  destruct (decide (head (bits t) = Some Bit.One)) as [D|D].
  - rewrite (bool_decide_eq_false_2 (head (bits t) <> _)), bool_decide_eq_true_2 by (done || by intros N). exact IH.
  - rewrite bool_decide_eq_true_2, bool_decide_eq_false_2 by done. by injection 1.
Qed.

Lemma const_value_some c v : const_to_value c = Some v -> const_value c = v.
Proof. unfold const_value. by intros ->. Qed.

(** The three verdicts of a constant selector. *)
Lemma selector_cases sel :
  elab.logical_bit sel = if elab.contains Bit.One sel then Bit.One else if negb (is_unknown sel) then Bit.Zero else Bit.X.
Proof. unfold elab.logical_bit. by destruct (elab.contains _ _), (is_unknown sel). Qed.

Lemma array_mux_eval sel a b d v :
  fold_array_mux sel a b d = Some v ->
  aggregate_mux (rt_bits (eval sel)) (rt_bits (eval a)) (rt_bits (eval b))
    (leaf_merge (element_of (width (const_value d))) (width (const_value d)) (rt_bits (eval a)) (rt_bits (eval b)) (const_value d))
  = v.
Proof.
  unfold fold_array_mux. destruct (as_packed_const sel) as [vs|] eqn:Es; [|done]. cbn.
  rewrite (as_packed_eval sel vs Es). cbn [rt_bits]. unfold aggregate_mux. rewrite selector_cases.
  destruct (elab.contains Bit.One vs); [intros E; by rewrite (as_packed_eval a v E)|].
  destruct (negb (is_unknown vs)); [intros E; by rewrite (as_packed_eval b v E)|].
  destruct (as_packed_const a) as [va|] eqn:Ea; [|done]. cbn.
  destruct (as_packed_const b) as [vb|] eqn:Eb; [|done]. cbn.
  destruct (const_to_value d) as [vd|] eqn:Ed; [|done]. cbn.
  rewrite (as_packed_eval a va Ea), (as_packed_eval b vb Eb), (const_value_some d vd Ed). cbn [rt_bits].
  destruct (Nat.eqb_spec (width vd) 0); [done|]. destruct (Nat.eqb_spec (width va) (width vb)); [|done].
  destruct (is_multiple_of (width va) (width vd)) eqn:Em; [|done]. cbn. injection 1 as <-.
  symmetry. apply merge_elements_spec; [lia|done|done].
Qed.

Lemma struct_mux_eval sel a b l v :
  fold_struct_mux sel a b l = Some v ->
  let d := const_value (lm_default l) in
  aggregate_mux (rt_bits (eval sel)) (rt_bits (eval a)) (rt_bits (eval b))
    (leaf_merge (member_of (const_value (lm_starts l)) (width d)) (width d) (rt_bits (eval a)) (rt_bits (eval b)) d)
  = v.
Proof.
  unfold fold_struct_mux. destruct (as_packed_const sel) as [vs|] eqn:Es; [|done]. cbn.
  rewrite (as_packed_eval sel vs Es). cbn [rt_bits]. unfold aggregate_mux. rewrite selector_cases.
  destruct (elab.contains Bit.One vs); [intros E; by rewrite (as_packed_eval a v E)|].
  destruct (negb (is_unknown vs)); [intros E; by rewrite (as_packed_eval b v E)|].
  destruct (as_packed_const a) as [va|] eqn:Ea; [|done]. cbn.
  destruct (as_packed_const b) as [vb|] eqn:Eb; [|done]. cbn.
  destruct (const_to_value (lm_default l)) as [vd|] eqn:Ed; [|done]. cbn.
  destruct (const_to_value (lm_starts l)) as [vt|] eqn:Et; [|done]. cbn.
  rewrite (as_packed_eval a va Ea), (as_packed_eval b vb Eb), (const_value_some _ vd Ed), (const_value_some _ vt Et).
  cbn [rt_bits]. destruct (Nat.eqb_spec (width vd) 0); [done|].
  destruct (Nat.eqb_spec (width vt) (width vd)); [|done].
  destruct (Nat.eqb_spec (width va) (width vb)); [|done].
  destruct (is_multiple_of (width va) (width vd)) eqn:Em; [|done]. cbn. injection 1 as <-.
  symmetry. apply merge_members_spec; [lia|done].
Qed.

(** A packed constant of a well-typed expression. *)
Lemma packed_const_facts a v :
  wt a = true -> as_packed_const a = Some v ->
  is_packed a = true /\ shaped (e_width a) (e_signed a) v
  /\ forall f, marker a = Some f -> bits v = replicate (e_width a) (fill_bit f).
Proof.
  intros Hwt Ha. destruct (wt_node a Hwt) as (Hn & _ & _). destruct a as [k w s fl].
  unfold as_packed_const, node_ok, marker in *. cbn [e_kind e_width e_signed] in *. destruct k; try done.
  pose proof (const_value_some c v Ha) as Hv. destruct (c_real c) eqn:Er.
  { unfold const_to_value in Ha. by rewrite Er in Ha. }
  tests. match goal with H : Bool.eqb _ _ = true |- _ => apply Bool.eqb_prop in H end.
  split_and!; [done| |].
  - destruct (const_value_shape c Er) as (? & ? & ?). split_and!; congruence.
  - intros f Hf. match goal with H : fill_ok c = true |- _ => unfold fill_ok in H; rewrite Hf in H; apply bool_decide_eq_true_1 in H end.
    congruence.
Qed.

Lemma mux_arm_const a v w s :
  wt a = true -> as_packed_const a = Some v -> e_width a = w ->
  mux_arm from_real (marker a) (RBits v) w s = mkValue (bits v) s None.
Proof.
  intros Hwt Ha <-. destruct (packed_const_facts a v Hwt Ha) as (_ & (Hw & _ & Hf) & Hm).
  unfold mux_arm. destruct (marker a) as [f|]; [|by apply resize_same_width].
  unfold filled, from_bits. by rewrite (Hm f eq_refl).
Qed.

Lemma cond_mux vs va vb w s :
  plain va -> plain vb -> width va = w -> width vb = w ->
  resize (elab.cond vs va vb) w s
  = mux_bits (elab.logical_bit vs) (mkValue (bits va) s None) (mkValue (bits vb) s None) s.
Proof.
  intros Pa Pb Wa Wb. unfold elab.cond, elab.max_width. rewrite Wa, Wb, Nat.max_id.
  rewrite (resize_same_width va), (resize_same_width vb) by done.
  destruct (elab.logical_bit vs); cbn [mux_bits bits];
    (rewrite resize_same_width; [done|done|]); try done;
    unfold width in *; cbn [bits from_bits]; rewrite length_zip_with; lia.
Qed.

Lemma mux_folded sel a b vs va vb w s fl :
  wt (mkExpr (Mux sel a b) w s fl) = true ->
  as_packed_const sel = Some vs -> as_packed_const a = Some va -> as_packed_const b = Some vb ->
  eval (mkExpr (Mux sel a b) w s fl) = RBits (resize (elab.cond vs va vb) w s).
Proof.
  intros Hwt Hs Ha Hb. destruct (wt_node _ Hwt) as (Hn & _ & Hc). unfold children, node_ok in *.
  cbn [e_kind kind_children] in *. rewrite !Forall_cons in Hc. destruct Hc as (_ & Wa & Wb & _).
  destruct (packed_const_facts a va Wa Ha) as (Pa & (Ea & _ & Fa) & _).
  destruct (packed_const_facts b vb Wb Hb) as (Pb & (Eb & _ & Fb) & _).
  unfold is_packed, is_real in *. cbn [e_width] in *. destruct (Nat.ltb_spec 0 w) as [Hw|Hw].
  - tests. cbn [Eval.eval]. rewrite (proj2 (Nat.eqb_neq w 0)) by lia.
    rewrite (as_packed_eval sel vs Hs), (as_packed_eval a va Ha), (as_packed_eval b vb Hb). cbn [rt_condition].
    rewrite (mux_arm_const a va), (mux_arm_const b vb) by done. by rewrite cond_mux by congruence.
  - apply Nat.ltb_lt in Pa, Pb. apply orb_prop in Hn as [Hn|Hn]; apply Nat.eqb_eq in Hn; lia.
Qed.

(** A folded node is the value of the node. *)
Lemma folded_sound e r :
  wt e = true -> folded e = Some r ->
  eval e = match r with FoldedBits v => RBits v | FoldedReal x => RReal x end.
Proof.
  intros Hwt. destruct (wt_node e Hwt) as (Hn & _ & Hc). destruct e as [k w s fl].
  unfold Folding.folded, children in *. cbn [e_kind e_width e_signed] in *.
  destruct k as [| |op a b|op a|clauses|sel a b|sel a b d|sel a b leaves|parts|n parts| | | | | |a| | | | |]; try done.
  all: cbn [kind_children] in *.
  all: lazymatch goal with
  | |- context [elab.cond] =>
      destruct (as_packed_const sel) eqn:Es; [|done]; destruct (as_packed_const a) eqn:Ea; [|done];
      destruct (as_packed_const b) eqn:Eb; [|done]; injection 1 as <-; by apply mux_folded
  | _ => cbn [Eval.eval]
  end;
    repeat match goal with
    | |- context [as_packed_const ?a ≫= _] =>
        let E := fresh "E" in destruct (as_packed_const a) eqn:E; [|done];
        apply as_packed_eval in E; rewrite E; cbn [mbind option_bind rt_bits]
    | |- context [real_of ?a ≫= _] =>
        let E := fresh "E" in destruct (real_of a) eqn:E; [|done];
        apply real_of_eval in E; rewrite E; cbn [mbind option_bind rt_real]
    | |- context [mapM as_packed_const ?l ≫= _] =>
        let E := fresh "E" in destruct (mapM as_packed_const l) eqn:E; [|done];
        apply mapM_eval in E; rewrite E; cbn [mbind option_bind]
    end; try (by injection 1 as <-).
  - unfold bin_value. destruct (_ && _); [done|]. cbn. by injection 1 as <-.
  - unfold fold_predicate. destruct clauses as [|c l]; [done|].
    destruct (predicate_loop (c :: l)) as [v|] eqn:E; [|done]. cbn [mbind option_bind]. injection 1 as <-.
    by rewrite (predicate_eval _ v Hc E).
  - destruct (fold_array_mux sel a b d) as [v|] eqn:E; [|done]. cbn [mbind option_bind].
    injection 1 as <-. by rewrite (array_mux_eval _ _ _ _ _ E).
  - destruct (fold_struct_mux sel a b leaves) as [v|] eqn:E; [|done]. cbn [mbind option_bind].
    injection 1 as <-. by rewrite (struct_mux_eval _ _ _ _ _ E).
  - destruct (_ || _); [done|]. destruct (_ || _); [done|]. by injection 1 as <-.
  - unfold node_ok in Hn. cbn [e_kind] in Hn. tests. destruct (marker a) as [f|] eqn:Em; [|by injection 1 as <-]. destruct a as [ka ? ? ?].
    unfold marker in Em. cbn [e_kind marks] in *. destruct ka; try done. by rewrite Em in *.
Qed.

End Passes.
