(* ===== verification/PassProps.v ===== *)
(** * The optimiser on expressions

    Folding a node, rewriting it with an identity and the rounds of both over
    an expression keep its type and its value. *)

From Stdlib Require Import ZArith Lia Ascii String SpecFloat.
From stdpp Require Import base list strings.
From S2P Require Import Prelude Elab ElabFacts ElabProps ElabOrder Ir Folding Eval FoldingFacts PassFacts.

(** ** Values that operators leave alone *)

Lemma resize_same w s v : shaped w s v -> resize v w s = v.
Proof.
  intros (Hw & Hs & Hf). unfold resize, width in *. rewrite Hf, Hw, Nat.ltb_irrefl.
  destruct v. simpl in *. by subst.
Qed.

Lemma resize_like_same w s v : shaped w s v -> resize_like_runtime v w s = v.
Proof.
  intros H. unfold resize_like_runtime. pose proof H as (_ & _ & Hf).
  replace (mkValue (bits v) (signed v) None) with v by (destruct v; by rewrite <- Hf). by apply resize_same.
Qed.

Lemma cast_same w s v : shaped w s v -> cast v w s = v.
Proof.
  intros H. pose proof H as (_ & Hs & Hf). unfold cast. rewrite Hf, Hs, (resize_same w s v H). by destruct v; simpl in *; subst.
Qed.

(** Extending a value and cutting it back. *)
Lemma resize_grow_shrink w s v n t :
  shaped w s v -> (w <= n)%nat -> resize (resize v n t) w s = v.
Proof.
  intros (Hw & Hs & Hf) Hn.
  assert (E : bits (resize (resize v n t) w s) = bits v).
  { rewrite bits_resize_narrow; [|unfold plain; by rewrite fill_resize|by rewrite width_resize].
    rewrite width_resize, bits_resize by (done || lia). apply drop_app_length'. rewrite length_replicate. lia. }
  transitivity (from_bits (bits v) (signed v)); [|by symmetry; apply plain_value_eq].
  rewrite <- E, Hs. set (r := resize (resize v n t) w s) in *.
  replace s with (signed r) by apply signed_resize.
  apply plain_value_eq. subst r. unfold plain. by rewrite !fill_resize.
Qed.

Lemma bit_neg_involutive w s v :
  shaped w s v -> is_unknown v = false -> elab.bit_neg (elab.bit_neg v) = v.
Proof.
  intros (_ & _ & Hf) Hk. apply is_unknown_iff in Hk. destruct v as [l t f]. simpl in *. subst f.
  unfold elab.bit_neg. simpl. f_equal. rewrite map_map.
  induction Hk as [|b l Hb _ IH]; [done|]. cbn [map]. rewrite IH. f_equal. by destruct b.
Qed.

Lemma shift_zero w s v z right arith :
  shaped w s v -> (0 < w)%nat -> is_unknown z = false -> uint (bits z) = 0 -> elab.shift v z right arith = v.
Proof.
  intros (Hw & Hs & Hf) Hp Hk Hz. unfold elab.shift. rewrite Hk, shift_amount_spec, Hz.
  change (Z.min elab.usize_max 0) with 0. rewrite (proj2 (Z.leb_gt _ _)) by lia.
  change (Z.to_nat 0) with 0%nat. destruct v as [l t f]. unfold width in *. simpl in *. subst f.
  rewrite Nat.sub_0_r, firstn_all, drop_0, app_nil_r. by destruct right.
Qed.

Lemma to_u64_known v u : to_u64 v = Some u -> is_unknown v = false /\ uint (bits v) = u.
Proof.
  unfold to_u64. rewrite to_u128_spec. unfold val_of. destruct (is_unknown v) eqn:E; [done|].
  cbn [interp]. destruct (_ <? _); [|done]. cbn. unfold try_u64. destruct (_ && _); [|done]. by injection 1.
Qed.

Lemma contains_uint v : known (bits v) -> elab.contains Bit.One v = negb (uint (bits v) =? 0).
Proof.
  unfold elab.contains. intros Hk. induction Hk as [|b l Hb Hl IH]; [done|]. cbn [existsb uint].
  rewrite IH. pose proof (uint_bounds l). pose proof (pow2_pos (length l)).
  destruct b; try done; cbn [Bit.eqb is_one Z.b2z orb].
  symmetry. apply negb_true_iff, Z.eqb_neq. lia.
Qed.

Lemma logical_bit_u64 v u :
  to_u64 v = Some u -> elab.logical_bit v = if negb (u =? 0) then Bit.One else Bit.Zero.
Proof.
  intros H. apply to_u64_known in H as [Hk <-]. unfold elab.logical_bit. rewrite Hk.
  rewrite contains_uint by (by apply is_unknown_iff). by destruct (_ =? 0).
Qed.

Lemma value_to_const_shape v :
  Z.of_nat (width v) < 2 ^ 32 ->
  c_real (value_to_const v) = None /\ c_width (value_to_const v) = width v
  /\ c_signed (value_to_const v) = signed v /\ c_fill (value_to_const v) = None.
Proof.
  intros Hw. unfold value_to_const. destruct (fold_left _ _ _) as [[? ?] ?]. cbn [c_real c_width c_signed c_fill].
  rewrite wrap_u32_small by lia. by rewrite Nat2Z.id.
Qed.

(** ** Replacing an expression *)

Section Passes.

Context (powf : f64 -> f64 -> f64).
Context (from_real : f64 -> nat -> bool -> Value).
Context (other : nat -> nat -> bool -> list RtVal -> RtVal).
Context (ident_visits : nat -> bool).
Hypothesis from_real_shape : forall x w s, shaped w s (from_real x w s).
Hypothesis other_shape : forall tag w s l, has_type w s (other tag w s l).

Local Abbreviation eval := (eval powf from_real other).
Local Abbreviation folded := (folded powf).
Local Abbreviation fold_expr := (fold_expr powf).
Local Abbreviation ident_children := (ident_children ident_visits).
Local Abbreviation ident_loop := (ident_loop ident_visits).
Local Abbreviation ident_fuel := (ident_fuel ident_visits).
Local Abbreviation ident_expr := (ident_expr ident_visits).

(** [e'] can stand for [e]: it is well typed at the same type, has the same
    value and no new fill marker. *)
Definition keeps (e e' : IrExpr) : Prop :=
  wt e' = true /\ e_width e' = e_width e /\ e_signed e' = e_signed e /\ eval e' = eval e
  /\ (marks e = false -> marks e' = false).

Lemma keeps_refl e : wt e = true -> keeps e e.
Proof. by intros. Qed.

Lemma keeps_trans e1 e2 e3 : keeps e1 e2 -> keeps e2 e3 -> keeps e1 e3.
Proof. intros (_ & ? & ? & ? & ?) (? & ? & ? & ? & ?). split_and!; try congruence. auto. Qed.

Lemma keeps_packed a b : keeps a b -> is_packed b = is_packed a /\ is_real b = is_real a.
Proof. unfold is_packed, is_real. by intros (_ & -> & _). Qed.

Lemma keeps_shape e a b : keeps a b -> same_shape b e = same_shape a e.
Proof. unfold same_shape. by intros (_ & -> & -> & _). Qed.

Lemma keeps_list f l :
  Forall (fun c => keeps c (f c)) l ->
  forallb wt (map f l) = true /\ map e_width (map f l) = map e_width l
  /\ forallb is_packed (map f l) = forallb is_packed l /\ map eval (map f l) = map eval l
  /\ (existsb marks l = false -> existsb marks (map f l) = false).
Proof.
  intros H. induction H as [|c l Hc _ (H1 & H2 & H3 & H4 & H5)]; [done|]. cbn [map forallb existsb].
  destruct (keeps_packed _ _ Hc) as [-> _]. destruct Hc as (-> & -> & _ & -> & Hm).
  rewrite H1, H2, H3, H4. split_and!; try done. intros [? ?]%orb_false_iff. by rewrite Hm, H5.
Qed.

(** An arm of a packed conditional, marked or not. *)
Lemma mux_arm_eval a w s :
  wt a = true -> e_width a = w -> (0 < w)%nat ->
  mux_arm from_real (marker a) (eval a) w s = mkValue (bits (rt_bits (eval a))) s None.
Proof.
  intros Hwt <- Hp. apply Nat.ltb_lt in Hp. destruct (marker a) as [f|] eqn:Em.
  - destruct (wt_node a Hwt) as (Hn & _ & _). destruct a as [k w t fl]. unfold marker, node_ok in *. cbn [e_kind e_width mux_arm] in *.
    destruct k as [c|f'| | | | | | | | | | | | | | | | | | |]; try done; cbn [Eval.eval].
    + destruct (c_real c) eqn:Er; tests; [by rewrite Em in *|]. cbn [rt_bits e_width] in *. subst w.
      match goal with H : fill_ok c = true |- _ => unfold fill_ok in H; rewrite Em in H; apply bool_decide_eq_true_1 in H; by rewrite H end.
    + by injection Em as ->.
  - destruct (packed_value powf from_real other a) as (v & -> & Sv); [by apply eval_typed|done|].
    cbn [mux_arm rt_bits]. apply resize_same_width; apply Sv.
Qed.

Lemma marks_marker a : marks a = false -> marker a = None.
Proof. destruct a as [k w s fl]. unfold marker. cbn [marks e_kind]. destruct k; try done. by destruct (c_fill c). Qed.

Lemma map_rt_bits l : map (fun p => rt_bits (eval p)) l = map rt_bits (map eval l).
Proof. by rewrite map_map. Qed.

(** The value of a conditional follows from the values of its parts. *)
Lemma eval_mux sel a b w s fl :
  wt a = true -> wt b = true ->
  (0 < w -> e_width a = w /\ e_width b = w)%nat ->
  eval (mkExpr (Mux sel a b) w s fl)
  = if (w =? 0)%nat then RReal (mux_real (rt_condition (eval sel)) (eval a) (eval b))
    else RBits (mux_bits (rt_condition (eval sel)) (mkValue (bits (rt_bits (eval a))) s None)
           (mkValue (bits (rt_bits (eval b))) s None) s).
Proof.
  intros Wa Wb Hw. cbn [Eval.eval]. destruct (Nat.eqb_spec w 0) as [_|Hne]; [done|].
  destruct (Hw ltac:(lia)) as [Ha Hb]. by rewrite !mux_arm_eval by (done || lia).
Qed.

Lemma eval_convert a w s fl :
  marks a = false -> eval (mkExpr (Convert a) w s fl) = RBits (cast (rt_bits (eval a)) w s).
Proof. intros H. cbn [Eval.eval]. by rewrite marks_marker. Qed.

Lemma mux_widths k w s fl a b :
  (if is_packed (mkExpr k w s fl) then (e_width a =? w)%nat && (e_width b =? w)%nat else is_real a || is_real b) = true ->
  (0 < w -> e_width a = w /\ e_width b = w)%nat.
Proof. unfold is_packed. cbn [e_width]. intros H Hw. rewrite (proj2 (Nat.ltb_lt _ _)) in H by done. by tests. Qed.

Lemma mux_keeps_parts sel a b sel' a' b' w s fl :
  wt (mkExpr (Mux sel a b) w s fl) = true -> keeps sel sel' -> keeps a a' -> keeps b b' ->
  keeps (mkExpr (Mux sel a b) w s fl) (mkExpr (Mux sel' a' b') w s fl).
Proof.
  intros Hwt Ks Ka Kb. destruct (wt_node _ Hwt) as (Hn & _ & Hc). unfold children, node_ok in *.
  cbn [e_kind kind_children e_width] in *. rewrite !Forall_cons in Hc. destruct Hc as (_ & Wa & Wb & _).
  destruct (keeps_packed _ _ Ka) as [_ Ra], (keeps_packed _ _ Kb) as [_ Rb].
  destruct Ks as (Ws' & _ & _ & Es & _), Ka as (Wa' & Ha & _ & Ea & Ma), Kb as (Wb' & Hb & _ & Eb & Mb).
  assert (Hn' : (if is_packed (mkExpr (Mux sel' a' b') w s fl) then (e_width a' =? w)%nat && (e_width b' =? w)%nat
    else is_real a' || is_real b') = true) by (by rewrite Ha, Hb, Ra, Rb).
  split_and!; [|done|done| |].
  - cbn [wt e_width]. unfold node_ok. cbn [e_kind e_width]. rewrite Hn', Ws', Wa', Wb'.
    cbn [wt e_width] in Hwt. apply andb_prop in Hwt as [Hwt _]. apply andb_prop in Hwt as [_ ->]. done.
  - rewrite !eval_mux by (done || by eapply mux_widths). by rewrite Es, Ea, Eb.
  - cbn [marks]. intros [? ?]%orb_false_iff. by rewrite Ma, Mb.
Qed.

Lemma convert_keeps_part a a' w s fl :
  wt (mkExpr (Convert a) w s fl) = true -> keeps a a' ->
  keeps (mkExpr (Convert a) w s fl) (mkExpr (Convert a') w s fl).
Proof.
  intros Hwt Ka. destruct (wt_node _ Hwt) as (Hn & _ & _). unfold node_ok in Hn. cbn [e_kind] in Hn. tests.
  destruct (keeps_packed _ _ Ka) as [Pa _]. destruct Ka as (Wa' & _ & _ & Ea & Ma).
  match goal with H : marks a = false |- _ => pose proof (Ma H) as Ma' end.
  split_and!; [|done|done| |].
  - cbn [wt e_width] in Hwt |- *. unfold node_ok in *. cbn [e_kind] in *. rewrite Pa, Wa', Ma'.
    repeat match goal with H : _ && _ = true |- _ => apply andb_prop in H as [? ?] end.
    by repeat (apply andb_true_intro; split).
  - rewrite !eval_convert by done. by rewrite Ea.
  - done.
Qed.

Lemma keeps_children f e :
  wt e = true -> Forall (fun c => keeps c (f c)) (children e) -> keeps e (map_children f e).
Proof.
  destruct e as [k w s fl]. intros Hwt Hc. unfold children in Hc. cbn [e_kind] in Hc.
  destruct (match k with Mux _ _ _ | Convert _ => true | _ => false end) eqn:Ek.
  { destruct k; try done; cbn [kind_children] in Hc; rewrite !Forall_cons in Hc.
    - destruct Hc as (? & ? & ? & _). by apply mux_keeps_parts.
    - destruct Hc as (? & _). by apply convert_keeps_part. }
  cbn [wt e_width] in Hwt. apply andb_prop in Hwt as [Hn Hu]. apply andb_prop in Hn as [Hn Hw].
  unfold keeps. cbn [map_children e_width e_signed wt marks]. rewrite Hw.
  unfold node_ok, aggregate_shape, un_shape in *. cbn [e_kind e_width] in *.
  destruct k; try discriminate Ek; cbn [kind_map kind_children Eval.eval] in *; rewrite ?Forall_cons in Hc;
    repeat match goal with H : _ /\ _ |- _ => destruct H end;
    repeat match goal with
    | H : keeps ?a (f ?a) |- _ =>
        let P := fresh "P" in let R := fresh "R" in
        destruct (keeps_packed _ _ H) as [P R]; rewrite ?P, ?R, ?(keeps_shape _ _ _ H); clear P R;
        destruct H as (? & ? & ? & ? & ?)
    | H : Forall (fun c => keeps c (f c)) _ |- _ => destruct (keeps_list f _ H) as (? & ? & ? & ? & ?); clear H
    end; unfold total_width in *; rewrite ?map_rt_bits, ?length_map;
    repeat match goal with
    | H : eval (f _) = _ |- _ => rewrite H; clear H
    | H : wt (f _) = _ |- _ => rewrite H; clear H
    | H : map _ (map f _) = _ |- _ => rewrite H; clear H
    | H : forallb _ (map f _) = _ |- _ => rewrite H; clear H
    end; rewrite ?Hn, ?andb_true_r; split_and!; try done;
    intros; rewrite ?orb_false_iff in *; intuition.
Qed.

(** ** Folding keeps a node *)

Lemma wt_const c e :
  node_ok (with_kind e (Const c)) = true -> wt e = true -> wt (with_kind e (Const c)) = true.
Proof.
  intros Hn Hwt. destruct (wt_node e Hwt) as (_ & Hw & _). unfold with_kind in *. cbn [wt].
  rewrite Hn. cbn [e_width]. unfold u32. by rewrite (proj2 (Z.ltb_lt _ _)).
Qed.

Lemma fold_expr_keeps e : wt e = true -> keeps e (fold_expr e).
Proof.
  intros Hwt. unfold Folding.fold_expr. destruct (folded e) as [r|] eqn:Ef; [|by apply keeps_refl].
  pose proof (folded_sound powf from_real other e r Hwt Ef) as Ev.
  pose proof (eval_typed powf from_real other from_real_shape other_shape e Hwt) as Ht.
  unfold typed, has_type in Ht. rewrite Ev in Ht. destruct (wt_node e Hwt) as (_ & Hw & _).
  destruct r as [v|x]; destruct (0 <? e_width e)%nat eqn:Hp;
    [destruct Ht as (v' & E & Sv)|by destruct Ht|by destruct Ht as (? & ? & _)|].
  - injection E as <-. destruct Sv as (Wv & Uv & Fv).
    assert (Hc : const_to_value (value_to_const v) = Some v).
    { rewrite value_to_const_bits by (rewrite Wv; done). f_equal. symmetry. by apply plain_value_eq. }
    destruct (value_to_const_shape v) as (Rc & Wc & Uc & Kc); [by rewrite Wv|].
    split_and!; [|done|done| |].
    + apply wt_const; [|done]. unfold node_ok, with_kind, is_packed, fill_ok. cbn [e_kind e_width e_signed].
      rewrite Rc, Wc, Uc, Wv, Uv, Kc, Nat.eqb_refl, Hp. by destruct (e_signed e).
    + unfold with_kind. cbn [Eval.eval]. rewrite Rc, (const_value_some _ _ Hc). done.
    + cbn [with_kind marks]. by rewrite Kc.
  - split_and!; [|done|done|done|done]. apply wt_const; [|done].
    unfold node_ok, with_kind, is_real. cbn [e_kind e_width c_real c_fill is_some negb]. rewrite andb_true_r.
    apply Nat.ltb_ge in Hp. by apply Nat.eqb_eq; lia.
Qed.

(** ** Identities keep a node *)

Lemma keeps_of_shape e e' :
  wt e' = true -> same_shape e' e = true -> eval e' = eval e -> (marks e = false -> marks e' = false) -> keeps e e'.
Proof. intros Hw Hs He Hm. apply same_shape_eq in Hs as [? ?]. done. Qed.

Lemma typed_value e : wt e = true -> is_packed e = true ->
  exists v, eval e = RBits v /\ shaped (e_width e) (e_signed e) v.
Proof. intros Hwt. apply packed_value. by apply eval_typed. Qed.

Lemma pick_branch_chosen e sel a b e' :
  pick_branch e sel a b = Some e' ->
  exists vs, eval sel = RBits vs /\ same_shape e' e = true
    /\ (elab.logical_bit vs = Bit.One /\ e' = a \/ elab.logical_bit vs = Bit.Zero /\ e' = b).
Proof.
  unfold pick_branch. destruct (as_packed_const sel) as [vs|] eqn:Es; [|done]. cbn [mbind option_bind].
  destruct (to_u64 vs) as [u|] eqn:Eu; [|done]. cbn [mbind option_bind].
  destruct (_ && _) eqn:Eg; [|done]. injection 1 as <-. apply andb_prop in Eg as [Eg _].
  exists vs. split; [by apply as_packed_eval|]. split; [done|].
  rewrite (logical_bit_u64 vs u Eu). destruct (negb (u =? 0)); [by left|by right].
Qed.

Lemma mux_keeps sel a b w s fl e' :
  wt (mkExpr (Mux sel a b) w s fl) = true -> pick_branch (mkExpr (Mux sel a b) w s fl) sel a b = Some e' ->
  keeps (mkExpr (Mux sel a b) w s fl) e'.
Proof.
  intros Hwt Hp. destruct (wt_node _ Hwt) as (Hn & _ & Hc). unfold children, node_ok in *.
  cbn [e_kind kind_children e_width] in *. rewrite !Forall_cons in Hc. destruct Hc as (_ & Wa & Wb & _).
  destruct (pick_branch_chosen _ _ _ _ _ Hp) as (vs & Es & Sh & Hl).
  apply keeps_of_shape; [by destruct Hl as [[_ ->] | [_ ->]]|done| |].
  2: { cbn [marks]. intros [? ?]%orb_false_iff. by destruct Hl as [[_ ->] | [_ ->]]. }
  apply same_shape_eq in Sh as [Hw Hs]. cbn [e_width e_signed] in *.
  rewrite eval_mux by (done || by eapply mux_widths). rewrite Es. cbn [rt_condition].
  assert (W : wt e' = true) by (by destruct Hl as [[_ ->] | [_ ->]]).
  pose proof (eval_typed powf from_real other from_real_shape other_shape e' W) as T. unfold typed, has_type in T.
  rewrite Hw, Hs in T. destruct (Nat.eqb_spec w 0) as [->|Hne].
  - destruct T as (x & Ex). destruct Hl as [[-> ->] | [-> ->]]; cbn [mux_real]; by rewrite Ex.
  - rewrite (proj2 (Nat.ltb_lt 0 w)) in T by lia. destruct T as (v & Ev & _ & Us & Fv).
    destruct Hl as [[-> ->] | [-> ->]]; cbn [mux_bits]; rewrite Ev; cbn [rt_bits]; f_equal;
      rewrite (plain_value_eq v) at 1 by done; by rewrite Us.
Qed.

(** The aggregate conditionals give the chosen branch as it is. *)
Lemma aggregate_keeps e sel a b e' (m : Value) :
  wt e = true -> wt a = true -> wt b = true -> is_packed a = true -> is_packed b = true ->
  pick_branch e sel a b = Some e' ->
  eval e = RBits (aggregate_mux (rt_bits (eval sel)) (rt_bits (eval a)) (rt_bits (eval b)) m) ->
  marks e = marks a || marks b ->
  keeps e e'.
Proof.
  intros Hwt Wa Wb Pa Pb Hp He Hm. destruct (pick_branch_chosen _ _ _ _ _ Hp) as (vs & Es & Sh & Hl).
  apply keeps_of_shape; [by destruct Hl as [[_ ->] | [_ ->]]|done| |].
  2: { rewrite Hm. intros [? ?]%orb_false_iff. by destruct Hl as [[_ ->] | [_ ->]]. }
  rewrite He, Es. unfold aggregate_mux. cbn [rt_bits].
  destruct (typed_value a Wa Pa) as (va & Ea & _). destruct (typed_value b Wb Pb) as (vb & Eb & _).
  destruct Hl as [[-> ->] | [-> ->]]; by rewrite ?Ea, ?Eb.
Qed.

Lemma aggregate_packed e a b d :
  is_packed e = true -> aggregate_shape e a b d = true -> is_packed a = true /\ is_packed b = true.
Proof.
  unfold aggregate_shape, is_packed. intros He Hs. tests.
  repeat match goal with H : same_shape _ _ = true |- _ => apply same_shape_eq in H as [-> _] end. done.
Qed.

Lemma is_zero_const_value b : is_zero_const b = true ->
  exists v, eval b = RBits v /\ is_unknown v = false /\ uint (bits v) = 0.
Proof.
  unfold is_zero_const. destruct (as_packed_const b) as [v|] eqn:E; [|done]. cbn [mbind option_bind].
  destruct (to_u64 v) as [u|] eqn:Eu; [|done]. intros H. apply Z.eqb_eq in H. subst u.
  exists v. split; [by apply as_packed_eval|]. by apply to_u64_known.
Qed.

Lemma shift_keeps op right arith a b w s fl :
  (forall x y, bin_apply op x y = elab.shift x y right arith) ->
  wt (mkExpr (Bin op a b) w s fl) = true -> is_zero_const b = true ->
  same_shape a (mkExpr (Bin op a b) w s fl) = true -> keeps (mkExpr (Bin op a b) w s fl) a.
Proof.
  intros Hop Hwt Hz Hs. destruct (wt_node _ Hwt) as (Hn & _ & Hc). unfold children, node_ok in *.
  cbn [e_kind kind_children] in *. rewrite !Forall_cons in Hc. destruct Hc as (Wa & _). tests.
  apply keeps_of_shape; [done|done| |by cbn [marks existsb]; rewrite ?orb_false_r].
  apply same_shape_eq in Hs as [Hw Hs]. cbn [e_width e_signed] in Hw, Hs.
  destruct (typed_value a) as (va & Ea & Sa); [done..|]. destruct (is_zero_const_value b Hz) as (vb & Eb & Kb & Ub).
  cbn [Eval.eval]. rewrite Ea, Eb, Hop. cbn [rt_bits]. rewrite Hw, Hs in Sa.
  rewrite (shift_zero w s) by (done || by apply Nat.ltb_lt). by rewrite resize_like_same.
Qed.

Lemma bit_neg_keeps inner w1 s1 fl1 w s fl v :
  let e := mkExpr (Un BitNeg (mkExpr (Un BitNeg inner) w1 s1 fl1)) w s fl in
  wt e = true -> as_packed_const inner = Some v -> is_unknown v = false -> keeps e inner.
Proof.
  intros e Hwt Ec Hk. destruct (wt_node _ Hwt) as (Hn & _ & Hc). unfold e, children, node_ok in *.
  cbn [e_kind kind_children] in *. rewrite !Forall_cons in Hc. destruct Hc as (Wa & _).
  destruct (wt_node _ Wa) as (Hn1 & _ & Hc1). unfold children, node_ok in *.
  cbn [e_kind kind_children] in *. rewrite !Forall_cons in Hc1. destruct Hc1 as (Wi & _).
  cbn [un_shape] in *. tests.
  repeat match goal with H : same_shape _ _ = true |- _ => apply same_shape_eq in H as [? ?] end.
  cbn [e_width e_signed] in *. subst w1 s1. apply as_packed_eval with (powf := powf) (from_real := from_real) (other := other) in Ec.
  destruct (typed_value inner) as (vi & Ei & Si); [done..|]. rewrite Ec in Ei. injection Ei as <-.
  split_and!; [done..| |done]. cbn [Eval.eval un_apply]. rewrite Ec. cbn [rt_bits].
  assert (Hb : shaped (e_width inner) (e_signed inner) (elab.bit_neg v)).
  { destruct Si as (Hw & Hs & _). split; [|done]. unfold width, elab.bit_neg in *. simpl. by rewrite length_map. }
  pose proof Hb as (_ & Hbs & _). rewrite Hbs. replace w with (e_width inner) by congruence.
  rewrite (resize_like_same _ _ _ Hb), (bit_neg_involutive _ _ _ Si Hk).
  pose proof Si as (_ & -> & _). by rewrite (resize_like_same _ _ _ Si).
Qed.

Lemma concat_keeps part w s fl :
  wt (mkExpr (Concat [part]) w s fl) = true -> same_shape part (mkExpr (Concat [part]) w s fl) = true ->
  keeps (mkExpr (Concat [part]) w s fl) part.
Proof.
  intros Hwt Hs. destruct (wt_node _ Hwt) as (Hn & _ & Hc). unfold children, node_ok in *.
  cbn [e_kind kind_children forallb] in *. rewrite Forall_cons in Hc. destruct Hc as (Wp & _). tests.
  apply keeps_of_shape; [done|done| |by cbn [marks existsb]; rewrite ?orb_false_r].
  apply same_shape_eq in Hs as [Hw Hs]. cbn [e_width e_signed] in *.
  destruct (typed_value part) as (v & Ev & _ & Us & Pv); [done..|].
  cbn [Eval.eval map]. rewrite Ev. cbn [rt_bits]. f_equal. rewrite (plain_value_eq v) at 1 by done.
  replace (signed v) with false by congruence. done.
Qed.

Lemma resize_keeps a w s fl :
  wt (mkExpr (Resize a) w s fl) = true -> same_shape a (mkExpr (Resize a) w s fl) = true ->
  keeps (mkExpr (Resize a) w s fl) a.
Proof.
  intros Hwt Hs. destruct (wt_node _ Hwt) as (Hn & _ & Hc). unfold children, node_ok in *.
  cbn [e_kind kind_children] in *. rewrite Forall_cons in Hc. destruct Hc as (Wa & _). tests.
  destruct (typed_value a) as (v & Ev & Sv); [done..|].
  apply same_shape_eq in Hs as [Hw Hs]. cbn [e_width e_signed] in *. rewrite Hw, Hs in Sv.
  split_and!; try done. cbn [Eval.eval]. rewrite Ev. cbn [rt_bits]. f_equal. symmetry. by apply resize_same.
Qed.

Lemma convert_keeps a w s fl :
  wt (mkExpr (Convert a) w s fl) = true -> same_shape a (mkExpr (Convert a) w s fl) = true ->
  keeps (mkExpr (Convert a) w s fl) a.
Proof.
  intros Hwt Hs. destruct (wt_node _ Hwt) as (Hn & _ & Hc). unfold children, node_ok in *.
  cbn [e_kind kind_children] in *. rewrite Forall_cons in Hc. destruct Hc as (Wa & _). tests.
  destruct (typed_value a) as (v & Ev & Sv); [done..|].
  apply same_shape_eq in Hs as [Hw Hs]. cbn [e_width e_signed] in *. rewrite Hw, Hs in Sv.
  split_and!; try done. rewrite eval_convert by done. rewrite Ev. cbn [rt_bits]. f_equal. symmetry. by apply cast_same.
Qed.

Lemma select_keeps base idx width_expr neg w s fl i l h :
  let e := mkExpr (IdxPartSel base idx width_expr neg) w s fl in
  wt e = true -> (0 < w)%nat -> known_select_index idx = Some i ->
  (if neg then 0 <= i /\ l = i - (Z.of_nat w - 1) else l = i) -> h = l + (Z.of_nat w - 1) ->
  keeps e (with_kind e (PartSel base h l)).
Proof.
  intros e Hwt Hw Hi Hl Hh. destruct (wt_node _ Hwt) as (Hn & Hu & Hc). unfold e, children, node_ok in *.
  cbn [e_kind kind_children e_width e_signed] in *. rewrite !Forall_cons in Hc. destruct Hc as (Wb & _). tests.
  cbn [e_signed] in *. unfold with_kind. cbn [e_width e_signed e_fill].
  assert (Hn' : node_ok (mkExpr (PartSel base h l) w s fl) = true).
  { unfold node_ok. cbn [e_kind e_width e_signed]. unfold is_packed in *. cbn [e_width] in *. subst s.
    repeat (apply andb_true_intro; split); try done. apply Z.eqb_eq. lia. }
  split_and!; [|done|done| |done].
  - cbn [wt e_width]. rewrite Hn', Wb, andb_true_r. apply Z.ltb_lt. done.
  - cbn [Eval.eval]. f_equal. unfold known_select_index in Hi.
    destruct (as_packed_const idx) as [v|] eqn:Ev; [|done]. cbn [mbind option_bind] in Hi.
    rewrite (as_packed_eval powf from_real other idx v Ev). cbn [rt_bits]. unfold idx_part_select, to_index_i64. rewrite Hi.
    rewrite (proj2 (Nat.eqb_neq _ _)) by lia. cbn [orb]. unfold part_select.
    rewrite (proj2 (Z.leb_le l h)) by lia. replace (Z.to_nat (Z.abs (h - l) + 1)) with w by lia.
    destruct neg; [destruct Hl as [Hi0 ->]|by subst]. rewrite (proj2 (Z.ltb_ge i 0)) by lia. done.
Qed.

Lemma idx_part_sel_cases e base idx width_expr neg e' :
  e_kind e = IdxPartSel base idx width_expr neg -> try_identity e = Some e' ->
  exists i l, (0 < e_width e)%nat /\ known_select_index idx = Some i
    /\ (if neg then 0 <= i /\ l = i - (Z.of_nat (e_width e) - 1) else l = i)
    /\ e' = with_kind e (PartSel base (l + (Z.of_nat (e_width e) - 1)) l).
Proof.
  intros Hk. unfold try_identity. rewrite Hk. destruct (Nat.ltb_spec 0 (e_width e)); [|done].
  destruct (known_select_index idx) as [i|]; [|done]. cbn [mbind option_bind]. intros Hx.
  destruct (if neg then _ else _) as [l|] eqn:El; [|done]. cbn [mbind option_bind] in Hx.
  destruct (0 <=? l); [|done]. unfold try_i64 in Hx. destruct (_ && _); [|done]. cbn [mbind option_bind] in Hx.
  injection Hx as <-. exists i, l. split_and!; [done..| |done].
  destruct neg; [|by injection El]. destruct (Z.leb_spec 0 i); [|done]. by injection El as <-.
Qed.

Lemma try_identity_keeps e e' : wt e = true -> try_identity e = Some e' -> keeps e e'.
Proof.
  intros Hwt Hid. pose proof Hid as Hid0. destruct (wt_node e Hwt) as (Hn & _ & Hc). destruct e as [k w s fl].
  unfold try_identity, children, node_ok in *. cbn [e_kind] in *.
  destruct k as [| |op a b|op a| |sel a b|sel a b d|sel a b l|parts| | |base idx we neg| | |a|a| | | | |];
    try done; cbn [kind_children] in *; rewrite ?Forall_cons in Hc.
  - assert (Hg : (if is_zero_const b && same_shape a (mkExpr (Bin op a b) w s fl) then Some a else None) = Some e' ->
      forall right arith, (forall x y, bin_apply op x y = elab.shift x y right arith) ->
      keeps (mkExpr (Bin op a b) w s fl) e').
    { destruct (_ && _) eqn:Eg; [|done]. apply andb_prop in Eg as [? ?]. injection 1 as <-. intros right arith Hop.
      by apply (shift_keeps op right arith). }
    destruct op; try done; by apply (Hg Hid _ _ (fun _ _ => eq_refl)).
  - destruct op; try done. destruct a as [ka wa sa fa]. cbn [e_kind] in Hid. destruct ka as [| | |op i| | | | | | | | | | | | | | | | |]; try done.
    destruct op; try done. destruct (as_packed_const i) as [v|] eqn:Ei; [|done]. cbn [mbind option_bind] in Hid.
    destruct (is_unknown v) eqn:Eu; [done|]. injection Hid as <-. by apply (bit_neg_keeps i wa sa fa w s fl v).
  - by apply mux_keeps.
  - tests. destruct Hc as (_ & Wa & Wb & _).
    match goal with H : aggregate_shape _ _ _ _ = true |- _ => apply aggregate_packed in H as [Pa Pb]; [|done] end.
    by eapply (aggregate_keeps _ sel a b e').
  - tests. destruct Hc as (_ & Wa & Wb & _).
    match goal with H : aggregate_shape _ _ _ _ = true |- _ => apply aggregate_packed in H as [Pa Pb]; [|done] end.
    by eapply (aggregate_keeps _ sel a b e').
  - destruct parts as [|part [|]]; try done. destruct (_ && _) eqn:Eg; [|done]. injection Hid as <-. tests.
    by apply concat_keeps.
  - destruct (idx_part_sel_cases (mkExpr (IdxPartSel base idx we neg) w s fl) base idx we neg e' eq_refl Hid0) as (i & l & Hw & Hi & Hl & ->).
    by apply (select_keeps base idx we neg w s fl i l).
  - destruct (same_shape _ _) eqn:Es; [|done]. injection Hid as <-. by apply (resize_keeps a w s fl).
  - destruct (same_shape _ _) eqn:Es; [|done]. injection Hid as <-. by apply (convert_keeps a w s fl).
Qed.

(** ** The walks *)

Lemma ident_children_keeps f e :
  (forall c, wt c = true -> keeps c (f c)) -> wt e = true -> keeps e (ident_children f e).
Proof.
  intros Hf Hwt. destruct (wt_node e Hwt) as (_ & _ & Hc).
  assert (Hm : keeps e (map_children f e)).
  { apply keeps_children; [done|]. eapply Forall_impl; [exact Hc|]. exact Hf. }
  unfold Folding.ident_children. destruct (e_kind e); try exact Hm.
  destruct (ident_visits _); [exact Hm|by apply keeps_refl].
Qed.

Lemma ident_loop_keeps f n e :
  (forall c, wt c = true -> keeps c (f c)) -> wt e = true -> keeps e (ident_loop f n e).
Proof.
  intros Hf. revert e. induction n as [|n IH]; intros e Hwt; [by apply keeps_refl|]. cbn [Folding.ident_loop].
  destruct (try_identity e) as [e'|] eqn:Ei; [|by apply keeps_refl].
  pose proof (try_identity_keeps e e' Hwt Ei) as K1. pose proof K1 as [W1 _].
  pose proof (ident_children_keeps f e' Hf W1) as K2. pose proof K2 as [W2 _].
  eapply keeps_trans; [exact K1|]. eapply keeps_trans; [exact K2|]. by apply IH.
Qed.

Lemma ident_fuel_keeps n e : wt e = true -> keeps e (ident_fuel n e).
Proof.
  revert e. induction n as [|n IH]; intros e Hwt; [by apply keeps_refl|]. cbn [Folding.ident_fuel].
  pose proof (ident_children_keeps _ e IH Hwt) as K. pose proof K as [W _].
  eapply keeps_trans; [exact K|]. by apply ident_loop_keeps.
Qed.

Lemma walk_expr_step f e : walk_expr f e = f (map_children (walk_expr f) e).
Proof. by destruct e. Qed.

Lemma walk_expr_keeps f e :
  (forall c, wt c = true -> keeps c (f c)) -> wt e = true -> keeps e (walk_expr f e).
Proof.
  intros Hf. induction e as [e IH] using IrExpr_children_ind. intros Hwt. rewrite walk_expr_step.
  destruct (wt_node e Hwt) as (_ & _ & Hc).
  assert (K : keeps e (map_children (walk_expr f) e)).
  { apply keeps_children; [done|]. rewrite Forall_forall in *. intros c Hin. apply IH; [done|]. by apply Hc. }
  pose proof K as [W _]. eapply keeps_trans; [exact K|]. by apply Hf.
Qed.

Lemma ident_expr_keeps c : wt c = true -> keeps c (ident_expr c).
Proof. apply ident_fuel_keeps. Qed.

Lemma one_round_keeps cfg e : wt e = true -> keeps e (one_round powf ident_visits cfg e).
Proof.
  intros Hwt. unfold one_round.
  assert (K : keeps e (if fold_constants cfg then walk_expr fold_expr e else e)).
  { destruct (fold_constants cfg); [|by apply keeps_refl]. by apply walk_expr_keeps; [apply fold_expr_keeps|]. }
  destruct (identities cfg); [|exact K]. eapply keeps_trans; [exact K|]. destruct K as [W _].
  pose proof (walk_expr_keeps ident_expr _ ident_expr_keeps W) as K1. eapply keeps_trans; [exact K1|].
  destruct K1 as [W1 _]. by apply walk_expr_keeps; [apply ident_expr_keeps|].
Qed.


End Passes.
