(* ===== verification/PassClaims.v ===== *)
(** * The identity pass terminates

    [ident_expr] of [src/sim/opt/passes/identities.rs] recurses into the
    children of a node, and again into the children of what a rewrite leaves.
    No rewrite makes an expression deeper, so the depth of the expression
    bounds the recursion. *)

From Stdlib Require Import ZArith Lia Ascii String SpecFloat.
From stdpp Require Import base list strings.
From S2P Require Import Prelude Elab ElabFacts ElabProps ElabOrder Ir Folding Eval FoldingFacts PassFacts PassProps.

Definition children_depth (e : IrExpr) : nat := list_max (map depth (children e)).

Lemma depth_children e : depth e = S (children_depth e).
Proof.
  destruct e as [k w s fl]. unfold children_depth, children. cbn [e_kind depth].
  destruct k; cbn [kind_children map list_max foldr]; lia || done.
Qed.

Lemma child_depth e c : c ∈ children e -> (depth c < depth e)%nat.
Proof.
  intros Hc. rewrite (depth_children e). unfold children_depth. apply le_n_S.
  assert (H : Forall (fun k => (k <= list_max (map depth (children e)))%nat) (map depth (children e))).
  { by apply list_max_le. }
  rewrite Forall_map, Forall_forall in H. by apply H.
Qed.

Lemma children_map f e : children (map_children f e) = map f (children e).
Proof. destruct e as [k w s fl]. unfold children. cbn [map_children e_kind]. by destruct k. Qed.

Lemma map_children_ext f g e : (forall c, c ∈ children e -> f c = g c) -> map_children f e = map_children g e.
Proof.
  destruct e as [k w s fl]. unfold children. cbn [map_children e_kind]. intros H. f_equal.
  assert (Hl : forall l, (forall c, c ∈ l -> f c = g c) -> map f l = map g l).
  { intros l Hl. apply map_ext_in. intros a Ha. apply Hl. by apply list_elem_of_In. }
  destruct k; cbn [kind_map kind_children] in *; f_equal; first [by apply Hl|done|apply H; repeat first [by left|right]].
Qed.

Lemma map_children_depth f e :
  (forall c, c ∈ children e -> (depth (f c) <= depth c)%nat) -> (depth (map_children f e) <= depth e)%nat.
Proof.
  intros H. rewrite !depth_children. apply le_n_S. unfold children_depth. rewrite children_map.
  induction (children e) as [|c l IH]; [done|]. cbn [map list_max foldr].
  pose proof (H c ltac:(by left)). assert (IHl := IH (fun d Hd => H d (list_elem_of_further _ _ _ Hd))).
  unfold list_max in *. lia.
Qed.

(** A rewrite leaves a subexpression, or a selection of one. *)
Lemma try_identity_depth e e' : try_identity e = Some e' -> (depth e' <= depth e)%nat.
Proof.
  intros H. pose proof H as H0. destruct e as [k w s fl]. unfold try_identity in H. cbn [e_kind] in H.
  assert (Hp : forall sel a b, pick_branch (mkExpr k w s fl) sel a b = Some e' ->
    (depth e' <= S (Nat.max (depth sel) (Nat.max (depth a) (depth b))))%nat).
  { intros sel a b Hb. unfold pick_branch in Hb. destruct (as_packed_const sel); [|done]. cbn in Hb.
    destruct (to_u64 _) as [u|]; [|done]. cbn in Hb. destruct (_ && _); [|done]. injection Hb as <-.
    destruct (negb _); lia. }
  destruct k as [| |op a b|op a| |sel a b|sel a b d|sel a b l|parts| | |base idx we neg| | |a|a| | | | |];
    try done; cbn [depth].
  - destruct op; try done; destruct (_ && _); try done; injection H as <-; lia.
  - destruct op; try done. destruct a as [ka wa sa fa]. cbn [e_kind] in H.
    destruct ka as [| | |op i| | | | | | | | | | | | | | | | |]; try done.
    destruct op; try done. destruct (as_packed_const i); [|done]. cbn in H. destruct (is_unknown _); [done|].
    injection H as <-. cbn [depth]. lia.
  - by apply Hp.
  - by apply Hp.
  - by apply Hp.
  - destruct parts as [|part [|]]; try done. destruct (_ && _); [|done]. injection H as <-.
    cbn [map list_max foldr]. lia.
  - destruct (idx_part_sel_cases (mkExpr (IdxPartSel base idx we neg) w s fl) base idx we neg e' eq_refl H0)
      as (i & l & _ & _ & _ & ->). cbn [with_kind depth]. lia.
  - destruct (same_shape _ _); [|done]. injection H as <-. lia.
  - destruct (same_shape _ _); [|done]. injection H as <-. lia.
Qed.

Section Fuel.
Context (ident_visits : nat -> bool).

Local Abbreviation ident_children := (ident_children ident_visits).
Local Abbreviation ident_loop := (ident_loop ident_visits).
Local Abbreviation ident_fuel := (ident_fuel ident_visits).

(** Two recursive calls that agree below a depth and never deepen. *)
Definition agree (n : nat) (f g : IrExpr -> IrExpr) : Prop :=
  forall c, (depth c <= n)%nat -> f c = g c /\ (depth (f c) <= depth c)%nat.

Lemma ident_children_agree n f g e :
  agree n f g -> (depth e <= S n)%nat ->
  ident_children f e = ident_children g e /\ (depth (ident_children f e) <= depth e)%nat.
Proof.
  intros H He. assert (Hc : forall c, c ∈ children e -> (depth c <= n)%nat).
  { intros c Hin. pose proof (child_depth e c Hin). lia. }
  assert (Hm : map_children f e = map_children g e /\ (depth (map_children f e) <= depth e)%nat).
  { split; [apply map_children_ext|apply map_children_depth]; intros c Hin; by apply H, Hc. }
  unfold Folding.ident_children. destruct (e_kind e); try exact Hm. destruct (ident_visits _); [exact Hm|done].
Qed.

Lemma ident_loop_agree n f g k e :
  agree n f g -> (depth e <= S n)%nat ->
  ident_loop f k e = ident_loop g k e /\ (depth (ident_loop f k e) <= depth e)%nat.
Proof.
  intros H. revert e. induction k as [|k IH]; intros e He; [done|]. cbn [Folding.ident_loop].
  destruct (try_identity e) as [e'|] eqn:Ei; [|done]. apply try_identity_depth in Ei.
  destruct (ident_children_agree n f g e' H ltac:(lia)) as [<- Hd].
  destruct (IH (ident_children f e') ltac:(lia)) as [<- Hd']. split; [done|lia].
Qed.

Lemma ident_fuel_agree n : agree n (ident_fuel n) (ident_fuel (S n)).
Proof.
  induction n as [|n IH]; intros e He; [rewrite depth_children in He; lia|].
  change (ident_fuel (S n) e) with (ident_loop (ident_fuel n) 8 (ident_children (ident_fuel n) e)).
  change (ident_fuel (S (S n)) e) with (ident_loop (ident_fuel (S n)) 8 (ident_children (ident_fuel (S n)) e)).
  destruct (ident_children_agree n _ _ e IH He) as [<- Hd].
  destruct (ident_loop_agree n _ _ 8 (ident_children (ident_fuel n) e) IH ltac:(lia)) as [<- Hd'].
  split; [done|lia].
Qed.

(** C40: the identity pass terminates: the depth of the expression is enough
    fuel, any larger fuel gives the same result, and the result is never deeper
    than the expression. *)
Theorem ident_terminates e n :
  (depth e <= n)%nat ->
  ident_fuel n e = ident_expr ident_visits e /\ (depth (ident_expr ident_visits e) <= depth e)%nat.
Proof.
  intros Hn. split; [|by apply (ident_fuel_agree (depth e))]. unfold ident_expr.
  induction Hn as [|n Hn IH]; [done|]. rewrite <- IH. symmetry. by apply ident_fuel_agree.
Qed.

End Fuel.

Definition one_const : IrExpr := mkExpr (Const (value_to_const (from_u64 5 8 false))) 8 false None.

Lemma ident_terminates_witness :
  (depth (mkExpr (Resize (mkExpr (Concat [one_const]) 8 false None)) 8 false None) <= 9)%nat
  /\ ident_fuel (fun _ => false) 9 (mkExpr (Resize (mkExpr (Concat [one_const]) 8 false None)) 8 false None) = one_const.
Proof.
  split; [vm_compute; lia|].
  destruct (ident_terminates (fun _ => false) (mkExpr (Resize (mkExpr (Concat [one_const]) 8 false None)) 8 false None) 9) as [-> _];
    [vm_compute; lia|]. vm_compute. reflexivity.
Defined.

(** * What the optimiser's operators promise

    Type soundness of evaluation, the constants the folder writes, and the
    way every operator treats unknown bits. *)


(** ** The constants of the folder *)

Definition limb_ok (z : Z) : Prop := 0 <= z < 2 ^ 64.

Lemma limb_high z i : limb_ok z -> 64 <= i -> Z.testbit z i = false.
Proof.
  intros [H0 H1] Hi. destruct (Z.eq_dec z 0) as [-> | Hz]; [apply Z.bits_0|].
  apply Z.bits_above_log2; [done|]. apply Z.log2_lt_pow2; [lia|].
  eapply Z.lt_le_trans; [exact H1|]. by apply Z.pow_le_mono_r.
Qed.

Lemma limb_ok_lor a b : limb_ok a -> limb_ok b -> limb_ok (Z.lor a b).
Proof.
  intros [Ha0 Ha] [Hb0 Hb]. split; [by apply Z.lor_nonneg|].
  destruct (Z.eq_dec (Z.lor a b) 0) as [-> | Hz]; [done|].
  apply Z.log2_lt_pow2; [pose proof (proj2 (Z.lor_nonneg a b) (conj Ha0 Hb0)); lia|].
  rewrite Z.log2_lor by done. apply Z.max_lub_lt.
  - destruct (Z.eq_dec a 0) as [-> | ?]; [done|]. apply Z.log2_lt_pow2; lia.
  - destruct (Z.eq_dec b 0) as [-> | ?]; [done|]. apply Z.log2_lt_pow2; lia.
Qed.

Lemma limb_ok_nth l i : Forall limb_ok l -> limb_ok (nth i l 0).
Proof.
  intros H. rewrite nth_lookup. destruct (l !! i) as [z|] eqn:E; [|done].
  rewrite Forall_lookup in H. by apply (H i).
Qed.

Lemma set_limb_bit_ok l i : Forall limb_ok l -> Forall limb_ok (set_limb_bit l i).
Proof.
  intros H. apply Forall_insert; [done|]. apply limb_ok_lor; [by apply limb_ok_nth|].
  pose proof (Nat.mod_upper_bound i 64 ltac:(done)). rewrite limb_mask by done.
  split; [lia|]. apply Z.pow_lt_mono_r; lia.
Qed.

Lemma value_to_const_ok v l : let '(b, x, z) := fold_left (value_to_const_step v) l
    (replicate (Nat.max (div_ceil (width v) 64) 1) 0, replicate (Nat.max (div_ceil (width v) 64) 1) 0,
     replicate (Nat.max (div_ceil (width v) 64) 1) 0) in
  Forall limb_ok b /\ Forall limb_ok x /\ Forall limb_ok z.
Proof.
  induction l as [|i l IH] using rev_ind; [cbn [fold_left]; split_and!; by apply Forall_replicate|].
  rewrite fold_left_app. destruct (fold_left _ l _) as [[b x] z]. destruct IH as (? & ? & ?).
  cbn [fold_left value_to_const_step]. destruct (bit_lsb v i); split_and!; try done; by apply set_limb_bit_ok.
Qed.

(** Two limbs without a common bit. *)
Lemma limb_land_zero a b :
  limb_ok a -> (forall i, (i < 64)%nat -> Z.testbit a (Z.of_nat i) && Z.testbit b (Z.of_nat i) = false) ->
  Z.land a b = 0.
Proof.
  intros Ha H. apply Z.bits_inj'. intros i Hi. rewrite Z.land_spec, Z.bits_0.
  destruct (Z.lt_ge_cases i 64); [|by rewrite limb_high].
  specialize (H (Z.to_nat i) ltac:(lia)). by rewrite Z2Nat.id in H.
Qed.

Lemma limb_bit_at l k i : (i < 64)%nat -> Z.testbit (nth k l 0) (Z.of_nat i) = const_limb_bit l (64 * k + i).
Proof.
  intros Hi. rewrite limb_bit. f_equal; [f_equal|f_equal].
  - rewrite Nat.mul_comm, Nat.div_add_l, (Nat.div_small i) by lia. lia.
  - rewrite Nat.mul_comm, Nat.add_comm, Nat.Div0.mod_add, Nat.mod_small by lia. done.
Qed.

(** A plane without bits from the width on passes the tail check. *)
Lemma tail_zero l w :
  (0 < w)%nat -> (w mod 64 <> 0)%nat -> Forall limb_ok l ->
  (forall j, (w <= j)%nat -> const_limb_bit l j = false) ->
  Z.land (limb l (div_ceil w 64 - 1)) (u64_max - tail_mask w) = 0.
Proof.
  intros Hw Hm Hl Hj. pose proof (Nat.mod_upper_bound w 64 ltac:(done)) as Hb. unfold limb, tail_mask.
  rewrite limb_mask by done. set (k := (w mod 64)%nat) in *.
  apply limb_land_zero; [by apply limb_ok_nth|]. intros i Hi. rewrite limb_bit_at by done.
  destruct (Nat.lt_ge_cases i k) as [Hik|Hik].
  - replace (u64_max - (2 ^ Z.of_nat k - 1)) with ((2 ^ (64 - Z.of_nat k) - 1) * 2 ^ Z.of_nat k).
    + rewrite Z.mul_pow2_bits_low by lia. apply andb_false_r.
    + rewrite Z.mul_sub_distr_r, <- Z.pow_add_r by lia. unfold u64_max. rewrite Z.sub_add. lia.
  - rewrite Hj; [done|]. assert (E : div_ceil w 64 = S (w / 64)).
    { unfold div_ceil. pose proof (Nat.div_mod_eq w 64) as D. fold k in D. simpl Nat.sub. symmetry.
      apply (Nat.div_unique (w + 63) 64 (S (w / 64)) (k - 1)); lia. }
    rewrite E. pose proof (Nat.div_mod_eq w 64) as D. fold k in D. lia.
Qed.

Lemma existsb_all_false {A} (f : A -> bool) l : (forall x, f x = false) -> existsb f l = false.
Proof. intros H. induction l as [|x l IH]; [done|]. cbn [existsb]. by rewrite H. Qed.

Lemma div_ceil_pos w : (0 < w)%nat -> (0 < div_ceil w 64)%nat.
Proof. intros H. unfold div_ceil. apply Nat.div_str_pos. simpl Nat.sub. lia. Qed.

(** Constants round trip: the limb planes the folder writes for a value of
    at most [u32::MAX] bits read back as the same bits and signedness, and the
    checked constructor [IrConst::packed] accepts them: no plane has too many
    limbs, no bit is both X and Z, and no bit lies outside the width. *)
Theorem const_roundtrip v :
  (0 < width v)%nat -> Z.of_nat (width v) < 2 ^ 32 ->
  let c := value_to_const v in
  const_to_value c = Some (mkValue (bits v) (signed v) None)
  /\ packed (c_bits c) (c_x c) (c_z c) (width v) (signed v) None = Valid c.
Proof.
  intros Hpos Hw c. split; [by apply value_to_const_bits|].
  pose proof (value_to_const_loop v (width v) ltac:(lia)) as H. cbv zeta in H.
  pose proof (value_to_const_ok v (seq 0 (width v))) as Hok.
  unfold c, value_to_const. destruct (fold_left _ _ _) as [[b x] z]. destruct H as [(Lb & Lx & Lz) H], Hok as (Ob & Ox & Oz).
  cbn [c_bits c_x c_z]. rewrite wrap_u32_small, Nat2Z.id by lia. pose proof (div_ceil_pos _ Hpos) as Hd.
  rewrite Nat.max_l in Lb, Lx, Lz by lia. unfold packed. rewrite (proj2 (Nat.eqb_neq _ _)) by lia.
  cbn [too_many_limbs]. rewrite Lb, Lx, Lz, Nat.ltb_irrefl.
  rewrite existsb_all_false.
  - destruct (Nat.eqb_spec (width v mod 64) 0) as [_|Hm]; [done|]. cbn [outside_width].
    rewrite !tail_zero; try done; intros j Hj; destruct (H j) as (H1 & H2 & H3);
      rewrite ?H1, ?H2, ?H3; by rewrite (proj2 (Nat.ltb_ge _ _)).
  - intros k. apply negb_false_iff, Z.eqb_eq. unfold limb. apply limb_land_zero; [by apply limb_ok_nth|].
    intros i Hi. rewrite !limb_bit_at by done. destruct (H (64 * k + i)%nat) as (_ & -> & ->).
    destruct (_ <? _)%nat; [|done]. by destruct (bit_lsb v _).
Qed.

(** ** Unknown bits *)

(** The binary operators whose result may only become better known when an
    operand does; the remaining ones compare X and Z themselves. *)
Definition follows_order (op : IrBinOp) : bool :=
  match op with
  | CaseEq | CaseNeq | WildEq | WildNeq | IndexEq | IndexLt => false
  | _ => true
  end.

(** X-pessimism: on operands without a fill marker every operator other
    than the case and index comparisons is monotone in the information order
    (an operand whose X or Z bits are replaced by any known bits gives a result
    that agrees on every bit that was known), and so are the unary operators,
    the conditional operator with its bitwise merge, and the wildcard
    equalities in their left operand. *)
Theorem operators_monotone a a' b b' sel sel' :
  plain a -> plain b -> a ⊑ a' -> b ⊑ b' -> sel ⊑ sel' ->
  (forall op, follows_order op = true -> bin_apply op a b ⊑ bin_apply op a' b')
  /\ (forall op, un_apply op a ⊑ un_apply op a')
  /\ elab.cond sel a b ⊑ elab.cond sel' a' b'
  /\ bin_apply WildEq a b ⊑ bin_apply WildEq a' b /\ bin_apply WildNeq a b ⊑ bin_apply WildNeq a' b.
Proof.
  intros Pa Pb Ha Hb Hs. split_and!.
  - intros op Hop. destruct op; try done; cbn [bin_apply]; try (by rewrite Ha, Hb). by apply power_mono.
  - intros op. destruct op; cbn [un_apply]; by rewrite Ha.
  - by apply cond_mono.
  - by apply wildcard_eq_mono.
  - by apply wildcard_neq_mono.
Qed.

(** ** Witnesses *)

(** A runtime that converts every real to zero and reads every other kind of
    expression as all X or as 0.0. *)
Definition sample_from_real (x : f64) (w : nat) (s : bool) : Value := elab.zero w s.
Definition sample_other (tag w : nat) (s : bool) (l : list RtVal) : RtVal :=
  if (0 <? w)%nat then RBits (elab.all_x w s) else RReal (S754_zero false).

Lemma sample_from_real_shape x w s : shaped w s (sample_from_real x w s).
Proof. split; [|done]. apply length_replicate. Qed.

Lemma sample_other_shape tag w s l : has_type w s (sample_other tag w s l).
Proof.
  unfold sample_other, has_type. destruct (0 <? w)%nat; [|by eexists].
  eexists. split; [done|apply shaped_all_x].
Qed.

Definition literal (z : Z) (w : nat) : IrExpr :=
  mkExpr (Const (value_to_const (from_u64 z w false))) w false None.

(** [sel ? ~~8'd3 + x[4 +: 8] : x] with a constant selector. *)
Definition sample_expr : IrExpr :=
  let x := mkExpr (Other 7 []) 16 false None in
  let neg e := mkExpr (Un BitNeg e) 8 false None in
  let part := mkExpr (IdxPartSel x (literal 4 8) (literal 8 8) false) 8 false None in
  let sum := mkExpr (Bin Add (neg (neg (literal 3 8))) part) 8 false None in
  mkExpr (Mux (literal 1 1) sum (mkExpr (Other 9 []) 8 false None)) 8 false None.



Lemma const_roundtrip_witness :
  const_to_value (value_to_const (mkValue [Bit.X; Bit.One; Bit.Z; Bit.Zero] true None))
  = Some (mkValue [Bit.X; Bit.One; Bit.Z; Bit.Zero] true None).
Proof.
  refine (proj1 (const_roundtrip (mkValue [Bit.X; Bit.One; Bit.Z; Bit.Zero] true None) _ _)); vm_compute; [lia|reflexivity].
Defined.

Lemma operators_monotone_witness :
  bin_apply BitAnd (from_bits [Bit.X; Bit.Zero] false) (from_bits [Bit.Zero; Bit.X] false)
  ⊑ bin_apply BitAnd (from_bits [Bit.One; Bit.Zero] false) (from_bits [Bit.Zero; Bit.One] false).
Proof.
  assert (H : forall a b c d : Bit.t, bit_unknown a = true \/ a = c -> bit_unknown b = true \/ b = d ->
    from_bits [a; b] false ⊑ from_bits [c; d] false).
  { intros a b c d ? ?. split; [|done]. by apply Forall2_cons_2; [|apply Forall2_cons_2; [|apply Forall2_nil_2]]. }
  refine (proj1 (operators_monotone (from_bits [Bit.X; Bit.Zero] false) (from_bits [Bit.One; Bit.Zero] false)
    (from_bits [Bit.Zero; Bit.X] false) (from_bits [Bit.Zero; Bit.One] false)
    (from_bits [Bit.X; Bit.X] false) (from_bits [Bit.One; Bit.X] false) _ _ _ _ _) BitAnd _);
    try reflexivity; apply H; (by left) || (by right).
Defined.

(** ** A fill marker the identities expose *)

(** [8'('1 << 0)] with a one-bit operand. *)
Definition marked_shift : IrExpr :=
  let shift := mkExpr (Bin Shl (mkExpr (Fill 1) 1 false (Some 1)) (literal 0 1)) 1 false None in
  mkExpr (Convert shift) 8 false None.

(** The shift-by-zero identity returns a fill literal without the guard the
    conditional and concatenation identities have: under a conversion the
    emitted value is the fill digit in all eight bits instead of the converted
    one-bit value.  The rule on conversions in [wt] excludes this shape. *)
Lemma shift_identity_exposes_fill powf from_real other :
  let e := run_expr powf (fun _ => false) (mkOptConfig true true true true) marked_shift in
  eval powf from_real other marked_shift = RBits (from_u64 1 8 false)
  /\ eval powf from_real other e = RBits (from_u64 255 8 false)
  /\ wt marked_shift = false.
Proof. repeat split. Qed.
