(* ===== verification/ControlFlow.v ===== *)
(** * Pruning constant control flow

    The statements of [src/sim/ir/statements.rs] with nested bodies, jumps and
    labels, and the pass of [src/sim/opt/passes/control_flow.rs]: constant
    conditions, the pruning of statement lists, the choice of a case arm, and
    the removal of labels no jump names.  Statements without nested bodies are
    [Leaf]: the pass leaves them alone. *)

From Stdlib Require Import ZArith Lia Ascii String SpecFloat.
From stdpp Require Import base list strings.
From S2P Require Import Prelude Elab Ir Folding Eval.

(** ** Statements *)

Inductive IrCaseKind : Type := Exact | Casex | Casez | RealCase | Inside.

(** A qualifier with the identity of its source origin. *)
Inductive IrUniquePriorityCheck : Type :=
  | Unchecked
  | Unique (origin : nat)
  | Unique0 (origin : nat)
  | Priority (origin : nat).

Definition is_none (check : IrUniquePriorityCheck) : bool :=
  match check with Unchecked => true | _ => false end.

Record IrCaseItem (S : Type) := mkItem { item_exprs : list IrExpr; item_body : list S }.
Arguments mkItem {S} item_exprs item_body.
Arguments item_exprs {S} i.
Arguments item_body {S} i.

#[local] Set Warnings "-register-all".
Inductive IrStmt : Type :=
  | Located (origin : nat) (statement : IrStmt)
  | Block (body : list IrStmt)
  | ActivationScope (target : nat) (exit : string) (body : list IrStmt)
  | ImmediateAssertion (identity : nat) (condition : IrExpr) (if_true if_false : option (list IrStmt))
  | If (cond : IrExpr) (then_ : list IrStmt) (els : option (list IrStmt)) (check : IrUniquePriorityCheck)
  | While (cond : IrExpr) (body : list IrStmt)
  | WaitCond (cond : IrExpr) (sens : nat) (body : list IrStmt)
  | WaitEventTriggered (event : nat) (body : list IrStmt)
  | WaitOrder (events : nat) (success failure : list IrStmt)
  | Repeat (count : IrExpr) (body : list IrStmt)
  | Forever (body : list IrStmt)
  | For (init : list IrStmt) (cond : IrExpr) (incr body : list IrStmt)
  | Case (sel : IrExpr) (kind : IrCaseKind) (items : list (IrCaseItem IrStmt)) (check : IrUniquePriorityCheck)
  | Label (l : string)
  | Goto (l : string)
  | Leaf (tag : nat).

(** A statement with its bodies replaced by [g]; [f] acts on the statement
    under a provenance wrapper. *)
Definition stmt_map (f : IrStmt -> IrStmt) (g : list IrStmt -> list IrStmt) (s : IrStmt) : IrStmt :=
  match s with
  | Located o s' => Located o (f s')
  | Block b => Block (g b)
  | ActivationScope t exit b => ActivationScope t exit (g b)
  | ImmediateAssertion id c a b => ImmediateAssertion id c (option_map g a) (option_map g b)
  | If c t e check => If c (g t) (option_map g e) check
  | While c b => While c (g b)
  | WaitCond c sens b => WaitCond c sens (g b)
  | WaitEventTriggered ev b => WaitEventTriggered ev (g b)
  | WaitOrder evs a b => WaitOrder evs (g a) (g b)
  | Repeat n b => Repeat n (g b)
  | Forever b => Forever (g b)
  | For i c n b => For (g i) c (g n) (g b)
  | Case sel kind items check =>
      Case sel kind (map (fun it => mkItem (item_exprs it) (g (item_body it))) items) check
  | Label l => Label l
  | Goto l => Goto l
  | Leaf t => Leaf t
  end.

(** What [f] and [g] collect from the parts of a statement, in order. *)
Definition collect {A : Type} (f : IrStmt -> list A) (g : list IrStmt -> list A) (s : IrStmt) : list A :=
  let opt o := match o with Some b => g b | None => [] end in
  match s with
  | Located _ s' => f s'
  | Block b | ActivationScope _ _ b | While _ b | WaitCond _ _ b | WaitEventTriggered _ b | Repeat _ b
  | Forever b => g b
  | ImmediateAssertion _ _ a b => opt a ++ opt b
  | If _ t e _ => g t ++ opt e
  | WaitOrder _ a b => g a ++ g b
  | For i _ n b => g i ++ g n ++ g b
  | Case _ _ items _ => flat_map (fun it => g (item_body it)) items
  | Label _ | Goto _ | Leaf _ => []
  end.

(** [unlocated] *)
Fixpoint unlocated (s : IrStmt) : IrStmt :=
  match s with
  | Located _ s' => unlocated s'
  | _ => s
  end.

Definition label_of (s : IrStmt) : option string :=
  match unlocated s with Label l => Some l | _ => None end.

(** ** The pass *)

Definition truthy_const (e : IrExpr) : option bool :=
  match e_kind e with
  | Const c =>
      match c_real c with
      | Some r => Some (f64_nonzero r)
      | None => option_map (elab.contains Bit.One) (as_packed_const e)
      end
  | _ => None
  end.

Inductive Verdict : Type := VDefault | VUnmatched | VMatched | VUnknown.

Definition case_cmp (kind : IrCaseKind) (sel v : Value) : Value :=
  match kind with
  | Exact | RealCase | Inside => elab.case_eq sel v
  | Casex => elab.casex_eq sel v
  | Casez => elab.casez_eq sel v
  end.

Fixpoint verdict_loop (kind : IrCaseKind) (sel : Value) (exprs : list IrExpr) : Verdict :=
  match exprs with
  | [] => VUnmatched
  | ex :: rest =>
      match as_packed_const ex with
      | None => VUnknown
      | Some ev =>
          match kind with
          | RealCase | Inside => VUnknown
          | _ =>
              if bool_decide (to_u64 (case_cmp kind sel ev) = Some 1) then VMatched
              else verdict_loop kind sel rest
          end
      end
  end.

Definition verdict {S : Type} (kind : IrCaseKind) (sel : Value) (item : IrCaseItem S) : Verdict :=
  match item_exprs item with
  | [] => VDefault
  | exprs => verdict_loop kind sel exprs
  end.

(** The first-match scan. *)
Fixpoint first_match {S : Type} (kind : IrCaseKind) (sel : Value) (prefix_proven : bool)
    (items : list (IrCaseItem S)) : option (list S) :=
  match items with
  | [] => None
  | item :: rest =>
      match verdict kind sel item with
      | VUnmatched => first_match kind sel prefix_proven rest
      | VMatched => if prefix_proven then Some (item_body item) else first_match kind sel false rest
      | _ => first_match kind sel false rest
      end
  end.

(** The default scan: the first default body, and whether every other item is
    provably dead. *)
Fixpoint default_scan {S : Type} (kind : IrCaseKind) (sel : Value) (default_body : option (list S))
    (all_dead : bool) (items : list (IrCaseItem S)) : option (list S) * bool :=
  match items with
  | [] => (default_body, all_dead)
  | item :: rest =>
      match verdict kind sel item with
      | VUnmatched => default_scan kind sel default_body all_dead rest
      | VDefault =>
          let default_body := match default_body with Some b => Some b | None => Some (item_body item) end in
          default_scan kind sel default_body all_dead rest
      | _ => default_scan kind sel default_body false rest
      end
  end.

Definition pick_case_branch {S : Type} (sel : IrExpr) (kind : IrCaseKind) (items : list (IrCaseItem S))
    : option (list S) :=
  sel_v ← as_packed_const sel;
  match first_match kind sel_v true items with
  | Some body => Some body
  | None =>
      let '(default_body, all_dead) := default_scan kind sel_v None true items in
      if negb all_dead then None
      else match default_body with Some body => Some body | None => Some [] end
  end.

(** [prune_nested_in_place] of a statement and what [prune_stmt_list] puts out
    for it.  A case arm is chosen by the expressions of the items alone, so it
    is chosen here among the pruned items. *)
Fixpoint prune (s : IrStmt) : IrStmt * list IrStmt :=
  let prune_list := fun l => flat_map (fun c => snd (prune c)) l in
  let item_map := fun it => mkItem (item_exprs it) (prune_list (item_body it)) in
  let nested :=
    match s with
    | Located o s' => Located o (fst (prune s'))
    | Block b => Block (prune_list b)
    | ActivationScope t exit b => ActivationScope t exit (prune_list b)
    | ImmediateAssertion id c a b => ImmediateAssertion id c (option_map prune_list a) (option_map prune_list b)
    | If c t e check => if is_none check then If c (prune_list t) (option_map prune_list e) check else s
    | While c b =>
        match truthy_const c with
        | Some false => Block []
        | _ => While c (prune_list b)
        end
    | WaitCond c sens b =>
        match truthy_const c with
        | Some true => Block (prune_list b)
        | _ => WaitCond c sens (prune_list b)
        end
    | WaitEventTriggered ev b => WaitEventTriggered ev (prune_list b)
    | WaitOrder evs a b => WaitOrder evs (prune_list a) (prune_list b)
    | Repeat n b => Repeat n (prune_list b)
    | Forever b => Forever (prune_list b)
    | For i c n b => For (prune_list i) c (prune_list n) (prune_list b)
    | Case sel kind items check =>
        let pruned := map item_map items in
        if is_none check then
          match pick_case_branch sel kind pruned with
          | Some picked => Block picked
          | None => Case sel kind pruned check
          end
        else Case sel kind pruned check
    | Label _ | Goto _ | Leaf _ => s
    end in
  let listed :=
    match s with
    | If c t e check =>
        if is_none check then
          match truthy_const c with
          | Some true => prune_list t
          | Some false => match e with Some b => prune_list b | None => [] end
          | None => [If c (prune_list t) (option_map prune_list e) check]
          end
        else [nested]
    | _ => [nested]
    end in
  (nested, listed).

Definition prune_nested_in_place (s : IrStmt) : IrStmt := fst (prune s).
Definition prune_stmt_list (l : list IrStmt) : list IrStmt := flat_map (fun c => snd (prune c)) l.

Fixpoint goto_names (s : IrStmt) : list string :=
  match s with
  | Goto l => [l]
  | _ => collect goto_names (flat_map goto_names) s
  end.
Definition collect_goto_names (l : list IrStmt) : list string := flat_map goto_names l.

Definition retained (referenced : list string) (s : IrStmt) : bool :=
  match label_of s with
  | Some l => bool_decide (l ∈ referenced)
  | None => true
  end.

(** [retain] keeps the referenced labels of a list; the kept statements are
    stripped in turn. *)
Fixpoint strip_stmt (referenced : list string) (s : IrStmt) : IrStmt :=
  stmt_map (strip_stmt referenced)
    (fun l => flat_map (fun c => if retained referenced c then [strip_stmt referenced c] else []) l) s.
Definition strip_labels_in (l : list IrStmt) (referenced : list string) : list IrStmt :=
  flat_map (fun c => if retained referenced c then [strip_stmt referenced c] else []) l.

Definition strip_unreferenced_labels (l : list IrStmt) : list IrStmt :=
  strip_labels_in l (collect_goto_names l).

(** The expressions of the statements, rewritten. *)
Fixpoint map_exprs (f : IrExpr -> IrExpr) (s : IrStmt) : IrStmt :=
  match s with
  | Located o s' => Located o (map_exprs f s')
  | Block b => Block (map (map_exprs f) b)
  | ActivationScope t exit b => ActivationScope t exit (map (map_exprs f) b)
  | ImmediateAssertion id c a b =>
      ImmediateAssertion id (f c) (option_map (map (map_exprs f)) a) (option_map (map (map_exprs f)) b)
  | If c t e check => If (f c) (map (map_exprs f) t) (option_map (map (map_exprs f)) e) check
  | While c b => While (f c) (map (map_exprs f) b)
  | WaitCond c sens b => WaitCond (f c) sens (map (map_exprs f) b)
  | WaitEventTriggered ev b => WaitEventTriggered ev (map (map_exprs f) b)
  | WaitOrder evs a b => WaitOrder evs (map (map_exprs f) a) (map (map_exprs f) b)
  | Repeat n b => Repeat (f n) (map (map_exprs f) b)
  | Forever b => Forever (map (map_exprs f) b)
  | For i c n b => For (map (map_exprs f) i) (f c) (map (map_exprs f) n) (map (map_exprs f) b)
  | Case sel kind items check =>
      Case (f sel) kind
        (map (fun it => mkItem (map f (item_exprs it)) (map (map_exprs f) (item_body it))) items) check
  | Label l => Label l
  | Goto l => Goto l
  | Leaf t => Leaf t
  end.

(** The passes on one body: expressions first, then control flow. *)
Definition run_body (powf : f64 -> f64 -> f64) (visits : nat -> bool) (cfg : OptConfig) (l : list IrStmt)
    : list IrStmt :=
  let l := map (map_exprs (run_expr powf visits cfg)) l in
  if prune_branches cfg then strip_unreferenced_labels (prune_stmt_list l) else l.
