(* ===== verification/ControlSem.v ===== *)
(** * What statements do

    The meaning of the statements of [ControlFlow], following the control flow
    the C emitter writes ([src/sim/emit_c/owned/statements.rs]).  A statement
    relates the state it starts in to the outcomes of its runs: it is done, it
    jumps to a label outside, or it is cut off.  A run may be cut off at any
    point, so a process that never ends is described by the states it passes
    through.  A jump goes to a label of the innermost enclosing list, as
    [Frame::goto] resolves it. *)

From Stdlib Require Import ZArith Lia Ascii String SpecFloat.
From stdpp Require Import base list strings.
From S2P Require Import Prelude Elab ElabFacts Ir Folding Eval ControlFlow.

(** What the statements use of the rest of the runtime, on states of type
    [St]: the values of the expression kinds that are not modelled, the
    statements without bodies (with whether the process goes on), the
    suspension of a [wait], event waits, the flag of an ordered wait,
    diagnostics of qualifiers, assertion bookkeeping (with whether the action
    runs), and named activations. *)
Record Machine (St : Type) := mkMachine {
  m_other : St -> nat -> nat -> bool -> list RtVal -> RtVal;
  m_leaf : nat -> St -> bool -> St -> Prop;
  m_suspend : nat -> St -> St -> Prop;
  m_event : nat -> St -> St -> Prop;
  m_order : nat -> St -> comparison -> St -> Prop;
  m_report : IrUniquePriorityCheck -> St -> St;
  m_assert : nat -> bool -> St -> St * bool;
  m_enter : nat -> St -> St;
  m_leave : nat -> St -> St;
  m_cancelled : nat -> St -> Prop;
}.
Arguments m_other {St} m _ _ _ _ _.
Arguments m_leaf {St} m _ _ _ _.
Arguments m_suspend {St} m _ _ _.
Arguments m_event {St} m _ _ _.
Arguments m_order {St} m _ _ _ _.
Arguments m_report {St} m _ _.
Arguments m_assert {St} m _ _ _.
Arguments m_enter {St} m _ _.
Arguments m_leave {St} m _ _.
Arguments m_cancelled {St} m _ _.

(** [sv4_repeat_count]: no iteration for an unknown or negative count. *)
Definition repeat_count (r : RtVal) : nat :=
  let v := rt_bits r in
  if is_unknown v || (signed v && elab.first_is_one v) then 0%nat else Z.to_nat (uint (bits v)).

(** How an item expression is compared with the selector. *)
Definition item_match (kind : IrCaseKind) (sel v : RtVal) : bool :=
  match kind with
  | Inside => bool_decide (rt_condition v = Bit.One)
  | _ =>
      match sel, v with
      | RBits a, RBits b => bool_decide (elab.logical_bit (case_cmp kind a b) = Bit.One)
      | _, _ => SFeqb (rt_to_real sel) (rt_to_real v)
      end
  end.

Section Semantics.
Context {St : Type}.

Inductive outcome : Type :=
  | Done (st : St)
  | Jump (l : string) (st : St)
  | Stop (st : St).

Definition rel : Type := St -> outcome -> Prop.

Definition finished (r : outcome) : Prop := match r with Done _ => True | _ => False end.

Definition skip : rel := fun st r => r = Done st \/ r = Stop st.

(** [R], then [S] where [R] is done. *)
Definition andthen (R S : rel) : rel := fun st r =>
  (exists st', R st (Done st') /\ S st' r) \/ (R st r /\ ~ finished r).

(** ** Lists of statements *)

Definition elem : Type := option string * rel.

(** The part of a list behind a label. *)
Fixpoint find_label (t : string) (l : list elem) : option (list elem) :=
  match l with
  | [] => None
  | (lbl, _) :: l' => if bool_decide (lbl = Some t) then Some l' else find_label t l'
  end.

Inductive seq (full : list elem) : list elem -> rel :=
  | seq_stop l st : seq full l st (Stop st)
  | seq_nil st : seq full [] st (Done st)
  | seq_next lbl R l st st' r : R st (Done st') -> seq full l st' r -> seq full ((lbl, R) :: l) st r
  | seq_halt lbl R l st st' : R st (Stop st') -> seq full ((lbl, R) :: l) st (Stop st')
  | seq_jump lbl R l st t st' l' r :
      R st (Jump t st') -> find_label t full = Some l' -> seq full l' st' r -> seq full ((lbl, R) :: l) st r
  | seq_escape lbl R l st t st' :
      R st (Jump t st') -> find_label t full = None -> seq full ((lbl, R) :: l) st (Jump t st').

Definition block_of (l : list elem) : rel := seq l l.

(** ** Loops *)

(** [for (;;) { if (!guard) break; body; step }] *)
Inductive loop (guard : St -> bool) (body step : rel) : rel :=
  | loop_stop st : loop guard body step st (Stop st)
  | loop_exit st : guard st = false -> loop guard body step st (Done st)
  | loop_break st r : guard st = true -> andthen body step st r -> ~ finished r -> loop guard body step st r
  | loop_next st st' r :
      guard st = true -> andthen body step st (Done st') -> loop guard body step st' r -> loop guard body step st r.

Fixpoint times (n : nat) (body : rel) : rel :=
  match n with
  | O => skip
  | S n' => andthen body (times n' body)
  end.

(** ** Statements *)

Definition choose (c : bool) (R S : rel) : rel := if c then R else S.

(** The body of the first item with a matching expression, else of the first
    default. *)
Fixpoint matching (hit : IrExpr -> bool) (items : list (list IrExpr * rel)) : option rel :=
  match items with
  | [] => None
  | (exprs, R) :: rest => if existsb hit exprs then Some R else matching hit rest
  end.

Fixpoint default_arm (items : list (list IrExpr * rel)) : option rel :=
  match items with
  | [] => None
  | ([], R) :: _ => Some R
  | _ :: rest => default_arm rest
  end.

Definition select (hit : IrExpr -> bool) (items : list (list IrExpr * rel)) : rel :=
  match matching hit items with
  | Some R => R
  | None => match default_arm items with Some R => R | None => skip end
  end.

Context (m : Machine St) (powf : f64 -> f64 -> f64) (from_real : f64 -> nat -> bool -> Value).

Definition value (e : IrExpr) (st : St) : RtVal := eval powf from_real (m_other m st) e.
Definition truthy (e : IrExpr) (st : St) : bool := bool_decide (rt_condition (value e st) = Bit.One).

Definition report (check : IrUniquePriorityCheck) (st : St) : St :=
  if is_none check then st else m_report m check st.

Definition activation (target : nat) (exit : string) (body : rel) : rel := fun st r =>
  let close st' := Done (m_leave m target st') in
  (exists r', body (m_enter m target st) r' /\
     r = match r' with
         | Done st' => close st'
         | Jump l st' => if bool_decide (l = exit) then close st' else Jump l (m_leave m target st')
         | Stop st' => Stop st'
         end)
  \/ (exists st', body (m_enter m target st) (Stop st') /\ m_cancelled m target st' /\ r = close st').

Definition guarded_action (identity : nat) (c : IrExpr) (pass fail : rel) : rel := fun st r =>
  let b := truthy c st in
  let '(st', acts) := m_assert m identity b st in
  (if acts then choose b pass fail else skip) st' r.

Definition leaf (tag : nat) : rel := fun st r =>
  exists goes st', m_leaf m tag st goes st' /\ r = (if goes : bool then Done st' else Stop st').

(** An outside event that lets the process go on. *)
Definition awaited (R : St -> St -> Prop) : rel := fun st r =>
  r = Stop st \/ exists st', R st st' /\ r = Done st'.

Definition ordered (events : nat) (success failure : rel) : rel := fun st r =>
  r = Stop st \/ exists flag st', m_order m events st flag st' /\
    match flag with Gt => success st' r | Lt => failure st' r | Eq => skip st' r end.

Fixpoint den (s : IrStmt) : rel :=
  let blk := fun l => block_of (map (fun c => (label_of c, den c)) l) in
  let arm := fun o => match o with Some b => blk b | None => skip end in
  match s with
  | Located _ s' => den s'
  | Block b => blk b
  | ActivationScope t exit b => activation t exit (blk b)
  | ImmediateAssertion id c a b => guarded_action id c (arm a) (arm b)
  | If c t e check => fun st r => choose (truthy c st) (blk t) (arm e) (report check st) r
  | While c b => loop (truthy c) (blk b) skip
  | WaitCond c sens b =>
      andthen (loop (fun st => negb (truthy c st)) (awaited (m_suspend m sens)) skip) (blk b)
  | WaitEventTriggered ev b => andthen (awaited (m_event m ev)) (blk b)
  | WaitOrder evs a b => ordered evs (blk a) (blk b)
  | Repeat n b => fun st r => times (repeat_count (value n st)) (blk b) st r
  | Forever b => loop (fun _ => true) (blk b) skip
  | For i c n b => andthen (blk i) (loop (truthy c) (blk b) (blk n))
  | Case sel kind items check => fun st r =>
      select (fun e => item_match kind (value sel st) (value e st))
        (map (fun it => (item_exprs it, blk (item_body it))) items) (report check st) r
  | Label _ => skip
  | Goto l => fun st r => r = Jump l st
  | Leaf tag => leaf tag
  end.

Definition elems (l : list IrStmt) : list elem := map (fun c => (label_of c, den c)) l.
Definition run (l : list IrStmt) : rel := block_of (elems l).

End Semantics.
Arguments outcome St : clear implicits.
Arguments rel St : clear implicits.
Arguments elem St : clear implicits.
