(* ===== verification/ControlFacts.v ===== *)
(** * Lemmas on runs of statements

    Runs depend on the parts of a statement only through their runs; a nested
    list can be spliced into the list around it, and a label that is never a
    jump target can be dropped. *)

From Stdlib Require Import ZArith Lia Ascii String SpecFloat.
From stdpp Require Import base list strings.
From S2P Require Import Prelude Elab Ir Folding Eval ControlFlow ControlSem.

Section Relations.
Context {St : Type}.
Implicit Types (R S : rel St) (l full : list (elem St)) (r : outcome St).

(** Same runs, for relations and for lists of labelled relations. *)
Definition incl R S : Prop := forall st r, R st r -> S st r.
Definition same R S : Prop := forall st r, R st r <-> S st r.
Definition elem_incl (x y : elem St) : Prop := x.1 = y.1 /\ incl x.2 y.2.
Definition elem_same (x y : elem St) : Prop := x.1 = y.1 /\ same x.2 y.2.

#[export] Instance incl_preorder : PreOrder incl.
Proof. split; [by intros R st r|]. intros R S T H1 H2 st r H. by apply H2, H1. Qed.

#[export] Instance same_equivalence : Equivalence same.
Proof.
  split; [by intros R st r|by intros R S H st r; rewrite (H st r)|].
  intros R S T H1 H2 st r. by rewrite (H1 st r).
Qed.

#[export] Instance elem_same_equivalence : Equivalence elem_same.
Proof.
  split; [by intros x|intros x y [? ?]; by split|]. intros x y z [? ?] [? ?].
  split; [congruence|]. by transitivity y.2.
Qed.

Lemma same_incl R S : same R S -> incl R S /\ incl S R.
Proof. intros H. split; intros st r; apply H. Qed.

Lemma elem_same_incl l l' : Forall2 elem_same l l' -> Forall2 elem_incl l l' /\ Forall2 elem_incl l' l.
Proof.
  intros H. split; [|symmetry in H; revert l' l H; intros l' l H]; (eapply Forall2_impl; [exact H|]);
    intros x y [E [? ?]%same_incl]; by split.
Qed.

Lemma find_label_incl t l l' :
  Forall2 elem_incl l l' ->
  match find_label t l with
  | Some q => exists q', find_label t l' = Some q' /\ Forall2 elem_incl q q'
  | None => find_label t l' = None
  end.
Proof.
  intros H. induction H as [|[a R] [b S] l l' [E HR] Hl IH]; [done|]. cbn [find_label] in *. simpl in E. subst b.
  destruct (bool_decide _); [by exists l'|exact IH].
Qed.

Lemma seq_incl full full' l l' st r :
  Forall2 elem_incl full full' -> Forall2 elem_incl l l' -> seq full l st r -> seq full' l' st r.
Proof.
  intros Hf Hl Hs. revert l' Hl. induction Hs as [l st|st|lbl R l st st' r HR Hs IH|lbl R l st st' HR
    |lbl R l st t st' q r HR Hq Hs IH|lbl R l st t st' HR Hq]; intros l' Hl.
  - apply seq_stop.
  - inversion Hl. apply seq_nil.
  - inversion Hl as [|? [lb S] ? k [E HI] Hk]; subst. eapply seq_next; [by apply HI|]. by apply IH.
  - inversion Hl as [|? [lb S] ? k [E HI] Hk]; subst. eapply seq_halt. by apply HI.
  - inversion Hl as [|? [lb S] ? k [E HI] Hk]; subst. pose proof (find_label_incl t _ _ Hf) as F.
    rewrite Hq in F. destruct F as (q' & Fq & Hq'). eapply seq_jump; [by apply HI|exact Fq|]. by apply IH.
  - inversion Hl as [|? [lb S] ? k [E HI] Hk]; subst. pose proof (find_label_incl t _ _ Hf) as F.
    rewrite Hq in F. eapply seq_escape; [by apply HI|exact F].
Qed.

Lemma block_same l l' : Forall2 elem_same l l' -> same (block_of l) (block_of l').
Proof. intros [H1 H2]%elem_same_incl st r. split; by apply seq_incl. Qed.

Lemma andthen_incl R R' S S' : incl R R' -> incl S S' -> incl (andthen R S) (andthen R' S').
Proof.
  intros HR HS st r [(st' & H1 & H2)|[H1 H2]]; [left; exists st'; split; [by apply HR|by apply HS]|].
  right. split; [by apply HR|done].
Qed.

#[export] Instance andthen_same : Proper (same ==> same ==> same) andthen.
Proof.
  intros R R' [? ?]%same_incl S S' [? ?]%same_incl st r. split; by apply andthen_incl.
Qed.

Lemma loop_incl guard guard' R R' S S' :
  (forall st, guard st = guard' st) -> incl R R' -> incl S S' -> incl (loop guard R S) (loop guard' R' S').
Proof.
  intros Hg HR HS st r H. induction H as [st|st Hst|st r Hst Ha Hn|st st' r Hst Ha Hl IH]; rewrite ?Hg in *.
  - apply loop_stop.
  - by apply loop_exit.
  - apply loop_break; [done|by apply (andthen_incl R R' S S')|done].
  - eapply loop_next; [done|by apply (andthen_incl R R' S S')|exact IH].
Qed.

Lemma loop_same guard guard' R R' S S' :
  (forall st, guard st = guard' st) -> same R R' -> same S S' -> same (loop guard R S) (loop guard' R' S').
Proof. intros Hg [? ?]%same_incl [? ?]%same_incl st r. split; by apply loop_incl. Qed.

#[export] Instance times_same n : Proper (same ==> same) (times n).
Proof. intros R R' H. induction n as [|n IH]; [done|]. cbn [times]. by apply andthen_same. Qed.

#[export] Instance choose_same c : Proper (same ==> same ==> same) (choose c).
Proof. intros R R' HR S S' HS. by destruct c. Qed.

(** ** Where jumps come from *)

Definition jumps (x : elem St) (t : string) : Prop := exists st st', x.2 st (Jump t st').

Lemma find_label_suffix t l q : find_label t l = Some q -> q ⊆ l.
Proof.
  induction l as [|[a R] l IH]; [done|]. cbn [find_label]. destruct (bool_decide _).
  - injection 1 as ->. intros x Hx. by right.
  - intros H x Hx. right. by apply IH.
Qed.

Lemma seq_jumps full l st t st' :
  seq full l st (Jump t st') -> l ⊆ full -> exists x, x ∈ full /\ jumps x t.
Proof.
  remember (Jump t st') as r eqn:Er. intros Hs. revert Er.
  induction Hs as [l st|st|lbl R l st s1 r HR Hs IH|lbl R l st s1 HR
    |lbl R l st u s1 q r HR Hq Hs IH|lbl R l st u s1 HR Hq]; intros Er Hl; try done.
  - apply IH; [done|]. intros x Hx. apply Hl. by right.
  - apply IH; [done|]. by eapply find_label_suffix.
  - injection Er as -> ->. exists (lbl, R). split; [apply Hl; by left|]. by exists st, st'.
Qed.

Lemma seq_jumps_escape full l st t st' :
  seq full l st (Jump t st') -> find_label t full = None.
Proof.
  remember (Jump t st') as r eqn:Er. intros Hs. revert Er.
  induction Hs; intros Er; try done; [by auto..|]. by injection Er as -> ->.
Qed.

Lemma block_jumps l t : jumps (None, block_of l) t -> exists x, x ∈ l /\ jumps x t.
Proof. intros (st & st' & H). by eapply seq_jumps. Qed.

Lemma andthen_jumps R S t :
  jumps (None, andthen R S) t -> jumps (None, R) t \/ jumps (None, S) t.
Proof. intros (st & st' & [(s1 & _ & H)|[H _]]); [right|left]; by eexists _, _. Qed.

Lemma loop_jumps guard R S t : jumps (None, loop guard R S) t -> jumps (None, R) t \/ jumps (None, S) t.
Proof.
  intros (st & st' & H). simpl in H. remember (Jump t st') as r eqn:Er. revert Er.
  induction H as [st|st Hst|st r Hst Ha Hn|st s1 r Hst Ha Hl IH]; intros Er; try done.
  - subst. apply andthen_jumps. by exists st, st'.
  - by apply IH.
Qed.

Lemma times_jumps n R t : jumps (None, times n R) t -> jumps (None, R) t.
Proof.
  induction n as [|n IH]; [by intros (st & st' & [?|?])|]. cbn [times]. intros [H|H]%andthen_jumps; [done|by apply IH].
Qed.

(** ** Labels of a list *)

Definition lbls (l : list (elem St)) : list string := omap fst l.

Lemma lbls_app l l' : lbls (l ++ l') = lbls l ++ lbls l'.
Proof. apply omap_app. Qed.

Lemma find_label_none t l : find_label t l = None <-> t ∉ lbls l.
Proof.
  induction l as [|[lbl R] l IH]; [split; [intros _; apply not_elem_of_nil|done]|]. cbn [find_label].
  unfold lbls in *. cbn [omap list_omap]. destruct lbl as [a|]; simpl.
  - case_bool_decide as E; [injection E as ->; split; [done|intros H; exfalso; apply H; by left]|].
    rewrite IH, not_elem_of_cons. split; [intros H; split; [congruence|done]|by intros [_ ?]].
  - rewrite IH. done.
Qed.

Lemma find_label_app t l l' :
  find_label t (l ++ l') = match find_label t l with Some q => Some (q ++ l') | None => find_label t l' end.
Proof. induction l as [|[lbl R] l IH]; [done|]. cbn [find_label app]. by destruct (bool_decide _). Qed.

(** ** Splicing a nested list *)

Section Splice.
Context (X T Y : list (elem St)).
Hypothesis unique : NoDup (lbls (X ++ T ++ Y)).
Hypothesis outside : forall x t, x ∈ X ++ Y -> jumps x t -> t ∉ lbls T.

Let O := X ++ (None, block_of T) :: Y.
Let F := X ++ T ++ Y.

(** A jump that leaves [T] goes to the same place in both lists. *)
Lemma splice_find t : t ∉ lbls T ->
  (find_label t O = None /\ find_label t F = None)
  \/ (exists X', find_label t O = Some (X' ++ (None, block_of T) :: Y) /\ find_label t F = Some (X' ++ T ++ Y) /\ X' ⊆ X)
  \/ (exists Y', find_label t O = Some Y' /\ find_label t F = Some Y' /\ Y' ⊆ Y).
Proof.
  intros Ht. subst O F. rewrite !find_label_app. destruct (find_label t X) as [X'|] eqn:EX.
  - right. left. exists X'. split_and!; [done..|by eapply find_label_suffix].
  - apply find_label_none in Ht. rewrite Ht. cbn [find_label].
    rewrite bool_decide_eq_false_2 by done. destruct (find_label t Y) as [Y'|] eqn:EY; [|by left].
    right. right. exists Y'. split_and!; [done..|by eapply find_label_suffix].
Qed.

(** A jump inside [T] stays there. *)
Lemma splice_find_inner t q : find_label t T = Some q -> find_label t F = Some (q ++ Y).
Proof.
  intros Hq. subst F. rewrite !find_label_app.
  assert (Hx : find_label t X = None).
  { apply find_label_none. intros Hx. rewrite !lbls_app in unique. apply NoDup_app in unique as (_ & Hd & _).
    apply (Hd t Hx). apply elem_of_app. left. destruct (decide (t ∈ lbls T)) as [?|N]; [done|].
    apply find_label_none in N. congruence. }
  by rewrite Hx, Hq.
Qed.

(** The run of the outer list goes on after an outcome of the inner one. *)
Definition resume (full rest : list (elem St)) (r1 r : outcome St) : Prop :=
  match r1 with
  | Done st => seq full rest st r
  | Stop st => r = Stop st
  | Jump t st => match find_label t full with Some q => seq full q st r | None => r = Jump t st end
  end.

Lemma splice_inner_run T' st r1 r :
  seq T T' st r1 -> (forall x, x ∈ T' -> x ∈ T) -> resume F Y r1 r -> seq F (T' ++ Y) st r.
Proof.
  intros Hs. induction Hs as [l st|st|lbl R l st s1 r1 HR Hs IH|lbl R l st s1 HR
    |lbl R l st u s1 q r1 HR Hq Hs IH|lbl R l st u s1 HR Hq]; intros Hl Hr; cbn [resume app] in *.
  - subst. apply seq_stop.
  - exact Hr.
  - eapply seq_next; [exact HR|]. apply IH; [|done]. intros x Hx. apply Hl. by right.
  - subst. by eapply seq_halt.
  - eapply seq_jump; [exact HR|by apply splice_find_inner|]. apply IH; [|done]. by eapply find_label_suffix.
  - destruct (find_label u F) as [q|] eqn:Eq; [by eapply seq_jump|]. subst. by eapply seq_escape.
Qed.

Lemma splice_forward l st r :
  seq O l st r ->
  (forall X', X' ⊆ X -> l = X' ++ (None, block_of T) :: Y -> seq F (X' ++ T ++ Y) st r)
  /\ (l ⊆ Y -> seq F l st r).
Proof.
  intros Hs. induction Hs as [l st|st|lbl R l st s1 r HR Hs [IHX IHY]|lbl R l st s1 HR
    |lbl R l st u s1 q r HR Hq Hs [IHX IHY]|lbl R l st u s1 HR Hq].
  - split; intros; apply seq_stop.
  - split; [by intros [|] ? ?|intros _; apply seq_nil].
  - split.
    + intros [|x X'] HX E; simplify_eq/=.
      * apply (splice_inner_run T st (Done s1)); [exact HR|done|]. by apply IHY.
      * eapply seq_next; [exact HR|]. apply IHX; [|done]. intros y Hy. apply HX. by right.
    + intros HY. eapply seq_next; [exact HR|]. apply IHY. intros y Hy. apply HY. by right.
  - split.
    + intros [|x X'] HX E; simplify_eq/=; [|by eapply seq_halt].
      by apply (splice_inner_run T st (Stop s1)).
    + intros HY. by eapply seq_halt.
  - assert (Ju : u ∉ lbls T -> exists q', find_label u F = Some q' /\ seq F q' s1 r).
    { intros Hu. destruct (splice_find u Hu) as [[? ?]|[(X' & EO & EF & HX)|(Y' & EO & EF & HY)]]; [congruence| |].
      - exists (X' ++ T ++ Y). split; [done|]. rewrite EO in Hq. injection Hq as <-. by apply IHX.
      - exists Y'. split; [done|]. rewrite EO in Hq. injection Hq as <-. by apply IHY. }
    split.
    + intros [|x X'] HX E; simplify_eq/=.
      * apply (splice_inner_run T st (Jump u s1)); [exact HR|done|]. cbn [resume].
        apply seq_jumps_escape in HR. apply find_label_none in HR. destruct (Ju HR) as (q' & -> & ?). done.
      * destruct Ju as (q' & Fq & ?).
        { apply (outside (lbl, R)); [|by exists st, s1]. apply elem_of_app. left. apply HX. by left. }
        by eapply seq_jump.
    + intros HY. destruct Ju as (q' & Fq & ?).
      { apply (outside (lbl, R)); [|by exists st, s1]. apply elem_of_app. right. apply HY. by left. }
      by eapply seq_jump.
  - assert (Ju : u ∉ lbls T -> find_label u F = None).
    { intros Hu. destruct (splice_find u Hu) as [[? ?]|[(X' & EO & EF & HX)|(Y' & EO & EF & HY)]]; congruence. }
    split.
    + intros [|x X'] HX E; simplify_eq/=.
      * apply (splice_inner_run T st (Jump u s1)); [exact HR|done|]. cbn [resume].
        apply seq_jumps_escape in HR. apply find_label_none in HR. by rewrite Ju.
      * eapply seq_escape; [exact HR|]. apply Ju, (outside (lbl, R)); [|by exists st, s1].
        apply elem_of_app. left. apply HX. by left.
    + intros HY. eapply seq_escape; [exact HR|]. apply Ju, (outside (lbl, R)); [|by exists st, s1].
      apply elem_of_app. right. apply HY. by left.
Qed.

(** Where a run of the spliced list stands: in [X], in [T] or in [Y]. *)
Inductive cursor : Type := InX (X' : list (elem St)) | InT (T' : list (elem St)) | InY (Y' : list (elem St)).

Definition flat (c : cursor) : list (elem St) :=
  match c with InX X' => X' ++ T ++ Y | InT T' => T' ++ Y | InY Y' => Y' end.

Definition valid (c : cursor) : Prop :=
  match c with InX X' => X' ⊆ X | InT T' => T' ⊆ T | InY Y' => Y' ⊆ Y end.

(** The run of the nested list from the same place. *)
Definition nested_run (c : cursor) (st : St) (r : outcome St) : Prop :=
  match c with
  | InX X' => seq O (X' ++ (None, block_of T) :: Y) st r
  | InT T' => exists r1, seq T T' st r1 /\ resume O Y r1 r
  | InY Y' => seq O Y' st r
  end.

Lemma enter_block st r : nested_run (InT T) st r -> nested_run (InX []) st r.
Proof.
  intros (r1 & H1 & H2). cbn [nested_run app]. destruct r1 as [s1|t s1|s1]; cbn [resume] in H2.
  - by eapply seq_next.
  - destruct (find_label t O) as [q|] eqn:Eq; [by eapply seq_jump|]. subst. by eapply seq_escape.
  - subst. by eapply seq_halt.
Qed.

Lemma leave_block st r : nested_run (InY Y) st r -> nested_run (InT []) st r.
Proof. intros H. exists (Done st). split; [apply seq_nil|exact H]. Qed.

(** It is enough to look at cursors whose list is not used up. *)
Definition at_head (c : cursor) : Prop :=
  match c with InX X' => X' <> [] | InT T' => T' <> [] | InY _ => True end.

Lemma cursor_heads l st r :
  (forall c, at_head c -> flat c = l -> valid c -> nested_run c st r) ->
  forall c, flat c = l -> valid c -> nested_run c st r.
Proof.
  intros H.
  assert (HY : forall Y', flat (InY Y') = l -> valid (InY Y') -> nested_run (InY Y') st r) by (intros; by apply H).
  assert (HT : forall T', flat (InT T') = l -> valid (InT T') -> nested_run (InT T') st r).
  { intros [|x T'] E V; [|by apply H]. apply leave_block. apply HY; [exact E|by intros z]. }
  intros [[|x X']|T'|Y'] E V; [|by apply H|by apply HT|by apply HY]. apply enter_block. apply HT; [exact E|by intros z].
Qed.

(** The places a jump reaches in the two lists. *)
Lemma splice_target t q : t ∉ lbls T -> find_label t F = Some q ->
  exists c, flat c = q /\ valid c /\ forall st r, nested_run c st r -> exists q', find_label t O = Some q' /\ seq O q' st r.
Proof.
  intros Ht Hq. destruct (splice_find t Ht) as [[_ EF]|[(X' & EO & EF & HX)|(Y' & EO & EF & HY)]];
    [by rewrite EF in Hq| |]; rewrite EF in Hq; injection Hq as <-; [exists (InX X')|exists (InY Y')]; split_and!; try done; by eauto.
Qed.

Lemma splice_none t : t ∉ lbls T -> find_label t F = None -> find_label t O = None.
Proof.
  intros Ht Hq. destruct (splice_find t Ht) as [[EO _]|[(X' & EO & EF & HX)|(Y' & EO & EF & HY)]];
    [exact EO|by rewrite EF in Hq..].
Qed.

Lemma outer_head x c l :
  flat c = x :: l -> valid c -> at_head c ->
  match c with InT _ => False | _ => True end ->
  x ∈ X ++ Y /\ exists c', flat c' = l /\ valid c' /\
  forall st st' r, (x.2 st (Done st') -> nested_run c' st' r -> nested_run c st r)
    /\ (x.2 st (Stop st') -> nested_run c st (Stop st'))
    /\ (forall t, x.2 st (Jump t st') -> forall q, find_label t O = Some q -> seq O q st' r -> nested_run c st r)
    /\ (forall t, x.2 st (Jump t st') -> find_label t O = None -> nested_run c st (Jump t st')).
Proof.
  intros E V Hh Hc. destruct c as [[|y X']|T'|Y']; try done.
  - simpl in E. injection E as -> <-. split; [apply elem_of_app; left; apply V; by left|].
    exists (InX X'). split_and!; [done|intros z Hz; apply V; by right|]. destruct x as [lbl R].
    intros st st' r. split_and!; intros; cbn [nested_run app] in *; eauto using seq.
  - simpl in E. subst. split; [apply elem_of_app; right; apply V; by left|].
    exists (InY l). split_and!; [done|intros z Hz; apply V; by right|]. destruct x as [lbl R].
    intros st st' r. split_and!; intros; cbn [nested_run app] in *; eauto using seq.
Qed.

Lemma splice_backward l st r :
  seq F l st r -> forall c, flat c = l -> valid c -> nested_run c st r.
Proof.
  intros Hs. induction Hs as [l st|st|lbl R l st s1 r HR Hs IH|lbl R l st s1 HR
    |lbl R l st u s1 q r HR Hq Hs IH|lbl R l st u s1 HR Hq]; apply cursor_heads; intros c Hh E V.
  - destruct c as [X'|T'|Y']; [apply seq_stop| |apply seq_stop]. exists (Stop st). split; [apply seq_stop|done].
  - destruct c as [X'|T'|Y']; simpl in E.
    + by destruct X'.
    + by destruct T'.
    + subst. apply seq_nil.
  - destruct c as [X'|[|y T']|Y'] eqn:Ec; try done.
    2: { injection E as -> <-. destruct (IH (InT T') eq_refl) as (r1 & H1 & H2); [intros z Hz; apply V; by right|].
         exists r1. split; [by eapply seq_next|done]. }
    all: destruct (outer_head _ _ _ E V Hh I) as (_ & c' & E' & V' & H);
      destruct (H st s1 r) as (Hd & _); apply Hd; [exact HR|by apply IH].
  - destruct c as [X'|[|y T']|Y'] eqn:Ec; try done.
    2: { injection E as -> <-. exists (Stop s1). split; [by eapply seq_halt|done]. }
    all: destruct (outer_head _ _ _ E V Hh I) as (_ & c' & E' & V' & H);
      destruct (H st s1 (Stop s1)) as (_ & Hd & _); by apply Hd.
  - destruct c as [X'|[|y T']|Y'] eqn:Ec; try done.
    2: { injection E as -> <-. destruct (find_label u T) as [k|] eqn:Ek.
         - rewrite (splice_find_inner u k Ek) in Hq. injection Hq as <-.
           destruct (IH (InT k) eq_refl) as (r1 & H1 & H2); [by eapply find_label_suffix|].
           exists r1. split; [by eapply seq_jump|done].
         - destruct (splice_target u q) as (c' & E' & V' & H); [by apply find_label_none|done|].
           destruct (H s1 r) as (q' & Fq & Hrun); [by apply IH|]. exists (Jump u s1). split; [by eapply seq_escape|].
           cbn [resume]. by rewrite Fq. }
    all: destruct (outer_head _ _ _ E V Hh I) as (Hin & c' & E' & V' & H).
    all: destruct (splice_target u q) as (c2 & E2 & V2 & H2); [by apply (outside _ u Hin); exists st, s1|done|].
    all: destruct (H2 s1 r) as (q' & Fq & Hrun); [by apply IH|].
    all: destruct (H st s1 r) as (_ & _ & Hd & _); by eapply Hd.
  - destruct c as [X'|[|y T']|Y'] eqn:Ec; try done.
    2: { injection E as -> <-. assert (Hu : u ∉ lbls T).
         { destruct (find_label u T) as [k|] eqn:Ek; [|by apply find_label_none].
           by rewrite (splice_find_inner u k Ek) in Hq. }
         exists (Jump u s1). split; [eapply seq_escape; [exact HR|by apply find_label_none]|]. cbn [resume].
         by rewrite (splice_none u Hu Hq). }
    all: destruct (outer_head _ _ _ E V Hh I) as (Hin & c' & E' & V' & H).
    all: destruct (H st s1 (Stop s1)) as (_ & _ & _ & Hd); apply Hd; [exact HR|].
    all: apply splice_none; [by apply (outside _ u Hin); exists st, s1|done].
Qed.

Lemma splice_same : same (block_of O) (block_of F).
Proof.
  intros st r. split; intros H.
  - apply (proj1 (splice_forward _ st r H) X); [by intros z|done].
  - apply (splice_backward _ st r H (InX X)); [done|by intros z].
Qed.

End Splice.

(** ** Dropping labels *)

Section Drop.
Context (keep : elem St -> bool) (full : list (elem St)).
Hypothesis dropped_skip : forall x, x ∈ full -> keep x = false -> same x.2 skip.
Hypothesis dropped_target : forall x y t, x ∈ full -> y ∈ full -> keep y = false -> jumps x t -> y.1 <> Some t.

Local Abbreviation kept := (List.filter keep).

Lemma find_label_kept x t l :
  x ∈ full -> jumps x t -> l ⊆ full ->
  find_label t (kept l) = option_map kept (find_label t l).
Proof.
  intros Hx Hj. induction l as [|[lbl R] l IH]; intros Hl; [done|]. cbn [List.filter find_label].
  assert (Hl' : l ⊆ full) by (intros y Hy; apply Hl; by right). specialize (IH Hl').
  destruct (keep (lbl, R)) eqn:Ek; cbn [find_label]; [by case_bool_decide|].
  rewrite bool_decide_eq_false_2; [done|].
  apply (dropped_target x (lbl, R) t Hx); [apply Hl; by left|done|done].
Qed.

Lemma drop_forward l st r : seq full l st r -> l ⊆ full -> seq (kept full) (kept l) st r.
Proof.
  intros Hs. induction Hs as [l st|st|lbl R l st s1 r HR Hs IH|lbl R l st s1 HR
    |lbl R l st u s1 q r HR Hq Hs IH|lbl R l st u s1 HR Hq]; intros Hl.
  1: apply seq_stop. 1: apply seq_nil.
  all: assert (Hx : (lbl, R) ∈ full) by (apply Hl; by left).
  all: assert (Hl' : l ⊆ full) by (intros y Hy; apply Hl; by right).
  all: cbn [List.filter]; destruct (keep (lbl, R)) eqn:Ek.
  all: try (apply (proj1 (dropped_skip _ Hx Ek _ _)) in HR as [HR|HR]; simplify_eq).
  - eapply seq_next; [exact HR|]. by apply IH.
  - by apply IH.
  - by eapply seq_halt.
  - apply seq_stop.
  - eapply seq_jump; [exact HR| |apply IH; by eapply find_label_suffix].
    rewrite (find_label_kept (lbl, R)); [by rewrite Hq|done|by exists st, s1|done].
  - eapply seq_escape; [exact HR|].
    rewrite (find_label_kept (lbl, R)); [by rewrite Hq|done|by exists st, s1|done].
Qed.

(** A run of the kept list starts with any number of dropped labels. *)
Lemma skip_dropped l st r :
  l ⊆ full ->
  (forall x q, kept l = x :: q -> forall l', kept l' = q -> l' ⊆ full -> x ∈ full -> seq full (x :: l') st r) ->
  (kept l = [] -> r = Done st \/ r = Stop st) ->
  seq full l st r.
Proof.
  intros Hl Hc Hn. induction l as [|x l IH].
  - destruct (Hn eq_refl) as [-> | ->]; [apply seq_nil|apply seq_stop].
  - assert (Hx : x ∈ full) by (apply Hl; by left).
    assert (Hl' : l ⊆ full) by (intros y Hy; apply Hl; by right).
    cbn [List.filter] in *. destruct (keep x) eqn:Ek; [by eapply Hc|].
    destruct x as [lbl R]. eapply seq_next; [|by apply IH].
    apply (dropped_skip _ Hx Ek). by left.
Qed.

Lemma drop_backward k st r : seq (kept full) k st r -> forall l, kept l = k -> l ⊆ full -> seq full l st r.
Proof.
  intros Hs. induction Hs as [k st|st|lbl R k st s1 r HR Hs IH|lbl R k st s1 HR
    |lbl R k st u s1 q r HR Hq Hs IH|lbl R k st u s1 HR Hq]; intros l E Hl.
  1: apply seq_stop.
  all: apply skip_dropped; [done| |rewrite E; try done; by left]; rewrite E; intros x p Ex; try done;
    injection Ex as <- <-; intros l' El Hl' Hx.
  - eapply seq_next; [exact HR|]. by apply IH.
  - by eapply seq_halt.
  - rewrite (find_label_kept (lbl, R)) in Hq; [|done|by exists st, s1|by intros z].
    destruct (find_label u full) as [q'|] eqn:Eq; [|done]. injection Hq as <-.
    eapply seq_jump; [exact HR|exact Eq|]. apply IH; [done|by eapply find_label_suffix].
  - rewrite (find_label_kept (lbl, R)) in Hq; [|done|by exists st, s1|by intros z].
    destruct (find_label u full) as [q'|] eqn:Eq; [done|]. by eapply seq_escape.
Qed.

Lemma drop_same : same (block_of (kept full)) (block_of full).
Proof.
  intros st r. split; intros H.
  - apply (drop_backward _ st r H); [done|by intros z].
  - apply (drop_forward _ st r H). by intros z.
Qed.

End Drop.

End Relations.

(** * Statements: labels, jumps and congruence

    The parts, labels and jump targets of a statement, an induction principle
    over the parts, the scope rule of [Frame::goto], and the congruence of runs
    under the replacement of bodies. *)

#[local] Set Warnings "-clear-no-such-hyp".

(** ** Parts *)

Definition parts (s : IrStmt) : list IrStmt := collect (fun c => [c]) (fun l => l) s.
Definition bodies (s : IrStmt) : list (list IrStmt) :=
  match s with Located _ _ => [] | _ => collect (fun _ => []) (fun b => [b]) s end.

Fixpoint size (s : IrStmt) : nat := S (list_sum (collect (fun c => [size c]) (map size) s)).

Lemma collect_flat {A} (f : IrStmt -> list A) s : collect f (flat_map f) s = flat_map f (parts s).
Proof.
  unfold parts. destruct s; cbn [collect]; rewrite ?flat_map_app; try done.
  - cbn. by rewrite app_nil_r.
  - by destruct if_true, if_false.
  - by destruct els.
  - induction items as [|it items IH]; [done|]. cbn [flat_map]. rewrite flat_map_app. by f_equal.
Qed.

Lemma collect_map {A} (f : IrStmt -> A) s : collect (fun c => [f c]) (map f) s = map f (parts s).
Proof.
  unfold parts. destruct s; cbn [collect]; rewrite ?map_app; try done.
  - by destruct if_true, if_false.
  - by destruct els.
  - induction items as [|it items IH]; [done|]. cbn [flat_map]. rewrite map_app. by f_equal.
Qed.

Lemma part_size s c : c ∈ parts s -> (size c < size s)%nat.
Proof.
  intros Hc. assert (E : size s = S (list_sum (map size (parts s)))) by (rewrite <- collect_map; by destruct s).
  rewrite E. clear E. induction (parts s) as [|d l IH]; [by apply elem_of_nil in Hc|].
  cbn [map list_sum foldr] in *. apply elem_of_cons in Hc as [-> | Hc]; [lia|].
  specialize (IH Hc). unfold list_sum in IH. lia.
Qed.

Lemma IrStmt_parts_ind (P : IrStmt -> Prop) :
  (forall s, Forall P (parts s) -> P s) -> forall s, P s.
Proof.
  intros H s. remember (size s) as n eqn:En. revert s En.
  induction n as [n IH] using lt_wf_ind. intros s ->. apply H, Forall_forall. intros c Hc.
  apply (IH (size c)); [by apply part_size|done].
Qed.

Lemma body_parts s b : b ∈ bodies s -> b ⊆ parts s.
Proof.
  unfold bodies, parts. destruct s; cbn [collect]; intros Hb x Hx;
    try (apply elem_of_nil in Hb; done); try (by apply list_elem_of_singleton in Hb; subst).
  - destruct if_true, if_false; cbn in *; rewrite ?elem_of_app, ?elem_of_cons, ?elem_of_nil in *; naive_solver.
  - destruct els; cbn in *; rewrite ?elem_of_app, ?elem_of_cons, ?elem_of_nil in *; naive_solver.
  - cbn in *. rewrite ?elem_of_app, ?elem_of_cons, ?elem_of_nil in *. naive_solver.
  - cbn in *. rewrite ?elem_of_app, ?elem_of_cons, ?elem_of_nil in *. naive_solver.
  - induction items as [|it items IH]; [by apply elem_of_nil in Hb|]. cbn [flat_map app] in *.
    apply elem_of_app. apply elem_of_cons in Hb as [-> | Hb]; [by left|right; by apply IH].
Qed.

(** ** Labels and the scope of jumps *)

(** Every label of a statement, the exits of activations included. *)
Fixpoint labels (s : IrStmt) : list string :=
  match s with
  | Label l => [l]
  | ActivationScope _ exit b => exit :: flat_map labels b
  | _ => collect labels (flat_map labels) s
  end.
Definition list_labels (l : list IrStmt) : list string := flat_map labels l.

(** The labels at the top of a list, and those further inside a statement. *)
Definition direct (l : list IrStmt) : list string := omap label_of l.
Definition inner (s : IrStmt) : list string := match label_of s with Some _ => [] | None => labels s end.

(** [Frame::goto]: a jump names a label of an enclosing list, or the exit of
    an enclosing activation. *)
Fixpoint resolved (scope : list string) (s : IrStmt) : bool :=
  match s with
  | Goto l => bool_decide (l ∈ scope)
  | ActivationScope _ exit b => forallb (resolved (direct b ++ exit :: scope)) b
  | _ =>
      forallb (fun b => b)
        (collect (fun c => [resolved scope c]) (fun b => map (resolved (direct b ++ scope)) b) s)
  end.
Definition list_resolved (scope : list string) (l : list IrStmt) : bool :=
  forallb (resolved (direct l ++ scope)) l.

Lemma goto_names_parts s : goto_names s = match s with Goto l => [l] | _ => flat_map goto_names (parts s) end.
Proof. destruct s; try done; cbn [goto_names]; by rewrite collect_flat. Qed.

Lemma labels_parts s :
  labels s = match s with
             | Label l => [l]
             | ActivationScope _ exit b => exit :: list_labels b
             | _ => list_labels (parts s)
             end.
Proof. destruct s; try done; cbn [labels]; by rewrite collect_flat. Qed.

Lemma label_of_labels s l : label_of s = Some l -> labels s = [l] /\ goto_names s = [].
Proof.
  unfold label_of. induction s; cbn [unlocated labels goto_names collect]; try done. by injection 1 as ->.
Qed.

Lemma part_gotos s c : c ∈ parts s -> goto_names c ⊆ goto_names s.
Proof.
  intros Hc x Hx. rewrite goto_names_parts. destruct s; try (by apply elem_of_nil in Hc);
    apply list_elem_of_In, in_flat_map; exists c; split; by apply list_elem_of_In.
Qed.

Lemma body_gotos s b : b ∈ bodies s -> collect_goto_names b ⊆ goto_names s.
Proof.
  intros Hb x Hx. apply list_elem_of_In, in_flat_map in Hx as (c & Hc & Hx).
  apply (part_gotos s c); [|by apply list_elem_of_In]. apply (body_parts s b Hb). by apply list_elem_of_In.
Qed.

(** ** Congruence *)

Section Congruence.
Context {St : Type} (m : Machine St) (powf : f64 -> f64 -> f64) (from_real : f64 -> nat -> bool -> Value).

Local Abbreviation den := (den m powf from_real).
Local Abbreviation run := (run m powf from_real).
Local Abbreviation elems := (elems m powf from_real).

Definition item_same (x y : list IrExpr * rel St) : Prop := x.1 = y.1 /\ same x.2 y.2.

Lemma select_same hit xs ys : Forall2 item_same xs ys -> same (select hit xs) (select hit ys).
Proof.
  intros H. unfold select.
  assert (Hm : match matching hit xs, matching hit ys with
    | Some R, Some R' => same R R' | None, None => True | _, _ => False end).
  { induction H as [|[e R] [e' S] xs ys [E HR] _ IH]; [done|]. simpl in E. subst e'. cbn [matching].
    by destruct (existsb hit e). }
  assert (Hd : match default_arm xs, default_arm ys with
    | Some R, Some R' => same R R' | None, None => True | _, _ => False end).
  { clear Hm. induction H as [|[e R] [e' S] xs ys [E HR] _ IH]; [done|]. simpl in E. subst e'. cbn [default_arm].
    by destruct e. }
  destruct (matching hit xs), (matching hit ys); try done.
  by destruct (default_arm xs), (default_arm ys).
Qed.

#[export] Instance activation_same t exit : Proper (same ==> same) (activation m t exit).
Proof.
  intros R S H st r. unfold activation.
  split; (intros [(r' & H1 & H2)|(st' & H1 & H2)]; [left; exists r'|right; exists st']; (split; [by apply H|done])).
Qed.

#[export] Instance guarded_same id c : Proper (same ==> same ==> same) (guarded_action m powf from_real id c).
Proof.
  intros R R' HR S S' HS st r. unfold guarded_action. destruct (m_assert m id _ st) as [st' []]; [|done].
  by apply choose_same.
Qed.

#[export] Instance ordered_same evs : Proper (same ==> same ==> same) (ordered m evs).
Proof.
  intros R R' HR S S' HS st r. unfold ordered.
  split; (intros [?|(flag & st' & H1 & H2)]; [by left|right; exists flag, st'; split; [done|]]);
    destruct flag; try done; (by apply HR) || (by apply HS).
Qed.

Lemma arm_same (g : list IrStmt -> list IrStmt) (o : option (list IrStmt)) :
  (forall b, o = Some b -> same (run (g b)) (run b)) ->
  same (match option_map g o with Some b => run b | None => skip end)
       (match o with Some b => run b | None => skip end).
Proof. intros H. destruct o as [b|]; [by apply H|done]. Qed.

Lemma items_same (g : list IrStmt -> list IrStmt) (items : list (IrCaseItem IrStmt)) :
  (forall it, it ∈ items -> same (run (g (item_body it))) (run (item_body it))) ->
  Forall2 item_same
    (map (fun it => (item_exprs it, run (item_body it)))
       (map (fun it => mkItem (item_exprs it) (g (item_body it))) items))
    (map (fun it => (item_exprs it, run (item_body it))) items).
Proof.
  intros H. induction items as [|it items IH]; [done|]. cbn [map item_exprs item_body]. constructor.
  - split; [done|]. apply H. by left.
  - apply IH. intros x Hx. apply H. by right.
Qed.

(** Replacing the bodies by bodies with the same runs. *)
Lemma stmt_map_same f g s :
  Forall (fun b => same (run (g b)) (run b)) (bodies s) ->
  (forall o c, s = Located o c -> same (den (f c)) (den c)) ->
  same (den (stmt_map f g s)) (den s).
Proof.
  intros Hb Hf. destruct s; unfold bodies in Hb; cbn [collect stmt_map] in *; try done;
    rewrite ?Forall_app, ?Forall_cons in Hb; cbn [ControlSem.den].
  - by apply (Hf origin).
  - apply Hb.
  - apply activation_same, Hb.
  - destruct Hb as [Ha Hb]. apply guarded_same; apply arm_same; intros b ->; [by inversion_clear Ha|by inversion_clear Hb].
  - destruct Hb as [Ht He]. intros st r. apply choose_same; [by apply Ht|].
    apply arm_same. intros b ->. by inversion_clear He.
  - apply loop_same; [done|apply Hb|done].
  - apply andthen_same; [done|apply Hb].
  - apply andthen_same; [done|apply Hb].
  - apply ordered_same; apply Hb.
  - intros st r. apply times_same. apply Hb.
  - apply loop_same; [done|apply Hb|done].
  - apply andthen_same; [apply Hb|]. apply loop_same; [done|apply Hb|apply Hb].
  - intros st r. apply select_same. apply items_same. intros it Hit.
    rewrite Forall_forall in Hb. apply Hb. apply list_elem_of_In, in_flat_map. exists it.
    split; [by apply list_elem_of_In|by left].
Qed.

End Congruence.
