(* ===== verification/ControlProps.v ===== *)
(** * Pruning keeps the runs of a body

    Constant conditions are decided as at run time, a chosen case arm is the
    arm that would run, and pruning and label stripping leave the runs of a
    body unchanged when its labels are unique and its jumps are in scope. *)

From Stdlib Require Import ZArith Lia Ascii String SpecFloat.
From stdpp Require Import base list strings.
From S2P Require Import Prelude Elab ElabFacts ElabProps ElabOrder Ir Folding Eval PassFacts PassProps PassClaims ControlFlow ControlSem ControlFacts.

Section Prune.
Context {St : Type} (m : Machine St) (powf : f64 -> f64 -> f64) (from_real : f64 -> nat -> bool -> Value).

Local Abbreviation den := (den m powf from_real).
Local Abbreviation run := (run m powf from_real).
Local Abbreviation elems := (elems m powf from_real).
Local Abbreviation value := (value m powf from_real).
Local Abbreviation truthy := (truthy m powf from_real).

(** ** Jumps of a statement *)

Lemma run_jumps l t : jumps (None, run l) t -> exists c, c ∈ l /\ jumps (None, den c) t.
Proof.
  intros H. apply block_jumps in H as (x & Hx & Hj). unfold ControlSem.elems in Hx.
  apply list_elem_of_In, in_map_iff in Hx as (c & <- & Hc). exists c. split; [by apply list_elem_of_In|]. exact Hj.
Qed.

Lemma skip_jumps t : ~ jumps (None, @skip St) t.
Proof. by intros (st & st' & [?|?]). Qed.

Lemma matching_elem hit (xs : list (list IrExpr * rel St)) R :
  matching hit xs = Some R -> exists x, x ∈ xs /\ x.2 = R.
Proof.
  induction xs as [|[e R'] xs IH]; [done|]. cbn [matching]. destruct (existsb hit e).
  - injection 1 as ->. exists (e, R). split; [by left|done].
  - intros H. destruct (IH H) as (x & ? & ?). exists x. split; [by right|done].
Qed.

Lemma default_elem (xs : list (list IrExpr * rel St)) R : default_arm xs = Some R -> exists x, x ∈ xs /\ x.2 = R.
Proof.
  induction xs as [|[e R'] xs IH]; [done|]. cbn [default_arm]. destruct e.
  - injection 1 as ->. exists ([], R). split; [by left|done].
  - intros H. destruct (IH H) as (x & ? & ?). exists x. split; [by right|done].
Qed.

Lemma select_jumps hit (xs : list (list IrExpr * rel St)) t :
  jumps (None, select hit xs) t -> exists x, x ∈ xs /\ jumps (None, x.2) t.
Proof.
  unfold select. destruct (matching hit xs) as [R|] eqn:Em.
  - destruct (matching_elem hit xs R Em) as (x & Hx & <-). by exists x.
  - destruct (default_arm xs) as [R|] eqn:Ed; [|by intros H%skip_jumps].
    destruct (default_elem xs R Ed) as (x & Hx & <-). by exists x.
Qed.

Lemma den_jumps s t : jumps (None, den s) t -> t ∈ goto_names s.
Proof.
  revert t. induction s as [s IH] using IrStmt_parts_ind. intros t H.
  assert (Hb : forall b, b ∈ bodies s -> jumps (None, run b) t -> t ∈ goto_names s).
  { intros b Hb Hj. destruct (run_jumps b t Hj) as (c & Hc & Hd). rewrite Forall_forall in IH.
    apply (part_gotos s c); [by apply (body_parts s b)|]. apply IH; [by apply (body_parts s b)|done]. }
  assert (Ho : forall o, (forall b, o = Some b -> b ∈ bodies s) ->
    jumps (None, match o with Some b => run b | None => skip end) t -> t ∈ goto_names s).
  { intros [b|] Hin; [apply Hb; by apply Hin|by intros ?%skip_jumps]. }
  destruct s; cbn [ControlSem.den] in H; unfold bodies in Hb, Ho; cbn [collect] in Hb, Ho.
  - cbn [goto_names collect]. unfold parts in IH. cbn [collect] in IH. rewrite Forall_cons in IH. by apply IH.
  - eapply Hb; [by left|exact H].
  - destruct H as (st & st' & [(r & Hr & E)|(st1 & _ & _ & E)]); [|done]. destruct r as [|l st1|]; try done.
    case_bool_decide; [done|]. injection E as -> _. eapply Hb; [by left|]. by eexists _, _.
  - destruct H as (st & st' & H). cbn in H. unfold guarded_action in H. destruct (m_assert m identity _ st) as [st1 []].
    + destruct (truthy condition st).
      * apply (Ho if_true); [intros b ->; by left|by exists st1, st'].
      * apply (Ho if_false); [intros b ->; apply elem_of_app; right; by left|by exists st1, st'].
    + exfalso. apply (skip_jumps t). by exists st1, st'.
  - destruct H as (st & st' & H). cbn in H. destruct (truthy cond st).
    + eapply Hb; [by left|by eexists _, _].
    + apply (Ho els); [intros b ->; right; by left|by eexists _, _].
  - apply loop_jumps in H as [H|H]; [|by apply skip_jumps in H]. eapply Hb; [by left|exact H].
  - apply andthen_jumps in H as [H|H].
    + apply loop_jumps in H as [H|H]; [|by apply skip_jumps in H]. by destruct H as (st & st' & [?|(? & _ & ?)]).
    + eapply Hb; [by left|exact H].
  - apply andthen_jumps in H as [H|H]; [by destruct H as (st & st' & [?|(? & _ & ?)])|]. eapply Hb; [by left|exact H].
  - destruct H as (st & st' & [?|(flag & st1 & _ & H)]); [done|]. destruct flag.
    + exfalso. apply (skip_jumps t). by exists st1, st'.
    + eapply Hb; [right; by left|by exists st1, st'].
    + eapply Hb; [by left|by exists st1, st'].
  - destruct H as (st & st' & H). cbn in H. eapply Hb; [by left|]. apply (times_jumps (repeat_count (value count st))).
    by exists st, st'.
  - apply loop_jumps in H as [H|H]; [|by apply skip_jumps in H]. eapply Hb; [by left|exact H].
  - apply andthen_jumps in H as [H|H]; [eapply Hb; [by left|exact H]|].
    apply loop_jumps in H as [H|H]; (eapply Hb; [|exact H]); [right; right; by left|right; by left].
  - destruct H as (st & st' & H). cbn in H.
    edestruct (select_jumps (fun e => item_match kind (value sel st) (value e st))) as (x & Hx & Hj); [by eexists _, _|].
    apply list_elem_of_In, in_map_iff in Hx as (it & <- & Hit). eapply Hb; [|exact Hj].
    apply list_elem_of_In, in_flat_map. exists it. split; [done|by left].
  - by apply skip_jumps in H.
  - destruct H as (st & st' & E). injection E as -> _. by left.
  - by destruct H as (st & st' & [] & st1 & _ & ?).
Qed.

(** ** Constant conditions and case arms *)

Lemma truthy_const_sound e b st : truthy_const e = Some b -> truthy e st = b.
Proof.
  destruct e as [k w s fl]. unfold truthy_const, ControlSem.truthy, ControlSem.value. cbn [e_kind]. destruct k; try done.
  cbn [eval]. destruct (c_real c) as [x|] eqn:Er.
  - injection 1 as <-. cbn [rt_condition]. by destruct (f64_nonzero x).
  - unfold as_packed_const. cbn [e_kind]. destruct (const_to_value c) as [v|] eqn:Ev; [|done]. cbn. injection 1 as <-.
    rewrite (const_value_some c v Ev). unfold elab.logical_bit. destruct (elab.contains Bit.One v); [done|].
    by destruct (is_unknown v).
Qed.

(** The comparisons of a case give a known bit. *)
Lemma case_cmp_cases kind a b : exists z, case_cmp kind a b = from_u64 (Z.b2z z) 1 false.
Proof.
  assert (Hz : forall n i x y, exists z, elab.casez_loop x y i n = from_u64 (Z.b2z z) 1 false).
  { induction n as [|n IH]; intros i x y; [by exists true|]. cbn [elab.casez_loop]. destruct (_ && _); [by exists false|apply IH]. }
  assert (Hx : forall n i x y, exists z, elab.casex_loop x y i n = from_u64 (Z.b2z z) 1 false).
  { induction n as [|n IH]; intros i x y; [by exists true|]. cbn [elab.casex_loop].
    destruct (bit_unknown _); [apply IH|]. destruct (Bit.eqb _ _); [apply IH|].
    destruct (bit_unknown _); [apply IH|by exists false]. }
  destruct kind; cbn [case_cmp]; try (by eexists); [apply Hx|apply Hz].
Qed.

Lemma case_cmp_match kind a b :
  bool_decide (to_u64 (case_cmp kind a b) = Some 1) = bool_decide (elab.logical_bit (case_cmp kind a b) = Bit.One).
Proof. destruct (case_cmp_cases kind a b) as [[] ->]; done. Qed.

Lemma verdict_loop_sound kind v exprs st sel :
  value sel st = RBits v ->
  match verdict_loop kind v exprs with
  | VUnmatched => existsb (fun e => item_match kind (value sel st) (value e st)) exprs = false
  | VMatched => existsb (fun e => item_match kind (value sel st) (value e st)) exprs = true
  | VUnknown => True
  | VDefault => False
  end.
Proof.
  intros Hs. induction exprs as [|ex exprs IH]; [done|]. cbn [verdict_loop existsb].
  destruct (as_packed_const ex) as [ev|] eqn:Ee; [|done].
  apply as_packed_eval with (powf := powf) (from_real := from_real) (other := m_other m st) in Ee.
  assert (Hm : forall k, k <> Inside -> item_match k (value sel st) (value ex st)
    = bool_decide (elab.logical_bit (case_cmp k v ev) = Bit.One)).
  { intros k Hk. rewrite Hs. unfold ControlSem.value. rewrite Ee. by destruct k. }
  destruct kind; try done; rewrite Hm, <- case_cmp_match by done; (case_bool_decide; [done|exact IH]).
Qed.

Definition arms (items : list (IrCaseItem IrStmt)) : list (list IrExpr * rel St) :=
  map (fun it => (item_exprs it, run (item_body it))) items.

Lemma first_match_false kind v (items : list (IrCaseItem IrStmt)) : first_match kind v false items = None.
Proof. induction items as [|it items IH]; [done|]. cbn [first_match]. by destruct (verdict kind v it). Qed.

Lemma first_match_sound kind v items body st sel :
  value sel st = RBits v -> first_match kind v true items = Some body ->
  select (fun e => item_match kind (value sel st) (value e st)) (arms items) = run body.
Proof.
  intros Hs. set (hit := fun e => _). intros H.
  enough (E : matching hit (arms items) = Some (run body)) by (unfold select; by rewrite E).
  induction items as [|it items IH]; [done|]. cbn [first_match] in H. unfold verdict in H.
  destruct (item_exprs it) as [|e es] eqn:Ei; [by rewrite first_match_false in H|].
  pose proof (verdict_loop_sound kind v (e :: es) st sel Hs) as Hv. fold hit in Hv.
  unfold arms. cbn [map matching]. rewrite Ei.
  destruct (verdict_loop kind v (e :: es)); try (by rewrite first_match_false in H); rewrite Hv; [by apply IH|].
  by injection H as <-.
Qed.

Lemma default_scan_dead kind v d (items : list (IrCaseItem IrStmt)) : snd (default_scan kind v d false items) = false.
Proof.
  revert d. induction items as [|it items IH]; intros d; [done|]. cbn [default_scan].
  destruct (verdict kind v it); apply IH.
Qed.

Lemma default_scan_sound kind v d items d' st sel :
  value sel st = RBits v -> default_scan kind v d true items = (d', true) ->
  let hit := fun e => item_match kind (value sel st) (value e st) in
  matching hit (arms items) = None
  /\ option_map run d' = match d with Some b => Some (run b) | None => default_arm (arms items) end.
Proof.
  intros Hs. cbv zeta. set (hit := fun e => _). revert d. induction items as [|it items IH]; intros d H.
  - injection H as <-. split; [done|]. by destruct d.
  - cbn [default_scan] in H. unfold verdict in H. unfold arms. cbn [map matching default_arm].
    destruct (item_exprs it) as [|e es] eqn:Ei.
    + destruct (IH _ H) as [Hm Hd]. split; [exact Hm|]. rewrite Hd. by destruct d.
    + pose proof (verdict_loop_sound kind v (e :: es) st sel Hs) as Hv. fold hit in Hv.
      assert (Hn : forall d0, default_scan kind v d0 false items = (d', true) -> False).
      { intros d0 E. pose proof (default_scan_dead kind v d0 items) as D. by rewrite E in D. }
      destruct (verdict_loop kind v (e :: es)); try (by apply Hn in H); [done|]. rewrite Hv. by apply IH.
Qed.

(** The arm the pass picks is the arm that runs. *)
Lemma pick_case_sound sel kind items body st :
  pick_case_branch sel kind items = Some body ->
  same (select (fun e => item_match kind (value sel st) (value e st)) (arms items)) (run body).
Proof.
  unfold pick_case_branch. destruct (as_packed_const sel) as [v|] eqn:Es; [|done]. cbn [mbind option_bind].
  apply as_packed_eval with (powf := powf) (from_real := from_real) (other := m_other m st) in Es.
  destruct (first_match kind v true items) as [b|] eqn:Ef.
  - injection 1 as <-. by rewrite (first_match_sound kind v items b st sel Es Ef).
  - destruct (default_scan kind v None true items) as [d [|]] eqn:Ed; [|done]. cbn [negb]. intros H.
    destruct (default_scan_sound kind v None items d st sel Es Ed) as [Hm Hd].
    unfold select. rewrite Hm. destruct d as [b|]; cbn [option_map] in Hd; rewrite <- Hd; injection H as <-; [done|].
    intros st1 r. split.
    + intros [-> | ->]; [apply seq_nil|apply seq_stop].
    + intros Hr. inversion Hr; subst; [by right|by left].
Qed.

Lemma pick_case_body {A} sel kind (items : list (IrCaseItem A)) body :
  pick_case_branch sel kind items = Some body -> body = [] \/ exists it, it ∈ items /\ body = item_body it.
Proof.
  unfold pick_case_branch. destruct (as_packed_const sel) as [v|]; [|done]. cbn [mbind option_bind].
  assert (Hf : forall p, first_match kind v p items = Some body -> exists it, it ∈ items /\ body = item_body it).
  { induction items as [|it items IH]; intros p; [done|]. cbn [first_match].
    destruct (verdict kind v it), p; intros H;
      try (destruct (IH _ H) as (x & ? & ?); exists x; split; [by right|done]).
    injection H as <-. exists it. split; [by left|done]. }
  assert (Hd : forall d a, fst (default_scan kind v d a items) = Some body ->
    d = Some body \/ exists it, it ∈ items /\ body = item_body it).
  { clear Hf. induction items as [|it items IH]; intros d a; [by left|]. cbn [default_scan].
    destruct (verdict kind v it); intros H; (destruct (IH _ _ H) as [E|(x & ? & ?)];
      [|right; exists x; split; [by right|done]]); try (by left).
    destruct d; [by left|]. injection E as <-. right. exists it. split; [by left|done]. }
  destruct (first_match kind v true items) as [b|] eqn:Ef; [intros [= ->]; right; by apply (Hf true)|].
  destruct (default_scan kind v None true items) as [d [|]] eqn:Ed; [|done]. cbn [negb].
  destruct d as [b|]; [|intros [= <-]; by left]. intros [= ->]. right.
  destruct (Hd None true) as [?|?]; [by rewrite Ed|done|done].
Qed.

Lemma pick_case_map {A B} (g : list A -> list B) sel kind (items : list (IrCaseItem A)) :
  g [] = [] ->
  pick_case_branch sel kind (map (fun it => mkItem (item_exprs it) (g (item_body it))) items)
  = option_map g (pick_case_branch sel kind items).
Proof.
  intros Hg. unfold pick_case_branch. destruct (as_packed_const sel) as [v|]; [|done]. cbn [mbind option_bind].
  assert (Hf : forall p, first_match kind v p (map (fun it => mkItem (item_exprs it) (g (item_body it))) items)
    = option_map g (first_match kind v p items)).
  { induction items as [|it items IH]; intros p; [done|]. cbn [map first_match]. unfold verdict in *. cbn [item_exprs item_body].
    rewrite !IH. destruct (item_exprs it); [done|]. by destruct (verdict_loop kind v _), p. }
  assert (Hd : forall d a, default_scan kind v (option_map g d) a (map (fun it => mkItem (item_exprs it) (g (item_body it))) items)
    = (option_map g (fst (default_scan kind v d a items)), snd (default_scan kind v d a items))).
  { clear Hf. induction items as [|it items IH]; intros d a; [done|]. cbn [map default_scan]. unfold verdict in *.
    cbn [item_exprs item_body]. destruct (item_exprs it).
    - rewrite <- IH. by destruct d.
    - destruct (verdict_loop kind v _); try apply IH. rewrite <- IH. by destruct d. }
  rewrite Hf. destruct (first_match kind v true items); [done|]. cbn [option_map].
  specialize (Hd None true). cbn [option_map] in Hd. rewrite Hd.
  destruct (default_scan kind v None true items) as [d []]; cbn [fst snd negb]; [|done]. destruct d; cbn; by rewrite ?Hg.
Qed.

End Prune.

(** * The optimiser on statement bodies

    The shape of pruned statements, their labels and jumps, and the theorem
    that the passes keep the runs of a body. *)

#[local] Set Warnings "-clear-no-such-hyp".

(** ** The shape of a pruned statement *)

Lemma is_none_unchecked c : is_none c = true -> c = Unchecked.
Proof. by destruct c. Qed.

Lemma prune_nested_cases s :
  prune_nested_in_place s = stmt_map prune_nested_in_place prune_stmt_list s
  \/ prune_nested_in_place s = s
  \/ (exists c b, s = While c b /\ truthy_const c = Some false /\ prune_nested_in_place s = Block [])
  \/ (exists c n b, s = WaitCond c n b /\ truthy_const c = Some true
        /\ prune_nested_in_place s = Block (prune_stmt_list b))
  \/ (exists sel k items p, s = Case sel k items Unchecked /\ pick_case_branch sel k items = Some p
        /\ prune_nested_in_place s = Block (prune_stmt_list p)).
Proof.
  unfold prune_nested_in_place. destruct s; try (by left).
  - cbn [prune fst]. destruct (is_none check); [by left|by right; left].
  - cbn [prune fst]. destruct (truthy_const cond) as [[]|] eqn:E; try (by left).
    right. right. left. by exists cond, body.
  - cbn [prune fst]. destruct (truthy_const cond) as [[]|] eqn:E; try (by left).
    right. right. right. left. by exists cond, sens, body.
  - cbn [prune fst]. fold prune_stmt_list. destruct (is_none check) eqn:Ec; [|by left]. apply is_none_unchecked in Ec. subst.
    change (fun it => mkItem (item_exprs it) (flat_map (fun c => snd (prune c)) (item_body it)))
      with (fun it => mkItem (item_exprs it) (prune_stmt_list (item_body it))).
    rewrite (pick_case_map prune_stmt_list) by done. destruct (pick_case_branch sel kind items) as [p|] eqn:Ep; [|by left].
    right. right. right. right. by exists sel, kind, items, p.
Qed.

Lemma prune_listed_cases s :
  snd (prune s) = [prune_nested_in_place s]
  \/ exists c t e b, s = If c t e Unchecked /\ truthy_const c = Some b
     /\ snd (prune s) = prune_stmt_list (if b : bool then t else default [] e).
Proof.
  destruct s; try (by left). unfold prune_nested_in_place. cbn [prune snd fst].
  destruct (is_none check) eqn:Ec; [|by left]. apply is_none_unchecked in Ec. subst.
  destruct (truthy_const cond) as [b|] eqn:E; [|by left]. right. exists cond, then_, els, b.
  split_and!; [done..|]. destruct b; [done|]. by destruct els.
Qed.

Lemma label_of_prune s : label_of (prune_nested_in_place s) = label_of s.
Proof.
  unfold label_of. induction s; unfold prune_nested_in_place in *; cbn [prune fst unlocated]; try done.
  - by destruct (is_none check).
  - by destruct (truthy_const cond) as [[]|].
  - by destruct (truthy_const cond) as [[]|].
  - destruct (is_none check); [|done]. by destruct (pick_case_branch _ _ _).
Qed.

(** ** Labels and jumps are not added *)

Lemma flat_map_sub {A B} (f : A -> list B) l l' : l ⊆+ l' -> flat_map f l ⊆+ flat_map f l'.
Proof.
  induction 1 as [|x l l' _ IH|x y l|x l l' _ IH|]; cbn [flat_map].
  - done.
  - by apply submseteq_skips_l.
  - rewrite !app_assoc. apply submseteq_skips_r. by rewrite (comm (++)).
  - by apply submseteq_inserts_l.
  - by etrans.
Qed.

Lemma flat_map_pointwise {A B} (f g : A -> list B) l :
  (forall x, x ∈ l -> f x ⊆+ g x) -> flat_map f l ⊆+ flat_map g l.
Proof.
  induction l as [|x l IH]; intros H; [done|]. cbn [flat_map]. apply submseteq_app; [apply H; by left|].
  apply IH. intros y Hy. apply H. by right.
Qed.

Lemma flat_map_flat_map {A B C} (f : A -> list B) (g : B -> list C) l :
  flat_map g (flat_map f l) = flat_map (fun x => flat_map g (f x)) l.
Proof. induction l as [|x l IH]; [done|]. cbn [flat_map]. by rewrite flat_map_app, IH. Qed.

Section Collected.
Context (h : IrStmt -> list string).
Hypothesis h_block : forall b, h (Block b) = flat_map h b.
Hypothesis h_body : forall s b, b ∈ bodies s -> flat_map h b ⊆+ h s.
Hypothesis h_map : forall f g s,
  (forall b, b ∈ bodies s -> flat_map h (g b) ⊆+ flat_map h b) ->
  (forall o c, s = Located o c -> h (f c) ⊆+ h c) -> h (stmt_map f g s) ⊆+ h s.

Lemma prune_collected s : h (prune_nested_in_place s) ⊆+ h s /\ flat_map h (snd (prune s)) ⊆+ h s.
Proof.
  induction s as [s IH] using IrStmt_parts_ind. rewrite Forall_forall in IH.
  assert (Hb : forall b, b ⊆ parts s -> flat_map h (prune_stmt_list b) ⊆+ flat_map h b).
  { intros b Hb. unfold prune_stmt_list. rewrite flat_map_flat_map. apply flat_map_pointwise.
    intros c Hc. by apply IH, Hb. }
  assert (Hn : h (prune_nested_in_place s) ⊆+ h s).
  { destruct (prune_nested_cases s) as [-> | [-> | [(c & b & -> & _ & ->)|[(c & n & b & -> & _ & ->)
      |(sel & k & items & p & -> & Hp & ->)]]]].
    - apply h_map; [intros b Hin; apply Hb; by apply body_parts|]. intros o c ->. apply IH. by left.
    - done.
    - rewrite h_block. apply submseteq_nil_l.
    - rewrite h_block. etrans; [apply Hb; by intros x|]. apply h_body. by left.
    - rewrite h_block. destruct (pick_case_body _ _ _ _ Hp) as [-> | (it & Hit & ->)]; [apply submseteq_nil_l|].
      assert (Hin : item_body it ∈ bodies (Case sel k items Unchecked)).
      { apply list_elem_of_In, in_flat_map. exists it. split; [by apply list_elem_of_In|by left]. }
      etrans; [apply Hb; by apply body_parts|]. by apply h_body. }
  split; [done|]. destruct (prune_listed_cases s) as [-> | (c & t & e & b & -> & _ & ->)].
  - cbn [flat_map]. by rewrite app_nil_r.
  - assert (Hin : forall d, d ∈ bodies (If c t e Unchecked) -> flat_map h (prune_stmt_list d) ⊆+ h (If c t e Unchecked)).
    { intros d Hd. etrans; [apply Hb; by apply body_parts|by apply h_body]. }
    destruct b; [apply Hin; by left|]. destruct e as [e|]; [apply Hin; right; by left|apply submseteq_nil_l].
Qed.

End Collected.

Lemma collect_body (h : IrStmt -> list string) s b : b ∈ bodies s -> flat_map h b ⊆+ collect h (flat_map h) s.
Proof.
  unfold bodies. destruct s; cbn [collect]; intros Hb; try (by apply elem_of_nil in Hb);
    try (apply list_elem_of_singleton in Hb; by subst).
  - destruct if_true, if_false; cbn in *; rewrite ?elem_of_cons, ?elem_of_nil in Hb; naive_solver eauto using submseteq_inserts_l, submseteq_inserts_r.
  - destruct els; cbn in *; rewrite ?elem_of_cons, ?elem_of_nil in Hb; naive_solver eauto using submseteq_inserts_l, submseteq_inserts_r.
  - cbn in *; rewrite ?elem_of_cons, ?elem_of_nil in Hb; naive_solver eauto using submseteq_inserts_l, submseteq_inserts_r.
  - cbn in *; rewrite ?elem_of_cons, ?elem_of_nil in Hb; naive_solver eauto using submseteq_inserts_l, submseteq_inserts_r.
  - induction items as [|it items IH]; [by apply elem_of_nil in Hb|]. cbn [flat_map app] in *.
    apply elem_of_cons in Hb as [-> | Hb]; [by apply submseteq_inserts_r|]. apply submseteq_inserts_l. by apply IH.
Qed.

Lemma collect_stmt_map (h : IrStmt -> list string) f g s :
  (forall b, b ∈ bodies s -> flat_map h (g b) ⊆+ flat_map h b) ->
  (forall o c, s = Located o c -> h (f c) ⊆+ h c) ->
  collect h (flat_map h) (stmt_map f g s) ⊆+ collect h (flat_map h) s.
Proof.
  unfold bodies. destruct s; cbn [collect stmt_map]; intros Hb Hf; try done.
  - by apply (Hf origin).
  - apply Hb. by left.
  - apply Hb. by left.
  - apply submseteq_app; [destruct if_true|destruct if_false]; try done; apply Hb, elem_of_app; [left|right]; by left.
  - apply submseteq_app; [apply Hb; by left|]. destruct els; [|done]. apply Hb. right. by left.
  - apply Hb. by left.
  - apply Hb. by left.
  - apply Hb. by left.
  - apply submseteq_app; apply Hb; [by left|right; by left].
  - apply Hb. by left.
  - apply Hb. by left.
  - repeat apply submseteq_app; apply Hb; [by left|right; by left|right; right; by left].
  - rewrite flat_map_concat_map, map_map, <- flat_map_concat_map. apply flat_map_pointwise. intros it Hit.
    cbn [item_body]. apply Hb. apply list_elem_of_In, in_flat_map. exists it. split; [by apply list_elem_of_In|by left].
Qed.

Lemma prune_gotos s : goto_names (prune_nested_in_place s) ⊆+ goto_names s /\ collect_goto_names (snd (prune s)) ⊆+ goto_names s.
Proof.
  apply prune_collected; [done| |].
  - intros t b Hb. destruct t; try (by apply elem_of_nil in Hb); by apply (collect_body goto_names).
  - intros f g t H1 H2. destruct t; try done; exact (collect_stmt_map goto_names f g _ H1 H2).
Qed.

Lemma prune_labels s : labels (prune_nested_in_place s) ⊆+ labels s /\ list_labels (snd (prune s)) ⊆+ labels s.
Proof.
  apply prune_collected; [done| |].
  - intros t b Hb. destruct t; try (by apply elem_of_nil in Hb); try (by apply (collect_body labels)).
    apply list_elem_of_singleton in Hb. subst. by apply submseteq_cons.
  - intros f g t H1 H2. destruct t; try done; try exact (collect_stmt_map labels f g _ H1 H2).
    cbn [stmt_map labels]. apply submseteq_skip. apply H1. by left.
Qed.

(** ** Scopes *)

Lemma label_elem s l : label_of s = Some l -> l ∈ labels s.
Proof. intros H. rewrite (proj1 (label_of_labels s l H)). by left. Qed.

Lemma direct_sub l : direct l ⊆+ list_labels l.
Proof.
  induction l as [|c l IH]; [done|]. unfold direct, list_labels in *. cbn [omap list_omap flat_map].
  destruct (label_of c) as [a|] eqn:E; simpl.
  - rewrite (proj1 (label_of_labels c a E)). by apply submseteq_skip.
  - by apply submseteq_inserts_l.
Qed.

Lemma direct_app l l' : direct (l ++ l') = direct l ++ direct l'.
Proof. apply omap_app. Qed.

Lemma direct_with X c Y : label_of c = None -> direct (X ++ c :: Y) ++ labels c ⊆+ list_labels (X ++ c :: Y).
Proof.
  intros Hc. rewrite direct_app. unfold direct at 2. cbn [omap list_omap]. rewrite Hc. fold (direct Y).
  unfold list_labels. rewrite flat_map_app. cbn [flat_map]. rewrite <- app_assoc. apply submseteq_app; [apply direct_sub|].
  rewrite (comm (++) (direct Y)). apply submseteq_app; [done|apply direct_sub].
Qed.

Lemma NoDup_sub {A} (l l' : list A) : l ⊆+ l' -> NoDup l' -> NoDup l.
Proof. intros [k Hk]%submseteq_Permutation H. rewrite Hk in H. by apply NoDup_app in H as [? _]. Qed.

Lemma parts_in_bodies s c : c ∈ parts s -> (exists o, s = Located o c) \/ exists b, b ∈ bodies s /\ c ∈ b.
Proof.
  unfold parts, bodies. destruct s; cbn [collect]; intros Hc; try (by apply elem_of_nil in Hc);
    try (right; eexists; split; [by left|exact Hc]).
  - left. apply list_elem_of_singleton in Hc. subst. by eexists.
  - right. destruct if_true, if_false; cbn in *; rewrite ?elem_of_app, ?elem_of_nil in Hc;
      destruct_or?; try done; eexists; (split; [|exact Hc]); by repeat constructor.
  - right. destruct els; cbn in *; rewrite ?elem_of_app, ?elem_of_nil in Hc;
      destruct_or?; try done; eexists; (split; [|exact Hc]); by repeat constructor.
  - right. rewrite elem_of_app in Hc. destruct Hc as [Hc|Hc]; eexists; (split; [|exact Hc]); by repeat constructor.
  - right. rewrite !elem_of_app in Hc. destruct Hc as [Hc|[Hc|Hc]]; eexists; (split; [|exact Hc]); by repeat constructor.
  - right. apply list_elem_of_In, in_flat_map in Hc as (it & Hit & Hc). exists (item_body it).
    split; [apply list_elem_of_In, in_flat_map; exists it; split; [done|by left]|by apply list_elem_of_In].
Qed.

Lemma collect_body_bool (f : IrStmt -> list bool) (g : list IrStmt -> IrStmt -> bool) s b d :
  b ∈ bodies s -> In d b -> In (g b d) (collect f (fun b => map (g b) b) s).
Proof.
  intros Hb Hd. assert (Hi : In (g b d) (map (g b) b)) by (by apply in_map).
  unfold bodies in Hb. destruct s; cbn [collect] in *; try (by apply elem_of_nil in Hb);
    try (apply list_elem_of_singleton in Hb; by subst).
  - destruct if_true, if_false; cbn in *; rewrite ?elem_of_cons, ?elem_of_nil in Hb; rewrite ?in_app_iff; naive_solver.
  - destruct els; cbn in *; rewrite ?elem_of_cons, ?elem_of_nil in Hb; rewrite ?in_app_iff; naive_solver.
  - cbn in *; rewrite ?elem_of_cons, ?elem_of_nil in Hb; rewrite ?in_app_iff; naive_solver.
  - cbn in *; rewrite ?elem_of_cons, ?elem_of_nil in Hb; rewrite ?in_app_iff; naive_solver.
  - apply list_elem_of_In, in_flat_map in Hb as (it & Hit & [<- | []]). apply in_flat_map. by exists it.
Qed.

(** The jumps of a resolved statement go to the scope or to labels inside. *)
Lemma resolved_gotos s scope : resolved scope s = true -> goto_names s ⊆ scope ++ labels s.
Proof.
  revert scope. induction s as [s IH] using IrStmt_parts_ind. intros scope H t Ht. rewrite Forall_forall in IH.
  assert (Hbody : forall b sc, b ∈ bodies s -> forallb (resolved (direct b ++ sc)) b = true ->
    t ∈ collect_goto_names b -> t ∈ sc ++ labels s).
  { intros b sc Hb Hr Hg. apply list_elem_of_In, in_flat_map in Hg as (c & Hc & Hg). rewrite forallb_forall in Hr.
    apply list_elem_of_In in Hg. pose proof Hc as Hc'. apply list_elem_of_In in Hc'.
    apply (IH c) with (scope := direct b ++ sc) in Hg; [|by apply (body_parts s b)|by apply (Hr c)].
    assert (Hl : list_labels b ⊆ labels s).
    { intros x Hx. eapply elem_of_submseteq; [exact Hx|].
      destruct s; try (by apply elem_of_nil in Hb); try (by apply (collect_body labels)).
      apply list_elem_of_singleton in Hb. subst. by apply submseteq_cons. }
    rewrite <- app_assoc, !elem_of_app in Hg. apply elem_of_app. destruct Hg as [Hg|[Hg|Hg]]; [right|by left|right].
    - apply Hl. eapply elem_of_submseteq; [exact Hg|apply direct_sub].
    - apply Hl. apply list_elem_of_In, in_flat_map. exists c. split; [done|by apply list_elem_of_In]. }
  assert (Hgen : forallb (fun b => b) (collect (fun c => [resolved scope c]) (fun b => map (resolved (direct b ++ scope)) b) s) = true ->
    t ∈ flat_map goto_names (parts s) -> match s with ActivationScope _ _ _ => False | _ => True end -> t ∈ scope ++ labels s).
  { intros Hr Hg Ha. apply list_elem_of_In, in_flat_map in Hg as (c & Hc & Hg). apply list_elem_of_In in Hc, Hg.
    destruct (parts_in_bodies s c Hc) as [(o & ->)|(b & Hb & Hcb)].
    - cbn [collect forallb] in Hr. rewrite andb_true_r in Hr. apply (IH c Hc scope Hr) in Hg. exact Hg.
    - apply (Hbody b scope Hb); [|apply list_elem_of_In, in_flat_map; exists c; split; by apply list_elem_of_In].
      rewrite forallb_forall in Hr. apply forallb_forall. intros d Hd. apply Hr.
      exact (collect_body_bool _ (fun b => resolved (direct b ++ scope)) s b d Hb Hd). }
  rewrite goto_names_parts in Ht. destruct s; try (by apply Hgen); try (by apply elem_of_nil in Ht).
  - cbn [resolved] in H. apply (Hbody body (exit :: scope)) in H; [|by left|exact Ht].
    apply elem_of_app. apply elem_of_app in H as [H|H]; [|by right].
    apply elem_of_cons in H as [-> | H]; [right; by left|by left].
  - apply list_elem_of_singleton in Ht. subst. cbn [resolved] in H. apply bool_decide_eq_true_1 in H.
    apply elem_of_app. by left.
Qed.

(** No jump of the other statements of a list goes into one of them. *)
Lemma jumps_outside scope X c Y t :
  label_of c = None -> list_resolved scope (X ++ c :: Y) = true -> NoDup (scope ++ list_labels (X ++ c :: Y)) ->
  t ∈ collect_goto_names (X ++ Y) -> t ∉ labels c.
Proof.
  intros Hc Hr Hn Ht Hin. apply list_elem_of_In, in_flat_map in Ht as (d & Hd & Ht). apply list_elem_of_In in Hd, Ht.
  unfold list_resolved in Hr. rewrite forallb_forall in Hr.
  assert (Hdl : d ∈ X ++ c :: Y) by (rewrite elem_of_app, elem_of_cons in *; tauto).
  apply (resolved_gotos d (direct (X ++ c :: Y) ++ scope)) in Ht; [|by apply Hr, list_elem_of_In].
  apply NoDup_app in Hn as (_ & Hs & Hn). rewrite <- app_assoc, !elem_of_app in Ht.
  assert (Hall : t ∈ list_labels (X ++ c :: Y)).
  { unfold list_labels. rewrite flat_map_app. cbn [flat_map]. rewrite !elem_of_app. by right; left. }
  destruct Ht as [Ht|[Ht|Ht]].
  - pose proof (NoDup_sub _ _ (direct_with X c Y Hc) Hn) as N. apply NoDup_app in N as (_ & N & _). by apply (N t).
  - by apply (Hs t).
  - assert (N : NoDup (list_labels (X ++ Y) ++ labels c)).
    { eapply NoDup_sub; [|exact Hn]. unfold list_labels. rewrite !flat_map_app. cbn [flat_map].
      rewrite <- app_assoc. apply submseteq_app; [done|]. by rewrite (comm (++)). }
    apply NoDup_app in N as (_ & N & _). apply (N t); [|done].
    apply list_elem_of_In, in_flat_map. exists d. split; by apply list_elem_of_In.
Qed.

Lemma list_resolved_elem scope l c :
  list_resolved scope l = true -> NoDup (scope ++ list_labels l) -> c ∈ l -> label_of c = None ->
  resolved (direct l ++ scope) c = true /\ NoDup ((direct l ++ scope) ++ labels c).
Proof.
  intros Hr Hn Hc Hl. unfold list_resolved in Hr. rewrite forallb_forall in Hr.
  split; [by apply Hr, list_elem_of_In|]. apply list_elem_of_split in Hc as (X & Y & ->).
  eapply NoDup_sub; [|exact Hn]. rewrite (comm (++) (direct _)), <- app_assoc.
  apply submseteq_app; [done|]. by apply direct_with.
Qed.

Lemma body_scope s scope b :
  resolved scope s = true -> NoDup (scope ++ labels s) -> b ∈ bodies s ->
  exists scope', list_resolved scope' b = true /\ NoDup (scope' ++ list_labels b).
Proof.
  intros Hr Hn Hb.
  assert (Hgen : forallb (fun b => b) (collect (fun c => [resolved scope c]) (fun b => map (resolved (direct b ++ scope)) b) s) = true ->
    list_labels b ⊆+ labels s -> exists scope', list_resolved scope' b = true /\ NoDup (scope' ++ list_labels b)).
  { intros Hg Hl. exists scope. split.
    - rewrite forallb_forall in Hg. apply forallb_forall. intros d Hd. apply Hg.
      exact (collect_body_bool _ (fun b => resolved (direct b ++ scope)) s b d Hb Hd).
    - eapply NoDup_sub; [|exact Hn]. by apply submseteq_app. }
  destruct s; try (by apply elem_of_nil in Hb); try (apply Hgen; [exact Hr|by apply (collect_body labels)]).
  apply list_elem_of_singleton in Hb. subst. exists (exit :: scope). split; [exact Hr|].
  eapply NoDup_sub; [|exact Hn]. cbn [labels app]. by rewrite <- Permutation_middle.
Qed.

Lemma located_scope scope o s :
  resolved scope (Located o s) = true -> NoDup (scope ++ labels (Located o s)) ->
  resolved scope s = true /\ NoDup (scope ++ labels s).
Proof. cbn [resolved collect forallb labels]. rewrite andb_true_r. done. Qed.

(** ** Pruning *)

Section Runs.
Context {St : Type} (m : Machine St) (powf : f64 -> f64 -> f64) (from_real : f64 -> nat -> bool -> Value).

Local Abbreviation den := (den m powf from_real).
Local Abbreviation run := (run m powf from_real).
Local Abbreviation elems := (elems m powf from_real).

Lemma lbls_elems l : lbls (elems l) = direct l.
Proof.
  induction l as [|c l IH]; [done|]. unfold lbls, direct, ControlSem.elems in *. cbn [map omap list_omap fst].
  destruct (label_of c); [f_equal|]; exact IH.
Qed.

Lemma elems_app l l' : elems (l ++ l') = elems l ++ elems l'.
Proof. apply map_app. Qed.

Lemma elems_jumps l x t : x ∈ elems l -> jumps x t -> t ∈ collect_goto_names l.
Proof.
  intros Hx Hj. apply list_elem_of_In, in_map_iff in Hx as (c & <- & Hc). apply list_elem_of_In, in_flat_map.
  exists c. split; [done|]. apply list_elem_of_In. by apply (den_jumps m powf from_real).
Qed.

(** What pruning puts out for a statement stands for it. *)
Definition replaced (c : IrStmt) : Prop :=
  (snd (prune c) = [prune_nested_in_place c] /\ same (den (prune_nested_in_place c)) (den c))
  \/ (label_of c = None /\ same (den c) (run (snd (prune c)))).

Lemma prune_list_same l pre :
  Forall replaced l ->
  NoDup (lbls pre ++ list_labels l) ->
  (forall x t c, x ∈ pre -> jumps x t -> c ∈ l -> label_of c = None -> t ∉ labels c) ->
  (forall X c Y t, l = X ++ c :: Y -> label_of c = None -> t ∈ collect_goto_names (X ++ Y) -> t ∉ labels c) ->
  same (block_of (pre ++ elems l)) (block_of (pre ++ elems (prune_stmt_list l))).
Proof.
  revert pre. induction l as [|c l IH]; intros pre Hrep Hn Hpre Hout; [done|].
  inversion_clear Hrep as [|? ? Hc Hl].
  change (prune_stmt_list (c :: l)) with (snd (prune c) ++ prune_stmt_list l). rewrite elems_app, app_assoc.
  assert (Hgoto : forall t d, t ∈ goto_names c -> d ∈ l -> label_of d = None -> t ∉ labels d).
  { intros t d Ht Hd Hld. apply list_elem_of_split in Hd as (X & Y & ->). apply (Hout (c :: X) d Y t); [done..|].
    apply list_elem_of_In, in_flat_map. exists c. split; [by left|by apply list_elem_of_In]. }
  assert (Hstep : NoDup (lbls (pre ++ elems (snd (prune c))) ++ list_labels l)).
  { eapply NoDup_sub; [|exact Hn]. rewrite lbls_app, lbls_elems, <- app_assoc. apply submseteq_app; [done|].
    apply submseteq_app; [|done]. etrans; [apply direct_sub|apply prune_labels]. }
  etrans; [|apply IH; [done|done| |]].
  - destruct Hc as [[-> Hs]|[Hlc Hs]].
    + apply block_same. rewrite <- app_assoc. apply Forall2_app; [done|]. constructor; [|done].
      split; [by rewrite label_of_prune|]. simpl. by symmetry.
    + etrans.
      * apply (block_same _ (pre ++ (None, block_of (elems (snd (prune c)))) :: elems l)).
        apply Forall2_app; [done|]. constructor; [|done]. by split.
      * rewrite <- app_assoc. apply splice_same.
        -- rewrite app_assoc, lbls_app, lbls_elems. eapply NoDup_sub; [|exact Hstep].
           apply submseteq_app; [done|apply direct_sub].
        -- intros x t Hx Hj. rewrite lbls_elems. intros Hin.
           assert (Hin' : t ∈ labels c).
           { eapply elem_of_submseteq; [exact Hin|]. etrans; [apply direct_sub|apply prune_labels]. }
           apply elem_of_app in Hx as [Hx|Hx].
           ++ revert Hin'. apply (Hpre x t c); [done|done|by left|done].
           ++ revert Hin'. apply (Hout [] c l t); [done|done|]. by eapply elems_jumps.
  - intros x t d Hx Hj Hd Hld. apply elem_of_app in Hx as [Hx|Hx].
    + apply (Hpre x t d); [done|done|by right|done].
    + apply Hgoto; [|done|done]. eapply elem_of_submseteq; [by eapply elems_jumps|apply prune_gotos].
  - intros X d Y t -> Hld Ht. apply (Hout (c :: X) d Y t); [done|done|].
    apply list_elem_of_In, in_flat_map. apply list_elem_of_In, in_flat_map in Ht as (z & Hz & Ht).
    exists z. split; [by right|done].
Qed.

Lemma label_prune c l : label_of c = Some l -> prune_nested_in_place c = c /\ snd (prune c) = [c].
Proof.
  unfold label_of. assert (H : forall c, unlocated c = Label l -> prune_nested_in_place c = c).
  { induction c0; cbn [unlocated]; try done. intros H. unfold prune_nested_in_place in *. cbn [prune fst]. by rewrite IHc0. }
  destruct (unlocated c) eqn:E; try done. intros [= ->]. specialize (H c E). split; [done|].
  destruct (prune_listed_cases c) as [-> | (x & t & e & b & -> & _)]; [by rewrite H|done].
Qed.

Lemma run_nil : same (run []) skip.
Proof.
  intros st r. split.
  - intros H. inversion H; [by right|by left].
  - intros [-> | ->]; [apply seq_nil|apply seq_stop].
Qed.

Lemma while_false c b : truthy_const c = Some false -> same (run []) (den (While c b)).
Proof.
  intros Hc. rewrite run_nil. cbn [ControlSem.den]. intros st r.
  assert (Ht : forall st, truthy m powf from_real c st = false) by (intros; by apply truthy_const_sound).
  split.
  - intros [-> | ->]; [by apply loop_exit|apply loop_stop].
  - intros H. inversion H; subst; rewrite ?Ht in *; try done; [by right|by left].
Qed.

Lemma wait_true c n b : truthy_const c = Some true -> same (run b) (den (WaitCond c n b)).
Proof.
  intros Hc. cbn [ControlSem.den]. fold (elems b). fold (run b). intros st r.
  assert (Ht : forall st, truthy m powf from_real c st = true) by (intros; by apply truthy_const_sound).
  split.
  - intros H. left. exists st. split; [|exact H]. apply loop_exit. by rewrite Ht.
  - intros [(st' & Hl & H)|[Hl Hr]].
    + inversion Hl; subst; rewrite ?Ht in *; try done.
    + inversion Hl; subst; rewrite ?Ht in *; try done. apply seq_stop.
Qed.

Lemma if_const c t e b :
  truthy_const c = Some b -> same (den (If c t e Unchecked)) (run (if b then t else default [] e)).
Proof.
  intros Hc. cbn [ControlSem.den]. intros st r. unfold report. cbn [is_none].
  rewrite (truthy_const_sound m powf from_real c b st Hc). destruct b; [done|]. cbn [choose].
  destruct e; [done|]. symmetry. apply run_nil.
Qed.

Lemma prune_sound s scope :
  resolved scope s = true -> NoDup (scope ++ labels s) ->
  replaced s /\ same (den (prune_nested_in_place s)) (den s).
Proof.
  revert scope. induction s as [s IH] using IrStmt_parts_ind. intros scope Hr Hn. rewrite Forall_forall in IH.
  assert (Hb : forall b, b ∈ bodies s -> same (run (prune_stmt_list b)) (run b)).
  { intros b Hb. destruct (body_scope s scope b Hr Hn Hb) as (sc & Hrb & Hnb). symmetry.
    apply (prune_list_same b []).
    - apply Forall_forall. intros c Hc. destruct (label_of c) as [l|] eqn:El.
      + destruct (label_prune c l El) as [E1 E2]. left. rewrite E1, E2. done.
      + destruct (list_resolved_elem sc b c Hrb Hnb Hc El) as [Hrc Hnc].
        apply (IH c) with (scope := direct b ++ sc); [by apply (body_parts s b)|done|done].
    - cbn [lbls omap app]. by apply NoDup_app in Hnb as (_ & _ & ?).
    - intros x t c Hx. by apply elem_of_nil in Hx.
    - intros X c Y t -> Hc Ht. by apply (jumps_outside sc X c Y t). }
  assert (Hs : same (den (prune_nested_in_place s)) (den s)).
  { destruct (prune_nested_cases s) as [-> | [-> | [(c & b & -> & Ht & ->)|[(c & n & b & -> & Ht & ->)
      |(sel & k & items & p & -> & Hp & ->)]]]].
    - apply stmt_map_same; [by apply Forall_forall|]. intros o c ->.
      destruct (located_scope scope o c Hr Hn) as [Hrc Hnc]. apply (IH c) with (scope := scope); [by left|done|done].
    - done.
    - by apply while_false.
    - etrans; [apply (Hb b); by left|]. by apply wait_true.
    - transitivity (run p).
      + destruct (pick_case_body _ _ _ _ Hp) as [-> | (it & Hit & ->)]; [done|].
        apply Hb. apply list_elem_of_In, in_flat_map. exists it. split; [by apply list_elem_of_In|by left].
      + intros st r. symmetry. by apply (pick_case_sound m powf from_real sel k items p st). }
  split; [|done]. destruct (prune_listed_cases s) as [E|(c & t & e & b & -> & Ht & E)]; [by left|right].
  split; [done|]. rewrite E. etrans; [by apply if_const|]. symmetry. destruct b; [apply Hb; by left|].
  destruct e as [e|]; [apply Hb; right; by left|done].
Qed.

Lemma prune_run l :
  list_resolved [] l = true -> NoDup (list_labels l) -> same (run (prune_stmt_list l)) (run l).
Proof.
  intros Hr Hn. etrans; [|etrans; [apply (prune_sound (Block l) [])|done]]; [done| |done].
  cbn [resolved collect forallb]. unfold list_resolved in Hr. rewrite forallb_forall in *. intros x Hx.
  apply in_map_iff in Hx as (c & <- & Hc). by apply Hr.
Qed.

(** ** Stripping *)

Lemma strip_list_step referenced l :
  strip_labels_in l referenced = map (strip_stmt referenced) (List.filter (retained referenced) l).
Proof.
  unfold strip_labels_in. induction l as [|c l IH]; [done|]. cbn [flat_map List.filter].
  destruct (retained referenced c); cbn [map app]; by rewrite IH.
Qed.

Lemma label_of_strip referenced s : label_of (strip_stmt referenced s) = label_of s.
Proof. unfold label_of. by induction s. Qed.

Lemma strip_step referenced s :
  strip_stmt referenced s = stmt_map (strip_stmt referenced) (fun l => strip_labels_in l referenced) s.
Proof. by destruct s. Qed.

(** The label statements of a list that are dropped. *)
Lemma filter_elems referenced l :
  elems (List.filter (retained referenced) l)
  = List.filter (fun x => match x.1 with Some t => bool_decide (t ∈ referenced) | None => true end) (elems l).
Proof.
  unfold ControlSem.elems. induction l as [|c l IH]; [done|]. simpl. unfold retained at 1.
  destruct (label_of c) as [t|] eqn:E; [destruct (bool_decide _)|]; simpl; rewrite ?E; try (f_equal; exact IH).
Qed.

Lemma den_label c t : label_of c = Some t -> den c = skip.
Proof. unfold label_of. induction c; cbn [unlocated]; done. Qed.

Lemma strip_list_same referenced l :
  Forall (fun c => same (den (strip_stmt referenced c)) (den c)) l -> collect_goto_names l ⊆ referenced ->
  same (run (strip_labels_in l referenced)) (run l).
Proof.
  intros Hl Hg. rewrite strip_list_step.
  transitivity (run (List.filter (retained referenced) l)).
  - apply block_same. unfold ControlSem.elems. rewrite map_map.
    assert (Hf : Forall (fun c => same (den (strip_stmt referenced c)) (den c)) (List.filter (retained referenced) l)).
    { apply Forall_forall. intros c Hc. apply list_elem_of_In, filter_In in Hc as [Hc _]. rewrite Forall_forall in Hl.
      by apply Hl, list_elem_of_In. }
    induction Hf as [|c k Hc _ IH]; [done|]. cbn [map]. constructor; [|exact IH].
    split; [apply label_of_strip|exact Hc].
  - unfold ControlSem.run. rewrite filter_elems. apply drop_same.
    + intros x Hx Hk. apply list_elem_of_In, in_map_iff in Hx as (c & <- & Hc). cbn [fst snd] in *.
      destruct (label_of c) as [t|] eqn:E; [|done]. by rewrite (den_label c t E).
    + intros x y t Hx Hy Hk Hj E. rewrite E in Hk. apply bool_decide_eq_false_1 in Hk. apply Hk, Hg.
      exact (elems_jumps l x t Hx Hj).
Qed.

Lemma strip_sound referenced s :
  goto_names s ⊆ referenced -> same (den (strip_stmt referenced s)) (den s).
Proof.
  induction s as [s IH] using IrStmt_parts_ind. intros Hg. rewrite Forall_forall in IH. rewrite strip_step.
  apply stmt_map_same.
  - apply Forall_forall. intros b Hb. apply strip_list_same.
    + apply Forall_forall. intros c Hc. apply IH; [by apply (body_parts s b)|].
      intros x Hx. apply Hg. apply (part_gotos s c); [by apply (body_parts s b)|done].
    + intros x Hx. apply Hg. by apply (body_gotos s b).
  - intros o c ->. apply IH; [by left|]. exact Hg.
Qed.

Lemma strip_run l : same (run (strip_unreferenced_labels l)) (run l).
Proof.
  apply strip_list_same; [|by intros x]. apply Forall_forall. intros c Hc. apply strip_sound. intros t Ht.
  apply list_elem_of_In, in_flat_map. exists c. split; by apply list_elem_of_In.
Qed.

End Runs.
