(* ===== verification/ControlClaims.v ===== *)
(** * The passes keep what a body does

    Rewriting the expressions of a body with the expression passes, pruning
    its constant control flow and stripping its dead labels leaves its runs
    unchanged; and the choice of a case arm is the choice made at run time. *)

From Stdlib Require Import ZArith Lia Ascii String SpecFloat.
From stdpp Require Import base list strings.
From S2P Require Import Prelude Elab ElabFacts ElabProps ElabOrder Ir Folding Eval PassFacts PassProps PassClaims ControlFlow ControlSem ControlFacts ControlProps.

(** ** The expressions of a body *)

Definition node_exprs (s : IrStmt) : list IrExpr :=
  match s with
  | ImmediateAssertion _ c _ _ | If c _ _ _ | While c _ | WaitCond c _ _ | Repeat c _ | For _ c _ _ => [c]
  | Case sel _ items _ => sel :: flat_map item_exprs items
  | _ => []
  end.

(** Every condition, count, selector and item expression is well typed. *)
Fixpoint stmt_wt (s : IrStmt) : bool :=
  forallb wt (node_exprs s) && forallb (fun b => b) (collect (fun c => [stmt_wt c]) (map stmt_wt) s).

Lemma stmt_wt_parts s : stmt_wt s = true -> forallb wt (node_exprs s) = true /\ forall c, c ∈ parts s -> stmt_wt c = true.
Proof.
  intros H. assert (E : stmt_wt s = forallb wt (node_exprs s) && forallb (fun b => b) (map stmt_wt (parts s)))
    by (rewrite <- collect_map; by destruct s).
  rewrite E in H. apply andb_prop in H as [H1 H2]. split; [done|]. intros c Hc.
  rewrite forallb_forall in H2. apply H2. apply in_map. by apply list_elem_of_In.
Qed.

Section Exprs.
Context (f : IrExpr -> IrExpr).

Lemma parts_map_exprs s : parts (map_exprs f s) = map (map_exprs f) (parts s).
Proof.
  unfold parts. destruct s; cbn [map_exprs collect]; rewrite ?map_app; try done.
  - by destruct if_true, if_false.
  - by destruct els.
  - induction items as [|it items IH]; [done|]. cbn [map flat_map item_body]. rewrite map_app. by f_equal.
Qed.

Lemma label_of_map_exprs s : label_of (map_exprs f s) = label_of s.
Proof. unfold label_of. by induction s. Qed.

Lemma direct_map_exprs l : direct (map (map_exprs f) l) = direct l.
Proof.
  induction l as [|c l IH]; [done|]. unfold direct in *. cbn [map omap list_omap]. rewrite label_of_map_exprs.
  destruct (label_of c); [f_equal|]; exact IH.
Qed.

Lemma labels_map_exprs s : labels (map_exprs f s) = labels s.
Proof.
  induction s as [s IH] using IrStmt_parts_ind.
  assert (Hb : forall b, b ⊆ parts s -> list_labels (map (map_exprs f) b) = list_labels b).
  { intros b Hb. induction b as [|c b IHb]; [done|]. unfold list_labels in *. cbn [map flat_map].
    rewrite Forall_forall in IH. rewrite IH by (apply Hb; by left). f_equal. apply IHb. intros x Hx. apply Hb. by right. }
  rewrite (labels_parts (map_exprs f s)), (labels_parts s), parts_map_exprs.
  destruct s; cbn [map_exprs]; try done; try (apply Hb; by intros x). f_equal. apply Hb. by intros x.
Qed.

Lemma list_labels_map_exprs l : list_labels (map (map_exprs f) l) = list_labels l.
Proof.
  unfold list_labels. induction l as [|c l IH]; [done|]. cbn [map flat_map]. by rewrite labels_map_exprs, IH.
Qed.

Lemma resolved_map_exprs s scope : resolved scope (map_exprs f s) = resolved scope s.
Proof.
  revert scope. induction s as [s IH] using IrStmt_parts_ind. intros scope. rewrite Forall_forall in IH.
  assert (Hb : forall b sc, b ⊆ parts s ->
    map (resolved (direct (map (map_exprs f) b) ++ sc)) (map (map_exprs f) b) = map (resolved (direct b ++ sc)) b).
  { intros b sc Hb. rewrite direct_map_exprs, map_map. apply map_ext_in. intros c Hc. apply IH, Hb.
    by apply list_elem_of_In. }
  assert (Hid : forall (g : IrStmt -> bool) b, forallb g b = forallb (fun x => x) (map g b)).
  { intros g b. induction b as [|x b IHb]; [done|]. cbn [forallb map]. by rewrite IHb. }
  destruct s; try done; cbn [map_exprs resolved collect]; unfold parts in Hb; cbn [collect] in Hb.
  - rewrite (IH s) by (by left). done.
  - by rewrite Hb by (by intros x).
  - rewrite !(Hid _ (map _ _)), (Hid _ body). by rewrite Hb by (by intros x).
  - destruct if_true, if_false; cbn [option_map]; rewrite ?Hb; try done; intros x Hx; cbn;
      rewrite ?elem_of_app; by auto.
  - destruct els; cbn [option_map]; rewrite ?Hb; try done; intros x Hx; cbn; rewrite ?elem_of_app; by auto.
  - by rewrite Hb by (by intros x).
  - by rewrite Hb by (by intros x).
  - by rewrite Hb by (by intros x).
  - rewrite !Hb; try done; intros x Hx; rewrite ?elem_of_app; by auto.
  - by rewrite Hb by (by intros x).
  - by rewrite Hb by (by intros x).
  - rewrite !Hb; try done; intros x Hx; rewrite ?elem_of_app; by auto.
  - f_equal. clear IH Hid. induction items as [|it items IHi]; [done|]. cbn [map flat_map item_body].
    rewrite Hb by (intros x Hx; cbn [flat_map]; rewrite elem_of_app; by left). f_equal. apply IHi.
    intros b sc Hs. apply Hb. intros x Hx. cbn [flat_map]. rewrite elem_of_app. right. by apply Hs.
Qed.

End Exprs.

Section Claims.
Context {St : Type} (m : Machine St) (powf : f64 -> f64 -> f64) (from_real : f64 -> nat -> bool -> Value).

Local Abbreviation den := (den m powf from_real).
Local Abbreviation run := (run m powf from_real).
Local Abbreviation elems := (elems m powf from_real).
Local Abbreviation value := (value m powf from_real).
Local Abbreviation truthy := (truthy m powf from_real).

Section Rewritten.
Context (f : IrExpr -> IrExpr).
Hypothesis f_value : forall e st, wt e = true -> value (f e) st = value e st.

Lemma truthy_rewritten e st : wt e = true -> truthy (f e) st = truthy e st.
Proof. intros H. unfold ControlSem.truthy. by rewrite f_value. Qed.

Lemma matching_rewritten (hit hit' : IrExpr -> bool) (g : list IrStmt -> rel St) (items : list (IrCaseItem IrStmt)) :
  (forall e, e ∈ flat_map item_exprs items -> hit (f e) = hit' e) ->
  matching hit (map (fun it => (map f (item_exprs it), g (item_body it))) items)
  = matching hit' (map (fun it => (item_exprs it, g (item_body it))) items).
Proof.
  intros H. induction items as [|it items IH]; [done|]. cbn [map matching].
  assert (E : existsb hit (map f (item_exprs it)) = existsb hit' (item_exprs it)).
  { assert (Hi : forall e, e ∈ item_exprs it -> hit (f e) = hit' e)
      by (intros e He; apply H; cbn [flat_map]; rewrite elem_of_app; by left).
    clear H IH. induction (item_exprs it) as [|e es IHe]; [done|]. cbn [map existsb].
    rewrite Hi by (by left). f_equal. apply IHe. intros x Hx. apply Hi. by right. }
  rewrite E. destruct (existsb hit' (item_exprs it)); [done|]. apply IH. intros e He. apply H. cbn [flat_map]. rewrite elem_of_app. by right.
Qed.

Lemma default_rewritten (g : list IrStmt -> rel St) (items : list (IrCaseItem IrStmt)) :
  default_arm (map (fun it => (map f (item_exprs it), g (item_body it))) items)
  = default_arm (map (fun it => (item_exprs it, g (item_body it))) items).
Proof. induction items as [|it items IH]; [done|]. cbn [map default_arm]. destruct (item_exprs it); [done|exact IH]. Qed.

(** The node with its expressions rewritten and its bodies untouched. *)
Definition here (s : IrStmt) : IrStmt :=
  match s with
  | ImmediateAssertion id c a b => ImmediateAssertion id (f c) a b
  | If c t e check => If (f c) t e check
  | While c b => While (f c) b
  | WaitCond c sens b => WaitCond (f c) sens b
  | Repeat n b => Repeat (f n) b
  | For i c n b => For i (f c) n b
  | Case sel kind items check => Case (f sel) kind (map (fun it => mkItem (map f (item_exprs it)) (item_body it)) items) check
  | _ => s
  end.

Lemma map_exprs_here s : map_exprs f s = stmt_map (map_exprs f) (map (map_exprs f)) (here s).
Proof. destruct s; try done. cbn [map_exprs here stmt_map]. by rewrite map_map. Qed.

Lemma here_same s : forallb wt (node_exprs s) = true -> same (den (here s)) (den s).
Proof.
  destruct s; try done; cbn [node_exprs here forallb]; intros H; apply andb_prop in H as [Hc He]; cbn [ControlSem.den].
  - intros st r. unfold guarded_action. by rewrite truthy_rewritten.
  - intros st r. by rewrite truthy_rewritten.
  - apply loop_same; [|done|done]. intros st. by apply truthy_rewritten.
  - apply andthen_same; [|done]. apply loop_same; [|done|done]. intros st. by rewrite truthy_rewritten.
  - intros st r. by rewrite f_value.
  - apply andthen_same; [done|]. apply loop_same; [|done|done]. intros st. by apply truthy_rewritten.
  - intros st r. unfold select. rewrite map_map. cbn [item_exprs item_body].
    rewrite (matching_rewritten _ (fun e => item_match kind (value sel st) (value e st)) (fun b => block_of (elems b))).
    + rewrite (default_rewritten (fun b => block_of (elems b))). done.
    + intros e Hin. rewrite !f_value; [done| |done]. rewrite forallb_forall in He. apply He. by apply list_elem_of_In.
Qed.

Lemma bodies_here s b : b ∈ bodies (here s) -> b ⊆ parts s.
Proof.
  intros Hb. destruct s; try (by apply body_parts); cbn [here] in Hb; try (exact (body_parts _ b Hb)).
  apply (body_parts (Case sel kind items check)). unfold bodies in *. cbn [collect] in *.
  apply list_elem_of_In, in_flat_map in Hb as (it & Hit & [<- | []]). apply in_map_iff in Hit as (it' & <- & Hit').
  apply list_elem_of_In, in_flat_map. exists it'. split; [done|by left].
Qed.

Lemma map_exprs_sound s : stmt_wt s = true -> same (den (map_exprs f s)) (den s).
Proof.
  induction s as [s IH] using IrStmt_parts_ind. intros H. destruct (stmt_wt_parts s H) as [He Hp].
  rewrite Forall_forall in IH. rewrite map_exprs_here. etrans; [|by apply here_same]. apply stmt_map_same.
  - apply Forall_forall. intros b Hb. apply block_same. unfold ControlSem.elems. rewrite map_map.
    assert (Hin : forall c, c ∈ b -> stmt_wt c = true /\ same (den (map_exprs f c)) (den c)).
    { intros c Hc. apply (bodies_here s b Hb) in Hc. split; [by apply Hp|by apply IH, Hp]. }
    clear Hb. induction b as [|c b IHb]; [done|]. cbn [map]. constructor.
    + split; [apply label_of_map_exprs|]. apply Hin. by left.
    + apply IHb. intros d Hd. apply Hin. by right.
  - intros o c E. destruct s; try done. cbn [here] in E. injection E as -> ->. apply IH; [by left|]. apply Hp. by left.
Qed.

Lemma map_exprs_run l : Forall (fun s => stmt_wt s = true) l -> same (run (map (map_exprs f) l)) (run l).
Proof.
  intros H. apply block_same. unfold ControlSem.elems. rewrite map_map. induction H as [|s l Hs _ IH]; [done|].
  cbn [map]. constructor; [|exact IH]. split; [apply label_of_map_exprs|by apply map_exprs_sound].
Qed.

End Rewritten.

Hypothesis from_real_shape : forall x w s, shaped w s (from_real x w s).
Hypothesis other_shape : forall st tag w s l, has_type w s (m_other m st tag w s l).

Lemma run_expr_value visits cfg e st : wt e = true -> value (run_expr powf visits cfg e) st = value e st.
Proof.
  intros H. unfold run_expr. destruct (_ || _); [|done].
  assert (K : forall n, keeps powf from_real (m_other m st) e (Nat.iter n (one_round powf visits cfg) e)).
  { induction n as [|n IH]; [by apply keeps_refl|]. cbn [Nat.iter nat_rect]. eapply keeps_trans; [exact IH|].
    destruct IH as [W _]. apply one_round_keeps; [exact from_real_shape|apply other_shape|done]. }
  apply (K (if identities cfg then 2%nat else 1%nat)).
Qed.


(** When the pass replaces a case statement by one of its arms, the arm is
    the one that runs: the first item with a matching expression, else the
    first default arm, else nothing, for plain, [casez] and [casex] cases with
    unknown bits in the selector or the items. *)
Theorem case_arm_runs sel kind items body :
  pick_case_branch sel kind items = Some body ->
  forall st r, den (Case sel kind items Unchecked) st r <-> run body st r.
Proof. intros H st r. by apply (pick_case_sound m powf from_real sel kind items body st). Qed.

End Claims.

(** ** Witnesses *)

(** A machine whose state counts the statements it runs. *)
Definition counter : Machine nat :=
  mkMachine nat (fun _ => sample_other)
    (fun tag st goes st' => goes = true /\ st' = (st + tag)%nat)
    (fun _ st st' => st' = S st) (fun _ st st' => st' = st) (fun _ st flag st' => flag = Gt /\ st' = st)
    (fun _ st => st) (fun _ _ st => (st, true)) (fun _ st => st) (fun _ st => st) (fun _ _ => False).

(** [if (1) begin leaf; goto out; end leaf; case (2'bx1) 2'b01: leaf; 2'bx1:
    leaf; endcase out: leaf; unused: while (0) leaf;] *)
Definition sample_body : list IrStmt :=
  let x1 := mkExpr (Const (value_to_const (from_bits [Bit.X; Bit.One] false))) 2 false None in
  [If (literal 1 1) [Leaf 1; Goto "out"] None Unchecked;
   Leaf 2;
   Case x1 Exact [mkItem [literal 1 2] [Leaf 3]; mkItem [x1] [Leaf 4]] Unchecked;
   Label "out";
   Leaf 5;
   Label "unused";
   While (literal 0 1) [Leaf 6]]%string.


Lemma case_arm_runs_witness :
  let x1 := mkExpr (Const (value_to_const (from_bits [Bit.X; Bit.One] false))) 2 false None in
  let items := [mkItem [literal 1 2] [Leaf 3]; mkItem [x1] [Leaf 4]] in
  pick_case_branch x1 Casez items = Some [Leaf 4]
  /\ forall st r, den counter (fun x _ => x) sample_from_real (Case x1 Casez items Unchecked) st r
     <-> run counter (fun x _ => x) sample_from_real [Leaf 4] st r.
Proof.
  intros x1 items. split; [vm_compute; reflexivity|].
  apply (case_arm_runs counter (fun x _ => x) sample_from_real x1 Casez items [Leaf 4]).
  vm_compute. reflexivity.
Defined.
