(* ===== verification/Scc.v ===== *)
(** * Strongly connected components of the call graph

    The graph part of the coroutine analysis
    ([src/sim/execution/analysis.rs]): strongly connected components by two
    depth-first searches, the condensation of the graph, and the order of the
    components.

    A [BTreeSet] that is iterated is a strictly increasing list, a set that is
    only queried is a [gset], and the call graph is a map from a function to
    the increasing list of its callees.  A stack is a list with its top first.
    The loops run on fuel and return [None] when it is used up; [SccFacts]
    shows that the fuel they are given is enough. *)

From Stdlib Require Import Lia.
From stdpp Require Import base list gmap sets sorting.
From S2P Require Import Prelude.
#[local] Open Scope nat_scope.

(** ** Sets and graphs *)

(** [BTreeSet::insert] *)
Fixpoint set_insert (x : nat) (l : list nat) : list nat :=
  match l with
  | [] => [x]
  | y :: l' => if x <? y then x :: l else if x =? y then l else y :: set_insert x l'
  end.

Definition set_of (l : list nat) : list nat := foldr set_insert [] l.

Notation graph := (gmap nat (list nat)).

Definition callees_of (g : graph) (f : nat) : list nat := default [] (g !! f).

(** ** The first search: functions in the order in which they finish *)

(** One [while let Some((function, expanded)) = stack.pop()].  Pushing the
    callees in reverse leaves the first one on top. *)
Fixpoint finish_loop (fuel : nat) (g : graph) (visited : gset nat) (stack : list (nat * bool))
    (finish_order : list nat) : option (gset nat * list nat) :=
  match fuel with
  | O => None
  | S fuel' =>
      match stack with
      | [] => Some (visited, finish_order)
      | (function, true) :: rest => finish_loop fuel' g visited rest (finish_order ++ [function])
      | (function, false) :: rest =>
          if decide (function ∈ visited) then finish_loop fuel' g visited rest finish_order
          else
            let visited := {[function]} ∪ visited in
            let pushed := map (fun callee => (callee, false)) (filter (fun c => c ∉ visited) (callees_of g function)) in
            finish_loop fuel' g visited (pushed ++ (function, true) :: rest) finish_order
      end
  end.

Fixpoint finish_roots (fuel : nat) (g : graph) (roots : list nat) (visited : gset nat)
    (finish_order : list nat) : option (list nat) :=
  match roots with
  | [] => Some finish_order
  | root :: roots' =>
      if decide (root ∈ visited) then finish_roots fuel g roots' visited finish_order
      else '(visited, finish_order) ← finish_loop fuel g visited [(root, false)] finish_order;
           finish_roots fuel g roots' visited finish_order
  end.

(** ** The reversed graph *)

Definition add_caller (caller : nat) (reverse : graph) (callee : nat) : graph :=
  match reverse !! callee with
  | Some callers => <[callee := set_insert caller callers]> reverse
  | None => reverse
  end.

Definition reversed (functions : list nat) (g : graph) : graph :=
  let empty : graph := list_to_map (map (fun f => (f, [])) functions) in
  fold_left (fun reverse (entry : nat * list nat) => fold_left (add_caller entry.1) entry.2 reverse)
    (map_to_list g) empty.

(** ** The second search: the functions that reach a root *)

Definition push_caller (state : gset nat * list nat) (caller : nat) : gset nat * list nat :=
  let '(visited, stack) := state in
  if decide (caller ∈ visited) then state else ({[caller]} ∪ visited, caller :: stack).

Fixpoint collect_loop (fuel : nat) (reverse : graph) (visited : gset nat) (stack members : list nat) :
    option (gset nat * list nat) :=
  match fuel with
  | O => None
  | S fuel' =>
      match stack with
      | [] => Some (visited, members)
      | function :: rest =>
          let '(visited, stack) :=
            fold_left push_caller (rev (callees_of reverse function)) (visited, rest) in
          collect_loop fuel' reverse visited stack (members ++ [function])
      end
  end.

Fixpoint collect_roots (fuel : nat) (reverse : graph) (roots : list nat) (visited : gset nat)
    (components : list (list nat)) : option (list (list nat)) :=
  match roots with
  | [] => Some components
  | root :: roots' =>
      if decide (root ∈ visited) then collect_roots fuel reverse roots' visited components
      else '(visited, members) ← collect_loop fuel reverse ({[root]} ∪ visited) [root] [];
           collect_roots fuel reverse roots' visited (components ++ [merge_sort le members])
  end.

(** The order of [Option<usize>], which [sort_by_key] uses on first members. *)
Definition first_le (a b : list nat) : Prop :=
  match head a, head b with
  | None, _ => True
  | Some x, Some y => x <= y
  | Some _, None => False
  end.

#[export] Instance first_le_dec : RelDecision first_le.
Proof. intros a b. unfold first_le. destruct (head a), (head b); apply _. Defined.

(** Every function costs one entry to expand, one to finish, and one for each
    call it makes. *)
Definition finish_fuel (functions : list nat) (g : graph) : nat :=
  S (S (list_sum (map (fun f => S (length (callees_of g f))) functions))).

Definition strongly_connected_components (functions : list nat) (g : graph) : option (list (list nat)) :=
  finish_order ← finish_roots (finish_fuel functions g) g functions ∅ [];
  components ← collect_roots (S (length functions)) (reversed functions g) (rev finish_order) ∅ [];
  Some (merge_sort first_le components).

(** ** Components and their order *)

Definition set_slot {A : Type} (i : nat) (x : A) (l : list (option A)) : list (option A) := <[i := Some x]> l.

(** The index of the component of every function, [None] for the others. *)
Definition component_membership (function_count : nat) (components : list (list nat)) : list (option nat) :=
  fold_left
    (fun slots (entry : nat * list nat) =>
       fold_left (fun slots function => set_slot function entry.1 slots) entry.2 slots)
    (zip (seq 0 (length components)) components) (replicate function_count None).

(** [component_of.get(f).copied().flatten()] *)
Definition component_at (component_of : list (option nat)) (f : nat) : option nat :=
  match component_of !! f with Some c => c | None => None end.

Definition add_edge (component_of : list (option nat)) (caller : nat) (condensation : list (list nat))
    (callee : nat) : list (list nat) :=
  match component_at component_of caller, component_at component_of callee with
  | Some from, Some to =>
      if from =? to then condensation else alter (set_insert to) from condensation
  | _, _ => condensation
  end.

Definition condensation_graph (components : list (list nat)) (component_of : list (option nat)) (g : graph) :
    list (list nat) :=
  fold_left
    (fun condensation (entry : nat * list nat) =>
       fold_left (add_edge component_of entry.1) entry.2 condensation)
    (map_to_list g) (replicate (length components) []).

(** [component_order]: the callers of every component and the number of edges
    that hold it back, then the components that nothing holds back, least
    first. *)
Definition add_degree (callee_first : bool) (caller : nat) (state : list (list nat) * list nat) (callee : nat) :
    list (list nat) * list nat :=
  let '(callers, degrees) := state in
  (alter (set_insert caller) callee callers,
   if callee_first then degrees else alter S callee degrees).

Definition count_edges (callee_first : bool) (state : list (list nat) * list nat)
    (entry : nat * list nat) : list (list nat) * list nat :=
  let '(caller, callees) := entry in
  let '(callers, degrees) := state in
  let degrees := if callee_first then <[caller := length callees]> degrees else degrees in
  fold_left (add_degree callee_first caller) callees (callers, degrees).

Definition callers_and_degrees (callee_first : bool) (g : list (list nat)) : list (list nat) * list nat :=
  fold_left (count_edges callee_first) (zip (seq 0 (length g)) g)
    (replicate (length g) [], replicate (length g) 0).

Definition release (state : list nat * list nat) (adjacent : nat) : list nat * list nat :=
  let '(degrees, ready) := state in
  match degrees !! adjacent with
  | Some degree =>
      let degree := degree - 1 in
      (<[adjacent := degree]> degrees, if degree =? 0 then set_insert adjacent ready else ready)
  | None => state
  end.

Fixpoint order_loop (fuel : nat) (next : list (list nat)) (degrees ready order : list nat) : option (list nat) :=
  match fuel with
  | O => None
  | S fuel' =>
      match ready with
      | [] => Some order
      | component :: ready =>
          let '(degrees, ready) :=
            fold_left release (default [] (next !! component)) (degrees, ready) in
          order_loop fuel' next degrees ready (order ++ [component])
      end
  end.

Definition component_order (g : list (list nat)) (callee_first : bool) : option (list nat) :=
  let '(callers, degrees) := callers_and_degrees callee_first g in
  let ready := filter (fun c => degrees !! c = Some 0) (seq 0 (length g)) in
  order_loop (S (length g)) (if callee_first then callers else g) degrees ready [].
