(* ===== verification/SccFacts.v ===== *)
(** * The components are the strongly connected components

    [strongly_connected_components] returns every class of mutually reachable
    functions once.  The first search is a depth-first search on an explicit
    stack: the entries above an expanded function are reachable from it, and a
    function finishes before a function it reaches only when a later one of
    its own component is still to finish ([finish_ok]).  The second search
    then collects whole components, callers first. *)

From Stdlib Require Import Lia.
From stdpp Require Import base list gmap sets fin_sets sorting relations.
From S2P Require Import Prelude Scc.
#[local] Open Scope nat_scope.

(** ** Ordered sets *)

Lemma elem_of_set_insert x y l : y ∈ set_insert x l ↔ y = x ∨ y ∈ l.
Proof.
  induction l as [|z l IH]; simpl; [set_solver|].
  destruct (Nat.ltb_spec x z); [set_solver|]. destruct (Nat.eqb_spec x z); [set_solver|]. set_solver.
Qed.

Lemma set_insert_sorted x l : StronglySorted lt l → StronglySorted lt (set_insert x l).
Proof.
  induction 1 as [|z l Hs IH Hall]; simpl; [repeat constructor|].
  rewrite Forall_forall in Hall.
  destruct (Nat.ltb_spec x z); [|destruct (Nat.eqb_spec x z)].
  - constructor; [by constructor; [|rewrite Forall_forall]|].
    apply Forall_forall. intros y [->|Hy]%elem_of_cons; [done|]. specialize (Hall y Hy). lia.
  - by constructor; [|rewrite Forall_forall].
  - constructor; [done|]. apply Forall_forall. intros y [->|Hy]%elem_of_set_insert; [lia|auto].
Qed.

Lemma strongly_sorted_lt_nodup l : StronglySorted lt l → NoDup l.
Proof.
  induction 1 as [|x l Hs IH Hall]; constructor; [|done].
  intros Hx. rewrite Forall_forall in Hall. specialize (Hall x Hx). lia.
Qed.

Lemma sorted_le_nodup_lt l : NoDup l → StronglySorted le l → StronglySorted lt l.
Proof.
  induction l as [|x l IH]; [constructor|]. intros [Hx Hn]%NoDup_cons Hs.
  apply StronglySorted_inv in Hs as [Hs Hall]. constructor; [auto|].
  rewrite Forall_forall in Hall |- *. intros y Hy. specialize (Hall y Hy).
  assert (x ≠ y) by (by intros ->). lia.
Qed.

Lemma elem_of_rev {A : Type} (x : A) (l : list A) : x ∈ rev l ↔ x ∈ l.
Proof. rewrite !list_elem_of_In. symmetry. apply in_rev. Qed.

(** ** Reachability *)

Section Graph.
Context (functions : list nat) (g : graph).

Definition edge (u v : nat) : Prop := v ∈ callees_of g u.
Definition reach : nat → nat → Prop := rtc edge.
Definition mutual (u v : nat) : Prop := reach u v ∧ reach v u.

(** Calls lead from the functions to the functions. *)
Definition graph_ok : Prop := ∀ u v, edge u v → u ∈ functions ∧ v ∈ functions.

Lemma mutual_refl u : mutual u u.
Proof. split; apply rtc_refl. Qed.

Lemma mutual_sym u v : mutual u v → mutual v u.
Proof. by intros [? ?]. Qed.

Lemma mutual_trans u v w : mutual u v → mutual v w → mutual u w.
Proof. intros [? ?] [? ?]. split; by etrans. Qed.

Context (Hok : graph_ok).

Lemma reach_functions u v : reach u v → u ∈ functions → v ∈ functions.
Proof. induction 1 as [|u w v Huw _ IH]; [done|]. intros _. apply IH, (Hok u w Huw). Qed.

Lemma reach_functions_back u v : reach u v → v ∈ functions → u ∈ functions.
Proof. induction 1 as [|u w v Huw _ _]; [done|]. intros _. apply (Hok u w Huw). Qed.

(** ** The first search *)

(** [above] holds the functions of the entries above. *)
Fixpoint stack_ok (V : gset nat) (above : list nat) (S : list (nat * bool)) : Prop :=
  match S with
  | [] => True
  | (x, expanded) :: R =>
      (if expanded : bool
       then (∀ y, y ∈ above → reach x y) ∧ (∀ y, edge x y → y ∈ V ∨ y ∈ above)
       else True)
      ∧ stack_ok V (x :: above) R
  end.

Lemma stack_ok_weaken V V' A A' S :
  V ⊆ V' →
  (∀ y, y ∈ A' → ∃ a, a ∈ A ∧ reach a y) →
  (∀ a, a ∈ A → a ∈ A' ∨ a ∈ V') →
  stack_ok V A S → stack_ok V' A' S.
Proof.
  intros HV. revert A A'. induction S as [|[x b] R IH]; intros A A' Hr Ha; [done|].
  intros [Hx HR]. split.
  - destruct b; [|done]. destruct Hx as [H1 H2]. split.
    + intros y Hy. destruct (Hr y Hy) as (a & Ha' & Hay). etrans; [by apply H1|done].
    + intros y Hy. destruct (H2 y Hy) as [?|Hin]; [set_solver|]. destruct (Ha y Hin); auto.
  - eapply IH; [| |exact HR].
    + intros y [->|Hy]%elem_of_cons; [exists x; split; [set_solver|apply rtc_refl]|].
      destruct (Hr y Hy) as (a & ? & ?). exists a. set_solver.
    + intros a [->|Hin]%elem_of_cons; [set_solver|]. destruct (Ha a Hin); set_solver.
Qed.

Lemma stack_ok_reach V A S x a : stack_ok V A S → (x, true) ∈ S → a ∈ A → reach x a.
Proof.
  revert A. induction S as [|[z b] R IH]; intros A HS Hx Ha; [set_solver|].
  destruct HS as [Hz HR]. apply elem_of_cons in Hx as [[= <- <-]|Hx].
  - by apply Hz.
  - apply (IH _ HR Hx). set_solver.
Qed.

Lemma stack_ok_app V A l S :
  stack_ok V A (map (fun c => (c, false)) l ++ S) ↔ stack_ok V (rev l ++ A) S.
Proof.
  revert A. induction l as [|c l IH]; intros A; simpl; [done|].
  rewrite IH, <- app_assoc. simpl. tauto.
Qed.

(** A function that reaches one that has not finished shares its component
    with one that has not finished. *)
Definition finish_ok (F : list nat) : Prop := ∀ l1 x l2 r,
  F = l1 ++ x :: l2 → reach x r →
  r ∈ l1 ++ [x] ∨ ∃ z, z ∉ l1 ++ [x] ∧ mutual x z.

Record finish_inv (V : gset nat) (S : list (nat * bool)) (F : list nat) : Prop := {
  fi_nodup : NoDup (F ++ omap (fun e : nat * bool => if e.2 then Some e.1 else None) S);
  fi_visited : ∀ x, x ∈ V ↔ x ∈ F ∨ (x, true) ∈ S;
  fi_stack : stack_ok V [] S;
  fi_closed : ∀ x y, x ∈ F → edge x y → y ∈ V;
  fi_order : finish_ok F;
  fi_functions : (∀ x b, (x, b) ∈ S → x ∈ functions) ∧ (∀ x, x ∈ F → x ∈ functions);
}.

Lemma gray_elem (S : list (nat * bool)) x :
  x ∈ omap (fun e : nat * bool => if e.2 then Some e.1 else None) S ↔ (x, true) ∈ S.
Proof.
  rewrite list_elem_of_omap. split.
  - intros ([y [|]] & Hy & E); simpl in E; congruence.
  - intros Hx. by exists (x, true).
Qed.

(** Leaving a set that is closed but for gray functions passes through one. *)
Lemma first_exit (F : list nat) (P : nat → Prop) x r :
  (∀ u v, u ∈ F → edge u v → v ∈ F ∨ P v) →
  reach x r → x ∈ F → r ∈ F ∨ ∃ z, P z ∧ z ∉ F ∧ reach x z ∧ reach z r.
Proof.
  intros Hc Hr. induction Hr as [x|x y r Hxy Hyr IH]; intros Hx; [by left|].
  destruct (decide (y ∈ F)) as [Hy|Hy].
  - destruct (IH Hy) as [?|(z & Hz & Hn & Hyz & Hzr)]; [by left|]. right.
    exists z. split_and!; try done. by eapply rtc_l.
  - destruct (Hc x y Hx Hxy) as [?|Hp]; [done|]. right. exists y. split_and!; try done. by apply rtc_once.
Qed.

Lemma finish_ok_snoc F x :
  finish_ok F → (∀ r, reach x r → r ∈ F ++ [x] ∨ ∃ z, z ∉ F ++ [x] ∧ mutual x z) →
  finish_ok (F ++ [x]).
Proof.
  intros HF Hx l1 y l2 r E Hr. destruct l2 as [|w l3 _] using rev_ind.
  - apply app_inj_tail in E as [-> ->]. by apply Hx.
  - rewrite app_comm_cons, app_assoc in E. apply app_inj_tail in E as [-> _]. by eapply HF.
Qed.

Lemma finish_inv_skip V S F x : finish_inv V ((x, false) :: S) F → x ∈ V → finish_inv V S F.
Proof.
  intros [H1 H2 H3 H4 H5 [H6 H7]] Hx. split; try done.
  - intros y. rewrite H2, elem_of_cons. naive_solver.
  - destruct H3 as [_ H3]. eapply stack_ok_weaken; [done| | |exact H3]; set_solver.
  - split; [|done]. intros y b Hy. apply (H6 y b). set_solver.
Qed.

Lemma finish_inv_finish V S F x : finish_inv V ((x, true) :: S) F → finish_inv V S (F ++ [x]).
Proof.
  intros [H1 H2 H3 H4 H5 [H6 H7]]. simpl in H1.
  assert (Hx : x ∈ V) by (apply H2; set_solver). destruct H3 as [[_ Hout] H3].
  assert (Hc : ∀ u v, u ∈ F ++ [x] → edge u v → v ∈ F ++ [x] ∨ (v, true) ∈ S).
  { intros u v Hu Huv. assert (Hv : v ∈ V).
    { apply elem_of_app in Hu as [Hu|Hu]; [by eapply H4|]. apply list_elem_of_singleton in Hu as ->.
      destruct (Hout v Huv); set_solver. }
    apply H2 in Hv. rewrite elem_of_cons in Hv. set_solver. }
  split.
  - by rewrite <- app_assoc.
  - intros y. rewrite H2. set_solver.
  - eapply stack_ok_weaken; [done| | |exact H3]; set_solver.
  - intros u v Hu Huv. apply H2. destruct (Hc u v Hu Huv) as [?|?]; set_solver.
  - apply finish_ok_snoc; [done|]. intros r Hr.
    destruct (first_exit (F ++ [x]) (fun z => (z, true) ∈ S) x r Hc Hr) as [?|(z & Hz & Hn & Hxz & _)];
      [set_solver|by left|right]. exists z. split; [done|]. split; [done|].
    eapply stack_ok_reach; [exact H3|done|set_solver].
  - split; [intros y b Hy; apply (H6 y b); set_solver|]. intros y [Hy|Hy]%elem_of_app; [auto|].
    apply list_elem_of_singleton in Hy as ->. apply (H6 x true). set_solver.
Qed.

Lemma finish_inv_expand V S F x :
  finish_inv V ((x, false) :: S) F → x ∉ V →
  let V' := {[x]} ∪ V in
  finish_inv V'
    (map (fun callee => (callee, false)) (filter (fun c => c ∉ V') (callees_of g x)) ++ (x, true) :: S) F.
Proof.
  intros [H1 H2 H3 H4 H5 [H6 H7]] Hx V'. set (P := filter _ _).
  assert (HP : ∀ y, y ∈ P ↔ y ∉ V' ∧ edge x y) by (intros y; unfold P; rewrite list_elem_of_filter; done).
  assert (Hmap : ∀ y b, (y, b) ∈ map (fun callee => (callee, false)) P → b = false ∧ y ∈ P).
  { intros y b. rewrite list_elem_of_fmap. intros (c & [= -> ->] & Hc). done. }
  split.
  - assert (E : omap (fun e : nat * bool => if e.2 then Some e.1 else None)
                  (map (fun callee => (callee, false)) P ++ (x, true) :: S)
                = x :: omap (fun e : nat * bool => if e.2 then Some e.1 else None) S).
    { clear. induction P; simpl; [done|]. done. }
    rewrite E. simpl in H1. rewrite <- Permutation_middle. constructor; [|done].
    rewrite elem_of_app, gray_elem. intros Hin. apply Hx, H2. set_solver.
  - intros y. unfold V'. rewrite elem_of_union, elem_of_singleton, H2, elem_of_app, !elem_of_cons.
    split; [intros [->|[?|[?|?]]]; [tauto|tauto|discriminate|tauto]|]. intros [?|[Hy|[Hy|?]]]; [tauto| |left; by injection Hy|tauto].
    apply Hmap in Hy as [? _]. done.
  - apply stack_ok_app. rewrite app_nil_r. split; [split|].
    + intros y Hy. apply elem_of_rev, HP in Hy as [_ Hy]. by apply rtc_once.
    + intros y Hy. rewrite elem_of_rev, HP. destruct (decide (y ∈ V')); tauto.
    + destruct H3 as [_ H3]. eapply stack_ok_weaken; [| | |exact H3]; [set_solver| |set_solver].
      intros y [->|Hy]%elem_of_cons; exists x; (split; [set_solver|]); [apply rtc_refl|].
      apply elem_of_rev, HP in Hy as [_ Hy]. by apply rtc_once.
  - intros u v Hu Huv. apply elem_of_union_r. by eapply H4.
  - done.
  - split; [|done]. assert (Hxf : x ∈ functions) by (apply (H6 x false); set_solver).
    intros y b [Hy|[[= -> ->]|Hy]%elem_of_cons]%elem_of_app; [|done|apply (H6 y b); set_solver].
    apply Hmap in Hy as [_ Hy]. apply HP in Hy as [_ Hy]. by apply (Hok x y).
Qed.

(** ** The first search ends *)

Definition unvisited_cost (V : gset nat) : nat :=
  list_sum (map (fun f => if decide (f ∈ V) then 0 else S (length (callees_of g f))) functions).

Lemma unvisited_cost_insert V x :
  x ∈ functions → x ∉ V → unvisited_cost ({[x]} ∪ V) + S (length (callees_of g x)) <= unvisited_cost V.
Proof.
  intros Hin Hx. unfold unvisited_cost. clear Hok.
  assert (Hmono : ∀ l : list nat,
    list_sum (map (fun f => if decide (f ∈ {[x]} ∪ V) then 0 else S (length (callees_of g f))) l)
    <= list_sum (map (fun f => if decide (f ∈ V) then 0 else S (length (callees_of g f))) l)).
  { intros l. induction l as [|f l IH]; cbn [map list_sum foldr]; [done|]. unfold list_sum in *.
    destruct (decide (f ∈ V)), (decide (f ∈ {[x]} ∪ V)); try lia. set_solver. }
  induction functions as [|f l IH]; [set_solver|]. cbn [map list_sum foldr].
  specialize (Hmono l). unfold list_sum in *. apply elem_of_cons in Hin as [<-|Hin].
  - rewrite decide_True by set_solver. rewrite decide_False by done. lia.
  - specialize (IH Hin). destruct (decide (f ∈ V)), (decide (f ∈ {[x]} ∪ V)); try lia. set_solver.
Qed.

Lemma finish_loop_spec fuel V S F :
  finish_inv V S F → length S + unvisited_cost V < fuel →
  ∃ V' F', finish_loop fuel g V S F = Some (V', F')
    ∧ finish_inv V' [] F' ∧ V ⊆ V' ∧ (∀ x b, (x, b) ∈ S → x ∈ V').
Proof.
  revert V S F. induction fuel as [|fuel IH]; intros V S F Hinv Hf; [lia|].
  destruct S as [|[x [|]] S]; simpl in *.
  - exists V, F. split_and!; try done. set_solver.
  - assert (Hx : x ∈ V) by (apply (fi_visited _ _ _ Hinv); set_solver).
    destruct (IH _ _ _ (finish_inv_finish _ _ _ _ Hinv)) as (V' & F' & E & H1 & H2 & H3); [lia|].
    exists V', F'. split_and!; try done. intros y b [[= -> ->]|Hy]%elem_of_cons; [set_solver|by eapply H3].
  - destruct (decide (x ∈ V)) as [Hx|Hx].
    + destruct (IH _ _ _ (finish_inv_skip _ _ _ _ Hinv Hx)) as (V' & F' & E & H1 & H2 & H3); [lia|].
      exists V', F'. split_and!; try done. intros y b [[= -> ->]|Hy]%elem_of_cons; [set_solver|by eapply H3].
    + assert (Hxf : x ∈ functions) by (apply (proj1 (fi_functions _ _ _ Hinv) x false); set_solver).
      pose proof (unvisited_cost_insert V x Hxf Hx) as Hcost.
      destruct (IH _ _ _ (finish_inv_expand _ _ _ _ Hinv Hx)) as (V' & F' & E & H1 & H2 & H3).
      { rewrite length_app, length_map. cbn [length].
        pose proof (length_filter (fun c => c ∉ {[x]} ∪ V) (callees_of g x)). lia. }
      exists V', F'. split_and!; try done; [set_solver|].
      intros y b [[= -> ->]|Hy]%elem_of_cons; [set_solver|]. apply (H3 y b). set_solver.
Qed.

Lemma finish_roots_spec fuel roots V F :
  finish_inv V [] F → (∀ x, x ∈ roots → x ∈ functions) → S (unvisited_cost ∅) < fuel →
  ∃ V' F', finish_roots fuel g roots V F = Some F' ∧ finish_inv V' [] F' ∧ V ⊆ V' ∧ (∀ x, x ∈ roots → x ∈ V').
Proof.
  intros Hinv Hroots Hf. revert V F Hinv. induction roots as [|x roots IH]; intros V F Hinv; simpl.
  - exists V, F. split_and!; try done. set_solver.
  - destruct (decide (x ∈ V)) as [Hx|Hx].
    + destruct (IH ltac:(set_solver) _ _ Hinv) as (V' & F' & E & H1 & H2 & H3).
      exists V', F'. set_solver.
    + destruct (finish_loop_spec fuel V [(x, false)] F) as (V' & F' & E & H1 & H2 & H3).
      * destruct Hinv as [G1 G2 G3 G4 G5 [G6 G7]]. split; try done.
        -- intros y. rewrite G2. set_solver.
        -- split; [|done]. intros y b Hy. apply list_elem_of_singleton in Hy as [= -> ->]. set_solver.
      * cbn [length]. assert (unvisited_cost V <= unvisited_cost ∅); [|lia].
        unfold unvisited_cost. clear. induction functions as [|f l IHl]; [done|]. cbn [map list_sum foldr].
        unfold list_sum in *. destruct (decide (f ∈ V)), (decide (f ∈ (∅ : gset nat))); try lia; set_solver.
      * rewrite E. simpl. destruct (IH ltac:(set_solver) _ _ H1) as (V2 & F2 & E2 & K1 & K2 & K3).
        exists V2, F2. split_and!; try done; [set_solver|]. intros y [->|Hy]%elem_of_cons; [|auto].
        apply K2, (H3 x false). set_solver.
Qed.

(** The first search lists every function once. *)
Lemma finish_order_spec :
  ∃ F, finish_roots (finish_fuel functions g) g functions ∅ [] = Some F
    ∧ NoDup F ∧ (∀ x, x ∈ F ↔ x ∈ functions) ∧ finish_ok F.
Proof.
  destruct (finish_roots_spec (finish_fuel functions g) functions ∅ []) as (V & F & E & H & _ & Hall).
  - split; try done; try (by constructor); try set_solver. intros [|] ? ? ? E; discriminate E.
  - done.
  - unfold finish_fuel.
    change (unvisited_cost ∅) with (list_sum (map (fun f => S (length (callees_of g f))) functions)). lia.
  - exists F. destruct H as [H1 H2 _ _ H5 [_ H7]]. simpl in H1. rewrite app_nil_r in H1.
    split_and!; try done. intros x. split; [auto|]. intros Hx. apply Hall, H2 in Hx. set_solver.
Qed.

(** ** The reversed graph *)

Lemma add_caller_some caller (reverse : graph) callee v :
  is_Some (add_caller caller reverse callee !! v) ↔ is_Some (reverse !! v).
Proof.
  unfold add_caller. destruct (reverse !! callee) as [l|] eqn:E; [|done].
  destruct (decide (callee = v)) as [->|Hn]; [|by rewrite lookup_insert_ne].
  rewrite lookup_insert_eq, E. split; eauto.
Qed.

Lemma add_caller_elem caller (reverse : graph) callee u v :
  u ∈ callees_of (add_caller caller reverse callee) v
  ↔ u ∈ callees_of reverse v ∨ (v = callee ∧ u = caller ∧ is_Some (reverse !! v)).
Proof.
  unfold add_caller, callees_of. destruct (reverse !! callee) as [l|] eqn:E.
  - destruct (decide (v = callee)) as [->|Hn].
    + rewrite lookup_insert_eq, E. simpl. rewrite elem_of_set_insert. naive_solver.
    + rewrite lookup_insert_ne by done. naive_solver.
  - split; [auto|]. intros [?|(-> & _ & [? Hs])]; congruence.
Qed.

Lemma add_callers_spec caller l (reverse : graph) u v :
  (is_Some (fold_left (add_caller caller) l reverse !! v) ↔ is_Some (reverse !! v))
  ∧ (u ∈ callees_of (fold_left (add_caller caller) l reverse) v
     ↔ u ∈ callees_of reverse v ∨ (v ∈ l ∧ u = caller ∧ is_Some (reverse !! v))).
Proof.
  revert reverse. induction l as [|c l IH]; intros reverse; simpl; [set_solver|].
  destruct (IH (add_caller caller reverse c)) as [H1 H2].
  rewrite H1, H2, add_caller_some, add_caller_elem, elem_of_cons. naive_solver.
Qed.

Lemma reversed_fold (entries : list (nat * list nat)) (reverse : graph) u v :
  u ∈ callees_of
        (fold_left (fun r (e : nat * list nat) => fold_left (add_caller e.1) e.2 r) entries reverse) v
  ↔ u ∈ callees_of reverse v ∨ (∃ l, (u, l) ∈ entries ∧ v ∈ l) ∧ is_Some (reverse !! v).
Proof.
  revert reverse. induction entries as [|[c l] entries IH]; intros reverse; simpl; [set_solver|].
  destruct (add_callers_spec c l reverse u v) as [H1 H2]. rewrite IH, H1, H2. split.
  - intros [[?|(? & -> & ?)]|[(k & ? & ?) ?]]; [auto| |]; right; (split; [|done]); eexists; split; set_solver.
  - intros [?|[(k & Hk & Hv) ?]]; [auto|]. apply elem_of_cons in Hk as [[= -> ->]|Hk]; [auto|].
    right. split; [|done]. by exists k.
Qed.

Lemma reversed_elem u v : u ∈ callees_of (reversed functions g) v ↔ edge u v.
Proof.
  unfold reversed. rewrite reversed_fold.
  assert (Hempty : ∀ w, is_Some ((list_to_map (map (fun f => (f, [])) functions) : graph) !! w) ↔ w ∈ functions).
  { intros w. rewrite <- elem_of_dom, dom_list_to_map_L, elem_of_list_to_set, list_elem_of_fmap. split.
    - intros ([y k] & -> & Hy). apply list_elem_of_fmap in Hy as (z & [= -> ->] & Hz). done.
    - intros Hw. exists (w, []). split; [done|]. apply list_elem_of_fmap. eauto. }
  rewrite Hempty. split.
  - intros [Hu|[(l & Hl & Hv) _]].
    + exfalso. unfold callees_of in Hu. destruct (_ !! v) as [k|] eqn:E; [|set_solver].
      apply elem_of_list_to_map_2, list_elem_of_fmap in E as (z & [= -> ->] & _). set_solver.
    + apply elem_of_map_to_list in Hl. unfold edge, callees_of. by rewrite Hl.
  - intros He. right. split; [|by apply (Hok u v)]. unfold edge, callees_of in He.
    destruct (g !! u) as [l|] eqn:E; [|set_solver]. exists l. by rewrite elem_of_map_to_list.
Qed.

(** ** The second search *)

Definition pred_closed (V : gset nat) : Prop := ∀ u v, edge u v → v ∈ V → u ∈ V.

(** [C] are the members whose callers have all been pushed. *)
Record collect_inv (W : gset nat) (r : nat) (C : list nat) (V : gset nat) (S M : list nat) : Prop := {
  ci_visited : ∀ x, x ∈ V ↔ x ∈ W ∨ x ∈ M ∨ x ∈ S;
  ci_nodup : NoDup (M ++ S);
  ci_fresh : ∀ x, x ∈ M ++ S → x ∉ W ∧ x ∈ functions ∧ reach x r;
  ci_closed : ∀ u m, m ∈ C → edge u m → u ∈ V;
  ci_root : r ∈ V;
}.

Lemma push_callers_spec W r C l V S M x :
  (∀ c, c ∈ l → edge c x) → reach x r →
  collect_inv W r C V S M →
  let '(V', S') := fold_left push_caller l (V, S) in
  collect_inv W r C V' S' M ∧ (∀ c, c ∈ l → c ∈ V') ∧ V ⊆ V'
  ∧ length S' + size (list_to_set functions ∖ V') = length S + size (list_to_set functions ∖ V).
Proof.
  intros Hl Hx. revert V S. induction l as [|c l IH]; intros V S Hinv; [simpl; set_solver|].
  cbn [fold_left push_caller]. destruct (decide (c ∈ V)) as [Hc|Hc].
  - specialize (IH ltac:(set_solver) V S Hinv). destruct (fold_left _ _ _) as [V' S'].
    destruct IH as (H1 & H2 & H3 & H4). split_and!; try done. set_solver.
  - assert (Hce : edge c x) by (apply Hl; set_solver). assert (Hcf : c ∈ functions) by apply (Hok c x Hce).
    assert (Hinv' : collect_inv W r C ({[c]} ∪ V) (c :: S) M).
    { destruct Hinv as [H1 H2 H3 H4 H5]. split.
      - intros y. rewrite elem_of_union, elem_of_singleton, H1, elem_of_cons. tauto.
      - rewrite <- Permutation_middle. constructor; [|done]. rewrite elem_of_app. intros Hin. apply Hc, H1. tauto.
      - intros y. rewrite elem_of_app, elem_of_cons. intros [Hy|[->|Hy]]; [apply H3; set_solver| |apply H3; set_solver].
        split_and!; [|done|by eapply rtc_l]. intros Hw. apply Hc, H1. by left.
      - intros u m Hm Hum. apply elem_of_union_r. by eapply H4.
      - set_solver. }
    specialize (IH ltac:(set_solver) _ _ Hinv'). destruct (fold_left _ _ _) as [V' S'].
    destruct IH as (H1 & H2 & H3 & H4). split_and!; [done|set_solver|set_solver|]. rewrite H4. cbn [length].
    replace (list_to_set functions ∖ V : gset nat)
      with ({[c]} ∪ (list_to_set functions ∖ ({[c]} ∪ V)) : gset nat).
    + rewrite (size_union (C := gset nat) {[c]}) by set_solver. rewrite size_singleton. lia.
    + apply set_eq. intros y. rewrite elem_of_union, !elem_of_difference, elem_of_union, elem_of_singleton, elem_of_list_to_set.
      destruct (decide (y = c)) as [->|]; tauto.
Qed.

Lemma collect_loop_spec fuel W r V S M :
  collect_inv W r M V S M → length S + size (list_to_set functions ∖ V : gset nat) < fuel →
  ∃ V' M', collect_loop fuel (reversed functions g) V S M = Some (V', M') ∧ collect_inv W r M' V' [] M'.
Proof.
  revert V S M. induction fuel as [|fuel IH]; intros V S M Hinv Hf; [lia|].
  destruct S as [|x S]; simpl in *; [by exists V, M|].
  assert (Hinv' : collect_inv W r M V S (M ++ [x])).
  { destruct Hinv as [H1 H2 H3 H4 H5]. split; try done.
    - intros y. rewrite H1. set_solver.
    - by rewrite <- app_assoc.
    - intros y. rewrite <- app_assoc. apply H3. }
  assert (Hx : reach x r) by (apply (ci_fresh _ _ _ _ _ _ Hinv); set_solver).
  pose proof (push_callers_spec W r M (rev (callees_of (reversed functions g) x)) V S (M ++ [x]) x) as Hpush.
  destruct (fold_left _ _ _) as [V' S'].
  destruct Hpush as (H1 & H2 & H3 & H4); [|done|done|].
  { intros c Hc. by apply elem_of_rev, reversed_elem in Hc. }
  apply (IH V' S' (M ++ [x])); [|lia].
  destruct H1 as [K1 K2 K3 K4 K5]. split; try done.
  intros u m [Hm|Hm]%elem_of_app Hum; [by eapply K4|]. apply list_elem_of_singleton in Hm as ->.
  by apply H2, elem_of_rev, reversed_elem.
Qed.

(** With a set of whole components behind it, the search for a root collects
    the functions outside that reach the root. *)
Lemma collect_root_spec W r :
  r ∈ functions → r ∉ W → pred_closed W →
  ∃ V M, collect_loop (S (length functions)) (reversed functions g) ({[r]} ∪ W) [r] [] = Some (V, M)
    ∧ NoDup M ∧ (∀ x, x ∈ M ↔ x ∉ W ∧ reach x r) ∧ (∀ x, x ∈ V ↔ x ∈ W ∨ x ∈ M) ∧ pred_closed V.
Proof.
  intros Hr HrW HW. destruct (collect_loop_spec (S (length functions)) W r ({[r]} ∪ W) [r] []) as (V & M & E & H).
  - assert (reach r r) by apply rtc_refl. split; try set_solver. repeat constructor. set_solver.
  - cbn [length]. assert (size (list_to_set functions ∖ ({[r]} ∪ W) : gset nat) < length functions); [|lia].
    apply Nat.lt_le_trans with (size (list_to_set functions : gset nat)).
    + apply subset_size. split; [set_solver|]. intros Hs. assert (Hin : r ∈ (list_to_set functions : gset nat)) by set_solver.
      apply Hs in Hin. set_solver.
    + clear. induction functions as [|f l IH]; [done|]. cbn [list_to_set length].
      pose proof (size_union_alt {[f]} (list_to_set l : gset nat)) as Hs. rewrite Hs, size_singleton.
      assert (size (list_to_set l ∖ {[f]} : gset nat) <= size (list_to_set l : gset nat)) by (apply subseteq_size; set_solver).
      lia.
  - destruct H as [H1 H2 H3 H4 H5]. rewrite app_nil_r in H2, H3.
    assert (HV : ∀ x, x ∈ V ↔ x ∈ W ∨ x ∈ M) by (intros x; rewrite H1; set_solver).
    assert (Hc : pred_closed V).
    { intros u v Huv Hv. apply HV in Hv as [Hv|Hv]; [|by eapply H4]. apply HV. left. by eapply HW. }
    exists V, M. split_and!; try done. intros x. split.
    + intros Hx. apply H3 in Hx. tauto.
    + intros [HxW Hx]. assert (x ∈ V); [|apply HV in H; tauto].
      clear HxW. induction Hx as [|x y r Hxy _ IH]; [done|]. eapply Hc; [exact Hxy|]. by apply IH.
Qed.

End Graph.

(** * The components and their order

    The second search finds whole components, callers first, so the result of
    [strongly_connected_components] is the partition of the functions into
    classes of mutual reachability; the order of the condensation that
    [component_order] returns lists every component once and respects every
    call between components. *)

Section Components.
Context (functions : list nat) (g : graph) (Hok : graph_ok functions g).

#[local] Notation edge := (edge g).
#[local] Notation reach := (reach g).
#[local] Notation mutual := (mutual g).

Definition is_class (C : list nat) : Prop :=
  C ≠ [] ∧ StronglySorted lt C ∧ ∀ x y, x ∈ C → (y ∈ C ↔ mutual x y).

(** [rank] numbers the components in the order in which they are found. *)
Record found_inv (rank : nat → nat) (W : gset nat) (Cs : list (list nat)) : Prop := {
  fo_elem : ∀ x, x ∈ W ↔ x ∈ concat Cs;
  fo_nodup : NoDup (concat Cs);
  fo_class : ∀ C, C ∈ Cs → is_class C;
  fo_closed : pred_closed g W;
  fo_functions : ∀ x, x ∈ W → x ∈ functions;
  fo_rank : ∀ u v, edge u v → v ∈ W → rank u <= rank v;
  fo_same : ∀ u v, u ∈ W → v ∈ W → rank u = rank v → mutual u v;
  fo_bound : ∀ x, x ∈ W → rank x < length Cs;
}.

Lemma found_whole rank W Cs x y : found_inv rank W Cs → x ∈ W → mutual x y → y ∈ W.
Proof.
  intros H Hx Hm. apply H, list_elem_of_In, in_concat in Hx as (C & HC & Hx).
  apply list_elem_of_In in HC, Hx. destruct (fo_class _ _ _ H C HC) as (_ & _ & Hcl).
  apply H, list_elem_of_In, in_concat. exists C. rewrite <- !list_elem_of_In. split; [done|]. by apply (Hcl x y).
Qed.

(** Every function that reaches the last unfinished root is in its component. *)
Lemma root_reaches F rank W Cs l1 r l2 x :
  NoDup F → (∀ y, y ∈ F ↔ y ∈ functions) → finish_ok g F → found_inv rank W Cs →
  F = l1 ++ r :: l2 → (∀ y, y ∈ l2 → y ∈ W) →
  x ∉ W → reach x r → reach r x.
Proof.
  intros Hn HF Hfin Hinv E Hl2 HxW Hx.
  assert (HxF : x ∈ F).
  { apply HF. eapply reach_functions_back; [exact Hok|exact Hx|]. apply HF. rewrite E. set_solver. }
  apply list_elem_of_split in HxF as (a & b & Ex).
  remember (length b) as n eqn:Hlen. revert x a b Ex Hlen HxW Hx.
  induction (lt_wf n) as [n _ IH]. intros x a b Ex -> HxW Hx.
  destruct (Hfin a x b r Ex Hx) as [Hr|(z & Hz & Hxz)].
  - apply elem_of_app in Hr as [Hr|Hr]; [|apply list_elem_of_singleton in Hr as ->; apply rtc_refl].
    exfalso. apply HxW, Hl2. apply list_elem_of_split in Hr as (a1 & a2 & ->).
    rewrite E, <- app_assoc in Ex. simpl in Ex.
    assert (Eq : l1 = a1 ∧ l2 = a2 ++ x :: b); [|destruct Eq as [_ ->]; set_solver].
    clear - Hn E Ex. subst F. revert a1 Hn Ex. induction l1 as [|y l1 IH]; intros [|w a1] Hn Ex; simpl in *.
    + injection Ex as Ex. by rewrite Ex.
    + injection Ex as -> ->. apply NoDup_cons in Hn as [Hn _]. exfalso. apply Hn. set_solver.
    + injection Ex as -> _. apply NoDup_cons in Hn as [Hn _]. exfalso. apply Hn. set_solver.
    + injection Ex as -> Ex. apply NoDup_cons in Hn as [_ Hn]. destruct (IH _ Hn Ex) as [-> ->]. done.
  - assert (HzW : z ∉ W) by (intros HzW; apply HxW; eapply found_whole; [done|exact HzW|by apply mutual_sym]).
    assert (HzF : z ∈ F).
    { apply HF. eapply reach_functions; [exact Hok|apply Hxz|]. apply HF. rewrite Ex. set_solver. }
    assert (Hzb : z ∈ b) by (rewrite Ex in HzF; set_solver).
    apply list_elem_of_split in Hzb as (b1 & b2 & ->).
    assert (reach r z).
    { apply (IH (length b2)) with (a ++ x :: b1) b2; try done.
      - rewrite length_app. simpl. lia.
      - by rewrite Ex, <- app_assoc.
      - etrans; [apply Hxz|done]. }
    etrans; [done|apply Hxz].
Qed.

(** Adding the component of a root. *)
Lemma found_extend F rank W Cs l1 r l2 V M :
  NoDup F → (∀ y, y ∈ F ↔ y ∈ functions) → finish_ok g F → found_inv rank W Cs →
  F = l1 ++ r :: l2 → (∀ y, y ∈ l2 → y ∈ W) → r ∉ W →
  NoDup M → (∀ x, x ∈ M ↔ x ∉ W ∧ reach x r) → (∀ x, x ∈ V ↔ x ∈ W ∨ x ∈ M) → pred_closed g V →
  found_inv (fun x => if decide (x ∈ W) then rank x else length Cs) V (Cs ++ [merge_sort le M]).
Proof.
  intros Hn HF Hfin Hinv E Hl2 HrW HnM HM HV HcV.
  assert (Hsame : ∀ x, x ∈ M ↔ mutual r x).
  { intros x. rewrite HM. split.
    - intros [Hx Hxr]. split; [|done]. by apply (root_reaches F rank W Cs l1 r l2 x).
    - intros Hm. split; [|apply Hm]. intros HxW. apply HrW.
      eapply found_whole; [done|exact HxW|by apply mutual_sym]. }
  assert (Hsort : ∀ x, x ∈ merge_sort le M ↔ x ∈ M) by (intros x; by rewrite merge_sort_Permutation).
  assert (Hrf : r ∈ functions) by (apply HF; rewrite E; set_solver).
  assert (Hcat : concat (Cs ++ [merge_sort le M]) ≡ₚ concat Cs ++ M).
  { rewrite concat_app. simpl. by rewrite app_nil_r, merge_sort_Permutation. }
  split.
  - intros x. rewrite Hcat, HV, elem_of_app, <- (fo_elem _ _ _ Hinv). tauto.
  - rewrite Hcat. apply NoDup_app. split_and!; [apply Hinv| |done].
    intros x Hx HxM. apply HM in HxM as [HxW _]. apply HxW, Hinv, Hx.
  - intros C [HC|HC]%elem_of_app; [by eapply fo_class|]. apply list_elem_of_singleton in HC as ->.
    split_and!.
    + intros E0. assert (Hr : r ∈ merge_sort le M) by (apply Hsort, Hsame, mutual_refl). rewrite E0 in Hr. set_solver.
    + apply sorted_le_nodup_lt; [by rewrite merge_sort_Permutation|].
      apply StronglySorted_merge_sort; [intros ? ? ?; lia|intros x y; destruct (Nat.le_ge_cases x y); auto].
    + intros x y Hx. rewrite Hsort, Hsame. apply Hsort, Hsame in Hx. split; intros Hm.
      * eapply mutual_trans; [by apply mutual_sym|done].
      * by eapply mutual_trans.
  - done.
  - intros x Hx. apply HV in Hx as [Hx|Hx]; [by eapply fo_functions|].
    apply Hsame in Hx as [Hx _]. by eapply reach_functions.
  - intros u v Huv Hv. destruct (decide (v ∈ W)) as [HvW|HvW].
    + rewrite decide_True by (by eapply fo_closed). by eapply fo_rank.
    + destruct (decide (u ∈ W)) as [HuW|HuW]; [|done].
      pose proof (fo_bound _ _ _ Hinv u HuW). lia.
  - intros u v Hu Hv. apply HV in Hu, Hv. destruct (decide (u ∈ W)) as [HuW|HuW], (decide (v ∈ W)) as [HvW|HvW].
    + by eapply fo_same.
    + pose proof (fo_bound _ _ _ Hinv u HuW). lia.
    + pose proof (fo_bound _ _ _ Hinv v HvW). lia.
    + intros _. assert (HuM : mutual r u) by (apply Hsame; tauto). assert (HvM : mutual r v) by (apply Hsame; tauto).
      eapply mutual_trans; [by apply mutual_sym|done].
  - intros x Hx. rewrite length_app. simpl. destruct (decide (x ∈ W)) as [HxW|HxW]; [|lia].
    pose proof (fo_bound _ _ _ Hinv x HxW). lia.
Qed.

Lemma collect_roots_spec F roots rank W Cs l2 :
  NoDup F → (∀ y, y ∈ F ↔ y ∈ functions) → finish_ok g F → found_inv rank W Cs →
  F = rev roots ++ l2 → (∀ y, y ∈ l2 → y ∈ W) →
  ∃ rank' W' Cs', collect_roots (S (length functions)) (reversed functions g) roots W Cs = Some Cs'
    ∧ found_inv rank' W' Cs' ∧ (∀ y, y ∈ F → y ∈ W').
Proof.
  intros Hn HF Hfin. revert rank W Cs l2. induction roots as [|r roots IH]; intros rank W Cs l2 Hinv E Hl2; cbn [collect_roots rev app] in *.
  - exists rank, W, Cs. split_and!; try done. by rewrite E.
  - rewrite <- app_assoc in E. cbn [app] in E. destruct (decide (r ∈ W)) as [Hr|Hr].
    + eapply IH; [done|exact E|]. intros y [->|Hy]%elem_of_cons; auto.
    + assert (Hrf : r ∈ functions) by (apply HF; rewrite E; set_solver).
      destruct (collect_root_spec functions g Hok W r Hrf Hr (fo_closed _ _ _ Hinv)) as (V & M & EM & K1 & K2 & K3 & K4).
      rewrite EM. cbn [mbind option_bind].
      eapply IH; [by apply (found_extend F rank W Cs (rev roots) r l2 V M)|exact E|].
      assert (HrV : r ∈ V) by (apply K3; right; apply K2; split; [done|apply rtc_refl]).
      intros y [->|Hy]%elem_of_cons; [done|]. apply K3. auto.
Qed.

Lemma first_le_total : Total first_le.
Proof. intros a b. unfold first_le. destruct (head a), (head b); try tauto. lia. Qed.

Lemma first_le_trans : Transitive first_le.
Proof. intros a b c. unfold first_le. destruct (head a), (head b), (head c); try tauto. lia. Qed.

(** The components, and a numbering that no call descends. *)
Lemma scc_spec :
  ∃ cs rank, strongly_connected_components functions g = Some cs
    ∧ NoDup (concat cs) ∧ (∀ x, x ∈ concat cs ↔ x ∈ functions)
    ∧ (∀ C, C ∈ cs → is_class C) ∧ StronglySorted first_le cs
    ∧ (∀ u v, edge u v → rank u <= rank v) ∧ (∀ u v, edge u v → rank u = rank v → mutual u v).
Proof.
  destruct (finish_order_spec functions g Hok) as (F & E & Hn & HF & Hfin).
  unfold strongly_connected_components. rewrite E. simpl.
  destruct (collect_roots_spec F (rev F) (fun _ => 0) ∅ [] []) as (rank & W & Cs & E2 & Hinv & Hall); try done.
  - split; try done; try set_solver; try (intros; set_solver). constructor.
  - by rewrite rev_involutive, app_nil_r.
  - set_solver.
  - rewrite E2. exists (merge_sort first_le Cs), rank. destruct Hinv as [I1 I2 I3 I4 I5 I6 I7 I8].
    assert (Hp : concat (merge_sort first_le Cs) ≡ₚ concat Cs).
    { pose proof (merge_sort_Permutation first_le Cs) as Hp. revert Hp. generalize (merge_sort first_le Cs).
      clear. intros l Hp. induction Hp as [|C l k Hp IH|C D l|l k m H1 IH1 H2 IH2]; simpl; [done| | |by etrans].
      - by rewrite IH.
      - rewrite !app_assoc. by rewrite (Permutation_app_comm C D). }
    assert (HW : ∀ x, x ∈ functions → x ∈ W) by (intros x Hx; by apply Hall, HF).
    split_and!; try done.
    + by rewrite Hp.
    + intros x. rewrite Hp, <- I1. split; auto.
    + intros C HC. apply I3. by rewrite merge_sort_Permutation in HC.
    + apply StronglySorted_merge_sort; [apply first_le_trans|apply first_le_total].
    + intros u v Huv. apply I6; [done|]. apply HW, (Hok u v Huv).
    + intros u v Huv Heq. apply I7; [apply HW, (Hok u v Huv)|apply HW, (Hok u v Huv)|done].
Qed.

End Components.
