(* ===== verification/SccOrder.v ===== *)
(** * The order of components

    [component_order] is a topological sort that always releases the least
    component that nothing holds back.  On a graph whose edges increase some
    numbering it lists every component once, each behind the ones it depends
    on. *)

From Stdlib Require Import Lia.
From stdpp Require Import base list gmap sets fin_sets sorting relations.
From S2P Require Import Prelude Scc SccFacts.
#[local] Open Scope nat_scope.

Definition row (g : list (list nat)) (c : nat) : list nat := default [] (g !! c).

(** [x] is listed before [y]. *)
Definition before (x y : nat) (l : list nat) : Prop := ∃ a b, l = a ++ y :: b ∧ x ∈ a.

(** ** The loop *)

Section Loop.
Context (n : nat) (next prev : list (list nat)).

Record dual : Prop := {
  du_next : ∀ c d, d ∈ row next c ↔ c ∈ row prev d;
  du_range : ∀ c d, d ∈ row prev c → c < n ∧ d < n;
  du_nodup : ∀ c, NoDup (row next c) ∧ NoDup (row prev c);
}.

Context (Hdual : dual).

(** The dependencies of [c] that are not listed yet. *)
Definition pending (O : list nat) (c : nat) : nat := length (filter (fun d => d ∉ O) (row prev c)).

Lemma pending_zero O c : pending O c = 0 ↔ ∀ d, d ∈ row prev c → d ∈ O.
Proof.
  unfold pending. rewrite length_zero_iff_nil. split.
  - intros E d Hd. destruct (decide (d ∈ O)) as [?|Hn]; [done|].
    assert (H : d ∈ filter (fun d => d ∉ O) (row prev c)) by (by apply list_elem_of_filter). rewrite E in H. set_solver.
  - intros H. apply elem_of_nil_inv. intros d Hd. apply list_elem_of_filter in Hd as [Hn Hd]. auto.
Qed.

Lemma pending_snoc O c k :
  k ∉ O → pending O c = pending (O ++ [k]) c + (if decide (k ∈ row prev c) then 1 else 0).
Proof.
  intros Hk. unfold pending. destruct (du_nodup Hdual c) as [_ Hn]. induction (row prev c) as [|d l IH]; [done|].
  apply NoDup_cons in Hn as [Hd Hn]. specialize (IH Hn). rewrite !filter_cons.
  destruct (decide (d = k)) as [->|Hne].
  - rewrite decide_True by done. rewrite (decide_False (P := k ∉ O ++ [k])) by (intros H; apply H; set_solver).
    rewrite (decide_True (P := k ∈ k :: l)) by set_solver. rewrite decide_False in IH by done. simpl. lia.
  - assert (Hl : decide (k ∈ d :: l) = decide (k ∈ d :: l)) by done. clear Hl.
    destruct (decide (k ∈ l)) as [Hkl|Hkl], (decide (k ∈ d :: l)) as [Hkd|Hkd]; try (exfalso; set_solver);
      destruct (decide (d ∉ O)) as [HO|HO], (decide (d ∉ O ++ [k])) as [HO'|HO']; simpl; try lia; exfalso; set_solver.
Qed.

Lemma release_fold l D R :
  NoDup l → StronglySorted lt R → (∀ c, c ∈ l → is_Some (D !! c)) →
  let '(D', R') := fold_left release l (D, R) in
  length D' = length D ∧ StronglySorted lt R'
  ∧ (∀ c, D' !! c = if decide (c ∈ l) then pred <$> D !! c else D !! c)
  ∧ (∀ c, c ∈ R' ↔ c ∈ R ∨ (c ∈ l ∧ pred <$> D !! c = Some 0)).
Proof.
  revert D R. induction l as [|a l IH]; intros D R Hn Hs Hl; cbn [fold_left].
  - split_and!; try done. set_solver.
  - apply NoDup_cons in Hn as [Ha Hn]. destruct (Hl a) as [k Hk]; [set_solver|].
    unfold release at 2. rewrite Hk. cbv zeta. replace (k - 1) with (pred k) by lia.
    set (D1 := <[a := pred k]> D).
    assert (HD : ∀ c, c ≠ a → D1 !! c = D !! c) by (intros c Hc; by apply list_lookup_insert_ne).
    assert (HDa : D1 !! a = Some (pred k)).
    { apply list_lookup_insert_eq, lookup_lt_is_Some. eauto. }
    set (R1 := if _ =? 0 then _ else _).
    assert (HR1 : StronglySorted lt R1) by (unfold R1; destruct (_ =? _); [by apply set_insert_sorted|done]).
    specialize (IH D1 R1 Hn HR1). destruct (fold_left release l (D1, R1)) as [D' R'].
    destruct IH as (H1 & H2 & H3 & H4).
    { intros c Hc. rewrite HD by set_solver. apply Hl. set_solver. }
    split_and!; [rewrite H1; apply length_insert|done| |].
    + intros c. rewrite H3. destruct (decide (c = a)) as [->|Hc].
      * rewrite decide_False by done. rewrite decide_True by set_solver. by rewrite HDa, Hk.
      * rewrite HD by done. destruct (decide (c ∈ l)), (decide (c ∈ a :: l)); try done; set_solver.
    + intros c. rewrite H4. destruct (decide (c = a)) as [->|Hc].
      * rewrite Hk. cbn [fmap option_fmap option_map]. split.
        -- intros [Hc|[? ?]]; [|done]. unfold R1 in Hc. destruct (Nat.eqb_spec (pred k) 0) as [E|_]; [|by left].
           right. split; [set_solver|]. by rewrite E.
        -- intros [Hc|[_ [= E]]]; left; unfold R1; destruct (Nat.eqb_spec (pred k) 0); try done; apply elem_of_set_insert; auto.
      * rewrite HD by done. assert (c ∈ R1 ↔ c ∈ R).
        { unfold R1. destruct (_ =? _); [rewrite elem_of_set_insert; naive_solver|done]. }
        set_solver.
Qed.

Record order_inv (D R O : list nat) : Prop := {
  oi_nodup : NoDup (O ++ R);
  oi_range : ∀ c, c ∈ O ++ R → c < n;
  oi_sorted : StronglySorted lt R;
  oi_degree : ∀ c, c < n → D !! c = Some (pending O c);
  oi_ready : ∀ c, c < n → c ∉ O → (c ∈ R ↔ pending O c = 0);
  oi_before : ∀ a c b d, O = a ++ c :: b → d ∈ row prev c → d ∈ a;
}.

Lemma order_inv_step D k R O :
  order_inv D (k :: R) O →
  let '(D', R') := fold_left release (row next k) (D, R) in order_inv D' R' (O ++ [k]).
Proof.
  intros [H1 H2 H3 H4 H5 H6].
  assert (Hk : k < n) by (apply H2; set_solver).
  assert (HkO : k ∉ O) by (apply NoDup_app in H1 as (_ & H1 & _); intros Hin; eapply H1; [exact Hin|set_solver]).
  assert (HkP : pending O k = 0) by (apply H5; set_solver).
  assert (Hadj : ∀ c, c ∈ row next k → c < n ∧ c ∉ O ∧ c ≠ k ∧ 0 < pending O c).
  { intros c Hc. apply (du_next Hdual) in Hc. assert (Hpos : 0 < pending O c).
    { destruct (pending O c) eqn:E; [|lia]. exfalso. apply HkO. by apply (proj1 (pending_zero O c) E). }
    split_and!; [apply (du_range Hdual c k Hc)| |intros ->; lia|done].
    intros HcO. apply list_elem_of_split in HcO as (a & b & E). apply HkO. rewrite E.
    specialize (H6 a c b k E Hc). set_solver. }
  apply StronglySorted_inv in H3 as [H3 _].
  pose proof (release_fold (row next k) D R) as Hrel. destruct (fold_left _ _ _) as [D' R'].
  destruct Hrel as (K1 & K2 & K3 & K4); [apply (du_nodup Hdual)|done| |].
  { intros c Hc. rewrite H4 by (by apply Hadj). eauto. }
  assert (Hpend : ∀ c, pending (O ++ [k]) c = if decide (c ∈ row next k) then pred (pending O c) else pending O c).
  { intros c. pose proof (pending_snoc O c k HkO) as E. destruct (decide (c ∈ row next k)) as [Hc|Hc].
    - apply (du_next Hdual) in Hc. rewrite decide_True in E by done. lia.
    - rewrite decide_False in E; [lia|]. by rewrite <- (du_next Hdual). }
  assert (HR' : ∀ c, c ∈ R' ↔ c ∈ R ∨ (c ∈ row next k ∧ pred (pending O c) = 0)).
  { intros c. rewrite K4. split; intros [?|[Hc E]]; [by left| |by left|]; right; (split; [done|]);
      rewrite H4 in * by (by apply Hadj); simpl in *; congruence. }
  rewrite <- Permutation_middle in H1. apply NoDup_cons in H1 as [Hkn H1]. apply NoDup_app in H1 as (N1 & N2 & N3).
  split.
  - apply NoDup_app. split_and!.
    + apply NoDup_app. split_and!; [done| |repeat constructor; set_solver]. intros x Hx Hxk. set_solver.
    + intros x Hx HxR. apply HR' in HxR as [HxR|[HxR _]].
      * apply elem_of_app in Hx as [Hx|Hx]; [by eapply N2|]. set_solver.
      * apply Hadj in HxR as (_ & HxO & Hxk & _). set_solver.
    + by apply strongly_sorted_lt_nodup.
  - intros c [Hc|Hc]%elem_of_app; [apply H2; set_solver|]. apply HR' in Hc as [Hc|[Hc _]]; [apply H2; set_solver|by apply Hadj].
  - done.
  - intros c Hc. rewrite K3, Hpend, (H4 c Hc). by destruct (decide _).
  - intros c Hc HcO. rewrite HR', Hpend. assert (HcO' : c ∉ O) by set_solver. assert (Hck : c ≠ k) by set_solver.
    specialize (H5 c Hc HcO'). destruct (decide (c ∈ row next k)) as [Hcn|Hcn]; [|set_solver].
    assert (c ∉ R); [|tauto]. intros HcR. destruct (Hadj c Hcn) as (_ & _ & _ & Hpos).
    assert (pending O c = 0) by (apply H5; set_solver). lia.
  - intros a c b d E Hd. destruct b as [|w b' _] using rev_ind.
    + apply app_inj_tail in E as [-> ->]. by apply (proj1 (pending_zero a c)).
    + rewrite app_comm_cons, app_assoc in E. apply app_inj_tail in E as [-> _]. by eapply H6.
Qed.

Lemma nodup_range_length (l : list nat) : NoDup l → (∀ c, c ∈ l → c < n) → length l <= n.
Proof.
  intros Hn Hr. replace n with (length (seq 0 n)) by apply length_seq. apply submseteq_length, NoDup_submseteq; [done|].
  intros c Hc. apply elem_of_seq. specialize (Hr c Hc). lia.
Qed.

Lemma order_loop_spec fuel D R O :
  order_inv D R O → n < length O + fuel →
  ∃ D' O', order_loop fuel next D R O = Some O' ∧ order_inv D' [] O'.
Proof.
  revert D R O. induction fuel as [|fuel IH]; intros D R O Hinv Hf.
  - pose proof (nodup_range_length (O ++ R) (oi_nodup _ _ _ Hinv) (oi_range _ _ _ Hinv)) as Hl.
    rewrite length_app in Hl. lia.
  - destruct R as [|k R]; cbn [order_loop]; [by exists D, O|].
    pose proof (order_inv_step D k R O Hinv) as Hstep. fold (row next k).
    destruct (fold_left _ _ _) as [D' R']. apply (IH D' R' (O ++ [k]) Hstep). rewrite length_app. simpl. lia.
Qed.

(** With an increasing numbering nothing is left over. *)
Lemma order_complete D O (m : nat → nat) :
  (∀ c d, d ∈ row prev c → m d < m c) → order_inv D [] O → ∀ c, c < n → c ∈ O.
Proof.
  intros Hm [H1 H2 H3 H4 H5 H6] c Hc. remember (m c) as k eqn:E. revert c E Hc.
  induction (lt_wf k) as [k _ IH]. intros c -> Hc.
  destruct (decide (c ∈ O)) as [?|HcO]; [done|]. exfalso.
  destruct (pending O c) eqn:E; [by apply H5 in E; set_solver|].
  assert (Hz : pending O c = 0); [|lia]. apply pending_zero. intros d Hd.
  apply (IH (m d) (Hm c d Hd) d eq_refl), (du_range Hdual c d Hd).
Qed.

End Loop.

(** ** Callers and degrees *)

Section Degrees.
Context (g : list (list nat)).

(** Rows are sets of components other than the row's own. *)
Definition rows_ok : Prop :=
  ∀ c l, g !! c = Some l → StronglySorted lt l ∧ ∀ d, d ∈ l → d < length g.

Context (Hg : rows_ok).

Lemma add_degrees_spec cf caller l callers degrees :
  NoDup l → (∀ d, d ∈ l → d < length callers ∧ d < length degrees) →
  let '(callers', degrees') := fold_left (add_degree cf caller) l (callers, degrees) in
  length callers' = length callers ∧ length degrees' = length degrees
  ∧ (∀ d, callers' !! d = if decide (d ∈ l) then set_insert caller <$> callers !! d else callers !! d)
  ∧ (∀ d, degrees' !! d = if decide (d ∈ l ∧ cf = false) then S <$> degrees !! d else degrees !! d).
Proof.
  revert callers degrees. induction l as [|a l IH]; intros callers degrees Hn Hl; cbn [fold_left].
  - by split_and!.
  - apply NoDup_cons in Hn as [Ha Hn]. unfold add_degree at 2.
    set (callers1 := alter _ _ _). set (degrees1 := if cf then degrees else _).
    specialize (IH callers1 degrees1 Hn). destruct (fold_left _ _ _) as [callers' degrees'].
    assert (L1 : length callers1 = length callers) by apply length_alter.
    assert (L2 : length degrees1 = length degrees) by (unfold degrees1; destruct cf; [done|apply length_alter]).
    destruct IH as (H1 & H2 & H3 & H4).
    { intros d Hd. rewrite L1, L2. apply Hl. set_solver. }
    split_and!; [lia|lia| |].
    + intros d. rewrite H3. unfold callers1. destruct (decide (d = a)) as [->|Hd].
      * rewrite decide_False by done. rewrite decide_True by set_solver. by rewrite list_lookup_alter_eq.
      * rewrite list_lookup_alter_ne by done. destruct (decide (d ∈ l)), (decide (d ∈ a :: l)); try done; set_solver.
    + intros d. rewrite H4. unfold degrees1. destruct cf.
      * rewrite !decide_False by naive_solver. done.
      * destruct (decide (d = a)) as [->|Hd].
        -- rewrite decide_False by naive_solver. rewrite decide_True by set_solver. by rewrite list_lookup_alter_eq.
        -- rewrite list_lookup_alter_ne by done.
           destruct (decide (d ∈ l ∧ false = false)), (decide (d ∈ a :: l ∧ false = false)); try done; set_solver.
Qed.

Lemma length_set_insert x l : x ∉ l → length (set_insert x l) = S (length l).
Proof.
  induction l as [|y l IH]; intros Hx; simpl; [done|]. destruct (Nat.ltb_spec x y); [done|].
  destruct (Nat.eqb_spec x y); [set_solver|]. simpl. rewrite IH by set_solver. done.
Qed.

Lemma filter_sorted (P : nat → Prop) `{!∀ x, Decision (P x)} l :
  StronglySorted lt l → StronglySorted lt (filter P l).
Proof.
  induction 1 as [|x l Hs IH Hall]; [constructor|]. rewrite filter_cons. destruct (decide _); [|done].
  constructor; [done|]. rewrite Forall_forall in Hall |- *. intros y Hy. apply list_elem_of_filter in Hy as [_ Hy]. auto.
Qed.

Lemma seq_sorted i k : StronglySorted lt (seq i k).
Proof.
  revert i. induction k as [|k IH]; intros i; simpl; constructor; [done|].
  apply Forall_forall. intros x Hx. apply elem_of_seq in Hx. lia.
Qed.

(** The tables after the rows below [i]. *)
Record count_inv (cf : bool) (i : nat) (callers : list (list nat)) (degrees : list nat) : Prop := {
  co_length : length callers = length g ∧ length degrees = length g;
  co_row : ∀ d, d < length g → ∃ l, callers !! d = Some l ∧ StronglySorted lt l
    ∧ (∀ c, c ∈ l ↔ c < i ∧ d ∈ row g c)
    ∧ degrees !! d = Some (if cf then if decide (d < i) then length (row g d) else 0 else length l);
}.

Lemma row_ok c : StronglySorted lt (row g c) ∧ ∀ d, d ∈ row g c → d < length g.
Proof. unfold row. destruct (g !! c) as [l|] eqn:E; [by apply (Hg c)|]. split; [constructor|set_solver]. Qed.

Lemma count_inv_step cf i callers degrees :
  i < length g → count_inv cf i callers degrees →
  let '(callers', degrees') := count_edges cf (callers, degrees) (i, row g i) in
  count_inv cf (S i) callers' degrees'.
Proof.
  intros Hi [[L1 L2] Hrow]. unfold count_edges. destruct (row_ok i) as [Hs Hr].
  set (degrees1 := if cf then _ else _).
  assert (L3 : length degrees1 = length g) by (unfold degrees1; destruct cf; [by rewrite length_insert|done]).
  pose proof (add_degrees_spec cf i (row g i) callers degrees1) as Hadd.
  destruct (fold_left _ _ _) as [callers' degrees'].
  destruct Hadd as (H1 & H2 & H3 & H4); [by apply strongly_sorted_lt_nodup| |].
  { intros d Hd. rewrite L1, L3. split; by apply Hr. }
  split; [lia|]. intros d Hd. destruct (Hrow d Hd) as (l & Hl & Hls & Hlc & Hld). rewrite H3, Hl.
  assert (Hil : i ∉ l) by (rewrite Hlc; lia).
  assert (Hd1 : degrees1 !! d = if cf then Some (if decide (d < S i) then length (row g d) else 0) else Some (length l)).
  { unfold degrees1. destruct cf; [|done]. destruct (decide (d = i)) as [->|Hdi].
    - rewrite list_lookup_insert_eq by lia. rewrite decide_True by lia. done.
    - rewrite list_lookup_insert_ne, Hld by done. destruct (decide (d < i)), (decide (d < S i)); try done; lia. }
  destruct (decide (d ∈ row g i)) as [Hin|Hin].
  - exists (set_insert i l). split_and!; [done|by apply set_insert_sorted| |].
    + intros c. rewrite elem_of_set_insert, Hlc. split; [intros [->|[? ?]]; [|split; [lia|done]]; by split; [lia|]|].
      intros [? ?]. destruct (decide (c = i)); [by left|]. right. split; [lia|done].
    + rewrite H4, Hd1, length_set_insert by done. destruct cf; [by rewrite decide_False by naive_solver|].
      by rewrite decide_True.
  - exists l. split_and!; [done|done| |].
    + intros c. rewrite Hlc. split; [intros [? ?]; split; [lia|done]|]. intros [? ?].
      split; [|done]. assert (c ≠ i) by (intros ->; done). lia.
    + rewrite H4, Hd1. rewrite decide_False by naive_solver. by destruct cf.
Qed.

Lemma callers_and_degrees_spec cf :
  let '(callers, degrees) := callers_and_degrees cf g in count_inv cf (length g) callers degrees.
Proof.
  unfold callers_and_degrees.
  assert (Hgen : ∀ k i callers degrees, i + k = length g → count_inv cf i callers degrees →
    let '(callers', degrees') := fold_left (count_edges cf) (zip (seq i k) (drop i g)) (callers, degrees) in
    count_inv cf (length g) callers' degrees').
  { induction k as [|k IH]; intros i callers degrees Hk Hinv; simpl.
    - by replace (length g) with i by lia.
    - destruct (lookup_lt_is_Some_2 g i) as [l Hl]; [lia|]. rewrite (drop_S g l i Hl). cbn [zip_with fold_left].
      pose proof (count_inv_step cf i callers degrees ltac:(lia) Hinv) as Hstep.
      replace (row g i) with l in Hstep by (unfold row; by rewrite Hl).
      change (zip_with pair (seq (S i) k) (drop (S i) g)) with (zip (seq (S i) k) (drop (S i) g)).
      destruct (count_edges cf (callers, degrees) (i, l)) as [callers' degrees']. apply IH; [lia|done]. }
  apply (Hgen (length g) 0); [done|]. split; [by rewrite !length_replicate|].
  intros d Hd. exists []. split_and!; [by rewrite lookup_replicate_2|constructor| |].
  - intros c. split; [set_solver|lia].
  - rewrite lookup_replicate_2 by done. destruct cf; [|done]. by rewrite decide_False by lia.
Qed.

(** ** The order *)

(** A numbering that increases along the edges makes the result a
    topological order of all components. *)
Lemma component_order_spec cf (rank : nat → nat) :
  (∀ c d, d ∈ row g c → rank c < rank d) →
  ∃ O, component_order g cf = Some O ∧ O ≡ₚ seq 0 (length g)
    ∧ ∀ c d, d ∈ row g c → if cf then before d c O else before c d O.
Proof.
  intros Hrank. unfold component_order. pose proof (callers_and_degrees_spec cf) as Hcd.
  destruct (callers_and_degrees cf g) as [callers degrees]. destruct Hcd as [[L1 L2] Hrow].
  assert (Hcallers : ∀ d c, c ∈ row callers d ↔ d ∈ row g c).
  { intros d c. destruct (decide (d < length g)) as [Hd|Hd].
    - destruct (Hrow d Hd) as (l & Hl & _ & Hlc & _). replace (row callers d) with l by (unfold row; by rewrite Hl). rewrite Hlc.
      split; [tauto|]. intros Hin. split; [|done]. unfold row in Hin. destruct (g !! c) eqn:E; [|set_solver].
      by apply lookup_lt_Some in E.
    - split; intros Hin; exfalso.
      + unfold row in Hin. rewrite lookup_ge_None_2 in Hin by lia. set_solver.
      + by apply Hd, (proj2 (row_ok c)). }
  assert (Hnd : ∀ d, NoDup (row callers d)).
  { intros d. unfold row. destruct (callers !! d) as [l|] eqn:E; [|constructor].
    destruct (Hrow d) as (l' & Hl & Hs & _); [apply lookup_lt_Some in E; lia|].
    assert (l' = l) by congruence. subst. by apply strongly_sorted_lt_nodup. }
  assert (Hng : ∀ d, NoDup (row g d)) by (intros d; apply strongly_sorted_lt_nodup, row_ok).
  assert (Hrange : ∀ c d, d ∈ row g c → c < length g ∧ d < length g).
  { intros c d Hin. split; [|by apply (proj2 (row_ok c))]. unfold row in Hin.
    destruct (g !! c) eqn:E; [by apply lookup_lt_Some in E|set_solver]. }
  set (next := if cf then callers else g). set (prev := if cf then g else callers).
  assert (Hdual : dual (length g) next prev).
  { unfold next, prev. destruct cf; split; try done.
    intros c d Hin. apply Hcallers in Hin. apply Hrange in Hin. tauto. }
  assert (Hdeg : ∀ c, c < length g → degrees !! c = Some (pending prev [] c)).
  { intros c Hc. destruct (Hrow c Hc) as (l & Hl & _ & _ & ->). unfold pending.
    assert (Ef : ∀ k : list nat, filter (fun d => d ∉ []) k = k).
    { induction k as [|x k IH]; [done|]. rewrite filter_cons, IH, decide_True by set_solver. done. }
    rewrite Ef. unfold prev. destruct cf; [by rewrite decide_True|]. unfold row. by rewrite Hl. }
  set (ready := filter _ _).
  assert (Hready : ∀ c, c ∈ ready ↔ c < length g ∧ pending prev [] c = 0).
  { intros c. unfold ready. rewrite list_elem_of_filter, elem_of_seq. split.
    - intros [E Hc]. assert (Hc' : c < length g) by lia. rewrite Hdeg in E by done. split; [done|congruence].
    - intros [Hc E]. rewrite Hdeg, E by done. split; [done|lia]. }
  assert (Hsorted : StronglySorted lt ready).
  { apply filter_sorted, seq_sorted. }
  destruct (order_loop_spec (length g) next prev Hdual (S (length g)) degrees ready []) as (D & O & E & Hinv).
  - split; try done.
    + by apply strongly_sorted_lt_nodup.
    + intros c Hc. by apply Hready.
    + intros c Hc _. rewrite Hready. tauto.
    + intros [|] ? ? ? Hc; discriminate Hc.
  - simpl. lia.
  - exists O. split; [done|].
    assert (Hall : ∀ c, c < length g → c ∈ O).
    { set (B := list_max (map rank (seq 0 (length g)))).
      assert (HB : ∀ c, c < length g → rank c <= B).
      { intros c Hc. pose proof (proj1 (list_max_le (map rank (seq 0 (length g))) B) ltac:(done)) as Hall.
        rewrite List.Forall_forall in Hall. apply Hall, in_map, in_seq. lia. }
      apply (order_complete (length g) next prev Hdual D O (if cf then fun c => B - rank c else rank)); [|done].
      intros c d Hd. unfold prev in Hd. destruct cf; [|by apply Hrank, Hcallers].
      pose proof (Hrank c d Hd). pose proof (HB d (proj2 (Hrange c d Hd))). lia. }
    destruct Hinv as [I1 I2 _ _ _ I6]. rewrite app_nil_r in I1, I2. split.
    + apply NoDup_Permutation; [done|apply NoDup_seq|]. intros c. rewrite elem_of_seq. split.
      * intros Hc. specialize (I2 c Hc). lia.
      * intros Hc. apply Hall. lia.
    + intros c d Hd. destruct (Hrange c d Hd) as [Hc Hd'].
      destruct cf.
      * destruct (list_elem_of_split _ _ (Hall c Hc)) as (a & b & Ea). exists a, b. split; [done|]. by eapply I6.
      * destruct (list_elem_of_split _ _ (Hall d Hd')) as (a & b & Ea). exists a, b. split; [done|].
        eapply I6; [exact Ea|]. by apply Hcallers.
Qed.

End Degrees.

(** * The call graph of the coroutine analysis

    The components of the call graph, the table of memberships, the
    condensation, and the two orders of the functions: callers first and
    callees first. *)

(** ** Membership *)

Lemma set_slots_lookup (l : list nat) (c f : nat) (slots : list (option nat)) :
  fold_left (fun slots function => set_slot function c slots) l slots !! f
  = if decide (f ∈ l ∧ f < length slots) then Some (Some c) else slots !! f.
Proof.
  revert slots. induction l as [|a l IH]; intros slots; cbn [fold_left].
  - by rewrite decide_False by set_solver.
  - rewrite IH. unfold set_slot. rewrite length_insert. destruct (decide (f = a)) as [->|Hf].
    + destruct (decide (a < length slots)) as [Ha|Ha].
      * rewrite list_lookup_insert_eq by done. rewrite (decide_True (P := a ∈ a :: l ∧ _)) by set_solver.
        by destruct (decide _).
      * rewrite !decide_False by tauto. by rewrite !lookup_ge_None_2 by (rewrite ?length_insert; lia).
    + rewrite list_lookup_insert_ne by done.
      destruct (decide (f ∈ l ∧ _)), (decide (f ∈ a :: l ∧ _)); try done; set_solver.
Qed.

Lemma set_slots_length (l : list nat) (c : nat) (slots : list (option nat)) :
  length (fold_left (fun slots function => set_slot function c slots) l slots) = length slots.
Proof.
  revert slots. induction l as [|a l IH]; intros slots; cbn [fold_left]; [done|].
  rewrite IH. apply length_insert.
Qed.

Lemma component_at_membership N (cs : list (list nat)) f c :
  NoDup (concat cs) →
  component_at (component_membership N cs) f = Some c ↔ f < N ∧ ∃ C, cs !! c = Some C ∧ f ∈ C.
Proof.
  unfold component_membership.
  assert (Hgen : ∀ cs i slots, NoDup (concat cs) → length slots = N →
    let slots' := fold_left (fun slots (entry : nat * list nat) =>
        fold_left (fun slots function => set_slot function entry.1 slots) entry.2 slots)
      (zip (seq i (length cs)) cs) slots in
    component_at slots' f = Some c
    ↔ (f < N ∧ ∃ k C, c = i + k ∧ cs !! k = Some C ∧ f ∈ C) ∨ (f ∉ concat cs ∧ component_at slots f = Some c)).
  { clear cs. induction cs as [|C cs IH]; intros i slots Hn Hl; cbn [length seq zip_with fold_left concat].
    - split; [right; set_solver|]. intros [(_ & k & C & _ & Hk & _)|[_ ?]]; [by rewrite lookup_nil in Hk|done].
    - apply NoDup_app in Hn as (Hn1 & Hn2 & Hn3).
      rewrite IH by (done || by rewrite set_slots_length). cbn [fst snd].
      assert (Hat : component_at (fold_left (fun slots function => set_slot function i slots) C slots) f
                = if decide (f ∈ C ∧ f < N) then Some i else component_at slots f).
      { unfold component_at. rewrite set_slots_lookup, Hl. by destruct (decide _). }
      rewrite Hat, elem_of_app. split.
      + intros [(Hf & k & D & -> & Hk & HD)|[Hf Hs]].
        * left. split; [done|]. exists (S k), D. split_and!; [lia|done|done].
        * destruct (decide (f ∈ C ∧ f < N)) as [[HC HfN]|HC].
          -- injection Hs as <-. left. split; [done|]. exists 0, C. split_and!; [lia|done|done].
          -- right. split; [|done]. intros [?|?]; [|done]. apply HC. split; [done|].
             unfold component_at in Hs. destruct (slots !! f) eqn:E; [|done]. apply lookup_lt_Some in E. lia.
      + intros [(Hf & [|k] & D & -> & Hk & HD)|[Hf Hs]].
        * injection Hk as <-. right. split; [by apply Hn2|]. rewrite decide_True by done. f_equal. lia.
        * left. split; [done|]. exists k, D. split_and!; [lia|done|done].
        * right. split; [tauto|]. rewrite decide_False by tauto. done. }
  intros Hn. rewrite (Hgen cs 0 _ Hn) by apply length_replicate. split.
  - intros [(Hf & k & C & -> & Hk & HC)|[_ Hs]]; [eauto|].
    unfold component_at in Hs. destruct (replicate N None !! f) eqn:E; [|done].
    apply lookup_replicate in E as [-> _]. done.
  - intros (Hf & C & HC & Hin). left. split; [done|]. by exists c, C.
Qed.

(** ** The condensation *)

Section Condensation.
Context (g : graph) (component_of : list (option nat)).

Lemma add_edges_row caller l (rows : list (list nat)) c d :
  (∀ f k, component_at component_of f = Some k → k < length rows) →
  let rows' := fold_left (add_edge component_of caller) l rows in
  length rows' = length rows
  ∧ (Forall (StronglySorted lt) rows → Forall (StronglySorted lt) rows')
  ∧ (d ∈ row rows' c ↔ d ∈ row rows c
     ∨ c ≠ d ∧ component_at component_of caller = Some c ∧ ∃ v, v ∈ l ∧ component_at component_of v = Some d).
Proof.
  intros Hat. cbv zeta. revert rows Hat. induction l as [|v l IH]; intros rows Hat; cbn [fold_left]; [set_solver|].
  set (rows1 := add_edge component_of caller rows v).
  assert (Hlen : length rows1 = length rows).
  { unfold rows1, add_edge. destruct (component_at component_of caller); [|done].
    destruct (component_at component_of v); [|done]. destruct (_ =? _); [done|apply length_alter]. }
  destruct (IH rows1) as (H1 & H2 & H3); [by rewrite Hlen|]. split_and!; [lia| |].
  - intros Hs. apply H2. unfold rows1, add_edge. destruct (component_at component_of caller) as [a|]; [|done].
    destruct (component_at component_of v) as [b|]; [|done]. destruct (_ =? _); [done|].
    apply Forall_alter; [done|]. intros x Hx _. apply set_insert_sorted.
    rewrite Forall_lookup in Hs. by eapply Hs.
  - rewrite H3. assert (Hrow : d ∈ row rows1 c ↔ d ∈ row rows c
      ∨ c ≠ d ∧ component_at component_of caller = Some c ∧ component_at component_of v = Some d).
    { unfold rows1, add_edge. destruct (component_at component_of caller) as [a|] eqn:Ea; [|naive_solver].
      destruct (component_at component_of v) as [b|] eqn:Eb; [|naive_solver].
      destruct (Nat.eqb_spec a b) as [->|Hab]; [naive_solver|]. unfold row. destruct (decide (c = a)) as [->|Hc].
      - rewrite list_lookup_alter_eq. destruct (lookup_lt_is_Some_2 rows a (Hat _ _ Ea)) as [r Hr]. rewrite Hr.
        simpl. rewrite elem_of_set_insert. naive_solver.
      - rewrite list_lookup_alter_ne by done. naive_solver. }
    rewrite Hrow. set_solver.
Qed.

Lemma condensation_row (cs : list (list nat)) c d :
  (∀ f k, component_at component_of f = Some k → k < length cs) →
  let rows := condensation_graph cs component_of g in
  length rows = length cs ∧ Forall (StronglySorted lt) rows
  ∧ (d ∈ row rows c ↔ c ≠ d ∧ ∃ u v, edge g u v ∧ component_at component_of u = Some c
                                    ∧ component_at component_of v = Some d).
Proof.
  intros Hat. cbv zeta. unfold condensation_graph.
  assert (Hgen : ∀ entries rows, length rows = length cs → Forall (StronglySorted lt) rows →
    let rows' := fold_left (fun condensation (entry : nat * list nat) =>
        fold_left (add_edge component_of entry.1) entry.2 condensation) entries rows in
    length rows' = length cs ∧ Forall (StronglySorted lt) rows'
    ∧ (d ∈ row rows' c ↔ d ∈ row rows c ∨ c ≠ d ∧ ∃ u l v, (u, l) ∈ entries ∧ v ∈ l
         ∧ component_at component_of u = Some c ∧ component_at component_of v = Some d)).
  { induction entries as [|[u l] entries IH]; intros rows Hl Hs; cbn [fold_left fst snd].
    - split_and!; [done|done|]. split; [by left|]. intros [?|(_ & u & l & v & Hin & _)]; [done|set_solver].
    - destruct (add_edges_row u l rows c d) as (H1 & H2 & H3); [by rewrite Hl|].
      destruct (IH _ ltac:(by rewrite H1) (H2 Hs)) as (K1 & K2 & K3). split_and!; [done|done|].
      rewrite K3, H3. split.
      + intros [[?|(? & ? & v & ? & ?)]|(? & u' & l' & v & ? & ? & ? & ?)]; [by left| |]; right; (split; [done|]).
        * exists u, l, v. set_solver.
        * exists u', l', v. set_solver.
      + intros [?|(Hcd & u' & l' & v & [[= -> ->]|Hin]%elem_of_cons & Hv & Hu & Hd)]; [tauto| |].
        * left. right. eauto.
        * right. split; [done|]. by exists u', l', v. }
  destruct (Hgen (map_to_list g) (replicate (length cs) [])) as (H1 & H2 & H3).
  - apply length_replicate.
  - apply Forall_replicate. constructor.
  - split_and!; [done|done|]. rewrite H3. split.
    + intros [Hd|(Hcd & u & l & v & Hin & Hv & Hu & Hd)].
      * unfold row in Hd. destruct (replicate _ _ !! c) as [r|] eqn:E; [|set_solver].
        apply lookup_replicate in E as [-> _]. set_solver.
      * split; [done|]. exists u, v. split; [|done]. apply elem_of_map_to_list in Hin.
        unfold edge, callees_of. by rewrite Hin.
    + intros (Hcd & u & v & He & Hu & Hv). right. split; [done|]. unfold edge, callees_of in He.
      destruct (g !! u) as [l|] eqn:E; [|set_solver]. exists u, l, v. split_and!; try done. by apply elem_of_map_to_list.
Qed.

End Condensation.

(** ** The orders of the functions *)

Definition in_order (cs : list (list nat)) (order : list nat) : list nat :=
  flat_map (fun c => default [] (cs !! c)) order.

Lemma in_order_permutation cs order : order ≡ₚ seq 0 (length cs) → in_order cs order ≡ₚ concat cs.
Proof.
  intros Hp. unfold in_order. rewrite Hp, flat_map_concat_map. clear Hp order.
  match goal with |- concat ?l ≡ₚ _ => assert (E : l = cs) end; [|by rewrite E]. apply list_eq. intros i. rewrite list_lookup_fmap. destruct (decide (i < length cs)) as [Hi|Hi].
  - rewrite lookup_seq_lt by done. simpl. destruct (lookup_lt_is_Some_2 cs i Hi) as [C HC]. by rewrite HC.
  - rewrite lookup_seq_ge by lia. simpl. symmetry. apply lookup_ge_None. lia.
Qed.

Lemma in_order_before cs order c d C D u v :
  cs !! c = Some C → cs !! d = Some D → u ∈ C → v ∈ D → before c d order →
  before u v (in_order cs order).
Proof.
  intros HC HD Hu Hv (a & b & -> & Hc). unfold in_order. rewrite flat_map_app. cbn [flat_map]. rewrite HD. simpl.
  apply list_elem_of_split in Hv as (x & y & ->).
  exists (flat_map (fun c => default [] (cs !! c)) a ++ x), (y ++ flat_map (fun c => default [] (cs !! c)) b).
  split; [by rewrite <- !app_assoc|]. apply elem_of_app. left. apply list_elem_of_In, in_flat_map.
  exists c. rewrite <- !list_elem_of_In. split; [done|]. by rewrite HC.
Qed.

Section Orders.
Context (functions : list nat) (g : graph) (N : nat).
Context (Hok : graph_ok functions g) (Hsorted : StronglySorted lt functions) (HN : ∀ f, f ∈ functions → f < N).

(** The partition, the table and the condensation of the graph. *)
Record partition (cs : list (list nat)) : Prop := {
  pa_found : strongly_connected_components functions g = Some cs;
  pa_nodup : NoDup (concat cs);
  pa_elem : ∀ x, x ∈ concat cs ↔ x ∈ functions;
  pa_class : ∀ C, C ∈ cs → is_class g C;
  pa_sorted : StronglySorted first_le cs;
  pa_at : ∀ f, f ∈ functions → ∃ c C, component_at (component_membership N cs) f = Some c ∧ cs !! c = Some C ∧ f ∈ C;
  pa_mutual : ∀ u v, u ∈ functions → v ∈ functions →
    (component_at (component_membership N cs) u = component_at (component_membership N cs) v ↔ mutual g u v);
  pa_outside : ∀ f, f ∉ functions → component_at (component_membership N cs) f = None;
}.

Lemma partition_of cs :
  strongly_connected_components functions g = Some cs → NoDup (concat cs) →
  (∀ x, x ∈ concat cs ↔ x ∈ functions) → (∀ C, C ∈ cs → is_class g C) → StronglySorted first_le cs → partition cs.
Proof.
  intros E Hn He Hc Hs.
  assert (Hat : ∀ f c, component_at (component_membership N cs) f = Some c ↔ f < N ∧ ∃ C, cs !! c = Some C ∧ f ∈ C)
    by (intros; by apply component_at_membership).
  assert (Hfind : ∀ f, f ∈ functions →
    ∃ c C, component_at (component_membership N cs) f = Some c ∧ cs !! c = Some C ∧ f ∈ C).
  { intros f Hf. pose proof Hf as Hin. apply He, list_elem_of_In, in_concat in Hin as (C & HC & Hin).
    apply list_elem_of_In in HC, Hin. apply list_elem_of_lookup in HC as [c HC]. exists c, C.
    split; [|done]. apply Hat. split; [by apply HN|]. by exists C. }
  split; try done.
  - intros u v Hu Hv. destruct (Hfind u Hu) as (c & C & E1 & HC & HuC), (Hfind v Hv) as (d & D & E2 & HD & HvD).
    destruct (Hc C) as (_ & _ & Hcl); [by eapply list_elem_of_lookup_2|]. rewrite E1, E2. split.
    + intros [= <-]. apply (Hcl u v HuC). congruence.
    + intros Hm. apply (Hcl u v HuC) in Hm. rewrite <- E2. symmetry. apply Hat. split; [by apply HN|]. by exists C.
  - intros f Hf. destruct (component_at _ f) as [c|] eqn:E1; [|done]. exfalso. apply Hf, He.
    apply Hat in E1 as (_ & C & HC & Hin). apply list_elem_of_In, in_concat. exists C.
    rewrite <- !list_elem_of_In. split; [by eapply list_elem_of_lookup_2|done].
Qed.

Lemma reach_rank (rank : nat → nat) u v : (∀ u v, edge g u v → rank u <= rank v) → reach g u v → rank u <= rank v.
Proof. intros Hr. induction 1 as [|u w v Huw _ IH]; [done|]. specialize (Hr u w Huw). lia. Qed.

(** Both orders list every function once and respect the calls between
    components. *)
Lemma graph_orders :
  ∃ cs, partition cs ∧
    let component_of := component_membership N cs in
    ∀ callee_first, ∃ order,
      component_order (condensation_graph cs component_of g) callee_first = Some order
      ∧ in_order cs order ≡ₚ functions
      ∧ ∀ u v, edge g u v → ¬ mutual g u v →
          if callee_first then before v u (in_order cs order) else before u v (in_order cs order).
Proof.
  destruct (scc_spec functions g Hok) as (cs & rank & E & Hn & He & Hc & Hs & Hr1 & Hr2).
  pose proof (partition_of cs E Hn He Hc Hs) as Hp. exists cs. split; [done|]. cbv zeta. intros cf.
  set (m := component_membership N cs).
  assert (Hat : ∀ f k, component_at m f = Some k → ∃ C, cs !! k = Some C ∧ f ∈ C).
  { intros f k Hk. by apply component_at_membership in Hk as (_ & ?). }
  assert (Hlt : ∀ f k, component_at m f = Some k → k < length cs).
  { intros f k Hk. destruct (Hat f k Hk) as (C & HC & _). by apply lookup_lt_Some in HC. }
  destruct (condensation_row g m cs 0 0 Hlt) as (L & Srt & _).
  set (rows := condensation_graph cs m g) in *.
  assert (Hrow : ∀ c d, d ∈ row rows c ↔ c ≠ d ∧ ∃ u v, edge g u v ∧ component_at m u = Some c ∧ component_at m v = Some d)
    by (intros c d; by apply (condensation_row g m cs c d Hlt)).
  set (crank := fun c => match cs !! c with Some (x :: _) => rank x | _ => 0 end).
  assert (Hcrank : ∀ f k, component_at m f = Some k → crank k = rank f).
  { intros f k Hk. destruct (Hat f k Hk) as (C & HC & Hf). unfold crank. rewrite HC.
    destruct (Hc C) as (_ & _ & Hcl); [by eapply list_elem_of_lookup_2|]. destruct C as [|x C]; [set_solver|].
    assert (Hm : mutual g x f) by (apply Hcl; set_solver).
    pose proof (reach_rank rank x f Hr1 (proj1 Hm)). pose proof (reach_rank rank f x Hr1 (proj2 Hm)). lia. }
  assert (Hrows : rows_ok rows).
  { intros c l Hl. split; [rewrite Forall_lookup in Srt; by eapply Srt|]. intros d Hd.
    assert (Hin : d ∈ row rows c) by (unfold row; by rewrite Hl).
    apply Hrow in Hin as (_ & u & v & _ & _ & Hv). rewrite L. by eapply Hlt. }
  destruct (component_order_spec rows Hrows cf crank) as (order & Eo & Hperm & Hbefore).
  { intros c d Hd. apply Hrow in Hd as (Hcd & u & v & He' & Hu & Hv). rewrite (Hcrank u c Hu), (Hcrank v d Hv).
    specialize (Hr1 u v He'). destruct (decide (rank u = rank v)) as [Heq|]; [|lia]. exfalso. apply Hcd.
    destruct (Hok u v He') as [Huf Hvf]. apply (Hr2 u v He') in Heq. apply (pa_mutual cs Hp u v Huf Hvf) in Heq.
    fold m in Heq. congruence. }
  exists order. split; [done|]. rewrite L in Hperm. split.
  - rewrite (in_order_permutation cs order Hperm). apply NoDup_Permutation; [done|by apply strongly_sorted_lt_nodup|done].
  - intros u v Huv Hnm. destruct (Hok u v Huv) as [Hu Hv].
    destruct (pa_at cs Hp u Hu) as (c & C & Eu & HC & HuC), (pa_at cs Hp v Hv) as (d & D & Ev & HD & HvD).
    assert (Hcd : c ≠ d).
    { intros ->. apply Hnm, (pa_mutual cs Hp u v Hu Hv). by rewrite Eu, Ev. }
    assert (Hin : d ∈ row rows c) by (apply Hrow; split; [done|]; by exists u, v).
    specialize (Hbefore c d Hin). destruct cf.
    + by apply (in_order_before cs order d c D C v u).
    + by apply (in_order_before cs order c d C D u v).
Qed.

End Orders.
