(* ===== verification/Analysis.v ===== *)
(** * Coroutine analysis

    [src/sim/execution/analysis.rs] and [src/sim/execution/recursion.rs]: the
    suspension sites of processes, fork branches and subprograms, the poll
    depth of every suspendable subprogram, and the recursive synchronous
    subprograms.

    Statements are those of [ControlFlow]; what the analysis reads of a
    statement without bodies is given by a table from tags to [LeafStmt].  The
    effects of a subprogram and the calls written in its body, which come from
    the walk over every statement and expression kind in
    [src/sim/execution.rs], are parameters.

    The [BTreeMap] of site drafts is filled in the order of its keys, so it is
    a list of entries. *)

From Stdlib Require Import ZArith Lia String.
From stdpp Require Import base list gmap sets sorting strings.
From S2P Require Import Prelude Elab Ir Folding Eval ControlFlow Scc.
#[local] Open Scope nat_scope.

(** ** Identities, paths and sites *)

Inductive CoroutineId : Type :=
  | FunctionId (function : nat)
  | FunctionBranch (function helper : nat)
  | ProcessId (process : nat)
  | ProcessBranch (process helper : nat).

Inductive OperationPathElement : Type :=
  | PExecutionBlock (block : nat)
  | PStatement (index : nat)
  | PBody | PThen | PElse | PInit | PIncrement
  | PCaseItem (item : nat)
  | PSuccess | PFailure | PTerminator.

#[export] Instance CoroutineId_eq_dec : EqDecision CoroutineId.
Proof. solve_decision. Defined.
#[export] Instance OperationPathElement_eq_dec : EqDecision OperationPathElement.
Proof. solve_decision. Defined.

(** [OperationPath], from the root of its owner. *)
Definition OperationPath : Type := list OperationPathElement.

Definition child (path : OperationPath) (element : OperationPathElement) : OperationPath := path ++ [element].

Inductive SuspensionOperation : Type :=
  | SDelay | SEventWait | SConditionWait | SEventTriggeredWait | SWaitOrder | SClockingCycle | SForkJoin
  | SWaitFork | SExpect | SStop | SProcessSuspend | SProcessAwait | SSemaphoreGet | SMailboxPut | SMailboxGet
  | SCall (callee : option nat)
  | SProcessTrigger.

#[export] Instance SuspensionOperation_eq_dec : EqDecision SuspensionOperation.
Proof. solve_decision. Defined.

Inductive CallMechanism : Type := Polled (depth : nat) | Anchored | Arena.

Record DirectCall := mkDirectCall { dc_callee : option nat; dc_indirect : bool }.

Record SiteDraft := mkDraft {
  dr_path : OperationPath;
  dr_operation : SuspensionOperation;
  dr_call : option DirectCall;
  dr_origin : option nat;
}.

Record SuspensionSite := mkSite {
  si_resume : nat;
  si_operation : SuspensionOperation;
  si_mechanism : option CallMechanism;
  si_origin : option nat;
}.

Record ExecutionAnalysisOptions := mkOptions { poll_depth_max : nat; embed_limit : nat }.

Definition DEFAULT_POLL_DEPTH_MAX : nat := 3.
Definition DEFAULT_EMBED_LIMIT : nat := 16 * 1024.
Definition default_options : ExecutionAnalysisOptions := mkOptions DEFAULT_POLL_DEPTH_MAX DEFAULT_EMBED_LIMIT.

Inductive ExecutionAnalysisError : Type :=
  | PollDepthOverflow
  | TooManySuspensionSites (owner : CoroutineId)
  | DuplicateOperationPath (owner : CoroutineId) (path : OperationPath).

(** ** What the analysis reads of the IR *)

Inductive ScheduleRegion : Type :=
  | Preponed | PreponedPli | PreActivePli | Active | Inactive | PreNbaPli | PreNba | NonblockingAssign | PostNba
  | PostNbaPli | PreObservedPli | PreObserved | Observed | PostObserved | PostObservedPli | Reactive | ReInactive
  | PreReNbaPli | PreReNba | ReNonblockingAssign | PostReNba | PostReNbaPli | PrePostponedPli | PrePostponed
  | Postponed | PostponedPli.

Inductive ExecutionEffect : Type :=
  | ImmediateStore | EnqueueUpdate (region : ScheduleRegion) | Suspend | Terminate | Trigger | Spawn
  | RuntimeService | Disable.

#[export] Instance ScheduleRegion_eq_dec : EqDecision ScheduleRegion.
Proof. solve_decision. Defined.
#[export] Instance ExecutionEffect_eq_dec : EqDecision ExecutionEffect.
Proof. solve_decision. Defined.

Inductive IrJoinKind : Type := Join | JoinNone | JoinAny | JoinDetached.

Definition join_suspends (kind : IrJoinKind) : bool :=
  match kind with Join | JoinAny => true | JoinNone | JoinDetached => false end.

Record IrCall := mkCall { virtual_dispatch : bool; virtual_call : option (nat * nat); function_index : nat }.

Inductive ObjectStmt : Type :=
  | ProcessControl (suspends : bool)
  | ProcessAwait
  | SemaphoreGet
  | MailboxPut (attempt : bool)
  | MailboxPutLocal (attempt : bool)
  | MailboxGet
  | MailboxGetLocal
  | OtherObject.

Inductive LeafStmt : Type :=
  | Delay | WaitEvents | WaitAny | ClockingCycleWait
  | Fork (join_kind : IrJoinKind) (branches : nat)
  | CapturedFork (join_kind : IrJoinKind) (branches : nat)
  | WaitFork | ExpectStmt | StopControl
  | ObjectLeaf (object : ObjectStmt)
  | CallStmt (call : IrCall)
  | OtherStmt.

Inductive IrPreFn : Type :=
  | Branch (body : list IrStmt)
  | CapturedBranch (body : list IrStmt)
  | OtherPreFn.

Record IrFunc := mkFunc {
  is_task : bool;
  inline_expanded : bool;
  dpi : bool;
  virtual_slot : option nat;
  func_body : list IrStmt;
  func_pre_fns : list IrPreFn;
  func_origin : nat;
}.

(** The instances of every method of every virtual interface. *)
Definition IrVirtualInterface : Type := list (list (option nat)).

Record IrModel := mkModel {
  funcs : list IrFunc;
  virtual_interfaces : list IrVirtualInterface;
  process_pre_fns : list (list IrPreFn);
}.

Inductive ExecutionTerminator : Type :=
  | Complete
  | Jump (target : nat)
  | SuspendSignals (resume : nat)
  | SuspendBodyControlled (resume : nat).

Record ExecutionBlock := mkBlock { operations : list IrStmt; terminator : ExecutionTerminator }.

Definition ExecutionProcess : Type := list ExecutionBlock.

(** [Result] with the errors of the analysis. *)
Inductive analyzed (A : Type) : Type := Fine (a : A) | Bad (error : ExecutionAnalysisError).
Arguments Fine {A} a.
Arguments Bad {A} error.

Definition and_also {A B : Type} (r : analyzed A) (f : A -> analyzed B) : analyzed B :=
  match r with Fine a => f a | Bad e => Bad e end.

(** ** Suspension sites *)

Section Scan.
Context (leaves : nat -> LeafStmt).

Record CallEffects := mkCallEffects {
  ce_functions : list (list ExecutionEffect);
  ce_virtual_slots : list (option nat);
  ce_suspending_slots : list nat;
  ce_suspending_interface_methods : list (nat * nat);
}.

Context (effects : CallEffects).

Definition has_effect (effect : ExecutionEffect) (l : list ExecutionEffect) : bool := bool_decide (effect ∈ l).

Definition dispatch_suspends (function : nat) : bool :=
  match ce_virtual_slots effects !! function with
  | Some (Some slot) => bool_decide (slot ∈ ce_suspending_slots effects)
  | Some None => has_effect Suspend (default [] (ce_functions effects !! function))
  | None => true
  end.

Definition call_suspends (call : IrCall) : bool :=
  match virtual_call call with
  | Some target => bool_decide (target ∈ ce_suspending_interface_methods effects)
  | None =>
      if virtual_dispatch call then dispatch_suspends (function_index call)
      else match ce_functions effects !! function_index call with
           | Some l => has_effect Suspend l
           | None => true
           end
  end.

Definition call_operation (call : IrCall) : option (SuspensionOperation * option DirectCall) :=
  if call_suspends call then
    let callee := match ce_functions effects !! function_index call with
                  | Some _ => Some (function_index call)
                  | None => None
                  end in
    let indirect := virtual_dispatch call || bool_decide (is_Some (virtual_call call)) in
    Some (SCall callee, Some (mkDirectCall callee indirect))
  else None.

Definition object_operation (object : ObjectStmt) : option SuspensionOperation :=
  match object with
  | ProcessControl true => Some SProcessSuspend
  | ProcessAwait => Some SProcessAwait
  | SemaphoreGet => Some SSemaphoreGet
  | MailboxPut false | MailboxPutLocal false => Some SMailboxPut
  | MailboxGet | MailboxGetLocal => Some SMailboxGet
  | _ => None
  end.

Definition suspension_operation (s : IrStmt) : option (SuspensionOperation * option DirectCall) :=
  let plain := fun op => Some (op, None) in
  match s with
  | WaitCond _ _ _ => plain SConditionWait
  | WaitEventTriggered _ _ => plain SEventTriggeredWait
  | WaitOrder _ _ _ => plain SWaitOrder
  | Leaf tag =>
      match leaves tag with
      | Delay => plain SDelay
      | WaitEvents | WaitAny => plain SEventWait
      | ClockingCycleWait => None
      | Fork kind branches | CapturedFork kind branches =>
          if negb (branches =? 0) && join_suspends kind then plain SForkJoin else None
      | WaitFork => plain SWaitFork
      | ExpectStmt => plain SExpect
      | StopControl => plain SStop
      | ObjectLeaf object => operation ← object_operation object; plain operation
      | CallStmt call => call_operation call
      | OtherStmt => None
      end
  | _ => None
  end.

Definition origin (s : IrStmt) : option nat := match s with Located o _ => Some o | _ => None end.

Definition clocking_wait (s : IrStmt) : bool :=
  match s with Leaf tag => match leaves tag with ClockingCycleWait => true | _ => false end | _ => false end.

(** The sites of a statement itself. *)
Definition own_sites (path : OperationPath) (from : option nat) (s : IrStmt) : list SiteDraft :=
  if clocking_wait s then
    [mkDraft (child path PThen) SClockingCycle None from; mkDraft (child path PElse) SClockingCycle None from]
  else match suspension_operation s with
       | Some (operation, call) => [mkDraft path operation call from]
       | None => []
       end.

(** One turn of [scan_statements]: [path] and [from] belong to the statement
    with its provenance wrappers, which are taken off first. *)
Fixpoint scan_stmt (path : OperationPath) (from : option nat) (s : IrStmt) : list SiteDraft :=
  let scan_list := fun (parent : OperationPath) (l : list IrStmt) =>
    (fix go (index : nat) (l : list IrStmt) : list SiteDraft :=
       match l with
       | [] => []
       | c :: l' => scan_stmt (child parent (PStatement index)) (origin c) c ++ go (S index) l'
       end) 0 l in
  let scan_option := fun parent o => match o with Some l => scan_list parent l | None => [] end in
  let own := own_sites path from s in
  match s with
  | Located _ s' => scan_stmt path from s'
  | Block body | While _ body | Repeat _ body | Forever body | WaitCond _ _ body | WaitEventTriggered _ body
  | ActivationScope _ _ body => own ++ scan_list (child path PBody) body
  | If _ then_ els _ => own ++ scan_list (child path PThen) then_ ++ scan_option (child path PElse) els
  | ImmediateAssertion _ _ if_true if_false =>
      own ++ scan_option (child path PSuccess) if_true ++ scan_option (child path PFailure) if_false
  | For init _ incr body =>
      own ++ scan_list (child path PInit) init ++ scan_list (child path PBody) body
          ++ scan_list (child path PIncrement) incr
  | Case _ _ items _ =>
      own ++ (fix go (index : nat) (l : list (IrCaseItem IrStmt)) : list SiteDraft :=
                match l with
                | [] => []
                | it :: l' => scan_list (child path (PCaseItem index)) (item_body it) ++ go (S index) l'
                end) 0 items
  | WaitOrder _ success failure =>
      own ++ scan_list (child path PSuccess) success ++ scan_list (child path PFailure) failure
  | Label _ | Goto _ | Leaf _ => own
  end.

Fixpoint scan_from (index : nat) (parent : OperationPath) (l : list IrStmt) : list SiteDraft :=
  match l with
  | [] => []
  | c :: l' => scan_stmt (child parent (PStatement index)) (origin c) c ++ scan_from (S index) parent l'
  end.

Definition scan_statements (l : list IrStmt) (parent : OperationPath) : list SiteDraft := scan_from 0 parent l.

Definition branch_body (pre : IrPreFn) : option (list IrStmt) :=
  match pre with Branch body | CapturedBranch body => Some body | OtherPreFn => None end.

Definition scan_branches (helpers : list IrPreFn) (owner : nat -> CoroutineId) :
    list (CoroutineId * list SiteDraft) :=
  omap (fun entry : nat * IrPreFn =>
          body ← branch_body entry.2; Some (owner entry.1, scan_statements body []))
    (zip (seq 0 (length helpers)) helpers).

Definition scan_block (index : nat) (block : ExecutionBlock) : list SiteDraft :=
  let path := [PExecutionBlock index] in
  scan_statements (operations block) path
  ++ match terminator block with
     | SuspendSignals _ => [mkDraft (child path PTerminator) SProcessTrigger None None]
     | _ => []
     end.

Definition scan_process (process : ExecutionProcess) : list SiteDraft :=
  flat_map (fun entry : nat * ExecutionBlock => scan_block entry.1 entry.2)
    (zip (seq 0 (length process)) process).

End Scan.

(** ** Poll depths *)

Definition checked_succ (n : nat) : option nat :=
  if (Z.of_nat n <? elab.usize_max)%Z then Some (S n) else None.

Definition call_mechanism (caller : option nat) (caller_depth : nat) (call : DirectCall) (poll_depth_max : nat)
    (component_of : list (option nat)) (forced_arena_callees : list nat) : analyzed CallMechanism :=
  if dc_indirect call then Fine Arena
  else match dc_callee call with
       | None => Fine Arena
       | Some callee =>
           let caller_component := caller ≫= component_at component_of in
           let callee_component := component_at component_of callee in
           if bool_decide (callee ∈ forced_arena_callees)
              || (bool_decide (is_Some caller_component) && bool_decide (caller_component = callee_component))
           then Fine Arena
           else match checked_succ caller_depth with
                | None => Bad PollDepthOverflow
                | Some depth => if poll_depth_max <? depth then Fine Anchored else Fine (Polled depth)
                end
       end.

Definition contribution (mechanism : CallMechanism) : nat :=
  match mechanism with Polled depth => depth | Anchored | Arena => 0 end.

(** The depths are the function's slot of a vector with one slot for every
    subprogram of the model. *)
Fixpoint propagate_depths (caller : option nat) (caller_depth : nat) (calls : list DirectCall) (poll_depth_max : nat)
    (component_of : list (option nat)) (forced_arena_callees : list nat) (depths : list (option nat)) :
    analyzed (list (option nat)) :=
  match calls with
  | [] => Fine depths
  | call :: rest =>
      let continue_with := propagate_depths caller caller_depth rest poll_depth_max component_of forced_arena_callees in
      match dc_callee call with
      | Some callee =>
          if callee <? length depths then
            and_also (call_mechanism caller caller_depth call poll_depth_max component_of forced_arena_callees)
              (fun mechanism =>
                 let current := default 0 (default None (depths !! callee)) in
                 continue_with (<[callee := Some (Nat.max current (contribution mechanism))]> depths))
          else continue_with depths
      | None => continue_with depths
      end
  end.

Definition calls_of (sites : list SiteDraft) : list DirectCall := omap dr_call sites.

(** ** The analysis *)

Section Analyze.
Context (leaves : nat -> LeafStmt).
Context (effects_for_function : nat -> list ExecutionEffect).

Definition function_effects (ir : IrModel) : list (list ExecutionEffect) :=
  map (fun entry : nat * IrFunc =>
         let effects := effects_for_function entry.1 in
         if is_task entry.2 then effects else filter (fun e => e ≠ Suspend) effects)
    (zip (seq 0 (length (funcs ir))) (funcs ir)).

Definition coroutine_functions (ir : IrModel) : list nat :=
  omap (fun entry : nat * (IrFunc * list ExecutionEffect) =>
          let '(index, (function, effects)) := entry in
          if negb (inline_expanded function) && has_effect Suspend effects then Some index else None)
    (zip (seq 0 (length (funcs ir))) (zip (funcs ir) (function_effects ir))).

Definition suspending_slots (ir : IrModel) : list nat :=
  set_of (omap (fun f => fn ← funcs ir !! f; virtual_slot fn) (coroutine_functions ir)).

Definition suspending_interface_methods (ir : IrModel) : list (nat * nat) :=
  flat_map (fun entry : nat * IrVirtualInterface =>
    omap (fun method : nat * list (option nat) =>
            if existsb (fun instance => match instance with
                                        | Some f => bool_decide (f ∈ coroutine_functions ir)
                                        | None => false
                                        end) method.2
            then Some (entry.1, method.1) else None)
      (zip (seq 0 (length entry.2)) entry.2))
    (zip (seq 0 (length (virtual_interfaces ir))) (virtual_interfaces ir)).

Definition call_effects (ir : IrModel) : CallEffects :=
  mkCallEffects (function_effects ir) (map virtual_slot (funcs ir)) (suspending_slots ir)
    (suspending_interface_methods ir).

(** A suspendable context import has one resume point, the arena call of an
    exported task. *)
Definition function_sites (ir : IrModel) (function : nat) : list SiteDraft :=
  match funcs ir !! function with
  | Some definition =>
      if dpi definition
      then [mkDraft [] (SCall None) (Some (mkDirectCall None true)) (Some (func_origin definition))]
      else scan_statements leaves (call_effects ir) (func_body definition) []
  | None => []
  end.

Definition drafts (ir : IrModel) (processes : list ExecutionProcess) : list (CoroutineId * list SiteDraft) :=
  map (fun f => (FunctionId f, function_sites ir f)) (coroutine_functions ir)
  ++ flat_map (fun entry : nat * IrFunc =>
       scan_branches leaves (call_effects ir) (func_pre_fns entry.2) (FunctionBranch entry.1))
       (zip (seq 0 (length (funcs ir))) (funcs ir))
  ++ map (fun entry : nat * ExecutionProcess =>
       (ProcessId entry.1, scan_process leaves (call_effects ir) entry.2))
       (zip (seq 0 (length processes)) processes)
  ++ flat_map (fun entry : nat * list IrPreFn =>
       scan_branches leaves (call_effects ir) entry.2 (ProcessBranch entry.1))
       (zip (seq 0 (length (process_pre_fns ir))) (process_pre_fns ir)).

End Analyze.

Definition sites_for (owner : CoroutineId) (entries : list (CoroutineId * list SiteDraft)) : option (list SiteDraft) :=
  snd <$> head (filter (fun e : CoroutineId * list SiteDraft => e.1 = owner) entries).

(** The calls between suspendable subprograms that are bound statically. *)
Definition static_callees (functions : list nat) (sites : list SiteDraft) : list nat :=
  set_of (omap (fun call =>
            if dc_indirect call then None
            else callee ← dc_callee call; if bool_decide (callee ∈ functions) then Some callee else None)
         (calls_of sites)).

Definition suspendable_graph (functions : list nat) (entries : list (CoroutineId * list SiteDraft)) : graph :=
  list_to_map (map (fun f => (f, static_callees functions (default [] (sites_for (FunctionId f) entries)))) functions).

Definition owner_function (owner : CoroutineId) : option nat :=
  match owner with FunctionId f => Some f | _ => None end.

Fixpoint propagate_roots (options : ExecutionAnalysisOptions) (component_of : list (option nat)) (forced : list nat)
    (entries : list (CoroutineId * list SiteDraft)) (depths : list (option nat)) : analyzed (list (option nat)) :=
  match entries with
  | [] => Fine depths
  | (owner, sites) :: rest =>
      match owner with
      | FunctionId _ => propagate_roots options component_of forced rest depths
      | _ =>
          and_also (propagate_depths None 0 (calls_of sites) (poll_depth_max options) component_of forced depths)
            (propagate_roots options component_of forced rest)
      end
  end.

Fixpoint propagate_functions (options : ExecutionAnalysisOptions) (component_of : list (option nat))
    (forced : list nat) (entries : list (CoroutineId * list SiteDraft)) (functions : list nat)
    (depths : list (option nat)) : analyzed (list (option nat)) :=
  match functions with
  | [] => Fine depths
  | function :: rest =>
      let depth := default 0 (default None (depths !! function)) in
      and_also
        (match sites_for (FunctionId function) entries with
         | Some sites =>
             propagate_depths (Some function) depth (calls_of sites) (poll_depth_max options) component_of forced depths
         | None => Fine depths
         end)
        (propagate_functions options component_of forced entries rest)
  end.

(** The numbered sites of one owner; [found] holds the paths inserted so far. *)
Fixpoint number_sites (owner : CoroutineId) (owner_depth : nat) (options : ExecutionAnalysisOptions)
    (component_of : list (option nat)) (forced : list nat) (index : nat) (sites : list SiteDraft)
    (found : list (OperationPath * SuspensionSite)) : analyzed (list (OperationPath * SuspensionSite)) :=
  match sites with
  | [] => Fine found
  | draft :: rest =>
      if (Z.of_nat (index + 1) <? 2 ^ 32)%Z then
        and_also
          (match dr_call draft with
           | Some call =>
               and_also (call_mechanism (owner_function owner) owner_depth call (poll_depth_max options) component_of forced)
                 (fun mechanism => Fine (Some mechanism))
           | None => Fine None
           end)
          (fun mechanism =>
             if bool_decide (dr_path draft ∈ map fst found)
             then Bad (DuplicateOperationPath owner (dr_path draft))
             else number_sites owner owner_depth options component_of forced (S index) rest
                    (found ++ [(dr_path draft, mkSite (index + 1) (dr_operation draft) mechanism (dr_origin draft))]))
      else Bad (TooManySuspensionSites owner)
  end.

Fixpoint number_owners (options : ExecutionAnalysisOptions) (component_of : list (option nat)) (forced : list nat)
    (depths : list (option nat)) (entries : list (CoroutineId * list SiteDraft)) :
    analyzed (list (CoroutineId * list (OperationPath * SuspensionSite))) :=
  match entries with
  | [] => Fine []
  | (owner, sites) :: rest =>
      let owner_depth := match owner with FunctionId f => default 0 (default None (depths !! f)) | _ => 0 end in
      and_also (number_sites owner owner_depth options component_of forced 0 sites [])
        (fun numbered =>
           and_also (number_owners options component_of forced depths rest)
             (fun others => Fine ((owner, numbered) :: others)))
  end.

Record ExecutionAnalysis := mkAnalysis {
  an_options : ExecutionAnalysisOptions;
  an_forced : list nat;
  an_coroutine_functions : list nat;
  an_callee_first : list nat;
  an_function_depths : list (option nat);
  an_sites : list (CoroutineId * list (OperationPath * SuspensionSite));
}.

(** The analysis from the drafts on; [None] when a graph loop runs out of
    fuel. *)
Definition solve (function_count : nat) (functions : list nat) (entries : list (CoroutineId * list SiteDraft))
    (options : ExecutionAnalysisOptions) (forced : list nat) : option (analyzed ExecutionAnalysis) :=
  let g := suspendable_graph functions entries in
  components ← strongly_connected_components functions g;
  let component_of := component_membership function_count components in
  let condensation := condensation_graph components component_of g in
  caller_first ← component_order condensation false;
  callee_order ← component_order condensation true;
  let in_order := fun order => flat_map (fun c => default [] (components !! c)) order in
  let initial := fold_left (fun depths f => <[f := Some 0]> depths) functions (replicate function_count None) in
  Some
    (and_also (propagate_roots options component_of forced entries initial) (fun depths =>
     and_also (propagate_functions options component_of forced entries (in_order caller_first) depths) (fun depths =>
     and_also (number_owners options component_of forced depths entries) (fun sites =>
     Fine (mkAnalysis options forced functions (in_order callee_order) depths sites))))).

Definition analyze_with (leaves : nat -> LeafStmt) (effects_for_function : nat -> list ExecutionEffect)
    (ir : IrModel) (processes : list ExecutionProcess) (options : ExecutionAnalysisOptions) (forced : list nat) :
    option (analyzed ExecutionAnalysis) :=
  solve (length (funcs ir)) (coroutine_functions effects_for_function ir)
    (drafts leaves effects_for_function ir processes) options forced.

(** ** Recursive synchronous subprograms *)

Inductive CallTarget : Type := StaticTarget (f : nat) | VirtualTarget (f : nat) | InterfaceTarget (i m : nat).

Definition target_functions (ir : IrModel) (target : CallTarget) : list nat :=
  let found :=
    match target with
    | StaticTarget f => [f]
    | VirtualTarget f =>
        match (fn ← funcs ir !! f; virtual_slot fn) with
        | Some slot =>
            omap (fun entry : nat * IrFunc => if bool_decide (virtual_slot entry.2 = Some slot) then Some entry.1 else None)
              (zip (seq 0 (length (funcs ir))) (funcs ir))
        | None => [f]
        end
    | InterfaceTarget i m => omap id (default [] (interface ← virtual_interfaces ir !! i; interface !! m))
    end in
  set_of (filter (fun f => f < length (funcs ir)) found).

Record RecursionAnalysis := mkRecursion {
  re_components : list (option nat);
  re_dispatch_slots : list nat;
  re_interface_methods : list (nat * nat);
}.

Definition recursive_call (ir : IrModel) (components : list (option nat)) (caller : nat) (target : CallTarget) : bool :=
  match component_at components caller with
  | Some component =>
      existsb (fun callee => bool_decide (component_at components callee = Some component)) (target_functions ir target)
  | None => false
  end.

Section Recursion.
Context (direct_call_targets : nat -> list CallTarget).

Definition synchronous_functions (ir : IrModel) (suspendable : list nat) : list nat :=
  omap (fun entry : nat * IrFunc =>
          if negb (inline_expanded entry.2) && negb (dpi entry.2) && negb (bool_decide (entry.1 ∈ suspendable))
          then Some entry.1 else None)
    (zip (seq 0 (length (funcs ir))) (funcs ir)).

Definition synchronous_graph (ir : IrModel) (nodes : list nat) : graph :=
  list_to_map (map (fun f =>
    (f, set_of (filter (fun c => c ∈ nodes) (flat_map (target_functions ir) (direct_call_targets f))))) nodes).

Definition cyclic_component (g : graph) (members : list nat) : bool :=
  (1 <? length members)
  || match members with member :: _ => bool_decide (member ∈ callees_of g member) | [] => false end.

Definition mark_cyclic (g : graph) (state : list (option nat) * nat) (members : list nat) : list (option nat) * nat :=
  let '(components, cyclic) := state in
  if cyclic_component g members
  then (fold_left (fun slots member => set_slot member cyclic slots) members components, S cyclic)
  else state.

Definition recursion_components (ir : IrModel) (suspendable : list nat) : option (list (option nat)) :=
  let nodes := synchronous_functions ir suspendable in
  let g := synchronous_graph ir nodes in
  components ← strongly_connected_components nodes g;
  Some (fst (fold_left (mark_cyclic g) components (replicate (length (funcs ir)) None, 0))).

Definition analyze_recursion (ir : IrModel) (suspendable : list nat) : option RecursionAnalysis :=
  components ← recursion_components ir suspendable;
  let recursive :=
    flat_map (fun f => filter (fun target => recursive_call ir components f target = true) (direct_call_targets f))
      (synchronous_functions ir suspendable) in
  Some (mkRecursion components
    (set_of (omap (fun target => match target with
                                 | VirtualTarget f => fn ← funcs ir !! f; virtual_slot fn
                                 | _ => None
                                 end) recursive))
    (omap (fun target => match target with InterfaceTarget i m => Some (i, m) | _ => None end) recursive)).

End Recursion.
