(* ===== verification/SiteFacts.v ===== *)
(** * Poll depths

    Depths are propagated along the calls, callers first.  The result is the
    solution of the equations in the documentation of the analysis: the depth
    of a function is the maximum of what its callers contribute at their own
    final depths. *)

From Stdlib Require Import ZArith Lia List.
From stdpp Require Import base list gmap sets fin_sets sorting relations.
From S2P Require Import Prelude Elab ControlFlow ControlFacts Scc SccFacts SccOrder Analysis.
#[local] Open Scope nat_scope.

(** ** Sets and the call graph *)

Lemma elem_of_set_of x l : x ∈ set_of l ↔ x ∈ l.
Proof.
  unfold set_of. induction l as [|y l IH]; cbn [foldr]; [done|]. rewrite elem_of_set_insert, elem_of_cons, IH. done.
Qed.

Lemma set_of_sorted l : StronglySorted lt (set_of l).
Proof. unfold set_of. induction l as [|y l IH]; cbn [foldr]; [constructor|by apply set_insert_sorted]. Qed.

Lemma map_table_lookup (F : nat → list nat) l u :
  (list_to_map (map (fun f => (f, F f)) l) : graph) !! u = if decide (u ∈ l) then Some (F u) else None.
Proof.
  induction l as [|x l IH]; cbn [map list_to_map foldr fst snd].
  - rewrite lookup_empty. by rewrite decide_False by set_solver.
  - destruct (decide (u = x)) as [->|Hu].
    + rewrite lookup_insert_eq. by rewrite decide_True by set_solver.
    + rewrite lookup_insert_ne, IH by done. destruct (decide (u ∈ l)), (decide (u ∈ x :: l)); try done; set_solver.
Qed.

Lemma table_edge (F : nat → list nat) l u v :
  edge (list_to_map (map (fun f => (f, F f)) l)) u v ↔ u ∈ l ∧ v ∈ F u.
Proof.
  unfold edge, callees_of. rewrite map_table_lookup. destruct (decide (u ∈ l)); simpl; [tauto|]. set_solver.
Qed.

Lemma static_callee functions sites v :
  v ∈ static_callees functions sites
  ↔ v ∈ functions ∧ ∃ call, call ∈ calls_of sites ∧ dc_indirect call = false ∧ dc_callee call = Some v.
Proof.
  unfold static_callees. rewrite elem_of_set_of, list_elem_of_omap. split.
  - intros (call & Hin & E). destruct (dc_indirect call) eqn:Hi; [done|].
    destruct (dc_callee call) as [c|] eqn:Hc; simpl in E; [|done]. case_bool_decide; [|done].
    injection E as ->. eauto.
  - intros (Hv & call & Hin & Hi & Hc). exists call. split; [done|]. rewrite Hi, Hc. simpl.
    by rewrite bool_decide_true.
Qed.

Lemma suspendable_graph_ok functions entries : graph_ok functions (suspendable_graph functions entries).
Proof.
  intros u v Huv. apply table_edge in Huv as [Hu Hv]. apply static_callee in Hv as [Hv _]. done.
Qed.

(** ** What a call contributes *)

Lemma list_max_in x l : x ∈ l → x <= list_max l.
Proof.
  intros Hx. pose proof (proj1 (list_max_le l (list_max l)) ltac:(done)) as H.
  rewrite List.Forall_forall in H. apply H. by apply list_elem_of_In.
Qed.

Lemma list_max_bound l n : (∀ x, x ∈ l → x <= n) → list_max l <= n.
Proof.
  intros H. apply list_max_le, List.Forall_forall. intros x Hx. apply H. by apply list_elem_of_In.
Qed.

Definition depth_of (depths : list (option nat)) (f : nat) : nat := default 0 (default None (depths !! f)).

Section Depths.
Context (max_depth : nat) (component_of : list (option nat)) (forced : list nat).

(** The mechanism of a call whose depth does not overflow. *)
Definition mechanism_of (caller : option nat) (depth : nat) (call : DirectCall) : CallMechanism :=
  match call_mechanism caller depth call max_depth component_of forced with Fine m => m | Bad _ => Arena end.

Lemma call_mechanism_fine caller depth call :
  (Z.of_nat depth < elab.usize_max)%Z →
  call_mechanism caller depth call max_depth component_of forced = Fine (mechanism_of caller depth call).
Proof.
  intros Hd. unfold mechanism_of. destruct (call_mechanism _ _ _ _ _ _) eqn:E; [done|]. exfalso.
  unfold call_mechanism, checked_succ in E. rewrite (proj2 (Z.ltb_lt _ _) Hd) in E.
  destruct (dc_indirect call); [done|]. destruct (dc_callee call); [|done].
  destruct (_ || _); [done|]. by destruct (_ <? _).
Qed.

(** A call that is polled is direct, enters another component and goes one
    level deeper, within the limit. *)
Lemma polled_inv caller depth call d :
  mechanism_of caller depth call = Polled d →
  d = S depth ∧ d <= max_depth ∧ dc_indirect call = false
  ∧ ∃ callee, dc_callee call = Some callee ∧ callee ∉ forced
    ∧ ∀ f c, caller = Some f → component_at component_of f = Some c → component_at component_of callee ≠ Some c.
Proof.
  unfold mechanism_of, call_mechanism, checked_succ. destruct (dc_indirect call); [done|].
  destruct (dc_callee call) as [callee|]; [|done].
  destruct (bool_decide (callee ∈ forced)) eqn:Hf; [done|]. apply bool_decide_eq_false in Hf.
  destruct (_ && _) eqn:Hc; [done|]. cbn [orb].
  destruct (_ <? elab.usize_max)%Z; [|done]. destruct (Nat.ltb_spec max_depth (S depth)); [done|].
  intros [= <-]. split_and!; try done. exists callee. split_and!; try done.
  intros f c -> Hat He. simpl in Hc. rewrite Hat, He in Hc. rewrite !bool_decide_true in Hc; done.
Qed.

(** The greatest contribution of some calls to [f]. *)
Definition offered (caller : option nat) (depth : nat) (calls : list DirectCall) (f : nat) : nat :=
  list_max (map (fun call => contribution (mechanism_of caller depth call))
                (filter (fun call => dc_callee call = Some f) calls)).

Lemma offered_bound caller depth calls f : offered caller depth calls f <= max_depth.
Proof.
  apply list_max_bound. intros x Hx. apply list_elem_of_fmap in Hx as (call & -> & _).
  destruct (mechanism_of caller depth call) as [d| |] eqn:E; simpl; [|lia|lia].
  by apply polled_inv in E as (_ & ? & _).
Qed.

Lemma offered_positive caller depth calls f :
  offered caller depth calls f ≠ 0 →
  ∃ call, call ∈ calls ∧ dc_callee call = Some f ∧ ∃ d, mechanism_of caller depth call = Polled d.
Proof.
  unfold offered. intros Hne. induction calls as [|call calls IH]; [done|]. rewrite filter_cons in Hne.
  destruct (decide (dc_callee call = Some f)) as [Hc|Hc].
  - cbn [map] in Hne. destruct (mechanism_of caller depth call) as [d| |] eqn:E.
    + exists call. split_and!; [set_solver|done|eauto].
    + destruct IH as (x & ? & ? & ?); [|exists x; set_solver]. intros E0. apply Hne.
      apply Nat.le_0_r, list_max_bound. intros x [->|Hx]%elem_of_cons; simpl; [lia|].
      rewrite <- E0. by apply list_max_in.
    + destruct IH as (x & ? & ? & ?); [|exists x; set_solver]. intros E0. apply Hne.
      apply Nat.le_0_r, list_max_bound. intros x [->|Hx]%elem_of_cons; simpl; [lia|].
      rewrite <- E0. by apply list_max_in.
  - destruct (IH Hne) as (x & ? & ? & ?). exists x. set_solver.
Qed.

(** ** Propagation *)

Lemma propagate_depths_spec caller depth calls depths :
  (Z.of_nat depth < elab.usize_max)%Z →
  ∃ depths', propagate_depths caller depth calls max_depth component_of forced depths = Fine depths'
    ∧ length depths' = length depths
    ∧ (∀ f, f < length depths → depth_of depths' f = Nat.max (depth_of depths f) (offered caller depth calls f))
    ∧ (∀ f d, depths !! f = Some (Some d) → ∃ d', depths' !! f = Some (Some d')).
Proof.
  intros Hd. revert depths. induction calls as [|call calls IH]; intros depths; cbn [propagate_depths].
  - exists depths. split_and!; try done; [|eauto]. intros f _. unfold offered. simpl. lia.
  - assert (Hskip : ∀ f, dc_callee call ≠ Some f → offered caller depth (call :: calls) f = offered caller depth calls f).
    { intros f Hf. unfold offered. by rewrite filter_cons, decide_False. }
    destruct (dc_callee call) as [callee|] eqn:Hc; [destruct (Nat.ltb_spec callee (length depths)) as [Hlt|Hge]|].
    + rewrite call_mechanism_fine by done. cbn [and_also]. set (x := Nat.max _ _).
      destruct (IH (<[callee := Some x]> depths)) as (depths' & E & L & H1 & H2). rewrite length_insert in L, H1.
      exists depths'. split_and!; try done.
      * intros f Hf. rewrite (H1 f Hf). destruct (decide (f = callee)) as [->|Hn].
        -- unfold depth_of at 1. rewrite list_lookup_insert_eq by done. simpl. unfold x, offered.
           rewrite filter_cons, decide_True by done. cbn [map]. fold (depth_of depths callee).
           change (list_max (?a :: ?l)) with (Nat.max a (list_max l)). lia.
        -- unfold depth_of at 1. rewrite list_lookup_insert_ne by done. rewrite Hskip by congruence. done.
      * intros f d Hf. destruct (decide (f = callee)) as [->|Hn].
        -- eapply H2. by apply list_lookup_insert_eq.
        -- eapply H2. by rewrite list_lookup_insert_ne.
    + destruct (IH depths) as (depths' & E & L & H1 & H2). exists depths'. split_and!; try done.
      intros f Hf. rewrite Hskip; [by apply H1|]. intros [= ->]. lia.
    + destruct (IH depths) as (depths' & E & L & H1 & H2). exists depths'. split_and!; try done.
      intros f Hf. rewrite Hskip by done. by apply H1.
Qed.

(** Functions in an order in which every positive contribution goes forward. *)
Lemma propagate_functions_spec options entries L depths :
  poll_depth_max options = max_depth →
  (Z.of_nat max_depth < elab.usize_max)%Z →
  NoDup L → (∀ f, f ∈ L → f < length depths) → (∀ f, depth_of depths f <= max_depth) →
  (∀ f, f ∈ L → is_Some (sites_for (FunctionId f) entries)) →
  let calls := fun h => calls_of (default [] (sites_for (FunctionId h) entries)) in
  (∀ h f d, h ∈ L → f ∈ L → offered (Some h) d (calls h) f ≠ 0 → before h f L) →
  ∃ depths', propagate_functions options component_of forced entries L depths = Fine depths'
    ∧ length depths' = length depths
    ∧ (∀ f, f < length depths →
         depth_of depths' f
         = Nat.max (depth_of depths f) (list_max (map (fun h => offered (Some h) (depth_of depths' h) (calls h) f) L)))
    ∧ (∀ f d, depths !! f = Some (Some d) → ∃ d', depths' !! f = Some (Some d')).
Proof.
  intros Hopt Hmax Hn HL Hb Hs calls Hfwd. revert depths Hn HL Hb Hs Hfwd.
  induction L as [|h L IH]; intros depths Hn HL Hb Hs Hfwd; cbn [propagate_functions].
  - exists depths. split_and!; try done; [|eauto]. intros f _. simpl. lia.
  - apply NoDup_cons in Hn as [Hh Hn]. fold (depth_of depths h).
    assert (Hd : (Z.of_nat (depth_of depths h) < elab.usize_max)%Z) by (specialize (Hb h); lia).
    destruct (Hs h) as [sites Hsites]; [set_solver|]. rewrite Hsites, Hopt.
    destruct (propagate_depths_spec (Some h) (depth_of depths h) (calls_of sites) depths Hd) as (D1 & E1 & L1 & H1 & H2).
    rewrite E1. cbn [and_also]. assert (Hcalls : calls h = calls_of sites) by (unfold calls; by rewrite Hsites).
    assert (Hnofirst : ∀ x, x ∈ h :: L → ∀ d, offered (Some x) d (calls x) h = 0).
    { intros x Hx d. destruct (offered (Some x) d (calls x) h) eqn:E; [done|]. exfalso.
      destruct (Hfwd x h d Hx ltac:(set_solver)) as (a & b & Eab & Ha); [lia|].
      destruct a as [|y a]; [set_solver|]. injection Eab as -> ->. set_solver. }
    destruct (IH D1) as (D2 & E2 & L2 & K1 & K2).
    + done.
    + intros f Hf. rewrite L1. apply HL. set_solver.
    + intros f. destruct (decide (f < length depths)) as [Hf|Hf].
      * rewrite (H1 f Hf). pose proof (offered_bound (Some h) (depth_of depths h) (calls_of sites) f).
        specialize (Hb f). lia.
      * unfold depth_of. rewrite lookup_ge_None_2 by lia. simpl. lia.
    + intros f Hf. apply Hs. set_solver.
    + intros x f d Hx Hf Hne. destruct (Hfwd x f d ltac:(set_solver) ltac:(set_solver) Hne) as (a & b & Eab & Ha).
      destruct a as [|y a]; [set_solver|]. injection Eab as -> ->. exists a, b. split; [done|].
      apply elem_of_cons in Ha as [->|Ha]; [|done]. done.
    + exists D2. rewrite L1 in L2, K1. split_and!; try done.
      * assert (Hhlt : h < length depths) by (apply HL; set_solver).
        assert (Hfix : depth_of D2 h = depth_of depths h).
        { rewrite (K1 h Hhlt), (H1 h Hhlt), <- Hcalls, Hnofirst by set_solver.
          assert (list_max (map (fun x => offered (Some x) (depth_of D2 x) (calls x) h) L) = 0); [|lia].
          apply Nat.le_0_r, list_max_bound. intros y Hy. apply list_elem_of_fmap in Hy as (x & -> & Hx).
          rewrite Hnofirst by set_solver. lia. }
        intros f Hf. rewrite (K1 f Hf), (H1 f Hf). cbn [map]. rewrite Hfix, Hcalls.
        change (list_max (?a :: ?l)) with (Nat.max a (list_max l)). lia.
      * intros f d Hf. destruct (H2 f d Hf) as [d1 Hd1]. by apply (K2 f d1).
Qed.

Lemma propagate_roots_spec options entries depths :
  poll_depth_max options = max_depth →
  ∃ depths', propagate_roots options component_of forced entries depths = Fine depths'
    ∧ length depths' = length depths
    ∧ (∀ f, f < length depths →
         depth_of depths' f
         = Nat.max (depth_of depths f)
             (list_max (map (fun e => offered None 0 (calls_of e.2) f)
                            (filter (fun e : CoroutineId * list SiteDraft => owner_function e.1 = None) entries))))
    ∧ (∀ f d, depths !! f = Some (Some d) → ∃ d', depths' !! f = Some (Some d')).
Proof.
  intros Hopt. revert depths. induction entries as [|[owner sites] entries IH]; intros depths; cbn [propagate_roots].
  - exists depths. split_and!; try done; [|eauto]. intros f _. simpl. lia.
  - destruct (decide (owner_function owner = None)) as [Ho|Ho].
    + destruct (propagate_depths_spec None 0 (calls_of sites) depths) as (D1 & E1 & L1 & H1 & H2); [done|].
      destruct (IH D1) as (D2 & E2 & L2 & K1 & K2). rewrite L1 in L2, K1. exists D2. split_and!; try done.
      * rewrite Hopt, E1. cbn [and_also]. by destruct owner.
      * intros f Hf. rewrite (K1 f Hf), (H1 f Hf), filter_cons, decide_True by done. cbn [map].
        change (list_max (?a :: ?l)) with (Nat.max a (list_max l)). simpl. lia.
      * intros f d Hf. destruct (H2 f d Hf) as [d1 Hd1]. by apply (K2 f d1).
    + by destruct owner.
Qed.

End Depths.

(** * Suspension sites

    Every site of an owner has a path of its own, so the numbering of the
    sites never meets a path twice and gives the resume numbers one, two and
    so on in the order of the scan. *)

(** ** Paths *)

(** The sites of [l] have distinct paths, which extend [q] by an element of
    [X]. *)
Definition spread (q : OperationPath) (X : OperationPathElement → Prop) (l : list SiteDraft) : Prop :=
  NoDup (map dr_path l) ∧ ∀ d, d ∈ l → ∃ x r, dr_path d = q ++ x :: r ∧ X x.

(** The sites of [l] have distinct paths at or below [q]. *)
Definition below (q : OperationPath) (l : list SiteDraft) : Prop :=
  NoDup (map dr_path l) ∧ ∀ d, d ∈ l → ∃ r, dr_path d = q ++ r.

Lemma spread_nil q X : spread q X [].
Proof. split; [constructor|set_solver]. Qed.

Lemma spread_weaken q (X Y : OperationPathElement → Prop) l : (∀ x, X x → Y x) → spread q X l → spread q Y l.
Proof. intros HXY [H1 H2]. split; [done|]. intros d Hd. destruct (H2 d Hd) as (x & r & E & Hx). eauto. Qed.

Lemma spread_app q (X Y : OperationPathElement → Prop) l k :
  spread q X l → spread q Y k → (∀ x, X x → Y x → False) → spread q (fun x => X x ∨ Y x) (l ++ k).
Proof.
  intros [L1 L2] [K1 K2] Hd. split.
  - rewrite map_app. apply NoDup_app. split_and!; [done| |done]. intros p Hp Hq.
    apply list_elem_of_fmap in Hp as (d & -> & Hin), Hq as (e & E & Hin').
    destruct (L2 d Hin) as (x & r & Ex & Hx), (K2 e Hin') as (y & r' & Ey & Hy).
    rewrite Ex, Ey in E. apply app_inv_head in E. injection E as -> _. by eapply Hd.
  - intros d [Hin|Hin]%elem_of_app; [destruct (L2 d Hin) as (x & r & ? & ?)|destruct (K2 d Hin) as (x & r & ? & ?)]; eauto.
Qed.

Lemma below_spread q x l : below (child q x) l → spread q (fun y => y = x) l.
Proof.
  intros [H1 H2]. split; [done|]. intros d Hd. destruct (H2 d Hd) as [r Hr]. exists x, r.
  split; [|done]. rewrite Hr. unfold child. by rewrite <- app_assoc.
Qed.

Lemma spread_below q X l : spread q X l → below q l.
Proof. intros [H1 H2]. split; [done|]. intros d Hd. destruct (H2 d Hd) as (x & r & E & _). eauto. Qed.

Lemma below_cons q X d l : dr_path d = q → spread q X l → below q (d :: l).
Proof.
  intros Hd [H1 H2]. split.
  - cbn [map]. constructor; [|done]. intros Hin. apply list_elem_of_fmap in Hin as (e & E & Hin).
    destruct (H2 e Hin) as (x & r & Ex & _). rewrite Hd, Ex in E.
    apply (f_equal length) in E. rewrite length_app in E. simpl in E. lia.
  - intros e [->|Hin]%elem_of_cons; [exists []; by rewrite app_nil_r, Hd|].
    destruct (H2 e Hin) as (x & r & Ex & _). eauto.
Qed.

Section Scan.
Context (leaves : nat → LeafStmt) (effects : CallEffects).

#[local] Notation scan_stmt := (scan_stmt leaves effects).
#[local] Notation scan_from := (scan_from leaves effects).

Fixpoint scan_items (index : nat) (path : OperationPath) (items : list (IrCaseItem IrStmt)) : list SiteDraft :=
  match items with
  | [] => []
  | it :: rest => scan_from 0 (child path (PCaseItem index)) (item_body it) ++ scan_items (S index) path rest
  end.

Definition scan_option (path : OperationPath) (o : option (list IrStmt)) : list SiteDraft :=
  match o with Some l => scan_from 0 path l | None => [] end.

(** The equations of the scan. *)
Lemma scan_stmt_eq path from s :
  scan_stmt path from s =
  match s with
  | Located _ s' => scan_stmt path from s'
  | Block body | While _ body | Repeat _ body | Forever body | WaitCond _ _ body | WaitEventTriggered _ body
  | ActivationScope _ _ body => own_sites leaves effects path from s ++ scan_from 0 (child path PBody) body
  | If _ then_ els _ =>
      own_sites leaves effects path from s ++ scan_from 0 (child path PThen) then_ ++ scan_option (child path PElse) els
  | ImmediateAssertion _ _ if_true if_false =>
      own_sites leaves effects path from s
      ++ scan_option (child path PSuccess) if_true ++ scan_option (child path PFailure) if_false
  | For init _ incr body =>
      own_sites leaves effects path from s ++ scan_from 0 (child path PInit) init
      ++ scan_from 0 (child path PBody) body ++ scan_from 0 (child path PIncrement) incr
  | Case _ _ items _ => own_sites leaves effects path from s ++ scan_items 0 path items
  | WaitOrder _ success failure =>
      own_sites leaves effects path from s
      ++ scan_from 0 (child path PSuccess) success ++ scan_from 0 (child path PFailure) failure
  | Label _ | Goto _ | Leaf _ => own_sites leaves effects path from s
  end.
Proof.
  assert (Hgo : ∀ l i parent,
    (fix go (index : nat) (l : list IrStmt) : list SiteDraft :=
       match l with
       | [] => []
       | c :: l' => scan_stmt (child parent (PStatement index)) (origin c) c ++ go (S index) l'
       end) i l = scan_from i parent l).
  { induction l as [|c l IH]; intros i parent; [done|]. cbn [Analysis.scan_from]. by rewrite <- IH. }
  destruct s; cbn [Analysis.scan_stmt]; rewrite ?Hgo; try done.
  - unfold scan_option. destruct if_true, if_false; by rewrite ?Hgo.
  - unfold scan_option. destruct els; by rewrite ?Hgo.
  - f_equal. match goal with |- ?F 0 items = _ => enough (H : ∀ i, F i items = scan_items i path items) by apply H end.
    induction items as [|it items IH]; intros i; [done|]. cbn [scan_items]. by rewrite Hgo, IH.
Qed.

Lemma scan_from_spread l i parent :
  (∀ c, c ∈ l → ∀ path from, below path (scan_stmt path from c)) →
  spread parent (fun x => ∃ k, x = PStatement k ∧ i <= k) (scan_from i parent l).
Proof.
  revert i. induction l as [|c l IH]; intros i Hl; cbn [Analysis.scan_from]; [apply spread_nil|].
  eapply spread_weaken; [|apply spread_app; [apply below_spread, Hl; set_solver|apply (IH (S i)); set_solver|]].
  - intros x [->|(k & -> & Hk)]; eexists; (split; [done|lia]).
  - intros x -> (k & [= <-] & Hk). lia.
Qed.

Lemma scan_body_spread l q x :
  (∀ c, c ∈ l → ∀ path from, below path (scan_stmt path from c)) →
  spread q (fun y => y = x) (scan_from 0 (child q x) l).
Proof. intros Hl. eapply below_spread, spread_below, scan_from_spread, Hl. Qed.

Lemma scan_option_spread o q x :
  (∀ l, o = Some l → ∀ c, c ∈ l → ∀ path from, below path (scan_stmt path from c)) →
  spread q (fun y => y = x) (scan_option (child q x) o).
Proof. intros Ho. destruct o as [l|]; [by apply scan_body_spread, Ho|apply spread_nil]. Qed.

Lemma scan_items_spread items i q :
  (∀ it, it ∈ items → ∀ c, c ∈ item_body it → ∀ path from, below path (scan_stmt path from c)) →
  spread q (fun x => ∃ k, x = PCaseItem k ∧ i <= k) (scan_items i q items).
Proof.
  revert i. induction items as [|it items IH]; intros i Hl; cbn [scan_items]; [apply spread_nil|].
  eapply spread_weaken; [|apply spread_app; [apply scan_body_spread, Hl; set_solver|apply (IH (S i)); set_solver|]].
  - intros x [->|(k & -> & Hk)]; eexists; (split; [done|lia]).
  - intros x -> (k & [= <-] & Hk). lia.
Qed.

(** The own site of a statement with bodies, and what is below. *)
Lemma own_below path from s X l :
  clocking_wait leaves s = false → spread path X l → below path (own_sites leaves effects path from s ++ l).
Proof.
  intros Hc Hl. unfold own_sites. rewrite Hc. destruct (suspension_operation leaves effects s) as [[op call]|].
  - by eapply below_cons.
  - by eapply spread_below.
Qed.

Lemma own_sites_below path from s : below path (own_sites leaves effects path from s).
Proof.
  destruct (clocking_wait leaves s) eqn:Hc.
  - unfold own_sites. rewrite Hc. split.
    + cbn [map]. constructor; [|apply NoDup_singleton]. intros Hin%list_elem_of_singleton.
      apply app_inv_head in Hin. discriminate Hin.
    + intros d [->|Hd]%elem_of_cons; [by eexists|]. apply list_elem_of_singleton in Hd as ->. by eexists.
  - rewrite <- (app_nil_r (own_sites _ _ _ _ _)). eapply own_below; [done|apply (spread_nil path (fun _ => False))].
Qed.

Lemma scan_stmt_below s : ∀ path from, below path (scan_stmt path from s).
Proof.
  induction s as [s IH] using IrStmt_parts_ind. intros path from. rewrite Forall_forall in IH. rewrite scan_stmt_eq.
  destruct s; try (apply own_sites_below); try (eapply own_below; [done|]);
    try (by apply scan_body_spread; intros c Hc; apply IH).
  - apply IH. cbn. set_solver.
  - apply spread_app; [apply scan_option_spread|apply scan_option_spread|intros x -> Hx; cbv beta in Hx; discriminate Hx];
      intros l -> c Hc; apply IH; cbn; set_solver.
  - apply spread_app; [apply scan_body_spread; intros c Hc; apply IH; cbn; set_solver
      |apply scan_option_spread; intros l -> c Hc; apply IH; cbn; set_solver
      |intros x -> Hx; cbv beta in Hx; discriminate Hx].
  - apply spread_app; [apply scan_body_spread|apply scan_body_spread|intros x -> Hx; cbv beta in Hx; discriminate Hx];
      intros c Hc; apply IH; cbn; set_solver.
  - apply (spread_app _ (fun x => x = PInit) (fun x => x = PBody ∨ x = PIncrement));
      [apply scan_body_spread; intros c Hc; apply IH; cbn; set_solver| |intros x -> [Hx|Hx]; discriminate Hx].
    apply spread_app; [apply scan_body_spread|apply scan_body_spread|intros x -> Hx; cbv beta in Hx; discriminate Hx];
      intros c Hc; apply IH; cbn; set_solver.
  - apply scan_items_spread. intros it Hit c Hc. apply IH. cbn. apply list_elem_of_In, in_flat_map.
    exists it. by rewrite <- !list_elem_of_In.
Qed.

Lemma scan_statements_spread l parent :
  spread parent (fun x => ∃ k, x = PStatement k ∧ 0 <= k) (scan_statements leaves effects l parent).
Proof. apply scan_from_spread. intros c _. apply scan_stmt_below. Qed.

Lemma scan_process_nodup (process : ExecutionProcess) : NoDup (map dr_path (scan_process leaves effects process)).
Proof.
  unfold scan_process. enough (H : ∀ i, spread [] (fun x => ∃ k, x = PExecutionBlock k ∧ i <= k)
    (flat_map (fun entry : nat * ExecutionBlock => scan_block leaves effects entry.1 entry.2)
       (zip (seq i (length process)) process))) by apply H.
  induction process as [|block process IH]; intros i; cbn [length seq zip_with flat_map fst snd]; [apply spread_nil|].
  eapply spread_weaken; [|apply (spread_app _ (fun y => y = PExecutionBlock i)); [|apply (IH (S i))|]].
  - intros x [->|(k & -> & Hk)]; eexists; (split; [done|lia]).
  - apply (below_spread []). change (child [] (PExecutionBlock i)) with [PExecutionBlock i]. unfold scan_block.
    eapply spread_below, (spread_app _ _ (fun x => x = PTerminator)); [apply scan_statements_spread| |].
    + destruct (terminator block); try apply spread_nil. apply (below_spread [PExecutionBlock i]).
      split; [apply NoDup_singleton|]. intros d Hd. apply list_elem_of_singleton in Hd as ->. exists []. by rewrite app_nil_r.
    + intros x (k & -> & _) Hx. cbv beta in Hx. discriminate Hx.
  - intros x -> (k & [= <-] & Hk). lia.
Qed.

End Scan.

(** ** Numbering *)

Definition numbered (mechanism : DirectCall → CallMechanism) (index : nat) (draft : SiteDraft) :
    OperationPath * SuspensionSite :=
  (dr_path draft, mkSite (index + 1) (dr_operation draft) (mechanism <$> dr_call draft) (dr_origin draft)).

Lemma number_sites_spec owner depth options component_of forced sites :
  (Z.of_nat depth < elab.usize_max)%Z → (Z.of_nat (length sites) < 2 ^ 32)%Z → NoDup (map dr_path sites) →
  number_sites owner depth options component_of forced 0 sites []
  = Fine (imap (numbered (mechanism_of (poll_depth_max options) component_of forced (owner_function owner) depth)) sites).
Proof.
  intros Hd Hlen Hn. set (M := mechanism_of _ _ _ _ _).
  assert (Hgen : ∀ sites index found,
    (Z.of_nat (index + length sites) < 2 ^ 32)%Z → NoDup (map fst found ++ map dr_path sites) →
    number_sites owner depth options component_of forced index sites found
    = Fine (found ++ imap (fun k => numbered M (index + k)) sites)).
  { clear sites Hlen Hn. induction sites as [|d sites IH]; intros index found Hl Hn; cbn [number_sites imap].
    - by rewrite app_nil_r.
    - cbn [length map] in *. rewrite (proj2 (Z.ltb_lt _ _)) by lia.
      assert (Hfound : dr_path d ∉ map fst found).
      { apply NoDup_app in Hn as (_ & Hn & _). intros Hin. apply (Hn _ Hin). set_solver. }
      destruct (dr_call d) as [call|] eqn:Ec.
      + rewrite call_mechanism_fine by done. cbn [and_also]. rewrite bool_decide_false by done.
        rewrite IH; [|lia|].
        * rewrite <- app_assoc. cbn [app]. do 3 f_equal; [unfold numbered; by rewrite Ec, Nat.add_0_r|].
          apply imap_ext. intros i x _. simpl. by rewrite Nat.add_succ_r.
        * rewrite map_app, <- app_assoc. done.
      + cbn [and_also]. rewrite bool_decide_false by done. rewrite IH; [|lia|].
        * rewrite <- app_assoc. cbn [app]. do 3 f_equal; [unfold numbered; by rewrite Ec, Nat.add_0_r|].
          apply imap_ext. intros i x _. simpl. by rewrite Nat.add_succ_r.
        * rewrite map_app, <- app_assoc. done. }
  rewrite Hgen; [done|done|]. simpl. done.
Qed.

(** The paths, resume numbers and operations of a table. *)
Lemma numbered_table M sites :
  map fst (imap (numbered M) sites) = map dr_path sites
  ∧ map (fun site => si_resume site.2) (imap (numbered M) sites) = seq 1 (length sites)
  ∧ map (fun site => si_operation site.2) (imap (numbered M) sites) = map dr_operation sites.
Proof.
  split_and!.
  - etrans; [apply (fmap_imap (numbered M) fst)|]. apply (imap_const dr_path).
  - etrans; [apply (fmap_imap (numbered M) (fun site => si_resume site.2))|].
    apply list_eq. intros i. rewrite list_lookup_imap. destruct (sites !! i) as [d|] eqn:E; simpl.
    + rewrite lookup_seq_lt by (by apply lookup_lt_Some in E). f_equal. lia.
    + rewrite lookup_seq_ge by (by apply lookup_ge_None in E). done.
  - etrans; [apply (fmap_imap (numbered M) (fun site => si_operation site.2))|].
    apply (imap_const dr_operation).
Qed.

(** * The drafts of a model

    The list of drafts has one entry for every coroutine owner, in the order
    of the owners, and the sites of an entry have distinct paths. *)

(** ** Indexed lists *)

Lemma elem_of_indexed {A : Type} (l : list A) i k x :
  (k, x) ∈ zip (seq i (length l)) l ↔ i <= k ∧ l !! (k - i) = Some x.
Proof.
  revert i. induction l as [|y l IH]; intros i; cbn [length seq zip_with].
  - split; [set_solver|]. intros [_ H]. done.
  - rewrite elem_of_cons, IH. split.
    + intros [[= -> ->]|[Hk Hl]]; [rewrite Nat.sub_diag; done|]. split; [lia|].
      replace (k - i) with (S (k - S i)) by lia. done.
    + intros [Hk Hl]. destruct (decide (k = i)) as [->|Hn]; [left; rewrite Nat.sub_diag in Hl; by injection Hl as ->|].
      right. split; [lia|]. replace (k - i) with (S (k - S i)) in Hl by lia. done.
Qed.

Lemma indexed_filter_sorted {A : Type} (F : nat → A → bool) (l : list A) i :
  StronglySorted lt (omap (fun e : nat * A => if F e.1 e.2 then Some e.1 else None) (zip (seq i (length l)) l)).
Proof.
  revert i. induction l as [|x l IH]; intros i; cbn [length seq zip_with]; [constructor|].
  cbn [omap list_omap fst snd]. destruct (F i x); [|apply IH]. constructor; [apply IH|].
  apply Forall_forall. intros k Hk. apply list_elem_of_omap in Hk as ([j y] & Hin & E). simpl in E.
  destruct (F j y); [|done]. injection E as <-. apply elem_of_indexed in Hin. lia.
Qed.

(** Blocks of keys that remember the index of their block. *)
Lemma indexed_blocks_nodup {A K V : Type} (key_index : K → nat) (F : nat → A → list (K * V)) (l : list A) i :
  (∀ k x, NoDup (map fst (F k x))) → (∀ k x key, key ∈ map fst (F k x) → key_index key = k) →
  NoDup (map fst (flat_map (fun e : nat * A => F e.1 e.2) (zip (seq i (length l)) l)))
  ∧ ∀ key, key ∈ map fst (flat_map (fun e : nat * A => F e.1 e.2) (zip (seq i (length l)) l)) → i <= key_index key.
Proof.
  intros Hn Hk. revert i. induction l as [|x l IH]; intros i; cbn [length seq zip_with flat_map fst snd].
  - split; [constructor|set_solver].
  - destruct (IH (S i)) as [IH1 IH2]. rewrite map_app. split.
    + apply NoDup_app. split_and!; [apply Hn| |done]. intros key H1 H2. apply Hk in H1. apply IH2 in H2. lia.
    + intros key [Hin|Hin]%elem_of_app; [apply Hk in Hin; lia|apply IH2 in Hin; lia].
Qed.

Section Drafts.
Context (leaves : nat → LeafStmt) (effects_for_function : nat → list ExecutionEffect).
Context (ir : IrModel) (processes : list ExecutionProcess).

#[local] Notation entries := (drafts leaves effects_for_function ir processes).
#[local] Notation functions := (coroutine_functions effects_for_function ir).

Lemma function_effects_length : length (function_effects effects_for_function ir) = length (funcs ir).
Proof. unfold function_effects. rewrite length_map, length_zip_with, length_seq. lia. Qed.

Lemma coroutine_functions_sorted : StronglySorted lt functions.
Proof.
  unfold coroutine_functions.
  set (l := zip (funcs ir) (function_effects effects_for_function ir)).
  replace (length (funcs ir)) with (length l)
    by (unfold l; rewrite length_zip_with, function_effects_length; lia).
  pose proof (indexed_filter_sorted
    (fun _ (p : IrFunc * list ExecutionEffect) => negb (inline_expanded p.1) && has_effect Suspend p.2) l 0) as H.
  revert H. generalize (zip (seq 0 (length l)) l). intros k. cbn [fst snd].
  match goal with |- StronglySorted lt ?a → StronglySorted lt ?b => assert (E : a = b); [|by rewrite E] end.
  clear. induction k as [|[i [f e]] k IH]; [done|]. cbn [omap list_omap fst snd].
  destruct (_ && _); [f_equal|]; apply IH.
Qed.

Lemma coroutine_functions_range f : f ∈ functions → f < length (funcs ir).
Proof.
  unfold coroutine_functions. intros Hf. apply list_elem_of_omap in Hf as ([i [fn e]] & Hin & E).
  destruct (_ && _); [|done]. injection E as ->.
  set (l := zip (funcs ir) (function_effects effects_for_function ir)) in *.
  assert (Hl : length l = length (funcs ir)) by (unfold l; rewrite length_zip_with, function_effects_length; lia).
  rewrite <- Hl in Hin. apply elem_of_indexed in Hin as [_ Hin]. rewrite Nat.sub_0_r in Hin.
  apply lookup_lt_Some in Hin. lia.
Qed.

Lemma scan_branches_keys ce helpers owner key :
  key ∈ map fst (scan_branches leaves ce helpers owner) → ∃ h, key = owner h.
Proof.
  unfold scan_branches. intros Hk. apply list_elem_of_fmap in Hk as ([k s] & -> & Hin).
  apply list_elem_of_omap in Hin as ([h pre] & _ & E). simpl in E. destruct (branch_body pre); simpl in E; [|done].
  injection E as <- _. eauto.
Qed.

Lemma scan_branches_nodup ce helpers owner :
  (∀ h k, owner h = owner k → h = k) → NoDup (map fst (scan_branches leaves ce helpers owner)).
Proof.
  intros Hinj. unfold scan_branches.
  enough (H : ∀ i, NoDup (map fst (omap (fun entry : nat * IrPreFn =>
      body ← branch_body entry.2; Some (owner entry.1, scan_statements leaves ce body []))
      (zip (seq i (length helpers)) helpers)))) by apply H.
  induction helpers as [|pre helpers IH]; intros i; cbn [length seq zip_with]; [constructor|].
  cbn [omap list_omap fst snd]. destruct (branch_body pre) as [body|]; simpl; [|apply IH].
  constructor; [|apply IH]. intros Hin. apply list_elem_of_fmap in Hin as ([k s] & E & Hin). simpl in E. subst k.
  apply list_elem_of_omap in Hin as ([h p] & Hin & E). simpl in E. destruct (branch_body p); simpl in E; [|done].
  injection E as E _. apply Hinj in E. subst. apply elem_of_indexed in Hin. lia.
Qed.

Lemma scan_branches_paths ce helpers owner key sites :
  (key, sites) ∈ scan_branches leaves ce helpers owner → NoDup (map dr_path sites).
Proof.
  unfold scan_branches. intros Hin. apply list_elem_of_omap in Hin as ([h pre] & _ & E). simpl in E.
  destruct (branch_body pre) as [body|]; simpl in E; [|done]. injection E as _ <-.
  apply (scan_statements_spread leaves ce body []).
Qed.

(** The constructor and the function or process of an owner. *)
Definition owner_kind (owner : CoroutineId) : nat :=
  match owner with FunctionId _ => 0 | FunctionBranch _ _ => 1 | ProcessId _ => 2 | ProcessBranch _ _ => 3 end.

Definition owner_index (owner : CoroutineId) : nat :=
  match owner with FunctionId f | FunctionBranch f _ => f | ProcessId p | ProcessBranch p _ => p end.

Lemma nodup_kinds (a b : list CoroutineId) (ka : nat) :
  NoDup a → NoDup b → (∀ x, x ∈ a → owner_kind x = ka) → (∀ x, x ∈ b → ka < owner_kind x) → NoDup (a ++ b).
Proof.
  intros Ha Hb Hka Hkb. apply NoDup_app. split_and!; [done| |done]. intros x Hx Hy.
  apply Hka in Hx. apply Hkb in Hy. lia.
Qed.

Lemma branch_keys_nodup {A : Type} (make : nat → nat → CoroutineId) (pre : A → list IrPreFn) (l : list A) ce :
  (∀ i h, owner_index (make i h) = i) → (∀ i h k, make i h = make i k → h = k) →
  NoDup (map fst (flat_map (fun e : nat * A => scan_branches leaves ce (pre e.2) (make e.1))
    (zip (seq 0 (length l)) l))).
Proof.
  intros Hidx Hinj. apply (indexed_blocks_nodup owner_index (fun k x => scan_branches leaves ce (pre x) (make k))).
  - intros k x. apply scan_branches_nodup, Hinj.
  - intros k x key Hk. apply scan_branches_keys in Hk as [h ->]. apply Hidx.
Qed.

Lemma branch_keys_kind {A : Type} (make : nat → nat → CoroutineId) (pre : A → list IrPreFn) (l : list (nat * A)) ce key :
  key ∈ map fst (flat_map (fun e : nat * A => scan_branches leaves ce (pre e.2) (make e.1)) l) →
  ∃ i h, key = make i h.
Proof.
  intros Hk. apply list_elem_of_fmap in Hk as ([k s] & -> & Hin). apply list_elem_of_In, in_flat_map in Hin as (e & _ & Hin).
  apply list_elem_of_In in Hin. assert (Hk : k ∈ map fst (scan_branches leaves ce (pre e.2) (make e.1))).
  { apply list_elem_of_fmap. by exists (k, s). }
  apply scan_branches_keys in Hk as [h ->]. eauto.
Qed.

Lemma draft_keys_nodup : NoDup (map fst entries).
Proof.
  unfold drafts. rewrite !map_app. set (ce := call_effects _ _).
  apply (nodup_kinds _ _ 0); [| | |].
  - rewrite map_map. cbn [fst]. apply NoDup_fmap_2; [by intros ? ? [=]|].
    apply strongly_sorted_lt_nodup, coroutine_functions_sorted.
  - apply (nodup_kinds _ _ 1); [| | |].
    + apply branch_keys_nodup; [done|by intros ? ? ? [=]].
    + apply (nodup_kinds _ _ 2); [| | |].
      * rewrite map_map. cbn [fst]. clear. generalize 0 as i. induction processes as [|p l IH]; intros i; [constructor|].
        cbn [length seq zip_with map fst]. constructor; [|apply IH]. intros Hin.
        apply list_elem_of_fmap in Hin as ([k x] & [= <-] & Hin). apply elem_of_indexed in Hin. lia.
      * apply (branch_keys_nodup ProcessBranch id); [done|by intros ? ? ? [=]].
      * intros x Hx. apply list_elem_of_fmap in Hx as (e & -> & Hx). apply list_elem_of_fmap in Hx as (y & -> & _). done.
      * intros x Hx. apply (branch_keys_kind ProcessBranch id) in Hx as (i & h & ->). simpl. lia.
    + intros x Hx. by apply (branch_keys_kind FunctionBranch func_pre_fns) in Hx as (i & h & ->).
    + intros x [Hx|Hx]%elem_of_app.
      * apply list_elem_of_fmap in Hx as (e & -> & Hx). apply list_elem_of_fmap in Hx as (y & -> & _). simpl. lia.
      * apply (branch_keys_kind ProcessBranch id) in Hx as (i & h & ->). simpl. lia.
  - intros x Hx. apply list_elem_of_fmap in Hx as (e & -> & Hx). apply list_elem_of_fmap in Hx as (y & -> & _). done.
  - intros x [Hx|[Hx|Hx]%elem_of_app]%elem_of_app.
    + apply (branch_keys_kind FunctionBranch func_pre_fns) in Hx as (i & h & ->). simpl. lia.
    + apply list_elem_of_fmap in Hx as (e & -> & Hx). apply list_elem_of_fmap in Hx as (y & -> & _). simpl. lia.
    + apply (branch_keys_kind ProcessBranch id) in Hx as (i & h & ->). simpl. lia.
Qed.

Lemma draft_functions f : FunctionId f ∈ map fst entries ↔ f ∈ functions.
Proof.
  unfold drafts. rewrite !map_app, !elem_of_app. split.
  - intros [Hx|[Hx|[Hx|Hx]]].
    + rewrite map_map in Hx. cbn [fst] in Hx. by apply list_elem_of_fmap in Hx as (y & [= ->] & Hy).
    + by apply (branch_keys_kind FunctionBranch func_pre_fns) in Hx as (i & h & [=]).
    + apply list_elem_of_fmap in Hx as (e & E & Hx). apply list_elem_of_fmap in Hx as (y & -> & _). done.
    + by apply (branch_keys_kind ProcessBranch id) in Hx as (i & h & [=]).
  - intros Hf. left. rewrite map_map. cbn [fst]. apply list_elem_of_fmap. eauto.
Qed.

Lemma draft_paths owner sites : (owner, sites) ∈ entries → NoDup (map dr_path sites).
Proof.
  unfold drafts. rewrite !elem_of_app. intros [Hx|[Hx|[Hx|Hx]]].
  - apply list_elem_of_fmap in Hx as (f & [= _ ->] & _). unfold function_sites.
    destruct (funcs ir !! f) as [fn|]; [|constructor]. destruct (dpi fn); [apply NoDup_singleton|].
    apply (scan_statements_spread leaves _ (func_body fn) []).
  - apply list_elem_of_In, in_flat_map in Hx as (e & _ & Hin). apply list_elem_of_In in Hin. by eapply scan_branches_paths.
  - apply list_elem_of_fmap in Hx as (e & [= _ ->] & _). apply scan_process_nodup.
  - apply list_elem_of_In, in_flat_map in Hx as (e & _ & Hin). apply list_elem_of_In in Hin. by eapply scan_branches_paths.
Qed.

End Drafts.
