(* ===== verification/AnalysisClaims.v ===== *)
(** * The coroutine analysis has a solution

    From the drafts the analysis always returns: the depths solve the
    equations, and the sites of every owner are numbered in order. *)

From Stdlib Require Import ZArith Lia List.
From stdpp Require Import base list gmap sets fin_sets sorting relations.
From S2P Require Import Prelude Elab ControlFlow ControlFacts Scc SccFacts SccOrder Analysis SiteFacts.
#[local] Open Scope nat_scope.

Section Solve.
Context (N : nat) (functions : list nat) (entries : list (CoroutineId * list SiteDraft)).
Context (options : ExecutionAnalysisOptions) (forced : list nat).

(** What the scan gives. *)
Record entries_ok : Prop := {
  en_sorted : StronglySorted lt functions;
  en_range : ∀ f, f ∈ functions → f < N;
  en_keys : NoDup (map fst entries);
  en_functions : ∀ f, FunctionId f ∈ map fst entries ↔ f ∈ functions;
  en_paths : ∀ owner sites, (owner, sites) ∈ entries → NoDup (map dr_path sites);
  en_count : ∀ owner sites, (owner, sites) ∈ entries → (Z.of_nat (length sites) < 2 ^ 32)%Z;
}.

Context (Hen : entries_ok) (Hmax : (Z.of_nat (poll_depth_max options) < elab.usize_max)%Z).

#[local] Notation g := (suspendable_graph functions entries).

Lemma sites_for_entry owner sites : (owner, sites) ∈ entries → sites_for owner entries = Some sites.
Proof.
  unfold sites_for. pose proof (en_keys Hen) as Hn. clear Hen. induction entries as [|[o s] l IH]; [set_solver|].
  cbn [map fst] in Hn. apply NoDup_cons in Hn as [Ho Hn]. intros [[= -> ->]|Hin]%elem_of_cons.
  - by rewrite filter_cons, decide_True.
  - rewrite filter_cons. rewrite decide_False; [by apply IH|]. cbn [fst]. intros ->. apply Ho.
    apply list_elem_of_fmap. by exists (owner, sites).
Qed.

Lemma function_entry f : f ∈ functions → ∃ sites, (FunctionId f, sites) ∈ entries.
Proof.
  intros Hf. apply (en_functions Hen) in Hf. apply list_elem_of_fmap in Hf as ([o s] & E & Hin). simpl in E.
  subst o. eauto.
Qed.

Lemma initial_depths :
  let initial := fold_left (fun depths f => <[f := Some 0]> depths) functions (replicate N None) in
  length initial = N ∧ (∀ f, depth_of initial f = 0) ∧ (∀ f, f ∈ functions → initial !! f = Some (Some 0)).
Proof.
  cbv zeta.
  assert (Hgen : ∀ l D, (∀ f, depth_of D f = 0) → (∀ f, f ∈ l → f < length D) →
    let D' := fold_left (fun depths f => <[f := Some 0]> depths) l D in
    length D' = length D ∧ (∀ f, depth_of D' f = 0) ∧ (∀ f, f ∈ l ∨ D !! f = Some (Some 0) → D' !! f = Some (Some 0))).
  { induction l as [|x l IH]; intros D HD Hl; cbn [fold_left]; [split_and!; try done; set_solver|].
    destruct (IH (<[x := Some 0]> D)) as (H1 & H2 & H3).
    - intros f. destruct (decide (f = x)) as [->|Hn]; unfold depth_of.
      + rewrite list_lookup_insert_eq by (apply Hl; set_solver). done.
      + rewrite list_lookup_insert_ne by done. apply HD.
    - intros f Hf. rewrite length_insert. apply Hl. set_solver.
    - rewrite length_insert in H1. split_and!; [done|done|]. intros f Hf. apply H3.
      destruct (decide (f = x)) as [->|Hn]; [right; apply list_lookup_insert_eq, Hl; set_solver|].
      rewrite list_lookup_insert_ne by done. set_solver. }
  destruct (Hgen functions (replicate N None)) as (H1 & H2 & H3).
  - intros f. unfold depth_of. destruct (replicate N None !! f) as [o|] eqn:E; [|done].
    by apply lookup_replicate in E as [-> _].
  - intros f Hf. rewrite length_replicate. by apply (en_range Hen).
  - rewrite length_replicate in H1. split_and!; try done. auto.
Qed.

Definition owner_depth (depths : list (option nat)) (owner : CoroutineId) : nat :=
  match owner with FunctionId f => depth_of depths f | _ => 0 end.

(** The equations of the depths. *)
Definition depths_ok (component_of : list (option nat)) (depths : list (option nat)) : Prop :=
  ∀ f, f < N →
    depth_of depths f
    = list_max (map (fun e => offered (poll_depth_max options) component_of forced
                                (owner_function e.1) (owner_depth depths e.1) (calls_of e.2) f) entries).

(** A positive contribution goes from one component to a later one. *)
Lemma offer_forward cs h f d :
  partition functions g N cs → h ∈ functions → f ∈ functions →
  offered (poll_depth_max options) (component_membership N cs) forced (Some h) d
    (calls_of (default [] (sites_for (FunctionId h) entries))) f ≠ 0 →
  edge g h f ∧ ¬ mutual g h f.
Proof.
  intros Hp Hh Hf Hne. apply offered_positive in Hne as (call & Hin & Hc & e & Hm).
  apply polled_inv in Hm as (_ & _ & Hi & callee & Hc' & _ & Hdiff). assert (callee = f) as -> by congruence. split.
  - apply table_edge. split; [done|]. apply static_callee. split; [done|]. by exists call.
  - intros Hmu. destruct (pa_at functions g N cs Hp h Hh) as (c & C & Ec & _). apply (Hdiff h c eq_refl Ec).
    rewrite <- Ec. symmetry. by apply (pa_mutual functions g N cs Hp).
Qed.

Lemma number_owners_spec component_of depths l :
  (∀ f, depth_of depths f <= poll_depth_max options) →
  (∀ owner sites, (owner, sites) ∈ l → (owner, sites) ∈ entries) →
  number_owners options component_of forced depths l
  = Fine (map (fun e : CoroutineId * list SiteDraft =>
            (e.1, imap (numbered (mechanism_of (poll_depth_max options) component_of forced
                                    (owner_function e.1) (owner_depth depths e.1))) e.2)) l).
Proof.
  intros Hd. induction l as [|[owner sites] l IH]; intros Hl; cbn [number_owners map fst snd]; [done|].
  assert (Hin : (owner, sites) ∈ entries) by (apply Hl; set_solver).
  change (match owner with FunctionId f => _ | _ => _ end) with (owner_depth depths owner).
  rewrite number_sites_spec; [|destruct owner; simpl; try done; specialize (Hd function); lia
                              |by apply (en_count Hen owner)|by apply (en_paths Hen owner)].
  cbn [and_also]. rewrite IH by (intros; apply Hl; set_solver). done.
Qed.

Lemma list_max_all (l k : list nat) : (∀ x, x ∈ l ↔ x ∈ k) → list_max l = list_max k.
Proof.
  intros H. apply Nat.le_antisymm; apply list_max_bound; intros x Hx; apply list_max_in; by apply H.
Qed.

Lemma solve_spec :
  ∃ cs a, partition functions g N cs
    ∧ solve N functions entries options forced = Some (Fine a)
    ∧ an_options a = options ∧ an_forced a = forced ∧ an_coroutine_functions a = functions
    ∧ an_callee_first a ≡ₚ functions
    ∧ (∀ u v, edge g u v → ¬ mutual g u v → before v u (an_callee_first a))
    ∧ (∀ f, depth_of (an_function_depths a) f <= poll_depth_max options)
    ∧ (∀ f, f ∈ functions → ∃ d, an_function_depths a !! f = Some (Some d))
    ∧ depths_ok (component_membership N cs) (an_function_depths a)
    ∧ an_sites a = map (fun e : CoroutineId * list SiteDraft =>
        (e.1, imap (numbered (mechanism_of (poll_depth_max options) (component_membership N cs) forced
                                (owner_function e.1) (owner_depth (an_function_depths a) e.1))) e.2)) entries.
Proof.
  destruct (graph_orders functions g N (suspendable_graph_ok functions entries) (en_sorted Hen) (en_range Hen))
    as (cs & Hp & Horders). cbv zeta in Horders. set (m := component_membership N cs) in *.
  destruct (Horders false) as (caller_first & E1 & P1 & B1), (Horders true) as (callee_order & E2 & P2 & B2).
  set (initial := fold_left (fun depths f => <[f := Some 0]> depths) functions (replicate N None)).
  destruct initial_depths as (L0 & Z0 & S0). fold initial in L0, Z0, S0.
  destruct (propagate_roots_spec (poll_depth_max options) m forced options entries initial eq_refl)
    as (D1 & R1 & L1 & H1 & K1). rewrite L0 in L1, H1.
  assert (Hb1 : ∀ f, depth_of D1 f <= poll_depth_max options).
  { intros f. destruct (decide (f < N)) as [Hf|Hf].
    - rewrite (H1 f Hf), Z0. apply Nat.max_lub; [lia|]. apply list_max_bound. intros x Hx.
      apply list_elem_of_fmap in Hx as (e & -> & _). apply offered_bound.
    - unfold depth_of. rewrite lookup_ge_None_2 by lia. simpl. lia. }
  set (L := in_order cs caller_first) in *.
  assert (HL : ∀ f, f ∈ L ↔ f ∈ functions) by (intros f; by rewrite P1).
  destruct (propagate_functions_spec (poll_depth_max options) m forced options entries L D1) as (D2 & R2 & L2 & H2 & K2).
  - done.
  - done.
  - rewrite P1. apply strongly_sorted_lt_nodup, (en_sorted Hen).
  - intros f Hf. rewrite L1. by apply (en_range Hen), HL.
  - done.
  - intros f Hf. apply HL in Hf. destruct (function_entry f Hf) as [s Hs]. rewrite (sites_for_entry _ _ Hs). eauto.
  - intros h f d Hh Hf Hne. apply HL in Hh, Hf. destruct (offer_forward cs h f d Hp Hh Hf Hne) as [He Hnm].
    by apply (B1 h f).
  - rewrite L1 in L2, H2.
    assert (Hb2 : ∀ f, depth_of D2 f <= poll_depth_max options).
    { intros f. destruct (decide (f < N)) as [Hf|Hf].
      - rewrite (H2 f Hf). apply Nat.max_lub; [apply Hb1|]. apply list_max_bound. intros x Hx.
        apply list_elem_of_fmap in Hx as (h & -> & _). apply offered_bound.
      - unfold depth_of. rewrite lookup_ge_None_2 by lia. simpl. lia. }
    exists cs, (mkAnalysis options forced functions (in_order cs callee_order) D2
      (map (fun e : CoroutineId * list SiteDraft =>
        (e.1, imap (numbered (mechanism_of (poll_depth_max options) m forced
                                (owner_function e.1) (owner_depth D2 e.1))) e.2)) entries)).
    split_and!; try done.
    + unfold solve. rewrite (pa_found functions g N cs Hp). cbn [mbind option_bind]. fold m.
      rewrite E1. cbn [mbind option_bind]. rewrite E2. cbn [mbind option_bind]. fold initial. rewrite R1. cbn [and_also].
      change (flat_map (fun c => default [] (cs !! c)) caller_first) with L. rewrite R2. cbn [and_also].
      rewrite (number_owners_spec m D2 entries) by done. done.
    + intros f Hf. destruct (K1 f 0 (S0 f Hf)) as [d Hd]. by apply (K2 f d).
    + intros f Hf. cbn [an_function_depths]. rewrite (H2 f Hf), (H1 f Hf), Z0, Nat.max_0_l. apply Nat.le_antisymm.
      * apply Nat.max_lub; apply list_max_bound; intros x Hx; apply list_elem_of_fmap in Hx as (e & -> & He).
        -- apply list_elem_of_filter in He as [Ho He]. apply list_max_in, list_elem_of_fmap. exists e. split; [|done].
           by destruct e as [[] ?].
        -- apply HL in He. destruct (function_entry e He) as [s Hs]. rewrite (sites_for_entry _ _ Hs).
           apply list_max_in, list_elem_of_fmap. by exists (FunctionId e, s).
      * apply list_max_bound. intros x Hx. apply list_elem_of_fmap in Hx as ([o s] & -> & He). cbn [fst snd].
        destruct (decide (owner_function o = None)) as [Ho|Ho].
        -- etrans; [|apply Nat.le_max_l]. apply list_max_in, list_elem_of_fmap. exists (o, s).
           split; [by destruct o|]. by apply list_elem_of_filter.
        -- destruct o as [h| | |]; try done. etrans; [|apply Nat.le_max_r]. apply list_max_in, list_elem_of_fmap.
           exists h. rewrite (sites_for_entry _ _ He). split; [done|]. apply HL, (en_functions Hen).
           apply list_elem_of_fmap. by exists (FunctionId h, s).
Qed.

End Solve.

(** * Recursive synchronous subprograms

    A subprogram gets a component number exactly when it lies on a cycle of
    the synchronous call graph, and two get the same number exactly when each
    reaches the other. *)

Lemma set_slots_at (l : list nat) (c f : nat) (slots : list (option nat)) :
  (∀ x, x ∈ l → x < length slots) →
  component_at (fold_left (fun slots function => set_slot function c slots) l slots) f
  = if decide (f ∈ l) then Some c else component_at slots f.
Proof.
  intros Hl. unfold component_at. rewrite set_slots_lookup.
  destruct (decide (f ∈ l ∧ f < length slots)), (decide (f ∈ l)) as [Hf|Hf]; try done; [tauto|].
  specialize (Hl f Hf). tauto.
Qed.

Lemma tc_first {A : Type} (R : relation A) x y : tc R x y → ∃ z, R x z ∧ rtc R z y.
Proof. destruct 1 as [x y H|x z y H H']; [exists y; split; [done|apply rtc_refl]|exists z; split; [done|by apply tc_rtc]]. Qed.

Section Marks.
Context (g : graph).

Lemma mark_fold cs slots n :
  NoDup (concat cs) → (∀ f, f ∈ concat cs → f < length slots) →
  let '(slots', n') := fold_left (mark_cyclic g) cs (slots, n) in
  length slots' = length slots ∧ n <= n'
  ∧ (∀ f, f ∉ concat cs → component_at slots' f = component_at slots f)
  ∧ (∀ C f, C ∈ cs → f ∈ C → cyclic_component g C = false → component_at slots' f = component_at slots f)
  ∧ (∀ C, C ∈ cs → cyclic_component g C = true →
       ∃ k, n <= k < n' ∧ ∀ f, f ∈ C → component_at slots' f = Some k)
  ∧ (∀ C D f h, C ∈ cs → D ∈ cs → cyclic_component g C = true → cyclic_component g D = true →
       f ∈ C → h ∈ D → component_at slots' f = component_at slots' h → C = D).
Proof.
  revert slots n. induction cs as [|C cs IH]; intros slots n Hn Hl; cbn [fold_left concat] in *.
  - split_and!; try done; set_solver.
  - apply NoDup_app in Hn as (Hn1 & Hn2 & Hn3). unfold mark_cyclic at 2.
    destruct (cyclic_component g C) eqn:Hc.
    + set (slots1 := fold_left _ C slots).
      assert (L1 : length slots1 = length slots) by apply set_slots_length.
      assert (At1 : ∀ f, component_at slots1 f = if decide (f ∈ C) then Some n else component_at slots f)
        by (intros f; apply set_slots_at; intros x Hx; apply Hl; set_solver).
      specialize (IH slots1 (S n) Hn3). destruct (fold_left (mark_cyclic g) cs (slots1, S n)) as [slots' n'].
      destruct IH as (H1 & H2 & H3 & H4 & H5 & H6); [intros f Hf; rewrite L1; apply Hl; set_solver|].
      assert (HC : ∀ f, f ∈ C → component_at slots' f = Some n).
      { intros f Hf. rewrite H3, At1 by (by apply Hn2). by rewrite decide_True. }
      assert (Hout : ∀ f D, D ∈ cs → f ∈ D → f ∉ C).
      { intros f D HD Hf HfC. apply (Hn2 f HfC). apply list_elem_of_In, in_concat. exists D.
        by rewrite <- !list_elem_of_In. }
      split_and!; [lia|lia| | | |].
      * intros f Hf. rewrite elem_of_app in Hf. rewrite H3, At1 by tauto. by rewrite decide_False by tauto.
      * intros D f [->|HD]%elem_of_cons Hf HcD; [congruence|]. rewrite (H4 D f HD Hf HcD), At1.
        by rewrite decide_False by (by eapply Hout).
      * intros D [->|HD]%elem_of_cons HcD; [exists n; split; [lia|done]|].
        destruct (H5 D HD HcD) as (k & Hk & HkD). exists k. split; [lia|done].
      * intros D E f h [->|HD]%elem_of_cons [->|HE]%elem_of_cons HcD HcE Hf Hh Heq; [done| | |by eapply H6].
        -- destruct (H5 E HE HcE) as (k & Hk & HkE). rewrite (HC f Hf), (HkE h Hh) in Heq. injection Heq. lia.
        -- destruct (H5 D HD HcD) as (k & Hk & HkD). rewrite (HC h Hh), (HkD f Hf) in Heq. injection Heq. lia.
    + specialize (IH slots n Hn3). destruct (fold_left (mark_cyclic g) cs (slots, n)) as [slots' n'].
      destruct IH as (H1 & H2 & H3 & H4 & H5 & H6); [intros f Hf; apply Hl; set_solver|].
      split_and!; [done|done| | | |].
      * intros f Hf. apply H3. set_solver.
      * intros D f [->|HD]%elem_of_cons Hf HcD; [apply H3; by apply Hn2|by eapply H4].
      * intros D [->|HD]%elem_of_cons HcD; [congruence|by apply H5].
      * intros D E f h [->|HD]%elem_of_cons [->|HE]%elem_of_cons HcD HcE; try congruence. by eapply H6.
Qed.

(** A class is cyclic when its members lie on a cycle. *)
Lemma cyclic_class C f : is_class g C → f ∈ C → cyclic_component g C = true ↔ tc (edge g) f f.
Proof.
  intros (_ & Hs & Hcl) Hf. unfold cyclic_component. rewrite orb_true_iff, Nat.ltb_lt. split.
  - intros [Hlen|Hself].
    + destruct C as [|x [|y C]]; simpl in Hlen; try lia.
      assert (Hxy : x ≠ y) by (apply strongly_sorted_lt_nodup, NoDup_cons in Hs as [Hs _]; set_solver).
      assert (Hother : ∃ z, z ∈ x :: y :: C ∧ z ≠ f).
      { destruct (decide (x = f)) as [->|?]; [exists y|exists x]; split; set_solver. }
      destruct Hother as (z & Hz & Hne). destruct (proj1 (Hcl f z Hf) Hz) as [H1 H2].
      apply rtc_tc in H1 as [->|H1]; [done|]. by eapply tc_rtc_r.
    + destruct C as [|x C]; [done|]. apply bool_decide_eq_true in Hself.
      destruct (proj1 (Hcl x f ltac:(set_solver)) Hf) as [H1 H2].
      eapply tc_rtc_l; [exact H2|]. eapply tc_rtc_r; [by apply tc_once|exact H1].
  - intros Htc. apply tc_first in Htc as (z & Hz & Hr). destruct (decide (z = f)) as [->|Hne].
    + destruct C as [|x [|y C]]; [set_solver| |left; simpl; lia]. apply list_elem_of_singleton in Hf as ->.
      right. by apply bool_decide_eq_true.
    + left. assert (HzC : z ∈ C) by (apply (Hcl f z Hf); split; [by apply rtc_once|done]).
      destruct C as [|x [|y C]]; [set_solver| |simpl; lia].
      apply list_elem_of_singleton in Hf as ->. apply list_elem_of_singleton in HzC as ->. done.
Qed.

End Marks.

Section Recursion.
Context (targets : nat → list CallTarget) (ir : IrModel) (suspendable : list nat).

#[local] Notation nodes := (synchronous_functions ir suspendable).
#[local] Notation g := (synchronous_graph targets ir nodes).

Lemma synchronous_functions_range f : f ∈ nodes → f < length (funcs ir).
Proof.
  unfold synchronous_functions. intros Hf. apply list_elem_of_omap in Hf as ([i fn] & Hin & E). simpl in E.
  destruct (_ && _); [|done]. injection E as ->. apply elem_of_indexed in Hin as [_ Hin].
  rewrite Nat.sub_0_r in Hin. by apply lookup_lt_Some in Hin.
Qed.

Lemma synchronous_graph_ok : graph_ok nodes g.
Proof.
  intros u v Huv. apply table_edge in Huv as [Hu Hv]. split; [done|].
  apply elem_of_set_of, list_elem_of_filter in Hv. tauto.
Qed.

Lemma recursion_spec :
  ∃ components, recursion_components targets ir suspendable = Some components
    ∧ (∀ f, is_Some (component_at components f) ↔ tc (edge g) f f)
    ∧ (∀ u v, tc (edge g) u u → tc (edge g) v v →
         (component_at components u = component_at components v ↔ mutual g u v)).
Proof.
  destruct (scc_spec nodes g synchronous_graph_ok) as (cs & rank & E & Hn & He & Hc & _).
  unfold recursion_components. rewrite E. cbn [mbind option_bind].
  pose proof (mark_fold g cs (replicate (length (funcs ir)) None) 0 Hn) as H.
  destruct (fold_left (mark_cyclic g) cs _) as [slots n]. cbn [fst]. exists slots. split; [done|].
  destruct H as (H1 & H2 & H3 & H4 & H5 & H6).
  { intros f Hf. rewrite length_replicate. by apply synchronous_functions_range, He. }
  assert (Hnone : ∀ f, component_at (replicate (length (funcs ir)) None) f = (None : option nat)).
  { intros f. unfold component_at. destruct (_ !! f) eqn:El; [|done]. by apply lookup_replicate in El as [-> _]. }
  assert (Hnode : ∀ f, tc (edge g) f f → ∃ C, C ∈ cs ∧ f ∈ C ∧ cyclic_component g C = true).
  { intros f Htc. assert (Hf : f ∈ nodes).
    { apply tc_first in Htc as (z & Hz & _). by apply (synchronous_graph_ok f z). }
    apply He, list_elem_of_In, in_concat in Hf as (C & HC & Hf). apply list_elem_of_In in HC, Hf.
    exists C. split_and!; try done. by apply (cyclic_class g C f (Hc C HC) Hf). }
  split.
  - intros f. split.
    + intros [k Hk]. destruct (decide (f ∈ concat cs)) as [Hf|Hf]; [|rewrite H3, Hnone in Hk by done; done].
      apply list_elem_of_In, in_concat in Hf as (C & HC & Hf). apply list_elem_of_In in HC, Hf.
      apply (cyclic_class g C f (Hc C HC) Hf). destruct (cyclic_component g C) eqn:Hcy; [done|].
      rewrite (H4 C f HC Hf Hcy), Hnone in Hk. done.
    + intros Htc. destruct (Hnode f Htc) as (C & HC & Hf & Hcy). destruct (H5 C HC Hcy) as (k & _ & Hk).
      rewrite (Hk f Hf). eauto.
  - intros u v Hu Hv. destruct (Hnode u Hu) as (C & HC & HuC & HcC), (Hnode v Hv) as (D & HD & HvD & HcD).
    destruct (Hc C HC) as (_ & _ & Hcl). split.
    + intros Heq. assert (C = D) as -> by (by eapply (H6 C D u v)). by apply (Hcl u v).
    + intros Hm. assert (HvC : v ∈ C) by (by apply (Hcl u v)). destruct (H5 C HC HcC) as (k & _ & Hk).
      by rewrite (Hk u HuC), (Hk v HvC).
Qed.

End Recursion.

(** * What the coroutine analysis promises

    The partition of the call graph, the totality of the analysis with the
    order and the numbering it fixes, the depth equations, and the recursive
    subprograms. *)

(** ** Call sites *)

(** A site has the operation of a call exactly when it records the call. *)
Definition call_recorded (d : SiteDraft) : Prop :=
  match dr_call d with
  | Some call => dr_operation d = SCall (dc_callee call)
  | None => ∀ callee, dr_operation d ≠ SCall callee
  end.

Section Recorded.
Context (leaves : nat → LeafStmt) (effects : CallEffects).

Lemma own_sites_recorded path from s : Forall call_recorded (own_sites leaves effects path from s).
Proof.
  unfold own_sites. destruct (clocking_wait leaves s); [by repeat constructor|].
  destruct (suspension_operation leaves effects s) as [[op call]|] eqn:E; [|constructor].
  constructor; [|constructor]. unfold suspension_operation in E.
  destruct s; try discriminate E; try (injection E as <- <-; done).
  destruct (leaves tag); try discriminate E; try (injection E as <- <-; done).
  - destruct (_ && _); [|done]. by injection E as <- <-.
  - destruct (_ && _); [|done]. by injection E as <- <-.
  - destruct object as [[|]| | |[|]|[|]| | |]; simpl in E; try discriminate E; by injection E as <- <-.
  - unfold call_operation in E. destruct (call_suspends _ _); [|done]. by injection E as <- <-.
Qed.

Lemma scan_stmt_recorded s : ∀ path from, Forall call_recorded (scan_stmt leaves effects path from s).
Proof.
  induction s as [s IH] using IrStmt_parts_ind. intros path from. rewrite Forall_forall in IH.
  assert (Hfrom : ∀ l i parent, (∀ c, c ∈ l → c ∈ parts s) → Forall call_recorded (scan_from leaves effects i parent l)).
  { induction l as [|c l IHl]; intros i parent Hl; cbn [scan_from]; [constructor|].
    apply Forall_app. split; [apply IH, Hl; set_solver|apply IHl; set_solver]. }
  assert (Hopt : ∀ o parent, (∀ l c, o = Some l → c ∈ l → c ∈ parts s) → Forall call_recorded (scan_option leaves effects parent o)).
  { intros [l|] parent Hl; [|constructor]. apply Hfrom. intros c Hc. by apply (Hl l c). }
  pose proof (own_sites_recorded path from s) as Hown. rewrite scan_stmt_eq.
  destruct s; rewrite ?Forall_app; cbn [parts collect] in *;
    try (split_and!; [done|..]); try done; try (by apply IH; set_solver);
    try (apply Hfrom; intros c Hc; cbn; set_solver); try (apply Hopt; intros l c -> Hc; cbn; set_solver).
  enough (H : ∀ its i, its ⊆ items → Forall call_recorded (scan_items leaves effects i path its)) by by apply H.
  induction its as [|it its IHi]; intros i Hi; cbn [scan_items]; [constructor|]. apply Forall_app. split.
  - apply Hfrom. intros c Hc. cbn. apply list_elem_of_In, in_flat_map. exists it.
    rewrite <- !list_elem_of_In. split; [apply Hi; set_solver|done].
  - apply IHi. set_solver.
Qed.

Lemma scan_statements_recorded l parent : Forall call_recorded (scan_statements leaves effects l parent).
Proof.
  unfold scan_statements. generalize 0 as i. induction l as [|c l IH]; intros i; cbn [scan_from]; [constructor|].
  apply Forall_app. split; [apply scan_stmt_recorded|apply IH].
Qed.

End Recorded.

Lemma drafts_recorded leaves effects ir processes owner sites d :
  (owner, sites) ∈ drafts leaves effects ir processes → d ∈ sites → call_recorded d.
Proof.
  intros Hin. apply Forall_forall. revert Hin. unfold drafts. set (ce := call_effects _ _). rewrite !elem_of_app.
  assert (Hbr : ∀ helpers make, (owner, sites) ∈ scan_branches leaves ce helpers make → Forall call_recorded sites).
  { intros helpers make Hin. unfold scan_branches in Hin. apply list_elem_of_omap in Hin as ([h pre] & _ & E).
    simpl in E. destruct (branch_body pre); simpl in E; [|done]. injection E as _ <-. apply scan_statements_recorded. }
  intros [Hx|[Hx|[Hx|Hx]]].
  - apply list_elem_of_fmap in Hx as (f & [= _ ->] & _). unfold function_sites.
    destruct (funcs ir !! f) as [fn|]; [|constructor]. destruct (dpi fn); [by repeat constructor|].
    apply scan_statements_recorded.
  - apply list_elem_of_In, in_flat_map in Hx as (e & _ & Hin). apply list_elem_of_In in Hin. by eapply Hbr.
  - apply list_elem_of_fmap in Hx as (e & [= _ ->] & _). unfold scan_process. apply Forall_forall.
    intros x Hx. apply list_elem_of_In, in_flat_map in Hx as (b & _ & Hx). apply list_elem_of_In in Hx. revert x Hx.
    apply Forall_forall. unfold scan_block. apply Forall_app. split; [apply scan_statements_recorded|].
    destruct (terminator b.2); by repeat constructor.
  - apply list_elem_of_In, in_flat_map in Hx as (e & _ & Hin). apply list_elem_of_In in Hin. by eapply Hbr.
Qed.

(** ** The claims *)

(** C10: the partition of a call graph: the search terminates within its fuel
    and returns every function in exactly one component; two functions share a
    component exactly when each reaches the other; components are nonempty and
    increasing, and ordered by their first member. *)
Theorem scc_exact functions g :
  graph_ok functions g →
  ∃ cs, strongly_connected_components functions g = Some cs
    ∧ NoDup (concat cs) ∧ (∀ f, f ∈ concat cs ↔ f ∈ functions)
    ∧ (∀ C u v, C ∈ cs → u ∈ C → (v ∈ C ↔ mutual g u v))
    ∧ (∀ C, C ∈ cs → C ≠ [] ∧ StronglySorted lt C) ∧ StronglySorted first_le cs.
Proof.
  intros Hok. destruct (scc_spec functions g Hok) as (cs & rank & E & Hn & He & Hc & Hs & _).
  exists cs. split_and!; try done.
  - intros C u v HC. by apply (Hc C HC).
  - intros C HC. destruct (Hc C HC) as (H1 & H2 & _). done.
Qed.

Section Claims.
Context (leaves : nat → LeafStmt) (effects_for_function : nat → list ExecutionEffect).
Context (ir : IrModel) (processes : list ExecutionProcess).

Definition few_sites : Prop :=
  Forall (fun e : CoroutineId * list SiteDraft => (Z.of_nat (length e.2) < 2 ^ 32)%Z)
    (drafts leaves effects_for_function ir processes).

Definition static_calls : graph :=
  suspendable_graph (coroutine_functions effects_for_function ir) (drafts leaves effects_for_function ir processes).

Lemma drafts_ok :
  few_sites →
  entries_ok (length (funcs ir)) (coroutine_functions effects_for_function ir)
    (drafts leaves effects_for_function ir processes).
Proof.
  intros Hfew. unfold few_sites in Hfew. rewrite Forall_forall in Hfew. split.
  - apply coroutine_functions_sorted.
  - apply coroutine_functions_range.
  - apply draft_keys_nodup.
  - apply draft_functions.
  - apply draft_paths.
  - intros owner sites Hin. by apply (Hfew (owner, sites)).
Qed.

(** C4: the analysis never fails and never runs out of fuel: with a poll depth
    limit below [usize::MAX] and fewer than [2^32] sites for each owner it
    returns.  The functions are listed callees first, each once, so that a
    call to another component refers to an earlier function; and every owner
    has one table entry for each of its suspension sites, at distinct paths,
    with the resume numbers one, two, three, ... in the order of the scan. *)
Theorem analysis_total options forced :
  (Z.of_nat (poll_depth_max options) < elab.usize_max)%Z → few_sites →
  ∃ a, analyze_with leaves effects_for_function ir processes options forced = Some (Fine a)
    ∧ an_callee_first a ≡ₚ coroutine_functions effects_for_function ir
    ∧ (∀ u v, edge static_calls u v → ¬ mutual static_calls u v → before v u (an_callee_first a))
    ∧ Forall2 (fun (draft : CoroutineId * list SiteDraft) (entry : CoroutineId * list (OperationPath * SuspensionSite)) =>
          entry.1 = draft.1 ∧ NoDup (map fst entry.2) ∧ map fst entry.2 = map dr_path draft.2
          ∧ map (fun site => si_resume site.2) entry.2 = seq 1 (length draft.2)
          ∧ map (fun site => si_operation site.2) entry.2 = map dr_operation draft.2)
        (drafts leaves effects_for_function ir processes) (an_sites a).
Proof.
  intros Hmax Hfew. pose proof (drafts_ok Hfew) as Hen.
  destruct (solve_spec _ _ _ options forced Hen Hmax) as (cs & a & _ & E & _ & _ & _ & P & B & _ & _ & _ & Hs).
  exists a. split_and!; [done|done|done|]. rewrite Hs. apply Forall2_fmap_r, Forall_Forall2_diag, Forall_forall.
  intros [owner sites] Hin. cbn [fst snd]. split; [done|].
  match goal with |- context [numbered ?M] => destruct (numbered_table M sites) as (T1 & T2 & T3) end.
  split_and!; [|exact T1|exact T2|exact T3].
  match type of T1 with ?l = _ => change (NoDup l) end. rewrite T1. by eapply en_paths.
Qed.

(** What the call sites of the tables contribute to a function. *)
Definition incoming (a : ExecutionAnalysis) (f : nat) : list nat :=
  flat_map (fun entry : CoroutineId * list (OperationPath * SuspensionSite) =>
    omap (fun site : OperationPath * SuspensionSite =>
            if bool_decide (si_operation site.2 = SCall (Some f)) then contribution <$> si_mechanism site.2 else None)
      entry.2)
    (an_sites a).

Lemma incoming_offered a options component_of forced f :
  an_sites a = map (fun e : CoroutineId * list SiteDraft =>
    (e.1, imap (numbered (mechanism_of (poll_depth_max options) component_of forced
                            (owner_function e.1) (owner_depth (an_function_depths a) e.1))) e.2))
    (drafts leaves effects_for_function ir processes) →
  list_max (incoming a f)
  = list_max (map (fun e => offered (poll_depth_max options) component_of forced (owner_function e.1)
                              (owner_depth (an_function_depths a) e.1) (calls_of e.2) f)
                  (drafts leaves effects_for_function ir processes)).
Proof.
  intros Hs. unfold incoming. rewrite Hs. clear Hs.
  assert (Hrec : ∀ e, e ∈ drafts leaves effects_for_function ir processes → Forall call_recorded e.2).
  { intros [o s] Hin. apply Forall_forall. intros d Hd. by eapply drafts_recorded. }
  induction (drafts leaves effects_for_function ir processes) as [|[owner sites] l IH]; [done|].
  cbn [map flat_map fst snd]. rewrite list_max_app, IH by (intros e He; apply Hrec; set_solver).
  change (list_max (?x :: ?k)) with (Nat.max x (list_max k)). f_equal. unfold offered.
  set (M := mechanism_of _ _ _ _ _). f_equal. specialize (Hrec (owner, sites) ltac:(set_solver)). cbn [snd] in Hrec.
  clear IH. unfold calls_of.
  enough (H : ∀ k, omap (fun site : OperationPath * SuspensionSite =>
      if bool_decide (si_operation site.2 = SCall (Some f)) then contribution <$> si_mechanism site.2 else None)
      (imap (fun i => numbered M (k + i)) sites)
    = map (fun call => contribution (M call)) (filter (fun call => dc_callee call = Some f) (omap dr_call sites))) by apply (H 0).
  induction sites as [|d sites IH]; intros k; [done|]. apply Forall_cons in Hrec as [Hd Hrec]. cbn [imap omap list_omap].
  replace (imap ((fun i => numbered M (k + i)) ∘ S) sites) with (imap (fun i => numbered M (S k + i)) sites)
    by (apply imap_ext; intros i x _; simpl; by rewrite Nat.add_succ_r).
  unfold call_recorded in Hd. cbn [numbered fst snd si_operation si_mechanism].
  destruct (dr_call d) as [call|] eqn:Ec; cbn [fmap option_fmap option_map].
  - rewrite filter_cons. destruct (decide (dc_callee call = Some f)) as [Hc|Hc].
    + rewrite bool_decide_true by congruence. cbn [map]. f_equal. by apply IH.
    + rewrite bool_decide_false by congruence. by apply IH.
  - rewrite bool_decide_false by apply Hd. by apply IH.
Qed.

(** C7: the depths solve the equations of the analysis: the depth of a
    suspendable subprogram is the greatest contribution of the call sites that
    name it (zero without one), where a polled site contributes one more than
    the depth of its own caller.  No polled call exceeds the limit, and none
    enters a forced callee or a function of the caller's own component: the
    depths are consistent although calls may form cycles. *)
Theorem depths_solve options forced a :
  (Z.of_nat (poll_depth_max options) < elab.usize_max)%Z → few_sites →
  analyze_with leaves effects_for_function ir processes options forced = Some (Fine a) →
  (∀ f, f ∈ coroutine_functions effects_for_function ir →
     an_function_depths a !! f = Some (Some (list_max (incoming a f)))
     ∧ list_max (incoming a f) <= poll_depth_max options)
  ∧ (∀ owner table path site depth,
       (owner, table) ∈ an_sites a → (path, site) ∈ table → si_mechanism site = Some (Polled depth) →
       depth = S (owner_depth (an_function_depths a) owner) ∧ depth <= poll_depth_max options
       ∧ ∃ callee, si_operation site = SCall (Some callee) ∧ callee ∉ forced
         ∧ ∀ f, owner = FunctionId f → callee ∈ coroutine_functions effects_for_function ir →
             ¬ mutual static_calls f callee).
Proof.
  intros Hmax Hfew E. pose proof (drafts_ok Hfew) as Hen.
  destruct (solve_spec _ _ _ options forced Hen Hmax) as (cs & a' & Hp & E' & _ & _ & _ & _ & _ & Hb & Hsome & Hd & Hs).
  assert (a' = a) as -> by (unfold analyze_with in E; congruence). split.
  - intros f Hf. destruct (Hsome f Hf) as [d Ed]. rewrite (incoming_offered a options _ forced f Hs).
    rewrite <- (Hd f) by (by apply (coroutine_functions_range effects_for_function)). split; [|apply Hb].
    rewrite Ed. unfold depth_of. by rewrite Ed.
  - intros owner table path site depth Ht Hin Hm. rewrite Hs in Ht.
    apply list_elem_of_fmap in Ht as ([o sites] & [= -> ->] & Hdraft). cbn [fst snd] in *.
    apply list_elem_of_lookup in Hin as [i Hi]. rewrite list_lookup_imap in Hi.
    destruct (sites !! i) as [d|] eqn:Ed; [|done]. injection Hi as <- <-. cbn [numbered si_mechanism si_operation] in *.
    assert (Hrec : call_recorded d) by (eapply drafts_recorded; [exact Hdraft|by eapply list_elem_of_lookup_2]).
    unfold call_recorded in Hrec. destruct (dr_call d) as [call|] eqn:Ec; [|done]. injection Hm as Hm.
    apply polled_inv in Hm as (Hdep & Hle & _ & callee & Hc & Hforced & Hdiff). split_and!; [done|done|].
    exists callee. split_and!; [by rewrite Hrec, Hc|done|]. intros f -> Hcf Hmu.
    assert (Hf : f ∈ coroutine_functions effects_for_function ir).
    { apply (en_functions _ _ _ Hen). apply list_elem_of_fmap. by exists (FunctionId f, sites). }
    destruct (pa_at _ _ _ _ Hp f Hf) as (c & C & Hat & _). apply (Hdiff f c eq_refl Hat).
    rewrite <- Hat. symmetry. by apply (pa_mutual _ _ _ _ Hp).
Qed.

(** A synchronous subprogram is marked recursive exactly when it lies on a
    cycle of the synchronous call graph; two marked ones have the same
    component exactly when each reaches the other; and a call goes through the
    arena exactly when the caller is recursive and some implementation of the
    target can come back to it. *)
Theorem recursion_exact (targets : nat → list CallTarget) suspendable :
  let g := synchronous_graph targets ir (synchronous_functions ir suspendable) in
  ∃ components, recursion_components targets ir suspendable = Some components
    ∧ (∀ f, is_Some (component_at components f) ↔ tc (edge g) f f)
    ∧ (∀ u v, tc (edge g) u u → tc (edge g) v v →
         (component_at components u = component_at components v ↔ mutual g u v))
    ∧ (∀ caller target, recursive_call ir components caller target = true
         ↔ tc (edge g) caller caller ∧ ∃ callee, callee ∈ target_functions ir target ∧ mutual g caller callee).
Proof.
  cbv zeta. destruct (recursion_spec targets ir suspendable) as (cs & E & H1 & H2). exists cs. split_and!; try done.
  intros caller target. unfold recursive_call. split.
  - destruct (component_at cs caller) as [c|] eqn:Ec; [|done]. intros Hex.
    assert (Htc : tc (edge (synchronous_graph targets ir (synchronous_functions ir suspendable))) caller caller)
      by (apply H1; rewrite Ec; eauto).
    split; [done|]. apply existsb_exists in Hex as (callee & Hin & Hb). apply bool_decide_eq_true in Hb.
    exists callee. split; [by apply list_elem_of_In|]. apply H2; [done|apply H1; rewrite Hb; eauto|congruence].
  - intros (Htc & callee & Hin & Hm). pose proof (proj2 (H1 caller) Htc) as [c Ec]. rewrite Ec.
    apply existsb_exists. exists callee. split; [by apply list_elem_of_In|]. apply bool_decide_eq_true.
    assert (Htc' : tc (edge (synchronous_graph targets ir (synchronous_functions ir suspendable))) callee callee).
    { destruct Hm as [Hm1 Hm2]. eapply tc_rtc_l; [exact Hm2|]. by eapply tc_rtc_r. }
    rewrite <- Ec. symmetry. by apply H2.
Qed.

End Claims.

(** ** Witnesses *)

(** Two tasks that call each other, a third one the second calls, and a
    process that calls the first. *)
Definition sample_leaves (tag : nat) : LeafStmt :=
  match tag with
  | 0 => Delay
  | S f => CallStmt (mkCall false None f)
  end.

Definition sample_effects (f : nat) : list ExecutionEffect := [Suspend].

Definition sample_task (body : list IrStmt) : IrFunc := mkFunc true false false None body [] 0.

Definition sample_ir : IrModel :=
  mkModel [sample_task [Leaf 0; Leaf 2]; sample_task [Block [Leaf 1; Leaf 3]]; sample_task [Located 7 (Leaf 0)]] [] [].

Definition sample_processes : list ExecutionProcess := [[mkBlock [Leaf 1] (SuspendSignals 0)]].

Lemma sample_few : few_sites sample_leaves sample_effects sample_ir sample_processes.
Proof. unfold few_sites. apply (bool_decide_unpack _). vm_compute. exact I. Qed.

Lemma scc_exact_witness :
  graph_ok [0; 1; 2] (list_to_map [(0, [1]); (1, [0; 2])])
  ∧ ∃ cs, strongly_connected_components [0; 1; 2] (list_to_map [(0, [1]); (1, [0; 2])]) = Some cs ∧ [0; 1] ∈ cs.
Proof.
  assert (Hok : graph_ok [0; 1; 2] (list_to_map [(0, [1]); (1, [0; 2])])).
  { intros u v. unfold edge, callees_of. destruct (decide (u = 0)) as [->|H0]; [vm_compute; set_solver|].
    destruct (decide (u = 1)) as [->|H1]; [vm_compute; set_solver|].
    cbn [list_to_map foldr fst snd]. rewrite !lookup_insert_ne, lookup_empty by congruence. simpl. set_solver. }
  split; [done|]. destruct (scc_exact _ _ Hok) as (cs & E & _). exists cs. split; [done|].
  assert (cs = [[0; 1]; [2]]) as -> by (vm_compute in E; congruence). set_solver.
Defined.

Lemma analysis_total_witness :
  ∃ a, analyze_with sample_leaves sample_effects sample_ir sample_processes default_options [] = Some (Fine a)
    ∧ an_callee_first a = [2; 0; 1].
Proof.
  destruct (analysis_total sample_leaves sample_effects sample_ir sample_processes default_options [])
    as (a & E & _); [done|apply sample_few|].
  exists a. split; [done|]. vm_compute in E. by injection E as <-.
Defined.

Lemma depths_solve_witness :
  ∃ a, analyze_with sample_leaves sample_effects sample_ir sample_processes default_options [] = Some (Fine a)
    ∧ an_function_depths a !! 0 = Some (Some (list_max (incoming a 0))) ∧ incoming a 0 = [0; 1].
Proof.
  destruct (analyze_with sample_leaves sample_effects sample_ir sample_processes default_options []) as [[a|]|] eqn:E;
    [|vm_compute in E; congruence..].
  exists a. split; [done|].
  destruct (depths_solve sample_leaves sample_effects sample_ir sample_processes default_options [] a) as [H _];
    [done|apply sample_few|done|].
  split; [apply (H 0); vm_compute; set_solver|]. vm_compute in E. injection E as <-. reflexivity.
Defined.
