(* ===== verification/Names.v ===== *)
(** * C names (src/sim/emit_c/names.rs)

    Source names become C identifiers by a reversible encoding ([ident],
    [path_ident], [scoped_name]); once the whole model text exists, its long
    identifiers are shortened by a registry ([bound_identifiers]) that rewrites
    the text in place.  A Rust [str] is its UTF-8 bytes; a byte range that the
    code slices is a slice of the list, with [None] for the panic of a range
    that is out of bounds. *)

From Stdlib Require Import ZArith Lia Ascii String.
From stdpp Require Import base list strings gmap sorting.
From S2P Require Import Prelude.
Open Scope Z_scope.
Open Scope list_scope.

(** ** Text ([str] methods) *)

Fixpoint starts_with (prefix value : bytes) : bool :=
  match prefix, value with
  | [], _ => true
  | p :: ps, v :: vs => Ascii.eqb p v && starts_with ps vs
  | _ :: _, [] => false
  end.

Definition ends_with (suffix value : bytes) : bool := starts_with (rev suffix) (rev value).

Fixpoint contains (needle value : bytes) : bool :=
  starts_with needle value ||
  match value with
  | [] => false
  | _ :: vs => contains needle vs
  end.

Definition nonempty (value : bytes) : bool := match value with [] => false | _ => true end.

(** [bytes().enumerate().all(..)] with the test that a digit is not first. *)
Definition word_byte (b : ascii) : bool := Ascii.eqb b "_" || is_ascii_alphanumeric b.

Definition identifier_bytes (value : bytes) : bool :=
  forallb word_byte value &&
  match value with
  | [] => true
  | b :: _ => negb (is_ascii_digit b)
  end.

(** ** Source names *)

Definition strip_lib (name : bytes) : bytes :=
  match split_once "@" name with
  | Some (_, rest) => if nonempty rest then rest else name
  | None => name
  end.

Definition HEX : bytes := unstr "0123456789ABCDEF".

Definition hex_digit (n : N) : ascii := nth (N.to_nat n) HEX "0"%char.

(** [{byte:02X}], and the two digits of [append_component]. *)
Definition hex_byte (b : ascii) : bytes :=
  [hex_digit (N.shiftr (byte_N b) 4); hex_digit (N.land (byte_N b) 15)].

Definition RESERVED : bytes := unstr "__llg_ident_".

Definition display_simple (value : bytes) : bool :=
  nonempty value && negb (starts_with RESERVED value) && identifier_bytes value.

Definition display_ident (value : bytes) : bytes :=
  if display_simple value then value
  else
    let tag := if identifier_bytes value then "s"%char else "e"%char in
    RESERVED ++ [tag; "_"%char] ++ flat_map hex_byte value.

Definition ENCODED_PREFIX : bytes := unstr "cI_".
Definition MAX_C_IDENTIFIER_LEN : nat := 32.

Definition PROTECTED : list bytes :=
  map unstr ["cI_"; "__llg_ident_"; "llg_"; "sv4_"; "LLG_"; "SV4_"; "G_"; "D_"; "E_"; "O_"; "p_";
             "f_"; "fn_"; "g_"; "__"]%string.

Definition underscore_upper (value : bytes) : bool :=
  match value with
  | b :: c :: _ => Ascii.eqb b "_" && is_ascii_upper c
  | _ => false
  end.

Definition simple (value : bytes) : bool :=
  nonempty value
  && negb (existsb (fun prefix => starts_with prefix value) PROTECTED)
  && negb (underscore_upper value)
  && identifier_bytes value.

(** The bytes pushed for one byte of a component. *)
Definition encode_byte (byte : ascii) : bytes :=
  if Ascii.eqb byte "Z" then unstr "ZZ"
  else if Ascii.eqb byte "_" then unstr "Zu"
  else if Ascii.eqb byte "." then unstr "Zd"
  else if Ascii.eqb byte "[" then unstr "Zl"
  else if Ascii.eqb byte "]" then unstr "Zr"
  else if is_ascii_alphanumeric byte then [byte]
  else unstr "Zx" ++ hex_byte byte.

Definition append_component (out value : bytes) : bytes := out ++ flat_map encode_byte value.

Definition ident (value : bytes) : bytes :=
  if simple value then value else append_component ENCODED_PREFIX value.

Definition DESC : bytes := unstr "_desc".
Definition FRAME_T : bytes := unstr "_frame_t".

Definition function_ident (value : bytes) : bytes :=
  if negb (contains DESC value) && negb (ends_with FRAME_T value) then ident value
  else append_component ENCODED_PREFIX value.

(** The loop of [encoded_components]: [Zp] before every component but the
    first. *)
Fixpoint append_components (out : bytes) (index : nat) (components : list bytes) : bytes :=
  match components with
  | [] => out
  | component :: rest =>
      let out := if Nat.eqb index 0 then out else out ++ unstr "Zp" in
      append_components (append_component out component) (S index) rest
  end.

Definition encoded_components (components : list bytes) : bytes :=
  match components with
  | [] => ENCODED_PREFIX ++ unstr "Ze"
  | _ => append_components ENCODED_PREFIX 0 components
  end.

Definition path_ident (components : list bytes) : bytes :=
  match components with
  | [component] => ident component
  | _ => encoded_components components
  end.

(** [trim_end_matches('_')]. *)
Fixpoint drop_underscores (value : bytes) : bytes :=
  match value with
  | b :: bs => if Ascii.eqb b "_" then drop_underscores bs else value
  | [] => []
  end.
Definition trim_underscores (value : bytes) : bytes := rev (drop_underscores (rev value)).

(** The guard of the readable form. *)
Definition readable (scope name : bytes) : bool :=
  simple scope
  && negb (contains (unstr "_") scope)
  && negb (bool_decide (scope = trim_underscores ENCODED_PREFIX))
  && simple name
  && negb (contains (unstr "__") name)
  && negb (contains DESC name)
  && negb (ends_with FRAME_T name).

Definition scoped_suffix (components : list bytes) : bytes :=
  match components with
  | [scope; name] =>
      if readable scope name then scope ++ unstr "_" ++ name else encoded_components components
  | _ => encoded_components components
  end.

Definition scoped_name (prefix : bytes) (components : list bytes) : bytes :=
  prefix ++ unstr "_" ++ scoped_suffix components.

Definition global_name (path name : bytes) : bytes := scoped_name (unstr "G") [path; name].
Definition real_global_name (path name : bytes) : bytes := scoped_name (unstr "D") [path; name].
Definition event_global_name (path name : bytes) : bytes := scoped_name (unstr "E") [path; name].

(** ** Identifiers of C text *)

(** The bytes of a literal after its opening [delimiter], up to the closing
    one: a backslash takes two. At the end of the text a final backslash
    counts one byte too many, as the index of the code does. *)
Fixpoint literal_len (delimiter : ascii) (rest : bytes) : nat :=
  match rest with
  | [] => 0
  | b :: bs =>
      if Ascii.eqb b delimiter then 0
      else if Ascii.eqb b backslash then
             match bs with
             | [] => 2
             | _ :: bs' => 2 + literal_len delimiter bs'
             end
      else 1 + literal_len delimiter bs
  end.

(** [windows(2).position(|window| window == b"*/")]. *)
Fixpoint comment_close (rest : bytes) : option nat :=
  match rest with
  | [] => None
  | b :: bs =>
      match bs with
      | [] => None
      | c :: _ =>
          if Ascii.eqb b "*" && Ascii.eqb c "/" then Some 0%nat
          else option_map S (comment_close bs)
      end
  end.

(** [iter().position(|byte| *byte == b'\n')]. *)
Fixpoint line_end (rest : bytes) : option nat :=
  match rest with
  | [] => None
  | b :: bs => if Ascii.eqb b newline then Some 0%nat else option_map S (line_end bs)
  end.

(** [Range<usize>]. *)
Record Span : Type := mkSpan { start : nat; stop : nat }.

(** The scan: its result and the index it leaves. Every turn of the loop
    advances, so the bytes left are enough fuel. *)
Fixpoint next_identifier_loop (fuel : nat) (text : bytes) (index : nat)
  : option (option Span * nat) :=
  match fuel with
  | O => None
  | S fuel' =>
      match drop index text with
      | [] => Some (None, index)
      | byte :: rest =>
          if Ascii.eqb byte quote || Ascii.eqb byte "'" then
            let index1 := (index + 1)%nat in
            let index2 := (index1 + literal_len byte rest)%nat in
            next_identifier_loop fuel' text (Nat.min (index2 + 1) (length text))
          else if Ascii.eqb byte "/" && bool_decide (head rest = Some "*"%char) then
            next_identifier_loop fuel' text
              (match comment_close (drop (index + 2) text) with
               | Some offset => index + 2 + offset + 2
               | None => length text
               end)%nat
          else if Ascii.eqb byte "/" && bool_decide (head rest = Some "/"%char) then
            next_identifier_loop fuel' text
              (match line_end (drop index text) with
               | Some offset => index + offset
               | None => length text
               end)%nat
          else if word_byte byte then
            let stop := (index + run_length word_byte (drop index text))%nat in
            if is_ascii_digit byte then next_identifier_loop fuel' text stop
            else Some (Some (mkSpan index stop), stop)
          else next_identifier_loop fuel' text (index + 1)%nat
      end
  end.

Definition next_identifier (text : bytes) (index : nat) : option (option Span * nat) :=
  next_identifier_loop (S (length text - index)) text index.

(** The iterator run to its end. *)
Fixpoint identifier_spans_loop (fuel : nat) (text : bytes) (index : nat) : option (list Span) :=
  match fuel with
  | O => None
  | S fuel' =>
      match next_identifier text index with
      | Some (Some span, index') => option_map (cons span) (identifier_spans_loop fuel' text index')
      | Some (None, _) => Some []
      | None => None
      end
  end.

Definition identifier_spans (text : bytes) : option (list Span) :=
  identifier_spans_loop (S (length text)) text 0.

(** [&text[a..b]]: [None] is the panic of a bad range. *)
Definition slice (text : bytes) (a b : nat) : option bytes :=
  if Nat.leb a b && Nat.leb b (length text) then Some (take (b - a) (drop a text)) else None.

(** ** Rewriting *)

Fixpoint rewrite_loop (rename : bytes -> option bytes) (text : bytes) (spans : list Span)
    (out : bytes) (copied : nat) : option (bytes * nat) :=
  match spans with
  | [] => Some (out, copied)
  | span :: rest =>
      match slice text (start span) (stop span) with
      | None => None
      | Some name =>
          match rename name with
          | Some replacement =>
              match slice text copied (start span) with
              | None => None
              | Some gap => rewrite_loop rename text rest (out ++ gap ++ replacement) (stop span)
              end
          | None => rewrite_loop rename text rest out copied
          end
      end
  end.

Definition rewrite_identifiers (text : bytes) (rename : bytes -> option bytes) : option bytes :=
  match identifier_spans text with
  | None => None
  | Some spans =>
      match rewrite_loop rename text spans [] 0 with
      | None => None
      | Some (out, copied) =>
          match slice text copied (length text) with
          | None => None
          | Some tail => Some (out ++ tail)
          end
      end
  end.

(** [dest[at..at + len].copy_from_slice(data)]. *)
Definition write_at (buffer : bytes) (at_ : nat) (data : bytes) : option bytes :=
  if Nat.leb (at_ + length data) (length buffer)
  then Some (take at_ buffer ++ data ++ drop (at_ + length data) buffer)
  else None.

(** [buffer.copy_within(a..b, dest)]. *)
Definition copy_within (buffer : bytes) (a b dest : nat) : option bytes :=
  match slice buffer a b with
  | Some data => write_at buffer dest data
  | None => None
  end.

Record Rewrite : Type := mkRewrite { buffer : bytes; write : nat; copied : nat }.

(** One turn of the in-place loop for the identifier at [span]. *)
Definition rewrite_step (renamed : gmap bytes bytes) (span : Span) (st : Rewrite)
  : option Rewrite :=
  match slice (buffer st) (start span) (stop span) with
  | None => None
  | Some name =>
      match renamed !! name with
      | None => Some st
      | Some replacement =>
          match copy_within (buffer st) (copied st) (start span) (write st) with
          | None => None
          | Some buffer1 =>
              let write1 := (write st + (start span - copied st))%nat in
              match write_at buffer1 write1 replacement with
              | None => None
              | Some buffer2 => Some (mkRewrite buffer2 (write1 + length replacement) (stop span))
              end
          end
      end
  end.

Fixpoint rewrite_in_place_loop (fuel : nat) (renamed : gmap bytes bytes) (read : nat)
    (st : Rewrite) : option Rewrite :=
  match fuel with
  | O => None
  | S fuel' =>
      match next_identifier (buffer st) read with
      | None => None
      | Some (None, _) => Some st
      | Some (Some span, read') =>
          match rewrite_step renamed span st with
          | None => None
          | Some st' => rewrite_in_place_loop fuel' renamed read' st'
          end
      end
  end.

(** *** UTF-8 validity ([String::from_utf8]), by the state after a prefix:
    the ranges of the continuation bytes still expected. *)

Definition in_range (lo hi : N) (b : ascii) : bool := (lo <=? byte_N b)%N && (byte_N b <=? hi)%N.
Definition cont : N * N := (128, 191)%N.

Definition utf8_lead (b : ascii) : option (list (N * N)) :=
  if is_ascii b then Some []
  else if in_range 194 223 b then Some [cont]
  else if in_range 224 224 b then Some [(160, 191)%N; cont]
  else if in_range 225 236 b then Some [cont; cont]
  else if in_range 237 237 b then Some [(128, 159)%N; cont]
  else if in_range 238 239 b then Some [cont; cont]
  else if in_range 240 240 b then Some [(144, 191)%N; cont; cont]
  else if in_range 241 243 b then Some [cont; cont; cont]
  else if in_range 244 244 b then Some [(128, 143)%N; cont; cont]
  else None.

Fixpoint utf8_run (expected : list (N * N)) (text : bytes) : option (list (N * N)) :=
  match text with
  | [] => Some expected
  | b :: bs =>
      match expected with
      | [] => match utf8_lead b with Some e => utf8_run e bs | None => None end
      | (lo, hi) :: e => if in_range lo hi b then utf8_run e bs else None
      end
  end.

Definition utf8_valid (text : bytes) : bool :=
  match utf8_run [] text with Some [] => true | _ => false end.

(** [String::from_utf8_lossy] only runs on text that is not valid UTF-8; it is
    an argument. *)
Definition rewrite_identifiers_in_place (from_utf8_lossy : bytes -> bytes) (text : bytes)
    (renamed : gmap bytes bytes) : option bytes :=
  if existsb (fun '(original, replacement) => Nat.ltb (length original) (length replacement))
       (map_to_list renamed)
  then rewrite_identifiers text (fun name => renamed !! name)
  else
    match rewrite_in_place_loop (S (length text)) renamed 0 (mkRewrite text 0 0) with
    | None => None
    | Some st =>
        let len := length (buffer st) in
        match copy_within (buffer st) (copied st) len (write st) with
        | None => None
        | Some buffer1 =>
            let result := take (write st + len - copied st) buffer1 in
            Some (if utf8_valid result then result else from_utf8_lossy result)
        end
    end.

(** ** The registry of bounded names *)

Definition DIGITS : bytes := unstr "0123456789abcdefghijklmnopqrstuvwxyz".

(** The digits pushed, least significant first. *)
Fixpoint registry_digits (fuel : nat) (index : Z) : bytes :=
  let d := nth (Z.to_nat (index mod 36)) DIGITS "0"%char in
  match fuel with
  | O => [d]
  | S fuel' => if index / 36 =? 0 then [d] else d :: registry_digits fuel' (index / 36)
  end.

Definition registry_index (index : Z) : bytes :=
  rev (registry_digits (Z.to_nat (Z.log2 index)) index).

Definition NAME_PREFIXES : list bytes :=
  map unstr ["fn_"; "G_"; "D_"; "E_"; "O_"; "p_"; "f_"; "g_"; "llg_"; "_llg_"]%string.
Definition NAME_SUFFIXES : list bytes := [FRAME_T; DESC].

Definition name_prefix (name : bytes) : bytes :=
  default [] (List.find (fun prefix => starts_with prefix name) NAME_PREFIXES).
Definition name_suffix (name : bytes) : bytes :=
  default [] (List.find (fun suffix => ends_with suffix name) NAME_SUFFIXES).

(** [None]: the subtraction for the stem or the slice of the name panics. *)
Definition bounded_name (name : bytes) (sequence : Z) : option bytes :=
  let prefix := name_prefix name in
  let suffix := name_suffix name in
  let index := registry_index sequence in
  let used := (length prefix + length suffix + length index + 2)%nat in
  if Nat.leb used MAX_C_IDENTIFIER_LEN then
    let stem_len := (MAX_C_IDENTIFIER_LEN - used)%nat in
    match slice name (length prefix) (length prefix + stem_len) with
    | Some stem => Some (prefix ++ stem ++ unstr "_h" ++ index ++ suffix)
    | None => None
    end
  else None.

(** The spellings of the identifiers of a text, in order. *)
Definition identifiers (text : bytes) : option (list bytes) :=
  match identifier_spans text with
  | None => None
  | Some spans => mapM (fun span => slice text (start span) (stop span)) spans
  end.

(** [runtime_identifiers] for the texts of the included headers. *)
Fixpoint runtime_identifiers (headers : list bytes) : option (gset bytes) :=
  match headers with
  | [] => Some ∅
  | header :: rest =>
      match identifiers header, runtime_identifiers rest with
      | Some names, Some others => Some (list_to_set names ∪ others)
      | _, _ => None
      end
  end.

(** The byte order of [str]. *)
Fixpoint bytes_leb (a b : bytes) : bool :=
  match a, b with
  | [], _ => true
  | _ :: _, [] => false
  | x :: xs, y :: ys =>
      (byte_N x <? byte_N y)%N || (Ascii.eqb x y && bytes_leb xs ys)
  end.
Definition bytes_le (a b : bytes) : Prop := bytes_leb a b = true.
#[export] Instance bytes_le_dec : RelDecision bytes_le := fun a b => decide (bytes_leb a b = true).

(** [BTreeMap::insert] on the entries in key order. *)
Fixpoint btree_insert (key value : bytes) (entries : list (bytes * bytes))
  : list (bytes * bytes) :=
  match entries with
  | [] => [(key, value)]
  | (k, v) :: rest =>
      if decide (key = k) then (key, value) :: rest
      else if bytes_leb key k then (key, value) :: entries
      else (k, v) :: btree_insert key value rest
  end.
Definition btree_contains (key : bytes) (entries : list (bytes * bytes)) : bool :=
  existsb (fun '(k, _) => bool_decide (k = key)) entries.

Record BoundedIdentifiers : Type := mkBounded { source : bytes; symbols_tsv : bytes }.

Section Bound.
(** [is_external] of the code: [external] or the runtime's identifiers. *)
Context (is_external : bytes -> bool).

(** The first loop: identifiers of exactly the maximum length are occupied,
    longer ones that are not external are oversized. *)
Definition classify_step (sets : gset bytes * gset bytes) (name : bytes)
  : gset bytes * gset bytes :=
  let '(occupied, oversized) := sets in
  if Nat.eqb (length name) MAX_C_IDENTIFIER_LEN then ({[name]} ∪ occupied, oversized)
  else if Nat.ltb MAX_C_IDENTIFIER_LEN (length name) && negb (is_external name)
       then (occupied, {[name]} ∪ oversized)
       else sets.

Definition classify (names : list bytes) : gset bytes * gset bytes :=
  fold_left classify_step names (∅, ∅).

(** The candidate loop for one name: the replacement and the next number. *)
Fixpoint replacement_loop (fuel : nat) (occupied : gset bytes) (symbols : list (bytes * bytes))
    (name : bytes) (sequence : Z) : option (bytes * Z) :=
  match fuel with
  | O => None
  | S fuel' =>
      match bounded_name name sequence with
      | None => None
      | Some candidate =>
          let sequence := sequence + 1 in
          if negb (bool_decide (candidate ∈ occupied))
             && negb (is_external candidate)
             && negb (btree_contains candidate symbols)
          then Some (candidate, sequence)
          else replacement_loop fuel' occupied symbols name sequence
      end
  end.

(** The loop over the sorted names. [fuel] bounds every candidate loop. *)
Fixpoint assign_loop (fuel : nat) (occupied : gset bytes) (names : list bytes)
    (symbols : list (bytes * bytes)) (sequence : Z) : option (list (bytes * bytes)) :=
  match names with
  | [] => Some symbols
  | name :: rest =>
      match replacement_loop fuel occupied symbols name sequence with
      | None => None
      | Some (replacement, sequence') =>
          assign_loop fuel occupied rest (btree_insert replacement name symbols) sequence'
      end
  end.
End Bound.

(** The closure [is_external]. *)
Definition external_name (external runtime : gset bytes) (name : bytes) : bool :=
  bool_decide (name ∈ external) || bool_decide (name ∈ runtime).

(** A row of the sidecar. *)
Definition symbol_row (entry : bytes * bytes) : bytes :=
  entry.1 ++ [tab] ++ entry.2 ++ [newline].

Definition renamed_map (symbols : list (bytes * bytes)) : gmap bytes bytes :=
  fold_left (fun renamed '(short, original) => <[original := short]> renamed) symbols ∅.

(** The candidates refused for a name are names of the text or external ones,
    which bounds the candidate loop. *)
Definition bound_identifiers (from_utf8_lossy : bytes -> bytes) (runtime : gset bytes)
    (text : bytes) (external : gset bytes) : option BoundedIdentifiers :=
  let is_external := external_name external runtime in
  match identifiers text with
  | None => None
  | Some names =>
      if existsb
           (fun name => Nat.ltb MAX_C_IDENTIFIER_LEN (length name) && negb (is_external name))
           names
      then
        let '(occupied, oversized) := classify is_external names in
        let sorted := merge_sort bytes_le (elements oversized) in
        let fuel := S (length names + size (external ∪ runtime)) in
        match assign_loop is_external fuel occupied sorted [] 0 with
        | None => None
        | Some symbols =>
            match rewrite_identifiers_in_place from_utf8_lossy text (renamed_map symbols) with
            | None => None
            | Some rewritten => Some (mkBounded rewritten (flat_map symbol_row symbols))
            end
        end
      else Some (mkBounded text [])
  end.

(** ** Characters of C string literals *)

(** [char::to_string]: the UTF-8 bytes of a scalar value. *)
Definition utf8_encode (c : Z) : bytes :=
  let byte z := ascii_of_N (Z.to_N z) in
  if c <? 128 then [byte c]
  else if c <? 2048 then [byte (192 + c / 64); byte (128 + c mod 64)]
  else if c <? 65536 then
    [byte (224 + c / 4096); byte (128 + c / 64 mod 64); byte (128 + c mod 64)]
  else
    [byte (240 + c / 262144); byte (128 + c / 4096 mod 64); byte (128 + c / 64 mod 64);
     byte (128 + c mod 64)].

(** [{:03o}] of a value below 512. *)
Definition octal3 (c : Z) : bytes := [digit_char (c / 64); digit_char (c / 8 mod 8); digit_char (c mod 8)].

Definition is_ascii_control (c : Z) : bool := (c <? 32) || (c =? 127).

Definition escaped_char (character : Z) : bytes :=
  if character =? 34 then [backslash; quote]
  else if character =? 92 then [backslash; backslash]
  else if character =? 10 then [backslash; "n"%char]
  else if character =? 9 then [backslash; "t"%char]
  else if character =? 13 then [backslash; "r"%char]
  else if is_ascii_control character then backslash :: octal3 character
  else utf8_encode character.
