(* ===== verification/NamesFacts.v ===== *)
(** * Source names as C names: decoding, shape and separation

    The tokens of an encoded name form a prefix code; [decode_path] and
    [decode_scoped] read the names back, so the encodings are injective. *)

From Stdlib Require Import ZArith Lia Ascii String.
From stdpp Require Import base list strings gmap.
From S2P Require Import Prelude Names.
Open Scope list_scope.

(** ** Text *)

Lemma starts_with_spec p v : starts_with p v = true <-> exists w, v = p ++ w.
Proof.
  revert v. induction p as [| a p IH]; intros v; simpl.
  - split; [by exists v | done].
  - destruct v as [| b v]; [split; [done | by intros [w ?]] |].
    rewrite andb_true_iff, IH, Ascii.eqb_eq. split.
    + intros [-> [w ->]]. by exists w.
    + intros [w [= -> ->]]. eauto.
Qed.

Lemma starts_with_app p w : starts_with p (p ++ w) = true.
Proof. apply starts_with_spec. by exists w. Qed.

Lemma ends_with_spec s v : ends_with s v = true <-> exists w, v = w ++ s.
Proof.
  unfold ends_with. rewrite starts_with_spec. split.
  - intros [w Hw]. exists (rev w). rewrite <- (rev_involutive v), Hw, rev_app_distr.
    by rewrite rev_involutive.
  - intros [w ->]. exists (rev w). apply rev_app_distr.
Qed.

Lemma contains_spec n v : contains n v = true <-> exists a b, v = a ++ n ++ b.
Proof.
  induction v as [| c v IH]; simpl; rewrite orb_true_iff.
  - rewrite starts_with_spec. split.
    + intros [[w Hw] | ?]; [| done]. by exists [], w.
    + intros (a & b & E). left. destruct a; [by exists b | done].
  - rewrite starts_with_spec, IH. split.
    + intros [[w Hw] | (a & b & ->)]; [by exists [], w | by exists (c :: a), b].
    + intros ([| x a] & b & E); [left; by exists b | right; simplify_eq/=; by exists a, b].
Qed.

Lemma contains_false n v : contains n v = false <-> forall a b, v <> a ++ n ++ b.
Proof.
  rewrite <- not_true_iff_false, contains_spec. split; [| naive_solver].
  intros H a b E. apply H. eauto.
Qed.

(** A text is cut at its first underscore in one way. *)
Definition no_underscore (v : bytes) : Prop := "_"%char ∉ v.

Lemma contains_underscore v : contains (unstr "_") v = false <-> no_underscore v.
Proof.
  rewrite contains_false. unfold no_underscore. split.
  - intros H (a & b & ->)%list_elem_of_split. by apply (H a b).
  - intros H a b ->. apply H. simpl. set_solver.
Qed.

Lemma cut_underscore a b x y :
  no_underscore a -> no_underscore b ->
  a ++ "_"%char :: x = b ++ "_"%char :: y -> a = b /\ x = y.
Proof.
  unfold no_underscore. revert b. induction a as [| c a IH]; intros [| d b] Ha Hb E; simpl in E.
  - by simplify_eq.
  - simplify_eq. set_solver.
  - simplify_eq. set_solver.
  - simplify_eq. destruct (IH b) as [-> ->]; [set_solver | set_solver | done | done].
Qed.

(** ** The prefix code *)

Inductive token : Type := Byte (b : ascii) | Separator | Nothing.

Definition encode_token (t : token) : bytes :=
  match t with
  | Byte b => encode_byte b
  | Separator => unstr "Zp"
  | Nothing => unstr "Ze"
  end.

Definition hex_value (c : ascii) : N :=
  if is_ascii_digit c then (byte_N c - 48)%N else (byte_N c - 55)%N.

Definition decode_token (text : bytes) : option (token * bytes) :=
  match text with
  | [] => None
  | b :: rest =>
      if negb (Ascii.eqb b "Z") then Some (Byte b, rest)
      else
        match rest with
        | c :: rest' =>
            if Ascii.eqb c "Z" then Some (Byte "Z", rest')
            else if Ascii.eqb c "u" then Some (Byte "_", rest')
            else if Ascii.eqb c "d" then Some (Byte ".", rest')
            else if Ascii.eqb c "l" then Some (Byte "[", rest')
            else if Ascii.eqb c "r" then Some (Byte "]", rest')
            else if Ascii.eqb c "p" then Some (Separator, rest')
            else if Ascii.eqb c "e" then Some (Nothing, rest')
            else
              match rest' with
              | h :: l :: rest'' => Some (Byte (ascii_of_N (16 * hex_value h + hex_value l)), rest'')
              | _ => None
              end
        | [] => None
        end
  end%char.

Lemma decode_token_encode t rest : decode_token (encode_token t ++ rest) = Some (t, rest).
Proof. destruct t as [[[] [] [] [] [] [] [] []] | |]; reflexivity. Qed.

(** The tokens of a text; each one takes a byte at least. *)
Fixpoint decode_tokens (fuel : nat) (text : bytes) : option (list token) :=
  match text, fuel with
  | [], _ => Some []
  | _ :: _, O => None
  | _ :: _, S fuel' =>
      match decode_token text with
      | Some (t, rest) => option_map (cons t) (decode_tokens fuel' rest)
      | None => None
      end
  end.

Definition encode_tokens (ts : list token) : bytes := flat_map encode_token ts.

Lemma encode_token_nonempty t : exists b rest, encode_token t = b :: rest.
Proof. destruct t as [[[] [] [] [] [] [] [] []] | |]; vm_compute; eauto. Qed.

Lemma decode_tokens_encode ts fuel :
  (length (encode_tokens ts) <= fuel)%nat -> decode_tokens fuel (encode_tokens ts) = Some ts.
Proof.
  revert fuel. induction ts as [| t ts IH]; intros fuel Hf; [by destruct fuel |].
  pose proof (decode_token_encode t (encode_tokens ts)) as Hd.
  change (encode_tokens (t :: ts)) with (encode_token t ++ encode_tokens ts) in *.
  rewrite length_app in Hf. destruct (encode_token_nonempty t) as (b & rest & Et).
  rewrite Et in Hd, Hf |- *. cbn [length app] in *. destruct fuel as [| fuel]; [lia |].
  cbn [decode_tokens]. rewrite Hd, IH by lia. done.
Qed.

(** Components between separators. *)
Fixpoint split_tokens (ts : list token) : list bytes :=
  match ts with
  | [] => [[]]
  | Separator :: ts' => [] :: split_tokens ts'
  | Nothing :: ts' => split_tokens ts'
  | Byte b :: ts' =>
      match split_tokens ts' with
      | c :: cs => (b :: c) :: cs
      | [] => [[b]]
      end
  end.

Definition tokens_components (ts : list token) : list bytes :=
  match ts with
  | [Nothing] => []
  | _ => split_tokens ts
  end.

Definition decode_encoded (text : bytes) : option (list bytes) :=
  option_map tokens_components (decode_tokens (length text) text).

(** The token sequence of a component list. *)
Fixpoint join_tokens (components : list bytes) : list token :=
  match components with
  | [] => []
  | [c] => map Byte c
  | c :: cs => map Byte c ++ Separator :: join_tokens cs
  end.

Definition component_tokens (components : list bytes) : list token :=
  match components with
  | [] => [Nothing]
  | _ => join_tokens components
  end.

Lemma encode_map_byte c : encode_tokens (map Byte c) = flat_map encode_byte c.
Proof. induction c as [| b c IH]; [done |]. cbn. by rewrite <- IH. Qed.

Lemma encode_tokens_app a b : encode_tokens (a ++ b) = encode_tokens a ++ encode_tokens b.
Proof. apply flat_map_app. Qed.

Lemma append_components_tokens components out index :
  components <> [] ->
  append_components out index components
  = out ++ (if Nat.eqb index 0 then [] else unstr "Zp") ++ encode_tokens (join_tokens components).
Proof.
  revert out index. induction components as [| c cs IH]; intros out index Hne; [done |].
  destruct cs as [| d ds].
  - cbn [append_components join_tokens]. unfold append_component. rewrite encode_map_byte.
    destruct (Nat.eqb index 0); simpl; by rewrite <- ?app_assoc.
  - change (append_components out index (c :: d :: ds)) with
      (append_components (append_component (if Nat.eqb index 0 then out else out ++ unstr "Zp") c)
         (S index) (d :: ds)).
    rewrite IH by done. unfold append_component.
    change (join_tokens (c :: d :: ds)) with (map Byte c ++ Separator :: join_tokens (d :: ds)).
    rewrite encode_tokens_app, encode_map_byte. simpl Nat.eqb. cbv iota.
    change (encode_tokens (Separator :: join_tokens (d :: ds)))
      with (unstr "Zp" ++ encode_tokens (join_tokens (d :: ds))).
    destruct (Nat.eqb index 0); by rewrite ?app_nil_l, <- ?app_assoc.
Qed.

Lemma encoded_components_tokens components :
  encoded_components components = ENCODED_PREFIX ++ encode_tokens (component_tokens components).
Proof.
  destruct components as [| c cs]; [done |]. unfold encoded_components.
  by rewrite append_components_tokens.
Qed.

Lemma split_map_byte c ts :
  split_tokens (map Byte c ++ ts)
  = match split_tokens ts with
    | d :: ds => (c ++ d) :: ds
    | [] => [c]
    end.
Proof.
  assert (Hne : forall l, split_tokens l <> []).
  { intros l. induction l as [| [| |] l IH]; simpl; try done. by destruct (split_tokens l). }
  induction c as [| b c IH]; simpl.
  - specialize (Hne ts). by destruct (split_tokens ts).
  - rewrite IH. by destruct (split_tokens ts).
Qed.

Lemma split_join components : components <> [] -> split_tokens (join_tokens components) = components.
Proof.
  induction components as [| c cs IH]; [done |]. intros _. destruct cs as [| d ds].
  - cbn [join_tokens]. rewrite <- (app_nil_r (map Byte c)), split_map_byte. simpl. by rewrite app_nil_r.
  - change (join_tokens (c :: d :: ds)) with (map Byte c ++ Separator :: join_tokens (d :: ds)).
    rewrite split_map_byte. cbn [split_tokens]. rewrite IH by done. by rewrite app_nil_r.
Qed.

Lemma join_tokens_not_nothing components : join_tokens components <> [Nothing].
Proof.
  destruct components as [| c [| d ds]]; simpl; [done | |].
  - destruct c; simpl; [done | by intros [=]].
  - destruct c; simpl; [done | by intros [=]].
Qed.

Lemma tokens_components_of components : tokens_components (component_tokens components) = components.
Proof.
  destruct components as [| c cs]; [done |]. unfold component_tokens.
  pose proof (join_tokens_not_nothing (c :: cs)) as Hn. pose proof (split_join (c :: cs)) as Hs.
  destruct (join_tokens (c :: cs)) as [| [| |] [| t ts]]; simpl in *; naive_solver.
Qed.

(** Decoding reverses the encoding of components. *)
Lemma decode_encoded_components components :
  exists payload,
    encoded_components components = ENCODED_PREFIX ++ payload
    /\ decode_encoded payload = Some components.
Proof.
  exists (encode_tokens (component_tokens components)). split; [apply encoded_components_tokens |].
  unfold decode_encoded. rewrite decode_tokens_encode by lia. simpl.
  by rewrite tokens_components_of.
Qed.

(** A component of [ident] alone is the one-component path. *)
Lemma append_component_single value :
  append_component ENCODED_PREFIX value = encoded_components [value].
Proof. done. Qed.

(** ** Shape of encoded text *)

Lemma encode_byte_words b : forallb is_ascii_alphanumeric (encode_byte b) = true.
Proof. destruct b as [[] [] [] [] [] [] [] []]; reflexivity. Qed.

Lemma encode_token_words t : forallb is_ascii_alphanumeric (encode_token t) = true.
Proof. destruct t as [b | |]; [apply encode_byte_words | done | done]. Qed.

Lemma encode_tokens_words ts : forallb is_ascii_alphanumeric (encode_tokens ts) = true.
Proof.
  induction ts as [| t ts IH]; [done |]. unfold encode_tokens in *. simpl.
  by rewrite forallb_app, encode_token_words, IH.
Qed.

Lemma words_no_underscore v : forallb is_ascii_alphanumeric v = true -> no_underscore v.
Proof.
  unfold no_underscore. rewrite forallb_forall. intros H Hin.
  apply list_elem_of_In, H in Hin. done.
Qed.

Lemma word_byte_alphanumeric v : forallb is_ascii_alphanumeric v = true -> forallb word_byte v = true.
Proof.
  rewrite !forallb_forall. intros H b Hb. unfold word_byte. by rewrite (H b Hb), orb_true_r.
Qed.

(** The encoded form: the prefix, then letters and digits only. *)
Lemma encoded_shape components :
  exists payload,
    encoded_components components = unstr "cI" ++ "_"%char :: payload
    /\ no_underscore payload /\ forallb word_byte payload = true
    /\ decode_encoded payload = Some components.
Proof.
  exists (encode_tokens (component_tokens components)).
  rewrite encoded_components_tokens. split_and!.
  - done.
  - apply words_no_underscore, encode_tokens_words.
  - apply word_byte_alphanumeric, encode_tokens_words.
  - unfold decode_encoded. rewrite decode_tokens_encode by lia. simpl.
    by rewrite tokens_components_of.
Qed.

Lemma encoded_components_inj a b : encoded_components a = encoded_components b -> a = b.
Proof.
  destruct (encoded_shape a) as (pa & -> & _ & _ & Da).
  destruct (encoded_shape b) as (pb & -> & _ & _ & Db).
  intros E. apply app_inv_head in E. by simplify_eq.
Qed.

(** ** Simple names *)

Lemma simple_identifier v : simple v = true -> v <> [] /\ identifier_bytes v = true.
Proof.
  unfold simple. rewrite !andb_true_iff. intros [[[H1 _] _] H2]. split; [by destruct v | done].
Qed.

Lemma simple_unprotected v p : simple v = true -> p ∈ PROTECTED -> starts_with p v = false.
Proof.
  unfold simple. rewrite !andb_true_iff, !negb_true_iff. intros [[[_ H] _] _] Hp.
  apply not_true_iff_false. intros Hs. apply not_true_iff_false in H. apply H.
  apply existsb_exists. exists p. split; [by apply list_elem_of_In | done].
Qed.

Lemma ENCODED_PREFIX_protected : ENCODED_PREFIX ∈ PROTECTED.
Proof. apply (bool_decide_unpack _). vm_compute. exact I. Qed.

Lemma simple_not_prefixed b : simple (ENCODED_PREFIX ++ b) = false.
Proof.
  apply not_true_iff_false. intros H.
  pose proof (simple_unprotected _ _ H ENCODED_PREFIX_protected) as Hp. by rewrite starts_with_app in Hp.
Qed.

Lemma identifier_words v : identifier_bytes v = true -> forallb word_byte v = true.
Proof. unfold identifier_bytes. by intros [? _]%andb_true_iff. Qed.

(** ** Reading names back *)

Definition decode_path (text : bytes) : option (list bytes) :=
  if starts_with ENCODED_PREFIX text then decode_encoded (drop (length ENCODED_PREFIX) text)
  else Some [text].

Lemma decode_path_encoded components : decode_path (encoded_components components) = Some components.
Proof.
  destruct (decode_encoded_components components) as (payload & -> & D).
  unfold decode_path. by rewrite starts_with_app, drop_app_length.
Qed.

Lemma decode_path_simple v : simple v = true -> decode_path v = Some [v].
Proof.
  intros Hs. unfold decode_path. rewrite simple_unprotected; [done | done | apply ENCODED_PREFIX_protected].
Qed.

Lemma decode_path_ident v : decode_path (ident v) = Some [v].
Proof.
  unfold ident. destruct (simple v) eqn:Hs; [by apply decode_path_simple |].
  by rewrite append_component_single, decode_path_encoded.
Qed.

Lemma decode_path_function_ident v : decode_path (function_ident v) = Some [v].
Proof.
  unfold function_ident. case_match; [apply decode_path_ident |].
  by rewrite append_component_single, decode_path_encoded.
Qed.

Lemma decode_path_path_ident components : decode_path (path_ident components) = Some components.
Proof.
  destruct components as [| c [| d ds]]; [apply decode_path_encoded | apply decode_path_ident |].
  apply decode_path_encoded.
Qed.

(** *** Generated namespaces *)

Definition cut (text : bytes) : option (bytes * bytes) := split_once "_" text.

Lemma split_once_cut a rest : no_underscore a -> cut (a ++ "_"%char :: rest) = Some (a, rest).
Proof.
  unfold no_underscore, cut. induction a as [| c a IH]; intros H; [done |]. simpl.
  destruct (Ascii.eqb_spec c "_"); [subst; set_solver |]. rewrite IH; [done | set_solver].
Qed.

(** The prefix, and the components after it. *)
Definition decode_scoped (text : bytes) : option (bytes * list bytes) :=
  match cut text with
  | None => None
  | Some (prefix, suffix) =>
      match cut suffix with
      | None => None
      | Some (scope, name) =>
          if bool_decide (scope = unstr "cI")
          then option_map (pair prefix) (decode_encoded name)
          else Some (prefix, [scope; name])
      end
  end.

Lemma readable_spec scope name :
  readable scope name = true ->
  simple scope = true /\ no_underscore scope /\ scope <> unstr "cI" /\ simple name = true
  /\ contains (unstr "__") name = false /\ contains DESC name = false
  /\ ends_with FRAME_T name = false.
Proof.
  unfold readable. rewrite !andb_true_iff, !negb_true_iff, bool_decide_eq_false.
  intros [[[[[[H1 H2] H3] H4] H5] H6] H7]. rewrite contains_underscore in H2. done.
Qed.

(** The two forms of the text after the prefix. *)
Lemma scoped_suffix_cases components :
  (exists scope name, components = [scope; name] /\ readable scope name = true
                      /\ scoped_suffix components = scope ++ "_"%char :: name)
  \/ scoped_suffix components = encoded_components components.
Proof.
  destruct components as [| a [| b [| c cs]]]; try (by right).
  simpl. destruct (readable a b) eqn:R; [| by right]. left. by exists a, b.
Qed.

Lemma decode_scoped_name prefix components :
  no_underscore prefix ->
  decode_scoped (scoped_name prefix components) = Some (prefix, components).
Proof.
  intros Hp. unfold decode_scoped, scoped_name. simpl.
  rewrite split_once_cut by done.
  destruct (scoped_suffix_cases components) as [(s & n & -> & R & ->) | ->].
  - apply readable_spec in R as (_ & Hs & Hc & _). rewrite split_once_cut by done.
    by rewrite bool_decide_eq_false_2.
  - destruct (encoded_shape components) as (payload & -> & Hn & _ & D).
    rewrite split_once_cut by (apply (bool_decide_unpack _); vm_compute; exact I).
    rewrite bool_decide_eq_true_2 by done. by rewrite D.
Qed.

(** ** Validity as a C identifier *)

Lemma encoded_identifier components : identifier_bytes (encoded_components components) = true.
Proof.
  destruct (encoded_shape components) as (payload & -> & _ & Hw & _).
  unfold identifier_bytes. rewrite forallb_app. simpl. by rewrite Hw.
Qed.

Lemma ident_identifier v : identifier_bytes (ident v) = true.
Proof.
  unfold ident. destruct (simple v) eqn:Hs; [by apply simple_identifier |].
  rewrite append_component_single. apply encoded_identifier.
Qed.

Lemma identifier_app a b :
  a <> [] -> identifier_bytes a = true -> forallb word_byte b = true -> identifier_bytes (a ++ b) = true.
Proof.
  unfold identifier_bytes. intros Hne [Ha Hd]%andb_true_iff Hb.
  rewrite forallb_app, Ha, Hb. by destruct a.
Qed.

Lemma scoped_suffix_words components : forallb word_byte (scoped_suffix components) = true.
Proof.
  destruct (scoped_suffix_cases components) as [(s & n & -> & R & ->) | ->].
  - apply readable_spec in R as (Hs & _ & _ & Hn & _). rewrite forallb_app. simpl.
    rewrite !identifier_words; [done | |]; by apply simple_identifier.
  - apply identifier_words, encoded_identifier.
Qed.

(** ** Derived names *)

(** The suffixes that generated code appends to a name. *)
Definition derived (suffix : bytes) : Prop :=
  suffix = FRAME_T
  \/ (exists rest, suffix = DESC ++ rest)
  \/ (exists rest, suffix = unstr "__" ++ rest).

Lemma derived_underscore s : derived s -> exists rest, s = "_"%char :: rest.
Proof. intros [-> | [[rest ->] | [rest ->]]]; vm_compute; eauto. Qed.

Lemma readable_not_derived scope name stem s :
  readable scope name = true -> derived s -> name <> stem ++ s.
Proof.
  intros (_ & _ & _ & _ & H1 & H2 & H3)%readable_spec D ->.
  destruct D as [-> | [[rest ->] | [rest ->]]].
  - apply not_true_iff_false in H3. apply H3, ends_with_spec. by exists stem.
  - rewrite contains_false in H2. by apply (H2 stem rest).
  - rewrite contains_false in H1. by apply (H1 stem rest).
Qed.

Lemma cI_no_underscore : no_underscore (unstr "cI").
Proof. apply (bool_decide_unpack _). vm_compute. exact I. Qed.

Lemma scoped_suffix_not_derived components components' s :
  derived s -> scoped_suffix components ++ s <> scoped_suffix components'.
Proof.
  intros D E. destruct (derived_underscore s D) as [srest Es].
  destruct (encoded_shape components) as (p & Ep & Np & _).
  destruct (encoded_shape components') as (p' & Ep' & Np' & _).
  destruct (scoped_suffix_cases components) as [(a & n & -> & R & F) | F];
    destruct (scoped_suffix_cases components') as [(a' & n' & -> & R' & F') | F'];
    rewrite F, F', ?Ep, ?Ep' in E; rewrite <- app_assoc in E; simpl app in E at 1.
  - pose proof (readable_spec _ _ R) as (_ & Ha & _). pose proof (readable_spec _ _ R') as (_ & Ha' & _).
    apply cut_underscore in E as [-> E]; [| done | done].
    by eapply (readable_not_derived a' n' n s).
  - pose proof (readable_spec _ _ R) as (_ & Ha & Hc & _).
    apply (cut_underscore a (unstr "cI")) in E as [-> _]; [done | done | apply cI_no_underscore].
  - pose proof (readable_spec _ _ R') as (_ & Ha' & Hc' & _).
    apply (cut_underscore (unstr "cI") a') in E as [<- _]; [done | apply cI_no_underscore | done].
  - apply (cut_underscore (unstr "cI") (unstr "cI")) in E as [_ E];
      [| apply cI_no_underscore | apply cI_no_underscore].
    subst s. unfold no_underscore in Np'. rewrite <- E in Np'. set_solver.
Qed.

(** ** Display names *)

Definition decode_hex_pair (h l : ascii) : ascii := ascii_of_N (16 * hex_value h + hex_value l).

Fixpoint decode_hex (text : bytes) : bytes :=
  match text with
  | h :: l :: rest => decode_hex_pair h l :: decode_hex rest
  | _ => []
  end.

Lemma decode_hex_byte b rest : decode_hex (hex_byte b ++ rest) = b :: decode_hex rest.
Proof. destruct b as [[] [] [] [] [] [] [] []]; reflexivity. Qed.

Lemma decode_hex_bytes v : decode_hex (flat_map hex_byte v) = v.
Proof.
  induction v as [| b v IH]; [done |]. cbn [flat_map]. by rewrite decode_hex_byte, IH.
Qed.

Definition decode_display (text : bytes) : bytes :=
  if starts_with RESERVED text then decode_hex (drop (length RESERVED + 2) text) else text.

Lemma decode_display_ident v : decode_display (display_ident v) = v.
Proof.
  unfold display_ident. destruct (display_simple v) eqn:Hs.
  - unfold display_simple in Hs. rewrite !andb_true_iff, negb_true_iff in Hs.
    destruct Hs as [[_ Hs] _]. unfold decode_display. by rewrite Hs.
  - cbv zeta. unfold decode_display. rewrite starts_with_app. apply decode_hex_bytes.
Qed.

(** * The identifiers of C text: scanning and rewriting

    [pieces] cuts a text into names and the gaps between them (literals,
    comments, numbers, single bytes).  The index scan of the code, the copying
    rewrite and the in-place rewrite are proved equal to functions of the
    pieces; a rewritten text scans into the rewritten pieces. *)

Open Scope nat_scope.

(** ** Pieces *)

Inductive piece : Type := Name (text : bytes) | Gap (text : bytes).

Definition body (p : piece) : bytes := match p with Name b | Gap b => b end.
Definition flatten (ps : list piece) : bytes := flat_map body ps.

Definition is_literal (b : ascii) : bool := Ascii.eqb b quote || Ascii.eqb b "'".

Definition opens (b c : ascii) (text : bytes) : bool :=
  match text with
  | x :: y :: _ => Ascii.eqb x b && Ascii.eqb y c
  | _ => false
  end.

(** The length of the piece a text starts with. *)
Definition chunk_len (text : bytes) : nat :=
  match text with
  | [] => 0
  | byte :: rest =>
      if is_literal byte then Nat.min (2 + literal_len byte rest) (length text)
      else if opens "/" "*" text then
        match comment_close (drop 2 text) with
        | Some offset => 4 + offset
        | None => length text
        end
      else if opens "/" "/" text then default (length text) (line_end text)
      else if word_byte byte then run_length word_byte text
      else 1
  end.

Definition starts_name (text : bytes) : bool :=
  match text with
  | [] => false
  | byte :: _ => word_byte byte && negb (is_ascii_digit byte)
  end.

Definition first_piece (text : bytes) : piece :=
  let b := take (chunk_len text) text in
  if starts_name text then Name b else Gap b.

Fixpoint pieces_fuel (fuel : nat) (text : bytes) : list piece :=
  match fuel, text with
  | S fuel', _ :: _ => first_piece text :: pieces_fuel fuel' (drop (chunk_len text) text)
  | _, _ => []
  end.

Definition pieces (text : bytes) : list piece := pieces_fuel (length text) text.

(** *** Lengths *)

Lemma scan_length_le p text : run_length p text <= length text.
Proof. induction text as [| b text IH]; simpl; [done |]. case_match; lia. Qed.

Lemma run_length_pos p b text : p b = true -> 0 < run_length p (b :: text).
Proof. intros H. simpl. rewrite H. lia. Qed.

Lemma comment_close_bound text offset :
  comment_close text = Some offset -> offset + 2 <= length text.
Proof.
  revert offset. induction text as [| b [| c text] IH]; intros offset H; try done.
  change ((if Ascii.eqb b "*" && Ascii.eqb c "/" then Some 0
           else option_map S (comment_close (c :: text))) = Some offset) in H.
  case_match; [simplify_eq/=; lia |].
  destruct (comment_close (c :: text)) as [o |]; simplify_eq/=. specialize (IH o eq_refl). simpl in IH. lia.
Qed.

Lemma line_end_bound text offset : line_end text = Some offset -> offset < length text.
Proof.
  revert offset. induction text as [| b text IH]; intros offset H; simpl in *; [done |].
  case_match; [simplify_eq; lia |]. destruct (line_end text) as [o |]; simplify_eq/=.
  specialize (IH o eq_refl). lia.
Qed.

Lemma opens_spec b c text : opens b c text = true <-> exists rest, text = b :: c :: rest.
Proof.
  destruct text as [| x [| y rest]]; simpl; [naive_solver | naive_solver |].
  rewrite andb_true_iff, !Ascii.eqb_eq. naive_solver.
Qed.

Lemma chunk_len_bound b text : 0 < chunk_len (b :: text) <= length (b :: text).
Proof.
  unfold chunk_len. destruct (is_literal b); [cbn [length]; lia |].
  destruct (opens "/" "*" (b :: text)) eqn:O.
  { apply opens_spec in O as [rest O]. rewrite O. cbn [drop length]. rewrite drop_0.
    destruct (comment_close rest) eqn:C; [apply comment_close_bound in C; lia | lia]. }
  destruct (opens "/" "/" (b :: text)) eqn:O2.
  { apply opens_spec in O2 as [rest E]. rewrite E.
    destruct (line_end ("/"%char :: "/"%char :: rest)) as [o |] eqn:L; [| simpl; lia].
    pose proof (line_end_bound _ _ L) as Hb. simpl in L.
    destruct (line_end rest); simplify_eq/=; simpl in *; lia. }
  destruct (word_byte b) eqn:W; [| simpl; lia].
  split; [by apply run_length_pos | apply scan_length_le].
Qed.

Lemma pieces_fuel_enough fuel text : length text <= fuel -> pieces_fuel fuel text = pieces text.
Proof.
  unfold pieces. remember (length text) as n eqn:En. revert fuel text En.
  induction n as [n IH] using lt_wf_ind. intros fuel [| b text] -> Hf.
  - by destruct fuel.
  - pose proof (chunk_len_bound b text) as Hb.
    destruct fuel as [| fuel]; [simpl in Hf; lia |].
    set (d := drop (chunk_len (b :: text)) (b :: text)).
    assert (Hd : length d < length (b :: text)) by (unfold d; rewrite length_drop; lia).
    change (pieces_fuel (S fuel) (b :: text)) with (first_piece (b :: text) :: pieces_fuel fuel d).
    change (pieces_fuel (length (b :: text)) (b :: text)) with
      (first_piece (b :: text) :: pieces_fuel (length text) d).
    f_equal. simpl length in *. rewrite (IH (length d)), (IH (length d) Hd (length text)); try done; lia.
Qed.

Lemma pieces_cons b text :
  pieces (b :: text)
  = first_piece (b :: text) :: pieces (drop (chunk_len (b :: text)) (b :: text)).
Proof.
  unfold pieces at 1. simpl length. cbn [pieces_fuel]. f_equal. apply pieces_fuel_enough.
  pose proof (chunk_len_bound b text). rewrite length_drop. simpl in *. lia.
Qed.

(** Induction along the pieces of a text. *)
Lemma pieces_ind (P : bytes -> Prop) :
  P [] ->
  (forall b text, P (drop (chunk_len (b :: text)) (b :: text)) -> P (b :: text)) ->
  forall text, P text.
Proof.
  intros Hn Hc text. remember (length text) as n eqn:En. revert text En.
  induction n as [n IH] using lt_wf_ind. intros [| b text] ->; [done |].
  apply Hc. eapply IH; [| done]. rewrite length_drop. pose proof (chunk_len_bound b text). lia.
Qed.

Lemma body_first text : body (first_piece text) = take (chunk_len text) text.
Proof. unfold first_piece. by destruct (starts_name text). Qed.

Lemma flatten_pieces text : flatten (pieces text) = text.
Proof.
  induction text as [| b text IH] using pieces_ind; [done |].
  rewrite pieces_cons. unfold flatten in *. cbn [flat_map]. rewrite IH, body_first.
  apply take_drop.
Qed.

(** ** The scan of the code *)

(** The names of a list of pieces that starts at [index]. *)
Fixpoint spans_at (index : nat) (ps : list piece) : list Span :=
  match ps with
  | [] => []
  | Name b :: ps' => mkSpan index (index + length b) :: spans_at (index + length b) ps'
  | Gap b :: ps' => spans_at (index + length b) ps'
  end.

(** One turn of the loop takes one piece. *)
Lemma next_identifier_step fuel text index b rest :
  index <= length text -> drop index text = b :: rest ->
  next_identifier_loop (S fuel) text index
  = (let stop := index + chunk_len (b :: rest) in
     if starts_name (b :: rest) then Some (Some (mkSpan index stop), stop)
     else next_identifier_loop fuel text stop).
Proof.
  intros Hi Hd. cbv zeta. cbn [next_identifier_loop]. rewrite Hd.
  assert (Hlen : length text = index + length (b :: rest)) by (rewrite <- Hd, length_drop; lia).
  unfold chunk_len. fold (is_literal b). cbn [starts_name]. destruct (is_literal b) eqn:Hl.
  { assert (word_byte b = false) as ->
      by (unfold is_literal in Hl; apply orb_true_iff in Hl as [->%Ascii.eqb_eq | ->%Ascii.eqb_eq]; done).
    simpl andb. cbv iota. f_equal. lia. }
  assert (Hop : forall c, (Ascii.eqb b "/" && bool_decide (head rest = Some c)) = opens "/" c (b :: rest)).
  { intros c. destruct rest as [| y rest']; simpl; [by rewrite andb_false_r |].
    destruct (Ascii.eqb_spec y c) as [-> |]; [by rewrite bool_decide_eq_true_2 |].
    rewrite bool_decide_eq_false_2 by congruence. done. }
  rewrite !Hop. destruct (opens "/" "*" (b :: rest)) eqn:O1.
  { apply opens_spec in O1 as [rest' E]. simplify_eq. simpl word_byte. cbn [andb]. cbv iota.
    rewrite <- drop_drop, Hd. cbn [drop]. rewrite !drop_0. destruct (comment_close rest'); f_equal; simpl in *; lia. }
  destruct (opens "/" "/" (b :: rest)) eqn:O2.
  { apply opens_spec in O2 as [rest' E]. simplify_eq. simpl word_byte. cbn [andb]. cbv iota.
    destruct (line_end _); f_equal; simpl in *; lia. }
  destruct (word_byte b) eqn:W; simpl andb; cbv iota; [| done].
  by destruct (is_ascii_digit b).
Qed.

Lemma next_identifier_pieces fuel text index :
  index <= length text -> length text - index < fuel ->
  match spans_at index (pieces (drop index text)) with
  | [] => next_identifier_loop fuel text index = Some (None, length text)
  | span :: rest =>
      next_identifier_loop fuel text index = Some (Some span, stop span)
      /\ rest = spans_at (stop span) (pieces (drop (stop span) text))
      /\ index <= start span /\ start span < stop span <= length text
  end.
Proof.
  revert index. induction fuel as [| fuel IH]; intros index Hi Hf; [lia |].
  destruct (drop index text) as [| b rest] eqn:Hd.
  { cbn. rewrite Hd. assert (length (drop index text) = 0) as H0 by (by rewrite Hd).
    rewrite length_drop in H0. do 2 f_equal. lia. }
  rewrite (next_identifier_step _ _ _ b rest) by done. cbv zeta.
  pose proof (chunk_len_bound b rest) as Hb.
  assert (Hlen : length text = index + length (b :: rest)) by (rewrite <- Hd, length_drop; lia).
  set (n := chunk_len (b :: rest)) in *.
  assert (Htl : length (take n (b :: rest)) = n) by (rewrite length_take; lia).
  assert (Hdrop : drop n (b :: rest) = drop (index + n) text) by (by rewrite <- Hd, drop_drop).
  rewrite pieces_cons. unfold first_piece. fold n. destruct (starts_name (b :: rest)) eqn:Hs.
  - cbn [spans_at]. rewrite Htl. cbn [start stop]. rewrite Hdrop. split_and!; try done; lia.
  - cbn [spans_at]. rewrite Htl, Hdrop. specialize (IH (index + n)).
    destruct (spans_at (index + n) (pieces (drop (index + n) text))) as [| span rest'].
    + apply IH; lia.
    + destruct IH as (-> & -> & ? & ? & ?); [lia | lia |]. split_and!; try done; lia.
Qed.

(** The scan from an index depends on the bytes after it and the length. *)
Lemma next_identifier_suffix text text' index :
  length text = length text' -> index <= length text -> drop index text = drop index text' ->
  next_identifier text index = next_identifier text' index.
Proof.
  intros Hl Hi Hd. unfold next_identifier. rewrite <- Hl.
  pose proof (next_identifier_pieces (S (length text - index)) text index) as H.
  pose proof (next_identifier_pieces (S (length text - index)) text' index) as H'.
  rewrite <- Hd in H'. destruct (spans_at index (pieces (drop index text))) as [| span rest].
  - rewrite H by lia. rewrite H' by lia. by rewrite Hl.
  - destruct H as [-> _]; [lia | lia |]. by destruct H' as [-> _]; [lia | lia |].
Qed.

Lemma identifier_spans_from fuel text index :
  index <= length text -> length text - index < fuel ->
  identifier_spans_loop fuel text index = Some (spans_at index (pieces (drop index text))).
Proof.
  revert index. induction fuel as [| fuel IH]; intros index Hi Hf; [lia |].
  cbn [identifier_spans_loop]. unfold next_identifier.
  pose proof (next_identifier_pieces (S (length text - index)) text index Hi) as H.
  destruct (spans_at index (pieces (drop index text))) as [| span rest].
  - rewrite H by lia. done.
  - destruct H as (-> & -> & ? & ? & ?); [lia |]. rewrite IH by lia. done.
Qed.

Lemma identifier_spans_pieces text : identifier_spans text = Some (spans_at 0 (pieces text)).
Proof. unfold identifier_spans. rewrite identifier_spans_from by lia. by rewrite drop_0. Qed.

(** Induction along the names of a text, with the slices the code takes. *)
Lemma slice_some text a b : a <= b <= length text -> slice text a b = Some (take (b - a) (drop a text)).
Proof.
  intros H. unfold slice. rewrite (proj2 (Nat.leb_le a b)), (proj2 (Nat.leb_le b _)) by lia. done.
Qed.

Lemma slice_app a b c : slice (a ++ b ++ c) (length a) (length a + length b) = Some b.
Proof.
  rewrite slice_some by (rewrite !length_app; lia). rewrite drop_app_length.
  replace (length a + length b - length a) with (length b) by lia. by rewrite take_app_length.
Qed.

Fixpoint names_of (ps : list piece) : list bytes :=
  match ps with
  | [] => []
  | Name b :: ps' => b :: names_of ps'
  | Gap _ :: ps' => names_of ps'
  end.

Lemma slices_names ps before :
  mapM (fun span => slice (before ++ flatten ps) (start span) (stop span)) (spans_at (length before) ps)
  = Some (names_of ps).
Proof.
  revert before. induction ps as [| [b | b] ps IH]; intros before; [done | |];
    specialize (IH (before ++ b)); rewrite length_app, <- app_assoc in IH;
    change (flatten (_ b :: ps)) with (b ++ flatten ps); cbn [spans_at names_of]; [| done].
  cbn [mapM]. cbn [start stop]. rewrite slice_app. simpl. by rewrite IH.
Qed.

Lemma identifiers_pieces text : identifiers text = Some (names_of (pieces text)).
Proof.
  unfold identifiers. rewrite identifier_spans_pieces.
  pose proof (slices_names (pieces text) []) as H. simpl in H. by rewrite flatten_pieces in H.
Qed.

(** ** Rewriting by pieces *)

Section Rewriting.
Context (rename : bytes -> option bytes).

Definition substitute (p : piece) : piece :=
  match p with
  | Name b => Name (default b (rename b))
  | Gap b => Gap b
  end.

Definition rewritten (text : bytes) : bytes := flatten (map substitute (pieces text)).

(** [out] and the text after [copied] are the rewritten pieces. *)
Lemma rewrite_loop_pieces ps before out cp :
  cp <= length before ->
  exists out' cp',
    rewrite_loop rename (before ++ flatten ps) (spans_at (length before) ps) out cp = Some (out', cp')
    /\ cp' <= length (before ++ flatten ps)
    /\ out' ++ drop cp' (before ++ flatten ps)
       = out ++ drop cp before ++ flatten (map substitute ps).
Proof.
  revert before out cp. induction ps as [| [b | b] ps IH]; intros before out cp Hc.
  - exists out, cp. simpl. rewrite app_nil_r. split_and!; [done | lia | by rewrite app_nil_r].
  - change (flatten (Name b :: ps)) with (b ++ flatten ps). cbn [spans_at rewrite_loop start stop].
    rewrite slice_app. cbn [map substitute].
    change (flatten (?p :: ?l)) with (body p ++ flatten l). cbn [body].
    destruct (rename b) as [r |]; simpl default.
    + rewrite slice_some by (rewrite length_app; lia).
      specialize (IH (before ++ b)
                    (out ++ take (length before - cp) (drop cp (before ++ b ++ flatten ps)) ++ r)
                    (length (before ++ b))).
      rewrite length_app, <- app_assoc in IH. destruct IH as (o & c & E & L & R); [lia |].
      exists o, c. split_and!; [exact E | exact L |]. rewrite R.
      rewrite (drop_ge (before ++ b)) by (rewrite length_app; lia).
      rewrite drop_app_le, take_app_le by (rewrite ?length_drop; lia).
      rewrite (take_ge (drop cp before)) by (rewrite length_drop; lia).
      simpl. by rewrite <- !app_assoc.
    + specialize (IH (before ++ b) out cp). rewrite length_app, <- app_assoc in IH.
      destruct IH as (o & c & E & L & R); [lia |]. exists o, c. split_and!; [exact E | exact L |].
      rewrite R, drop_app_le by lia. by rewrite <- app_assoc.
  - change (flatten (Gap b :: ps)) with (b ++ flatten ps). cbn [spans_at map substitute].
    change (flatten (Gap b :: ?l)) with (b ++ flatten l).
    specialize (IH (before ++ b) out cp). rewrite length_app, <- app_assoc in IH.
    destruct IH as (o & c & E & L & R); [lia |]. exists o, c. split_and!; [exact E | exact L |].
    rewrite R, drop_app_le by lia. by rewrite <- app_assoc.
Qed.

Lemma rewrite_identifiers_pieces text : rewrite_identifiers text rename = Some (rewritten text).
Proof.
  unfold rewrite_identifiers. rewrite identifier_spans_pieces.
  destruct (rewrite_loop_pieces (pieces text) [] [] 0) as (out & cp & E & L & R); [done |].
  simpl in E, L, R. rewrite flatten_pieces in E, L, R. rewrite E.
  rewrite slice_some by lia. rewrite take_ge by (rewrite length_drop; lia).
  by rewrite R.
Qed.
End Rewriting.
