(* ===== verification/RewriteFacts.v ===== *)
(** * The in-place rewrite and rescanning

    The in-place rewrite equals the copying one, keeps UTF-8 text valid, and a
    text whose names are replaced by names scans into the replaced names. *)

From Stdlib Require Import ZArith Lia Ascii String.
From stdpp Require Import base list strings gmap.
From S2P Require Import Prelude Names NamesFacts.
Open Scope nat_scope.
Open Scope list_scope.

(** ** The buffer *)

Lemma write_at_spec buf at_ data :
  at_ + length data <= length buf ->
  exists buf',
    write_at buf at_ data = Some buf' /\ length buf' = length buf
    /\ take (at_ + length data) buf' = take at_ buf ++ data
    /\ (forall k, at_ + length data <= k -> drop k buf' = drop k buf).
Proof.
  intros H. unfold write_at. rewrite (proj2 (Nat.leb_le _ _)) by done.
  exists (take at_ buf ++ data ++ drop (at_ + length data) buf). split_and!.
  - done.
  - rewrite !length_app, length_take, length_drop. lia.
  - rewrite app_assoc, take_app_length'; [done |]. rewrite length_app, length_take. lia.
  - intros k Hk. rewrite app_assoc, drop_app_ge; rewrite length_app, length_take; [| lia].
    rewrite drop_drop. f_equal. lia.
Qed.

Lemma slice_suffix text text' cp a b :
  length text = length text' -> drop cp text = drop cp text' -> cp <= a ->
  slice text a b = slice text' a b.
Proof.
  intros Hl Hd Ha. unfold slice. rewrite Hl.
  replace (drop a text) with (drop a text'); [done |].
  replace a with (cp + (a - cp)) by lia. by rewrite <- !drop_drop, Hd.
Qed.

(** ** The in-place loop against the copying loop *)

Section InPlace.
Context (renamed : gmap bytes bytes).
Hypothesis shrinks : forall k v, renamed !! k = Some v -> length v <= length k.
Context (text : bytes).

(** The buffer holds the output so far, and the text from [cp] on. *)
Record holds (st : Rewrite) (out : bytes) (cp : nat) : Prop := {
  holds_length : length (buffer st) = length text;
  holds_copied : copied st = cp;
  holds_write : write st = length out;
  holds_order : write st <= cp <= length text;
  holds_out : take (write st) (buffer st) = out;
  holds_rest : drop cp (buffer st) = drop cp text
}.

Lemma rewrite_step_holds st out cp span name :
  holds st out cp -> cp <= start span <= stop span -> stop span <= length text ->
  slice text (start span) (stop span) = Some name ->
  match renamed !! name with
  | None => rewrite_step renamed span st = Some st
  | Some r =>
      exists gap st',
        slice text cp (start span) = Some gap
        /\ rewrite_step renamed span st = Some st'
        /\ holds st' (out ++ gap ++ r) (stop span)
  end.
Proof.
  intros [Hl Hc Hw Ho Hout Hr] Hs Hst Hn. unfold rewrite_step.
  rewrite (slice_suffix (buffer st) text cp) by (done || lia). rewrite Hn.
  destruct (renamed !! name) as [r |] eqn:Er; [| done].
  apply shrinks in Er. rewrite slice_some in Hn by lia. simplify_eq Hn. intros Hn'.
  assert (Hname : length name = stop span - start span).
  { rewrite <- Hn', length_take, length_drop. lia. }
  unfold copy_within. rewrite Hc, (slice_suffix (buffer st) text cp) by (done || lia).
  rewrite (slice_some text cp) by lia.
  set (gap := take (start span - cp) (drop cp text)).
  assert (Hg : length gap = start span - cp) by (unfold gap; rewrite length_take, length_drop; lia).
  destruct (write_at_spec (buffer st) (write st) gap) as (b1 & -> & L1 & T1 & D1); [lia |].
  replace (write st + (start span - cp)) with (write st + length gap) by lia.
  destruct (write_at_spec b1 (write st + length gap) r) as (b2 & -> & L2 & T2 & D2); [lia |].
  eexists gap, _. split_and!; [done | done |]. split; cbn [buffer write copied].
  - congruence.
  - done.
  - rewrite !length_app, Hw. lia.
  - lia.
  - rewrite T2, T1, Hout. by rewrite <- app_assoc.
  - rewrite D2, D1 by lia. replace (stop span) with (cp + (stop span - cp)) by lia.
    by rewrite <- !drop_drop, Hr.
Qed.

Lemma rewrite_in_place_loop_holds fuel read st out cp :
  holds st out cp -> cp <= read <= length text -> length text - read < fuel ->
  exists st' out' cp',
    rewrite_in_place_loop fuel renamed read st = Some st'
    /\ rewrite_loop (fun name => renamed !! name) text
         (spans_at read (pieces (drop read text))) out cp = Some (out', cp')
    /\ holds st' out' cp'.
Proof.
  revert read st out cp. induction fuel as [| fuel IH]; intros read st out cp H Hr Hf; [lia |].
  cbn [rewrite_in_place_loop].
  assert (Hsuf : drop read (buffer st) = drop read text).
  { replace read with (cp + (read - cp)) by lia. by rewrite <- !drop_drop, (holds_rest _ _ _ H). }
  rewrite (next_identifier_suffix (buffer st) text) by (rewrite ?(holds_length _ _ _ H); done || lia).
  unfold next_identifier.
  pose proof (next_identifier_pieces (S (length text - read)) text read) as Hn.
  destruct (spans_at read (pieces (drop read text))) as [| span rest].
  { rewrite Hn by lia. by exists st, out, cp. }
  destruct Hn as (-> & -> & ? & ? & ?); [lia | lia |]. cbn [rewrite_loop].
  pose proof (slice_some text (start span) (stop span)) as Hs.
  rewrite Hs by lia. set (name := take _ _) in *.
  pose proof (rewrite_step_holds st out cp span name H) as Hstep.
  unfold bytes in *. destruct (renamed !! name) as [r |].
  - destruct Hstep as (gap & st' & -> & -> & Hst'); [lia | lia | apply Hs; lia |].
    apply IH; [done | lia | lia].
  - rewrite Hstep by (lia || apply Hs; lia). apply IH; [done | lia | lia].
Qed.
End InPlace.

(** ** UTF-8 *)

Lemma utf8_run_app e a b :
  utf8_run e (a ++ b) = match utf8_run e a with Some e' => utf8_run e' b | None => None end.
Proof.
  revert e. induction a as [| x a IH]; intros e; [done |]. cbn [app utf8_run].
  destruct e as [| [lo hi] e]; [destruct (utf8_lead x); [apply IH | done] |].
  destruct (in_range lo hi x); [apply IH | done].
Qed.

(** A continuation byte is never ASCII. *)
Definition continuations (e : list (N * N)) : Prop := Forall (fun r => (128 <= r.1)%N) e.

Lemma utf8_lead_continuations b e : utf8_lead b = Some e -> continuations e.
Proof.
  unfold utf8_lead, continuations, cont. intros H.
  repeat case_match; simplify_eq; repeat constructor; simpl; lia.
Qed.

Lemma utf8_run_continuations e text e' :
  continuations e -> utf8_run e text = Some e' -> continuations e'.
Proof.
  revert e. induction text as [| b text IH]; intros e He H; simpl in H; [by simplify_eq |].
  destruct e as [| [lo hi] e].
  - destruct (utf8_lead b) eqn:L; [| done]. eapply IH; [| done]. by eapply utf8_lead_continuations.
  - destruct (in_range lo hi b); [| done]. eapply IH; [| done]. by inversion He.
Qed.

Lemma word_byte_ascii b : word_byte b = true -> is_ascii b = true.
Proof. destruct b as [[] [] [] [] [] [] [] []]; vm_compute; done. Qed.

Lemma utf8_run_words text : forallb word_byte text = true -> utf8_run [] text = Some [].
Proof.
  induction text as [| b text IH]; [done |]. cbn [forallb utf8_run]. intros [Hb Ht]%andb_true_iff.
  unfold utf8_lead. by rewrite (word_byte_ascii b Hb), IH.
Qed.

Lemma utf8_run_name e text e' :
  continuations e -> text <> [] -> forallb word_byte text = true ->
  utf8_run e text = Some e' -> e = [] /\ e' = [].
Proof.
  intros He Hne Hw H. destruct e as [| [lo hi] e].
  - rewrite utf8_run_words in H by done. by simplify_eq.
  - exfalso. destruct text as [| b text]; [done |]. simpl in Hw, H.
    apply andb_true_iff in Hw as [Hb _]. apply word_byte_ascii in Hb.
    unfold is_ascii in Hb. unfold in_range in H. apply N.ltb_lt in Hb.
    apply Forall_cons in He as [Hlo _]. simpl in Hlo.
    rewrite (proj2 (N.leb_gt lo (byte_N b))) in H by lia. done.
Qed.

(** ** Names among the pieces *)

Definition is_name (b : bytes) : Prop := b <> [] /\ identifier_bytes b = true.

Definition well_named (p : piece) : Prop :=
  match p with Name b => is_name b | Gap b => b <> [] end.

Lemma take_run_length p text : forallb p (take (run_length p text) text) = true.
Proof.
  induction text as [| b text IH]; simpl; [done |].
  destruct (p b) eqn:Hb; simpl; [by rewrite Hb | done].
Qed.

Lemma starts_name_chunk text : starts_name text = true -> chunk_len text = run_length word_byte text.
Proof.
  destruct text as [| b text]; [done |]. unfold chunk_len. cbn [starts_name].
  intros [Hw _]%andb_true_iff. rewrite Hw.
  assert (is_literal b = false) as -> by (destruct b as [[] [] [] [] [] [] [] []]; vm_compute in *; done).
  assert (Ascii.eqb b "/" = false) as Hs by (destruct b as [[] [] [] [] [] [] [] []]; vm_compute in *; done).
  destruct text as [| c text]; cbn [opens]; [done |]. by rewrite Hs.
Qed.

Lemma first_piece_named b text : well_named (first_piece (b :: text)).
Proof.
  pose proof (chunk_len_bound b text) as Hb.
  assert (Hne : take (chunk_len (b :: text)) (b :: text) <> []).
  { destruct (chunk_len (b :: text)); [lia | done]. }
  unfold first_piece. destruct (starts_name (b :: text)) eqn:Hs; cbn [well_named]; [| done].
  split; [done |]. rewrite (starts_name_chunk _ Hs) in *. unfold identifier_bytes.
  rewrite take_run_length. simpl in Hs. apply andb_true_iff in Hs as [Hw Hd].
  cbn [run_length]. rewrite Hw. cbn [take]. done.
Qed.

Lemma pieces_named text : Forall well_named (pieces text).
Proof.
  induction text as [| b text IH] using pieces_ind; [constructor |].
  rewrite pieces_cons. constructor; [apply first_piece_named | done].
Qed.

Lemma names_of_named ps : Forall well_named ps -> Forall is_name (names_of ps).
Proof. induction 1 as [| [] ps]; simpl; [constructor | by constructor | done]. Qed.

(** *** Validity of the rewritten text *)

Lemma utf8_substitute (rename : bytes -> option bytes) ps e :
  (forall b r, rename b = Some r -> utf8_valid r = true) ->
  Forall well_named ps -> continuations e ->
  utf8_run e (flatten ps) = Some [] ->
  utf8_run e (flatten (map (substitute rename) ps)) = Some [].
Proof.
  intros Hv Hps. revert e. induction Hps as [| p ps Hp Hps IH]; intros e He H; [done |].
  change (flatten (p :: ps)) with (body p ++ flatten ps) in H.
  cbn [map]. change (flatten (?x :: ?l)) with (body x ++ flatten l).
  rewrite utf8_run_app in H |- *. destruct (utf8_run e (body p)) as [e' |] eqn:E; [| done].
  destruct p as [b | b]; cbn [body substitute] in *.
  - destruct Hp as [Hne Hid]. apply identifier_words in Hid.
    destruct (utf8_run_name e b e') as [-> ->]; [done | done | done | done |].
    destruct (rename b) as [r |] eqn:Er; simpl.
    + apply Hv in Er. unfold utf8_valid in Er. destruct (utf8_run [] r) as [[] |]; try done. by apply IH.
    + rewrite E. by apply IH.
  - rewrite E. apply IH; [| done]. by eapply utf8_run_continuations.
Qed.

Lemma utf8_valid_rewritten rename text :
  (forall b r, rename b = Some r -> utf8_valid r = true) ->
  utf8_valid text = true -> utf8_valid (rewritten rename text) = true.
Proof.
  unfold utf8_valid, rewritten. intros Hv H.
  rewrite (utf8_substitute rename); [done | done | apply pieces_named | constructor |].
  rewrite flatten_pieces. by destruct (utf8_run [] text) as [[] |].
Qed.

(** ** The two rewrites agree *)

Lemma in_place_rewritten lossy text renamed :
  utf8_valid text = true ->
  (forall k v, renamed !! k = Some v -> utf8_valid v = true) ->
  rewrite_identifiers_in_place lossy text renamed = Some (rewritten (fun name => renamed !! name) text).
Proof.
  intros Hu Hv. unfold rewrite_identifiers_in_place. destruct (existsb _ _) eqn:Ex.
  { apply rewrite_identifiers_pieces. }
  assert (Hs : forall k v, renamed !! k = Some v -> length v <= length k).
  { intros k v Hk. apply not_true_iff_false in Ex. destruct (Nat.le_gt_cases (length v) (length k)); [done |].
    exfalso. apply Ex, existsb_exists. exists (k, v). split; [| by apply Nat.ltb_lt].
    by apply list_elem_of_In, elem_of_map_to_list. }
  destruct (rewrite_in_place_loop_holds renamed Hs text (S (length text)) 0 (mkRewrite text 0 0) [] 0)
    as (st & out & cp & -> & Hloop & H); [by split; simpl; auto with lia | lia | lia |].
  destruct (rewrite_loop_pieces (fun name => renamed !! name) (pieces text) [] [] 0)
    as (out' & cp' & E & _ & R); [done |].
  simpl in E, R. rewrite flatten_pieces in E, R. rewrite drop_0 in Hloop. rewrite E in Hloop.
  simplify_eq Hloop. intros -> ->. clear Hloop.
  destruct H as [Hl Hc Hw Ho Hout Hr]. unfold copy_within.
  rewrite Hc, slice_some by lia. rewrite Hr, take_ge by (rewrite length_drop; lia).
  destruct (write_at_spec (buffer st) (write st) (drop cp text)) as (b1 & -> & L1 & T1 & _);
    [rewrite length_drop; lia |].
  rewrite length_drop in T1.
  replace (write st + length (buffer st) - cp) with (write st + (length text - cp)) by lia.
  rewrite T1, Hout, R. change (flatten (map _ (pieces text))) with (rewritten (fun n => renamed !! n) text).
  by rewrite utf8_valid_rewritten.
Qed.

(** ** Rescanning *)

(** Texts that end a piece alike: both end, or go on with the same byte, or
    with bytes of names. *)
Definition alike (x y : bytes) : Prop :=
  match x, y with
  | [], [] => True
  | a :: _, b :: _ => a = b \/ (word_byte a = true /\ word_byte b = true)
  | _, _ => False
  end.

Lemma literal_len_stable delimiter b rest rest' :
  S (literal_len delimiter (b ++ rest)) = length b ->
  literal_len delimiter (b ++ rest') = literal_len delimiter (b ++ rest).
Proof.
  remember (length b) as n eqn:En. revert b En.
  induction n as [n IH] using lt_wf_ind. intros [| c b] -> Hn; [simpl in Hn; lia |].
  cbn [app literal_len length] in *. destruct (Ascii.eqb c delimiter); [done |].
  destruct (Ascii.eqb c backslash).
  - destruct b as [| d b]; cbn [app length] in *; [destruct rest; lia |].
    by rewrite (IH (length b)) by lia.
  - by rewrite (IH (length b)) by lia.
Qed.

Lemma run_length_stable p b rest :
  forallb p b = true -> match rest with [] => True | c :: _ => p c = false end ->
  run_length p (b ++ rest) = length b.
Proof.
  induction b as [| c b IH]; simpl; intros Hb Hr; [destruct rest; simpl; [done | by rewrite Hr] |].
  apply andb_true_iff in Hb as [-> Hb]. by rewrite IH.
Qed.

Lemma run_length_stops p b rest :
  run_length p (b ++ rest) = length b ->
  forallb p b = true /\ match rest with [] => True | c :: _ => p c = false end.
Proof.
  induction b as [| c b IH]; simpl.
  - destruct rest as [| c rest]; simpl; [done |]. by destruct (p c).
  - destruct (p c); [| done]. intros H. apply IH. lia.
Qed.

Lemma comment_close_cons b c text :
  comment_close (b :: c :: text)
  = if Ascii.eqb b "*" && Ascii.eqb c "/" then Some 0 else option_map S (comment_close (c :: text)).
Proof. done. Qed.

Lemma comment_close_stable b rest rest' offset :
  comment_close (b ++ rest) = Some offset -> offset + 2 = length b ->
  comment_close (b ++ rest') = Some offset.
Proof.
  revert offset. induction b as [| c [| d b] IH]; intros offset H Hl; [simpl in Hl; lia.. |].
  cbn [app] in *. rewrite comment_close_cons in *. case_match; [done |].
  destruct (comment_close (d :: b ++ rest)) as [o |] eqn:E; [| done]. simplify_eq/=.
  rewrite (IH o); [done | done | simpl; lia].
Qed.

Lemma line_end_stable b rest rest' :
  alike rest rest' -> line_end (b ++ rest) = Some (length b) ->
  line_end (b ++ rest') = Some (length b).
Proof.
  intros Ha. induction b as [| c b IH]; simpl; intros H.
  - destruct rest as [| x rest], rest' as [| y rest']; simpl in *; try done.
    destruct (Ascii.eqb_spec x newline) as [-> |]; [| by destruct (line_end rest)].
    destruct Ha as [<- | [? _]]; done.
  - destruct (Ascii.eqb c newline); [done |].
    destruct (line_end (b ++ rest)) as [o |] eqn:E; simplify_eq/=. by rewrite IH.
Qed.

Lemma opens_alike x c byte b rest rest' :
  word_byte c = false -> alike rest rest' ->
  opens x c (byte :: b ++ rest') = opens x c (byte :: b ++ rest).
Proof.
  intros Hc Ha. destruct b as [| d b]; [| done].
  destruct rest as [| y rest], rest' as [| z rest']; simpl in *; try done.
  destruct Ha as [-> | [Hy Hz]]; [done |].
  destruct (Ascii.eqb_spec y c), (Ascii.eqb_spec z c); congruence.
Qed.

(** The first piece of a text does not see past an alike continuation. *)
Lemma chunk_len_stable byte b rest rest' :
  alike rest rest' ->
  chunk_len (byte :: b ++ rest) = S (length b) -> chunk_len (byte :: b ++ rest') = S (length b).
Proof.
  intros Ha. assert (Hnil : rest = [] -> rest' = []) by (intros ->; by destruct rest').
  unfold chunk_len. destruct (is_literal byte).
  { cbn [length]. rewrite !length_app. intros H.
    destruct (decide (S (literal_len byte (b ++ rest)) = length b)) as [E | E].
    - rewrite (literal_len_stable byte b rest rest') by done. lia.
    - assert (rest = []) as -> by (apply length_zero_iff_nil; lia). rewrite Hnil by done. done. }
  rewrite !(opens_alike _ _ byte b rest rest') by done.
  destruct (opens "/" "*" (byte :: b ++ rest)) eqn:O1.
  { destruct b as [| d b]; intros H.
    { apply opens_spec in O1 as [r E]. cbn in H. destruct (comment_close _) in H; [lia |].
      simplify_eq/=. }
    cbn [app drop] in *. rewrite !drop_0 in *.
    destruct (comment_close (b ++ rest)) as [o |] eqn:C.
    - rewrite (comment_close_stable b rest rest' o) by (done || (simpl in H; lia)). done.
    - assert (rest = []) as ->
        by (apply length_zero_iff_nil; cbn [length] in H; rewrite length_app in H; lia).
      rewrite Hnil by done. rewrite C. done. }
  destruct (opens "/" "/" (byte :: b ++ rest)) eqn:O2.
  { intros H. destruct (line_end (byte :: b ++ rest)) as [o |] eqn:L; simpl in H.
    - subst o. pose proof (line_end_stable (byte :: b) rest rest' Ha L) as E.
      cbn [app] in E. by rewrite E.
    - assert (rest = []) as -> by (apply length_zero_iff_nil; rewrite length_app in H; lia).
      rewrite Hnil by done. rewrite L. simpl. done. }
  destruct (word_byte byte) eqn:W; [| done]. intros H.
  destruct (run_length_stops word_byte (byte :: b) rest H) as [Hw Hr].
  apply (run_length_stable word_byte (byte :: b) rest' Hw).
  destruct rest as [| x rest], rest' as [| y rest']; simpl in *; try done.
  destruct Ha as [<- | [Hx _]]; congruence.
Qed.

Section Rescan.
Context (rename : bytes -> option bytes).
Hypothesis renames : forall b r, rename b = Some r -> is_name r.

Lemma rewritten_cons b text :
  rewritten rename (b :: text)
  = body (substitute rename (first_piece (b :: text)))
    ++ rewritten rename (drop (chunk_len (b :: text)) (b :: text)).
Proof. unfold rewritten. rewrite pieces_cons. done. Qed.

Lemma name_starts n rest : is_name n -> starts_name (n ++ rest) = true.
Proof.
  intros [Hne Hid]. destruct n as [| c n]; [done |]. unfold identifier_bytes in Hid. simpl in *.
  apply andb_true_iff in Hid as [[-> _]%andb_true_iff ->]. done.
Qed.

Lemma replaced_name n : is_name n -> is_name (default n (rename n)).
Proof. intros Hn. destruct (rename n) eqn:E; [by eapply renames | done]. Qed.

Lemma alike_rewritten text : alike text (rewritten rename text).
Proof.
  destruct text as [| b text]; [done |]. rewrite rewritten_cons.
  pose proof (first_piece_named b text) as Hn. pose proof (body_first (b :: text)) as Hb.
  pose proof (chunk_len_bound b text) as Hc. destruct (chunk_len (b :: text)) as [| n]; [lia |].
  cbn [take] in Hb. unfold first_piece in *.
  destruct (starts_name (b :: text)) eqn:Hs; cbn [body substitute well_named] in *; [| rewrite Hb; by left].
  apply replaced_name in Hn. simpl in Hs. apply andb_true_iff in Hs as [Hw _].
  pose proof (name_starts _ (rewritten rename (drop (S n) (b :: text))) Hn) as Hs'.
  destruct (_ ++ _) as [| c rest]; [done |]. simpl in *. apply andb_true_iff in Hs' as [Hw' _].
  by right.
Qed.

(** A first piece of its own length is the first piece of the text. *)
Lemma pieces_app x y :
  x <> [] -> chunk_len (x ++ y) = length x ->
  pieces (x ++ y) = (if starts_name (x ++ y) then Name x else Gap x) :: pieces y.
Proof.
  intros Hne Hc. destruct x as [| c x]; [done |]. cbn [app]. rewrite pieces_cons. unfold first_piece.
  cbn [app] in Hc. rewrite Hc. change (c :: x ++ y) with ((c :: x) ++ y).
  by rewrite take_app_length, drop_app_length.
Qed.

Lemma rescan text : pieces (rewritten rename text) = map (substitute rename) (pieces text).
Proof.
  induction text as [| b text IH] using pieces_ind; [done |].
  rewrite rewritten_cons, pieces_cons. cbn [map]. rewrite <- IH.
  pose proof (chunk_len_bound b text) as Hb. pose proof (first_piece_named b text) as Hn.
  set (d := drop _ _) in *. set (x := take (chunk_len (b :: text)) (b :: text)).
  assert (Hx : b :: text = x ++ d) by (unfold x, d; by rewrite take_drop).
  assert (Hlx : length x = chunk_len (b :: text)) by (unfold x; rewrite length_take; lia).
  pose proof (alike_rewritten d) as Ha. unfold first_piece in *. fold x in Hn |- *.
  destruct (starts_name (b :: text)) eqn:Hs; cbn [body substitute well_named] in *.
  - pose proof (starts_name_chunk _ Hs) as Hr. rewrite Hx, <- Hx, <- Hlx, Hx in Hr. symmetry in Hr.
    apply run_length_stops in Hr as [_ Hstop].
    pose proof (replaced_name x Hn) as Hrep. set (r := default x (rename x)) in *.
    assert (Hst : starts_name (r ++ rewritten rename d) = true) by (by apply name_starts).
    rewrite (pieces_app r); [rewrite Hst; done | apply Hrep |].
    rewrite starts_name_chunk by done. apply run_length_stable; [apply identifier_words, Hrep |].
    destruct d as [| e d'], (rewritten rename _) as [| z zs]; simpl in *; try done.
    destruct Ha as [<- | [? _]]; congruence.
  - destruct x as [| c x]; [done |]. injection Hx as <- Hx.
    rewrite pieces_app; [| done |].
    + cbn [app starts_name]. cbn [starts_name] in Hs. by rewrite Hs.
    + cbn [app length] in *. rewrite Hx in Hlx.
      apply (chunk_len_stable b x d (rewritten rename d) Ha). by rewrite <- Hlx.
Qed.
End Rescan.

(** Rewriting back: a renaming undone on every name restores the text. *)
Lemma rewritten_back rename back text :
  (forall b r, rename b = Some r -> is_name r) ->
  (forall b, b ∈ names_of (pieces text) -> default (default b (rename b)) (back (default b (rename b))) = b) ->
  rewritten back (rewritten rename text) = text.
Proof.
  intros Hr Hb. unfold rewritten at 1. rewrite rescan by done.
  rewrite <- (flatten_pieces text) at 2. revert Hb. generalize (pieces text).
  induction l as [| [b | b] ps IH]; intros Hb; [done | |];
    cbn [map substitute]; change (flatten (?x :: ?l)) with (body x ++ flatten l); cbn [body names_of] in *.
  - rewrite IH by (intros; apply Hb; set_solver). f_equal. apply Hb. set_solver.
  - by rewrite IH.
Qed.
