(* ===== verification/RegistryFacts.v ===== *)
(** * The registry of bounded names

    A bounded name is 32 bytes long, keeps the namespace prefix and the
    derived suffix, and determines its number; so the candidate loop ends and
    no two names share a replacement. *)

From Stdlib Require Import ZArith Lia Ascii String.
From stdpp Require Import base list strings gmap sorting.
From S2P Require Import Prelude Names NamesFacts RewriteFacts.
Open Scope list_scope.

(** ** Base 36 *)

Definition digit36 (c : ascii) : Z :=
  if is_ascii_digit c then Z.of_N (byte_N c) - 48 else Z.of_N (byte_N c) - 87.

Definition value36 (digits : bytes) : Z := foldr (fun c v => digit36 c + 36 * v)%Z 0%Z digits.

Lemma DIGITS_values :
  forallb (fun d => bool_decide (digit36 (nth d DIGITS "0"%char) = Z.of_nat d)
                    && is_ascii_alphanumeric (nth d DIGITS "0"%char)) (seq 0 36) = true.
Proof. vm_compute. reflexivity. Qed.

Lemma DIGITS_nth z :
  (0 <= z < 36)%Z ->
  digit36 (nth (Z.to_nat z) DIGITS "0"%char) = z
  /\ is_ascii_alphanumeric (nth (Z.to_nat z) DIGITS "0"%char) = true.
Proof.
  intros Hz. pose proof DIGITS_values as H. rewrite forallb_forall in H.
  specialize (H (Z.to_nat z)). rewrite andb_true_iff, bool_decide_eq_true in H.
  destruct H as [H1 H2]; [apply in_seq; lia |]. split; [lia | done].
Qed.

Lemma registry_digits_value fuel index :
  (0 <= index < 36 ^ (Z.of_nat fuel + 1))%Z -> value36 (registry_digits fuel index) = index.
Proof.
  revert index. induction fuel as [| fuel IH]; intros index H;
    pose proof (Z.mod_pos_bound index 36 ltac:(lia)) as Hm;
    pose proof (Z.div_mod index 36 ltac:(lia)) as Hd;
    destruct (DIGITS_nth (index mod 36) Hm) as [Hv _].
  - cbn [registry_digits value36 foldr]. simpl in H. rewrite Hv, Z.mod_small by lia. lia.
  - cbn [registry_digits]. destruct (Z.eqb_spec (index / 36) 0) as [E |].
    + cbn [value36 foldr]. lia.
    + change (value36 (?d :: ?l)) with (digit36 d + 36 * value36 l)%Z. rewrite IH; [lia |].
      split; [apply Z.div_pos; lia |]. apply Z.div_lt_upper_bound; [lia |].
      rewrite <- Z.pow_succ_r by lia. replace (Z.succ (Z.of_nat fuel + 1)) with (Z.of_nat (S fuel) + 1)%Z by lia.
      lia.
Qed.

Lemma registry_digits_words fuel index :
  (0 <= index)%Z -> forallb is_ascii_alphanumeric (registry_digits fuel index) = true.
Proof.
  revert index. induction fuel as [| fuel IH]; intros index H;
    destruct (DIGITS_nth (index mod 36)) as [_ Hw]; try (apply Z.mod_pos_bound; lia);
    cbn [registry_digits]; [cbn [forallb]; by rewrite Hw |].
  case_match; cbn [forallb]; rewrite Hw; [done |]. apply IH, Z.div_pos; lia.
Qed.

Lemma registry_digits_length fuel index k :
  (0 <= index < 36 ^ Z.of_nat (S k))%Z -> (length (registry_digits fuel index) <= S k)%nat.
Proof.
  revert index k. induction fuel as [| fuel IH]; intros index k H; cbn [registry_digits]; [simpl; lia |].
  destruct (Z.eqb_spec (index / 36) 0); [simpl; lia |]. cbn [length].
  assert (Hq : (0 < index / 36)%Z).
  { pose proof (Z.div_pos index 36 ltac:(lia) ltac:(lia)). lia. }
  destruct k as [| k]; [rewrite Z.div_small in Hq by (simpl in H; lia); lia |].
  apply le_n_S, IH. split; [lia |]. apply Z.div_lt_upper_bound; [lia |].
  rewrite <- Z.pow_succ_r by lia. replace (Z.succ (Z.of_nat (S k))) with (Z.of_nat (S (S k))) by lia.
  lia.
Qed.

Lemma log2_fuel index : (0 <= index)%Z -> (index < 36 ^ (Z.of_nat (Z.to_nat (Z.log2 index)) + 1))%Z.
Proof.
  intros H. rewrite Z2Nat.id by apply Z.log2_nonneg.
  destruct (Z.eq_dec index 0%Z) as [-> |]; [done |].
  pose proof (Z.log2_spec index ltac:(lia)) as [_ Hl]. rewrite <- Z.add_1_r in Hl.
  eapply Z.lt_le_trans; [exact Hl |]. apply Z.pow_le_mono_l. lia.
Qed.

Lemma registry_index_inj a b :
  (0 <= a)%Z -> (0 <= b)%Z -> registry_index a = registry_index b -> a = b.
Proof.
  intros Ha Hb E. unfold registry_index in E. apply (f_equal (@rev ascii)) in E.
  rewrite !rev_involutive in E. apply (f_equal value36) in E.
  rewrite !registry_digits_value in E; [done | split; [done | by apply log2_fuel].. ].
Qed.

Lemma registry_index_words index :
  (0 <= index)%Z -> forallb is_ascii_alphanumeric (registry_index index) = true.
Proof. intros H. unfold registry_index. rewrite forallb_rev. by apply registry_digits_words. Qed.

(** Thirteen digits are enough for 64 bits. *)
Lemma registry_index_length index :
  (0 <= index < 2 ^ 64)%Z -> (length (registry_index index) <= 13)%nat.
Proof.
  intros H. unfold registry_index. rewrite length_rev. apply registry_digits_length.
  split; [lia |]. eapply Z.lt_le_trans; [apply H |]. vm_compute. discriminate.
Qed.

(** ** Bounded names *)

Lemma find_starts prefixes name :
  exists rest, name = default [] (List.find (fun p => starts_with p name) prefixes) ++ rest.
Proof.
  destruct (List.find _ prefixes) as [p |] eqn:E; simpl; [| by exists name].
  apply find_some in E as [_ E]. by apply starts_with_spec.
Qed.

Lemma find_ends suffixes name :
  exists rest, name = rest ++ default [] (List.find (fun p => ends_with p name) suffixes).
Proof.
  destruct (List.find _ suffixes) as [p |] eqn:E; simpl; [| exists name; by rewrite app_nil_r].
  apply find_some in E as [_ E]. by apply ends_with_spec.
Qed.

Lemma name_prefix_length name : (length (name_prefix name) <= 5)%nat.
Proof.
  unfold name_prefix. destruct (List.find _ _) as [p |] eqn:E; simpl; [| lia].
  apply find_some in E as [E _]. unfold NAME_PREFIXES in E. simpl in E.
  decompose [or] E; subst; vm_compute; lia.
Qed.

Lemma name_suffix_cases name :
  name_suffix name = [] \/ name_suffix name = FRAME_T \/ name_suffix name = DESC.
Proof.
  unfold name_suffix. destruct (List.find _ _) as [p |] eqn:E; simpl; [| by left].
  apply find_some in E as [E _]. simpl in E. naive_solver.
Qed.

Lemma name_suffix_length name : (length (name_suffix name) <= 8)%nat.
Proof. destruct (name_suffix_cases name) as [-> | [-> | ->]]; vm_compute; lia. Qed.

(** The form of a bounded name: the beginning of the name, the number, the
    suffix. *)
Definition bounded_form (name : bytes) (sequence : Z) (keep : nat) : bytes :=
  take keep name ++ "_"%char :: ("h"%char :: registry_index sequence) ++ name_suffix name.

Lemma bounded_name_form name sequence candidate :
  bounded_name name sequence = Some candidate ->
  exists keep, candidate = bounded_form name sequence keep
    /\ (length (name_prefix name) <= keep <= length name)%nat
    /\ (keep + 2 + length (registry_index sequence) + length (name_suffix name) = 32)%nat.
Proof.
  unfold bounded_name. intros H. destruct (Nat.leb_spec
    (length (name_prefix name) + length (name_suffix name) + length (registry_index sequence) + 2)
    MAX_C_IDENTIFIER_LEN) as [Hu |]; [| done].
  unfold MAX_C_IDENTIFIER_LEN in *.
  set (n := (32 - (length (name_prefix name) + length (name_suffix name)
                   + length (registry_index sequence) + 2))%nat) in *.
  destruct (Nat.leb_spec (length (name_prefix name) + n) (length name)) as [Hl | Hl];
    [| unfold slice in H; rewrite (proj2 (Nat.leb_gt _ _) Hl), andb_false_r in H; done].
  rewrite slice_some in H by lia. simplify_eq.
  exists (length (name_prefix name) + n)%nat. split_and!; [| lia | lia | lia].
  destruct (find_starts NAME_PREFIXES name) as [rest Hr]. fold (name_prefix name) in Hr.
  unfold bounded_form. cbn [unstr list_ascii_of_string app].
  assert (Ht : take (length (name_prefix name) + n) name = name_prefix name ++ take n rest).
  { rewrite Hr at 2. apply take_app_add. }
  assert (Hd : drop (length (name_prefix name)) name = rest) by (rewrite Hr at 2; apply drop_app_length).
  rewrite Ht, Hd. replace (length (name_prefix name) + n - length (name_prefix name))%nat with n by lia.
  by rewrite <- app_assoc.
Qed.

Lemma bounded_name_some name sequence :
  (32 < length name)%nat -> (0 <= sequence < 2 ^ 64)%Z ->
  exists candidate, bounded_name name sequence = Some candidate.
Proof.
  intros Hn Hs. unfold bounded_name, MAX_C_IDENTIFIER_LEN.
  pose proof (registry_index_length _ Hs). pose proof (name_prefix_length name).
  pose proof (name_suffix_length name).
  rewrite (proj2 (Nat.leb_le _ _)) by lia. rewrite slice_some by lia. eauto.
Qed.

Lemma bounded_name_length name sequence candidate :
  bounded_name name sequence = Some candidate -> length candidate = 32%nat.
Proof.
  intros (keep & -> & Hk & Hl)%bounded_name_form. unfold bounded_form.
  rewrite length_app, length_take. cbn [length]. rewrite length_app. cbn [length]. lia.
Qed.

(** A name is cut at its last underscore in one way. *)
Lemma cut_last a b x y :
  no_underscore x -> no_underscore y ->
  a ++ "_"%char :: x = b ++ "_"%char :: y -> a = b /\ x = y.
Proof.
  intros Hx Hy E. apply (f_equal (@rev ascii)) in E. rewrite !rev_app_distr in E. simpl in E.
  rewrite <- !app_assoc in E. simpl in E.
  assert (Hr : forall l, no_underscore l -> no_underscore (rev l)).
  { unfold no_underscore. intros l Hl Hin. apply Hl. apply list_elem_of_In, in_rev, list_elem_of_In. done. }
  apply cut_underscore in E as [E1 E2]; [| by apply Hr | by apply Hr].
  apply (f_equal (@rev ascii)) in E1, E2. by rewrite !rev_involutive in E1, E2.
Qed.

Lemma number_no_underscore sequence :
  (0 <= sequence)%Z -> no_underscore ("h"%char :: registry_index sequence).
Proof.
  intros H. apply words_no_underscore. cbn [forallb]. by rewrite registry_index_words.
Qed.

(** The number can be read off whatever the suffixes are. *)
Lemma suffix_mismatch a x s :
  no_underscore ("h"%char :: x) -> s = FRAME_T \/ s = DESC ->
  forall b, a ++ "_"%char :: "h"%char :: x <> b ++ s.
Proof.
  intros Hx [-> | ->] b E.
  - change FRAME_T with (unstr "_frame" ++ "_"%char :: unstr "t") in E. rewrite app_assoc in E.
    apply cut_last in E as [_ E]; [done | done |]. apply (bool_decide_unpack _). vm_compute. exact I.
  - change DESC with ("_"%char :: unstr "desc") in E.
    apply cut_last in E as [_ E]; [done | done |]. apply (bool_decide_unpack _). vm_compute. exact I.
Qed.

Lemma bounded_name_number name name' s s' candidate :
  (0 <= s)%Z -> (0 <= s')%Z ->
  bounded_name name s = Some candidate -> bounded_name name' s' = Some candidate -> s = s'.
Proof.
  intros Hs Hs' (k & E & _)%bounded_name_form (k' & E' & _)%bounded_name_form.
  rewrite E in E'. clear E. unfold bounded_form in E'.
  pose proof (number_no_underscore s Hs) as Hn. pose proof (number_no_underscore s' Hs') as Hn'.
  change (?a ++ "_"%char :: ?b ++ ?c) with (a ++ ("_"%char :: b) ++ c) in E'. rewrite !app_assoc in E'.
  assert (Hdone : take k name ++ "_"%char :: "h"%char :: registry_index s
                  = take k' name' ++ "_"%char :: "h"%char :: registry_index s' -> s = s').
  { intros E. apply cut_last in E as [_ E]; [| done | done]. simplify_eq E.
    by apply registry_index_inj. }
  destruct (name_suffix_cases name) as [F | F], (name_suffix_cases name') as [F' | F'];
    rewrite ?F, ?F' in E'; rewrite ?app_nil_r in E'.
  - by apply Hdone.
  - exfalso. exact (suffix_mismatch _ _ _ Hn F' _ E').
  - exfalso. exact (suffix_mismatch _ _ _ Hn' F _ (eq_sym E')).
  - assert (name_suffix name = name_suffix name') as Heq.
    { destruct F as [F | F], F' as [F' | F']; rewrite F, F' in E' |- *; try done;
        apply (f_equal (@rev ascii)) in E'; rewrite !rev_app_distr in E'; vm_compute in E'; done. }
    rewrite Heq in E'. apply app_inv_tail in E'. by apply Hdone.
Qed.

Lemma bounded_name_is_name name sequence candidate :
  (0 <= sequence < 2 ^ 64)%Z -> is_name name -> bounded_name name sequence = Some candidate ->
  is_name candidate.
Proof.
  intros Hs [Hne Hid] (k & -> & Hk & Hl)%bounded_name_form.
  pose proof (registry_index_length _ Hs). pose proof (name_suffix_length name).
  unfold bounded_form. destruct name as [| c name]; [done |]. destruct k as [| k]; [lia |].
  cbn [take app]. split; [done |]. unfold identifier_bytes in *.
  apply andb_true_iff in Hid as [Hw Hd]. rewrite Hd, andb_true_r.
  destruct (find_ends NAME_SUFFIXES (c :: name)) as [stem Hst]. fold (name_suffix (c :: name)) in Hst.
  assert (Hsuf : forallb word_byte (name_suffix (c :: name)) = true).
  { rewrite Hst, forallb_app in Hw. by apply andb_true_iff in Hw as [_ ?]. }
  cbn [forallb] in *. apply andb_true_iff in Hw as [-> Hw].
  rewrite forallb_app. cbn [forallb]. rewrite forallb_app. cbn [forallb]. rewrite Hsuf.
  rewrite (word_byte_alphanumeric (registry_index sequence)) by (apply registry_index_words; lia).
  rewrite <- (take_drop k name), forallb_app in Hw. apply andb_true_iff in Hw as [-> _]. done.
Qed.

(** * Bounding the identifiers of a model

    The loops of [bound_identifiers]: which names are occupied and oversized,
    the assignment of replacements, and the sidecar. *)

(** ** The sorted entries *)

Lemma btree_insert_perm key value entries :
  key ∉ entries.*1 -> btree_insert key value entries ≡ₚ (key, value) :: entries.
Proof.
  induction entries as [| [k v] entries IH]; simpl; intros H; [done |].
  destruct (decide (key = k)) as [-> |]; [set_solver |].
  destruct (bytes_leb key k); [done |]. rewrite IH by set_solver. apply perm_swap.
Qed.

Lemma bytes_leb_total a b : bytes_leb a b = false -> bytes_leb b a = true.
Proof.
  revert b. induction a as [| x a IH]; intros [| y b]; simpl; try done.
  rewrite orb_false_iff, orb_true_iff, andb_true_iff. intros [Hlt He].
  apply N.ltb_ge in Hlt. destruct (Ascii.eqb_spec x y) as [-> | Hn].
  - right. split; [by rewrite Ascii.eqb_eq | by apply IH].
  - left. apply N.ltb_lt. apply N.le_lteq in Hlt as [? | E]; [done |]. exfalso. apply Hn.
    unfold byte_N in E. rewrite <- (ascii_N_embedding x), <- (ascii_N_embedding y). by rewrite E.
Qed.

Definition key_le (a b : bytes * bytes) : Prop := bytes_le a.1 b.1.

Lemma btree_insert_sorted key value entries :
  Sorted key_le entries -> Sorted key_le (btree_insert key value entries).
Proof.
  induction entries as [| [k v] entries IH]; simpl; intros H; [by repeat constructor |].
  apply Sorted_inv in H as [Hs Hh]. destruct (decide (key = k)) as [-> |].
  { constructor; [done |]. destruct Hh; constructor; done. }
  destruct (bytes_leb key k) eqn:E; [by repeat constructor |].
  constructor; [by apply IH |]. destruct entries as [| [k2 v2] entries]; simpl in *.
  - constructor. by apply bytes_leb_total.
  - destruct (decide (key = k2)) as [-> |]; [constructor; by apply bytes_leb_total |].
    destruct (bytes_leb key k2); constructor; [by apply bytes_leb_total | by inversion Hh].
Qed.

Lemma btree_contains_spec key entries : btree_contains key entries = true <-> key ∈ entries.*1.
Proof.
  unfold btree_contains. rewrite existsb_exists, list_elem_of_fmap. split.
  - intros ([k v] & Hin & Hk%bool_decide_eq_true). exists (k, v).
    split; [done | by apply list_elem_of_In].
  - intros ([k v] & -> & Hin). exists (k, v). split; [by apply list_elem_of_In |].
    by apply bool_decide_eq_true.
Qed.

(** ** Classification *)

Definition long_internal (is_external : bytes -> bool) (name : bytes) : bool :=
  Nat.ltb MAX_C_IDENTIFIER_LEN (length name) && negb (is_external name).

(** Membership after one more name, from the sets it leaves. *)
Ltac member_step IH sets E L :=
  let H1 := fresh "H1" in
  let H2 := fresh "H2" in
  destruct (IH sets) as [H1 H2]; cbn [fst snd] in *;
  split; intros n; [rewrite H1 | rewrite H2];
  rewrite ?elem_of_union, ?elem_of_singleton, elem_of_cons; clear - E L; naive_solver congruence.

Lemma classify_from is_external names sets :
  let result := fold_left (classify_step is_external) names sets in
  (forall n : bytes, n ∈ result.1 <-> n ∈ sets.1 \/ (n ∈ names /\ length n = MAX_C_IDENTIFIER_LEN))
  /\ (forall n : bytes, n ∈ result.2 <-> n ∈ sets.2 \/ (n ∈ names /\ long_internal is_external n = true)).
Proof.
  revert sets. induction names as [| x names IH]; intros [occupied oversized]; cbv zeta.
  - cbn [fold_left fst snd]. split; intros n; set_solver.
  - cbn [fold_left classify_step]. fold (long_internal is_external x).
    destruct (Nat.eqb_spec (length x) MAX_C_IDENTIFIER_LEN) as [E | E].
    + assert (L : long_internal is_external x = false) by (unfold long_internal; by rewrite E, Nat.ltb_irrefl).
      member_step IH ({[x]} ∪ occupied, oversized) E L.
    + destruct (long_internal is_external x) eqn:L.
      * member_step IH (occupied, {[x]} ∪ oversized) E L.
      * member_step IH (occupied, oversized) E L.
Qed.

Lemma classify_spec is_external names :
  (forall n : bytes, n ∈ (classify is_external names).1
             <-> n ∈ names /\ length n = MAX_C_IDENTIFIER_LEN)
  /\ (forall n : bytes, n ∈ (classify is_external names).2
                <-> n ∈ names /\ long_internal is_external n = true).
Proof.
  destruct (classify_from is_external names (∅, ∅)) as [H1 H2]. unfold classify.
  split; intros n; [rewrite H1 | rewrite H2];
    (split; [intros [[]%not_elem_of_empty | ?]; done | auto]).
Qed.

(** ** Assignment *)

Section Assign.
Context (is_external : bytes -> bool) (occupied ext : gset bytes).
Hypothesis Hext : forall x, is_external x = true <-> x ∈ ext.
#[local] Notation taken := (occupied ∪ ext).

(** [name] got [short] at a number below [sequence]. *)
Definition issued (sequence : Z) (short : bytes) : Prop :=
  exists name k, (0 <= k < sequence)%Z /\ bounded_name name k = Some short.

(** The names skipped so far are [skipped]. *)
Record assigned (symbols : list (bytes * bytes)) (skipped : gset bytes) (sequence : Z) : Prop := {
  assigned_count : sequence = Z.of_nat (length symbols + size skipped);
  assigned_skipped : skipped ⊆ taken;
  assigned_issued : forall d, d ∈ skipped -> issued sequence d;
  assigned_symbols : forall short name, (short, name) ∈ symbols ->
    short ∉ taken /\ exists k, (0 <= k < sequence)%Z /\ bounded_name name k = Some short;
  assigned_unique : NoDup symbols.*1;
  assigned_sorted : Sorted key_le symbols
}.

Lemma assigned_nil : assigned [] ∅ 0.
Proof.
  split; [by rewrite size_empty | apply empty_subseteq | | | constructor | constructor].
  - intros d []%not_elem_of_empty.
  - intros short name []%not_elem_of_nil.
Qed.

Lemma issued_fresh sequence short name :
  (0 <= sequence)%Z -> bounded_name name sequence = Some short -> ~ issued sequence short.
Proof.
  intros Hs Hb (n & k & Hk & Hb'). pose proof (bounded_name_number name n sequence k short).
  assert (sequence = k) by (eapply bounded_name_number; [| | done | done]; lia). lia.
Qed.

Lemma issued_mono a b short : (a <= b)%Z -> issued a short -> issued b short.
Proof. intros H (n & k & Hk & Hb). exists n, k. split; [lia | done]. Qed.

Lemma symbols_issued symbols skipped sequence short :
  assigned symbols skipped sequence -> short ∈ symbols.*1 -> issued sequence short.
Proof.
  intros H ([s n] & -> & Hin)%list_elem_of_fmap.
  destruct (assigned_symbols _ _ _ H _ _ Hin) as (_ & k & Hk & Hb). by exists n, k.
Qed.

Lemma assigned_range symbols skipped sequence :
  assigned symbols skipped sequence -> (size skipped <= size taken)%nat.
Proof. intros H. apply subseteq_size, (assigned_skipped _ _ _ H). Qed.

(** The candidate loop ends: every refusal is a taken name not met before. *)
Lemma replacement_loop_spec fuel symbols skipped sequence name :
  assigned symbols skipped sequence ->
  (size taken - size skipped < fuel)%nat ->
  (Z.of_nat (length symbols + size taken) < 2 ^ 64)%Z -> (32 < length name)%nat ->
  exists short skipped' sequence',
    replacement_loop is_external fuel occupied symbols name sequence = Some (short, sequence')
    /\ short ∉ symbols.*1
    /\ assigned (btree_insert short name symbols) skipped' sequence'.
Proof.
  revert skipped sequence. induction fuel as [| fuel IH]; intros skipped sequence H Hf Hb Hn; [lia |].
  pose proof (assigned_range _ _ _ H) as Hr. pose proof (assigned_count _ _ _ H) as Hc.
  destruct (bounded_name_some name sequence) as [c Ec]; [done | lia |].
  pose proof (issued_fresh sequence c name ltac:(lia) Ec) as Hfresh.
  assert (Hnew : c ∉ symbols.*1) by (intros Hin; apply Hfresh; by eapply symbols_issued).
  cbn [replacement_loop]. rewrite Ec. cbv zeta.
  assert (btree_contains c symbols = false) as ->
    by (apply not_true_iff_false; by rewrite btree_contains_spec).
  assert (Hst : issued (sequence + 1) c) by (exists name, sequence; split; [lia | done]).
  destruct (decide (c ∈ taken)) as [Ht | Ht].
  - assert (negb (bool_decide (c ∈ occupied)) && negb (is_external c) = false) as ->.
    { apply andb_false_iff. apply elem_of_union in Ht as [Ht | Ht%Hext].
      - left. by rewrite bool_decide_eq_true_2.
      - right. by rewrite Ht. }
    cbn [andb]. assert (Hnc : c ∉ skipped) by (intros Hin; apply Hfresh; by apply (assigned_issued _ _ _ H)).
    assert (Hsz : size ({[c]} ∪ skipped) = S (size skipped)).
    { rewrite size_union by set_solver. by rewrite size_singleton. }
    apply (IH ({[c]} ∪ skipped)); [| rewrite Hsz | done | done].
    + destruct H. split; try done.
      * rewrite Hsz. lia.
      * set_solver.
      * intros d [->%elem_of_singleton | Hd]%elem_of_union; [done |].
        apply (issued_mono sequence); [lia | auto].
      * intros short n Hin. destruct (assigned_symbols0 short n Hin) as (? & k & ? & ?).
        split; [done |]. exists k. split; [lia | done].
    + assert (size ({[c]} ∪ skipped) <= size taken)%nat
        by (apply subseteq_size; pose proof (assigned_skipped _ _ _ H); set_solver).
      lia.
  - assert (negb (bool_decide (c ∈ occupied)) && negb (is_external c) = true) as ->.
    { rewrite bool_decide_eq_false_2 by set_solver. cbn [negb andb]. apply negb_true_iff, not_true_iff_false.
      rewrite Hext. set_solver. }
    cbn [andb negb]. exists c, skipped, (sequence + 1)%Z. split_and!; [done | done |].
    pose proof (btree_insert_perm c name symbols Hnew) as Hp. destruct H. split.
    + rewrite (Permutation_length Hp). simpl. lia.
    + done.
    + intros d Hd. apply (issued_mono sequence); [lia | auto].
    + intros short n. rewrite Hp. intros [[= -> ->] | Hin]%elem_of_cons.
      * split; [done |]. exists sequence. split; [lia | done].
      * destruct (assigned_symbols0 short n Hin) as (? & k & ? & ?).
        split; [done |]. exists k. split; [lia | done].
    + rewrite Hp. simpl. by constructor.
    + by apply btree_insert_sorted.
Qed.

Lemma assign_loop_spec fuel names symbols skipped sequence :
  assigned symbols skipped sequence -> (size taken < fuel)%nat ->
  (Z.of_nat (length symbols + length names + size taken) < 2 ^ 64)%Z ->
  Forall (fun n => (32 < length n)%nat) names ->
  exists symbols' skipped' sequence',
    assign_loop is_external fuel occupied names symbols sequence = Some symbols'
    /\ assigned symbols' skipped' sequence'
    /\ symbols'.*2 ≡ₚ names ++ symbols.*2.
Proof.
  revert symbols skipped sequence.
  induction names as [| name names IH]; intros symbols skipped sequence H Hf Hb Hn.
  - exists symbols, skipped, sequence. done.
  - apply Forall_cons in Hn as [Hn Hns]. cbn [length assign_loop] in *.
    destruct (replacement_loop_spec fuel symbols skipped sequence name) as (c & sk & sq & E & Hnew & H');
      [done | lia | lia | done |].
    rewrite E.
    pose proof (btree_insert_perm c name symbols Hnew) as Hl.
    destruct (IH _ _ _ H') as (s' & sk' & sq' & E' & Hs' & Hp); [done | | done |].
    + rewrite (Permutation_length Hl). simpl. lia.
    + exists s', sk', sq'. split_and!; [done | done |]. rewrite Hp, Hl. simpl.
      by rewrite <- Permutation_middle.
Qed.
End Assign.

(** ** The map of replacements *)

Lemma renamed_map_from (symbols : list (bytes * bytes)) (m : gmap bytes bytes) short original :
  NoDup symbols.*2 ->
  fold_left (fun renamed '(short, original) => <[original := short]> renamed) symbols m !! original
    = Some short
  <-> (short, original) ∈ symbols \/ (original ∉ symbols.*2 /\ m !! original = Some short).
Proof.
  revert m. induction symbols as [| [s o] symbols IH]; intros m Hnd; cbn [fold_left].
  - set_solver.
  - apply NoDup_cons in Hnd as [Ho Hnd]. simpl in Ho. rewrite (IH _ Hnd). simpl.
    rewrite !elem_of_cons. destruct (decide (o = original)) as [-> | Hne].
    + rewrite lookup_insert_eq. split.
      * intros [Hin | [_ [= ->]]]; [| by left; left]. exfalso. apply Ho.
        apply list_elem_of_fmap. by exists (short, original).
      * intros [[[= ->] | Hin] | [Hnot _]]; [by right | by left | tauto].
    + rewrite lookup_insert_ne by done. split; [naive_solver |].
      intros [[[= -> ->] | Hin] | [Hnot Hm]]; [done | by left | right; tauto].
Qed.

Lemma renamed_map_spec (symbols : list (bytes * bytes)) short original :
  NoDup symbols.*2 -> renamed_map symbols !! original = Some short <-> (short, original) ∈ symbols.
Proof.
  intros H. unfold renamed_map. rewrite renamed_map_from by done. split; [| by left].
  intros [? | [_ Hm]]; [done |]. by rewrite lookup_empty in Hm.
Qed.

(** ** The sidecar *)

(** The rows of a sidecar: lines of two fields. *)
Definition read_symbols (tsv : bytes) : list (bytes * bytes) :=
  omap (split_once tab) (split_on newline tsv).

Lemma split_on_line c line rest :
  c ∉ line -> split_on c (line ++ c :: rest) = line :: split_on c rest.
Proof.
  induction line as [| b line IH]; simpl; intros H; [by rewrite Ascii.eqb_refl |].
  destruct (Ascii.eqb_spec b c); [set_solver |]. by rewrite IH by set_solver.
Qed.

Lemma split_once_field c a b : c ∉ a -> split_once c (a ++ c :: b) = Some (a, b).
Proof.
  induction a as [| x a IH]; simpl; intros H; [by rewrite Ascii.eqb_refl |].
  destruct (Ascii.eqb_spec x c); [set_solver |]. by rewrite IH by set_solver.
Qed.

Lemma words_not_byte c text : word_byte c = false -> forallb word_byte text = true -> c ∉ text.
Proof.
  rewrite forallb_forall. intros Hc H Hin. apply list_elem_of_In, H in Hin. congruence.
Qed.

Lemma read_symbols_rows symbols :
  Forall (fun e => forallb word_byte e.1 = true /\ forallb word_byte e.2 = true) symbols ->
  read_symbols (flat_map symbol_row symbols) = symbols.
Proof.
  unfold read_symbols. induction 1 as [| [s o] symbols [Hs Ho] _ IH]; [done |]. simpl in Hs, Ho.
  cbn [flat_map]. unfold symbol_row at 1. cbn [fst snd]. rewrite <- !app_assoc. simpl app.
  pose proof (words_not_byte newline s eq_refl Hs). pose proof (words_not_byte newline o eq_refl Ho).
  pose proof (words_not_byte tab s eq_refl Hs).
  replace (s ++ tab :: o ++ newline :: flat_map symbol_row symbols)
    with ((s ++ tab :: o) ++ newline :: flat_map symbol_row symbols) by (by rewrite <- app_assoc).
  rewrite split_on_line.
  - cbn [omap list_omap]. rewrite split_once_field by done. by rewrite IH.
  - rewrite not_elem_of_app, not_elem_of_cons. done.
Qed.
