(* ===== verification/NamesClaims.v ===== *)
(** * C names: the properties

    The encodings can be read back and stay apart; bounding the identifiers of
    a model is an injective renaming that the sidecar undoes. *)

From Stdlib Require Import ZArith Lia Ascii String.
From stdpp Require Import base list strings gmap sorting.
From S2P Require Import Prelude Names NamesFacts RewriteFacts RegistryFacts.
Open Scope list_scope.

(** ** Bounding *)

Section Bounding.
Context (lossy : bytes -> bytes) (runtime external : gset bytes) (text : bytes).
#[local] Notation ext := (external ∪ runtime).
#[local] Notation names := (names_of (pieces text)).

#[local] Notation external_name := (external_name external runtime).

Lemma external_name_spec x : external_name x = true <-> x ∈ ext.
Proof. unfold Names.external_name. rewrite orb_true_iff, !bool_decide_eq_true. set_solver. Qed.

(** What the registry of a text is. *)
Record registry (symbols : list (bytes * bytes)) : Prop := {
  registry_keys : NoDup symbols.*1;
  registry_names : NoDup symbols.*2;
  registry_sorted : Sorted key_le symbols;
  registry_covers : forall n, n ∈ symbols.*2 <-> n ∈ names /\ (32 < length n)%nat /\ n ∉ ext;
  registry_entry : forall short n, (short, n) ∈ symbols ->
    short ∉ names /\ short ∉ ext
    /\ exists k, (0 <= k < 2 ^ 64)%Z /\ bounded_name n k = Some short
}.

Lemma long_internal_spec n :
  long_internal external_name n = true <-> (32 < length n)%nat /\ n ∉ ext.
Proof.
  unfold long_internal, MAX_C_IDENTIFIER_LEN.
  rewrite andb_true_iff, Nat.ltb_lt, negb_true_iff, <- not_true_iff_false, external_name_spec. done.
Qed.

Lemma rewritten_same (rename : bytes -> option bytes) :
  (forall n, rename n = None) -> rewritten rename text = text.
Proof.
  intros H. unfold rewritten. rewrite <- (flatten_pieces text) at 2. f_equal.
  rewrite <- (map_id (pieces text)) at 2. apply map_ext. intros [b | b]; simpl; [by rewrite H | done].
Qed.

Hypothesis valid : utf8_valid text = true.
Hypothesis counts : (Z.of_nat (2 * length names + size ext) < 2 ^ 64)%Z.

Lemma assign_registry :
  existsb (long_internal external_name) names = true ->
  exists symbols,
    assign_loop external_name (S (length names + size ext)) (classify external_name names).1
      (merge_sort bytes_le (elements (classify external_name names).2)) [] 0 = Some symbols
    /\ registry symbols.
Proof.
  intros _. destruct (classify_spec external_name names) as [Ho Hl].
  set (occ := (classify external_name names).1) in *. set (over := (classify external_name names).2) in *.
  set (sorted := merge_sort bytes_le (elements over)).
  assert (Hp : sorted ≡ₚ elements over) by apply merge_sort_Permutation.
  assert (Hsub : forall s : gset bytes, (forall n : bytes, n ∈ s -> n ∈ names) -> (size s <= length names)%nat).
  { intros s Hs. apply submseteq_length, NoDup_submseteq; [apply NoDup_elements |].
    intros n Hn%elem_of_elements. auto. }
  assert (Hocc : (size occ <= length names)%nat) by (apply Hsub; intros n Hn; by apply Ho).
  assert (Hover : (length (elements over) <= length names)%nat) by (apply Hsub; intros n Hn; by apply Hl).
  assert (Htaken : (size (occ ∪ ext) <= size occ + size ext)%nat) by (rewrite size_union_alt; apply Nat.add_le_mono_l, subseteq_size; set_solver).
  destruct (assign_loop_spec external_name occ ext external_name_spec
              (S (length names + size ext)) sorted [] ∅ 0)
    as (symbols & sk & sq & E & H & Hs).
  - apply assigned_nil.
  - lia.
  - pose proof (Permutation_length Hp) as Hlen. cbn [length]. unfold bytes in *. lia.
  - apply Forall_forall. intros n Hn. apply long_internal_spec, Hl, elem_of_elements. by rewrite <- Hp.
  - exists symbols. split; [exact E |]. rewrite app_nil_r in Hs. rewrite Hp in Hs.
    destruct H as [Hc Hsk _ Hsy Hu Hso]. split; [done | | done | |].
    + rewrite Hs. apply NoDup_elements.
    + intros n. rewrite Hs, elem_of_elements, Hl, long_internal_spec. done.
    + intros short n Hin. destruct (Hsy short n Hin) as (Ht & k & Hk & Hb). split_and!.
      * intros Hn. apply Ht, elem_of_union_l, Ho. split; [done |]. by eapply bounded_name_length.
      * intros Hn. apply Ht. by apply elem_of_union_r.
      * exists k. split; [| done].
        assert (length symbols = length (elements over)) by (rewrite <- (length_fmap snd), Hs; done).
        pose proof (subseteq_size _ _ Hsk). lia.
Qed.

Lemma registry_nil : existsb (long_internal external_name) names = false -> registry [].
Proof.
  intros H. split; [apply NoDup_nil_2 | apply NoDup_nil_2 | constructor | | by intros ? ? []%not_elem_of_nil].
  intros n. split; [by intros ?%not_elem_of_nil |]. intros (Hn & Hl).
  apply not_true_iff_false in H. exfalso. apply H, existsb_exists.
  exists n. split; [by apply list_elem_of_In | by apply long_internal_spec].
Qed.

Lemma registry_named symbols short n :
  registry symbols -> (short, n) ∈ symbols -> is_name n /\ is_name short.
Proof.
  intros R Hin. assert (Hn : is_name n).
  { pose proof (names_of_named _ (pieces_named text)) as Hf. rewrite Forall_forall in Hf. apply Hf.
    apply (registry_covers _ R). apply list_elem_of_fmap. by exists (short, n). }
  split; [done |]. destruct (registry_entry _ R _ _ Hin) as (_ & _ & k & Hk & Hb).
  by eapply bounded_name_is_name.
Qed.

Lemma name_utf8 n : is_name n -> utf8_valid n = true.
Proof. intros [_ Hid%identifier_words]. unfold utf8_valid. by rewrite utf8_run_words. Qed.

(** The whole function: the text rewritten by a registry, and its rows. *)
Lemma bound_identifiers_registry :
  exists symbols,
    registry symbols
    /\ bound_identifiers lossy runtime text external
       = Some (mkBounded (rewritten (fun n => renamed_map symbols !! n) text)
                 (flat_map symbol_row symbols)).
Proof.
  unfold bound_identifiers. rewrite identifiers_pieces. cbv zeta.
  change (existsb _ names) with (existsb (long_internal external_name) names).
  destruct (existsb (long_internal external_name) names) eqn:Ex.
  - destruct (assign_registry Ex) as (symbols & E & R). exists symbols. split; [done |].
    destruct (classify external_name names) as [occ over]. cbn [fst snd] in E. rewrite E.
    rewrite in_place_rewritten; [done | done |]. intros k v Hk.
    apply (renamed_map_spec symbols v k (registry_names _ R)) in Hk.
    by apply name_utf8, (registry_named symbols v k R).
  - exists []. split; [by apply registry_nil |]. cbn [flat_map]. rewrite rewritten_same; [done |].
    intros n. apply lookup_empty.
Qed.

(** The name that stands for [n] in the output. *)
Definition short_name (symbols : list (bytes * bytes)) (n : bytes) : bytes :=
  default n (renamed_map symbols !! n).

Lemma short_name_cases symbols n :
  registry symbols ->
  (short_name symbols n = n /\ n ∉ symbols.*2) \/ (short_name symbols n, n) ∈ symbols.
Proof.
  intros R. unfold short_name. destruct (renamed_map symbols !! n) as [s |] eqn:E; simpl.
  - right. by apply renamed_map_spec in E; [| apply R].
  - left. split; [done |]. intros ([s n'] & -> & Hin)%list_elem_of_fmap.
    apply (renamed_map_spec symbols s n' (registry_names _ R)) in Hin. simpl in E. congruence.
Qed.

Lemma short_name_inj symbols n m :
  registry symbols -> n ∈ names -> m ∈ names -> short_name symbols n = short_name symbols m -> n = m.
Proof.
  intros R Hn Hm E.
  destruct (short_name_cases symbols n R) as [[En _] | Hin], (short_name_cases symbols m R) as [[Em _] | Him].
  - congruence.
  - destruct (registry_entry _ R _ _ Him) as [Hnot _]. rewrite <- E, En in Hnot. done.
  - destruct (registry_entry _ R _ _ Hin) as [Hnot _]. rewrite E, Em in Hnot. done.
  - rewrite E in Hin. pose proof (registry_keys _ R) as Hk.
    apply list_elem_of_lookup in Hin as [i Hi], Him as [j Hj].
    assert (i = j) as ->; [| congruence].
    eapply (NoDup_lookup symbols.*1); [done | |]; rewrite list_lookup_fmap; [by rewrite Hi | by rewrite Hj].
Qed.
End Bounding.

(** ** What bounding promises *)

Definition rename_piece (short : bytes -> bytes) (p : piece) : piece :=
  match p with
  | Name b => Name (short b)
  | Gap b => Gap b
  end.

(** The contract of [bound_identifiers]: literals, comments and numbers stay;
    short and external names stay; a long internal name becomes a C name of 32
    bytes that keeps its namespace and derived suffix and is new to the text,
    the externals and the runtime; distinct names stay distinct. *)
Record bounds_names (ext : gset bytes) (text : bytes) (short : bytes -> bytes) (out : bytes) : Prop := {
  bounds_pieces : pieces out = map (rename_piece short) (pieces text);
  bounds_kept : forall n, n ∈ names_of (pieces text) ->
    (length n <= MAX_C_IDENTIFIER_LEN)%nat \/ n ∈ ext -> short n = n;
  bounds_long : forall n, n ∈ names_of (pieces text) ->
    (MAX_C_IDENTIFIER_LEN < length n)%nat -> n ∉ ext ->
    length (short n) = MAX_C_IDENTIFIER_LEN /\ is_name (short n)
    /\ short n ∉ ext /\ short n ∉ names_of (pieces text)
    /\ starts_with (name_prefix n) (short n) = true /\ ends_with (name_suffix n) (short n) = true;
  bounds_injective : forall n m, n ∈ names_of (pieces text) -> m ∈ names_of (pieces text) ->
    short n = short m -> n = m
}.

Lemma bounded_name_ends name sequence candidate :
  bounded_name name sequence = Some candidate ->
  starts_with (name_prefix name) candidate = true /\ ends_with (name_suffix name) candidate = true.
Proof.
  intros (keep & -> & Hk & _)%bounded_name_form. unfold bounded_form. split.
  - destruct (find_starts NAME_PREFIXES name) as [rest Hr]. fold (name_prefix name) in Hr.
    assert (Ht : take keep name = name_prefix name ++ take (keep - length (name_prefix name)) rest).
    { revert Hk Hr. generalize (name_prefix name). intros p Hk ->.
      replace keep with (length p + (keep - length p))%nat at 1 by lia. apply take_app_add. }
    apply starts_with_spec. rewrite Ht, <- app_assoc. eauto.
  - apply ends_with_spec. rewrite app_comm_cons, app_assoc. eauto.
Qed.

Lemma registry_bounds external runtime text symbols :
  registry runtime external text symbols ->
  bounds_names (external ∪ runtime) text (short_name symbols)
    (rewritten (fun n => renamed_map symbols !! n) text).
Proof.
  intros R. split.
  - rewrite rescan; [done |]. intros b r Hb. apply renamed_map_spec in Hb; [| apply R].
    by apply (registry_named runtime external text symbols r b).
  - intros n Hn Hk. destruct (short_name_cases _ _ _ symbols n R) as [[E _] | Hin]; [done |].
    exfalso. assert (Hc : n ∈ symbols.*2) by (apply list_elem_of_fmap; by exists (short_name symbols n, n)).
    apply (registry_covers _ _ _ _ R) in Hc as (_ & Hl & He). unfold MAX_C_IDENTIFIER_LEN in Hk.
    destruct Hk; [lia | done].
  - intros n Hn Hl He. destruct (short_name_cases _ _ _ symbols n R) as [[_ Hnot] | Hin].
    { exfalso. apply Hnot, (registry_covers _ _ _ _ R). done. }
    destruct (registry_entry _ _ _ _ R _ _ Hin) as (H1 & H2 & k & Hk & Hb).
    destruct (bounded_name_ends _ _ _ Hb). split_and!; try done; [by eapply bounded_name_length |].
    by apply (registry_named runtime external text symbols _ n).
  - intros n m Hn Hm. by apply (short_name_inj runtime external text).
Qed.

(** *** Back from the sidecar *)

Lemma registry_words runtime external text symbols :
  registry runtime external text symbols ->
  Forall (fun e => forallb word_byte e.1 = true /\ forallb word_byte e.2 = true) symbols.
Proof.
  intros R. apply Forall_forall. intros [s n] Hin.
  destruct (registry_named _ _ _ _ _ _ R Hin) as [[_ Hn] [_ Hs]]. split; by apply identifier_words.
Qed.

Lemma find_back runtime external text symbols n :
  registry runtime external text symbols -> n ∈ names_of (pieces text) ->
  default (short_name symbols n)
    (snd <$> List.find (fun e => bool_decide (e.1 = short_name symbols n)) symbols) = n.
Proof.
  intros R Hn. destruct (List.find _ symbols) as [[s m] |] eqn:F; simpl.
  - apply find_some in F as [Hin Hs%bool_decide_eq_true]. apply list_elem_of_In in Hin. simpl in Hs. subst s.
    destruct (short_name_cases _ _ _ symbols n R) as [[En _] | Hin'].
    + rewrite En in Hin. by destruct (registry_entry _ _ _ _ R _ _ Hin) as [Hnot _].
    + assert (Hm : m ∈ names_of (pieces text)).
      { apply (registry_covers _ _ _ _ R). apply list_elem_of_fmap. by exists (short_name symbols n, m). }
      apply (short_name_inj runtime external text symbols); [done | done | done |].
      unfold short_name at 1. apply (renamed_map_spec symbols _ _ (registry_names _ _ _ _ R)) in Hin.
      by rewrite Hin.
  - destruct (short_name_cases _ _ _ symbols n R) as [[En _] | Hin']; [done |].
    apply list_elem_of_In in Hin'. pose proof (find_none _ _ F _ Hin') as Hnone. cbn [fst] in Hnone.
    by rewrite bool_decide_eq_true_2 in Hnone.
Qed.

(** The names that the suffixes of a function's descriptor and frame make. *)
Definition function_suffix (s : bytes) : Prop :=
  s = FRAME_T \/ s = DESC \/ exists rest, s = DESC ++ "_"%char :: rest.

Lemma function_suffix_derived s : function_suffix s -> derived s.
Proof.
  intros [-> | [-> | [rest ->]]]; [by left | right; left; exists []; by rewrite app_nil_r |].
  right. left. eauto.
Qed.

(** [function_ident] keeps a simple name without such a suffix, and encodes the
    others. *)
Lemma function_ident_cases v :
  (function_ident v = v /\ simple v = true /\ contains DESC v = false /\ ends_with FRAME_T v = false)
  \/ (function_ident v = encoded_components [v]
      /\ (simple v && negb (contains DESC v) && negb (ends_with FRAME_T v)) = false).
Proof.
  unfold function_ident, ident. rewrite append_component_single.
  destruct (contains DESC v), (ends_with FRAME_T v), (simple v); simpl; tauto.
Qed.

Lemma function_ident_apart v w s : function_suffix s -> function_ident v ++ s <> function_ident w.
Proof.
  intros Hs E. destruct (derived_underscore s (function_suffix_derived s Hs)) as [tl Etl].
  destruct (function_ident_cases w) as [(Ew & Sw & Cw & Fw) | [Ew Nw]]; rewrite Ew in E.
  - rewrite contains_false in Cw. apply not_true_iff_false in Fw. rewrite ends_with_spec in Fw.
    destruct Hs as [-> | [-> | [rest ->]]]; [apply Fw; by eexists | |].
    + apply (Cw (function_ident v) []). by rewrite app_nil_r.
    + by apply (Cw (function_ident v) ("_"%char :: rest)).
  - destruct (encoded_shape [w]) as (p & Ep & Np & _ & Dp). rewrite Ep in E.
    destruct (function_ident_cases v) as [(Ev & Sv & _) | [Ev _]]; rewrite Ev in E.
    + assert (Hc : no_underscore v).
      { unfold no_underscore. intros Hin. destruct (list_elem_of_split_l v "_"%char Hin) as (a & b & -> & Ha).
        rewrite <- app_assoc in E. simpl app in E at 1.
        apply (cut_underscore a (unstr "cI")) in E as [-> _]; [| done | apply cI_no_underscore].
        pose proof (simple_not_prefixed b) as Hp. simpl in Sv, Hp. congruence. }
      subst s. apply (cut_underscore v (unstr "cI")) in E as [-> E]; [| done | apply cI_no_underscore].
      destruct Hs as [Hs | [Hs | [rest Hs]]]; injection Hs as ->; unfold no_underscore in Np; subst p.
      * apply Np. apply (bool_decide_unpack _). vm_compute. exact I.
      * vm_compute in Dp. injection Dp as <-. vm_compute in Nw. done.
      * apply Np. simpl. set_solver.
    + destruct (encoded_shape [v]) as (q & Eq & _). rewrite Eq, Etl, <- app_assoc in E. simpl app in E at 1.
      apply (cut_underscore (unstr "cI") (unstr "cI")) in E as [_ E]; [| apply cI_no_underscore..].
      unfold no_underscore in Np. rewrite <- E in Np. set_solver.
Qed.

(** ** Claims *)

(** Every encoding of source names can be read back: the display form, a
    plain or function identifier, a path of components, and a name in a
    generated namespace with its prefix. *)
Theorem names_decode value components prefix :
  no_underscore prefix ->
  decode_display (display_ident value) = value
  /\ decode_path (ident value) = Some [value]
  /\ decode_path (function_ident value) = Some [value]
  /\ decode_path (path_ident components) = Some components
  /\ decode_scoped (scoped_name prefix components) = Some (prefix, components).
Proof.
  intros Hp. split_and!; [apply decode_display_ident | apply decode_path_ident
                         | apply decode_path_function_ident | apply decode_path_path_ident
                         | by apply decode_scoped_name].
Qed.

Lemma names_decode_witness :
  decode_scoped (scoped_name (unstr "G") [unstr "a.b"; unstr "Z_c"])
  = Some (unstr "G", [unstr "a.b"; unstr "Z_c"]).
Proof.
  apply (names_decode [] [unstr "a.b"; unstr "Z_c"] (unstr "G")).
  apply (bool_decide_unpack _). vm_compute. exact I.
Defined.

(** C18: generated names are C identifiers and stay apart: names of different
    namespaces or components differ, and a name with a derived suffix
    (descriptor, frame, array) is never a generated name, neither for scoped
    names nor for function identifiers. *)
Theorem names_apart prefix prefix' components components' suffix :
  is_name prefix -> no_underscore prefix -> no_underscore prefix' ->
  is_name (scoped_name prefix components)
  /\ (scoped_name prefix components = scoped_name prefix' components' ->
      prefix = prefix' /\ components = components')
  /\ (derived suffix -> scoped_name prefix components ++ suffix <> scoped_name prefix' components')
  /\ (forall f g, function_suffix suffix -> function_ident f ++ suffix <> function_ident g).
Proof.
  intros [Hne Hid] Hp Hp'. split_and!.
  - split; [by destruct prefix |]. apply identifier_app; [done | done |].
    cbn [unstr list_ascii_of_string app forallb]. apply scoped_suffix_words.
  - intros E. apply (f_equal decode_scoped) in E. rewrite !decode_scoped_name in E by done. by simplify_eq.
  - intros D E. unfold scoped_name in E. rewrite <- app_assoc in E.
    apply (cut_underscore prefix prefix') in E as [-> E]; [| done | done].
    by eapply scoped_suffix_not_derived.
  - intros f g D. by apply function_ident_apart.
Qed.

Lemma names_apart_witness :
  scoped_name (unstr "fn") [unstr "tb"; unstr "leaf"] ++ DESC
  <> scoped_name (unstr "fn") [unstr "tb"; unstr "leaf_desc"].
Proof.
  apply (names_apart (unstr "fn") (unstr "fn") [unstr "tb"; unstr "leaf"]
           [unstr "tb"; unstr "leaf_desc"] DESC).
  - split; [done | reflexivity].
  - apply (bool_decide_unpack _). vm_compute. exact I.
  - apply (bool_decide_unpack _). vm_compute. exact I.
  - right. left. by exists [].
Defined.

(** C13: the in-place rewrite returns, without panic, exactly the text that the
    copying rewrite returns, and both replace the names of the text and leave
    every other byte. *)
Theorem in_place_exact lossy text renamed :
  utf8_valid text = true -> (forall k v, renamed !! k = Some v -> utf8_valid v = true) ->
  rewrite_identifiers_in_place lossy text renamed = rewrite_identifiers text (fun n => renamed !! n)
  /\ rewrite_identifiers text (fun n => renamed !! n)
     = Some (flatten (map (rename_piece (fun n => default n (renamed !! n))) (pieces text))).
Proof.
  intros Hu Hv. rewrite in_place_rewritten, rewrite_identifiers_pieces by done. done.
Qed.

Lemma in_place_exact_witness :
  let text := unstr "int long_a; /* long_a */ char *s = 'long_a'; 12long_a(long_a)" in
  let renamed : gmap bytes bytes := {[ unstr "long_a" := unstr "a" ]} in
  rewrite_identifiers_in_place (fun b => b) text renamed
  = rewrite_identifiers text (fun n => renamed !! n).
Proof.
  apply in_place_exact; [reflexivity |]. intros k v Hk.
  apply lookup_singleton_Some in Hk as [_ <-]. reflexivity.
Defined.

(** C12: bounding the identifiers of a model text always returns, and the text it
    returns meets the contract [bounds_names]: an injective renaming of the long
    internal names to C names of at most 32 bytes, everything else untouched. *)
Theorem bound_contract lossy runtime text external :
  utf8_valid text = true ->
  (Z.of_nat (2 * length (names_of (pieces text)) + size (external ∪ runtime)) < 2 ^ 64)%Z ->
  exists out short,
    bound_identifiers lossy runtime text external = Some out
    /\ bounds_names (external ∪ runtime) text short (source out).
Proof.
  intros Hu Hc. destruct (bound_identifiers_registry lossy runtime external text Hu Hc) as (symbols & R & E).
  eexists _, (short_name symbols). split; [exact E |]. by apply registry_bounds.
Qed.

Lemma bound_contract_witness :
  exists out short,
    bound_identifiers (fun b => b) ∅ (unstr "int G_top_a_very_long_name_for_a_signal;") ∅ = Some out
    /\ bounds_names (∅ ∪ ∅) (unstr "int G_top_a_very_long_name_for_a_signal;") short (source out).
Proof. apply bound_contract; [reflexivity |]. vm_compute. reflexivity. Defined.

(** The sidecar lists the substitutions sorted by replacement, and rewriting
    the returned text by it gives the original text back. *)
Theorem bound_restored lossy runtime text external out :
  utf8_valid text = true ->
  (Z.of_nat (2 * length (names_of (pieces text)) + size (external ∪ runtime)) < 2 ^ 64)%Z ->
  bound_identifiers lossy runtime text external = Some out ->
  Sorted key_le (read_symbols (symbols_tsv out))
  /\ rewrite_identifiers (source out)
       (fun n => snd <$> List.find (fun e => bool_decide (e.1 = n)) (read_symbols (symbols_tsv out)))
     = Some text.
Proof.
  intros Hu Hc Ho. destruct (bound_identifiers_registry lossy runtime external text Hu Hc) as (symbols & R & E).
  rewrite E in Ho. injection Ho as <-. cbn [source symbols_tsv].
  rewrite read_symbols_rows by (by eapply registry_words).
  split; [apply R |]. rewrite rewrite_identifiers_pieces. f_equal. apply rewritten_back.
  - intros b r Hb. apply renamed_map_spec in Hb; [| apply R].
    by apply (registry_named runtime external text symbols r b).
  - intros n Hn. apply (find_back runtime external text); done.
Qed.

Lemma bound_restored_witness :
  exists out,
    bound_identifiers (fun b => b) ∅ (unstr "int G_top_a_very_long_name_for_a_signal;") ∅ = Some out
    /\ rewrite_identifiers (source out)
         (fun n => snd <$> List.find (fun e => bool_decide (e.1 = n)) (read_symbols (symbols_tsv out)))
       = Some (unstr "int G_top_a_very_long_name_for_a_signal;").
Proof.
  eexists. split; [vm_compute; reflexivity |].
  eapply (bound_restored (fun b => b) ∅ (unstr "int G_top_a_very_long_name_for_a_signal;") ∅);
    [reflexivity | vm_compute; reflexivity | vm_compute; reflexivity].
Defined.
