(* ===== verification/Text.v ===== *)
(** * Text as characters

    A Rust [str] as the list of its Unicode scalar values, with the methods of
    the standard library that the sources call on it. *)

From Stdlib Require Import ZArith Lia Ascii String.
From stdpp Require Import base list strings.
From S2P Require Import Prelude.
Open Scope Z_scope.
Open Scope list_scope.

(** A text as its Unicode scalar values. *)
Definition text : Type := list Z.
Definition chars (s : string) : text := map (fun b => Z.of_N (byte_N b)) (unstr s).

Definition between (lo hi c : Z) : bool := (lo <=? c) && (c <=? hi).

(** [char::is_whitespace]. *)
Definition is_whitespace (c : Z) : bool :=
  between 9 13 c || (c =? 32) || (c =? 133) || (c =? 160) || (c =? 5760) || between 8192 8202 c
  || (c =? 8232) || (c =? 8233) || (c =? 8239) || (c =? 8287) || (c =? 12288).

Fixpoint trim_start (t : text) : text :=
  match t with
  | c :: t' => if is_whitespace c then trim_start t' else t
  | [] => []
  end.
Definition trim_end (t : text) : text := rev (trim_start (rev t)).
Definition trim (t : text) : text := trim_end (trim_start t).

Definition alphabetic (c : Z) : bool := between 65 90 c || between 97 122 c.
Definition alphanumeric (c : Z) : bool := alphabetic c || between 48 57 c.

Definition is_empty (t : text) : bool := match t with [] => true | _ => false end.

(** [strip_suffix]. *)
Definition strip_suffix (suffix t : text) : option text :=
  let keep := (length t - length suffix)%nat in
  if bool_decide (drop keep t = suffix) then Some (take keep t) else None.

(** A run of decimal digits, and what follows. *)
Definition is_digit (c : Z) : bool := between 48 57 c.

Fixpoint split_digits (t : text) : text * text :=
  match t with
  | c :: t' => if is_digit c then let '(ds, rest) := split_digits t' in (c :: ds, rest) else ([], t)
  | [] => ([], [])
  end.

(** The number that digits denote. *)
Definition number (ds : text) : Z := fold_left (fun acc c => acc * 10 + (c - 48)) ds 0.

(** [str::parse] of digits into an integer type with maximum [max]. *)
Definition parse_number (max : Z) (ds : text) : option Z :=
  match ds with
  | [] => None
  | _ => if number ds <=? max then Some (number ds) else None
  end.
