(* ===== verification/Inactive.v ===== *)
(** * Inactive source regions (src/bin/llg_ls/inactive_ranges.rs)

    The language server dims the lines that the preprocessor would skip.  A
    lexical scan finds the conditional and define directives of each line
    outside comments and strings; an evaluator keeps the stack of open groups,
    the defined macros and the spans that are hidden.  A Rust [str] is the list
    of its characters; line numbers are [u32] with their wrap-around. *)

From Stdlib Require Import ZArith Lia Ascii String.
From stdpp Require Import base list strings gmap sorting.
From S2P Require Import Prelude Text.
Open Scope Z_scope.
Open Scope list_scope.

(** ** Identifiers *)

Definition is_identifier_start (ch : Z) : bool := alphabetic ch || (ch =? 95).
Definition is_identifier_char (ch : Z) : bool := alphanumeric ch || (ch =? 95) || (ch =? 36).
Definition is_identifier (t : text) : bool :=
  match t with
  | first :: rest => is_identifier_start first && forallb is_identifier_char rest
  | [] => false
  end.

(** The longest prefix of identifier characters, and what follows. *)
Fixpoint split_word (t : text) : text * text :=
  match t with
  | c :: t' =>
      if is_identifier_char c then let '(w, rest) := split_word t' in (c :: w, rest) else ([], t)
  | [] => ([], [])
  end.

(** ** Names *)

(** [entry.split('=').next()]. *)
Fixpoint before_equals (t : text) : text :=
  match t with
  | c :: t' => if c =? 61 then [] else c :: before_equals t'
  | [] => []
  end.

Definition external_define_names (defines : list text) : gset text :=
  list_to_set
    (omap (fun entry =>
             let name := trim (before_equals entry) in
             if is_identifier name then Some name else None) defines).

Definition scan_condition_name (rest : text) : option text :=
  let rest := trim_start rest in
  let rest := match rest with
              | 40 :: inside => trim_start inside
              | _ => rest
              end in
  match rest with
  | [] => None
  | first :: tail =>
      if is_identifier_start first then Some (first :: (split_word tail).1) else None
  end.

Definition scan_macro_name (rest : text) : option text := scan_condition_name rest.

Definition ends_with_continuation (t : text) : bool :=
  match rev (trim_end t) with
  | c :: _ => c =? 92
  | [] => false
  end.

(** ** The evaluator *)

Inductive Event : Type :=
| Ifdef (name : option text)
| Ifndef (name : option text)
| Elsif (name : option text)
| Else
| Endif
| Define (name : text)
| Undef (name : text)
| UndefineAll.

Record Frame : Type := mkFrame {
  parent_visible : bool;
  branch_taken : bool;
  segment_start : Z;
  segment_visible : bool
}.

(** The three [&mut] arguments of [apply_event]; the head of [stack] is the last
    frame of the [Vec]. *)
Record Evaluator : Type := mkEvaluator {
  defined : gset text;
  stack : list Frame;
  spans : list (Z * Z)
}.

Definition visible (frames : list Frame) : bool :=
  match frames with
  | [] => true
  | frame :: _ => segment_visible frame
  end.

Definition saturating_pred (line : Z) : Z := Z.max 0 (line - 1).

Definition close_segment (frame : Frame) (until : Z) (spans : list (Z * Z)) : list (Z * Z) :=
  if negb (segment_visible frame) && (segment_start frame <=? until)
  then spans ++ [(segment_start frame, until)] else spans.

Definition condition_holds (name : option text) (ifndef : bool) (defined : gset text) : bool :=
  match name with
  | None => false
  | Some name =>
      let holds := bool_decide (name ∈ defined) in
      if ifndef then negb holds else holds
  end.

Definition is_some_name (name : option text) : bool :=
  match name with Some _ => true | None => false end.

Definition open_group (name : option text) (ifndef : bool) (line : Z) (ev : Evaluator) : Evaluator :=
  let parent_visible := visible (stack ev) in
  let spans := match stack ev with
               | [] => spans ev
               | frame :: _ => close_segment frame (saturating_pred line) (spans ev)
               end in
  let condition := condition_holds name ifndef (defined ev) in
  let branch_visible := if is_some_name name then condition else true in
  let wins := parent_visible && branch_visible in
  mkEvaluator (defined ev)
    (mkFrame parent_visible (parent_visible && condition) line wins :: stack ev) spans.

Definition apply_event (event : Event) (line : Z) (ev : Evaluator) : Evaluator :=
  match event with
  | Ifdef name => open_group name false line ev
  | Ifndef name => open_group name true line ev
  | Elsif name =>
      match stack ev with
      | [] => ev
      | frame :: outer =>
          let spans := close_segment frame (saturating_pred line) (spans ev) in
          let matches := is_some_name name && condition_holds name false (defined ev)
                         || negb (is_some_name name) in
          let wins := parent_visible frame && negb (branch_taken frame) && matches in
          let taken := if matches && wins then true else branch_taken frame in
          mkEvaluator (defined ev) (mkFrame (parent_visible frame) taken line wins :: outer) spans
      end
  | Else =>
      match stack ev with
      | [] => ev
      | frame :: outer =>
          let spans := close_segment frame (saturating_pred line) (spans ev) in
          let wins := parent_visible frame && negb (branch_taken frame) in
          let taken := if wins then true else branch_taken frame in
          mkEvaluator (defined ev) (mkFrame (parent_visible frame) taken line wins :: outer) spans
      end
  | Endif =>
      match stack ev with
      | [] => ev
      | frame :: outer =>
          let spans := close_segment frame line (spans ev) in
          let outer := match outer with
                       | [] => []
                       | o :: rest =>
                           mkFrame (parent_visible o) (branch_taken o) (wrap_u32 (line + 1))
                             (segment_visible o) :: rest
                       end in
          mkEvaluator (defined ev) outer spans
      end
  | Define name =>
      if visible (stack ev) then mkEvaluator ({[name]} ∪ defined ev) (stack ev) (spans ev) else ev
  | Undef name =>
      if visible (stack ev) then mkEvaluator (defined ev ∖ {[name]}) (stack ev) (spans ev) else ev
  | UndefineAll =>
      if visible (stack ev) then mkEvaluator ∅ (stack ev) (spans ev) else ev
  end.

(** ** The scan

    Written over the state [S] and the operation [emit] that the directives
    act on; the code's instance is the evaluator with [apply_event]. *)

(** What follows a string literal, after its opening quote. *)
Fixpoint after_string (t : text) : text :=
  match t with
  | [] => []
  | c :: t' =>
      if c =? 92 then match t' with [] => [] | _ :: t'' => after_string t'' end
      else if c =? 34 then t'
      else after_string t'
  end.

(** The arms of the [match] on the word after a backtick. *)
Inductive Directive : Type :=
| Conditional (event : Event)
| DefineLine
| UndefLine
| UndefineAllWord
| Other.

Definition classify_word (word rest : text) : Directive :=
  if bool_decide (word = chars "ifdef") then Conditional (Ifdef (scan_condition_name rest))
  else if bool_decide (word = chars "ifndef") then Conditional (Ifndef (scan_condition_name rest))
  else if bool_decide (word = chars "elsif") then Conditional (Elsif (scan_condition_name rest))
  else if bool_decide (word = chars "else") then Conditional Else
  else if bool_decide (word = chars "endif") then Conditional Endif
  else if bool_decide (word = chars "define") then DefineLine
  else if bool_decide (word = chars "undef") then UndefLine
  else if bool_decide (word = chars "undefineall") then UndefineAllWord
  else Other.

Section Scan.
Context {S : Type} (emit : Event -> Z -> S -> S).

(** The state after the line: whether a block comment is open, and whether a
    define continues on the next line. *)
Record LineEnd : Type := mkLineEnd { comment : bool; continues : bool; state : S }.

(** The loop over one line from the character at its index on; every turn moves
    on, so the characters left are enough fuel. *)
Fixpoint scan_line (fuel : nat) (line : Z) (in_block_comment : bool) (rest : text) (s : S)
  : option LineEnd :=
  match fuel with
  | O => None
  | Datatypes.S fuel' =>
      match rest with
      | [] => Some (mkLineEnd in_block_comment false s)
      | ch :: tail =>
          if in_block_comment then
            match tail with
            | 47 :: tail' =>
                if ch =? 42 then scan_line fuel' line false tail' s
                else scan_line fuel' line true tail s
            | _ => scan_line fuel' line true tail s
            end
          else if (ch =? 47) && bool_decide (head tail = Some 47) then Some (mkLineEnd false false s)
          else if (ch =? 47) && bool_decide (head tail = Some 42) then
            scan_line fuel' line true (drop 1 tail) s
          else if ch =? 34 then scan_line fuel' line false (after_string tail) s
          else if negb (ch =? 96) then scan_line fuel' line false tail s
          else
            let '(word, after) := split_word tail in
            match word with
            | [] => scan_line fuel' line false (drop 1 after) s
            | _ =>
                match classify_word word after with
                | Conditional event => scan_line fuel' line false after (emit event line s)
                | DefineLine =>
                    let s := match scan_macro_name after with
                             | Some name => emit (Define name) line s
                             | None => s
                             end in
                    Some (mkLineEnd false (ends_with_continuation after) s)
                | UndefLine =>
                    let s := match scan_macro_name after with
                             | Some name => emit (Undef name) line s
                             | None => s
                             end in
                    Some (mkLineEnd false false s)
                | UndefineAllWord => scan_line fuel' line false after (emit UndefineAll line s)
                | Other => scan_line fuel' line false after s
                end
            end
      end
  end.

(** The lines after a define that are its continuation: [last] runs while a line
    ends with a backslash. *)
Fixpoint continuation_end (following : list text) : nat :=
  match following with
  | line :: rest => if ends_with_continuation line then Datatypes.S (continuation_end rest) else 0
  | [] => 0
  end.

Fixpoint scan_lines (fuel : nat) (lines : list text) (line_index : nat) (in_block_comment : bool) (s : S)
  : option S :=
  match fuel with
  | O => None
  | Datatypes.S fuel' =>
      match lines !! line_index with
      | None => Some s
      | Some line =>
          match scan_line (Datatypes.S (length line)) (wrap_u32 (Z.of_nat line_index)) in_block_comment line s with
          | None => None
          | Some result =>
              let skip_to :=
                if continues result then
                  let last := (line_index + 1 + continuation_end (drop (line_index + 1) lines))%nat in
                  Nat.min (last + 1) (length lines)
                else (line_index + 1)%nat in
              scan_lines fuel' lines (Nat.max skip_to (line_index + 1)) (comment result) (state result)
          end
      end
  end.
End Scan.

(** ** Lines and ranges *)

(** [split_lines]: [current] is what follows the separator, [line] the line read
    so far, reversed. *)
Fixpoint split_lines_from (current line : text) : list text :=
  match current with
  | [] => [rev line]
  | 13 :: rest =>
      match rest with
      | 10 :: rest' => rev line :: split_lines_from rest' []
      | _ => rev line :: split_lines_from rest []
      end
  | 10 :: rest => rev line :: split_lines_from rest []
  | c :: rest => split_lines_from rest (c :: line)
  end.

Definition split_lines (source : text) : list text := split_lines_from source [].

Record LineRange : Type := mkRange { start_line : Z; end_line : Z }.

Definition u32_max : Z := 2 ^ 32 - 1.

(** [merged] is held with its last range first. *)
Fixpoint merge_spans (sorted : list (Z * Z)) (merged : list LineRange) : list LineRange :=
  match sorted with
  | [] => rev merged
  | (start, stop) :: rest =>
      match merged with
      | last :: before =>
          if start <=? Z.min (end_line last + 1) u32_max
          then merge_spans rest (mkRange (start_line last) (Z.max (end_line last) stop) :: before)
          else merge_spans rest (mkRange start stop :: merged)
      | [] => merge_spans rest [mkRange start stop]
      end
  end.

(** The order of the sort key. *)
Definition span_le (a b : Z * Z) : Prop := a.1 < b.1 \/ (a.1 = b.1 /\ a.2 <= b.2).
#[export] Instance span_le_dec : RelDecision span_le.
Proof. intros a b. unfold span_le. apply _. Defined.

Definition normalize (spans : list (Z * Z)) : list LineRange := merge_spans (merge_sort span_le spans) [].

Definition inactive_line_ranges (source : text) (external_defines : list text)
  : option (list LineRange) :=
  let lines := split_lines source in
  let start := mkEvaluator (external_define_names external_defines) [] [] in
  match scan_lines apply_event (Datatypes.S (length lines)) lines 0 false start with
  | None => None
  | Some ev => Some (match stack ev with [] => normalize (spans ev) | _ => [] end)
  end.
