(* ===== verification/InactiveFacts.v ===== *)
(** * Inactive source regions: the evaluator's spans

    The scan is a list of directives; after any of them the spans and the open
    segment cover exactly the lines where the evaluator was inactive. *)

From Stdlib Require Import ZArith Lia Ascii String.
From stdpp Require Import base list strings gmap sorting.
From S2P Require Import Prelude Text Inactive.
Open Scope Z_scope.
Open Scope list_scope.

(** ** The scan as a list of directives *)

Definition record_event (e : Event) (line : Z) (evs : list (Event * Z)) : list (Event * Z) :=
  evs ++ [(e, line)].

Definition run (start : Evaluator) (evs : list (Event * Z)) : Evaluator :=
  fold_left (fun ev x => apply_event x.1 x.2 ev) evs start.

Lemma run_snoc start evs e line : run start (evs ++ [(e, line)]) = apply_event e line (run start evs).
Proof. unfold run. by rewrite fold_left_app. Qed.

(** A state map that follows the operation follows the scan. *)
Section Homomorphism.
Context {A B : Type} (emitA : Event -> Z -> A -> A) (emitB : Event -> Z -> B -> B) (f : A -> B).
Hypothesis Hf : forall e line a, f (emitA e line a) = emitB e line (f a).

Definition map_end (r : LineEnd (S := A)) : LineEnd (S := B) :=
  mkLineEnd (comment r) (continues r) (f (state r)).

Lemma scan_line_map fuel line c rest a :
  scan_line emitB fuel line c rest (f a) = option_map map_end (scan_line emitA fuel line c rest a).
Proof.
  revert c rest a. induction fuel as [| fuel IH]; intros c rest a; [done |].
  cbn [scan_line]. repeat (case_match; try done; rewrite <- ?Hf; try done; try apply IH).
Qed.

Lemma scan_lines_map fuel lines index c a :
  scan_lines emitB fuel lines index c (f a) = option_map f (scan_lines emitA fuel lines index c a).
Proof.
  revert index c a. induction fuel as [| fuel IH]; intros index c a; [done |].
  cbn [scan_lines]. destruct (lines !! index) as [line |]; [| done].
  rewrite scan_line_map. destruct (scan_line emitA _ _ _ _ _); simpl; [apply IH | done].
Qed.
End Homomorphism.

(** ** Totality *)

Lemma split_word_length t : (length (split_word t).2 <= length t)%nat.
Proof.
  induction t as [| c t IH]; simpl; [done |]. destruct (is_identifier_char c); simpl; [| lia].
  destruct (split_word t). simpl in *. lia.
Qed.

Lemma after_string_length t : (length (after_string t) <= length t)%nat.
Proof.
  remember (length t) as n eqn:E. revert t E. induction n as [n IH] using lt_wf_ind.
  intros [| c t] ->; simpl; [done |]. case_match.
  - destruct t as [| d t]; simpl; [lia |]. specialize (IH (length t) ltac:(simpl; lia) t eq_refl). lia.
  - case_match; [lia |]. specialize (IH (length t) ltac:(simpl; lia) t eq_refl). lia.
Qed.

Section Total.
Context {A : Type} (emit : Event -> Z -> A -> A).

Lemma scan_line_total fuel line c rest a :
  (length rest < fuel)%nat -> exists r, scan_line emit fuel line c rest a = Some r.
Proof.
  revert c rest a. induction fuel as [| fuel IH]; intros c rest a Hf; [lia |].
  cbn [scan_line]. destruct rest as [| ch tail]; [eauto |]. simpl in Hf.
  pose proof (split_word_length tail) as Hw. pose proof (after_string_length tail) as Hs.
  destruct (split_word tail) as [word after]. simpl in Hw.
  repeat (case_match; subst; try (by eauto); try (apply IH; simpl in *; rewrite ?length_drop; lia)).
Qed.

Lemma scan_lines_total fuel lines index c a :
  (length lines - index < fuel)%nat -> exists r, scan_lines emit fuel lines index c a = Some r.
Proof.
  revert index c a. induction fuel as [| fuel IH]; intros index c a Hf; [lia |].
  cbn [scan_lines]. destruct (lines !! index) as [line |] eqn:El; [| eauto].
  apply lookup_lt_Some in El.
  destruct (scan_line_total (Datatypes.S (length line)) (wrap_u32 (Z.of_nat index)) c line a)
    as [r ->]; [lia |].
  apply IH. unfold text in *. lia.
Qed.
End Total.

(** ** Lines of the directives *)

(** Every directive of a line is recorded with the number of that line. *)
Lemma scan_line_events fuel line c rest evs r :
  scan_line record_event fuel line c rest evs = Some r ->
  exists new, state r = evs ++ new /\ Forall (fun x => x.2 = line) new.
Proof.
  revert c rest evs. induction fuel as [| fuel IH]; intros c rest evs; [done |].
  assert (Hnone : exists new, evs = evs ++ new /\ Forall (fun x : Event * Z => x.2 = line) new)
    by (exists []; by rewrite app_nil_r).
  assert (Hone : forall e, exists new, record_event e line evs = evs ++ new
                                  /\ Forall (fun x : Event * Z => x.2 = line) new)
    by (intros e; exists [(e, line)]; split; [done | by repeat constructor]).
  assert (Hrec : forall c' rest' e, scan_line record_event fuel line c' rest' (record_event e line evs) = Some r ->
                 exists new, state r = evs ++ new /\ Forall (fun x => x.2 = line) new).
  { intros c' rest' e H. destruct (IH _ _ _ H) as (new & -> & Hnew). unfold record_event.
    exists ((e, line) :: new). rewrite <- app_assoc. split; [done | by constructor]. }
  cbn [scan_line]. intros H.
  repeat (case_match; simplify_eq; try done; try (by apply IH in H); try (by apply Hrec in H);
          try (by cbn [state]; (apply Hone || apply Hnone))).
Qed.

(** Directives in source order, on lines from [lo] to below [hi]. *)
Definition ordered (lo hi : Z) (evs : list (Event * Z)) : Prop :=
  StronglySorted (fun x y => x.2 <= y.2) evs /\ Forall (fun x => lo <= x.2 < hi) evs.

Lemma ordered_nil lo hi : ordered lo hi [].
Proof. split; constructor. Qed.

Lemma sorted_app {A} (R : A -> A -> Prop) xs ys :
  StronglySorted R xs -> StronglySorted R ys -> (forall x y, x ∈ xs -> y ∈ ys -> R x y) ->
  StronglySorted R (xs ++ ys).
Proof.
  intros Hx Hy H. induction Hx as [| x xs Hs IH Hf]; simpl; [done |].
  constructor; [apply IH; intros; apply H; set_solver |].
  apply Forall_app. split; [done |]. apply Forall_forall. intros y Hin. apply H; set_solver.
Qed.

Lemma sorted_line line ys :
  Forall (fun x : Event * Z => x.2 = line) ys -> StronglySorted (fun x y => x.2 <= y.2) ys.
Proof.
  induction 1 as [| y ys Hy Hys IH]; constructor; [done |].
  eapply Forall_impl; [exact Hys |]. intros z Hz. simpl in *. lia.
Qed.

Lemma ordered_app lo mid xs ys :
  lo <= mid -> ordered lo mid xs -> Forall (fun x => x.2 = mid) ys -> ordered lo (mid + 1) (xs ++ ys).
Proof.
  intros Hm [Hs Hb] Hy. pose proof (sorted_line mid ys Hy) as Hsy. rewrite Forall_forall in Hb, Hy. split.
  - apply sorted_app; [done | done |]. intros x y Hx Hin. apply Hb in Hx. apply Hy in Hin. lia.
  - apply Forall_forall. intros x [Hx | Hx]%elem_of_app; [apply Hb in Hx; lia | apply Hy in Hx; lia].
Qed.

Lemma ordered_weaken lo hi hi' evs : hi <= hi' -> ordered lo hi evs -> ordered lo hi' evs.
Proof.
  intros H [Hs Hb]. split; [done |]. eapply Forall_impl; [exact Hb |]. intros x. simpl. lia.
Qed.

Lemma scan_lines_events fuel lines index c evs r :
  Z.of_nat (length lines) < 2 ^ 32 ->
  ordered 0 (Z.of_nat index) evs -> (index <= length lines)%nat ->
  scan_lines record_event fuel lines index c evs = Some r -> ordered 0 (Z.of_nat (length lines)) r.
Proof.
  intros Hn. revert index c evs. induction fuel as [| fuel IH]; intros index c evs Ho Hi H; [done |].
  cbn [scan_lines] in H. destruct (lines !! index) as [line |] eqn:El.
  2: { simplify_eq. eapply ordered_weaken; [| exact Ho]. lia. }
  apply lookup_lt_Some in El. unfold text in *.
  destruct (scan_line _ _ _ _ _ _) as [res |] eqn:Es; [| done].
  apply scan_line_events in Es as (new & Enew & Hnew). rewrite wrap_u32_small in Hnew by lia.
  eapply (IH _ _ _ _ _ H). Unshelve.
  - rewrite Enew. eapply ordered_weaken; [| eapply (ordered_app 0 (Z.of_nat index)); [lia | done | done]]. lia.
  - destruct (continues res); lia.
Qed.

(** ** Visibility and coverage *)

Definition is_conditional (e : Event) : bool :=
  match e with
  | Ifdef _ | Ifndef _ | Elsif _ | Else | Endif => true
  | _ => false
  end.

(** The directives on lines before [line]. *)
Definition before (line : Z) (evs : list (Event * Z)) : list (Event * Z) :=
  filter (fun x => x.2 < line) evs.

(** Whether the code of [line] is active: the visibility that the directives of
    the lines before it leave. *)
Definition active_at (start : Evaluator) (evs : list (Event * Z)) (line : Z) : bool :=
  visible (stack (run start (before line evs))).

Definition conditional_line (evs : list (Event * Z)) (line : Z) : Prop :=
  exists e, (e, line) ∈ evs /\ is_conditional e = true.

Definition in_span (line : Z) (s : Z * Z) : Prop := s.1 <= line <= s.2.

(** The lines hidden so far: the spans, and the open segment. *)
Definition covered (ev : Evaluator) (line : Z) : Prop :=
  Exists (in_span line) (spans ev)
  \/ match stack ev with
     | frame :: _ => segment_visible frame = false /\ segment_start frame <= line
     | [] => False
     end.

Lemma close_segment_covers frame until sps line :
  line <= until ->
  Exists (in_span line) (close_segment frame until sps)
  <-> Exists (in_span line) sps \/ (segment_visible frame = false /\ segment_start frame <= line).
Proof.
  intros Hl. unfold close_segment, in_span. destruct (segment_visible frame); simpl.
  - split; [by left | intros [? | [? _]]; done].
  - destruct (Z.leb_spec (segment_start frame) until); simpl.
    + rewrite Exists_app, Exists_cons, Exists_nil. simpl. split; [naive_solver lia |].
      intros [? | [_ ?]]; [by left | right; left; lia].
    + split; [by left | intros [? | [_ ?]]; [done | lia]].
Qed.

Lemma close_segment_bounds frame until sps s :
  s ∈ close_segment frame until sps -> s ∈ sps \/ (s = (segment_start frame, until) /\ segment_start frame <= until).
Proof.
  unfold close_segment. destruct (negb (segment_visible frame)); simpl; [| by left].
  destruct (Z.leb_spec (segment_start frame) until); [| by left].
  intros [? | ->%list_elem_of_singleton]%elem_of_app; [by left | by right].
Qed.

(** A define leaves the groups and the spans alone. *)
Lemma apply_define e line ev :
  is_conditional e = false ->
  stack (apply_event e line ev) = stack ev /\ spans (apply_event e line ev) = spans ev.
Proof. destruct e; simpl; try done; intros _; by destruct (visible (stack ev)). Qed.

(** A conditional directive keeps what was covered before its line. *)
Lemma apply_covered e line ev l :
  0 <= l < line -> line < u32_max -> covered (apply_event e line ev) l <-> covered ev l.
Proof.
  intros Hl Hu. destruct (is_conditional e) eqn:Hc.
  2: { destruct (apply_define e line ev Hc) as [E1 E2]. unfold covered. by rewrite E1, E2. }
  assert (Hp : saturating_pred line = line - 1) by (unfold saturating_pred; lia).
  unfold covered. destruct e; simpl in Hc |- *; try done; unfold open_group; rewrite ?Hp;
    destruct (stack ev) as [| frame outer] eqn:Es; cbn [stack spans segment_visible segment_start];
    rewrite ?Es, ?close_segment_covers by lia; try tauto;
    try (split; [intros [? | [_ ?]]; [done || tauto | lia] | tauto]).
  destruct outer as [| o rest]; cbn [segment_visible segment_start]; [tauto |].
  rewrite wrap_u32_small by (unfold u32_max in *; lia).
  split; [intros [? | [_ ?]]; [done || tauto | lia] | tauto].
Qed.

Lemma before_none line evs : Forall (fun x => line <= x.2) evs -> before line evs = [].
Proof.
  induction 1 as [| x evs Hx _ IH]; [done |]. unfold before in *. rewrite filter_cons.
  by rewrite decide_False by lia.
Qed.

Lemma before_split line evs :
  StronglySorted (fun x y => x.2 <= y.2) evs ->
  exists rest, evs = before line evs ++ rest /\ Forall (fun x => line <= x.2) rest.
Proof.
  induction 1 as [| x evs Hs IH Hf]; [exists []; split; [done | constructor] |].
  unfold before. rewrite filter_cons. case_decide as Hx.
  - destruct IH as (rest & E & Hr). exists rest. split; [simpl; by f_equal | done].
  - assert (Hall : Forall (fun y => line <= y.2) evs).
    { eapply Forall_impl; [exact Hf |]. intros y Hy. simpl in *. lia. }
    pose proof (before_none line evs Hall) as E. unfold before in E. rewrite E.
    exists (x :: evs). split; [done |]. constructor; [simpl; lia | done].
Qed.

Lemma run_defines start evs rest :
  Forall (fun x => is_conditional x.1 = false) rest ->
  stack (run start (evs ++ rest)) = stack (run start evs).
Proof.
  revert evs. induction rest as [| [e line] rest IH]; intros evs H; [by rewrite app_nil_r |].
  apply Forall_cons in H as [He H]. simpl in He.
  replace (evs ++ (e, line) :: rest) with ((evs ++ [(e, line)]) ++ rest) by (by rewrite <- app_assoc).
  rewrite IH by done. rewrite run_snoc. by apply apply_define.
Qed.

Lemma before_snoc line evs x :
  line <= x.2 -> before line (evs ++ [x]) = before line evs.
Proof.
  intros H. unfold before. rewrite filter_app, filter_cons. rewrite decide_False by lia.
  by rewrite filter_nil, app_nil_r.
Qed.

(** What the directives up to the last conditional line [c] leave. *)
Record hides (start : Evaluator) (evs : list (Event * Z)) (c : Z) : Prop := {
  hides_low : -1 <= c;
  hides_last : c = -1 \/ conditional_line evs c;
  hides_bound : forall line, conditional_line evs line -> line <= c;
  hides_spans : Forall (fun s => 0 <= s.1 <= s.2 /\ s.2 <= c) (spans (run start evs));
  hides_segment : Forall (fun frame => 0 <= segment_start frame <= c + 1) (stack (run start evs));
  hides_exact : forall line, 0 <= line <= c -> ~ conditional_line evs line ->
    covered (run start evs) line <-> active_at start evs line = false
}.

Lemma hides_later start evs c line :
  StronglySorted (fun x y => x.2 <= y.2) evs -> hides start evs c -> c < line ->
  covered (run start evs) line <-> active_at start evs line = false.
Proof.
  intros Hs H Hl. unfold active_at.
  destruct (before_split line evs Hs) as (rest & E & Hr).
  assert (Hd : Forall (fun x => is_conditional x.1 = false) rest).
  { rewrite Forall_forall in Hr. apply Forall_forall. intros [e l] Hin. simpl.
    destruct (is_conditional e) eqn:Hc; [| done]. apply Hr in Hin as Hl'. simpl in Hl'.
    assert (l <= c); [| lia]. apply (hides_bound _ _ _ H). exists e. split; [| done].
    rewrite E. apply elem_of_app. by right. }
  rewrite <- (run_defines start (before line evs) rest Hd), <- E.
  pose proof (hides_spans _ _ _ H) as Hsp. pose proof (hides_segment _ _ _ H) as Hse.
  unfold covered. assert (Hno : ~ Exists (in_span line) (spans (run start evs))).
  { rewrite Exists_exists. intros (s & Hin & Hi). rewrite Forall_forall in Hsp. apply Hsp in Hin.
    unfold in_span in Hi. lia. }
  destruct (stack (run start evs)) as [| frame outer]; simpl; [split; [tauto | done] |].
  apply Forall_cons in Hse as [Hse _]. split; [tauto |]. intros Hv. right. split; [done | lia].
Qed.

Lemma conditional_line_snoc evs e line l :
  conditional_line (evs ++ [(e, line)]) l
  <-> conditional_line evs l \/ (l = line /\ is_conditional e = true).
Proof.
  unfold conditional_line. split.
  - intros (e' & [Hin | [= -> ->]%list_elem_of_singleton]%elem_of_app & Hc); [left; eauto | by right].
  - intros [(e' & Hin & Hc) | [-> Hc]]; [exists e' | exists e];
      (split; [apply elem_of_app; set_solver | done]).
Qed.

(** Spans and segments stay within the line of the directive. *)
Lemma apply_spans e line c ev :
  0 <= line -> -1 <= c <= line -> line < u32_max ->
  Forall (fun s => 0 <= s.1 <= s.2 /\ s.2 <= c) (spans ev) ->
  Forall (fun frame => 0 <= segment_start frame <= c + 1) (stack ev) ->
  Forall (fun s => 0 <= s.1 <= s.2 /\ s.2 <= line) (spans (apply_event e line ev))
  /\ Forall (fun frame => 0 <= segment_start frame <= line + 1) (stack (apply_event e line ev)).
Proof.
  intros Hl Hc Hu Hsp Hst.
  assert (Hsp' : Forall (fun s => 0 <= s.1 <= s.2 /\ s.2 <= line) (spans ev)).
  { eapply Forall_impl; [exact Hsp |]. intros s. simpl. lia. }
  assert (Hst' : Forall (fun frame => 0 <= segment_start frame <= line + 1) (stack ev)).
  { eapply Forall_impl; [exact Hst |]. intros s. simpl. lia. }
  assert (Hcl : forall frame until, 0 <= segment_start frame -> until <= line ->
            Forall (fun s => 0 <= s.1 <= s.2 /\ s.2 <= line) (close_segment frame until (spans ev))).
  { intros frame until H0 Hun. apply Forall_forall. intros s [Hin | [-> Hle]]%close_segment_bounds.
    - rewrite Forall_forall in Hsp'. by apply Hsp'.
    - simpl. lia. }
  assert (Hp : saturating_pred line <= line) by (unfold saturating_pred; lia).
  destruct (is_conditional e) eqn:He.
  2: { destruct (apply_define e line ev He) as [-> ->]. done. }
  destruct (stack ev) as [| frame outer] eqn:Es.
  - destruct e; try done; simpl; unfold open_group; rewrite Es; cbn [spans stack]; rewrite ?Es;
      (split; [done |]); try constructor; [simpl; lia | constructor | simpl; lia | constructor].
  - apply Forall_cons in Hst' as [Hf Ho].
    destruct e; try done; simpl; unfold open_group; rewrite Es; cbn [spans stack];
      (split; [apply Hcl; [lia | done || lia] |]); try (by constructor; [simpl; lia | constructor]);
      try (by constructor; [simpl; lia |]).
    destruct outer as [| o rest]; [constructor |]. apply Forall_cons in Ho as [_ Ho].
    constructor; [| done]. simpl. rewrite wrap_u32_small by (unfold u32_max in *; lia). lia.
Qed.

Lemma hides_snoc start evs c e line :
  StronglySorted (fun x y => x.2 <= y.2) evs -> Forall (fun x => x.2 <= line) evs ->
  0 <= line < u32_max -> hides start evs c ->
  hides start (evs ++ [(e, line)]) (if is_conditional e then line else c).
Proof.
  intros Hs Hall Hl H. pose proof H as [H0 H1 H2 H3 H4 H5].
  assert (Hc : -1 <= c <= line).
  { destruct H1 as [-> | (e' & Hin & _)]; [lia |]. rewrite Forall_forall in Hall.
    pose proof (Hall _ Hin) as Hx. simpl in Hx. lia. }
  destruct (is_conditional e) eqn:He.
  - destruct (apply_spans e line c (run start evs)) as [Hsp Hst]; [lia | done | lia | done | done |].
    split; rewrite ?run_snoc; try done; [lia | | |].
    + right. apply conditional_line_snoc. by right.
    + intros l [Hc' | [-> _]]%conditional_line_snoc; [| done]. apply H2 in Hc'. lia.
    + intros l Hb Hn. rewrite conditional_line_snoc in Hn.
      assert (l < line) by (destruct (decide (l = line)); [exfalso; apply Hn; by right | lia]).
      rewrite apply_covered by lia. unfold active_at. rewrite before_snoc by (simpl; lia).
      destruct (decide (l <= c)); [apply H5; [lia | tauto] | by apply (hides_later start evs c); [| | lia]].
  - destruct (apply_define e line (run start evs) He) as [E1 E2].
    split; rewrite ?run_snoc, ?E1, ?E2; try done.
    + destruct H1 as [-> | H1]; [by left | right]. apply conditional_line_snoc. by left.
    + intros l [Hc' | [_ ?]]%conditional_line_snoc; [by apply H2 | congruence].
    + intros l Hb Hn. rewrite conditional_line_snoc in Hn. unfold covered. rewrite E1, E2.
      unfold active_at. rewrite before_snoc by (simpl; lia). apply H5; [done | tauto].
Qed.

Lemma hides_nil start : stack start = [] -> spans start = [] -> hides start [] (-1).
Proof.
  intros H1 H2. split; [lia | by left | | | |].
  - intros l (e & Hin & _). set_solver.
  - simpl. rewrite H2. constructor.
  - simpl. rewrite H1. constructor.
  - lia.
Qed.

Lemma hides_ordered start evs :
  stack start = [] -> spans start = [] -> ordered 0 u32_max evs -> exists c, hides start evs c.
Proof.
  intros H1 H2. induction evs as [| [e line] evs IH] using rev_ind; intros [Hs Hb].
  { exists (-1). by apply hides_nil. }
  apply Forall_app in Hb as [Hb Hl]. apply Forall_cons in Hl as [Hl _]. simpl in Hl.
  assert (Hs' : StronglySorted (fun x y : Event * Z => x.2 <= y.2) evs /\ Forall (fun x => x.2 <= line) evs).
  { clear IH Hb. induction evs as [| x evs IH]; [split; constructor |]. simpl in Hs.
    apply StronglySorted_inv in Hs as [Hs Hf]. destruct (IH Hs) as [Ha Hc].
    apply Forall_app in Hf as [Hf Hx]. apply Forall_cons in Hx as [Hx _].
    split; by constructor. }
  destruct Hs' as [Hs' Hle]. destruct IH as [c Hc]; [by split |].
  eexists. by apply (hides_snoc start evs c e line).
Qed.

(** When every group is closed, the spans are exactly the inactive lines. *)
Lemma spans_exact start evs line :
  stack start = [] -> spans start = [] -> ordered 0 u32_max evs ->
  stack (run start evs) = [] -> 0 <= line -> ~ conditional_line evs line ->
  Exists (in_span line) (spans (run start evs)) <-> active_at start evs line = false.
Proof.
  intros H1 H2 Ho Hend Hl Hn. destruct (hides_ordered start evs H1 H2 Ho) as [c Hc].
  assert (Hcov : covered (run start evs) line <-> Exists (in_span line) (spans (run start evs))).
  { unfold covered. rewrite Hend. tauto. }
  rewrite <- Hcov. destruct (decide (line <= c)); [by apply (hides_exact _ _ _ Hc) |].
  apply (hides_later start evs c); [apply Ho | done | lia].
Qed.

(** ** Normal ranges *)

Definition in_range (line : Z) (r : LineRange) : Prop := start_line r <= line <= end_line r.

(** Sorted, non-empty, and at least one line apart. *)
Definition separated (rs : list LineRange) : Prop :=
  Sorted (fun a b => end_line a + 1 < start_line b) rs
  /\ Forall (fun r => start_line r <= end_line r) rs.

(** The merge with the open range first. *)
Fixpoint merge_from (last : LineRange) (sorted : list (Z * Z)) : list LineRange :=
  match sorted with
  | [] => [last]
  | (start, stop) :: rest =>
      if start <=? Z.min (end_line last + 1) u32_max
      then merge_from (mkRange (start_line last) (Z.max (end_line last) stop)) rest
      else last :: merge_from (mkRange start stop) rest
  end.

Lemma merge_spans_from sorted last before :
  merge_spans sorted (last :: before) = rev before ++ merge_from last sorted.
Proof.
  revert last before. induction sorted as [| [s e] sorted IH]; intros last before; [done |].
  cbn [merge_spans merge_from]. case_match; rewrite IH; [done |]. simpl. by rewrite <- app_assoc.
Qed.

Lemma merge_from_head last sorted :
  exists e tl, merge_from last sorted = mkRange (start_line last) e :: tl.
Proof.
  revert last. induction sorted as [| [s e] sorted IH]; intros last; simpl.
  - destruct last. simpl. eauto.
  - case_match; [apply (IH (mkRange (start_line last) _)) |]. destruct last. simpl. eauto.
Qed.

Definition span_ok (s : Z * Z) : Prop := 0 <= s.1 <= s.2 /\ s.2 <= u32_max.

Lemma merge_from_covers last sorted line :
  start_line last <= end_line last <= u32_max -> Forall span_ok sorted ->
  Forall (fun s => start_line last <= s.1) sorted -> StronglySorted span_le sorted ->
  Exists (in_range line) (merge_from last sorted)
  <-> in_range line last \/ Exists (in_span line) sorted.
Proof.
  revert last. induction sorted as [| [s e] sorted IH]; intros last Hl Hok Hst Hso; simpl.
  - rewrite Exists_cons, !Exists_nil. tauto.
  - apply Forall_cons in Hok as [[Hs He] Hok], Hst as [Hsl Hst]. simpl in *.
    apply StronglySorted_inv in Hso as [Hso Hle].
    assert (Hge : Forall (fun x : Z * Z => s <= x.1) sorted).
    { eapply Forall_impl; [exact Hle |]. intros x [? | [? ?]]; simpl in *; lia. }
    rewrite Exists_cons. case_match eqn:Hm.
    + apply Z.leb_le in Hm. rewrite IH; [| simpl; lia | done | done | done].
      unfold in_range, in_span. simpl. split; [| naive_solver lia].
      intros [? | ?]; [| tauto]. destruct (decide (line <= end_line last)); [left; lia | right; left; lia].
    + apply Z.leb_gt in Hm. rewrite Exists_cons, IH; [| simpl; lia | done | done | done].
      unfold in_range at 2, in_span at 2. simpl. tauto.
Qed.

Lemma merge_from_separated last sorted :
  start_line last <= end_line last <= u32_max -> Forall span_ok sorted ->
  Forall (fun s => start_line last <= s.1) sorted -> StronglySorted span_le sorted ->
  separated (merge_from last sorted).
Proof.
  revert last. induction sorted as [| [s e] sorted IH]; intros last Hl Hok Hst Hso; simpl.
  - split; repeat constructor. lia.
  - apply Forall_cons in Hok as [[Hs He] Hok], Hst as [Hsl Hst]. simpl in *.
    apply StronglySorted_inv in Hso as [Hso Hle].
    assert (Hge : Forall (fun x : Z * Z => s <= x.1) sorted).
    { eapply Forall_impl; [exact Hle |]. intros x [? | [? ?]]; simpl in *; lia. }
    case_match eqn:Hm; [apply Z.leb_le in Hm; apply IH; simpl; done || lia |].
    apply Z.leb_gt in Hm. destruct (IH (mkRange s e)) as [H1 H2]; [simpl; lia | done | done | done |].
    split; [| constructor; [lia | done]]. constructor; [done |].
    destruct (merge_from_head (mkRange s e) sorted) as (e' & tl & ->). constructor. simpl. lia.
Qed.

#[export] Instance span_le_total : Total span_le.
Proof. intros a b. unfold span_le. lia. Qed.
#[export] Instance span_le_trans : Transitive span_le.
Proof. intros a b c. unfold span_le. lia. Qed.

Lemma normalize_spec sps :
  Forall span_ok sps ->
  separated (normalize sps)
  /\ forall line, Exists (in_range line) (normalize sps) <-> Exists (in_span line) sps.
Proof.
  intros Hok. unfold normalize. pose proof (merge_sort_Permutation span_le sps) as Hp.
  pose proof (StronglySorted_merge_sort span_le sps) as Hs.
  assert (Hok' : Forall span_ok (merge_sort span_le sps)) by (by rewrite Hp).
  assert (He : forall line, Exists (in_span line) sps <-> Exists (in_span line) (merge_sort span_le sps)).
  { intros line. rewrite !Exists_exists. by setoid_rewrite Hp. }
  setoid_rewrite He. destruct (merge_sort span_le sps) as [| [s e] sorted].
  { split; [split; constructor |]. intros line. simpl. by rewrite !Exists_nil. }
  cbn [merge_spans]. rewrite merge_spans_from. simpl app.
  apply Forall_cons in Hok' as [[H0 H1] Hok']. simpl in H0, H1.
  apply StronglySorted_inv in Hs as [Hs Hle].
  assert (Hge : Forall (fun x : Z * Z => s <= x.1) sorted).
  { eapply Forall_impl; [exact Hle |]. intros x [? | [? ?]]; simpl in *; lia. }
  split; [by apply merge_from_separated; simpl; [lia | | |] |].
  intros line. rewrite merge_from_covers by (done || simpl; lia). rewrite Exists_cons. done.
Qed.

(** * Inactive source regions: the properties

    The ranges are exactly the inactive lines, and activity is the evaluation
    of nested conditional groups. *)

(** The directives of a source text, with their lines. *)
Definition directives (source : text) : list (Event * Z) :=
  let lines := split_lines source in
  default [] (scan_lines record_event (Datatypes.S (length lines)) lines 0 false []).

Definition initial (defines : list text) : Evaluator := mkEvaluator (external_define_names defines) [] [].

Lemma directives_ordered source :
  Z.of_nat (length (split_lines source)) < 2 ^ 32 ->
  ordered 0 (Z.of_nat (length (split_lines source))) (directives source).
Proof.
  intros Hn. unfold directives.
  destruct (scan_lines_total record_event (Datatypes.S (length (split_lines source))) (split_lines source) 0 false [])
    as [evs E]; [lia |].
  cbv zeta. rewrite E. eapply scan_lines_events; [done | | | exact E]; [apply ordered_nil | lia].
Qed.

(** The scan of the code runs the evaluator over the directives. *)
Lemma inactive_line_ranges_run source defines :
  inactive_line_ranges source defines
  = Some (match stack (run (initial defines) (directives source)) with
          | [] => normalize (spans (run (initial defines) (directives source)))
          | _ => []
          end).
Proof.
  unfold inactive_line_ranges, directives. cbv zeta. fold (initial defines).
  destruct (scan_lines_total record_event (Datatypes.S (length (split_lines source))) (split_lines source) 0 false [])
    as [evs E]; [lia |].
  change (initial defines) with (run (initial defines) []) at 1.
  rewrite (scan_lines_map record_event apply_event (run (initial defines))) by (intros; apply run_snoc).
  rewrite E. done.
Qed.

Lemma ordered_spans_ok start evs :
  stack start = [] -> spans start = [] -> ordered 0 u32_max evs -> Forall span_ok (spans (run start evs)).
Proof.
  intros H1 H2 Ho. destruct (hides_ordered start evs H1 H2 Ho) as [c Hc].
  assert (Hcu : c < u32_max).
  { destruct (hides_last _ _ _ Hc) as [-> | (e & Hin & _)]; [done |].
    destruct Ho as [_ Hb]. rewrite Forall_forall in Hb. apply Hb in Hin. simpl in Hin. lia. }
  eapply Forall_impl; [apply (hides_spans _ _ _ Hc) |]. intros s. unfold span_ok. lia.
Qed.

(** ** Nested groups

    The source as a tree: ordinary code, changes of the defined names, and
    groups.  A branch of [more] with no condition is an [else]. *)

Inductive item : Type :=
| Code
| Defines (name : text)
| Undefines (name : text)
| UndefinesAll
| Group (ifndef : bool) (name : option text) (body : list item)
    (more : list (option (option text) * list item)).

(** Evaluation: the defined names after it, and the activity of its code, in
    order.  The first branch whose condition holds is active; a condition that
    does not parse shows its branch. *)
Section Eval.
Context (eval_item : bool -> gset text -> item -> gset text * list bool).

Fixpoint eval_items (active : bool) (defs : gset text) (items : list item) : gset text * list bool :=
  match items with
  | [] => (defs, [])
  | it :: rest =>
      let '(defs1, m1) := eval_item active defs it in
      let '(defs2, m2) := eval_items active defs1 rest in
      (defs2, m1 ++ m2)
  end.

Definition selected (defs : gset text) (condition : option (option text)) : bool :=
  match condition with
  | None => true
  | Some None => true
  | Some (Some name) => bool_decide (name ∈ defs)
  end.

Fixpoint eval_branches (active taken : bool) (defs : gset text)
    (more : list (option (option text) * list item)) : gset text * list bool :=
  match more with
  | [] => (defs, [])
  | (condition, body) :: rest =>
      let wins := active && negb taken && selected defs condition in
      let '(defs1, m1) := eval_items wins defs body in
      let '(defs2, m2) := eval_branches active (taken || wins) defs1 rest in
      (defs2, m1 ++ m2)
  end.
End Eval.

Fixpoint eval_item (active : bool) (defs : gset text) (it : item) : gset text * list bool :=
  match it with
  | Code => (defs, [active])
  | Defines name => (if active then {[name]} ∪ defs else defs, [])
  | Undefines name => (if active then defs ∖ {[name]} else defs, [])
  | UndefinesAll => (if active then ∅ else defs, [])
  | Group ifndef name body more =>
      let holds := condition_holds name ifndef defs in
      let '(defs1, m1) := eval_items eval_item (active && (holds || negb (is_some_name name))) defs body in
      let '(defs2, m2) := eval_branches eval_item active (active && holds) defs1 more in
      (defs2, m1 ++ m2)
  end.

(** The directives of a tree; [None] stands for code. *)
Definition branch_event (condition : option (option text)) : Event :=
  match condition with
  | None => Else
  | Some name => Elsif name
  end.

Fixpoint flatten_item (it : item) : list (option Event) :=
  match it with
  | Code => [None]
  | Defines name => [Some (Define name)]
  | Undefines name => [Some (Undef name)]
  | UndefinesAll => [Some UndefineAll]
  | Group ifndef name body more =>
      Some ((if ifndef then Ifndef else Ifdef) name)
      :: flat_map flatten_item body
      ++ flat_map (fun '(condition, branch) => Some (branch_event condition) :: flat_map flatten_item branch) more
      ++ [Some Endif]
  end.

(** The activity of the code among directives that the evaluator meets. *)
Fixpoint observe (ev : Evaluator) (xs : list (option Event * Z)) : list bool :=
  match xs with
  | [] => []
  | (None, _) :: rest => visible (stack ev) :: observe ev rest
  | (Some e, line) :: rest => observe (apply_event e line ev) rest
  end.

(** *** The evaluator without its lines *)

Definition Flags : Type := bool * bool * bool.
Definition flags (f : Frame) : Flags := (parent_visible f, branch_taken f, segment_visible f).
Definition shown (fs : list Flags) : bool := match fs with [] => true | f :: _ => f.2 end.

Definition step (e : Event) (defs : gset text) (fs : list Flags) : gset text * list Flags :=
  let opening name ifndef :=
    let holds := condition_holds name ifndef defs in
    (defs, (shown fs, shown fs && holds, shown fs && (if is_some_name name then holds else true)) :: fs) in
  match e with
  | Ifdef name => opening name false
  | Ifndef name => opening name true
  | Elsif name =>
      match fs with
      | [] => (defs, fs)
      | (p, t, _) :: outer =>
          let wins := p && negb t && selected defs (Some name) in (defs, (p, t || wins, wins) :: outer)
      end
  | Else =>
      match fs with
      | [] => (defs, fs)
      | (p, t, _) :: outer => let wins := p && negb t in (defs, (p, t || wins, wins) :: outer)
      end
  | Endif => (defs, tail fs)
  | Define name => (if shown fs then {[name]} ∪ defs else defs, fs)
  | Undef name => (if shown fs then defs ∖ {[name]} else defs, fs)
  | UndefineAll => (if shown fs then ∅ else defs, fs)
  end.

Lemma shown_visible frames : shown (map flags frames) = visible frames.
Proof. by destruct frames. Qed.

Lemma step_apply e line ev :
  (defined (apply_event e line ev), map flags (stack (apply_event e line ev)))
  = step e (defined ev) (map flags (stack ev)).
Proof.
  destruct e; simpl; rewrite ?shown_visible; try done;
    try (by destruct (visible (stack ev)));
    destruct (stack ev) as [| f outer] eqn:Es; simpl; rewrite ?Es; try done.
  - destruct name as [name |]; simpl; [| rewrite !andb_true_r];
      destruct (parent_visible f), (branch_taken f); try done; simpl; by destruct (bool_decide _).
  - by destruct (parent_visible f), (branch_taken f).
  - by destruct outer.
Qed.

Fixpoint observe_flags (defs : gset text) (fs : list Flags) (xs : list (option Event)) : list bool :=
  match xs with
  | [] => []
  | None :: rest => shown fs :: observe_flags defs fs rest
  | Some e :: rest => let '(defs', fs') := step e defs fs in observe_flags defs' fs' rest
  end.

Lemma observe_step ev xs : observe ev xs = observe_flags (defined ev) (map flags (stack ev)) xs.*1.
Proof.
  revert ev. induction xs as [| [[e |] line] xs IH]; intros ev; simpl; [done | |].
  - rewrite <- (step_apply e line ev). apply IH.
  - by rewrite shown_visible, IH.
Qed.

(** *** A tree leaves the groups around it as they were *)

Definition evaluates (it : item) : Prop :=
  forall defs fs rest,
    observe_flags defs fs (flatten_item it ++ rest)
    = (eval_item (shown fs) defs it).2 ++ observe_flags (eval_item (shown fs) defs it).1 fs rest.

Lemma items_evaluate items : Forall evaluates items ->
  forall defs fs rest,
    observe_flags defs fs (flat_map flatten_item items ++ rest)
    = (eval_items eval_item (shown fs) defs items).2
      ++ observe_flags (eval_items eval_item (shown fs) defs items).1 fs rest.
Proof.
  induction 1 as [| it items Hit _ IH]; intros defs fs rest; [done |].
  cbn [flat_map eval_items]. rewrite <- app_assoc, Hit.
  destruct (eval_item (shown fs) defs it) as [d1 m1]. cbn [fst snd]. rewrite IH.
  destruct (eval_items _ _ d1 items) as [d2 m2]. cbn [fst snd]. by rewrite app_assoc.
Qed.

Lemma branches_evaluate more : Forall (fun b => Forall evaluates b.2) more ->
  forall defs active taken seen fs rest,
    exists taken' seen',
      observe_flags defs ((active, taken, seen) :: fs)
        (flat_map (fun '(condition, branch) =>
                     Some (branch_event condition) :: flat_map flatten_item branch) more ++ rest)
      = (eval_branches eval_item active taken defs more).2
        ++ observe_flags (eval_branches eval_item active taken defs more).1
             ((active, taken', seen') :: fs) rest.
Proof.
  induction 1 as [| [condition body] more Hb _ IH]; intros defs active taken seen fs rest; [by exists taken, seen |].
  cbn [flat_map eval_branches]. rewrite <- app_assoc.
  set (wins := active && negb taken && selected defs condition).
  assert (Hstep : step (branch_event condition) defs ((active, taken, seen) :: fs)
                  = (defs, (active, taken || wins, wins) :: fs)).
  { unfold wins. destruct condition as [name |]; simpl; [done |]. by rewrite andb_true_r. }
  cbn [app observe_flags]. rewrite Hstep, (items_evaluate body Hb). cbn [shown snd].
  destruct (eval_items eval_item wins defs body) as [d1 m1]. cbn [fst snd].
  destruct (IH d1 active (taken || wins) wins fs rest) as (t' & s' & ->).
  exists t', s'. destruct (eval_branches _ _ _ d1 more) as [d2 m2]. cbn [fst snd]. by rewrite app_assoc.
Qed.

Lemma group_evaluates ifndef name body more :
  Forall evaluates body -> Forall (fun b => Forall evaluates b.2) more ->
  evaluates (Group ifndef name body more).
Proof.
  intros Hbody Hmore defs fs rest. cbn [flatten_item eval_item app].
  set (holds := condition_holds name ifndef defs).
  assert (Hstep : step ((if ifndef then Ifndef else Ifdef) name) defs fs
                  = (defs, (shown fs, shown fs && holds, shown fs && (holds || negb (is_some_name name))) :: fs)).
  { unfold holds. destruct ifndef, name; simpl; rewrite ?orb_false_r; try done. }
  cbn [observe_flags]. rewrite Hstep, <- app_assoc, (items_evaluate body Hbody). cbn [shown snd].
  destruct (eval_items eval_item _ defs body) as [d1 m1]. cbn [fst snd]. rewrite <- app_assoc.
  destruct (branches_evaluate more Hmore d1 (shown fs) (shown fs && holds)
              (shown fs && (holds || negb (is_some_name name))) fs ([Some Endif] ++ rest)) as (t & s & ->).
  destruct (eval_branches eval_item _ _ d1 more) as [d2 m2]. cbn. by rewrite app_assoc.
Qed.

Fixpoint item_evaluates (it : item) : evaluates it.
Proof.
  destruct it as [| name | name | | ifndef name body more]; try (intros defs fs rest; simpl; by destruct (shown fs)).
  apply group_evaluates.
  - induction body as [| it body IH]; constructor; [apply item_evaluates | apply IH].
  - induction more as [| [c b] more IH]; constructor; [| apply IH].
    simpl. clear IH. induction b as [| it b IH]; constructor; [apply item_evaluates | apply IH].
Qed.

(** ** Claims *)

(** C26: for every source text the computation returns; the ranges are sorted,
    non-empty and apart; a text with an open group gets none; otherwise a line
    without conditional directives is in a range exactly when the directives
    before it leave it inactive. *)
Theorem inactive_exact source defines :
  Z.of_nat (length (split_lines source)) < u32_max ->
  exists ranges,
    inactive_line_ranges source defines = Some ranges
    /\ separated ranges
    /\ (stack (run (initial defines) (directives source)) <> [] -> ranges = [])
    /\ (stack (run (initial defines) (directives source)) = [] ->
        forall line, 0 <= line -> ~ conditional_line (directives source) line ->
          Exists (in_range line) ranges
          <-> active_at (initial defines) (directives source) line = false).
Proof.
  intros Hn. eexists. split; [apply inactive_line_ranges_run |].
  assert (Ho : ordered 0 u32_max (directives source)).
  { eapply ordered_weaken; [| apply directives_ordered; unfold u32_max in *; lia]. lia. }
  destruct (normalize_spec (spans (run (initial defines) (directives source)))) as [Hsep Hcov];
    [by apply ordered_spans_ok |].
  destruct (stack (run (initial defines) (directives source))) as [| f fs] eqn:Es.
  - split_and!; [done | done |]. intros _ line Hl Hc. rewrite Hcov. by apply spans_exact.
  - split_and!; [split; constructor | done | done].
Qed.

Definition source_of (lines : list string) : text :=
  chars (String.concat (String (ascii_of_nat 10) EmptyString) lines).

Definition example_source : text :=
  source_of ["module m;"; "`ifdef FOO"; "logic a;"; "`else"; "logic b;"; "`endif"; "endmodule"]%string.

Lemma inactive_exact_witness :
  exists ranges,
    inactive_line_ranges example_source [] = Some ranges /\ separated ranges
    /\ (Exists (in_range 2) ranges <-> active_at (initial []) (directives example_source) 2 = false).
Proof.
  destruct (inactive_exact example_source []) as (ranges & E & Hs & _ & Hc); [vm_compute; reflexivity |].
  exists ranges. split; [exact E |]. split; [exact Hs |].
  apply Hc; [vm_compute; reflexivity | lia |].
  intros (e & Hin & _). apply (list_elem_of_fmap_2 snd) in Hin.
  revert Hin. apply (bool_decide_unpack _). vm_compute. exact I.
Defined.



(** A group on one line shows the line when its last branch is active, except on
    the first line: there [saturating_sub] gives the segment that ends before
    the line its own number, and the line is dimmed. *)
Lemma first_line_group_dimmed :
  inactive_line_ranges (source_of ["`ifdef A `else wire x; `endif"; "endmodule"]%string) []
  = Some [mkRange 0 0]
  /\ inactive_line_ranges (source_of [""; "`ifdef A `else wire x; `endif"; "endmodule"]%string) [] = Some [].
Proof. split; vm_compute; reflexivity. Qed.
