(* ===== verification/Budget.v ===== *)
(** * The response budget of the module explorer
    (src/bin/llg_ls/module_explorer/budget.rs)

    One explorer response serialises at most a fixed number of records.  The
    budget counts what remains and what is reserved: terminal nodes, hierarchy
    roots and catalog entries, the last two shared fairly among workspaces.
    Counters are 64-bit [usize] values; [-=] wraps and [saturating_*] are
    written out. *)

From Stdlib Require Import ZArith Lia Ascii String.
From stdpp Require Import base list strings.
From S2P Require Import Prelude.
Open Scope Z_scope.
Open Scope list_scope.

Definition usize_max : Z := 2 ^ 64 - 1.
Definition sat_add (a b : Z) : Z := Z.min usize_max (a + b).
Definition sat_sub (a b : Z) : Z := Z.max 0 (a - b).
Definition dec_usize (a b : Z) : Z := wrap_u 64 (a - b).
Definition div_ceil (a b : Z) : Z := if a mod b =? 0 then a / b else a / b + 1.

Definition MAX_INSTANCE_NODES : Z := 10000.
Definition GUARANTEED_HIERARCHY_ROOT_SLOTS : Z := 1.
Definition RESPONSE_HIERARCHY_ROOT_SLOTS : Z := 64.
Definition RESPONSE_MODULE_CATALOG_SLOTS : Z := 256.
Definition GRAPH_TERMINAL_SLOTS : Z := 2.

Record InstanceBudget : Type := mkBudget {
  remaining : Z;
  terminal_slots : Z;
  hierarchy_root_slots : Z;
  future_hierarchy_root_slots : Z;
  module_catalog_slots : Z;
  module_catalog_workspace_slots : Z;
  future_module_catalog_slots : Z;
  workspace_catalog_quotas : bool;
  module_catalog_marker_reserved : bool;
  hierarchy_stopped : bool;
  budget_marker_emitted : bool;
  module_marker_emitted : bool
}.

(** Updates of the fields the operations assign. *)
Definition set_remaining (v : Z) (b : InstanceBudget) : InstanceBudget :=
  mkBudget v (terminal_slots b) (hierarchy_root_slots b) (future_hierarchy_root_slots b)
    (module_catalog_slots b) (module_catalog_workspace_slots b) (future_module_catalog_slots b)
    (workspace_catalog_quotas b) (module_catalog_marker_reserved b) (hierarchy_stopped b)
    (budget_marker_emitted b) (module_marker_emitted b).
Definition set_terminal (v : Z) (b : InstanceBudget) : InstanceBudget :=
  mkBudget (remaining b) v (hierarchy_root_slots b) (future_hierarchy_root_slots b)
    (module_catalog_slots b) (module_catalog_workspace_slots b) (future_module_catalog_slots b)
    (workspace_catalog_quotas b) (module_catalog_marker_reserved b) (hierarchy_stopped b)
    (budget_marker_emitted b) (module_marker_emitted b).
Definition set_roots (current future : Z) (b : InstanceBudget) : InstanceBudget :=
  mkBudget (remaining b) (terminal_slots b) current future
    (module_catalog_slots b) (module_catalog_workspace_slots b) (future_module_catalog_slots b)
    (workspace_catalog_quotas b) (module_catalog_marker_reserved b) (hierarchy_stopped b)
    (budget_marker_emitted b) (module_marker_emitted b).
Definition set_catalog (total workspace future : Z) (b : InstanceBudget) : InstanceBudget :=
  mkBudget (remaining b) (terminal_slots b) (hierarchy_root_slots b) (future_hierarchy_root_slots b)
    total workspace future
    (workspace_catalog_quotas b) (module_catalog_marker_reserved b) (hierarchy_stopped b)
    (budget_marker_emitted b) (module_marker_emitted b).
Definition set_quotas (v : bool) (b : InstanceBudget) : InstanceBudget :=
  mkBudget (remaining b) (terminal_slots b) (hierarchy_root_slots b) (future_hierarchy_root_slots b)
    (module_catalog_slots b) (module_catalog_workspace_slots b) (future_module_catalog_slots b)
    v (module_catalog_marker_reserved b) (hierarchy_stopped b)
    (budget_marker_emitted b) (module_marker_emitted b).
Definition set_marker_reserved (v : bool) (b : InstanceBudget) : InstanceBudget :=
  mkBudget (remaining b) (terminal_slots b) (hierarchy_root_slots b) (future_hierarchy_root_slots b)
    (module_catalog_slots b) (module_catalog_workspace_slots b) (future_module_catalog_slots b)
    (workspace_catalog_quotas b) v (hierarchy_stopped b)
    (budget_marker_emitted b) (module_marker_emitted b).
Definition set_stopped (b : InstanceBudget) : InstanceBudget :=
  mkBudget (remaining b) (terminal_slots b) (hierarchy_root_slots b) (future_hierarchy_root_slots b)
    (module_catalog_slots b) (module_catalog_workspace_slots b) (future_module_catalog_slots b)
    (workspace_catalog_quotas b) (module_catalog_marker_reserved b) true
    (budget_marker_emitted b) (module_marker_emitted b).
Definition set_budget_marker (b : InstanceBudget) : InstanceBudget :=
  mkBudget (remaining b) (terminal_slots b) (hierarchy_root_slots b) (future_hierarchy_root_slots b)
    (module_catalog_slots b) (module_catalog_workspace_slots b) (future_module_catalog_slots b)
    (workspace_catalog_quotas b) (module_catalog_marker_reserved b) (hierarchy_stopped b)
    true (module_marker_emitted b).
Definition set_module_marker (v : bool) (b : InstanceBudget) : InstanceBudget :=
  mkBudget (remaining b) (terminal_slots b) (hierarchy_root_slots b) (future_hierarchy_root_slots b)
    (module_catalog_slots b) (module_catalog_workspace_slots b) (future_module_catalog_slots b)
    (workspace_catalog_quotas b) (module_catalog_marker_reserved b) (hierarchy_stopped b)
    (budget_marker_emitted b) v.

(** [self.remaining -= 1]. *)
Definition spend (b : InstanceBudget) : InstanceBudget := set_remaining (dec_usize (remaining b) 1) b.

Definition with_reserved_slots (terminal roots catalog : Z) : InstanceBudget :=
  let terminal := Z.min terminal MAX_INSTANCE_NODES in
  let roots := Z.min roots (sat_sub MAX_INSTANCE_NODES terminal) in
  let catalog := Z.min catalog (sat_sub (sat_sub MAX_INSTANCE_NODES terminal) roots) in
  mkBudget MAX_INSTANCE_NODES terminal roots 0 catalog catalog 0 false (1 <? catalog) false false false.

Definition new_budget (terminal : Z) : InstanceBudget :=
  with_reserved_slots terminal GUARANTEED_HIERARCHY_ROOT_SLOTS 2.

Definition new_response_budget : InstanceBudget :=
  with_reserved_slots GRAPH_TERMINAL_SLOTS RESPONSE_HIERARCHY_ROOT_SLOTS RESPONSE_MODULE_CATALOG_SLOTS.

Definition should_stop (b : InstanceBudget) : bool := hierarchy_stopped b || (remaining b =? 0).

Definition reserved_root_slots (b : InstanceBudget) : Z :=
  sat_add (hierarchy_root_slots b) (future_hierarchy_root_slots b).

(** Everything reserved, terminal slots included. *)
Definition all_reserved (b : InstanceBudget) : Z :=
  sat_add (sat_add (terminal_slots b) (reserved_root_slots b)) (module_catalog_slots b).

Definition return_roots (b : InstanceBudget) : InstanceBudget :=
  set_roots 0 (sat_add (future_hierarchy_root_slots b) (hierarchy_root_slots b)) b.

Definition prepare_workspaces (b : InstanceBudget) : InstanceBudget :=
  let b := return_roots b in
  if negb (workspace_catalog_quotas b) then
    let b := set_quotas true b in
    let b := set_catalog (module_catalog_slots b) 0
               (sat_add (future_module_catalog_slots b) (module_catalog_slots b)) b in
    set_module_marker false (set_marker_reserved false b)
  else b.

(** [begin_workspace]: unused capacity goes back to the pools, then the next of
    [remaining_workspaces] gets its share of each. *)
Definition return_pools (b : InstanceBudget) : InstanceBudget :=
  let b := return_roots b in
  let returned := if negb (workspace_catalog_quotas b) then module_catalog_slots b
                  else module_catalog_workspace_slots b in
  let b := set_quotas true b in
  let b := set_catalog (module_catalog_slots b) 0
             (sat_add (future_module_catalog_slots b) returned) b in
  set_module_marker false (set_marker_reserved false b).

Definition grant_roots (remaining_workspaces : Z) (b : InstanceBudget) : InstanceBudget :=
  if negb (remaining_workspaces =? 0) && negb (future_hierarchy_root_slots b =? 0) then
    let quota := div_ceil (future_hierarchy_root_slots b) remaining_workspaces in
    set_roots quota (dec_usize (future_hierarchy_root_slots b) quota) b
  else b.

Definition grant_catalog (remaining_workspaces : Z) (b : InstanceBudget) : InstanceBudget :=
  if negb (remaining_workspaces =? 0) && negb (future_module_catalog_slots b =? 0) then
    let quota := div_ceil (future_module_catalog_slots b) remaining_workspaces in
    let b := set_catalog (module_catalog_slots b) quota
               (dec_usize (future_module_catalog_slots b) quota) b in
    set_marker_reserved (1 <? quota) b
  else b.

Definition begin_workspace (remaining_workspaces : Z) (b : InstanceBudget) : InstanceBudget :=
  grant_catalog remaining_workspaces (grant_roots remaining_workspaces (return_pools b)).

Definition take_regular (b : InstanceBudget) : bool * InstanceBudget :=
  if hierarchy_stopped b || (remaining b <=? all_reserved b) then (false, b) else (true, spend b).

Definition can_take_root (b : InstanceBudget) : bool :=
  ((0 <? hierarchy_root_slots b)
   && (sat_add (future_hierarchy_root_slots b) (module_catalog_slots b) <? remaining b))
  || (negb (hierarchy_stopped b)
      && (sat_add (sat_add (terminal_slots b) (future_hierarchy_root_slots b)) (module_catalog_slots b)
          <? remaining b)).

Definition take_root (b : InstanceBudget) : bool * InstanceBudget :=
  if negb (hierarchy_stopped b) && (all_reserved b <? remaining b) then (true, spend b)
  else if (0 <? hierarchy_root_slots b)
          && (sat_add (future_hierarchy_root_slots b) (module_catalog_slots b) <? remaining b)
  then let b := spend b in
       (true, set_roots (dec_usize (hierarchy_root_slots b) 1) (future_hierarchy_root_slots b) b)
  else (false, b).

Definition take_module (more_definitions : bool) (b : InstanceBudget) : bool * InstanceBudget :=
  if workspace_catalog_quotas b then
    if (module_catalog_workspace_slots b =? 0)
       || (remaining b <=? reserved_root_slots b)
       || (more_definitions && module_catalog_marker_reserved b
           && (module_catalog_workspace_slots b =? 1))
    then (false, b)
    else
      let b := spend b in
      let b := set_catalog (dec_usize (module_catalog_slots b) 1)
                 (dec_usize (module_catalog_workspace_slots b) 1) (future_module_catalog_slots b) b in
      (true, if module_catalog_workspace_slots b =? 0 then set_marker_reserved false b else b)
  else if all_reserved b <? remaining b then (true, spend b)
  else if (Z.b2z more_definitions <? module_catalog_slots b) && (reserved_root_slots b <? remaining b) then
    let b := spend b in
    (true, set_catalog (dec_usize (module_catalog_slots b) 1) (module_catalog_workspace_slots b)
             (future_module_catalog_slots b) b)
  else (false, b).

Definition take_terminal (b : InstanceBudget) : bool * InstanceBudget :=
  if hierarchy_stopped b || (remaining b <=? sat_add (reserved_root_slots b) (module_catalog_slots b))
  then (false, set_stopped b)
  else
    let b := spend b in
    let b := set_terminal (sat_sub (terminal_slots b) 1) b in
    (true, if remaining b =? 0 then set_stopped b else b).

Definition take_budget_marker (b : InstanceBudget) : bool * InstanceBudget :=
  if hierarchy_stopped b || budget_marker_emitted b || (remaining b =? 0) then (false, set_stopped b)
  else
    let ordinary_slots := sat_sub (remaining b) (all_reserved b) in
    if 0 <? ordinary_slots then (true, set_stopped (set_budget_marker (spend b)))
    else if 0 <? terminal_slots b then
      (true, set_stopped (set_budget_marker (set_terminal (sat_sub (terminal_slots b) 1) (spend b))))
    else if 1 <? hierarchy_root_slots b then
      (true, set_stopped (set_budget_marker
         (set_roots (dec_usize (hierarchy_root_slots b) 1) (future_hierarchy_root_slots b) (spend b))))
    else (false, set_stopped b).

Definition take_module_marker (b : InstanceBudget) : bool * InstanceBudget :=
  if workspace_catalog_quotas b then
    if module_marker_emitted b || negb (module_catalog_marker_reserved b)
       || (module_catalog_workspace_slots b =? 0) || (remaining b <=? reserved_root_slots b)
    then (false, b)
    else
      let b := spend b in
      let b := set_catalog (dec_usize (module_catalog_slots b) 1)
                 (dec_usize (module_catalog_workspace_slots b) 1) (future_module_catalog_slots b) b in
      (true, set_module_marker true (set_marker_reserved false b))
  else
    if module_marker_emitted b || (module_catalog_slots b =? 0) || (remaining b <=? reserved_root_slots b)
    then (false, b)
    else
      let b := spend b in
      let b := set_catalog (dec_usize (module_catalog_slots b) 1) (module_catalog_workspace_slots b)
                 (future_module_catalog_slots b) b in
      (true, set_module_marker true b).

(** ** Records *)

(** [collect_budgeted]: the records, the [truncated] flag and the budget. *)
Fixpoint collect_budgeted {I U : Type} (map : I -> U) (items : list I) (truncated : bool)
    (b : InstanceBudget) : list U * bool * InstanceBudget :=
  match items with
  | [] => ([], truncated, b)
  | item :: rest =>
      let '(taken, b) := take_regular b in
      if taken then
        let '(collected, truncated, b) := collect_budgeted map rest truncated b in
        (map item :: collected, truncated, b)
      else
        let '(_, b) := take_budget_marker b in
        ([], true, b)
  end.

Section Catalog.
(** The contents of a record, which the budget does not look at. *)
Context {ExplorerRange ExplorerPort ExplorerParameter ExplorerSignal : Type}.

Record ExplorerModule : Type := mkModule {
  id : string;
  name : string;
  uri : option string;
  range : option ExplorerRange;
  content_source : option string;
  is_budget_truncated : bool;
  ports : list ExplorerPort;
  params : list ExplorerParameter;
  signals : list ExplorerSignal
}.

Definition budget_module_marker (root_id : string) : ExplorerModule :=
  mkModule (cat ["module:"; root_id; ":<budget-truncated>"]) "<budget-truncated>" None None
    (Some "budget-truncated"%string) true [] [] [].

Definition mark_truncated (m : ExplorerModule) : ExplorerModule :=
  mkModule (id m) (name m) (uri m) (range m) (content_source m) true (ports m) (params m) (signals m).

(** [modules.last_mut()]. *)
Fixpoint mark_last (modules : list ExplorerModule) : list ExplorerModule :=
  match modules with
  | [] => []
  | [m] => [mark_truncated m]
  | m :: rest => m :: mark_last rest
  end.

Definition take_module_record (root_id : string) (modules : list ExplorerModule) (more_definitions : bool)
    (b : InstanceBudget) : bool * list ExplorerModule * InstanceBudget :=
  let '(taken, b) := take_module more_definitions b in
  if taken then (true, modules, b)
  else
    let '(marked, b) := if more_definitions then take_module_marker b else (false, b) in
    if marked then (false, modules ++ [budget_module_marker root_id], b)
    else (false, mark_last modules, b).

(** The catalog loop of the snapshots (module_explorer.rs): a record per
    definition until one is refused. [record] builds the module and spends
    budget on its contents. *)
Fixpoint catalog_loop {D : Type} (record : D -> InstanceBudget -> ExplorerModule * InstanceBudget)
    (root_id : string) (definitions : list D) (modules : list ExplorerModule) (b : InstanceBudget)
  : list ExplorerModule * InstanceBudget :=
  match definitions with
  | [] => (modules, b)
  | d :: rest =>
      let '(taken, modules, b) :=
        take_module_record root_id modules (match rest with [] => false | _ => true end) b in
      if taken then
        let '(m, b) := record d b in
        catalog_loop record root_id rest (modules ++ [m]) b
      else (modules, b)
  end.
End Catalog.
