(* ===== verification/BudgetClaims.v ===== *)
(** * The response budget: invariant, bound and guarantees

    The reserves always fit in what remains, so no counter wraps; a response
    never exceeds its size; and reserved roots and catalog entries are granted
    whatever the traversal before them spent. *)

From Stdlib Require Import ZArith Lia Ascii String.
From stdpp Require Import base list strings.
From S2P Require Import Prelude Budget.
Open Scope Z_scope.
Open Scope list_scope.

(** ** The invariant *)

Record budget_ok (b : InstanceBudget) : Prop := {
  ok_terminal : 0 <= terminal_slots b;
  ok_roots : 0 <= hierarchy_root_slots b;
  ok_future_roots : 0 <= future_hierarchy_root_slots b;
  ok_workspace : 0 <= module_catalog_workspace_slots b;
  ok_future_catalog : 0 <= future_module_catalog_slots b;
  ok_catalog : 0 <= module_catalog_slots b;
  ok_fits : terminal_slots b + hierarchy_root_slots b + future_hierarchy_root_slots b
            + module_catalog_slots b <= remaining b;
  ok_size : remaining b <= MAX_INSTANCE_NODES;
  ok_quotas : if workspace_catalog_quotas b
              then module_catalog_slots b
                   = module_catalog_workspace_slots b + future_module_catalog_slots b
              else future_module_catalog_slots b = 0
}.

Lemma dec_small a : 1 <= a <= MAX_INSTANCE_NODES -> dec_usize a 1 = a - 1.
Proof. unfold dec_usize, wrap_u, MAX_INSTANCE_NODES. intros H. apply Z.mod_small. lia. Qed.

Lemma dec_by a b : 0 <= b <= a -> a <= MAX_INSTANCE_NODES -> dec_usize a b = a - b.
Proof. unfold dec_usize, wrap_u, MAX_INSTANCE_NODES. intros H H'. apply Z.mod_small. lia. Qed.

Lemma sat_add_small a b : 0 <= a + b <= MAX_INSTANCE_NODES -> sat_add a b = a + b.
Proof. unfold sat_add, usize_max, MAX_INSTANCE_NODES. lia. Qed.

Lemma div_ceil_spec a b : 0 <= a -> 0 < b -> 0 <= div_ceil a b <= a /\ a <= b * div_ceil a b < a + b.
Proof.
  intros Ha Hb. unfold div_ceil. pose proof (Z.div_mod a b ltac:(lia)) as Hd.
  pose proof (Z.mod_pos_bound a b Hb) as Hm. pose proof (Z.div_pos a b Ha Hb) as Hq.
  destruct (Z.eqb_spec (a mod b) 0) as [E | E]; split; nia.
Qed.

(** The sums that the guards compare, without saturation. *)
Lemma reserved_sums b :
  budget_ok b ->
  reserved_root_slots b = hierarchy_root_slots b + future_hierarchy_root_slots b
  /\ all_reserved b = terminal_slots b + hierarchy_root_slots b + future_hierarchy_root_slots b
                      + module_catalog_slots b
  /\ sat_add (future_hierarchy_root_slots b) (module_catalog_slots b)
     = future_hierarchy_root_slots b + module_catalog_slots b
  /\ sat_add (reserved_root_slots b) (module_catalog_slots b)
     = hierarchy_root_slots b + future_hierarchy_root_slots b + module_catalog_slots b.
Proof.
  intros []. unfold all_reserved, reserved_root_slots.
  assert (E : sat_add (hierarchy_root_slots b) (future_hierarchy_root_slots b)
              = hierarchy_root_slots b + future_hierarchy_root_slots b) by (apply sat_add_small; lia).
  rewrite E. rewrite !(sat_add_small (terminal_slots b)) by lia. rewrite !sat_add_small by lia.
  split_and!; lia.
Qed.

Lemma with_reserved_slots_ok t r c : 0 <= t -> 0 <= r -> 0 <= c -> budget_ok (with_reserved_slots t r c).
Proof.
  intros. unfold with_reserved_slots, sat_sub, MAX_INSTANCE_NODES. split;
    cbn [remaining terminal_slots hierarchy_root_slots future_hierarchy_root_slots module_catalog_slots
         module_catalog_workspace_slots future_module_catalog_slots workspace_catalog_quotas];
    unfold MAX_INSTANCE_NODES; lia.
Qed.

(** Splits the guards of an operation into facts about the counters. *)
Ltac guards :=
  repeat match goal with
  | H : (_ || _) = false |- _ => apply orb_false_iff in H as [? ?]
  | H : (_ && _) = true |- _ => apply andb_true_iff in H as [? ?]
  | H : negb _ = true |- _ => apply negb_true_iff in H
  | H : negb _ = false |- _ => apply negb_false_iff in H
  | H : (_ <=? _) = false |- _ => apply Z.leb_gt in H
  | H : (_ <? _) = true |- _ => apply Z.ltb_lt in H
  | H : (_ <? _) = false |- _ => apply Z.ltb_ge in H
  | H : (_ =? _) = false |- _ => apply Z.eqb_neq in H
  | H : (_ =? _) = true |- _ => apply Z.eqb_eq in H
  end.

(** Closes a goal of the invariant after an operation. *)
Ltac solve_ok :=
  split; simpl; unfold sat_sub in *; rewrite ?dec_small by lia;
  repeat match goal with H : workspace_catalog_quotas _ = _ |- _ => rewrite H in * end; simpl in *; lia.

(** ** Operations *)

Inductive request : Type :=
| Regular | Root | Module_ (more_definitions : bool) | Terminal | BudgetMarker | ModuleMarker.

Definition serve (r : request) (b : InstanceBudget) : bool * InstanceBudget :=
  match r with
  | Regular => take_regular b
  | Root => take_root b
  | Module_ more => take_module more b
  | Terminal => take_terminal b
  | BudgetMarker => take_budget_marker b
  | ModuleMarker => take_module_marker b
  end.

(** A granted request spends one record; a refused one spends none. The
    invariant and the future shares stay. *)
Definition served (r : request) : Prop :=
  forall b, budget_ok b ->
    budget_ok (serve r b).2
    /\ remaining (serve r b).2 = remaining b - Z.b2z (serve r b).1
    /\ future_hierarchy_root_slots (serve r b).2 = future_hierarchy_root_slots b
    /\ future_module_catalog_slots (serve r b).2 = future_module_catalog_slots b
    /\ workspace_catalog_quotas (serve r b).2 = workspace_catalog_quotas b.

Ltac serve_tac :=
  intros b Hb; pose proof (reserved_sums b Hb) as (E1 & E2 & E3 & E4); pose proof Hb as [];
  cbn [serve]; unfold take_regular, take_root, take_module, take_terminal, take_budget_marker,
    take_module_marker, spend; rewrite ?E4, ?E2, ?E3, ?E1;
  repeat case_match; guards; cbn [fst snd Z.b2z] in *; simpl in *; rewrite ?dec_small in * by lia;
  split_and!; try done; try lia; solve_ok.

Lemma regular_served : served Regular.
Proof. serve_tac. Qed.
Lemma root_served : served Root.
Proof. serve_tac. Qed.
Lemma module_served more : served (Module_ more).
Proof. destruct more; serve_tac. Qed.
Lemma terminal_served : served Terminal.
Proof. serve_tac. Qed.
Lemma budget_marker_served : served BudgetMarker.
Proof. serve_tac. Qed.
Lemma module_marker_served : served ModuleMarker.
Proof. serve_tac. Qed.

Lemma serve_ok r : served r.
Proof.
  destruct r; [apply regular_served | apply root_served | apply module_served | apply terminal_served
              | apply budget_marker_served | apply module_marker_served].
Qed.

(** ** Workspaces *)

(** The pools that a workspace draws from. *)
Definition root_pool (b : InstanceBudget) : Z := hierarchy_root_slots b + future_hierarchy_root_slots b.

Lemma root_pool_eq b : root_pool b = hierarchy_root_slots b + future_hierarchy_root_slots b.
Proof. reflexivity. Qed.

Lemma return_roots_ok b :
  budget_ok b -> budget_ok (return_roots b) /\ future_hierarchy_root_slots (return_roots b) = root_pool b.
Proof.
  intros Hb. pose proof Hb as []. unfold return_roots, root_pool. simpl.
  rewrite sat_add_small by lia. split; [| lia]. split; simpl; try lia. done.
Qed.

Lemma prepare_ok b :
  budget_ok b ->
  budget_ok (prepare_workspaces b) /\ remaining (prepare_workspaces b) = remaining b
  /\ root_pool (prepare_workspaces b) = root_pool b
  /\ module_catalog_slots (prepare_workspaces b) = module_catalog_slots b
  /\ workspace_catalog_quotas (prepare_workspaces b) = true.
Proof.
  intros Hb. destruct (return_roots_ok b Hb) as [Hr Ef]. pose proof Hr as [].
  unfold prepare_workspaces. destruct (workspace_catalog_quotas (return_roots b)) eqn:Q; simpl negb; cbv iota.
  - by split_and!.
  - unfold root_pool in *. simpl in *. rewrite ?Q in *.
    rewrite (sat_add_small (future_module_catalog_slots b)) by lia.
    split_and!; try done. split; simpl; lia.
Qed.

Lemma div_ceil_0 k : div_ceil 0 k = 0.
Proof. unfold div_ceil. by rewrite Zmod_0_l, Zdiv_0_l. Qed.

Lemma return_pools_ok b :
  budget_ok b ->
  budget_ok (return_pools b)
  /\ hierarchy_root_slots (return_pools b) = 0
  /\ future_hierarchy_root_slots (return_pools b) = root_pool b
  /\ module_catalog_workspace_slots (return_pools b) = 0
  /\ future_module_catalog_slots (return_pools b) = module_catalog_slots b.
Proof.
  intros Hb. destruct (return_roots_ok b Hb) as [Hr Ef]. pose proof Hr as [].
  assert (E : future_module_catalog_slots (return_pools b) = module_catalog_slots b).
  { unfold return_pools. simpl in *. destruct (workspace_catalog_quotas b); simpl;
      rewrite sat_add_small by lia; lia. }
  split_and!; [| done | done | done | done].
  split; try rewrite E; simpl in *; rewrite ?Ef in *; unfold root_pool in *; lia.
Qed.

Lemma grant_roots_ok k b :
  budget_ok b -> 1 <= k -> hierarchy_root_slots b = 0 ->
  budget_ok (grant_roots k b)
  /\ hierarchy_root_slots (grant_roots k b) = div_ceil (future_hierarchy_root_slots b) k
  /\ root_pool (grant_roots k b) = future_hierarchy_root_slots b.
Proof.
  intros Hb Hk H0. pose proof Hb as []. unfold grant_roots, root_pool.
  rewrite (proj2 (Z.eqb_neq k 0)) by lia.
  pose proof (div_ceil_spec (future_hierarchy_root_slots b) k ltac:(lia) ltac:(lia)) as D.
  destruct (Z.eqb_spec (future_hierarchy_root_slots b) 0) as [E | E]; simpl negb; cbn [andb]; cbv iota zeta.
  - rewrite E, div_ceil_0, H0. done.
  - rewrite dec_by by lia. split_and!; [| done | simpl; lia]. split; simpl; try lia; done.
Qed.

Lemma grant_catalog_ok k b :
  budget_ok b -> 1 <= k -> module_catalog_workspace_slots b = 0 -> workspace_catalog_quotas b = true ->
  module_catalog_marker_reserved b = false ->
  budget_ok (grant_catalog k b)
  /\ module_catalog_workspace_slots (grant_catalog k b) = div_ceil (future_module_catalog_slots b) k
  /\ module_catalog_marker_reserved (grant_catalog k b)
     = (1 <? module_catalog_workspace_slots (grant_catalog k b)).
Proof.
  intros Hb Hk H0 Hq Hm. pose proof Hb as []. rewrite Hq in *. unfold grant_catalog.
  rewrite (proj2 (Z.eqb_neq k 0)) by lia.
  pose proof (div_ceil_spec (future_module_catalog_slots b) k ltac:(lia) ltac:(lia)) as D.
  destruct (Z.eqb_spec (future_module_catalog_slots b) 0) as [E | E]; simpl negb; cbn [andb]; cbv iota zeta.
  - rewrite E, div_ceil_0, H0, Hm. done.
  - rewrite dec_by by lia. split_and!; [| done | done]. split; simpl; rewrite ?Hq; lia.
Qed.

(** Fields that the two grants leave alone. *)
Lemma grant_roots_frame k b :
  remaining (grant_roots k b) = remaining b
  /\ workspace_catalog_quotas (grant_roots k b) = workspace_catalog_quotas b
  /\ module_catalog_slots (grant_roots k b) = module_catalog_slots b
  /\ module_catalog_workspace_slots (grant_roots k b) = module_catalog_workspace_slots b
  /\ future_module_catalog_slots (grant_roots k b) = future_module_catalog_slots b
  /\ module_catalog_marker_reserved (grant_roots k b) = module_catalog_marker_reserved b
  /\ module_marker_emitted (grant_roots k b) = module_marker_emitted b.
Proof. unfold grant_roots. by destruct (_ && _). Qed.

Lemma grant_catalog_frame k b :
  remaining (grant_catalog k b) = remaining b
  /\ workspace_catalog_quotas (grant_catalog k b) = workspace_catalog_quotas b
  /\ hierarchy_root_slots (grant_catalog k b) = hierarchy_root_slots b
  /\ root_pool (grant_catalog k b) = root_pool b
  /\ module_catalog_slots (grant_catalog k b) = module_catalog_slots b
  /\ module_marker_emitted (grant_catalog k b) = module_marker_emitted b.
Proof. unfold grant_catalog. by destruct (_ && _). Qed.

(** The share of the next of [k] workspaces, in both pools. *)
Lemma begin_ok k b :
  budget_ok b -> 1 <= k ->
  budget_ok (begin_workspace k b)
  /\ remaining (begin_workspace k b) = remaining b
  /\ workspace_catalog_quotas (begin_workspace k b) = true
  /\ hierarchy_root_slots (begin_workspace k b) = div_ceil (root_pool b) k
  /\ root_pool (begin_workspace k b) = root_pool b
  /\ module_catalog_slots (begin_workspace k b) = module_catalog_slots b
  /\ module_catalog_workspace_slots (begin_workspace k b) = div_ceil (module_catalog_slots b) k
  /\ module_catalog_marker_reserved (begin_workspace k b)
     = (1 <? module_catalog_workspace_slots (begin_workspace k b))
  /\ module_marker_emitted (begin_workspace k b) = false.
Proof.
  intros Hb Hk. destruct (return_pools_ok b Hb) as (O1 & A1 & A2 & A3 & A4).
  destruct (grant_roots_ok k (return_pools b) O1 Hk A1) as (O2 & B1 & B2).
  destruct (grant_roots_frame k (return_pools b)) as (F1 & F2 & F3 & F4 & F5 & F6 & F7).
  unfold begin_workspace. set (g := grant_roots k (return_pools b)) in *.
  destruct (grant_catalog_frame k g) as (G1 & G2 & G3 & G4 & G5 & G6).
  destruct (grant_catalog_ok k g O2 Hk) as (O3 & C1 & C2); [congruence | by rewrite F2 | by rewrite F6 |].
  split_and!; try done; try congruence; [by rewrite G1, F1 | by rewrite G2, F2 | by rewrite G5, F3 |].
  by rewrite G6, F7.
Qed.

(** ** Runs *)

Definition serve_all (rs : list request) (b : InstanceBudget) : InstanceBudget :=
  fold_left (fun b r => (serve r b).2) rs b.

(** The states of a response: requests are granted or refused, workspaces are
    prepared and begun; [n] counts the records granted. *)
Inductive response : InstanceBudget -> Z -> Prop :=
| response_start t r c : 0 <= t -> 0 <= r -> 0 <= c -> response (with_reserved_slots t r c) 0
| response_serve b n r : response b n -> response (serve r b).2 (n + Z.b2z (serve r b).1)
| response_prepare b n : response b n -> response (prepare_workspaces b) n
| response_begin b n k : response b n -> 1 <= k -> response (begin_workspace k b) n.

Lemma response_ok b n : response b n -> budget_ok b /\ n + remaining b = MAX_INSTANCE_NODES /\ 0 <= n.
Proof.
  induction 1 as [t r c Ht Hr Hc | b n r _ (Hb & Hn & H0) | b n _ (Hb & Hn & H0) | b n k _ (Hb & Hn & H0) Hk].
  - split; [by apply with_reserved_slots_ok |]. simpl. lia.
  - destruct (serve_ok r b Hb) as (H1 & H2 & _). split_and!; [done | lia | destruct (serve r b).1; simpl; lia].
  - destruct (prepare_ok b Hb) as (H1 & H2 & _). split_and!; [done | lia | done].
  - destruct (begin_ok k b Hb Hk) as (H1 & H2 & _). split_and!; [done | lia | done].
Qed.

(** *** What requests leave of the reserves *)

Definition is_root (r : request) : bool := match r with Root => true | _ => false end.
Definition is_catalog (r : request) : bool := match r with Module_ _ | ModuleMarker => true | _ => false end.

Lemma serve_root_floor r b :
  budget_ok b -> is_root r = false -> 1 <= hierarchy_root_slots b -> 1 <= hierarchy_root_slots (serve r b).2.
Proof.
  intros Hb Hr H1. pose proof Hb as []. unfold MAX_INSTANCE_NODES in *.
  destruct r; cbn [serve is_root] in *; try done;
    unfold take_regular, take_module, take_terminal, take_budget_marker, take_module_marker, spend;
    repeat case_match; guards; simpl; rewrite ?dec_small by (unfold MAX_INSTANCE_NODES; lia); lia.
Qed.

Lemma serve_catalog_frame r b :
  is_catalog r = false ->
  workspace_catalog_quotas (serve r b).2 = workspace_catalog_quotas b
  /\ module_catalog_slots (serve r b).2 = module_catalog_slots b
  /\ module_catalog_workspace_slots (serve r b).2 = module_catalog_workspace_slots b
  /\ module_catalog_marker_reserved (serve r b).2 = module_catalog_marker_reserved b
  /\ module_marker_emitted (serve r b).2 = module_marker_emitted b.
Proof.
  intros Hr. destruct r; cbn [serve is_catalog] in *; try done;
    unfold take_regular, take_root, take_terminal, take_budget_marker, spend; by repeat case_match.
Qed.

Lemma serve_all_ok rs b :
  budget_ok b ->
  budget_ok (serve_all rs b)
  /\ future_hierarchy_root_slots (serve_all rs b) = future_hierarchy_root_slots b
  /\ future_module_catalog_slots (serve_all rs b) = future_module_catalog_slots b
  /\ workspace_catalog_quotas (serve_all rs b) = workspace_catalog_quotas b
  /\ (forallb (fun r => negb (is_root r)) rs = true -> 1 <= hierarchy_root_slots b ->
      1 <= hierarchy_root_slots (serve_all rs b)).
Proof.
  unfold serve_all. revert b. induction rs as [| r rs IH]; intros b Hb; simpl; [done |].
  destruct (serve_ok r b Hb) as (H1 & _ & H3 & H4 & H5). destruct (IH _ H1) as (I1 & I2 & I3 & I4 & I5).
  split_and!; [done | congruence | congruence | congruence |].
  intros [Hr Hrs]%andb_true_iff Hh. apply I5; [done |].
  apply serve_root_floor; [done | by apply negb_true_iff | done].
Qed.

Lemma serve_all_catalog rs b :
  forallb (fun r => negb (is_catalog r)) rs = true ->
  workspace_catalog_quotas (serve_all rs b) = workspace_catalog_quotas b
  /\ module_catalog_slots (serve_all rs b) = module_catalog_slots b
  /\ module_catalog_workspace_slots (serve_all rs b) = module_catalog_workspace_slots b
  /\ module_catalog_marker_reserved (serve_all rs b) = module_catalog_marker_reserved b
  /\ module_marker_emitted (serve_all rs b) = module_marker_emitted b.
Proof.
  unfold serve_all. revert b. induction rs as [| r rs IH]; intros b; simpl; [done |].
  intros [Hr Hrs]%andb_true_iff. apply negb_true_iff in Hr.
  destruct (serve_catalog_frame r b Hr) as (<- & <- & <- & <- & <-). by apply IH.
Qed.

Lemma take_root_granted b : budget_ok b -> 1 <= hierarchy_root_slots b -> (take_root b).1 = true.
Proof.
  intros Hb H1. destruct (reserved_sums b Hb) as (_ & _ & E3 & _). pose proof Hb as [].
  unfold take_root. destruct (negb (hierarchy_stopped b) && _); [done |]. rewrite E3.
  rewrite (proj2 (Z.ltb_lt 0 _)), (proj2 (Z.ltb_lt _ (remaining b))) by lia. done.
Qed.

Lemma take_module_granted more b :
  budget_ok b -> workspace_catalog_quotas b = true -> 1 <= module_catalog_workspace_slots b ->
  module_catalog_marker_reserved b = (1 <? module_catalog_workspace_slots b) ->
  (take_module more b).1 = true.
Proof.
  intros Hb Hq H1 Hm. destruct (reserved_sums b Hb) as (E1 & _). pose proof Hb as []. rewrite Hq in *.
  unfold take_module. rewrite Hq, E1, Hm.
  rewrite (proj2 (Z.eqb_neq (module_catalog_workspace_slots b) 0)), (proj2 (Z.leb_gt (remaining b) _)) by lia.
  destruct (Z.eqb_spec (module_catalog_workspace_slots b) 1) as [-> |]; [| by rewrite andb_false_r].
  by rewrite andb_false_r.
Qed.

(** ** A response over workspaces *)

(** The budget when [k] of the workspaces are still to be serialised: the first
    state is prepared, and a workspace serves any requests. *)
Inductive pending (n : nat) : nat -> InstanceBudget -> Prop :=
| pending_all : pending n n (prepare_workspaces new_response_budget)
| pending_next k b rs :
    pending n (S k) b -> pending n k (serve_all rs (begin_workspace (Z.of_nat (S k)) b)).

Lemma new_response_ok : budget_ok new_response_budget.
Proof. apply with_reserved_slots_ok; done. Qed.

Lemma new_response_pools :
  root_pool new_response_budget = RESPONSE_HIERARCHY_ROOT_SLOTS
  /\ module_catalog_slots new_response_budget = RESPONSE_MODULE_CATALOG_SLOTS.
Proof. split; vm_compute; reflexivity. Qed.

(** After one of [m] fair shares, the others still get one each. *)
Lemma share_left pool m : 1 <= m <= pool -> 1 <= div_ceil pool m /\ m - 1 <= pool - div_ceil pool m.
Proof.
  intros H. destruct (div_ceil_spec pool m ltac:(lia) ltac:(lia)) as [D1 D2]. split; nia.
Qed.

Lemma prepared_ok :
  budget_ok (prepare_workspaces new_response_budget)
  /\ root_pool (prepare_workspaces new_response_budget) = RESPONSE_HIERARCHY_ROOT_SLOTS
  /\ module_catalog_slots (prepare_workspaces new_response_budget) = RESPONSE_MODULE_CATALOG_SLOTS.
Proof.
  destruct (prepare_ok _ new_response_ok) as (H1 & _ & H2 & H3 & _).
  destruct new_response_pools as [P1 P2]. rewrite P1 in H2. rewrite P2 in H3.
  exact (conj H1 (conj H2 H3)).
Qed.

Lemma pending_ok n k b :
  pending n k b -> Z.of_nat n <= RESPONSE_HIERARCHY_ROOT_SLOTS ->
  budget_ok b /\ workspace_catalog_quotas b = true
  /\ Z.of_nat k <= root_pool b /\ Z.of_nat k <= module_catalog_slots b.
Proof.
  intros H Hn. induction H as [| k b rs H IH].
  - destruct prepared_ok as (H1 & H2 & H3). rewrite H2, H3.
    destruct (prepare_ok _ new_response_ok) as (_ & _ & _ & _ & Hq).
    unfold RESPONSE_HIERARCHY_ROOT_SLOTS, RESPONSE_MODULE_CATALOG_SLOTS in *. split_and!; [exact H1 | exact Hq | lia | lia].
  - destruct IH as (Hb & _ & Hp & Hc). remember (Z.of_nat (S k)) as m eqn:Em.
    destruct (begin_ok m b Hb) as (B1 & _ & B3 & B4 & B5 & B6 & B7 & _); [lia |].
    destruct (serve_all_ok rs _ B1) as (S1 & S2 & S3 & S4 & _).
    destruct (share_left (root_pool b) m) as [_ Hs]; [lia |].
    destruct (share_left (module_catalog_slots b) m) as [_ Hs']; [lia |].
    pose proof (ok_roots _ S1) as Hr. pose proof (ok_quotas _ B1) as Q1. pose proof (ok_quotas _ S1) as Q2.
    pose proof (ok_workspace _ S1) as Hw. rewrite B3 in Q1. rewrite S4, B3 in Q2.
    rewrite (root_pool_eq (serve_all _ _)). rewrite (root_pool_eq (begin_workspace m b)) in B5.
    split; [exact S1 |]. split; [congruence |]. lia.
Qed.

(** ** The catalog of a workspace *)

Section CatalogLoop.
Context {R P Q T D : Type}.
#[local] Notation module_ := (@ExplorerModule R P Q T).
Context (record : D -> InstanceBudget -> module_ * InstanceBudget).
(** A record spends budget on its contents only. *)
Hypothesis record_spends : forall d b,
  exists rs, forallb (fun r => negb (is_catalog r)) rs = true /\ (record d b).2 = serve_all rs b.

Lemma mark_last_truncated (modules : list module_) :
  modules <> [] ->
  exists m, last (mark_last modules) = Some m /\ is_budget_truncated m = true
            /\ length (mark_last modules) = length modules.
Proof.
  induction modules as [| m modules IH]; [done |]. intros _. destruct modules as [| m' modules].
  - simpl. eauto.
  - destruct IH as (x & Hx & Ht & Hl); [done |].
    change (mark_last (m :: m' :: modules)) with (m :: mark_last (m' :: modules)).
    exists x. split_and!; [| done | simpl in *; lia].
    destruct (mark_last (m' :: modules)) as [| y ys]; [done |]. done.
Qed.

(** The budget of a workspace between two entries. *)
Record catalog_ok (modules : list module_) (b : InstanceBudget) : Prop := {
  catalog_budget : budget_ok b;
  catalog_quotas : workspace_catalog_quotas b = true;
  catalog_unmarked : module_marker_emitted b = false;
  catalog_reserve : module_catalog_marker_reserved b = true -> 1 <= module_catalog_workspace_slots b;
  catalog_first : modules = [] ->
    1 <= module_catalog_workspace_slots b
    /\ module_catalog_marker_reserved b = (1 <? module_catalog_workspace_slots b)
}.

Lemma take_module_step more b :
  budget_ok b -> workspace_catalog_quotas b = true -> (take_module more b).1 = true ->
  let b' := (take_module more b).2 in
  module_catalog_workspace_slots b' = module_catalog_workspace_slots b - 1
  /\ 1 <= module_catalog_workspace_slots b
  /\ module_marker_emitted b' = module_marker_emitted b
  /\ (module_catalog_marker_reserved b' = true -> 1 <= module_catalog_workspace_slots b').
Proof.
  intros Hb Hq. pose proof Hb as []. rewrite Hq in *. unfold take_module. rewrite Hq.
  case_match; [done |]. guards. intros _. cbv zeta. cbn [fst snd].
  assert (E : dec_usize (module_catalog_workspace_slots b) 1 = module_catalog_workspace_slots b - 1)
    by (apply dec_small; lia).
  case_match; guards; simpl in *; rewrite E in *; split_and!; try done; try lia.
Qed.

Lemma record_step modules m d b :
  catalog_ok modules b -> (take_module m b).1 = true ->
  catalog_ok (modules ++ [(record d (take_module m b).2).1]) (record d (take_module m b).2).2
  /\ module_catalog_workspace_slots (record d (take_module m b).2).2 = module_catalog_workspace_slots b - 1.
Proof.
  intros [Hb Hq Hu Hr _] Ht. destruct (serve_ok (Module_ m) b Hb) as (O1 & _ & _ & _ & O5). cbn [serve] in *.
  destruct (take_module_step m b Hb Hq Ht) as (W1 & W2 & W3 & W4).
  destruct (record_spends d (take_module m b).2) as (rs & Hrs & ->).
  destruct (serve_all_ok rs _ O1) as (A1 & _). destruct (serve_all_catalog rs (take_module m b).2 Hrs)
    as (C1 & C2 & C3 & C4 & C5).
  split; [| congruence]. split; [done | congruence | congruence | |].
  - rewrite C4, C3. exact W4.
  - intros E. by destruct modules.
Qed.

Lemma refused_marker modules more b :
  catalog_ok modules b -> (take_module more b).1 = false ->
  modules <> []
  /\ 0 <= module_catalog_workspace_slots b
  /\ (module_catalog_workspace_slots b = 0
      \/ (more = true /\ module_catalog_workspace_slots b = 1 /\ (take_module_marker b).1 = true)).
Proof.
  intros [Hb Hq Hu Hr Hf] Ht. pose proof Hb as []. destruct (reserved_sums b Hb) as (E1 & _).
  split; [| split; [done |]].
  - intros ->. destruct (Hf eq_refl) as [H1 H2]. rewrite take_module_granted in Ht; done.
  - rewrite Hq in *. revert Ht. unfold take_module, take_module_marker. rewrite Hq, Hu, E1.
    destruct (Z.eqb_spec (module_catalog_workspace_slots b) 0) as [E0 | E0]; [by left |].
    rewrite (proj2 (Z.leb_gt (remaining b) _)) by lia.
    destruct more, (module_catalog_marker_reserved b), (Z.eqb_spec (module_catalog_workspace_slots b) 1);
      simpl; try done. intros _. right. done.
Qed.

Lemma catalog_loop_surfaced root_id definitions modules b :
  catalog_ok modules b ->
  let out := (catalog_loop record root_id definitions modules b).1 in
  (length out <= length modules + Z.to_nat (module_catalog_workspace_slots b))%nat
  /\ (length out = (length modules + length definitions)%nat
      \/ exists m, last out = Some m /\ is_budget_truncated m = true).
Proof.
  revert modules b. induction definitions as [| d rest IH]; intros modules b Hok; cbv zeta.
  { simpl. split; [lia | left; lia]. }
  cbn [catalog_loop]. set (more := match rest with [] => false | _ => true end).
  unfold take_module_record. destruct (take_module more b) as [taken b1] eqn:Et. destruct taken.
  - pose proof (record_step modules more d b Hok) as Hs. rewrite Et in Hs. cbn [fst snd] in Hs.
    destruct Hs as [Hok' Hw]; [done |]. destruct (take_module_step more b) as (_ & W & _);
      [apply Hok | apply Hok | by rewrite Et |].
    destruct (record d b1) as [m b2]. cbn [fst snd] in *.
    destruct (IH (modules ++ [m]) b2 Hok') as [I1 I2]. cbv zeta in I1, I2. rewrite length_app in I1, I2.
    simpl in I1, I2. split; [lia |]. destruct I2 as [I2 | I2]; [left; simpl; lia | by right].
  - assert (Hf : (take_module more b).1 = false) by (by rewrite Et).
    assert (Eb : b1 = b).
    { revert Et. unfold take_module. rewrite (catalog_quotas _ _ Hok). case_match; congruence. }
    subst b1. destruct (refused_marker modules more b Hok Hf) as (Hne & H0 & Hcase).
    destruct (mark_last_truncated modules Hne) as (x & Hx & Htr & Hl).
    destruct (if more then take_module_marker b else (false, b)) as [marked b2] eqn:Em.
    destruct marked; cbn [fst].
    + destruct Hcase as [H1 | (-> & H1 & _)].
      * exfalso. destruct more; [| done]. revert Em. unfold take_module_marker.
        rewrite (catalog_quotas _ _ Hok), H1. simpl. by rewrite orb_true_r.
      * rewrite length_app. simpl. split; [lia |]. right. exists (budget_module_marker root_id).
        split; [apply last_snoc | done].
    + split; [lia |]. right. eauto.
Qed.
End CatalogLoop.

(** ** Claims *)

(** C27: over every run of a response, whatever is requested and however
    workspaces are begun, the reserves fit in what remains, no counter wraps,
    and the records granted plus those remaining are the size of the budget:
    at most [MAX_INSTANCE_NODES] records are ever granted. *)
Theorem explorer_bounded b n :
  response b n -> budget_ok b /\ n + remaining b = MAX_INSTANCE_NODES /\ 0 <= n <= MAX_INSTANCE_NODES.
Proof.
  intros H. destruct (response_ok b n H) as (Hb & Hn & H0). pose proof Hb as []. split_and!; [done | done | done | lia].
Qed.

Lemma explorer_bounded_witness :
  budget_ok (serve Root (begin_workspace 2 (prepare_workspaces (with_reserved_slots 2 64 256)))).2.
Proof.
  assert (H2 : 0 <= 2) by lia. assert (H64 : 0 <= 64) by lia. assert (H256 : 0 <= 256) by lia.
  assert (H : 1 <= 2) by lia.
  exact (proj1 (explorer_bounded _ _
    (response_serve _ _ Root
       (response_begin _ _ 2 (response_prepare _ _ (response_start 2 64 256 H2 H64 H256)) H)))).
Defined.

(** C33: with at most 64 workspaces in a response, the first root of every
    workspace and its first catalog entry are granted, whatever the workspaces
    before it and the traversal of its own contents have spent. *)
Theorem workspace_served n k b rs more :
  pending n (S k) b -> Z.of_nat n <= RESPONSE_HIERARCHY_ROOT_SLOTS ->
  (forallb (fun r => negb (is_root r)) rs = true ->
   (take_root (serve_all rs (begin_workspace (Z.of_nat (S k)) b))).1 = true)
  /\ (forallb (fun r => negb (is_catalog r)) rs = true ->
      (take_module more (serve_all rs (begin_workspace (Z.of_nat (S k)) b))).1 = true).
Proof.
  intros H Hn. destruct (pending_ok n (S k) b H Hn) as (Hb & _ & Hp & Hc).
  remember (Z.of_nat (S k)) as m eqn:Em.
  destruct (begin_ok m b Hb) as (B1 & _ & B3 & B4 & _ & _ & B7 & B8 & _); [lia |].
  destruct (serve_all_ok rs _ B1) as (S1 & _ & _ & S4 & S5). split; intros Hrs.
  - apply take_root_granted; [exact S1 |]. apply S5; [exact Hrs |]. rewrite B4. apply share_left. lia.
  - destruct (serve_all_catalog rs (begin_workspace m b) Hrs) as (C1 & _ & C3 & C4 & _).
    apply take_module_granted; [exact S1 | congruence | | congruence].
    rewrite C3, B7. apply share_left. lia.
Qed.

Lemma workspace_served_witness :
  (take_root (serve_all (repeat Regular 20) (begin_workspace 1 (prepare_workspaces new_response_budget)))).1 = true.
Proof.
  apply (workspace_served 1 0 (prepare_workspaces new_response_budget) (repeat Regular 20) true);
    [constructor | vm_compute; discriminate | reflexivity].
Defined.

(** No definition is dropped silently: when a workspace begins with a
    catalog slot, its catalog has at most its quota of entries, and either
    holds an entry for every definition or ends with one marked truncated. *)
Theorem catalog_surfaced {R P Q T D} (record : D -> InstanceBudget -> @ExplorerModule R P Q T * InstanceBudget)
    root_id definitions k b :
  (forall d b, exists rs,
     forallb (fun r => negb (is_catalog r)) rs = true /\ (record d b).2 = serve_all rs b) ->
  budget_ok b -> 1 <= k <= module_catalog_slots b ->
  let out := (catalog_loop record root_id definitions [] (begin_workspace k b)).1 in
  (length out <= Z.to_nat (div_ceil (module_catalog_slots b) k))%nat
  /\ (length out = length definitions \/ exists m, last out = Some m /\ is_budget_truncated m = true).
Proof.
  intros Hrec Hb Hk. destruct (begin_ok k b Hb) as (B1 & _ & B3 & _ & _ & _ & B7 & B8 & B9); [lia |].
  destruct (share_left (module_catalog_slots b) k Hk) as [Hs _].
  destruct (catalog_loop_surfaced record Hrec root_id definitions [] (begin_workspace k b)) as [H1 H2].
  - split; [done | done | done | | intros _; by rewrite B7 in * ].
    rewrite B8. intros ?%Z.ltb_lt. lia.
  - rewrite B7 in H1. done.
Qed.

Lemma catalog_surfaced_witness :
  let record (d : nat) (b : InstanceBudget) :=
    (@mkModule unit unit unit unit (dec (Z.of_nat d)) "m" None None None false [] [] [], (take_regular b).2) in
  let out := (catalog_loop record "root" [1; 2; 3]%nat []
                (begin_workspace 128 (prepare_workspaces new_response_budget))).1 in
  length out = 3%nat \/ exists m, last out = Some m /\ is_budget_truncated m = true.
Proof.
  intros record. apply (catalog_surfaced record "root" [1; 2; 3]%nat 128).
  - intros d b. by exists [Regular].
  - apply prepared_ok.
  - vm_compute. split; discriminate.
Defined.
