(* ===== verification/Timescale.v ===== *)
(** * Time literals and delays (src/sim/codegen/timescale.rs)

    A delay written as a time literal is converted to precision ticks from its
    source text, over exact rationals in 128-bit integers; a real delay is
    converted over binary64 floats.  Floats are the Standard Library's
    [spec_float] with 53 bits; integers keep their width through the checked
    operations. *)

From Stdlib Require Import ZArith Lia Ascii String.
From Stdlib Require Import Floats.SpecFloat.
From stdpp Require Import base list strings.
From S2P Require Import Prelude Text.
Open Scope Z_scope.
Open Scope list_scope.

(** ** Results *)

(** The messages of the code; [Mismatch] is the one that prints its operands. *)
Inductive TimeError : Type :=
| Message (text : string)
| Mismatch (source : text) (value expected : spec_float).

Inductive result (A : Type) : Type :=
| Ok (a : A)
| Err (e : TimeError).
Arguments Ok {A} a.
Arguments Err {A} e.

Definition and_then {A B : Type} (m : result A) (k : A -> result B) : result B :=
  match m with
  | Ok a => k a
  | Err e => Err e
  end.
Declare Scope time_scope.
Delimit Scope time_scope with time.
Notation "'let?' x ':=' m 'in' k" := (and_then m (fun x => k))
  (at level 10, x pattern, m at level 200, k at level 200) : time_scope.
Open Scope time_scope.

Definition err {A} (s : string) : result A := Err (Message s).
Definition ok_or {A} (o : option A) (s : string) : result A :=
  match o with
  | Some a => Ok a
  | None => err s
  end.

Definition i32_max : Z := 2 ^ 31 - 1.
Definition u128_max : Z := 2 ^ 128 - 1.
Definition u64_max : Z := 2 ^ 64 - 1.

Definition checked (lo hi z : Z) : option Z := if (lo <=? z) && (z <=? hi) then Some z else None.
Definition checked_i128 : Z -> option Z := checked i128_min i128_max.
Definition checked_u128 : Z -> option Z := checked 0 u128_max.
Definition checked_i32 : Z -> option Z := checked (- 2 ^ 31) i32_max.

(** ** Floats *)

Definition prec : Z := 53.
Definition emax : Z := 1024.
Definition f64_of_Z (z : Z) : spec_float := binary_normalize prec emax z 0 false.
Definition f64_div : spec_float -> spec_float -> spec_float := SFdiv prec emax.
Definition f64_mul : spec_float -> spec_float -> spec_float := SFmul prec emax.
Definition f64_sub : spec_float -> spec_float -> spec_float := SFsub prec emax.

Definition is_finite (x : spec_float) : bool :=
  match x with
  | S754_finite _ _ _ | S754_zero _ => true
  | _ => false
  end.

(** [f64::max] of numbers. *)
Definition f64_max (a b : spec_float) : spec_float := if SFltb a b then b else a.

(** The literal [1.0e-9]. *)
Definition nano : spec_float := S754_finite false 4835703278458517 (-82).
Definition one : spec_float := f64_of_Z 1.

(** [f64::round]: to an integer, halves away from zero. *)
Definition round_half_away (m : positive) (e : Z) : Z :=
  if 0 <=? e then Z.pos m * 2 ^ e else (2 * Z.pos m + 2 ^ (- e)) / 2 ^ (1 - e).
Definition f64_round (x : spec_float) : spec_float :=
  match x with
  | S754_finite s m e =>
      binary_normalize prec emax (if s then - round_half_away m e else round_half_away m e) 0 s
  | _ => x
  end.

(** [x as u64] of a finite, nonnegative integer below [2^64]. *)
Definition f64_to_u64 (x : spec_float) : Z :=
  match x with
  | S754_finite false m e => if 0 <=? e then Z.pos m * 2 ^ e else Z.pos m / 2 ^ (- e)
  | _ => 0
  end.

(** ** Time scales *)

Record Timescale : Type := mkTimescale { unit_fs : Z; precision_fs : Z }.
Definition Timescale_DEFAULT : Timescale := mkTimescale 1000000 1000.

Inductive TimeUnit : Type :=
| Seconds | Milliseconds | Microseconds | Nanoseconds | Picoseconds | Femtoseconds.
Record TimeLiteralScale : Type := mkScale { unit : TimeUnit; magnitude : Z }.

Definition time_unit_femtoseconds (u : TimeUnit) : Z :=
  match u with
  | Seconds => 1000000000000000
  | Milliseconds => 1000000000000
  | Microseconds => 1000000000
  | Nanoseconds => 1000000
  | Picoseconds => 1000
  | Femtoseconds => 1
  end.

Definition real_delay_ticks (value : spec_float) (timescale : Timescale) : result Z :=
  if negb (is_finite value) || SFltb value (S754_zero false) then
    err "real parameter delay must be finite and nonnegative"
  else if (unit_fs timescale =? 0) || (precision_fs timescale =? 0) then
    err "delay requires a nonzero time unit and precision"
  else
    let ticks := f64_round
      (f64_mul value (f64_div (f64_of_Z (unit_fs timescale)) (f64_of_Z (precision_fs timescale)))) in
    if negb (is_finite ticks) || SFleb (f64_of_Z (2 ^ 64)) ticks then
      err "rounded real parameter delay exceeds the 64-bit tick range"
    else Ok (f64_to_u64 ticks).

(** ** Decimal literals *)

(** The loop of [try_fold]. *)
Fixpoint pow10_loop (n : nat) (value : Z) : result Z :=
  match n with
  | O => Ok value
  | S n' =>
      let? value := ok_or (checked_u128 (value * 10)) "time literal decimal scale exceeds the supported range" in
      pow10_loop n' value
  end.
Definition pow10 (exponent : Z) : result Z :=
  if 38 <? exponent then err "time literal decimal scale exceeds the supported range"
  else pow10_loop (Z.to_nat exponent) 1.

Definition UNITS : list (text * TimeUnit) :=
  [(chars "ms", Milliseconds); (chars "us", Microseconds); (chars "ns", Nanoseconds);
   (chars "ps", Picoseconds); (chars "fs", Femtoseconds); (chars "s", Seconds)].

Fixpoint find_unit (units : list (text * TimeUnit)) (token : text) : option (text * TimeUnit) :=
  match units with
  | [] => None
  | (suffix, u) :: rest =>
      match strip_suffix suffix token with
      | Some numeric => Some (numeric, u)
      | None => find_unit rest token
      end
  end.

(** An underscore that is not between two digits; [previous] is the character
    before the text. *)
Fixpoint bad_separator (previous : option Z) (t : text) : bool :=
  match t with
  | [] => false
  | c :: rest =>
      ((c =? 95)
       && negb (match previous, rest with
                | Some p, n :: _ => is_digit p && is_digit n
                | _, _ => false
                end))
      || bad_separator (Some c) rest
  end.

Definition is_sign (c : Z) : bool := (c =? 43) || (c =? 45).

(** The exponent after the digits: its value and what follows. *)
Definition parse_exponent (t : text) : result (Z * text) :=
  match t with
  | c :: rest =>
      if (c =? 101) || (c =? 69) then
        let '(negative, rest) :=
          match rest with
          | s :: rest' => if is_sign s then (s =? 45, rest') else (false, rest)
          | [] => (false, rest)
          end in
        let '(digits, after) := split_digits rest in
        match digits with
        | [] => err "time literal source has an invalid exponent"
        | _ =>
            let? value := ok_or (parse_number i32_max digits)
                            "time literal exponent exceeds the supported range" in
            if negative then
              let? value := ok_or (checked_i32 (- value)) "time literal exponent exceeds the supported range" in
              Ok (value, after)
            else Ok (value, after)
        end
      else Ok (0, t)
  | [] => Ok (0, t)
  end.

(** The coefficient and denominator of [digits * 10^decimal_exponent]. *)
Definition scale_decimal (coefficient decimal_exponent : Z) : result (Z * Z) :=
  if 0 <=? decimal_exponent then
    let? scale := pow10 decimal_exponent in
    let? scale := ok_or (checked_i128 scale) "time literal exponent exceeds the supported range" in
    let? coefficient := ok_or (checked_i128 (coefficient * scale))
                          "time literal value exceeds the supported range" in
    Ok (coefficient, 1)
  else
    let? positive := ok_or (checked_i32 (- decimal_exponent))
                       "time literal exponent exceeds the supported range" in
    let? denominator := pow10 positive in
    Ok (coefficient, denominator).

(** A point and its digits, if there is one, and what follows. *)
Definition split_fraction (t : text) : bool * text * text :=
  match t with
  | c :: rest =>
      if c =? 46 then let '(ds, after) := split_digits rest in (true, ds, after) else (false, [], t)
  | [] => (false, [], t)
  end.

(** The numeric part, its separators removed. *)
Definition parse_numeric (numeric : text) : result (Z * Z) :=
  let negative := bool_decide (head numeric = Some 45) in
  let unsigned := match numeric with
                  | c :: rest => if is_sign c then rest else numeric
                  | [] => []
                  end in
  let '(integer, rest) := split_digits unsigned in
  let '(point, fraction, rest) := split_fraction rest in
  (* [index != integer_start]: the point counts *)
  let has_integer := point || negb (is_empty integer) in
  let has_fraction := negb (is_empty fraction) in
  if negb has_integer && negb has_fraction then err "time literal source has no numeric digits"
  else
    let? (exponent, rest) := parse_exponent rest in
    if negb (is_empty rest) then err "time literal source has an invalid numeric value"
    else
      let? coefficient := ok_or (parse_number i128_max (integer ++ fraction))
                            "time literal value exceeds the supported range" in
      let? fraction_digits := ok_or (checked 0 i32_max (Z.of_nat (length fraction)))
                                "time literal fractional precision exceeds the supported range" in
      let? decimal_exponent := ok_or (checked_i32 (exponent - fraction_digits))
                                 "time literal decimal scale exceeds the supported range" in
      let? (coefficient, denominator) := scale_decimal coefficient decimal_exponent in
      let? coefficient :=
        (if negative then ok_or (checked_i128 (- coefficient)) "time literal value exceeds the supported range"
         else Ok coefficient) in
      Ok (coefficient, denominator).

Definition parse_decimal_rational (source : text) : result (Z * Z * TimeUnit) :=
  let? (numeric, literal_unit) := ok_or (find_unit UNITS (trim source))
                                    "time literal source has an invalid unit suffix" in
  let numeric := trim numeric in
  if bad_separator None numeric then err "time literal source has an invalid digit separator"
  else
    let? (coefficient, denominator) := parse_numeric (List.filter (fun c => negb (c =? 95)) numeric) in
    Ok (coefficient, denominator, literal_unit).

(** ** Rounding *)

Definition round_rational (numerator denominator : Z) : result Z :=
  let? denominator := ok_or (checked_i128 denominator) "time literal denominator exceeds the supported range" in
  if denominator =? 0 then err "time literal has a zero precision"
  else
    let quotient := Z.quot numerator denominator in
    let remainder := Z.rem numerator denominator in
    let magnitude := if remainder <? 0 then - remainder else remainder in
    let half_denominator := Z.quot denominator 2 + Z.rem denominator 2 in
    if half_denominator <=? magnitude then
      ok_or (checked_i128 (quotient + (if numerator <? 0 then -1 else 1)))
        "rounded time literal exceeds the supported range"
    else Ok quotient.

Definition rational_to_f64 (numerator denominator : Z) : result spec_float :=
  if denominator =? 0 then err "time literal has a zero scale"
  else
    let value := f64_div (f64_of_Z numerator) (f64_of_Z denominator) in
    if is_finite value then Ok value else err "time literal value exceeds the supported range".

(** ** Time literals *)

Definition valid_magnitude (m : Z) : bool := (m =? 1) || (m =? 10) || (m =? 100).

Definition time_literal_rational (value : spec_float) (source : text) (scale : TimeLiteralScale)
    (timescale : Timescale) : result (Z * Z * Z) :=
  if negb (is_finite value) then err "time literal value is not finite"
  else if negb (valid_magnitude (magnitude scale)) then err "time literal has an invalid unit magnitude"
  else
    let? (coefficient, decimal_denominator, literal_unit) := parse_decimal_rational source in
    let literal_femtoseconds := time_unit_femtoseconds literal_unit in
    let? unit_femtoseconds :=
      ok_or (checked_u128 (time_unit_femtoseconds (unit scale) * magnitude scale))
        "time literal unit scale overflows the supported range" in
    let precision_femtoseconds := precision_fs timescale in
    if precision_femtoseconds =? 0 then err "time literal has an invalid owning time precision"
    else
      let? literal_femtoseconds := ok_or (checked_i128 literal_femtoseconds)
                                     "time literal unit scale exceeds the supported range" in
      let? physical_numerator := ok_or (checked_i128 (coefficient * literal_femtoseconds))
                                   "time literal value exceeds the supported range" in
      let? expected_denominator := ok_or (checked_u128 (decimal_denominator * unit_femtoseconds))
                                     "time literal value exceeds the supported range" in
      let? expected := rational_to_f64 physical_numerator expected_denominator in
      let tolerance := f64_mul (f64_max (SFabs expected) one) nano in
      if SFltb tolerance (SFabs (f64_sub value expected)) then Err (Mismatch source value expected)
      else Ok (physical_numerator, decimal_denominator, unit_femtoseconds).

(** The ticks of a literal, shared by the two conversions. *)
Definition literal_ticks (physical_numerator decimal_denominator : Z) (timescale : Timescale) : result Z :=
  let? tick_denominator := ok_or (checked_u128 (decimal_denominator * precision_fs timescale))
                             "time literal value exceeds the supported range" in
  round_rational physical_numerator tick_denominator.

Definition round_time_literal (value : spec_float) (source : text) (scale : TimeLiteralScale)
    (timescale : Timescale) : result spec_float :=
  let? (physical_numerator, decimal_denominator, unit_femtoseconds) :=
    time_literal_rational value source scale timescale in
  let? ticks := literal_ticks physical_numerator decimal_denominator timescale in
  let? precision := ok_or (checked_i128 (precision_fs timescale))
                      "time literal precision exceeds the supported range" in
  let? rounded_numerator := ok_or (checked_i128 (ticks * precision))
                              "rounded time literal exceeds the supported range" in
  rational_to_f64 rounded_numerator unit_femtoseconds.

Definition time_literal_delay_ticks (value : spec_float) (source : text) (scale : TimeLiteralScale)
    (timescale : Timescale) : result Z :=
  let? (physical_numerator, decimal_denominator, _) := time_literal_rational value source scale timescale in
  let? ticks := literal_ticks physical_numerator decimal_denominator timescale in
  if ticks <? 0 then err "time literal delay must be finite and nonnegative"
  else ok_or (checked 0 u64_max ticks) "rounded time literal delay exceeds the 64-bit tick range".
