(* ===== verification/TimescaleFacts.v ===== *)
(** * Time literals: exact values and nearest ticks *)

From Stdlib Require Import ZArith Lia Ascii String Floats.SpecFloat.
From stdpp Require Import base list strings.
From S2P Require Import Prelude Text Timescale.
Open Scope Z_scope.
Open Scope list_scope.

(** ** Text *)

Lemma trim_start_blank w t :
  forallb is_whitespace w = true -> match t with c :: _ => is_whitespace c = false | [] => True end ->
  trim_start (w ++ t) = t.
Proof.
  induction w as [| c w IH]; simpl.
  - intros _ H. destruct t as [| c t]; [done |]. simpl. by rewrite H.
  - intros [-> Hw]%andb_true_iff Ht. by apply IH.
Qed.

(** [t] starts and ends with characters that are not spaces. *)
Lemma trim_spaces w w' a t b :
  forallb is_whitespace w = true -> forallb is_whitespace w' = true ->
  is_whitespace a = false -> is_whitespace b = false ->
  (exists m, t = a :: m) -> (exists m, t = m ++ [b]) -> trim (w ++ t ++ w') = t.
Proof.
  intros Hw Hw' Ha Hb [m Ea] [m' Eb]. unfold trim.
  rewrite trim_start_blank; [| done | by rewrite Ea].
  unfold trim_end. rewrite rev_app_distr.
  rewrite trim_start_blank; [apply rev_involutive | by rewrite forallb_rev |].
  by rewrite Eb, rev_app_distr.
Qed.

Lemma strip_suffix_app s t : strip_suffix s (t ++ s) = Some t.
Proof.
  unfold strip_suffix. rewrite length_app.
  replace (length t + length s - length s)%nat with (length t) by lia.
  rewrite drop_app_length, take_app_length. by rewrite bool_decide_eq_true_2.
Qed.

(** A text that ends otherwise has no such suffix. *)
Lemma strip_suffix_two a b t c d :
  (a, b) <> (c, d) -> strip_suffix [a; b] (t ++ [c; d]) = None.
Proof.
  intros Hne. unfold strip_suffix. rewrite length_app. cbn [length].
  replace (length t + 2 - 2)%nat with (length t) by lia. rewrite drop_app_length.
  rewrite bool_decide_eq_false_2; [done |]. congruence.
Qed.

Definition suffix_of (u : TimeUnit) : text :=
  match u with
  | Seconds => chars "s"
  | Milliseconds => chars "ms"
  | Microseconds => chars "us"
  | Nanoseconds => chars "ns"
  | Picoseconds => chars "ps"
  | Femtoseconds => chars "fs"
  end.

Definition unit_letter (c : Z) : bool :=
  (c =? 109) || (c =? 117) || (c =? 110) || (c =? 112) || (c =? 102).

Lemma find_unit_suffix u t c :
  unit_letter c = false -> find_unit UNITS ((t ++ [c]) ++ suffix_of u) = Some (t ++ [c], u).
Proof.
  intros Hc.
  change UNITS with [([109; 115], Milliseconds); ([117; 115], Microseconds); ([110; 115], Nanoseconds);
                     ([112; 115], Picoseconds); ([102; 115], Femtoseconds); ([115], Seconds)].
  destruct u; cbn [find_unit].
  2: by rewrite (strip_suffix_app [109; 115]).
  2: rewrite (strip_suffix_two _ _ (t ++ [c]) 117 115) by congruence; by rewrite (strip_suffix_app [117; 115]).
  2: rewrite !(strip_suffix_two _ _ (t ++ [c]) 110 115) by congruence; by rewrite (strip_suffix_app [110; 115]).
  2: rewrite !(strip_suffix_two _ _ (t ++ [c]) 112 115) by congruence; by rewrite (strip_suffix_app [112; 115]).
  2: rewrite !(strip_suffix_two _ _ (t ++ [c]) 102 115) by congruence; by rewrite (strip_suffix_app [102; 115]).
  unfold unit_letter in Hc. rewrite !orb_false_iff, !Z.eqb_neq in Hc.
  assert (Hno : forall a, c <> a -> strip_suffix [a; 115] ((t ++ [c]) ++ suffix_of Seconds) = None).
  { intros a Ha. rewrite <- app_assoc. apply strip_suffix_two. congruence. }
  rewrite !Hno by tauto. by rewrite (strip_suffix_app [115]).
Qed.

Lemma split_digits_app ds rest :
  forallb is_digit ds = true -> match rest with c :: _ => is_digit c = false | [] => True end ->
  split_digits (ds ++ rest) = (ds, rest).
Proof.
  induction ds as [| c ds IH]; simpl.
  - intros _ H. destruct rest as [| c rest]; [done |]. simpl. by rewrite H.
  - intros [-> Hd]%andb_true_iff Hr. by rewrite IH.
Qed.

(** ** Checked arithmetic *)

Lemma checked_some lo hi z : lo <= z <= hi -> checked lo hi z = Some z.
Proof. intros H. unfold checked. rewrite !(proj2 (Z.leb_le _ _)) by lia. done. Qed.

Lemma checked_none lo hi z : ~ lo <= z <= hi -> checked lo hi z = None.
Proof.
  intros H. unfold checked. destruct (Z.leb_spec lo z), (Z.leb_spec z hi); simpl; try done. lia.
Qed.

Lemma checked_cases lo hi z : (lo <= z <= hi /\ checked lo hi z = Some z) \/ (~ lo <= z <= hi /\ checked lo hi z = None).
Proof.
  destruct (decide (lo <= z <= hi)); [left | right]; (split; [done |]); [by apply checked_some | by apply checked_none].
Qed.

Lemma pow10_loop_spec n v :
  0 < v -> v * 10 ^ Z.of_nat n <= u128_max -> pow10_loop n v = Ok (v * 10 ^ Z.of_nat n).
Proof.
  revert v. induction n as [| n IH]; intros v Hv Hb; cbn [pow10_loop].
  - f_equal. lia.
  - rewrite Nat2Z.inj_succ, Z.pow_succ_r in * by lia.
    assert (1 <= 10 ^ Z.of_nat n) by (pose proof (Z.pow_pos_nonneg 10 (Z.of_nat n)); lia).
    unfold checked_u128. rewrite checked_some by nia. cbn [ok_or and_then].
    rewrite IH by nia. f_equal. lia.
Qed.

Lemma pow10_spec e : 0 <= e <= 38 -> pow10 e = Ok (10 ^ e).
Proof.
  intros H. unfold pow10. rewrite (proj2 (Z.ltb_ge 38 e)) by lia.
  rewrite pow10_loop_spec; rewrite ?Z2Nat.id by lia; [f_equal; lia | lia |].
  assert (10 ^ e <= 10 ^ 38) by (apply Z.pow_le_mono_r; lia).
  assert (10 ^ 38 <= u128_max) by (vm_compute; discriminate). lia.
Qed.

Lemma pow10_big e : 38 < e -> exists m, pow10 e = Err m.
Proof. intros H. unfold pow10. rewrite (proj2 (Z.ltb_lt 38 e)) by lia. unfold err. eauto. Qed.

Lemma pow10_positive e : 0 <= e -> 1 <= 10 ^ e.
Proof. intros H. pose proof (Z.pow_pos_nonneg 10 e). lia. Qed.

(** ** Rounding *)

(** The nearest integer to [n / d], halves away from zero. *)
Definition nearest_away (n d : Z) : Z := Z.sgn n * ((2 * Z.abs n + d) / (2 * d)).

Lemma nearest_away_spec n d :
  0 < d -> 2 * Z.abs (n - nearest_away n d * d) <= d.
Proof.
  intros Hd. unfold nearest_away. pose proof (Z.div_mod (2 * Z.abs n + d) (2 * d) ltac:(lia)) as E.
  pose proof (Z.mod_pos_bound (2 * Z.abs n + d) (2 * d) ltac:(lia)) as M.
  set (q := (2 * Z.abs n + d) / (2 * d)) in *. set (r := (2 * Z.abs n + d) mod (2 * d)) in *.
  destruct (Z.lt_trichotomy n 0) as [Hn | [-> | Hn]].
  - rewrite Z.sgn_neg by lia. rewrite Z.abs_neq in E by lia.
    assert (2 * (n - -1 * q * d) = d - r) by lia. lia.
  - simpl. lia.
  - rewrite Z.sgn_pos by lia. rewrite Z.abs_eq in E by lia.
    assert (2 * (n - 1 * q * d) = r - d) by lia. lia.
Qed.

Lemma quot_rem_abs n d :
  0 < d -> Z.abs n = d * Z.abs (Z.quot n d) + Z.abs (Z.rem n d) /\ 0 <= Z.abs (Z.rem n d) < d
  /\ Z.quot n d = Z.sgn n * Z.abs (Z.quot n d).
Proof.
  intros Hd. pose proof (Z.quot_rem' n d) as E. pose proof (Z.rem_bound_abs n d ltac:(lia)) as B.
  pose proof (Z.rem_sign_nz n d ltac:(lia)) as S. rewrite (Z.abs_eq d) in B by lia.
  destruct (Z.lt_trichotomy n 0) as [Hn | [-> | Hn]].
  - pose proof (Z.quot_le_upper_bound (- n) d 0). rewrite Z.sgn_neg by lia.
    assert (Z.quot n d <= 0) by (rewrite <- (Z.opp_involutive n), Z.quot_opp_l by lia;
      pose proof (Z.quot_pos (- n) d ltac:(lia) ltac:(lia)); lia).
    assert (Z.rem n d <= 0) by (apply Z.rem_nonpos; lia).
    rewrite !Z.abs_neq by lia. split_and!; nia.
  - rewrite Z.quot_0_l, Z.rem_0_l by lia. simpl. lia.
  - rewrite Z.sgn_pos by lia. pose proof (Z.quot_pos n d ltac:(lia) ltac:(lia)).
    pose proof (Z.rem_nonneg n d ltac:(lia) ltac:(lia)). rewrite !Z.abs_eq by lia. split_and!; nia.
Qed.

Lemma half_test d m : 0 < d -> (Z.quot d 2 + Z.rem d 2 <=? m) = (d <=? 2 * m).
Proof.
  intros Hd. pose proof (Z.quot_rem' d 2). pose proof (Z.rem_bound_pos d 2 ltac:(lia) ltac:(lia)).
  destruct (Z.leb_spec (Z.quot d 2 + Z.rem d 2) m), (Z.leb_spec d (2 * m)); try done; lia.
Qed.

(** The code's quotient, adjusted, is the nearest integer; it never overflows. *)
Lemma round_rational_nearest n d :
  in_i128 n -> 0 < d <= i128_max -> round_rational n d = Ok (nearest_away n d).
Proof.
  intros Hn Hd. unfold round_rational, in_i128, i128_min, i128_max in *.
  unfold checked_i128. rewrite checked_some by (unfold i128_min, i128_max; lia). cbn [ok_or and_then].
  rewrite (proj2 (Z.eqb_neq d 0)) by lia. cbv zeta. rewrite half_test by lia.
  destruct (quot_rem_abs n d ltac:(lia)) as (E & B & S).
  set (q := Z.quot n d) in *. set (r := Z.rem n d) in *.
  replace (if r <? 0 then - r else r) with (Z.abs r) by (destruct (Z.ltb_spec r 0); lia).
  unfold nearest_away. destruct (Z.leb_spec d (2 * Z.abs r)) as [H | H].
  - assert (Hq : (2 * Z.abs n + d) / (2 * d) = Z.abs q + 1).
    { symmetry. apply (Z.div_unique _ _ _ (2 * Z.abs r - d)); lia. }
    rewrite Hq. assert (Hnz : n <> 0) by lia.
    replace (q + (if n <? 0 then -1 else 1)) with (Z.sgn n * (Z.abs q + 1)).
    2: { destruct (Z.ltb_spec n 0); [rewrite Z.sgn_neg in * by lia | rewrite Z.sgn_pos in * by lia]; lia. }
    rewrite checked_some; [done |]. unfold i128_min, i128_max.
    assert (2 <= d) by lia. assert (Z.abs q + 1 <= 2 ^ 126 + 1) by nia.
    assert (2 ^ 126 + 1 <= 2 ^ 127 - 1) by (vm_compute; discriminate).
    destruct (Z.lt_trichotomy n 0) as [? | [? | ?]];
      [rewrite Z.sgn_neg by lia | lia | rewrite Z.sgn_pos by lia]; lia.
  - assert (Hq : (2 * Z.abs n + d) / (2 * d) = Z.abs q).
    { symmetry. apply (Z.div_unique _ _ _ (2 * Z.abs r + d)); lia. }
    rewrite Hq. by rewrite <- S.
Qed.

(** * Time literals: the properties

    A literal is accepted exactly when its value fits, and then its rational is
    exact; the ticks of a delay are the nearest ones. *)

(** ** Literals *)

(** A sign: whether it is a minus. *)
Definition sign_text (s : option bool) : text :=
  match s with
  | None => []
  | Some true => [45]
  | Some false => [43]
  end.
Definition is_minus (s : option bool) : bool := match s with Some true => true | _ => false end.

(** The parts of a decimal; an exponent has the case of its letter, a sign and
    digits. *)
Record Decimal : Type := mkDecimal {
  sign : option bool;
  integer : text;
  fraction : option text;
  exponent : option (bool * option bool * text)
}.

Definition fraction_text (f : option text) : text :=
  match f with
  | None => []
  | Some ds => 46 :: ds
  end.
Definition exponent_text (e : option (bool * option bool * text)) : text :=
  match e with
  | None => []
  | Some (upper, s, ds) => (if upper then 69 else 101) :: sign_text s ++ ds
  end.

Definition spell (l : Decimal) : text :=
  sign_text (sign l) ++ integer l ++ fraction_text (fraction l) ++ exponent_text (exponent l).

Definition fraction_digits (l : Decimal) : text := default [] (fraction l).
Definition digits (l : Decimal) : text := integer l ++ fraction_digits l.
Definition exponent_value (l : Decimal) : Z :=
  match exponent l with
  | None => 0
  | Some (_, s, ds) => if is_minus s then - number ds else number ds
  end.

Record well_formed (l : Decimal) : Prop := {
  wf_digits : forallb is_digit (digits l) = true;
  wf_some : digits l <> [];
  wf_exponent : match exponent l with
                | None => True
                | Some (_, _, ds) => forallb is_digit ds = true /\ ds <> []
                end
}.

(** The value is [mantissa * 10^scale]. *)
Definition mantissa (l : Decimal) : Z := number (digits l).
Definition scale_of (l : Decimal) : Z := exponent_value l - Z.of_nat (length (fraction_digits l)).

(** What 128-bit arithmetic can hold. *)
Definition representable (l : Decimal) : Prop :=
  Z.abs (exponent_value l) <= i32_max
  /\ Z.of_nat (length (fraction_digits l)) <= i32_max
  /\ mantissa l <= i128_max
  /\ -38 <= scale_of l <= 38
  /\ mantissa l * 10 ^ Z.max 0 (scale_of l) <= i128_max.

Definition signed (l : Decimal) (z : Z) : Z := if is_minus (sign l) then - z else z.

(** ** Reading the parts *)

Lemma number_nonneg ds : forallb is_digit ds = true -> 0 <= number ds.
Proof.
  unfold number. assert (H : forall acc, 0 <= acc -> forallb is_digit ds = true ->
    0 <= fold_left (fun acc c => acc * 10 + (c - 48)) ds acc); [| apply H; lia].
  induction ds as [| c ds IH]; simpl; [done |]. intros acc Ha [Hc Hd]%andb_true_iff.
  unfold is_digit, between in Hc. apply andb_true_iff in Hc as [Hc _]. apply Z.leb_le in Hc.
  apply IH; [lia | done].
Qed.

Lemma parse_number_cases max ds :
  ds <> [] -> parse_number max ds = (if number ds <=? max then Some (number ds) else None).
Proof. by destruct ds. Qed.

Lemma digits_parts l :
  well_formed l ->
  forallb is_digit (integer l) = true /\ forallb is_digit (fraction_digits l) = true.
Proof.
  intros [H _ _]. unfold digits in H. rewrite forallb_app in H. by apply andb_true_iff in H.
Qed.

Lemma is_digit_not_sign c : is_digit c = true -> is_sign c = false.
Proof.
  unfold is_digit, between, is_sign. rewrite andb_true_iff, !Z.leb_le, orb_false_iff, !Z.eqb_neq. lia.
Qed.

(** The exponent is read exactly, or refused when it does not fit. *)
Lemma parse_exponent_spec l :
  well_formed l ->
  if Z.abs (exponent_value l) <=? i32_max
  then parse_exponent (exponent_text (exponent l)) = Ok (exponent_value l, [])
  else exists m, parse_exponent (exponent_text (exponent l)) = Err m.
Proof.
  intros [_ _ We]. unfold exponent_value. destruct (exponent l) as [[[upper s] ds] |]; [| done].
  destruct We as [Hd Hne]. pose proof (number_nonneg ds Hd) as Hn.
  assert (Hsplit : split_digits ds = (ds, [])) by (rewrite <- (app_nil_r ds) at 1; by apply split_digits_app).
  assert (Habs : Z.abs (if is_minus s then - number ds else number ds) = number ds)
    by (destruct (is_minus s); lia).
  rewrite Habs. unfold parse_exponent, exponent_text.
  assert (((if upper then 69 else 101) =? 101) || ((if upper then 69 else 101) =? 69) = true) as ->
    by (by destruct upper).
  assert (Hsign : (match sign_text s ++ ds with
                   | c :: rest' => if is_sign c then (c =? 45, rest') else (false, sign_text s ++ ds)
                   | [] => (false, sign_text s ++ ds)
                   end) = (is_minus s, ds)).
  { destruct s as [[] |]; try done. simpl. destruct ds as [| c ds']; [done |]. simpl in Hd.
    apply andb_true_iff in Hd as [Hc _]. by rewrite is_digit_not_sign. }
  rewrite Hsign, Hsplit. destruct ds as [| c ds']; [done |]. cbv iota.
  rewrite parse_number_cases by done. unfold err.
  destruct (Z.leb_spec (number (c :: ds')) i32_max) as [Hm | Hm]; cbn [ok_or and_then]; [| by eexists].
  destruct (is_minus s); [| done]. unfold checked_i32.
  rewrite checked_some; [done |]. unfold i32_max in *. lia.
Qed.

Lemma scale_decimal_spec c e :
  0 <= c <= i128_max -> - 2 ^ 31 < e <= i32_max ->
  if bool_decide (-38 <= e <= 38 /\ c * 10 ^ Z.max 0 e <= i128_max)
  then scale_decimal c e = Ok (c * 10 ^ Z.max 0 e, 10 ^ Z.max 0 (- e))
  else exists m, scale_decimal c e = Err m.
Proof.
  intros Hc He. unfold scale_decimal, checked_i128, checked_i32, i32_max in *.
  destruct (Z.leb_spec 0 e) as [H0 | H0].
  - rewrite (Z.max_r 0 e), (Z.max_l 0 (- e)) by lia.
    destruct (decide (e <= 38)) as [H38 | H38].
    + rewrite pow10_spec by lia. cbn [and_then].
      assert (10 ^ e <= 10 ^ 38) by (apply Z.pow_le_mono_r; lia).
      assert (10 ^ 38 <= i128_max) by (vm_compute; discriminate).
      pose proof (pow10_positive e H0). assert (i128_min <= 0) by (vm_compute; discriminate).
      rewrite (checked_some _ _ (10 ^ e)) by lia. cbn [ok_or and_then].
      case_bool_decide as Hb.
      * rewrite checked_some by nia. cbn [ok_or and_then]. done.
      * rewrite checked_none by lia. cbn [ok_or and_then]. unfold err. eauto.
    + rewrite bool_decide_eq_false_2 by lia. destruct (pow10_big e) as [m ->]; [lia |]. cbn [and_then]. eauto.
  - rewrite (Z.max_l 0 e), (Z.max_r 0 (- e)), Z.pow_0_r, Z.mul_1_r by lia.
    rewrite checked_some by lia. cbn [ok_or and_then].
    destruct (decide (-38 <= e)) as [H38 | H38].
    + rewrite bool_decide_eq_true_2 by lia. rewrite pow10_spec by lia. done.
    + rewrite bool_decide_eq_false_2 by lia. destruct (pow10_big (- e)) as [m ->]; [lia |]. cbn [and_then]. eauto.
Qed.

#[local] Instance representable_dec l : Decision (representable l).
Proof. unfold representable. apply _. Defined.

(** The sign, the digits and the rest of a spelled literal. *)
Lemma spell_parts l :
  well_formed l ->
  bool_decide (head (spell l) = Some 45) = is_minus (sign l)
  /\ (match spell l with c :: rest => if is_sign c then rest else spell l | [] => [] end)
     = integer l ++ fraction_text (fraction l) ++ exponent_text (exponent l)
  /\ split_digits (integer l ++ fraction_text (fraction l) ++ exponent_text (exponent l))
     = (integer l, fraction_text (fraction l) ++ exponent_text (exponent l))
  /\ split_digits (fraction_digits l ++ exponent_text (exponent l))
     = (fraction_digits l, exponent_text (exponent l)).
Proof.
  intros W. destruct (digits_parts l W) as [Hi Hf].
  assert (He : match exponent_text (exponent l) with c :: _ => is_digit c = false | [] => True end).
  { destruct (exponent l) as [[[[] s] ds] |]; done. }
  assert (Hn : match integer l ++ fraction_text (fraction l) ++ exponent_text (exponent l) with
               | c :: _ => is_sign c = false
               | [] => False
               end).
  { pose proof (wf_some _ W) as Hs. unfold digits, fraction_digits in Hs.
    destruct (integer l) as [| c i]; simpl.
    - destruct (fraction l) as [f |]; done.
    - simpl in Hi. apply andb_true_iff in Hi as [Hc _]. by apply is_digit_not_sign. }
  unfold spell. split_and!.
  - destruct (sign l) as [[] |]; try done. simpl. apply bool_decide_eq_false.
    destruct (integer l ++ _) as [| c rest]; [done |]. simpl. intros [= ->]. done.
  - destruct (sign l) as [[] |]; try done. simpl. destruct (integer l ++ _) as [| c rest]; [done |].
    by rewrite Hn.
  - apply split_digits_app; [done |]. by destruct (fraction l).
  - by apply split_digits_app.
Qed.

Lemma parse_numeric_spec l :
  well_formed l ->
  if bool_decide (representable l)
  then parse_numeric (spell l)
       = Ok (signed l (mantissa l * 10 ^ Z.max 0 (scale_of l)), 10 ^ Z.max 0 (- scale_of l))
  else exists m, parse_numeric (spell l) = Err m.
Proof.
  intros W. destruct (spell_parts l W) as (P1 & P2 & P3 & P4). unfold parse_numeric. rewrite P1, P2, P3.
  assert (Hmid : exists point,
    split_fraction (fraction_text (fraction l) ++ exponent_text (exponent l)) = (point, fraction_digits l, exponent_text (exponent l))
    /\ negb (point || negb (is_empty (integer l))) && negb (negb (is_empty (fraction_digits l))) = false).
  { pose proof (wf_some _ W) as Hs. unfold digits in Hs. unfold fraction_digits in *.
    destruct (fraction l) as [f |] eqn:Ef; simpl in *.
    - exists true. unfold split_fraction. simpl. by rewrite P4.
    - exists false. rewrite app_nil_r in Hs. split; [| by destruct (integer l)]. by destruct (exponent l) as [[[[] s] ds] |]. }
  destruct Hmid as (point & Hm & Hdig). rewrite Hm, Hdig. clear Hm Hdig P1 P2 P3 P4.
  pose proof (parse_exponent_spec l W) as He. destruct (Z.leb_spec (Z.abs (exponent_value l)) i32_max) as [Hx | Hx].
  2: { destruct He as [m ->]. rewrite bool_decide_eq_false_2 by (unfold representable; lia). cbn [and_then]. eauto. }
  rewrite He. cbn [and_then]. cbn [is_empty negb].
  fold (digits l). rewrite parse_number_cases by apply W. fold (mantissa l).
  pose proof (number_nonneg (digits l) (wf_digits _ W)) as Hm0. fold (mantissa l) in Hm0.
  destruct (Z.leb_spec (mantissa l) i128_max) as [Hmx | Hmx]; cbn [ok_or and_then].
  2: { rewrite bool_decide_eq_false_2 by (unfold representable; lia). unfold err. eauto. }
  destruct (checked_cases 0 i32_max (Z.of_nat (length (fraction_digits l)))) as [[Hf ->] | [Hf ->]];
    cbn [ok_or and_then].
  2: { rewrite bool_decide_eq_false_2 by (unfold representable; lia). unfold err. eauto. }
  fold (scale_of l). unfold checked_i32.
  destruct (checked_cases (- 2 ^ 31) i32_max (scale_of l)) as [[Hs ->] | [Hs ->]]; cbn [ok_or and_then].
  2: { rewrite bool_decide_eq_false_2 by (unfold representable, i32_max in *; lia). unfold err. eauto. }
  destruct (decide (- 2 ^ 31 < scale_of l)) as [Hlo | Hlo].
  2: { rewrite bool_decide_eq_false_2 by (unfold representable; lia).
       unfold scale_decimal. rewrite (proj2 (Z.leb_gt 0 (scale_of l))) by lia. unfold checked_i32.
       rewrite checked_none by (unfold i32_max; lia). unfold err. cbn [ok_or and_then]. eauto. }
  pose proof (scale_decimal_spec (mantissa l) (scale_of l) ltac:(lia) ltac:(lia)) as Hd.
  case_bool_decide as Hb; case_bool_decide as Hr; try (exfalso; unfold representable in Hr; tauto).
  - rewrite Hd. cbn [and_then]. unfold signed. destruct (is_minus (sign l)); [| done].
    unfold checked_i128. rewrite checked_some; [done |]. unfold i128_min, i128_max in *.
    pose proof (pow10_positive (Z.max 0 (scale_of l)) ltac:(lia)). nia.
  - destruct Hd as [m ->]. cbn [and_then]. eauto.
Qed.

(** ** Spaces and separators *)

(** [n] spells the literal with legal digit separators. *)
Definition spells (n : text) (l : Decimal) : Prop :=
  bad_separator None n = false /\ List.filter (fun c => negb (c =? 95)) n = spell l.

Definition plain (c : Z) : bool := negb (is_whitespace c) && negb (unit_letter c).

Lemma digit_plain c : is_digit c = true -> plain c = true.
Proof.
  unfold is_digit, between. rewrite andb_true_iff, !Z.leb_le. intros H.
  assert (Hc : forallb (fun i => plain (48 + Z.of_nat i)) (seq 0 10) = true) by reflexivity.
  rewrite forallb_forall in Hc. specialize (Hc (Z.to_nat (c - 48))). rewrite in_seq in Hc.
  replace c with (48 + Z.of_nat (Z.to_nat (c - 48))) by lia. apply Hc. lia.
Qed.

Lemma digits_plain ds : forallb is_digit ds = true -> forallb plain ds = true.
Proof. rewrite !forallb_forall. intros H c Hc. by apply digit_plain, H. Qed.

Lemma spell_plain l : well_formed l -> forallb plain (spell l) = true /\ spell l <> [].
Proof.
  intros W. destruct (digits_parts l W) as [Hi Hf]. pose proof (wf_some _ W) as Hs.
  pose proof (wf_exponent _ W) as He. unfold spell. split.
  - rewrite !forallb_app. repeat (apply andb_true_iff; split).
    + by destruct (sign l) as [[] |].
    + by apply digits_plain.
    + unfold fraction_digits in Hf. destruct (fraction l); [| done]. simpl. by apply digits_plain.
    + destruct (exponent l) as [[[[] s] ds] |]; [| | done]; simpl; rewrite forallb_app;
        (apply andb_true_iff; split; [by destruct s as [[] |] | apply digits_plain, He]).
  - unfold digits, fraction_digits in Hs. destruct (integer l), (fraction l), (sign l) as [[] |]; done.
Qed.

Lemma spells_plain n l : well_formed l -> spells n l -> forallb plain n = true /\ n <> [].
Proof.
  intros W [_ Hf]. destruct (spell_plain l W) as [Hp Hne]. rewrite <- Hf in Hp, Hne. split.
  - rewrite forallb_forall in *. intros c Hc. destruct (Z.eqb_spec c 95) as [-> | Hn]; [done |].
    apply Hp, filter_In. split; [done |]. by apply negb_true_iff, Z.eqb_neq.
  - intros ->. done.
Qed.

Lemma suffix_ends u : exists m, suffix_of u = m ++ [115].
Proof. destruct u; [by exists [] | by exists [109] | by exists [117] | by exists [110] | by exists [112] | by exists [102]]. Qed.

Lemma space_not_letter c : is_whitespace c = true -> unit_letter c = false.
Proof.
  intros H. apply not_true_iff_false. unfold unit_letter. rewrite !orb_true_iff, !Z.eqb_eq.
  intros Hl. decompose [or] Hl; subst; done.
Qed.

Lemma source_parts n l w1 w2 w3 u :
  well_formed l -> spells n l ->
  forallb is_whitespace w1 = true -> forallb is_whitespace w2 = true -> forallb is_whitespace w3 = true ->
  trim (w1 ++ (n ++ w2 ++ suffix_of u) ++ w3) = (n ++ w2) ++ suffix_of u
  /\ find_unit UNITS ((n ++ w2) ++ suffix_of u) = Some (n ++ w2, u)
  /\ trim (n ++ w2) = n.
Proof.
  intros W Sp H1 H2 H3. destruct (spells_plain n l W Sp) as [Hp Hne].
  assert (Hfirst : exists a m, n = a :: m /\ is_whitespace a = false).
  { destruct n as [| a m]; [done |]. exists a, m. split; [done |]. simpl in Hp.
    apply andb_true_iff in Hp as [Hp _]. unfold plain in Hp. by apply andb_true_iff in Hp as [Hp%negb_true_iff _]. }
  assert (Hlast : exists m b, n = m ++ [b] /\ is_whitespace b = false /\ unit_letter b = false).
  { destruct (exists_last Hne) as (m & b & ->). exists m, b. split; [done |].
    rewrite forallb_app in Hp. apply andb_true_iff in Hp as [_ Hp]. simpl in Hp. rewrite andb_true_r in Hp.
    unfold plain in Hp. by apply andb_true_iff in Hp as [?%negb_true_iff ?%negb_true_iff]. }
  destruct Hfirst as (a & m & Ea & Wa). destruct Hlast as (m' & b & Eb & Wb & Ub).
  destruct (suffix_ends u) as [v Ev]. split_and!.
  - rewrite (trim_spaces w1 w3 a (n ++ w2 ++ suffix_of u) 115); [by rewrite app_assoc | done | done | done | done | |].
    + rewrite Ea. simpl. eauto.
    + rewrite Ev. exists (n ++ w2 ++ v). by rewrite <- !app_assoc.
  - assert (Hc : exists t c, n ++ w2 = t ++ [c] /\ unit_letter c = false).
    { destruct (decide (w2 = [])) as [-> | Hw]; [exists m', b; by rewrite app_nil_r |].
      destruct (exists_last Hw) as (t & c & ->). exists (n ++ t), c. split; [by rewrite app_assoc |].
      rewrite forallb_app in H2. apply andb_true_iff in H2 as [_ H2]. simpl in H2. rewrite andb_true_r in H2.
      by apply space_not_letter. }
    destruct Hc as (t & c & -> & Uc). by apply find_unit_suffix.
  - apply (trim_spaces [] w2 a n b); [done | done | done | done | eauto | eauto].
Qed.

(** ** Inversion of results *)

Lemma and_then_ok {A B} (m : result A) (k : A -> result B) b :
  and_then m k = Ok b -> exists a, m = Ok a /\ k a = Ok b.
Proof. destruct m; simpl; [eauto | done]. Qed.

Lemma ok_or_ok {A} (o : option A) s a : ok_or o s = Ok a -> o = Some a.
Proof. destruct o; simpl; unfold err; congruence. Qed.

Lemma checked_inv lo hi z a : checked lo hi z = Some a -> a = z /\ lo <= z <= hi.
Proof. destruct (checked_cases lo hi z) as [[H ->] | [_ ->]]; intros; simplify_eq. done. Qed.

Lemma pow10_ok e d : pow10 e = Ok d -> 1 <= d.
Proof.
  unfold pow10. destruct (Z.ltb_spec 38 e) as [H | H]; [done |]. intros E.
  destruct (decide (0 <= e)) as [H0 | H0].
  - pose proof (pow10_spec e ltac:(lia)) as P. unfold pow10 in P.
    rewrite (proj2 (Z.ltb_ge 38 e)) in P by lia. rewrite P in E. injection E as <-. by apply pow10_positive.
  - replace (Z.to_nat e) with 0%nat in E by lia. simpl in E. by injection E as <-.
Qed.

(** Takes one bound result apart. *)
Ltac bound H :=
  apply and_then_ok in H;
  let a := fresh "a" in let E := fresh "E" in destruct H as (a & E & H).

Lemma scale_decimal_denominator c e c' d : scale_decimal c e = Ok (c', d) -> 1 <= d.
Proof.
  unfold scale_decimal. intros H. destruct (0 <=? e).
  - do 3 bound H. by simplify_eq.
  - do 2 bound H. simplify_eq. by eapply pow10_ok.
Qed.

Lemma parse_numeric_denominator n c d : parse_numeric n = Ok (c, d) -> 1 <= d.
Proof.
  unfold parse_numeric. intros H. destruct (split_digits _) as [i r].
  destruct (split_fraction r) as [[point f] r2]. destruct (negb _ && negb _); [done |].
  bound H. destruct a as [e r3]. destruct (negb (is_empty r3)); [done |]. do 3 bound H.
  bound H. destruct a2 as [c' d']. bound H. simplify_eq. by eapply scale_decimal_denominator.
Qed.

Lemma parse_decimal_denominator source c d u : parse_decimal_rational source = Ok (c, d, u) -> 1 <= d.
Proof.
  unfold parse_decimal_rational. intros H. bound H. destruct a as [n u']. destruct (bad_separator _ _); [done |].
  bound H. destruct a as [c' d']. simplify_eq. by eapply parse_numeric_denominator.
Qed.

(** ** Claims *)

(** A time literal, with any legal separators and spaces, is accepted exactly
    when its exponent, digits and scaled value fit the 128-bit arithmetic; then
    the rational returned is its exact value in lowest powers of ten, and
    otherwise an error is. *)
Theorem decimal_exact l n w1 w2 w3 u :
  well_formed l -> spells n l ->
  forallb is_whitespace w1 = true -> forallb is_whitespace w2 = true -> forallb is_whitespace w3 = true ->
  if bool_decide (representable l)
  then parse_decimal_rational (w1 ++ (n ++ w2 ++ suffix_of u) ++ w3)
       = Ok (signed l (mantissa l * 10 ^ Z.max 0 (scale_of l)), 10 ^ Z.max 0 (- scale_of l), u)
  else exists m, parse_decimal_rational (w1 ++ (n ++ w2 ++ suffix_of u) ++ w3) = Err m.
Proof.
  intros W Sp H1 H2 H3. destruct (source_parts n l w1 w2 w3 u W Sp H1 H2 H3) as (E1 & E2 & E3).
  unfold parse_decimal_rational. rewrite E1, E2. cbn [ok_or and_then]. rewrite E3.
  destruct Sp as [Hb Hf]. rewrite Hb, Hf. pose proof (parse_numeric_spec l W) as Hn.
  case_bool_decide; [by rewrite Hn |]. destruct Hn as [m ->]. cbn [and_then]. eauto.
Qed.

(** [-1_0.50e3] nanoseconds. *)
Definition example_literal : Decimal :=
  mkDecimal (Some true) (chars "10") (Some (chars "50")) (Some (false, None, chars "3")).

Lemma decimal_exact_witness :
  parse_decimal_rational ([] ++ (chars "-1_0.50e3" ++ chars " " ++ suffix_of Nanoseconds) ++ [])
  = Ok (-10500, 1, Nanoseconds).
Proof.
  apply (decimal_exact example_literal (chars "-1_0.50e3") [] (chars " ") [] Nanoseconds);
    [split; [reflexivity | done | split; [reflexivity | done]] | split; reflexivity
    | reflexivity | reflexivity | reflexivity].
Defined.

(** A delay written as a time literal is the nearest number of precision
    ticks to its exact value, halves away from zero, and fits 64 bits; a literal
    that rounds below zero is refused. *)
Theorem delay_nearest value source scale timescale t :
  0 <= precision_fs timescale <= u64_max ->
  time_literal_delay_ticks value source scale timescale = Ok t ->
  exists c d u,
    parse_decimal_rational source = Ok (c, d, u) /\ 1 <= d /\ 0 < precision_fs timescale
    /\ t = nearest_away (c * time_unit_femtoseconds u) (d * precision_fs timescale)
    /\ 2 * Z.abs (c * time_unit_femtoseconds u - t * (d * precision_fs timescale))
       <= d * precision_fs timescale
    /\ 0 <= t <= u64_max.
Proof.
  intros Hp H. unfold time_literal_delay_ticks in H. bound H. destruct a as [[num den] ufs].
  bound H. destruct (Z.ltb_spec a 0) as [Hneg | Hpos]; [done |].
  apply ok_or_ok, checked_inv in H as [-> Hr].
  unfold time_literal_rational in E. destruct (is_finite value); [| done].
  destruct (valid_magnitude (magnitude scale)); [| done]. cbn [negb] in E. bound E. destruct a0 as [[c d] u].
  bound E. destruct (Z.eqb_spec (precision_fs timescale) 0) as [| Hp0]; [done |].
  bound E. apply ok_or_ok, checked_inv in E3 as [-> _]. bound E.
  apply ok_or_ok, checked_inv in E3 as [-> Hnum]. bound E. bound E.
  destruct (SFltb _ _); [done |]. simplify_eq.
  apply parse_decimal_denominator in E1 as Hd.
  unfold literal_ticks in E0. apply and_then_ok in E0 as (td & Etd & E0).
  apply ok_or_ok, checked_inv in Etd as [-> Hden].
  assert (Hi : den * precision_fs timescale <= i128_max).
  { unfold round_rational in E0. apply and_then_ok in E0 as (x & Ex & _).
    apply ok_or_ok, checked_inv in Ex. lia. }
  rewrite round_rational_nearest in E0; [| exact Hnum | nia]. injection E0 as <-.
  exists c, den, u. split_and!; try done; try lia. apply nearest_away_spec. nia.
Qed.

Lemma delay_nearest_witness :
  exists c d u,
    parse_decimal_rational (chars "1.55ns") = Ok (c, d, u) /\ 1 <= d /\ 0 < 100000
    /\ 16 = nearest_away (c * time_unit_femtoseconds u) (d * 100000)
    /\ 2 * Z.abs (c * time_unit_femtoseconds u - 16 * (d * 100000)) <= d * 100000
    /\ 0 <= 16 <= u64_max.
Proof.
  apply (delay_nearest (f64_div (f64_of_Z 155) (f64_of_Z 100)) (chars "1.55ns") (mkScale Nanoseconds 1)
           (mkTimescale 1000000 100000) 16); [vm_compute; split; discriminate | vm_compute; reflexivity].
Defined.

(** A literal with a point and no digits passes the test for digits, which
    compares the index after the point: it is reported as too large. *)
Lemma lone_point_reported :
  parse_decimal_rational (chars ".ns") = err "time literal value exceeds the supported range"
  /\ parse_decimal_rational (chars "ns") = err "time literal source has no numeric digits".
Proof. split; reflexivity. Qed.
