(* ===== verification/MapWork.v ===== *)
(** * Work of library map admission

    The budget of [src/core/compile.rs] that library maps are admitted under
    ([LibraryMapWorkBudget]) and the errors of start-up. Every operation on maps
    charges its steps and its allocations before it does them. [costs] is the
    logic of such code: the result of a computation, and exactly what it
    charges. *)

From Stdlib Require Import ZArith Lia Ascii String.
From stdpp Require Import base list strings.
From S2P Require Import Prelude Total.
Open Scope Z_scope.
Open Scope list_scope.

Inductive StartupErrorKind : Type :=
| InvalidArgument | Input | LimitExceeded | Frontend | Internal.

Record StartupError : Type := mkStartup { kind : StartupErrorKind; message : string }.

Definition MAX_LIBRARY_INCLUDE_DIRS : Z := 4096.
Definition MAX_LIBRARY_PATH_BYTES : Z := 16 * 1024.
Definition max_u64 : Z := 2 ^ 64 - 1.

Record LibraryMapWorkBudget : Type := mkWork {
  used : Z;
  limit : Z;
  allocation_used : Z;
  allocation_limit : Z;
  path_resolution_reserved : bool;
}.

Definition with_allocation_limit (limit allocation_limit : Z) : LibraryMapWorkBudget :=
  mkWork 0 limit 0 allocation_limit false.

(** Computations under a budget. *)
Definition W (A : Type) : Type := M StartupError LibraryMapWorkBudget A.

Definition limit_error (operation : string) (work : LibraryMapWorkBudget) : StartupError :=
  mkStartup LimitExceeded
    ("library map " +:+ operation +:+ " work budget exceeded after " +:+ dec (used work)
     +:+ " operations (limit " +:+ dec (limit work)
     +:+ "); simplify wildcard patterns or reduce library-map candidates").

Definition allocation_limit_error (operation : string) (work : LibraryMapWorkBudget) : StartupError :=
  mkStartup LimitExceeded
    ("library map " +:+ operation +:+ " allocation budget exceeded after " +:+ dec (allocation_used work)
     +:+ " bytes (limit " +:+ dec (allocation_limit work)
     +:+ "); reduce library-map input size").

(** [Err(work.limit_error(operation))]. *)
Definition over_limit {A} (operation : string) : W A := fun work => Fail (limit_error operation work).

Definition charge (amount : Z) (operation : string) : W unit := fun work =>
  let next := used work + amount in
  if max_u64 <? next then Fail (limit_error operation work)
  else if limit work <? next then Fail (limit_error operation work)
  else Done (tt, mkWork next (limit work) (allocation_used work) (allocation_limit work)
                   (path_resolution_reserved work)).

(** [u64::try_from(amount)], then the charge. *)
Definition charge_usize (amount : Z) (operation : string) : W unit :=
  if max_u64 <? amount then over_limit operation else charge amount operation.

Definition charge_allocation (amount : Z) (operation : string) : W unit := fun work =>
  let next := allocation_used work + amount in
  if max_u64 <? next then Fail (allocation_limit_error operation work)
  else if allocation_limit work <? next then Fail (allocation_limit_error operation work)
  else Done (tt, mkWork (used work) (limit work) next (allocation_limit work)
                   (path_resolution_reserved work)).

Definition charge_allocation_usize (amount : Z) (operation : string) : W unit :=
  if max_u64 <? amount then fun work => Fail (allocation_limit_error operation work)
  else charge_allocation amount operation.

(** The length of a string in bytes. *)
Definition len {A} (value : list A) : Z := Z.of_nat (length value).

Definition charge_library_map_text_allocation (text : bytes) (operation : string) : W unit :=
  charge_allocation_usize (len text) operation.

Definition charge_library_map_clone (value : bytes) (operation : string) : W unit :=
  charge 1 operation ;;; charge_allocation_usize (len value) operation.

Definition invalid {A} (text : string) : W A := fail (mkStartup InvalidArgument text).

(** ** Ordering work *)

(** The first loop: the keys are scanned, counted, and the longest kept. *)
Definition scan_keys (key_lengths : list Z) : W (Z * Z) :=
  fold_m (fun '(count, longest) key_length =>
            charge 1 "library map ordering key scan" ;;;
            charge key_length "library map ordering key scan" ;;;
            if max_u64 <? count + 1 then over_limit "library map ordering key scan"
            else ret (count + 1, Z.max longest key_length))
    key_lengths (0, 0).

(** [usize::BITS - (count - 1).leading_zeros()]: the bits of [count - 1]. *)
Definition bit_length (n : Z) : Z := if n <=? 0 then 0 else Z.log2 n + 1.

Definition comparison_count (sort : bool) (count : Z) : Z :=
  if sort && (1 <? count) then count * (bit_length (count - 1) + 1) * 2 else Z.max 0 (count - 1).

Definition charge_key_comparison_work (key_lengths : list Z) (sort : bool) (operation : string) : W unit :=
  let* (count, longest) := scan_keys key_lengths in
  let comparisons := comparison_count sort count in
  if max_u64 <? comparisons then over_limit "library map ordering comparisons"
  else if (max_u64 <? longest + 1) || (max_u64 <? comparisons * (longest + 1)) then over_limit operation
  else charge (comparisons * (longest + 1)) operation.

(** ** What a computation costs

    [costs r w a m]: where the budget has room for [w] steps and [a] bytes, [m]
    charges exactly these and returns [r] (a value, or an error of a kind);
    otherwise it fails with a limit error. *)
Record work_ok (work : LibraryMapWorkBudget) : Prop := {
  ok_used : 0 <= used work <= limit work;
  ok_limit : limit work <= max_u64;
  ok_allocation_used : 0 <= allocation_used work <= allocation_limit work;
  ok_allocation_limit : allocation_limit work <= max_u64;
}.

Definition fits (work : LibraryMapWorkBudget) (w a : Z) : bool :=
  (used work + w <=? limit work) && (allocation_used work + a <=? allocation_limit work).

Definition spent (work : LibraryMapWorkBudget) (w a : Z) : LibraryMapWorkBudget :=
  mkWork (used work + w) (limit work) (allocation_used work + a) (allocation_limit work)
    (path_resolution_reserved work).

Definition fails {E S A} (P : E -> Prop) (o : outcome E (A * S)) : Prop :=
  match o with Fail e => P e | _ => False end.

Definition costs {A} (r : StartupErrorKind + A) (w a : Z) (m : W A) : Prop :=
  0 <= w /\ 0 <= a /\
  forall work, work_ok work ->
    if fits work w a then
      match r with
      | inr v => m work = Done (v, spent work w a)
      | inl k => fails (fun e => kind e = k) (m work)
      end
    else fails (fun e => kind e = LimitExceeded) (m work).

Lemma spent_spent work w a w' a' : spent (spent work w a) w' a' = spent work (w + w') (a + a').
Proof. unfold spent. cbn. f_equal; lia. Qed.

Lemma fits_split work w a w' a' :
  0 <= w' -> 0 <= a' -> fits work (w + w') (a + a') = fits work w a && fits (spent work w a) w' a'.
Proof. intros. unfold fits, spent. cbn. lia. Qed.

Lemma fits_spec work w a :
  fits work w a = true <->
  used work + w <= limit work /\ allocation_used work + a <= allocation_limit work.
Proof. unfold fits. lia. Qed.

Lemma spent_ok work w a : work_ok work -> 0 <= w -> 0 <= a -> fits work w a = true -> work_ok (spent work w a).
Proof. intros [] ?? F%fits_spec. split; cbn; lia. Qed.

Lemma costs_ret {A} (v : A) : costs (inr v) 0 0 (ret v).
Proof.
  split_and!; [lia | lia |]. intros work [].
  destruct (fits work 0 0) eqn:F; [| unfold fits in F; lia].
  unfold spent. rewrite !Z.add_0_r. by destruct work.
Qed.

Lemma costs_fail {A} e : costs (inl (kind e)) 0 0 (fail e : W A).
Proof.
  split_and!; [lia | lia |]. intros work [].
  destruct (fits work 0 0) eqn:F; [done | unfold fits in F; lia].
Qed.

Lemma costs_over_limit {A} operation : costs (inl LimitExceeded) 0 0 (over_limit operation : W A).
Proof. split_and!; [lia | lia |]. intros work _. by destruct (fits work 0 0). Qed.

Lemma costs_charge n operation : 0 <= n -> costs (inr tt) n 0 (charge n operation).
Proof.
  intros Hn. split_and!; [lia | lia |]. intros work []. unfold charge, fits, spent. rewrite !Z.add_0_r.
  destruct (Z.ltb_spec max_u64 (used work + n)), (Z.ltb_spec (limit work) (used work + n)),
    (Z.leb_spec (used work + n) (limit work)), (Z.leb_spec (allocation_used work) (allocation_limit work));
    cbn; try lia; done.
Qed.

Lemma costs_charge_allocation n operation : 0 <= n -> costs (inr tt) 0 n (charge_allocation n operation).
Proof.
  intros Hn. split_and!; [lia | lia |]. intros work []. unfold charge_allocation, fits, spent. rewrite !Z.add_0_r.
  destruct (Z.ltb_spec max_u64 (allocation_used work + n)),
    (Z.ltb_spec (allocation_limit work) (allocation_used work + n)),
    (Z.leb_spec (used work) (limit work)),
    (Z.leb_spec (allocation_used work + n) (allocation_limit work)); cbn; try lia; done.
Qed.

Lemma costs_charge_usize n operation : 0 <= n -> costs (inr tt) n 0 (charge_usize n operation).
Proof.
  intros Hn. unfold charge_usize. destruct (Z.ltb_spec max_u64 n); [| by apply costs_charge].
  split_and!; [lia | lia |]. intros work []. destruct (fits work n 0) eqn:F; [| done].
  apply fits_spec in F. lia.
Qed.

Lemma costs_charge_allocation_usize n operation :
  0 <= n -> costs (inr tt) 0 n (charge_allocation_usize n operation).
Proof.
  intros Hn. unfold charge_allocation_usize.
  destruct (Z.ltb_spec max_u64 n); [| by apply costs_charge_allocation].
  split_and!; [lia | lia |]. intros work []. destruct (fits work 0 n) eqn:F; [| done].
  apply fits_spec in F. lia.
Qed.

(** A computation followed by another; an error of the first ends both. *)
Lemma costs_bind {A B} (v : A) (r : StartupErrorKind + B) w a w' a' (m : W A) (k : A -> W B) :
  costs (inr v) w a m -> costs r w' a' (k v) -> costs r (w + w') (a + a') (bind m k).
Proof.
  intros (Hw & Ha & Hm) (Hw' & Ha' & Hk). split_and!; [lia | lia |]. intros work Hok.
  specialize (Hm work Hok). rewrite fits_split by done. unfold bind.
  destruct (fits work w a) eqn:F; cbn [andb].
  - rewrite Hm. specialize (Hk _ (spent_ok work w a Hok Hw Ha F)). by rewrite spent_spent in Hk.
  - by destruct (m work) as [[] | | |].
Qed.

Lemma costs_bind_fail {A B} k0 w a (m : W A) (k : A -> W B) :
  costs (inl k0) w a m -> costs (inl k0) w a (bind m k).
Proof.
  intros (Hw & Ha & Hm). split_and!; [done | done |]. intros work Hok.
  specialize (Hm work Hok). unfold bind. by destruct (fits work w a), (m work) as [[] | | |].
Qed.

(** The same charges, written differently. *)
Lemma costs_eq {A} (r : StartupErrorKind + A) w a w' a' m :
  costs r w a m -> w = w' -> a = a' -> costs r w' a' m.
Proof. by intros ? -> ->. Qed.

Lemma costs_clone value operation : costs (inr tt) 1 (len value) (charge_library_map_clone value operation).
Proof.
  eapply costs_eq; [eapply costs_bind; [by apply costs_charge | apply costs_charge_allocation_usize; unfold len; lia] | lia | lia].
Qed.

(** Charges that are not tracked exactly: [m] returns [r] and charges at most
    [w] steps and [a] bytes. *)
Definition within {A} (r : StartupErrorKind + A) (w a : Z) (m : W A) : Prop :=
  exists w' a', costs r w' a' m /\ w' <= w /\ a' <= a.

Lemma within_costs {A} (r : StartupErrorKind + A) w a m : costs r w a m -> within r w a m.
Proof. intros H. exists w, a. by split_and!. Qed.

Lemma within_bind {A B} (v : A) (r : StartupErrorKind + B) w a w' a' (m : W A) (k : A -> W B) :
  within (inr v) w a m -> within r w' a' (k v) -> within r (w + w') (a + a') (bind m k).
Proof.
  intros (w1 & a1 & C1 & ? & ?) (w2 & a2 & C2 & ? & ?). exists (w1 + w2), (a1 + a2).
  split_and!; [by eapply costs_bind | lia | lia].
Qed.

Lemma within_bind_fail {A B} k0 w a (m : W A) (k : A -> W B) :
  within (inl k0) w a m -> within (inl k0) w a (bind m k).
Proof. intros (w1 & a1 & C & ? & ?). exists w1, a1. split_and!; [by apply costs_bind_fail | done | done]. Qed.

Lemma within_weaken {A} (r : StartupErrorKind + A) w a w' a' m :
  within r w a m -> w <= w' -> a <= a' -> within r w' a' m.
Proof. intros (w1 & a1 & C & ? & ?) ??. exists w1, a1. split_and!; [done | lia | lia]. Qed.

(** The two outcomes of a computation whose cost is known. *)
Lemma within_run {A} (r : StartupErrorKind + A) w a m work :
  within r w a m -> work_ok work ->
  (match r with
   | inr v => exists w' a', m work = Done (v, spent work w' a') /\ 0 <= w' <= w /\ 0 <= a' <= a
   | inl k => fails (fun e => kind e = k) (m work)
   end)
  \/ (fits work w a = false /\ fails (fun e => kind e = LimitExceeded) (m work)).
Proof.
  intros (w1 & a1 & (Hw & Ha & C) & Lw & La) Hok. specialize (C work Hok).
  destruct (fits work w1 a1) eqn:F.
  - left. destruct r as [k | v]; [done |]. exists w1, a1. split_and!; [done | lia | lia | lia | lia].
  - right. split; [| done]. apply not_true_iff_false. rewrite fits_spec.
    apply not_true_iff_false in F. rewrite fits_spec in F. lia.
Qed.

(** Peels the charges off the front of a computation. *)
Ltac pay :=
  lazymatch goal with
  | |- costs _ _ _ (bind (charge _ _) _) => eapply costs_bind; [apply costs_charge; unfold len; lia |]
  | |- costs _ _ _ (bind (charge_usize _ _) _) => eapply costs_bind; [apply costs_charge_usize; unfold len; lia |]
  | |- costs _ _ _ (bind (charge_allocation_usize _ _) _) =>
      eapply costs_bind; [apply costs_charge_allocation_usize; unfold len; lia |]
  | |- costs _ _ _ (bind (charge_library_map_clone _ _) _) => eapply costs_bind; [apply costs_clone |]
  | |- costs _ _ _ (charge _ _) => apply costs_charge; unfold len; lia
  | |- costs _ _ _ (charge_usize _ _) => apply costs_charge_usize; unfold len; lia
  | |- costs _ _ _ (charge_allocation_usize _ _) => apply costs_charge_allocation_usize; unfold len; lia
  | |- costs _ _ _ (ret _) => apply costs_ret
  end.

(** * Charged computations that return or fail

    [safely Q m]: under any budget, [m] returns a value that satisfies [Q] or
    fails with an error; it never panics and no loop runs out of fuel. *)

Definition safely {A} (Q : A -> Prop) (m : W A) : Prop :=
  forall work, work_ok work -> runs (fun a work' => Q a /\ work_ok work') (m work).

Lemma safely_ret {A} (Q : A -> Prop) a : Q a -> safely Q (ret a).
Proof. intros H work Hok. by split. Qed.

Lemma safely_fail {A} (Q : A -> Prop) e : safely Q (fail e).
Proof. by intros work Hok. Qed.

Lemma safely_invalid {A} (Q : A -> Prop) text : safely Q (invalid text).
Proof. apply safely_fail. Qed.

Lemma safely_over_limit {A} (Q : A -> Prop) operation : safely Q (over_limit operation).
Proof. by intros work Hok. Qed.

Lemma safely_bind {A B} (P : A -> Prop) (Q : B -> Prop) (m : W A) (k : A -> W B) :
  safely P m -> (forall a, P a -> safely Q (k a)) -> safely Q (bind m k).
Proof.
  intros Hm Hk work Hok. eapply runs_bind; [by apply Hm |]. intros a work' [Ha Hok']. by apply Hk.
Qed.

Lemma safely_weaken {A} (P Q : A -> Prop) m : safely P m -> (forall a, P a -> Q a) -> safely Q m.
Proof. intros Hm H work Hok. eapply runs_weaken; [by apply Hm |]. intros a work' []. auto. Qed.

Lemma safely_within {A} (v : A) w a m : within (inr v) w a m -> safely (fun x => x = v) m.
Proof.
  intros (w' & a' & (Hw & Ha & C) & _) work Hok. specialize (C work Hok).
  destruct (fits work w' a') eqn:F; [rewrite C; cbn; split; [done | by apply spent_ok] |].
  by destruct (m work) as [[] | | |].
Qed.

Lemma safely_costs {A} (v : A) w a m : costs (inr v) w a m -> safely (fun x => x = v) m.
Proof. intros H. by eapply safely_within, within_costs. Qed.

Lemma safely_charge n operation : 0 <= n -> safely (fun _ => True) (charge n operation).
Proof. intros H. eapply safely_weaken; [by eapply safely_costs, costs_charge | done]. Qed.

Lemma safely_charge_usize n operation : 0 <= n -> safely (fun _ => True) (charge_usize n operation).
Proof. intros H. eapply safely_weaken; [by eapply safely_costs, costs_charge_usize | done]. Qed.

Lemma safely_charge_allocation_usize n operation :
  0 <= n -> safely (fun _ => True) (charge_allocation_usize n operation).
Proof. intros H. eapply safely_weaken; [by eapply safely_costs, costs_charge_allocation_usize | done]. Qed.

Lemma safely_clone value operation : safely (fun _ => True) (charge_library_map_clone value operation).
Proof. eapply safely_weaken; [eapply safely_costs, costs_clone | done]. Qed.

Lemma safely_fold {A B} (I : list A -> B -> Prop) (body : B -> A -> W B) xs b :
  I [] b ->
  (forall done x b, (exists rest, xs = done ++ x :: rest) -> I done b -> safely (I (done ++ [x])) (body b x)) ->
  safely (I xs) (fold_m body xs b).
Proof.
  enough (H : forall done rest b, xs = done ++ rest -> I done b ->
    (forall done x b, (exists rest, xs = done ++ x :: rest) -> I done b -> safely (I (done ++ [x])) (body b x)) ->
    safely (I xs) (fold_m body rest b)) by (intros; by apply (H [] xs)).
  clear b. intros done rest. revert done. induction rest as [| x rest IH]; intros done b E Hb Step; cbn [fold_m].
  - rewrite app_nil_r in E. subst. by apply safely_ret.
  - eapply safely_bind; [apply Step; [by exists rest | done] |]. intros b' Hb'.
    apply (IH (done ++ [x])); [by rewrite <- app_assoc | done | done].
Qed.

Lemma scan_keys_safe ls :
  Forall (Z.le 0) ls -> safely (fun cl => 0 <= cl.1 /\ 0 <= cl.2) (scan_keys ls).
Proof.
  intros H. unfold scan_keys. apply (safely_fold (fun _ cl => 0 <= cl.1 /\ 0 <= cl.2)); [cbn; lia |].
  intros done_ x [c l] (rest & E) [Hc Hl]. cbn in Hc, Hl.
  assert (0 <= x) by (rewrite E in H; apply Forall_app in H as [_ H]; by apply Forall_cons in H as []).
  eapply safely_bind; [by apply safely_charge |]. intros _ _.
  eapply safely_bind; [by apply safely_charge |]. intros _ _.
  destruct (max_u64 <? c + 1); [apply safely_over_limit |]. apply safely_ret. cbn. lia.
Qed.

Lemma bit_length_nonneg n : 0 <= bit_length n.
Proof. unfold bit_length. destruct (Z.leb_spec n 0); [lia |]. pose proof (Z.log2_nonneg n). lia. Qed.

Lemma key_comparison_safe ls sort operation :
  Forall (Z.le 0) ls -> safely (fun _ => True) (charge_key_comparison_work ls sort operation).
Proof.
  intros H. unfold charge_key_comparison_work. eapply safely_bind; [by apply scan_keys_safe |].
  intros [c l] [Hc Hl]. cbn in Hc, Hl. cbv zeta.
  repeat (case_match; [apply safely_over_limit |]). apply safely_charge.
  assert (0 <= comparison_count sort c).
  { unfold comparison_count. pose proof (bit_length_nonneg (c - 1)). destruct (sort && (1 <? c)); nia. }
  nia.
Qed.

(** One step of a charged computation. *)
Ltac safe_step :=
  lazymatch goal with
  | |- safely _ (ret _) => apply safely_ret
  | |- safely _ (fail _) => apply safely_fail
  | |- safely _ (invalid _) => apply safely_invalid
  | |- safely _ (over_limit _) => apply safely_over_limit
  | |- safely _ (bind (charge _ _) _) =>
      eapply safely_bind; [apply safely_charge; unfold len; lia |]; intros _ _
  | |- safely _ (bind (charge_usize _ _) _) =>
      eapply safely_bind; [apply safely_charge_usize; unfold len; lia |]; intros _ _
  | |- safely _ (bind (charge_allocation_usize _ _) _) =>
      eapply safely_bind; [apply safely_charge_allocation_usize; unfold len; lia |]; intros _ _
  | |- safely _ (bind (charge_library_map_clone _ _) _) =>
      eapply safely_bind; [apply safely_clone |]; intros _ _
  end.
