(* ===== verification/MapPaths.v ===== *)
(** * Paths and patterns of library maps

    The logical paths of [src/core/compile.rs] that name the buffers of a
    compilation, and the patterns of library maps over them: cutting a text into
    components with drive and network prefixes, resolving [.] and [..], [*] and
    [?] within a component, and [**] across components. A text is its UTF-8
    bytes. *)

From Stdlib Require Import ZArith Lia Ascii String.
From stdpp Require Import base list strings.
From S2P Require Import Prelude MapWork.
Open Scope Z_scope.
Open Scope list_scope.

(** ** Cutting a text into components *)

Definition separator (b : ascii) : bool := Ascii.eqb b "/" || Ascii.eqb b "\".

(** [u8::is_ascii_whitespace]. *)
Definition is_ascii_whitespace (b : ascii) : bool :=
  existsb (N.eqb (byte_N b)) [32; 9; 10; 12; 13]%N.

(** [str::split] by a set of ASCII characters. *)
Fixpoint split_on (p : ascii -> bool) (text : bytes) : list bytes :=
  match text with
  | [] => [[]]
  | b :: rest =>
      if p b then [] :: split_on p rest
      else match split_on p rest with
           | [] => [[b]]
           | piece :: pieces => (b :: piece) :: pieces
           end
  end.

Definition non_empty (piece : bytes) : bool := match piece with [] => false | _ => true end.

(** [text.split(separator).filter(|part| !part.is_empty())]. *)
Definition path_parts (text : bytes) : list bytes := List.filter non_empty (split_on separator text).

Fixpoint skip_separators (text : bytes) : bytes :=
  match text with
  | b :: rest => if separator b then skip_separators rest else text
  | [] => []
  end.

(** [text[start..]], which panics within a character of several bytes. *)
Definition continuation_byte (b : ascii) : bool := (128 <=? byte_N b)%N && (byte_N b <? 192)%N.

Definition str_from (text : bytes) (start : nat) : W bytes :=
  if Nat.ltb (length text) start then panic "byte index is out of bounds"
  else match drop start text with
       | b :: _ => if continuation_byte b && negb (Nat.eqb start 0) then panic "byte index is not a char boundary"
                   else ret (drop start text)
       | [] => ret []
       end.

(** The network prefix [//server/share] after its two separators. *)
Definition network_components (text rest : bytes) : W (list bytes) :=
  match path_parts rest with
  | server :: share :: _ =>
      let prefix_len := (2 + length server + 1 + length share)%nat in
      let start := (length text - length (skip_separators (drop prefix_len text)))%nat in
      let* tail := str_from text start in
      ret ((unstr "//" ++ server ++ unstr "/" ++ share) :: path_parts tail)
  | _ => ret (unstr "//" :: path_parts rest)
  end.

Definition logical_components_from_text (text : bytes) : W (list bytes) :=
  match text with
  | b0 :: b1 :: rest =>
      if separator b0 && separator b1 then network_components text rest
      else if is_ascii_alphabetic b0 && Ascii.eqb b1 ":" then
        ret ([b0; b1] ::
             match rest with
             | b2 :: _ => if separator b2 then [] :: path_parts (skip_separators rest) else path_parts rest
             | [] => path_parts rest
             end)
      else if separator b0 then ret ([] :: path_parts (skip_separators text))
      else ret (path_parts text)
  | [b0] => if separator b0 then ret ([] :: path_parts (skip_separators text)) else ret (path_parts text)
  | [] => ret (path_parts text)
  end.

(** ** Normal forms *)

Definition DOT : bytes := unstr ".".
Definition DOT_DOT : bytes := unstr "..".

(** A drive: a letter and a colon. *)
Definition drive (value : bytes) : bool :=
  match value with [b0; b1] => is_ascii_alphabetic b0 && Ascii.eqb b1 ":" | _ => false end.

Definition starts_network (value : bytes) : bool :=
  match value with b0 :: b1 :: _ => Ascii.eqb b0 "/" && Ascii.eqb b1 "/" | _ => false end.

Definition logical_prefix_component (value : bytes) : bool :=
  negb (non_empty value) || starts_network value || drive value.

(** A component that [..] removes. *)
Definition removable (part : bytes) : bool :=
  non_empty part && negb (bool_decide (part = DOT_DOT)) && negb (logical_prefix_component part).

Definition last_removable (result : list bytes) : bool :=
  match last result with Some part => removable part | None => false end.

Definition key_step (operation : string) (result : list bytes) (component : bytes) : W (list bytes) :=
  charge 1 operation ;;;
  charge_usize (len component) operation ;;;
  if bool_decide (component = DOT) then ret result
  else if bool_decide (component = DOT_DOT) then
    if last_removable result then ret (removelast result)
    else charge_usize 2 operation ;;; ret (result ++ [component])
  else ret (result ++ [component]).

Definition logical_path_key (path : bytes) (operation : string) : W (list bytes) :=
  let* values := logical_components_from_text path in
  charge_usize (len values) operation ;;;
  fold_m (key_step operation) values [].

Definition logical_text_is_absolute (text : bytes) : bool :=
  match text with b :: _ => separator b | [] => false end
  || match text with
     | _ :: b1 :: b2 :: _ => Ascii.eqb b1 ":" && negb (is_ascii_whitespace b2) && separator b2
     | _ => false
     end.

(** The index of the last separator ([rfind]). *)
Fixpoint last_separator (text : bytes) : option nat :=
  match text with
  | [] => None
  | b :: rest =>
      match last_separator rest with
      | Some i => Some (S i)
      | None => if separator b then Some 0%nat else None
      end
  end.

Definition logical_map_parent (name : bytes) : bytes :=
  match last_separator name with
  | None => DOT
  | Some index =>
      if Nat.eqb index 0 then take 1 name
      else if Nat.eqb index 2 && drive (take 2 name) then take (index + 1) name
      else take index name
  end.

(** ** Patterns *)

Record LogicalMapPatternComponent : Type := mkComponent { value : bytes; wildcards : bool }.

Definition text_has_wildcard (component : bytes) : bool :=
  existsb (fun b => Ascii.eqb b "*") component || existsb (fun b => Ascii.eqb b "?") component.

Definition NORMALIZATION : string := "logical map pattern normalization".

Definition literal (component : bytes) : LogicalMapPatternComponent := mkComponent component false.

Definition last_is_drive (result : list LogicalMapPatternComponent) : bool :=
  match last result with Some part => drive (value part) | None => false end.

Definition last_part_removable (result : list LogicalMapPatternComponent) : bool :=
  match last result with Some part => removable (value part) | None => false end.

Definition pattern_step (result : list LogicalMapPatternComponent) (component : bytes)
  : W (list LogicalMapPatternComponent) :=
  charge 1 NORMALIZATION ;;;
  charge_usize (len component) NORMALIZATION ;;;
  if bool_decide (component = DOT) then ret result
  else if negb (non_empty component) && last_is_drive result then
    charge 1 NORMALIZATION ;;; ret (result ++ [literal component])
  else if logical_prefix_component component then ret [literal component]
  else if bool_decide (component = DOT_DOT) then
    if last_part_removable result then ret (removelast result)
    else charge 1 NORMALIZATION ;;; ret (result ++ [literal component])
  else charge 1 NORMALIZATION ;;; ret (result ++ [mkComponent component (text_has_wildcard component)]).

Definition logical_map_pattern_key (base pattern : bytes) : W (list LogicalMapPatternComponent) :=
  let* result :=
    if logical_text_is_absolute pattern then ret []
    else let* base_components := logical_path_key base "logical map base normalization" in
         charge_usize (len base_components) "logical map base component storage" ;;;
         ret (map literal base_components) in
  let* components := logical_components_from_text pattern in
  charge_usize (len components) "logical map pattern component storage" ;;;
  fold_m pattern_step components result.

(** *** Within a component *)

(** The positions of the matcher: in the value, in the pattern, and the last
    star with the value position it retries from. *)
Record Greedy : Type := mkGreedy {
  value_index : nat;
  pattern_index : nat;
  star : option (nat * nat);
}.

Definition STAR_STEP : string := "byte matching trailing-star step".

Fixpoint trailing_stars (rest : bytes) : W bool :=
  match rest with
  | b :: rest' => if Ascii.eqb b "*" then charge 1 STAR_STEP ;;; trailing_stars rest' else ret false
  | [] => ret true
  end.

(** One turn of the loop: the positions after it, or [None] for a mismatch. *)
Definition greedy_step (value pattern : bytes) (g : Greedy) (b : ascii) : option Greedy :=
  match pattern !! pattern_index g, star g with
  | Some p, saved =>
      if Ascii.eqb p "*" then
        Some (mkGreedy (value_index g) (S (pattern_index g)) (Some (pattern_index g, value_index g)))
      else if Ascii.eqb p "?" || Ascii.eqb p b then
        Some (mkGreedy (S (value_index g)) (S (pattern_index g)) saved)
      else match saved with
           | Some (star_index, star_value) =>
               Some (mkGreedy (S star_value) (S star_index) (Some (star_index, S star_value)))
           | None => None
           end
  | None, Some (star_index, star_value) =>
      Some (mkGreedy (S star_value) (S star_index) (Some (star_index, S star_value)))
  | None, None => None
  end.

Fixpoint wildcard_loop (fuel : nat) (value pattern : bytes) (g : Greedy) : W bool :=
  match value !! value_index g with
  | None => trailing_stars (drop (pattern_index g) pattern)
  | Some b =>
      match fuel with
      | O => fun _ => NoFuel
      | S fuel' =>
          charge 1 "byte matching step" ;;;
          match greedy_step value pattern g b with
          | Some g' => wildcard_loop fuel' value pattern g'
          | None => ret false
          end
      end
  end.

(** Enough turns: the star moves over the value at most once per byte, and the
    pattern is passed at most once between two moves. *)
Definition greedy_fuel (value_length pattern_length : nat) : nat :=
  ((value_length + 1) * (pattern_length + 1) + pattern_length)%nat.

Definition wildcard_component_matches (value pattern : bytes) : W bool :=
  wildcard_loop (greedy_fuel (length value) (length pattern)) value pattern (mkGreedy 0 0 None).

(** *** Across components *)

Definition RECURSIVE : bytes := unstr "**".

Definition charge_logical_component_comparison (value literal : bytes) : W bool :=
  charge 1 "logical path component comparison" ;;;
  charge_usize (len value) "logical path component comparison" ;;;
  charge_usize (len literal) "logical path component comparison" ;;;
  ret (bool_decide (value = literal)).

Definition charge_logical_value_comparison (value pattern : bytes) : W bool :=
  charge 1 "logical path literal comparison" ;;;
  charge_usize (len value) "logical path literal comparison" ;;;
  charge_usize (len pattern) "logical path literal comparison" ;;;
  ret (bool_decide (value = pattern)).

Definition component_matches (candidate : bytes) (part : LogicalMapPatternComponent) : W bool :=
  if wildcards part then wildcard_component_matches candidate (value part)
  else charge_logical_value_comparison candidate (value part).

(** The end of a turn without a match: back to the last [**]. *)
Definition backtrack (g : Greedy) : W (option Greedy) :=
  match star g with
  | None => ret None
  | Some (star_index, star_candidate) =>
      charge 1 "logical path matching backtracking" ;;;
      ret (Some (mkGreedy (S star_candidate) (S star_index) (Some (star_index, S star_candidate))))
  end.

Definition path_step (pattern : list LogicalMapPatternComponent) (g : Greedy) (candidate : bytes)
  : W (option Greedy) :=
  match pattern !! pattern_index g with
  | None => backtrack g
  | Some part =>
      let* recursive := if wildcards part then charge_logical_component_comparison (value part) RECURSIVE
                        else ret false in
      if recursive then
        ret (Some (mkGreedy (value_index g) (S (pattern_index g)) (Some (pattern_index g, value_index g))))
      else
        let* matched := component_matches candidate part in
        if matched then ret (Some (mkGreedy (S (value_index g)) (S (pattern_index g)) (star g)))
        else backtrack g
  end.

(** The loop after the candidate is used up. *)
Fixpoint trailing_recursive (rest : list LogicalMapPatternComponent) : W bool :=
  match rest with
  | [] => ret true
  | part :: rest' =>
      if wildcards part then
        let* recursive := charge_logical_component_comparison (value part) RECURSIVE in
        if recursive then trailing_recursive rest' else ret false
      else ret false
  end.

Fixpoint path_loop (fuel : nat) (pattern : list LogicalMapPatternComponent) (candidate : list bytes)
    (g : Greedy) : W bool :=
  match candidate !! value_index g with
  | None => trailing_recursive (drop (pattern_index g) pattern)
  | Some component =>
      match fuel with
      | O => fun _ => NoFuel
      | S fuel' =>
          charge 1 "logical path matching step" ;;;
          let* next := path_step pattern g component in
          match next with
          | Some g' => path_loop fuel' pattern candidate g'
          | None => ret false
          end
      end
  end.

Definition logical_path_pattern_matches (pattern : list LogicalMapPatternComponent) (candidate : list bytes)
  : W bool :=
  let* first_is_parent :=
    match pattern with
    | first :: _ => if wildcards first then ret false
                    else charge_logical_component_comparison (value first) DOT_DOT
    | [] => ret false
    end in
  if first_is_parent then ret false
  else path_loop (greedy_fuel (length candidate) (length pattern)) pattern candidate (mkGreedy 0 0 None).

Definition map_pattern_matches (base pattern candidate : bytes) : W bool :=
  charge_usize (len pattern) "logical map pattern preparation" ;;;
  if existsb (fun b => Ascii.eqb b "$") pattern then
    invalid ("environment expansion is not allowed in library map path `" +:+ str pattern +:+ "`")
  else
    let* pattern := logical_map_pattern_key base pattern in
    let* candidate := logical_path_key candidate "logical map candidate normalization" in
    logical_path_pattern_matches pattern candidate.

(** ** Ranks of patterns (library_mapping.rs) *)

Inductive LibrarySpecificity : Type :=
| Directory | WildcardFile | ExplicitFile | ExplicitAssignment.

Definition rank_value (s : LibrarySpecificity) : Z :=
  match s with Directory => 0 | WildcardFile => 1 | ExplicitFile => 2 | ExplicitAssignment => 3 end.

Definition ends_with_separator (pattern : bytes) : bool :=
  match last pattern with Some b => separator b | None => false end.

Definition of_pattern (pattern : bytes) : LibrarySpecificity :=
  if ends_with_separator pattern then Directory
  else if text_has_wildcard (default pattern (last (split_on separator pattern))) then WildcardFile
  else ExplicitFile.

Definition library_match_pattern (pattern : bytes) : W bytes :=
  if negb (ends_with_separator pattern) then ret pattern
  else
    let length := len pattern + 1 in
    if max_u64 <? length then over_limit "directory pattern"
    else if MAX_LIBRARY_PATH_BYTES <? length then over_limit "directory pattern path bytes"
    else charge_usize length "directory pattern expansion" ;;;
         charge_allocation_usize length "directory pattern expansion" ;;;
         ret (pattern ++ unstr "*").
