(* ===== verification/GlobFacts.v ===== *)
(** * Wildcard matching

    [wild] is the meaning of a pattern: a star stands for any run of elements,
    every other element for one that it accepts. The greedy matcher keeps one
    star to return to; the section proves it exact, with a bound on its turns,
    for bytes and for path components at once. *)

From Stdlib Require Import ZArith Lia Ascii String.
From stdpp Require Import base list strings.
From S2P Require Import Prelude Names MapPaths MapWork.
Open Scope Z_scope.
Open Scope list_scope.

Fixpoint tails {V} (vs : list V) : list (list V) :=
  vs :: match vs with [] => [] | _ :: vs' => tails vs' end.

Section Wild.
Context {P V : Type} (is_star : P -> bool) (accepts : P -> V -> bool).
Implicit Types (ps : list P) (vs : list V).

Fixpoint wild ps vs : bool :=
  match ps with
  | [] => match vs with [] => true | _ => false end
  | p :: ps' =>
      if is_star p then existsb (wild ps') (tails vs)
      else match vs with v :: vs' => accepts p v && wild ps' vs' | [] => false end
  end.

Lemma wild_star p ps vs : is_star p = true -> wild (p :: ps) vs = wild ps vs || wild (p :: ps) (drop 1 vs).
Proof.
  intros S. cbn [wild]. rewrite S. destruct vs as [| v vs]; cbn; [by rewrite orb_false_r, orb_diag |].
  by rewrite drop_0.
Qed.

Lemma wild_one p ps v vs : is_star p = false -> wild (p :: ps) (v :: vs) = accepts p v && wild ps vs.
Proof. intros S. cbn [wild]. by rewrite S. Qed.

Lemma wild_nil_r ps : wild ps [] = forallb is_star ps.
Proof.
  induction ps as [| p ps IH]; [done |]. cbn [wild forallb]. destruct (is_star p); [| done].
  cbn. by rewrite IH, orb_false_r.
Qed.

Lemma wild_star_drop p ps vs k : is_star p = true -> wild ps (drop k vs) = true -> wild (p :: ps) vs = true.
Proof.
  intros S. revert vs. induction k as [| k IH]; intros vs H.
  - rewrite drop_0 in H. by rewrite wild_star, H.
  - rewrite wild_star by done. rewrite (IH (drop 1 vs)), orb_true_r; [done |]. by rewrite drop_drop.
Qed.

Lemma wild_star_inv p ps vs :
  is_star p = true -> wild (p :: ps) vs = true ->
  exists k, (k <= length vs)%nat /\ wild ps (drop k vs) = true.
Proof.
  intros S. induction vs as [| v vs IH]; rewrite wild_star by done; intros [H | H]%orb_true_iff.
  - by exists 0%nat.
  - cbn in H. rewrite S in H. cbn in H. rewrite orb_false_r in H. by exists 0%nat.
  - exists 0%nat. split; [lia | done].
  - cbn [drop] in H. rewrite drop_0 in H. destruct (IH H) as (k & Hk & E). exists (Datatypes.S k). cbn. split; [lia | done].
Qed.

Lemma wild_star_absorb p ps vs k :
  is_star p = true -> wild (p :: ps) (drop k vs) = true -> wild (p :: ps) vs = true.
Proof.
  intros S (j & _ & H)%wild_star_inv; [| done]. rewrite drop_drop in H. by eapply wild_star_drop.
Qed.

(** A part of the pattern without stars takes one element each. *)
Lemma wild_segment seg ps vs :
  forallb (fun p => negb (is_star p)) seg = true -> wild (seg ++ ps) vs = true ->
  (length seg <= length vs)%nat /\ wild ps (drop (length seg) vs) = true.
Proof.
  revert vs. induction seg as [| p seg IH]; intros vs Hs H; cbn in *; [by split; [lia |] |].
  apply andb_prop in Hs as [Hp Hs]. apply negb_true_iff in Hp. rewrite Hp in H.
  destruct vs as [| v vs]; [done |]. apply andb_prop in H as [_ H].
  destruct (IH vs Hs H) as [L E]. cbn. split; [lia | done].
Qed.

(** ** The greedy matcher *)

Section Greedy.
Context (pattern : list P) (values : list V).

Definition retry (g : Greedy) : option Greedy :=
  match star g with
  | Some (star_index, star_value) =>
      Some (mkGreedy (S star_value) (S star_index) (Some (star_index, S star_value)))
  | None => None
  end.

Definition greedy_next (g : Greedy) (v : V) : option Greedy :=
  match pattern !! pattern_index g with
  | Some p =>
      if is_star p then
        Some (mkGreedy (value_index g) (S (pattern_index g)) (Some (pattern_index g, value_index g)))
      else if accepts p v then Some (mkGreedy (S (value_index g)) (S (pattern_index g)) (star g))
      else retry g
  | None => retry g
  end.

(** What is still open at the positions of [g]. *)
Definition here (g : Greedy) : bool := wild (drop (pattern_index g) pattern) (drop (value_index g) values).
Definition elsewhere (g : Greedy) : bool :=
  match star g with
  | Some (star_index, star_value) => wild (drop star_index pattern) (drop (S star_value) values)
  | None => false
  end.

(** The elements of the pattern between the last star and the position, which
    took one value each. *)
Definition between_stars (star_index index : nat) : list P :=
  take (index - S star_index) (drop (S star_index) pattern).

Record greedy_ok (g : Greedy) : Prop := {
  in_values : (value_index g <= length values)%nat;
  in_pattern : (pattern_index g <= length pattern)%nat;
  open : wild pattern values = here g || elsewhere g;
  after_star :
    match star g with
    | None => True
    | Some (si, sv) =>
        (si < pattern_index g)%nat /\ (sv <= value_index g)%nat
        /\ (value_index g - sv = pattern_index g - S si)%nat
        /\ (exists p, pattern !! si = Some p /\ is_star p = true)
        /\ forallb (fun p => negb (is_star p)) (between_stars si (pattern_index g)) = true
    end;
}.

(** What the last star could still reach lies beyond the current position. *)
Lemma elsewhere_later g :
  greedy_ok g -> elsewhere g = true ->
  exists k, (value_index g < k)%nat
            /\ wild (drop (pattern_index g) pattern) (drop k values) = true.
Proof.
  intros [Hv Hp _ Hs] H. unfold elsewhere in H. destruct (star g) as [[si sv] |]; [| done].
  destruct Hs as (H1 & H2 & H3 & (p & Ep & Sp) & Hb).
  rewrite (drop_S pattern p si Ep) in H. apply wild_star_inv in H as (k & Hk & H); [| done].
  rewrite drop_drop in H. rewrite length_drop in Hk.
  assert (E : drop (S si) pattern = between_stars si (pattern_index g) ++ drop (pattern_index g) pattern).
  { unfold between_stars. rewrite <- (take_drop (pattern_index g - S si) (drop (S si) pattern)) at 1.
    f_equal. rewrite drop_drop. f_equal. lia. }
  rewrite E in H. apply wild_segment in H as [L H]; [| done].
  assert (Lb : length (between_stars si (pattern_index g)) = (pattern_index g - S si)%nat).
  { unfold between_stars. rewrite length_take, length_drop. lia. }
  rewrite drop_drop, Lb in H. rewrite length_drop, Lb in L. eexists. split; [| exact H]. lia.
Qed.

Lemma between_stars_S si pi p :
  (si < pi)%nat -> pattern !! pi = Some p -> between_stars si (S pi) = between_stars si pi ++ [p].
Proof.
  intros Hlt E. unfold between_stars. replace (S pi - S si)%nat with (S (pi - S si)) by lia.
  apply take_S_r. rewrite lookup_drop. rewrite <- E. f_equal. lia.
Qed.

Lemma between_stars_nil si : between_stars si (S si) = [].
Proof. unfold between_stars. by rewrite Nat.sub_diag. Qed.

Lemma start_ok : greedy_ok (mkGreedy 0 0 None).
Proof.
  split; cbn; [lia | lia | | done]. unfold here, elsewhere. cbn. by rewrite !drop_0, orb_false_r.
Qed.

(** A turn keeps the meaning, and goes down. *)
Definition turns_left (g : Greedy) : nat :=
  ((length values + 1 - match star g with Some (_, sv) => sv | None => 0 end) * (length pattern + 1)
   + (length pattern - pattern_index g))%nat.

Lemma retry_ok g g' :
  greedy_ok g -> (value_index g < length values)%nat -> here g = false -> retry g = Some g' ->
  greedy_ok g' /\ (turns_left g' < turns_left g)%nat.
Proof.
  intros [Hv Hp Ho Hs] Hlt Hh Hr. unfold retry in Hr. destruct (star g) as [[si sv] |] eqn:Eg; [| done].
  injection Hr as <-. destruct Hs as (H1 & H2 & H3 & (p & Ep & Sp) & Hb). split.
  - split; cbn [value_index pattern_index star].
    + lia.
    + apply lookup_lt_Some in Ep. lia.
    + rewrite Ho, Hh. unfold here, elsewhere. rewrite Eg. cbn [value_index pattern_index star orb].
      rewrite (drop_S pattern p si Ep), wild_star by done. rewrite drop_drop. do 3 f_equal. lia.
    + split_and!; [lia | lia | lia | by exists p |]. by rewrite between_stars_nil.
  - unfold turns_left. rewrite Eg. cbn. apply lookup_lt_Some in Ep.
    replace (length values + 1 - sv)%nat with (S (length values + 1 - S sv)) by lia. lia.
Qed.

Lemma next_ok g g' v :
  greedy_ok g -> values !! value_index g = Some v -> greedy_next g v = Some g' ->
  greedy_ok g' /\ (turns_left g' < turns_left g)%nat.
Proof.
  intros Hok Ev Hn. pose proof Hok as [Hv Hp Ho Hs]. apply lookup_lt_Some in Ev as Hlt.
  unfold greedy_next in Hn. destruct (pattern !! pattern_index g) as [p |] eqn:Ep.
  - apply lookup_lt_Some in Ep as Hpl. destruct (is_star p) eqn:Sp; [| destruct (accepts p v) eqn:Ap].
    + injection Hn as <-. split; [split; cbn [value_index pattern_index star] |].
      * lia.
      * lia.
      * rewrite Ho. unfold here at 2, elsewhere at 2. cbn [value_index pattern_index star].
        assert (E : here g = wild (drop (S (pattern_index g)) pattern) (drop (value_index g) values)
                             || wild (drop (pattern_index g) pattern) (drop (S (value_index g)) values)).
        { unfold here. rewrite (drop_S pattern p _ Ep), wild_star by done.
          rewrite drop_drop. do 2 f_equal. f_equal. lia. }
        rewrite <- E. destruct (elsewhere g) eqn:Ee; [| by rewrite orb_false_r].
        destruct (elsewhere_later g Hok Ee) as (k & Hk & Hw). rewrite orb_true_r. unfold here.
        rewrite (drop_S pattern p _ Ep) in Hw |- *. symmetry.
        apply (wild_star_absorb p _ _ (k - value_index g)); [done |].
        rewrite drop_drop. by replace (value_index g + (k - value_index g))%nat with k by lia.
      * split_and!; [lia | lia | lia | by exists p | by rewrite between_stars_nil].
      * unfold turns_left. cbn [value_index pattern_index star]. destruct (star g) as [[si sv] |]; nia.
    + injection Hn as <-. split; [split; cbn [value_index pattern_index star] |].
      * lia.
      * lia.
      * rewrite Ho. unfold here, elsewhere. cbn [value_index pattern_index star]. f_equal.
        by rewrite (drop_S pattern p _ Ep), (drop_S values v _ Ev), wild_one, Ap.
      * destruct (star g) as [[si sv] |]; [| done]. destruct Hs as (H1 & H2 & H3 & H4 & Hb).
        split_and!; [lia | lia | lia | done |].
        rewrite (between_stars_S si _ p H1 Ep), forallb_app, Hb. cbn. by rewrite Sp.
      * unfold turns_left. cbn [value_index pattern_index star]. lia.
    + apply (retry_ok g g' Hok Hlt); [| done].
      unfold here. by rewrite (drop_S pattern p _ Ep), (drop_S values v _ Ev), wild_one, Ap.
  - apply (retry_ok g g' Hok Hlt); [| done].
    unfold here. rewrite (drop_S values v _ Ev), drop_ge; [done |]. by apply lookup_ge_None.
Qed.

Lemma next_none g v :
  greedy_ok g -> values !! value_index g = Some v -> greedy_next g v = None -> wild pattern values = false.
Proof.
  intros [Hv Hp Ho Hs] Ev Hn. rewrite Ho. unfold elsewhere, here.
  unfold greedy_next, retry in Hn. rewrite (drop_S values v _ Ev).
  destruct (pattern !! pattern_index g) as [p |] eqn:Ep.
  - rewrite (drop_S pattern p _ Ep). destruct (is_star p) eqn:Sp; [done |]. rewrite wild_one by done.
    destruct (accepts p v); [done |]. by destruct (star g) as [[] |].
  - rewrite drop_ge by (by apply lookup_ge_None). by destruct (star g) as [[] |].
Qed.

Lemma greedy_stop g :
  greedy_ok g -> values !! value_index g = None ->
  wild pattern values = forallb is_star (drop (pattern_index g) pattern).
Proof.
  intros Hok Ev%lookup_ge_None. pose proof Hok as [Hv Hp Ho Hs]. rewrite <- wild_nil_r, Ho.
  assert (Eh : here g = wild (drop (pattern_index g) pattern) []).
  { unfold here. by rewrite (drop_ge values). }
  destruct (elsewhere g) eqn:Ee; [| by rewrite orb_false_r].
  destruct (elsewhere_later g Hok Ee) as (k & Hk & Hw). rewrite (drop_ge values) in Hw by lia.
  by rewrite orb_true_r, Hw.
Qed.

Lemma start_turns : turns_left (mkGreedy 0 0 None) = greedy_fuel (length values) (length pattern).
Proof. unfold turns_left, greedy_fuel. cbn. lia. Qed.
End Greedy.
End Wild.

(** ** Within a component *)

Definition byte_star (p : ascii) : bool := Ascii.eqb p "*".
Definition byte_accepts (p b : ascii) : bool := Ascii.eqb p "?" || Ascii.eqb p b.

(** The bytes that a component pattern stands for. *)
Definition glob (pattern value : bytes) : bool := wild byte_star byte_accepts pattern value.

Lemma greedy_step_next value pattern g b :
  greedy_step value pattern g b = greedy_next byte_star byte_accepts pattern g b.
Proof.
  unfold greedy_step, greedy_next, retry, byte_star, byte_accepts, bytes in *.
  destruct (pattern !! pattern_index g) as [p |]; destruct (star g) as [[si sv] |]; reflexivity.
Qed.

Lemma trailing_stars_within rest : within (inr (forallb byte_star rest)) (len rest) 0 (trailing_stars rest).
Proof.
  induction rest as [| b rest IH]; cbn [trailing_stars forallb]; [apply within_costs, costs_ret |].
  unfold byte_star at 1. destruct (Ascii.eqb b "*").
  - eapply within_weaken; [eapply within_bind; [apply within_costs; by apply costs_charge | exact IH] | |];
      unfold len; cbn [length]; lia.
  - eapply within_weaken; [apply within_costs, costs_ret | |]; unfold len; lia.
Qed.

Lemma wildcard_loop_within fuel value pattern g :
  greedy_ok byte_star byte_accepts pattern value g ->
  (turns_left pattern value g <= fuel)%nat ->
  within (inr (glob pattern value)) (Z.of_nat (turns_left pattern value g) + len pattern) 0
    (wildcard_loop fuel value pattern g).
Proof.
  unfold glob. revert g. induction fuel as [| fuel IH]; intros g Hok Hf; cbn [wildcard_loop]; unfold bytes in *;
    destruct (value !! value_index g) as [b |] eqn:Ev.
  2, 4: rewrite (greedy_stop _ _ _ _ g Hok Ev); eapply within_weaken; [apply trailing_stars_within | |];
    unfold len; rewrite ?length_drop; lia.
  - destruct (greedy_next byte_star byte_accepts pattern g b) as [g' |] eqn:En.
    + destruct (next_ok _ _ _ _ g g' b Hok Ev En) as [_ ?]. lia.
    + exfalso. unfold turns_left in Hf. destruct Hok as [Hv Hp _ Hs]. apply lookup_lt_Some in Ev.
      destruct (star g) as [[si sv] |]; nia.
  - rewrite greedy_step_next. destruct (greedy_next byte_star byte_accepts pattern g b) as [g' |] eqn:En.
    + destruct (next_ok _ _ _ _ g g' b Hok Ev En) as [Hok' Ht].
      eapply within_weaken; [eapply within_bind;
        [apply within_costs; by apply costs_charge | apply IH; [exact Hok' | lia]] | |]; lia.
    + rewrite (next_none _ _ _ _ g b Hok Ev En).
      eapply within_weaken; [eapply within_bind; [apply within_costs; by apply costs_charge
                                                 | apply within_costs, costs_ret] | | lia].
      enough (0 < turns_left pattern value g)%nat by (unfold len; lia).
      unfold turns_left. destruct Hok as [Hv Hp _ Hs]. apply lookup_lt_Some in Ev.
      destruct (star g) as [[si sv] |]; nia.
Qed.

(** What matching a component costs at most. *)
Definition glob_bound (v p : Z) : Z := (v + 1) * (p + 1) + 2 * p.

Lemma glob_bound_mono v p v' p' : 0 <= v <= v' -> 0 <= p <= p' -> 0 <= glob_bound v p <= glob_bound v' p'.
Proof. unfold glob_bound. nia. Qed.

Lemma wildcard_component_within value pattern :
  within (inr (glob pattern value)) (glob_bound (len value) (len pattern)) 0
    (wildcard_component_matches value pattern).
Proof.
  unfold wildcard_component_matches. rewrite <- (start_turns pattern value).
  eapply within_weaken; [apply wildcard_loop_within; [apply start_ok | done] | | lia].
  rewrite start_turns. unfold greedy_fuel, glob_bound, len. lia.
Qed.

(** ** Across components *)

Definition part_star (part : LogicalMapPatternComponent) : bool :=
  wildcards part && bool_decide (value part = RECURSIVE).

Definition part_accepts (part : LogicalMapPatternComponent) (component : bytes) : bool :=
  if wildcards part then glob (value part) component else bool_decide (component = value part).

(** The component lists that a pattern stands for. *)
Definition path_glob (pattern : list LogicalMapPatternComponent) (candidate : list bytes) : bool :=
  wild part_star part_accepts pattern candidate.

(** The lengths of the longest component of a pattern and of a candidate. *)
Definition longest (components : list bytes) : Z := foldr Z.max 0 (map len components).

Lemma longest_nonneg l : 0 <= longest l.
Proof. unfold longest. induction l; cbn; lia. Qed.

Lemma longest_elem l c : c ∈ l -> 0 <= len c <= longest l.
Proof.
  unfold longest. induction 1 as [c l | c d l _ IH]; cbn [map foldr]; unfold len in *; lia.
Qed.

Lemma longest_drop {A} (f : A -> bytes) l i : longest (map f (drop i l)) <= longest (map f l).
Proof.
  unfold longest. revert i. induction l as [| x l IH]; intros [| i]; cbn [drop map foldr]; try lia.
  specialize (IH i). lia.
Qed.

Lemma comparison_costs v l :
  costs (inr (bool_decide (v = l))) (1 + len v + len l) 0 (charge_logical_component_comparison v l).
Proof. unfold charge_logical_component_comparison. eapply costs_eq; [repeat pay | lia | lia]. Qed.

Lemma value_comparison_costs v l :
  costs (inr (bool_decide (v = l))) (1 + len v + len l) 0 (charge_logical_value_comparison v l).
Proof. unfold charge_logical_value_comparison. eapply costs_eq; [repeat pay | lia | lia]. Qed.

Lemma component_within part c :
  within (inr (part_accepts part c)) (glob_bound (len c) (len (value part)) + 1) 0 (component_matches c part).
Proof.
  unfold component_matches, part_accepts. destruct (wildcards part).
  - eapply within_weaken; [apply wildcard_component_within | lia | lia].
  - eapply within_weaken; [apply within_costs, value_comparison_costs | | lia].
    unfold glob_bound, len. nia.
Qed.

(** The cost of a turn over components of at most [v] and [p] bytes. *)
Definition turn_bound (v p : Z) : Z := glob_bound v p + p + 6.

Lemma backtrack_costs g :
  within (inr (retry g)) 1 0 (backtrack g).
Proof.
  unfold backtrack, retry. destruct (star g) as [[si sv] |].
  - apply within_costs. eapply costs_eq; [repeat pay | lia | lia].
  - eapply within_weaken; [apply within_costs, costs_ret | lia | lia].
Qed.

Lemma path_step_within pattern g c v p :
  0 <= len c <= v -> longest (map value pattern) <= p ->
  within (inr (greedy_next part_star part_accepts pattern g c)) (turn_bound v p - 1) 0 (path_step pattern g c).
Proof.
  intros Hc Hp. unfold path_step, greedy_next, turn_bound.
  destruct (pattern !! pattern_index g) as [part |] eqn:Ep.
  - assert (Hl : 0 <= len (value part) <= p).
    { apply list_elem_of_lookup_2 in Ep. apply (list_elem_of_fmap_2 value) in Ep.
      apply longest_elem in Ep. change (value <$> pattern) with (map value pattern) in Ep. lia. }
    pose proof (glob_bound_mono (len c) (len (value part)) v p ltac:(lia) ltac:(lia)) as Hm.
    assert (Hr : within (inr (part_star part)) (1 + len (value part) + 2) 0
                   (if wildcards part then charge_logical_component_comparison (value part) RECURSIVE
                    else ret false)).
    { unfold part_star. destruct (wildcards part); cbn [andb].
      - eapply within_weaken; [apply within_costs, comparison_costs | unfold len; cbn; lia | lia].
      - eapply within_weaken; [apply within_costs, costs_ret | lia | lia]. }
    eapply within_weaken; [eapply within_bind; [exact Hr |] | |].
    + instantiate (1 := 0). instantiate (1 := glob_bound (len c) (len (value part)) + 2).
      destruct (part_star part); [eapply within_weaken; [apply within_costs, costs_ret | lia | lia] |].
      eapply within_weaken; [eapply within_bind; [apply component_within |] | |].
      * instantiate (1 := 0). instantiate (1 := 1). destruct (part_accepts part c); [| apply backtrack_costs].
        eapply within_weaken; [apply within_costs, costs_ret | lia | lia].
      * lia.
      * lia.
    + lia.
    + lia.
  - eapply within_weaken; [apply backtrack_costs | | lia].
    pose proof (longest_nonneg (map value pattern)). pose proof (glob_bound_mono 0 0 v p). lia.
Qed.

Lemma trailing_recursive_within rest p :
  longest (map value rest) <= p ->
  within (inr (forallb part_star rest)) (len rest * (p + 3)) 0 (trailing_recursive rest).
Proof.
  induction rest as [| part rest IH]; intros Hp; cbn [trailing_recursive forallb];
    [apply within_costs, costs_ret |].
  pose proof (longest_nonneg (map value rest)) as Hn. unfold longest in Hp, Hn. cbn [map foldr] in Hp.
  unfold part_star at 1. destruct (wildcards part); cbn [andb].
  - eapply within_weaken; [eapply within_bind; [apply within_costs, comparison_costs |] | |].
    + instantiate (1 := 0). instantiate (1 := len rest * (p + 3)).
      destruct (decide (value part = RECURSIVE)) as [E | E];
        [rewrite !bool_decide_true by done; apply IH; unfold longest; lia |].
      rewrite !bool_decide_false by done.
      eapply within_weaken; [apply within_costs, costs_ret | unfold len; nia | lia].
    + unfold len in *. cbn [length]. change (Z.of_nat (length RECURSIVE)) with 2. nia.
    + lia.
  - eapply within_weaken; [apply within_costs, costs_ret | unfold len; nia | lia].
Qed.

Lemma path_loop_within fuel pattern candidate g p v :
  longest (map value pattern) <= p -> longest candidate <= v ->
  greedy_ok part_star part_accepts pattern candidate g ->
  (turns_left pattern candidate g <= fuel)%nat ->
  within (inr (path_glob pattern candidate))
    (Z.of_nat (turns_left pattern candidate g) * turn_bound v p + len pattern * (p + 3)) 0
    (path_loop fuel pattern candidate g).
Proof.
  intros Hp Hv. unfold path_glob.
  pose proof (longest_nonneg (map value pattern)) as Hp0. pose proof (longest_nonneg candidate) as Hv0.
  assert (Ht : 0 < turn_bound v p).
  { unfold turn_bound. pose proof (glob_bound_mono 0 0 v p). lia. }
  assert (Hpos : forall g c, greedy_ok part_star part_accepts pattern candidate g ->
                   candidate !! value_index g = Some c -> (0 < turns_left pattern candidate g)%nat).
  { intros g0 c [? ? _ Hs] ?%lookup_lt_Some. unfold turns_left. destruct (star g0) as [[] |]; nia. }
  revert g. induction fuel as [| fuel IH]; intros g Hok Hf; cbn [path_loop]; unfold bytes in *;
    destruct (candidate !! value_index g) as [c |] eqn:Ec.
  2, 4: rewrite (greedy_stop _ _ _ _ g Hok Ec); eapply within_weaken;
    [apply (trailing_recursive_within _ p) | |]; [| unfold len; rewrite ?length_drop; nia | lia].
  2, 3: etransitivity; [apply longest_drop | exact Hp].
  - pose proof (Hpos g c Hok Ec). lia.
  - apply list_elem_of_lookup_2 in Ec as He. apply longest_elem in He.
    pose proof (path_step_within pattern g c v p ltac:(lia) Hp) as Hstep.
    destruct (greedy_next part_star part_accepts pattern g c) as [g' |] eqn:En.
    + destruct (next_ok _ _ _ _ g g' c Hok Ec En) as [Hok' Ht'].
      eapply within_weaken; [eapply within_bind; [apply within_costs; by apply costs_charge |];
        eapply within_bind; [exact Hstep | apply IH; [exact Hok' | lia]] | |]; nia.
    + rewrite (next_none _ _ _ _ g c Hok Ec En). pose proof (Hpos g c Hok Ec).
      eapply within_weaken; [eapply within_bind; [apply within_costs; by apply costs_charge |];
        eapply within_bind; [exact Hstep | apply within_costs, costs_ret] | |]; unfold len; nia.
Qed.

(** What matching a path costs at most, by the components of the pattern and
    of the candidate and the longest of each. *)
Definition path_bound (pattern : list LogicalMapPatternComponent) (candidate : list bytes) : Z :=
  let p := longest (map value pattern) in
  let v := longest candidate in
  (p + 3) + Z.of_nat (greedy_fuel (length candidate) (length pattern)) * turn_bound v p
  + len pattern * (p + 3).

(** A pattern that starts with a literal [..] matches nothing. *)
Definition parent_first (pattern : list LogicalMapPatternComponent) : bool :=
  match pattern with first :: _ => negb (wildcards first) && bool_decide (value first = DOT_DOT) | [] => false end.

Definition path_matches (pattern : list LogicalMapPatternComponent) (candidate : list bytes) : bool :=
  negb (parent_first pattern) && path_glob pattern candidate.

Lemma path_pattern_within pattern candidate :
  within (inr (path_matches pattern candidate)) (path_bound pattern candidate) 0
    (logical_path_pattern_matches pattern candidate).
Proof.
  unfold logical_path_pattern_matches, path_matches, path_bound.
  pose proof (longest_nonneg (map value pattern)) as Hp0. pose proof (longest_nonneg candidate) as Hv0.
  set (p := longest (map value pattern)) in *. set (v := longest candidate) in *.
  assert (Ht : 0 < turn_bound v p). { unfold turn_bound. pose proof (glob_bound_mono 0 0 v p). lia. }
  eapply within_weaken; [eapply within_bind |..].
  - instantiate (1 := 0). instantiate (1 := p + 3). instantiate (1 := parent_first pattern).
    destruct pattern as [| first rest]; [eapply within_weaken; [apply within_costs, costs_ret | lia | lia] |].
    cbn [parent_first]. destruct (wildcards first) eqn:Ew; cbn [negb andb];
      [eapply within_weaken; [apply within_costs, costs_ret | lia | lia] |].
    eapply within_weaken; [apply within_costs, comparison_costs | | lia].
    assert (len (value first) <= p) by (apply longest_elem; by left).
    change (len DOT_DOT) with 2. lia.
  - instantiate (1 := 0).
    instantiate (1 := Z.of_nat (greedy_fuel (length candidate) (length pattern)) * turn_bound v p
                      + len pattern * (p + 3)).
    destruct (parent_first pattern); cbn [negb andb].
    + eapply within_weaken; [apply within_costs, costs_ret | unfold len; nia | lia].
    + rewrite <- (start_turns pattern candidate). apply path_loop_within; [done | done | apply start_ok | done].
  - lia.
  - lia.
Qed.

(** * Keys of paths and patterns

    What the charged code of [MapPaths] computes: the components of a text, the
    normal form of a path, and the components of a pattern, with bounds on what
    computing them charges. *)

(** ** Cutting *)

Lemma split_on_cases p text w ws :
  split_on p text = w :: ws ->
  forallb (fun b => negb (p b)) w = true
  /\ ((ws = [] /\ text = w) \/ exists b t, p b = true /\ text = w ++ b :: t /\ ws = split_on p t).
Proof.
  revert w ws. induction text as [| b text IH]; intros w ws E; cbn in E; [simplify_eq; eauto |].
  destruct (p b) eqn:Pb.
  - simplify_eq. split; [done |]. right. by exists b, text.
  - destruct (split_on p text) as [| v vs] eqn:Es.
    + simplify_eq. destruct text as [| c text]; cbn in Es; [done |].
      destruct (p c); [done |]. by destruct (split_on p text).
    + simplify_eq. destruct (IH v ws eq_refl) as [Hv Hw]. split; [cbn; by rewrite Pb, Hv |].
      destruct Hw as [[-> ->] | (c & t & Pc & -> & ->)]; [by left | right; by exists c, t].
Qed.

Lemma split_on_nonempty p text : split_on p text <> [].
Proof. destruct text as [| b text]; cbn; [done |]. destruct (p b); [done |]. by destruct (split_on p text). Qed.

Lemma skip_separators_parts text : path_parts (skip_separators text) = path_parts text.
Proof.
  induction text as [| b text IH]; [done |]. cbn [skip_separators]. destruct (separator b) eqn:Sb; [| done].
  rewrite IH. unfold path_parts. cbn. by rewrite Sb.
Qed.

Lemma skip_separators_suffix text :
  exists s, text = s ++ skip_separators text /\ forallb separator s = true.
Proof.
  induction text as [| b text (s & E & Hs)]; [by exists [] |]. cbn [skip_separators].
  destruct (separator b) eqn:Sb; [| by exists []]. exists (b :: s). cbn. by rewrite Sb, <- E.
Qed.

Lemma separator_ascii b : separator b = true -> is_ascii b = true.
Proof. unfold separator. intros [->%Ascii.eqb_eq | ->%Ascii.eqb_eq]%orb_prop; done. Qed.

(** After an ASCII byte of a valid text a character starts. *)
Lemma continuation_lead c e : utf8_lead c = Some e -> continuation_byte c = false.
Proof.
  unfold utf8_lead, continuation_byte, is_ascii, in_range. intros H.
  destruct (N.leb_spec 128 (byte_N c)), (N.ltb_spec (byte_N c) 192); try done.
  assert (F : forall lo hi, (192 <= lo)%N -> (lo <=? byte_N c)%N && (byte_N c <=? hi)%N = false).
  { intros lo hi Hlo. rewrite (proj2 (N.leb_gt _ _)); [done | lia]. }
  rewrite (proj2 (N.ltb_ge _ _)), !F in H by lia. done.
Qed.

Lemma utf8_boundary a b c t :
  utf8_valid (a ++ b :: c :: t) = true -> is_ascii b = true -> continuation_byte c = false.
Proof.
  unfold utf8_valid. intros H Hb.
  assert (Hgen : forall e, utf8_run e (a ++ b :: c :: t) = Some [] ->
                           Forall (fun r => (128 <= r.1)%N) e -> continuation_byte c = false).
  2: { apply (Hgen []); [by destruct (utf8_run _ _) as [[] |] | constructor]. }
  clear H. induction a as [| x a IH]; intros e H Hf; cbn in H.
  - destruct e as [| [lo hi] e].
    + destruct (utf8_lead b) as [e' |] eqn:Eb; [| done].
      unfold utf8_lead in Eb. rewrite Hb in Eb. injection Eb as <-.
      destruct (utf8_lead c) as [e' |] eqn:Ec; [| done]. by eapply continuation_lead.
    + apply Forall_cons in Hf as [Hlo _]. cbn in Hlo. unfold is_ascii in Hb.
      apply N.ltb_lt in Hb. unfold in_range in H. destruct (N.leb_spec lo (byte_N b)); [lia | done].
  - destruct e as [| [lo hi] e].
    + destruct (utf8_lead x) as [e' |] eqn:Ex; [| done]. apply (IH e' H).
      unfold utf8_lead in Ex. repeat (case_match; try done); simplify_eq; repeat constructor; cbn; lia.
    + destruct (in_range lo hi x); [| done]. apply (IH e H). by apply Forall_cons in Hf as [].
Qed.

(** ** Components

    A network prefix is regular when single separators surround the server. *)
Definition regular_network (rest : bytes) : bool :=
  match split_on separator rest with
  | server :: share :: _ => non_empty server && non_empty share || Nat.ltb (length (path_parts rest)) 2
  | _ => true
  end.

Definition regular (text : bytes) : bool :=
  match text with
  | b0 :: b1 :: rest => if separator b0 && separator b1 then regular_network rest else true
  | _ => true
  end.

(** A name the components of which are cut without loss. *)
Definition admissible (text : bytes) : Prop := utf8_valid text = true /\ regular text = true.

(** The components of a text: its prefix, and the parts between separators. *)
Definition components_of (text : bytes) : list bytes :=
  match text with
  | b0 :: b1 :: rest =>
      if separator b0 && separator b1 then
        match path_parts rest with
        | server :: share :: parts => (unstr "//" ++ server ++ unstr "/" ++ share) :: parts
        | parts => unstr "//" :: parts
        end
      else if is_ascii_alphabetic b0 && Ascii.eqb b1 ":" then
        [b0; b1] :: match rest with
                    | b2 :: _ => if separator b2 then [] :: path_parts rest else path_parts rest
                    | [] => []
                    end
      else if separator b0 then [] :: path_parts text else path_parts text
  | b0 :: _ => if separator b0 then [] :: path_parts text else path_parts text
  | [] => []
  end.

Lemma path_parts_app w t :
  forallb (fun b => negb (separator b)) w = true -> w <> [] -> t = [] \/ (exists b t', t = b :: t' /\ separator b = true) ->
  path_parts (w ++ t) = w :: path_parts t.
Proof.
  intros Hw Hne Ht.
  assert (E : split_on separator (w ++ t) = w :: match t with [] => [] | _ :: t' => split_on separator t' end).
  { clear Hne. induction w as [| b w IH].
    - destruct Ht as [-> | (b & t' & -> & Sb)]; cbn; [done |]. by rewrite Sb.
    - cbn in Hw |- *. apply andb_prop in Hw as [Hb%negb_true_iff Hw]. by rewrite Hb, IH. }
  unfold path_parts. rewrite E. destruct w as [| b w]; [done |]. cbn [List.filter non_empty]. f_equal.
  destruct Ht as [-> | (c & t' & -> & Sc)]; [done |]. cbn. by rewrite Sc.
Qed.

Lemma network_components_exact s0 s1 rest work :
  separator s0 = true -> separator s1 = true -> utf8_valid (s0 :: s1 :: rest) = true -> regular_network rest = true ->
  network_components (s0 :: s1 :: rest) rest work
  = Done (components_of (s0 :: s1 :: rest), work).
Proof.
  intros S0 S1 Hu Hr. unfold network_components, components_of. rewrite S0, S1. cbn [andb].
  destruct (path_parts rest) as [| server [| share parts]] eqn:Ep; [done | done |].
  unfold regular_network in Hr. rewrite Ep in Hr. cbn [length Nat.ltb Nat.leb] in Hr.
  destruct (split_on separator rest) as [| p0 [| p1 ps]] eqn:Es.
  - by apply split_on_nonempty in Es.
  - unfold path_parts in Ep. rewrite Es in Ep. cbn in Ep. by destruct (non_empty p0).
  - rewrite orb_false_r in Hr. apply andb_prop in Hr as [N0 N1].
    apply split_on_cases in Es as [H0 [[? ?] | (b & t & Sb & -> & Et)]]; [done |].
    symmetry in Et. apply split_on_cases in Et as [H1 Htail].
    assert (Hw : exists tail, t = p1 ++ tail /\ (tail = [] \/ exists b t', tail = b :: t' /\ separator b = true)).
    { destruct Htail as [[_ ->] | (c & t' & Sc & -> & _)]; [exists []; by rewrite app_nil_r; auto |].
      exists (c :: t'). split; [done |]. right. by exists c, t'. }
    destruct Hw as (tail & -> & Ht).
    rewrite path_parts_app in Ep by (first [done | by destruct p0 | right; by exists b, (p1 ++ tail)]).
    unfold path_parts at 1 in Ep. cbn [split_on] in Ep. rewrite Sb in Ep. cbn [List.filter non_empty] in Ep.
    fold (path_parts (p1 ++ tail)) in Ep. rewrite path_parts_app in Ep by (first [done | by destruct p1]).
    injection Ep as -> -> Eparts. rewrite <- Eparts.
    set (text := s0 :: s1 :: server ++ b :: share ++ tail) in *.
    assert (Ed : drop (2 + length server + 1 + length share) text = tail).
    { unfold text. rewrite <- !Nat.add_assoc. cbn [Nat.add drop]. rewrite drop_app_add. cbn [drop Nat.add].
      by rewrite drop_app_length. }
    rewrite Ed. destruct (skip_separators_suffix tail) as (s & Es & Hs).
    set (tail' := skip_separators tail) in *.
    assert (Ht' : text = (s0 :: s1 :: server ++ b :: share ++ s) ++ tail').
    { unfold text. rewrite Es. by repeat (cbn [app]; rewrite <- ?app_assoc). }
    unfold bind, str_from.
    assert (El : (length text - length tail' = length (s0 :: s1 :: server ++ b :: share ++ s))%nat).
    { rewrite Ht', length_app. lia. }
    rewrite El. rewrite (proj2 (Nat.ltb_ge _ _)) by (rewrite Ht', length_app; lia).
    rewrite Ht', drop_app_length. rewrite <- (skip_separators_parts tail). fold tail'.
    destruct tail' as [| c tl] eqn:Etl; [done |].
    assert (Hc : continuation_byte c = false).
    { destruct s as [| x s _] using rev_ind.
      - exfalso. cbn in Es. destruct Ht as [-> | (d & t' & -> & Sd)]; [done |].
        injection Es as <- <-. unfold tail' in Etl. cbn in Etl. rewrite Sd in Etl.
        pose proof (f_equal length Etl) as El'. destruct (skip_separators_suffix t') as (s & E & _).
        apply (f_equal length) in E. rewrite length_app in E. cbn in El'. lia.
      - rewrite forallb_app in Hs. apply andb_prop in Hs as [_ Hx]. cbn in Hx. rewrite andb_true_r in Hx.
        apply (utf8_boundary (s0 :: s1 :: server ++ b :: share ++ s) x c tl); [| by apply separator_ascii].
        rewrite <- Hu, Ht'. f_equal. by repeat (cbn [app]; rewrite <- ?app_assoc). }
    by rewrite Hc.
Qed.

Lemma components_exact text work :
  admissible text -> logical_components_from_text text work = Done (components_of text, work).
Proof.
  intros [Hu Hr]. unfold logical_components_from_text, components_of.
  destruct text as [| b0 [| b1 rest]]; [done | |].
  - destruct (separator b0) eqn:S0; [| done]. by rewrite skip_separators_parts.
  - unfold regular in Hr. destruct (separator b0 && separator b1) eqn:Es.
    + apply andb_prop in Es as [S0 S1]. rewrite network_components_exact by done.
      unfold components_of. by rewrite S0, S1.
    + destruct (is_ascii_alphabetic b0 && Ascii.eqb b1 ":").
      * destruct rest as [| b2 rest]; [done |]. rewrite skip_separators_parts. by destruct (separator b2).
      * rewrite skip_separators_parts. by destruct (separator b0).
Qed.

Lemma costs_components text :
  admissible text -> costs (inr (components_of text)) 0 0 (logical_components_from_text text).
Proof.
  intros H. split_and!; [lia | lia |]. intros work []. destruct (fits work 0 0) eqn:F.
  - rewrite components_exact by done. unfold spent. rewrite !Z.add_0_r. by destruct work.
  - unfold fits in F. lia.
Qed.

(** ** Normal forms *)

Definition key_next (result : list bytes) (component : bytes) : list bytes :=
  if bool_decide (component = DOT) then result
  else if bool_decide (component = DOT_DOT) && last_removable result then removelast result
  else result ++ [component].

Definition key_of (components : list bytes) : list bytes := fold_left key_next components [].

Definition total_length (components : list bytes) : Z := foldr Z.add 0 (map (fun c => len c) components).

Lemma total_length_nonneg l : 0 <= total_length l.
Proof. unfold total_length, len. induction l; cbn; lia. Qed.

(** What [fold_m] over charged steps costs. *)
Lemma fold_within {A B} (body : B -> A -> W B) (next : B -> A -> B) (w : A -> Z) xs b :
  (forall b x, x ∈ xs -> within (inr (next b x)) (w x) 0 (body b x)) ->
  within (inr (fold_left next xs b)) (foldr Z.add 0 (map w xs)) 0 (fold_m body xs b).
Proof.
  revert b. induction xs as [| x xs IH]; intros b H; cbn [fold_m fold_left map foldr];
    [apply within_costs, costs_ret |].
  eapply within_weaken; [eapply within_bind; [apply H; by left | apply IH; intros; apply H; by right] | |]; lia.
Qed.

Lemma key_step_within operation result c :
  within (inr (key_next result c)) (3 + len c) 0 (key_step operation result c).
Proof.
  unfold key_step, key_next.
  assert (Hl : 0 <= len c) by (unfold len; lia).
  destruct (bool_decide (c = DOT)); [| destruct (bool_decide (c = DOT_DOT)); cbn [andb];
    [destruct (last_removable result) |]];
    (eapply within_weaken; [apply within_costs; repeat pay | lia | lia]).
Qed.

(** What keying a path of these components costs at most. *)
Definition key_bound (components : list bytes) : Z := 4 * len components + total_length components.

Lemma sum_offset {A} (f : A -> Z) k xs :
  foldr Z.add 0 (map (fun x => k + f x) xs) = k * len xs + foldr Z.add 0 (map f xs).
Proof. unfold len. induction xs as [| x xs IH]; cbn [map foldr length]; lia. Qed.

Lemma path_key_within path operation :
  admissible path ->
  within (inr (key_of (components_of path))) (key_bound (components_of path)) 0 (logical_path_key path operation).
Proof.
  intros H. unfold logical_path_key, key_of, key_bound, total_length.
  eapply within_weaken; [eapply within_bind; [apply within_costs, costs_components; exact H |];
    eapply within_bind; [apply within_costs, costs_charge_usize; unfold len; lia |];
    apply fold_within; intros; apply key_step_within | |].
  - rewrite (sum_offset (fun c : bytes => len c)). unfold bytes. lia.
  - lia.
Qed.

(** *** What a key says

    Paths are the same when they differ by [.] components and by components
    followed by [..]. *)
Inductive same_path : list bytes -> list bytes -> Prop :=
| same_refl p : same_path p p
| same_sym p q : same_path p q -> same_path q p
| same_trans p q r : same_path p q -> same_path q r -> same_path p r
| same_dot a b : same_path (a ++ DOT :: b) (a ++ b)
| same_up a x b : removable x = true -> x <> DOT -> same_path (a ++ x :: DOT_DOT :: b) (a ++ b).

(** In a normal path nothing is left to resolve. *)
Definition settled (p : list bytes) : Prop :=
  Forall (fun c => c <> DOT) p
  /\ forall a x b, p = a ++ x :: DOT_DOT :: b -> removable x = false.

Lemma last_removable_snoc p c : last_removable (p ++ [c]) = removable c.
Proof. unfold last_removable. by rewrite last_snoc. Qed.

Lemma removable_dots : removable DOT_DOT = false.
Proof. reflexivity. Qed.

Lemma key_next_settled p c : settled p -> settled (key_next p c).
Proof.
  intros [Hd Hu]. unfold key_next. destruct (decide (c = DOT)) as [-> | Hc]; [by rewrite bool_decide_true |].
  rewrite (bool_decide_false (c = DOT)) by done.
  destruct p as [| x p _] using rev_ind.
  { cbn. rewrite andb_false_r. split; [by apply Forall_singleton |]. intros [| ? [| ??]] ???; simplify_eq/=. }
  rewrite last_removable_snoc. apply Forall_app in Hd as [Hd Hx].
  destruct (bool_decide (c = DOT_DOT) && removable x) eqn:E.
  - rewrite removelast_last. split; [done |]. intros a y b ->. apply (Hu a y (b ++ [x])).
    by rewrite <- app_assoc.
  - split; [apply Forall_app; split; [by apply Forall_app | by apply Forall_singleton] |]. intros a y b Eq.
    destruct b as [| z b _] using rev_ind.
    + replace (a ++ [y; DOT_DOT]) with ((a ++ [y]) ++ [DOT_DOT]) in Eq by by rewrite <- app_assoc.
      apply app_inj_tail in Eq as [Eq ->]. apply app_inj_tail in Eq as [_ ->].
      by rewrite bool_decide_true in E.
    + replace (a ++ y :: DOT_DOT :: b ++ [z]) with ((a ++ y :: DOT_DOT :: b) ++ [z]) in Eq
        by by rewrite <- app_assoc.
      apply app_inj_tail in Eq as [Eq _]. by apply (Hu a y b).
Qed.

Lemma fold_key_settled cs p : settled p -> settled (fold_left key_next cs p).
Proof. revert p. induction cs as [| c cs IH]; intros p H; [done |]. apply IH. by apply key_next_settled. Qed.

Lemma settled_nil : settled [].
Proof. split; [constructor |]. intros [| ??] ???; simplify_eq/=. Qed.

Lemma key_of_settled cs : settled (key_of cs).
Proof. apply fold_key_settled, settled_nil. Qed.

Lemma fold_key_same cs p : settled p -> same_path (p ++ cs) (fold_left key_next cs p).
Proof.
  revert p. induction cs as [| c cs IH]; intros p H; [rewrite app_nil_r; constructor |]. cbn [fold_left].
  eapply same_trans; [| apply IH; by apply key_next_settled]. unfold key_next.
  destruct (decide (c = DOT)) as [-> | Hc]; [rewrite bool_decide_true by done; apply same_dot |].
  rewrite (bool_decide_false (c = DOT)) by done.
  destruct (bool_decide (c = DOT_DOT) && last_removable p) eqn:E;
    [| rewrite <- app_assoc; apply same_refl].
  apply andb_prop in E as [->%bool_decide_eq_true E].
  destruct p as [| x p _] using rev_ind; [done |]. rewrite last_removable_snoc in E.
  rewrite removelast_last, <- app_assoc. apply same_up; [done |].
  destruct H as [H _]. apply Forall_app in H as [_ H]. by apply Forall_cons in H as [].
Qed.

Lemma key_of_app a b : key_of (a ++ b) = fold_left key_next b (key_of a).
Proof. unfold key_of. by rewrite fold_left_app. Qed.

Lemma same_path_key p q : same_path p q -> key_of p = key_of q.
Proof.
  induction 1 as [p | p q _ IH | p q r _ IH1 _ IH2 | a b | a x b Hx Hd]; [done | done | congruence | |].
  - rewrite !key_of_app. cbn [fold_left]. unfold key_next at 2. by rewrite bool_decide_true.
  - rewrite !key_of_app. cbn [fold_left]. f_equal. unfold key_next at 2.
    rewrite (bool_decide_false (x = DOT)) by done.
    assert (x <> DOT_DOT) by (intros ->; done). rewrite (bool_decide_false (x = DOT_DOT)) by done. cbn [andb].
    unfold key_next. rewrite (bool_decide_false (DOT_DOT = DOT)) by done.
    rewrite bool_decide_true, last_removable_snoc, Hx by done. cbn [andb]. by rewrite removelast_last.
Qed.

Lemma key_of_same cs : same_path cs (key_of cs).
Proof. apply (fold_key_same cs []), settled_nil. Qed.

Lemma key_exact p q : key_of p = key_of q <-> same_path p q.
Proof.
  split; [| apply same_path_key]. intros E. eapply same_trans; [apply key_of_same |].
  rewrite E. apply same_sym, key_of_same.
Qed.

Lemma key_next_length p c : len (key_next p c) <= len p + 1.
Proof.
  unfold key_next. repeat case_match; [unfold len; lia | | unfold len; rewrite length_app; cbn; lia].
  destruct p as [| x p _] using rev_ind; [done |]. rewrite removelast_last. unfold len. rewrite length_app. lia.
Qed.

Lemma key_of_length cs : len (key_of cs) <= len cs.
Proof.
  unfold key_of. enough (forall p, len (fold_left key_next cs p) <= len p + len cs) as H
    by (specialize (H []); unfold len in *; cbn in *; lia).
  induction cs as [| c cs IH]; intros p; cbn [fold_left]; [unfold len; cbn; lia |].
  specialize (IH (key_next p c)). pose proof (key_next_length p c). unfold len in *. cbn [length]. lia.
Qed.

(** ** Patterns *)

Definition pattern_next (result : list LogicalMapPatternComponent) (component : bytes)
  : list LogicalMapPatternComponent :=
  if bool_decide (component = DOT) then result
  else if negb (non_empty component) && last_is_drive result then result ++ [literal component]
  else if logical_prefix_component component then [literal component]
  else if bool_decide (component = DOT_DOT) then
    if last_part_removable result then removelast result else result ++ [literal component]
  else result ++ [mkComponent component (text_has_wildcard component)].

(** The components of a pattern, after the directory of its map unless the
    pattern is absolute. *)
Definition pattern_of (base pattern : bytes) : list LogicalMapPatternComponent :=
  fold_left pattern_next (components_of pattern)
    (if logical_text_is_absolute pattern then [] else map literal (key_of (components_of base))).

Lemma pattern_step_within result c :
  within (inr (pattern_next result c)) (2 + len c) 0 (pattern_step result c).
Proof.
  unfold pattern_step, pattern_next.
  assert (Hl : 0 <= len c) by (unfold len; lia).
  destruct (bool_decide (c = DOT)); [| destruct (negb (non_empty c) && last_is_drive result);
    [| destruct (logical_prefix_component c); [| destruct (bool_decide (c = DOT_DOT));
      [destruct (last_part_removable result) |]]]];
    (eapply within_weaken; [apply within_costs; repeat pay | lia | lia]).
Qed.

Definition pattern_bound (base pattern : bytes) : Z :=
  key_bound (components_of base) + len (components_of base)
  + 3 * len (components_of pattern) + total_length (components_of pattern).

Lemma key_bound_nonneg cs : 0 <= key_bound cs.
Proof. unfold key_bound. pose proof (total_length_nonneg cs). unfold len. lia. Qed.

Lemma pattern_key_within base pattern :
  admissible base -> admissible pattern ->
  within (inr (pattern_of base pattern)) (pattern_bound base pattern) 0 (logical_map_pattern_key base pattern).
Proof.
  intros Hb Hp. unfold logical_map_pattern_key, pattern_of, pattern_bound.
  pose proof (key_bound_nonneg (components_of base)) as Hk.
  pose proof (key_of_length (components_of base)) as Hl.
  eapply within_weaken; [eapply within_bind; [| eapply within_bind;
    [apply within_costs, costs_components; exact Hp | eapply within_bind;
      [apply within_costs, costs_charge_usize; unfold len; lia
      | apply fold_within; intros; apply pattern_step_within]]] | |].
  - instantiate (1 := 0). instantiate (1 := key_bound (components_of base) + len (components_of base)).
    destruct (logical_text_is_absolute pattern).
    + eapply within_weaken; [apply within_costs, costs_ret | unfold len in *; lia | lia].
    + eapply within_weaken; [eapply within_bind; [by apply path_key_within |];
        eapply within_bind; [apply within_costs, costs_charge_usize; unfold len; lia
                            | apply within_costs, costs_ret] | lia | lia].
  - rewrite (sum_offset (fun c : bytes => len c)). unfold total_length, bytes. lia.
  - lia.
Qed.

Definition match_bound (base pattern candidate : bytes) : Z :=
  len pattern + pattern_bound base pattern + key_bound (components_of candidate)
  + path_bound (pattern_of base pattern) (key_of (components_of candidate)).

(** The verdict on a candidate name. *)
Definition name_matches (base pattern candidate : bytes) : bool :=
  path_matches (pattern_of base pattern) (key_of (components_of candidate)).

Definition has_dollar (pattern : bytes) : bool := existsb (fun b => Ascii.eqb b "$") pattern.

Lemma map_pattern_within base pattern candidate :
  admissible base -> admissible pattern -> admissible candidate ->
  within (if has_dollar pattern then inl InvalidArgument else inr (name_matches base pattern candidate))
    (match_bound base pattern candidate) 0 (map_pattern_matches base pattern candidate).
Proof.
  intros Hb Hp Hc. unfold map_pattern_matches, match_bound. fold (has_dollar pattern).
  assert (H0 : 0 <= len pattern) by (unfold len; lia).
  assert (Hk : 0 <= pattern_bound base pattern).
  { unfold pattern_bound. pose proof (key_bound_nonneg (components_of base)).
    pose proof (total_length_nonneg (components_of pattern)). unfold len. lia. }
  pose proof (key_bound_nonneg (components_of candidate)) as Hkc.
  pose proof (path_pattern_within (pattern_of base pattern) (key_of (components_of candidate))) as Hm.
  assert (Hpb : 0 <= path_bound (pattern_of base pattern) (key_of (components_of candidate))).
  { destruct Hm as (w & a & (Hw & _) & Hle & _). lia. }
  destruct (has_dollar pattern).
  - eapply within_weaken; [eapply within_bind; [apply within_costs, costs_charge_usize; exact H0
                                               | apply within_costs, costs_fail] | lia | lia].
  - eapply within_weaken; [eapply within_bind; [apply within_costs, costs_charge_usize; exact H0 |];
      eapply within_bind; [by apply pattern_key_within |]; eapply within_bind; [by apply path_key_within |];
      exact Hm | lia | lia].
Qed.
