(* ===== verification/MapBuffers.v ===== *)
(** * Library choices

    The buffers of a compilation and the choice of their source libraries
    ([src/core/compile/library_mapping.rs]). Map patterns offer buffers to
    libraries; the highest rank wins, and a tie between libraries at the winning
    rank is an error that is reported once all offers are in. *)

From Stdlib Require Import ZArith Lia Ascii String.
From stdpp Require Import base list gmap strings sorting.
From S2P Require Import Prelude Names MapWork MapPaths.
Open Scope Z_scope.
Open Scope list_scope.

Record OwnedSource : Type := mkSource {
  src_name : bytes;
  src_text : bytes;
  src_raw : option bytes;
  is_compilation_unit : bool;
  src_is_map : bool;
}.

Record LibrarySource : Type := mkLibrary {
  lib_name : bytes;
  lib_text : bytes;
  lib_raw : option bytes;
  library : bytes;
  lib_is_map : bool;
}.

Definition compilation_unit (name text : bytes) : OwnedSource := mkSource name text None true false.
Definition include_source (name text : bytes) : OwnedSource := mkSource name text None false false.
Definition new_library (name text lib : bytes) : LibrarySource := mkLibrary name text None lib false.
Definition with_raw (raw : option bytes) (s : LibrarySource) : LibrarySource :=
  mkLibrary (lib_name s) (lib_text s) raw (library s) (lib_is_map s).

(** The sizes of the types whose allocations are charged
    ([std::mem::size_of]), which the compiler chooses. *)
Class Layout : Type := {
  size_source : Z;
  size_optional_source : Z;
  size_entry_ref : Z;
  size_selected : Z;
  size_range : Z;
  size_parsed_map : Z;
  size_include_dir : Z;
  size_nonneg : Forall (Z.le 0) [size_source; size_optional_source; size_entry_ref; size_selected;
                                 size_range; size_parsed_map; size_include_dir];
}.

Definition charge_workspace (size count : Z) (operation : string) : W unit :=
  if max_u64 <? count * size then over_limit operation
  else charge_allocation_usize (count * size) operation.

Record Choice : Type := mkChoice { chosen : bytes; rank : LibrarySpecificity; conflict : option bytes }.

Record Entry : Type := mkEntry {
  name : bytes;
  choice : option Choice;
  order : Z;
  original_map : option bytes;
}.

Definition set_choice (c : option Choice) (e : Entry) : Entry := mkEntry (name e) c (order e) (original_map e).
Definition set_order (o : Z) (e : Entry) : Entry := mkEntry (name e) (choice e) o (original_map e).
Definition set_original (t : option bytes) (e : Entry) : Entry := mkEntry (name e) (choice e) (order e) t.

Record LibraryMapBuffers : Type := mkBuffers {
  sources : list OwnedSource;
  libraries : list LibrarySource;
  entries : gmap (list bytes) Entry;
  next_order : Z;
}.

Definition set_entry (key : list bytes) (e : Entry) (b : LibraryMapBuffers) : LibraryMapBuffers :=
  mkBuffers (sources b) (libraries b) (<[key := e]> (entries b)) (next_order b).

(** [usize::MAX]: not offered yet. *)
Definition unordered : Z := max_u64.
Definition blank (name : bytes) (c : option Choice) : Entry := mkEntry name c unordered None.

Definition duplicate_source {A} (name : bytes) : W A :=
  invalid ("source is assigned more than once: " +:+ str name).

(** ** Construction *)

Definition register_source (m : gmap (list bytes) Entry) (source : OwnedSource) : W (gmap (list bytes) Entry) :=
  let* key := logical_path_key (src_name source) "map source identity" in
  charge_library_map_clone (src_name source) "map source name" ;;;
  match m !! key with
  | Some _ => duplicate_source (src_name source)
  | None => ret (<[key := blank (src_name source) None]> m)
  end.

Definition register_library (m : gmap (list bytes) Entry) (source : LibrarySource) : W (gmap (list bytes) Entry) :=
  let* key := logical_path_key (lib_name source) "explicit library identity" in
  charge_library_map_clone (lib_name source) "explicit library source name" ;;;
  charge_library_map_clone (library source) "explicit library name" ;;;
  match m !! key with
  | Some _ => duplicate_source (lib_name source)
  | None =>
      ret (<[key := blank (lib_name source) (Some (mkChoice (library source) ExplicitAssignment None))]> m)
  end.

Definition new_buffers (srcs : list OwnedSource) (libs : list LibrarySource) : W LibraryMapBuffers :=
  let* m := fold_m register_source srcs ∅ in
  let* m := fold_m register_library libs m in
  ret (mkBuffers srcs libs m 0).

(** ** Configurations *)

Definition retain_original_map (e : Entry) (original : bytes) : W Entry :=
  charge_usize (len original) "original configuration map" ;;;
  match original_map e with
  | Some retained =>
      if bool_decide (retained = original) then ret e
      else invalid ("conflicting configuration map contents: " +:+ str (name e))
  | None =>
      charge_allocation_usize (len original) "original configuration map" ;;;
      ret (set_original (Some original) e)
  end.

Definition check_map_source (retained original projection map_name : bytes) : W unit :=
  charge_usize (len retained) "configuration source comparison" ;;;
  charge_usize (len original) "configuration source comparison" ;;;
  charge_usize (len projection) "configuration source comparison" ;;;
  if negb (bool_decide (retained = original)) && negb (bool_decide (retained = projection)) then
    invalid ("library map configuration conflicts with admitted source: " +:+ str map_name)
  else ret tt.

Section Retain.
Context (key : list bytes) (map_name original projection : bytes) (e : Entry).

(** The sources with the one of this key made a map, and its entry. *)
Fixpoint retain_in_sources (srcs : list OwnedSource) : W (option (list OwnedSource * Entry)) :=
  match srcs with
  | [] => ret None
  | source :: rest =>
      let* source_key := logical_path_key (src_name source) "configuration source lookup" in
      if bool_decide (source_key = key) then
        check_map_source (src_text source) original projection map_name ;;;
        let* e' := retain_original_map e original in
        ret (Some (mkSource (src_name source) projection (src_raw source) true true :: rest, e'))
      else
        let* found := retain_in_sources rest in
        match found with
        | Some (rest', e') => ret (Some (source :: rest', e'))
        | None => ret None
        end
  end.

Fixpoint retain_in_libraries (libs : list LibrarySource) : W (option (list LibrarySource * Entry)) :=
  match libs with
  | [] => ret None
  | source :: rest =>
      let* source_key := logical_path_key (lib_name source) "configuration library lookup" in
      if bool_decide (source_key = key) then
        check_map_source (lib_text source) original projection map_name ;;;
        let* e' := retain_original_map e original in
        ret (Some (mkLibrary (lib_name source) projection (lib_raw source) (library source) true :: rest, e'))
      else
        let* found := retain_in_libraries rest in
        match found with
        | Some (rest', e') => ret (Some (source :: rest', e'))
        | None => ret None
        end
  end.
End Retain.

Section Layout.
Context `{Layout}.

Definition retain_configuration (map_name original projection : bytes) (b : LibraryMapBuffers)
  : W LibraryMapBuffers :=
  let* key := logical_path_key map_name "configuration source identity" in
  match entries b !! key with
  | Some e =>
      let* in_sources := retain_in_sources key map_name original projection e (sources b) in
      match in_sources with
      | Some (srcs, e') => ret (mkBuffers srcs (libraries b) (<[key := e']> (entries b)) (next_order b))
      | None =>
          let* in_libraries := retain_in_libraries key map_name original projection e (libraries b) in
          match in_libraries with
          | Some (libs, e') => ret (mkBuffers (sources b) libs (<[key := e']> (entries b)) (next_order b))
          | None => fail (mkStartup Internal "configuration candidate has no retained source")
          end
      end
  | None =>
      charge_library_map_clone map_name "configuration entry name" ;;;
      charge_library_map_clone map_name "configuration source name" ;;;
      charge_workspace size_source 1 "configuration source record" ;;;
      let* e := retain_original_map (blank map_name None) original in
      ret (mkBuffers (sources b ++ [mkSource map_name projection None true true]) (libraries b)
             (<[key := e]> (entries b)) (next_order b))
  end.

(** ** Offers *)

(** The order of first discovery. *)
Definition discover (e : Entry) (next : Z) : W (Entry * Z) :=
  if order e =? unordered then
    charge 1 "map candidate discovery order" ;;;
    if max_u64 <? next + 1 then over_limit "map candidate discovery order"
    else ret (set_order next e, next + 1)
  else ret (e, next).

(** The choice after an offer. *)
Definition consider (lib : bytes) (r : LibrarySpecificity) (current : option Choice) : W (option Choice) :=
  let win :=
    charge_library_map_clone lib "map winning library" ;;;
    ret (Some (mkChoice lib r None)) in
  match current with
  | None => win
  | Some c =>
      if rank_value r <? rank_value (rank c) then ret current
      else if rank_value r =? rank_value (rank c) then
        charge_usize (len (chosen c)) "map library comparison" ;;;
        charge_usize (len lib) "map library comparison" ;;;
        if negb (bool_decide (chosen c = lib)) && bool_decide (conflict c = None) then
          charge_library_map_clone lib "map conflicting library" ;;;
          ret (Some (mkChoice (chosen c) (rank c) (Some lib)))
        else ret current
      else win
  end.

Definition offer (candidate lib : bytes) (r : LibrarySpecificity) (b : LibraryMapBuffers)
  : W (bool * LibraryMapBuffers) :=
  let* key := logical_path_key candidate "map candidate identity" in
  let* (e, known) :=
    match entries b !! key with
    | Some e => ret (e, true)
    | None =>
        charge_library_map_clone candidate "map candidate source name" ;;;
        ret (blank candidate None, false)
    end in
  let* (e, next) := discover e (next_order b) in
  let* c := consider lib r (choice e) in
  ret (known, mkBuffers (sources b) (libraries b) (<[key := set_choice c e]> (entries b)) next).

(** ** Publication *)

Definition name_le (a b : Entry) : Prop := bytes_le (name a) (name b).
#[export] Instance name_le_dec : RelDecision name_le := fun a b => decide (bytes_le (name a) (name b)).

Definition conflict_of (e : Entry) : option (bytes * bytes) :=
  match choice e with Some (mkChoice lib _ (Some other)) => Some (lib, other) | _ => None end.

(** The first entry in name order with two libraries at its rank. *)
Fixpoint report_conflict (es : list Entry) : W unit :=
  match es with
  | [] => ret tt
  | e :: rest =>
      match conflict_of e with
      | Some (lib, other) =>
          invalid ("ambiguous library mapping for " +:+ str (name e) +:+ ": " +:+ str lib +:+ " and "
                   +:+ str other +:+ " have equal precedence")
      | None => report_conflict rest
      end
  end.

Definition charge_library_source_metadata (lib : bytes) (remaining : Z) : W Z :=
  if remaining <? len lib then
    fail (mkStartup LimitExceeded
            ("library name " +:+ str lib +:+ " exceeds the configured Slang byte limit"))
  else ret (remaining - len lib).

Record Selected : Type := mkSelected { at_order : Z; at_index : nat; to_library : bytes }.

(** The sources with a choice, in the order of the buffers. *)
Fixpoint select (m : gmap (list bytes) Entry) (index : nat) (srcs : list OwnedSource) (remaining : Z)
    (selected : list Selected) : W (Z * list Selected) :=
  match srcs with
  | [] => ret (remaining, selected)
  | source :: rest =>
      let* key := logical_path_key (src_name source) "map source publication" in
      match m !! key with
      | None => fail (mkStartup Internal
                        ("library map source has no candidate record: " +:+ str (src_name source)))
      | Some e =>
          match choice e with
          | None => select m (S index) rest remaining selected
          | Some c =>
              charge 1 "in-memory library source admission" ;;;
              let* remaining := charge_library_source_metadata (chosen c) remaining in
              charge_library_map_clone (chosen c) "map published library" ;;;
              select m (S index) rest remaining (selected ++ [mkSelected (order e) index (chosen c)])
          end
      end
  end.

Definition order_le (a b : Selected) : Prop := at_order a <= at_order b.
#[export] Instance order_le_dec : RelDecision order_le := fun a b => decide (at_order a <= at_order b).

(** The last loop: a selected source is taken from its slot and published. *)
Fixpoint publish (selected : list Selected) (available : list (option OwnedSource)) (libs : list LibrarySource)
  : W (list (option OwnedSource) * list LibrarySource) :=
  match selected with
  | [] => ret (available, libs)
  | s :: rest =>
      match available !! at_index s with
      | None => panic "index out of bounds"
      | Some None => fail (mkStartup Internal "map source was published twice")
      | Some (Some source) =>
          let published := with_raw (src_raw source) (new_library (src_name source) (src_text source) (to_library s)) in
          let published := mkLibrary (lib_name published) (lib_text published) (lib_raw published)
                             (library published) (src_is_map source) in
          publish rest (<[at_index s := None]> available) (libs ++ [published])
      end
  end.

(** What [finish] leaves: the buffers of both kinds, the bytes remaining, and
    the original texts of configuration maps. *)
Record Published : Type := mkPublished {
  left_sources : list OwnedSource;
  all_libraries : list LibrarySource;
  bytes_remaining : Z;
  originals : list OwnedSource;
}.

Definition entry_original (e : Entry) : option OwnedSource :=
  match original_map e with Some text => Some (include_source (name e) text) | None => None end.

Definition finish (b : LibraryMapBuffers) (remaining : Z) : W Published :=
  let values := snd <$> map_to_list (entries b) in
  charge_key_comparison_work (map (fun e => len (name e)) values) true "map ambiguity ordering comparisons" ;;;
  charge_workspace size_entry_ref (len values) "map ambiguity workspace" ;;;
  report_conflict (merge_sort name_le values) ;;;
  charge_workspace size_selected (len (sources b)) "map publication workspace" ;;;
  let* (remaining, selected) := select (entries b) 0 (sources b) remaining [] in
  charge_key_comparison_work (map (fun _ => 8) selected) true "map publication ordering" ;;;
  let selected := merge_sort order_le selected in
  let amount := len (sources b) * 3 in
  (if max_u64 <? amount then over_limit "map source removal" else charge_usize amount "map source removal") ;;;
  charge_workspace size_optional_source (len (sources b)) "map removal workspace" ;;;
  charge_workspace size_source (len (omap entry_original values)) "original map publication" ;;;
  let* (available, libs) := publish selected (map Some (sources b)) (libraries b) in
  ret (mkPublished (omap id available) libs remaining (omap entry_original values)).
End Layout.
