(* ===== verification/ChoiceFacts.v ===== *)
(** * What offers decide

    [choice_of] is the choice after a sequence of offers, read off the offers
    of the highest rank; [consider] maintains it. Whether a library is settled,
    and which, depends on the set of offers only. *)

From Stdlib Require Import ZArith Lia Ascii String.
From stdpp Require Import base list gmap strings sorting.
From S2P Require Import Prelude Total Names MapPaths GlobFacts MapWork MapBuffers.
Open Scope Z_scope.
Open Scope list_scope.

Definition Offer : Type := bytes * LibrarySpecificity.
Definition offer_rank (o : Offer) : Z := rank_value o.2.

Lemma rank_value_inj r r' : rank_value r = rank_value r' -> r = r'.
Proof. by destruct r, r'. Qed.

(** The offers that no other outranks, in the order they came. *)
Definition top (os : list Offer) : list Offer :=
  List.filter (fun o => forallb (fun o' => offer_rank o' <=? offer_rank o) os) os.

Definition choice_of (os : list Offer) : option Choice :=
  match top os with
  | [] => None
  | (lib, r) :: rest => Some (mkChoice lib r (List.find (fun l => negb (bool_decide (lib = l))) (map fst rest)))
  end.

(** [consider] without the charges. *)
Definition considered (o : Offer) (current : option Choice) : option Choice :=
  match current with
  | None => Some (mkChoice o.1 o.2 None)
  | Some c =>
      if offer_rank o <? rank_value (rank c) then current
      else if offer_rank o =? rank_value (rank c) then
        if negb (bool_decide (chosen c = o.1)) && bool_decide (conflict c = None)
        then Some (mkChoice (chosen c) (rank c) (Some o.1)) else current
      else Some (mkChoice o.1 o.2 None)
  end.

Lemma consider_safe lib r current :
  safely (fun c => c = considered (lib, r) current) (consider lib r current).
Proof.
  unfold consider, considered, offer_rank. cbn [fst snd].
  destruct current as [d |]; [| by repeat safe_step].
  destruct (rank_value r <? rank_value (rank d)); [by repeat safe_step |].
  destruct (rank_value r =? rank_value (rank d)); [| by repeat safe_step].
  do 2 safe_step. destruct (negb _ && _); by repeat safe_step.
Qed.

(** ** The top offers *)

Lemma elem_top o os : o ∈ top os <-> o ∈ os /\ forall o', o' ∈ os -> offer_rank o' <= offer_rank o.
Proof.
  unfold top. rewrite !list_elem_of_In, filter_In, forallb_forall. setoid_rewrite Z.leb_le.
  by setoid_rewrite <- list_elem_of_In.
Qed.

Lemma filter_all {A} (p : A -> bool) l : (forall x, x ∈ l -> p x = true) -> List.filter p l = l.
Proof.
  induction l as [| x l IH]; intros H; [done |]. cbn. rewrite H by by left. f_equal. apply IH. intros. apply H. by right.
Qed.

Lemma filter_none {A} (p : A -> bool) l : (forall x, x ∈ l -> p x = false) -> List.filter p l = [].
Proof.
  induction l as [| x l IH]; intros H; [done |]. cbn. rewrite H by by left. apply IH. intros. apply H. by right.
Qed.

Lemma filter_same {A} (p q : A -> bool) l : (forall x, x ∈ l -> p x = q x) -> List.filter p l = List.filter q l.
Proof.
  induction l as [| x l IH]; intros H; [done |]. cbn. rewrite H by by left.
  rewrite IH; [done |]. intros. apply H. by right.
Qed.

Lemma find_snoc {A} (p : A -> bool) l x :
  List.find p (l ++ [x]) = match List.find p l with Some y => Some y | None => if p x then Some x else None end.
Proof. induction l as [| y l IH]; cbn; [done |]. by destruct (p y). Qed.

Lemma top_snoc os o :
  top (os ++ [o]) =
  (if forallb (fun o' => offer_rank o <=? offer_rank o') (top os) then top os else [])
  ++ (if forallb (fun o' => offer_rank o' <=? offer_rank o) os then [o] else []).
Proof.
  unfold top at 1. rewrite List.filter_app. f_equal.
  - destruct (forallb (fun o' => offer_rank o <=? offer_rank o') (top os)) eqn:E.
    + rewrite forallb_forall in E. apply filter_same. intros x Hx. rewrite forallb_app. cbn. rewrite andb_true_r.
      destruct (forallb _ os) eqn:F; [| done]. cbn.
      apply E, list_elem_of_In, elem_top. split; [done |]. intros o' Ho'. rewrite forallb_forall in F.
      apply Z.leb_le, F. by apply list_elem_of_In.
    + apply filter_none. intros x Hx. rewrite forallb_app. cbn. rewrite andb_true_r.
      apply not_true_iff_false. intros [F G]%andb_prop. apply not_true_iff_false in E. apply E.
      rewrite forallb_forall in F |- *. intros y Hy%list_elem_of_In%elem_top.
      apply Z.leb_le in G. apply Z.leb_le. destruct Hy as [_ Hy]. specialize (Hy x Hx). lia.
  - cbn. rewrite forallb_app. cbn. rewrite Z.leb_refl. cbn. by rewrite andb_true_r.
Qed.

(** The top offers all have one rank. *)
Lemma top_nonempty os : os <> [] -> top os <> [].
Proof.
  induction os as [| o os IH] using rev_ind; [done |]. intros _. rewrite top_snoc.
  destruct (forallb (fun o' => offer_rank o' <=? offer_rank o) os) eqn:E; [by intros [_ ?]%app_eq_nil |].
  destruct os as [| x os]; [done |]. intros [H _]%app_eq_nil.
  destruct (forallb (fun o' => offer_rank o <=? offer_rank o') (top (x :: os))) eqn:F; [by apply IH |].
  apply not_true_iff_false in E, F. apply E, forallb_forall. intros y Hy%list_elem_of_In. apply Z.leb_le.
  destruct (decide (offer_rank y <= offer_rank o)) as [| Hlt]; [done |]. exfalso. apply F, forallb_forall.
  intros z [_ Hz]%list_elem_of_In%elem_top. specialize (Hz y Hy). apply Z.leb_le. lia.
Qed.

Lemma choice_snoc os o : choice_of (os ++ [o]) = considered o (choice_of os).
Proof.
  unfold choice_of at 2. destruct (top os) as [| [lib r] rest] eqn:Et.
  - destruct os as [| x os]; [destruct o as [l []]; reflexivity | by destruct (top_nonempty (x :: os))].
  - assert (Hr : forall o', o' ∈ top os -> offer_rank o' = rank_value r).
    { intros o' Ho'. apply elem_top in Ho' as [H1 H2].
      assert (Hl : (lib, r) ∈ top os) by (rewrite Et; by left). apply elem_top in Hl as [H3 H4].
      specialize (H2 _ H3). specialize (H4 _ H1). unfold offer_rank in *. cbn in *. lia. }
    assert (Hmax : forall o', o' ∈ os -> offer_rank o' <= rank_value r).
    { assert (Hl : (lib, r) ∈ top os) by (rewrite Et; by left). apply elem_top in Hl as [_ H4]. done. }
    assert (Hin : (lib, r) ∈ os). { assert (Hl : (lib, r) ∈ top os) by (rewrite Et; by left). by apply elem_top in Hl as []. }
    assert (F1 : forallb (fun o' => offer_rank o <=? offer_rank o') (top os) = (offer_rank o <=? rank_value r)).
    { destruct (Z.leb_spec (offer_rank o) (rank_value r)).
      - apply forallb_forall. intros y Hy%list_elem_of_In. rewrite (Hr y Hy). lia.
      - rewrite Et. cbn [forallb]. unfold offer_rank at 2. cbn [snd].
        by rewrite (proj2 (Z.leb_gt _ _)) by lia. }
    assert (F2 : forallb (fun o' => offer_rank o' <=? offer_rank o) os = (rank_value r <=? offer_rank o)).
    { destruct (Z.leb_spec (rank_value r) (offer_rank o)).
      - apply forallb_forall. intros y Hy%list_elem_of_In%Hmax. lia.
      - apply not_true_iff_false. rewrite forallb_forall. intros G.
        specialize (G (lib, r) (proj1 (list_elem_of_In _ _) Hin)). unfold offer_rank at 1 in G. cbn in G. lia. }
    unfold choice_of. rewrite top_snoc, F1, F2, Et. unfold considered. cbn [rank chosen conflict].
    destruct (Z.ltb_spec (offer_rank o) (rank_value r)), (Z.eqb_spec (offer_rank o) (rank_value r)),
      (Z.leb_spec (offer_rank o) (rank_value r)), (Z.leb_spec (rank_value r) (offer_rank o)); try lia.
    + by rewrite app_nil_r.
    + cbn [app]. rewrite map_app. cbn [map]. rewrite find_snoc. unfold Offer in *.
      destruct (List.find _ (map fst rest)) as [l |] eqn:Ef.
      * rewrite (bool_decide_false (Some l = None)) by done. by rewrite andb_false_r.
      * rewrite (bool_decide_true (None = None)) by done. rewrite andb_true_r.
        by destruct (bool_decide (lib = o.1)).
    + by destruct o.
Qed.

(** ** Settled and ambiguous offers *)

(** A library is settled by one of its offers when every other offer is of a
    lower rank or names it too. *)
Definition settles (lib : bytes) (os : list Offer) : Prop :=
  exists r, (lib, r) ∈ os
            /\ forall lib' r', (lib', r') ∈ os -> rank_value r' < rank_value r \/ (r' = r /\ lib' = lib).

(** Two libraries are offered at a rank that no offer exceeds. *)
Definition ambiguous (os : list Offer) : Prop :=
  exists l1 l2 r, l1 <> l2 /\ (l1, r) ∈ os /\ (l2, r) ∈ os
                  /\ forall o, o ∈ os -> offer_rank o <= rank_value r.

Lemma choice_settles os lib r :
  choice_of os = Some (mkChoice lib r None) -> settles lib os.
Proof.
  unfold choice_of. destruct (top os) as [| [l r0] rest] eqn:Et; [done |]. intros H. injection H as <- <- Hf.
  assert (Hl : (l, r0) ∈ top os) by (rewrite Et; by left). apply elem_top in Hl as [Hin Hmax].
  exists r0. split; [done |]. intros lib' r' Hin'. specialize (Hmax _ Hin') as Hle.
  unfold offer_rank in Hle. cbn in Hle. destruct (decide (rank_value r' < rank_value r0)) as [| Hge]; [by left |].
  right. assert (r' = r0) as -> by (apply rank_value_inj; lia). split; [done |].
  assert (Ht : (lib', r0) ∈ top os).
  { apply elem_top. split; [done |]. intros o Ho. unfold offer_rank in *. cbn in *. by apply Hmax. }
  rewrite Et in Ht. apply elem_of_cons in Ht as [E | Ht]; [by simplify_eq |].
  apply (list_elem_of_fmap_2 fst) in Ht. apply (find_none _ _ Hf) in Ht as E || (apply list_elem_of_In in Ht; apply (find_none _ _ Hf) in Ht as E).
  apply negb_false_iff, bool_decide_eq_true in E. done.
Qed.

Lemma choice_ambiguous os lib r other :
  choice_of os = Some (mkChoice lib r (Some other)) -> ambiguous os.
Proof.
  unfold choice_of. destruct (top os) as [| [l r0] rest] eqn:Et; [done |]. intros H. injection H as <- <- Hf.
  apply find_some in Hf as [Hin Hne]. apply negb_true_iff, bool_decide_eq_false in Hne.
  apply in_map_iff in Hin as ([l' r'] & <- & Hin). cbn in Hne.
  assert (Hl : (l, r0) ∈ top os) by (rewrite Et; by left).
  assert (Hl' : (l', r') ∈ top os) by (rewrite Et; right; by apply list_elem_of_In).
  apply elem_top in Hl as [H1 M1], Hl' as [H2 M2].
  assert (r' = r0) as ->.
  { apply rank_value_inj. specialize (M1 _ H2). specialize (M2 _ H1). unfold offer_rank in *. cbn in *. lia. }
  exists l, l', r0. split_and!; [done | done | done | exact M1].
Qed.

Lemma settles_not_ambiguous lib os : settles lib os -> ~ ambiguous os.
Proof.
  intros (r & H1 & H2) (l1 & l2 & r' & Hne & I1 & I2 & Hmax).
  specialize (Hmax _ H1). unfold offer_rank in Hmax. cbn in Hmax.
  destruct (H2 _ _ I1) as [? | [_ ->]]; [lia |]. destruct (H2 _ _ I2) as [? | [_ ->]]; [lia | done].
Qed.

Lemma settles_unique lib lib' os : settles lib os -> settles lib' os -> lib = lib'.
Proof.
  intros (r & H1 & H2) (r' & H1' & H2'). destruct (H2 _ _ H1') as [? | [-> ->]]; [| done].
  destruct (H2' _ _ H1) as [? | [-> ->]]; [lia | done].
Qed.

Lemma choice_none os : choice_of os = None <-> os = [].
Proof.
  split; [| by intros ->]. unfold choice_of. destruct (top os) as [| []] eqn:E; [| done].
  intros _. destruct os as [| x os]; [done |]. by destruct (top_nonempty (x :: os)).
Qed.

(** The three cases of a sequence of offers. *)
Lemma choice_cases os :
  os = [] /\ choice_of os = None
  \/ (exists lib r, choice_of os = Some (mkChoice lib r None) /\ settles lib os)
  \/ (exists lib r other, choice_of os = Some (mkChoice lib r (Some other)) /\ ambiguous os).
Proof.
  destruct (choice_of os) as [[lib r [other |]] |] eqn:E.
  - right. right. exists lib, r, other. split; [done |]. by eapply choice_ambiguous.
  - right. left. exists lib, r. split; [done |]. by eapply choice_settles.
  - left. split; [by apply choice_none | done].
Qed.

(** * Buffers follow their offers

    [buffers_ok b os]: the entries of the buffers are what the offers [os], in
    the order they were made, decide. Every operation keeps it, and publication
    moves exactly the sources that were offered. *)

Definition key_of_name (name : bytes) : list bytes := key_of (components_of name).
Definition source_key (s : OwnedSource) : list bytes := key_of_name (src_name s).
Definition library_key (s : LibrarySource) : list bytes := key_of_name (lib_name s).

(** Offers to keys, in order. *)
Definition Offers : Type := list (list bytes * Offer).
Definition offers_to (k : list bytes) (os : Offers) : list Offer :=
  map snd (List.filter (fun o => bool_decide (o.1 = k)) os).

(** The assignments made by the caller, as offers of the highest rank. *)
Definition explicit (libs : list LibrarySource) : Offers :=
  map (fun s => (library_key s, (library s, ExplicitAssignment))) libs.

Lemma offers_to_snoc k os o :
  offers_to k (os ++ [o]) = offers_to k os ++ (if bool_decide (o.1 = k) then [o.2] else []).
Proof.
  unfold offers_to. rewrite List.filter_app, map_app. cbn. by destruct (bool_decide (o.1 = k)).
Qed.

Lemma offers_to_elem k os o : o ∈ offers_to k os <-> (k, o) ∈ os.
Proof.
  unfold offers_to. rewrite list_elem_of_In, in_map_iff. setoid_rewrite filter_In. split.
  - intros ([k' o'] & <- & Hin & E%bool_decide_eq_true). cbn in *. subst. by apply list_elem_of_In.
  - intros H. exists (k, o). split; [done |]. rewrite bool_decide_true by done. split; [by apply list_elem_of_In | done].
Qed.

Record buffers_ok (b : LibraryMapBuffers) (os : Offers) : Prop := {
  ok_choice : forall k e, entries b !! k = Some e -> choice e = choice_of (offers_to k os);
  ok_offered : forall k o, (k, o) ∈ os -> is_Some (entries b !! k);
  ok_sources : Forall (fun s => admissible (src_name s) /\ is_Some (entries b !! source_key s)) (sources b);
  ok_libraries : Forall (fun s => admissible (lib_name s) /\ is_Some (entries b !! library_key s)) (libraries b);
  ok_next : 0 <= next_order b;
}.

Lemma key_safe name operation :
  admissible name -> safely (fun k => k = key_of_name name) (logical_path_key name operation).
Proof. intros H. eapply safely_within. by apply path_key_within. Qed.

Lemma workspace_safe size count operation :
  0 <= size -> 0 <= count -> safely (fun _ => True) (charge_workspace size count operation).
Proof.
  intros. unfold charge_workspace. case_match; [apply safely_over_limit |].
  apply safely_charge_allocation_usize. nia.
Qed.

Lemma register_source_safe m s :
  admissible (src_name s) ->
  safely (fun m' => m !! source_key s = None /\ m' = <[source_key s := blank (src_name s) None]> m)
    (register_source m s).
Proof.
  intros H. unfold register_source. eapply safely_bind; [by apply key_safe |]. intros k ->.
  safe_step. fold (source_key s). destruct (m !! source_key s) eqn:E; [apply safely_invalid | by apply safely_ret].
Qed.

Lemma register_library_safe m s :
  admissible (lib_name s) ->
  safely (fun m' => m !! library_key s = None
                    /\ m' = <[library_key s := blank (lib_name s) (Some (mkChoice (library s) ExplicitAssignment None))]> m)
    (register_library m s).
Proof.
  intros H. unfold register_library. eapply safely_bind; [by apply key_safe |]. intros k ->.
  do 2 safe_step. fold (library_key s).
  destruct (m !! library_key s) eqn:E; [apply safely_invalid | by apply safely_ret].
Qed.

(** The entries after the sources [srcs] and then the libraries [libs]. *)
Record registered (srcs : list OwnedSource) (libs : list LibrarySource) (m : gmap (list bytes) Entry) : Prop := {
  reg_choice : forall k e, m !! k = Some e -> choice e = choice_of (offers_to k (explicit libs));
  reg_source : Forall (fun s => is_Some (m !! source_key s)) srcs;
  reg_library : Forall (fun s => is_Some (m !! library_key s)) libs;
}.

Lemma register_sources_safe srcs :
  Forall (fun s => admissible (src_name s)) srcs ->
  safely (registered srcs []) (fold_m register_source srcs ∅).
Proof.
  intros Ha. apply (safely_fold (fun srcs m => registered srcs [] m)).
  - split; [by intros k e; rewrite lookup_empty | constructor | constructor].
  - intros done s m (rest & E) [R1 R2 _].
    assert (Hs : admissible (src_name s)).
    { rewrite E in Ha. apply Forall_app in Ha as [_ Ha]. by apply Forall_cons in Ha as []. }
    eapply safely_weaken; [by apply register_source_safe |]. intros m' [Hn ->].
    split; [| | constructor].
    + intros k e. destruct (decide (k = source_key s)) as [-> | Hk].
      * rewrite lookup_insert_eq. by intros [= <-].
      * rewrite lookup_insert_ne by done. apply R1.
    + apply Forall_app. split; [| apply Forall_singleton; rewrite lookup_insert_eq; by eexists].
      eapply Forall_impl; [exact R2 |]. intros x Hx. cbn. apply lookup_insert_is_Some'. by right.
Qed.

Lemma offers_to_fresh k os : Forall (fun o => o.1 <> k) os -> offers_to k os = [].
Proof.
  intros H. unfold offers_to. rewrite (filter_none _ os); [done |]. intros o Ho.
  rewrite Forall_forall in H. apply bool_decide_eq_false. by apply H.
Qed.

Lemma register_libraries_safe srcs libs m :
  Forall (fun s => admissible (lib_name s)) libs -> registered srcs [] m ->
  safely (registered srcs libs) (fold_m register_library libs m).
Proof.
  intros Ha Hm. apply (safely_fold (fun libs m => registered srcs libs m)); [done |].
  intros done s m' (rest & E) [R1 R2 R3].
  assert (Hs : admissible (lib_name s)).
  { rewrite E in Ha. apply Forall_app in Ha as [_ Ha]. by apply Forall_cons in Ha as []. }
  eapply safely_weaken; [by apply register_library_safe |]. intros m2 [Hn ->].
  assert (Hfresh : offers_to (library_key s) (explicit done) = []).
  { apply offers_to_fresh. unfold explicit. apply Forall_map. eapply Forall_impl; [exact R3 |].
    intros x [e He] Heq. cbn in Heq. rewrite Heq in He. by rewrite Hn in He. }
  split.
  - intros k e. unfold explicit in *. rewrite map_app. cbn [map]. rewrite offers_to_snoc. cbn [fst snd].
    destruct (decide (k = library_key s)) as [-> | Hk].
    + rewrite lookup_insert_eq, bool_decide_true, Hfresh by done. by intros [= <-].
    + rewrite lookup_insert_ne by done. rewrite bool_decide_false, app_nil_r by done. apply R1.
  - eapply Forall_impl; [exact R2 |]. intros x Hx. cbn. apply lookup_insert_is_Some'. by right.
  - apply Forall_app. split; [| apply Forall_singleton; rewrite lookup_insert_eq; by eexists].
    eapply Forall_impl; [exact R3 |]. intros x Hx. cbn. apply lookup_insert_is_Some'. by right.
Qed.

Lemma new_buffers_safe srcs libs :
  Forall (fun s => admissible (src_name s)) srcs -> Forall (fun s => admissible (lib_name s)) libs ->
  safely (fun b => buffers_ok b (explicit libs) /\ sources b = srcs /\ libraries b = libs) (new_buffers srcs libs).
Proof.
  intros Hs Hl. unfold new_buffers. eapply safely_bind; [by apply register_sources_safe |]. intros m Hm.
  eapply safely_bind; [by apply register_libraries_safe |]. intros m' [R1 R2 R3].
  apply safely_ret. split_and!; [| done | done]. split; cbn [entries sources libraries next_order].
  - done.
  - intros k o Hin. unfold explicit in Hin. apply list_elem_of_In, in_map_iff in Hin as (s & E & Hin%list_elem_of_In).
    simplify_eq. rewrite Forall_forall in R3. by apply R3.
  - rewrite Forall_forall in Hs, R2 |- *. intros s Hin. split; [by apply Hs | by apply R2].
  - rewrite Forall_forall in Hl, R3 |- *. intros s Hin. split; [by apply Hl | by apply R3].
  - lia.
Qed.

Section Layout.
Context `{Layout}.

Lemma sizes_nonneg :
  0 <= size_source /\ 0 <= size_optional_source /\ 0 <= size_entry_ref /\ 0 <= size_selected
  /\ 0 <= size_range /\ 0 <= size_parsed_map /\ 0 <= size_include_dir.
Proof. pose proof size_nonneg as S. repeat (apply Forall_cons in S as [? S]). done. Qed.

(** Changing the entry of a key to one with the same choice. *)
Lemma insert_is_Some (m : gmap (list bytes) Entry) k e k' : is_Some (m !! k') -> is_Some (<[k := e]> m !! k').
Proof. intros. apply lookup_insert_is_Some'. by right. Qed.

(** ** Offers *)

Lemma discover_safe e next :
  0 <= next ->
  safely (fun en => choice en.1 = choice e /\ 0 <= en.2) (discover e next).
Proof.
  intros. unfold discover. case_match; [| by apply safely_ret].
  safe_step. case_match; [apply safely_over_limit |]. apply safely_ret. cbn. split; [done | lia].
Qed.

Lemma offer_safe candidate lib r b os :
  admissible candidate -> buffers_ok b os ->
  safely (fun kb => buffers_ok kb.2 (os ++ [(key_of_name candidate, (lib, r))])
                    /\ sources kb.2 = sources b /\ libraries kb.2 = libraries b)
    (offer candidate lib r b).
Proof.
  intros Hc [B1 B2 B3 B4 B5]. unfold offer. eapply safely_bind; [by apply key_safe |]. intros k ->.
  set (k := key_of_name candidate).
  eapply (safely_bind (fun ek => choice ek.1 = choice_of (offers_to k os))).
  { destruct (entries b !! k) as [e |] eqn:E; [by apply safely_ret, B1 |]. safe_step. apply safely_ret. cbn.
    destruct (offers_to k os) as [| o rest] eqn:Eo; [done |]. exfalso.
    assert (Ho : (k, o) ∈ os) by (apply offers_to_elem; rewrite Eo; by left).
    apply B2 in Ho as [e He]. by rewrite E in He. }
  intros [e known] He. cbn in He. eapply safely_bind; [by apply discover_safe |]. intros [e' next] [Hd Hn].
  cbn in Hd, Hn. eapply safely_bind; [apply consider_safe |]. intros c ->. apply safely_ret.
  split_and!; [| done | done]. split; cbn [snd entries sources libraries next_order].
  - intros k' e0. rewrite offers_to_snoc. cbn [fst snd]. destruct (decide (k = k')) as [<- | Hk].
    + rewrite lookup_insert_eq, bool_decide_true by done. intros [= <-]. cbn.
      by rewrite Hd, He, choice_snoc.
    + rewrite lookup_insert_ne, bool_decide_false, app_nil_r by done. apply B1.
  - intros k' o Hin. apply elem_of_app in Hin as [Hin | Hin]; [by eapply insert_is_Some, B2 |].
    apply list_elem_of_singleton in Hin as [= -> _]. rewrite lookup_insert_eq. by eexists.
  - eapply Forall_impl; [exact B3 |]. intros s []. split; [done | by apply insert_is_Some].
  - eapply Forall_impl; [exact B4 |]. intros s []. split; [done | by apply insert_is_Some].
  - done.
Qed.

(** ** Configurations *)

Lemma retain_original_safe e original :
  safely (fun e' => choice e' = choice e) (retain_original_map e original).
Proof.
  unfold retain_original_map. safe_step. destruct (original_map e) as [t |].
  - case_bool_decide; [by apply safely_ret | apply safely_invalid].
  - safe_step. by apply safely_ret.
Qed.

Lemma check_map_source_safe retained original projection map_name :
  safely (fun _ => True) (check_map_source retained original projection map_name).
Proof. unfold check_map_source. do 3 safe_step. case_match; [apply safely_invalid | by apply safely_ret]. Qed.

Definition renames_nothing {A} (f : A -> bytes) (e : Entry) (before : list A) (found : option (list A * Entry)) : Prop :=
  match found with Some (after, e') => map f after = map f before /\ choice e' = choice e | None => True end.

Lemma retain_in_sources_safe key map_name original projection e srcs :
  Forall (fun s => admissible (src_name s)) srcs ->
  safely (renames_nothing src_name e srcs) (retain_in_sources key map_name original projection e srcs).
Proof.
  induction 1 as [| s srcs Hs _ IH]; cbn [retain_in_sources]; [by apply safely_ret |].
  eapply safely_bind; [by apply key_safe |]. intros k ->. case_bool_decide.
  - eapply safely_bind; [apply check_map_source_safe |]. intros _ _.
    eapply safely_bind; [apply retain_original_safe |]. intros e' He. by apply safely_ret.
  - eapply safely_bind; [exact IH |]. intros [[rest e'] |] Hr; apply safely_ret; [| done].
    destruct Hr as [Hr He]. cbn. by rewrite Hr.
Qed.

Lemma retain_in_libraries_safe key map_name original projection e libs :
  Forall (fun s => admissible (lib_name s)) libs ->
  safely (renames_nothing lib_name e libs) (retain_in_libraries key map_name original projection e libs).
Proof.
  induction 1 as [| s libs Hs _ IH]; cbn [retain_in_libraries]; [by apply safely_ret |].
  eapply safely_bind; [by apply key_safe |]. intros k ->. case_bool_decide.
  - eapply safely_bind; [apply check_map_source_safe |]. intros _ _.
    eapply safely_bind; [apply retain_original_safe |]. intros e' He. by apply safely_ret.
  - eapply safely_bind; [exact IH |]. intros [[rest e'] |] Hr; apply safely_ret; [| done].
    destruct Hr as [Hr He]. cbn. by rewrite Hr.
Qed.

(** Facts about names carry over to lists with the same names. *)
Lemma forall_names {A} (f : A -> bytes) (P : bytes -> Prop) before after :
  map f after = map f before -> Forall (fun s => P (f s)) before -> Forall (fun s => P (f s)) after.
Proof. intros E H1. apply (Forall_map f P). rewrite E. by apply Forall_map. Qed.

Lemma replace_entry_ok b os k e e' srcs libs :
  buffers_ok b os -> entries b !! k = Some e -> choice e' = choice e ->
  map src_name srcs = map src_name (sources b) -> map lib_name libs = map lib_name (libraries b) ->
  buffers_ok (mkBuffers srcs libs (<[k := e']> (entries b)) (next_order b)) os.
Proof.
  intros [B1 B2 B3 B4 B5] Ek Ec Es El. split; cbn [entries sources libraries next_order].
  - intros k' e0. destruct (decide (k = k')) as [<- | Hk].
    + rewrite lookup_insert_eq. intros [= <-]. rewrite Ec. by apply B1.
    + rewrite lookup_insert_ne by done. apply B1.
  - intros k' o Hin. by eapply insert_is_Some, B2.
  - eapply (forall_names src_name (fun n => admissible n /\ is_Some (<[k := e']> (entries b) !! key_of_name n)));
      [exact Es |]. eapply Forall_impl; [exact B3 |]. intros s []. split; [done | by apply insert_is_Some].
  - eapply (forall_names lib_name (fun n => admissible n /\ is_Some (<[k := e']> (entries b) !! key_of_name n)));
      [exact El |]. eapply Forall_impl; [exact B4 |]. intros s []. split; [done | by apply insert_is_Some].
  - done.
Qed.

Lemma retain_configuration_safe map_name original projection b os :
  admissible map_name -> buffers_ok b os ->
  safely (fun b' => buffers_ok b' os) (retain_configuration map_name original projection b).
Proof.
  intros Hm Hb. pose proof Hb as [B1 B2 B3 B4 B5]. unfold retain_configuration.
  eapply safely_bind; [by apply key_safe |]. intros k ->.
  assert (As : Forall (fun s => admissible (src_name s)) (sources b)).
  { eapply Forall_impl; [exact B3 |]. by intros s []. }
  assert (Al : Forall (fun s => admissible (lib_name s)) (libraries b)).
  { eapply Forall_impl; [exact B4 |]. by intros s []. }
  destruct (entries b !! key_of_name map_name) as [e |] eqn:Ek.
  - eapply safely_bind; [by apply retain_in_sources_safe |]. intros [[srcs e'] |] Hr.
    + destruct Hr as [Hn Hc]. apply safely_ret. by eapply replace_entry_ok.
    + eapply safely_bind; [by apply retain_in_libraries_safe |]. intros [[libs e'] |] Hr'; [| apply safely_fail].
      destruct Hr' as [Hn Hc]. apply safely_ret. by eapply replace_entry_ok.
  - do 2 safe_step. eapply safely_bind; [apply workspace_safe; [apply sizes_nonneg | lia] |]. intros _ _.
    eapply safely_bind; [apply retain_original_safe |]. intros e He. cbn in He. apply safely_ret.
    split; cbn [entries sources libraries next_order].
    + intros k' e0. destruct (decide (key_of_name map_name = k')) as [<- | Hk].
      * rewrite lookup_insert_eq. intros [= <-]. rewrite He.
        destruct (offers_to (key_of_name map_name) os) as [| o rest] eqn:Eo; [done |]. exfalso.
        assert (Ho : (key_of_name map_name, o) ∈ os) by (apply offers_to_elem; rewrite Eo; by left).
        apply B2 in Ho as [e1 He1]. by rewrite Ek in He1.
      * rewrite lookup_insert_ne by done. apply B1.
    + intros k' o Hin. by eapply insert_is_Some, B2.
    + apply Forall_app. split; [eapply Forall_impl; [exact B3 |]; intros s []; split; [done | by apply insert_is_Some] |].
      apply Forall_singleton. split; [done |]. unfold source_key. cbn. rewrite lookup_insert_eq. by eexists.
    + eapply Forall_impl; [exact B4 |]. intros s []. split; [done | by apply insert_is_Some].
    + done.
Qed.
End Layout.

(** * Publication

    [finish] reports a conflict when there is one; otherwise the sources that
    were offered become library sources with the library their offers settle,
    and the others stay. *)

Lemma omap_same {A B} (f g : A -> option B) (l : list A) : (forall x, x ∈ l -> f x = g x) -> omap f l = omap g l.
Proof.
  induction l as [| x l IH]; intros Hx; [done |]. cbn. rewrite (Hx x) by by left.
  rewrite IH; [done |]. intros y Hy. apply Hx. by right.
Qed.

Lemma report_conflict_safe es :
  safely (fun _ => Forall (fun e => conflict_of e = None) es) (report_conflict es).
Proof.
  induction es as [| e es IH]; cbn [report_conflict]; [by apply safely_ret |].
  destruct (conflict_of e) as [[] |] eqn:E; [apply safely_invalid |].
  eapply safely_weaken; [exact IH |]. intros ? Hes. by constructor.
Qed.

(** ** Selection *)

Definition entry_choice (m : gmap (list bytes) Entry) (s : OwnedSource) : option (Z * Choice) :=
  match m !! source_key s with
  | Some e => match choice e with Some c => Some (order e, c) | None => None end
  | None => None
  end.

Fixpoint selection (m : gmap (list bytes) Entry) (index : nat) (srcs : list OwnedSource) : list Selected :=
  match srcs with
  | [] => []
  | s :: rest =>
      match entry_choice m s with Some (o, c) => [mkSelected o index (chosen c)] | None => [] end
      ++ selection m (S index) rest
  end.

Lemma metadata_safe lib remaining : safely (fun _ => True) (charge_library_source_metadata lib remaining).
Proof. unfold charge_library_source_metadata. case_match; [apply safely_fail | by apply safely_ret]. Qed.

Lemma select_safe m index srcs remaining selected :
  Forall (fun s => admissible (src_name s) /\ is_Some (m !! source_key s)) srcs ->
  safely (fun rs => rs.2 = selected ++ selection m index srcs) (select m index srcs remaining selected).
Proof.
  intros Hf. revert index remaining selected.
  induction Hf as [| s srcs [Ha [e He]] _ IH]; intros index remaining selected; cbn [select selection];
    [apply safely_ret; cbn; by rewrite app_nil_r |].
  eapply safely_bind; [by apply key_safe |]. intros k ->. fold (source_key s).
  unfold entry_choice. rewrite He. destruct (choice e) as [c |]; [| apply IH].
  safe_step. eapply safely_bind; [apply metadata_safe |]. intros r _. safe_step.
  eapply safely_weaken; [apply IH |]. intros [r' sel] E. cbn in *. rewrite E. by rewrite <- app_assoc.
Qed.

(** ** Publication of a selection *)

Definition published_as (s : OwnedSource) (lib : bytes) : LibrarySource :=
  mkLibrary (src_name s) (src_text s) (src_raw s) lib (src_is_map s).

Definition slot (available : list (option OwnedSource)) (s : Selected) : option LibrarySource :=
  match available !! at_index s with Some (Some src) => Some (published_as src (to_library s)) | _ => None end.

Definition emptied (selected : list Selected) (available : list (option OwnedSource)) : list (option OwnedSource) :=
  fold_left (fun a s => <[at_index s := None]> a) selected available.

Lemma publish_safe selected available libs :
  NoDup (map at_index selected) ->
  Forall (fun s => exists src, available !! at_index s = Some (Some src)) selected ->
  safely (fun al => al.1 = emptied selected available /\ al.2 = libs ++ omap (slot available) selected)
    (publish selected available libs).
Proof.
  revert available libs. induction selected as [| s selected IH]; intros available libs Hn Hf; cbn [publish].
  - apply safely_ret. cbn. by rewrite app_nil_r.
  - apply NoDup_cons in Hn as [Hs Hn]. apply Forall_cons in Hf as [(src & E) Hf]. rewrite E.
    assert (Hother : forall t, t ∈ selected -> <[at_index s := None]> available !! at_index t = available !! at_index t).
    { intros t Ht. apply list_lookup_insert_ne. intros Heq. apply Hs. rewrite Heq.
      by apply (list_elem_of_fmap_2 at_index). }
    eapply safely_weaken; [apply IH; [done |] |].
    + rewrite Forall_forall in Hf |- *. intros t Ht. rewrite (Hother t Ht). by apply Hf.
    + intros [a l] [-> ->]. cbn. split; [done |]. rewrite <- app_assoc. f_equal.
      unfold slot at 2. rewrite E. cbn. f_equal.
      apply omap_same. intros t Ht. unfold slot. by rewrite (Hother t Ht).
Qed.

Lemma emptied_lookup selected available i :
  emptied selected available !! i
  = if bool_decide (i ∈ map at_index selected) then (fun _ => None) <$> available !! i else available !! i.
Proof.
  unfold emptied. revert available. induction selected as [| s selected IH]; intros available; cbn [fold_left map].
  - by rewrite bool_decide_false by apply not_elem_of_nil.
  - rewrite IH. destruct (decide (i = at_index s)) as [-> | Hne].
    + rewrite (bool_decide_true (at_index s ∈ _ :: _)) by by left.
      assert (E : (fun _ : option OwnedSource => None (A := OwnedSource)) <$> available !! at_index s
                  = <[at_index s := None]> available !! at_index s).
      { destruct (available !! at_index s) eqn:E; cbn.
        - symmetry. apply list_lookup_insert_eq. by apply lookup_lt_Some in E.
        - symmetry. apply lookup_ge_None. rewrite length_insert. by apply lookup_ge_None in E. }
      rewrite <- E. case_bool_decide; [| done]. by destruct (available !! at_index s).
    + rewrite list_lookup_insert_ne by done.
      rewrite (bool_decide_ext (i ∈ map at_index selected) (i ∈ at_index s :: map at_index selected)); [done |].
      rewrite elem_of_cons. naive_solver.
Qed.

(** ** The selection of all sources *)

Lemma selection_index m i0 srcs i :
  i ∈ map at_index (selection m i0 srcs)
  <-> exists s, (i0 <= i)%nat /\ srcs !! (i - i0)%nat = Some s /\ entry_choice m s <> None.
Proof.
  revert i0. induction srcs as [| s srcs IH]; intros i0; cbn [selection map].
  - split; [by intros ?%not_elem_of_nil | by intros (? & _ & ? & _)].
  - rewrite map_app, elem_of_app, IH. split.
    + intros [Hi | (t & Hle & Ht & Hc)].
      * destruct (entry_choice m s) as [[o c] |] eqn:E; cbn in Hi; [| by apply not_elem_of_nil in Hi].
        apply list_elem_of_singleton in Hi as ->. exists s. rewrite Nat.sub_diag. split_and!; [lia | done | by rewrite E].
      * exists t. split_and!; [lia | | done]. by replace (i - i0)%nat with (S (i - S i0)) by lia.
    + intros (t & Hle & Ht & Hc). destruct (decide (i = i0)) as [-> | Hne].
      * rewrite Nat.sub_diag in Ht. injection Ht as ->. left.
        destruct (entry_choice m t) as [[o c] |]; [| done]. cbn. by apply list_elem_of_singleton.
      * right. exists t. split_and!; [lia | | done]. by replace (i - i0)%nat with (S (i - S i0)) in Ht by lia.
Qed.

Lemma selection_nodup m i0 srcs : NoDup (map at_index (selection m i0 srcs)).
Proof.
  revert i0. induction srcs as [| s srcs IH]; intros i0; cbn [selection map]; [constructor |].
  rewrite map_app. destruct (entry_choice m s) as [[o c] |]; cbn [map app]; [| apply IH].
  apply NoDup_cons. split; [| apply IH]. rewrite selection_index. intros (t & Hle & _). cbn in Hle. lia.
Qed.

Definition assigned_in (m : gmap (list bytes) Entry) (s : OwnedSource) : option LibrarySource :=
  (fun oc => published_as s (chosen oc.2)) <$> entry_choice m s.

Lemma selection_slots m pre srcs :
  omap (slot (map Some (pre ++ srcs))) (selection m (length pre) srcs) = omap (assigned_in m) srcs.
Proof.
  revert pre. induction srcs as [| s srcs IH]; intros pre; cbn [selection]; [done |].
  rewrite omap_app. specialize (IH (pre ++ [s])). rewrite length_app, Nat.add_1_r, <- app_assoc in IH.
  cbn [app] in IH. rewrite IH. cbn [omap list_omap]. unfold assigned_in at 2.
  destruct (entry_choice m s) as [[o c] |]; cbn [omap list_omap app fmap option_fmap option_map]; [| done].
  unfold slot. cbn [at_index to_library]. change (map Some) with (fmap (M := list) (@Some OwnedSource)).
  rewrite list_lookup_fmap, list_lookup_middle by done. done.
Qed.

Lemma emptied_selection m srcs selected :
  selected ≡ₚ selection m 0 srcs ->
  omap id (emptied selected (map Some srcs)) = List.filter (fun s => bool_decide (entry_choice m s = None)) srcs.
Proof.
  intros Hp.
  assert (E : emptied selected (map Some srcs)
              = map (fun s => if bool_decide (entry_choice m s = None) then Some s else None) srcs).
  { apply list_eq. intros i. rewrite emptied_lookup.
    change (map Some) with (fmap (M := list) (@Some OwnedSource)).
    change (map (fun s => if bool_decide (entry_choice m s = None) then Some s else None) srcs)
      with ((fun s => if bool_decide (entry_choice m s = None) then Some s else None) <$> srcs).
    rewrite !list_lookup_fmap.
    assert (Hi : i ∈ map at_index selected <-> exists s, srcs !! i = Some s /\ entry_choice m s <> None).
    { rewrite Hp, selection_index, Nat.sub_0_r. naive_solver lia. }
    destruct (srcs !! i) as [s |] eqn:Es; cbn.
    - destruct (decide (entry_choice m s = None)) as [Hn | Hn].
      + rewrite (bool_decide_true (entry_choice m s = None)), bool_decide_false by naive_solver. done.
      + rewrite (bool_decide_false (entry_choice m s = None)), bool_decide_true by naive_solver. done.
    - by case_bool_decide. }
  rewrite E. clear. induction srcs as [| s srcs IH]; [done |]. cbn. case_bool_decide; cbn; by rewrite IH.
Qed.

(** ** What [finish] returns *)

Section Layout.
Context `{Layout}.

(** The library source that the offers make of a source. *)
Definition assigned (os : Offers) (s : OwnedSource) : option LibrarySource :=
  (fun c => published_as s (chosen c)) <$> choice_of (offers_to (source_key s) os).

Definition publishes (srcs : list OwnedSource) (libs : list LibrarySource) (os : Offers) (p : Published) : Prop :=
  left_sources p = List.filter (fun s => bool_decide (offers_to (source_key s) os = [])) srcs
  /\ (exists new, all_libraries p = libs ++ new /\ new ≡ₚ omap (assigned os) srcs)
  /\ forall k, ~ ambiguous (offers_to k os).

Lemma entry_choice_offers b os s :
  buffers_ok b os -> s ∈ sources b ->
  snd <$> entry_choice (entries b) s = choice_of (offers_to (source_key s) os).
Proof.
  intros [B1 _ B3 _ _] Hs. rewrite Forall_forall in B3. destruct (B3 s Hs) as [_ [e He]].
  unfold entry_choice. rewrite He, <- (B1 _ _ He). by destruct (choice e).
Qed.

Lemma no_conflicts b os :
  buffers_ok b os -> Forall (fun e => conflict_of e = None) (snd <$> map_to_list (entries b)) ->
  forall k, ~ ambiguous (offers_to k os).
Proof.
  intros [B1 B2 _ _ _] Hc k. destruct (choice_cases (offers_to k os)) as [[-> _] | [(lib & r & _ & Hs) | (lib & r & o & Hch & _)]].
  - by intros (? & ? & ? & _ & ?%not_elem_of_nil & _).
  - by eapply settles_not_ambiguous.
  - exfalso. destruct (offers_to k os) as [| o1 rest] eqn:Eo; [done |].
    assert (Hin : (k, o1) ∈ os) by (apply offers_to_elem; rewrite Eo; by left).
    destruct (B2 _ _ Hin) as [e He]. rewrite Forall_forall in Hc.
    specialize (Hc e). rewrite <- Eo, <- (B1 _ _ He) in Hch. unfold conflict_of in Hc. rewrite Hch in Hc.
    discriminate Hc. apply (list_elem_of_fmap_2 snd _ (k, e)). by apply elem_of_map_to_list.
Qed.

Lemma finish_safe b remaining os :
  buffers_ok b os -> safely (publishes (sources b) (libraries b) os) (finish b remaining).
Proof.
  intros Hb. pose proof sizes_nonneg as (N1 & N2 & N3 & N4 & N5 & N6 & N7). unfold finish.
  assert (Hl : forall l : list Entry, Forall (Z.le 0) (map (fun e => len (name e)) l)).
  { intros l. apply Forall_map, Forall_true. intros e. unfold len. lia. }
  assert (Hlen : forall A (l : list A), 0 <= len l) by (intros; unfold len; lia).
  eapply safely_bind; [apply key_comparison_safe, Hl |]. intros _ _.
  eapply safely_bind; [by apply workspace_safe |]. intros _ _.
  eapply safely_bind; [apply report_conflict_safe |]. intros ? Hc.
  cbv beta in Hc. apply (Permutation_Forall (merge_sort_Permutation name_le _)) in Hc. pose proof (no_conflicts b os Hb Hc) as Hamb.
  eapply safely_bind; [by apply workspace_safe |]. intros _ _.
  eapply safely_bind; [apply select_safe; apply Hb |]. intros [rem sel] Esel. cbn in Esel. subst sel.
  eapply safely_bind; [apply key_comparison_safe, Forall_map, Forall_true; lia |]. intros _ _.
  eapply safely_bind; [case_match; [apply safely_over_limit | apply safely_charge_usize; unfold len; lia] |]. intros _ _.
  do 2 (eapply safely_bind; [by apply workspace_safe |]; intros _ _).
  set (sel := selection (entries b) 0 (sources b)) in *. cbn [app].
  pose proof (merge_sort_Permutation order_le sel) as Hp.
  eapply safely_bind; [apply publish_safe |].
  - rewrite Hp. apply selection_nodup.
  - rewrite Hp, Forall_forall. intros s Hs. apply (list_elem_of_fmap_2 at_index) in Hs.
    apply selection_index in Hs as (src & _ & Hsrc & _). exists src. rewrite Nat.sub_0_r in Hsrc.
    change (map Some) with (fmap (M := list) (@Some OwnedSource)). by rewrite list_lookup_fmap, Hsrc.
  - intros [available libs] [Ea El]. cbn in Ea, El. subst available libs. apply safely_ret. split_and!; cbn [left_sources all_libraries].
    + rewrite (emptied_selection (entries b) (sources b)) by exact Hp. apply filter_same. intros s Hs.
      apply bool_decide_ext. rewrite <- choice_none, <- (entry_choice_offers b os s Hb Hs).
      by destruct (entry_choice (entries b) s).
    + eexists. split; [done |]. rewrite Hp.
      pose proof (selection_slots (entries b) [] (sources b)) as Es. cbn [app length] in Es. fold sel in Es. rewrite Es.
      rewrite (omap_same (assigned_in (entries b)) (assigned os)); [done |]. intros s Hs.
      unfold assigned_in, assigned. rewrite <- (entry_choice_offers b os s Hb Hs).
      by destruct (entry_choice (entries b) s).
    + done.
Qed.
End Layout.
