(* ===== verification/Macros.v ===== *)
(** * Macros of the compilation driver

    The macro scanner of [src/core/compile.rs] that finds included files and
    expands library maps: logical lines, comments, directives, definitions, and
    expansion with its two budgets (bytes written and steps taken). A text is
    its UTF-8 bytes. *)

From Stdlib Require Import ZArith Lia Ascii String.
From stdpp Require Import base list gmap strings.
From S2P Require Import Prelude Total MapPaths MapWork.
Open Scope Z_scope.
Open Scope list_scope.

Definition MAX_MACRO_EXPANSION_DEPTH : nat := 64.

(** ** The budget *)

Record MacroExpansionBudget : Type := mkMacroBudget { budget_bytes : Z; budget_work : Z }.

Definition new_macro_budget (limit : Z) : MacroExpansionBudget := mkMacroBudget limit limit.

(** Computations under a macro budget. *)
Definition B (A : Type) : Type := M StartupError MacroExpansionBudget A.

Definition expansion_limit : StartupError :=
  mkStartup LimitExceeded "macro include expansion exceeds the configured Slang byte limit".

Definition charge_bytes (amount : Z) : B unit := fun b =>
  if budget_bytes b <? amount then Fail expansion_limit
  else Done (tt, mkMacroBudget (budget_bytes b - amount) (budget_work b)).

(** [push] and [push_str]: the bytes are charged, then appended. *)
Definition push_str (output value : bytes) : B bytes :=
  charge_bytes (len value) ;;; ret (output ++ value).

Definition step : B unit := fun b =>
  if budget_work b <? 1 then Fail expansion_limit
  else Done (tt, mkMacroBudget (budget_bytes b) (budget_work b - 1)).

(** ** Definitions *)

Record MacroDefinition : Type := mkMacro { parameters : option (list bytes); body : bytes }.
Definition MacroEnvironment : Type := gmap bytes MacroDefinition.

Record ConditionalFrame : Type := mkConditional {
  parent_active : bool;
  branch_taken : bool;
  active : bool;
  seen_else : bool;
}.

(** [split_once('=')]. *)
Fixpoint split_equals (t : bytes) : bytes * option bytes :=
  match t with
  | [] => ([], None)
  | b :: rest =>
      if Ascii.eqb b "=" then ([], Some rest)
      else let '(name, value) := split_equals rest in (b :: name, value)
  end.

Definition define_entry (value : bytes) : bytes * MacroDefinition :=
  let '(name, value) := split_equals value in (name, mkMacro None (default [] value)).

Definition macro_environment_from_defines (defines : list bytes) : MacroEnvironment :=
  fold_left (fun m value => let '(name, d) := define_entry value in <[name := d]> m) defines ∅.

Definition is_macro_identifier_start (b : ascii) : bool :=
  is_ascii_alphabetic b || Ascii.eqb b "_" || Ascii.eqb b "$".
Definition is_macro_identifier_continue (b : ascii) : bool :=
  is_macro_identifier_start b || is_ascii_digit b.

(** The bytes of an identifier at the front of a text, and what follows. *)
Fixpoint take_identifier (t : bytes) : bytes * bytes :=
  match t with
  | b :: rest =>
      if is_macro_identifier_continue b then
        let '(name, after) := take_identifier rest in (b :: name, after)
      else ([], t)
  | [] => ([], [])
  end.

(** The first identifier of a text, and the text after it. *)
Fixpoint find_identifier (t : bytes) : option (bytes * bytes) :=
  match t with
  | [] => None
  | b :: rest => if is_macro_identifier_start b then Some (take_identifier t) else find_identifier rest
  end.

Definition first_macro_identifier (t : bytes) : option bytes := fst <$> find_identifier t.

(** [str::trim_start]: the UTF-8 forms of white space are dropped. *)
Definition ascii_code (b : ascii) : Z := Z.of_N (byte_N b).
Definition white1 (b : ascii) : bool := ((9 <=? ascii_code b) && (ascii_code b <=? 13)) || (ascii_code b =? 32).
Definition white2 (b c : ascii) : bool :=
  (ascii_code b =? 194) && ((ascii_code c =? 133) || (ascii_code c =? 160)).
Definition white3 (b c d : ascii) : bool :=
  let x := ascii_code b in let y := ascii_code c in let z := ascii_code d in
  ((x =? 225) && (y =? 154) && (z =? 128))
  || ((x =? 226) && (y =? 128)
      && (((128 <=? z) && (z <=? 138)) || (z =? 168) || (z =? 169) || (z =? 175)))
  || ((x =? 226) && (y =? 129) && (z =? 159))
  || ((x =? 227) && (y =? 128) && (z =? 128)).

Fixpoint trim_start (t : bytes) : bytes :=
  match t with
  | [] => []
  | b :: rest1 =>
      if white1 b then trim_start rest1
      else match rest1 with
           | [] => t
           | c :: rest2 =>
               if white2 b c then trim_start rest2
               else match rest2 with
                    | [] => t
                    | d :: rest3 => if white3 b c d then trim_start rest3 else t
                    end
           end
  end.

Fixpoint skip_ascii_white (t : bytes) : bytes :=
  match t with b :: rest => if is_ascii_whitespace b then skip_ascii_white rest else t | [] => [] end.

(** ** Lines *)

Definition newline : ascii := ascii_of_nat 10.
Definition carriage_return : ascii := ascii_of_nat 13.
Definition backslash : ascii := "\"%char.
Definition quote : ascii := ascii_of_nat 34.

(** [split_inclusive('\n')], each line without its newline. *)
Definition raw_lines (source : bytes) : list bytes :=
  let pieces := split_on (Ascii.eqb newline) source in
  match last pieces with Some [] => removelast pieces | _ => pieces end.

(** [strip_suffix] of one character. *)
Definition strip_last (c : ascii) (t : bytes) : option bytes :=
  match last t with
  | Some b => if Ascii.eqb b c then Some (removelast t) else None
  | None => None
  end.

Record LineState : Type := mkLines {
  lines : list (Z * bytes);
  current : bytes;
  start_line : Z;
  continuing : bool;
  line_index : Z;
}.

Definition line_step (st : LineState) (raw : bytes) : LineState :=
  let start := if continuing st then start_line st else line_index st + 1 in
  let line := default raw (strip_last carriage_return raw) in
  match strip_last backslash line with
  | Some stripped =>
      mkLines (lines st) (current st ++ stripped ++ [newline]) start true (line_index st + 1)
  | None => mkLines (lines st ++ [(start, current st ++ line)]) [] start false (line_index st + 1)
  end.

Definition logical_preprocessor_lines (source : bytes) : list (Z * bytes) :=
  let st := fold_left line_step (raw_lines source) (mkLines [] [] 1 false 0) in
  match current st with [] => lines st | _ => lines st ++ [(start_line st, current st)] end.

(** The text of a line without comments, and whether a block comment is open
    at its end. *)
Fixpoint strip_comments (line : bytes) (block string_ escaped : bool) : bytes * bool :=
  match line with
  | [] => ([], block)
  | b :: rest =>
      if block then
        match rest with
        | c :: rest' =>
            if Ascii.eqb b "*" && Ascii.eqb c "/" then strip_comments rest' false string_ escaped
            else strip_comments rest true string_ escaped
        | [] => ([], true)
        end
      else
        let keep :=
          let string_' := if Ascii.eqb b quote && negb escaped then negb string_ else string_ in
          let escaped' := Ascii.eqb b backslash && negb escaped in
          let '(out, open) := strip_comments rest false string_' escaped' in
          (b :: out, open) in
        if negb string_ && Ascii.eqb b "/" then
          match rest with
          | c :: rest' =>
              if Ascii.eqb c "/" then ([], false)
              else if Ascii.eqb c "*" then strip_comments rest' true string_ escaped
              else keep
          | [] => keep
          end
        else keep
  end.

Definition strip_preprocessor_comments (line : bytes) (block_comment : bool) : bytes * bool :=
  strip_comments line block_comment false false.

(** The text after the first backquote outside strings. *)
Fixpoint after_backquote (previous_backslash string_ : bool) (line : bytes) : option bytes :=
  match line with
  | [] => None
  | b :: rest =>
      if Ascii.eqb b quote && negb previous_backslash then
        after_backquote (Ascii.eqb b backslash) (negb string_) rest
      else if negb string_ && Ascii.eqb b "`" then Some rest
      else after_backquote (Ascii.eqb b backslash) string_ rest
  end.

Definition preprocessor_directive (line : bytes) : option (bytes * bytes) :=
  match after_backquote false false line with
  | None => None
  | Some rest => let '(name, after) := take_identifier rest in Some (name, trim_start after)
  end.

(** ** Definitions of macros *)

(** The formal names after an opening parenthesis, and the text after the
    closing one. *)
Fixpoint macro_parameters (fuel : nat) (t : bytes) (params : list bytes) : option (list bytes * bytes) :=
  match fuel with
  | O => None
  | S fuel' =>
      match skip_ascii_white t with
      | [] => None
      | b :: rest =>
          if Ascii.eqb b ")" then Some (params, rest)
          else
            let '(name, after) := take_identifier (b :: rest) in
            match name with
            | [] => None
            | _ =>
                match skip_ascii_white after with
                | c :: after' =>
                    if Ascii.eqb c "," then macro_parameters fuel' after' (params ++ [name])
                    else if Ascii.eqb c ")" then Some (params ++ [name], after')
                    else None
                | [] => None
                end
            end
      end
  end.

Definition define_macro (arguments : bytes) (macros : MacroEnvironment) : MacroEnvironment :=
  match find_identifier arguments with
  | None => macros
  | Some (name, after) =>
      match after with
      | b :: rest =>
          if Ascii.eqb b "(" then
            match macro_parameters (length after) rest [] with
            | None => macros
            | Some (params, text) => <[name := mkMacro (Some params) (trim_start text)]> macros
            end
          else <[name := mkMacro None (skip_ascii_white after)]> macros
      | [] => <[name := mkMacro None []]> macros
      end
  end.

(** ** Expansion *)

(** The length of the character that starts with this byte. *)
Definition char_len (lead : ascii) : nat :=
  if ascii_code lead <? 128 then 1 else if ascii_code lead <? 224 then 2
  else if ascii_code lead <? 240 then 3 else 4.

(** The arguments of a call after its parenthesis, and the text after it. *)
Fixpoint macro_call_arguments (t : bytes) (previous : ascii) (depth : nat) (string_ : bool)
    (argument : bytes) (arguments : list bytes) : option (list bytes * bytes) :=
  match t with
  | [] => None
  | b :: rest =>
      if string_ then
        let string_' := negb (Ascii.eqb b quote && negb (Ascii.eqb previous backslash)) in
        macro_call_arguments rest b depth string_' (argument ++ [b]) arguments
      else if Ascii.eqb b quote then macro_call_arguments rest b depth true (argument ++ [b]) arguments
      else if Ascii.eqb b "(" then macro_call_arguments rest b (S depth) false (argument ++ [b]) arguments
      else if Ascii.eqb b ")" then
        match depth with
        | S (S depth') => macro_call_arguments rest b (S depth') false (argument ++ [b]) arguments
        | _ =>
            let arguments' := match argument, arguments with
                              | [], [] => []
                              | _, _ => arguments ++ [argument]
                              end in
            Some (arguments', rest)
        end
      else if Ascii.eqb b "," && Nat.eqb depth 1 then
        macro_call_arguments rest b depth false [] (arguments ++ [argument])
      else macro_call_arguments rest b depth false (argument ++ [b]) arguments
  end.

(** The position of a formal name. *)
Fixpoint position (params : list bytes) (name : bytes) : option nat :=
  match params with
  | [] => None
  | p :: rest => if bool_decide (p = name) then Some 0%nat else S <$> position rest name
  end.

Fixpoint substitute_loop (fuel : nat) (params arguments : list bytes) (t output : bytes) : B bytes :=
  match t with
  | [] => ret output
  | b :: rest =>
      match fuel with
      | O => fun _ => NoFuel
      | S fuel' =>
          step ;;;
          if negb (is_ascii b) then
            let* output := push_str output (take (char_len b) t) in
            substitute_loop fuel' params arguments (drop (char_len b) t) output
          else if negb (is_macro_identifier_start b) then
            let* output := push_str output [b] in
            substitute_loop fuel' params arguments rest output
          else
            let '(name, after) := take_identifier t in
            let* output :=
              match position params name with
              | Some i => match arguments !! i with
                          | Some argument => push_str output argument
                          | None => panic "index out of bounds"
                          end
              | None => push_str output name
              end in
            substitute_loop fuel' params arguments after output
      end
  end.

Definition substitute_macro_arguments (t : bytes) (params arguments : list bytes) : B bytes :=
  substitute_loop (length t) params arguments t [].

(** What an occurrence of a macro name that is not expanded leaves. *)
Definition unexpanded (output name : bytes) : B bytes :=
  let* output := push_str output [("`")%char] in push_str output name.

Fixpoint map_m {A C} (f : A -> B C) (xs : list A) : B (list C) :=
  match xs with
  | [] => ret []
  | x :: xs' => let* y := f x in let* ys := map_m f xs' in ret (y :: ys)
  end.

Section Expand.
Context (macros : MacroEnvironment).

(** An invocation of a defined macro that is not being expanded: the output
    and the text after it. [expand] expands at the next depth. *)
Definition expand_call (expand : list bytes -> bytes -> B bytes) (stack : list bytes) (name after output : bytes)
    (d : MacroDefinition) : B (bytes * bytes) :=
  match parameters d with
  | None =>
      let* expanded := expand (stack ++ [name]) (body d) in
      let* output := push_str output expanded in
      ret (output, after)
  | Some params =>
      match after with
      | b :: rest =>
          if Ascii.eqb b "(" then
            match macro_call_arguments rest b 1 false [] [] with
            | None => let* output := unexpanded output name in ret (output, after)
            | Some (arguments, tail) =>
                if Nat.eqb (length arguments) (length params) then
                  let* expanded_arguments := map_m (expand stack) arguments in
                  let* substituted := substitute_macro_arguments (body d) params expanded_arguments in
                  let* expanded := expand (stack ++ [name]) substituted in
                  let* output := push_str output expanded in
                  ret (output, tail)
                else let* output := unexpanded output name in ret (output, after)
            end
          else let* output := unexpanded output name in ret (output, after)
      | [] => let* output := unexpanded output name in ret (output, after)
      end
  end.

(** The loop over a text at one depth. *)
Fixpoint expand_loop (expand : list bytes -> bytes -> B bytes) (fuel : nat) (stack : list bytes) (t output : bytes)
  : B bytes :=
  match t with
  | [] => ret output
  | b :: rest =>
      match fuel with
      | O => fun _ => NoFuel
      | S fuel' =>
          step ;;;
          if negb (is_ascii b) then
            let* output := push_str output (take (char_len b) t) in
            expand_loop expand fuel' stack (drop (char_len b) t) output
          else if Ascii.eqb b "`" then
            match rest with
            | c :: rest' =>
                if Ascii.eqb c quote then
                  let* output := push_str output [quote] in
                  expand_loop expand fuel' stack rest' output
                else if Ascii.eqb c "`" then expand_loop expand fuel' stack rest' output
                else if is_macro_identifier_start c then
                  let '(name, after) := take_identifier rest in
                  match macros !! name with
                  | None =>
                      let* output := unexpanded output name in
                      expand_loop expand fuel' stack after output
                  | Some d =>
                      if existsb (fun active => bool_decide (active = name)) stack then
                        let* output := unexpanded output name in
                        expand_loop expand fuel' stack after output
                      else
                        let* (output, after) := expand_call expand stack name after output d in
                        expand_loop expand fuel' stack after output
                  end
                else
                  let* output := push_str output [b] in
                  expand_loop expand fuel' stack rest output
            | [] =>
                let* output := push_str output [b] in
                expand_loop expand fuel' stack rest output
            end
          else if is_macro_identifier_start b then
            let '(name, after) := take_identifier t in
            let* output := push_str output name in
            expand_loop expand fuel' stack after output
          else
            let* output := push_str output [b] in
            expand_loop expand fuel' stack rest output
      end
  end.

(** [depth_left] is the depth limit plus one less the depth. *)
Fixpoint expand_macro_text (depth_left : nat) (stack : list bytes) (t : bytes) : B bytes :=
  step ;;;
  match depth_left with
  | O => push_str [] t
  | S left' => expand_loop (expand_macro_text left') (length t) stack t []
  end.

Definition expand_macros (t : bytes) : B bytes := expand_macro_text (S MAX_MACRO_EXPANSION_DEPTH) [] t.
End Expand.

(** ** Includes *)

Fixpoint unescape_include_name (value : bytes) (escaped : bool) : bytes :=
  match value with
  | [] => if escaped then [backslash] else []
  | b :: rest =>
      if escaped then b :: unescape_include_name rest false
      else if Ascii.eqb b backslash then unescape_include_name rest true
      else b :: unescape_include_name rest false
  end.

(** The raw name before the closing delimiter; in quotes a backslash hides the
    byte after it. *)
Fixpoint raw_target (closing : ascii) (t : bytes) : option bytes :=
  match t with
  | [] => None
  | b :: rest =>
      if Ascii.eqb closing quote && Ascii.eqb b backslash then
        match rest with
        | c :: rest' => (fun raw => b :: c :: raw) <$> raw_target closing rest'
        | [] => None
        end
      else if Ascii.eqb b closing then Some []
      else if Ascii.eqb b newline || Ascii.eqb b carriage_return then None
      else cons b <$> raw_target closing rest
  end.

Definition parsed_include_target (expanded : bytes) : option bytes :=
  match trim_start expanded with
  | b :: rest =>
      if Ascii.eqb b quote then (fun raw => unescape_include_name raw false) <$> raw_target quote rest
      else if Ascii.eqb b "<" then raw_target ">" rest
      else None
  | [] => None
  end.

Definition include_target (macros : MacroEnvironment) (arguments : bytes) : B (option bytes) :=
  let* expanded := expand_macros macros arguments in
  ret (parsed_include_target expanded).

Definition expanded_include_target (macros : MacroEnvironment) (line : bytes) : B (option bytes) :=
  let* expanded := expand_macros macros line in
  ret (match preprocessor_directive expanded with
       | Some (directive, arguments) =>
           if bool_decide (directive = unstr "include") then parsed_include_target arguments else None
       | None => None
       end).

Definition frames_active (conditions : list ConditionalFrame) : bool :=
  match conditions with frame :: _ => active frame | [] => true end.

Definition defines_name (macros : MacroEnvironment) (arguments : bytes) : bool :=
  match first_macro_identifier arguments with
  | Some name => match macros !! name with Some _ => true | None => false end
  | None => false
  end.

(** The conditional directives of the include scan; [None] for the others. *)
Definition scan_condition (macros : MacroEnvironment) (directive arguments : bytes)
    (conditions : list ConditionalFrame) : option (list ConditionalFrame) :=
  if bool_decide (directive = unstr "ifdef") || bool_decide (directive = unstr "ifndef") then
    let outer := frames_active conditions in
    let defined := defines_name macros arguments in
    let condition := if bool_decide (directive = unstr "ifdef") then defined else negb defined in
    Some (mkConditional outer (outer && condition) (outer && condition) false :: conditions)
  else if bool_decide (directive = unstr "elsif") then
    Some (match conditions with
          | [] => []
          | frame :: rest =>
              if negb (parent_active frame) || branch_taken frame then
                mkConditional (parent_active frame) (branch_taken frame) false (seen_else frame) :: rest
              else
                let condition := defines_name macros arguments in
                mkConditional (parent_active frame) condition condition (seen_else frame) :: rest
          end)
  else if bool_decide (directive = unstr "else") then
    Some (match conditions with
          | [] => []
          | frame :: rest =>
              mkConditional (parent_active frame) true (parent_active frame && negb (branch_taken frame))
                (seen_else frame) :: rest
          end)
  else if bool_decide (directive = unstr "endif") then Some (drop 1 conditions)
  else None.

(** The include scan, over the state [S] of the callback. *)
Section Scan.
Context {S : Type}.
Context (on_include : bytes -> MacroEnvironment -> M StartupError (MacroExpansionBudget * S) MacroEnvironment).

Definition with_budget {A} (m : B A) : M StartupError (MacroExpansionBudget * S) A :=
  zoom fst (fun s b => (b, s.2)) m.

Definition offer_target (target : option bytes) (macros : MacroEnvironment)
  : M StartupError (MacroExpansionBudget * S) MacroEnvironment :=
  match target with Some t => on_include t macros | None => ret macros end.

Record ScanState : Type := mkScan {
  scan_macros : MacroEnvironment;
  conditions : list ConditionalFrame;
  block_comment : bool;
}.

Definition scan_include_line (st : ScanState) (raw_line : bytes)
  : M StartupError (MacroExpansionBudget * S) ScanState :=
  let '(line, open) := strip_preprocessor_comments raw_line (block_comment st) in
  let macros := scan_macros st in
  match preprocessor_directive line with
  | None => ret (mkScan macros (conditions st) open)
  | Some (directive, arguments) =>
      match scan_condition macros directive arguments (conditions st) with
      | Some conditions' => ret (mkScan macros conditions' open)
      | None =>
          if negb (frames_active (conditions st)) then ret (mkScan macros (conditions st) open)
          else if bool_decide (directive = unstr "define") then
            ret (mkScan (define_macro arguments macros) (conditions st) open)
          else if bool_decide (directive = unstr "undef") then
            ret (mkScan (match first_macro_identifier arguments with
                         | Some name => delete name macros
                         | None => macros
                         end) (conditions st) open)
          else if bool_decide (directive = unstr "undefineall") then ret (mkScan ∅ (conditions st) open)
          else if bool_decide (directive = unstr "include") then
            let* target := with_budget (include_target macros arguments) in
            let* macros := offer_target target macros in
            ret (mkScan macros (conditions st) open)
          else
            let* target := with_budget (expanded_include_target macros line) in
            let* macros := offer_target target macros in
            ret (mkScan macros (conditions st) open)
      end
  end.

Definition scan_preprocessor_includes (source : bytes) (macros : MacroEnvironment)
  : M StartupError (MacroExpansionBudget * S) MacroEnvironment :=
  let* st := fold_m scan_include_line (map snd (logical_preprocessor_lines source)) (mkScan macros [] false) in
  ret (scan_macros st).
End Scan.

(** * Expansion ends within its budget

    Expansion returns or reports the limit: no loop runs out of fuel, no
    argument is out of range, and everything written was charged. A larger
    budget changes nothing but whether the limit is reached. *)

(** [m] returns a value that satisfies [Q], having charged [w] bytes or more for
    it, or reports the limit; nothing is given back. *)
Definition spends {A} (Q : A -> Prop) (w : A -> Z) (m : B A) : Prop :=
  forall b,
    match m b with
    | Done (a, b') =>
        Q a /\ w a <= budget_bytes b - budget_bytes b' /\ budget_work b' <= budget_work b
        /\ (0 <= budget_bytes b -> 0 <= budget_bytes b')
    | Fail e => e = expansion_limit
    | Panic _ | NoFuel => False
    end.

Lemma spends_ret {A} (Q : A -> Prop) (w : A -> Z) a : Q a -> w a <= 0 -> spends Q w (ret a).
Proof. intros H Hw b. cbn. split_and!; [done | lia | lia | lia]. Qed.

Lemma spends_bind {A C} (P : A -> Prop) (Q : C -> Prop) (w : A -> Z) (w' : C -> Z) (m : B A) (k : A -> B C) :
  spends P w m -> (forall a, P a -> spends Q (fun c => w' c - w a) (k a)) -> spends Q w' (bind m k).
Proof.
  intros Hm Hk b. unfold bind. specialize (Hm b). destruct (m b) as [[a b'] | e | |]; [| done | done | done].
  destruct Hm as (Ha & Hw & Hb & Hn). specialize (Hk a Ha b').
  destruct (k a b') as [[c b''] | e | |]; [| done | done | done].
  destruct Hk as (Hc & Hw' & Hb' & Hn'). split_and!; [done | lia | lia | lia].
Qed.

Lemma spends_weaken {A} (P Q : A -> Prop) (w w' : A -> Z) m :
  spends P w m -> (forall a, P a -> Q a /\ w' a <= w a) -> spends Q w' m.
Proof.
  intros Hm H b. specialize (Hm b). destruct (m b) as [[a b'] | e | |]; [| done | done | done].
  destruct Hm as (Ha & Hw & Hb & Hn). destruct (H a Ha). split_and!; [done | lia | lia | done].
Qed.

Lemma spends_step : spends (fun _ => True) (fun _ => 0) step.
Proof.
  intros b. unfold step. destruct (budget_work b <? 1); [done |].
  cbn. split_and!; [done | lia | lia | lia].
Qed.

Lemma spends_push output value :
  spends (fun out => out = output ++ value) (fun _ => len value) (push_str output value).
Proof.
  intros b. unfold push_str, bind, charge_bytes. destruct (Z.ltb_spec (budget_bytes b) (len value)); [done |].
  cbn. split_and!; [done | lia | lia | lia].
Qed.

(** The length written after [output]. *)
Definition written (output out : bytes) : Z := len out - len output.

Lemma spends_push_written output value :
  spends (fun out => exists v, out = output ++ v) (written output) (push_str output value).
Proof.
  eapply spends_weaken; [apply spends_push |]. intros out ->. split; [eauto |].
  unfold written, len. rewrite length_app. lia.
Qed.

Lemma len_app {A} (a b : list A) : len (a ++ b) = len a + len b.
Proof. unfold len. rewrite length_app. lia. Qed.

(** Output grows: the result of a loop extends the output it started with. *)
Definition extends (output out : bytes) : Prop := exists v, out = output ++ v.

Lemma extends_trans a b c : extends a b -> extends b c -> extends a c.
Proof. intros (v & ->) (u & ->). exists (v ++ u). by rewrite app_assoc. Qed.

Lemma spends_then output (m : B bytes) (k : bytes -> B bytes) :
  spends (extends output) (written output) m ->
  (forall out, extends output out -> spends (extends out) (written out) (k out)) ->
  spends (extends output) (written output) (bind m k).
Proof.
  intros Hm Hk. eapply spends_bind; [exact Hm |]. intros out Ho.
  eapply spends_weaken; [by apply Hk |]. intros out' Ho'. split; [by eapply extends_trans |].
  unfold written. lia.
Qed.

Lemma spends_unexpanded output name : spends (extends output) (written output) (unexpanded output name).
Proof. apply spends_then; [apply spends_push_written |]. intros out _. apply spends_push_written. Qed.

Lemma spends_stepped output (m : B bytes) :
  spends (extends output) (written output) m -> spends (extends output) (written output) (step ;;; m).
Proof.
  intros H. eapply spends_bind; [apply spends_step |]. intros [] _. eapply spends_weaken; [exact H |].
  intros out Ho. split; [done | lia].
Qed.

Lemma extends_refl output : extends output output.
Proof. exists []. by rewrite app_nil_r. Qed.

Lemma spends_done output : spends (extends output) (written output) (ret output).
Proof. apply spends_ret; [apply extends_refl | unfold written; lia]. Qed.

(** ** What is consumed *)

Lemma take_identifier_length t : (length (take_identifier t).1 + length (take_identifier t).2 = length t)%nat.
Proof.
  induction t as [| b t IH]; [done |]. cbn. destruct (is_macro_identifier_continue b); [| done].
  destruct (take_identifier t) as [name after]. cbn in *. lia.
Qed.

Lemma identifier_progress b t :
  is_macro_identifier_start b = true -> (length (take_identifier (b :: t)).2 <= length t)%nat.
Proof.
  intros H. pose proof (take_identifier_length (b :: t)) as L. cbn in L |- *.
  unfold is_macro_identifier_continue in *. rewrite H in *. cbn in *.
  destruct (take_identifier t) as [name after]. cbn in *. lia.
Qed.

Lemma char_len_pos b : (1 <= char_len b)%nat.
Proof. unfold char_len. repeat case_match; lia. Qed.

Lemma drop_char_length b t : (length (drop (char_len b) (b :: t)) <= length t)%nat.
Proof. pose proof (char_len_pos b). rewrite length_drop. cbn. lia. Qed.

Lemma call_arguments_length t previous depth string_ argument arguments args tail :
  macro_call_arguments t previous depth string_ argument arguments = Some (args, tail) ->
  (length tail <= length t)%nat.
Proof.
  revert previous depth string_ argument arguments. induction t as [| b t IH];
    intros previous depth string_ argument arguments H; cbn in H; [done |].
  repeat (case_match; try (apply IH in H; cbn; lia)); simplify_eq; cbn; lia.
Qed.

(** ** Substitution *)

Lemma position_bound params name i : position params name = Some i -> (i < length params)%nat.
Proof.
  revert i. induction params as [| p params IH]; intros i; cbn; [done |].
  case_bool_decide; [intros [= <-]; lia |]. destruct (position params name) as [j |] eqn:E; [| done].
  intros [= <-]. specialize (IH j eq_refl). lia.
Qed.

Lemma substitute_spends fuel params arguments t output :
  length arguments = length params -> (length t <= fuel)%nat ->
  spends (extends output) (written output) (substitute_loop fuel params arguments t output).
Proof.
  intros Ha. revert t output. induction fuel as [| fuel IH]; intros t output Hf; destruct t as [| b t];
    cbn [substitute_loop]; [apply spends_done | cbn in Hf; lia | apply spends_done |].
  cbn [length] in Hf. apply spends_stepped. destruct (negb (is_ascii b)).
  { apply spends_then; [apply spends_push_written |]. intros out _. apply IH.
    pose proof (drop_char_length b t). lia. }
  destruct (negb (is_macro_identifier_start b)) eqn:Es.
  { apply spends_then; [apply spends_push_written |]. intros out _. apply IH. lia. }
  apply negb_false_iff in Es. pose proof (identifier_progress b t Es) as Hp.
  destruct (take_identifier (b :: t)) as [name after]. cbn [snd] in Hp.
  apply spends_then; [| intros out _; apply IH; lia].
  destruct (position params name) as [i |] eqn:E; [| apply spends_push_written].
  apply position_bound in E. rewrite <- Ha in E. apply lookup_lt_is_Some_2 in E as [a ->].
  apply spends_push_written.
Qed.

(** ** Expansion *)

(** An expander that writes only what it charges. *)
Definition expander (expand : list bytes -> bytes -> B bytes) : Prop :=
  forall stack t, spends (fun _ => True) (fun out => len out) (expand stack t).

Lemma spends_map {A C} (f : A -> B C) xs :
  (forall x, spends (fun _ => True) (fun _ => 0) (f x)) ->
  spends (fun ys => length ys = length xs) (fun _ => 0) (map_m f xs).
Proof.
  intros Hf. induction xs as [| x xs IH]; cbn [map_m]; [by apply spends_ret |].
  eapply spends_bind; [apply Hf |]. intros y _. eapply spends_bind; [exact IH |]. intros ys Hy.
  apply spends_ret; [cbn; by rewrite Hy | lia].
Qed.

Lemma len_nonneg {A} (l : list A) : 0 <= len l.
Proof. unfold len. lia. Qed.

(** The output and rest of a call. *)
Lemma expand_call_spends expand stack name after output d :
  expander expand ->
  spends (fun oa => extends output oa.1 /\ (length oa.2 <= length after)%nat) (fun oa => written output oa.1)
    (expand_call expand stack name after output d).
Proof.
  intros He.
  assert (Hun : forall rest : bytes, (length rest <= length after)%nat ->
    spends (fun oa => extends output oa.1 /\ (length oa.2 <= length after)%nat) (fun oa => written output oa.1)
      (let* output := unexpanded output name in ret (output, rest))).
  { intros rest Hr. eapply spends_bind; [apply spends_unexpanded |]. intros out Ho.
    apply spends_ret; [done | cbn; lia]. }
  assert (Hex : forall stack' t (rest : bytes), (length rest <= length after)%nat ->
    spends (fun oa => extends output oa.1 /\ (length oa.2 <= length after)%nat) (fun oa => written output oa.1)
      (let* expanded := expand stack' t in let* output := push_str output expanded in ret (output, rest))).
  { intros stack' t rest Hr. eapply spends_bind; [apply He |]. intros ex _.
    eapply spends_bind; [apply spends_push_written |]. intros out Ho. apply spends_ret; [done |].
    pose proof (len_nonneg ex). cbn. lia. }
  unfold expand_call. destruct (parameters d) as [params |]; [| by apply Hex].
  destruct after as [| b rest]; [by apply Hun |]. destruct (Ascii.eqb b "("); [| by apply Hun].
  destruct (macro_call_arguments rest b 1 false [] []) as [[args tail] |] eqn:E; [| by apply Hun].
  destruct (Nat.eqb_spec (length args) (length params)) as [El |]; [| by apply Hun].
  apply call_arguments_length in E.
  eapply spends_bind; [apply (spends_map (expand stack)); intros x; eapply spends_weaken; [apply He |];
    intros out _; split; [done | apply len_nonneg] |]. intros args' Ha.
  eapply spends_bind; [apply (substitute_spends _ params args' (body d) []); [congruence | done] |].
  intros sub _. eapply spends_weaken; [apply Hex; cbn; lia |]. intros oa Hoa. split; [done |].
  unfold written, len. cbn. lia.
Qed.

Lemma expand_loop_spends macros expand fuel stack t output :
  expander expand -> (length t <= fuel)%nat ->
  spends (extends output) (written output) (expand_loop macros expand fuel stack t output).
Proof.
  intros He. revert t output. induction fuel as [| fuel IH]; intros t output Hf; destruct t as [| b t];
    cbn [expand_loop]; [apply spends_done | cbn in Hf; lia | apply spends_done |].
  cbn [length] in Hf. apply spends_stepped.
  assert (Hpush : forall v (rest : bytes), (length rest <= fuel)%nat ->
    spends (extends output) (written output)
      (let* output := push_str output v in expand_loop macros expand fuel stack rest output)).
  { intros v rest Hr. apply spends_then; [apply spends_push_written |]. intros out _. by apply IH. }
  assert (Hun : forall name (rest : bytes), (length rest <= fuel)%nat ->
    spends (extends output) (written output)
      (let* output := unexpanded output name in expand_loop macros expand fuel stack rest output)).
  { intros name rest Hr. apply spends_then; [apply spends_unexpanded |]. intros out _. by apply IH. }
  destruct (negb (is_ascii b)); [apply Hpush; pose proof (drop_char_length b t); lia |].
  destruct (Ascii.eqb b "`").
  - destruct t as [| c t']; [apply Hpush; cbn; lia |]. cbn [length] in Hf.
    destruct (Ascii.eqb c quote); [apply Hpush; lia |]. destruct (Ascii.eqb c "`"); [apply IH; lia |].
    destruct (is_macro_identifier_start c) eqn:Es; [| apply Hpush; cbn; lia].
    pose proof (identifier_progress c t' Es) as Hp. destruct (take_identifier (c :: t')) as [name after].
    cbn [snd] in Hp. destruct (macros !! name) as [d |]; [| apply Hun; lia].
    destruct (existsb _ stack); [apply Hun; lia |].
    eapply spends_bind; [by apply expand_call_spends |]. intros [out rest] [Ho Hr]. cbn in Ho, Hr.
    eapply spends_weaken; [apply IH; lia |]. intros out' Ho'. split; [by eapply extends_trans |].
    unfold written. cbn. lia.
  - destruct (is_macro_identifier_start b) eqn:Es; [| apply Hpush; lia].
    pose proof (identifier_progress b t Es) as Hp. destruct (take_identifier (b :: t)) as [name after].
    cbn [snd] in Hp. apply Hpush. lia.
Qed.

Lemma expand_expander macros depth_left : expander (expand_macro_text macros depth_left).
Proof.
  induction depth_left as [| left' IH]; intros stack t; cbn [expand_macro_text];
    (eapply spends_bind; [apply spends_step |]; intros [] _).
  - eapply spends_weaken; [apply spends_push |]. intros out ->. split; [done |]. cbn. lia.
  - eapply spends_weaken; [by apply (expand_loop_spends macros _ _ _ _ [])|]. intros out _. split; [done |].
    unfold written, len. cbn. lia.
Qed.

(** ** Text without macros *)

Definition no_backquote (t : bytes) : bool := forallb (fun b => negb (Ascii.eqb b "`")) t.

Lemma take_identifier_app t : t = (take_identifier t).1 ++ (take_identifier t).2.
Proof.
  induction t as [| b t IH]; [done |]. cbn. destruct (is_macro_identifier_continue b); [| done].
  destruct (take_identifier t) as [name after]. cbn in *. by f_equal.
Qed.

Lemma expand_loop_plain macros expand fuel stack t output :
  no_backquote t = true -> (length t <= fuel)%nat ->
  spends (fun out => out = output ++ t) (fun _ => 0) (expand_loop macros expand fuel stack t output).
Proof.
  revert t output. induction fuel as [| fuel IH]; intros t output Hn Hf; destruct t as [| b t];
    cbn [expand_loop]; [apply spends_ret; [by rewrite app_nil_r | lia] | cbn in Hf; lia
                       | apply spends_ret; [by rewrite app_nil_r | lia] |].
  cbn [length] in Hf. eapply spends_bind; [apply spends_step |]. intros [] _.
  assert (Hpush : forall v rest : bytes, v ++ rest = b :: t -> (length rest <= fuel)%nat ->
    spends (fun out => out = output ++ b :: t) (fun _ => 0 - 0)
      (let* output := push_str output v in expand_loop macros expand fuel stack rest output)).
  { intros v rest E Hr. eapply spends_bind; [apply spends_push |]. intros out ->.
    eapply spends_weaken; [apply IH; [| done] |].
    - rewrite <- E in Hn. unfold no_backquote in Hn |- *. rewrite forallb_app in Hn.
      by apply andb_prop in Hn as [].
    - intros out ->. split; [by rewrite <- app_assoc, E |]. pose proof (len_nonneg v). lia. }
  destruct (negb (is_ascii b)); [apply Hpush; [apply take_drop | pose proof (drop_char_length b t); lia] |].
  unfold no_backquote in Hn. cbn in Hn. apply andb_prop in Hn as [->%negb_true_iff _].
  destruct (is_macro_identifier_start b) eqn:Es; [| apply Hpush; [done | lia]].
  pose proof (identifier_progress b t Es) as Hp. pose proof (take_identifier_app (b :: t)) as Ha.
  destruct (take_identifier (b :: t)) as [name after]. cbn [fst snd] in Hp, Ha. apply Hpush; [by rewrite Ha | lia].
Qed.

Lemma expand_plain macros t b out b' :
  no_backquote t = true -> expand_macros macros t b = Done (out, b') -> out = t.
Proof.
  intros Hn. unfold expand_macros. cbn [expand_macro_text]. unfold bind, step.
  destruct (budget_work b <? 1); [done |]. intros E.
  pose proof (expand_loop_plain macros (expand_macro_text macros MAX_MACRO_EXPANSION_DEPTH) (length t) [] t [] Hn
                (Nat.le_refl _) (mkMacroBudget (budget_bytes b) (budget_work b - 1))) as H.
  rewrite E in H. by destruct H.
Qed.

(** ** Larger budgets *)

Definition more (b : MacroExpansionBudget) (extra_bytes extra_work : Z) : MacroExpansionBudget :=
  mkMacroBudget (budget_bytes b + extra_bytes) (budget_work b + extra_work).

Definition steady {A} (m : B A) : Prop :=
  forall b a c eb ew, 0 <= eb -> 0 <= ew -> m b = Done (a, c) -> m (more b eb ew) = Done (a, more c eb ew).

Lemma steady_ret {A} (a : A) : steady (ret a).
Proof. intros b x c eb ew _ _ [= <- <-]. done. Qed.

Lemma steady_bind {A C} (m : B A) (k : A -> B C) : steady m -> (forall a, steady (k a)) -> steady (bind m k).
Proof.
  intros Hm Hk b x c eb ew He Hw. unfold bind. destruct (m b) as [[a b'] | | |] eqn:E; [| done | done | done].
  rewrite (Hm b a b' eb ew) by done. by apply Hk.
Qed.

Lemma steady_step : steady step.
Proof.
  intros b x c eb ew He Hw. unfold step. destruct (Z.ltb_spec (budget_work b) 1); [done |]. intros [= <- <-].
  cbn. destruct (Z.ltb_spec (budget_work b + ew) 1); [lia |]. unfold more. cbn. do 3 f_equal. lia.
Qed.

Lemma steady_charge n : steady (charge_bytes n).
Proof.
  intros b x c eb ew He Hw. unfold charge_bytes. destruct (Z.ltb_spec (budget_bytes b) n); [done |]. intros [= <- <-].
  cbn. destruct (Z.ltb_spec (budget_bytes b + eb) n); [lia |]. unfold more. cbn. do 3 f_equal. lia.
Qed.

Lemma steady_push output value : steady (push_str output value).
Proof. apply steady_bind; [apply steady_charge | intros; apply steady_ret]. Qed.

Lemma steady_never {A} (o : outcome StartupError (A * MacroExpansionBudget)) :
  (forall r, o <> Done r) -> steady (fun _ => o).
Proof. intros H b x c eb ew _ _ E. by destruct (H (x, c)). Qed.

Create HintDb steady.
#[export] Hint Resolve steady_ret steady_step steady_push : steady.
#[export] Hint Extern 1 (steady (fun _ => _)) => apply steady_never; congruence : steady.
#[export] Hint Extern 1 (steady (panic _)) => apply steady_never; congruence : steady.
#[export] Hint Extern 2 (steady (bind _ _)) => apply steady_bind; [| intros ?] : steady.
#[export] Hint Extern 3 (steady (match ?x with _ => _ end)) => destruct x : steady.

Lemma substitute_steady fuel params arguments t output : steady (substitute_loop fuel params arguments t output).
Proof.
  revert t output. induction fuel as [| fuel IH]; intros t output; destruct t as [| b t]; cbn [substitute_loop];
    auto 12 with steady.
Qed.

Lemma map_steady {A C} (f : A -> B C) xs : (forall x, steady (f x)) -> steady (map_m f xs).
Proof. intros Hf. induction xs as [| x xs IH]; cbn [map_m]; auto 8 with steady. Qed.

Lemma unexpanded_steady output name : steady (unexpanded output name).
Proof. unfold unexpanded. auto 8 with steady. Qed.

#[export] Hint Resolve substitute_steady unexpanded_steady : steady.

Lemma expand_call_steady expand stack name after output d :
  (forall stack t, steady (expand stack t)) -> steady (expand_call expand stack name after output d).
Proof.
  intros He. pose proof (map_steady (expand stack)) as Hm. unfold expand_call, substitute_macro_arguments.
  auto 20 with steady.
Qed.

Lemma expand_loop_steady macros expand fuel stack t output :
  (forall stack t, steady (expand stack t)) -> steady (expand_loop macros expand fuel stack t output).
Proof.
  intros He. pose proof (expand_call_steady expand) as Hc. revert t output.
  induction fuel as [| fuel IH]; intros t output; destruct t as [| b t]; cbn [expand_loop]; auto 20 with steady.
Qed.

Lemma expand_steady macros depth_left stack t : steady (expand_macro_text macros depth_left stack t).
Proof.
  revert stack t. induction depth_left as [| left' IH]; intros stack t; cbn [expand_macro_text];
    pose proof (expand_loop_steady macros) as Hl; auto 8 with steady.
Qed.
