(* ===== verification/MapParse.v ===== *)
(** * The text of library maps

    Preprocessing, tokens and declarations of library maps
    ([src/core/compile.rs]), and the spans of configurations within them
    ([src/core/compile/library_configs.rs]). *)

From Stdlib Require Import ZArith Lia Ascii String.
From stdpp Require Import base list gmap strings.
From S2P Require Import Prelude Names MapWork MapPaths MapBuffers Macros.
Open Scope Z_scope.
Open Scope list_scope.

Inductive LanguageEdition : Type := Verilog2001 | SystemVerilog2009.

(** ** Preprocessing *)

(** A macro computation within a charged one. *)
Definition with_macros {A} (m : B A) (budget : MacroExpansionBudget) : W (A * MacroExpansionBudget) := fun work =>
  match m budget with
  | Done r => Done (r, work)
  | Fail e => Fail e
  | Panic why => Panic why
  | NoFuel => NoFuel
  end.

Record MapState : Type := mkMapState {
  map_macros : MacroEnvironment;
  map_conditions : list ConditionalFrame;
  map_budget : MacroExpansionBudget;
  map_output : bytes;
  map_comment : bool;
}.

Definition DIRECTIVE_NAMES : list bytes :=
  map unstr ["define"; "undef"; "undefineall"; "include"; "ifdef"; "ifndef"; "elsif"; "else"; "endif";
             "resetall"; "timescale"; "default_nettype"; "celldefine"; "endcelldefine"; "line";
             "begin_keywords"; "end_keywords"; "pragma"]%string.

Definition map_error {A} (line_number : Z) (text : string) : W A :=
  invalid ("library map line " +:+ dec line_number +:+ ": " +:+ text).

(** What a line does: to the macros, the conditions, and the text it emits. *)
Record LineEffect : Type := mkEffect {
  new_macros : MacroEnvironment;
  new_conditions : list ConditionalFrame;
  new_budget : MacroExpansionBudget;
  emitted : option bytes;
}.

Definition is_directive (directive : option (bytes * bytes)) (names : list string) : bool :=
  match directive with Some (name, _) => existsb (fun n => bool_decide (name = unstr n)) names | None => false end.

Definition arguments_of (directive : option (bytes * bytes)) : bytes :=
  match directive with Some (_, arguments) => arguments | None => [] end.

Definition defined (macros : MacroEnvironment) (name : bytes) : bool :=
  match macros !! name with Some _ => true | None => false end.

(** The conditional directives. *)
Definition map_condition (line_number : Z) (macros : MacroEnvironment) (conditions : list ConditionalFrame)
    (trimmed : bytes) (directive : option (bytes * bytes)) (outer : bool) : option (W (list ConditionalFrame)) :=
  let arguments := arguments_of directive in
  if is_directive directive ["ifdef"; "ifndef"]%string then Some
    (match first_macro_identifier arguments with
     | None => map_error line_number "conditional requires a macro name"
     | Some name =>
         let selected := Bool.eqb (defined macros name) (starts_with (unstr "`ifdef") trimmed) in
         ret (mkConditional outer (outer && selected) (outer && selected) false :: conditions)
     end)
  else if is_directive directive ["elsif"]%string then Some
    (match first_macro_identifier arguments with
     | None => map_error line_number "`elsif requires a macro name"
     | Some name =>
         match conditions with
         | [] => map_error line_number "`elsif without `ifdef"
         | frame :: rest =>
             if seen_else frame then map_error line_number "`elsif after `else"
             else
               let active' := parent_active frame && negb (branch_taken frame) && defined macros name in
               ret (mkConditional (parent_active frame) (branch_taken frame || active') active' (seen_else frame)
                    :: rest)
         end
     end)
  else if is_directive directive ["else"]%string then Some
    (match conditions with
     | [] => map_error line_number "`else without `ifdef"
     | frame :: rest =>
         if seen_else frame then map_error line_number "duplicate `else"
         else ret (mkConditional (parent_active frame) true (parent_active frame && negb (branch_taken frame)) true
                   :: rest)
     end)
  else if is_directive directive ["endif"]%string then Some
    (match conditions with
     | [] => map_error line_number "`endif without `ifdef"
     | _ :: rest => ret rest
     end)
  else None.

(** An active definition. *)
Definition map_define (line_number : Z) (macros : MacroEnvironment) (arguments : bytes) : W MacroEnvironment :=
  let arguments := trim_start arguments in
  match find_identifier arguments with
  | None => map_error line_number "`define requires a macro name"
  | Some (name, _) =>
      if negb (starts_with name arguments) then map_error line_number "`define requires a valid macro name"
      else
        let remainder := drop (length name) arguments in
        let malformed :=
          match remainder with
          | b :: rest => if Ascii.eqb b "(" then
                           match macro_parameters (length remainder) rest [] with None => true | Some _ => false end
                         else false
          | [] => false
          end in
        if malformed then map_error line_number "malformed function-like macro definition"
        else if existsb (fun n => bool_decide (name = n)) DIRECTIVE_NAMES then
          map_error line_number "compiler directive names cannot be redefined"
        else ret (define_macro arguments macros)
  end.

(** An active line of text. *)
Definition map_text (line_number : Z) (macros : MacroEnvironment) (budget : MacroExpansionBudget) (raw_line : bytes)
  : W (bytes * MacroExpansionBudget) :=
  let* (expanded, budget) := with_macros (expand_macros macros raw_line) budget in
  let '(visible, _) := strip_preprocessor_comments expanded false in
  match preprocessor_directive visible with
  | Some (name, _) =>
      map_error line_number
        (if defined macros name then "recursive or over-depth macro `" +:+ str name
         else "undefined macro `" +:+ str name)
  | None =>
      charge_usize (len expanded + 1) "expanded library map" ;;;
      charge_allocation_usize (len expanded + 1) "expanded library map" ;;;
      ret (expanded, budget)
  end.

Definition map_line_effect (edition : LanguageEdition) (st : MapState) (line_number : Z) (raw_line trimmed : bytes)
  : W LineEffect :=
  let macros := map_macros st in
  let conditions := map_conditions st in
  let budget := map_budget st in
  let directive := if starts_with (unstr "`") trimmed then preprocessor_directive trimmed else None in
  let outer := frames_active conditions in
  let arguments := arguments_of directive in
  match map_condition line_number macros conditions trimmed directive outer with
  | Some changed => let* conditions' := changed in ret (mkEffect macros conditions' budget None)
  | None =>
      if negb outer then ret (mkEffect macros conditions budget None)
      else if is_directive directive ["define"]%string then
        let* macros' := map_define line_number macros arguments in
        ret (mkEffect macros' conditions budget None)
      else if is_directive directive ["undef"]%string then
        match first_macro_identifier arguments with
        | None => map_error line_number "`undef requires a macro name"
        | Some name => ret (mkEffect (delete name macros) conditions budget None)
        end
      else if is_directive directive ["undefineall"]%string then
        match edition with
        | Verilog2001 => map_error line_number "`undefineall requires SystemVerilog-2009"
        | SystemVerilog2009 => ret (mkEffect ∅ conditions budget None)
        end
      else if is_directive directive ["include"]%string then
        map_error line_number "`include in a library map is unsupported; use a map include declaration"
      else
        let* (expanded, budget') := map_text line_number macros budget raw_line in
        ret (mkEffect macros conditions budget' (Some expanded))
  end.

Definition count_newlines (t : bytes) : nat := length (List.filter (Ascii.eqb newline) t).

Definition map_line (edition : LanguageEdition) (st : MapState) (numbered : Z * bytes) : W MapState :=
  let '(line_number, raw_line) := numbered in
  let '(line, open) := strip_preprocessor_comments raw_line (map_comment st) in
  let* effect := map_line_effect edition st line_number raw_line (trim_start line) in
  let newlines := match emitted effect with Some _ => 1%nat | None => (count_newlines raw_line + 1)%nat end in
  charge_usize (Z.of_nat newlines) "expanded library map lines" ;;;
  charge_allocation_usize (Z.of_nat newlines) "expanded library map lines" ;;;
  ret (mkMapState (new_macros effect) (new_conditions effect) (new_budget effect)
         (map_output st ++ default [] (emitted effect) ++ repeat newline newlines) open).

Definition preprocess_library_map (text : bytes) (defines : list bytes) (edition : LanguageEdition) : W bytes :=
  let* work := get in
  let st := mkMapState (macro_environment_from_defines defines) [] (new_macro_budget (allocation_limit work)) [] false in
  let* st := fold_m (map_line edition) (logical_preprocessor_lines text) st in
  match map_conditions st with
  | [] => ret (map_output st)
  | _ => invalid "library map has an unbalanced conditional directive"
  end.

(** ** Configurations *)

Definition malformed {A} (offset : nat) (text : string) : W A :=
  invalid ("library map configuration at byte " +:+ dec (Z.of_nat offset) +:+ ": " +:+ text).

(** The index after the run of bytes that satisfy [p]. *)
Fixpoint run_of (p : ascii -> bool) (t : bytes) : nat :=
  match t with b :: rest => if p b then S (run_of p rest) else O | [] => O end.

Definition advance_while (p : ascii -> bool) (t : bytes) (index : nat) : nat := (index + run_of p (drop index t))%nat.

(** The position of the end of a block comment. *)
Fixpoint close_comment (t : bytes) : option nat :=
  match t with
  | b :: rest =>
      match rest with
      | c :: _ => if Ascii.eqb b "*" && Ascii.eqb c "/" then Some 0%nat else S <$> close_comment rest
      | [] => None
      end
  | [] => None
  end.

Definition byte_is (t : bytes) (index : nat) (c : ascii) : bool := bool_decide (t !! index = Some c).

Fixpoint trivia (fuel : nat) (t : bytes) (index : nat) : W nat :=
  match t !! index with
  | None => ret index
  | Some b =>
      match fuel with
      | O => fun _ => NoFuel
      | S fuel' =>
          if is_ascii_whitespace b then trivia fuel' t (index + 1)
          else if Ascii.eqb b "/" && byte_is t (index + 1) "/" then
            trivia fuel' t (advance_while (fun c => negb (Ascii.eqb c newline)) t (index + 2))
          else if Ascii.eqb b "/" && byte_is t (index + 1) "*" then
            match close_comment (drop (index + 2) t) with
            | Some offset => trivia fuel' t (index + 2 + offset + 2)
            | None => malformed index "unterminated comment"
            end
          else ret index
      end
  end.

Definition identifier_byte (b : ascii) : bool :=
  is_ascii_alphanumeric b || Ascii.eqb b "_" || Ascii.eqb b "$".

Definition identifier_end (t : bytes) (index : nat) : nat :=
  if byte_is t index backslash then advance_while (fun b => negb (is_ascii_whitespace b)) t (index + 1)
  else advance_while identifier_byte t index.

(** The length of a string after its quote, with the closing quote. *)
Fixpoint string_close (t : bytes) : option nat :=
  match t with
  | [] => None
  | b :: rest =>
      if Ascii.eqb b quote then Some 1%nat
      else if Ascii.eqb b backslash then
        match rest with _ :: rest' => (fun n => (n + 2)%nat) <$> string_close rest' | [] => None end
      else S <$> string_close rest
  end.

Fixpoint declaration_loop (fuel : nat) (t : bytes) (start index : nat) : W nat :=
  if Nat.leb (length t) index then malformed start "missing endconfig"
  else
    match fuel with
    | O => fun _ => NoFuel
    | S fuel' =>
        let* index := trivia (length t) t index in
        match t !! index with
        | None => malformed start "missing endconfig"
        | Some b =>
            if Ascii.eqb b quote then
              match string_close (drop (index + 1) t) with
              | None => malformed index "unterminated string"
              | Some n => declaration_loop fuel' t start (index + 1 + n)
              end
            else if Ascii.eqb b backslash || is_ascii_alphabetic b || Ascii.eqb b "_" || Ascii.eqb b "$" then
              let stop := identifier_end t index in
              if bool_decide (take (stop - index) (drop index t) = unstr "endconfig") then
                let* next := trivia (length t) t stop in
                if byte_is t next ":" then
                  let* name := trivia (length t) t (next + 1) in
                  ret (identifier_end t name)
                else ret stop
              else declaration_loop fuel' t start stop
            else declaration_loop fuel' t start (index + 1)
        end
    end.

Definition declaration_end (text : bytes) (index : nat) : W nat := declaration_loop (length text) text index index.

Definition mask (t : bytes) : bytes :=
  map (fun b => if Ascii.eqb b carriage_return || Ascii.eqb b newline then b else " "%char) t.

(** The text with everything outside the ranges masked. *)
Fixpoint project_ranges (text : bytes) (ranges : list (nat * nat)) (previous : nat) : W bytes :=
  match ranges with
  | [] => ret (mask (drop previous text))
  | (start, stop) :: rest =>
      if Nat.ltb start previous || Nat.ltb stop start || Nat.ltb (length text) stop then
        fail (mkStartup Internal "invalid map configuration span")
      else
        let* tail := project_ranges text rest stop in
        ret (mask (take (start - previous) (drop previous text)) ++ take (stop - start) (drop start text) ++ tail)
  end.

Definition project (text : bytes) (declarations : list (nat * nat)) : W (option bytes) :=
  match declarations with
  | [] => ret None
  | _ =>
      charge_usize (len text) "configuration projection" ;;;
      charge_allocation_usize (len text) "configuration projection" ;;;
      let* out := project_ranges text declarations 0 in
      if utf8_valid out then ret (Some out)
      else fail (mkStartup Internal "invalid configuration projection UTF-8")
  end.

(** ** Tokens *)

Record LibraryMapToken : Type := mkToken {
  tok_value : bytes;
  quoted : bool;
  configuration : option (nat * nat);
  tok_offset : nat;
}.

Definition token_is (token : LibraryMapToken) (text : string) : bool := bool_decide (tok_value token = unstr text).

Definition push_library_map_token (tokens : list LibraryMapToken) (value : bytes) (range : option (nat * nat))
    (offset : nat) (operation : string) : W (list LibraryMapToken) :=
  charge_library_map_clone value operation ;;;
  ret (tokens ++ [mkToken value false range offset]).

Definition ends_token (b : ascii) : bool := is_ascii_whitespace b || Ascii.eqb b ";" || Ascii.eqb b ",".

Definition starts_library_map_line_comment (t : bytes) (index : nat) (path_context : bool) : bool :=
  if negb (byte_is t index "/" && byte_is t (index + 1) "/") then false
  else if negb path_context then true
  else
    match t !! (index + 2)%nat with
    | None => true
    | Some b =>
        if is_ascii_whitespace b then true
        else
          let content := drop (index + 2) t in
          negb (existsb separator (take (run_of (fun b => negb (ends_token b)) content) content))
    end.

(** Whether a block comment closes before the next semicolon or comma. *)
Fixpoint closes_in_token (t : bytes) : bool :=
  match t with
  | b :: rest =>
      match rest with
      | c :: _ =>
          if Ascii.eqb b ";" || Ascii.eqb b "," then false
          else if Ascii.eqb b "*" && Ascii.eqb c "/" then true
          else closes_in_token rest
      | [] => false
      end
  | [] => false
  end.

Definition starts_library_map_block_comment (t : bytes) (index : nat) : bool :=
  let content := drop (index + 2) t in
  match content with
  | b0 :: b1 :: b2 :: _ =>
      if Ascii.eqb b0 "*" && Ascii.eqb b1 "/" && (Ascii.eqb b2 "*" || Ascii.eqb b2 "?") then false
      else if is_ascii_whitespace b0 then true else closes_in_token content
  | b0 :: _ => if is_ascii_whitespace b0 then true else closes_in_token content
  | [] => false
  end.

Definition ends_statement (token : LibraryMapToken) : bool :=
  token_is token ";" || match configuration token with Some _ => true | None => false end.

(** The tokens since the last end of a statement. *)
Definition statement_of (tokens : list LibraryMapToken) : list LibraryMapToken :=
  fold_left (fun statement token => if ends_statement token then [] else statement ++ [token]) tokens [].

Definition library_map_path_context (tokens : list LibraryMapToken) : bool :=
  match statement_of tokens with
  | [] => false
  | first :: rest =>
      if token_is first "include" then match rest with [] => true | _ => false end
      else if token_is first "library" then
        Nat.eqb (length (first :: rest)) 2
        || match last (first :: rest) with Some token => token_is token "," | None => false end
      else false
  end.

(** The content of a quoted token after its quote: a quote after an even number
    of backslashes ends it. *)
Fixpoint quoted_length (t : bytes) (odd_backslashes : bool) : option nat :=
  match t with
  | [] => None
  | b :: rest =>
      if Ascii.eqb b quote && negb odd_backslashes then Some O
      else S <$> quoted_length rest (Ascii.eqb b backslash && negb odd_backslashes)
  end.

Definition at_statement_start (tokens : list LibraryMapToken) : bool :=
  match last tokens with Some token => ends_statement token | None => true end.

(** The word [config] at this position. *)
Definition at_config (t : bytes) (index : nat) : bool :=
  starts_with (unstr "config") (drop index t)
  && match t !! (index + 6)%nat with Some b => negb (identifier_byte b) | None => true end.

Fixpoint token_loop (fuel : nat) (t : bytes) (index : nat) (tokens : list LibraryMapToken)
  : W (list LibraryMapToken) :=
  match t !! index with
  | None => ret tokens
  | Some b =>
      match fuel with
      | O => fun _ => NoFuel
      | S fuel' =>
          let path_context := library_map_path_context tokens in
          if is_ascii_whitespace b then token_loop fuel' t (index + 1) tokens
          else if at_statement_start tokens && at_config t index then
            let* stop := declaration_end t (index + 6) in
            let* tokens := push_library_map_token tokens (unstr "config") (Some (index, stop)) index
                             "map configuration token" in
            token_loop fuel' t stop tokens
          else if starts_library_map_line_comment t index path_context then
            token_loop fuel' t (advance_while (fun c => negb (Ascii.eqb c newline)) t (index + 2)) tokens
          else if Ascii.eqb b "/" && byte_is t (index + 1) "*"
                  && (negb path_context || starts_library_map_block_comment t index) then
            match close_comment (drop (index + 2) t) with
            | None => invalid "unterminated library map comment"
            | Some offset => token_loop fuel' t (index + 2 + offset + 2) tokens
            end
          else if Ascii.eqb b quote then
            match quoted_length (drop (index + 1) t) false with
            | None => invalid "unterminated library map string"
            | Some n =>
                let content := take n (drop (index + 1) t) in
                charge_library_map_clone content "library map quoted token allocation" ;;;
                charge_allocation_usize (Z.of_nat n) "library map quoted token allocation" ;;;
                if negb (utf8_valid content) then invalid "library map quoted string is not valid UTF-8"
                else token_loop fuel' t (index + 1 + n + 1) (tokens ++ [mkToken content true None index])
            end
          else if Ascii.eqb b ";" || Ascii.eqb b "," then
            let* tokens := push_library_map_token tokens [b] None index
                             "library map punctuation token allocation" in
            token_loop fuel' t (index + 1) tokens
          else
            let stop := advance_while (fun c => negb (ends_token c)) t index in
            let* tokens := push_library_map_token tokens (take (stop - index) (drop index t)) None index
                             "library map token allocation" in
            token_loop fuel' t stop tokens
      end
  end.

Definition library_map_tokens (text : bytes) : W (list LibraryMapToken) := token_loop (length text) text 0 [].

(** ** Declarations *)

Record LibraryMapEntry : Type := mkMapEntry {
  entry_library : bytes;
  patterns : list bytes;
  include_dirs : list bytes;
}.

Record ParsedLibraryMap : Type := mkParsed {
  includes : list bytes;
  map_entries : list LibraryMapEntry;
  map_configuration : option bytes;
}.

(** Whether an [-incdir] clause starts here, and the tokens after it. *)
Definition incdir_clause (tokens : list LibraryMapToken) : option (list LibraryMapToken) :=
  match tokens with
  | first :: rest =>
      if quoted first then None
      else if token_is first "-incdir" then Some rest
      else if token_is first "-" then
        match rest with
        | second :: rest' => if token_is second "incdir" && negb (quoted second) then Some rest' else None
        | [] => None
        end
      else None
  | [] => None
  end.

(** The patterns and directories of a library declaration, up to its end. *)
Fixpoint library_items (fuel : nat) (name : bytes) (tokens : list LibraryMapToken) (in_incdir : bool)
    (pats dirs : list bytes) : W (list bytes * list bytes * bool * list LibraryMapToken) :=
  match tokens with
  | [] => ret (pats, dirs, in_incdir, [])
  | token :: rest =>
      if token_is token ";" then ret (pats, dirs, in_incdir, tokens)
      else
        match fuel with
        | O => fun _ => NoFuel
        | S fuel' =>
            if token_is token "," then library_items fuel' name rest in_incdir pats dirs
            else
              match incdir_clause tokens with
              | Some rest' =>
                  if in_incdir then invalid ("library `" +:+ str name +:+ "` has repeated -incdir clause")
                  else library_items fuel' name rest' true pats dirs
              | None =>
                  charge_library_map_clone (tok_value token) "library map pattern clone" ;;;
                  if in_incdir then library_items fuel' name rest in_incdir pats (dirs ++ [tok_value token])
                  else library_items fuel' name rest in_incdir (pats ++ [tok_value token]) dirs
              end
        end
  end.

Section Layout.
Context `{Layout}.

Definition expect_semicolon (tokens : list LibraryMapToken) : W (list LibraryMapToken) :=
  match tokens with
  | token :: rest =>
      if token_is token ";" then ret rest
      else invalid "library map declaration requires a terminating semicolon"
  | [] => invalid "library map declaration requires a terminating semicolon"
  end.

Record Declarations : Type := mkDeclarations {
  decl_includes : list bytes;
  decl_entries : list LibraryMapEntry;
  decl_ranges : list (nat * nat);
}.

(** The token after a keyword, unless it is the end of the statement. *)
Definition operand (tokens : list LibraryMapToken) (text : string) : W (LibraryMapToken * list LibraryMapToken) :=
  match tokens with
  | token :: rest => if token_is token ";" then invalid text else ret (token, rest)
  | [] => invalid text
  end.

(** A library declaration after its keyword. *)
Definition parse_library (tokens : list LibraryMapToken) : W (LibraryMapEntry * list LibraryMapToken) :=
  let* (name_token, rest) := operand tokens "library declaration requires a name" in
  let name := tok_value name_token in
  charge_library_map_clone name "library map library-name clone" ;;;
  let* (pats, dirs, in_incdir, rest) := library_items (length rest) name rest false [] [] in
  match pats with
  | [] => invalid ("library `" +:+ str name +:+ "` has no source patterns")
  | _ =>
      if in_incdir && match dirs with [] => true | _ => false end then
        invalid ("library `" +:+ str name +:+ "` -incdir requires a directory")
      else charge 1 "library map entry allocation" ;;; ret (mkMapEntry name pats dirs, rest)
  end.

Fixpoint declarations_loop (fuel : nat) (text : bytes) (tokens : list LibraryMapToken) (ds : Declarations)
  : W Declarations :=
  match tokens with
  | [] => ret ds
  | token :: rest =>
      match fuel with
      | O => fun _ => NoFuel
      | S fuel' =>
          match configuration token with
          | Some range =>
              charge_allocation_usize size_range "library map configuration range" ;;;
              declarations_loop fuel' text rest
                (mkDeclarations (decl_includes ds) (decl_entries ds) (decl_ranges ds ++ [range]))
          | None =>
              if token_is token ";" then declarations_loop fuel' text rest ds
              else if token_is token "include" then
                let* (path, rest) := operand rest "library map include requires a path" in
                charge_library_map_clone (tok_value path) "library map include clone" ;;;
                let* rest := expect_semicolon rest in
                declarations_loop fuel' text rest
                  (mkDeclarations (decl_includes ds ++ [tok_value path]) (decl_entries ds) (decl_ranges ds))
              else if token_is token "library" then
                let* (entry, rest) := parse_library rest in
                let* rest := expect_semicolon rest in
                declarations_loop fuel' text rest
                  (mkDeclarations (decl_includes ds) (decl_entries ds ++ [entry]) (decl_ranges ds))
              else
                invalid ("library map line "
                         +:+ dec (Z.of_nat (count_newlines (take (tok_offset token) text)) + 1)
                         +:+ ": unexpected token `" +:+ str (tok_value token) +:+ "`")
          end
      end
  end.

Definition parse_library_map (text : bytes) : W ParsedLibraryMap :=
  charge_usize (len text) "library map tokenization" ;;;
  let* tokens := library_map_tokens text in
  let* ds := declarations_loop (length tokens) text tokens (mkDeclarations [] [] []) in
  let* projected := project text (decl_ranges ds) in
  ret (mkParsed (decl_includes ds) (decl_entries ds) projected).
End Layout.
