(* ===== verification/Admission.v ===== *)
(** * Admission of in-memory library maps

    The driver of [src/core/compile.rs] that reads the maps of a compilation
    from its own buffers: maps are registered and parsed, their includes
    checked, and every pattern of every library offers the buffers it matches
    ([collect_in_memory_library_maps]); then the choices are published
    ([admit_in_memory_library_maps_with_dirs]). *)

From Stdlib Require Import ZArith Lia Ascii String.
From stdpp Require Import base list gmap strings sorting.
From S2P Require Import Prelude Names MapWork MapPaths MapBuffers Macros MapParse.
Open Scope Z_scope.
Open Scope list_scope.

Record LibraryIncludeDir : Type := mkIncludeDir { dir_library : bytes; dir_path : bytes }.

(** An error of a map, with the name of the map before its text. *)
Definition in_map {A} (map_name : bytes) (m : W A) : W A := fun work =>
  match m work with
  | Fail e => Fail (mkStartup (kind e) (str map_name +:+ ": " +:+ message e))
  | other => other
  end.

Section Layout.
Context `{Layout}.

(** ** Include directories *)

Definition charge_library_include_dir_entry (count : Z) (lib path : bytes) : W unit :=
  if MAX_LIBRARY_INCLUDE_DIRS <=? count then
    fail (mkStartup LimitExceeded "library include directory count exceeds the native limit")
  else
    let total := size_include_dir + len lib + len path in
    if max_u64 <? total then over_limit "library include directory metadata"
    else charge_allocation_usize total "library include directory metadata".

(** [key[..end].join("/")]. *)
Fixpoint join (parts : list bytes) : bytes :=
  match parts with
  | [] => []
  | [p] => p
  | p :: rest => p ++ unstr "/" ++ join rest
  end.

(** The prefixes of a key, from the first component on. *)
Definition ancestors (key : list bytes) (count : nat) : list (list bytes) :=
  map (fun n => take n key) (seq 1 count).

Definition ancestor_step (pattern : list LogicalMapPatternComponent) (dirs : list bytes) (prefix : list bytes)
  : W (list bytes) :=
  charge 1 "logical include directory ancestor" ;;;
  let* matched := logical_path_pattern_matches pattern prefix in
  if matched then
    let path := join prefix in
    charge_allocation_usize (len path) "logical include directory match" ;;;
    if bool_decide (path ∈ dirs) then ret dirs
    else if MAX_LIBRARY_INCLUDE_DIRS <=? len dirs then
      fail (mkStartup LimitExceeded "logical library -incdir matches exceed the include directory limit")
    else ret (dirs ++ [path])
  else ret dirs.

Definition directory_step (pattern : list LogicalMapPatternComponent) (dirs : list bytes)
    (candidate : bytes * bool) : W (list bytes) :=
  let '(candidate_name, is_directory) := candidate in
  charge 1 "logical include directory candidate" ;;;
  let* key := logical_path_key candidate_name "logical include directory candidate" in
  let last := if is_directory : bool then length key else (length key - 1)%nat in
  fold_m (ancestor_step pattern) (ancestors key last) dirs.

Definition logical_map_include_dirs (base spec : bytes) (srcs : list OwnedSource) (libs : list LibrarySource)
    (logical_directories : list bytes) : W (list bytes) :=
  match spec with
  | [] => invalid "logical library -incdir requires a valid directory path: ``"
  | _ =>
      if existsb (fun b => Ascii.eqb b "$") spec then
        invalid ("logical library -incdir requires a valid directory path: `" +:+ str spec +:+ "`")
      else
        let* pattern := logical_map_pattern_key base spec in
        let candidates := map (fun s => (src_name s, false)) srcs ++ map (fun s => (lib_name s, false)) libs
                          ++ map (fun d => (d, true)) logical_directories in
        let* dirs := fold_m (directory_step pattern) candidates [] in
        match dirs with
        | [] => fail (mkStartup Input
                        ("logical library -incdir `" +:+ str spec +:+ "` matched no admitted directories"))
        | _ =>
            charge_key_comparison_work (map (fun d => len d) dirs) true "logical include directory ordering" ;;;
            ret (merge_sort bytes_le dirs)
        end
  end.

Section Collect.
Context (maps : list OwnedSource) (defines : list bytes) (edition : LanguageEdition)
  (logical_directories : list bytes).

(** ** Registration *)

Definition register_map (st : gmap (list bytes) bytes * list (bytes * bytes)) (map : OwnedSource)
  : W (gmap (list bytes) bytes * list (bytes * bytes)) :=
  let '(seen_maps, pending) := st in
  charge 1 "in-memory map admission" ;;;
  match src_name map with
  | [] => invalid "in-memory library map names must be nonempty"
  | _ =>
      let* key := logical_path_key (src_name map) "in-memory map name" in
      match seen_maps !! key with
      | Some retained =>
          charge_usize (len (src_text map)) "duplicate map contents comparison" ;;;
          if bool_decide (retained = src_text map) then ret st
          else invalid ("conflicting in-memory library map contents: " +:+ str (src_name map))
      | None =>
          charge 1 "in-memory map name clone" ;;;
          charge_usize (len (src_name map)) "in-memory map name clone" ;;;
          charge 1 "in-memory map text clone" ;;;
          charge_library_map_text_allocation (src_text map) "in-memory map text clone" ;;;
          ret (<[key := src_text map]> seen_maps, pending ++ [(src_name map, src_text map)])
      end
  end.

(** A pending map is preprocessed and parsed; one with configurations stays a
    compilation unit. *)
Definition parse_pending (st : list (bytes * ParsedLibraryMap) * LibraryMapBuffers) (map : bytes * bytes)
  : W (list (bytes * ParsedLibraryMap) * LibraryMapBuffers) :=
  let '(parsed, buffers) := st in
  let '(map_name, text) := map in
  let* expanded := in_map map_name (preprocess_library_map text defines edition) in
  let* parsed_map := in_map map_name (parse_library_map expanded) in
  let* buffers :=
    match map_configuration parsed_map with
    | Some _ =>
        charge_library_map_text_allocation text "native map source clone" ;;;
        retain_configuration map_name text text buffers
    | None => ret buffers
    end in
  charge_allocation_usize size_parsed_map "parsed map record" ;;;
  ret (parsed ++ [(map_name, parsed_map)], buffers).

(** ** Includes *)

(** The maps an include names, in order. *)
Definition include_matches (base include : bytes) (found : list bytes) (candidate : OwnedSource) : W (list bytes) :=
  charge 1 "in-memory include candidate scan" ;;;
  let* matched := map_pattern_matches base include (src_name candidate) in
  ret (if matched : bool then found ++ [src_name candidate] else found).

Definition check_registered (seen_maps : gmap (list bytes) bytes) (_ : unit) (candidate : bytes) : W unit :=
  charge 1 "in-memory map admission" ;;;
  let* key := logical_path_key candidate "in-memory map name" in
  match seen_maps !! key with
  | Some _ => ret tt
  | None => fail (mkStartup Internal "included logical map was not registered at intake")
  end.

Definition check_include (seen_maps : gmap (list bytes) bytes) (base : bytes) (_ : unit) (include : bytes) : W unit :=
  let* found := fold_m (include_matches base include) maps [] in
  charge_key_comparison_work (map (fun n => len n) found) true "in-memory include ordering comparisons" ;;;
  match found with
  | [] => fail (mkStartup Input
                  ("in-memory library map include `" +:+ str include +:+ "` matched no admitted buffers"))
  | _ => fold_m (check_registered seen_maps) (merge_sort bytes_le found) tt
  end.

(** ** Libraries *)

Definition admit_dir (lib : bytes) (dirs : list LibraryIncludeDir) (path : bytes) : W (list LibraryIncludeDir) :=
  charge_library_include_dir_entry (len dirs) lib path ;;;
  ret (dirs ++ [mkIncludeDir lib path]).

Definition admit_dirs (base lib : bytes) (buffers : LibraryMapBuffers) (dirs : list LibraryIncludeDir) (dir : bytes)
  : W (list LibraryIncludeDir) :=
  let* paths := logical_map_include_dirs base dir (sources buffers) (libraries buffers) logical_directories in
  fold_m (admit_dir lib) paths dirs.

(** The names that match a pattern. *)
Definition scan_candidate (base pattern : bytes) (operation : string) (found : list bytes) (candidate : bytes)
  : W (list bytes) :=
  charge 1 operation ;;;
  let* matched := map_pattern_matches base pattern candidate in
  if matched : bool then
    charge_library_map_clone candidate "in-memory match name" ;;; ret (found ++ [candidate])
  else ret found.

(** The order of the offers: names descending. *)
Definition bytes_ge (a b : bytes) : Prop := bytes_le b a.
#[export] Instance bytes_ge_dec : RelDecision bytes_ge := fun a b => decide (bytes_le b a).

Definition offer_name (lib : bytes) (specificity : LibrarySpecificity) (buffers : LibraryMapBuffers)
    (candidate : bytes) : W LibraryMapBuffers :=
  let* (_, buffers) := offer candidate lib specificity buffers in
  ret buffers.

Definition admit_pattern (base lib : bytes) (buffers : LibraryMapBuffers) (pattern : bytes) : W LibraryMapBuffers :=
  charge 1 "in-memory library pattern" ;;;
  let specificity := of_pattern pattern in
  let* match_pattern := library_match_pattern pattern in
  let* found := fold_m (scan_candidate base match_pattern "in-memory source candidate scan")
                  (map src_name (sources buffers)) [] in
  let* found := fold_m (scan_candidate base match_pattern "in-memory library candidate scan")
                  (map lib_name (libraries buffers)) found in
  match found with
  | [] => fail (mkStartup Input
                  ("in-memory library `" +:+ str lib +:+ "` pattern `" +:+ str pattern
                   +:+ "` matched no admitted buffers"))
  | _ =>
      charge_key_comparison_work (map (fun n => len n) found) true "in-memory source ordering comparisons" ;;;
      fold_m (offer_name lib specificity) (merge_sort bytes_ge found) buffers
  end.

Definition admit_entry (base : bytes) (st : list LibraryIncludeDir * LibraryMapBuffers) (entry : LibraryMapEntry)
  : W (list LibraryIncludeDir * LibraryMapBuffers) :=
  let '(dirs, buffers) := st in
  let* dirs := fold_m (admit_dirs base (entry_library entry) buffers) (include_dirs entry) dirs in
  let* buffers := fold_m (admit_pattern base (entry_library entry)) (patterns entry) buffers in
  ret (dirs, buffers).

Definition process_map (seen_maps : gmap (list bytes) bytes) (st : list LibraryIncludeDir * LibraryMapBuffers)
    (map : bytes * ParsedLibraryMap) : W (list LibraryIncludeDir * LibraryMapBuffers) :=
  let '(map_name, parsed) := map in
  charge 1 "in-memory map name processing clone" ;;;
  charge_usize (len map_name) "in-memory map name processing clone" ;;;
  charge 1 "in-memory map parsing" ;;;
  let base := logical_map_parent map_name in
  fold_m (check_include seen_maps base) (includes parsed) tt ;;;
  fold_m (admit_entry base) (map_entries parsed) st.

(** ** The driver *)

Definition collect_in_memory_library_maps (dirs : list LibraryIncludeDir) (buffers : LibraryMapBuffers)
    (source_count source_limit : Z) : W (list LibraryIncludeDir * LibraryMapBuffers) :=
  match maps with
  | [] => ret (dirs, buffers)
  | _ =>
      if source_limit <? source_count then
        fail (mkStartup LimitExceeded "library map expansion exceeds the configured source limit")
      else
        let* (seen_maps, pending) := fold_m register_map maps (∅, []) in
        let* (parsed, buffers) := fold_m parse_pending pending ([], buffers) in
        fold_m (process_map seen_maps) parsed (dirs, buffers)
  end.

Definition admit_in_memory_library_maps_with_dirs (dirs : list LibraryIncludeDir) (srcs : list OwnedSource)
    (libs : list LibrarySource) (source_count source_limit remaining : Z)
  : W (list LibraryIncludeDir * Published) :=
  match maps with
  | [] => ret (dirs, mkPublished srcs libs remaining [])
  | _ =>
      let* buffers := new_buffers srcs libs in
      let* (dirs, buffers) := collect_in_memory_library_maps dirs buffers source_count source_limit in
      let* published := finish buffers remaining in
      ret (dirs, published)
  end.
End Collect.
End Layout.
