(* ===== verification/ParseFacts.v ===== *)
(** * Reading library maps

    Preprocessing and parsing return a map or an error for every text: the
    scanners move forward, so their fuel is enough. *)

From Stdlib Require Import ZArith Lia Ascii String.
From stdpp Require Import base list gmap strings.
From S2P Require Import Prelude Names Total MapWork MapPaths MapBuffers ChoiceFacts Macros MapParse.
Open Scope Z_scope.
Open Scope list_scope.

(** ** Preprocessing *)

Lemma with_macros_safe {A} (m : B A) Q w budget :
  spends Q w m -> safely (fun r => Q r.1) (with_macros m budget).
Proof.
  intros H work Hok. unfold with_macros. specialize (H budget).
  destruct (m budget) as [[a b'] | e | |]; [| done | done | done]. by destruct H.
Qed.

Lemma map_condition_safe line_number macros conditions trimmed directive outer changed :
  map_condition line_number macros conditions trimmed directive outer = Some changed ->
  safely (fun _ => True) changed.
Proof.
  unfold map_condition, map_error. intros H.
  repeat (case_match; simplify_eq; try done); first [apply safely_invalid | by apply safely_ret].
Qed.

Lemma map_define_safe line_number macros arguments :
  safely (fun _ => True) (map_define line_number macros arguments).
Proof.
  unfold map_define, map_error. cbv zeta.
  destruct (find_identifier (trim_start arguments)) as [[name after] |]; [| apply safely_invalid].
  destruct (negb _); [apply safely_invalid |].
  destruct (match drop _ _ with [] => false | _ :: _ => _ end); [apply safely_invalid |].
  destruct (existsb _ _); [apply safely_invalid | by apply safely_ret].
Qed.

Lemma map_text_safe line_number macros budget raw_line :
  safely (fun _ => True) (map_text line_number macros budget raw_line).
Proof.
  unfold map_text. eapply safely_bind; [eapply with_macros_safe, expand_expander |]. intros [expanded budget'] _.
  destruct (strip_preprocessor_comments expanded false) as [visible open].
  destruct (preprocessor_directive visible) as [[name rest] |]; [apply safely_invalid |].
  do 2 safe_step. by apply safely_ret.
Qed.

Lemma map_line_effect_safe edition st line_number raw_line trimmed :
  safely (fun _ => True) (map_line_effect edition st line_number raw_line trimmed).
Proof.
  unfold map_line_effect. cbv zeta.
  destruct (map_condition _ _ _ _ _ _) as [changed |] eqn:E.
  { eapply safely_bind; [by eapply map_condition_safe |]. intros c _. by apply safely_ret. }
  destruct (negb _); [by apply safely_ret |].
  destruct (is_directive _ ["define"%string]).
  { eapply safely_bind; [apply map_define_safe |]. intros m _. by apply safely_ret. }
  destruct (is_directive _ ["undef"%string]).
  { destruct (first_macro_identifier _); [by apply safely_ret | apply safely_invalid]. }
  destruct (is_directive _ ["undefineall"%string]).
  { destruct edition; [apply safely_invalid | by apply safely_ret]. }
  destruct (is_directive _ ["include"%string]); [apply safely_invalid |].
  eapply safely_bind; [apply map_text_safe |]. intros [expanded budget'] _. by apply safely_ret.
Qed.

Lemma map_line_safe edition st numbered : safely (fun _ => True) (map_line edition st numbered).
Proof.
  unfold map_line. destruct numbered as [line_number raw_line], (strip_preprocessor_comments _ _) as [line open].
  eapply safely_bind; [apply map_line_effect_safe |]. intros effect _. cbv zeta.
  do 2 safe_step. by apply safely_ret.
Qed.

Lemma safely_get {A} (Q : A -> Prop) (k : LibraryMapWorkBudget -> W A) :
  (forall work, safely Q (k work)) -> safely Q (bind get k).
Proof. intros H work Hok. by apply (H work work). Qed.

Lemma preprocess_safe text defines edition :
  safely (fun _ => True) (preprocess_library_map text defines edition).
Proof.
  unfold preprocess_library_map. apply safely_get. intros work. cbv zeta.
  eapply safely_bind.
  { apply (safely_fold (fun _ _ => True)); [done |]. intros. apply map_line_safe. }
  intros st _. destruct (map_conditions st); [by apply safely_ret | apply safely_invalid].
Qed.

(** ** Scanners *)

Lemma advance_while_ge p t index : (index <= advance_while p t index)%nat.
Proof. unfold advance_while. lia. Qed.

Lemma advance_while_gt p t index b :
  t !! index = Some b -> p b = true -> (index < advance_while p t index)%nat.
Proof.
  intros L P. unfold advance_while. rewrite (drop_S t b index L). cbn [run_of]. rewrite P. lia.
Qed.

Lemma past_end (t : bytes) index : (length t <= index)%nat -> t !! index = None.
Proof. apply lookup_ge_None_2. Qed.

Lemma identifier_end_ge t index : (index <= identifier_end t index)%nat.
Proof.
  unfold identifier_end. destruct (byte_is _ _ _); [| apply advance_while_ge].
  etrans; [| apply advance_while_ge]. lia.
Qed.

Lemma identifier_end_gt t index b :
  t !! index = Some b -> Ascii.eqb b backslash || is_ascii_alphabetic b || Ascii.eqb b "_" || Ascii.eqb b "$" = true ->
  (index < identifier_end t index)%nat.
Proof.
  intros L Hb. unfold identifier_end. destruct (byte_is t index backslash) eqn:E.
  - pose proof (advance_while_ge (fun b => negb (is_ascii_whitespace b)) t (index + 1)). lia.
  - eapply advance_while_gt; [done |]. unfold identifier_byte, is_ascii_alphanumeric.
    destruct (Ascii.eqb_spec b backslash) as [-> | _].
    { unfold byte_is in E. by rewrite bool_decide_true in E. }
    destruct (is_ascii_alphabetic b), (Ascii.eqb b "_"), (Ascii.eqb b "$"), (is_ascii_digit b); done.
Qed.

Lemma trivia_safe fuel t index :
  (length t <= fuel + index)%nat -> safely (fun next => (index <= next)%nat) (trivia fuel t index).
Proof.
  revert index. induction fuel as [| fuel IH]; intros index Hf; cbn [trivia].
  - rewrite (past_end t index) by lia. by apply safely_ret.
  - unfold bytes in *. destruct (t !! index) as [b |] eqn:L; [| by apply safely_ret].
    destruct (is_ascii_whitespace b).
    { eapply safely_weaken; [apply IH; lia |]. intros next ?. cbn in *. lia. }
    destruct (_ && byte_is t (index + 1) "/").
    { pose proof (advance_while_ge (fun c => negb (Ascii.eqb c newline)) t (index + 2)).
      eapply safely_weaken; [apply IH; lia |]. intros next ?. cbn in *. lia. }
    destruct (_ && byte_is t (index + 1) "*"); [| by apply safely_ret].
    destruct (close_comment _) as [offset |]; [| apply safely_invalid].
    eapply safely_weaken; [apply IH; lia |]. intros next ?. cbn in *. lia.
Qed.

Lemma declaration_loop_safe fuel t start index :
  (length t <= fuel + index)%nat -> safely (fun stop => (index <= stop)%nat) (declaration_loop fuel t start index).
Proof.
  revert index. induction fuel as [| fuel IH]; intros index Hf; cbn [declaration_loop];
    destruct (Nat.leb_spec (length t) index); try apply safely_invalid; [lia |].
  eapply safely_bind; [apply trivia_safe; lia |]. intros next Hn.
  unfold bytes in *. destruct (t !! next) as [b |] eqn:L; [| apply safely_invalid].
  destruct (Ascii.eqb b quote).
  { destruct (string_close _) as [n |]; [| apply safely_invalid].
    eapply safely_weaken; [apply IH; lia |]. intros stop ?. cbn in *. lia. }
  destruct (_ || _) eqn:Hb.
  - pose proof (identifier_end_gt t next b L Hb). cbv zeta.
    destruct (bool_decide _).
    + eapply safely_bind; [apply trivia_safe; lia |]. intros after Ha. cbn in Ha.
      destruct (byte_is t after ":"); [| apply safely_ret; lia].
      eapply safely_bind; [apply trivia_safe; lia |]. intros name Hname. cbn in Hname. apply safely_ret.
      pose proof (identifier_end_ge t name). lia.
    + eapply safely_weaken; [apply IH; lia |]. intros stop ?. cbn in *. lia.
  - eapply safely_weaken; [apply IH; lia |]. intros stop ?. cbn in *. lia.
Qed.

(** ** Tokens *)

Lemma push_token_safe tokens value range offset operation :
  safely (fun _ => True) (push_library_map_token tokens value range offset operation).
Proof. unfold push_library_map_token. safe_step. by apply safely_ret. Qed.

Lemma token_loop_safe fuel t index tokens :
  (length t <= fuel + index)%nat -> safely (fun _ => True) (token_loop fuel t index tokens).
Proof.
  revert index tokens. induction fuel as [| fuel IH]; intros index tokens Hf; cbn [token_loop].
  - rewrite (past_end t index) by lia. by apply safely_ret.
  - unfold bytes in *. destruct (t !! index) as [b |] eqn:L; [| by apply safely_ret]. cbv zeta.
    destruct (is_ascii_whitespace b) eqn:Hw; [apply IH; lia |].
    destruct (at_statement_start tokens && at_config t index).
    { eapply safely_bind; [apply declaration_loop_safe; lia |]. intros stop Hs. cbn in Hs.
      eapply safely_bind; [apply push_token_safe |]. intros tokens' _. apply IH. lia. }
    destruct (starts_library_map_line_comment _ _ _).
    { pose proof (advance_while_ge (fun c => negb (Ascii.eqb c newline)) t (index + 2)). apply IH. lia. }
    destruct (_ && (_ || _)).
    { destruct (close_comment _); [apply IH; lia | apply safely_invalid]. }
    destruct (Ascii.eqb b quote).
    { destruct (quoted_length _ _) as [n |]; [| apply safely_invalid].
      do 2 safe_step. destruct (negb _); [apply safely_invalid | apply IH; lia]. }
    destruct (Ascii.eqb b ";" || Ascii.eqb b ",") eqn:Hp.
    { eapply safely_bind; [apply push_token_safe |]. intros tokens' _. apply IH. lia. }
    eapply safely_bind; [apply push_token_safe |]. intros tokens' _. apply IH.
    pose proof (advance_while_gt (fun c => negb (ends_token c)) t index b L) as G.
    enough (index < advance_while (fun c => negb (ends_token c)) t index)%nat by lia.
    apply G. unfold ends_token. rewrite Hw. cbn [orb]. by rewrite Hp.
Qed.

(** ** Declarations *)

Lemma incdir_clause_shorter tokens rest :
  incdir_clause tokens = Some rest -> (length rest < length tokens)%nat.
Proof. unfold incdir_clause. intros H. repeat (case_match; simplify_eq; cbn in *); lia. Qed.

Lemma library_items_safe fuel name tokens in_incdir pats dirs :
  (length tokens <= fuel)%nat ->
  safely (fun r => (length r.2 <= length tokens)%nat) (library_items fuel name tokens in_incdir pats dirs).
Proof.
  revert tokens in_incdir pats dirs.
  induction fuel as [| fuel IH]; intros tokens in_incdir pats dirs Hf; destruct tokens as [| token rest];
    cbn [library_items]; try (apply safely_ret; cbn; lia).
  { cbn in Hf. lia. }
  destruct (token_is token ";"); [by apply safely_ret |].
  assert (forall in_incdir pats dirs,
    safely (fun r => (length r.2 <= length (token :: rest))%nat) (library_items fuel name rest in_incdir pats dirs)).
  { intros. eapply safely_weaken; [apply IH; cbn in *; lia |]. intros r ?. cbn in *. lia. }
  destruct (token_is token ","); [done |].
  destruct (incdir_clause _) as [rest' |] eqn:E.
  - apply incdir_clause_shorter in E. destruct in_incdir; [apply safely_invalid |].
    eapply safely_weaken; [apply IH; cbn in *; lia |]. intros r ?. cbn in *. lia.
  - safe_step. by destruct in_incdir.
Qed.

Section Layout.
Context `{Layout}.

Lemma operand_safe tokens text :
  safely (fun r => (length r.2 < length tokens)%nat) (operand tokens text).
Proof.
  destruct tokens as [| token rest]; cbn; [apply safely_invalid |].
  destruct (token_is token ";"); [apply safely_invalid | apply safely_ret; cbn; lia].
Qed.

Lemma expect_semicolon_safe tokens :
  safely (fun rest => (length rest < length tokens)%nat) (expect_semicolon tokens).
Proof.
  destruct tokens as [| token rest]; cbn; [apply safely_invalid |].
  destruct (token_is token ";"); [apply safely_ret; cbn; lia | apply safely_invalid].
Qed.

(** An entry of a map names a source. *)
Definition has_patterns (entry : LibraryMapEntry) : Prop := patterns entry <> [].

Lemma parse_library_safe tokens :
  safely (fun r => has_patterns r.1 /\ (length r.2 < length tokens)%nat) (parse_library tokens).
Proof.
  unfold parse_library. eapply safely_bind; [apply operand_safe |]. intros [name rest] Hr. cbn in Hr. safe_step.
  eapply safely_bind; [by apply library_items_safe |]. intros [[[pats dirs] in_incdir] rest'] Hr'. cbn in Hr'.
  destruct pats as [| pat pats]; [apply safely_invalid |].
  destruct (in_incdir && _); [apply safely_invalid |]. safe_step. apply safely_ret. split; [done |]. cbn. lia.
Qed.

Lemma declarations_loop_safe fuel text tokens ds :
  (length tokens <= fuel)%nat -> Forall has_patterns (decl_entries ds) ->
  safely (fun ds' => Forall has_patterns (decl_entries ds')) (declarations_loop fuel text tokens ds).
Proof.
  revert tokens ds.
  induction fuel as [| fuel IH]; intros tokens ds Hf Hds; destruct tokens as [| token rest];
    cbn [declarations_loop]; try by apply safely_ret.
  { cbn in Hf. lia. }
  cbn in Hf. destruct (configuration token) as [range |].
  { eapply safely_bind; [apply safely_charge_allocation_usize, sizes_nonneg |]. intros _ _. apply IH; [lia | done]. }
  destruct (token_is token ";"); [apply IH; [lia | done] |].
  destruct (token_is token "include").
  { eapply safely_bind; [apply operand_safe |]. intros [path rest'] Hr. cbn in Hr. safe_step.
    eapply safely_bind; [apply expect_semicolon_safe |]. intros rest'' Hr'. cbn in Hr'. apply IH; [lia | done]. }
  destruct (token_is token "library"); [| apply safely_invalid].
  eapply safely_bind; [apply parse_library_safe |]. intros [entry rest'] [He Hr]. cbn in He, Hr.
  eapply safely_bind; [apply expect_semicolon_safe |]. intros rest'' Hr'. cbn in Hr'. apply IH; [lia |].
  apply Forall_app_2; [done |]. by apply Forall_singleton.
Qed.

(** A byte of a projection: the byte of the text, or a blank in its place; line
    ends stay. *)
Definition shows (o b : ascii) : Prop := o = b \/ (o = " "%char /\ b <> newline /\ b <> carriage_return).

Lemma mask_shows t : Forall2 shows (mask t) t.
Proof.
  unfold mask. induction t as [| b t IH]; cbn; constructor; [| done].
  destruct (Ascii.eqb_spec b carriage_return); [by left |]. destruct (Ascii.eqb_spec b newline); [by left |].
  by right.
Qed.

Lemma shows_refl t : Forall2 shows t t.
Proof. induction t; constructor; [by left | done]. Qed.

Lemma project_ranges_safe text ranges previous :
  safely (fun out => Forall2 shows out (drop previous text)) (project_ranges text ranges previous).
Proof.
  revert previous. induction ranges as [| [start stop] ranges IH]; intros previous; cbn [project_ranges];
    [apply safely_ret, mask_shows |].
  destruct (Nat.ltb_spec start previous); [apply safely_fail |].
  destruct (Nat.ltb_spec stop start); [apply safely_fail |].
  destruct (Nat.ltb_spec (length text) stop); [apply safely_fail |]. cbn [orb].
  eapply safely_bind; [apply IH |]. intros tail Ht. apply safely_ret.
  assert (E : drop previous text
              = take (start - previous) (drop previous text) ++ take (stop - start) (drop start text) ++ drop stop text).
  { rewrite <- (take_drop (start - previous) (drop previous text)) at 1. f_equal. rewrite drop_drop.
    replace (previous + (start - previous))%nat with start by lia.
    rewrite <- (take_drop (stop - start) (drop start text)) at 1. f_equal. rewrite drop_drop. f_equal. lia. }
  rewrite E at 2. apply Forall2_app; [apply mask_shows |]. apply Forall2_app; [apply shows_refl | done].
Qed.

(** What is parsed: every entry names a source, and the configurations are shown
    at their places in the text. *)
Definition parsed_from (text : bytes) (p : ParsedLibraryMap) : Prop :=
  Forall has_patterns (map_entries p)
  /\ match map_configuration p with Some out => Forall2 shows out text | None => True end.

Lemma parse_safe text : safely (parsed_from text) (parse_library_map text).
Proof.
  unfold parse_library_map. safe_step.
  eapply safely_bind; [apply token_loop_safe; lia |]. intros tokens _.
  eapply safely_bind; [by apply declarations_loop_safe |]. intros ds Hds. cbv beta in Hds.
  apply (safely_bind (fun c => match c with Some out => Forall2 shows out text | None => True end));
    [| intros projected Hp; by apply safely_ret].
  unfold project. destruct (decl_ranges ds); [by apply safely_ret |]. do 2 safe_step.
  eapply safely_bind; [apply project_ranges_safe |]. intros out Ho.
  destruct (utf8_valid out); [by apply safely_ret | apply safely_fail].
Qed.
End Layout.
