(* ===== verification/AdmissionFacts.v ===== *)
(** * Admission offers what the maps say

    Processing parsed maps makes exactly the offers of their patterns, in the
    order of the maps, and publication follows them. *)

From Stdlib Require Import ZArith Lia Ascii String.
From stdpp Require Import base list gmap strings sorting.
From S2P Require Import Prelude Names Total MapWork MapPaths GlobFacts MapBuffers ChoiceFacts Macros MapParse ParseFacts Admission.
Open Scope Z_scope.
Open Scope list_scope.

(** The pattern that is matched for a pattern of a map. *)
Definition match_text (pattern : bytes) : bytes :=
  if ends_with_separator pattern then pattern ++ unstr "*" else pattern.

(** The names that a pattern matches, among the buffers, in the order they are
    offered. *)
Definition matched_names (base pattern : bytes) (names : list bytes) : list bytes :=
  merge_sort bytes_ge (List.filter (name_matches base (match_text pattern)) names).

Definition pattern_offers (names : list bytes) (base lib pattern : bytes) : Offers :=
  map (fun n => (key_of_name n, (lib, of_pattern pattern))) (matched_names base pattern names).

Definition entry_offers (names : list bytes) (base : bytes) (entry : LibraryMapEntry) : Offers :=
  concat (map (pattern_offers names base (entry_library entry)) (patterns entry)).

Definition map_offers (names : list bytes) (map_ : bytes * ParsedLibraryMap) : Offers :=
  concat (map (entry_offers names (logical_map_parent map_.1)) (map_entries map_.2)).

Definition maps_offers (names : list bytes) (maps : list (bytes * ParsedLibraryMap)) : Offers :=
  concat (map (map_offers names) maps).

(** Every pattern of a map matches a buffer. *)
Definition entry_matched (names : list bytes) (base : bytes) (entry : LibraryMapEntry) : Prop :=
  Forall (fun p => matched_names base p names <> []) (patterns entry).

Definition map_matched (names : list bytes) (map_ : bytes * ParsedLibraryMap) : Prop :=
  Forall (entry_matched names (logical_map_parent map_.1)) (map_entries map_.2).

(** Maps whose paths have no empty host or share. *)
Definition entry_paths (entry : LibraryMapEntry) : Prop :=
  Forall (fun p => admissible (match_text p)) (patterns entry) /\ Forall admissible (include_dirs entry).

Definition map_paths (map_ : bytes * ParsedLibraryMap) : Prop :=
  admissible (logical_map_parent map_.1)
  /\ Forall admissible (includes map_.2)
  /\ Forall entry_paths (map_entries map_.2).

(** The names of the buffers. *)
Definition buffer_names (b : LibraryMapBuffers) : list bytes := map src_name (sources b) ++ map lib_name (libraries b).

(** ** Matching *)

Lemma pattern_safe base pattern candidate :
  admissible base -> admissible pattern -> admissible candidate ->
  safely (fun m => m = name_matches base pattern candidate) (map_pattern_matches base pattern candidate).
Proof.
  intros Hb Hp Hc. pose proof (map_pattern_within base pattern candidate Hb Hp Hc) as Hw.
  destruct (has_dollar pattern); [| by eapply safely_within].
  intros work Hok. destruct (within_run _ _ _ _ work Hw Hok) as [F | [_ F]]; unfold fails in F;
    destruct (map_pattern_matches base pattern candidate work) as [[] | | |]; done.
Qed.

Lemma scan_safe base pattern operation names found :
  admissible base -> admissible pattern -> Forall admissible names ->
  safely (fun f => f = found ++ List.filter (name_matches base pattern) names)
    (fold_m (scan_candidate base pattern operation) names found).
Proof.
  intros Hb Hp Hn.
  apply (safely_fold (fun done f => f = found ++ List.filter (name_matches base pattern) done));
    [by rewrite app_nil_r |].
  intros done_ n f (rest & E) ->. rewrite E, Forall_app, Forall_cons in Hn. destruct Hn as (_ & Hn & _).
  unfold scan_candidate. safe_step. eapply safely_bind; [by apply pattern_safe |]. intros m ->.
  rewrite List.filter_app. cbn [List.filter]. destruct (name_matches base pattern n).
  - safe_step. apply safely_ret. by rewrite app_assoc.
  - apply safely_ret. by rewrite app_nil_r.
Qed.

Lemma match_pattern_safe pattern :
  safely (fun p => p = match_text pattern) (library_match_pattern pattern).
Proof.
  unfold library_match_pattern, match_text. destruct (ends_with_separator pattern); cbn [negb]; [| by apply safely_ret].
  cbv zeta. do 2 (destruct (_ <? _); [apply safely_over_limit |]). do 2 safe_step. by apply safely_ret.
Qed.

Section Layout.
Context `{Layout}.

(** ** Offers *)

(** The buffers keep their sources, and the offers [new] were added. *)
Definition offered (b : LibraryMapBuffers) (os new : Offers) (b' : LibraryMapBuffers) : Prop :=
  buffers_ok b' (os ++ new) /\ sources b' = sources b /\ libraries b' = libraries b.

Lemma offered_nil b os : buffers_ok b os -> offered b os [] b.
Proof. intros. split_and!; [by rewrite app_nil_r | done | done]. Qed.

Lemma offered_trans b os new b' new' b'' :
  offered b os new b' -> offered b' (os ++ new) new' b'' -> offered b os (new ++ new') b''.
Proof.
  intros (H1 & S1 & L1) (H2 & S2 & L2). split_and!; [by rewrite app_assoc | congruence | congruence].
Qed.

(** A loop whose steps offer, and establish [P] of their elements. *)
Lemma offering_fold {A} (os_of : A -> Offers) (P : A -> Prop) (body : LibraryMapBuffers -> A -> W LibraryMapBuffers)
    xs b os :
  buffers_ok b os ->
  (forall x b' os', x ∈ xs -> buffers_ok b' os' -> sources b' = sources b -> libraries b' = libraries b ->
     safely (fun b'' => offered b' os' (os_of x) b'' /\ P x) (body b' x)) ->
  safely (fun b' => offered b os (concat (map os_of xs)) b' /\ Forall P xs) (fold_m body xs b).
Proof.
  intros Hb Step.
  apply (safely_fold (fun done b' => offered b os (concat (map os_of done)) b' /\ Forall P done));
    [split; [by apply offered_nil | constructor] |].
  intros done_ x b' (rest & E) [Ho Hd]. pose proof Ho as (Hb' & S1 & L1).
  eapply safely_weaken; [apply (Step x b' (os ++ concat (map os_of done_))); try done; rewrite E; set_solver |].
  intros b'' [Hb'' Hx]. rewrite map_app, concat_app. cbn [map concat]. rewrite app_nil_r.
  split; [by eapply offered_trans | by apply Forall_app_2, Forall_singleton].
Qed.

Lemma offer_name_safe lib r b os candidate :
  admissible candidate -> buffers_ok b os ->
  safely (fun b' => offered b os [(key_of_name candidate, (lib, r))] b' /\ True) (offer_name lib r b candidate).
Proof.
  intros Hc Hb. unfold offer_name. eapply safely_bind; [by eapply offer_safe |]. intros [k b'] (H1 & H2 & H3).
  by apply safely_ret.
Qed.

Lemma singletons {A B} (f : A -> B) l : concat (map (fun x => [f x]) l) = map f l.
Proof. induction l as [| x l IH]; cbn; [done | by rewrite IH]. Qed.

Lemma names_admissible b os : buffers_ok b os -> Forall admissible (buffer_names b).
Proof.
  intros [_ _ H1 H2 _]. apply Forall_app. split; apply Forall_map; eapply Forall_impl; eauto; by intros ? [].
Qed.

Lemma lengths_nonneg (names : list bytes) : Forall (Z.le 0) (map (fun n => len n) names).
Proof. apply Forall_map, Forall_true. intros n. unfold len. lia. Qed.

Lemma admit_pattern_safe base lib b os pattern :
  admissible base -> admissible (match_text pattern) -> buffers_ok b os ->
  safely (fun b' => offered b os (pattern_offers (buffer_names b) base lib pattern) b'
                    /\ matched_names base pattern (buffer_names b) <> [])
    (admit_pattern base lib b pattern).
Proof.
  intros Hb Hp Hok. pose proof (names_admissible b os Hok) as Hn. pose proof Hn as [Hs Hl]%Forall_app.
  unfold admit_pattern. safe_step. cbv zeta.
  eapply safely_bind; [apply match_pattern_safe |]. intros mp ->.
  eapply safely_bind; [by apply scan_safe |]. intros f1 ->.
  eapply safely_bind; [by apply scan_safe |]. intros f2 ->. cbn [app]. rewrite <- List.filter_app.
  fold (buffer_names b). unfold pattern_offers, matched_names.
  set (found := List.filter _ _) in *.
  pose proof (merge_sort_Permutation bytes_ge found) as Hperm.
  assert (Hf : forall n, n ∈ merge_sort bytes_ge found -> admissible n).
  { intros n. rewrite Hperm. unfold found. rewrite list_elem_of_In, filter_In, <- list_elem_of_In.
    rewrite Forall_forall in Hn. intros []. by apply Hn. }
  assert (Hne : found <> [] -> merge_sort bytes_ge found <> []).
  { intros Hne E. rewrite E in Hperm. by apply Permutation_nil_l in Hperm. }
  clearbody found. destruct found as [| n found']; [apply safely_fail |].
  eapply safely_bind; [apply key_comparison_safe, lengths_nonneg |]. intros _ _.
  eapply safely_weaken.
  { apply (offering_fold (fun n => [(key_of_name n, (lib, of_pattern pattern))]) (fun _ => True)); [exact Hok |].
    intros n' b' os' Hin Hb' _ _. by apply offer_name_safe; [apply Hf |]. }
  intros b' [Ho _]. rewrite (singletons (fun n => (key_of_name n, (lib, of_pattern pattern)))) in Ho. split; [done | by apply Hne].
Qed.

(** ** Directories *)

Lemma ancestor_step_safe pattern dirs prefix : safely (fun _ => True) (ancestor_step pattern dirs prefix).
Proof.
  unfold ancestor_step. safe_step. eapply safely_bind; [eapply safely_within, path_pattern_within |]. intros m ->.
  destruct (path_matches _ _); [| by apply safely_ret]. safe_step.
  destruct (bool_decide _); [by apply safely_ret |]. destruct (_ <=? _); [apply safely_fail | by apply safely_ret].
Qed.

Lemma include_dirs_safe base spec srcs libs dirs :
  admissible base -> admissible spec -> Forall admissible dirs ->
  Forall (fun s => admissible (src_name s)) srcs -> Forall (fun s => admissible (lib_name s)) libs ->
  safely (fun _ => True) (logical_map_include_dirs base spec srcs libs dirs).
Proof.
  intros Hb Hs Hd Hsrc Hlib. unfold logical_map_include_dirs.
  destruct spec as [| c spec]; [apply safely_invalid |].
  destruct (existsb _ (c :: spec)); [apply safely_invalid |].
  eapply safely_bind; [by eapply safely_within, pattern_key_within |]. intros pattern _. cbv zeta.
  eapply safely_bind.
  - apply (safely_fold (fun _ _ => True)); [done |].
    intros done_ [candidate is_directory] found (rest & E) _. unfold directory_step. safe_step.
    eapply safely_bind; [apply key_safe |].
    + assert (Hin : (candidate, is_directory) ∈ done_ ++ (candidate, is_directory) :: rest) by set_solver.
      rewrite <- E, !elem_of_app in Hin. rewrite !Forall_forall in *.
      destruct Hin as [Hin | [Hin | Hin]]; apply list_elem_of_In, in_map_iff in Hin as (x & [= <- <-] & Hx%list_elem_of_In); auto.
    + intros key _. cbv zeta. apply (safely_fold (fun _ _ => True)); [done |]. intros. apply ancestor_step_safe.
  - intros found _. destruct found as [| d found]; [apply safely_fail |].
    eapply safely_bind; [apply key_comparison_safe, lengths_nonneg |]. intros _ _. by apply safely_ret.
Qed.

Lemma admit_dirs_safe logical_directories base lib b os dirs dir :
  admissible base -> admissible dir -> Forall admissible logical_directories -> buffers_ok b os ->
  safely (fun _ => True) (admit_dirs logical_directories base lib b dirs dir).
Proof.
  intros Hb Hd Hl Hok. pose proof (names_admissible b os Hok) as [Hs Hlib]%Forall_app.
  unfold admit_dirs.
  eapply safely_bind; [apply include_dirs_safe; [done | done | done | |]; by apply Forall_map |]. intros paths _.
  apply (safely_fold (fun _ _ => True)); [done |]. intros done_ path dirs' _ _.
  unfold admit_dir, charge_library_include_dir_entry.
  apply (safely_bind (fun _ => True)); [| intros ? _; by apply safely_ret].
  destruct (_ <=? _); [apply safely_fail |]. cbv zeta. destruct (_ <? _); [apply safely_over_limit |].
  pose proof sizes_nonneg. apply safely_charge_allocation_usize. unfold len. lia.
Qed.

(** ** Maps *)

Lemma offered_names b os new b' : offered b os new b' -> buffer_names b' = buffer_names b.
Proof. intros (_ & E1 & E2). unfold buffer_names. by rewrite E1, E2. Qed.

Section Maps.
Context (maps : list OwnedSource) (logical_directories : list bytes)
  (Maps : Forall (fun m => admissible (src_name m)) maps) (Dirs : Forall admissible logical_directories).

Lemma admit_entry_safe base dirs b os entry :
  admissible base -> entry_paths entry -> buffers_ok b os ->
  safely (fun st => offered b os (entry_offers (buffer_names b) base entry) st.2
                    /\ entry_matched (buffer_names b) base entry)
    (admit_entry logical_directories base (dirs, b) entry).
Proof.
  intros Hb [Hp Hd] Hok. unfold admit_entry. rewrite Forall_forall in Hd, Hp.
  eapply safely_bind.
  { apply (safely_fold (fun _ _ => True)); [done |]. intros done_ dir dirs' (rest & E) _.
    eapply admit_dirs_safe; try done. apply Hd. rewrite E. set_solver. }
  intros dirs' _. eapply safely_bind.
  { apply (offering_fold (pattern_offers (buffer_names b) base (entry_library entry))
             (fun p => matched_names base p (buffer_names b) <> [])); [exact Hok |].
    intros p b' os' Hin Hb' E1 E2.
    replace (buffer_names b) with (buffer_names b') by (unfold buffer_names; by rewrite E1, E2).
    apply admit_pattern_safe; [done | by apply Hp | done]. }
  intros b' Ho. by apply safely_ret.
Qed.

Lemma check_registered_safe seen candidate :
  admissible candidate -> safely (fun _ => True) (check_registered seen tt candidate).
Proof.
  intros Hc. unfold check_registered. safe_step. eapply safely_bind; [by apply key_safe |]. intros k _.
  destruct (seen !! k); [by apply safely_ret | apply safely_fail].
Qed.

Lemma check_include_safe seen base include :
  admissible base -> admissible include -> safely (fun _ => True) (check_include maps seen base tt include).
Proof.
  intros Hb Hi. unfold check_include. eapply safely_bind.
  { apply (safely_fold (fun _ found => Forall admissible found)); [constructor |].
    intros done_ m found (rest & E) Hf. unfold include_matches. safe_step.
    assert (Hm : admissible (src_name m)) by (rewrite Forall_forall in Maps; apply Maps; rewrite E; set_solver).
    eapply safely_bind; [by apply pattern_safe |]. intros r ->. apply safely_ret.
    destruct (name_matches _ _ _); [| done]. apply Forall_app_2; [done |]. by apply Forall_singleton. }
  intros found Hf. eapply safely_bind; [apply key_comparison_safe, lengths_nonneg |]. intros _ _.
  pose proof (merge_sort_Permutation bytes_le found) as Hp.
  destruct found as [| n found]; [apply safely_fail |].
  apply (safely_fold (fun _ _ => True)); [done |]. intros done_ m [] (rest & E) _. apply check_registered_safe.
  rewrite Forall_forall in Hf. apply Hf. rewrite <- Hp, E. set_solver.
Qed.

Lemma process_map_safe seen dirs b os map_ :
  map_paths map_ -> buffers_ok b os ->
  safely (fun st => offered b os (map_offers (buffer_names b) map_) st.2 /\ map_matched (buffer_names b) map_)
    (process_map maps logical_directories seen (dirs, b) map_).
Proof.
  destruct map_ as [name parsed]. intros (Hb & Hi & He) Hok. cbn [fst snd] in *. unfold process_map.
  do 3 safe_step. cbv zeta. rewrite Forall_forall in Hi. rewrite Forall_forall in He. eapply safely_bind.
  { apply (safely_fold (fun _ _ => True)); [done |]. intros done_ i [] (rest & E) _.
    apply check_include_safe; [done |]. apply Hi. rewrite E. set_solver. }
  intros _ _. unfold map_offers, map_matched. cbn [fst snd].
  set (base := logical_map_parent name) in *.
  apply (safely_fold (fun done st =>
    offered b os (concat (map (entry_offers (buffer_names b) base) done)) st.2
    /\ Forall (entry_matched (buffer_names b) base) done));
    [split; [by apply offered_nil | constructor] |].
  intros done_ entry [dirs' b'] (rest & E) [Ho Hd]. cbn [snd] in Ho. pose proof Ho as (Hb' & _ & _).
  eapply safely_weaken; [eapply admit_entry_safe; [done | apply He; rewrite E; set_solver | exact Hb'] |].
  intros [dirs'' b''] [Ho' Hm]. rewrite (offered_names _ _ _ _ Ho) in Ho', Hm. cbn [snd] in *.
  rewrite map_app, concat_app. cbn [map concat]. rewrite app_nil_r.
  split; [by eapply offered_trans | by apply Forall_app_2, Forall_singleton].
Qed.

Lemma process_maps_safe seen dirs b os parsed :
  Forall map_paths parsed -> buffers_ok b os ->
  safely (fun st => offered b os (maps_offers (buffer_names b) parsed) st.2
                    /\ Forall (map_matched (buffer_names b)) parsed)
    (fold_m (process_map maps logical_directories seen) parsed (dirs, b)).
Proof.
  intros Hp Hok. rewrite Forall_forall in Hp.
  apply (safely_fold (fun done st => offered b os (maps_offers (buffer_names b) done) st.2
                                     /\ Forall (map_matched (buffer_names b)) done));
    [split; [by apply offered_nil | constructor] |].
  intros done_ map_ [dirs' b'] (rest & E) [Ho Hd]. cbn [snd] in Ho. pose proof Ho as (Hb' & _ & _).
  eapply safely_weaken; [eapply process_map_safe; [apply Hp; rewrite E; set_solver | exact Hb'] |].
  intros [dirs'' b''] [Ho' Hm]. rewrite (offered_names _ _ _ _ Ho) in Ho', Hm. cbn [snd] in *.
  unfold maps_offers. rewrite map_app, concat_app. cbn [map concat]. rewrite app_nil_r.
  split; [by eapply offered_trans | by apply Forall_app_2, Forall_singleton].
Qed.
End Maps.

(** ** Reading the maps *)

Lemma in_map_safe {A} (Q : A -> Prop) name m : safely Q m -> safely Q (in_map name m).
Proof.
  intros Hm work Hok. unfold in_map. specialize (Hm work Hok). by destruct (m work) as [[a work'] | e | |].
Qed.

Lemma register_maps_safe maps :
  Forall (fun m => admissible (src_name m)) maps ->
  safely (fun st => Forall (fun m => admissible m.1) st.2) (fold_m register_map maps (∅, [])).
Proof.
  intros Hm. apply (safely_fold (fun _ st => Forall (fun m : bytes * bytes => admissible m.1) st.2)); [constructor |].
  intros done_ m [seen pending] (rest & E) Hp. rewrite Forall_forall in Hm.
  assert (Ha : admissible (src_name m)) by (apply Hm; rewrite E; set_solver).
  unfold register_map. safe_step. destruct (src_name m) as [| c n] eqn:En; [apply safely_invalid |]. rewrite <- En in *.
  eapply safely_bind; [by apply key_safe |]. intros k ->. destruct (seen !! _) as [retained |].
  - safe_step. destruct (bool_decide _); [by apply safely_ret | apply safely_invalid].
  - do 3 safe_step. unfold charge_library_map_text_allocation. safe_step. apply safely_ret. cbn [snd] in *.
    apply Forall_app_2; [done |]. by apply Forall_singleton.
Qed.

Lemma parse_pending_safe defines edition parsed b os map_ :
  admissible map_.1 -> buffers_ok b os ->
  safely (fun st => buffers_ok st.2 os) (parse_pending defines edition (parsed, b) map_).
Proof.
  destruct map_ as [name text]. intros Ha Hok. cbn [fst] in Ha. unfold parse_pending.
  eapply safely_bind; [apply in_map_safe, preprocess_safe |]. intros expanded _.
  eapply safely_bind; [apply in_map_safe, parse_safe |]. intros p _.
  apply (safely_bind (fun b' => buffers_ok b' os)).
  - destruct (map_configuration p); [| by apply safely_ret]. unfold charge_library_map_text_allocation. safe_step.
    by apply retain_configuration_safe.
  - intros b' Hb'. pose proof sizes_nonneg as (_ & _ & _ & _ & _ & S1 & _).
    eapply safely_bind; [by apply safely_charge_allocation_usize |]. intros _ _. by apply safely_ret.
Qed.

Lemma parse_maps_safe defines edition pending b os :
  Forall (fun m => admissible m.1) pending -> buffers_ok b os ->
  safely (fun st => buffers_ok st.2 os) (fold_m (parse_pending defines edition) pending ([], b)).
Proof.
  intros Hp Hok. rewrite Forall_forall in Hp. apply (safely_fold (fun _ st => buffers_ok st.2 os)); [done |].
  intros done_ m [parsed b'] (rest & E) Hb'. apply parse_pending_safe; [| done]. apply Hp. rewrite E. set_solver.
Qed.

(** The maps of a compilation, parsed, and its buffers with the configurations
    of the maps. *)
Definition read_maps (maps : list OwnedSource) (defines : list bytes) (edition : LanguageEdition)
    (srcs : list OwnedSource) (libs : list LibrarySource)
  : W (gmap (list bytes) bytes * list (bytes * ParsedLibraryMap) * LibraryMapBuffers) :=
  let* buffers := new_buffers srcs libs in
  let* (seen_maps, pending) := fold_m register_map maps (∅, []) in
  let* (parsed, buffers) := fold_m (parse_pending defines edition) pending ([], buffers) in
  ret (seen_maps, parsed, buffers).

Lemma read_maps_safe maps defines edition srcs libs :
  Forall (fun m => admissible (src_name m)) maps ->
  Forall (fun s => admissible (src_name s)) srcs -> Forall (fun s => admissible (lib_name s)) libs ->
  safely (fun r => buffers_ok r.2 (explicit libs)) (read_maps maps defines edition srcs libs).
Proof.
  intros Hm Hs Hl. unfold read_maps. eapply safely_bind; [by apply new_buffers_safe |]. intros b (Hb & _ & _).
  eapply safely_bind; [by apply register_maps_safe |]. intros [seen pending] Hp.
  eapply safely_bind; [by apply parse_maps_safe |]. intros [parsed b'] Hb'. by apply safely_ret.
Qed.

(** The driver is reading followed by processing and publication. *)
Lemma admit_reads maps defines edition logical_directories dirs srcs libs source_count source_limit remaining work :
  maps <> [] -> source_count <= source_limit ->
  admit_in_memory_library_maps_with_dirs maps defines edition logical_directories dirs srcs libs
    source_count source_limit remaining work
  = (let* (seen, parsed, buffers) := read_maps maps defines edition srcs libs in
     let* (dirs, buffers) := fold_m (process_map maps logical_directories seen) parsed (dirs, buffers) in
     let* published := finish buffers remaining in
     ret (dirs, published)) work.
Proof.
  intros Hm Hc. unfold admit_in_memory_library_maps_with_dirs, collect_in_memory_library_maps, read_maps.
  destruct maps as [| m maps]; [done |]. rewrite (proj2 (Z.ltb_ge _ _)) by lia. unfold bind.
  destruct (new_buffers srcs libs work) as [[b w1] | | |]; try done.
  destruct (fold_m register_map (m :: maps) (∅, []) w1) as [[[seen pending] w2] | | |]; try done.
  by destruct (fold_m (parse_pending defines edition) pending ([], b) w2) as [[[parsed b'] w3] | | |].
Qed.

(** A source that was published has the library its offers settle. *)
Lemma publishes_settled srcs libs os p s :
  publishes srcs libs os p -> s ∈ srcs ->
  (offers_to (source_key s) os = [] /\ s ∈ left_sources p)
  \/ (exists lib, settles lib (offers_to (source_key s) os) /\ published_as s lib ∈ all_libraries p).
Proof.
  intros (El & (new & Ea & Hnew) & Hamb) Hs.
  destruct (choice_cases (offers_to (source_key s) os)) as [[E _] | [(lib & r & Ec & Hset) | (lib & r & o & _ & Ha)]].
  - left. split; [done |]. rewrite El, list_elem_of_In, filter_In. rewrite bool_decide_true by done.
    split; [by apply list_elem_of_In | done].
  - right. exists lib. split; [done |]. rewrite Ea, Hnew. apply elem_of_app. right.
    apply list_elem_of_omap. exists s. split; [done |]. unfold assigned. by rewrite Ec.
  - by destruct (Hamb (source_key s)).
Qed.
End Layout.
