(* ===== verification/MapPrint.v ===== *)
(** * Printed library maps

    A library declaration can be written with its paths quoted; the parser
    reads such text back as the entries it was printed from. *)

From Stdlib Require Import ZArith Lia Ascii String.
From stdpp Require Import base list gmap strings.
From S2P Require Import Prelude Names MapWork MapPaths MapBuffers ChoiceFacts Macros MapParse ParseFacts.
Open Scope Z_scope.
Open Scope list_scope.

(** ** Lexemes *)

Inductive lexeme : Type := Word (w : bytes) | Quoted (c : bytes) | Mark (b : ascii).

Definition render (l : lexeme) : bytes :=
  match l with
  | Word w => w
  | Quoted c => quote :: c ++ [quote]
  | Mark b => [b]
  end.

Definition lexemes_text (ls : list lexeme) : bytes := concat (map (fun l => render l ++ unstr " ") ls).

(** A path that can stand between quotes: no quote or backslash, and not the
    text of a mark. *)
Definition quotable (c : bytes) : bool :=
  forallb (fun b => negb (Ascii.eqb b quote) && negb (Ascii.eqb b backslash)) c && utf8_valid c
  && negb (bool_decide (c = unstr ";")) && negb (bool_decide (c = unstr ",")).

Definition word_byte (b : ascii) : bool := identifier_byte b || Ascii.eqb b "-".

(** A word: identifier bytes, and not the word [config]. *)
Definition wordy (w : bytes) : bool :=
  match w with [] => false | _ => true end && forallb word_byte w && negb (starts_with (unstr "config") w).

Definition lexeme_ok (l : lexeme) : bool :=
  match l with
  | Word w => wordy w
  | Quoted c => quotable c
  | Mark b => Ascii.eqb b ";" || Ascii.eqb b ","
  end.

Definition lexeme_value (l : lexeme) : bytes := match l with Word w => w | Quoted c => c | Mark b => [b] end.
Definition lexeme_quoted (l : lexeme) : bool := match l with Quoted _ => true | _ => false end.

Definition lexeme_token (l : lexeme) (token : LibraryMapToken) : Prop :=
  tok_value token = lexeme_value l /\ quoted token = lexeme_quoted l /\ configuration token = None.

(** ** Computations that yield a value, at some cost *)

Definition yields {A} (v : A) (m : W A) : Prop := exists w a, costs (inr v) w a m.

Lemma yields_ret {A} (v : A) : yields v (ret v).
Proof. exists 0, 0. apply costs_ret. Qed.

Lemma yields_bind {A B} (u : A) (v : B) (m : W A) (k : A -> W B) : yields u m -> yields v (k u) -> yields v (bind m k).
Proof. intros (w & a & Hm) (w' & a' & Hk). exists (w + w'), (a + a'). by eapply costs_bind. Qed.

Lemma yields_clone value operation : yields tt (charge_library_map_clone value operation).
Proof. eexists _, _. apply costs_clone. Qed.

Lemma yields_charge n operation : 0 <= n -> yields tt (charge n operation).
Proof. eexists _, _. by apply costs_charge. Qed.

Lemma yields_charge_usize n operation : 0 <= n -> yields tt (charge_usize n operation).
Proof. eexists _, _. by apply costs_charge_usize. Qed.

Lemma yields_charge_allocation_usize n operation : 0 <= n -> yields tt (charge_allocation_usize n operation).
Proof. eexists _, _. by apply costs_charge_allocation_usize. Qed.

Lemma yields_push tokens value range offset operation :
  yields (tokens ++ [mkToken value false range offset]) (push_library_map_token tokens value range offset operation).
Proof. unfold push_library_map_token. eapply yields_bind; [apply yields_clone | apply yields_ret]. Qed.

(** ** Tokens of a printed text *)

Lemma here_lookup (pre rest : bytes) b : (pre ++ b :: rest) !! length pre = Some b.
Proof. by apply list_lookup_middle. Qed.

Lemma past_here (pre rest : bytes) b : drop (length pre + 1) (pre ++ b :: rest) = rest.
Proof. rewrite Nat.add_1_r, drop_app_ge by lia. by replace (S (length pre) - length pre)%nat with 1%nat by lia. Qed.

Lemma from_here (pre rest : bytes) : drop (length pre) (pre ++ rest) = rest.
Proof. apply drop_app_length. Qed.

Lemma byte_is_here pre rest b c : byte_is (pre ++ b :: rest) (length pre) c = Ascii.eqb b c.
Proof.
  unfold byte_is. rewrite here_lookup. destruct (Ascii.eqb_spec b c) as [-> | Hne].
  - by rewrite bool_decide_true.
  - by rewrite bool_decide_false by congruence.
Qed.

Lemma token_space fuel pre rest tokens :
  token_loop (S fuel) (pre ++ " "%char :: rest) (length pre) tokens
  = token_loop fuel ((pre ++ unstr " ") ++ rest) (length (pre ++ unstr " ")) tokens.
Proof.
  cbn [token_loop]. rewrite here_lookup. cbn. rewrite length_app, <- app_assoc. done.
Qed.

(** A byte that starts neither blanks, a configuration, nor a comment. *)
Definition starts_token (b : ascii) : bool := negb (is_ascii_whitespace b) && negb (Ascii.eqb b "/").

Lemma token_start fuel pre b rest tokens :
  starts_token b = true -> starts_with (unstr "config") (b :: rest) = false ->
  token_loop (S fuel) (pre ++ b :: rest) (length pre) tokens
  = if Ascii.eqb b quote then
      match quoted_length rest false with
      | None => invalid "unterminated library map string"
      | Some n =>
          let content := take n rest in
          charge_library_map_clone content "library map quoted token allocation" ;;;
          charge_allocation_usize (Z.of_nat n) "library map quoted token allocation" ;;;
          if negb (utf8_valid content) then invalid "library map quoted string is not valid UTF-8"
          else token_loop fuel (pre ++ b :: rest) (length pre + 1 + n + 1)
                 (tokens ++ [mkToken content true None (length pre)])
      end
    else if Ascii.eqb b ";" || Ascii.eqb b "," then
      let* tokens := push_library_map_token tokens [b] None (length pre) "library map punctuation token allocation" in
      token_loop fuel (pre ++ b :: rest) (length pre + 1) tokens
    else
      let n := run_of (fun c => negb (ends_token c)) (b :: rest) in
      let* tokens := push_library_map_token tokens (take n (b :: rest)) None (length pre)
                       "library map token allocation" in
      token_loop fuel (pre ++ b :: rest) (length pre + n) tokens.
Proof.
  intros [Hw Hs]%andb_prop Hc. apply negb_true_iff in Hw, Hs. cbn [token_loop]. rewrite here_lookup, Hw.
  unfold at_config, starts_library_map_line_comment. rewrite byte_is_here, Hs, from_here, Hc, past_here.
  rewrite andb_false_r. cbn [andb negb]. unfold advance_while. rewrite from_here.
  by replace (length pre + run_of (fun c => negb (ends_token c)) (b :: rest) - length pre)%nat
    with (run_of (fun c => negb (ends_token c)) (b :: rest)) by lia.
Qed.

Lemma quoted_length_plain c rest :
  forallb (fun b => negb (Ascii.eqb b quote) && negb (Ascii.eqb b backslash)) c = true ->
  quoted_length (c ++ quote :: rest) false = Some (length c).
Proof.
  induction c as [| b c IH]; [done |]. cbn [forallb]. intros [[Hq Hb]%andb_prop Hc]%andb_prop.
  apply negb_true_iff in Hq, Hb. cbn [app quoted_length]. rewrite Hq, Hb. cbn [andb]. by rewrite IH.
Qed.

Lemma run_of_app p w b rest : forallb p w = true -> p b = false -> run_of p (w ++ b :: rest) = length w.
Proof.
  intros Hw Hb. induction w as [| c w IH]; cbn [app run_of length forallb] in *; [by rewrite Hb |].
  apply andb_prop in Hw as [Hc Hw]. rewrite Hc. by rewrite IH.
Qed.

Lemma word_byte_inside b : word_byte b = true -> negb (ends_token b) && starts_token b && negb (Ascii.eqb b quote) = true.
Proof. destruct b as [[] [] [] [] [] [] [] []]; by vm_compute. Qed.

Lemma starts_with_blank p w rest : starts_with p w = false -> forallb word_byte w = true ->
  forallb word_byte p = true -> starts_with p (w ++ " "%char :: rest) = false.
Proof.
  revert w. induction p as [| c p IH]; intros w; [done |]. destruct w as [| d w]; cbn [app starts_with forallb].
  - intros _ _ [Hc _]%andb_prop. destruct (Ascii.eqb_spec c " "); [by subst | done].
  - intros Hs [_ Hw]%andb_prop [_ Hp]%andb_prop. destruct (Ascii.eqb c d); [| done]. by apply IH.
Qed.

Lemma forallb_mono {A} (p q : A -> bool) l :
  (forall x, p x = true -> q x = true) -> forallb p l = true -> forallb q l = true.
Proof. rewrite !forallb_forall. auto. Qed.

(** Reading one lexeme before a blank: what is left yields what the whole does. *)
Definition reads (l : lexeme) : Prop :=
  forall pre text tokens fuel, exists token, lexeme_token l token /\
    forall v : list LibraryMapToken,
      yields v (token_loop fuel (pre ++ render l ++ " "%char :: text) (length pre + length (render l)) (tokens ++ [token])) ->
      yields v (token_loop (S fuel) (pre ++ render l ++ " "%char :: text) (length pre) tokens).

Lemma word_reads w : wordy w = true -> reads (Word w).
Proof.
  unfold wordy. intros [[Hne Hw]%andb_prop Hc]%andb_prop pre text tokens fuel. apply negb_true_iff in Hc.
  destruct w as [| b w]; [done |]. pose proof Hw as [Hb _]%andb_prop.
  apply word_byte_inside in Hb as [[Hb Hs]%andb_prop Hq]%andb_prop. apply negb_true_iff in Hq.
  pose proof (token_start fuel pre b (w ++ " "%char :: text) tokens Hs (starts_with_blank _ (b :: w) text Hc Hw eq_refl)) as E.
  cbn [app render] in *. rewrite E, Hq. clear E.
  assert (Hp : Ascii.eqb b ";" || Ascii.eqb b "," = false).
  { unfold ends_token in Hb. by destruct (is_ascii_whitespace b), (Ascii.eqb b ";"), (Ascii.eqb b ","). }
  rewrite Hp. cbv zeta. change (b :: w ++ " "%char :: text) with ((b :: w) ++ " "%char :: text).
  exists (mkToken (b :: w) false None (length pre)). split; [done |]. intros v Hy.
  rewrite run_of_app, take_app_length; [| | done].
  - eapply yields_bind; [apply yields_push | exact Hy].
  - eapply forallb_mono; [| exact Hw]. intros x Hx. by apply word_byte_inside in Hx as [[? _]%andb_prop _]%andb_prop.
Qed.

Lemma quoted_reads c : quotable c = true -> reads (Quoted c).
Proof.
  unfold quotable. intros [[[Hp Hu]%andb_prop _]%andb_prop _]%andb_prop pre text tokens fuel.
  exists (mkToken c true None (length pre)). split; [done |]. intros v.
  cbn [app render]. rewrite <- app_assoc. cbn [app length]. rewrite length_app. cbn [length]. intros Hy.
  rewrite token_start by done. replace (Ascii.eqb quote quote) with true by done.
  rewrite quoted_length_plain by done. cbv zeta. rewrite take_app_length, Hu. cbn [negb].
  eapply yields_bind; [apply yields_clone |]. eapply yields_bind; [apply yields_charge_allocation_usize; lia |].
  by replace (length pre + 1 + length c + 1)%nat with (length pre + S (length c + 1))%nat by lia.
Qed.

Lemma mark_reads b : Ascii.eqb b ";" || Ascii.eqb b "," = true -> reads (Mark b).
Proof.
  intros Hb pre text tokens fuel. exists (mkToken [b] false None (length pre)). split; [done |]. intros v Hy.
  assert (H : starts_token b = true /\ Ascii.eqb b quote = false
              /\ forall rest, starts_with (unstr "config") (b :: rest) = false).
  { by apply orb_prop in Hb as [->%Ascii.eqb_eq | ->%Ascii.eqb_eq]. }
  destruct H as (Hs & Hq & Hc). cbn [app render] in *. rewrite token_start by done.
  rewrite Hq, Hb. eapply yields_bind; [apply yields_push | exact Hy].
Qed.

Lemma lexeme_reads l : lexeme_ok l = true -> reads l.
Proof. destruct l; [apply word_reads | apply quoted_reads | apply mark_reads]. Qed.

Lemma lexemes_yield ls pre tokens fuel :
  forallb lexeme_ok ls = true -> (length (lexemes_text ls) <= fuel)%nat ->
  exists new, Forall2 lexeme_token ls new
              /\ yields (tokens ++ new) (token_loop fuel (pre ++ lexemes_text ls) (length pre) tokens).
Proof.
  revert pre tokens fuel. induction ls as [| l ls IH]; intros pre tokens fuel Hok Hf.
  - exists []. split; [constructor |]. rewrite !app_nil_r. destruct fuel; cbn [token_loop]; unfold bytes in *;
      rewrite lookup_ge_None_2 by lia; apply yields_ret.
  - cbn [forallb] in Hok. apply andb_prop in Hok as [Hl Hok].
    assert (Et : lexemes_text (l :: ls) = render l ++ " "%char :: lexemes_text ls).
    { unfold lexemes_text. cbn. by rewrite <- app_assoc. }
    assert (Hr : (1 <= length (render l))%nat) by (destruct l as [[] | |]; cbn; [done | lia | lia | lia]).
    rewrite Et in Hf |- *. rewrite length_app in Hf. cbn [length] in Hf.
    destruct fuel as [| [| fuel]]; [lia | lia |].
    destruct (lexeme_reads l Hl pre (lexemes_text ls) tokens (S fuel)) as (token & Ht & Hread).
    destruct (IH ((pre ++ render l) ++ unstr " ") (tokens ++ [token]) fuel) as (new & Hn & Hy); [done | lia |].
    exists (token :: new). split; [by constructor |]. apply Hread.
    rewrite (app_assoc pre), <- length_app, token_space. by rewrite <- app_assoc in Hy.
Qed.

(** ** Declarations *)

Definition listed (paths : list bytes) : list lexeme :=
  match paths with
  | [] => []
  | p :: rest => Quoted p :: concat (map (fun q => [Mark ","; Quoted q]) rest)
  end.

(** A declaration: the name, the patterns, the directories, and the end. *)
Definition entry_lexemes (e : LibraryMapEntry) : list lexeme :=
  Word (unstr "library") :: Word (entry_library e) :: listed (patterns e)
  ++ match include_dirs e with [] => [] | dirs => Word (unstr "-incdir") :: listed dirs end
  ++ [Mark ";"].

Definition print_library_map (es : list LibraryMapEntry) : bytes := lexemes_text (concat (map entry_lexemes es)).

Definition printable (e : LibraryMapEntry) : bool :=
  wordy (entry_library e) && match patterns e with [] => false | _ => true end
  && forallb quotable (patterns e) && forallb quotable (include_dirs e).

Lemma listed_ok paths : forallb quotable paths = true -> forallb lexeme_ok (listed paths) = true.
Proof.
  destruct paths as [| p paths]; [done |]. cbn [forallb listed]. intros [Hp H]%andb_prop. cbn [lexeme_ok]. rewrite Hp.
  cbn [andb]. induction paths as [| q paths IH]; [done |]. cbn in *. apply andb_prop in H as [-> H]. by apply IH.
Qed.

Lemma entry_lexemes_ok e : printable e = true -> forallb lexeme_ok (entry_lexemes e) = true.
Proof.
  unfold printable. intros [[[Hn _]%andb_prop Hp]%andb_prop Hd]%andb_prop. unfold entry_lexemes.
  cbn [forallb lexeme_ok]. rewrite Hn. cbn [andb]. rewrite !forallb_app, listed_ok by done. cbn [andb forallb].
  destruct (include_dirs e) as [| d dirs]; [done |]. cbn [forallb lexeme_ok]. by rewrite listed_ok.
Qed.

(** The items of a declaration: quoted paths and commas. *)
Definition item (l : lexeme) : bool :=
  match l with Quoted c => quotable c | Mark b => Ascii.eqb b "," | Word _ => false end.

Definition paths_of (ls : list lexeme) : list bytes :=
  omap (fun l => match l with Quoted c => Some c | _ => None end) ls.

Lemma listed_paths paths : paths_of (listed paths) = paths.
Proof.
  destruct paths as [| p paths]; [done |]. cbn. f_equal. induction paths as [| q paths IH]; [done |]. cbn. by f_equal.
Qed.

Lemma listed_items paths : forallb quotable paths = true -> forallb item (listed paths) = true.
Proof.
  destruct paths as [| p paths]; [done |]. cbn [forallb listed]. intros [Hp H]%andb_prop. cbn [item]. rewrite Hp.
  cbn [andb]. induction paths as [| q paths IH]; [done |]. cbn in *. apply andb_prop in H as [-> H]. by apply IH.
Qed.

Lemma token_is_lexeme l token text :
  lexeme_token l token -> token_is token text = bool_decide (lexeme_value l = unstr text).
Proof. intros (Hv & _). unfold token_is. by rewrite Hv. Qed.

Lemma quotable_marks c :
  quotable c = true -> bool_decide (c = unstr ";") = false /\ bool_decide (c = unstr ",") = false.
Proof. intros [[_ H1]%andb_prop H2]%andb_prop. by apply negb_true_iff in H1, H2. Qed.

Lemma items_yield ls tokens fuel name rest (in_incdir : bool) pats dirs v :
  forallb item ls = true -> Forall2 lexeme_token ls tokens ->
  yields v (library_items fuel name rest in_incdir
              (if in_incdir then pats else pats ++ paths_of ls) (if in_incdir then dirs ++ paths_of ls else dirs)) ->
  yields v (library_items (length tokens + fuel) name (tokens ++ rest) in_incdir pats dirs).
Proof.
  intros Hi Ht. revert pats dirs. induction Ht as [| l token ls tokens Hl _ IH]; intros pats dirs.
  - cbn. by destruct in_incdir; rewrite app_nil_r.
  - cbn [forallb] in Hi. apply andb_prop in Hi as [Hil Hi]. specialize (IH Hi).
    cbn [app library_items length Nat.add]. rewrite !(token_is_lexeme l) by done.
    destruct l as [w | c | b]; [done | |]; cbn [item lexeme_value] in *.
    + destruct (quotable_marks c Hil) as [-> ->]. destruct Hl as (Hv & Hq & _). cbn in Hv, Hq.
      assert (Hc : incdir_clause (token :: tokens ++ rest) = None) by (unfold incdir_clause; by rewrite Hq).
      rewrite Hc, Hv. intros Hy. eapply yields_bind; [apply yields_clone |].
      destruct in_incdir; apply IH; rewrite <- app_assoc; exact Hy.
    + apply Ascii.eqb_eq in Hil. subst b. apply IH.
Qed.

Section Layout.
Context `{Layout}.

Lemma items_end fuel name token rest in_incdir pats dirs :
  lexeme_token (Mark ";") token ->
  yields (pats, dirs, in_incdir, token :: rest) (library_items fuel name (token :: rest) in_incdir pats dirs).
Proof.
  intros Ht. destruct fuel; cbn [library_items]; rewrite (token_is_lexeme _ _ _ Ht); cbn [lexeme_value];
    rewrite bool_decide_true by done; apply yields_ret.
Qed.

Lemma items_incdir fuel name token rest pats v :
  lexeme_token (Word (unstr "-incdir")) token ->
  yields v (library_items fuel name rest true pats []) ->
  yields v (library_items (S fuel) name (token :: rest) false pats []).
Proof.
  intros Ht Hy. cbn [library_items]. rewrite !(token_is_lexeme _ _ _ Ht). cbn [lexeme_value].
  do 2 rewrite bool_decide_false by done.
  assert (Hc : incdir_clause (token :: rest) = Some rest).
  { unfold incdir_clause. rewrite (token_is_lexeme _ _ _ Ht). destruct Ht as (_ & -> & _). cbn.
    by rewrite bool_decide_true. }
  by rewrite Hc.
Qed.

Lemma parse_library_yields e name items_ extra stop rest :
  printable e = true -> lexeme_token (Word (entry_library e)) name ->
  Forall2 lexeme_token (listed (patterns e)) items_ ->
  Forall2 lexeme_token (match include_dirs e with [] => [] | dirs => Word (unstr "-incdir") :: listed dirs end) extra ->
  lexeme_token (Mark ";") stop ->
  yields (e, stop :: rest) (parse_library (name :: items_ ++ extra ++ stop :: rest)).
Proof.
  unfold printable. intros [[[Hw Hn]%andb_prop Hp]%andb_prop Hd]%andb_prop Hname Hitems Hextra Hstop.
  unfold parse_library, operand. rewrite (token_is_lexeme _ _ _ Hname). cbn [lexeme_value].
  rewrite bool_decide_false by (intros E; by rewrite E in Hw).
  eapply yields_bind; [apply yields_ret |]. destruct Hname as (-> & _). cbn [lexeme_value]. eapply yields_bind; [apply yields_clone |].
  eapply (yields_bind (patterns e, include_dirs e, match include_dirs e with [] => false | _ => true end, stop :: rest)).
  - rewrite length_app. apply (items_yield (listed (patterns e))); [by apply listed_items | exact Hitems |].
    rewrite listed_paths. cbn [app].
    destruct (include_dirs e) as [| d dirs] eqn:Ed.
    + apply Forall2_nil_inv_l in Hextra as ->. by apply items_end.
    + apply Forall2_cons_inv_l in Hextra as (token & ds & Hinc & Hds & ->). cbn [app length].
      apply items_incdir; [done |]. rewrite length_app.
      apply (items_yield (listed (d :: dirs))); [by apply listed_items | exact Hds |]. rewrite listed_paths. by apply items_end.
  - destruct e as [lib pats dirs]. cbn in *. destruct pats as [| p pats]; [done |].
    destruct dirs; cbn [andb]; (eapply yields_bind; [by apply yields_charge | apply yields_ret]).
Qed.

Lemma declarations_yield es text tokens fuel ds :
  forallb printable es = true -> Forall2 lexeme_token (concat (map entry_lexemes es)) tokens ->
  (length tokens <= fuel)%nat ->
  yields (mkDeclarations (decl_includes ds) (decl_entries ds ++ es) (decl_ranges ds))
    (declarations_loop fuel text tokens ds).
Proof.
  revert tokens fuel ds. induction es as [| e es IH]; intros tokens fuel ds He Ht Hf.
  - apply Forall2_nil_inv_l in Ht as ->. rewrite app_nil_r. destruct ds, fuel; apply yields_ret.
  - cbn [forallb] in He. apply andb_prop in He as [He Hes].
    cbn [map concat] in Ht. unfold entry_lexemes in Ht. cbn [app] in Ht. rewrite <- !app_assoc in Ht.
    apply Forall2_cons_inv_l in Ht as (library & t1 & Hlib & Ht & ->).
    apply Forall2_cons_inv_l in Ht as (name & t2 & Hname & Ht & ->).
    apply Forall2_app_inv_l in Ht as (items_ & t3 & Hitems & Ht & ->).
    apply Forall2_app_inv_l in Ht as (extra & t4 & Hextra & Ht & ->).
    apply Forall2_cons_inv_l in Ht as (stop & rest & Hstop & Hrest & ->).
    destruct fuel as [| fuel]; [cbn in Hf; lia |]. cbn [declarations_loop].
    rewrite !(token_is_lexeme _ _ _ Hlib). destruct Hlib as (_ & _ & ->). cbn [lexeme_value].
    do 2 rewrite bool_decide_false by done. rewrite bool_decide_true by done.
    eapply yields_bind; [by apply parse_library_yields |]. unfold expect_semicolon.
    rewrite (token_is_lexeme _ _ _ Hstop). cbn [lexeme_value]. rewrite bool_decide_true by done.
    eapply yields_bind; [apply yields_ret |].
    specialize (IH rest fuel (mkDeclarations (decl_includes ds) (decl_entries ds ++ [e]) (decl_ranges ds)) Hes Hrest).
    cbn [decl_includes decl_entries decl_ranges] in IH. rewrite <- app_assoc in IH. apply IH.
    cbn [length] in Hf. rewrite !length_app in Hf. cbn [length] in Hf. lia.
Qed.

Lemma print_yields es : forallb printable es = true -> yields (mkParsed [] es None) (parse_library_map (print_library_map es)).
Proof.
  intros He. unfold parse_library_map. eapply yields_bind; [apply yields_charge_usize; unfold len; lia |].
  set (ls := concat (map entry_lexemes es)).
  assert (Hls : forallb lexeme_ok ls = true).
  { unfold ls. clear ls. induction es as [| e es IH]; [done |]. cbn [forallb map concat] in *.
    apply andb_prop in He as [He Hes]. rewrite forallb_app, entry_lexemes_ok by done. by apply IH. }
  destruct (lexemes_yield ls [] [] (length (lexemes_text ls)) Hls (Nat.le_refl _)) as (tokens & Ht & Hy).
  eapply yields_bind; [exact Hy |]. cbn [app].
  eapply yields_bind; [by apply (declarations_yield es) |]. cbn [decl_includes decl_entries decl_ranges app].
  eapply yields_bind; apply yields_ret.
Qed.

(** C36: printed library maps parse back: for entries whose names are words and
    whose paths can stand between quotes, there is a budget from which on the
    parser reads the printed declarations as exactly these entries, in order,
    with their patterns and include directories, and no includes or
    configurations; under a smaller budget it gives the limit error. *)
Theorem map_roundtrip es :
  forallb printable es = true ->
  exists steps bytes, 0 <= steps /\ 0 <= bytes /\ forall work, work_ok work ->
    if fits work steps bytes
    then parse_library_map (print_library_map es) work = Done (mkParsed [] es None, spent work steps bytes)
    else fails (fun e => kind e = LimitExceeded) (parse_library_map (print_library_map es) work).
Proof.
  intros He. destruct (print_yields es He) as (w & a & Hw & Ha & C). exists w, a. split_and!; [done | done |].
  intros work Hok. exact (C work Hok).
Qed.
End Layout.

(** Sizes for examples. *)
Definition sample_layout : Layout.
Proof. refine (Build_Layout 88 88 8 48 16 72 48 _). abstract (repeat constructor; lia). Defined.

Definition printed_sample : list LibraryMapEntry :=
  [mkMapEntry (unstr "rtl") (map unstr ["a b.v"; "sub/*.v"]%string) (map unstr ["inc"; "../x"]%string);
   mkMapEntry (unstr "gates") [unstr "/*/x.v"] []].

Lemma map_roundtrip_witness :
  str (print_library_map [mkMapEntry (unstr "lib") [unstr "a.v"; unstr "b.v"] []])
  = ("library lib " ++ String quote "a.v" ++ String quote " , " ++ String quote "b.v" ++ String quote " ; ")%string
  /\ forallb printable printed_sample = true
  /\ exists steps bytes, 0 <= steps /\ 0 <= bytes /\ forall work, work_ok work ->
       if fits work steps bytes
       then parse_library_map (H := sample_layout) (print_library_map printed_sample) work
            = Done (mkParsed [] printed_sample None, spent work steps bytes)
       else fails (fun e => kind e = LimitExceeded)
              (parse_library_map (H := sample_layout) (print_library_map printed_sample) work).
Proof.
  split; [vm_compute; reflexivity |]. split; [vm_compute; reflexivity |].
  apply (map_roundtrip (H := sample_layout) printed_sample). vm_compute. reflexivity.
Defined.
