(* ===== verification/MapClaims.v ===== *)
(** * Properties of library maps

    Path keys and patterns, macro expansion, reading of maps, and the libraries
    that maps assign. *)

From Stdlib Require Import ZArith Lia Ascii String.
From stdpp Require Import base list gmap strings sorting.
From S2P Require Import Prelude Names Total MapWork MapPaths GlobFacts MapBuffers ChoiceFacts Macros MapParse ParseFacts Admission AdmissionFacts MapPrint.
Open Scope Z_scope.
Open Scope list_scope.

(** A budget for examples. *)
Definition sample_work : LibraryMapWorkBudget := with_allocation_limit 100000 100000.

Lemma sample_ok : work_ok sample_work.
Proof. by split. Qed.

(** ** Patterns *)





(** ** Macros *)

(** C37: macro expansion is bounded and deterministic in its budget: recursive
    definitions included, it returns or fails with the expansion limit; what it
    returns was charged to the budget byte by byte, so it is never longer than
    the budget had; a text without macro calls is returned as it is; and a
    larger budget gives the same text. *)
Theorem expansion_bounded macros text b :
  match expand_macros macros text b with
  | Done (out, b') =>
      len out <= budget_bytes b - budget_bytes b'
      /\ (0 <= budget_bytes b -> len out <= budget_bytes b)
      /\ budget_work b' <= budget_work b
      /\ (no_backquote text = true -> out = text)
      /\ forall bytes work, 0 <= bytes -> 0 <= work ->
           expand_macros macros text (more b bytes work) = Done (out, more b' bytes work)
  | Fail e => e = expansion_limit
  | Panic _ | NoFuel => False
  end.
Proof.
  pose proof (expand_expander macros (S MAX_MACRO_EXPANSION_DEPTH) [] text b) as H.
  pose proof (expand_steady macros (S MAX_MACRO_EXPANSION_DEPTH) [] text b) as St.
  pose proof (expand_plain macros text b) as Pl. unfold expand_macros in *.
  destruct (expand_macro_text macros (S MAX_MACRO_EXPANSION_DEPTH) [] text b) as [[out b'] | e | |]; [| done | done | done].
  destruct H as (_ & H1 & H2 & H3). split_and!; [done | lia | done | | intros; by apply St].
  intros Hn. by eapply Pl.
Qed.

(** ** Reading *)

(** C30: reading a library map never panics and always ends: for every text,
    definitions and edition, preprocessing and parsing return a map or an
    error; in the map every library has a source pattern, and the configuration
    text it projects has the length and the lines of the expanded map, every
    byte shown at its own place or blanked. *)
Theorem map_text_total `{Layout} text defines edition work :
  work_ok work ->
  match preprocess_library_map text defines edition work with
  | Done (expanded, work1) =>
      match parse_library_map expanded work1 with
      | Done (parsed, work2) => parsed_from expanded parsed /\ work_ok work2
      | Fail _ => True
      | Panic _ | NoFuel => False
      end
  | Fail _ => True
  | Panic _ | NoFuel => False
  end.
Proof.
  intros Hok. pose proof (preprocess_safe text defines edition work Hok) as H1.
  destruct (preprocess_library_map text defines edition work) as [[expanded work1] | | |]; [| done | done | done].
  destruct H1 as [_ Hok1]. pose proof (parse_safe expanded work1 Hok1) as H2.
  by destruct (parse_library_map expanded work1) as [[parsed work2] | | |].
Qed.

Definition sample_map : bytes :=
  unstr "`define DIR sub
// the design
library rtl a.v, `DIR/;
library gates sub/nand.v -incdir sub;
config c; design rtl.a; endconfig
".

Lemma map_text_total_witness :
  work_ok sample_work
  /\ exists expanded work1 parsed work2,
       preprocess_library_map sample_map [] SystemVerilog2009 sample_work = Done (expanded, work1)
       /\ parse_library_map (H := sample_layout) expanded work1 = Done (parsed, work2)
       /\ map entry_library (map_entries parsed) = [unstr "rtl"; unstr "gates"]
       /\ parsed_from expanded parsed.
Proof.
  split; [exact sample_ok |].
  pose proof (map_text_total (H := sample_layout) sample_map [] SystemVerilog2009 sample_work sample_ok) as T.
  remember (preprocess_library_map sample_map [] SystemVerilog2009 sample_work) as o eqn:Eo.
  vm_compute in Eo. subst o.
  match type of T with
  | match parse_library_map ?e ?w with _ => _ end =>
      remember (parse_library_map (H := sample_layout) e w) as o eqn:Eo; pose proof Eo as Ep; vm_compute in Eo; subst o
  end.
  destruct T as [T _]. do 4 eexists. split; [reflexivity |]. split; [symmetry; exact Ep |].
  split; [reflexivity | exact T].
Defined.

(** ** Libraries *)

(** C11: admission of in-memory maps assigns the libraries the maps say. With
    the maps read (registered, preprocessed, parsed) and their paths regular,
    the driver returns or fails, without panics. When it returns, every
    pattern of every map matched a buffer; the buffers are published by the
    offers of the explicit assignments and of the patterns, in the order of the
    maps: a source that no pattern matches stays a source, any other is moved
    to the library with the highest rank among its offers; and no buffer has
    two libraries at that rank. When reading fails, the driver fails with the
    same error. *)
Theorem library_assignment `{Layout} maps defines edition logical_directories dirs srcs libs source_count source_limit
    remaining work :
  maps <> [] -> source_count <= source_limit -> work_ok work ->
  Forall (fun m => admissible (src_name m)) maps -> Forall admissible logical_directories ->
  Forall (fun s => admissible (src_name s)) srcs -> Forall (fun s => admissible (lib_name s)) libs ->
  match read_maps maps defines edition srcs libs work with
  | Done (_, parsed, buffers, _) =>
      Forall map_paths parsed ->
      let os := explicit libs ++ maps_offers (buffer_names buffers) parsed in
      match admit_in_memory_library_maps_with_dirs maps defines edition logical_directories dirs srcs libs
              source_count source_limit remaining work with
      | Done (_, published, _) =>
          Forall (map_matched (buffer_names buffers)) parsed
          /\ publishes (sources buffers) (libraries buffers) os published
          /\ forall s, s ∈ sources buffers ->
               (offers_to (source_key s) os = [] /\ s ∈ left_sources published)
               \/ (exists lib, settles lib (offers_to (source_key s) os)
                               /\ published_as s lib ∈ all_libraries published)
      | Fail _ => True
      | Panic _ | NoFuel => False
      end
  | Fail e =>
      admit_in_memory_library_maps_with_dirs maps defines edition logical_directories dirs srcs libs
        source_count source_limit remaining work = Fail e
  | Panic _ | NoFuel => False
  end.
Proof.
  intros Hm Hc Hok Am Ad As Al.
  rewrite (admit_reads maps defines edition logical_directories dirs srcs libs source_count source_limit remaining work Hm Hc).
  pose proof (read_maps_safe maps defines edition srcs libs Am As Al work Hok) as Hr.
  unfold bind at 1. unfold bind at 3.
  destruct (read_maps maps defines edition srcs libs work) as [[[[seen parsed] buffers] work1] | e | |]; [| done | done | done].
  destruct Hr as [Hb Hok1]. cbn [snd] in Hb. intros Hp. set (os := explicit libs ++ _).
  pose proof (process_maps_safe maps logical_directories Am Ad seen dirs buffers (explicit libs) parsed Hp Hb work1 Hok1) as Hpr.
  unfold bind at 1.
  destruct (fold_m _ parsed (dirs, buffers) work1) as [[[dirs' b'] work2] | e | |]; [| done | done | done].
  destruct Hpr as [[(Hb' & Es & El) Hmat] Hok2]. cbn [snd] in *.
  pose proof (finish_safe b' remaining os Hb' work2 Hok2) as Hf. unfold bind.
  destruct (finish b' remaining work2) as [[published work3] | e | |]; [| done | done | done].
  destruct Hf as [Hf _]. rewrite Es, El in Hf. cbn. split_and!; [done | done |].
  intros s Hs. by eapply publishes_settled.
Qed.

Definition sample_source (file : string) : OwnedSource := compilation_unit (unstr file) (unstr "module m; endmodule").
Definition sample_maps : list OwnedSource := [include_source (unstr "lib.map") sample_map].
Definition sample_sources : list OwnedSource := map sample_source ["a.v"; "sub/nand.v"; "sub/or.v"; "top.v"]%string.

(** What the example map says, and what its admission publishes. *)
Definition sample_reading : option (list (bytes * ParsedLibraryMap)) :=
  match read_maps (H := sample_layout) sample_maps [] SystemVerilog2009 sample_sources [] sample_work with
  | Done (_, parsed, _, _) => Some parsed
  | _ => None
  end.

Definition sample_admission : option (list (string * string)) :=
  match admit_in_memory_library_maps_with_dirs (H := sample_layout) sample_maps [] SystemVerilog2009 [] []
          sample_sources [] 4 10 1000 sample_work with
  | Done (_, published, _) => Some (map (fun l => (str (lib_name l), str (library l))) (all_libraries published))
  | _ => None
  end.

(** [map_paths], decided. *)
Definition admissibleb (text : bytes) : bool := utf8_valid text && regular text.
Definition map_pathsb (map_ : bytes * ParsedLibraryMap) : bool :=
  admissibleb (logical_map_parent map_.1) && forallb admissibleb (includes map_.2)
  && forallb (fun e => forallb (fun p => admissibleb (match_text p)) (patterns e) && forallb admissibleb (include_dirs e))
       (map_entries map_.2).

Lemma forallb_implies_Forall {A} (p : A -> bool) (P : A -> Prop) l :
  (forall x, p x = true -> P x) -> forallb p l = true -> Forall P l.
Proof. intros Hp. induction l as [| x l IH]; cbn; [constructor |]. intros [Hx Hl]%andb_prop. constructor; auto. Qed.

Lemma admissibleb_ok text : admissibleb text = true -> admissible text.
Proof. by intros [H1 H2]%andb_prop. Qed.

Lemma map_pathsb_ok map_ : map_pathsb map_ = true -> map_paths map_.
Proof.
  unfold map_pathsb. intros [[H1 H2]%andb_prop H3]%andb_prop. split_and!; [by apply admissibleb_ok | |].
  - eapply forallb_implies_Forall; [exact admissibleb_ok | done].
  - eapply forallb_implies_Forall; [| done]. intros e [E1 E2]%andb_prop.
    split; (eapply forallb_implies_Forall; [| done]); intros; by apply admissibleb_ok.
Qed.

Lemma sample_reading_paths :
  match sample_reading with Some parsed => forallb map_pathsb parsed = true | None => False end.
Proof. vm_compute. reflexivity. Qed.

(** Two libraries at two ranks, a directory, and a source that no pattern
    matches. *)
Lemma library_assignment_witness :
  sample_admission = Some [("a.v", "rtl"); ("sub/or.v", "rtl"); ("sub/nand.v", "gates")]%string
  /\ match read_maps (H := sample_layout) sample_maps [] SystemVerilog2009 sample_sources [] sample_work,
           admit_in_memory_library_maps_with_dirs (H := sample_layout) sample_maps [] SystemVerilog2009 [] []
             sample_sources [] 4 10 1000 sample_work with
     | Done (_, parsed, buffers, _), Done (_, published, _) =>
         publishes (sources buffers) (libraries buffers) (maps_offers (buffer_names buffers) parsed) published
     | _, _ => False
     end.
Proof.
  assert (E : sample_admission = Some [("a.v", "rtl"); ("sub/or.v", "rtl"); ("sub/nand.v", "gates")]%string)
    by (vm_compute; reflexivity).
  split; [exact E |].
  pose proof (library_assignment (H := sample_layout) sample_maps [] SystemVerilog2009 [] [] sample_sources [] 4 10 1000
                sample_work) as T.
  specialize (T ltac:(discriminate) ltac:(lia) sample_ok).
  specialize (T ltac:(repeat constructor) ltac:(repeat constructor) ltac:(repeat constructor) ltac:(repeat constructor)).
  pose proof sample_reading_paths as P. unfold sample_reading in P. unfold sample_admission in E.
  destruct (read_maps _ _ _ _ _ _) as [[[[seen parsed] buffers] work1] | | |]; [| done | done | done].
  specialize (T (forallb_implies_Forall _ _ _ map_pathsb_ok P)).
  destruct (admit_in_memory_library_maps_with_dirs _ _ _ _ _ _ _ _ _ _ _) as [[[dirs published] work2] | | |];
    [| done | done | done].
  apply T.
Defined.

(** ** A network path with a doubled separator *)

(** The prefix of a network path is cut by the lengths of its host and share, as
    if one separator stood between them: with two, the end of the share is
    listed again as a component, and a share that ends in a character of
    several bytes makes the slice panic. *)
Lemma doubled_separator_share work :
  logical_components_from_text (unstr "//host//share/x.v") work
  = Done (map unstr ["//host/share"; "e"; "x.v"]%string, work)
  /\ logical_components_from_text (unstr "//a//b/c") work = Done (map unstr ["//a/b"; "b"; "c"]%string, work)
  /\ exists why, logical_components_from_text (unstr "//a//" ++ ["195"; "169"]%char) work = Panic why.
Proof. split; [by vm_compute |]. split; [by vm_compute |]. eexists. by vm_compute. Qed.
