(* ===== verification/Discover.v ===== *)
(** * Source discovery

    Path normalization, glob matching and the discovery walk of
    [src/config/paths.rs]. A path is the sequence of its components, as
    [Path::components] lists them; a file name is its characters; the part of
    the file system below a directory is a tree. *)

From Stdlib Require Import ZArith Lia Ascii String.
From stdpp Require Import base list gmap strings sorting.
From S2P Require Import Prelude Text.
Open Scope Z_scope.
Open Scope list_scope.

Inductive Component : Type :=
| Prefix (name : text)
| RootDir
| CurDir
| ParentDir
| Normal (name : text).

#[export] Instance component_eq_dec : EqDecision Component.
Proof. solve_decision. Defined.

Notation Path := (list Component).

(** [Path::is_absolute]. *)
Definition is_absolute (path : Path) : bool :=
  match path with RootDir :: _ | Prefix _ :: RootDir :: _ => true | _ => false end.

(** ** Kinds of files *)

Inductive SourceFileKind : Type := Verilog | SystemVerilog | VerilogHeader | SystemVerilogHeader.

Definition dot : Z := 46.
Definition slash : Z := 47.
Definition backslash_char : Z := 92.
Definition star_char : Z := 42.
Definition question_char : Z := 63.

(** [Path::file_name]. *)
Definition file_name (path : Path) : option text :=
  match last path with Some (Normal name) => Some name | _ => None end.

(** The text after the last dot, unless the name has none after its first
    character ([Path::extension]). *)
Fixpoint after_last_dot (name : text) : option text :=
  match name with
  | [] => None
  | c :: rest =>
      match after_last_dot rest with
      | Some found => Some found
      | None => if c =? dot then Some rest else None
      end
  end.

Definition extension (path : Path) : option text :=
  match file_name path with
  | Some (_ :: rest) => after_last_dot rest
  | _ => None
  end.

Definition to_ascii_lowercase (t : text) : text := map (fun c => if between 65 90 c then c + 32 else c) t.

Definition from_path (path : Path) : option SourceFileKind :=
  match extension path with
  | None => None
  | Some e =>
      let e := to_ascii_lowercase e in
      if bool_decide (e = chars "v") then Some Verilog
      else if bool_decide (e = chars "sv") then Some SystemVerilog
      else if bool_decide (e = chars "vh") then Some VerilogHeader
      else if bool_decide (e = chars "svh") then Some SystemVerilogHeader
      else None
  end.

Definition is_source_file (path : Path) : bool := match from_path path with Some _ => true | None => false end.

Definition is_compilation_unit (path : Path) : bool :=
  match from_path path with Some (Verilog | SystemVerilog) => true | _ => false end.

(** ** Normalization *)

(** [PathBuf::pop]: a root or prefix stays. *)
Definition pop (path : Path) : Path :=
  match last path with Some (Normal _) => removelast path | _ => path end.

Definition absolute_step (normalized : Path) (component : Component) : Path :=
  match component with
  | Prefix _ | RootDir | Normal _ => normalized ++ [component]
  | CurDir => normalized
  | ParentDir => pop normalized
  end.

Definition normalize_absolute_path (path : Path) : option Path :=
  if is_absolute path then Some (fold_left absolute_step path []) else None.

Fixpoint normal_components (path : Path) : option Path :=
  match path with
  | [] => Some []
  | CurDir :: rest => normal_components rest
  | Normal name :: rest => (fun p => Normal name :: p) <$> normal_components rest
  | (ParentDir | RootDir | Prefix _) :: _ => None
  end.

Definition normalize_relative_path (path : Path) : option Path :=
  if is_absolute path then None else normal_components path.

(** [Path::strip_prefix]. *)
Fixpoint strip_prefix (root path : Path) : option Path :=
  match root, path with
  | [], _ => Some path
  | c :: root', d :: path' => if decide (c = d) then strip_prefix root' path' else None
  | _ :: _, [] => None
  end.

Definition root_relative_path (root path : Path) : option Path :=
  match normalize_absolute_path root, normalize_absolute_path path with
  | Some root, Some path =>
      match strip_prefix root path with Some rest => normalize_relative_path rest | None => None end
  | _, _ => None
  end.

(** ** Patterns *)

(** [str::split]. *)
Fixpoint split_char (c : Z) (t : text) : list text :=
  match t with
  | [] => [[]]
  | d :: rest =>
      if d =? c then [] :: split_char c rest
      else match split_char c rest with w :: ws => (d :: w) :: ws | [] => [[d]] end
  end.

Fixpoint join_slash (parts : list text) : text :=
  match parts with
  | [] => []
  | [p] => p
  | p :: rest => p ++ slash :: join_slash rest
  end.

Fixpoint pattern_components (parts : list text) : option (list text) :=
  match parts with
  | [] => Some []
  | p :: rest =>
      if is_empty p || bool_decide (p = [dot]) then pattern_components rest
      else if bool_decide (p = [dot; dot]) then None
      else (fun ps => p :: ps) <$> pattern_components rest
  end.

Definition normalize_relative_pattern (pattern : text) : option text :=
  let pattern := map (fun c => if c =? backslash_char then slash else c) pattern in
  match pattern with
  | c :: _ => if c =? slash then None else join_slash <$> pattern_components (split_char slash pattern)
  | [] => join_slash <$> pattern_components (split_char slash pattern)
  end.

Definition relative_components (path : Path) : option (list text) :=
  match normalize_relative_path path with
  | None => None
  | Some path => Some (omap (fun c => match c with Normal part => Some part | _ => None end) path)
  end.

Definition normalized_pattern_components (pattern : text) : option (list text) :=
  match normalize_relative_pattern pattern with
  | None => None
  | Some [] => Some []
  | Some pattern => Some (split_char slash pattern)
  end.

(** ** Matching tables *)

Definition Table : Type := list (list bool).

Definition get_cell (t : Table) (i j : nat) : bool :=
  match t !! i with Some row => default false (row !! j) | None => false end.

(** [table[i][j] = true]; the loops stay inside the table. *)
Definition set_cell (t : Table) (i j : nat) : Table := alter (fun row => <[j := true]> row) i t.

Definition new_table (rows columns : nat) : Table :=
  set_cell (replicate (S rows) (replicate (S columns) false)) 0 0.

(** The cells of a table of [rows] rows, row by row. *)
Definition cells (rows columns : nat) : list (nat * nat) :=
  concat (map (fun i => map (fun j => (i, j)) (seq 0 columns)) (seq 0 rows)).

Definition STARS : text := [star_char; star_char].

(** The body of the loops of [component_glob_matches]. *)
Definition character_step (value pattern : text) (t : Table) (cell : nat * nat) : Table :=
  let '(i, j) := cell in
  if negb (get_cell t i j) then t
  else
    match pattern !! j with
    | None => t
    | Some p =>
        if p =? star_char then
          let t := set_cell t i (j + 1) in
          if Nat.ltb i (length value) then set_cell t (i + 1) j else t
        else
          match value !! i with
          | Some c => if (p =? question_char) || (p =? c) then set_cell t (i + 1) (j + 1) else t
          | None => t
          end
    end.

Definition component_glob_matches (value pattern : text) : bool :=
  get_cell
    (fold_left (character_step value pattern) (cells (S (length value)) (length pattern))
       (new_table (length value) (length pattern)))
    (length value) (length pattern).

(** The body of the loops of [glob_components_match] and
    [pattern_prefix_matches]. *)
Definition component_step (path pattern : list text) (t : Table) (cell : nat * nat) : Table :=
  let '(i, j) := cell in
  if negb (get_cell t i j) then t
  else
    match pattern !! j with
    | None => t
    | Some p =>
        if bool_decide (p = STARS) then
          let t := set_cell t i (j + 1) in
          if Nat.ltb i (length path) then set_cell t (i + 1) j else t
        else
          match path !! i with
          | Some c => if component_glob_matches c p then set_cell t (i + 1) (j + 1) else t
          | None => t
          end
    end.

Definition glob_components_match (path pattern : list text) : bool :=
  get_cell
    (fold_left (component_step path pattern) (cells (S (length path)) (length pattern))
       (new_table (length path) (length pattern)))
    (length path) (length pattern).

Definition pattern_prefix_matches (path : Path) (pattern : text) : bool :=
  match relative_components path, normalized_pattern_components pattern with
  | Some path, Some pattern =>
      let t := fold_left (component_step path pattern) (cells (S (length path)) (S (length pattern)))
                 (new_table (length path) (length pattern)) in
      match t !! length path with Some row => existsb id row | None => false end
  | _, _ => false
  end.

Definition matches_root_relative_pattern (path : Path) (pattern : text) : bool :=
  match relative_components path, normalized_pattern_components pattern with
  | Some path, Some pattern => glob_components_match path pattern
  | _, _ => false
  end.

Definition glob_matches (path : Path) (pattern : text) : bool := matches_root_relative_pattern path pattern.

(** ** Filters *)

Record DiscoveryFilters : Type := mkFilters { include_patterns : list text; exclude_patterns : list text }.

Definition new_filters (include exclude : list text) : DiscoveryFilters :=
  mkFilters (omap normalize_relative_pattern include) (omap normalize_relative_pattern exclude).

(** The paths from the root to a path. *)
Definition ancestor_paths (path : Path) : list Path :=
  match normalize_relative_path path with
  | None => []
  | Some path => map (fun n => take n path) (seq 0 (S (length path)))
  end.

Definition is_excluded (filters : DiscoveryFilters) (relative : Path) : bool :=
  existsb (fun ancestor => existsb (glob_matches ancestor) (exclude_patterns filters)) (ancestor_paths relative).

(** Whether an include pattern could match a file below the directory. *)
Definition include_reaches (relative : Path) (pattern : text) : bool :=
  match normalized_pattern_components pattern with
  | None | Some [] => false
  | Some components =>
      if forallb (fun c => bool_decide (c = STARS)) components then true
      else pattern_prefix_matches relative (join_slash (removelast components))
  end.

Definition allows_directory (filters : DiscoveryFilters) (relative : Path) : bool :=
  match normalize_relative_path relative with
  | None => false
  | Some relative =>
      if is_excluded filters relative then false
      else
        match include_patterns filters with
        | [] => false
        | include => existsb (include_reaches relative) include
        end
  end.

Definition allows_file (filters : DiscoveryFilters) (relative_file : Path) : bool :=
  match normalize_relative_path relative_file with
  | None => false
  | Some relative_file =>
      if is_excluded filters relative_file then false
      else
        negb (match include_patterns filters with [] => true | _ => false end)
        && existsb (glob_matches relative_file) (include_patterns filters)
  end.

(** ** The walk *)

(** What a directory entry is, without following links: a regular file, a
    directory with its entries (or none, when it cannot be read), or anything
    else. *)
Inductive Node : Type :=
| Regular
| Directory (contents : option (list (text * Node)))
| Special.

Record DiscoveredFile : Type := mkDiscovered { at_path : Path; relative_path : Path; file_kind : SourceFileKind }.

#[export] Instance component_countable : Countable Component.
Proof.
  refine (inj_countable' (fun c => match c with
            | Prefix n => inl n | RootDir => inr (inl 0) | CurDir => inr (inl 1)
            | ParentDir => inr (inl 2) | Normal n => inr (inr n) end)
          (fun s => match s with
            | inl n => Prefix n | inr (inl 0) => RootDir | inr (inl 1) => CurDir
            | inr (inl _) => ParentDir | inr (inr n) => Normal n end) _).
  by intros [].
Defined.

Inductive WalkError : Type := InvalidInput | NotADirectory | Unreadable (directory : Path).

(** Lexicographic order, of characters, and of the entries of a directory. *)
Fixpoint text_leb (a b : text) : bool :=
  match a, b with
  | [], _ => true
  | _ :: _, [] => false
  | c :: a', d :: b' => if c =? d then text_leb a' b' else c <? d
  end.
Definition entry_le (a b : text * Node) : Prop := text_leb a.1 b.1 = true.
#[export] Instance entry_le_dec : RelDecision entry_le := fun a b => decide (text_leb a.1 b.1 = true).

Notation Found := (gmap Path (Path * SourceFileKind)).
Definition Pending : Type := list (Path * Path * option (list (text * Node))).

(** One entry of a directory: a directory is pushed, a file kept once. *)
Definition walk_entry (filters : DiscoveryFilters) (directory relative_directory : Path) (st : Pending * Found)
    (entry : text * Node) : Pending * Found :=
  let '(pending, discovered) := st in
  let '(name, node) := entry in
  let relative := relative_directory ++ [Normal name] in
  match node with
  | Directory contents =>
      if allows_directory filters relative then ((directory ++ [Normal name], relative, contents) :: pending, discovered)
      else st
  | Special => st
  | Regular =>
      if negb (allows_file filters relative) then st
      else
        match from_path relative with
        | None => st
        | Some kind =>
            match normalize_absolute_path (directory ++ [Normal name]) with
            | None => st
            | Some path =>
                match discovered !! path with
                | Some _ => st
                | None => (pending, <[path := (relative, kind)]> discovered)
                end
            end
        end
  end.

(** The loop over pending directories. *)
Fixpoint walk (fuel : nat) (filters : DiscoveryFilters) (pending : Pending) (discovered : Found)
  : outcome WalkError Found :=
  match pending with
  | [] => Done discovered
  | (directory, relative_directory, contents) :: pending =>
      match fuel with
      | O => NoFuel
      | S fuel' =>
          match contents with
          | None => Fail (Unreadable directory)
          | Some entries =>
              let '(pending, discovered) :=
                fold_left (walk_entry filters directory relative_directory) (merge_sort entry_le entries)
                  (pending, discovered) in
              walk fuel' filters pending discovered
          end
      end
  end.

(** The directories of a node. *)
Fixpoint directories (node : Node) : nat :=
  match node with
  | Directory (Some entries) => S (foldr (fun e n => (directories e.2 + n)%nat) 0%nat entries)
  | Directory None => 1
  | Regular | Special => 0
  end.

Definition component_rank (c : Component) : Z :=
  match c with Prefix _ => 0 | RootDir => 1 | CurDir => 2 | ParentDir => 3 | Normal _ => 4 end.

Definition component_leb (c d : Component) : bool :=
  match c, d with
  | Prefix a, Prefix b | Normal a, Normal b => text_leb a b
  | _, _ => component_rank c <=? component_rank d
  end.

(** The order of paths, component by component. *)
Fixpoint path_leb (a b : Path) : bool :=
  match a, b with
  | [], _ => true
  | _ :: _, [] => false
  | c :: a', d :: b' => if decide (c = d) then path_leb a' b' else component_leb c d
  end.
Definition found_le (a b : Path * (Path * SourceFileKind)) : Prop := path_leb a.1 b.1 = true.
#[export] Instance found_le_dec : RelDecision found_le := fun a b => decide (path_leb a.1 b.1 = true).

(** Discovery below [root], where the file system has [node] there. *)
Definition discover_files (root : Path) (node : option Node) (filters : DiscoveryFilters)
  : outcome WalkError (list DiscoveredFile) :=
  match normalize_absolute_path root with
  | None => Fail InvalidInput
  | Some root =>
      match node with
      | None => Fail (Unreadable root)
      | Some (Directory contents) =>
          match walk (directories (Directory contents)) filters [(root, [], contents)] ∅ with
          | Done discovered =>
              Done (map (fun '(path, (relative, kind)) => mkDiscovered path relative kind)
                      (merge_sort found_le (map_to_list discovered)))
          | Fail e => Fail e
          | Panic why => Panic why
          | NoFuel => NoFuel
          end
      | Some _ => Fail NotADirectory
      end
  end.
