(* ===== verification/DiscoverFacts.v ===== *)
(** * Discovery finds the sources the patterns select

    The matching tables decide the glob language of [GlobFacts]; a directory
    is walked when a pattern can match below it; the walk returns exactly the
    selected files whose directories are all walked. *)

From Stdlib Require Import ZArith Lia Ascii String.
From stdpp Require Import base list gmap strings sorting.
From S2P Require Import Prelude Text GlobFacts Discover.
Open Scope Z_scope.
Open Scope list_scope.

(** ** Wildcards and concatenation *)

Section Append.
Context {P V : Type} (is_star : P -> bool) (accepts : P -> V -> bool).
Notation wild := (wild is_star accepts).

Lemma wild_append ps qs vs ws : wild ps vs = true -> wild qs ws = true -> wild (ps ++ qs) (vs ++ ws) = true.
Proof.
  revert vs. induction ps as [| p ps IH]; intros vs Hp Hq.
  - destruct vs; [done | by cbn in Hp].
  - cbn [app]. destruct (is_star p) eqn:Sp.
    + apply wild_star_inv in Hp as (k & Hk & Hp); [| done]. eapply (wild_star_drop _ _ _ _ _ k); [done |].
      rewrite drop_app_le by done. by apply IH.
    + destruct vs as [| v vs]; cbn [GlobFacts.wild] in Hp; rewrite Sp in Hp; [done |].
      apply andb_prop in Hp as [Ha Hp]. cbn [app GlobFacts.wild]. rewrite Sp, Ha. by apply IH.
Qed.

Lemma wild_split ps qs vs :
  wild (ps ++ qs) vs = true ->
  exists k, (k <= length vs)%nat /\ wild ps (take k vs) = true /\ wild qs (drop k vs) = true.
Proof.
  revert vs. induction ps as [| p ps IH]; intros vs H; [by exists 0%nat; split; [lia |] |].
  cbn [app] in H. destruct (is_star p) eqn:Sp.
  - apply wild_star_inv in H as (k & Hk & H); [| done]. apply IH in H as (k' & Hk' & H1 & H2).
    rewrite length_drop in Hk'. exists (k + k')%nat. split_and!; [lia | |].
    + apply (wild_star_drop _ _ _ _ _ k); [done |]. rewrite skipn_firstn_comm.
      by replace (k + k' - k)%nat with k' by lia.
    + by rewrite <- drop_drop.
  - destruct vs as [| v vs]; cbn [GlobFacts.wild] in H; rewrite Sp in H; [done |].
    apply andb_prop in H as [Ha H]. apply IH in H as (k & Hk & H1 & H2).
    exists (S k). cbn [take drop length GlobFacts.wild]. rewrite Sp, Ha. split_and!; [lia | done | done].
Qed.
End Append.

(** ** Tables *)

Definition shaped (rows columns : nat) (t : Table) : Prop :=
  length t = S rows /\ Forall (fun row => length row = S columns) t.

Lemma set_cell_shaped rows columns t i j : shaped rows columns t -> shaped rows columns (set_cell t i j).
Proof.
  intros [Hl Hf]. unfold set_cell, Table in *. split; [by rewrite length_alter |].
  rewrite Forall_lookup in Hf |- *. intros k row. destruct (decide (i = k)) as [<- | Hne].
  - rewrite list_lookup_alter_eq. destruct (t !! i) as [r |] eqn:E; [| done]. intros [= <-].
    rewrite length_insert. by eapply Hf.
  - rewrite list_lookup_alter_ne by done. apply Hf.
Qed.

Lemma get_set_cell rows columns t i j a b :
  shaped rows columns t -> (i <= rows)%nat -> (j <= columns)%nat ->
  get_cell (set_cell t i j) a b = true <-> (a = i /\ b = j) \/ get_cell t a b = true.
Proof.
  intros [Hl Hf] Hi Hj. unfold get_cell, set_cell, Table in *. destruct (decide (i = a)) as [<- | Hne].
  - rewrite list_lookup_alter_eq. destruct (t !! i) as [row |] eqn:E.
    + assert (Hr : length row = S columns) by (rewrite Forall_lookup in Hf; by eapply Hf). cbn.
      destruct (decide (j = b)) as [<- | Hb].
      * rewrite list_lookup_insert_eq by lia. naive_solver.
      * rewrite list_lookup_insert_ne by done. naive_solver.
    + apply lookup_ge_None in E. lia.
  - rewrite list_lookup_alter_ne by done. naive_solver.
Qed.

Lemma new_table_shaped rows columns : shaped rows columns (new_table rows columns).
Proof.
  apply set_cell_shaped. split; [by rewrite length_replicate |].
  apply Forall_replicate. by rewrite length_replicate.
Qed.

Lemma new_table_get rows columns a b : get_cell (new_table rows columns) a b = true <-> a = 0%nat /\ b = 0%nat.
Proof.
  unfold new_table. rewrite (get_set_cell rows columns); [| | lia | lia].
  - split; [| by left]. intros [H | H]; [done |]. exfalso. unfold get_cell, Table in H.
    destruct (replicate (S rows) (replicate (S columns) false) !! a) as [row |] eqn:E; [| done].
    apply lookup_replicate in E as [-> _].
    destruct (replicate (S columns) false !! b) as [x |] eqn:E; [| done]. by apply lookup_replicate in E as [-> _].
  - split; [by rewrite length_replicate |]. apply Forall_replicate. by rewrite length_replicate.
Qed.

(** The cells are listed in increasing order. *)
Definition cell_lt (x y : nat * nat) : Prop := (x.1 < y.1 \/ (x.1 = y.1 /\ x.2 < y.2))%nat.

Lemma elem_cells rows columns i j : (i, j) ∈ cells rows columns <-> (i < rows /\ j < columns)%nat.
Proof.
  unfold cells. rewrite list_elem_of_In, in_concat. setoid_rewrite in_map_iff. split.
  - intros (l & (i' & <- & Hi%in_seq) & Hl). apply in_map_iff in Hl as (j' & [= -> ->] & Hj%in_seq). lia.
  - intros [Hi Hj]. exists (map (fun j => (i, j)) (seq 0 columns)). split.
    + exists i. split; [done |]. apply in_seq. lia.
    + apply in_map_iff. exists j. split; [done |]. apply in_seq. lia.
Qed.

Lemma cells_sorted rows columns : StronglySorted cell_lt (cells rows columns).
Proof.
  unfold cells.
  enough (H : forall s, StronglySorted cell_lt (concat (map (fun i => map (fun j => (i, j)) (seq 0 columns)) (seq s rows))))
    by apply H.
  induction rows as [| rows IH]; intros s; cbn [seq map concat]; [constructor |].
  assert (Hrow : forall s' n, StronglySorted cell_lt (map (fun j => (s, j)) (seq s' n))).
  { intros s' n. revert s'. induction n as [| n IHn]; intros s'; cbn; constructor; [done |].
    apply Forall_map, Forall_forall. intros j Hj%list_elem_of_In%in_seq. right. cbn. lia. }
  apply StronglySorted_app_2; [| apply Hrow | apply IH].
  intros [i1 j1] [i2 j2] H1 H2. rewrite list_elem_of_In in H1, H2. apply in_map_iff in H1 as (? & [= <- <-] & _).
  apply in_concat in H2 as (l & Hl & Hin). apply in_map_iff in Hl as (i' & <- & Hi%in_seq).
  apply in_map_iff in Hin as (? & [= <- <-] & _). left. cbn. lia.
Qed.

Lemma cells_before rows columns done_ x rest y :
  cells rows columns = done_ ++ x :: rest -> y ∈ cells rows columns -> cell_lt y x -> y ∈ done_.
Proof.
  intros E Hy Hlt. pose proof (cells_sorted rows columns) as Hs. rewrite E in Hs, Hy.
  apply elem_of_app in Hy as [| Hy]; [done |]. exfalso.
  apply StronglySorted_app_1_r in Hs. apply StronglySorted_inv in Hs as [_ Hx].
  apply elem_of_cons in Hy as [-> | Hy]; [unfold cell_lt in Hlt; lia |].
  rewrite Forall_forall in Hx. specialize (Hx y Hy). unfold cell_lt in *. lia.
Qed.

Section Reach.
Context {P V : Type} (is_star : P -> bool) (accepts : P -> V -> bool) (ps : list P) (vs : list V).
Notation wild := (wild is_star accepts).

(** One turn of a matcher's loops. *)
Definition table_step (t : Table) (cell : nat * nat) : Table :=
  let '(i, j) := cell in
  if negb (get_cell t i j) then t
  else
    match ps !! j with
    | None => t
    | Some p =>
        if is_star p then
          let t := set_cell t i (j + 1) in
          if Nat.ltb i (length vs) then set_cell t (i + 1) j else t
        else
          match vs !! i with
          | Some v => if accepts p v then set_cell t (i + 1) (j + 1) else t
          | None => t
          end
    end.

(** What a marked cell marks. *)
Inductive marks (i j : nat) : nat -> nat -> Prop :=
| marks_skip p : ps !! j = Some p -> is_star p = true -> marks i j i (j + 1)
| marks_take p v : ps !! j = Some p -> is_star p = true -> vs !! i = Some v -> marks i j (i + 1) j
| marks_one p v :
    ps !! j = Some p -> is_star p = false -> vs !! i = Some v -> accepts p v = true ->
    marks i j (i + 1) (j + 1).

Inductive reach : nat -> nat -> Prop :=
| reach_start : reach 0 0
| reach_marks i j a b : reach i j -> marks i j a b -> reach a b.

Lemma marks_later i j a b : marks i j a b -> cell_lt (i, j) (a, b).
Proof. destruct 1; unfold cell_lt; cbn; lia. Qed.

Lemma marks_bounds i j a b : marks i j a b -> (j < length ps /\ (a <= length vs \/ a = i) /\ b <= length ps)%nat.
Proof.
  destruct 1 as [p Hj Hs | p v Hj Hs Hi | p v Hj Hs Hi Ha]; apply lookup_lt_Some in Hj;
    try apply lookup_lt_Some in Hi; lia.
Qed.

Lemma reach_bounds i j : reach i j -> (i <= length vs /\ j <= length ps)%nat.
Proof. induction 1 as [| i j a b H IH M]; [lia |]. apply marks_bounds in M. lia. Qed.

Lemma table_step_get t i j a b :
  shaped (length vs) (length ps) t -> (i <= length vs)%nat ->
  shaped (length vs) (length ps) (table_step t (i, j))
  /\ (get_cell (table_step t (i, j)) a b = true
      <-> get_cell t a b = true \/ (get_cell t i j = true /\ marks i j a b)).
Proof.
  intros Ht Hi. unfold table_step. destruct (get_cell t i j) eqn:G; cbn [negb]; [| naive_solver].
  destruct (ps !! j) as [p |] eqn:Ep; [| split; [done |]; split; [by left |]; intros [| [_ M]]; [done |]; destruct M; congruence].
  assert (Hj : (j < length ps)%nat) by (by apply lookup_lt_Some in Ep).
  destruct (is_star p) eqn:Sp.
  - pose proof (set_cell_shaped _ _ t i (j + 1) Ht) as Ht'.
    destruct (Nat.ltb_spec i (length vs)) as [Hlt | Hge].
    + destruct (lookup_lt_is_Some_2 vs i Hlt) as [v Ev]. split; [by apply set_cell_shaped |].
      rewrite (get_set_cell _ _ _ _ _ _ _ Ht'), (get_set_cell _ _ _ _ _ _ _ Ht) by lia. split.
      * intros [[-> ->] | [[-> ->] | H]]; [right | right | by left]; (split; [done |]); econstructor; eauto.
      * intros [H | [_ M]]; [by right; right |]. destruct M; simplify_eq; auto; congruence.
    + split; [done |]. rewrite (get_set_cell _ _ _ _ _ _ _ Ht) by lia. split.
      * intros [[-> ->] | H]; [right; split; [done |]; econstructor; eauto | by left].
      * intros [H | [_ M]]; [by right |]. destruct M as [| p' v Hp Hs Hv |]; simplify_eq; auto; [| congruence].
        apply lookup_lt_Some in Hv. lia.
  - destruct (vs !! i) as [v |] eqn:Ev.
    + destruct (accepts p v) eqn:Ea.
      * assert ((i < length vs)%nat) by (by apply lookup_lt_Some in Ev).
        split; [by apply set_cell_shaped |]. rewrite (get_set_cell _ _ _ _ _ _ _ Ht) by lia. split.
        -- intros [[-> ->] | H0]; [right; split; [done |]; econstructor; eauto | by left].
        -- intros [H0 | [_ M]]; [by right |]. destruct M; simplify_eq; auto; congruence.
      * split; [done |]. split; [by left |]. intros [| [_ M]]; [done |]. destruct M; congruence.
    + split; [done |]. split; [by left |]. intros [| [_ M]]; [done |]. destruct M; congruence.
Qed.

(** After the loops the marked cells are the reachable ones. *)
Lemma table_exact columns a b :
  (length ps <= columns)%nat ->
  let t := fold_left table_step (cells (S (length vs)) columns) (new_table (length vs) (length ps)) in
  shaped (length vs) (length ps) t /\ (get_cell t a b = true <-> reach a b).
Proof.
  intros Hc. cbv zeta.
  set (all := cells (S (length vs)) columns).
  enough (H : forall rest done_ t, all = done_ ++ rest -> shaped (length vs) (length ps) t ->
     (forall a b, get_cell t a b = true
        <-> (a = 0%nat /\ b = 0%nat) \/ exists c, c ∈ done_ /\ reach c.1 c.2 /\ marks c.1 c.2 a b) ->
     shaped (length vs) (length ps) (fold_left table_step rest t)
     /\ forall a b, get_cell (fold_left table_step rest t) a b = true <-> reach a b).
  { destruct (H all [] (new_table (length vs) (length ps))) as [H1 H2]; [done | apply new_table_shaped | | by split].
    intros a' b'. rewrite new_table_get. split; [by left |]. intros [| (c & Hc' & _)]; [done |]. by apply not_elem_of_nil in Hc'. }
  clear a b. intros rest. induction rest as [| [i j] rest IH]; intros done_ t E Ht Inv; cbn [fold_left].
  - split; [done |]. intros a b. rewrite Inv. rewrite app_nil_r in E. subst done_. split.
    + intros [[-> ->] | (c & _ & Hr & Hm)]; [constructor | by econstructor].
    + destruct 1 as [| i j a b Hr Hm]; [by left |]. right. exists (i, j). split_and!; [| done | done].
      pose proof (reach_bounds _ _ Hr). pose proof (marks_bounds _ _ _ _ Hm). apply elem_cells. lia.
  - assert (Hij : (i, j) ∈ all) by (rewrite E; set_solver). apply elem_cells in Hij.
    assert (Hget : get_cell t i j = true <-> reach i j).
    { rewrite Inv. split.
      - intros [[-> ->] | (c & _ & Hr & Hm)]; [constructor | by econstructor].
      - destruct 1 as [| c d a b Hr Hm]; [by left |]. right. exists (c, d). split_and!; [| done | done].
        eapply cells_before; [exact E | | by apply marks_later].
        pose proof (reach_bounds _ _ Hr). pose proof (marks_bounds _ _ _ _ Hm). apply elem_cells. lia. }
    destruct (table_step_get t i j 0 0 Ht ltac:(lia)) as [Hs _].
    apply (IH (done_ ++ [(i, j)])); [by rewrite <- app_assoc | done |]. intros a b.
    destruct (table_step_get t i j a b Ht ltac:(lia)) as [_ Hg]. rewrite Hg, Inv, Hget. split.
    + intros [[H | (c & Hc' & H)] | H]; [by left | right; exists c; set_solver | right; exists (i, j); set_solver].
    + intros [H | (c & Hc' & H)]; [by left; left |]. apply elem_of_app in Hc' as [Hc' | Hc'%list_elem_of_singleton].
      * left. right. by exists c.
      * subst c. by right.
Qed.

(** A run of a star over several values. *)
Lemma reach_star p i j k :
  ps !! j = Some p -> is_star p = true -> (i + k <= length vs)%nat -> reach i j -> reach (i + k) j.
Proof.
  intros Hp Hs. induction k as [| k IH]; intros Hk Hr; [by rewrite Nat.add_0_r |].
  destruct (lookup_lt_is_Some_2 vs (i + k)) as [v Hv]; [lia |].
  replace (i + S k)%nat with (i + k + 1)%nat by lia.
  eapply reach_marks; [apply IH; [lia | done] | by eapply marks_take].
Qed.

Lemma wild_reach i j :
  (i <= length vs)%nat -> (j <= length ps)%nat -> wild (take j ps) (take i vs) = true -> reach i j.
Proof.
  revert i. induction j as [| j IH]; intros i Hi Hj H.
  - rewrite take_0 in H. destruct i as [| i]; [constructor |]. destruct (take (S i) vs) eqn:E; [| done].
    apply (f_equal length) in E. by rewrite length_take_le in E.
  - destruct (lookup_lt_is_Some_2 ps j) as [p Hp]; [lia |].
    rewrite (take_S_r ps j p Hp) in H. apply wild_split in H as (k & Hk & H1 & H2).
    rewrite length_take_le in Hk by done. rewrite take_take, Nat.min_l in H1 by done.
    specialize (IH k ltac:(lia) ltac:(lia) H1).
    rewrite skipn_firstn_comm in H2. rewrite <- Nat.add_1_r. destruct (is_star p) eqn:Sp.
    + replace i with (k + (i - k))%nat by lia.
      apply (reach_marks (k + (i - k)) j); [eapply reach_star; [done | done | lia | done] | by eapply marks_skip].
    + destruct (take (i - k) (drop k vs)) as [| v ws] eqn:Et; cbn [GlobFacts.wild] in H2; rewrite Sp in H2; [done |].
      apply andb_prop in H2 as [Ha Hw]. destruct ws; [| done].
      assert (Hl : length (take (i - k) (drop k vs)) = 1%nat) by by rewrite Et.
      rewrite length_take_le in Hl by (rewrite length_drop; lia).
      assert (Hv : vs !! k = Some v).
      { rewrite <- (Nat.add_0_r k), <- lookup_drop. rewrite <- (lookup_take_lt _ (i - k)) by lia. by rewrite Et. }
      replace i with (k + 1)%nat by lia. eapply reach_marks; [done | by eapply marks_one].
Qed.

(** A reachable cell: the pattern before it matches a beginning of the values,
    all of them unless a star is still running. *)
Lemma reach_wild i j :
  reach i j ->
  exists k, (k <= i)%nat /\ wild (take j ps) (take k vs) = true
            /\ (k = i \/ exists p, ps !! j = Some p /\ is_star p = true).
Proof.
  induction 1 as [| i j a b Hr (k & Hk & Hw & Hor) M]; [by exists 0%nat; split_and!; [| | left] |].
  pose proof (reach_bounds _ _ Hr) as [Hi Hj].
  destruct M as [p Hp Hs | p v Hp Hs Hv | p v Hp Hs Hv Ha].
  - exists i. split_and!; [lia | | by left]. rewrite Nat.add_1_r, (take_S_r ps j p Hp).
    replace (take i vs) with (take k vs ++ drop k (take i vs)).
    + apply wild_append; [done |]. apply (wild_star_drop _ _ _ _ _ (length (drop k (take i vs)))); [done |].
      by rewrite drop_ge.
    + rewrite <- (take_drop k (take i vs)) at 2. by rewrite take_take, Nat.min_l.
  - exists k. split_and!; [lia | done |]. right. eauto.
  - destruct Hor as [-> | (p' & Hp' & Hs')]; [| congruence]. exists (i + 1)%nat. split_and!; [lia | | by left].
    rewrite !Nat.add_1_r, (take_S_r ps j p Hp), (take_S_r vs i v Hv). apply wild_append; [done |].
    cbn [GlobFacts.wild]. by rewrite Hs, Ha.
Qed.

Lemma reach_end : reach (length vs) (length ps) <-> wild ps vs = true.
Proof.
  split.
  - intros (k & Hk & Hw & Hor)%reach_wild. rewrite firstn_all in Hw.
    destruct Hor as [-> | (p & Hp & _)]; [by rewrite firstn_all in Hw |]. apply lookup_lt_Some in Hp. lia.
  - intros H. apply wild_reach; [done | done |]. by rewrite !firstn_all.
Qed.

(** Some cell of the last row is reachable: a beginning of the pattern matches. *)
Lemma reach_row :
  (exists j, reach (length vs) j) <-> exists j, (j <= length ps)%nat /\ wild (take j ps) vs = true.
Proof.
  split.
  - intros (j & Hr). pose proof (reach_bounds _ _ Hr) as [_ Hj].
    apply reach_wild in Hr as (k & Hk & Hw & [-> | (p & Hp & Hs)]); [exists j; by rewrite firstn_all in Hw |].
    exists (S j). split; [by apply lookup_lt_Some in Hp |]. rewrite (take_S_r ps j p Hp).
    rewrite <- (take_drop k vs). apply wild_append; [done |].
    apply (wild_star_drop _ _ _ _ _ (length (drop k vs))); [done |]. by rewrite drop_ge.
  - intros (j & Hj & Hw). exists j. apply wild_reach; [done | done |]. by rewrite firstn_all.
Qed.
End Reach.

(** ** The matchers *)

Definition char_star (p : Z) : bool := p =? star_char.
Definition char_accepts (p c : Z) : bool := (p =? question_char) || (p =? c).

(** The names that a component of a pattern stands for. *)
Definition name_glob (pattern name : text) : bool := wild char_star char_accepts pattern name.

Definition stars (p : text) : bool := bool_decide (p = STARS).

(** The paths that a pattern stands for. *)
Definition names_glob (pattern names : list text) : bool := wild stars name_glob pattern names.

Lemma component_glob_exact value pattern : component_glob_matches value pattern = name_glob pattern value.
Proof.
  apply eq_true_iff_eq. unfold component_glob_matches, name_glob. rewrite <- reach_end.
  apply (table_exact char_star char_accepts pattern value). done.
Qed.

Lemma component_step_table path pattern t cell :
  component_step path pattern t cell = table_step stars name_glob pattern path t cell.
Proof.
  destruct cell as [i j]. unfold component_step, table_step. destruct (negb _); [done |].
  destruct (pattern !! j) as [p |]; [| done]. unfold stars. destruct (bool_decide _); [done |].
  destruct (path !! i) as [c |]; [| done]. by rewrite component_glob_exact.
Qed.

Lemma component_fold path pattern l t :
  fold_left (component_step path pattern) l t = fold_left (table_step stars name_glob pattern path) l t.
Proof. revert t. induction l as [| c l IH]; intros t; [done |]. cbn. by rewrite component_step_table, IH. Qed.

Lemma glob_components_exact path pattern : glob_components_match path pattern = names_glob pattern path.
Proof.
  apply eq_true_iff_eq. unfold glob_components_match, names_glob. rewrite component_fold, <- reach_end.
  apply (table_exact stars name_glob pattern path). done.
Qed.

(** A beginning of the pattern matches the names. *)
Definition prefix_glob (pattern names : list text) : Prop :=
  exists j, (j <= length pattern)%nat /\ names_glob (take j pattern) names = true.

Lemma prefix_table_exact path pattern :
  (match fold_left (component_step path pattern) (cells (S (length path)) (S (length pattern)))
           (new_table (length path) (length pattern)) !! length path with
   | Some row => existsb id row
   | None => false
   end = true) <-> prefix_glob pattern path.
Proof.
  unfold prefix_glob, names_glob. rewrite component_fold, <- reach_row.
  set (t := fold_left _ _ _).
  assert (Ht : forall a b, shaped (length path) (length pattern) t
                 /\ (get_cell t a b = true <-> reach stars name_glob pattern path a b)).
  { intros a b. apply (table_exact stars name_glob pattern path). lia. }
  clearbody t. setoid_rewrite <- (fun b => proj2 (Ht (length path) b)). unfold get_cell, Table in *.
  destruct (t !! length path) as [row |] eqn:E.
  - rewrite existsb_exists. split.
    + intros (x & Hx & Hid). apply list_elem_of_In, list_elem_of_lookup in Hx as (j & Hj). exists j. by rewrite Hj.
    + intros (j & Hj). destruct (row !! j) as [x |] eqn:Ej; [| done]. exists x. split; [| done].
      apply list_elem_of_In, list_elem_of_lookup. by exists j.
  - split; [done |]. by intros (_ & ?).
Qed.

(** ** Normalized patterns *)

(** A component of a normalized pattern. *)
Definition good (c : text) : Prop :=
  c <> [] /\ c <> [dot] /\ c <> [dot; dot] /\ slash ∉ c /\ backslash_char ∉ c.

Lemma split_char_parts c t : Forall (fun p => c ∉ p /\ forall d, d ∈ p -> d ∈ t) (split_char c t).
Proof.
  induction t as [| d t IH]; cbn [split_char]; [apply Forall_singleton; set_solver |].
  destruct (Z.eqb_spec d c) as [-> | Hne].
  - constructor; [set_solver |]. eapply Forall_impl; [exact IH |]. set_solver.
  - destruct (split_char c t) as [| w ws]; [apply Forall_singleton; set_solver |].
    apply Forall_cons in IH as [H1 H2]. constructor; [set_solver |]. eapply Forall_impl; [exact H2 |]. set_solver.
Qed.

Lemma pattern_components_good parts cs :
  Forall (fun p => slash ∉ p /\ backslash_char ∉ p) parts -> pattern_components parts = Some cs -> Forall good cs.
Proof.
  intros Hp. revert cs. induction Hp as [| p parts [H1 H2] _ IH]; intros cs; cbn [pattern_components].
  - intros [= <-]. constructor.
  - destruct p as [| c p'] eqn:Ep; [apply IH |]. rewrite <- Ep in *. cbn [is_empty orb].
    replace (is_empty p) with false by by subst. cbn [orb]. case_bool_decide; [apply IH |]. case_bool_decide; [done |].
    destruct (pattern_components parts) as [ps |]; [| done]. cbn. intros [= <-].
    constructor; [| by apply IH]. split_and!; [by subst | done | done | done | done].
Qed.

Lemma pattern_components_id cs : Forall good cs -> pattern_components cs = Some cs.
Proof.
  induction 1 as [| c cs (H1 & H2 & H3 & _) _ IH]; [done |]. cbn [pattern_components]. destruct c as [| x c'] eqn:E; [done |].
  rewrite <- E in *. replace (is_empty c) with false by by subst. cbn [orb].
  rewrite !bool_decide_false by done. by rewrite IH.
Qed.

Lemma split_char_plain c p rest :
  c ∉ p -> split_char c (p ++ rest) = match split_char c rest with w :: ws => (p ++ w) :: ws | [] => [p] end.
Proof.
  induction p as [| d p IH]; intros Hp; cbn [app split_char].
  - destruct rest; cbn; [done |]. by destruct (_ =? c), (split_char c rest).
  - destruct (Z.eqb_spec d c) as [-> | Hne]; [set_solver |]. rewrite IH by set_solver. by destruct (split_char c rest).
Qed.

Lemma join_slash_split cs : cs <> [] -> Forall (fun c => slash ∉ c) cs -> split_char slash (join_slash cs) = cs.
Proof.
  induction cs as [| c cs IH]; [done |]. intros _ [Hc Hcs]%Forall_cons. destruct cs as [| d cs].
  - cbn. rewrite <- (app_nil_r c) at 1. rewrite split_char_plain by done. cbn. by rewrite app_nil_r.
  - change (join_slash (c :: d :: cs)) with (c ++ slash :: join_slash (d :: cs)).
    rewrite split_char_plain by done. cbn [split_char]. rewrite Z.eqb_refl, IH by done. by rewrite app_nil_r.
Qed.

Lemma join_slash_empty cs : Forall good cs -> join_slash cs = [] -> cs = [].
Proof.
  intros H. destruct cs as [| c cs]; [done |]. apply Forall_cons in H as [(Hc & _) _].
  destruct cs; cbn; [done |]. intros E%app_eq_nil. naive_solver.
Qed.

Lemma join_slash_chars cs c : c ∈ join_slash cs -> c = slash \/ exists p, p ∈ cs /\ c ∈ p.
Proof.
  induction cs as [| p cs IH]; [set_solver |]. destruct cs as [| q cs]; [set_solver |].
  change (join_slash (p :: q :: cs)) with (p ++ slash :: join_slash (q :: cs)).
  rewrite elem_of_app, elem_of_cons. intros [H | [H | H]]; [set_solver | by left |].
  destruct (IH H) as [| (r & Hr & Hc)]; [by left | right; set_solver].
Qed.

Lemma normalized_components_join cs : Forall good cs -> normalized_pattern_components (join_slash cs) = Some cs.
Proof.
  intros H. unfold normalized_pattern_components, normalize_relative_pattern. cbv zeta.
  assert (Hmap : map (fun c => if c =? backslash_char then slash else c) (join_slash cs) = join_slash cs).
  { rewrite <- (map_id (join_slash cs)) at 2. apply map_ext_in. intros c Hc%list_elem_of_In.
    destruct (Z.eqb_spec c backslash_char) as [-> |]; [| done]. exfalso.
    apply join_slash_chars in Hc as [| (p & Hp & Hc)]; [done |]. rewrite Forall_forall in H.
    destruct (H p Hp) as (_ & _ & _ & _ & Hb). done. }
  rewrite Hmap. destruct cs as [| p cs]; [done |].
  assert (Hs : split_char slash (join_slash (p :: cs)) = p :: cs).
  { apply join_slash_split; [done |]. eapply Forall_impl; [exact H |]. by intros c (_ & _ & _ & Hc & _). }
  destruct (join_slash (p :: cs)) as [| c t] eqn:E; [by apply join_slash_empty in E |].
  assert (Hc : c <> slash).
  { intros ->. cbn in Hs. injection Hs as Hp _. apply Forall_cons in H as [(Hne & _) _]. by rewrite <- Hp in Hne. }
  destruct (Z.eqb_spec c slash) as [-> | _]; [done |]. rewrite <- E in *.
  rewrite Hs, pattern_components_id by done. cbn [fmap option_fmap option_map]. rewrite E at 1. by rewrite Hs.
Qed.

Lemma normalize_pattern_good pattern q :
  normalize_relative_pattern pattern = Some q -> exists cs, Forall good cs /\ q = join_slash cs.
Proof.
  unfold normalize_relative_pattern. cbv zeta.
  set (t := map (fun c => if c =? backslash_char then slash else c) pattern).
  assert (Ht : backslash_char ∉ t).
  { unfold t. rewrite list_elem_of_In, in_map_iff. intros (c & Hc & _). destruct (Z.eqb_spec c backslash_char); done. }
  assert (Hg : forall cs, pattern_components (split_char slash t) = Some cs -> Forall good cs).
  { intros cs. apply pattern_components_good. eapply Forall_impl; [apply split_char_parts |].
    intros p [H1 H2]. split; [done |]. naive_solver. }
  intros H. assert (Hq : exists cs, pattern_components (split_char slash t) = Some cs /\ q = join_slash cs).
  { destruct t as [| c t']; [| destruct (c =? slash); [done |]]; destruct (pattern_components _) as [cs |]; try done;
      cbn in H; injection H as <-; eauto. }
  destruct Hq as (cs & Hcs & ->). eauto.
Qed.

Lemma normalized_components_good pattern cs : normalized_pattern_components pattern = Some cs -> Forall good cs.
Proof.
  intros H. destruct (normalize_relative_pattern pattern) as [q |] eqn:E;
    [| unfold normalized_pattern_components in H; by rewrite E in H].
  destruct (normalize_pattern_good pattern q E) as (ds & Hg & ->).
  unfold normalized_pattern_components in H. rewrite E in H.
  destruct ds as [| d ds]; [by injection H as <- |].
  assert (Hs : split_char slash (join_slash (d :: ds)) = d :: ds).
  { apply join_slash_split; [done |]. eapply Forall_impl; [exact Hg |]. by intros c (_ & _ & _ & Hc & _). }
  destruct (join_slash (d :: ds)) as [| c t] eqn:Ej; [by apply join_slash_empty in Ej |].
  assert (cs = d :: ds) as -> by congruence. done.
Qed.

(** ** Filters on paths of names *)

Definition names_path (names : list text) : Path := map Normal names.

Lemma normal_names names : normal_components (names_path names) = Some (names_path names).
Proof.
  induction names as [| n names IH]; [done |].
  change (normal_components (names_path (n :: names)))
    with ((fun p => Normal n :: p) <$> normal_components (names_path names)). by rewrite IH.
Qed.

Lemma normalize_names names : normalize_relative_path (names_path names) = Some (names_path names).
Proof. unfold normalize_relative_path. replace (is_absolute _) with false by by destruct names. apply normal_names. Qed.

Lemma relative_names names : relative_components (names_path names) = Some names.
Proof.
  unfold relative_components. rewrite normalize_names. f_equal. induction names as [| n names IH]; [done |]. cbn. by f_equal.
Qed.

(** The paths that the text of a pattern stands for. *)
Definition pattern_glob (pattern : text) (names : list text) : bool :=
  match normalized_pattern_components pattern with Some cs => names_glob cs names | None => false end.

Lemma glob_matches_exact names pattern : glob_matches (names_path names) pattern = pattern_glob pattern names.
Proof.
  unfold glob_matches, matches_root_relative_pattern, pattern_glob. rewrite relative_names.
  destruct (normalized_pattern_components pattern); [apply glob_components_exact | done].
Qed.

Lemma prefix_matches_exact names cs :
  Forall good cs -> pattern_prefix_matches (names_path names) (join_slash cs) = true <-> prefix_glob cs names.
Proof.
  intros H. unfold pattern_prefix_matches. rewrite relative_names, normalized_components_join by done.
  apply prefix_table_exact.
Qed.

(** No ancestor of the path, itself included, matches an exclude pattern. *)
Definition not_excluded (filters : DiscoveryFilters) (names : list text) : Prop :=
  forall n p, p ∈ exclude_patterns filters -> pattern_glob p (take n names) = false.

Lemma is_excluded_exact filters names : is_excluded filters (names_path names) = false <-> not_excluded filters names.
Proof.
  unfold is_excluded, ancestor_paths. rewrite normalize_names.
  assert (Ht : forall n, take n (names_path names) = names_path (take n names)) by (intros; apply firstn_map).
  split.
  - intros H n p Hp. apply not_true_iff_false. intros Hg. apply not_true_iff_false in H. apply H.
    apply existsb_exists. exists (take (n `min` length names) (names_path names)). split.
    + apply in_map_iff. exists (n `min` length names)%nat. split; [done |]. apply in_seq.
      unfold names_path. rewrite length_map. lia.
    + apply existsb_exists. exists p. split; [by apply list_elem_of_In |]. rewrite Ht, glob_matches_exact.
      rewrite <- Hg. f_equal. destruct (decide (n <= length names)%nat); [by rewrite Nat.min_l |].
      rewrite Nat.min_r by lia. by rewrite !take_ge by lia.
  - intros H. apply not_true_iff_false. intros (a & Ha & Hp)%existsb_exists.
    apply in_map_iff in Ha as (n & <- & _). apply existsb_exists in Hp as (p & Hp & Hg).
    rewrite Ht, glob_matches_exact, H in Hg; [done | by apply list_elem_of_In].
Qed.

(** A file that the filters select. *)
Definition selects (filters : DiscoveryFilters) (names : list text) : Prop :=
  not_excluded filters names /\ exists p, p ∈ include_patterns filters /\ pattern_glob p names = true.

Lemma allows_file_exact filters names : allows_file filters (names_path names) = true <-> selects filters names.
Proof.
  unfold allows_file, selects. rewrite normalize_names, <- is_excluded_exact.
  destruct (is_excluded filters (names_path names)); [split; [done | by intros [? _]] |].
  rewrite andb_true_iff, existsb_exists. setoid_rewrite glob_matches_exact. split.
  - intros [_ (p & Hp & Hg)]. split; [done |]. exists p. by rewrite list_elem_of_In.
  - intros [_ (p & Hp & Hg)]. split; [| exists p; by rewrite <- list_elem_of_In].
    destruct (include_patterns filters); [set_solver | done].
Qed.

(** ** Directories on the way to a file *)

Lemma wild_beginning {P V} (is_star : P -> bool) (accepts : P -> V -> bool) ps vs ws :
  wild is_star accepts ps (vs ++ ws) = true ->
  exists j, (j <= length ps)%nat /\ wild is_star accepts (take j ps) vs = true.
Proof.
  revert vs. induction ps as [| p ps IH]; intros vs H.
  - exists 0%nat. split; [done |]. destruct vs; [done | by cbn in H].
  - destruct (is_star p) eqn:Sp.
    + apply wild_star_inv in H as (k & Hk & H); [| done]. destruct (decide (length vs <= k)%nat) as [Hle | Hlt].
      * exists 1%nat. split; [cbn; lia |]. cbn [take]. rewrite take_0.
        apply (wild_star_drop _ _ _ _ _ (length vs)); [done |]. by rewrite drop_ge.
      * rewrite drop_app_le in H by lia. apply IH in H as (j & Hj & H). exists (S j). split; [cbn; lia |].
        by apply (wild_star_drop _ _ _ _ _ k).
    + destruct vs as [| v vs]; [exists 0%nat; split; [lia | done] |].
      cbn [app wild] in H. rewrite Sp in H. apply andb_prop in H as [Ha H]. apply IH in H as (j & Hj & H).
      exists (S j). split; [cbn; lia |]. cbn [take wild]. by rewrite Sp, Ha.
Qed.

(** The last component of a pattern is not [**], unless all are. *)
Definition well_ended (pattern : text) : Prop :=
  match normalized_pattern_components pattern with
  | Some cs => forallb stars cs = true \/ exists init l, cs = init ++ [l] /\ stars l = false
  | None => True
  end.

Lemma include_reaches_above pattern ds rest :
  well_ended pattern -> rest <> [] -> pattern_glob pattern (ds ++ rest) = true ->
  include_reaches (names_path ds) pattern = true.
Proof.
  unfold well_ended, pattern_glob, include_reaches. intros Hw Hrest.
  destruct (normalized_pattern_components pattern) as [cs |] eqn:Ec; [| done]. intros Hg.
  apply normalized_components_good in Ec.
  assert (Hcs : cs <> []) by (intros ->; cbn in Hg; destruct ds, rest; done).
  destruct cs as [| c cs']; [done |]. set (cs := c :: cs') in *.
  change (forallb (fun c => bool_decide (c = STARS)) cs) with (forallb stars cs).
  destruct Hw as [-> | (init & l & E & Hl)]; [done |]. destruct (forallb stars cs); [done |].
  rewrite E, removelast_last. rewrite E in Hg, Ec. apply Forall_app in Ec as [Hgood _].
  apply prefix_matches_exact; [done |]. unfold names_glob in Hg. apply wild_split in Hg as (k & Hk & H1 & H2).
  destruct (drop k (ds ++ rest)) as [| n [| n' ns]] eqn:Ed; cbn [wild] in H2; rewrite Hl in H2; try done.
  - assert (Hlen : length (drop k (ds ++ rest)) = 1%nat) by by rewrite Ed.
    rewrite length_drop in Hlen. apply (wild_beginning _ _ _ ds (take (k - length ds) rest)).
    rewrite take_app_ge in H1; [done |]. rewrite length_app in Hlen. destruct rest; [done | cbn in Hlen; lia].
  - by rewrite andb_false_r in H2.
Qed.

(** The filters walk every directory above a file they select. *)
Definition covers (filters : DiscoveryFilters) : Prop := Forall well_ended (include_patterns filters).

Lemma allows_above filters ds rest :
  covers filters -> rest <> [] -> selects filters (ds ++ rest) ->
  allows_directory filters (names_path ds) = true.
Proof.
  intros Hc Hrest [Hne (p & Hp & Hg)]. unfold allows_directory. rewrite normalize_names.
  rewrite (proj2 (is_excluded_exact filters ds)).
  - destruct (include_patterns filters) as [| q qs] eqn:Ei; [set_solver |]. rewrite <- Ei in *.
    apply existsb_exists. exists p. split; [by apply list_elem_of_In |].
    eapply include_reaches_above; [| exact Hrest | exact Hg]. unfold covers in Hc. rewrite Forall_forall in Hc. by apply Hc.
  - intros n q Hq. specialize (Hne (n `min` length ds)%nat q Hq). rewrite take_app_le in Hne by lia.
    rewrite <- Hne. f_equal. destruct (decide (n <= length ds)%nat); [by rewrite Nat.min_l |].
    rewrite Nat.min_r by lia. by rewrite !take_ge by lia.
Qed.

(** ** Trees *)

(** The tree has a regular file at a path of names. *)
Fixpoint holds_file (node : Node) (names : list text) : Prop :=
  match names with
  | [] => node = Regular
  | n :: rest =>
      exists entries child, node = Directory (Some entries) /\ (n, child) ∈ entries /\ holds_file child rest
  end.

(** Every directory of the tree can be read. *)
Fixpoint readable (node : Node) : bool :=
  match node with
  | Directory (Some entries) => forallb (fun e => readable e.2) entries
  | Directory None => false
  | Regular | Special => true
  end.

(** Normalized absolute paths: normalizing changes nothing. *)
Definition plain (c : Component) : bool := match c with CurDir | ParentDir => false | _ => true end.

Definition anchored (path : Path) : Prop := is_absolute path = true /\ forallb plain path = true.

Lemma anchored_step path c : anchored path -> anchored (absolute_step path c).
Proof.
  intros [Ha Hp]. assert (Happ : forall d, plain d = true -> anchored (path ++ [d])).
  { intros d Hd. split; [| by rewrite forallb_app, Hp; cbn; rewrite Hd]. by destruct path as [| [] [| [] path]]. }
  destruct c; cbn [absolute_step]; [by apply Happ | by apply Happ | done | | by apply Happ].
  unfold pop. destruct path as [| x path _] using rev_ind; [done |]. rewrite last_snoc. destruct x; try done.
  rewrite removelast_last, forallb_app in *. apply andb_prop in Hp as [Hp _]. split; [| done].
  by destruct path as [| [] [| [] path]].
Qed.

Lemma normalized_anchored path r : normalize_absolute_path path = Some r -> anchored r.
Proof.
  unfold normalize_absolute_path. destruct (is_absolute path) eqn:E; [| done]. intros [= <-].
  assert (Hfold : forall rest p, anchored p -> anchored (fold_left absolute_step rest p)).
  { induction rest as [| c rest IH]; intros p Hp; [done |]. by apply IH, anchored_step. }
  destruct path as [| [] [| [] path]]; try done; cbn [fold_left absolute_step app].
  all: try by apply Hfold; split.
  all: by apply (Hfold (_ :: _)); split.
Qed.

Lemma anchored_normal path : anchored path -> normalize_absolute_path path = Some path.
Proof.
  intros [Ha Hp]. unfold normalize_absolute_path. rewrite Ha. f_equal.
  enough (forall p, fold_left absolute_step path p = p ++ path) as H by apply H. clear Ha.
  induction path as [| c path IH]; intros p; cbn [fold_left]; [by rewrite app_nil_r |].
  cbn in Hp. apply andb_prop in Hp as [Hc Hp]. rewrite IH by done. destruct c; try done; cbn; by rewrite <- app_assoc.
Qed.

Lemma anchored_names path names : anchored path -> anchored (path ++ names_path names).
Proof.
  intros [Ha Hp]. split; [by destruct path as [| [] [| [] path]] |]. rewrite forallb_app, Hp. cbn.
  induction names; [done | by cbn].
Qed.

(** ** The walk *)

Section Walk.
Context (filters : DiscoveryFilters) (root : Path) (tree : Node) (Root : anchored root).

(** The directories above a path of names that are below the root are walked. *)
Definition walked (names : list text) : Prop :=
  forall ds rest, names = ds ++ rest -> ds <> [] -> rest <> [] -> allows_directory filters (names_path ds) = true.

(** The files to be found. *)
Definition target (names : list text) (kind : SourceFileKind) : Prop :=
  holds_file tree names /\ walked names /\ selects filters names /\ from_path (names_path names) = Some kind.

(** What the tree has at a path of names. *)
Fixpoint holds (node : Node) (names : list text) (at_end : Node) : Prop :=
  match names with
  | [] => node = at_end
  | n :: rest =>
      exists entries child, node = Directory (Some entries) /\ (n, child) ∈ entries /\ holds child rest at_end
  end.

Lemma holds_snoc node ds entries n child :
  holds node ds (Directory (Some entries)) -> (n, child) ∈ entries -> holds node (ds ++ [n]) child.
Proof.
  revert node. induction ds as [| d ds IH]; intros node; cbn [holds app].
  - intros -> H. eauto.
  - intros (es & c & -> & Hc & H) Hn. exists es, c. split_and!; [done | done | by apply IH].
Qed.

Lemma holds_file_holds node names : holds_file node names <-> holds node names Regular.
Proof. revert node. induction names as [| n names IH]; intros node; cbn; [done | by setoid_rewrite IH]. Qed.

Lemma holds_unreadable node ds : holds node ds (Directory None) -> readable node = false.
Proof.
  revert node. induction ds as [| d ds IH]; intros node; cbn [holds]; [by intros -> |].
  intros (es & c & -> & Hc & H). cbn. apply not_true_iff_false. rewrite forallb_forall. intros Hf.
  specialize (Hf (d, c)). cbn in Hf. rewrite (IH c H) in Hf. by rewrite <- list_elem_of_In in Hf; specialize (Hf Hc).
Qed.

Definition sound (found : Found) : Prop :=
  forall path rel kind, found !! path = Some (rel, kind) ->
    exists names, path = root ++ names_path names /\ rel = names_path names /\ target names kind.

Definition pending_ok (x : Path * Path * option (list (text * Node))) : Prop :=
  exists ds, x.1 = (root ++ names_path ds, names_path ds) /\ holds tree ds (Directory x.2)
             /\ forall es rest, ds = es ++ rest -> es <> [] -> allows_directory filters (names_path es) = true.

(** The file is below a pending directory. *)
Definition below (x : Path * Path * option (list (text * Node))) (names : list text) : Prop :=
  exists ds rest, x.1.2 = names_path ds /\ names = ds ++ rest /\ holds_file (Directory x.2) rest.

Definition has (found : Found) (names : list text) (kind : SourceFileKind) : Prop :=
  found !! (root ++ names_path names) = Some (names_path names, kind).

Lemma names_path_inj a b : names_path a = names_path b -> a = b.
Proof. revert b. induction a as [| x a IH]; intros [| y b]; cbn; try done. intros [= -> H]. f_equal. by apply IH. Qed.

Lemma target_kind names kind kind' : target names kind -> target names kind' -> kind = kind'.
Proof. intros (_ & _ & _ & H) (_ & _ & _ & H'). congruence. Qed.

(** A found file is found with its own path. *)
Lemma sound_has found names x : sound found -> found !! (root ++ names_path names) = Some x ->
  exists kind, x = (names_path names, kind) /\ target names kind.
Proof.
  destruct x as [rel kind]. intros Hs H. apply Hs in H as (ns & E & -> & Ht).
  apply app_inv_head, names_path_inj in E as ->. eauto.
Qed.

(** The files that remain in the entries of a directory. *)
Definition remains (ds : list text) (es : list (text * Node)) (names : list text) : Prop :=
  exists n child rest, (n, child) ∈ es /\ names = ds ++ n :: rest /\ holds_file child rest.

Definition walk_inv (st : Pending * Found) (left : list text -> Prop) : Prop :=
  Forall pending_ok st.1 /\ sound st.2
  /\ forall names kind, target names kind ->
       has st.2 names kind \/ Exists (fun x => below x names) st.1 \/ left names.

Section Entry.
Context (ds : list text) (entries es : list (text * Node)) (n : text) (pending : Pending) (found : Found).
Context (Above : forall es' rest, ds = es' ++ rest -> es' <> [] -> allows_directory filters (names_path es') = true).

(** What an entry adds: its own files are found, or below a pending
    directory. *)
Lemma entry_adds node pending' found' :
  (forall names kind, has found names kind -> has found' names kind) ->
  (forall x, x ∈ pending -> x ∈ pending') ->
  (forall kind rest, target (ds ++ n :: rest) kind -> holds_file node rest ->
     has found' (ds ++ n :: rest) kind \/ Exists (fun x => below x (ds ++ n :: rest)) pending') ->
  Forall pending_ok pending' -> sound found' ->
  walk_inv (pending, found) (remains ds ((n, node) :: es)) -> walk_inv (pending', found') (remains ds es).
Proof.
  intros Hf Hpe Hnew Hok Hs (_ & _ & Hc). split_and!; [done | done |]. cbn [fst snd] in *. intros names kind Ht.
  destruct (Hc names kind Ht) as [H | [H | (m & child & rest & H & E & Hh)]].
  - left. by apply Hf.
  - right. left. rewrite Exists_exists in *. naive_solver.
  - apply elem_of_cons in H as [[= -> ->] | H]; [| right; right; by exists m, child, rest].
    subst names. destruct (Hnew kind rest Ht Hh); auto.
Qed.

(** An entry with no file to find changes nothing. *)
Lemma entry_skipped node :
  (forall kind rest, target (ds ++ n :: rest) kind -> holds_file node rest -> has found (ds ++ n :: rest) kind) ->
  walk_inv (pending, found) (remains ds ((n, node) :: es)) -> walk_inv (pending, found) (remains ds es).
Proof.
  intros H Hi. pose proof Hi as (Hp & Hs & _). apply (entry_adds node); try done. intros. left. by apply H.
Qed.

(** The directories above a file of the directory are walked. *)
Lemma above_file : walked (ds ++ [n]).
Proof.
  intros es' rest E Hes Hrest. destruct rest as [| y rest _] using rev_ind; [done |].
  rewrite app_assoc in E. apply app_inj_tail in E as [E _]. by eapply Above.
Qed.

Lemma above_directory es' rest :
  allows_directory filters (names_path (ds ++ [n])) = true ->
  ds ++ [n] = es' ++ rest -> es' <> [] -> allows_directory filters (names_path es') = true.
Proof.
  intros Ha E Hes. destruct rest as [| y rest _] using rev_ind; [rewrite app_nil_r in E; by subst |].
  rewrite app_assoc in E. apply app_inj_tail in E as [E _]. by eapply Above.
Qed.

Context (Here : holds tree ds (Directory (Some entries))).

(** A selected regular file is kept, unless its path was. *)
Lemma keep_file kind :
  (n, Regular) ∈ entries -> selects filters (ds ++ [n]) -> from_path (names_path (ds ++ [n])) = Some kind ->
  walk_inv (pending, found) (remains ds ((n, Regular) :: es)) ->
  walk_inv (match found !! (root ++ names_path (ds ++ [n])) with
            | Some _ => (pending, found)
            | None => (pending, <[root ++ names_path (ds ++ [n]) := (names_path (ds ++ [n]), kind)]> found)
            end) (remains ds es).
Proof.
  intros Hn Hsel Hk Hi. pose proof Hi as (Hp & Hs & _). cbn [fst snd] in *.
  assert (Hone : forall rest, holds_file Regular rest -> rest = []) by (intros [| ??]; [done | cbn; naive_solver]).
  assert (Ht : target (ds ++ [n]) kind).
  { split_and!; [apply holds_file_holds; by eapply holds_snoc | apply above_file | done | done]. }
  destruct (found !! _) as [x |] eqn:Ef.
  - apply (entry_skipped Regular); [| done]. intros kind' rest Ht' ->%Hone. unfold has. rewrite Ef.
    destruct (sound_has found _ x Hs Ef) as (k & -> & Htk). by rewrite (target_kind _ _ _ Htk Ht').
  - apply (entry_adds Regular); [| done | | done | | done].
    + intros names k Hh. unfold has in *.
      destruct (decide (root ++ names_path (ds ++ [n]) = root ++ names_path names)) as [E | Hne];
        [by rewrite <- E, Ef in Hh | by rewrite lookup_insert_ne].
    + intros kind' rest Ht' ->%Hone. left. unfold has. rewrite lookup_insert_eq. by rewrite (target_kind _ _ _ Ht Ht').
    + intros path rel k. destruct (decide (path = root ++ names_path (ds ++ [n]))) as [-> | Hne].
      * rewrite lookup_insert_eq. intros [= <- <-]. eauto.
      * rewrite lookup_insert_ne by done. apply Hs.
Qed.

(** A walked directory is pending. *)
Lemma push_directory contents :
  (n, Directory contents) ∈ entries -> allows_directory filters (names_path (ds ++ [n])) = true ->
  walk_inv (pending, found) (remains ds ((n, Directory contents) :: es)) ->
  walk_inv ((root ++ names_path (ds ++ [n]), names_path (ds ++ [n]), contents) :: pending, found) (remains ds es).
Proof.
  intros Hn Ha Hi. pose proof Hi as (Hp & Hs & _). cbn [fst snd] in *.
  apply (entry_adds (Directory contents)); [done | set_solver | | | done | done].
  - intros kind rest Ht Hh. right. constructor. exists (ds ++ [n]), rest.
    split_and!; [done | by rewrite <- app_assoc | done].
  - constructor; [| done]. exists (ds ++ [n]). split_and!; [done | by eapply holds_snoc |].
    intros es' rest E Hes. by eapply above_directory.
Qed.
End Entry.

Lemma walk_entry_inv ds entries es n node st :
  holds tree ds (Directory (Some entries)) -> (n, node) ∈ entries ->
  (forall es' rest, ds = es' ++ rest -> es' <> [] -> allows_directory filters (names_path es') = true) ->
  walk_inv st (remains ds ((n, node) :: es)) ->
  walk_inv (walk_entry filters (root ++ names_path ds) (names_path ds) st (n, node)) (remains ds es).
Proof.
  destruct st as [pending found]. intros Hds Hn Hw Hi.
  assert (Hpath : names_path ds ++ [Normal n] = names_path (ds ++ [n])) by (unfold names_path; by rewrite map_app).
  assert (Hroot : (root ++ names_path ds) ++ [Normal n] = root ++ names_path (ds ++ [n])) by (by rewrite <- app_assoc, Hpath).
  unfold walk_entry. rewrite Hpath, Hroot. destruct node as [| contents |].
  - destruct (allows_file filters (names_path (ds ++ [n]))) eqn:Ea; cbn [negb].
    + apply allows_file_exact in Ea. destruct (from_path (names_path (ds ++ [n]))) as [kind |] eqn:Ek.
      * rewrite anchored_normal by by apply anchored_names. by eapply keep_file.
      * apply (entry_skipped ds es n pending found Regular); [| done]. intros kind [| m rest] Ht Hh; [| cbn in Hh; naive_solver].
        destruct Ht as (_ & _ & _ & H). congruence.
    + apply (entry_skipped ds es n pending found Regular); [| done]. intros kind [| m rest] Ht Hh; [| cbn in Hh; naive_solver].
      destruct Ht as (_ & _ & H%allows_file_exact & _). congruence.
  - destruct (allows_directory filters (names_path (ds ++ [n]))) eqn:Ea; [by eapply push_directory |].
    apply (entry_skipped ds es n pending found (Directory contents)); [| done]. intros kind [| m rest] Ht Hh; [by cbn in Hh |].
    destruct Ht as (_ & Hwalk & _). specialize (Hwalk (ds ++ [n]) (m :: rest)).
    rewrite Hwalk in Ea; [done | by rewrite <- app_assoc | by destruct ds | done].
  - apply (entry_skipped ds es n pending found Special); [| done]. intros kind [| m rest] _ Hh; cbn in Hh; naive_solver.
Qed.

(** *** The loop *)

Lemma walk_entries_inv ds entries es st :
  holds tree ds (Directory (Some entries)) -> (forall e, e ∈ es -> e ∈ entries) ->
  (forall es' rest, ds = es' ++ rest -> es' <> [] -> allows_directory filters (names_path es') = true) ->
  walk_inv st (remains ds es) ->
  walk_inv (fold_left (walk_entry filters (root ++ names_path ds) (names_path ds)) es st) (remains ds []).
Proof.
  intros Hds Hin Hw. revert st Hin. induction es as [| [n node] es IH]; intros st Hin Hi; [done |].
  cbn [fold_left]. apply IH; [set_solver |]. eapply walk_entry_inv; [done | set_solver | done | done].
Qed.

(** The directories still to be read. *)
Definition to_read (pending : Pending) : nat :=
  foldr (fun x n => (directories (Directory x.2) + n)%nat) 0%nat pending.

Definition entries_to_read (es : list (text * Node)) : nat := foldr (fun e n => (directories e.2 + n)%nat) 0%nat es.

Lemma entries_perm es es' : es ≡ₚ es' -> entries_to_read es = entries_to_read es'.
Proof.
  unfold entries_to_read. induction 1; cbn [foldr]; [done | by f_equal | lia | congruence].
Qed.

Lemma walk_entries_fuel dir rel es st :
  (to_read (fold_left (walk_entry filters dir rel) es st).1 <= to_read st.1 + entries_to_read es)%nat.
Proof.
  revert st. induction es as [| [n node] es IH]; intros [pending found]; cbn [fold_left]; [cbn; lia |].
  etransitivity; [apply IH |].
  change (entries_to_read ((n, node) :: es)) with (directories node + entries_to_read es)%nat.
  enough (to_read (walk_entry filters dir rel (pending, found) (n, node)).1 <= to_read pending + directories node)%nat
    by (cbn [fst]; lia).
  unfold walk_entry. destruct node as [| contents |].
  - repeat case_match; cbn [fst]; lia.
  - destruct (allows_directory _ _); [| cbn [fst]; lia].
    change (directories (Directory contents) + to_read pending <= to_read pending + directories (Directory contents))%nat. lia.
  - cbn [fst]. lia.
Qed.

(** Nothing remains. *)
Definition nothing (names : list text) : Prop := False.

Theorem walk_correct fuel pending found :
  walk_inv (pending, found) nothing -> (to_read pending <= fuel)%nat ->
  match walk fuel filters pending found with
  | Done found' => walk_inv ([], found') nothing
  | Fail e => exists ds, e = Unreadable (root ++ names_path ds) /\ holds tree ds (Directory None)
  | Panic _ | NoFuel => False
  end.
Proof.
  revert pending found. induction fuel as [| fuel IH]; intros [| [[dir rel] contents] pending] found Hi Hf; try done.
  - exfalso. cbn in Hf. destruct contents; cbn in Hf; lia.
  - destruct Hi as (Hp & Hs & Hc). cbn [fst snd] in *. apply Forall_cons in Hp as [(ds & Hx & Hds & Hw) Hp'].
    cbn [fst snd] in *. injection Hx as -> ->. destruct contents as [entries |]; [| by exists ds]. cbn [walk].
    pose proof (merge_sort_Permutation entry_le entries) as HP.
    set (es := merge_sort entry_le entries) in *.
    assert (Hstart : walk_inv (pending, found) (remains ds es)).
    { split_and!; [done | done |]. intros names kind Ht. cbn [fst snd].
      destruct (Hc names kind Ht) as [H | [H | []]]; [by left |]. apply Exists_cons in H as [H | H]; [| auto].
      right; right. destruct H as (ds' & rest & Hds' & -> & Hh). cbn in Hds'. apply names_path_inj in Hds' as <-.
      destruct rest as [| n rest]; [done |]. destruct Hh as (es' & child & [= <-] & Hin & Hh).
      exists n, child, rest. split_and!; [by rewrite HP | done | done]. }
    pose proof (walk_entries_inv ds entries es _ Hds ltac:(intros e; by rewrite HP) Hw Hstart) as Hend.
    pose proof (walk_entries_fuel (root ++ names_path ds) (names_path ds) es (pending, found)) as Hfu.
    destruct (fold_left _ es _) as [pending' found'] eqn:Efold. apply IH.
    + destruct Hend as (Hp2 & Hs2 & Hc2). split_and!; [done | done |]. intros names kind Ht.
      destruct (Hc2 names kind Ht) as [H | [H | (m & c & r & H & _)]]; [by left | by right; left | set_solver].
    + rewrite (entries_perm _ _ HP) in Hfu. cbn [fst] in Hfu.
      change (S (entries_to_read entries) + to_read pending <= S fuel)%nat in Hf. lia.
Qed.
End Walk.

(** ** The order of the files *)

Lemma text_leb_total a b : text_leb a b = true \/ text_leb b a = true.
Proof.
  revert b. induction a as [| c a IH]; intros [| d b]; cbn; try auto.
  destruct (Z.eqb_spec c d) as [-> | Hne]; [rewrite Z.eqb_refl; apply IH |].
  destruct (Z.eqb_spec d c); [lia |]. rewrite !Z.ltb_lt. lia.
Qed.

Lemma text_leb_trans a b c : text_leb a b = true -> text_leb b c = true -> text_leb a c = true.
Proof.
  revert b c. induction a as [| x a IH]; intros [| y b] [| z c]; cbn; try done.
  destruct (Z.eqb_spec x y) as [Hxy | Hxy], (Z.eqb_spec y z) as [Hyz | Hyz], (Z.eqb_spec x z) as [Hxz | Hxz];
    rewrite ?Z.ltb_lt; try lia; by eauto.
Qed.

Lemma text_leb_antisym a b : text_leb a b = true -> text_leb b a = true -> a = b.
Proof.
  revert b. induction a as [| x a IH]; intros [| y b]; cbn; try done.
  destruct (Z.eqb_spec x y) as [-> | ?]; [rewrite Z.eqb_refl; intros; f_equal; by apply IH |].
  destruct (Z.eqb_spec y x); rewrite ?Z.ltb_lt; lia.
Qed.

Lemma component_leb_total c d : component_leb c d = true \/ component_leb d c = true.
Proof. destruct c, d; try apply text_leb_total; cbn; auto. Qed.

Lemma component_leb_trans a b c : component_leb a b = true -> component_leb b c = true -> component_leb a c = true.
Proof. destruct a, b, c; cbn; try done; apply text_leb_trans. Qed.

Lemma component_leb_antisym c d : component_leb c d = true -> component_leb d c = true -> c = d.
Proof. destruct c, d; cbn; try done; intros; f_equal; by apply text_leb_antisym. Qed.

Lemma path_leb_total a b : path_leb a b = true \/ path_leb b a = true.
Proof.
  revert b. induction a as [| c a IH]; intros [| d b]; cbn; try auto.
  destruct (decide (c = d)) as [-> | Hne]; [rewrite decide_True by done; apply IH |].
  rewrite decide_False by done. apply component_leb_total.
Qed.

Lemma path_leb_trans a b c : path_leb a b = true -> path_leb b c = true -> path_leb a c = true.
Proof.
  revert b c. induction a as [| x a IH]; intros [| y b] [| z c]; cbn; try done.
  destruct (decide (x = y)) as [Hxy | Hxy], (decide (y = z)) as [Hyz | Hyz], (decide (x = z)) as [Hxz | Hxz];
    intros Ha Hb; subst; try done; try (by eapply IH).
  - destruct Hyz. by apply component_leb_antisym.
  - by eapply component_leb_trans.
Qed.

#[export] Instance found_le_total : Total found_le.
Proof. intros a b. apply path_leb_total. Qed.

#[export] Instance found_le_trans : Transitive found_le.
Proof. intros a b c. apply path_leb_trans. Qed.

(** The files come in the order of their paths, no path twice. *)
Definition path_before (a b : DiscoveredFile) : Prop := path_leb (at_path a) (at_path b) = true /\ at_path a <> at_path b.

Definition as_file (e : Path * (Path * SourceFileKind)) : DiscoveredFile := mkDiscovered e.1 e.2.1 e.2.2.

Lemma files_sorted (l : list (Path * (Path * SourceFileKind))) :
  StronglySorted found_le l -> NoDup l.*1 -> StronglySorted path_before (map as_file l).
Proof.
  induction 1 as [| e l Hs IH He]; [constructor |]. cbn [fmap list_fmap map]. rewrite NoDup_cons. intros [Hne Hn].
  constructor; [by apply IH |]. rewrite List.Forall_forall in He. apply List.Forall_forall. intros f Hf.
  apply in_map_iff in Hf as (e' & <- & He'). split; [by apply He |].
  cbn. intros E. apply Hne. rewrite E. by apply list_elem_of_In, (in_map fst).
Qed.

(** ** Discovery *)

(** The discovery of a tree, from the root on. *)
Definition finds (filters : DiscoveryFilters) (root : Path) (tree : Node) (files : list DiscoveredFile) : Prop :=
  StronglySorted path_before files
  /\ forall file, file ∈ files <->
       exists names kind, file = mkDiscovered (root ++ names_path names) (names_path names) kind
                          /\ target filters tree names kind.

Lemma finds_found filters root tree found :
  walk_inv filters root tree ([], found) nothing ->
  finds filters root tree (map as_file (merge_sort found_le (map_to_list found))).
Proof.
  intros (_ & Hs & Hc). cbn [fst snd] in *. split.
  - apply files_sorted; [apply StronglySorted_merge_sort; apply _ |]. rewrite merge_sort_Permutation. apply NoDup_fst_map_to_list.
  - intros file. rewrite list_elem_of_In, in_map_iff. setoid_rewrite <- list_elem_of_In.
    setoid_rewrite merge_sort_Permutation. split.
    + intros ([path [rel kind]] & <- & He%elem_of_map_to_list). apply Hs in He as (names & -> & -> & Ht). by exists names, kind.
    + intros (names & kind & -> & Ht). exists (root ++ names_path names, (names_path names, kind)). split; [done |].
      apply elem_of_map_to_list. destruct (Hc names kind Ht) as [H | [H | []]]; [done | by apply Exists_nil in H].
Qed.

Lemma discover_finds filters path root contents :
  normalize_absolute_path path = Some root ->
  match discover_files path (Some (Directory contents)) filters with
  | Done files => finds filters root (Directory contents) files
  | Fail e => exists ds, e = Unreadable (root ++ names_path ds) /\ holds (Directory contents) ds (Directory None)
  | Panic _ | NoFuel => False
  end.
Proof.
  intros Hr. unfold discover_files. rewrite Hr. pose proof (normalized_anchored _ _ Hr) as Ha.
  assert (Hstart : walk_inv filters root (Directory contents) ([(root, [], contents)], ∅) nothing).
  { split_and!.
    - constructor; [| constructor]. exists []. split_and!; [by rewrite app_nil_r | done |].
      intros es rest E Hes. by destruct es.
    - intros p rel kind H. cbn [snd] in H. by rewrite lookup_empty in H.
    - intros names kind Ht. right; left. constructor. exists [], names. split_and!; [done | done | apply Ht]. }
  assert (Hf : (to_read [(root, [], contents)] <= directories (Directory contents))%nat)
    by (unfold to_read; cbn [foldr snd]; lia).
  pose proof (walk_correct filters root (Directory contents) Ha _ _ _ Hstart Hf) as H.
  destruct (walk _ _ _ _) as [found | e | |]; try done. apply finds_found in H.
  replace (map _ (merge_sort found_le (map_to_list found)))
    with (map as_file (merge_sort found_le (map_to_list found))); [done |]. apply map_ext. by intros [p [r k]].
Qed.


(** C14: when every include pattern ends in a file name or is all [**], and
    every directory can be read, no selected source file is missed: discovery
    returns every regular file of the tree, at any depth, that is selected
    and has a source extension, and nothing else. *)
Theorem discovery_complete filters path root contents :
  normalize_absolute_path path = Some root -> covers filters -> readable (Directory contents) = true ->
  exists files, discover_files path (Some (Directory contents)) filters = Done files
    /\ StronglySorted path_before files
    /\ forall file, file ∈ files <->
         exists names kind, file = mkDiscovered (root ++ names_path names) (names_path names) kind
           /\ holds_file (Directory contents) names /\ selects filters names
           /\ from_path (names_path names) = Some kind.
Proof.
  intros Hr Hc Hread. pose proof (discover_finds filters _ _ contents Hr) as H.
  destruct (discover_files _ _ _) as [files | e | |]; [| | done | done].
  - exists files. split; [done |]. destruct H as [Hs H]. split; [done |]. intros file. rewrite H. split.
    + intros (names & kind & -> & Hh & _ & Hsel & Hk). by exists names, kind.
    + intros (names & kind & -> & Hh & Hsel & Hk). exists names, kind. split; [done |]. split_and!; [done | | done | done].
      intros ds rest -> _ Hrest. by eapply allows_above.
  - exfalso. destruct H as (ds & _ & Hd%holds_unreadable). congruence.
Qed.

(** ** What patterns match *)

(** A pattern cuts the value in segments: a star takes any segment, any other
    item one that it accepts. *)
Definition segmented {P V} (is_star : P -> bool) (fits : P -> V -> Prop) (ps : list P) (vs : list V) : Prop :=
  exists segments, concat segments = vs
    /\ Forall2 (fun p segment => is_star p = true \/ exists v, segment = [v] /\ fits p v) ps segments.

Lemma wild_segmented {P V} (is_star : P -> bool) (accepts : P -> V -> bool) (fits : P -> V -> Prop) ps vs :
  (forall p v, is_star p = false -> accepts p v = true <-> fits p v) ->
  wild is_star accepts ps vs = true <-> segmented is_star fits ps vs.
Proof.
  intros Hfit. split.
  - revert vs. induction ps as [| p ps IH]; intros vs H; [destruct vs; [by exists [] | by cbn in H] |].
    destruct (is_star p) eqn:Sp.
    + apply wild_star_inv in H as (k & Hk & H); [| done]. apply IH in H as (segs & E & HF).
      exists (take k vs :: segs). split; [cbn; rewrite E; apply firstn_skipn | constructor; auto].
    + destruct vs as [| v vs]; cbn [wild] in H; rewrite Sp in H; [done |]. apply andb_prop in H as [Ha H].
      apply IH in H as (segs & <- & HF). exists ([v] :: segs). split; [done |]. constructor; [| done].
      right. exists v. split; [done | by apply Hfit].
  - intros (segs & <- & HF). induction HF as [| p seg ps segs Hp HF IH]; [done |].
    change (wild is_star accepts ([p] ++ ps) (seg ++ concat segs) = true). apply wild_append; [| done].
    destruct (is_star p) eqn:Sp.
    + apply (wild_star_drop _ _ _ _ _ (length seg)); [done |]. by rewrite drop_ge.
    + destruct Hp as [| (v & -> & Hv)]; [done |]. cbn [wild]. rewrite Sp. by rewrite (proj2 (Hfit p v Sp)).
Qed.

Definition fits_char (p c : Z) : Prop := p = question_char \/ p = c.

Definition fits_name (pattern name : text) : Prop := segmented char_star fits_char pattern name.

Lemma name_glob_fits pattern name : name_glob pattern name = true <-> fits_name pattern name.
Proof.
  apply wild_segmented. intros p c _. unfold char_accepts, fits_char. by rewrite orb_true_iff, !Z.eqb_eq.
Qed.

(** C25: a path matches a glob exactly when the path and the glob normalize,
    and the names of the path can be cut in segments, one for each component
    of the glob: any number of names for [**], otherwise one name that can
    itself be cut in segments, any characters for [*], any one character for
    [?], the character itself otherwise. The two matching tables compute
    this for every path and glob. *)
Theorem glob_decided path pattern :
  glob_matches path pattern = true <->
  exists names components, relative_components path = Some names
    /\ normalized_pattern_components pattern = Some components
    /\ segmented (fun p => bool_decide (p = STARS)) fits_name components names.
Proof.
  unfold glob_matches, matches_root_relative_pattern. destruct (relative_components path) as [names |];
    [| split; [done | naive_solver]].
  destruct (normalized_pattern_components pattern) as [cs |]; [| split; [done | naive_solver]].
  rewrite glob_components_exact. unfold names_glob.
  rewrite (wild_segmented stars name_glob fits_name) by (intros; apply name_glob_fits). split; [eauto |].
  by intros (? & ? & [= <-] & [= <-] & H).
Qed.

(** ** A pattern whose files are not found *)

(** The include pattern [rtl/**] selects [rtl/sub/a.v], and yet the directory
    [rtl/sub] is not walked: the last component of a pattern is taken to match
    a file, [**] matches directories too. *)
Definition nested_entries : list (text * Node) :=
  [(chars "rtl", Directory (Some [(chars "top.v", Regular);
                                  (chars "sub", Directory (Some [(chars "a.v", Regular)]))]));
   (chars "doc.txt", Regular)].

Definition nested_tree : Node := Directory (Some nested_entries).

Definition nested_file : list text := [chars "rtl"; chars "sub"; chars "a.v"].

Definition root_path : Path := [RootDir; Normal (chars "w")].

Lemma nested_missed :
  holds_file nested_tree nested_file
  /\ allows_file (new_filters [chars "rtl/**"] []) (names_path nested_file) = true
  /\ allows_directory (new_filters [chars "rtl/**"] []) (names_path [chars "rtl"; chars "sub"]) = false
  /\ match discover_files root_path (Some nested_tree) (new_filters [chars "rtl/**"] []) with
     | Done files => map relative_path files = [names_path [chars "rtl"; chars "top.v"]]
     | _ => False
     end.
Proof.
  split_and!; [| by vm_compute | by vm_compute | by vm_compute].
  cbn. eexists _, _. split_and!; [done | left |]. eexists _, _. split_and!; [done | right; left |].
  eexists _, _. by split_and!; [done | left |].
Qed.

(** ** Witnesses *)

Definition found_files (path : Path) (include exclude : list text) : list DiscoveredFile :=
  match discover_files path (Some nested_tree) (new_filters include exclude) with Done files => files | _ => [] end.


Definition detour : Path := [RootDir; Normal (chars "x"); ParentDir; Normal (chars "w")].

Lemma discovery_complete_witness :
  map relative_path (found_files detour [chars "**/*.v"] [])
    = [names_path nested_file; names_path [chars "rtl"; chars "top.v"]]
  /\ forall file, file ∈ found_files detour [chars "**/*.v"] [] <->
       exists names kind, file = mkDiscovered (root_path ++ names_path names) (names_path names) kind
         /\ holds_file nested_tree names /\ selects (new_filters [chars "**/*.v"] []) names
         /\ from_path (names_path names) = Some kind.
Proof.
  split; [by vm_compute |].
  assert (Hc : covers (new_filters [chars "**/*.v"] [])).
  { constructor; [| constructor]. right. exists [STARS], (chars "*.v"). by vm_compute. }
  destruct (discovery_complete (new_filters [chars "**/*.v"] []) detour root_path (Some nested_entries)
              eq_refl Hc eq_refl) as (files & E & _ & H).
  unfold found_files, nested_tree. rewrite E. exact H.
Defined.
