(* ===== verification/Lint.v ===== *)
(** * Lint configuration and reports

    The rule settings of [src/core/lint/mod.rs], the reader of lint
    configuration texts, the registry that runs the rules, and the JSON
    report. What a rule checks is a parameter: the rules read the design
    database. *)

From Stdlib Require Import ZArith Lia Ascii String.
From stdpp Require Import base list gmap strings.
From S2P Require Import Prelude Text.
Open Scope Z_scope.
Open Scope list_scope.

Inductive LintSeverity : Type := SevError | SevWarning | SevInfo.

#[export] Instance lint_severity_eq_dec : EqDecision LintSeverity.
Proof. solve_decision. Defined.

Record RuleConfig : Type := mkRule { enabled : bool; severity : option LintSeverity }.

(** [RuleConfig::default]. *)
Definition default_rule : RuleConfig := mkRule true None.

Notation LintConfig := (gmap text RuleConfig).

Definition set_rule (rule : text) (cfg : RuleConfig) (config : LintConfig) : LintConfig := <[rule := cfg]> config.
Definition get_rule (config : LintConfig) (rule : text) : RuleConfig := default default_rule (config !! rule).
Definition is_enabled (config : LintConfig) (rule : text) : bool := enabled (get_rule config rule).
Definition severity_of (config : LintConfig) (rule : text) : option LintSeverity := config !! rule ≫= severity.

(** The ids of the registered rules, in run order ([default_rules]). *)
Definition rule_ids : list text :=
  map chars
    ["unused-signal"; "width-mismatch"; "incomplete-case"; "combinational-loop"; "multi-driver"; "casez-misuse";
     "if-latch"; "naming-style"; "blocking-in-always_ff"; "nba-in-always_comb"; "unused-parameter"; "implicit-net";
     "case-default-missing"; "comparison-width-mismatch"; "unconnected-port"; "mixed-assignments";
     "undriven-signal"; "incomplete-sensitivity-list"; "out-of-range-select"; "xz-logical-equality";
     "duplicate-case-item"; "empty-implicit-sensitivity"; "assignment-in-condition"; "casex-statement";
     "wide-index"]%string.

Definition known_rule (id : text) : bool := existsb (fun r => bool_decide (r = id)) rule_ids.

(** ** Text methods of the standard library *)

Definition newline_char : Z := 10.
Definition return_char : Z := 13.
Definition quote_char : Z := 34.
Definition hash_char : Z := 35.

Fixpoint strip_prefix (prefix t : text) : option text :=
  match prefix, t with
  | [], _ => Some t
  | c :: prefix', d :: t' => if c =? d then strip_prefix prefix' t' else None
  | _ :: _, [] => None
  end.

(** [str::find]. *)
Fixpoint find (needle t : text) : option nat :=
  match strip_prefix needle t with
  | Some _ => Some 0%nat
  | None => match t with [] => None | _ :: t' => S <$> find needle t' end
  end.

(** [str::split_once] at a character. *)
Fixpoint split_once (c : Z) (t : text) : option (text * text) :=
  match t with
  | [] => None
  | d :: t' => if d =? c then Some ([], t') else (fun '(a, b) => (d :: a, b)) <$> split_once c t'
  end.

(** [str::lines]: a line ends at a newline or at the end of the text, a
    carriage return before the newline is not part of it. *)
Fixpoint split_inclusive (c : Z) (t : text) : list text :=
  match t with
  | [] => []
  | d :: t' =>
      if d =? c then [d] :: split_inclusive c t'
      else match split_inclusive c t' with [] => [[d]] | w :: ws => (d :: w) :: ws end
  end.

Definition line_of (piece : text) : text :=
  match strip_suffix [newline_char] piece with
  | None => piece
  | Some line => match strip_suffix [return_char] line with Some line' => line' | None => line end
  end.

Definition lines (t : text) : list text := map line_of (split_inclusive newline_char t).

Definition decimal (n : Z) : text := chars (dec n).

(** [format!]. *)
Definition format (pieces : list text) : text := concat pieces.
Definition tick (t : text) : text := chars "`" ++ t ++ chars "`".
Definition in_quotes (t : text) : text := quote_char :: t ++ [quote_char].

(** ** Reading a configuration text *)

Definition strip_comment (line : text) : text :=
  match find (chars " #") line with Some i => take i line | None => line end.

Definition parse_severity (value : text) : option LintSeverity :=
  match strip_prefix [quote_char] value ≫= strip_suffix [quote_char] with
  | None => None
  | Some inner =>
      if bool_decide (inner = chars "error") then Some SevError
      else if bool_decide (inner = chars "warning") then Some SevWarning
      else if bool_decide (inner = chars "info") then Some SevInfo
      else None
  end.

(** The state of the loop over lines. *)
Record Reading : Type := mkReading {
  rules : LintConfig;
  errors : list text;
  section : option text;
  section_valid : bool
}.

Definition report (message : list text) (r : Reading) : Reading :=
  mkReading (rules r) (errors r ++ [format message]) (section r) (section_valid r).

Definition enter_section (id : option text) (valid : bool) (r : Reading) : Reading :=
  mkReading (rules r) (errors r) id valid.

(** [rules.entry(section).or_default()], changed. *)
Definition update_rule (id : text) (f : RuleConfig -> RuleConfig) (r : Reading) : Reading :=
  mkReading (set_rule id (f (get_rule (rules r) id)) (rules r)) (errors r) (section r) (section_valid r).

(** The id of a section header, without its brackets. *)
Definition section_id (inner : text) : option text :=
  match strip_prefix (chars "rules.") (trim inner) with
  | None => None
  | Some id => let id := trim id in if is_empty id then None else Some id
  end.

Definition header_line (lineno : Z) (line : text) (r : Reading) : Reading :=
  match strip_prefix (chars "[") line ≫= strip_suffix (chars "]") with
  | None =>
      enter_section None false (report [chars "line "; decimal lineno; chars ": malformed section header "; tick line] r)
  | Some inner =>
      match section_id inner with
      | Some id =>
          if known_rule id then enter_section (Some id) true r
          else enter_section None false (report [chars "line "; decimal lineno; chars ": unknown rule "; tick id] r)
      | None =>
          enter_section None false
            (report [chars "line "; decimal lineno; chars ": expected "; tick (chars "[rules.<id>]");
                     chars " section, got "; tick (chars "[" ++ inner ++ chars "]")] r)
      end
  end.

Definition setting_line (lineno : Z) (id key value : text) (r : Reading) : Reading :=
  if bool_decide (key = chars "enabled") then
    if bool_decide (value = chars "true") then update_rule id (fun c => mkRule true (severity c)) r
    else if bool_decide (value = chars "false") then update_rule id (fun c => mkRule false (severity c)) r
    else
      report [chars "line "; decimal lineno; chars ": invalid "; tick (chars "enabled"); chars " value "; tick value;
              chars " (expected true or false)"] r
  else if bool_decide (key = chars "severity") then
    match parse_severity value with
    | Some sev => update_rule id (fun c => mkRule (enabled c) (Some sev)) r
    | None =>
        report [chars "line "; decimal lineno; chars ": invalid "; tick (chars "severity"); chars " value "; tick value;
                chars " (expected "; in_quotes (chars "error"); chars ", "; in_quotes (chars "warning"); chars " or ";
                in_quotes (chars "info"); chars ")"] r
    end
  else
    report [chars "line "; decimal lineno; chars ": unknown key "; tick key; chars " (expected ";
            tick (chars "enabled"); chars " or "; tick (chars "severity"); chars ")"] r.

Definition starts (c : Z) (line : text) : bool := match line with d :: _ => d =? c | [] => false end.
Definition bracket_char : Z := 91.
Definition equals_char : Z := 61.

(** The body of the loop over lines. *)
Definition read_line (r : Reading) (numbered : nat * text) : Reading :=
  let '(idx, raw) := numbered in
  let lineno := Z.of_nat (idx + 1) in
  let line := trim (strip_comment raw) in
  if is_empty line || starts hash_char line then r
  else if starts bracket_char line then header_line lineno line r
  else if negb (section_valid r) then r
  else
    match section r with
    | None =>
        report [chars "line "; decimal lineno; chars ": key/value outside a "; tick (chars "[rules.<id>]");
                chars " section"] r
    | Some id =>
        match split_once equals_char line with
        | None =>
            report [chars "line "; decimal lineno; chars ": malformed line "; tick line; chars " (expected ";
                    tick (chars "key = value"); chars ")"] r
        | Some (key, value) => setting_line lineno id (trim key) (trim value) r
        end
    end.

Definition enumerate {A} (l : list A) : list (nat * A) := zip (seq 0 (length l)) l.

(** [LintConfig::parse_toml]: the settings after reading, and the errors; no
    errors are [Ok]. *)
Definition parse_toml (config : LintConfig) (t : text) : LintConfig * list text :=
  let r := fold_left read_line (enumerate (lines t)) (mkReading config [] None true) in
  (rules r, errors r).

(** ** Running the rules *)

Record LogicalLine : Type := mkLogical { logical_file : text; logical_line : Z }.

Record LintDiag : Type := mkDiag {
  diag_rule : text;
  diag_severity : LintSeverity;
  diag_file : option text;
  diag_line : Z;
  diag_col : Z;
  diag_message : text;
  logical : option LogicalLine
}.

(** The design a rule reads: its [`line] map is empty or maps positions. *)
Class Design (Ctx : Type) : Type := {
  source_map_empty : Ctx -> bool;
  logical_position : Ctx -> text -> Z -> option LogicalLine
}.

Section Registry.
Context {Ctx : Type} `{Design Ctx}.

Record LintRule : Type := mkLintRule { id : text; check : Ctx -> list LintDiag }.

Definition finish_diag (ctx : Ctx) (override_sev : option LintSeverity) (d : LintDiag) : LintDiag :=
  mkDiag (diag_rule d) (default (diag_severity d) override_sev) (diag_file d) (diag_line d) (diag_col d) (diag_message d)
    (if source_map_empty ctx then logical d else diag_file d ≫= fun file => logical_position ctx file (diag_line d)).

Definition lint (registry : list LintRule) (ctx : Ctx) (config : LintConfig) : list LintDiag :=
  fold_left (fun out rule =>
    if negb (is_enabled config (id rule)) then out
    else fold_left (fun out d => out ++ [finish_diag ctx (severity_of config (id rule)) d]) (check rule ctx) out)
    registry [].
End Registry.

(** ** The JSON report *)

Definition severity_json (sev : LintSeverity) : text :=
  match sev with SevError => chars "error" | SevWarning => chars "warning" | SevInfo => chars "info" end.

Definition hex_digit (d : Z) : Z := if d <? 10 then 48 + d else 87 + d.

Definition escape_char (c : Z) : text :=
  if c =? quote_char then [92; quote_char]
  else if c =? 92 then [92; 92]
  else if c =? 10 then chars "\n"
  else if c =? 13 then chars "\r"
  else if c =? 9 then chars "\t"
  else if c =? 8 then chars "\b"
  else if c =? 12 then chars "\f"
  else if c <? 32 then chars "\u" ++ [48; 48; hex_digit (c / 16); hex_digit (c mod 16)]
  else [c].

Definition json_escape (s : text) : text := concat (map escape_char s).

(** One member of an object, with its line. *)
Definition member_line (key value : text) : text := chars "      " ++ in_quotes key ++ chars ": " ++ value.
Definition comma_line : text := chars "," ++ [newline_char].
Definition json_string (t : text) : text := in_quotes (json_escape t).

Definition diag_json (d : LintDiag) : text :=
  format
    ([[newline_char]; chars "    {"; [newline_char];
      member_line (chars "rule") (json_string (diag_rule d)); comma_line;
      member_line (chars "severity") (in_quotes (severity_json (diag_severity d))); comma_line;
      member_line (chars "file") (match diag_file d with Some f => json_string f | None => chars "null" end); comma_line;
      member_line (chars "line") (decimal (diag_line d)); comma_line;
      member_line (chars "col") (decimal (diag_col d)); comma_line]
     ++ match logical d with
        | Some l => [member_line (chars "logical_file") (json_string (logical_file l)); comma_line;
                     member_line (chars "logical_line") (decimal (logical_line l)); comma_line]
        | None => []
        end
     ++ [member_line (chars "message") (json_string (diag_message d)); [newline_char]; chars "    }"]).

Definition count_severity (sev : LintSeverity) (diags : list LintDiag) : Z :=
  Z.of_nat (length (List.filter (fun d => bool_decide (diag_severity d = sev)) diags)).

Definition diags_to_json (diags : list LintDiag) : text :=
  format
    [chars "{"; [newline_char]; chars "  "; in_quotes (chars "diagnostics"); chars ": [";
     format (imap (fun i d => (if Nat.ltb 0 i then chars "," else []) ++ diag_json d) diags);
     match diags with [] => chars "]" | _ => newline_char :: chars "  ]" end; comma_line;
     chars "  "; in_quotes (chars "summary"); chars ": {";
     in_quotes (chars "errors"); chars ": "; decimal (count_severity SevError diags); chars ", ";
     in_quotes (chars "warnings"); chars ": "; decimal (count_severity SevWarning diags); chars ", ";
     in_quotes (chars "infos"); chars ": "; decimal (count_severity SevInfo diags); chars ", ";
     in_quotes (chars "total"); chars ": "; decimal (Z.of_nat (length diags)); chars "}"; [newline_char]; chars "}"].
