(* ===== verification/LintFacts.v ===== *)
(** * Lint configurations parse back, reports are JSON

    A reader of JSON texts, and that it reads the report as the diagnostics;
    printed rule settings parse as the settings. *)

From Stdlib Require Import ZArith Lia Ascii String.
From stdpp Require Import base list gmap strings.
From S2P Require Import Prelude Text TimescaleFacts Lint.
Open Scope Z_scope.
Open Scope list_scope.

(** ** JSON *)

Inductive json : Type :=
| JNull
| JNum (n : Z)
| JStr (t : text)
| JArr (items : list json)
| JObj (members : list (text * json)).

Definition space_char (c : Z) : bool := (c =? 32) || (c =? 10) || (c =? 13) || (c =? 9).

Fixpoint skip_spaces (t : text) : text :=
  match t with c :: t' => if space_char c then skip_spaces t' else t | [] => [] end.

Definition hex_value (c : Z) : option Z :=
  if between 48 57 c then Some (c - 48)
  else if between 97 102 c then Some (c - 87)
  else if between 65 70 c then Some (c - 55)
  else None.

Definition hex4 (a b c d : Z) : option Z :=
  match hex_value a, hex_value b, hex_value c, hex_value d with
  | Some a, Some b, Some c, Some d =>
      let n := ((a * 16 + b) * 16 + c) * 16 + d in if between 55296 57343 n then None else Some n
  | _, _, _, _ => None
  end.

(** The character of a two-character escape. *)
Definition unescape (c : Z) : option Z :=
  if (c =? quote_char) || (c =? 92) || (c =? 47) then Some c
  else if c =? 98 then Some 8
  else if c =? 102 then Some 12
  else if c =? 110 then Some 10
  else if c =? 114 then Some 13
  else if c =? 116 then Some 9
  else None.

Definition cons_first (c : Z) (r : option (text * text)) : option (text * text) := (fun '(v, rest) => (c :: v, rest)) <$> r.

(** A string, after its opening quote. *)
Fixpoint read_string (t : text) : option (text * text) :=
  match t with
  | [] => None
  | c :: t1 =>
      if c =? quote_char then Some ([], t1)
      else if c =? 92 then
        match t1 with
        | [] => None
        | e :: t2 =>
            if e =? 117 then
              match t2 with
              | a :: b :: c :: d :: t3 => match hex4 a b c d with Some n => cons_first n (read_string t3) | None => None end
              | _ => None
              end
            else match unescape e with Some x => cons_first x (read_string t2) | None => None end
        end
      else if c <? 32 then None
      else cons_first c (read_string t1)
  end.

Definition read_number (t : text) : option (json * text) :=
  match split_digits t with
  | ([], _) => None
  | (d :: ds, rest) => if (d =? 48) && negb (is_empty ds) then None else Some (JNum (number (d :: ds)), rest)
  end.

Definition brace_char : Z := 123.
Definition close_brace : Z := 125.
Definition close_bracket : Z := 93.
Definition comma_char : Z := 44.
Definition colon_char : Z := 58.

(** After the spaces, the character and what follows it. *)
Definition expect (c : Z) (t : text) : option text :=
  match skip_spaces t with d :: t' => if d =? c then Some t' else None | [] => None end.

(** Values, the items of an array and the members of an object, from the
    first one on. *)
Fixpoint read_value (fuel : nat) (t : text) : option (json * text) :=
  match fuel with
  | O => None
  | S f =>
      match skip_spaces t with
      | [] => None
      | c :: rest =>
          if c =? quote_char then (fun '(v, r) => (JStr v, r)) <$> read_string rest
          else if c =? bracket_char then
            match expect close_bracket rest with
            | Some r => Some (JArr [], r)
            | None => (fun '(l, r) => (JArr l, r)) <$> read_items f rest
            end
          else if c =? brace_char then
            match expect close_brace rest with
            | Some r => Some (JObj [], r)
            | None => (fun '(l, r) => (JObj l, r)) <$> read_members f rest
            end
          else
            match strip_prefix (chars "null") (c :: rest) with
            | Some r => Some (JNull, r)
            | None => read_number (c :: rest)
            end
      end
  end
with read_items (fuel : nat) (t : text) : option (list json * text) :=
  match fuel with
  | O => None
  | S f =>
      match read_value f t with
      | None => None
      | Some (v, r) =>
          match expect comma_char r with
          | Some r' => (fun '(l, r'') => (v :: l, r'')) <$> read_items f r'
          | None => (fun r' => ([v], r')) <$> expect close_bracket r
          end
      end
  end
with read_members (fuel : nat) (t : text) : option (list (text * json) * text) :=
  match fuel with
  | O => None
  | S f =>
      match expect quote_char t with
      | None => None
      | Some t1 =>
          match read_string t1 with
          | None => None
          | Some (key, t2) =>
              match expect colon_char t2 with
              | None => None
              | Some t3 =>
                  match read_value f t3 with
                  | None => None
                  | Some (v, r) =>
                      match expect comma_char r with
                      | Some r' => (fun '(l, r'') => ((key, v) :: l, r'')) <$> read_members f r'
                      | None => (fun r' => ([(key, v)], r')) <$> expect close_brace r
                      end
                  end
              end
          end
      end
  end.

(** A whole text is one value. *)
Definition read_json (fuel : nat) (t : text) : option json :=
  match read_value fuel t with Some (v, r) => if is_empty (skip_spaces r) then Some v else None | None => None end.

(** ** Strings and numbers *)

Lemma read_escape_char c t : 0 <= c -> read_string (escape_char c ++ t) = cons_first c (read_string t).
Proof.
  intros Hc. destruct (Z.ltb_spec c 32) as [H | H].
  - assert (exists n, (n < 32)%nat /\ c = Z.of_nat n) as (n & Hn & ->) by (exists (Z.to_nat c); lia).
    do 32 (destruct n as [| n]; [reflexivity |]). lia.
  - unfold escape_char, quote_char. destruct (Z.eqb_spec c 34) as [-> |]; [reflexivity |].
    destruct (Z.eqb_spec c 92) as [-> |]; [reflexivity |].
    rewrite (proj2 (Z.eqb_neq c 10)), (proj2 (Z.eqb_neq c 13)), (proj2 (Z.eqb_neq c 9)), (proj2 (Z.eqb_neq c 8)),
      (proj2 (Z.eqb_neq c 12)), (proj2 (Z.ltb_ge c 32)) by lia.
    cbn [app read_string]. unfold quote_char.
    by rewrite (proj2 (Z.eqb_neq c 34)), (proj2 (Z.eqb_neq c 92)), (proj2 (Z.ltb_ge c 32)).
Qed.

(** Characters are scalar values. *)
Definition scalars (t : text) : Prop := Forall (fun c => 0 <= c) t.

Lemma read_escaped s t : scalars s -> read_string (json_escape s ++ quote_char :: t) = Some (s, t).
Proof.
  induction 1 as [| c s Hc Hs IH]; [done |]. unfold json_escape in *. cbn [map concat].
  rewrite <- app_assoc, read_escape_char, IH by done. done.
Qed.

Lemma chars_scalars s : scalars (chars s).
Proof. unfold scalars, chars. apply List.Forall_forall. intros c. rewrite in_map_iff. intros (b & <- & _). lia. Qed.

(** The first character after the text does not continue it. *)
Definition stops (t : text) : Prop := match t with c :: _ => is_digit c = false | [] => True end.

Lemma number_bytes bs : number (map (fun b => Z.of_N (byte_N b)) bs) = digits_value 0 bs.
Proof.
  unfold number, digits_value. generalize 0. induction bs as [| b bs IH]; intros acc; [done |]. cbn [map fold_left].
  by rewrite IH.
Qed.

Lemma decimal_digits n : 0 <= n ->
  forallb is_digit (decimal n) = true /\ number (decimal n) = n
  /\ exists d ds, decimal n = d :: ds /\ (d = 48 -> ds = []).
Proof.
  intros Hn. destruct (dec_bytes_spec n Hn) as (Hv & Hd & Hl & Hlen).
  assert (E : decimal n = map (fun b => Z.of_N (byte_N b)) (dec_bytes n)).
  { unfold decimal, chars, dec. destruct (Z.ltb_spec n 0); [lia |]. unfold unstr, str. by rewrite list_ascii_of_string_of_list_ascii. }
  rewrite E, number_bytes. split_and!; [| done |].
  - apply forallb_forall. intros c (b & <- & Hb)%in_map_iff. rewrite List.Forall_forall in Hd.
    specialize (Hd b Hb). apply is_ascii_digit_spec in Hd. unfold digit_value in Hd. unfold is_digit, between. lia.
  - destruct (dec_bytes n) as [| b bs]; [cbn in Hl; lia |]. eexists _, _. split; [done |]. intros Hb.
    destruct bs as [| b' bs]; [done | exfalso]. destruct Hlen as [[_ ?] | Hlen]; [done |].
    change (b :: b' :: bs) with ([b] ++ b' :: bs) in Hv. rewrite digits_value_app in Hv.
    change (digits_value 0 [b]) with (Z.of_N (byte_N b) - 48) in Hv. rewrite Hb in Hv.
    inversion Hd as [| ?? _ Hd']; subst. pose proof (digits_value_bounds _ Hd') as Hbound.
    change (48 - 48) with 0 in Hlen.
    replace (Z.of_nat (length (b :: b' :: bs)) - 1) with (Z.of_nat (length (b' :: bs))) in Hlen by (cbn [length]; lia). lia.
Qed.

Lemma read_decimal n t : 0 <= n -> stops t -> read_number (decimal n ++ t) = Some (JNum n, t).
Proof.
  intros Hn Ht. destruct (decimal_digits n Hn) as (Hd & Hv & d & ds & E & Hz). unfold read_number.
  rewrite split_digits_app by done. rewrite E in *. destruct (Z.eqb_spec d 48) as [-> |]; cbn [andb].
  - rewrite (Hz eq_refl) in *. cbn [is_empty negb]. by rewrite Hv.
  - by rewrite Hv.
Qed.

(** ** Values that are read *)

(** From some fuel on the text is read as the value, whatever follows it that
    does not continue a number. *)
Definition reads (t : text) (v : json) : Prop :=
  exists need, forall fuel rest, (need <= fuel)%nat -> stops rest -> read_value fuel (t ++ rest) = Some (v, rest).

Definition reads_members (t : text) (l : list (text * json)) : Prop :=
  exists need, forall fuel rest, (need <= fuel)%nat -> read_members fuel (t ++ close_brace :: rest) = Some (l, rest).

Definition reads_items (t : text) (l : list json) : Prop :=
  exists need, forall fuel rest, (need <= fuel)%nat -> read_items fuel (t ++ close_bracket :: rest) = Some (l, rest).

Definition blank (w : text) : Prop := forallb space_char w = true.

Lemma skip_blank w t : blank w -> skip_spaces (w ++ t) = skip_spaces t.
Proof. unfold blank. induction w as [| c w IH]; cbn; [done |]. by intros [-> H%IH]%andb_prop. Qed.

Lemma expect_blank c w t : blank w -> space_char c = false -> expect c (w ++ c :: t) = Some t.
Proof. intros Hw Hc. unfold expect. rewrite skip_blank by done. cbn. by rewrite Hc, Z.eqb_refl. Qed.

Lemma stops_blank w c t : blank w -> is_digit c = false -> stops (w ++ c :: t).
Proof.
  destruct w as [| d w]; [done |]. unfold blank. cbn. intros [Hd _]%andb_prop _. unfold space_char in Hd. unfold is_digit, between. lia.
Qed.

Lemma reads_blank w t v : blank w -> reads t v -> reads (w ++ t) v.
Proof.
  intros Hw (need & H). exists (S need). intros [| f] rest Hf Hs; [lia |]. specialize (H (S f) rest ltac:(lia) Hs).
  cbn [read_value] in *. by rewrite <- app_assoc, skip_blank.
Qed.

Lemma reads_string s : scalars s -> reads (json_string s) (JStr s).
Proof.
  intros Hs. exists 1%nat. intros [| f] rest Hf _; [lia |]. unfold json_string, in_quotes. cbn [app read_value skip_spaces].
  change (space_char quote_char) with false. cbn iota. rewrite Z.eqb_refl, <- app_assoc. cbn [app].
  by rewrite read_escaped.
Qed.

Lemma reads_null : reads (chars "null") JNull.
Proof. exists 1%nat. intros [| f] rest Hf _; [lia | reflexivity]. Qed.

Lemma reads_number n : 0 <= n -> reads (decimal n) (JNum n).
Proof.
  intros Hn. exists 1%nat. intros [| f] rest Hf Hs; [lia |]. pose proof (read_decimal n rest Hn Hs) as H.
  destruct (decimal_digits n Hn) as (Hd & _ & d & ds & E & _). rewrite E in *. cbn [app forallb] in *.
  apply andb_prop in Hd as [Hd _]. unfold is_digit, between in Hd. cbn [read_value skip_spaces].
  assert (Hsp : space_char d = false) by (unfold space_char; lia). rewrite Hsp.
  unfold quote_char, bracket_char, brace_char. destruct (Z.eqb_spec d 34), (Z.eqb_spec d 91), (Z.eqb_spec d 123); try lia.
  unfold chars. cbn [unstr list_ascii_of_string map strip_prefix].
  change (Z.of_N (byte_N "n")) with 110. destruct (Z.eqb_spec 110 d); [lia | done].
Qed.

(** *** Arrays and objects *)

Ltac flatten := repeat (progress (rewrite <- ?app_assoc in *; cbn [app] in *)).

Lemma reads_items_one t w v : blank w -> reads t v -> reads_items (t ++ w) [v].
Proof.
  intros Hw (need & H). exists (S need). intros [| f] rest Hf; [lia |]. cbn [read_items]. rewrite <- app_assoc.
  rewrite H by (try lia; by apply stops_blank). unfold expect. rewrite skip_blank by done. reflexivity.
Qed.

Lemma reads_items_more t w v ts vs : blank w -> reads t v -> reads_items ts vs -> reads_items (t ++ w ++ comma_char :: ts) (v :: vs).
Proof.
  intros Hw (need & H) (need' & H'). exists (S (need `max` need')). intros [| f] rest Hf; [lia |]. cbn [read_items].
  rewrite <- !app_assoc. rewrite H by (try lia; by apply stops_blank). cbn [app].
  rewrite expect_blank by done. rewrite H' by lia. done.
Qed.

Lemma reads_member_key (w w' key : text) rest : blank w -> blank w' -> scalars key ->
  exists t1 t2, expect quote_char (w ++ json_string key ++ w' ++ colon_char :: rest) = Some t1
    /\ read_string t1 = Some (key, t2) /\ expect colon_char t2 = Some rest.
Proof.
  intros Hw Hw' Hk. unfold json_string, in_quotes. cbn [app]. rewrite expect_blank by done. eexists _, _.
  split; [done |]. rewrite <- !app_assoc. cbn [app]. rewrite read_escaped by done. split; [done |]. by apply expect_blank.
Qed.

Lemma reads_members_one w w' w'' key t v : blank w -> blank w' -> blank w'' -> scalars key -> reads t v ->
  reads_members (w ++ json_string key ++ w' ++ colon_char :: t ++ w'') [(key, v)].
Proof.
  intros Hw Hw' Hw'' Hk (need & H). exists (S need). intros [| f] rest Hf; [lia |]. cbn [read_members].
  destruct (reads_member_key w w' key ((t ++ w'') ++ close_brace :: rest) Hw Hw' Hk) as (t1 & t2 & E1 & E2 & E3).
  flatten. rewrite E1, E2, E3.
  rewrite H by (try lia; by apply stops_blank). unfold expect. rewrite skip_blank by done. reflexivity.
Qed.

Lemma reads_members_more w w' w'' key t v ts vs :
  blank w -> blank w' -> blank w'' -> scalars key -> reads t v -> reads_members ts vs ->
  reads_members (w ++ json_string key ++ w' ++ colon_char :: t ++ w'' ++ comma_char :: ts) ((key, v) :: vs).
Proof.
  intros Hw Hw' Hw'' Hk (need & H) (need' & H'). exists (S (need `max` need')). intros [| f] rest Hf; [lia |].
  cbn [read_members].
  destruct (reads_member_key w w' key ((t ++ w'' ++ comma_char :: ts) ++ close_brace :: rest) Hw Hw' Hk)
    as (t1 & t2 & E1 & E2 & E3).
  flatten. rewrite E1, E2, E3. cbn [app].
  rewrite H by (try lia; by apply stops_blank). rewrite expect_blank by done. rewrite H' by lia. done.
Qed.

(** Nothing but spaces before the closing bracket: the empty array. *)
Definition opens (closer : Z) (t : text) : Prop := forall rest, expect closer (t ++ closer :: rest) = None.

Lemma reads_array t l : opens close_bracket t -> reads_items t l -> reads (bracket_char :: t ++ [close_bracket]) (JArr l).
Proof.
  intros Ho (need & H). exists (S need). intros [| f] rest Hf _; [lia |]. cbn [app read_value skip_spaces].
  change (space_char bracket_char) with false. cbn iota. change (bracket_char =? quote_char) with false. cbn iota.
  rewrite Z.eqb_refl, <- app_assoc. cbn [app]. rewrite Ho, H by lia. done.
Qed.

Lemma reads_object t l : opens close_brace t -> reads_members t l -> reads (brace_char :: t ++ [close_brace]) (JObj l).
Proof.
  intros Ho (need & H). exists (S need). intros [| f] rest Hf _; [lia |]. cbn [app read_value skip_spaces].
  change (space_char brace_char) with false. cbn iota. change (brace_char =? quote_char) with false.
  change (brace_char =? bracket_char) with false. cbn iota.
  rewrite Z.eqb_refl, <- app_assoc. cbn [app]. rewrite Ho, H by lia. done.
Qed.

(** *** Joined members and items *)

Lemma opens_blank w c d t : blank w -> space_char c = false -> c <> d -> opens d (w ++ c :: t).
Proof.
  intros Hw Hc Hd rest. unfold expect. rewrite <- app_assoc, skip_blank by done. cbn [app skip_spaces]. rewrite Hc.
  by rewrite (proj2 (Z.eqb_neq c d)).
Qed.

Lemma reads_members_blank w t l : blank w -> reads_members t l -> reads_members (w ++ t) l.
Proof.
  intros Hw (need & H). exists (S need). intros [| f] rest Hf; [lia |]. specialize (H (S f) rest ltac:(lia)).
  cbn [read_members] in *. unfold expect at 1 in H. unfold expect at 1. by rewrite <- app_assoc, skip_blank.
Qed.

(** A key that is written as it is. *)
Definition plain_key (k : text) : Prop := json_escape k = k /\ scalars k.

Definition member : Type := text * text * json.

Definition member_ok (m : member) : Prop := plain_key m.1.1 /\ reads m.1.2 m.2.

Fixpoint joined (gap : text) (l : list member) : text :=
  match l with
  | [] => []
  | [(k, t, _)] => in_quotes k ++ chars ": " ++ t
  | (k, t, _) :: rest => in_quotes k ++ chars ": " ++ t ++ comma_char :: gap ++ joined gap rest
  end.

Lemma reads_joined gap w l : blank gap -> blank w -> l <> [] -> Forall member_ok l ->
  reads_members (joined gap l ++ w) (map (fun m => (m.1.1, m.2)) l).
Proof.
  intros Hg Hw Hl H. induction H as [| [[k t] v] l [[Hk Hs] Hr] H IH]; [done |]. cbn [fst snd] in *.
  assert (E : in_quotes k = json_string k) by (unfold json_string; by rewrite Hk).
  assert (Hsp : reads (chars " " ++ t) v) by by apply reads_blank.
  destruct l as [| m l]; cbn [map joined fst snd]; rewrite E.
  - pose proof (reads_members_one [] [] w k (chars " " ++ t) v eq_refl eq_refl Hw Hs Hsp) as HR.
    change (chars ": ") with (colon_char :: chars " "). flatten. exact HR.
  - specialize (IH ltac:(done)). apply (reads_members_blank gap _ _ Hg) in IH.
    pose proof (reads_members_more [] [] [] k (chars " " ++ t) v _ _ eq_refl eq_refl eq_refl Hs Hsp IH) as HR.
    change (chars ": ") with (colon_char :: chars " "). destruct m as [[k' t'] v']. flatten. exact HR.
Qed.

(** An object, its members on their lines or on one line. *)
Lemma reads_object_joined w gap w' l : blank w -> blank gap -> blank w' -> l <> [] -> Forall member_ok l ->
  reads (brace_char :: (w ++ joined gap l ++ w') ++ [close_brace]) (JObj (map (fun m => (m.1.1, m.2)) l)).
Proof.
  intros Hw Hg Hw' Hl H. apply reads_object.
  - destruct l as [| [[k t] v] [| m l]]; [done | |]; cbn [joined]; unfold in_quotes; cbn [app]; by apply opens_blank.
  - apply reads_members_blank; [done |]. by apply reads_joined.
Qed.

(** Items one after the other, a comma before all but the first. *)
Lemma reads_items_joined (f : LintDiag -> text) (value : LintDiag -> json) w d ds :
  blank w -> Forall (fun d => reads (f d) (value d)) (d :: ds) ->
  reads_items (f d ++ concat (map (fun d => comma_char :: f d) ds) ++ w) (value d :: map value ds).
Proof.
  intros Hw. revert d. induction ds as [| d' ds IH]; intros d H; apply Forall_cons in H as [Hd H].
  - by apply reads_items_one.
  - cbn [map concat]. specialize (IH d' H).
    pose proof (reads_items_more (f d) [] _ _ _ eq_refl Hd IH) as HR. flatten. exact HR.
Qed.

(** ** The report *)

Definition opt_string (t : option text) : json := match t with Some t => JStr t | None => JNull end.

(** The members of a finding, with the text of each value. *)
Definition diag_members (d : LintDiag) : list member :=
  [(chars "rule", json_string (diag_rule d), JStr (diag_rule d));
   (chars "severity", in_quotes (severity_json (diag_severity d)), JStr (severity_json (diag_severity d)));
   (chars "file", match diag_file d with Some f => json_string f | None => chars "null" end, opt_string (diag_file d));
   (chars "line", decimal (diag_line d), JNum (diag_line d));
   (chars "col", decimal (diag_col d), JNum (diag_col d))]
  ++ match logical d with
     | Some l => [(chars "logical_file", json_string (logical_file l), JStr (logical_file l));
                  (chars "logical_line", decimal (logical_line l), JNum (logical_line l))]
     | None => []
     end
  ++ [(chars "message", json_string (diag_message d), JStr (diag_message d))].

Definition diag_object (d : LintDiag) : json := JObj (map (fun m => (m.1.1, m.2)) (diag_members d)).

Definition counts (diags : list LintDiag) : list member :=
  let n sev := count_severity sev diags in
  let total := Z.of_nat (length diags) in
  [(chars "errors", decimal (n SevError), JNum (n SevError));
   (chars "warnings", decimal (n SevWarning), JNum (n SevWarning));
   (chars "infos", decimal (n SevInfo), JNum (n SevInfo));
   (chars "total", decimal total, JNum total)].

(** The document that the findings make. *)
Definition document (diags : list LintDiag) : json :=
  JObj [(chars "diagnostics", JArr (map diag_object diags));
        (chars "summary", JObj (map (fun m => (m.1.1, m.2)) (counts diags)))].

(** Texts are of scalar values, positions are not negative. *)
Definition diag_ok (d : LintDiag) : Prop :=
  scalars (diag_rule d) /\ default True (scalars <$> diag_file d) /\ scalars (diag_message d)
  /\ 0 <= diag_line d /\ 0 <= diag_col d
  /\ match logical d with Some l => scalars (logical_file l) /\ 0 <= logical_line l | None => True end.

Ltac plain := split; [reflexivity | apply chars_scalars].

Lemma reads_severity sev : reads (in_quotes (severity_json sev)) (JStr (severity_json sev)).
Proof.
  assert (in_quotes (severity_json sev) = json_string (severity_json sev)) as -> by by destruct sev.
  apply reads_string. destruct sev; apply chars_scalars.
Qed.

Lemma diag_members_ok d : diag_ok d -> Forall member_ok (diag_members d).
Proof.
  intros (Hr & Hf & Hm & Hl & Hc & Hlog). unfold diag_members.
  repeat apply Forall_app_2; repeat apply Forall_cons_2; try apply Forall_nil_2; try (split; [plain |]; cbn [fst snd]).
  - by apply reads_string.
  - apply reads_severity.
  - destruct (diag_file d); cbn in Hf; [by apply reads_string | apply reads_null].
  - by apply reads_number.
  - by apply reads_number.
  - destruct (logical d) as [l |]; [| apply Forall_nil_2]. destruct Hlog as [Hlf Hll].
    repeat apply Forall_cons_2; try apply Forall_nil_2; (split; [plain |]); [by apply reads_string | by apply reads_number].
  - by apply reads_string.
Qed.

Definition deep : text := newline_char :: chars "      ".
Definition shallow : text := newline_char :: chars "    ".

Lemma diag_json_joined d :
  diag_json d = shallow ++ brace_char :: (deep ++ joined deep (diag_members d) ++ shallow) ++ [close_brace].
Proof.
  unfold diag_json, diag_members, format, member_line, comma_line, deep, shallow.
  change (chars ",") with [comma_char]. change (chars "    {") with (chars "    " ++ [brace_char]).
  change (chars "    }") with (chars "    " ++ [close_brace]).
  destruct (logical d) as [l |]; cbn [concat app joined]; flatten; rewrite ?app_nil_r; reflexivity.
Qed.

Lemma reads_diag d : diag_ok d -> reads (diag_json d) (diag_object d).
Proof.
  intros H. rewrite diag_json_joined. apply reads_blank; [done |]. apply reads_object_joined; try done.
  by apply diag_members_ok.
Qed.

Lemma counts_ok diags : Forall member_ok (counts diags).
Proof.
  unfold counts. repeat apply Forall_cons_2; try apply Forall_nil_2; (split; [plain |]); apply reads_number;
    unfold count_severity; lia.
Qed.

Lemma imap_same {A B} (f : nat -> A -> B) (g : A -> B) l : (forall i x, f i x = g x) -> imap f l = map g l.
Proof.
  revert f. induction l as [| x l IH]; intros f H; [done |]. cbn [imap map]. rewrite H. f_equal. apply IH. intros. apply H.
Qed.

Lemma reads_diagnostics diags : Forall diag_ok diags ->
  reads (chars "[" ++ format (imap (fun i d => (if Nat.ltb 0 i then chars "," else []) ++ diag_json d) diags)
         ++ match diags with [] => chars "]" | _ => newline_char :: chars "  ]" end) (JArr (map diag_object diags)).
Proof.
  intros H. destruct diags as [| d ds].
  - exists 1%nat. intros [| f] rest Hf _; [lia | reflexivity].
  - cbn [imap]. rewrite (imap_same (_ ∘ S) (fun d => comma_char :: diag_json d)) by done.
    change (chars "[") with [bracket_char].
    change (newline_char :: chars "  ]") with ((newline_char :: chars "  ") ++ [close_bracket]).
    unfold format. cbn [concat app Nat.ltb Nat.leb].
    assert (HF : Forall (fun d => reads (diag_json d) (diag_object d)) (d :: ds))
      by (eapply Forall_impl; [exact H | apply reads_diag]).
    pose proof (reads_items_joined diag_json diag_object (newline_char :: chars "  ") d ds eq_refl HF) as HI.
    eapply reads_array in HI; [flatten; exact HI |].
    rewrite diag_json_joined. rewrite <- !app_assoc. cbn [app]. by apply opens_blank.
Qed.

Lemma diags_to_json_joined diags :
  diags_to_json diags =
  brace_char :: ((newline_char :: chars "  ") ++ joined (newline_char :: chars "  ")
     [(chars "diagnostics",
       chars "[" ++ format (imap (fun i d => (if Nat.ltb 0 i then chars "," else []) ++ diag_json d) diags)
         ++ match diags with [] => chars "]" | _ => newline_char :: chars "  ]" end, JArr (map diag_object diags));
      (chars "summary", brace_char :: ([] ++ joined (chars " ") (counts diags) ++ []) ++ [close_brace],
       JObj (map (fun m => (m.1.1, m.2)) (counts diags)))] ++ [newline_char]) ++ [close_brace].
Proof.
  unfold diags_to_json, counts, comma_line. unfold format at 1. cbn zeta. cbn [concat joined].
  change (chars "{") with [brace_char]. change (chars ",") with [comma_char]. change (chars "}") with [close_brace].
  change (chars ": [") with (chars ": " ++ chars "["). change (chars ": {") with (chars ": " ++ [brace_char]).
  change (chars ", ") with (comma_char :: chars " "). rewrite !app_nil_r. flatten. reflexivity.
Qed.


(** ** Reading settings *)

(** What is read of a line, and whether it says anything. *)
Definition clean (raw : text) : text := trim (strip_comment raw).
Definition says (line : text) : bool := negb (is_empty line || starts hash_char line).

(** The lines of a text that say something. *)
Definition significant (t : text) : list text := List.filter says (map clean (lines t)).

Inductive Setting : Type := SetEnabled (b : bool) | SetSeverity (sev : LintSeverity).

Definition setting_text (s : Setting) : text :=
  match s with
  | SetEnabled b => chars "enabled = " ++ chars (if b then "true" else "false")
  | SetSeverity sev => chars "severity = " ++ in_quotes (severity_json sev)
  end.

Definition apply_setting (cfg : RuleConfig) (s : Setting) : RuleConfig :=
  match s with
  | SetEnabled b => mkRule b (severity cfg)
  | SetSeverity sev => mkRule (enabled cfg) (Some sev)
  end.

Definition section_lines (s : text * list Setting) : list text :=
  (chars "[rules." ++ s.1 ++ chars "]") :: map setting_text s.2.

(** Each setting of a section changes the rule it names. *)
Definition apply_section (config : LintConfig) (s : text * list Setting) : LintConfig :=
  fold_left (fun config setting => set_rule s.1 (apply_setting (get_rule config s.1) setting) config) s.2 config.

(** [read_line] of a line that says something. *)
Definition read_clean (r : Reading) (numbered : nat * text) : Reading :=
  let '(idx, line) := numbered in
  let lineno := Z.of_nat (idx + 1) in
  if starts bracket_char line then header_line lineno line r
  else if negb (section_valid r) then r
  else
    match section r with
    | None =>
        report [chars "line "; decimal lineno; chars ": key/value outside a "; tick (chars "[rules.<id>]");
                chars " section"] r
    | Some id =>
        match split_once equals_char line with
        | None =>
            report [chars "line "; decimal lineno; chars ": malformed line "; tick line; chars " (expected ";
                    tick (chars "key = value"); chars ")"] r
        | Some (key, value) => setting_line lineno id (trim key) (trim value) r
        end
    end.

Lemma read_line_clean r i raw : read_line r (i, raw) = if says (clean raw) then read_clean r (i, clean raw) else r.
Proof. unfold read_line, says, clean. cbv zeta. by destruct (is_empty _ || _). Qed.

Lemma fold_clean ls k r :
  exists nums, length nums = length (List.filter says (map clean ls))
    /\ fold_left read_line (zip (seq k (length ls)) ls) r
       = fold_left read_clean (zip nums (List.filter says (map clean ls))) r.
Proof.
  revert k r. induction ls as [| raw ls IH]; intros k r; [by exists [] |]. cbn [length seq zip_with map List.filter fold_left].
  rewrite read_line_clean. destruct (says (clean raw)).
  - destruct (IH (S k) (read_clean r (k, clean raw))) as (nums & Hl & E). exists (k :: nums). split; [cbn; by rewrite Hl |].
    by rewrite E.
  - apply IH.
Qed.

Lemma read_header id i r : In id rule_ids ->
  read_clean r (i, chars "[rules." ++ id ++ chars "]") = mkReading (rules r) (errors r) (Some id) true.
Proof.
  intros H. unfold rule_ids in H. cbn [map In] in H.
  repeat (destruct H as [<- | H]; [destruct r; vm_compute; reflexivity |]). done.
Qed.

Lemma read_setting s id i config errs :
  read_clean (mkReading config errs (Some id) true) (i, setting_text s)
  = mkReading (set_rule id (apply_setting (get_rule config id) s) config) errs (Some id) true.
Proof.
  assert (Hk : exists k v, split_once equals_char (setting_text s) = Some (k, v) /\ starts bracket_char (setting_text s) = false
             /\ match s with
                | SetEnabled b => trim k = chars "enabled" /\ trim v = chars (if b then "true" else "false")
                | SetSeverity sev => trim k = chars "severity" /\ parse_severity (trim v) = Some sev
                end).
  { destruct s as [[] | []]; eexists _, _; split_and!; vm_compute; reflexivity. }
  destruct Hk as (k & v & Hs & Hb & H). unfold read_clean. cbv zeta. rewrite Hb. cbn [section_valid negb section]. rewrite Hs.
  unfold setting_line. destruct s as [b | sev]; destruct H as [-> H].
  - rewrite bool_decide_eq_true_2 by done. rewrite H. by destruct b.
  - rewrite bool_decide_eq_false_2, bool_decide_eq_true_2 by done. by rewrite H.
Qed.

Lemma read_section s nums r : In s.1 rule_ids -> length nums = length (section_lines s) ->
  fold_left read_clean (zip nums (section_lines s)) r = mkReading (apply_section (rules r) s) (errors r) (Some s.1) true.
Proof.
  destruct s as [id settings]. intros Hid Hl. unfold section_lines in *. cbn [fst snd] in *.
  destruct nums as [| i nums]; [done |]. cbn [zip_with fold_left]. rewrite read_header by done.
  injection Hl as Hl. unfold apply_section. cbn [fst snd]. generalize (rules r). revert nums Hl.
  induction settings as [| s settings IH]; intros [| j nums] Hl config; try done. cbn [map zip_with fold_left].
  rewrite read_setting. apply IH. by injection Hl.
Qed.

Lemma read_sections sections nums r : Forall (fun s => In s.1 rule_ids) sections ->
  length nums = length (concat (map section_lines sections)) ->
  rules (fold_left read_clean (zip nums (concat (map section_lines sections))) r)
    = fold_left apply_section sections (rules r)
  /\ errors (fold_left read_clean (zip nums (concat (map section_lines sections))) r) = errors r.
Proof.
  intros H. revert nums r. induction H as [| s sections Hs H IH]; intros nums r Hl.
  - by destruct nums.
  - cbn [map concat fold_left] in *. rewrite length_app in Hl.
    rewrite <- (take_drop (length (section_lines s)) nums).
    rewrite zip_with_app by (rewrite length_take; lia). rewrite fold_left_app, read_section by (try done; rewrite length_take; lia).
    edestruct (IH (drop (length (section_lines s)) nums)) as [Hr He]; [rewrite length_drop; lia |]. by rewrite Hr, He.
Qed.

(** Settings of known rules are read back as written, from any text whose
    lines - after comments, surrounding spaces and empty lines are left out -
    are the sections of settings: each setting changes its rule, later ones
    win, the other rules keep their configuration, and no error is
    reported. *)
Theorem settings_read config t sections :
  Forall (fun s => known_rule s.1 = true) sections ->
  significant t = concat (map section_lines sections) ->
  parse_toml config t = (fold_left apply_section sections config, []).
Proof.
  intros Hk Hs. unfold parse_toml, enumerate.
  destruct (fold_clean (lines t) 0 (mkReading config [] None true)) as (nums & Hl & E). fold (significant t) in *.
  rewrite E, Hs in *. cbv zeta.
  destruct (read_sections sections nums (mkReading config [] None true)) as [Hr He]; [| done | by rewrite Hr, He].
  eapply Forall_impl; [exact Hk |]. intros s. unfold known_rule. intros (id & Hid & E')%existsb_exists.
  by apply bool_decide_eq_true in E' as <-.
Qed.

(** A comment after a tab is not a comment: the line is refused, although the
    mark comes after white space. *)
Lemma tab_comment_refused :
  parse_toml ∅ (chars "[rules.wide-index]" ++ [newline_char] ++ chars "enabled = false" ++ [9] ++ chars "# off")
  = (∅, [chars "line 2: invalid `enabled` value `false" ++ [9] ++ chars "# off` (expected true or false)"]).
Proof. vm_compute. reflexivity. Qed.

(** ** Witnesses *)

Definition sample_diag : LintDiag :=
  mkDiag (chars "unused-signal") SevWarning None 3 10 [34; 98; 10; 92; 9; 31; 233] (Some (mkLogical (chars "a.v") 7)).


Definition sample_settings : text :=
  chars "# rules" ++ [newline_char] ++ chars "  [rules.wide-index]  # two" ++ [return_char; newline_char; newline_char]
  ++ chars "enabled = false" ++ [newline_char] ++ chars "severity = " ++ in_quotes (chars "error") ++ [newline_char].

Lemma settings_read_witness :
  parse_toml ∅ sample_settings = ({[ chars "wide-index" := mkRule false (Some SevError) ]}, []).
Proof.
  rewrite (settings_read ∅ sample_settings [(chars "wide-index", [SetEnabled false; SetSeverity SevError])]);
    [vm_compute; reflexivity | repeat constructor | vm_compute; reflexivity].
Defined.
