(* ===== verification/Config.v ===== *)
(** * Configuration

    The configuration file after its TOML is read ([src/config/schema.rs]) and
    its resolution to absolute paths and checked values
    ([src/config/resolve.rs], [src/config/mod.rs], [src/config/load.rs]).
    Paths are those of a Unix system. The TOML parser and the files are
    parameters; a [BTreeMap] that is only read is the list of its entries in
    the order of the keys. *)

From Stdlib Require Import ZArith Lia Ascii String.
From stdpp Require Import base list gmap strings sorting.
From S2P Require Import Prelude Text Discover Lint.
Open Scope Z_scope.
Open Scope list_scope.

(** ** Errors *)

Record ConfigError : Type := mkConfigError { message : text }.

Notation result A := (outcome ConfigError A).

(** [ConfigError::new(format!(...))]. *)
Definition error (pieces : list text) : ConfigError := mkConfigError (format pieces).
Definition reject {A} (pieces : list text) : result A := Fail (error pieces).

(** The [?] operator. *)
Definition and_then {A B} (m : result A) (k : A -> result B) : result B :=
  match m with Done a => k a | Fail e => Fail e | Panic why => Panic why | NoFuel => NoFuel end.

Declare Scope config_scope.
Notation "'let?' x ':=' m 'in' k" := (and_then m (fun x => k))
  (at level 10, x pattern, m at level 200, k at level 200) : config_scope.
Open Scope config_scope.

(** [option.map(f).transpose()?]. *)
Definition map_transpose {A B} (f : A -> result B) (value : option A) : result (option B) :=
  match value with None => Done None | Some a => let? b := f a in Done (Some b) end.

(** [map_err] with the name of the field in front of the message. *)
Definition in_field {A} (field : text) (r : text + A) : result A :=
  match r with inl e => reject [field; chars ": "; e] | inr a => Done a end.

(** ** The raw file *)

(** [toml::Value]; the contents of tables, arrays and dates are not looked at. *)
Inductive Value (Float : Type) : Type :=
| VString (t : text)
| VInteger (i : Z)
| VFloat (f : Float)
| VBoolean (b : bool)
| VDatetime
| VArray
| VTable.
Arguments VString {Float} t.
Arguments VInteger {Float} i.
Arguments VFloat {Float} f.
Arguments VBoolean {Float} b.
Arguments VDatetime {Float}.
Arguments VArray {Float}.
Arguments VTable {Float}.

Record RawSources : Type := mkRawSources {
  rs_directories : list text; rs_include : list text; rs_exclude : list text; rs_files : list text
}.

Record RawCompile (Float : Type) : Type := mkRawCompile {
  rc_top : option text;
  rc_edition : option text;
  rc_compilation_units : option text;
  rc_delay_select : option text;
  rc_include_dirs : list text;
  rc_defines : list text;
  rc_param_overrides : list (text * Value Float);
  rc_system_tasks : list text
}.
Arguments mkRawCompile {Float}.
Arguments rc_top {Float}.
Arguments rc_edition {Float}.
Arguments rc_compilation_units {Float}.
Arguments rc_delay_select {Float}.
Arguments rc_include_dirs {Float}.
Arguments rc_defines {Float}.
Arguments rc_param_overrides {Float}.
Arguments rc_system_tasks {Float}.

Record RawLibraries : Type := mkRawLibraries {
  rl_map_files : list text; rl_files : list text; rl_order : list text; rl_default : option text
}.

Record RawAnalysis : Type := mkRawAnalysis { ra_max_file_bytes : option Z; ra_max_total_input_bytes : option Z }.

Record RawRule : Type := mkRawRule { rr_enabled : option bool; rr_severity : option text }.

Record RawLint : Type := mkRawLint {
  rn_enabled : option bool;
  rn_rules : list (text * RawRule);
  rn_only : option bool;
  rn_warnings_as_errors : option bool;
  rn_json : option bool;
  rn_json_file : option text
}.

Record RawSimulator : Type := mkRawSimulator {
  rm_stop_policy : option text;
  rm_optimize : option bool;
  rm_pulse_reject : option Z;
  rm_pulse_error : option Z;
  rm_pulse_style : option text;
  rm_show_cancelled : option bool;
  rm_timing_checks : option bool;
  rm_notifiers : option bool;
  rm_timing_check_messages : option bool;
  rm_neg_timing_checks : option bool;
  rm_plusargs : option (list text)
}.

Record RawWaveform : Type := mkRawWaveform { rw_file : option text; rw_depth : option Z }.

Record RawBuild : Type := mkRawBuild {
  rb_gen_only : option bool;
  rb_generator : option text;
  rb_launcher : option text;
  rb_cc : option text;
  rb_cflags : option text;
  rb_model_opt_level : option text;
  rb_cmake : option text;
  rb_jobs : option Z;
  rb_dpi_libs : list text
}.

Record RawOutput : Type := mkRawOutput { ro_out_dir : option text; ro_runtime_cache : option text }.

Record RawConfig (Float : Type) : Type := mkRawConfig {
  raw_schema_version : Z;
  raw_sources : RawSources;
  raw_compile : RawCompile Float;
  raw_libraries : RawLibraries;
  raw_analysis : RawAnalysis;
  raw_lint : RawLint;
  raw_simulator : RawSimulator;
  raw_waveform : RawWaveform;
  raw_build : RawBuild;
  raw_output : RawOutput
}.
Arguments mkRawConfig {Float}.
Arguments raw_schema_version {Float}.
Arguments raw_sources {Float}.
Arguments raw_compile {Float}.
Arguments raw_libraries {Float}.
Arguments raw_analysis {Float}.
Arguments raw_lint {Float}.
Arguments raw_simulator {Float}.
Arguments raw_waveform {Float}.
Arguments raw_build {Float}.
Arguments raw_output {Float}.

(** ** Names of choices *)

Inductive StopPolicy : Type := Resume | Exit.
Inductive PulseStyle : Type := OnEvent | OnDetect.
Inductive LanguageEdition : Type := Verilog2001 | SystemVerilog2009.
Inductive CompilationUnitMode : Type := Separate | Merged.
Inductive DelaySelection : Type := Min | Typical | Max.
Inductive ModelOptLevel : Type := O0 | O1 | O2 | O3 | Os.

Definition is_name (value : text) (name : string) : bool := bool_decide (value = chars name).

Definition parse_stop_policy (value : text) : text + StopPolicy :=
  if is_name value "resume" then inr Resume
  else if is_name value "exit" then inr Exit
  else inl (chars "expected resume or exit").

Definition env_value (p : StopPolicy) : text := match p with Resume => chars "resume" | Exit => chars "exit" end.

Definition parse_pulse_style (value : text) : text + PulseStyle :=
  if is_name value "onevent" then inr OnEvent
  else if is_name value "ondetect" then inr OnDetect
  else inl (chars "expected onevent or ondetect").

Definition parse_edition (value : text) : text + LanguageEdition :=
  if is_name value "v2001" then inr Verilog2001
  else if is_name value "sv2009" then inr SystemVerilog2009
  else inl (format [chars "unsupported language edition "; tick value; chars " (expected v2001 or sv2009)"]).

Definition parse_compilation_units (value : text) : text + CompilationUnitMode :=
  let lower := Discover.to_ascii_lowercase value in
  if is_name lower "separate" || is_name lower "per-file" || is_name lower "per_file" then inr Separate
  else if is_name lower "merged" || is_name lower "all" then inr Merged
  else inl (format [chars "unsupported compilation-unit mode "; tick value; chars " (expected separate or merged)"]).

Definition parse_delay_select (value : text) : text + DelaySelection :=
  if is_name value "min" then inr Min
  else if is_name value "typ" then inr Typical
  else if is_name value "max" then inr Max
  else inl (format [chars "unsupported delay selection "; tick value; chars " (expected min, typ or max)"]).

Definition parse_opt_level (value : text) : text + ModelOptLevel :=
  if is_name value "O0" then inr O0
  else if is_name value "O1" then inr O1
  else if is_name value "O2" then inr O2
  else if is_name value "O3" then inr O3
  else if is_name value "Os" then inr Os
  else inl (chars "expected O0, O1, O2, O3 or Os").

(** The names that [Display] writes. *)
Definition edition_name (e : LanguageEdition) : text :=
  match e with Verilog2001 => chars "v2001" | SystemVerilog2009 => chars "sv2009" end.
Definition units_name (m : CompilationUnitMode) : text :=
  match m with Separate => chars "separate" | Merged => chars "merged" end.
Definition delay_name (d : DelaySelection) : text :=
  match d with Min => chars "min" | Typical => chars "typ" | Max => chars "max" end.

(** ** The resolved configuration *)

Definition SCHEMA_VERSION : Z := 1.
Definition DEFAULT_EXCLUDE_GLOBS : list text := [chars ".git/**"; chars "target/**"].
Definition DEFAULT_INCLUDE_GLOBS : list text := [chars "**/*.v"; chars "**/*.sv"].
Definition DEFAULT_MAX_FILE_BYTES : Z := 1024 * 1024.
Definition DEFAULT_MAX_TOTAL_INPUT_BYTES : Z := 8 * 1024 * 1024.

Record SourcesConfig : Type := mkSources {
  directories : list Path;
  directories_configured : bool;
  include : list text;
  exclude : list text;
  files : list Path
}.

Record CompileConfig : Type := mkCompile {
  top : option text;
  edition : option LanguageEdition;
  compilation_units : option CompilationUnitMode;
  delay_select : option DelaySelection;
  include_search : list Path;
  defines : list text;
  param_overrides : gmap text text;
  system_tasks : list text
}.

Record LibrariesConfig : Type := mkLibraries {
  map_files : list Path;
  library_files : list text;
  order : list text;
  default_library : option text
}.

Record AnalysisConfig : Type := mkAnalysis { max_file_bytes : Z; max_total_input_bytes : Z }.

Record LintRunConfig : Type := mkLintRun {
  only : option bool;
  warnings_as_errors : option bool;
  json : option bool;
  json_file : option Path
}.

Record SimulatorConfig : Type := mkSimulator {
  stop_policy : option StopPolicy;
  optimize : option bool;
  pulse_reject : option Z;
  pulse_error : option Z;
  pulse_style : option PulseStyle;
  show_cancelled : option bool;
  timing_checks : option bool;
  notifiers : option bool;
  timing_check_messages : option bool;
  neg_timing_checks : option bool;
  plusargs : option (list text)
}.

Record WaveformConfig : Type := mkWaveform { file : option Path; depth : option Z }.

Record BuildConfig : Type := mkBuild {
  gen_only : option bool;
  generator : option text;
  launcher : option text;
  cc : option text;
  cflags : option text;
  model_opt_level : option ModelOptLevel;
  cmake : option text;
  jobs : option Z;
  dpi_libs : list Path
}.

Record OutputConfig : Type := mkOutput { out_dir : option Path; runtime_cache : option Path }.

Record LlgConfig : Type := mkConfig {
  schema_version : Z;
  base_dir : Path;
  sources : SourcesConfig;
  compile : CompileConfig;
  libraries : LibrariesConfig;
  analysis : AnalysisConfig;
  lint : LintConfig;
  lint_run : LintRunConfig;
  simulator : SimulatorConfig;
  waveform : WaveformConfig;
  build : BuildConfig;
  output : OutputConfig
}.

Definition default_config (root : Path) : LlgConfig :=
  let root := default root (normalize_absolute_path root) in
  mkConfig SCHEMA_VERSION root
    (mkSources [root] false DEFAULT_INCLUDE_GLOBS DEFAULT_EXCLUDE_GLOBS [])
    (mkCompile None None None None [] [] ∅ [])
    (mkLibraries [] [] [] None)
    (mkAnalysis DEFAULT_MAX_FILE_BYTES DEFAULT_MAX_TOTAL_INPUT_BYTES)
    ∅
    (mkLintRun None None None None)
    (mkSimulator None None None None None None None None None None None)
    (mkWaveform None None)
    (mkBuild None None None None None None None None [])
    (mkOutput None None).

(** ** Paths in the file *)

Definition is_dot (p : text) : bool := bool_decide (p = [dot]).

(** [Path::components] of a text without its root: empty components and
    [.] are skipped. *)
Fixpoint path_parts (parts : list text) : Path :=
  match parts with
  | [] => []
  | p :: rest =>
      if is_empty p || is_dot p then path_parts rest
      else (if bool_decide (p = [dot; dot]) then ParentDir else Normal p) :: path_parts rest
  end.

Definition path_of (t : text) : Path :=
  match split_char slash t with
  | [] => []
  | p :: rest =>
      if is_empty p && negb (is_empty t) then RootDir :: path_parts rest
      else if is_dot p then CurDir :: path_parts rest
      else path_parts (p :: rest)
  end.

(** [Path::join] with a relative path: a leading [.] is not a component of the
    result. *)
Definition join_path (base p : Path) : Path :=
  base ++ List.filter (fun c => negb (bool_decide (c = CurDir))) p.

Definition component_text (c : Component) : text :=
  match c with
  | Prefix name | Normal name => name
  | RootDir => []
  | CurDir => [dot]
  | ParentDir => [dot; dot]
  end.

(** [Path::display]. *)
Definition display_path (p : Path) : text :=
  match p with
  | RootDir :: rest => slash :: join_slash (map component_text rest)
  | _ => join_slash (map component_text p)
  end.

Definition resolve_path (base_dir : Path) (entry field : text) : result Path :=
  if is_empty entry then reject [field; chars ": path must not be empty"]
  else
    let raw_path := path_of entry in
    let absolute := if is_absolute raw_path then raw_path else join_path base_dir raw_path in
    match normalize_absolute_path absolute with
    | Some path => Done path
    | None => reject [field; chars " must resolve to an absolute path"]
    end.

(** The loop of [resolve_paths]: [seen] are the paths resolved so far. *)
Fixpoint resolve_each (base_dir : Path) (field : text) (entries : list text) (seen : gset Path) (resolved : list Path)
  : result (list Path) :=
  match entries with
  | [] => Done resolved
  | entry :: entries =>
      let? path := resolve_path base_dir entry field in
      if bool_decide (path ∈ seen) then resolve_each base_dir field entries seen resolved
      else resolve_each base_dir field entries ({[path]} ∪ seen) (resolved ++ [path])
  end.

Definition resolve_paths (base_dir : Path) (entries : list text) (field : text) : result (list Path) :=
  resolve_each base_dir field entries ∅ [].

Fixpoint normalize_each (field : text) (patterns : list text) (seen : gset text) (normalized : list text)
  : result (list text) :=
  match patterns with
  | [] => Done normalized
  | pattern :: patterns =>
      match normalize_relative_pattern pattern with
      | None => reject [field; chars ": invalid glob "; tick pattern]
      | Some p =>
          if is_empty p then reject [field; chars ": glob must not be empty"]
          else if bool_decide (p ∈ seen) then normalize_each field patterns seen normalized
          else normalize_each field patterns ({[p]} ∪ seen) (normalized ++ [p])
      end
  end.

Definition normalize_patterns (field : text) (patterns : list text) : result (list text) :=
  normalize_each field patterns ∅ [].

Definition non_empty (field : text) (value : option text) : result (option text) :=
  match value with
  | Some [] => reject [field; chars " must not be empty"]
  | other => Done other
  end.

(** ** Definitions and parameters *)

(** ASCII control characters. *)
Definition has_control_char (value : text) : bool := existsb (fun ch => (ch <? 32) || (ch =? 127)) value.

Definition dollar_char : Z := 36.
Definition underscore_char : Z := 95.
Definition word_char (ch : Z) : bool := alphanumeric ch || (ch =? underscore_char) || (ch =? dollar_char).

Definition is_identifier (name : text) : bool :=
  match name with
  | first :: rest => (alphabetic first || (first =? underscore_char)) && forallb word_char rest
  | [] => false
  end.

(** The text before the first [=]. *)
Definition define_name (define : text) : text :=
  match Lint.split_once equals_char define with Some (name, _) => name | None => define end.

Definition define_value_bad (define : text) : bool :=
  match Lint.split_once equals_char define with Some (_, value) => has_control_char value | None => false end.

(** The loop of [validate_defines]. *)
Fixpoint validate_each (defines : list text) (seen_names : gset text) (validated : list text) (warnings : list ConfigError)
  : list text * list ConfigError :=
  match defines with
  | [] => (validated, warnings)
  | define :: defines =>
      let name := define_name define in
      let drop pieces := validate_each defines seen_names validated (warnings ++ [error pieces]) in
      if is_empty define then drop [chars "compile.defines: empty define entry dropped"]
      else if negb (negb (is_empty name) && forallb word_char name) then
        drop [chars "compile.defines: invalid define "; tick define; chars " dropped"]
      else if define_value_bad define then
        drop [chars "compile.defines: define "; tick name; chars " dropped (value contains an ASCII control character)"]
      else if bool_decide (name ∈ seen_names) then
        drop [chars "compile.defines: duplicate define name "; tick name; chars " dropped (first entry wins)"]
      else validate_each defines ({[name]} ∪ seen_names) (validated ++ [define]) warnings
  end.

Definition validate_defines (defines : list text) : list text * list ConfigError := validate_each defines ∅ [] [].

(** How a real number is printed. *)
Class FloatText (Float : Type) : Type := {
  is_finite : Float -> bool;
  debug_text : Float -> text;
  display_text : Float -> text
}.

Section Parameters.
Context {Float : Type} `{FloatText Float}.

Definition real_literal (value : Float) : option text := if is_finite value then Some (debug_text value) else None.

Definition value_type_name (value : Value Float) : text :=
  match value with
  | VString _ => chars "string"
  | VInteger _ => chars "integer"
  | VFloat _ => chars "float"
  | VBoolean _ => chars "boolean"
  | VDatetime => chars "datetime"
  | VArray => chars "array"
  | VTable => chars "table"
  end.

Definition override_prefix (name : text) : text := chars "compile.param_overrides." ++ name.

(** The text of a value, as [-G NAME=VALUE] takes it. *)
Definition override_text (name : text) (value : Value Float) : result text :=
  match value with
  | VString t => Done t
  | VInteger i => Done (decimal i)
  | VFloat f =>
      match real_literal f with
      | Some literal => Done literal
      | None => reject [override_prefix name; chars ": "; display_text f; chars " has no SystemVerilog real literal"]
      end
  | VBoolean flag => Done (chars (if flag then "1'b1" else "1'b0"))
  | other =>
      reject [override_prefix name; chars ": value must be a string, integer, float or boolean, got ";
              value_type_name other]
  end.

Fixpoint override_each (entries : list (text * Value Float)) (overrides : gmap text text) (warnings : list ConfigError)
  : result (gmap text text * list ConfigError) :=
  match entries with
  | [] => Done (overrides, warnings)
  | (name, value) :: entries =>
      if negb (is_identifier name) then
        override_each entries overrides
          (warnings ++ [error [override_prefix name; chars ": invalid parameter identifier, entry dropped"]])
      else
        let? normalized := override_text name value in
        if is_empty normalized then
          override_each entries overrides (warnings ++ [error [override_prefix name; chars ": empty value dropped"]])
        else if has_control_char normalized then
          override_each entries overrides
            (warnings ++ [error [override_prefix name; chars ": value contains an ASCII control character, entry dropped"]])
        else override_each entries (<[name := normalized]> overrides) warnings
  end.

Definition resolve_param_overrides (raw : RawCompile Float) : result (gmap text text * list ConfigError) :=
  override_each (rc_param_overrides raw) ∅ [].
End Parameters.

(** ** Sections of the file *)

Definition add_pattern (exclude : list text) (pattern : text) : list text :=
  if existsb (fun existing => bool_decide (existing = pattern)) exclude then exclude else exclude ++ [pattern].

Definition resolve_sources (base_dir : Path) (raw : RawSources) : result SourcesConfig :=
  let? include :=
    match rs_include raw with
    | [] => Done DEFAULT_INCLUDE_GLOBS
    | patterns => normalize_patterns (chars "sources.include") patterns
    end in
  let? exclude :=
    match rs_exclude raw with
    | [] => Done []
    | patterns => normalize_patterns (chars "sources.exclude") patterns
    end in
  let exclude := fold_left add_pattern DEFAULT_EXCLUDE_GLOBS exclude in
  let configured := match rs_directories raw with [] => false | _ => true end in
  let? directories :=
    if configured then resolve_paths base_dir (rs_directories raw) (chars "sources.directories") else Done [base_dir] in
  let? files := resolve_paths base_dir (rs_files raw) (chars "sources.files") in
  Done (mkSources directories configured include exclude files).

Definition validate_top_name (name : text) : text + unit :=
  if is_empty name then inl (chars "the top module name must not be empty")
  else if existsb (fun c => (c =? dot) || (c =? 58) || is_whitespace c) name then
    inl (format [tick name; chars " is not a module name (give the module name only, without a library or "; tick (chars ":config");
                 chars ")"])
  else inr tt.

Definition resolve_compile {Float} `{FloatText Float} (base_dir : Path) (raw : RawCompile Float)
  : result (CompileConfig * list ConfigError) :=
  let? include_dirs := resolve_paths base_dir (rc_include_dirs raw) (chars "compile.include_dirs") in
  let? top := non_empty (chars "compile.top") (rc_top raw) in
  let? _ := match top with Some t => in_field (chars "compile.top") (validate_top_name t) | None => Done tt end in
  let? edition := map_transpose (fun v => in_field (chars "compile.edition") (parse_edition v)) (rc_edition raw) in
  let? compilation_units :=
    map_transpose (fun v => in_field (chars "compile.compilation_units") (parse_compilation_units v))
      (rc_compilation_units raw) in
  let? delay_select :=
    map_transpose (fun v => in_field (chars "compile.delay_select") (parse_delay_select v)) (rc_delay_select raw) in
  let '(defines, warnings) := validate_defines (rc_defines raw) in
  let? (param_overrides, override_warnings) := resolve_param_overrides raw in
  if existsb is_empty (rc_system_tasks raw) then reject [chars "compile.system_tasks: prototype must not be empty"]
  else
    Done (mkCompile top edition compilation_units delay_select include_dirs defines param_overrides (rc_system_tasks raw),
          warnings ++ override_warnings).

(** One entry of [libraries.files]: only the path is resolved. *)
Definition library_file (base_dir : Path) (entry : text) : result text :=
  let '(library, path) :=
    match Lint.split_once equals_char entry with Some (library, path) => (Some library, path) | None => (None, entry) end in
  if match library with Some l => is_empty l | None => false end || is_empty path then
    reject [chars "libraries.files: "; tick entry; chars " must use "; tick (chars "library=path"); chars " or ";
            tick (chars "path"); chars " with nonempty values"]
  else
    let? path := resolve_path base_dir path (chars "libraries.files") in
    Done (match library with Some l => l ++ chars "=" ++ display_path path | None => display_path path end).

Fixpoint library_each (base_dir : Path) (entries files : list text) : result (list text) :=
  match entries with
  | [] => Done files
  | entry :: entries => let? f := library_file base_dir entry in library_each base_dir entries (files ++ [f])
  end.

Fixpoint check_order (names : list text) : result unit :=
  match names with
  | [] => Done tt
  | name :: names =>
      if is_empty name || existsb (fun c => c =? 44) name then
        reject [chars "libraries.order: "; tick name; chars " must be a nonempty library name without commas"]
      else check_order names
  end.

Definition resolve_libraries (base_dir : Path) (raw : RawLibraries) : result LibrariesConfig :=
  let? map_files := resolve_paths base_dir (rl_map_files raw) (chars "libraries.map_files") in
  let? files := library_each base_dir (rl_files raw) [] in
  let? _ := check_order (rl_order raw) in
  let? default := non_empty (chars "libraries.default") (rl_default raw) in
  Done (mkLibraries map_files files (rl_order raw) default).

Definition resolve_analysis (raw : RawAnalysis) : result AnalysisConfig :=
  let max_file_bytes := default DEFAULT_MAX_FILE_BYTES (ra_max_file_bytes raw) in
  if max_file_bytes =? 0 then reject [chars "analysis.max_file_bytes must be positive"]
  else
    let max_total_input_bytes := default DEFAULT_MAX_TOTAL_INPUT_BYTES (ra_max_total_input_bytes raw) in
    if max_total_input_bytes =? 0 then reject [chars "analysis.max_total_input_bytes must be positive"]
    else Done (mkAnalysis max_file_bytes max_total_input_bytes).

Definition resolve_lint_run (base_dir : Path) (raw : RawLint) : result LintRunConfig :=
  let? json_file := map_transpose (fun e => resolve_path base_dir e (chars "lint.json_file")) (rn_json_file raw) in
  Done (mkLintRun (rn_only raw) (rn_warnings_as_errors raw) (rn_json raw) json_file).

Definition percent (key : text) (value : option Z) : result (option Z) :=
  map_transpose
    (fun v => if v <=? 100 then Done v
              else reject [chars "simulator."; key; chars ": expected an integer from 0 to 100"]) value.

(** [parse_pulse_percent]. *)
Definition parse_pulse_percent (value : text) : text + Z :=
  let digits := match value with c :: d :: ds => if c =? 43 then d :: ds else value | _ => value end in
  match split_digits digits with
  | (ds, []) => match parse_number 255 ds with
                | Some v => if v <=? 100 then inr v else inl (chars "expected an integer from 0 to 100")
                | None => inl (chars "expected an integer from 0 to 100")
                end
  | _ => inl (chars "expected an integer from 0 to 100")
  end.

Definition resolve_simulator (raw : RawSimulator) : result SimulatorConfig :=
  let? stop_policy :=
    map_transpose (fun v => in_field (chars "simulator.stop_policy") (parse_stop_policy v)) (rm_stop_policy raw) in
  let? pulse_reject := percent (chars "pulse_reject") (rm_pulse_reject raw) in
  let? pulse_error := percent (chars "pulse_error") (rm_pulse_error raw) in
  let? pulse_style :=
    map_transpose (fun v => in_field (chars "simulator.pulse_style") (parse_pulse_style v)) (rm_pulse_style raw) in
  Done (mkSimulator stop_policy (rm_optimize raw) pulse_reject pulse_error pulse_style (rm_show_cancelled raw)
          (rm_timing_checks raw) (rm_notifiers raw) (rm_timing_check_messages raw) (rm_neg_timing_checks raw)
          (rm_plusargs raw)).

Definition is_waveform_file (path : Path) : bool :=
  match extension path with
  | Some e => let e := Discover.to_ascii_lowercase e in is_name e "vcd" || is_name e "fst"
  | None => false
  end.

Definition resolve_waveform (base_dir : Path) (raw : RawWaveform) : result WaveformConfig :=
  let? file := map_transpose (fun e => resolve_path base_dir e (chars "waveform.file")) (rw_file raw) in
  let? _ :=
    match file with
    | Some f => if is_waveform_file f then Done tt
                else reject [chars "waveform.file: "; tick (display_path f); chars " must end in .vcd or .fst"]
    | None => Done tt
    end in
  let? depth :=
    map_transpose
      (fun d => if d <=? 4294967295 then Done d
                else reject [chars "waveform.depth: "; decimal d; chars " is out of range (expected 0 to 4294967295)"])
      (rw_depth raw) in
  match depth, file with
  | Some _, None => reject [chars "waveform.depth requires waveform.file"]
  | _, _ => Done (mkWaveform file depth)
  end.

(** [usize::MAX] of a 64-bit machine is the largest value of the file: no
    [jobs] is out of range. *)
Definition resolve_jobs (jobs : option Z) : result (option Z) :=
  match jobs with
  | None => Done None
  | Some v => if v =? 0 then reject [chars "build.jobs must be a positive integer"] else Done (Some v)
  end.

Definition resolve_build (base_dir : Path) (raw : RawBuild) : result BuildConfig :=
  let? model_opt_level :=
    map_transpose (fun v => in_field (chars "build.model_opt_level") (parse_opt_level v)) (rb_model_opt_level raw) in
  let? jobs := resolve_jobs (rb_jobs raw) in
  let? generator := non_empty (chars "build.generator") (rb_generator raw) in
  let? launcher := non_empty (chars "build.launcher") (rb_launcher raw) in
  let? cc := non_empty (chars "build.cc") (rb_cc raw) in
  let? cmake := non_empty (chars "build.cmake") (rb_cmake raw) in
  let? dpi_libs := resolve_paths base_dir (rb_dpi_libs raw) (chars "build.dpi_libs") in
  Done (mkBuild (rb_gen_only raw) generator launcher cc (rb_cflags raw) model_opt_level cmake jobs dpi_libs).

Definition resolve_output (base_dir : Path) (raw : RawOutput) : result OutputConfig :=
  let? out_dir := map_transpose (fun e => resolve_path base_dir e (chars "output.out_dir")) (ro_out_dir raw) in
  let? runtime_cache := map_transpose (fun e => resolve_path base_dir e (chars "output.runtime_cache")) (ro_runtime_cache raw) in
  Done (mkOutput out_dir runtime_cache).

(** How the driver splits an entry of [library_files] ([core/compile.rs]). *)
Definition split_library_file_spec (value : text) (default_library : option text) : result (text * text) :=
  match Lint.split_once equals_char value with
  | Some (library, path) =>
      if is_empty library || is_empty path then reject [chars "library file must use library=path with nonempty values"]
      else Done (library, path)
  | None => Done (default (chars "work") default_library, value)
  end.

(** ** Lint rules *)

(** The severity names of the configuration file. *)
Definition config_severity (value : text) : result LintSeverity :=
  if is_name value "error" then Done SevError
  else if is_name value "warning" then Done SevWarning
  else if is_name value "info" then Done SevInfo
  else reject [chars "lint.rules.*.severity must be error, warning or info, got "; tick value].

Fixpoint check_rule_ids (ids : list text) : result unit :=
  match ids with
  | [] => Done tt
  | id :: ids =>
      if known_rule id then check_rule_ids ids
      else reject [chars "lint.rules."; id; chars ": unknown lint rule "; tick id]
  end.

(** Disable every rule. *)
Definition disable_all (config : LintConfig) : LintConfig :=
  fold_left (fun config id => set_rule id (mkRule false (severity_of config id)) config) rule_ids config.

Definition translate_rule (config : LintConfig) (id : text) (rule : RawRule) : result LintConfig :=
  let rule_config := get_rule config id in
  let rule_config := mkRule (default (enabled rule_config) (rr_enabled rule)) (severity rule_config) in
  let? rule_config :=
    match rr_severity rule with
    | Some s => let? sev := config_severity s in Done (mkRule (enabled rule_config) (Some sev))
    | None => Done rule_config
    end in
  Done (set_rule id rule_config config).

Fixpoint translate_rules (rules : list (text * RawRule)) (config : LintConfig) : result LintConfig :=
  match rules with
  | [] => Done config
  | (id, rule) :: rules => let? config := translate_rule config id rule in translate_rules rules config
  end.

Definition translate_lint (raw : RawLint) : result LintConfig :=
  let? _ := check_rule_ids (map fst (rn_rules raw)) in
  let config := if bool_decide (rn_enabled raw = Some false) then disable_all ∅ else ∅ in
  translate_rules (rn_rules raw) config.

(** ** The whole file *)

Definition resolve {Float} `{FloatText Float} (base_dir : Path) (raw : RawConfig Float)
  : result (LlgConfig * list ConfigError) :=
  if negb (raw_schema_version raw =? SCHEMA_VERSION) then
    reject [chars "schema_version: unsupported value "; decimal (raw_schema_version raw); chars " (expected ";
            decimal SCHEMA_VERSION; chars ")"]
  else
    let? sources := resolve_sources base_dir (raw_sources raw) in
    let? (compile, warnings) := resolve_compile base_dir (raw_compile raw) in
    let? libraries := resolve_libraries base_dir (raw_libraries raw) in
    let? analysis := resolve_analysis (raw_analysis raw) in
    let? lint := translate_lint (raw_lint raw) in
    let? lint_run := resolve_lint_run base_dir (raw_lint raw) in
    let? simulator := resolve_simulator (raw_simulator raw) in
    let? waveform := resolve_waveform base_dir (raw_waveform raw) in
    let? build := resolve_build base_dir (raw_build raw) in
    let? output := resolve_output base_dir (raw_output raw) in
    Done (mkConfig (raw_schema_version raw) base_dir sources compile libraries analysis lint lint_run simulator waveform
            build output, warnings).

(** The search directories for included files, each once. *)
Definition add_new (dirs : list Path) (dir : Path) : list Path :=
  if bool_decide (dir ∈ dirs) then dirs else dirs ++ [dir].

Definition include_dirs (config : LlgConfig) : list Path :=
  fold_left add_new (directories (sources config) ++ include_search (compile config)) [].

(** ** Sources *)

Definition unit_le (a b : Path) : Prop := path_leb a b = true.
#[export] Instance unit_le_dec : RelDecision unit_le := fun a b => decide (path_leb a b = true).

(** The loop over source directories; the file system has [node] at a
    directory. *)
Fixpoint discover_each (node : Path -> option Node) (filters : DiscoveryFilters) (dirs : list Path) (units : gset Path)
  : outcome WalkError (gset Path) :=
  match dirs with
  | [] => Done units
  | dir :: dirs =>
      match discover_files dir (node dir) filters with
      | Done files =>
          discover_each node filters dirs
            (fold_left (fun units f => if is_compilation_unit (at_path f) then {[at_path f]} ∪ units else units) files units)
      | Fail e => Fail e
      | Panic why => Panic why
      | NoFuel => NoFuel
      end
  end.

Definition discover_sources (node : Path -> option Node) (config : LlgConfig) : outcome WalkError (list Path) :=
  let filters := new_filters (include (sources config)) (exclude (sources config)) in
  match discover_each node filters (directories (sources config)) ∅ with
  | Done units => Done (merge_sort unit_le (elements units))
  | Fail e => Fail e
  | Panic why => Panic why
  | NoFuel => NoFuel
  end.

(** ** Loading *)

(** A parsed file with its warnings. *)
Definition ParsedConfig : Type := LlgConfig * list ConfigError.

(** What the TOML parser makes of a text: a syntax error, a value that is not
    a table, an error of its shape (a message, with the position when it has
    one), or the raw configuration. *)
Inductive TomlRead (Float : Type) : Type :=
| Malformed (e : text)
| NotATable
| BadShape (e : text) (span_start : option nat)
| Read (raw : RawConfig Float).
Arguments Malformed {Float} e.
Arguments NotATable {Float}.
Arguments BadShape {Float} e span_start.
Arguments Read {Float} raw.

Definition table_header (line : text) : option text :=
  match Lint.strip_prefix [bracket_char] line with
  | None => None
  | Some inner =>
      let inner := default inner (Lint.strip_prefix [bracket_char] inner) in
      match find (chars "]") inner with Some e => Some (trim (take e inner)) | None => None end
  end.

(** The last table header of the lines. *)
Fixpoint last_header (lines : list text) : option text :=
  match lines with
  | [] => None
  | line :: lines =>
      match last_header lines with Some h => Some h | None => table_header (trim line) end
  end.

Definition key_path (t : text) (line_start : nat) (line : text) : option text :=
  let trimmed := trim line in
  match table_header trimmed with
  | Some header => Some header
  | None =>
      match Lint.split_once equals_char trimmed with
      | None => None
      | Some (key, _) =>
          let key := trim key in
          if is_empty key then None
          else
            Some (match last_header (lines (take line_start t)) with
                  | Some table => table ++ chars "." ++ key
                  | None => key
                  end)
      end
  end.

(** The index after the last newline ([rfind]), and the text up to the first
    newline ([find]). *)
Definition line_start_of (before : text) : nat :=
  match find [newline_char] (rev before) with Some i => (length before - i)%nat | None => 0%nat end.

Definition shape_error (t : text) (e : text) (span_start : option nat) : ConfigError :=
  match span_start with
  | None => error [chars "invalid llg.toml: "; e]
  | Some start =>
      let offset := (start `min` length t)%nat in
      let line_start := line_start_of (take offset t) in
      let line_number := Z.of_nat (count_occ Z.eq_dec (take line_start t) newline_char) + 1 in
      let line_end := match find [newline_char] (drop offset t) with Some i => (offset + i)%nat | None => length t end in
      let line := drop line_start (take line_end t) in
      let location :=
        match key_path t line_start line with
        | Some key => format [chars "line "; decimal line_number; chars ", key "; tick key]
        | None => format [chars "line "; decimal line_number]
        end in
      error [chars "invalid llg.toml at "; location; chars ": "; e]
  end.

Record ConfigLoad : Type := mkLoad {
  load_path : Path;
  missing : bool;
  config : option LlgConfig;
  load_errors : list ConfigError;
  load_warnings : list ConfigError
}.

(** Reading a file: it is missing, or another error stops the load. *)
Inductive ReadError : Type := NotFound | OtherError | TooLarge | NotUtf8 | InvalidPath.

Definition MAX_CONFIG_BYTES : nat := Z.to_nat (1024 * 1024).

(** [read_config_text]: one byte more than the maximum is read at most. *)
Definition read_config_text (decode : bytes -> option text) (content : ReadError + bytes) : ReadError + text :=
  match content with
  | inl e => inl e
  | inr content =>
      let read := take (S MAX_CONFIG_BYTES) content in
      if Nat.ltb MAX_CONFIG_BYTES (length read) then inl TooLarge
      else match decode read with Some t => inr t | None => inl NotUtf8 end
  end.

Section Load.
Context {Float : Type} `{FloatText Float} (toml : text -> TomlRead Float) (exists_on_disk : Path -> bool).
Context (decode : bytes -> option text).

Definition parse_config_detailed (base_dir : Path) (t : text) : result ParsedConfig :=
  match normalize_absolute_path base_dir with
  | None => reject [chars "config base directory must be absolute"]
  | Some base_dir =>
      match toml t with
      | Malformed e => reject [chars "malformed TOML: "; e]
      | NotATable => reject [chars "llg.toml must be a TOML table"]
      | BadShape e span => Fail (shape_error t e span)
      | Read raw => resolve base_dir raw
      end
  end.

Definition missing_directory_warnings (config : LlgConfig) : list ConfigError :=
  map (fun dir => error [chars "configured source directory does not exist: "; display_path dir])
    (List.filter (fun dir => negb (exists_on_disk dir)) (directories (sources config)))
  ++ map (fun dir => error [chars "configured include directory does not exist: "; display_path dir])
       (List.filter (fun dir => negb (exists_on_disk dir)) (include_search (compile config))).

(** [Path::parent]. *)
Definition parent_of (path : Path) : Path :=
  match last path with Some (Normal _ | CurDir | ParentDir) => removelast path | _ => [RootDir] end.

Definition load_config_file (path : Path) (file_at : Path -> ReadError + bytes) : outcome ReadError ConfigLoad :=
  match normalize_absolute_path path with
  | None => Fail InvalidPath
  | Some path =>
      match read_config_text decode (file_at path) with
      | inr t =>
          match parse_config_detailed (parent_of path) t with
          | Done (cfg, warnings) => Done (mkLoad path false (Some cfg) [] (warnings ++ missing_directory_warnings cfg))
          | Fail e => Done (mkLoad path false None [e] [])
          | Panic why => Panic why
          | NoFuel => NoFuel
          end
      | inl NotFound => Done (mkLoad path true None [] [])
      | inl e => Fail e
      end
  end.
End Load.
