(* ===== verification/ConfigFacts.v ===== *)
(** * Resolved configurations are checked and lose nothing

    Resolution returns configurations whose paths are absolute and normal,
    whose globs, names and numbers are in range; printing such a configuration
    as a file and resolving it again returns it. Discovery with a resolved
    configuration. *)

From Stdlib Require Import ZArith Lia Ascii String.
From stdpp Require Import base list gmap strings sorting.
From S2P Require Import Prelude Text GlobFacts Discover DiscoverFacts Lint Config.
Open Scope Z_scope.
Open Scope list_scope.

Lemma and_then_done {A B} (m : result A) (k : A -> result B) b :
  and_then m k = Done b -> exists a, m = Done a /\ k a = Done b.
Proof. destruct m; cbn; naive_solver. Qed.

(** Take the steps of a computation that returned. *)
Ltac steps H :=
  repeat match type of H with
  | and_then _ _ = Done _ =>
      let a := fresh "a" in let E := fresh "E" in
      apply and_then_done in H as (a & E & H); cbv beta in H
  end.

Lemma map_transpose_done {A B} (f : A -> result B) value b :
  map_transpose f value = Done b ->
  match value, b with None, None => True | Some a, Some b => f a = Done b | _, _ => False end.
Proof. destruct value; cbn; [intros H; steps H; naive_solver | naive_solver]. Qed.

(** ** Paths *)

Definition name_ok (n : text) : Prop := n <> [] /\ n <> [dot] /\ n <> [dot; dot] /\ slash ∉ n.

(** An absolute normal path of a Unix system, of names with a property. *)
Definition rooted_by (Q : text -> Prop) (p : Path) : Prop := exists names, p = RootDir :: names_path names /\ Forall Q names.

Notation rooted := (rooted_by name_ok).

(** A component that is read from a text after its root. *)
Definition component_ok (Q : text -> Prop) (c : Component) : Prop :=
  match c with Normal n => Q n | ParentDir => True | _ => False end.

Section Names.
Context (Q : text -> Prop).

Lemma rooted_step p c : rooted_by Q p -> component_ok Q c -> rooted_by Q (absolute_step p c).
Proof.
  intros (names & -> & Hn) Hc. destruct c as [| | | | n]; try done; cbn [absolute_step].
  - unfold pop. destruct names as [| m names _] using rev_ind; [exists []; by split |].
    unfold names_path. rewrite map_app. change (map Normal [m]) with [Normal m].
    change (RootDir :: map Normal names ++ [Normal m]) with ((RootDir :: map Normal names) ++ [Normal m]).
    rewrite last_snoc, removelast_last. apply Forall_app in Hn as [Hn _]. by exists names.
  - exists (names ++ [n]). split; [unfold names_path; by rewrite map_app | apply Forall_app_2; [done | by constructor]].
Qed.

Lemma rooted_fold ps p : rooted_by Q p -> Forall (component_ok Q) ps -> rooted_by Q (fold_left absolute_step ps p).
Proof. intros Hp H. revert p Hp. induction H as [| c ps Hc H IH]; intros p Hp; [done |]. by apply IH, rooted_step. Qed.

Lemma rooted_anchored p : rooted_by Q p -> anchored p.
Proof. intros (names & -> & _). apply (anchored_names [RootDir]). by split. Qed.

Lemma rooted_normalized ps p : Forall (component_ok Q) ps -> rooted_by Q p ->
  exists q, normalize_absolute_path (p ++ ps) = Some q /\ rooted_by Q q.
Proof.
  intros Hps Hp. pose proof (rooted_anchored p Hp) as Ha. pose proof (anchored_normal p Ha) as Hn.
  unfold normalize_absolute_path in *. destruct Ha as [Ha _]. rewrite Ha in Hn. injection Hn as Hn.
  assert (is_absolute (p ++ ps) = true) as -> by (destruct Hp as (names & -> & _); done).
  eexists. split; [done |]. rewrite fold_left_app, Hn. by apply rooted_fold.
Qed.

Lemma filter_components lead ps : lead = [] \/ lead = [CurDir] -> Forall (component_ok Q) ps ->
  List.filter (fun c => negb (bool_decide (c = CurDir))) (lead ++ ps) = ps.
Proof.
  intros Hl H. assert (E : List.filter (fun c => negb (bool_decide (c = CurDir))) ps = ps).
  { induction H as [| c ps Hc H IH]; [done |]. cbn [List.filter]. destruct c; try done; cbn; by rewrite IH. }
  by destruct Hl as [-> | ->].
Qed.

Lemma path_parts_ok parts : Forall (fun p => p <> [] -> p <> [dot] -> p <> [dot; dot] -> Q p) parts ->
  Forall (component_ok Q) (path_parts parts).
Proof.
  induction 1 as [| p parts Hp H IH]; [constructor |]. cbn [path_parts].
  destruct p as [| c p]; [done |]. cbn [is_empty orb]. unfold is_dot. case_bool_decide; [done |].
  constructor; [| done]. case_bool_decide; [done |]. by apply Hp.
Qed.

(** The components of a text whose parts have the property. *)
Lemma path_of_ok t : Forall (fun p => p <> [] -> p <> [dot] -> p <> [dot; dot] -> Q p) (split_char slash t) ->
  exists lead ps, path_of t = lead ++ ps /\ Forall (component_ok Q) ps /\ (lead = [] \/ lead = [RootDir] \/ lead = [CurDir]).
Proof.
  unfold path_of. intros Hs. destruct (split_char slash t) as [| p rest]; [exists [], []; naive_solver |].
  pose proof Hs as [_ Hr]%Forall_cons. destruct (_ && _); [| destruct (is_dot p)].
  - exists [RootDir], (path_parts rest). split_and!; [done | by apply path_parts_ok | auto].
  - exists [CurDir], (path_parts rest). split_and!; [done | by apply path_parts_ok | auto].
  - exists [], (path_parts (p :: rest)). split_and!; [done | by apply path_parts_ok | auto].
Qed.

(** A path is refused only when it is empty. *)
Lemma resolve_path_by base entry field : rooted_by Q base ->
  Forall (fun p => p <> [] -> p <> [dot] -> p <> [dot; dot] -> Q p) (split_char slash entry) ->
  if is_empty entry then resolve_path base entry field = reject [field; chars ": path must not be empty"]
  else exists p, resolve_path base entry field = Done p /\ rooted_by Q p.
Proof.
  intros Hb He. unfold resolve_path. destruct (is_empty entry); [done |].
  destruct (path_of_ok entry He) as (lead & ps & -> & Hps & Hl).
  assert (Hroot : rooted_by Q [RootDir]) by by exists [].
  destruct Hl as [-> | [-> | ->]].
  - assert (is_absolute ([] ++ ps) = false) as -> by (destruct Hps as [| [] ? ?]; done).
    unfold join_path. rewrite filter_components by auto. destruct (rooted_normalized ps base Hps Hb) as (q & -> & Hq). eauto.
  - change (is_absolute ([RootDir] ++ ps)) with true. cbn iota.
    destruct (rooted_normalized ps _ Hps Hroot) as (q & -> & Hq). eauto.
  - change (is_absolute ([CurDir] ++ ps)) with false. cbn iota. unfold join_path. rewrite filter_components by auto.
    destruct (rooted_normalized ps base Hps Hb) as (q & -> & Hq). eauto.
Qed.
End Names.

Lemma entry_names entry : Forall (fun p => p <> [] -> p <> [dot] -> p <> [dot; dot] -> name_ok p) (split_char slash entry).
Proof. eapply Forall_impl; [apply split_char_parts |]. by intros p [Hp _]. Qed.

Lemma resolve_path_total base entry field : rooted base ->
  if is_empty entry then resolve_path base entry field = reject [field; chars ": path must not be empty"]
  else exists p, resolve_path base entry field = Done p /\ rooted p.
Proof. intros Hb. by apply resolve_path_by, entry_names. Qed.

Lemma resolve_path_rooted base entry field p : rooted base -> resolve_path base entry field = Done p -> rooted p.
Proof.
  intros Hb H. pose proof (resolve_path_total base entry field Hb) as Ht. destruct (is_empty entry); [by rewrite Ht in H |].
  destruct Ht as (q & E & Hq). congruence.
Qed.

(** *** Printed paths *)

Lemma names_parts names : Forall name_ok names -> path_parts (split_char slash (join_slash names)) = names_path names.
Proof.
  intros H. destruct names as [| n names]; [done |].
  rewrite join_slash_split; [| done | eapply Forall_impl; [exact H |]; by intros m (_ & _ & _ & ?)].
  clear - H. induction H as [| m l (He & Hd & Hdd & _) H IH]; [done |]. cbn [path_parts names_path map].
  destruct m as [| c m]; [done |]. cbn [is_empty orb]. unfold is_dot.
  by rewrite !bool_decide_eq_false_2, IH by done.
Qed.

Lemma component_text_names names : map component_text (names_path names) = names.
Proof. induction names as [| n names IH]; [done |]. cbn. by f_equal. Qed.

Lemma path_of_display p : rooted p -> path_of (display_path p) = p.
Proof.
  intros (names & -> & H). cbn [display_path]. rewrite component_text_names. unfold path_of.
  change (split_char slash (slash :: join_slash names)) with ([] :: split_char slash (join_slash names)).
  cbn [is_empty andb negb]. by rewrite names_parts.
Qed.

Lemma resolve_display base field p : rooted p -> resolve_path base (display_path p) field = Done p.
Proof.
  intros Hp. unfold resolve_path. rewrite path_of_display by done.
  pose proof (rooted_anchored _ p Hp) as Ha. pose proof Ha as [-> _]. rewrite anchored_normal by done.
  by destruct Hp as (names & -> & _).
Qed.

(** *** Lists of paths *)

Definition paths_ok (l : list Path) : Prop := NoDup l /\ Forall rooted l.

Lemma resolve_each_ok base field entries seen resolved l :
  rooted base -> (forall p, p ∈ seen <-> p ∈ resolved) -> paths_ok resolved ->
  resolve_each base field entries seen resolved = Done l -> paths_ok l.
Proof.
  intros Hb. revert seen resolved. induction entries as [| e entries IH]; intros seen resolved Hs Hok H; cbn in H.
  - by injection H as <-.
  - steps H. apply resolve_path_rooted in E; [| done]. case_bool_decide as Hin; [by eapply IH |].
    eapply IH; [| | exact H]; [set_solver |]. destruct Hok as [Hn Hr]. split; [| by apply Forall_app_2; [| constructor]].
    apply NoDup_app. split_and!; [done | set_solver | apply NoDup_singleton].
Qed.

Lemma resolve_paths_ok base entries field l : rooted base -> resolve_paths base entries field = Done l -> paths_ok l.
Proof.
  intros Hb. apply resolve_each_ok; [done | set_solver |]. split; constructor.
Qed.

Lemma resolve_each_display base field l seen resolved :
  (forall p, p ∈ seen <-> p ∈ resolved) -> NoDup (resolved ++ l) -> Forall rooted l ->
  resolve_each base field (map display_path l) seen resolved = Done (resolved ++ l).
Proof.
  revert seen resolved. induction l as [| p l IH]; intros seen resolved Hs Hn Hr; [by rewrite app_nil_r |].
  apply Forall_cons in Hr as [Hp Hr]. cbn [map resolve_each]. rewrite resolve_display by done. cbn [and_then].
  rewrite bool_decide_eq_false_2.
  - rewrite IH; [by rewrite <- app_assoc | set_solver | by rewrite <- app_assoc | done].
  - rewrite Hs. apply NoDup_app in Hn as (_ & Hd & _). intros Hin. apply (Hd p Hin). left.
Qed.

Lemma resolve_paths_display base field l : paths_ok l -> resolve_paths base (map display_path l) field = Done l.
Proof. intros [Hn Hr]. apply (resolve_each_display base field l ∅ []); [set_solver | done | done]. Qed.

(** ** Globs *)

Definition pattern_ok (p : text) : Prop := p <> [] /\ normalize_relative_pattern p = Some p.

Definition patterns_ok (l : list text) : Prop := NoDup l /\ Forall pattern_ok l.

Lemma normalize_pattern_idem pattern p : normalize_relative_pattern pattern = Some p -> normalize_relative_pattern p = Some p.
Proof.
  intros H. destruct (normalize_pattern_good _ _ H) as (cs & Hg & ->).
  pose proof (normalized_components_join cs Hg) as Hc. unfold normalized_pattern_components in Hc.
  destruct (normalize_relative_pattern (join_slash cs)) as [q |] eqn:E; [| done]. f_equal.
  destruct (normalize_pattern_good _ _ E) as (ds & Hd & ->).
  pose proof (normalized_components_join ds Hd) as Hc'. f_equal.
  destruct (join_slash ds) as [| c t] eqn:Ej.
  - injection Hc as <-. by apply join_slash_empty.
  - assert (Hcs : split_char slash (join_slash ds) = cs) by (rewrite Ej; congruence). rewrite <- Hcs.
    destruct ds as [| d ds']; [done |].
    symmetry. apply join_slash_split; [done |]. eapply Forall_impl; [exact Hd |]. by intros m (_ & _ & _ & Hm & _).
Qed.

Lemma normalize_each_ok field patterns seen normalized l :
  (forall p, p ∈ seen <-> p ∈ normalized) -> patterns_ok normalized ->
  normalize_each field patterns seen normalized = Done l -> patterns_ok l /\ (normalized <> [] \/ patterns <> [] -> l <> []).
Proof.
  revert seen normalized. induction patterns as [| pat patterns IH]; intros seen normalized Hs Hok H; cbn in H.
  - injection H as <-. split; [done | naive_solver].
  - destruct (normalize_relative_pattern pat) as [p |] eqn:E; [| done]. destruct p as [| c p]; [done |]. cbn [is_empty] in H.
    case_bool_decide as Hin.
    + destruct (IH _ _ Hs Hok H) as [? Hne]. split; [done |]. intros _. apply Hne. left. intros ->. set_solver.
    + eapply IH in H as [? Hne]; [| set_solver |].
      * split; [done |]. intros _. apply Hne. left. by destruct normalized.
      * destruct Hok as [Hn Hr]. split.
        -- apply NoDup_app. split_and!; [done | set_solver | apply NoDup_singleton].
        -- apply Forall_app_2; [done |]. constructor; [| constructor]. split; [done | by eapply normalize_pattern_idem].
Qed.

Lemma normalize_patterns_ok field patterns l :
  normalize_patterns field patterns = Done l -> patterns_ok l /\ (patterns <> [] -> l <> []).
Proof.
  intros H. unfold normalize_patterns in H. eapply normalize_each_ok in H as [? Hne]; [split; [done | auto] | set_solver |].
  split; constructor.
Qed.

Lemma normalize_each_same field l seen normalized :
  (forall p, p ∈ seen <-> p ∈ normalized) -> NoDup (normalized ++ l) -> Forall pattern_ok l ->
  normalize_each field l seen normalized = Done (normalized ++ l).
Proof.
  revert seen normalized. induction l as [| p l IH]; intros seen normalized Hs Hn Hr; [by rewrite app_nil_r |].
  apply Forall_cons in Hr as [[Hne Hp] Hr]. cbn [normalize_each]. rewrite Hp.
  destruct p as [| c p]; [done |]. cbn [is_empty]. rewrite bool_decide_eq_false_2.
  - rewrite IH; [by rewrite <- app_assoc | set_solver | by rewrite <- app_assoc | done].
  - rewrite Hs. apply NoDup_app in Hn as (_ & Hd & _). intros Hin. apply (Hd _ Hin). left.
Qed.

Lemma normalize_patterns_same field l : patterns_ok l -> normalize_patterns field l = Done l.
Proof. intros [Hn Hr]. apply (normalize_each_same field l ∅ []); [set_solver | done | done]. Qed.

Lemma add_pattern_in l p : p ∈ add_pattern l p.
Proof.
  unfold add_pattern. destruct (existsb _ l) eqn:E; [| set_solver].
  apply existsb_exists in E as (q & Hq & E). apply bool_decide_eq_true in E as ->. by apply list_elem_of_In.
Qed.

Lemma add_pattern_same l p : p ∈ l -> add_pattern l p = l.
Proof.
  intros H. unfold add_pattern. replace (existsb _ l) with true; [done |]. symmetry. apply existsb_exists. exists p.
  split; [by apply list_elem_of_In | by apply bool_decide_eq_true].
Qed.

Lemma add_pattern_keeps l p q : q ∈ l -> q ∈ add_pattern l p.
Proof. unfold add_pattern. destruct (existsb _ l); set_solver. Qed.

Lemma add_pattern_ok l p : patterns_ok l -> pattern_ok p -> patterns_ok (add_pattern l p).
Proof.
  intros [Hn Hr] Hp. unfold add_pattern. destruct (existsb _ l) eqn:E; [by split |].
  split; [| apply Forall_app_2; [done | by constructor]]. apply NoDup_app. split_and!; [done | | apply NoDup_singleton].
  intros q Hq ->%list_elem_of_singleton. apply not_true_iff_false in E. apply E, existsb_exists. exists p.
  split; [by apply list_elem_of_In | by apply bool_decide_eq_true].
Qed.

(** ** Definitions and parameters *)

Definition define_ok (d : text) : Prop :=
  define_name d <> [] /\ forallb word_char (define_name d) = true /\ define_value_bad d = false.

Definition defines_ok (l : list text) : Prop := NoDup (map define_name l) /\ Forall define_ok l.

(** The definition is kept by itself. *)
Definition define_valid (d : text) : bool :=
  negb (is_empty d) && (negb (is_empty (define_name d)) && forallb word_char (define_name d)) && negb (define_value_bad d).

Lemma define_valid_ok d : define_valid d = true <-> define_ok d.
Proof.
  unfold define_valid, define_ok. rewrite !andb_true_iff, !negb_true_iff.
  assert (Hd : forall t, is_empty t = false <-> t <> []) by (intros []; naive_solver). rewrite !Hd. split; [naive_solver |].
  intros (H1 & H2 & H3). split_and!; try done. intros ->. done.
Qed.

(** One step of the loop, by what the definition is. *)
Lemma validate_each_cons d ds seen validated warnings :
  exists w, validate_each (d :: ds) seen validated warnings =
    if define_valid d && negb (bool_decide (define_name d ∈ seen))
    then validate_each ds ({[define_name d]} ∪ seen) (validated ++ [d]) warnings
    else validate_each ds seen validated (warnings ++ [w]).
Proof.
  unfold define_valid. cbn [validate_each]. destruct (is_empty d); [by eexists |]. cbn [negb andb].
  destruct (negb (is_empty (define_name d)) && forallb word_char (define_name d)); [| by eexists]. cbn [negb andb].
  destruct (define_value_bad d); [by eexists |]. cbn [negb andb]. case_bool_decide; [by eexists | by exists (error [])].
Qed.

(** The first valid definition of each name, in their order. *)
Fixpoint first_defines (ds : list text) (seen : gset text) : list text :=
  match ds with
  | [] => []
  | d :: ds =>
      if define_valid d && negb (bool_decide (define_name d ∈ seen)) then d :: first_defines ds ({[define_name d]} ∪ seen)
      else first_defines ds seen
  end.

Lemma validate_each_first ds seen validated warnings :
  exists ws, validate_each ds seen validated warnings = (validated ++ first_defines ds seen, warnings ++ ws)
             /\ (length (first_defines ds seen) + length ws = length ds)%nat.
Proof.
  revert seen validated warnings. induction ds as [| d ds IH]; intros seen validated warnings.
  - exists []. cbn. by rewrite !app_nil_r.
  - destruct (validate_each_cons d ds seen validated warnings) as (w & E). rewrite E. cbn [first_defines].
    destruct (_ && _).
    + destruct (IH ({[define_name d]} ∪ seen) (validated ++ [d]) warnings) as (ws & -> & Hl). exists ws.
      rewrite <- app_assoc. cbn [app length]. split; [done | lia].
    + destruct (IH seen validated (warnings ++ [w])) as (ws & -> & Hl). exists (w :: ws).
      rewrite <- app_assoc. cbn [app length]. split; [done | lia].
Qed.

Lemma first_defines_ok ds seen :
  defines_ok (first_defines ds seen) /\ Forall (fun d => define_name d ∉ seen) (first_defines ds seen).
Proof.
  revert seen. induction ds as [| d ds IH]; intros seen; [repeat constructor |]. cbn [first_defines].
  destruct (define_valid d && negb _) eqn:E; [| apply IH]. apply andb_prop in E as [Hv Hn%negb_true_iff%bool_decide_eq_false].
  destruct (IH ({[define_name d]} ∪ seen)) as [[Hnd Hok] Hs]. split; [split |].
  - cbn [map]. constructor; [| done]. intros (d' & E & Hd')%list_elem_of_In%in_map_iff.
    rewrite List.Forall_forall in Hs. specialize (Hs d' Hd'). set_solver.
  - constructor; [by apply define_valid_ok | done].
  - constructor; [done |]. eapply Forall_impl; [exact Hs |]. set_solver.
Qed.

Lemma first_defines_same ds seen :
  defines_ok ds -> Forall (fun d => define_name d ∉ seen) ds -> first_defines ds seen = ds.
Proof.
  intros [Hn Hok]. revert seen Hn. induction Hok as [| d ds Hd Hok IH]; intros seen Hn Hs; [done |]. cbn [first_defines].
  cbn [map] in Hn. apply NoDup_cons in Hn as [Hnew Hn]. apply Forall_cons in Hs as [Hd' Hs].
  rewrite (proj2 (define_valid_ok d) Hd), bool_decide_eq_false_2 by done. cbn [andb negb]. f_equal. apply IH; [done |].
  apply List.Forall_forall. intros d' Hin. rewrite List.Forall_forall in Hs. specialize (Hs d' Hin).
  intros [E%elem_of_singleton | ?]%elem_of_union; [| done].
  apply Hnew. rewrite <- E. apply list_elem_of_In, in_map_iff. eauto.
Qed.

Lemma validate_defines_same ds : defines_ok ds -> validate_defines ds = (ds, []).
Proof.
  intros H. unfold validate_defines. destruct (validate_each_first ds ∅ [] []) as (ws & -> & Hl).
  rewrite first_defines_same in * by (try done; apply List.Forall_forall; set_solver). destruct ws; [done | cbn in Hl; lia].
Qed.

Definition override_ok (name value : text) : Prop :=
  is_identifier name = true /\ value <> [] /\ has_control_char value = false.

Definition overrides_ok (m : gmap text text) : Prop := map_Forall override_ok m.

Section Overrides.
Context {Float : Type} `{FloatText Float}.

Lemma override_each_ok (entries : list (text * Value Float)) m ws m' ws' :
  overrides_ok m -> override_each entries m ws = Done (m', ws') -> overrides_ok m'.
Proof.
  revert m ws. induction entries as [| [name value] entries IH]; intros m ws Hm E; cbn in E; [by injection E as <- _ |].
  destruct (is_identifier name) eqn:Hi; cbn [negb] in E; [| by eapply IH]. steps E.
  destruct (is_empty a) eqn:He; [by eapply IH |]. destruct (has_control_char a) eqn:Hc; [by eapply IH |].
  eapply IH; [| exact E]. apply map_Forall_insert_2; [| done]. split_and!; [done | by intros -> | done].
Qed.

Lemma override_each_strings (l : list (text * text)) m :
  NoDup l.*1 -> Forall (fun e => override_ok e.1 e.2) l -> (forall k, k ∈ l.*1 -> m !! k = None) ->
  override_each (Float := Float) (map (fun e => (e.1, VString e.2)) l) m [] = Done (list_to_map l ∪ m, []).
Proof.
  intros Hn Ho. revert m Hn. induction Ho as [| [k v] l (Hi & He & Hc) Ho IH]; intros m Hn Hm.
  - cbn. by rewrite (left_id_L ∅ (∪)).
  - cbn [map override_each fst snd] in *. rewrite Hi. cbn [negb override_text and_then]. destruct v as [| c v]; [done |].
    cbn [is_empty]. rewrite Hc. cbn [fmap list_fmap fst] in Hn, Hm. apply NoDup_cons in Hn as [Hk Hn]. rewrite IH; [| done |].
    + f_equal. f_equal. cbn [list_to_map foldr fst snd]. rewrite <- insert_union_l.
      rewrite <- insert_union_r; [done |]. by apply not_elem_of_list_to_map_1.
    + intros k' Hk'. rewrite lookup_insert_ne by set_solver. apply Hm. set_solver.
Qed.
End Overrides.

(** ** Well-formed configurations *)

Definition some_ok {A} (P : A -> Prop) (o : option A) : Prop := match o with Some a => P a | None => True end.

Definition sources_ok (base : Path) (s : SourcesConfig) : Prop :=
  paths_ok (directories s) /\ directories s <> []
  /\ (directories_configured s = false -> directories s = [base])
  /\ patterns_ok (include s) /\ include s <> []
  /\ patterns_ok (exclude s) /\ Forall (fun p => p ∈ exclude s) DEFAULT_EXCLUDE_GLOBS
  /\ paths_ok (files s).

Definition top_ok (t : text) : Prop := t <> [] /\ validate_top_name t = inr tt.

Definition compile_ok (c : CompileConfig) : Prop :=
  some_ok top_ok (top c) /\ paths_ok (include_search c) /\ defines_ok (defines c)
  /\ overrides_ok (param_overrides c) /\ Forall (fun t => t <> []) (system_tasks c).

(** An entry of library files, with its path in printed form. *)
Definition library_entry_ok (f : text) : Prop :=
  exists p, rooted p
    /\ (f = display_path p \/ exists l, l <> [] /\ equals_char ∉ l /\ f = l ++ chars "=" ++ display_path p).

Definition order_ok (name : text) : Prop := is_empty name || existsb (fun c => c =? 44) name = false.

Definition libraries_ok (l : LibrariesConfig) : Prop :=
  paths_ok (map_files l) /\ Forall library_entry_ok (library_files l) /\ Forall order_ok (order l)
  /\ some_ok (fun t => t <> []) (default_library l).

Definition analysis_ok (a : AnalysisConfig) : Prop := max_file_bytes a <> 0 /\ max_total_input_bytes a <> 0.

Definition simulator_ok (s : SimulatorConfig) : Prop :=
  some_ok (fun v => v <= 100) (pulse_reject s) /\ some_ok (fun v => v <= 100) (pulse_error s).

Definition waveform_ok (w : WaveformConfig) : Prop :=
  some_ok (fun p => rooted p /\ is_waveform_file p = true) (file w)
  /\ some_ok (fun d => d <= 4294967295) (depth w) /\ (depth w <> None -> file w <> None).

Definition build_ok (b : BuildConfig) : Prop :=
  some_ok (fun t => t <> []) (generator b) /\ some_ok (fun t => t <> []) (launcher b) /\ some_ok (fun t => t <> []) (cc b)
  /\ some_ok (fun t => t <> []) (cmake b) /\ some_ok (fun v => v <> 0) (jobs b) /\ paths_ok (dpi_libs b).

Definition output_ok (o : OutputConfig) : Prop := some_ok rooted (out_dir o) /\ some_ok rooted (runtime_cache o).

Record config_ok (base : Path) (c : LlgConfig) : Prop := mkConfigOk {
  version_ok : schema_version c = SCHEMA_VERSION;
  config_base : base_dir c = base;
  config_sources : sources_ok base (sources c);
  config_compile : compile_ok (compile c);
  config_libraries : libraries_ok (libraries c);
  config_analysis : analysis_ok (analysis c);
  config_lint : map_Forall (fun id _ => known_rule id = true) (lint c);
  config_lint_run : some_ok rooted (json_file (lint_run c));
  config_simulator : simulator_ok (simulator c);
  config_waveform : waveform_ok (waveform c);
  config_build : build_ok (build c);
  config_output : output_ok (output c)
}.

Lemma non_empty_ok field v t : non_empty field v = Done t -> t = v /\ some_ok (fun t => t <> []) t.
Proof. destruct v as [[| c v] |]; cbn; intros H; try done; injection H as <-; done. Qed.

Lemma resolve_each_nonempty base field entries seen resolved l :
  resolve_each base field entries seen resolved = Done l -> (forall p, p ∈ seen <-> p ∈ resolved) ->
  resolved <> [] \/ entries <> [] -> l <> [].
Proof.
  revert seen resolved. induction entries as [| e entries IH]; intros seen resolved H Hs Hne; cbn in H.
  - injection H as <-. naive_solver.
  - steps H. case_bool_decide as Hin.
    + eapply IH; [done | done |]. left. intros ->. set_solver.
    + eapply IH; [done | set_solver |]. left. by destruct resolved.
Qed.

Lemma default_excludes_ok : patterns_ok DEFAULT_EXCLUDE_GLOBS.
Proof. split; [apply (bool_decide_unpack _); vm_compute; done | repeat constructor; done]. Qed.

Lemma default_includes_ok : patterns_ok DEFAULT_INCLUDE_GLOBS.
Proof. split; [apply (bool_decide_unpack _); vm_compute; done | repeat constructor; done]. Qed.

Lemma default_excludes_added l : patterns_ok l ->
  patterns_ok (fold_left add_pattern DEFAULT_EXCLUDE_GLOBS l)
  /\ Forall (fun p => p ∈ fold_left add_pattern DEFAULT_EXCLUDE_GLOBS l) DEFAULT_EXCLUDE_GLOBS.
Proof.
  intros H. destruct default_excludes_ok as [_ Hd]. unfold DEFAULT_EXCLUDE_GLOBS in *. cbn [fold_left].
  apply Forall_cons in Hd as [H1 [H2 _]%Forall_cons]. split; [by repeat apply add_pattern_ok |].
  repeat constructor; [apply add_pattern_keeps, add_pattern_in | apply add_pattern_in].
Qed.

Lemma resolve_sources_ok base raw s : rooted base -> resolve_sources base raw = Done s -> sources_ok base s.
Proof.
  intros Hb H. unfold resolve_sources in H. steps H. injection H as <-.
  assert (Hi : patterns_ok a /\ a <> []).
  { destruct (rs_include raw) as [| q qs]; [injection E as <-; split; [apply default_includes_ok | done] |].
    apply normalize_patterns_ok in E as [? Hne]. split; [done | by apply Hne]. }
  assert (Hx : patterns_ok a0).
  { destruct (rs_exclude raw); [injection E0 as <-; split; constructor | by apply normalize_patterns_ok in E0 as [? _]]. }
  destruct (default_excludes_added a0 Hx) as [Hx1 Hx2]. apply resolve_paths_ok in E2; [| done].
  assert (Hd : paths_ok a1 /\ a1 <> [] /\ (match rs_directories raw with [] => false | _ => true end = false -> a1 = [base])).
  { destruct (rs_directories raw) as [| d ds] eqn:Ed.
    - injection E1 as <-. split_and!; [split; [apply NoDup_singleton | by constructor] | done | done].
    - split_and!; [by eapply resolve_paths_ok | | done]. eapply resolve_each_nonempty; [exact E1 | set_solver | by right]. }
  unfold sources_ok. cbn [directories directories_configured include exclude files]. naive_solver.
Qed.

Lemma in_field_done {A} field (r : text + A) a : in_field field r = Done a -> r = inr a.
Proof. destruct r; cbn; [done | by intros [= ->]]. Qed.

Lemma existsb_empty l : existsb is_empty l = false -> Forall (fun t => t <> []) l.
Proof. induction l as [| [| c t] l IH]; cbn; [constructor | done |]. intros H. constructor; [done | by apply IH]. Qed.

Section Resolved.
Context {Float : Type} `{FloatText Float}.

Lemma resolve_compile_ok base (raw : RawCompile Float) c ws :
  rooted base -> resolve_compile base raw = Done (c, ws) -> compile_ok c.
Proof.
  intros Hb E. unfold resolve_compile in E. steps E. destruct (validate_defines (rc_defines raw)) as [ds w1] eqn:Ed.
  steps E. destruct a5 as [m w2]. destruct (existsb is_empty (rc_system_tasks raw)) eqn:Es; [done |]. injection E as <- _.
  apply resolve_paths_ok in E0; [| done]. apply non_empty_ok in E1 as [-> Ht].
  unfold validate_defines in Ed. destruct (validate_each_first (rc_defines raw) ∅ [] []) as (ws' & Ev & _).
  rewrite Ev in Ed. injection Ed as <- <-. split_and!; cbn [top include_search defines param_overrides system_tasks].
  - destruct (rc_top raw) as [t |]; [| done]. split; [done |]. apply in_field_done in E2. by destruct a1.
  - done.
  - apply first_defines_ok.
  - eapply override_each_ok; [| exact E6]. apply map_Forall_empty.
  - by apply existsb_empty.
Qed.

Lemma split_once_first c t a b : Lint.split_once c t = Some (a, b) -> t = a ++ c :: b /\ c ∉ a.
Proof.
  revert a b. induction t as [| d t IH]; intros a b E; cbn in E; [done |]. destruct (Z.eqb_spec d c) as [-> | Hd].
  - injection E as <- <-. split; [done | set_solver].
  - destruct (Lint.split_once c t) as [[a' b'] |] eqn:Et; [| done]. cbn in E. injection E as <- <-.
    destruct (IH a' b' eq_refl) as [-> Hn]. split; [done | set_solver].
Qed.

Lemma split_once_app c a b : c ∉ a -> Lint.split_once c (a ++ c :: b) = Some (a, b).
Proof.
  induction a as [| d a IH]; intros Hn; cbn; [by rewrite Z.eqb_refl |].
  rewrite (proj2 (Z.eqb_neq d c)) by set_solver. rewrite IH by set_solver. done.
Qed.

Lemma split_once_none c t : c ∉ t -> Lint.split_once c t = None.
Proof.
  induction t as [| d t IH]; intros Hn; cbn; [done |]. rewrite (proj2 (Z.eqb_neq d c)) by set_solver.
  by rewrite IH by set_solver.
Qed.

Lemma library_file_ok base entry f : rooted base -> library_file base entry = Done f -> library_entry_ok f.
Proof.
  intros Hb E. unfold library_file in E. destruct (Lint.split_once equals_char entry) as [[l p] |] eqn:Es.
  - apply split_once_first in Es as [-> Hn]. destruct (is_empty l || is_empty p) eqn:Ee; [done |]. steps E. injection E as <-.
    apply resolve_path_rooted in E0; [| done]. exists a. split; [done |]. right. exists l.
    split_and!; [by intros -> | done | done].
  - destruct (false || is_empty entry); [done |]. steps E. injection E as <-. apply resolve_path_rooted in E0; [| done].
    exists a. auto.
Qed.

Lemma library_each_ok base entries fs l : rooted base -> Forall library_entry_ok fs ->
  library_each base entries fs = Done l -> Forall library_entry_ok l.
Proof.
  intros Hb. revert fs. induction entries as [| e entries IH]; intros fs Hf E; cbn in E; [by injection E as <- |].
  steps E. eapply IH; [| exact E]. apply Forall_app_2; [done |]. constructor; [by eapply library_file_ok | constructor].
Qed.

Lemma check_order_ok names : check_order names = Done tt <-> Forall order_ok names.
Proof.
  induction names as [| n names IH]; [done |]. rewrite Forall_cons. unfold order_ok at 1. cbn [check_order].
  destruct (_ || _); naive_solver.
Qed.

Lemma resolve_libraries_ok base raw l : rooted base -> resolve_libraries base raw = Done l -> libraries_ok l.
Proof.
  intros Hb E. unfold resolve_libraries in E. steps E. injection E as <-. apply resolve_paths_ok in E0; [| done].
  apply library_each_ok in E1; [| done | constructor]. destruct a1. apply check_order_ok in E2.
  apply non_empty_ok in E3 as [_ Hd]. by split_and!.
Qed.

Lemma resolve_analysis_ok raw a : resolve_analysis raw = Done a -> analysis_ok a.
Proof.
  unfold resolve_analysis. cbv zeta. destruct (Z.eqb_spec (default DEFAULT_MAX_FILE_BYTES (ra_max_file_bytes raw)) 0); [done |].
  destruct (Z.eqb_spec (default DEFAULT_MAX_TOTAL_INPUT_BYTES (ra_max_total_input_bytes raw)) 0); [done |].
  by intros [= <-].
Qed.

Lemma resolve_option base (P : Path -> Prop) v field o :
  (forall p, rooted p -> P p) -> rooted base ->
  map_transpose (fun e => resolve_path base e field) v = Done o -> some_ok P o.
Proof.
  intros HP Hb E. apply map_transpose_done in E. destruct v, o; try done. apply HP. by eapply resolve_path_rooted.
Qed.

Lemma percent_ok key v o : percent key v = Done o -> o = v /\ some_ok (fun v => v <= 100) o.
Proof.
  intros E. apply map_transpose_done in E. destruct v, o; try done. destruct (Z.leb_spec z 100); [| done].
  by injection E as ->.
Qed.

Lemma resolve_simulator_ok raw s : resolve_simulator raw = Done s -> simulator_ok s.
Proof.
  intros E. unfold resolve_simulator in E. steps E. injection E as <-.
  apply percent_ok in E1 as [_ ?], E2 as [_ ?]. by split.
Qed.

Lemma resolve_waveform_ok base raw w : rooted base -> resolve_waveform base raw = Done w -> waveform_ok w.
Proof.
  intros Hb E. unfold resolve_waveform in E. steps E.
  pose proof (resolve_option base rooted _ _ _ ltac:(done) Hb E0) as Hr.
  assert (Hd : some_ok (fun d => d <= 4294967295) a1).
  { apply map_transpose_done in E2. destruct (rw_depth raw), a1; try done. destruct (Z.leb_spec z 4294967295); [| done].
    by injection E2 as ->. }
  assert (Hf : some_ok (fun p => rooted p /\ is_waveform_file p = true) a).
  { destruct a as [f |]; [| done]. destruct (is_waveform_file f) eqn:Ef; [| done]. by split. }
  destruct a1, a; try done; injection E as <-; by split_and!.
Qed.

Lemma resolve_build_ok base raw b : rooted base -> resolve_build base raw = Done b -> build_ok b.
Proof.
  intros Hb E. unfold resolve_build in E. steps E. injection E as <-.
  apply non_empty_ok in E2 as [_ ?], E3 as [_ ?], E4 as [_ ?], E5 as [_ ?]. apply resolve_paths_ok in E6; [| done].
  assert (Hj : some_ok (fun v => v <> 0) a0).
  { unfold resolve_jobs in E1. destruct (rb_jobs raw) as [v |]; [| by injection E1 as <-].
    destruct (Z.eqb_spec v 0); [done | by injection E1 as <-]. }
  by split_and!.
Qed.

Lemma resolve_output_ok base raw o : rooted base -> resolve_output base raw = Done o -> output_ok o.
Proof.
  intros Hb E. unfold resolve_output in E. steps E. injection E as <-.
  split; by eapply resolve_option; [| | eassumption].
Qed.

Lemma check_rule_ids_ok ids : check_rule_ids ids = Done tt <-> Forall (fun id => known_rule id = true) ids.
Proof.
  induction ids as [| id ids IH]; [done |]. rewrite Forall_cons, <- IH. cbn [check_rule_ids].
  destruct (known_rule id); [by split; [| intros [_ ?]] | by split; [| intros [? _]]].
Qed.

Notation known := (map_Forall (fun id (_ : RuleConfig) => known_rule id = true)).

Lemma disable_all_known : known (disable_all ∅).
Proof.
  unfold disable_all. assert (Hk : Forall (fun id => known_rule id = true) rule_ids).
  { apply List.Forall_forall. intros id Hid. apply existsb_exists. exists id. split; [done | by apply bool_decide_eq_true]. }
  revert Hk. generalize rule_ids. intros ids Hk.
  enough (Hg : forall m : LintConfig, known m ->
            known (fold_left (fun m id => set_rule id (mkRule false (severity_of m id)) m) ids m))
    by apply Hg, map_Forall_empty.
  induction Hk as [| id ids Hid Hk IH]; intros m Hm; [done |]. cbn [fold_left]. apply IH, map_Forall_insert_2; done.
Qed.

Lemma translate_rules_known rules m m' : known m -> Forall (fun id => known_rule id = true) (map fst rules) ->
  translate_rules rules m = Done m' -> known m'.
Proof.
  revert m. induction rules as [| [id r] rules IH]; intros m Hm Hk E; cbn in E; [by injection E as <- |].
  cbn [map fst] in Hk. apply Forall_cons in Hk as [Hid Hk]. steps E. unfold translate_rule in E0. steps E0. injection E0 as <-.
  eapply IH; [| done | exact E]. apply map_Forall_insert_2; done.
Qed.

Lemma translate_lint_known raw m : translate_lint raw = Done m -> known m.
Proof.
  intros E. unfold translate_lint in E. steps E. destruct a. apply check_rule_ids_ok in E0. cbv zeta in E.
  eapply translate_rules_known; [| done | exact E]. case_bool_decide; [apply disable_all_known | apply map_Forall_empty].
Qed.

Lemma resolve_wf base (raw : RawConfig Float) c ws :
  rooted base -> resolve base raw = Done (c, ws) -> config_ok base c.
Proof.
  intros Hb E. unfold resolve in E. destruct (Z.eqb_spec (raw_schema_version raw) SCHEMA_VERSION) as [Ev |]; [| done].
  cbn [negb] in E. steps E. destruct a0 as [comp w]. steps E. injection E as <- _.
  split; cbn; [done | done | by eapply resolve_sources_ok | by eapply resolve_compile_ok | by eapply resolve_libraries_ok
    | by eapply resolve_analysis_ok | by eapply translate_lint_known | | by eapply resolve_simulator_ok
    | by eapply resolve_waveform_ok | by eapply resolve_build_ok | by eapply resolve_output_ok].
  unfold resolve_lint_run in E5. steps E5. injection E5 as <-. by eapply resolve_option; [| | eassumption].
Qed.
End Resolved.

(** ** Printing a configuration *)

Definition pulse_style_name (p : PulseStyle) : text :=
  match p with OnEvent => chars "onevent" | OnDetect => chars "ondetect" end.
Definition opt_level_name (l : ModelOptLevel) : text :=
  match l with O0 => chars "O0" | O1 => chars "O1" | O2 => chars "O2" | O3 => chars "O3" | Os => chars "Os" end.

(** The entries of a map in the order of the keys. *)
Definition key_le {A} (a b : text * A) : Prop := text_leb a.1 b.1 = true.
#[export] Instance key_le_dec {A} : RelDecision (@key_le A) := fun a b => decide (text_leb a.1 b.1 = true).

Definition entries_of {A} (m : gmap text A) : list (text * A) := merge_sort key_le (map_to_list m).

Lemma entries_perm_of {A} (m : gmap text A) : entries_of m ≡ₚ map_to_list m.
Proof. apply merge_sort_Permutation. Qed.

Lemma entries_keys {A} (m : gmap text A) : NoDup (entries_of m).*1.
Proof. rewrite entries_perm_of. apply NoDup_fst_map_to_list. Qed.

Lemma entries_map {A} (m : gmap text A) : list_to_map (entries_of m) = m.
Proof.
  rewrite <- (list_to_map_to_list m) at 2. apply list_to_map_proper; [apply entries_keys | apply entries_perm_of].
Qed.

Lemma entries_forall {A} (P : text -> A -> Prop) m : map_Forall P m -> Forall (fun e => P e.1 e.2) (entries_of m).
Proof. intros H. rewrite entries_perm_of. apply map_Forall_to_list in H. eapply Forall_impl; [exact H |]. by intros [k v]. Qed.

Definition rule_entry (e : text * RuleConfig) : text * RawRule :=
  (e.1, mkRawRule (Some (enabled e.2)) (severity_json <$> severity e.2)).

(** The file that a configuration prints as. *)
Definition raw_of {Float} (c : LlgConfig) : RawConfig Float :=
  mkRawConfig (schema_version c)
    (let s := sources c in
     mkRawSources (if directories_configured s then map display_path (directories s) else []) (include s) (exclude s)
       (map display_path (files s)))
    (let p := compile c in
     mkRawCompile (top p) (edition_name <$> edition p) (units_name <$> compilation_units p) (delay_name <$> delay_select p)
       (map display_path (include_search p)) (defines p)
       (map (fun e => (e.1, VString e.2)) (entries_of (param_overrides p))) (system_tasks p))
    (let l := libraries c in mkRawLibraries (map display_path (map_files l)) (library_files l) (order l) (default_library l))
    (mkRawAnalysis (Some (max_file_bytes (analysis c))) (Some (max_total_input_bytes (analysis c))))
    (let l := lint_run c in
     mkRawLint None (map rule_entry (entries_of (lint c))) (only l) (warnings_as_errors l) (json l)
       (display_path <$> json_file l))
    (let s := simulator c in
     mkRawSimulator (env_value <$> stop_policy s) (optimize s) (pulse_reject s) (pulse_error s)
       (pulse_style_name <$> pulse_style s) (show_cancelled s) (timing_checks s) (notifiers s) (timing_check_messages s)
       (neg_timing_checks s) (plusargs s))
    (mkRawWaveform (display_path <$> file (waveform c)) (depth (waveform c)))
    (let b := build c in
     mkRawBuild (gen_only b) (generator b) (launcher b) (cc b) (cflags b) (opt_level_name <$> model_opt_level b) (cmake b)
       (jobs b) (map display_path (dpi_libs b)))
    (mkRawOutput (display_path <$> out_dir (output c)) (display_path <$> runtime_cache (output c))).

Lemma map_transpose_names {A} (f : text -> result A) (name : A -> text) (o : option A) :
  (forall a, f (name a) = Done a) -> map_transpose f (name <$> o) = Done o.
Proof. intros H. destruct o as [a |]; [| done]. cbn. by rewrite H. Qed.

Lemma resolve_option_display base field (o : option Path) :
  some_ok rooted o -> map_transpose (fun e => resolve_path base e field) (display_path <$> o) = Done o.
Proof. destruct o as [p |]; [| done]. cbn. intros Hp. by rewrite resolve_display. Qed.

Lemma non_empty_same field o : some_ok (fun t => t <> []) o -> non_empty field o = Done o.
Proof. by destruct o as [[| c t] |]. Qed.

Lemma percent_same key o : some_ok (fun v => v <= 100) o -> percent key o = Done o.
Proof. destruct o as [v |]; [| done]. cbn. intros Hv. by rewrite (proj2 (Z.leb_le v 100)). Qed.

Lemma resolve_sources_same base s : sources_ok base s ->
  resolve_sources base (mkRawSources (if directories_configured s then map display_path (directories s) else [])
    (include s) (exclude s) (map display_path (files s))) = Done s.
Proof.
  intros (Hd & Hdne & Hdef & Hi & Hine & Hx & Hxd & Hf). unfold resolve_sources. cbn [rs_directories rs_include rs_exclude rs_files].
  assert (match include s with [] => Done DEFAULT_INCLUDE_GLOBS | patterns => normalize_patterns (chars "sources.include") patterns end
          = Done (include s)) as -> by (destruct (include s); [done | by rewrite normalize_patterns_same]).
  cbn [and_then].
  assert (match exclude s with [] => Done [] | patterns => normalize_patterns (chars "sources.exclude") patterns end
          = Done (exclude s)) as -> by (destruct (exclude s); [done | by rewrite normalize_patterns_same]).
  cbn [and_then]. unfold DEFAULT_EXCLUDE_GLOBS in *. cbn [fold_left]. apply Forall_cons in Hxd as [Hx1 [Hx2 _]%Forall_cons].
  rewrite !add_pattern_same by (try done; by rewrite add_pattern_same).
  rewrite (resolve_paths_display _ (chars "sources.files")) by done.
  destruct s as [dirs [] inc exc fs]; cbn [directories directories_configured files include exclude] in *.
  - destruct dirs as [| d dirs]; [done |]. cbn [map]. change (display_path d :: map display_path dirs) with (map display_path (d :: dirs)).
    by rewrite resolve_paths_display.
  - by rewrite Hdef.
Qed.

Section Printed.
Context {Float : Type} `{FloatText Float}.

Lemma resolve_compile_same base c : compile_ok c ->
  resolve_compile (Float := Float) base
    (mkRawCompile (top c) (edition_name <$> edition c) (units_name <$> compilation_units c) (delay_name <$> delay_select c)
       (map display_path (include_search c)) (defines c)
       (map (fun e => (e.1, VString e.2)) (entries_of (param_overrides c))) (system_tasks c)) = Done (c, []).
Proof.
  intros (Ht & Hp & Hd & Ho & Hs). unfold resolve_compile.
  cbn [rc_top rc_edition rc_compilation_units rc_delay_select rc_include_dirs rc_defines rc_system_tasks].
  rewrite resolve_paths_display by done. cbn [and_then].
  rewrite non_empty_same by (destruct (top c); [by destruct Ht | done]). cbn [and_then].
  assert (match top c with Some t => in_field (chars "compile.top") (validate_top_name t) | None => Done tt end = Done tt) as ->
    by (destruct (top c); [by destruct Ht as [_ ->] | done]).
  cbn [and_then]. rewrite !map_transpose_names by (intros []; reflexivity). cbn [and_then].
  rewrite validate_defines_same by done. unfold resolve_param_overrides. cbn [rc_param_overrides].
  rewrite override_each_strings; [| apply entries_keys | by apply entries_forall | by intros; apply lookup_empty].
  cbn [and_then]. rewrite (right_id_L ∅ (∪)), entries_map. assert (existsb is_empty (system_tasks c) = false) as ->
    by (induction Hs as [| [] ? ? ? ?]; cbn; done).
  by destruct c.
Qed.

(** An entry of library files that the driver splits as it was given. *)
Definition library_exact (f : text) : Prop :=
  exists p, rooted p /\ ((f = display_path p /\ equals_char ∉ f)
                         \/ exists l, l <> [] /\ equals_char ∉ l /\ f = l ++ chars "=" ++ display_path p).

Lemma display_nonempty p : rooted p -> exists t, display_path p = slash :: t.
Proof. intros (names & -> & _). cbn [display_path]. eauto. Qed.

Lemma library_file_same base f : library_exact f -> library_file base f = Done f.
Proof.
  intros (p & Hp & Hf). unfold library_file. destruct (display_nonempty p Hp) as (t & Et).
  destruct Hf as [[-> Hn] | (l & Hl & Hn & ->)].
  - rewrite split_once_none by done. rewrite Et. cbn [is_empty orb]. rewrite <- Et, resolve_display by done. done.
  - change (chars "=" ++ display_path p) with (equals_char :: display_path p). rewrite split_once_app by done.
    destruct l as [| c l]; [done |]. rewrite Et. cbn [is_empty orb]. rewrite <- Et, resolve_display by done. done.
Qed.

Lemma library_each_same base l fs : Forall library_exact l -> library_each base l fs = Done (fs ++ l).
Proof.
  intros H'. revert fs. induction H' as [| f l Hf H' IH]; intros fs; [by rewrite app_nil_r |]. cbn [library_each].
  rewrite library_file_same by done. cbn [and_then]. by rewrite IH, <- app_assoc.
Qed.

Lemma resolve_libraries_same base l : libraries_ok l -> Forall library_exact (library_files l) ->
  resolve_libraries base (mkRawLibraries (map display_path (map_files l)) (library_files l) (order l) (default_library l)) = Done l.
Proof.
  intros (Hm & _ & Ho & Hd) Hf. unfold resolve_libraries. cbn [rl_map_files rl_files rl_order rl_default].
  rewrite resolve_paths_display, library_each_same by done. cbn [and_then app]. rewrite (proj2 (check_order_ok _)) by done.
  cbn [and_then]. rewrite non_empty_same by done. by destruct l.
Qed.

Lemma severity_same sev : config_severity (severity_json sev) = Done sev.
Proof. by destruct sev. Qed.

Lemma translate_rules_same (l : list (text * RuleConfig)) (m : LintConfig) : NoDup l.*1 -> (forall k, k ∈ l.*1 -> m !! k = None) ->
  translate_rules (map rule_entry l) m = Done (list_to_map l ∪ m).
Proof.
  revert m. induction l as [| [id r] l IH]; intros m Hn Hm; [cbn; by rewrite (left_id_L ∅ (∪)) |].
  cbn [fmap list_fmap fst] in Hn, Hm. apply NoDup_cons in Hn as [Hk Hn]. cbn [map translate_rules rule_entry fst snd].
  assert (Et : translate_rule m id (mkRawRule (Some (enabled r)) (severity_json <$> severity r)) = Done (<[id := r]> m)).
  { unfold translate_rule, get_rule. cbn [rr_enabled rr_severity]. rewrite Hm by set_solver. destruct r as [en [sev |]]; cbn; [| done].
    by rewrite severity_same. }
  rewrite Et. cbn [and_then]. rewrite IH; [| done |].
  - f_equal. cbn [list_to_map foldr fst snd]. rewrite <- insert_union_l, <- insert_union_r; [done |].
    by apply not_elem_of_list_to_map_1.
  - intros k Hk'. rewrite lookup_insert_ne by set_solver. apply Hm. set_solver.
Qed.

Lemma translate_lint_same c a b d e : map_Forall (fun id (_ : RuleConfig) => known_rule id = true) c ->
  translate_lint (mkRawLint None (map rule_entry (entries_of c)) a b d e) = Done c.
Proof.
  intros Hk. unfold translate_lint. cbn [rn_rules rn_enabled]. rewrite (proj2 (check_rule_ids_ok _)).
  - cbn [and_then]. cbv zeta. rewrite bool_decide_eq_false_2 by done.
    rewrite translate_rules_same; [by rewrite entries_map, (right_id_L ∅ (∪)) | apply entries_keys | by intros; apply lookup_empty].
  - rewrite map_map. cbn [rule_entry fst]. apply entries_forall in Hk. clear - Hk. induction Hk; constructor; done.
Qed.

Lemma resolve_waveform_same base w : waveform_ok w ->
  resolve_waveform base (mkRawWaveform (display_path <$> file w) (depth w)) = Done w.
Proof.
  intros (Hf & Hd & Hfd). unfold resolve_waveform. cbn [rw_file rw_depth].
  rewrite resolve_option_display by (destruct (file w); [apply Hf | done]). cbn [and_then].
  assert (map_transpose (fun d => if d <=? 4294967295 then Done d
            else reject [chars "waveform.depth: "; decimal d; chars " is out of range (expected 0 to 4294967295)"])
          (depth w) = Done (depth w)) as Ed.
  { destruct (depth w) as [d |]; [| done]. cbn [map_transpose some_ok] in *. by rewrite (proj2 (Z.leb_le _ _)). }
  destruct w as [[f |] d]; cbn [file depth some_ok] in *.
  - destruct Hf as [_ ->]. cbn [and_then]. rewrite Ed. by destruct d.
  - cbn [and_then]. rewrite Ed. destruct d; [by destruct Hfd | done].
Qed.

Lemma resolve_build_same base b : build_ok b ->
  resolve_build base (mkRawBuild (gen_only b) (generator b) (launcher b) (cc b) (cflags b)
    (opt_level_name <$> model_opt_level b) (cmake b) (jobs b) (map display_path (dpi_libs b))) = Done b.
Proof.
  intros (Hg & Hl & Hc & Hm & Hj & Hd). unfold resolve_build.
  cbn [rb_gen_only rb_generator rb_launcher rb_cc rb_cflags rb_model_opt_level rb_cmake rb_jobs rb_dpi_libs].
  rewrite map_transpose_names by (intros []; reflexivity). cbn [and_then].
  assert (resolve_jobs (jobs b) = Done (jobs b)) as ->.
  { destruct (jobs b) as [v |]; [| done]. cbn in *. by rewrite (proj2 (Z.eqb_neq v 0)). }
  cbn [and_then]. repeat (rewrite non_empty_same by done; cbn [and_then]).
  rewrite resolve_paths_display by done. by destruct b.
Qed.

(** The configuration, printed and resolved again. *)
Lemma resolve_printed base c : config_ok base c -> Forall library_exact (library_files (libraries c)) ->
  resolve (Float := Float) base (raw_of c) = Done (c, []).
Proof.
  intros [Hv Hb Hs Hc Hl Ha Hli Hlr Hsi Hw Hbu [Ho1 Ho2]] Hle. unfold resolve, raw_of.
  cbn [raw_schema_version raw_sources raw_compile raw_libraries raw_analysis raw_lint raw_simulator raw_waveform raw_build raw_output].
  rewrite Hv. change (negb (SCHEMA_VERSION =? SCHEMA_VERSION)) with false. cbn iota.
  rewrite resolve_sources_same by done. cbn [and_then]. rewrite resolve_compile_same by done. cbn [and_then].
  rewrite resolve_libraries_same by done. cbn [and_then].
  assert (resolve_analysis (mkRawAnalysis (Some (max_file_bytes (analysis c))) (Some (max_total_input_bytes (analysis c))))
          = Done (analysis c)) as ->.
  { unfold resolve_analysis. destruct Ha as [Ha1 Ha2], (analysis c) as [x y]. cbn in *.
    by rewrite (proj2 (Z.eqb_neq x 0)), (proj2 (Z.eqb_neq y 0)). }
  cbn [and_then]. rewrite translate_lint_same by done. cbn [and_then]. unfold resolve_lint_run.
  cbn [rn_json_file rn_only rn_warnings_as_errors rn_json]. rewrite resolve_option_display by done. cbn [and_then].
  unfold resolve_simulator.
  cbn [rm_stop_policy rm_optimize rm_pulse_reject rm_pulse_error rm_pulse_style rm_show_cancelled rm_timing_checks
       rm_notifiers rm_timing_check_messages rm_neg_timing_checks rm_plusargs].
  destruct Hsi as [Hs1 Hs2]. rewrite !percent_same, !map_transpose_names by (try done; intros []; reflexivity). cbn [and_then].
  rewrite ?percent_same by done. cbn [and_then]. rewrite ?map_transpose_names by (intros []; reflexivity). cbn [and_then].
  rewrite resolve_waveform_same, resolve_build_same by done. cbn [and_then]. unfold resolve_output. cbn [ro_out_dir ro_runtime_cache].
  rewrite !resolve_option_display by done. cbn [and_then].
  destruct c as [v b s p l a li [] [] w bu []]; cbn in *. by subst.
Qed.
End Printed.

(** ** Library files and equals signs *)

(** Names without an equals sign. *)
Definition plain_name (n : text) : Prop := name_ok n /\ equals_char ∉ n.

Lemma rooted_weaken p : rooted_by plain_name p -> rooted p.
Proof. intros (names & -> & H). exists names. split; [done |]. eapply Forall_impl; [exact H |]. by intros n [? _]. Qed.

Lemma display_plain p : rooted_by plain_name p -> equals_char ∉ display_path p.
Proof.
  intros (names & -> & H). cbn [display_path]. rewrite component_text_names. intros [Hs | Hin]%elem_of_cons; [done |].
  apply join_slash_chars in Hin as [Hs | (n & Hn & Hin)]; [done |]. rewrite Forall_forall in H. by destruct (H n Hn).
Qed.

Lemma library_each_exact base entries fs l : rooted_by plain_name base -> Forall library_exact fs ->
  library_each base entries fs = Done l -> Forall library_exact l.
Proof.
  intros Hb. revert fs. induction entries as [| e entries IH]; intros fs Hf E; cbn in E; [by injection E as <- |].
  steps E. eapply IH; [| exact E]. apply Forall_app_2; [done |]. constructor; [| constructor]. clear IH E.
  unfold library_file in E0. destruct (Lint.split_once equals_char e) as [[lib p] |] eqn:Es.
  - apply split_once_first in Es as [-> Hn]. destruct (is_empty lib || is_empty p) eqn:Ee; [done |]. steps E0. injection E0 as <-.
    apply resolve_path_rooted in E; [| by apply rooted_weaken]. exists a0. split; [done |]. right. exists lib.
    split_and!; [by intros -> | done | done].
  - destruct (false || is_empty e) eqn:Ee; [done |]. steps E0. injection E0 as <-.
    assert (Hne : equals_char ∉ e).
    { clear - Es. induction e as [| c e IH]; [set_solver |]. cbn in Es. destruct (Z.eqb_spec c equals_char) as [| Hc]; [done |].
      destruct (Lint.split_once equals_char e) as [[? ?] |]; [done |]. specialize (IH eq_refl). set_solver. }
    pose proof (resolve_path_by plain_name base e (chars "libraries.files") Hb) as Hr.
    cbn [orb] in Ee. rewrite Ee in Hr. destruct Hr as (q & Eq & Hq).
    + eapply Forall_impl; [apply split_char_parts |]. intros n [H1 H2] ? ? ?. split; [by split_and! |]. intros Hin.
      by apply Hne, H2.
    + assert (q = a0) as -> by congruence. exists a0. split; [by apply rooted_weaken |]. left. split; [done | by apply display_plain].
Qed.


(** A library file without a library, in a directory whose path has an equals
    sign: the resolved entry is split there by the driver. *)
Lemma library_file_missplit :
  library_file [RootDir; Normal (chars "run=1")] (chars "cells.v") = Done (chars "/run=1/cells.v")
  /\ split_library_file_spec (chars "/run=1/cells.v") None = Done (chars "/run", chars "1/cells.v").
Proof. split; vm_compute; reflexivity. Qed.

(** ** Discovery with a configuration *)

Definition filters_of (c : LlgConfig) : DiscoveryFilters := mkFilters (include (sources c)) (exclude (sources c)).

Lemma omap_normal l : Forall pattern_ok l -> omap normalize_relative_pattern l = l.
Proof. induction 1 as [| p l [_ Hp] H IH]; [done |]. cbn. by rewrite Hp, IH. Qed.

Lemma unit_of_names dir names : names <> [] -> is_compilation_unit (dir ++ names_path names) = is_compilation_unit (names_path names).
Proof.
  intros Hne. destruct names as [| n names _] using rev_ind; [done |]. unfold is_compilation_unit, from_path, extension, file_name.
  unfold names_path. rewrite map_app. change (map Normal [n]) with [Normal n]. by rewrite app_assoc, !last_snoc.
Qed.

(** The compilation units below a directory. *)
Definition unit_below (filters : DiscoveryFilters) (node : Path -> option Node) (dir p : Path) : Prop :=
  exists tree names kind, node dir = Some tree /\ p = dir ++ names_path names /\ target filters tree names kind
                          /\ (kind = Verilog \/ kind = SystemVerilog).

Lemma fold_units_in (l : list DiscoveredFile) (units : gset Path) p :
  p ∈ fold_left (fun units f => if is_compilation_unit (at_path f) then {[at_path f]} ∪ units else units) l units
  <-> p ∈ units \/ exists f, f ∈ l /\ is_compilation_unit (at_path f) = true /\ p = at_path f.
Proof.
  revert units. induction l as [| f l IH]; intros units; [cbn; set_solver |]. cbn [fold_left]. rewrite IH.
  assert (Hf : p ∈ (if is_compilation_unit (at_path f) then {[at_path f]} ∪ units else units)
               <-> p ∈ units \/ (is_compilation_unit (at_path f) = true /\ p = at_path f)).
  { destruct (is_compilation_unit (at_path f)); [rewrite elem_of_union, elem_of_singleton; tauto |].
    split; [auto | by intros [? | [? _]]]. }
  rewrite Hf. split.
  - intros [[? | [? ?]] | (g & Hg & ? & ?)]; [by left | right; exists f | right; exists g]; split_and!; try done; [left | by right].
  - intros [? | (g & [-> | Hg]%elem_of_cons & ? & ?)]; [by left; left | by left; right | by right; exists g].
Qed.

(** The directory is there, and everything below it can be read. *)
Definition readable_at (node : Path -> option Node) (dir : Path) : Prop :=
  exists contents, node dir = Some (Directory contents) /\ readable (Directory contents) = true.

Lemma discover_each_in filters node dirs units : Forall rooted dirs -> Forall (readable_at node) dirs ->
  exists units', discover_each node filters dirs units = Done units'
    /\ forall p, p ∈ units' <-> p ∈ units \/ exists dir, dir ∈ dirs /\ unit_below filters node dir p.
Proof.
  intros Hr Ht. revert units. induction Hr as [| dir dirs Hd Hr IH]; intros units; [exists units; set_solver |].
  apply Forall_cons in Ht as [(contents & En & Hread) Ht]. cbn [discover_each]. rewrite En.
  pose proof (discover_finds filters dir dir contents (anchored_normal dir (rooted_anchored _ dir Hd))) as Hf.
  destruct (discover_files dir (Some (Directory contents)) filters) as [fs | e | |]; [| | done | done].
  - edestruct (IH Ht) as (units' & -> & Hu). exists units'. split; [done |]. intros p. rewrite Hu, fold_units_in.
    setoid_rewrite elem_of_cons. destruct Hf as [_ Hf].
    assert (Hx : (exists f, f ∈ fs /\ is_compilation_unit (at_path f) = true /\ p = at_path f) <-> unit_below filters node dir p).
    { split.
      - intros (f & (names & kind & -> & Htg)%Hf & Hc & ->). exists (Directory contents), names, kind.
        split_and!; [done | done | done |]. cbn [at_path] in Hc. destruct names as [| n names]; [by destruct Htg as [? _] |].
        rewrite unit_of_names in Hc by done. destruct Htg as (_ & _ & _ & Hk). unfold is_compilation_unit in Hc.
        rewrite Hk in Hc. destruct kind; [auto | auto | done | done].
      - intros (tree & names & kind & En' & -> & Htg & Hk). assert (tree = Directory contents) as -> by congruence.
        exists (mkDiscovered (dir ++ names_path names) (names_path names) kind). split; [apply Hf; eauto |].
        cbn [at_path]. split; [| done]. destruct names as [| n names]; [by destruct Htg as [? _] |].
        rewrite unit_of_names by done. destruct Htg as (_ & _ & _ & Ek). unfold is_compilation_unit. rewrite Ek.
        by destruct Hk as [-> | ->]. }
    rewrite Hx. naive_solver.
  - exfalso. destruct Hf as (ds & _ & Hh%holds_unreadable). congruence.
Qed.

#[export] Instance unit_le_total : Total unit_le.
Proof. intros a b. apply path_leb_total. Qed.

#[export] Instance unit_le_trans : Transitive unit_le.
Proof. intros a b c. apply path_leb_trans. Qed.

(** The directories of version control and of build output. *)
Definition built_in (name : text) : Prop := name = chars ".git" \/ name = chars "target".

(** A glob of a directory and everything below it. *)
Lemma below_glob d names : stars d = false -> name_glob d d = true ->
  names_glob [d; STARS] (d :: names) = true.
Proof.
  intros Hs Hd. change [d; STARS] with ([d] ++ [STARS]). change (d :: names) with ([d] ++ names). unfold names_glob.
  apply wild_append; [cbn [wild]; by rewrite Hs, Hd |].
  apply (wild_star_drop _ _ _ _ _ (length names)); [done |]. by rewrite drop_ge.
Qed.

Lemma selects_not_built_in c n names base : config_ok base c -> selects (filters_of c) (n :: names) -> ~ built_in n.
Proof.
  intros Hc [Hne _] Hb. destruct (config_sources _ _ Hc) as (_ & _ & _ & _ & _ & _ & Hx & _).
  unfold DEFAULT_EXCLUDE_GLOBS in Hx. apply Forall_cons in Hx as [Hx1 [Hx2 _]%Forall_cons].
  assert (Hg : forall p d, p ∈ exclude (sources c) -> normalized_pattern_components p = Some [d; STARS] -> stars d = false ->
                 name_glob d d = true -> n <> d).
  { intros p d Hp Hpc Hs Hd ->. specialize (Hne (length (d :: names)) p Hp). rewrite take_ge in Hne by done.
    unfold pattern_glob in Hne. rewrite Hpc, below_glob in Hne by done. done. }
  destruct Hb as [-> | ->].
  - by apply (Hg _ (chars ".git") Hx1).
  - by apply (Hg _ (chars "target") Hx2).
Qed.


(** ** Loading *)

(** A computation that returns a value or its error. *)
Definition answers {E A} (m : outcome E A) : Prop := match m with Done _ | Fail _ => True | Panic _ | NoFuel => False end.

Lemma and_then_answers {A B} (m : result A) (k : A -> result B) : answers m -> (forall a, answers (k a)) -> answers (and_then m k).
Proof. destruct m; cbn; auto. Qed.

Lemma map_transpose_answers {A B} (f : A -> result B) o : (forall a, answers (f a)) -> answers (map_transpose f o).
Proof. intros H. destruct o; cbn; [| done]. by apply and_then_answers. Qed.

Lemma in_field_answers {A} field (r : text + A) : answers (in_field field r).
Proof. by destruct r. Qed.

Lemma resolve_path_answers base e field : answers (resolve_path base e field).
Proof. unfold resolve_path. destruct (is_empty e); [done |]. by case_match. Qed.

Lemma resolve_each_answers base field entries seen resolved : answers (resolve_each base field entries seen resolved).
Proof.
  revert seen resolved. induction entries as [| e entries IH]; intros seen resolved; [done |]. cbn [resolve_each].
  apply and_then_answers; [apply resolve_path_answers |]. intros p. by case_bool_decide.
Qed.

Lemma normalize_each_answers field patterns seen normalized : answers (normalize_each field patterns seen normalized).
Proof.
  revert seen normalized. induction patterns as [| p patterns IH]; intros seen normalized; [done |]. cbn [normalize_each].
  destruct (normalize_relative_pattern p); [| done]. destruct (is_empty _); [done |]. by case_bool_decide.
Qed.

Lemma non_empty_answers field v : answers (non_empty field v).
Proof. by destruct v as [[] |]. Qed.

Lemma library_each_answers base entries fs : answers (library_each base entries fs).
Proof.
  revert fs. induction entries as [| e entries IH]; intros fs; [done |]. cbn [library_each].
  apply and_then_answers; [| done]. unfold library_file. destruct (match Lint.split_once equals_char e with Some (l, p) => _ | None => _ end).
  destruct (_ || _); [done |]. apply and_then_answers; [apply resolve_path_answers | done].
Qed.

Lemma check_order_answers names : answers (check_order names).
Proof. induction names; cbn [check_order]; [done |]. by destruct (_ || _). Qed.

Lemma check_rule_ids_answers ids : answers (check_rule_ids ids).
Proof. induction ids as [| id ids IH]; [done |]. cbn [check_rule_ids]. by destruct (known_rule id). Qed.

Lemma config_severity_answers s : answers (config_severity s).
Proof. unfold config_severity. by repeat case_match. Qed.

Lemma translate_rules_answers rules m : answers (translate_rules rules m).
Proof.
  revert m. induction rules as [| [id r] rules IH]; intros m; [done |]. cbn [translate_rules]. apply and_then_answers; [| done].
  unfold translate_rule. apply and_then_answers; [| done]. destruct (rr_severity r); [| done].
  apply and_then_answers; [apply config_severity_answers | done].
Qed.

Lemma override_each_answers {Float} `{FloatText Float} (entries : list (text * Value Float)) m ws :
  answers (override_each entries m ws).
Proof.
  revert m ws. induction entries as [| [name v] entries IH]; intros m ws; [done |]. cbn [override_each].
  destruct (is_identifier name); cbn [negb]; [| done]. apply and_then_answers.
  - unfold override_text. by repeat case_match.
  - intros t. destruct (is_empty t); [done |]. by destruct (has_control_char t).
Qed.

Create HintDb answers.
#[local] Hint Resolve map_transpose_answers in_field_answers resolve_path_answers resolve_each_answers normalize_each_answers
  non_empty_answers library_each_answers check_order_answers check_rule_ids_answers translate_rules_answers
  override_each_answers : answers.

Ltac answering :=
  repeat first
    [ exact I
    | lazymatch goal with |- answers (and_then _ _) => apply and_then_answers; [| intros] end
    | progress case_match
    | solve [auto with answers]
    | apply map_transpose_answers; intros ].

Lemma resolve_answers {Float} `{FloatText Float} base (raw : RawConfig Float) : answers (resolve base raw).
Proof.
  unfold resolve. destruct (negb _); [done |].
  repeat (lazymatch goal with |- answers (and_then _ _) => apply and_then_answers; [| intros; try case_match] end); try done.
  - unfold resolve_sources, normalize_patterns, resolve_paths. answering.
  - unfold resolve_compile, resolve_param_overrides, resolve_paths. answering.
  - unfold resolve_libraries, resolve_paths. answering.
  - unfold resolve_analysis. answering.
  - unfold translate_lint. answering.
  - unfold resolve_lint_run. answering.
  - unfold resolve_simulator, percent. answering.
  - unfold resolve_waveform. answering.
  - unfold resolve_build, resolve_jobs, resolve_paths. answering.
  - unfold resolve_output. answering.
Qed.

Lemma parent_rooted p : rooted p -> rooted (parent_of p).
Proof.
  intros (names & -> & H). unfold parent_of. destruct names as [| n names _] using rev_ind; [by exists [] |].
  unfold names_path. rewrite map_app. change (map Normal [n]) with [Normal n].
  change (RootDir :: map Normal names ++ [Normal n]) with ((RootDir :: map Normal names) ++ [Normal n]).
  rewrite last_snoc, removelast_last. apply Forall_app in H as [H _]. by exists names.
Qed.


(** ** Witnesses *)

(** Files without real numbers. *)
#[local] Instance no_reals : FloatText Empty_set :=
  {| is_finite := fun f : Empty_set => match f with end; debug_text := fun f : Empty_set => match f with end;
     display_text := fun f : Empty_set => match f with end |}.

Definition sample_raw : RawConfig Empty_set :=
  mkRawConfig 1
    (mkRawSources [chars "./rtl"; chars "../w/rtl"; chars "/ip/../lib"] [] [chars "gen//*.v"] [chars "top.sv"])
    (mkRawCompile (Some (chars "top")) (Some (chars "sv2009")) None (Some (chars "max")) [chars "inc"]
       [chars "A=1"; chars "A=2"; chars ""; chars "B"] [(chars "W", VInteger 8); (chars "on", VBoolean true)] [])
    (mkRawLibraries [] [chars "cells=lib/c.v"; chars "d.v"] [chars "cells"] None)
    (mkRawAnalysis None (Some 100))
    (mkRawLint (Some false) [(chars "wide-index", mkRawRule (Some true) (Some (chars "error")))] None None None None)
    (mkRawSimulator (Some (chars "exit")) None (Some 50) None None None None None None None None)
    (mkRawWaveform (Some (chars "out.VCD")) (Some 2))
    (mkRawBuild None None None None (Some (chars "")) (Some (chars "Os")) None (Some 4) [])
    (mkRawOutput (Some (chars "build")) None).

Definition work_dir : Path := [RootDir; Normal (chars "w")].

Definition sample_resolved : LlgConfig * list ConfigError :=
  match resolve work_dir sample_raw with Done r => r | _ => (default_config work_dir, []) end.

Lemma sample_resolves : resolve work_dir sample_raw = Done (sample_resolved.1, sample_resolved.2).
Proof.
  assert (Hb : match resolve work_dir sample_raw with Done _ => true | _ => false end = true) by (vm_compute; reflexivity).
  unfold sample_resolved. destruct (resolve work_dir sample_raw) as [[c ws] | | |]; done.
Qed.

Lemma work_dir_plain : rooted_by plain_name work_dir.
Proof.
  exists [chars "w"]. split; [done |]. constructor; [| constructor]. split; [split_and!; try done |];
    apply (bool_decide_unpack _); vm_compute; done.
Qed.




