(* ===== verification/Udp.v ===== *)
(** * Tables of user-defined primitives

    The table types of [src/sim/ir/udp.rs], their validation
    ([src/sim/ir/validate/udp.rs]) and the indices and row encodings that
    [src/sim/emit_c/owned/udp.rs] emits, with the evaluation and step functions
    of the emitted C. Scalar states are 0, 1 and 2 for X; all numbers are below
    the sizes of their machine types. *)

From Stdlib Require Import ZArith Lia Ascii String.
From stdpp Require Import base list strings.
From S2P Require Import Prelude.
Open Scope nat_scope.
Open Scope list_scope.

(** ** Tables *)

Inductive IrUdpInput : Type := FieldZero | FieldOne | FieldUnknown | Binary | Any | ZeroOrUnknown | OneOrUnknown.

(** The discriminant: a mask over 0, 1 and X. *)
Definition mask (f : IrUdpInput) : nat :=
  match f with
  | FieldZero => 1 | FieldOne => 2 | FieldUnknown => 4 | Binary => 3 | Any => 7 | ZeroOrUnknown => 5 | OneOrUnknown => 6
  end.

(** Bit [state] of a mask. *)
Definition mask_has (m state : nat) : bool := negb (Nat.land m (2 ^ state) =? 0).

(** [IrUdpInput::matches]. *)
Definition matches (f : IrUdpInput) (state : nat) : bool := (state <? 3) && mask_has (mask f) state.

Inductive IrUdpOutput : Type := OutZero | OutOne | OutUnknown.

Definition output_code (o : IrUdpOutput) : nat := match o with OutZero => 0 | OutOne => 1 | OutUnknown => 2 end.

Record IrUdpRow : Type := mkUdpRow { row_inputs : list IrUdpInput; row_output : IrUdpOutput }.

Record IrUdpEdge : Type := mkUdpEdge { edge_input : nat; edge_from : IrUdpInput }.

Inductive IrUdpNext : Type := NextOutput (o : IrUdpOutput) | Hold.

Record IrUdpSequentialRow : Type := mkSequentialRow {
  level_fields : list IrUdpInput;
  edge : option IrUdpEdge;
  state_field : IrUdpInput;
  next : IrUdpNext
}.

Record IrUdpSequential : Type := mkSequential { initial : IrUdpOutput; sequential_rows_of : list IrUdpSequentialRow }.

Record IrUdpTable : Type := mkUdpTable {
  table_name : string;
  input_count : nat;
  table_rows : list IrUdpRow;
  sequential : option IrUdpSequential
}.

Definition is_edge (row : IrUdpSequentialRow) : bool := match edge row with Some _ => true | None => false end.

(** [IrUdpSequential::edge_inputs]: edges of inputs that the definition does
    not have are left out. *)
Definition mark_edge (flags : list bool) (row : IrUdpSequentialRow) : list bool :=
  match edge row with Some e => <[edge_input e := true]> flags | None => flags end.

Definition edge_inputs (s : IrUdpSequential) (count : nat) : list nat :=
  let flags := fold_left mark_edge (sequential_rows_of s) (replicate count false) in
  List.filter (fun input => default false (flags !! input)) (seq 0 count).

Definition fields_match (fields : list IrUdpInput) (values : list nat) : bool :=
  forallb (fun '(f, v) => matches f v) (zip fields values).

Definition resolve_next (row : IrUdpSequentialRow) (state : nat) : nat :=
  match next row with NextOutput o => output_code o | Hold => state end.

(** [IrUdpSequential::next_state]. *)
Definition next_state (s : IrUdpSequential) (inputs : list nat) (changed old state : nat) : nat :=
  let levels row := matches (state_field row) state && fields_match (level_fields row) inputs in
  match find (fun row => negb (is_edge row) && levels row) (sequential_rows_of s) with
  | Some row => resolve_next row state
  | None =>
      match find (fun row =>
                    match edge row with
                    | Some e => (edge_input e =? changed) && matches (edge_from e) old
                    | None => false
                    end && levels row) (sequential_rows_of s) with
      | Some row => resolve_next row state
      | None => output_code OutUnknown
      end
  end.

(** ** Validation *)

Inductive UdpError : Type := NoInputs | RowInputs (index : nat) | MixedRows | SequentialRow (index : nat).

Definition usize_max : Z := 2 ^ 64 - 1.

(** The first index whose element fails the test. *)
Fixpoint first_bad {A} (bad : A -> bool) (index : nat) (l : list A) : option nat :=
  match l with [] => None | x :: l => if bad x then Some index else first_bad bad (S index) l end.

Definition validate_udp_table (t : IrUdpTable) : option UdpError :=
  if (input_count t =? 0)
     || (usize_max <? Z.of_nat (input_count t + 1))%Z
     || (usize_max <? Z.of_nat (input_count t + 1) * Z.of_nat (length (table_rows t)))%Z then Some NoInputs
  else
    match first_bad (fun row => negb (length (row_inputs row) =? input_count t)) 0 (table_rows t) with
    | Some index => Some (RowInputs index)
    | None =>
        match sequential t with
        | None => None
        | Some s =>
            match table_rows t with
            | _ :: _ => Some MixedRows
            | [] =>
                match first_bad (fun row =>
                        negb (length (level_fields row) =? input_count t)
                        || match edge row with Some e => input_count t <=? edge_input e | None => false end)
                        0 (sequential_rows_of s) with
                | Some index => Some (SequentialRow index)
                | None => None
                end
            end
        end
    end.

(** ** Codes *)

(** Base-3 code of digits, input 0 most significant. *)
Definition udp_code (digits : list nat) : nat := fold_left (fun code digit => code * 3 + digit) digits 0.

Definition states_of (f : IrUdpInput) : list nat := List.filter (matches f) (seq 0 3).

(** Every code that the fields match, one digit at a time. *)
Definition extend_codes (codes : list nat) (f : IrUdpInput) : list nat :=
  concat (map (fun state => map (fun prefix => prefix * 3 + state) codes) (states_of f)).

Definition level_codes (fields : list IrUdpInput) : list nat := fold_left extend_codes fields [0].

(** ** The indices *)

Definition UDP_DENSE_INDEX_MAX_INPUTS : nat := 10.
Definition UDP_UNMATCHED : nat := output_code OutUnknown.
Definition UDP_SEQUENTIAL_DENSE_MAX_ENTRIES : Z := Z.shiftl 1 20.
Definition UNSET : nat := 255.

(** A [for] loop. *)
Definition each {S A} (body : A -> M Empty_set S unit) (xs : list A) : M Empty_set S unit :=
  fold_m (fun _ x => body x) xs tt.

(** [index[i]], and an assignment to it. *)
Definition entry_at {A} (i : nat) : M Empty_set (list A) A :=
  fun t => match t !! i with Some e => Done (e, t) | None => Panic "index out of bounds" end.
Definition assign {A} (i : nat) (v : A) : M Empty_set (list A) unit :=
  fun t => match t !! i with Some _ => Done (tt, <[i := v]> t) | None => Panic "index out of bounds" end.

(** Set an entry that no earlier row set. *)
Definition claim (position value : nat) : M Empty_set (list nat) unit :=
  let* e := entry_at position in
  if e =? UNSET then assign position value else ret tt.

(** The first matching level row of each code and state. *)
Definition claim_level (row : IrUdpSequentialRow) : M Empty_set (list nat) unit :=
  each (fun code => each (fun state => claim (code * 3 + state) (resolve_next row state)) (states_of (state_field row)))
    (level_codes (level_fields row)).

(** The transition slot of an old value, relative to the new one. *)
Definition relative (old new : nat) : nat := old - (if new <? old then 1 else 0).

(** The first matching row of each transition of one input. *)
Definition claim_edge (combinations weight : nat) (from : IrUdpInput) (row : IrUdpSequentialRow) : M Empty_set (list nat) unit :=
  each (fun code =>
    let new := code / weight mod 3 in
    each (fun old =>
      each (fun state => claim ((relative old new * combinations + code) * 3 + state) (resolve_next row state))
        (states_of (state_field row)))
      (List.filter (fun old => negb (old =? new) && matches from old) (seq 0 3)))
    (level_codes (level_fields row)).

Definition claim_edges (combinations weight input : nat) (s : IrUdpSequential) : M Empty_set (list nat) unit :=
  each (fun row =>
    match edge row with
    | Some e => if edge_input e =? input then claim_edge combinations weight (edge_from e) row else ret tt
    | None => ret tt
    end) (sequential_rows_of s).

(** The number of entries, unless it is too large. *)
Definition sequential_entries (count edges : nat) : option Z :=
  if (usize_max <? 3 ^ Z.of_nat count)%Z then None
  else
    let combinations := (3 ^ Z.of_nat count)%Z in
    if (usize_max <? combinations * 3)%Z || (usize_max <? combinations * 3 * Z.of_nat (1 + 2 * edges))%Z then None
    else Some (combinations * 3 * Z.of_nat (1 + 2 * edges))%Z.

(** The entries of one slot, or of one transition: the level row decides. *)
Definition merge_entry (level edge : nat) : nat :=
  if negb (level =? UNSET) then level else if negb (edge =? UNSET) then edge else UDP_UNMATCHED.

(** Run a loop on its own table. *)
Definition build {A} (body : M Empty_set (list A) unit) (t : list A) : outcome Empty_set (list A) :=
  match body t with Done (_, t) => Done t | Fail e => Fail e | Panic why => Panic why | NoFuel => NoFuel end.

Definition slot_entries (size : nat) (level edge : list nat) : outcome Empty_set (list nat) :=
  build (each (fun position => match level !! position, edge !! position with
                               | Some l, Some e => assign position (merge_entry l e)
                               | _, _ => panic "index out of bounds"
                               end) (seq 0 size)) (replicate size UDP_UNMATCHED).

(** The slots of the edge inputs, in order: for each, the transitions from
    below and from above. *)
Fixpoint edge_slots (count : nat) (s : IrUdpSequential) (level : list nat) (inputs : list nat)
  : outcome Empty_set (list nat) :=
  match inputs with
  | [] => Done []
  | input :: inputs =>
      let combinations := 3 ^ count in
      match build (claim_edges combinations (combinations / 3 ^ (input + 1)) input s) (replicate (2 * combinations * 3) UNSET) with
      | Done edge =>
          match slot_entries (combinations * 3) level (take (combinations * 3) edge),
                slot_entries (combinations * 3) level (drop (combinations * 3) edge), edge_slots count s level inputs with
          | Done below, Done above, Done rest => Done (below ++ above ++ rest)
          | _, _, _ => Panic "index out of bounds"
          end
      | other => other
      end
  end.

(** [sequential_index]: slot 0 serves the inputs without an edge. *)
Definition sequential_index (count : nat) (s : IrUdpSequential) : outcome Empty_set (option (list nat)) :=
  let edges := edge_inputs s count in
  match sequential_entries count (length edges) with
  | None => Done None
  | Some entries =>
      if (count =? 0) || (UDP_SEQUENTIAL_DENSE_MAX_ENTRIES <? entries)%Z then Done None
      else
        let combinations := 3 ^ count in
        match build (each claim_level (List.filter (fun row => negb (is_edge row)) (sequential_rows_of s)))
                (replicate (combinations * 3) UNSET) with
        | Done level =>
            match edge_slots count s level edges with
            | Done rest => Done (Some (map (fun l => if negb (l =? UNSET) then l else UDP_UNMATCHED) level ++ rest))
            | Fail e => Fail e
            | Panic why => Panic why
            | NoFuel => NoFuel
            end
        | Fail e => Fail e
        | Panic why => Panic why
        | NoFuel => NoFuel
        end
  end.

Definition dense_sequential (t : IrUdpTable) : bool :=
  match sequential t with
  | None => false
  | Some s =>
      let edges := length (edge_inputs s (input_count t)) in
      if (usize_max <? 3 ^ Z.of_nat (input_count t + 1))%Z
         || (usize_max <? 3 ^ Z.of_nat (input_count t + 1) * Z.of_nat (1 + 2 * edges))%Z then false
      else (0 <? input_count t)
           && (3 ^ Z.of_nat (input_count t + 1) * Z.of_nat (1 + 2 * edges) <=? UDP_SEQUENTIAL_DENSE_MAX_ENTRIES)%Z
  end.

(** *** Combinational tables *)

(** An entry that no earlier row set, and the number of those left. *)
Definition claim_output (output position : nat) : M Empty_set (list (option nat) * nat) unit :=
  fun '(index, unclaimed) =>
    match index !! position with
    | None => Panic "index out of bounds"
    | Some (Some _) => Done (tt, (index, unclaimed))
    | Some None =>
        match unclaimed with
        | O => Panic "attempt to subtract with overflow"
        | S remaining => Done (tt, (<[position := Some output]> index, remaining))
        end
    end.

(** Rows in order, until every entry is set. *)
Fixpoint claim_rows (rows : list IrUdpRow) : M Empty_set (list (option nat) * nat) unit :=
  match rows with
  | [] => ret tt
  | row :: rows =>
      let* unclaimed := gets snd in
      if unclaimed =? 0 then ret tt
      else
        each (claim_output (output_code (row_output row))) (level_codes (row_inputs row)) ;;; claim_rows rows
  end.

Definition dense_index (t : IrUdpTable) : outcome Empty_set (option (list nat)) :=
  if (input_count t =? 0) || (UDP_DENSE_INDEX_MAX_INPUTS <? input_count t) then Done None
  else
    let size := 3 ^ input_count t in
    match claim_rows (table_rows t) (replicate size None, size) with
    | Done (_, (index, _)) => Done (Some (map (default UDP_UNMATCHED) index))
    | Fail e => Fail e
    | Panic why => Panic why
    | NoFuel => NoFuel
    end.

(** *** Encoded rows *)

(** A row of a wide sequential table. *)
Definition encode_row (row : IrUdpSequentialRow) : list nat :=
  (if is_edge row then 1 else 0) :: mask (state_field row)
  :: match next row with NextOutput o => output_code o | Hold => 3 end
  :: concat (imap (fun input field =>
       [mask field;
        match edge row with Some e => if edge_input e =? input then mask (edge_from e) else 0 | None => 0 end])
       (level_fields row)).

Definition sequential_rows (s : IrUdpSequential) : list nat := concat (map encode_row (sequential_rows_of s)).

(** A row of a wide combinational table. *)
Definition encode_output_row (row : IrUdpRow) : list nat := map mask (row_inputs row) ++ [output_code (row_output row)].
Definition combinational_rows (t : IrUdpTable) : list nat := concat (map encode_output_row (table_rows t)).

(** ** The emitted functions *)

Definition byte (bytes : list nat) (i : nat) : nat := default 0 (bytes !! i).

(** [llg_udp_digit]: Z reads as X. *)
Definition udp_digit (state : nat) : nat := if 2 <? state then 2 else state.

(** [sv4_udp_eval]: the scan of combinational rows. *)
Fixpoint scan_rows (rows : list nat) (count : nat) (inputs : list nat) (row remaining : nat) : nat :=
  match remaining with
  | O => 2
  | S remaining =>
      if forallb (fun k => mask_has (byte rows (row * (count + 1) + k)) (byte inputs k)) (seq 0 count)
      then byte rows (row * (count + 1) + count)
      else scan_rows rows count inputs (S row) remaining
  end.

Definition udp_eval (t : IrUdpTable) (inputs : list nat) : outcome Empty_set nat :=
  if UDP_DENSE_INDEX_MAX_INPUTS <? input_count t then
    Done (scan_rows (combinational_rows t) (input_count t) inputs 0 (length (table_rows t)))
  else
    match dense_index t with
    | Done (Some index) =>
        match index !! udp_code inputs with Some v => Done v | None => Panic "read outside the index" end
    | Done None => Panic "no index"
    | Fail e => Fail e
    | Panic why => Panic why
    | NoFuel => NoFuel
    end.

(** The order in which a step takes the inputs: those whose storage changed,
    in change order, then all in port order. *)
Definition step_order {Change} (is_input : Change -> nat -> bool) (count : nat) (changes : list Change) : list nat :=
  concat (map (fun c => List.filter (is_input c) (seq 0 count)) changes) ++ seq 0 count.

(** The slot of a transition of an input. *)
Fixpoint position_of (input : nat) (l : list nat) : option nat :=
  match l with [] => None | e :: l => if e =? input then Some 0 else S <$> position_of input l end.

Definition slot_of (edges : list nat) (input was now : nat) : nat :=
  match position_of input edges with
  | Some ordinal => 1 + 2 * ordinal + was - (if now <? was then 1 else 0)
  | None => 0
  end.

(** The block of one input in the step of a dense definition. *)
Definition dense_take (count : nat) (edges index now : list nat) (st : nat * nat) (input : nat) : nat * nat :=
  let '(code, state) := st in
  let weight := 3 ^ (count - 1 - input) in
  let was := code / weight mod 3 in
  let d := byte now input in
  if d =? was then st
  else
    let code := code - was * weight + d * weight in
    (code, byte index ((slot_of edges input was d * 3 ^ count + code) * 3 + state)).

Definition dense_step (count : nat) (edges index now : list nat) (order : list nat) (st : nat * nat) : nat * nat :=
  fold_left (dense_take count edges index now) order st.

(** The scan of the encoded rows of a wide definition, one pass. *)
Fixpoint scan_pass (rows : list nat) (count : nat) (inputs : list nat) (pass k was state r remaining : nat) : option nat :=
  match remaining with
  | O => None
  | S remaining =>
      let at_ j := byte rows (r * (3 + 2 * count) + j) in
      if (at_ 0 =? pass) && mask_has (at_ 1) state && (negb (pass =? 1) || mask_has (at_ (4 + 2 * k)) was)
         && forallb (fun j => mask_has (at_ (3 + 2 * j)) (byte inputs j)) (seq 0 count)
      then Some (if at_ 2 =? 3 then state else at_ 2)
      else scan_pass rows count inputs pass k was state (S r) remaining
  end.

(** [llg_udp_wide_take]. *)
Definition wide_take (rows : list nat) (row_count count : nat) (now : list nat) (st : list nat * nat) (k : nat)
  : list nat * nat :=
  let '(inputs, state) := st in
  let was := byte inputs k in
  if byte now k =? was then st
  else
    let inputs := <[k := byte now k]> inputs in
    let next :=
      match scan_pass rows count inputs 0 k was state 0 row_count with
      | Some next => next
      | None => match scan_pass rows count inputs 1 k was state 0 row_count with Some next => next | None => 2 end
      end in
    (inputs, next).

Definition wide_step (rows : list nat) (row_count count : nat) (now order : list nat) (st : list nat * nat) : list nat * nat :=
  fold_left (wide_take rows row_count count now) order st.
