(* ===== verification/UdpFacts.v ===== *)
(** * Indices and scans of primitive tables agree with the rows

    Codes of digits, loops that set what no earlier row set, and that the dense
    indices, the encoded rows and the step functions give what the first
    matching row of the table says. *)

From Stdlib Require Import ZArith Lia Ascii String.
From stdpp Require Import base list strings sets.
From S2P Require Import Prelude Udp.
Open Scope nat_scope.
Open Scope list_scope.

(** ** Codes *)

Definition digits (n : nat) (l : list nat) : Prop := length l = n /\ Forall (fun d => d < 3) l.

Lemma udp_code_snoc l d : udp_code (l ++ [d]) = udp_code l * 3 + d.
Proof. unfold udp_code. by rewrite fold_left_app. Qed.

Lemma digits_snoc n l : digits (S n) l -> exists l' d, l = l' ++ [d] /\ digits n l' /\ d < 3.
Proof.
  intros [Hl Hf]. destruct l as [| d l' _] using rev_ind; [done |]. rewrite length_app in Hl. cbn in Hl.
  apply Forall_app in Hf as [Hf Hd]. apply Forall_cons in Hd as [Hd _]. exists l', d. split_and!; [done | split; [lia | done] | done].
Qed.

Lemma udp_code_bound n l : digits n l -> udp_code l < 3 ^ n.
Proof.
  revert l. induction n as [| n IH]; intros l Hl.
  - destruct l; [cbn; lia | by destruct Hl].
  - apply digits_snoc in Hl as (l' & d & -> & Hl & Hd). apply IH in Hl. rewrite udp_code_snoc, Nat.pow_succ_r'. lia.
Qed.

Lemma udp_code_inj n a b : digits n a -> digits n b -> udp_code a = udp_code b -> a = b.
Proof.
  revert a b. induction n as [| n IH]; intros a b Ha Hb E.
  - destruct Ha as [Ha _], Hb as [Hb _]. by destruct a, b.
  - apply digits_snoc in Ha as (a' & x & -> & Ha & Hx). apply digits_snoc in Hb as (b' & y & -> & Hb & Hy).
    rewrite !udp_code_snoc in E. assert (x = y) as <- by lia. f_equal. apply IH; [done | done | lia].
Qed.

(** A digit of a code. *)
Lemma udp_code_digit n l k d : digits n l -> l !! k = Some d -> udp_code l / 3 ^ (n - 1 - k) mod 3 = d.
Proof.
  revert l k d. induction n as [| n IH]; intros l k d Hl Hk; [by destruct l; [| destruct Hl] |].
  apply digits_snoc in Hl as (l' & x & -> & Hl & Hx). rewrite udp_code_snoc. pose proof (proj1 Hl) as Hlen.
  destruct (decide (k < n)) as [Hlt | Hge].
  - rewrite lookup_app_l in Hk by lia. replace (S n - 1 - k) with (S (n - 1 - k)) by lia.
    rewrite Nat.pow_succ_r', <- Nat.Div0.div_div. replace ((udp_code l' * 3 + x) / 3) with (udp_code l'); [by apply IH |].
    rewrite Nat.add_comm, Nat.div_add by lia. rewrite Nat.div_small by lia. lia.
  - assert (k = n) as ->. { apply lookup_lt_Some in Hk. rewrite length_app in Hk. cbn in Hk. lia. }
    rewrite lookup_app_r, Hlen, Nat.sub_diag in Hk by lia. injection Hk as <-.
    replace (S n - 1 - n) with 0 by lia. cbn [Nat.pow]. rewrite Nat.div_1_r, Nat.add_comm, Nat.Div0.mod_add.
    by apply Nat.mod_small.
Qed.

(** Changing a digit. *)
Lemma udp_code_insert n l k d d' : digits n l -> d' < 3 -> l !! k = Some d ->
  digits n (<[k := d']> l) /\ udp_code (<[k := d']> l) + d * 3 ^ (n - 1 - k) = udp_code l + d' * 3 ^ (n - 1 - k).
Proof.
  revert l k d. induction n as [| n IH]; intros l k d Hl Hd' Hk; [by destruct l; [| destruct Hl] |].
  apply digits_snoc in Hl as (l' & x & -> & Hl & Hx). pose proof (proj1 Hl) as Hlen.
  destruct (decide (k < n)) as [Hlt | Hge].
  - rewrite lookup_app_l in Hk by lia. rewrite insert_app_l by lia. destruct (IH l' k d Hl Hd' Hk) as [[Hl1 Hl2] E]. split.
    + split; [rewrite length_app, Hl1; cbn; lia | apply Forall_app_2; [done | by constructor]].
    + rewrite !udp_code_snoc. replace (S n - 1 - k) with (S (n - 1 - k)) by lia. rewrite Nat.pow_succ_r'. lia.
  - assert (k = n) as ->. { apply lookup_lt_Some in Hk. rewrite length_app in Hk. cbn in Hk. lia. }
    rewrite lookup_app_r, Hlen, Nat.sub_diag in Hk by lia. injection Hk as ->.
    rewrite insert_app_r_alt, Hlen, Nat.sub_diag by lia. cbn [list_insert]. change (<[0:=d']> [d]) with [d']. split.
    + split; [rewrite length_app, Hlen; cbn; lia | apply Forall_app_2; [apply Hl | by constructor]].
    + rewrite !udp_code_snoc. replace (S n - 1 - n) with 0 by lia. cbn [Nat.pow]. lia.
Qed.

Lemma states_of_in f v : v ∈ states_of f <-> matches f v = true.
Proof.
  unfold states_of. rewrite list_elem_of_In, filter_In, in_seq. unfold matches. rewrite andb_true_iff, Nat.ltb_lt. naive_solver lia.
Qed.

Lemma matches_small f v : matches f v = true -> v < 3.
Proof. unfold matches. rewrite andb_true_iff, Nat.ltb_lt. tauto. Qed.

Lemma fields_match_snoc fs f vs v : length fs = length vs ->
  fields_match (fs ++ [f]) (vs ++ [v]) = fields_match fs vs && matches f v.
Proof. intros H. unfold fields_match. rewrite zip_with_app by done. rewrite forallb_app. cbn. by rewrite andb_true_r. Qed.

Lemma level_codes_in fields c :
  c ∈ level_codes fields <-> exists l, digits (length fields) l /\ fields_match fields l = true /\ c = udp_code l.
Proof.
  revert c. induction fields as [| f fields IH] using rev_ind; intros c.
  - unfold level_codes. cbn. rewrite list_elem_of_singleton. split.
    + intros ->. exists []. by repeat split.
    + intros (l & [Hl _] & _ & ->). by destruct l.
  - unfold level_codes in *. rewrite fold_left_app. cbn [fold_left]. unfold extend_codes.
    rewrite list_elem_of_In, in_concat. setoid_rewrite in_map_iff. rewrite length_app, Nat.add_1_r. split.
    + intros (codes & (v & <- & Hv%list_elem_of_In%states_of_in) & (p & <- & Hp%list_elem_of_In%IH)%in_map_iff).
      destruct Hp as (l & [Hl Hf] & Hm & ->). exists (l ++ [v]). pose proof (matches_small _ _ Hv). split; [| split].
      * split; [rewrite length_app, Hl; cbn; lia | apply Forall_app_2; [done | by constructor]].
      * by rewrite fields_match_snoc, Hm, Hv.
      * by rewrite udp_code_snoc.
    + intros (l & Hl & Hm & ->). apply digits_snoc in Hl as (l' & v & -> & Hl & Hv). pose proof (proj1 Hl) as Hlen.
      rewrite fields_match_snoc in Hm by done. apply andb_prop in Hm as [Hm Hmv]. eexists. split.
      * exists v. split; [done |]. by apply list_elem_of_In, states_of_in.
      * apply in_map_iff. exists (udp_code l'). rewrite udp_code_snoc. split; [done |].
        apply list_elem_of_In, IH. by exists l'.
Qed.

Lemma level_codes_code n fields l : length fields = n -> digits n l ->
  udp_code l ∈ level_codes fields <-> fields_match fields l = true.
Proof.
  intros <- Hl. rewrite level_codes_in. split; [| eauto]. intros (l' & Hl' & Hm & E).
  by apply (udp_code_inj _ _ _ Hl Hl') in E as ->.
Qed.

(** ** Loops that claim entries *)

Lemma each_nil {S A} (body : A -> M Empty_set S unit) t : each body [] t = Done (tt, t).
Proof. done. Qed.

Lemma each_cons {S A} (body : A -> M Empty_set S unit) x xs t :
  each body (x :: xs) t = match body x t with Done (_, t) => each body xs t | Fail e => Fail e | Panic w => Panic w | NoFuel => NoFuel end.
Proof. unfold each. cbn [fold_m]. unfold bind. by destruct (body x t) as [[[] ?] | | |]. Qed.

Lemma each_app {S A} (body : A -> M Empty_set S unit) xs ys t :
  each body (xs ++ ys) t = match each body xs t with Done (_, t) => each body ys t | Fail e => Fail e | Panic w => Panic w | NoFuel => NoFuel end.
Proof.
  revert t. induction xs as [| x xs IH]; intros t; [done |]. cbn [app]. rewrite !each_cons.
  by destruct (body x t) as [[? ?] | | |].
Qed.

Lemma each_map {S A B} (f : A -> B) (body : B -> M Empty_set S unit) xs t : each body (map f xs) t = each (fun x => body (f x)) xs t.
Proof. revert t. induction xs as [| x xs IH]; intros t; [done |]. cbn [map]. rewrite !each_cons. by destruct (body (f x) t) as [[? ?] | | |]. Qed.

Lemma each_ext {S A} (f g : A -> M Empty_set S unit) xs t : (forall x t, f x t = g x t) -> each f xs t = each g xs t.
Proof. intros H. revert t. induction xs as [| x xs IH]; intros t; [done |]. rewrite !each_cons, H. by destruct (g x t) as [[? ?] | | |]. Qed.

Lemma each_concat {S A B} (body : B -> M Empty_set S unit) (f : A -> list B) xs t :
  each body (concat (map f xs)) t = each (fun x => each body (f x)) xs t.
Proof.
  revert t. induction xs as [| x xs IH]; intros t; [done |]. cbn [map concat]. rewrite each_app, each_cons.
  by destruct (each body (f x) t) as [[? ?] | | |].
Qed.

(** The value of the first claim of a position. *)
Definition first_of (p : nat) (l : list (nat * nat)) : option nat := snd <$> find (fun x => x.1 =? p) l.

Definition claims (l : list (nat * nat)) : M Empty_set (list nat) unit := each (fun x => claim x.1 x.2) l.

Lemma claims_spec l t :
  Forall (fun x => x.1 < length t /\ x.2 < 3) l ->
  exists t', claims l t = Done (tt, t') /\ length t' = length t
    /\ forall p e, t !! p = Some e -> t' !! p = Some (if e =? UNSET then default UNSET (first_of p l) else e).
Proof.
  revert t. induction l as [| [q v] l IH]; intros t H.
  - exists t. split_and!; [done | done |]. intros p e E. cbn. rewrite E. destruct (Nat.eqb_spec e UNSET); by subst.
  - apply Forall_cons in H as [[Hq Hv] H]. cbn [fst snd] in *. unfold claims. rewrite each_cons. cbn [fst snd].
    destruct (lookup_lt_is_Some_2 t q Hq) as [e0 E0]. unfold claim, bind, entry_at. rewrite E0.
    destruct (Nat.eqb_spec e0 UNSET) as [-> | Hne].
    + unfold assign. rewrite E0. destruct (IH (<[q := v]> t)) as (t' & E & Hl & Ht').
      { eapply Forall_impl; [exact H |]. intros x. by rewrite length_insert. }
      exists t'. split_and!; [done | by rewrite Hl, length_insert |]. intros p e Ep. unfold first_of. cbn [find fst].
      destruct (Nat.eqb_spec q p) as [-> | Hqp].
      * rewrite E0 in Ep. injection Ep as <-. rewrite Nat.eqb_refl. cbn [fmap option_fmap option_map snd default].
        rewrite (Ht' p v) by by apply list_lookup_insert_eq. destruct (Nat.eqb_spec v UNSET); [unfold UNSET in *; lia | done].
      * apply Ht'. by rewrite list_lookup_insert_ne.
    + unfold ret. destruct (IH t H) as (t' & E & Hl & Ht'). exists t'. split_and!; [done | done |]. intros p e Ep.
      rewrite (Ht' p e Ep). unfold first_of. cbn [find fst]. destruct (Nat.eqb_spec q p) as [-> | Hqp]; [| done].
      rewrite E0 in Ep. injection Ep as <-. by rewrite (proj2 (Nat.eqb_neq e0 UNSET)).
Qed.

Lemma first_of_app p a b : first_of p (a ++ b) = match first_of p a with Some v => Some v | None => first_of p b end.
Proof.
  unfold first_of. induction a as [| x a IH]; [done |]. cbn [app find]. by destruct (x.1 =? p).
Qed.

(** All claims of a position are of one value, if there are any. *)
Lemma first_of_value p l v (P : bool) :
  (P = true -> (p, v) ∈ l) -> (forall w, (p, w) ∈ l -> P = true /\ w = v) ->
  first_of p l = if P then Some v else None.
Proof.
  intros H1 H2. unfold first_of. destruct (find (fun x => x.1 =? p) l) as [[q w] |] eqn:E.
  - apply find_some in E as [Hin Hq]. cbn in Hq. apply Nat.eqb_eq in Hq as ->.
    apply list_elem_of_In, H2 in Hin as [-> ->]. done.
  - destruct P; [| done]. specialize (H1 eq_refl). apply list_elem_of_In in H1. eapply find_none in E; [| exact H1].
    cbn in E. by rewrite Nat.eqb_refl in E.
Qed.

(** The first claim over rows is that of the first row that has one. *)
Lemma first_of_rows {A} p (rows : list A) (f : A -> list (nat * nat)) (has : A -> bool) (value : A -> nat) :
  Forall (fun row => first_of p (f row) = if has row then Some (value row) else None) rows ->
  first_of p (concat (map f rows)) = value <$> find has rows.
Proof.
  induction 1 as [| row rows H Hr IH]; [done |]. cbn [map concat find]. rewrite first_of_app, H. by destruct (has row).
Qed.

(** ** Sequential definitions *)

Section Sequential.
Context (n : nat) (s : IrUdpSequential).

Definition row_ok (row : IrUdpSequentialRow) : Prop :=
  length (level_fields row) = n /\ match edge row with Some e => edge_input e < n | None => True end.

Context (Rows : Forall row_ok (sequential_rows_of s)).

Notation size := (3 ^ n).

(** The row matches the inputs and the state. *)
Definition levels (inputs : list nat) (state : nat) (row : IrUdpSequentialRow) : bool :=
  matches (state_field row) state && fields_match (level_fields row) inputs.

Lemma resolve_small row state : state < 3 -> resolve_next row state < 3.
Proof. unfold resolve_next. destruct (next row) as [[] |]; cbn; lia. Qed.

Lemma position_inj c d state state' : state < 3 -> state' < 3 -> c * 3 + state = d * 3 + state' -> c = d /\ state = state'.
Proof. lia. Qed.

(** *** Level rows *)

Definition level_claims (row : IrUdpSequentialRow) : list (nat * nat) :=
  concat (map (fun code => map (fun state => (code * 3 + state, resolve_next row state)) (states_of (state_field row)))
            (level_codes (level_fields row))).

Lemma level_claims_in row q w : (q, w) ∈ level_claims row <->
  exists code state, code ∈ level_codes (level_fields row) /\ matches (state_field row) state = true
    /\ q = code * 3 + state /\ w = resolve_next row state.
Proof.
  unfold level_claims. rewrite list_elem_of_In, in_concat. setoid_rewrite in_map_iff. split.
  - intros (l & (code & <- & Hc) & (state & [= <- <-] & Hs)%in_map_iff). exists code, state.
    split_and!; [by apply list_elem_of_In | by apply states_of_in, list_elem_of_In | done | done].
  - intros (code & state & Hc & Hs & -> & ->). eexists. split.
    + exists code. split; [done |]. by apply list_elem_of_In.
    + apply in_map_iff. exists state. split; [done |]. by apply list_elem_of_In, states_of_in.
Qed.

Lemma claim_level_claims row t : claim_level row t = claims (level_claims row) t.
Proof.
  unfold claims, level_claims. rewrite each_concat. unfold claim_level. apply each_ext. intros code t'. by rewrite each_map.
Qed.

Lemma level_codes_bound fields c : length fields = n -> c ∈ level_codes fields -> c < size.
Proof. intros <- (l & Hl & _ & ->)%level_codes_in. by apply udp_code_bound. Qed.

Lemma level_claims_ok row : row_ok row -> Forall (fun x => x.1 < size * 3 /\ x.2 < 3) (level_claims row).
Proof.
  intros [Hl _]. apply Forall_forall. intros [q w] (code & state & Hc & Hs & -> & ->)%level_claims_in.
  apply level_codes_bound in Hc; [| done]. apply matches_small in Hs. cbn. split; [lia | by apply resolve_small].
Qed.

Lemma first_of_level row inputs state : row_ok row -> digits n inputs -> state < 3 ->
  first_of (udp_code inputs * 3 + state) (level_claims row) = if levels inputs state row then Some (resolve_next row state) else None.
Proof.
  intros [Hl _] Hi Hs. apply first_of_value.
  - unfold levels. intros [H1 H2]%andb_prop. apply level_claims_in. exists (udp_code inputs), state.
    split_and!; [by eapply level_codes_code | done | done | done].
  - intros w (code & state' & Hc & Hs' & E & ->)%level_claims_in. pose proof (matches_small _ _ Hs').
    apply position_inj in E as [<- <-]; [| done | done]. unfold levels. rewrite Hs'.
    by rewrite (proj1 (level_codes_code n _ _ Hl Hi) Hc).
Qed.

Notation level_rows := (List.filter (fun row => negb (is_edge row)) (sequential_rows_of s)).

Lemma level_rows_ok : Forall row_ok level_rows.
Proof. apply List.Forall_forall. intros row [Hr _]%filter_In. rewrite List.Forall_forall in Rows. by apply Rows. Qed.

Lemma find_filter {A} (p q : A -> bool) l : find p (List.filter q l) = find (fun x => q x && p x) l.
Proof. induction l as [| x l IH]; [done |]. cbn. destruct (q x); cbn; [by destruct (p x) | done]. Qed.

(** The first matching level row. *)
Definition level_state (inputs : list nat) (state : nat) : option nat :=
  (fun row => resolve_next row state) <$> find (fun row => negb (is_edge row) && levels inputs state row) (sequential_rows_of s).

Lemma level_table : exists level,
  build (each claim_level level_rows) (replicate (size * 3) UNSET) = Done level /\ length level = size * 3
  /\ forall inputs state, digits n inputs -> state < 3 ->
       level !! (udp_code inputs * 3 + state) = Some (default UNSET (level_state inputs state)).
Proof.
  pose proof level_rows_ok as Hok.
  assert (Hall : Forall (fun x => x.1 < length (replicate (size * 3) UNSET) /\ x.2 < 3) (concat (map level_claims level_rows))).
  { rewrite length_replicate. apply Forall_concat, Forall_map. eapply Forall_impl; [exact Hok | apply level_claims_ok]. }
  destruct (claims_spec _ _ Hall) as (t & E & Hl & Ht). exists t. split_and!.
  - unfold build. rewrite (each_ext claim_level (fun row => claims (level_claims row)) _ _ claim_level_claims).
    unfold claims in E. rewrite each_concat in E. unfold claims. by rewrite E.
  - by rewrite Hl, length_replicate.
  - intros inputs state Hi Hs. pose proof (udp_code_bound n inputs Hi).
    rewrite (Ht _ UNSET) by (apply lookup_replicate; split; [done | lia]). rewrite Nat.eqb_refl. f_equal. f_equal.
    unfold level_state. rewrite <- find_filter. apply first_of_rows.
    eapply Forall_impl; [exact Hok |]. intros row Hr. by apply first_of_level.
Qed.

(** *** Edge rows of an input *)

Definition olds (from : IrUdpInput) (new : nat) : list nat := List.filter (fun old => negb (old =? new) && matches from old) (seq 0 3).

Lemma olds_in from new old : old ∈ olds from new <-> old <> new /\ matches from old = true.
Proof.
  unfold olds. rewrite list_elem_of_In, filter_In, in_seq, andb_true_iff, negb_true_iff, Nat.eqb_neq. split; [tauto |].
  intros [H1 H2]. pose proof (matches_small _ _ H2). split; [lia | done].
Qed.

Definition edge_claims (weight : nat) (from : IrUdpInput) (row : IrUdpSequentialRow) : list (nat * nat) :=
  concat (map (fun code =>
    concat (map (fun old =>
      map (fun state => ((relative old (code / weight mod 3) * size + code) * 3 + state, resolve_next row state))
        (states_of (state_field row)))
      (olds from (code / weight mod 3))))
    (level_codes (level_fields row))).

Lemma edge_claims_in weight from row q w : (q, w) ∈ edge_claims weight from row <->
  exists code old state, code ∈ level_codes (level_fields row) /\ old <> code / weight mod 3 /\ matches from old = true
    /\ matches (state_field row) state = true
    /\ q = (relative old (code / weight mod 3) * size + code) * 3 + state /\ w = resolve_next row state.
Proof.
  unfold edge_claims. rewrite list_elem_of_In, in_concat. setoid_rewrite in_map_iff. split.
  - intros (l & (code & <- & Hc) & Hin). apply in_concat in Hin as (l' & (old & <- & Ho)%in_map_iff & Hin).
    apply in_map_iff in Hin as (state & [= <- <-] & Hs). apply list_elem_of_In, olds_in in Ho as [Ho1 Ho2].
    exists code, old, state. split_and!; [by apply list_elem_of_In | done | done | by apply states_of_in, list_elem_of_In | done | done].
  - intros (code & old & state & Hc & Ho1 & Ho2 & Hs & -> & ->). eexists. split.
    + exists code. split; [done |]. by apply list_elem_of_In.
    + apply in_concat. eexists. split.
      * apply in_map_iff. exists old. split; [done |]. apply list_elem_of_In, olds_in. done.
      * apply in_map_iff. exists state. split; [done |]. by apply list_elem_of_In, states_of_in.
Qed.

Lemma claim_edge_claims weight from row t : claim_edge size weight from row t = claims (edge_claims weight from row) t.
Proof.
  unfold claims, edge_claims. rewrite each_concat. unfold claim_edge. cbv zeta. apply each_ext. intros code t'.
  rewrite each_concat. apply each_ext. intros old t''. by rewrite each_map.
Qed.

Lemma relative_small old new : old < 3 -> new < 3 -> old <> new -> relative old new < 2.
Proof. unfold relative. destruct (Nat.ltb_spec new old); lia. Qed.

Lemma relative_inj old old' new : old <> new -> old' <> new -> relative old new = relative old' new -> old = old'.
Proof. unfold relative. destruct (Nat.ltb_spec new old), (Nat.ltb_spec new old'); lia. Qed.

Lemma edge_claims_ok weight from row : row_ok row -> Forall (fun x => x.1 < 2 * size * 3 /\ x.2 < 3) (edge_claims weight from row).
Proof.
  intros [Hl _]. apply Forall_forall. intros [q w] (code & old & state & Hc & Ho1 & Ho2 & Hs & -> & ->)%edge_claims_in.
  apply level_codes_bound in Hc; [| done]. apply matches_small in Hs, Ho2. cbn [fst snd].
  pose proof (relative_small old (code / weight mod 3) Ho2 ltac:(by apply Nat.mod_upper_bound) Ho1).
  split; [nia | by apply resolve_small].
Qed.

(** The row has a transition of the input from the old value. *)
Definition moves (input old : nat) (row : IrUdpSequentialRow) : bool :=
  match edge row with Some e => (edge_input e =? input) && matches (edge_from e) old | None => false end.

Lemma first_of_edge from row inputs input old new state :
  row_ok row -> digits n inputs -> inputs !! input = Some new -> old < 3 -> old <> new -> state < 3 ->
  first_of ((relative old new * size + udp_code inputs) * 3 + state) (edge_claims (3 ^ (n - 1 - input)) from row)
  = if matches from old && levels inputs state row then Some (resolve_next row state) else None.
Proof.
  intros [Hl _] Hi Hin Ho Hne Hs. pose proof (udp_code_digit n inputs input new Hi Hin) as Hd. apply first_of_value.
  - unfold levels. intros [H0 [H1 H2]%andb_prop]%andb_prop. apply edge_claims_in. exists (udp_code inputs), old, state.
    rewrite Hd. split_and!; [by eapply level_codes_code | done | done | done | done | done].
  - intros w (code & old' & state' & Hc & Ho1 & Ho2 & Hs' & E & ->)%edge_claims_in. pose proof (matches_small _ _ Hs').
    apply position_inj in E as [E <-]; [| done | done].
    pose proof (udp_code_bound n inputs Hi) as Hb. pose proof (level_codes_bound _ _ Hl Hc) as Hb'.
    assert (Hcode : code = udp_code inputs /\ relative old' (code / 3 ^ (n - 1 - input) mod 3) = relative old new).
    { split.
      - rewrite <- (Nat.mod_small code size), <- (Nat.mod_small (udp_code inputs) size) by done.
        rewrite <- (Nat.Div0.mod_add code (relative old' (code / 3 ^ (n - 1 - input) mod 3))).
        rewrite <- (Nat.Div0.mod_add (udp_code inputs) (relative old new)). f_equal. lia.
      - nia. }
    destruct Hcode as [-> Hr]. rewrite Hd in *. apply relative_inj in Hr as ->; [| done | done].
    unfold levels. rewrite Ho2, Hs'. by rewrite (proj1 (level_codes_code n _ _ Hl Hi) Hc).
Qed.

(** The first matching edge row. *)
Definition edge_state (inputs : list nat) (input old state : nat) : option nat :=
  (fun row => resolve_next row state) <$> find (fun row => moves input old row && levels inputs state row) (sequential_rows_of s).

Definition row_edge_claims (input : nat) (row : IrUdpSequentialRow) : list (nat * nat) :=
  match edge row with
  | Some e => if edge_input e =? input then edge_claims (3 ^ (n - 1 - input)) (edge_from e) row else []
  | None => []
  end.

Lemma edge_weight input : input < n -> size / 3 ^ (input + 1) = 3 ^ (n - 1 - input).
Proof.
  intros H. replace n with ((n - 1 - input) + (input + 1)) at 1 by lia. rewrite Nat.pow_add_r. apply Nat.div_mul.
  apply Nat.pow_nonzero. lia.
Qed.

Lemma edge_table input : input < n -> exists t,
  build (claim_edges size (size / 3 ^ (input + 1)) input s) (replicate (2 * size * 3) UNSET) = Done t
  /\ length t = 2 * size * 3
  /\ forall inputs new old state, digits n inputs -> inputs !! input = Some new -> old < 3 -> old <> new -> state < 3 ->
       t !! ((relative old new * size + udp_code inputs) * 3 + state) = Some (default UNSET (edge_state inputs input old state)).
Proof.
  intros Hin. rewrite edge_weight by done.
  assert (Hok : Forall (fun row => Forall (fun x => x.1 < length (replicate (2 * size * 3) UNSET) /\ x.2 < 3) (row_edge_claims input row))
                  (sequential_rows_of s)).
  { eapply Forall_impl; [exact Rows |]. intros row Hr. rewrite length_replicate. unfold row_edge_claims.
    destruct (edge row) as [e |]; [| constructor]. destruct (edge_input e =? input); [by apply edge_claims_ok | constructor]. }
  apply Forall_map, Forall_concat in Hok. destruct (claims_spec _ _ Hok) as (t & E & Hl & Ht). exists t. split_and!.
  - unfold build, claim_edges. unfold claims in E. rewrite each_concat in E. erewrite each_ext; [by rewrite E |].
    intros row t'. unfold row_edge_claims. destruct (edge row) as [e |]; [| done]. destruct (edge_input e =? input); [| done].
    apply claim_edge_claims.
  - by rewrite Hl, length_replicate.
  - intros inputs new old state Hi Hnew Ho Hne Hs. pose proof (udp_code_bound n inputs Hi).
    assert (Hnew3 : new < 3) by (destruct Hi as [_ Hi]; rewrite Forall_lookup in Hi; by eapply Hi).
    pose proof (relative_small old new Ho Hnew3 Hne).
    rewrite (Ht _ UNSET) by (apply lookup_replicate; split; [done | nia]). rewrite Nat.eqb_refl. f_equal. f_equal.
    unfold edge_state. apply first_of_rows. eapply Forall_impl; [exact Rows |]. intros row Hr.
    unfold row_edge_claims, moves. destruct (edge row) as [e |]; [| done].
    destruct (Nat.eqb_spec (edge_input e) input) as [_ | _]; [| done]. cbn [andb]. by apply first_of_edge.
Qed.

Lemma next_state_split inputs changed old state :
  next_state s inputs changed old state =
  match level_state inputs state with Some v => v | None => default 2 (edge_state inputs changed old state) end.
Proof.
  unfold next_state, level_state, edge_state, levels, moves. cbv zeta.
  destruct (find (fun row => negb (is_edge row) && _) _); [done |]. cbn [fmap option_fmap option_map].
  by destruct (find _ (sequential_rows_of s)).
Qed.

(** *** The whole index *)

Lemma slot_entries_spec size' level edges : length level = size' -> length edges = size' ->
  slot_entries size' level edges = Done (zip_with merge_entry level edges).
Proof.
  intros Hl He. unfold slot_entries, build.
  set (body := fun position => match level !! position, edges !! position with
                 | Some l, Some e => assign position (merge_entry l e) | _, _ => panic "index out of bounds" end).
  assert (H : forall k, k <= size' ->
    each body (seq 0 k) (replicate size' UDP_UNMATCHED)
    = Done (tt, take k (zip_with merge_entry level edges) ++ replicate (size' - k) UDP_UNMATCHED)).
  { induction k as [| k IH]; intros Hk; [by rewrite Nat.sub_0_r |].
    rewrite seq_S, each_app, IH by lia. cbn [plus]. rewrite each_cons. unfold body at 1.
    destruct (lookup_lt_is_Some_2 level k) as [l El]; [lia |]. destruct (lookup_lt_is_Some_2 edges k) as [e Ee]; [lia |].
    rewrite El, Ee. assert (Hz : zip_with merge_entry level edges !! k = Some (merge_entry l e)) by by rewrite lookup_zip_with, El, Ee.
    assert (Hlen : length (take k (zip_with merge_entry level edges)) = k) by (rewrite length_take, length_zip_with; lia).
    unfold assign. replace (size' - k) with (S (size' - S k)) by lia. cbn [replicate].
    rewrite lookup_app_r, Hlen, Nat.sub_diag by lia. cbn [lookup list_lookup]. rewrite each_nil. do 2 f_equal.
    rewrite insert_app_r_alt, Hlen, Nat.sub_diag by lia. rewrite (take_S_r _ _ _ Hz), <- app_assoc. done. }
  rewrite (H size') by lia. rewrite Nat.sub_diag, app_nil_r, take_ge; [done |]. rewrite length_zip_with. lia.
Qed.

Lemma take_lookup {A} k (l : list A) i : i < k -> take k l !! i = l !! i.
Proof. apply lookup_take_lt. Qed.

Lemma edge_slots_spec level inputs : length level = size * 3 -> Forall (fun input => input < n) inputs ->
  exists rest, edge_slots n s level inputs = Done rest /\ length rest = length inputs * (2 * size * 3)
    /\ forall ordinal input values new old state,
         inputs !! ordinal = Some input -> digits n values -> values !! input = Some new -> old < 3 -> old <> new -> state < 3 ->
         exists l, level !! (udp_code values * 3 + state) = Some l /\
           rest !! (((2 * ordinal + relative old new) * size + udp_code values) * 3 + state)
           = Some (merge_entry l (default UNSET (edge_state values input old state))).
Proof.
  intros Hl H. induction H as [| input inputs Hin H IH]; [exists []; by split_and! |].
  cbn [edge_slots]. destruct (edge_table input Hin) as (t & -> & Ht & Het). destruct IH as (rest & -> & Hrest & Hr).
  rewrite !slot_entries_spec by (rewrite ?length_take, ?length_drop; lia). eexists. split; [done |]. split.
  - rewrite !length_app, !length_zip_with, length_take, length_drop, Hrest. cbn [length]. lia.
  - intros ordinal i values new old state Ho Hv Hnew Hold Hne Hs. pose proof (udp_code_bound n values Hv) as Hb.
    destruct (lookup_lt_is_Some_2 level (udp_code values * 3 + state)) as [l El]; [lia |]. exists l. split; [done |].
    assert (Hnew3 : new < 3) by (destruct Hv as [_ Hv]; rewrite Forall_lookup in Hv; by eapply Hv).
    pose proof (relative_small old new Hold Hnew3 Hne) as Hrel.
    destruct ordinal as [| ordinal]; cbn [lookup list_lookup] in Ho.
    + injection Ho as ->. specialize (Het values new old state Hv Hnew Hold Hne Hs).
      rewrite app_assoc, lookup_app_l; [| rewrite length_app, !length_zip_with, length_take, length_drop; nia].
      destruct (relative old new) as [| [| r]] eqn:Er; [| | lia].
      * replace (((2 * 0 + 0) * size + udp_code values) * 3 + state) with (udp_code values * 3 + state) by lia.
        replace ((0 * size + udp_code values) * 3 + state) with (udp_code values * 3 + state) in Het by lia.
        rewrite lookup_app_l by (rewrite length_zip_with, length_take; lia).
        rewrite lookup_zip_with, El, take_lookup by lia. by rewrite Het.
      * rewrite lookup_app_r; rewrite length_zip_with, length_take; [| lia].
        replace (((2 * 0 + 1) * size + udp_code values) * 3 + state - (length level `min` ((size * 3) `min` length t)))
          with (udp_code values * 3 + state) by lia.
        rewrite lookup_zip_with, El, lookup_drop.
        replace (size * 3 + (udp_code values * 3 + state)) with ((1 * size + udp_code values) * 3 + state) by lia. by rewrite Het.
    + destruct (Hr ordinal i values new old state Ho Hv Hnew Hold Hne Hs) as (l' & El' & E). assert (l' = l) as -> by congruence.
      rewrite app_assoc, lookup_app_r; rewrite length_app, !length_zip_with, length_take, length_drop; [| nia].
      rewrite <- E. f_equal. nia.
Qed.
End Sequential.

(** ** Validated tables *)

Lemma first_bad_none {A} (bad : A -> bool) k l : first_bad bad k l = None -> Forall (fun x => bad x = false) l.
Proof.
  revert k. induction l as [| x l IH]; intros k H; [constructor |]. cbn in H. destruct (bad x) eqn:E; [done |].
  constructor; [done | by eapply IH].
Qed.

Definition combinational_ok (t : IrUdpTable) : Prop := Forall (fun row => length (row_inputs row) = input_count t) (table_rows t).

Lemma validated t : validate_udp_table t = None ->
  input_count t <> 0 /\ combinational_ok t
  /\ match sequential t with
     | Some s => table_rows t = [] /\ Forall (row_ok (input_count t)) (sequential_rows_of s)
     | None => True
     end.
Proof.
  unfold validate_udp_table, combinational_ok. destruct (_ || _) eqn:E0; [done |].
  apply orb_false_elim in E0 as [[E0 _]%orb_false_elim _]. apply Nat.eqb_neq in E0.
  destruct (first_bad _ 0 (table_rows t)) eqn:E1; [done |]. apply first_bad_none in E1. intros H. split_and!.
  - done.
  - eapply Forall_impl; [exact E1 |]. intros row. cbn. by rewrite negb_false_iff, Nat.eqb_eq.
  - destruct (sequential t) as [s |]; [| done]. destruct (table_rows t); [| done].
    destruct (first_bad _ 0 (sequential_rows_of s)) eqn:E2; [done |]. apply first_bad_none in E2. split; [done |].
    eapply Forall_impl; [exact E2 |]. intros row. cbn. rewrite orb_false_iff, negb_false_iff, Nat.eqb_eq. unfold row_ok.
    destruct (edge row); [rewrite Nat.leb_gt |]; tauto.
Qed.

(** *** Inputs with an edge *)

Lemma mark_edges_length rows flags : length (fold_left mark_edge rows flags) = length flags.
Proof.
  revert flags. induction rows as [| row rows IH]; intros flags; [done |]. cbn [fold_left]. rewrite IH. unfold mark_edge.
  destruct (edge row); [by rewrite length_insert | done].
Qed.

Lemma mark_edges_in rows flags i : i < length flags ->
  fold_left mark_edge rows flags !! i = Some true <->
  flags !! i = Some true \/ exists row e, row ∈ rows /\ edge row = Some e /\ edge_input e = i.
Proof.
  revert flags. induction rows as [| row rows IH]; intros flags Hi; [cbn; set_solver |]. cbn [fold_left].
  assert (Hlen : length (mark_edge flags row) = length flags) by (unfold mark_edge; destruct (edge row); [by rewrite length_insert | done]).
  rewrite IH by lia. unfold mark_edge. destruct (edge row) as [e |] eqn:E.
  - destruct (decide (edge_input e = i)) as [He | He].
    + rewrite He, list_lookup_insert_eq by done. split; [| auto]. intros _. right. exists row, e. by split_and!; [left | |].
    + rewrite list_lookup_insert_ne by done. split; (intros [? | (r & e' & Hr & E' & H)]; [by left | right]).
      * exists r, e'. by split_and!; [right | |].
      * exists r, e'. apply elem_of_cons in Hr as [-> | Hr]; [congruence | by split_and!].
  - split; (intros [? | (r & e' & Hr & E' & H)]; [by left | right]).
    + exists r, e'. by split_and!; [right | |].
    + exists r, e'. apply elem_of_cons in Hr as [-> | Hr]; [congruence | by split_and!].
Qed.

Lemma edge_inputs_in s count i : i ∈ edge_inputs s count <->
  i < count /\ exists row e, row ∈ sequential_rows_of s /\ edge row = Some e /\ edge_input e = i.
Proof.
  unfold edge_inputs. cbv zeta. rewrite list_elem_of_In, filter_In, in_seq.
  assert (H : i < count -> default false (fold_left mark_edge (sequential_rows_of s) (replicate count false) !! i) = true
              <-> exists row e, row ∈ sequential_rows_of s /\ edge row = Some e /\ edge_input e = i).
  { intros Hi. pose proof (mark_edges_in (sequential_rows_of s) (replicate count false) i) as Hm.
    rewrite length_replicate in Hm. specialize (Hm Hi). rewrite lookup_replicate_2 in Hm by done.
    destruct (fold_left _ _ _ !! i) as [[] |]; cbn; naive_solver. }
  split; [intros [[_ Hi] Hd] | intros [Hi Hr]]; (split; [lia | by apply H]).
Qed.

Lemma position_of_some i l ordinal : position_of i l = Some ordinal -> l !! ordinal = Some i.
Proof.
  revert ordinal. induction l as [| e l IH]; intros ordinal; cbn; [done |]. destruct (Nat.eqb_spec e i) as [-> | He].
  - by intros [= <-].
  - destruct (position_of i l); cbn; [| done]. intros [= <-]. by apply IH.
Qed.

Lemma position_of_none i l : position_of i l = None -> i ∉ l.
Proof.
  induction l as [| e l IH]; cbn; [set_solver |]. destruct (Nat.eqb_spec e i) as [-> | He]; [done |].
  destruct (position_of i l); cbn; [done |]. intros _ [? | ?]%elem_of_cons; [congruence | by apply IH].
Qed.

(** ** The index *)

(** The index holds the next state of every transition. *)
Definition index_exact (n : nat) (s : IrUdpSequential) (index : list nat) : Prop :=
  forall inputs changed new old state,
    digits n inputs -> inputs !! changed = Some new -> old < 3 -> old <> new -> state < 3 ->
    index !! ((slot_of (edge_inputs s n) changed old new * 3 ^ n + udp_code inputs) * 3 + state)
    = Some (next_state s inputs changed old state).

Lemma entries_agree n edges :
  (match sequential_entries n edges with
   | None => false
   | Some entries => negb ((n =? 0) || (UDP_SEQUENTIAL_DENSE_MAX_ENTRIES <? entries)%Z)
   end)
  = (if (usize_max <? 3 ^ Z.of_nat (n + 1))%Z || (usize_max <? 3 ^ Z.of_nat (n + 1) * Z.of_nat (1 + 2 * edges))%Z then false
     else (0 <? n) && (3 ^ Z.of_nat (n + 1) * Z.of_nat (1 + 2 * edges) <=? UDP_SEQUENTIAL_DENSE_MAX_ENTRIES)%Z).
Proof.
  unfold sequential_entries. replace (3 ^ Z.of_nat (n + 1))%Z with (3 ^ Z.of_nat n * 3)%Z
    by (rewrite Nat2Z.inj_add, Z.pow_add_r by lia; done).
  assert (Hp : (0 < 3 ^ Z.of_nat n)%Z) by (apply Z.pow_pos_nonneg; lia). set (p := (3 ^ Z.of_nat n)%Z) in *. clearbody p.
  set (k := Z.of_nat (1 + 2 * edges)). assert (Hk : (1 <= k)%Z) by (unfold k; lia). clearbody k.
  destruct (Z.ltb_spec usize_max p).
  - rewrite (proj2 (Z.ltb_lt usize_max (p * 3))) by lia. done.
  - destruct (Z.ltb_spec usize_max (p * 3)); [done |]. cbn [orb]. destruct (Z.ltb_spec usize_max (p * 3 * k)); [done |].
    rewrite negb_orb. f_equal; [by destruct n | by rewrite Z.leb_antisym].
Qed.

Lemma sequential_index_spec n s : Forall (row_ok n) (sequential_rows_of s) ->
  exists r, sequential_index n s = Done r
    /\ match r with Some index => index_exact n s index | None => True end
    /\ (match r with Some _ => true | None => false end
        = match sequential_entries n (length (edge_inputs s n)) with
          | None => false
          | Some entries => negb ((n =? 0) || (UDP_SEQUENTIAL_DENSE_MAX_ENTRIES <? entries)%Z)
          end).
Proof.
  intros Hr. unfold sequential_index. cbv zeta. destruct (sequential_entries n _) as [entries |]; [| by exists None].
  destruct (_ || _); [by exists None |]. cbn [negb].
  destruct (level_table n s Hr) as (level & -> & Hl & Hlevel).
  destruct (edge_slots_spec n s Hr level (edge_inputs s n) Hl) as (rest & -> & Hrest & Hedge).
  { apply Forall_forall. intros i Hi. by apply edge_inputs_in in Hi as [? _]. }
  eexists. split; [done |]. split; [| done]. intros inputs changed new old state Hi Hnew Hold Hne Hs.
  pose proof (udp_code_bound n inputs Hi) as Hb. specialize (Hlevel inputs state Hi Hs). rewrite next_state_split.
  assert (Hsmall : forall row st, st < 3 -> resolve_next row st <> UNSET).
  { intros row st Hst. pose proof (resolve_small row st Hst). unfold UNSET. lia. }
  unfold slot_of. destruct (position_of changed (edge_inputs s n)) as [ordinal |] eqn:Ep.
  - apply position_of_some in Ep. destruct (Hedge _ _ _ _ _ _ Ep Hi Hnew Hold Hne Hs) as (l & El & E).
    assert (Hnew3 : new < 3) by (destruct Hi as [_ Hi]; rewrite Forall_lookup in Hi; by eapply Hi).
    assert (Hslot : 1 + 2 * ordinal + old - (if new <? old then 1 else 0) = 1 + (2 * ordinal + relative old new))
      by (unfold relative; destruct (Nat.ltb_spec new old); lia).
    rewrite Hslot. set (slot := 2 * ordinal + relative old new) in *. rewrite lookup_app_r; rewrite length_map; [| lia].
    rewrite Hlevel in El. injection El as <-.
    replace (((1 + slot) * 3 ^ n + udp_code inputs) * 3 + state - length level) with ((slot * 3 ^ n + udp_code inputs) * 3 + state) by lia.
    rewrite E. f_equal. unfold merge_entry, level_state, edge_state.
    destruct (find _ _) as [row |]; cbn [fmap option_fmap option_map default].
    + rewrite (proj2 (Nat.eqb_neq _ _)) by by apply Hsmall. done.
    + rewrite Nat.eqb_refl. cbn [negb]. destruct (find _ _) as [row |]; cbn [fmap option_fmap option_map default].
      * rewrite (proj2 (Nat.eqb_neq _ _)) by by apply Hsmall. done.
      * by rewrite Nat.eqb_refl.
  - apply position_of_none in Ep. replace ((0 * 3 ^ n + udp_code inputs) * 3 + state) with (udp_code inputs * 3 + state) by lia.
    rewrite lookup_app_l by (rewrite length_map; lia). rewrite list_lookup_fmap, Hlevel. cbn [fmap option_fmap option_map]. f_equal.
    unfold level_state, edge_state. destruct (find (fun row => negb _ && _) _) as [row |]; cbn [fmap option_fmap option_map default].
    + rewrite (proj2 (Nat.eqb_neq _ _)) by by apply Hsmall. done.
    + rewrite Nat.eqb_refl. cbn [negb]. destruct (find _ _) as [row |] eqn:Ef; [exfalso | done].
      apply find_some in Ef as [Hrow Hm]. apply andb_prop in Hm as [Hm _]. unfold moves in Hm.
      destruct (edge row) as [e |] eqn:Ee; [| done]. apply andb_prop in Hm as [Hm%Nat.eqb_eq _]. apply Ep, edge_inputs_in.
      split; [apply lookup_lt_Some in Hnew; by rewrite (proj1 Hi) in Hnew |]. exists row, e. by split_and!; [apply list_elem_of_In | |].
Qed.

(** ** Steps *)

(** An input takes its new value: the next state of its transition. *)
Definition ref_take (s : IrUdpSequential) (now : list nat) (st : list nat * nat) (k : nat) : list nat * nat :=
  let '(inputs, state) := st in
  if byte now k =? byte inputs k then st
  else (<[k := byte now k]> inputs, next_state s (<[k := byte now k]> inputs) k (byte inputs k) state).

Definition ref_step (s : IrUdpSequential) (now order : list nat) (st : list nat * nat) : list nat * nat :=
  fold_left (ref_take s now) order st.

Definition step_ok (n : nat) (st : list nat * nat) : Prop := digits n st.1 /\ st.2 < 3.

Lemma byte_lookup n l k : digits n l -> k < n -> l !! k = Some (byte l k) /\ byte l k < 3.
Proof.
  intros [Hl Hf] Hk. destruct (lookup_lt_is_Some_2 l k) as [v E]; [lia |]. unfold byte. rewrite E. split; [done |].
  rewrite Forall_lookup in Hf. by eapply Hf.
Qed.

Lemma next_state_small s inputs changed old state : state < 3 -> next_state s inputs changed old state < 3.
Proof.
  intros Hs. unfold next_state. cbv zeta. destruct (find _ _); [by apply resolve_small |].
  destruct (find _ _); [by apply resolve_small | cbn; lia].
Qed.

Lemma ref_take_ok n s now st k : digits n now -> k < n -> step_ok n st -> step_ok n (ref_take s now st k).
Proof.
  destruct st as [inputs state]. intros Hn Hk [Hi Hs]. unfold ref_take. destruct (_ =? _); [done |].
  destruct (byte_lookup n now k Hn Hk) as [_ Hd], (byte_lookup n inputs k Hi Hk) as [E _].
  split; [by eapply udp_code_insert | by apply next_state_small].
Qed.

Lemma ref_step_ok n s now order st :
  digits n now -> Forall (fun k => k < n) order -> step_ok n st -> step_ok n (ref_step s now order st).
Proof.
  intros Hn Ho. revert st. induction Ho as [| k order Hk Ho IH]; intros st Hst; [done |]. apply IH. by apply ref_take_ok.
Qed.

(** A fold simulates another when each of its bodies does. *)
Lemma fold_simulates {A B C} (rel : A -> B) (ok : A -> Prop) (dom : C -> Prop) (f : A -> C -> A) (g : B -> C -> B) xs a :
  (forall a x, ok a -> dom x -> ok (f a x) /\ g (rel a) x = rel (f a x)) -> ok a -> Forall dom xs ->
  fold_left g xs (rel a) = rel (fold_left f xs a).
Proof.
  intros H Ha Hxs. revert a Ha. induction Hxs as [| x xs Hx Hxs IH]; intros a Ha; [done |]. cbn [fold_left].
  destruct (H a x Ha Hx) as [Ha' ->]. by apply IH.
Qed.

(** *** The dense form *)

Lemma dense_step_ref n s index now order inputs state :
  index_exact n s index -> digits n now -> Forall (fun k => k < n) order -> digits n inputs -> state < 3 ->
  dense_step n (edge_inputs s n) index now order (udp_code inputs, state)
  = let st := ref_step s now order (inputs, state) in (udp_code st.1, st.2).
Proof.
  intros Hx Hn Ho Hi Hs. unfold dense_step, ref_step. cbv zeta.
  change (udp_code inputs, state) with ((fun st : list nat * nat => (udp_code st.1, st.2)) (inputs, state)).
  rewrite (fold_simulates _ (step_ok n) (fun k => k < n) (ref_take s now) _ order (inputs, state)); [done | | done | done].
  intros [inp st] k Hst Hk. split; [by apply ref_take_ok |]. destruct Hst as [Hi' Hs']. cbn [fst snd] in *.
  destruct (byte_lookup n now k Hn Hk) as [En Hd], (byte_lookup n inp k Hi' Hk) as [Ei Hw].
  unfold dense_take, ref_take. rewrite (udp_code_digit n inp k _ Hi' Ei). destruct (Nat.eqb_spec (byte now k) (byte inp k)); [done |].
  destruct (udp_code_insert n inp k _ _ Hi' Hd Ei) as [Hi2 E].
  destruct (udp_code_insert n inp k _ 0 Hi' ltac:(lia) Ei) as [_ E0].
  replace (udp_code inp - _ + _) with (udp_code (<[k := byte now k]> inp)) by lia. cbn [fst snd]. f_equal.
  unfold byte at 1. rewrite (Hx _ _ (byte now k)); [done | done | | done | done | done].
  apply list_lookup_insert_eq. rewrite (proj1 Hi'). done.
Qed.

(** *** The wide form *)

Lemma concat_lookup {A} w (ls : list (list A)) r l j :
  Forall (fun l => length l = w) ls -> ls !! r = Some l -> j < w -> concat ls !! (r * w + j) = l !! j.
Proof.
  intros H. revert r. induction H as [| x ls Hx H IH]; intros r Hr Hj; [done |]. destruct r as [| r]; cbn [concat].
  - injection Hr as ->. rewrite lookup_app_l; [done | lia].
  - rewrite lookup_app_r by lia. rewrite <- (IH r Hr Hj). f_equal. lia.
Qed.

Lemma concat_length {A} w (ls : list (list A)) : Forall (fun l => length l = w) ls -> length (concat ls) = length ls * w.
Proof. induction 1 as [| x ls Hx H IH]; [done |]. cbn [concat length]. rewrite length_app. lia. Qed.

Lemma mask_has_matches f v : v < 3 -> mask_has (mask f) v = matches f v.
Proof. intros H. unfold matches. by rewrite (proj2 (Nat.ltb_lt v 3) H). Qed.

Section Encoded.
Context (n : nat).

(** The masks of one input in a row: of its value, and of the old value of
    its edge. *)
Definition row_field (row : IrUdpSequentialRow) (input : nat) (field : IrUdpInput) : list nat :=
  [mask field; match edge row with Some e => if edge_input e =? input then mask (edge_from e) else 0 | None => 0 end].

Lemma row_fields_two row : Forall (fun l => length l = 2) (imap (row_field row) (level_fields row)).
Proof. apply Forall_lookup_2. intros i l. rewrite list_lookup_imap. by destruct (level_fields row !! i); [intros [= <-] |]. Qed.

Lemma encode_row_length row : length (level_fields row) = n -> length (encode_row row) = 3 + 2 * n.
Proof.
  intros <-. change (3 + length (concat (imap (row_field row) (level_fields row))) = 3 + 2 * length (level_fields row)).
  rewrite (concat_length 2), length_imap by apply row_fields_two. lia.
Qed.

Lemma encode_row_field row j f : level_fields row !! j = Some f ->
  byte (encode_row row) (3 + 2 * j) = mask f
  /\ byte (encode_row row) (4 + 2 * j)
     = match edge row with Some e => if edge_input e =? j then mask (edge_from e) else 0 | None => 0 end.
Proof.
  intros E. assert (Hb : forall i, byte (encode_row row) (3 + i) = default 0 (concat (imap (row_field row) (level_fields row)) !! i)) by done.
  assert (Hj : imap (row_field row) (level_fields row) !! j = Some (row_field row j f)) by by rewrite list_lookup_imap, E.
  split.
  - replace (3 + 2 * j) with (3 + (j * 2 + 0)) by lia. rewrite Hb. by rewrite (concat_lookup 2 _ j _ 0 (row_fields_two row) Hj) by lia.
  - replace (4 + 2 * j) with (3 + (j * 2 + 1)) by lia. rewrite Hb. by rewrite (concat_lookup 2 _ j _ 1 (row_fields_two row) Hj) by lia.
Qed.

(** The bytes of a row among the encoded rows. *)
Lemma encoded_byte rows r row j : Forall (row_ok n) rows -> rows !! r = Some row -> j < 3 + 2 * n ->
  byte (concat (map encode_row rows)) (r * (3 + 2 * n) + j) = byte (encode_row row) j.
Proof.
  intros H Hr Hj. unfold byte. rewrite (concat_lookup (3 + 2 * n) _ r (encode_row row)); [done | | | done].
  - apply List.Forall_map. eapply Forall_impl; [exact H |]. intros x [Hx _]. by apply encode_row_length.
  - by rewrite list_lookup_fmap, Hr.
Qed.

(** The fields of a row against the inputs, one byte at a time. *)
Lemma forallb_fields (field : nat -> nat) fs inputs : digits (length fs) inputs ->
  (forall j f, fs !! j = Some f -> field j = mask f) ->
  forallb (fun j => mask_has (field j) (byte inputs j)) (seq 0 (length fs)) = fields_match fs inputs.
Proof.
  intros [Hl Hd]. revert field inputs Hl Hd. induction fs as [| f fs IH]; intros field inputs Hl Hd Hf; [by destruct inputs |].
  destruct inputs as [| v inputs]; [done |]. apply Forall_cons in Hd as [Hv Hd]. cbn [length seq forallb].
  rewrite (Hf 0 f eq_refl), mask_has_matches by done. unfold fields_match. cbn [zip zip_with forallb]. unfold byte at 1. cbn. f_equal.
  rewrite <- seq_shift, forallb_map.
  apply (IH (fun j => field (S j)) inputs); [by injection Hl | done |]. intros j g. apply (Hf (S j)).
Qed.

(** What a pass of the scan tests of a row. *)
Definition pass_test (pass k was : nat) (inputs : list nat) (state : nat) (row : IrUdpSequentialRow) : bool :=
  (if pass =? 0 then negb (is_edge row) else moves k was row) && levels inputs state row.

Lemma encoded_test row inputs pass k was state : row_ok n row -> digits n inputs -> k < n -> was < 3 -> state < 3 -> pass < 2 ->
  let at_ := byte (encode_row row) in
  (at_ 0 =? pass) && mask_has (at_ 1) state && (negb (pass =? 1) || mask_has (at_ (4 + 2 * k)) was)
    && forallb (fun j => mask_has (at_ (3 + 2 * j)) (byte inputs j)) (seq 0 n)
  = pass_test pass k was inputs state row.
Proof.
  intros [Hl He] Hi Hk Hw Hs Hp. cbv zeta. unfold pass_test, levels.
  assert (Hfields : forallb (fun j => mask_has (byte (encode_row row) (3 + 2 * j)) (byte inputs j)) (seq 0 n)
                    = fields_match (level_fields row) inputs).
  { revert Hi. rewrite <- Hl. intros Hi. apply (forallb_fields (fun j => byte (encode_row row) (3 + 2 * j))); [done |].
    intros j f Hf. by apply (encode_row_field row j f). }
  rewrite Hfields. destruct (lookup_lt_is_Some_2 (level_fields row) k) as [f Hf]; [lia |].
  rewrite (proj2 (encode_row_field row k f Hf)).
  change (byte (encode_row row) 0) with (if is_edge row then 1 else 0). change (byte (encode_row row) 1) with (mask (state_field row)).
  rewrite mask_has_matches by done. unfold moves, is_edge.
  destruct pass as [| [| ]]; [| | lia]; cbn [Nat.eqb negb orb]; destruct (edge row) as [e |]; cbn [Nat.eqb negb andb]; try done.
  - by rewrite andb_true_r.
  - destruct (edge_input e =? k); cbn [andb].
    + rewrite mask_has_matches by done. by destruct (matches (state_field row) state), (matches (edge_from e) was).
    + unfold mask_has. rewrite Nat.land_0_l. cbn. by rewrite andb_false_r.
Qed.

Lemma encoded_next row state : state < 3 ->
  (if byte (encode_row row) 2 =? 3 then state else byte (encode_row row) 2) = resolve_next row state.
Proof. intros H. unfold resolve_next. cbn. by destruct (next row) as [[] |]. Qed.

Lemma scan_pass_find rows inputs pass k was state :
  Forall (row_ok n) rows -> digits n inputs -> k < n -> was < 3 -> state < 3 -> pass < 2 ->
  scan_pass (concat (map encode_row rows)) n inputs pass k was state 0 (length rows)
  = (fun row => resolve_next row state) <$> find (pass_test pass k was inputs state) rows.
Proof.
  intros H Hi Hk Hw Hs Hp.
  assert (Hgen : forall rest before, rows = before ++ rest ->
    scan_pass (concat (map encode_row rows)) n inputs pass k was state (length before) (length rest)
    = (fun row => resolve_next row state) <$> find (pass_test pass k was inputs state) rest); [| by apply (Hgen rows [])].
  induction rest as [| row rest IH]; intros before E; [done |]. cbn [length scan_pass find]. cbv zeta.
  assert (Hr : rows !! length before = Some row) by by rewrite E, list_lookup_middle.
  assert (Hok : row_ok n row) by (rewrite Forall_lookup in H; by eapply H).
  pose proof (encoded_test row inputs pass k was state Hok Hi Hk Hw Hs Hp) as Ht. cbv zeta in Ht.
  rewrite !(encoded_byte rows (length before) row) by (done || lia).
  erewrite forallb_ext_in; [rewrite Ht |].
  - destruct (pass_test _ _ _ _ _ _); [cbn; f_equal; by apply encoded_next |].
    replace (S (length before)) with (length (before ++ [row])) by (rewrite length_app; cbn; lia). apply IH. by rewrite <- app_assoc.
  - intros j [_ Hj]%in_seq. cbn in Hj. by rewrite (encoded_byte rows (length before) row) by (done || lia).
Qed.

Lemma wide_take_ref s now st k : Forall (row_ok n) (sequential_rows_of s) -> digits n now -> k < n -> step_ok n st ->
  wide_take (sequential_rows s) (length (sequential_rows_of s)) n now st k = ref_take s now st k.
Proof.
  destruct st as [inputs state]. intros H Hn Hk [Hi Hs]. cbn [fst snd] in *. unfold wide_take, ref_take. cbv zeta.
  destruct (byte_lookup n now k Hn Hk) as [En Hd], (byte_lookup n inputs k Hi Hk) as [Ei Hw].
  destruct (byte now k =? byte inputs k); [done |]. destruct (udp_code_insert n inputs k _ _ Hi Hd Ei) as [Hi2 _].
  f_equal. unfold sequential_rows. rewrite !scan_pass_find by first [done | lia | apply Hi2]. unfold next_state. cbv zeta.
  set (inputs' := <[k := byte now k]> inputs).
  change (find (fun row => negb (is_edge row) && _) (sequential_rows_of s))
    with (find (pass_test 0 k (byte inputs k) inputs' state) (sequential_rows_of s)).
  change (find (fun row => _ && _) (sequential_rows_of s))
    with (find (pass_test 1 k (byte inputs k) inputs' state) (sequential_rows_of s)).
  destruct (find (pass_test 0 _ _ _ _) _); [done |]. by destruct (find (pass_test 1 _ _ _ _) _).
Qed.
End Encoded.

(** *** A step takes every input *)

Lemma ref_take_byte s now st k j : byte now k <> byte st.1 k -> k < length st.1 ->
  byte (ref_take s now st k).1 j = if j =? k then byte now j else byte st.1 j.
Proof.
  destruct st as [inputs state]. cbn [fst]. intros Hne Hk. unfold ref_take. rewrite (proj2 (Nat.eqb_neq _ _) Hne). cbn [fst].
  unfold byte at 1. destruct (Nat.eqb_spec j k) as [-> | Hj]; [by rewrite list_lookup_insert_eq | by rewrite list_lookup_insert_ne].
Qed.

Lemma ref_step_taken n s now order st j :
  digits n now -> Forall (fun k => k < n) order -> step_ok n st -> j ∈ order \/ byte st.1 j = byte now j ->
  byte (ref_step s now order st).1 j = byte now j.
Proof.
  intros Hn Ho. revert st. induction Ho as [| k order Hk Ho IH]; intros st Hst Hj.
  - cbn. destruct Hj as [Hj | Hj]; [by apply elem_of_nil in Hj | done].
  - cbn [ref_step fold_left]. apply IH; [by apply ref_take_ok |]. destruct (decide (byte now k = byte st.1 k)) as [E | E].
    + assert (ref_take s now st k = st) as -> by (destruct st; unfold ref_take; cbn [fst] in E; by rewrite E, Nat.eqb_refl).
      destruct Hj as [[-> | Hj]%elem_of_cons | Hj]; [by right | by left | by right].
    + destruct Hst as [[Hl _] _]. rewrite (ref_take_byte s now st k j E) by lia. destruct (Nat.eqb_spec j k) as [-> | Hjk]; [by right |].
      destruct Hj as [[-> | Hj]%elem_of_cons | Hj]; [done | by left | by right].
Qed.

Lemma step_order_lt {Change} (is_input : Change -> nat -> bool) n changes : Forall (fun k => k < n) (step_order is_input n changes).
Proof.
  apply Forall_app_2; [| apply Forall_forall; intros k Hk%list_elem_of_In%in_seq; lia].
  apply Forall_concat, List.Forall_map, Forall_forall. intros c _. apply Forall_forall.
  intros k [Hk%in_seq _]%list_elem_of_In%filter_In. lia.
Qed.

Lemma ref_step_order n {Change} (is_input : Change -> nat -> bool) s now changes st : digits n now -> step_ok n st ->
  (ref_step s now (step_order is_input n changes) st).1 = now.
Proof.
  intros Hn Hst. pose proof (step_order_lt is_input n changes) as Ho. pose proof (ref_step_ok n s now _ st Hn Ho Hst) as [Hr _].
  apply list_eq. intros j. destruct (decide (j < n)) as [Hj | Hj].
  - destruct (byte_lookup n _ j Hr Hj) as [-> _], (byte_lookup n now j Hn Hj) as [-> _]. f_equal.
    apply (ref_step_taken n); [done | done | done |]. left. apply elem_of_app. right. apply list_elem_of_In, in_seq. lia.
  - destruct Hr as [Hr _], Hn as [Hn _]. by rewrite !lookup_ge_None_2 by lia.
Qed.

(** ** Combinational definitions *)

Definition nones (index : list (option nat)) : nat := length (List.filter (fun e => match e with None => true | Some _ => false end) index).

Lemma nones_insert index p v : index !! p = Some None -> nones index = S (nones (<[p := Some v]> index)).
Proof.
  revert p. induction index as [| e index IH]; intros p H; [done |]. destruct p as [| p].
  - injection H as ->. done.
  - cbn [lookup list_lookup] in H. change (<[S p := Some v]> (e :: index)) with (e :: <[p := Some v]> index).
    unfold nones in *. cbn [List.filter]. destruct e; cbn [length]; by rewrite (IH p H).
Qed.

Lemma nones_zero index p e : nones index = 0 -> index !! p = Some e -> is_Some e.
Proof.
  revert p. induction index as [| x index IH]; intros p H Hp; [done |]. unfold nones in *. cbn [List.filter] in H.
  destruct x as [v |]; [| done]. destruct p as [| p]; [injection Hp as <-; by eexists | by eapply IH].
Qed.

Lemma nones_replicate k : nones (replicate k None) = k.
Proof. unfold nones. induction k as [| k IH]; [done |]. cbn. by rewrite IH. Qed.

(** The first of an entry and a value. *)
Definition first_set (e v : option nat) : option nat := match e with Some x => Some x | None => v end.

Lemma claim_outputs_spec output codes index :
  Forall (fun c => c < length index) codes ->
  exists index', each (claim_output output) codes (index, nones index) = Done (tt, (index', nones index'))
    /\ length index' = length index
    /\ forall p e, index !! p = Some e -> index' !! p = Some (first_set e (if bool_decide (p ∈ codes) then Some output else None)).
Proof.
  revert index. induction codes as [| c codes IH]; intros index H.
  - exists index. split_and!; [done | done |]. intros p e ->. by destruct e.
  - apply Forall_cons in H as [Hc H]. rewrite each_cons. destruct (lookup_lt_is_Some_2 index c Hc) as [e0 E0].
    unfold claim_output at 1. rewrite E0. destruct e0 as [v0 |].
    + destruct (IH index H) as (index' & E & Hl & Hi). exists index'. split_and!; [done | done |]. intros p e Ep.
      rewrite (Hi p e Ep). destruct e as [v |]; [done |]. cbn. f_equal. assert (p <> c) by congruence.
      by rewrite (bool_decide_ext (p ∈ c :: codes) (p ∈ codes)) by set_solver.
    + rewrite (nones_insert index c output E0). destruct (IH (<[c := Some output]> index)) as (index' & E & Hl & Hi).
      { by rewrite length_insert. }
      exists index'. split_and!; [done | by rewrite Hl, length_insert |]. intros p e Ep.
      destruct (decide (p = c)) as [-> | Hp].
      * rewrite E0 in Ep. injection Ep as <-. rewrite (Hi c (Some output)) by by apply list_lookup_insert_eq.
        cbn. rewrite bool_decide_true by set_solver. done.
      * rewrite (Hi p e) by by rewrite list_lookup_insert_ne. destruct e as [v |]; [done |]. cbn. f_equal.
        by rewrite (bool_decide_ext (p ∈ c :: codes) (p ∈ codes)) by set_solver.
Qed.

(** The output of the first matching row. *)
Definition first_row (rows : list IrUdpRow) (inputs : list nat) : option nat :=
  (fun row => output_code (row_output row)) <$> find (fun row => fields_match (row_inputs row) inputs) rows.

Lemma claim_rows_spec n rows index :
  Forall (fun row => length (row_inputs row) = n) rows -> length index = 3 ^ n ->
  exists index', claim_rows rows (index, nones index) = Done (tt, (index', nones index'))
    /\ length index' = 3 ^ n
    /\ forall inputs e, digits n inputs -> index !! udp_code inputs = Some e ->
         index' !! udp_code inputs = Some (first_set e (first_row rows inputs)).
Proof.
  intros H. revert index. induction H as [| row rows Hrow H IH]; intros index Hl.
  - exists index. split_and!; [done | done |]. intros inputs e _ ->. by destruct e.
  - cbn [claim_rows]. unfold bind, gets. cbn [snd]. destruct (Nat.eqb_spec (nones index) 0) as [H0 | H0].
    + exists index. split_and!; [done | done |]. intros inputs e _ E. rewrite E.
      apply (nones_zero _ _ _ H0) in E as [v ->]. done.
    + destruct (claim_outputs_spec (output_code (row_output row)) (level_codes (row_inputs row)) index) as (i1 & E1 & Hl1 & H1).
      { apply Forall_forall. intros c (l & Hd & _ & ->)%level_codes_in. rewrite Hl, <- Hrow. by apply udp_code_bound. }
      rewrite E1. destruct (IH i1) as (i2 & E2 & Hl2 & H2); [by rewrite Hl1 |]. exists i2. split_and!; [done | done |].
      intros inputs e Hi Ee. rewrite (H2 inputs _ Hi (H1 _ _ Ee)). unfold first_row. cbn [find]. f_equal.
      destruct e as [v |]; [done |]. pose proof (level_codes_code n (row_inputs row) inputs Hrow Hi) as Hc.
      destruct (fields_match (row_inputs row) inputs); cbn [first_set].
      * by rewrite bool_decide_true by by apply Hc.
      * rewrite bool_decide_false; [done |]. intros Hin%Hc. done.
Qed.

Lemma dense_index_spec t : combinational_ok t -> input_count t <> 0 -> input_count t <= UDP_DENSE_INDEX_MAX_INPUTS ->
  exists index, dense_index t = Done (Some index)
    /\ forall inputs, digits (input_count t) inputs ->
         index !! udp_code inputs = Some (default UDP_UNMATCHED (first_row (table_rows t) inputs)).
Proof.
  intros Hok H0 Hmax. unfold dense_index. cbv zeta. rewrite (proj2 (Nat.eqb_neq _ _) H0), (proj2 (Nat.ltb_ge _ _) Hmax). cbn [orb].
  set (n := input_count t) in *.
  destruct (claim_rows_spec n (table_rows t) (replicate (3 ^ n) None) Hok (length_replicate _ _)) as (index & E & Hl & Hi).
  rewrite nones_replicate in E. rewrite E. eexists. split; [done |]. intros inputs Hd. rewrite list_lookup_fmap.
  rewrite (Hi inputs None Hd); [done |]. apply lookup_replicate. split; [done |]. by apply udp_code_bound.
Qed.

Lemma scan_rows_find n rows inputs : Forall (fun row => length (row_inputs row) = n) rows -> digits n inputs ->
  scan_rows (concat (map encode_output_row rows)) n inputs 0 (length rows) = default UDP_UNMATCHED (first_row rows inputs).
Proof.
  intros H Hi.
  assert (Hgen : forall rest before, rows = before ++ rest ->
    scan_rows (concat (map encode_output_row rows)) n inputs (length before) (length rest)
    = default UDP_UNMATCHED (first_row rest inputs)); [| by apply (Hgen rows [])].
  induction rest as [| row rest IH]; intros before E; [done |]. cbn [length scan_rows]. unfold first_row. cbn [find].
  assert (Hr : rows !! length before = Some row) by by rewrite E, list_lookup_middle.
  assert (Hrow : length (row_inputs row) = n) by (rewrite Forall_lookup in H; by eapply H).
  assert (Hb : forall j, j < n + 1 ->
    concat (map encode_output_row rows) !! (length before * (n + 1) + j) = encode_output_row row !! j).
  { intros j Hj. apply (concat_lookup (n + 1)); [| by rewrite list_lookup_fmap, Hr | done].
    apply List.Forall_map. eapply Forall_impl; [exact H |]. intros x Hx. unfold encode_output_row. rewrite length_app, length_map, Hx. done. }
  rewrite (forallb_ext_in _ (fun k => mask_has (byte (encode_output_row row) k) (byte inputs k))).
  2: { intros k [_ Hk]%in_seq. unfold byte at 1. by rewrite Hb by lia. }
  replace (seq 0 n) with (seq 0 (length (row_inputs row))) by by rewrite Hrow.
  rewrite (forallb_fields (byte (encode_output_row row))).
  - unfold byte at 1. rewrite Hb by lia. unfold encode_output_row. rewrite lookup_app_r; rewrite length_map; [| lia].
    rewrite Hrow, Nat.sub_diag. destruct (fields_match _ _); [done |].
    replace (S (length before)) with (length (before ++ [row])) by (rewrite length_app; cbn; lia). apply IH. by rewrite <- app_assoc.
  - by rewrite Hrow.
  - intros j f Hf. unfold byte, encode_output_row. rewrite lookup_app_l; [by rewrite list_lookup_fmap, Hf |].
    rewrite length_map. by eapply lookup_lt_Some.
Qed.

(** ** The properties *)

(** Z is taken as X. *)
Lemma udp_digits_ok states : digits (length states) (map udp_digit states).
Proof.
  split; [apply length_map |]. apply List.Forall_map, Forall_true. intros state. unfold udp_digit.
  destruct (Nat.ltb_spec 2 state); lia.
Qed.

(** C0: for a validated sequential definition the generator of the transition
    index never indexes out of bounds; it gives an index exactly when the
    emission plan calls the definition dense, and then the index holds, at the
    code of every input vector, the slot of every transition and every state,
    the next state that the rows give: the first matching level row, else the
    first matching edge row, else X. *)
Theorem sequential_index_exact t s : validate_udp_table t = None -> sequential t = Some s ->
  exists index, sequential_index (input_count t) s = Done index
    /\ (if index then true else false) = dense_sequential t
    /\ match index with Some index => index_exact (input_count t) s index | None => True end.
Proof.
  intros (_ & _ & Hs)%validated E. rewrite E in Hs. destruct Hs as [_ Hr].
  destruct (sequential_index_spec (input_count t) s Hr) as (r & Er & Hx & Hd). exists r. split_and!; [done | | done].
  unfold dense_sequential. rewrite E. cbv zeta. by rewrite <- entries_agree, <- Hd.
Qed.

(** C0: one step of a sequential primitive, over the changed inputs and then
    over all of them, with Z read as X, leaves the new input values and the state that the table
    rows give when they are taken one at a time in that order; the scan of the
    encoded rows and, where there is one, the dense index compute the same
    step. *)
Theorem steps_agree {Change} (is_input : Change -> nat -> bool) (changes : list Change) t s inputs states state :
  validate_udp_table t = None -> sequential t = Some s ->
  digits (input_count t) inputs -> length states = input_count t -> state < 3 ->
  let now := map udp_digit states in
  let order := step_order is_input (input_count t) changes in
  let final := (ref_step s now order (inputs, state)).2 in
  wide_step (sequential_rows s) (length (sequential_rows_of s)) (input_count t) now order (inputs, state) = (now, final)
  /\ forall index, sequential_index (input_count t) s = Done (Some index) ->
     dense_step (input_count t) (edge_inputs s (input_count t)) index now order (udp_code inputs, state) = (udp_code now, final).
Proof.
  intros (_ & _ & Hs)%validated E Hi Hn Hst. rewrite E in Hs. destruct Hs as [_ Hr]. cbv zeta.
  pose proof (udp_digits_ok states) as Hnow. rewrite Hn in Hnow. clear Hn. rename Hnow into Hn.
  set (n := input_count t) in *. set (now := map udp_digit states) in *. clearbody now.
  set (order := step_order is_input n changes). pose proof (step_order_lt is_input n changes : Forall _ order) as Ho.
  pose proof (ref_step_order n is_input s now changes (inputs, state) Hn (conj Hi Hst) : (ref_step s now order _).1 = now) as Hf. split.
  - unfold wide_step.
    rewrite (fold_simulates id (step_ok n) (fun k => k < n) (ref_take s now) _ order (inputs, state)); [| | done | done].
    + unfold id. fold (ref_step s now order (inputs, state)). destruct (ref_step s now order (inputs, state)). cbn in *. by subst.
    + intros a x Ha Hx. split; [by apply ref_take_ok | by apply wide_take_ref].
  - intros index Ex. destruct (sequential_index_spec n s Hr) as (r & Er & Hx & _). rewrite Ex in Er. injection Er as <-.
    rewrite (dense_step_ref n s index now order inputs state Hx Hn Ho Hi Hst). cbv zeta. by rewrite Hf.
Qed.

(** C0: for a validated combinational definition the evaluation function that
    is emitted, by index up to ten inputs and by a scan of the encoded rows
    above, never panics and gives the output of the first row that matches,
    and X when no row does; the count of unset entries that ends the index
    early never goes below zero. *)
Theorem udp_eval_exact t states : validate_udp_table t = None -> length states = input_count t ->
  let inputs := map udp_digit states in
  udp_eval t inputs = Done (default (output_code OutUnknown) (first_row (table_rows t) inputs)).
Proof.
  intros (H0 & Hok & _)%validated Hl. cbv zeta. pose proof (udp_digits_ok states) as Hi. rewrite Hl in Hi. unfold udp_eval. destruct (Nat.ltb_spec UDP_DENSE_INDEX_MAX_INPUTS (input_count t)).
  - f_equal. by apply scan_rows_find.
  - destruct (dense_index_spec t Hok H0 ltac:(lia)) as (index & -> & Hx). by rewrite (Hx _ Hi).
Qed.

(** ** Witnesses *)

(** A flip-flop: data, then clock. *)
Definition dff : IrUdpSequential := mkSequential OutUnknown
  [mkSequentialRow [FieldZero; FieldOne] (Some (mkUdpEdge 1 FieldZero)) Any (NextOutput OutZero);
   mkSequentialRow [FieldOne; FieldOne] (Some (mkUdpEdge 1 FieldZero)) Any (NextOutput OutOne);
   mkSequentialRow [Any; ZeroOrUnknown] (Some (mkUdpEdge 1 Any)) Any Hold;
   mkSequentialRow [Any; FieldOne] (Some (mkUdpEdge 1 FieldUnknown)) Any Hold;
   mkSequentialRow [Any; Any] (Some (mkUdpEdge 0 Any)) Any Hold].

Definition dff_table : IrUdpTable := mkUdpTable "dff" 2 [] (Some dff).

(** A multiplexer: select, then the two data inputs. *)
Definition mux_table : IrUdpTable := mkUdpTable "mux" 3
  [mkUdpRow [FieldZero; FieldOne; Any] OutOne; mkUdpRow [FieldZero; FieldZero; Any] OutZero;
   mkUdpRow [FieldOne; Any; FieldOne] OutOne; mkUdpRow [FieldOne; Any; FieldZero] OutZero;
   mkUdpRow [FieldUnknown; FieldOne; FieldOne] OutOne; mkUdpRow [FieldUnknown; FieldZero; FieldZero] OutZero] None.

Lemma sequential_index_exact_witness : validate_udp_table dff_table = None /\
  exists index, sequential_index 2 dff = Done (Some index) /\ index_exact 2 dff index.
Proof.
  split; [by vm_compute |].
  destruct (sequential_index_exact dff_table dff ltac:(by vm_compute) eq_refl) as (index & E & Hd & Hx).
  destruct index as [index |]; [exact (ex_intro _ index (conj E Hx)) | vm_compute in Hd; discriminate].
Defined.

(** The data input changes, then the clock rises: in port order the new value
    is stored; when the clock changed first, the old one is. *)
Lemma steps_agree_witness :
  wide_step (sequential_rows dff) 5 2 [1; 1] (step_order Nat.eqb 2 []) ([0; 0], 2) = ([1; 1], 1)
  /\ wide_step (sequential_rows dff) 5 2 [1; 1] (step_order Nat.eqb 2 [1; 0]) ([0; 0], 2) = ([1; 1], 0).
Proof.
  assert (Hi : digits 2 [0; 0]) by (split; [done | repeat constructor]).
  split; [exact (proj1 (steps_agree Nat.eqb [] dff_table dff [0; 0] [1; 1] 2 ltac:(by vm_compute) eq_refl Hi eq_refl ltac:(lia)))
         | exact (proj1 (steps_agree Nat.eqb [1; 0] dff_table dff [0; 0] [1; 1] 2 ltac:(by vm_compute) eq_refl Hi eq_refl ltac:(lia)))].
Defined.

Lemma udp_eval_exact_witness : udp_eval mux_table [1; 2; 1] = Done 1 /\ udp_eval mux_table (map udp_digit [3; 0; 1]) = Done 2.
Proof.
  split; [exact (udp_eval_exact mux_table [1; 2; 1] ltac:(by vm_compute) eq_refl)
         | exact (udp_eval_exact mux_table [3; 0; 1] ltac:(by vm_compute) eq_refl)].
Defined.
